(* ===== verification/_CoqProject ===== *)
-Q . S2P
Prelude.v
StdIo.v
WireFormat.v
Derive.v
MessageTypes.v
Messages.v
FrameFacts.v
Os.v
ReadDir.v
Ufs.v
Extensions.v
Protocol.v
Session.v
Ownership.v
UfsFacts.v
Service.v
Concurrent.v
Witnesses.v
Checked.v
AddressRange.v
AddressAllocator.v
AllocatorFacts.v
SystemAllocator.v
SystemFacts.v
Bits.v
Bus.v
BusFacts.v
Pic.v
PicFacts.v
IoBus.v
GuestMemory.v
GuestMemoryFacts.v
DescriptorUtils.v
StreamFacts.v
DescriptorChain.v
SplitQueue.v
PackedQueue.v
ChainFacts.v
SplitFacts.v
PackedFacts.v
DeviceExamples.v
QueueExamples.v
DeviceTree.v
DeviceTreeFacts.v
DeviceTreeEdits.v
Overlay.v
OverlayFacts.v
OverlayRefs.v
OverlayApply.v
OverlayFilter.v
DeviceTreeExamples.v
DiskFile.v
DiskFacts.v
SparseImage.v
SparseFacts.v
SparseFormat.v
Gpt.v
CompositeDisk.v
CompositeFacts.v
CompositeOpen.v
CompositeCreate.v
GptFacts.v
CreateFacts.v
CreateReopen.v
ToyHost.v
DiskExamples.v
AsyncDisk.v
AsyncFacts.v
AsyncComposite.v
AsyncDepth.v
BlockDevice.v
BlockFacts.v
BlockSpec.v
BlockControl.v
BlockWorker.v
BlockServe.v
BlockRun.v
BlockConfig.v
BlockLife.v
BlockExamples.v
