(* ===== verification/Prelude.v ===== *)
(** * JetStream and libcrosvm: a verification development

    The repository has two programs.  JetStream (under [src/jetstream]) serves a
    directory of the host over the 9P2000.L protocol and provides a macro that turns
    a trait into a protocol of the same kind.  A request travels as a frame of bytes.
    A task per QUIC stream decodes the frames and sends them through a queue to the
    one file server, which answers each with system calls on the descriptors it keeps
    for the client; the reply is encoded and written to the stream the request came
    from.
    A proxy relays frames between a socket and such a server.  libcrosvm (under
    [src/libcrosvm]) is a virtual machine monitor.  Its crate [resources] hands out
    the addresses, interrupt numbers and PCI functions of a virtual machine.  The
    processor reaches the devices through a bus, which finds the device of an
    address; the interrupt controller is one of these devices.  Virtio devices
    talk to the driver of the guest through queues in guest memory: the driver
    makes chains of buffers available, the device pops them, reads and writes the
    buffers as streams, and hands the chains back as used.  The hardware is described
    to the guest by a device tree, to which overlays can be applied.  The disks of
    the guest are files of the host, raw, in the sparse format of Android, or put
    together from other disks by a specification.  The block device serves such a
    disk to the guest: a worker pops the chains of its queues, a task for each
    executes the request in it on the disk, and commands of the monitor resize the
    disk, and stop and start the queues when the machine sleeps and wakes.

    ** The files

    - [Prelude]: machine integers ([uint w] is an integer with the proof that it
      fits [w] bits, [to_uint] the wrapping cast), lists indexed by [Z], tactics
      and hint databases.
    - [StdIo]: the standard library as far as the program uses it.  A reader is a
      function from the bytes of the stream to a result and the bytes that are
      left; an encoder gives the bytes it wrote and a result; strings are byte
      lists that are valid UTF-8.
    - [WireFormat] ([coding/wire_format.rs]): the trait as the class [WireFormat],
      its contract as the class [WireFormatLaws], and an instance of both for
      every type the source implements it for.
    - [Derive] ([third_party/p9_wire_format_derive/src/lib.rs]): the operations the
      derive macro generates, on sequences of fields, and their laws.
    - [MessageTypes], [Messages] ([coding/messages.rs]): the message structures, the
      message types, [Tframe] and [Rframe] with their codecs.  [FrameFacts] holds
      their theorems.
    - [Os]: the constants of the C library ([Libc]), the system calls ([Kernel])
      and what is assumed of descriptors ([KernelFds]) as classes; the monad of
      stateful code that can fail, panic or run out of fuel; files that close
      their descriptor when they are dropped.
    - [ReadDir] ([ufs/read_dir.rs]): the iterator over directory records.
    - [Ufs] ([ufs/mod.rs]): the file server.  Its state is the record [Server] with
      the table of fids; every handler [Server::f] is the definition [Server_f],
      [handle] dispatches and [handle_message] works on bytes.  The closing of
      the descriptors that Rust inserts at the end of a scope, on an early return
      and on an assignment is written out.
    - [Session]: an abstract 9P session ([session_step]) and the refinement of the
      server to it.  [Ownership]: the descriptors the server owns.  [UfsFacts]:
      totality, the sizes of replies, and the server from bytes to bytes.
    - [Extensions] ([wire_format_extensions.rs], [versions.rs] and the codec of
      [io::Result]); [Protocol] (the macro of
      [third_party/p9_wire_format_derive/src/protocol.rs]).
    - [Service] ([server/quic_server.rs], [server/proxy.rs]): the loops of a stream
      and of the proxy.  [Concurrent] ([server/ufs.rs]): the stream tasks, the
      queue and the processor as a step relation.
    - [Checked]: arithmetic that aborts on overflow and computations that abort, as
      the build profile of libcrosvm asks for.
    - [AddressRange], [AddressAllocator], [SystemAllocator] (the files of the same
      names of [libcrosvm/resources/src]): ranges, the allocator with its ordered
      set of free regions, and the allocators of a virtual machine.
      [AllocatorFacts] and [SystemFacts] hold their theorems.
    - [Bits]: bits of machine integers, event descriptors.
    - [Bus] ([devices/src/bus.rs] and the fragments of
      [vm_control/src/snapshot_format.rs]): the ordered map from ranges to
      devices, accesses, sleep, wake, snapshot and restore.  A device is an
      instance of the class [BusDevice]; the entries of the bus point into a store,
      so that two ranges can have the same device.  Fragments are files that are
      created, written, opened, read and listed by the operations of the class
      [SnapshotHost].  [BusFacts] holds the theorems.
    - [Pic] ([devices/src/irqchip/pic.rs], [hypervisor/src/x86_64.rs]): the two
      cascaded interrupt controllers; [PicFacts] its theorems.  [IoBus]
      ([devices/src/irqchip/userspace.rs]): the controller attached to a bus.
    - [GuestMemory] ([vm_memory/src/guest_memory.rs], [guest_address.rs],
      [base/src/mmap.rs]): regions mapped from a shared object of the host, whose
      bytes are the state; [GuestMemoryFacts] its theorems.
    - [DescriptorUtils] ([devices/src/virtio/descriptor_utils.rs],
      [cros_async/src/mem.rs], [base/src/volatile_memory.rs]): readers and writers
      over lists of regions; [StreamFacts] their theorems.
    - [DescriptorChain] ([descriptor_chain.rs], [queue/split_descriptor_chain.rs] and
      [queue/packed_descriptor_chain.rs] of [devices/src/virtio]): the walk along a
      chain, with the class [DescriptorChainIter] for the two layouts;
      [ChainFacts].
    - [SplitQueue], [PackedQueue] ([queue.rs], [queue/split_queue.rs] and
      [queue/packed_queue.rs]): configuration, activation and the queues of both
      layouts; [SplitFacts], [PackedFacts] their theorems.
    - [DeviceExamples], [QueueExamples]: the theorems applied to concrete pools,
      buses, controllers, memories and queues.
    - [DeviceTree] ([fdt.rs] and [propval.rs] of [cros_fdt/src]): trees of nodes with
      typed properties, and the flattened blob; [DeviceTreeFacts] the round trip,
      [DeviceTreeEdits] the edits and the paths ([path.rs]).
    - [Overlay] ([overlay.rs]): the phases of applying an overlay.  [OverlayFacts]
      holds the theorems on the merge of nodes and on the phandles, [OverlayRefs] on
      references, [OverlayApply] on the whole operation and [OverlayFilter] on the
      choice of the parts to apply; [DeviceTreeExamples] the examples.
    - [DiskFile] ([base/src/file_traits.rs], [base/src/sys/unix/file_traits.rs] and the
      traits of [disk/src/disk.rs]): files of the host and the operations of a
      disk as the class [DiskFile]; the contract [DiskLaws] says that a disk is an
      array of bytes, which is a view of the files of the host.  [DiskFacts] has the
      loops of [read_exact_at_volatile] and [write_all_at_volatile] for every disk
      with the contract.
    - [SparseImage] ([disk/src/android_sparse.rs]): sparse images; [SparseFacts] the
      contract, [SparseFormat] an encoder of the format and what its images show.
    - [CompositeDisk] ([disk/src/composite.rs], the opening of images of [disk.rs] and
      of paths of [base/src/sys/linux/mod.rs], [protos/src/cdisk_spec.proto]):
      composite disks, nested as deep as the limit allows; [CompositeFacts] the
      contract, given the contract of the components, [CompositeOpen] what opening
      establishes.
    - [Gpt] ([disk/src/gpt.rs]), [CompositeCreate] (the creation of disks of
      [composite.rs]); [GptFacts] and [CreateFacts] what they write, [CreateReopen]
      what opening it shows.
    - [ToyHost], [DiskExamples]: files in memory, and the theorems applied to them.
    - [AsyncDisk] (the trait [AsyncDisk] of [disk/src/disk.rs] and its
      implementations, [cros_async/src/sys/linux/poll_source.rs]): transfers between
      disks and guest memory, flushing, and changing the length of a disk.
      [AsyncFacts] has the contract [AsyncLaws], for files and sparse images;
      [AsyncComposite] extends it to composite disks, [AsyncDepth] to disks of any
      nesting, and adds the contract of resizing.
    - [BlockDevice] ([devices/src/virtio/block/asynchronous.rs] up to the worker, the
      constants of [device_constants.rs] and the disk transfers of
      [descriptor_utils.rs]): a request, [flush_disk] and [resize].  [BlockSpec] is
      the abstract device, [blk_step], and [BlockFacts], [BlockServe] and
      [BlockControl] show that the requests, the tasks and the commands refine it.
    - [BlockWorker] (the queues, tasks, timer and commands of a worker, on a list of
      what the worker is woken by).  [BlockRun] has the transition system of a
      worker, [dev_step], and that every schedule is a run of it.
    - [BlockConfig] ([BlockAsync::new], features and configuration space),
      [BlockLife] (activation, reset, sleep and wake): the device around the worker.
    - [BlockExamples]: a host with a storage that satisfies the assumptions, and the
      theorems on the block device applied to it.
    - [Witnesses]: a kernel that satisfies the assumptions, and the theorems on the
      file server applied to a session that runs on it.

    ** What the theorems show

    - Frames: round trips of requests and replies with the exact size, when
      encoding succeeds, that a decoder depends only on the bytes of its frame,
      and what happens on frames of an unknown type or with a size that is too
      small.
    - File server: the replies and the changes of the table are those of the
      abstract session; the transcript determines which fids are live; the
      message size only falls and stays above the minimum; a fid that is not there
      is refused without a system call; no descriptor is leaked or closed twice;
      no request makes the server panic or loop; what is read and listed fits in
      the message size, and a listing consists of whole entries.
    - Streams: a stream of requests is answered in order, the proxy is transparent
      on well-formed requests, every interleaving of streams is a sequential
      session, and the queue never blocks.
    - Macro: identifiers are distinct bytes, and a call runs the method of its
      request and returns its result to the client, for protocols whose methods have
      at most one argument and a return type: the others do not compile.
    - Allocators: free and allocated ranges partition the pools after any sequence
      of operations; an allocation takes the first (or last) aligned place that
      fits and fails only if there is none; releasing undoes it; PCI functions are
      chosen as documented in every reachable state.
    - Bus: it is a registry of disjoint ranges; snapshot keys are distinct, and a
      snapshot into an empty directory, without encryption, fails only if the host or a
      device does; restoring it hands every device the value its own snapshot gave.
    - Interrupt controller: no sequence of accesses makes it panic; in every
      reachable state it offers the requested line of highest priority above those
      in service; a raised line reaches the processor with its vector and the end
      of interrupt takes it out of service; the ports of the bus lead to its
      registers.
    - Guest memory: it is a partial map from addresses to bytes, and an access
      succeeds exactly on the ranges [is_valid_range] accepts; what creation
      checks.
    - Streams over buffers: they refine a single tape, also when objects are
      collected or written in sequence; copies from and to other memory of the
      host; what splitting does.
    - Queues: whatever the driver writes to guest memory, no operation panics and
      every chain has its buffers in guest memory; chains are popped in order and
      used in order; when the driver is interrupted; when a packed queue has a chain
      and how its wrap counter moves; what the configuration guarantees, and when the
      activation succeeds and with what.
    - Device trees: every well-formed tree is read back from the blob it is written
      to; reading any blob ends without a panic in a well-formed tree; an edit
      changes the property it names and nothing else.
    - Overlays: the base loses nothing, whatever the overlay is; the properties of
      the overlay hide those of the base; phandles are moved behind those of the
      base and the references follow; the choice of paths ends.
    - Disks: a raw, sparse or composite disk, of any nesting, is an array of bytes:
      transfers of any length move exactly the bytes at their offsets, across the
      borders of chunks and components, and end; a sparse image shows the image it
      encodes; a disk created from partitions is opened again and shows the
      partition table and, where the table says, the partitions.
    - Block device: a request of any form is answered with a step of the abstract
      device on the bytes of the disk, and the status in guest memory says how it
      ended; on split queues no schedule of a worker aborts, whatever the driver
      writes and however the host fails, and the disk changes by the steps of the
      requests and the commands to resize it only, up to a command that shrinks the
      disk and is cut short; a flush that the driver finds
      done, after which nothing failed, has made the disk durable; sleeping completes
      the requests that were popped, and waking continues with the same disk and
      queues; which options are refused, and that the advertised capacity is served.
    - Places where the code does less than it says: replies of a size below 4,
      truncated strings, the codec of [io::Result], reading from [Data], and the
      proxy on a frame that does not decode; an allocation that ends at the last
      address aborts; a device inserted at the last address of a bus, the write to
      the edge/level register, a memory at the end of the address space, splitting
      a stream in the middle of a buffer, queues outside guest memory, cut chains
      of packed queues and the interrupts of packed queues; reserved regions, names
      and strings that a blob cannot hold, and overlays whose symbols share a node
      or name none; sparse images with checksums or empty chunks and reads behind
      their end, specifications without components, and empty partitions;
      the queue size 1 and the block size 0 of a block device, and a worker that has
      ended when the next command is sent to it.

    ** Conventions and bounds

    - JetStream's arithmetic wraps, as in a build without overflow checks; where a
      subtraction on the message size would wrap, the model panics ([checked_sub]),
      and the theorems show that it does not happen.  The machine is little endian.
    - The loop of [readdir] has the fuel [S (count / 24)]: an entry takes at least
      24 bytes of the reply, so that it is enough, which [UfsFacts] proves.  The
      scan of a case-insensitive lookup is bounded by a parameter only, since a
      directory can be of any length; it is the only source of [OutOfFuel], and the
      theorems on totality are about servers with that option off, the default, or
      directories with fewer records than the bound ([dirs_end]).
      The loop of a stream has as much fuel as it has bytes, which
      [serve_stream_terminates] shows to be enough.
    - A change made before a request fails is kept.  Bytes the kernel returns
      beyond the length of the buffer are cut off.
    - A hash map is iterated in an arbitrary order ([HashOrder]).
    - The search for the highest priority has the fuel 8, the number of lines.  The
      walk along a chain has one step more than the table has descriptors, which
      the check for loops never exceeds.  [write_all] has a step for every byte and
      [collect] one for every byte left.
    - An operation on a queue sees one state of guest memory; the driver writes
      between operations ([vq_run]).  Writing the ring and reading it back goes
      through the same host object as the buffers, so that rings and buffers may
      overlap.  [debug_assert] is off, as in a release build.
    - The parser of a device tree has a step of fuel for every byte of the blob and
      one more: every token takes bytes.  The traversals of an overlay have a step
      for every node and every pending path ([pending_fuel]), which [OverlayFilter]
      shows to be enough.
    - The loops over [read_at_volatile] and [write_at_volatile] have as fuel the bytes
      to transfer and the signals that interrupt a call: a call moves a byte, ends
      the transfer, or is interrupted, and the host delivers finitely many signals.
      The depth of nested disks is the fuel of [create_disk_file], as in the code.
    - A call that finds a file not ready is repeated after a wait, at most as often
      as a signal can interrupt a call, which is the fuel of the loop.  The loops of
      an exact transfer and of writing zeroes have a step for every byte.  The loop
      that pops the chains of a queue has [2^16] steps: the index of the available ring
      has 16 bits and the memory does not change while it runs.
    - The executor of the worker of a block device polls, which is the default; an
      operation on regular files then runs to its end before another task does.
      A schedule is any list of events, with writes of the driver in between; the
      handlers of the other queues get events while the worker stops one.
    - The files of the host are arbitrary up to [HostLaws], which says what POSIX says
      of [pread], [pwrite] and [lseek]: a call moves at least a byte unless it is at
      the end of the file, and errors change nothing.  The host counts the calls that
      failed, which is no state of the program: a theorem that says that an error is the
      fault of the host says that the count has grown.  [HostOpenLaws] says that
      opening a path gives its file, [ProtoLaws] that protocol buffers are read back.
    - The kernel is arbitrary.  [KernelFds] says that a call that opens a descriptor
      returns one that was not open and that the others are neither opened nor
      closed; [KernelDirents] says that [getdents64] returns whole records.

    ** What is not modelled

    The QUIC library, TLS and the accept loops (transport), logging, the client and
    the [file_system] traits (declarations, or bodies that are [todo!()]), token
    names and the digest of the macro.

    Of libcrosvm: the transfers of readers, writers and files at the cursor of a
    file; snapshot and restore of the contents of guest memory; the encryption of
    snapshots, which is a stub that panics in this build, and their namespaces; the
    statistics of
    the bus; the delivery of an interrupt past the vector of its queue; the stack of
    the recursive parser of device trees and the texts of errors; executors, of
    which only the order of the tasks of a block worker is in the model, so that the
    interleavings of io_uring within a request are not covered; block devices with a
    worker for every queue, and the opening of the file that their options name.
    The other devices, the qcow format (not among the features that are built), the
    argument parsers (a serialization library does the work) and the set-up of the
    boot protocol are not modelled.  The bindings of the hypervisor, graphics and
    audio libraries are calls of code that is not part of the repository. *)

From stdpp Require Export base tactics list gmap strings.
From Stdlib Require Export ZArith Lia.

#[global] Open Scope Z_scope.
#[global] Unset Printing Use Implicit Types.

(** ** Tactics and hint databases *)

(** [wire] holds the lemmas [eauto] uses on readers and encoders, [wire_rw]
    the rewrite rules on byte lists and [uint_rw] those on machine integers. *)
Create HintDb wire.
Create Rewrite HintDb wire_rw.
Create Rewrite HintDb uint_rw.

(** Case analysis on every [match] and [if] of the hypotheses and the goal. *)
Ltac split_matches :=
  repeat (case_match; simplify_eq/=; try done).

(** Reflect the boolean comparisons on [Z] of the context into propositions. *)
Ltac zbool :=
  repeat match goal with
  | H : (_ && _)%bool = true |- _ => apply andb_true_iff in H; destruct H
  | H : (_ && _)%bool = false |- _ => apply andb_false_iff in H
  | H : (_ || _)%bool = true |- _ => apply orb_true_iff in H
  | H : (_ || _)%bool = false |- _ => apply orb_false_iff in H; destruct H
  | H : negb _ = true |- _ => apply negb_true_iff in H
  | H : negb _ = false |- _ => apply negb_false_iff in H
  | H : (_ =? _) = true |- _ => apply Z.eqb_eq in H
  | H : (_ =? _) = false |- _ => apply Z.eqb_neq in H
  | H : (_ <? _) = true |- _ => apply Z.ltb_lt in H
  | H : (_ <? _) = false |- _ => apply Z.ltb_ge in H
  | H : (_ <=? _) = true |- _ => apply Z.leb_le in H
  | H : (_ <=? _) = false |- _ => apply Z.leb_gt in H
  end.

(** ** Unsigned machine integers

    [uint w] is the type of [w]-bit unsigned integers, Rust's [u8], [u16],
    [u32], [u64] and (on a 64-bit target) [usize].  A value carries the proof
    that it is in range, so a field of type [u32] needs no side condition.
    [to_uint w z] is the cast [z as uN]: it wraps around. *)

Definition in_range (w : N) (z : Z) : bool :=
  (0 <=? z) && (z <? 2 ^ Z.of_N w).

Record uint (w : N) : Set := UInt {
  uval : Z;
  uval_ok : in_range w uval = true
}.
Arguments UInt {w} _ _.
Arguments uval {w} _.
Arguments uval_ok {w} _.
Coercion uval : uint >-> Z.

Abbreviation u8 := (uint 8).
Abbreviation u16 := (uint 16).
Abbreviation u32 := (uint 32).
Abbreviation u64 := (uint 64).

Lemma wrap_in_range (w : N) (z : Z) : in_range w (z mod 2 ^ Z.of_N w) = true.
Proof.
  pose proof (Z.mod_pos_bound z (2 ^ Z.of_N w)) as H.
  assert (0 < 2 ^ Z.of_N w) by (apply Z.pow_pos_nonneg; lia).
  unfold in_range. apply andb_true_iff. split; [apply Z.leb_le|apply Z.ltb_lt]; lia.
Qed.

Definition to_uint (w : N) (z : Z) : uint w :=
  UInt (z mod 2 ^ Z.of_N w) (wrap_in_range w z).

Arguments to_uint : simpl never.

Abbreviation U8 := (to_uint 8).
Abbreviation U16 := (to_uint 16).
Abbreviation U32 := (to_uint 32).
Abbreviation U64 := (to_uint 64).

Section uint_facts.
Context {w : N}.
Implicit Types a b : uint w.

Lemma uint_range a : 0 <= a < 2 ^ Z.of_N w.
Proof.
  destruct a as [z Hz]; cbn. unfold in_range in Hz. zbool. lia.
Qed.

Lemma uint_eq a b : uval a = uval b → a = b.
Proof.
  destruct a as [x Hx], b as [y Hy]; cbn; intros ->. f_equal. apply eq_pi, _.
Qed.

Lemma uval_to_uint z : uval (to_uint w z) = z mod 2 ^ Z.of_N w.
Proof. done. Qed.

Lemma uval_to_uint_small z : 0 <= z < 2 ^ Z.of_N w → uval (to_uint w z) = z.
Proof. intros. apply Z.mod_small; lia. Qed.

Lemma to_uint_uval a : to_uint w a = a.
Proof. apply uint_eq, uval_to_uint_small, uint_range. Qed.

Lemma to_uint_mod z : to_uint w (z mod 2 ^ Z.of_N w) = to_uint w z.
Proof.
  apply uint_eq; rewrite !uval_to_uint, Z.mod_mod; [done|].
  apply Z.pow_nonzero; lia.
Qed.

Lemma to_uint_add_l x y : to_uint w (uval (to_uint w x) + y) = to_uint w (x + y).
Proof.
  apply uint_eq; rewrite !uval_to_uint. apply Zplus_mod_idemp_l.
Qed.

Lemma to_uint_add_r x y : to_uint w (x + uval (to_uint w y)) = to_uint w (x + y).
Proof.
  apply uint_eq; rewrite !uval_to_uint. apply Zplus_mod_idemp_r.
Qed.

End uint_facts.

#[global] Instance uint_eq_dec (w : N) : EqDecision (uint w).
Proof.
  intros a b. destruct (decide (uval a = uval b)) as [H|H].
  - left. by apply uint_eq.
  - right. congruence.
Defined.

#[global] Program Instance uint_countable (w : N) : Countable (uint w) :=
  inj_countable uval (λ z, Some (to_uint w z)) _.
Next Obligation. intros w a; cbn beta. f_equal. apply to_uint_uval. Qed.

#[export] Hint Rewrite @to_uint_uval @to_uint_mod @to_uint_add_l @to_uint_add_r : uint_rw.

(** Wrapping addition and subtraction, the release-profile [+] and [-]. *)
Definition uadd {w : N} (a b : uint w) : uint w := to_uint w (a + b).
Definition usub {w : N} (a b : uint w) : uint w := to_uint w (a - b).
Definition umin {w : N} (a b : uint w) : uint w := if a <=? b then a else b.

Lemma usub_small {w : N} (a b : uint w) : b <= a → uval (usub a b) = a - b.
Proof.
  intros. pose proof (uint_range a). pose proof (uint_range b).
  apply uval_to_uint_small; lia.
Qed.

Lemma uadd_small {w : N} (a b : uint w) :
  a + b < 2 ^ Z.of_N w → uval (uadd a b) = a + b.
Proof.
  intros. pose proof (uint_range a). pose proof (uint_range b).
  apply uval_to_uint_small; lia.
Qed.

Lemma umin_spec {w : N} (a b : uint w) : uval (umin a b) = Z.min a b.
Proof.
  unfold umin. destruct (Z.leb_spec (uval a) (uval b)); lia.
Qed.

(** Close a range goal on machine integers. *)
Ltac uint_lia :=
  repeat match goal with
  | a : uint _ |- _ =>
      lazymatch goal with
      | H : 0 <= uval a < _ |- _ => fail
      | _ => pose proof (uint_range a)
      end
  end; cbn [Z.of_N] in *; lia.

(** ** Byte lists

    Lengths and offsets of the program are machine integers; [lengthZ],
    [takeZ] and [dropZ] index lists with [Z] so that evaluation never builds a
    unary number. *)

Definition lengthZ {A} (l : list A) : Z := Z.of_nat (length l).

Fixpoint takeZ {A} (n : Z) (l : list A) : list A :=
  match l with
  | [] => []
  | x :: l => if n <=? 0 then [] else x :: takeZ (n - 1) l
  end.

Fixpoint dropZ {A} (n : Z) (l : list A) : list A :=
  match l with
  | [] => []
  | x :: l' => if n <=? 0 then l else dropZ (n - 1) l'
  end.

Section byte_lists.
Context {A : Type}.
Implicit Types l k : list A.

Lemma takeZ_take n l : takeZ n l = take (Z.to_nat n) l.
Proof.
  revert n; induction l as [|x l IH]; intros n; cbn.
  - by rewrite take_nil.
  - destruct (Z.leb_spec n 0).
    + by replace (Z.to_nat n) with 0%nat by lia.
    + replace (Z.to_nat n) with (S (Z.to_nat (n - 1))) by lia. cbn. by rewrite IH.
Qed.

Lemma dropZ_drop n l : dropZ n l = drop (Z.to_nat n) l.
Proof.
  revert n; induction l as [|x l IH]; intros n; cbn.
  - by rewrite drop_nil.
  - destruct (Z.leb_spec n 0).
    + by replace (Z.to_nat n) with 0%nat by lia.
    + replace (Z.to_nat n) with (S (Z.to_nat (n - 1))) by lia. cbn. by rewrite IH.
Qed.

Lemma lengthZ_nonneg l : 0 <= lengthZ l.
Proof. unfold lengthZ. lia. Qed.

Lemma lengthZ_map {B} (f : A → B) l : lengthZ (map f l) = lengthZ l.
Proof. unfold lengthZ. by rewrite length_map. Qed.
Lemma lengthZ_app l k : lengthZ (l ++ k) = lengthZ l + lengthZ k.
Proof. unfold lengthZ. rewrite length_app. lia. Qed.

Lemma lengthZ_cons x l : lengthZ (x :: l) = 1 + lengthZ l.
Proof. unfold lengthZ. cbn. lia. Qed.

Lemma lengthZ_nil : lengthZ (@nil A) = 0.
Proof. done. Qed.

Lemma lengthZ_takeZ n l : 0 <= n → lengthZ (takeZ n l) = Z.min n (lengthZ l).
Proof. intros. unfold lengthZ. rewrite takeZ_take, length_take. lia. Qed.

Lemma lengthZ_takeZ_le n l : 0 <= n → lengthZ (takeZ n l) <= n.
Proof. intros. rewrite lengthZ_takeZ; lia. Qed.

Lemma lengthZ_dropZ n l : 0 <= n → lengthZ (dropZ n l) = Z.max 0 (lengthZ l - n).
Proof. intros. unfold lengthZ. rewrite dropZ_drop, length_drop. lia. Qed.

Lemma takeZ_dropZ n l : takeZ n l ++ dropZ n l = l.
Proof. rewrite takeZ_take, dropZ_drop. apply take_drop. Qed.

Lemma takeZ_app_exact l k : takeZ (lengthZ l) (l ++ k) = l.
Proof. unfold lengthZ. by rewrite takeZ_take, Nat2Z.id, take_app_length. Qed.

Lemma dropZ_app_exact l k : dropZ (lengthZ l) (l ++ k) = k.
Proof. unfold lengthZ. by rewrite dropZ_drop, Nat2Z.id, drop_app_length. Qed.

Lemma takeZ_app_ge n l k : lengthZ l <= n → takeZ n (l ++ k) = l ++ takeZ (n - lengthZ l) k.
Proof.
  intros H. unfold lengthZ in *. rewrite !takeZ_take, take_app_ge by lia. do 2 f_equal. lia.
Qed.

Lemma dropZ_app_ge n l k : lengthZ l <= n → dropZ n (l ++ k) = dropZ (n - lengthZ l) k.
Proof.
  intros H. unfold lengthZ in *. rewrite !dropZ_drop, drop_app_ge by lia. f_equal. lia.
Qed.

Lemma takeZ_all n l : lengthZ l <= n → takeZ n l = l.
Proof. unfold lengthZ. intros. rewrite takeZ_take, take_ge; [done|lia]. Qed.

Lemma dropZ_0 l : dropZ 0 l = l.
Proof. by rewrite dropZ_drop. Qed.

Lemma dropZ_dropZ n m l : 0 <= n → 0 <= m → dropZ m (dropZ n l) = dropZ (n + m) l.
Proof. intros ??. rewrite !dropZ_drop, drop_drop. f_equal. lia. Qed.

Lemma dropZ_all n l : lengthZ l <= n → dropZ n l = [].
Proof. unfold lengthZ. intros. rewrite dropZ_drop, drop_ge; [done|lia]. Qed.

End byte_lists.

#[export] Hint Rewrite @lengthZ_app @lengthZ_cons @lengthZ_nil : wire_rw.

(** ** Little-endian byte strings *)

Fixpoint le_split (n : nat) (z : Z) : list u8 :=
  match n with
  | O => []
  | S n => U8 z :: le_split n (z / 256)
  end.

Fixpoint le_combine (bs : list u8) : Z :=
  match bs with
  | [] => 0
  | b :: bs => uval b + 256 * le_combine bs
  end.

Lemma length_le_split n z : length (le_split n z) = n.
Proof. revert z; induction n; intros; cbn; [done|by rewrite IHn]. Qed.

Lemma lengthZ_le_split n z : lengthZ (le_split n z) = Z.of_nat n.
Proof. unfold lengthZ. by rewrite length_le_split. Qed.

Lemma le_combine_split n z : le_combine (le_split n z) = z mod 256 ^ Z.of_nat n.
Proof.
  revert z; induction n as [|n IH]; intros z; cbn [le_split le_combine].
  - cbn. by rewrite Z.mod_1_r.
  - rewrite IH, uval_to_uint, Nat2Z.inj_succ, Z.pow_succ_r by lia.
    change (2 ^ Z.of_N 8) with 256.
    rewrite Z.rem_mul_r; [done|lia|]. apply Z.pow_pos_nonneg; lia.
Qed.

Lemma le_combine_bound bs : 0 <= le_combine bs < 256 ^ lengthZ bs.
Proof.
  induction bs as [|b bs IH]; cbn [le_combine].
  - done.
  - rewrite lengthZ_cons, Z.pow_add_r, Z.pow_1_r by (pose proof (lengthZ_nonneg bs); lia).
    pose proof (uint_range b) as Hb. change (2 ^ Z.of_N 8) with 256 in Hb. nia.
Qed.

Lemma le_split_combine bs : le_split (length bs) (le_combine bs) = bs.
Proof.
  induction bs as [|b bs IH]; cbn [le_combine le_split length]; [done|].
  pose proof (uint_range b) as Hb. change (2 ^ Z.of_N 8) with 256 in Hb.
  f_equal.
  - apply uint_eq. rewrite uval_to_uint. change (2 ^ Z.of_N 8) with 256.
    rewrite Z.mul_comm, Z.mod_add, Z.mod_small by lia. done.
  - rewrite Z.mul_comm, Z.div_add, Z.div_small, Z.add_0_l by lia. done.
Qed.

Lemma to_uint_combine_split (n : nat) (w : N) z :
  w = (8 * N.of_nat n)%N → to_uint w (le_combine (le_split n z)) = to_uint w z.
Proof.
  intros ->. rewrite le_combine_split.
  replace (256 ^ Z.of_nat n) with (2 ^ Z.of_N (8 * N.of_nat n)); [apply to_uint_mod|].
  change 256 with (2 ^ 8). rewrite <- Z.pow_mul_r by lia. f_equal. lia.
Qed.

Lemma takeZ_app_eq {A} (l k : list A) n : n = lengthZ l → takeZ n (l ++ k) = l.
Proof. intros ->. apply takeZ_app_exact. Qed.

Lemma dropZ_app_eq {A} (l k : list A) n : n = lengthZ l → dropZ n (l ++ k) = k.
Proof. intros ->. apply dropZ_app_exact. Qed.

(** A little-endian field of [n] bytes at an offset of a structure. *)
Definition le_field (bs : list u8) (off n : Z) : Z := le_combine (takeZ n (dropZ off bs)).

Lemma le_field_here l k n : n = lengthZ l → le_field (l ++ k) 0 n = le_combine l.
Proof. intros ->. unfold le_field. by rewrite dropZ_0, takeZ_app_exact. Qed.
Lemma le_field_skip l k off n : lengthZ l <= off → le_field (l ++ k) off n = le_field k (off - lengthZ l) n.
Proof. intros Hle. unfold le_field. by rewrite dropZ_app_ge. Qed.

Definition zeros (n : Z) : list u8 := replicate (Z.to_nat n) (U8 0).

Lemma lengthZ_zeros n : 0 <= n → lengthZ (zeros n) = n.
Proof. intros. unfold lengthZ, zeros. rewrite length_replicate. lia. Qed.
