(* ===== verification/StdIo.v ===== *)
(** * The parts of the Rust standard library the program uses

    [io::Error] and [io::Result], byte sources ([io::Read]) and byte sinks
    ([io::Write]) over in-memory streams, and UTF-8 strings.  This file models
    the standard library only; it has no counterpart under the repository's
    sources. *)

From S2P Require Import Prelude.

(** ** Errors *)

(** [io::ErrorKind]; [OtherKind] stands for the kinds the program never names. *)
Inductive ErrorKind :=
| NotFound | PermissionDenied | ConnectionRefused | ConnectionReset
| ConnectionAborted | NotConnected | AddrInUse | AddrNotAvailable | BrokenPipe
| AlreadyExists | WouldBlock | InvalidInput | InvalidData | TimedOut
| WriteZero | Interrupted | Other | UnexpectedEof | OtherKind.

#[global] Instance ErrorKind_eq_dec : EqDecision ErrorKind.
Proof. solve_decision. Defined.

(** [io::Error]: an error number of the operating system
    ([Error::from_raw_os_error], [Error::last_os_error]) or a kind with a
    message ([Error::new]).  The message is not kept: the program only prints
    it. *)
Inductive io_error :=
| OsError (errno : Z)
| KindError (kind : ErrorKind).

#[global] Instance io_error_eq_dec : EqDecision io_error.
Proof. solve_decision. Defined.

(** [Error::raw_os_error]. *)
Definition raw_os_error (e : io_error) : option Z :=
  match e with OsError n => Some n | KindError _ => None end.

(** [io::Result]. *)
Inductive io_result (A : Type) :=
| Ok (a : A)
| Err (e : io_error).
Arguments Ok {A} _.
Arguments Err {A} _.

Definition result_map {A B} (f : A → B) (r : io_result A) : io_result B :=
  match r with Ok a => Ok (f a) | Err e => Err e end.

Definition is_ok {A} (r : io_result A) : bool :=
  match r with Ok _ => true | Err _ => false end.

(** [Option::ok_or]. *)
Definition ok_or {A} (o : option A) (e : io_error) : io_result A :=
  match o with Some a => Ok a | None => Err e end.

(** ** Byte sources

    A reader over an in-memory stream is the list of bytes not read yet; an
    operation returns its result and the bytes it leaves.  [Read::read_exact]
    at the end of the stream has consumed what was there. *)

Definition reader (A : Type) : Type := list u8 → io_result A * list u8.

#[global] Instance reader_ret : MRet reader := λ A a s, (Ok a, s).
#[global] Instance reader_bind : MBind reader := λ A B f m s,
  match m s with
  | (Ok a, s') => f a s'
  | (Err e, s') => (Err e, s')
  end.
#[global] Instance reader_fmap : FMap reader := λ A B f m s,
  match m s with
  | (Ok a, s') => (Ok (f a), s')
  | (Err e, s') => (Err e, s')
  end.

Definition rfail {A} (e : io_error) : reader A := λ s, (Err e, s).

(** A call whose result is kept without the [?] operator. *)
Definition attempt {A} (m : reader A) : reader (io_result A) := λ s,
  let '(r, s') := m s in (Ok r, s').

(** [Read::read_exact] into a buffer of [n] bytes. *)
Definition read_exact (n : Z) : reader (list u8) := λ s,
  if n <=? lengthZ s then (Ok (takeZ n s), dropZ n s)
  else (Err (KindError UnexpectedEof), []).

(** [reader.take(n).read_to_end(..)]. *)
Definition take_read_to_end (n : Z) : reader (list u8) := λ s,
  (Ok (takeZ n s), dropZ n s).

(** [&mut reader.take(n)] passed to [m]: [m] sees the end of its stream after
    [n] bytes, and what it leaves of them stays in the underlying reader. *)
Definition with_take {A} (n : Z) (m : reader A) : reader A := λ s,
  let '(r, s') := m (takeZ n s) in (r, s' ++ dropZ n s).

(** A reader only ever drops a prefix of its stream. *)
Definition consumes {A} (m : reader A) : Prop :=
  ∀ s, ∃ pre, s = pre ++ (m s).2.

Lemma consumes_ret {A} (a : A) : consumes (mret a).
Proof. intros s. by exists []. Qed.

Lemma consumes_fail {A} e : consumes (@rfail A e).
Proof. intros s. by exists []. Qed.

Lemma consumes_bind {A B} (m : reader A) (f : A → reader B) :
  consumes m → (∀ a, consumes (f a)) → consumes (m ≫= f).
Proof.
  intros Hm Hf s. unfold mbind, reader_bind. destruct (Hm s) as [p Hp].
  destruct (m s) as [[a|e] s'] eqn:E; cbn in *.
  - destruct (Hf a s') as [q Hq]. exists (p ++ q). by rewrite <- app_assoc, <- Hq.
  - by exists p.
Qed.

Lemma consumes_fmap {A B} (g : A → B) (m : reader A) :
  consumes m → consumes (g <$> m).
Proof.
  intros Hm s. unfold fmap, reader_fmap. destruct (Hm s) as [p Hp].
  destruct (m s) as [[a|e] s'] eqn:E; cbn in *; by exists p.
Qed.

Lemma consumes_read_exact n : consumes (read_exact n).
Proof.
  intros s. unfold read_exact. case_match; cbn.
  - exists (takeZ n s). by rewrite takeZ_dropZ.
  - exists s. by rewrite app_nil_r.
Qed.

Lemma consumes_take_read_to_end n : consumes (take_read_to_end n).
Proof. intros s. exists (takeZ n s). cbn. by rewrite takeZ_dropZ. Qed.

Lemma consumes_with_take {A} n (m : reader A) : consumes m → consumes (with_take n m).
Proof.
  intros Hm s. unfold with_take. destruct (Hm (takeZ n s)) as [p Hp].
  destruct (m (takeZ n s)) as [r s'] eqn:E; cbn in *.
  exists p. rewrite app_assoc, <- Hp. by rewrite takeZ_dropZ.
Qed.

Lemma consumes_attempt {A} (m : reader A) : consumes m → consumes (attempt m).
Proof.
  intros Hm s. destruct (Hm s) as [p Hp]. exists p. unfold attempt.
  by destruct (m s) as [r s'].
Qed.

#[export] Hint Resolve consumes_attempt consumes_ret consumes_fail consumes_bind consumes_fmap
  consumes_read_exact consumes_take_read_to_end consumes_with_take : wire.

Lemma consumes_length {A} (m : reader A) s : consumes m → lengthZ (m s).2 <= lengthZ s.
Proof.
  intros Hm. destruct (Hm s) as [p Hp].
  pose proof (lengthZ_nonneg p). apply (f_equal lengthZ) in Hp.
  rewrite lengthZ_app in Hp. lia.
Qed.

Lemma bind_ok {A B} (m : reader A) (f : A → reader B) s a s' :
  m s = (Ok a, s') → (m ≫= f) s = f a s'.
Proof. unfold mbind, reader_bind. by intros ->. Qed.

Lemma bind_err {A B} (m : reader A) (f : A → reader B) s e s' :
  m s = (Err e, s') → (m ≫= f) s = (Err e, s').
Proof. unfold mbind, reader_bind. by intros ->. Qed.

Lemma fmap_ok {A B} (g : A → B) (m : reader A) s a s' :
  m s = (Ok a, s') → (g <$> m) s = (Ok (g a), s').
Proof. unfold fmap, reader_fmap. by intros ->. Qed.

Lemma bind_ok_inv {A B} (m : reader A) (f : A → reader B) s b s' :
  (m ≫= f) s = (Ok b, s') → ∃ a t, m s = (Ok a, t) ∧ f a t = (Ok b, s').
Proof. unfold mbind, reader_bind. intros H. split_matches. eauto. Qed.

Lemma read_exact_app (bs rest : list u8) n :
  n = lengthZ bs → read_exact n (bs ++ rest) = (Ok bs, rest).
Proof.
  intros ->. unfold read_exact. rewrite lengthZ_app.
  pose proof (lengthZ_nonneg rest).
  destruct (Z.leb_spec (lengthZ bs) (lengthZ bs + lengthZ rest)); [|lia].
  by rewrite takeZ_app_exact, dropZ_app_exact.
Qed.

Lemma read_exact_inv n s bs rest :
  0 <= n → read_exact n s = (Ok bs, rest) → s = bs ++ rest ∧ lengthZ bs = n.
Proof.
  unfold read_exact. intros Hn H. case_match eqn:E; simplify_eq. zbool.
  split; [by rewrite takeZ_dropZ|]. rewrite lengthZ_takeZ; lia.
Qed.

Lemma take_read_to_end_app (bs rest : list u8) n :
  n = lengthZ bs → take_read_to_end n (bs ++ rest) = (Ok bs, rest).
Proof.
  intros ->. unfold take_read_to_end. by rewrite takeZ_app_exact, dropZ_app_exact.
Qed.

(** A reader that succeeds on exactly the bytes [take] leaves it is not
    disturbed by what follows. *)
Lemma with_take_exact {A} (m : reader A) (bs rest : list u8) n r :
  n = lengthZ bs → m bs = (r, []) → with_take n m (bs ++ rest) = (r, rest).
Proof.
  intros -> H. unfold with_take. by rewrite takeZ_app_exact, dropZ_app_exact, H.
Qed.

(** ** Byte sinks

    Writing to an in-memory sink cannot fail, so an encoder is described by
    the bytes it has written when it returns and by its result: bytes written
    before an error stay written. *)

Definition enc : Type := list u8 * io_result ().

Definition write_all (bs : list u8) : enc := (bs, Ok ()).
Definition enc_ok : enc := ([], Ok ()).
Definition enc_err (e : io_error) : enc := ([], Err e).

(** [a?; b]. *)
Definition enc_seq (a b : enc) : enc :=
  match a with
  | (bs, Ok _) => (bs ++ b.1, b.2)
  | (bs, Err e) => (bs, Err e)
  end.

Declare Scope enc_scope.
Delimit Scope enc_scope with enc.
Notation "a ;;? b" := (enc_seq a b) (at level 100, right associativity) : enc_scope.
#[global] Open Scope enc_scope.

Lemma enc_seq_ok (bs : list u8) b : enc_seq (bs, Ok ()) b = (bs ++ b.1, b.2).
Proof. done. Qed.

Lemma enc_seq_ok_ok (a b : list u8) : enc_seq (a, Ok ()) (b, Ok ()) = (a ++ b, Ok ()).
Proof. done. Qed.

Lemma enc_seq_err_r (bs : list u8) b e : b.2 = Err e → (enc_seq (bs, Ok ()) b).2 = Err e.
Proof. done. Qed.

Lemma enc_seq_err_l a b e : a.2 = Err e → (enc_seq a b).2 = Err e.
Proof. destruct a as [bs r]; cbn. by intros ->. Qed.

#[export] Hint Resolve enc_seq_err_r enc_seq_err_l : wire.

(** ** Strings

    [String] holds a well-formed UTF-8 byte sequence. *)

Definition in_byte_range (lo hi : Z) (b : u8) : bool := (lo <=? b) && (b <=? hi).

(** The well-formed sequences of the Unicode standard (table 3-7), which
    [str::from_utf8] accepts: no overlong form, no surrogate, nothing above
    U+10FFFF. *)
Fixpoint utf8_valid (s : list u8) : bool :=
  match s with
  | [] => true
  | b0 :: s0 =>
      if b0 <? 0x80 then utf8_valid s0
      else if in_byte_range 0xC2 0xDF b0 then
        match s0 with
        | b1 :: s1 => in_byte_range 0x80 0xBF b1 && utf8_valid s1
        | _ => false
        end
      else if in_byte_range 0xE0 0xEF b0 then
        match s0 with
        | b1 :: b2 :: s2 =>
            in_byte_range (if b0 =? 0xE0 then 0xA0 else 0x80)
                          (if b0 =? 0xED then 0x9F else 0xBF) b1
            && in_byte_range 0x80 0xBF b2 && utf8_valid s2
        | _ => false
        end
      else if in_byte_range 0xF0 0xF4 b0 then
        match s0 with
        | b1 :: b2 :: b3 :: s3 =>
            in_byte_range (if b0 =? 0xF0 then 0x90 else 0x80)
                          (if b0 =? 0xF4 then 0x8F else 0xBF) b1
            && in_byte_range 0x80 0xBF b2 && in_byte_range 0x80 0xBF b3
            && utf8_valid s3
        | _ => false
        end
      else false
  end.

Record rstring : Set := RString {
  sbytes : list u8;
  sbytes_utf8 : utf8_valid sbytes = true
}.

Lemma rstring_eq (a b : rstring) : sbytes a = sbytes b → a = b.
Proof.
  destruct a as [x Hx], b as [y Hy]; cbn; intros ->. f_equal. apply eq_pi, _.
Qed.

#[global] Instance rstring_eq_dec : EqDecision rstring.
Proof.
  intros a b. destruct (decide (sbytes a = sbytes b)) as [H|H].
  - left. by apply rstring_eq.
  - right. congruence.
Defined.

(** [String::len]. *)
Definition slen (s : rstring) : Z := lengthZ (sbytes s).

(** [String::from_utf8], [str::from_utf8]. *)
Definition from_utf8 (bs : list u8) : option rstring :=
  match utf8_valid bs as b return utf8_valid bs = b → option rstring with
  | true => λ H, Some (RString bs H)
  | false => λ _, None
  end eq_refl.

Lemma from_utf8_Some bs s : from_utf8 bs = Some s → sbytes s = bs.
Proof.
  unfold from_utf8. generalize (eq_refl (utf8_valid bs)).
  generalize (utf8_valid bs) at 2 3. intros [] H; [|done]. by intros [= <-].
Qed.

Lemma from_utf8_None bs : from_utf8 bs = None ↔ utf8_valid bs = false.
Proof.
  unfold from_utf8. generalize (eq_refl (utf8_valid bs)).
  generalize (utf8_valid bs) at 2 3. intros [] H; split; congruence.
Qed.

Lemma from_utf8_sbytes s : from_utf8 (sbytes s) = Some s.
Proof.
  destruct (from_utf8 (sbytes s)) as [s'|] eqn:E.
  - f_equal. by apply rstring_eq, from_utf8_Some.
  - apply from_utf8_None in E. pose proof (sbytes_utf8 s). congruence.
Qed.

(** [reader.take(n).read_to_string(..)]: the bytes are consumed even when they
    are not UTF-8. *)
Definition take_read_to_string (n : Z) : reader rstring := λ s,
  match from_utf8 (takeZ n s) with
  | Some str => (Ok str, dropZ n s)
  | None => (Err (KindError InvalidData), dropZ n s)
  end.

Lemma consumes_take_read_to_string n : consumes (take_read_to_string n).
Proof.
  intros s. exists (takeZ n s). unfold take_read_to_string.
  case_match; cbn; by rewrite takeZ_dropZ.
Qed.
#[export] Hint Resolve consumes_take_read_to_string : wire.

(** String literals of the program: ASCII text. *)
Definition bytes_of_string (s : string) : list u8 :=
  map (λ a, U8 (Z.of_N (Ascii.N_of_ascii a))) (String.list_ascii_of_string s).

Definition str_lit (s : string) : rstring :=
  match from_utf8 (bytes_of_string s) with
  | Some r => r
  | None => RString [] eq_refl
  end.

Example utf8_surrogate_rejected :
  utf8_valid (map U8 [0xed; 0xa0; 0x80; 0xed; 0xbf; 0xbf]) = false.
Proof. reflexivity. Qed.
Example utf8_latin1_rejected : utf8_valid (map U8 [0x63; 0x61; 0x66; 0xe9]) = false.
Proof. reflexivity. Qed.
Example str_lit_9p : sbytes (str_lit "9P2000.L") = map U8 [57; 80; 50; 48; 48; 48; 46; 76].
Proof. reflexivity. Qed.

(** [split] of a byte slice, and of a string on an ASCII character. *)
Fixpoint split_on (sep : Z) (s : list u8) : list (list u8) :=
  match s with
  | [] => [[]]
  | c :: s =>
      if uval c =? sep then [] :: split_on sep s
      else match split_on sep s with
           | part :: parts => (c :: part) :: parts
           | [] => [[c]]
           end
  end.

Lemma split_on_app sep part s :
  Forall (λ c : u8, uval c ≠ sep) part →
  split_on sep (part ++ s) =
  match split_on sep s with p :: ps => (part ++ p) :: ps | [] => [part] end.
Proof.
  induction 1 as [|c part Hc _ IH]; cbn [app split_on].
  - destruct s as [|c s]; cbn; [done|]. repeat case_match; done.
  - rewrite IH. destruct (Z.eqb_spec (uval c) sep); [done|]. by destruct (split_on sep s).
Qed.
