(* ===== verification/WireFormat.v ===== *)
(** * The wire format: [jetstream/src/coding/wire_format.rs]

    The trait [WireFormat] is a type class of the three operations every
    message implements; [WireFormatLaws] is what the frames and the server rely
    on.  The instances of this file are those the source declares for integers,
    strings, vectors, [Data], [Option] and the unit type.  At the end: where the
    primitive formats accept more, or promise less, than the round trips of the
    frames suggest. *)

From S2P Require Import Prelude StdIo.

(** ** The trait *)

Class WireFormat (A : Type) := {
  byte_size : A → u32;
  encode : A → enc;
  decode : reader A
}.

(** What an implementation promises.  [wire x] is the reference serialisation
    of [x]; [encodable x] says that [encode] accepts [x], [decodable x] that
    [decode] gives it back. *)
Class WireFormatLaws (A : Type) `{!WireFormat A} := {
  wire : A → list u8;
  encodable : A → bool;
  decodable : A → bool;
  decodable_encodable x : decodable x = true → encodable x = true;
  byte_size_wire x : byte_size x = U32 (lengthZ (wire x));
  encode_wire x : encodable x = true → encode x = (wire x, Ok ());
  encode_refused x :
    encodable x = false → (encode x).2 = Err (KindError InvalidInput);
  decode_wire x rest : decodable x = true → decode (wire x ++ rest) = (Ok x, rest);
  decode_consumes : consumes decode;
  decode_exact s x rest :
    decode s = (Ok x, rest) → rest ≠ [] → s = wire x ++ rest ∧ decodable x = true
}.
#[export] Hint Resolve decode_consumes decodable_encodable : wire.

(** Follow the structure of a decoder to show that it only drops a prefix. *)
Ltac solve_consumes :=
  cbn [decode];
  repeat first
    [ progress eauto with wire
    | apply consumes_bind; [|intros ?]
    | apply consumes_fmap
    | apply consumes_with_take
    | case_match ].

(** ** Unsigned integers: [uint_wire_format_impl!]

    [n] is [mem::size_of::<$Ty>()].  [as_bytes] gives the bytes in the order of
    the host, which is little-endian on every supported target. *)

Section uint_wire_format.
Context (n : nat).

Definition uint_byte_size {w : N} (_ : uint w) : u32 := U32 (Z.of_nat n).

Definition uint_encode {w : N} (x : uint w) : enc := write_all (le_split n x).

Definition uint_decode {w : N} : reader (uint w) :=
  buf ← read_exact (Z.of_nat n);
  mret (to_uint w (le_combine buf)).

Context {w : N} (Hw : w = (8 * N.of_nat n)%N).

Lemma uint_modulus : 256 ^ Z.of_nat n = 2 ^ Z.of_N w.
Proof.
  rewrite Hw. replace (Z.of_N (8 * N.of_nat n)) with (8 * Z.of_nat n) by lia.
  change 256 with (2 ^ 8). by rewrite <- Z.pow_mul_r by lia.
Qed.

Lemma uint_decode_encode (x : uint w) rest :
  uint_decode (le_split n x ++ rest) = (Ok x, rest).
Proof.
  unfold uint_decode. erewrite bind_ok; [|by apply read_exact_app; rewrite lengthZ_le_split].
  by rewrite le_combine_split, uint_modulus, to_uint_mod, to_uint_uval.
Qed.

Lemma uint_decode_exact s (x : uint w) rest :
  uint_decode s = (Ok x, rest) → s = le_split n x ++ rest.
Proof.
  unfold uint_decode. intros (buf & t & H1 & H2)%bind_ok_inv.
  apply read_exact_inv in H1 as [-> Hlen]; [|lia]. injection H2 as <- <-.
  f_equal. rewrite uval_to_uint_small.
  - rewrite <- (le_split_combine buf) at 1. f_equal. unfold lengthZ in Hlen. lia.
  - rewrite <- uint_modulus, <- Hlen. apply le_combine_bound.
Qed.

End uint_wire_format.

#[global] Instance WireFormat_u8 : WireFormat u8 :=
  {| byte_size := uint_byte_size 1; encode := uint_encode 1; decode := uint_decode 1 |}.
#[global] Instance WireFormat_u16 : WireFormat u16 :=
  {| byte_size := uint_byte_size 2; encode := uint_encode 2; decode := uint_decode 2 |}.
#[global] Instance WireFormat_u32 : WireFormat u32 :=
  {| byte_size := uint_byte_size 4; encode := uint_encode 4; decode := uint_decode 4 |}.
#[global] Instance WireFormat_u64 : WireFormat u64 :=
  {| byte_size := uint_byte_size 8; encode := uint_encode 8; decode := uint_decode 8 |}.

Ltac solve_uint_laws n :=
  refine {| wire := λ x, le_split n (uval x);
            encodable := λ _, true; decodable := λ _, true |};
  [ done
  | intros x; rewrite lengthZ_le_split; done
  | done
  | done
  | intros x rest _; by apply uint_decode_encode
  | cbn; unfold uint_decode; solve_consumes
  | intros s x rest H _; split; [by apply uint_decode_exact|done] ].

#[global] Instance WireFormatLaws_u8 : WireFormatLaws u8.
Proof. solve_uint_laws 1%nat. Defined.
#[global] Instance WireFormatLaws_u16 : WireFormatLaws u16.
Proof. solve_uint_laws 2%nat. Defined.
#[global] Instance WireFormatLaws_u32 : WireFormatLaws u32.
Proof. solve_uint_laws 4%nat. Defined.
#[global] Instance WireFormatLaws_u64 : WireFormatLaws u64.
Proof. solve_uint_laws 8%nat. Defined.

(** ** Strings *)

Definition u16_max : Z := 65535.
Definition u32_max : Z := 4294967295.

Definition string_byte_size (s : rstring) : u32 := U32 (2 + slen s).

Definition string_encode (s : rstring) : enc :=
  if u16_max <? slen s then enc_err (KindError InvalidInput)
  else encode (U16 (slen s)) ;;? write_all (sbytes s).

Definition string_decode : reader rstring :=
  len ← (decode : reader u16);
  take_read_to_string (uval len).

#[global] Instance WireFormat_string : WireFormat rstring :=
  {| byte_size := string_byte_size; encode := string_encode; decode := string_decode |}.

(** ** Vectors *)

Section vec.
Context {A : Type} `{!WireFormat A}.

Definition sum_byte_size (l : list A) : u32 :=
  foldr (λ x acc, uadd (byte_size x) acc) (U32 0) l.

Definition vec_byte_size (l : list A) : u32 := uadd (U32 2) (sum_byte_size l).

Fixpoint encode_elems (l : list A) : enc :=
  match l with
  | [] => enc_ok
  | x :: l => encode x ;;? encode_elems l
  end.

Definition vec_encode (l : list A) : enc :=
  if u16_max <? lengthZ l then enc_err (KindError InvalidInput)
  else encode (U16 (lengthZ l)) ;;? encode_elems l.

Fixpoint decode_elems (n : nat) : reader (list A) :=
  match n with
  | O => mret []
  | S n => x ← decode; l ← decode_elems n; mret (x :: l)
  end.

Definition vec_decode : reader (list A) :=
  len ← (decode : reader u16);
  decode_elems (Z.to_nat (uval len)).

End vec.

#[global] Instance WireFormat_vec {A} `{!WireFormat A} : WireFormat (list A) :=
  {| byte_size := vec_byte_size; encode := vec_encode; decode := vec_decode |}.

(** ** [Data]: bytes with a 32-bit count *)

Record Data : Set := MkData { data_bytes : list u8 }.

Definition MAX_DATA_LENGTH : Z := 32 * 1024 * 1024.

Definition data_byte_size (d : Data) : u32 :=
  uadd (U32 4) (sum_byte_size (data_bytes d)).

Definition data_encode (d : Data) : enc :=
  if u32_max <? lengthZ (data_bytes d) then enc_err (KindError InvalidInput)
  else encode (U32 (lengthZ (data_bytes d))) ;;? write_all (data_bytes d).

Definition data_decode : reader Data :=
  len ← (decode : reader u32);
  if MAX_DATA_LENGTH <? uval len then rfail (KindError InvalidData)
  else
    buf ← take_read_to_end (uval len);
    if lengthZ buf =? uval len then mret (MkData buf)
    else rfail (KindError UnexpectedEof).

#[global] Instance WireFormat_data : WireFormat Data :=
  {| byte_size := data_byte_size; encode := data_encode; decode := data_decode |}.

(** [impl io::Read for Data]: [self.0.reader()] reads from a temporary slice
    over the bytes, so the value itself is not advanced. *)
Definition data_read (d : Data) (buf_len : Z) : io_result (list u8) * Data :=
  (Ok (takeZ buf_len (data_bytes d)), d).

(** ** [Option] and the unit type *)

Section option.
Context {A : Type} `{!WireFormat A}.

Definition option_byte_size (o : option A) : u32 :=
  match o with Some x => byte_size x | None => U32 0 end.

Definition option_encode (o : option A) : enc :=
  match o with Some x => encode x | None => enc_ok end.

Definition option_decode : reader (option A) := Some <$> decode.

End option.

#[global] Instance WireFormat_option {A} `{!WireFormat A} : WireFormat (option A) :=
  {| byte_size := option_byte_size; encode := option_encode; decode := option_decode |}.

Definition unit_byte_size (_ : ()) : u32 := U32 0.
Definition unit_encode (_ : ()) : enc := enc_ok.
Definition unit_decode : reader () := mret ().

#[global] Instance WireFormat_unit : WireFormat () :=
  {| byte_size := unit_byte_size; encode := unit_encode; decode := unit_decode |}.

(** ** The laws of the instances *)

(** Suffix reasoning shared by the proofs of [decode_exact]. *)
Lemma consumes_nonempty {A} (m : reader A) s r rest :
  consumes m → m s = (r, rest) → rest ≠ [] → s ≠ [].
Proof.
  intros Hm Hs Hne ->. destruct (Hm []) as [pre Hpre]. rewrite Hs in Hpre. cbn in Hpre.
  symmetry in Hpre. by apply app_eq_nil in Hpre as [_ ->].
Qed.

Lemma dropZ_nonempty {A} n (l : list A) : 0 <= n → dropZ n l ≠ [] → lengthZ (takeZ n l) = n.
Proof.
  intros Hn Hne. rewrite lengthZ_takeZ by done.
  destruct (Z.le_gt_cases n (lengthZ l)); [lia|]. by rewrite dropZ_all in Hne by lia.
Qed.

Lemma u16_len_small z : 0 <= z → (u16_max <? z) = false → uval (U16 z) = z.
Proof. unfold u16_max. intros. zbool. apply uval_to_uint_small. cbn. lia. Qed.

Lemma lengthZ_wire_u16 (x : u16) : lengthZ (wire x) = 2.
Proof. apply (lengthZ_le_split 2). Qed.

Lemma lengthZ_wire_u32 (x : u32) : lengthZ (wire x) = 4.
Proof. apply (lengthZ_le_split 4). Qed.

Lemma decode_u16 (x : u16) rest : decode (wire x ++ rest) = (Ok x, rest).
Proof. by apply decode_wire. Qed.

Lemma decode_u32 (x : u32) rest : decode (wire x ++ rest) = (Ok x, rest).
Proof. by apply decode_wire. Qed.

Section string_laws.
Implicit Types s : rstring.

Lemma consumes_string_decode : consumes string_decode.
Proof. unfold string_decode. solve_consumes. Qed.

Lemma string_decode_wire s rest :
  (u16_max <? slen s) = false →
  string_decode (wire (U16 (slen s)) ++ sbytes s ++ rest) = (Ok s, rest).
Proof.
  intros Hs. unfold string_decode. erewrite bind_ok by apply decode_u16.
  rewrite u16_len_small by (try done; apply lengthZ_nonneg).
  unfold take_read_to_string, slen.
  by rewrite takeZ_app_exact, dropZ_app_exact, from_utf8_sbytes.
Qed.

Lemma string_decode_exact bs s rest :
  string_decode bs = (Ok s, rest) → rest ≠ [] →
  bs = (wire (U16 (slen s)) ++ sbytes s) ++ rest ∧ negb (u16_max <? slen s) = true.
Proof.
  unfold string_decode. intros (len & t & H1 & H2)%bind_ok_inv Hne.
  apply uint_decode_exact in H1 as ->; [|done].
  unfold take_read_to_string in H2. case_match eqn:E; simplify_eq.
  apply from_utf8_Some in E. pose proof (uint_range len) as Hlen.
  change (2 ^ Z.of_N 16) with 65536 in Hlen.
  assert (slen s = uval len) as Hs.
  { unfold slen. rewrite E. apply dropZ_nonempty; [lia|done]. }
  rewrite Hs, to_uint_uval, E, <- app_assoc, takeZ_dropZ. split; [done|].
  unfold u16_max. apply negb_true_iff, Z.ltb_ge. lia.
Qed.

#[global] Instance WireFormatLaws_string : WireFormatLaws rstring.
Proof.
  refine {| wire := λ s, wire (U16 (slen s)) ++ sbytes s;
            encodable := λ s, negb (u16_max <? slen s);
            decodable := λ s, negb (u16_max <? slen s) |}.
  - done.
  - intros s. cbn [byte_size WireFormat_string]. unfold string_byte_size.
    by rewrite lengthZ_app, lengthZ_wire_u16.
  - intros s Hs%negb_true_iff. cbn [encode WireFormat_string]. unfold string_encode.
    by rewrite Hs, encode_wire.
  - intros s Hs%negb_false_iff. cbn. unfold string_encode. by rewrite Hs.
  - intros s rest Hs%negb_true_iff. rewrite <- app_assoc. by apply string_decode_wire.
  - apply consumes_string_decode.
  - intros bs s rest. apply string_decode_exact.
Defined.

End string_laws.

Section vec_laws.
Context {A : Type} `{!WireFormat A, !WireFormatLaws A}.
Implicit Types l : list A.

Definition wires l : list u8 := concat (map wire l).

Lemma sum_byte_size_wires l : sum_byte_size l = U32 (lengthZ (wires l)).
Proof.
  induction l as [|x l IH]; [done|]. unfold wires, sum_byte_size in *. cbn [foldr map concat].
  rewrite IH, byte_size_wire, lengthZ_app. unfold uadd.
  by rewrite to_uint_add_l, to_uint_add_r.
Qed.

Lemma encode_elems_ok l : forallb encodable l = true → encode_elems l = (wires l, Ok ()).
Proof.
  induction l as [|x l IH]; [done|]. cbn. intros [Hx Hl]%andb_true_iff.
  by rewrite encode_wire, IH by done.
Qed.

Lemma encode_elems_refused l :
  forallb encodable l = false → (encode_elems l).2 = Err (KindError InvalidInput).
Proof.
  induction l as [|x l IH]; [done|]. cbn.
  destruct (encodable x) eqn:Hx; cbn.
  - intros Hl. rewrite encode_wire by done. by apply enc_seq_err_r, IH.
  - intros _. by apply enc_seq_err_l, encode_refused.
Qed.

Lemma decode_elems_wires l rest :
  forallb decodable l = true → decode_elems (length l) (wires l ++ rest) = (Ok l, rest).
Proof.
  revert rest; induction l as [|x l IH]; intros rest; [done|].
  cbn. intros [Hx Hl]%andb_true_iff. unfold wires in *. cbn. rewrite <- app_assoc.
  erewrite bind_ok by by apply decode_wire.
  by erewrite bind_ok by by apply IH.
Qed.

Lemma consumes_decode_elems n : consumes (decode_elems (A := A) n).
Proof. induction n; cbn; solve_consumes. Qed.

Lemma decode_elems_exact n s l rest :
  decode_elems n s = (Ok l, rest) → rest ≠ [] →
  s = wires l ++ rest ∧ length l = n ∧ forallb decodable l = true.
Proof.
  revert s l; induction n as [|n IH]; cbn; intros s l H Hne.
  - by injection H as <- <-.
  - apply bind_ok_inv in H as (x & t & H1 & H2).
    apply bind_ok_inv in H2 as (k & t' & H2 & H3). injection H3 as <- ->.
    pose proof (consumes_nonempty _ _ _ _ (consumes_decode_elems n) H2 Hne) as Ht.
    apply IH in H2 as (-> & <- & Hk); [|done].
    apply decode_exact in H1 as [-> Hx]; [|done]. unfold wires. cbn.
    by rewrite <- app_assoc, Hx, Hk.
Qed.

Lemma vec_decode_wire l rest :
  (u16_max <? lengthZ l) = false → forallb decodable l = true →
  vec_decode (wire (U16 (lengthZ l)) ++ wires l ++ rest) = (Ok l, rest).
Proof.
  intros Hn Hl. unfold vec_decode. erewrite bind_ok by apply decode_u16.
  rewrite u16_len_small by (try done; apply lengthZ_nonneg).
  unfold lengthZ. rewrite Nat2Z.id. by apply decode_elems_wires.
Qed.

Lemma vec_decode_exact s l rest :
  vec_decode s = (Ok l, rest) → rest ≠ [] →
  s = (wire (U16 (lengthZ l)) ++ wires l) ++ rest ∧
  negb (u16_max <? lengthZ l) && forallb decodable l = true.
Proof.
  unfold vec_decode. intros (len & t & H1 & H2)%bind_ok_inv Hne.
  apply uint_decode_exact in H1 as ->; [|done].
  apply decode_elems_exact in H2 as (-> & Hlen & Hl); [|done].
  pose proof (uint_range len) as Hr. change (2 ^ Z.of_N 16) with 65536 in Hr.
  assert (lengthZ l = uval len) as -> by (unfold lengthZ; lia).
  rewrite to_uint_uval, <- app_assoc, Hl. split; [done|].
  unfold u16_max. apply andb_true_iff; split; [|done]. apply negb_true_iff, Z.ltb_ge. lia.
Qed.

#[global] Instance WireFormatLaws_vec : WireFormatLaws (list A).
Proof.
  refine {| wire := λ l, wire (U16 (lengthZ l)) ++ wires l;
            encodable := λ l, negb (u16_max <? lengthZ l) && forallb encodable l;
            decodable := λ l, negb (u16_max <? lengthZ l) && forallb decodable l |}.
  - intros l [Hn Hl]%andb_true_iff. rewrite Hn. cbn. rewrite forallb_forall in *.
    intros x Hx. auto with wire.
  - intros l. cbn [byte_size WireFormat_vec]. unfold vec_byte_size.
    rewrite sum_byte_size_wires, lengthZ_app, lengthZ_wire_u16. unfold uadd.
    by rewrite to_uint_add_l, to_uint_add_r.
  - intros l [Hn%negb_true_iff Hl]%andb_true_iff. cbn [encode WireFormat_vec].
    unfold vec_encode. by rewrite Hn, encode_wire, encode_elems_ok.
  - intros l H. cbn [encode WireFormat_vec]. unfold vec_encode.
    destruct (u16_max <? lengthZ l) eqn:Hn; [done|]. cbn in H.
    rewrite encode_wire by done. by apply enc_seq_err_r, encode_elems_refused.
  - intros l rest [Hn%negb_true_iff Hl]%andb_true_iff. rewrite <- app_assoc.
    by apply vec_decode_wire.
  - cbn. unfold vec_decode. solve_consumes. apply consumes_decode_elems.
  - intros s l rest. apply vec_decode_exact.
Defined.

End vec_laws.

Section data_laws.
Implicit Types d : Data.

Definition data_fits d : bool := negb (MAX_DATA_LENGTH <? lengthZ (data_bytes d)).

Lemma data_byte_size_exact d : data_byte_size d = U32 (4 + lengthZ (data_bytes d)).
Proof.
  unfold data_byte_size. rewrite sum_byte_size_wires. unfold uadd.
  rewrite to_uint_add_l, to_uint_add_r. do 2 f_equal. unfold wires.
  induction (data_bytes d) as [|b l IH]; [done|]. cbn [map concat].
  by rewrite lengthZ_app, lengthZ_cons, IH.
Qed.

Lemma u32_len_small z : 0 <= z → (u32_max <? z) = false → uval (U32 z) = z.
Proof. unfold u32_max. intros. zbool. apply uval_to_uint_small. cbn. lia. Qed.

Lemma data_fits_u32 d : data_fits d = true → (u32_max <? lengthZ (data_bytes d)) = false.
Proof.
  unfold data_fits, MAX_DATA_LENGTH, u32_max. intros. zbool. apply Z.ltb_ge. lia.
Qed.

Lemma data_decode_wire d rest :
  data_fits d = true →
  data_decode (wire (U32 (lengthZ (data_bytes d))) ++ data_bytes d ++ rest) = (Ok d, rest).
Proof.
  intros Hd. unfold data_decode. erewrite bind_ok by apply decode_u32.
  rewrite u32_len_small; [|apply lengthZ_nonneg|by apply data_fits_u32].
  unfold data_fits in Hd. apply negb_true_iff in Hd. rewrite Hd.
  erewrite bind_ok by by apply take_read_to_end_app.
  rewrite Z.eqb_refl. by destruct d.
Qed.

Lemma data_decode_exact s d rest :
  data_decode s = (Ok d, rest) →
  s = (wire (U32 (lengthZ (data_bytes d))) ++ data_bytes d) ++ rest ∧ data_fits d = true.
Proof.
  unfold data_decode. intros (len & t & H1 & H2)%bind_ok_inv.
  apply uint_decode_exact in H1 as ->; [|done].
  destruct (MAX_DATA_LENGTH <? uval len) eqn:Hmax; [done|].
  apply bind_ok_inv in H2 as (buf & t' & [= <- <-] & H3).
  destruct (lengthZ (takeZ (uval len) t) =? uval len) eqn:Hlen; [|done].
  injection H3 as <- <-. zbool. cbn [data_bytes].
  rewrite Hlen, to_uint_uval, <- app_assoc, takeZ_dropZ. split; [done|].
  unfold data_fits. cbn. apply negb_true_iff, Z.ltb_ge. lia.
Qed.

#[global] Instance WireFormatLaws_data : WireFormatLaws Data.
Proof.
  refine {| wire := λ d, wire (U32 (lengthZ (data_bytes d))) ++ data_bytes d;
            encodable := λ d, negb (u32_max <? lengthZ (data_bytes d));
            decodable := data_fits |}.
  - intros d Hd. by rewrite data_fits_u32.
  - intros d. cbn [byte_size WireFormat_data].
    by rewrite data_byte_size_exact, lengthZ_app, lengthZ_wire_u32.
  - intros d Hd%negb_true_iff. cbn [encode WireFormat_data]. unfold data_encode.
    by rewrite Hd, encode_wire.
  - intros d Hd%negb_false_iff. cbn [encode WireFormat_data]. unfold data_encode.
    by rewrite Hd.
  - intros d rest Hd. rewrite <- app_assoc. by apply data_decode_wire.
  - cbn. unfold data_decode. solve_consumes.
  - intros s d rest H _. by apply data_decode_exact.
Defined.

End data_laws.

Section option_laws.
Context {A : Type} `{!WireFormat A, !WireFormatLaws A}.

#[global] Instance WireFormatLaws_option : WireFormatLaws (option A).
Proof.
  refine {| wire := λ o, from_option wire [] o;
            encodable := λ o, from_option encodable true o;
            decodable := λ o, from_option decodable false o |}.
  - intros [x|]; cbn; auto with wire.
  - intros [x|]; [apply (byte_size_wire x)|done].
  - intros [x|]; [apply (encode_wire x)|done].
  - intros [x|]; [apply (encode_refused x)|done].
  - intros [x|] rest; [|done]. cbn. intros Hx. unfold option_decode.
    by erewrite fmap_ok by by apply decode_wire.
  - cbn. unfold option_decode. solve_consumes.
  - intros s o rest. cbn. unfold option_decode, fmap, reader_fmap.
    destruct (decode s) as [[x|e] t] eqn:E; [|done]. intros [= <- <-] Hne. cbn.
    by apply decode_exact in E.
Defined.

End option_laws.

#[global] Instance WireFormatLaws_unit : WireFormatLaws ().
Proof.
  refine {| wire := λ _, []; encodable := λ _, true; decodable := λ _, true |};
    try done.
  - by intros [].
  - cbn. unfold unit_decode. solve_consumes.
  - intros s [] rest H _. cbn in H. injection H as <-. done.
Defined.

(** Decoding of [Data] is exact: it succeeds on a stream precisely when the
    stream starts with a length of at most 32 MiB and that many bytes, and then
    takes these bytes and no more. *)
Theorem data_decode_iff s d rest :
  data_decode s = (Ok d, rest) ↔
  s = wire (U32 (lengthZ (data_bytes d))) ++ data_bytes d ++ rest ∧
  lengthZ (data_bytes d) <= MAX_DATA_LENGTH.
Proof.
  split.
  - intros [-> H]%data_decode_exact. rewrite <- app_assoc. split; [done|].
    by apply negb_true_iff, Z.ltb_ge in H.
  - intros [-> H]. apply data_decode_wire. by apply negb_true_iff, Z.ltb_ge.
Qed.

(** A string whose announced length exceeds what is left of the stream is
    not refused: the bytes that are there, if they are valid UTF-8, are taken for
    the string, although the format is "followed by |N| bytes". *)
Theorem string_decode_truncated (len : u16) (s : rstring) :
  slen s <= uval len → string_decode (wire len ++ sbytes s) = (Ok s, []).
Proof.
  intros Hs. unfold string_decode. erewrite bind_ok by apply decode_u16.
  unfold take_read_to_string, slen in *.
  by rewrite takeZ_all, dropZ_all, from_utf8_sbytes by done.
Qed.

Lemma string_decode_truncated_witness :
  string_decode (wire (U16 1000) ++ sbytes (str_lit "etc")) = (Ok (str_lit "etc"), []).
Proof. apply (string_decode_truncated (U16 1000) (str_lit "etc")). vm_compute. discriminate. Defined.

(** The results of [n] reads in a row. *)
Fixpoint data_reads (n : nat) (d : Data) (buf_len : Z) : list (io_result (list u8)) :=
  match n with
  | O => []
  | S n => let '(r, d') := data_read d buf_len in r :: data_reads n d' buf_len
  end.

(** Reading from [Data] never advances: however often it is read, each read
    returns the same first bytes, so that a reader that waits for the end of the
    data does not terminate. *)
Theorem data_read_repeats n d buf_len :
  data_reads n d buf_len = replicate n (Ok (takeZ buf_len (data_bytes d))).
Proof. induction n as [|n IH]; [done|]. cbn. by rewrite IH. Qed.
