(* ===== verification/Derive.v ===== *)
(** * [derive(JetStreamWireFormat)]: [jetstream/third_party/p9_wire_format_derive/src/lib.rs]

    The procedural macro generates the three operations of a structure from the
    sequence of its fields.  A field sequence is [a :* b :* FNil]; the generated
    code is the class [FieldSeq] on such sequences, and [derive_struct] is the
    implementation the macro emits for a structure that is a named view of one. *)

From S2P Require Import Prelude StdIo WireFormat.

Inductive fnil : Set := FNil.
Record fcons (A B : Type) : Type := FCons { fhead : A; ftail : B }.
Arguments FCons {A B} _ _.
Arguments fhead {A B} _.
Arguments ftail {A B} _.

Declare Scope fields_scope.
Delimit Scope fields_scope with fields.
Infix ":*" := FCons (at level 60, right associativity) : fields_scope.
Infix "**" := fcons (at level 60, right associativity) : type_scope.
#[global] Open Scope fields_scope.

(** ** The generated code *)

(** The bodies the macro generates for a sequence of fields: [0 + a + b + ..],
    [encode(a)?; encode(b)?; .. Ok(())] and
    [let a = decode()?; let b = decode()?; .. Ok(Container { a, b, .. })]. *)
Class FieldSeq (F : Type) := {
  byte_size_sum : u32 → F → u32;
  encode_wire_format : F → enc;
  decode_wire_format : reader F
}.

#[global] Instance FieldSeq_nil : FieldSeq fnil :=
  {| byte_size_sum := λ acc _, acc;
     encode_wire_format := λ _, enc_ok;
     decode_wire_format := mret FNil |}.

#[global] Instance FieldSeq_cons {A F} `{!WireFormat A, !FieldSeq F} : FieldSeq (A ** F) :=
  {| byte_size_sum := λ acc f, byte_size_sum (uadd acc (byte_size (fhead f))) (ftail f);
     encode_wire_format := λ f, encode (fhead f) ;;? encode_wire_format (ftail f);
     decode_wire_format := a ← decode; r ← decode_wire_format; mret (a :* r) |}.

Section derive.
Context {S F : Type} `{!FieldSeq F}.
Context (fields : S → F) (make : F → S).

(** [p9_wire_format_inner]: the generated [impl WireFormat for S]. *)
Definition p9_wire_format_inner : WireFormat S :=
  {| byte_size := λ s, byte_size_sum (U32 0) (fields s);
     encode := λ s, encode_wire_format (fields s);
     decode := make <$> decode_wire_format |}.

End derive.

(** ** Correctness of the generated code *)

Class FieldSeqLaws (F : Type) `{!FieldSeq F} := {
  fwire : F → list u8;
  fencodable : F → bool;
  fdecodable : F → bool;
  fdecodable_encodable f : fdecodable f = true → fencodable f = true;
  fbyte_size_wire acc f : byte_size_sum acc f = U32 (uval acc + lengthZ (fwire f));
  fencode_wire f : fencodable f = true → encode_wire_format f = (fwire f, Ok ());
  fencode_refused f :
    fencodable f = false → (encode_wire_format f).2 = Err (KindError InvalidInput);
  fdecode_wire f rest :
    fdecodable f = true → decode_wire_format (fwire f ++ rest) = (Ok f, rest);
  fdecode_consumes : consumes decode_wire_format;
  fdecode_exact s f rest :
    decode_wire_format s = (Ok f, rest) → rest ≠ [] →
    s = fwire f ++ rest ∧ fdecodable f = true
}.
#[export] Hint Resolve fdecode_consumes fdecodable_encodable : wire.

#[global] Instance FieldSeqLaws_nil : FieldSeqLaws fnil.
Proof.
  refine {| fwire := λ _, []; fencodable := λ _, true; fdecodable := λ _, true |}; try done.
  - intros acc f. cbn. by rewrite Z.add_0_r, to_uint_uval.
  - by intros [].
  - cbn. solve_consumes.
  - intros s [] rest H _. cbn in H. by injection H as ->.
Defined.

Section cons_laws.
Context {A F : Type} `{!WireFormat A, !WireFormatLaws A, !FieldSeq F, !FieldSeqLaws F}.

#[global] Instance FieldSeqLaws_cons : FieldSeqLaws (A ** F).
Proof.
  refine {| fwire := λ f, wire (fhead f) ++ fwire (ftail f);
            fencodable := λ f, encodable (fhead f) && fencodable (ftail f);
            fdecodable := λ f, decodable (fhead f) && fdecodable (ftail f) |}.
  - intros f [Ha Hf]%andb_true_iff. apply andb_true_iff. auto with wire.
  - intros acc f. cbn [byte_size_sum FieldSeq_cons].
    rewrite fbyte_size_wire, byte_size_wire, lengthZ_app. unfold uadd.
    by rewrite to_uint_add_r, to_uint_add_l, Z.add_assoc.
  - intros f [Ha Hf]%andb_true_iff. cbn [encode_wire_format FieldSeq_cons].
    by rewrite encode_wire, fencode_wire.
  - intros f H. cbn [encode_wire_format FieldSeq_cons].
    destruct (encodable (fhead f)) eqn:Ha; cbn in H.
    + rewrite encode_wire by done. by apply enc_seq_err_r, fencode_refused.
    + by apply enc_seq_err_l, encode_refused.
  - intros [a f] rest [Ha Hf]%andb_true_iff. cbn in *. rewrite <- app_assoc.
    erewrite bind_ok by by apply decode_wire.
    by erewrite bind_ok by by apply fdecode_wire.
  - cbn. solve_consumes.
  - intros s f rest (a & t & H1 & H2)%bind_ok_inv Hne.
    apply bind_ok_inv in H2 as (r & t' & H2 & [= <- ->]).
    pose proof (consumes_nonempty _ _ _ _ fdecode_consumes H2 Hne) as Ht.
    apply fdecode_exact in H2 as [-> Hr]; [|done].
    apply decode_exact in H1 as [-> Ha]; [|done]. cbn.
    by rewrite <- app_assoc, Ha, Hr.
Defined.

End cons_laws.

Section derive_laws.
Context {S F : Type} `{!FieldSeq F, !FieldSeqLaws F}.
Context (fields : S → F) (make : F → S).
Hypothesis make_fields : ∀ s, make (fields s) = s.
Hypothesis fields_make : ∀ f, fields (make f) = f.
#[local] Existing Instance p9_wire_format_inner.

(** A structure with a derived implementation satisfies the laws of the trait. *)
Definition derive_laws : @WireFormatLaws S (p9_wire_format_inner fields make).
Proof.
  refine {| wire := λ s, fwire (fields s);
            encodable := λ s, fencodable (fields s);
            decodable := λ s, fdecodable (fields s) |}.
  - intros s. apply fdecodable_encodable.
  - intros s. cbn. by rewrite fbyte_size_wire.
  - intros s. apply fencode_wire.
  - intros s. apply fencode_refused.
  - intros s rest Hs. cbn. erewrite fmap_ok by by apply fdecode_wire.
    by rewrite make_fields.
  - cbn. solve_consumes.
  - intros bs s rest. cbn. unfold fmap, reader_fmap.
    destruct (decode_wire_format bs) as [[f|e] t] eqn:E; [|done].
    intros [= <- <-] Hne. rewrite fields_make. by apply fdecode_exact in E.
Defined.

End derive_laws.

Ltac derive_struct_laws :=
  apply derive_laws;
  [ by intros [] | intros; repeat match goal with f : fcons _ _ |- _ => destruct f
                                  | f : fnil |- _ => destruct f end; done ].
