(* ===== verification/MessageTypes.v ===== *)
(** * The message bodies: the structures of [jetstream/src/coding/messages.rs]

    One record per structure, with its fields in the order of the source, and
    the implementation [derive(JetStreamWireFormat)] gives it.  The field [f] of
    a structure [T] is the projection [T_f]. *)

From S2P Require Import Prelude StdIo WireFormat Derive.

Record Qid : Set := MkQid {
  Qid_ty : u8; Qid_version : u32; Qid_path : u64
}.
Definition Qid_fields (m : Qid) :=
  Qid_ty m :* Qid_version m :* Qid_path m :* FNil.
Definition Qid_make (f : u8 ** u32 ** u64 ** fnil) : Qid :=
  let '(x0 :* x1 :* x2 :* FNil) := f in
  MkQid x0 x1 x2.
#[global] Instance WireFormat_Qid : WireFormat Qid :=
  p9_wire_format_inner Qid_fields Qid_make.
#[global] Instance WireFormatLaws_Qid : WireFormatLaws Qid.
Proof. derive_struct_laws. Defined.

Record Tversion : Set := MkTversion {
  Tversion_msize : u32; Tversion_version : rstring
}.
Definition Tversion_fields (m : Tversion) :=
  Tversion_msize m :* Tversion_version m :*
  FNil.
Definition Tversion_make (f : u32 ** rstring ** fnil) : Tversion :=
  let '(x0 :* x1 :* FNil) := f in
  MkTversion x0 x1.
#[global] Instance WireFormat_Tversion : WireFormat Tversion :=
  p9_wire_format_inner Tversion_fields Tversion_make.
#[global] Instance WireFormatLaws_Tversion : WireFormatLaws Tversion.
Proof. derive_struct_laws. Defined.

Record Tflush : Set := MkTflush {
  Tflush_oldtag : u16
}.
Definition Tflush_fields (m : Tflush) :=
  Tflush_oldtag m :* FNil.
Definition Tflush_make (f : u16 ** fnil) : Tflush :=
  let '(x0 :* FNil) := f in
  MkTflush x0.
#[global] Instance WireFormat_Tflush : WireFormat Tflush :=
  p9_wire_format_inner Tflush_fields Tflush_make.
#[global] Instance WireFormatLaws_Tflush : WireFormatLaws Tflush.
Proof. derive_struct_laws. Defined.

Record Twalk : Set := MkTwalk {
  Twalk_fid : u32; Twalk_newfid : u32; Twalk_wnames : list rstring
}.
Definition Twalk_fields (m : Twalk) :=
  Twalk_fid m :* Twalk_newfid m :* Twalk_wnames m :*
  FNil.
Definition Twalk_make (f : u32 ** u32 ** (list rstring) ** fnil) : Twalk :=
  let '(x0 :* x1 :* x2 :* FNil) := f in
  MkTwalk x0 x1 x2.
#[global] Instance WireFormat_Twalk : WireFormat Twalk :=
  p9_wire_format_inner Twalk_fields Twalk_make.
#[global] Instance WireFormatLaws_Twalk : WireFormatLaws Twalk.
Proof. derive_struct_laws. Defined.

Record Tattach : Set := MkTattach {
  Tattach_fid : u32; Tattach_afid : u32; Tattach_uname : rstring; Tattach_aname : rstring;
  Tattach_n_uname : u32
}.
Definition Tattach_fields (m : Tattach) :=
  Tattach_fid m :* Tattach_afid m :*
  Tattach_uname m :* Tattach_aname m :* Tattach_n_uname m :* FNil.
Definition Tattach_make (f : u32 ** u32 ** rstring ** rstring ** u32 ** fnil) : Tattach :=
  let '(x0 :* x1 :* x2 :* x3 :* x4 :* FNil) := f in
  MkTattach x0 x1 x2 x3 x4.
#[global] Instance WireFormat_Tattach : WireFormat Tattach :=
  p9_wire_format_inner Tattach_fields Tattach_make.
#[global] Instance WireFormatLaws_Tattach : WireFormatLaws Tattach.
Proof. derive_struct_laws. Defined.

Record Tauth : Set := MkTauth {
  Tauth_afid : u32; Tauth_uname : rstring; Tauth_aname : rstring; Tauth_n_uname : u32
}.
Definition Tauth_fields (m : Tauth) :=
  Tauth_afid m :* Tauth_uname m :* Tauth_aname m :*
  Tauth_n_uname m :* FNil.
Definition Tauth_make (f : u32 ** rstring ** rstring ** u32 ** fnil) : Tauth :=
  let '(x0 :* x1 :* x2 :* x3 :* FNil) := f in
  MkTauth x0 x1 x2 x3.
#[global] Instance WireFormat_Tauth : WireFormat Tauth :=
  p9_wire_format_inner Tauth_fields Tauth_make.
#[global] Instance WireFormatLaws_Tauth : WireFormatLaws Tauth.
Proof. derive_struct_laws. Defined.

Record Tread : Set := MkTread {
  Tread_fid : u32; Tread_offset : u64; Tread_count : u32
}.
Definition Tread_fields (m : Tread) :=
  Tread_fid m :* Tread_offset m :* Tread_count m :*
  FNil.
Definition Tread_make (f : u32 ** u64 ** u32 ** fnil) : Tread :=
  let '(x0 :* x1 :* x2 :* FNil) := f in
  MkTread x0 x1 x2.
#[global] Instance WireFormat_Tread : WireFormat Tread :=
  p9_wire_format_inner Tread_fields Tread_make.
#[global] Instance WireFormatLaws_Tread : WireFormatLaws Tread.
Proof. derive_struct_laws. Defined.

Record Rread : Set := MkRread {
  Rread_data : Data
}.
Definition Rread_fields (m : Rread) :=
  Rread_data m :* FNil.
Definition Rread_make (f : Data ** fnil) : Rread :=
  let '(x0 :* FNil) := f in
  MkRread x0.
#[global] Instance WireFormat_Rread : WireFormat Rread :=
  p9_wire_format_inner Rread_fields Rread_make.
#[global] Instance WireFormatLaws_Rread : WireFormatLaws Rread.
Proof. derive_struct_laws. Defined.

Record Twrite : Set := MkTwrite {
  Twrite_fid : u32; Twrite_offset : u64; Twrite_data : Data
}.
Definition Twrite_fields (m : Twrite) :=
  Twrite_fid m :* Twrite_offset m :*
  Twrite_data m :* FNil.
Definition Twrite_make (f : u32 ** u64 ** Data ** fnil) : Twrite :=
  let '(x0 :* x1 :* x2 :* FNil) := f in
  MkTwrite x0 x1 x2.
#[global] Instance WireFormat_Twrite : WireFormat Twrite :=
  p9_wire_format_inner Twrite_fields Twrite_make.
#[global] Instance WireFormatLaws_Twrite : WireFormatLaws Twrite.
Proof. derive_struct_laws. Defined.

Record Rwrite : Set := MkRwrite {
  Rwrite_count : u32
}.
Definition Rwrite_fields (m : Rwrite) :=
  Rwrite_count m :* FNil.
Definition Rwrite_make (f : u32 ** fnil) : Rwrite :=
  let '(x0 :* FNil) := f in
  MkRwrite x0.
#[global] Instance WireFormat_Rwrite : WireFormat Rwrite :=
  p9_wire_format_inner Rwrite_fields Rwrite_make.
#[global] Instance WireFormatLaws_Rwrite : WireFormatLaws Rwrite.
Proof. derive_struct_laws. Defined.

Record Tclunk : Set := MkTclunk {
  Tclunk_fid : u32
}.
Definition Tclunk_fields (m : Tclunk) :=
  Tclunk_fid m :* FNil.
Definition Tclunk_make (f : u32 ** fnil) : Tclunk :=
  let '(x0 :* FNil) := f in
  MkTclunk x0.
#[global] Instance WireFormat_Tclunk : WireFormat Tclunk :=
  p9_wire_format_inner Tclunk_fields Tclunk_make.
#[global] Instance WireFormatLaws_Tclunk : WireFormatLaws Tclunk.
Proof. derive_struct_laws. Defined.

Record Tremove : Set := MkTremove {
  Tremove_fid : u32
}.
Definition Tremove_fields (m : Tremove) :=
  Tremove_fid m :* FNil.
Definition Tremove_make (f : u32 ** fnil) : Tremove :=
  let '(x0 :* FNil) := f in
  MkTremove x0.
#[global] Instance WireFormat_Tremove : WireFormat Tremove :=
  p9_wire_format_inner Tremove_fields Tremove_make.
#[global] Instance WireFormatLaws_Tremove : WireFormatLaws Tremove.
Proof. derive_struct_laws. Defined.

Record Tstatfs : Set := MkTstatfs {
  Tstatfs_fid : u32
}.
Definition Tstatfs_fields (m : Tstatfs) :=
  Tstatfs_fid m :* FNil.
Definition Tstatfs_make (f : u32 ** fnil) : Tstatfs :=
  let '(x0 :* FNil) := f in
  MkTstatfs x0.
#[global] Instance WireFormat_Tstatfs : WireFormat Tstatfs :=
  p9_wire_format_inner Tstatfs_fields Tstatfs_make.
#[global] Instance WireFormatLaws_Tstatfs : WireFormatLaws Tstatfs.
Proof. derive_struct_laws. Defined.

Record Rstatfs : Set := MkRstatfs {
  Rstatfs_ty : u32; Rstatfs_bsize : u32; Rstatfs_blocks : u64; Rstatfs_bfree : u64;
  Rstatfs_bavail : u64; Rstatfs_files : u64; Rstatfs_ffree : u64; Rstatfs_fsid : u64;
  Rstatfs_namelen : u32
}.
Definition Rstatfs_fields (m : Rstatfs) :=
  Rstatfs_ty m :* Rstatfs_bsize m :*
  Rstatfs_blocks m :* Rstatfs_bfree m :* Rstatfs_bavail m :* Rstatfs_files m :*
  Rstatfs_ffree m :* Rstatfs_fsid m :* Rstatfs_namelen m :* FNil.
Definition Rstatfs_make (f : u32 ** u32 ** u64 ** u64 ** u64 ** u64 ** u64 ** u64 ** u32 **
  fnil) : Rstatfs :=
  let '(x0 :* x1 :* x2 :* x3 :* x4 :* x5 :* x6 :* x7 :* x8 :* FNil) := f in
  MkRstatfs x0 x1 x2 x3 x4 x5 x6 x7 x8.
#[global] Instance WireFormat_Rstatfs : WireFormat Rstatfs :=
  p9_wire_format_inner Rstatfs_fields Rstatfs_make.
#[global] Instance WireFormatLaws_Rstatfs : WireFormatLaws Rstatfs.
Proof. derive_struct_laws. Defined.

Record Tlopen : Set := MkTlopen {
  Tlopen_fid : u32; Tlopen_flags : u32
}.
Definition Tlopen_fields (m : Tlopen) :=
  Tlopen_fid m :* Tlopen_flags m :* FNil.
Definition Tlopen_make (f : u32 ** u32 ** fnil) : Tlopen :=
  let '(x0 :* x1 :* FNil) := f in
  MkTlopen x0 x1.
#[global] Instance WireFormat_Tlopen : WireFormat Tlopen :=
  p9_wire_format_inner Tlopen_fields Tlopen_make.
#[global] Instance WireFormatLaws_Tlopen : WireFormatLaws Tlopen.
Proof. derive_struct_laws. Defined.

Record Rlopen : Set := MkRlopen {
  Rlopen_qid : Qid; Rlopen_iounit : u32
}.
Definition Rlopen_fields (m : Rlopen) :=
  Rlopen_qid m :* Rlopen_iounit m :* FNil.
Definition Rlopen_make (f : Qid ** u32 ** fnil) : Rlopen :=
  let '(x0 :* x1 :* FNil) := f in
  MkRlopen x0 x1.
#[global] Instance WireFormat_Rlopen : WireFormat Rlopen :=
  p9_wire_format_inner Rlopen_fields Rlopen_make.
#[global] Instance WireFormatLaws_Rlopen : WireFormatLaws Rlopen.
Proof. derive_struct_laws. Defined.

Record Tlcreate : Set := MkTlcreate {
  Tlcreate_fid : u32; Tlcreate_name : rstring; Tlcreate_flags : u32; Tlcreate_mode : u32;
  Tlcreate_gid : u32
}.
Definition Tlcreate_fields (m : Tlcreate) :=
  Tlcreate_fid m :* Tlcreate_name m :*
  Tlcreate_flags m :* Tlcreate_mode m :* Tlcreate_gid m :* FNil.
Definition Tlcreate_make (f : u32 ** rstring ** u32 ** u32 ** u32 ** fnil) : Tlcreate :=
  let '(x0 :* x1 :* x2 :* x3 :* x4 :* FNil) := f in
  MkTlcreate x0 x1 x2 x3 x4.
#[global] Instance WireFormat_Tlcreate : WireFormat Tlcreate :=
  p9_wire_format_inner Tlcreate_fields Tlcreate_make.
#[global] Instance WireFormatLaws_Tlcreate : WireFormatLaws Tlcreate.
Proof. derive_struct_laws. Defined.

Record Rlcreate : Set := MkRlcreate {
  Rlcreate_qid : Qid; Rlcreate_iounit : u32
}.
Definition Rlcreate_fields (m : Rlcreate) :=
  Rlcreate_qid m :* Rlcreate_iounit m :* FNil.
Definition Rlcreate_make (f : Qid ** u32 ** fnil) : Rlcreate :=
  let '(x0 :* x1 :* FNil) := f in
  MkRlcreate x0 x1.
#[global] Instance WireFormat_Rlcreate : WireFormat Rlcreate :=
  p9_wire_format_inner Rlcreate_fields Rlcreate_make.
#[global] Instance WireFormatLaws_Rlcreate : WireFormatLaws Rlcreate.
Proof. derive_struct_laws. Defined.

Record Tsymlink : Set := MkTsymlink {
  Tsymlink_fid : u32; Tsymlink_name : rstring; Tsymlink_symtgt : rstring; Tsymlink_gid : u32
}.
Definition Tsymlink_fields (m : Tsymlink) :=
  Tsymlink_fid m :* Tsymlink_name m :*
  Tsymlink_symtgt m :* Tsymlink_gid m :* FNil.
Definition Tsymlink_make (f : u32 ** rstring ** rstring ** u32 ** fnil) : Tsymlink :=
  let '(x0 :* x1 :* x2 :* x3 :* FNil) := f in
  MkTsymlink x0 x1 x2 x3.
#[global] Instance WireFormat_Tsymlink : WireFormat Tsymlink :=
  p9_wire_format_inner Tsymlink_fields Tsymlink_make.
#[global] Instance WireFormatLaws_Tsymlink : WireFormatLaws Tsymlink.
Proof. derive_struct_laws. Defined.

Record Rsymlink : Set := MkRsymlink {
  Rsymlink_qid : Qid
}.
Definition Rsymlink_fields (m : Rsymlink) :=
  Rsymlink_qid m :* FNil.
Definition Rsymlink_make (f : Qid ** fnil) : Rsymlink :=
  let '(x0 :* FNil) := f in
  MkRsymlink x0.
#[global] Instance WireFormat_Rsymlink : WireFormat Rsymlink :=
  p9_wire_format_inner Rsymlink_fields Rsymlink_make.
#[global] Instance WireFormatLaws_Rsymlink : WireFormatLaws Rsymlink.
Proof. derive_struct_laws. Defined.

Record Tmknod : Set := MkTmknod {
  Tmknod_dfid : u32; Tmknod_name : rstring; Tmknod_mode : u32; Tmknod_major : u32;
  Tmknod_minor : u32; Tmknod_gid : u32
}.
Definition Tmknod_fields (m : Tmknod) :=
  Tmknod_dfid m :* Tmknod_name m :*
  Tmknod_mode m :* Tmknod_major m :* Tmknod_minor m :* Tmknod_gid m :* FNil.
Definition Tmknod_make (f : u32 ** rstring ** u32 ** u32 ** u32 ** u32 ** fnil) : Tmknod :=
  let '(x0 :* x1 :* x2 :* x3 :* x4 :* x5 :* FNil) := f in
  MkTmknod x0 x1 x2 x3 x4 x5.
#[global] Instance WireFormat_Tmknod : WireFormat Tmknod :=
  p9_wire_format_inner Tmknod_fields Tmknod_make.
#[global] Instance WireFormatLaws_Tmknod : WireFormatLaws Tmknod.
Proof. derive_struct_laws. Defined.

Record Rmknod : Set := MkRmknod {
  Rmknod_qid : Qid
}.
Definition Rmknod_fields (m : Rmknod) :=
  Rmknod_qid m :* FNil.
Definition Rmknod_make (f : Qid ** fnil) : Rmknod :=
  let '(x0 :* FNil) := f in
  MkRmknod x0.
#[global] Instance WireFormat_Rmknod : WireFormat Rmknod :=
  p9_wire_format_inner Rmknod_fields Rmknod_make.
#[global] Instance WireFormatLaws_Rmknod : WireFormatLaws Rmknod.
Proof. derive_struct_laws. Defined.

Record Trename : Set := MkTrename {
  Trename_fid : u32; Trename_dfid : u32; Trename_name : rstring
}.
Definition Trename_fields (m : Trename) :=
  Trename_fid m :* Trename_dfid m :*
  Trename_name m :* FNil.
Definition Trename_make (f : u32 ** u32 ** rstring ** fnil) : Trename :=
  let '(x0 :* x1 :* x2 :* FNil) := f in
  MkTrename x0 x1 x2.
#[global] Instance WireFormat_Trename : WireFormat Trename :=
  p9_wire_format_inner Trename_fields Trename_make.
#[global] Instance WireFormatLaws_Trename : WireFormatLaws Trename.
Proof. derive_struct_laws. Defined.

Record Treadlink : Set := MkTreadlink {
  Treadlink_fid : u32
}.
Definition Treadlink_fields (m : Treadlink) :=
  Treadlink_fid m :* FNil.
Definition Treadlink_make (f : u32 ** fnil) : Treadlink :=
  let '(x0 :* FNil) := f in
  MkTreadlink x0.
#[global] Instance WireFormat_Treadlink : WireFormat Treadlink :=
  p9_wire_format_inner Treadlink_fields Treadlink_make.
#[global] Instance WireFormatLaws_Treadlink : WireFormatLaws Treadlink.
Proof. derive_struct_laws. Defined.

Record Rreadlink : Set := MkRreadlink {
  Rreadlink_target : rstring
}.
Definition Rreadlink_fields (m : Rreadlink) :=
  Rreadlink_target m :* FNil.
Definition Rreadlink_make (f : rstring ** fnil) : Rreadlink :=
  let '(x0 :* FNil) := f in
  MkRreadlink x0.
#[global] Instance WireFormat_Rreadlink : WireFormat Rreadlink :=
  p9_wire_format_inner Rreadlink_fields Rreadlink_make.
#[global] Instance WireFormatLaws_Rreadlink : WireFormatLaws Rreadlink.
Proof. derive_struct_laws. Defined.

Record Tgetattr : Set := MkTgetattr {
  Tgetattr_fid : u32; Tgetattr_request_mask : u64
}.
Definition Tgetattr_fields (m : Tgetattr) :=
  Tgetattr_fid m :* Tgetattr_request_mask m :*
  FNil.
Definition Tgetattr_make (f : u32 ** u64 ** fnil) : Tgetattr :=
  let '(x0 :* x1 :* FNil) := f in
  MkTgetattr x0 x1.
#[global] Instance WireFormat_Tgetattr : WireFormat Tgetattr :=
  p9_wire_format_inner Tgetattr_fields Tgetattr_make.
#[global] Instance WireFormatLaws_Tgetattr : WireFormatLaws Tgetattr.
Proof. derive_struct_laws. Defined.

Record Rgetattr : Set := MkRgetattr {
  Rgetattr_valid : u64; Rgetattr_qid : Qid; Rgetattr_mode : u32; Rgetattr_uid : u32;
  Rgetattr_gid : u32; Rgetattr_nlink : u64; Rgetattr_rdev : u64; Rgetattr_size : u64;
  Rgetattr_blksize : u64; Rgetattr_blocks : u64; Rgetattr_atime_sec : u64;
  Rgetattr_atime_nsec : u64; Rgetattr_mtime_sec : u64; Rgetattr_mtime_nsec : u64;
  Rgetattr_ctime_sec : u64; Rgetattr_ctime_nsec : u64; Rgetattr_btime_sec : u64;
  Rgetattr_btime_nsec : u64; Rgetattr_gen : u64; Rgetattr_data_version : u64
}.
Definition Rgetattr_fields (m : Rgetattr) :=
  Rgetattr_valid m :* Rgetattr_qid m :*
  Rgetattr_mode m :* Rgetattr_uid m :* Rgetattr_gid m :* Rgetattr_nlink m :*
  Rgetattr_rdev m :* Rgetattr_size m :* Rgetattr_blksize m :* Rgetattr_blocks m :*
  Rgetattr_atime_sec m :* Rgetattr_atime_nsec m :* Rgetattr_mtime_sec m :*
  Rgetattr_mtime_nsec m :* Rgetattr_ctime_sec m :* Rgetattr_ctime_nsec m :*
  Rgetattr_btime_sec m :* Rgetattr_btime_nsec m :* Rgetattr_gen m :*
  Rgetattr_data_version m :* FNil.
Definition Rgetattr_make (f : u64 ** Qid ** u32 ** u32 ** u32 ** u64 ** u64 ** u64 **
  u64 ** u64 ** u64 ** u64 ** u64 ** u64 ** u64 ** u64 ** u64 ** u64 ** u64 ** u64 ** fnil) : Rgetattr :=
  let '(x0 :* x1 :* x2 :* x3 :* x4 :* x5 :* x6 :* x7 :* x8 :* x9 :* x10 :* x11 :* x12 :*
  x13 :* x14 :* x15 :* x16 :* x17 :* x18 :* x19 :* FNil) := f in
  MkRgetattr x0 x1 x2 x3 x4 x5 x6 x7 x8 x9 x10 x11 x12 x13 x14 x15 x16 x17 x18 x19.
#[global] Instance WireFormat_Rgetattr : WireFormat Rgetattr :=
  p9_wire_format_inner Rgetattr_fields Rgetattr_make.
#[global] Instance WireFormatLaws_Rgetattr : WireFormatLaws Rgetattr.
Proof. derive_struct_laws. Defined.

Record Tsetattr : Set := MkTsetattr {
  Tsetattr_fid : u32; Tsetattr_valid : u32; Tsetattr_mode : u32; Tsetattr_uid : u32;
  Tsetattr_gid : u32; Tsetattr_size : u64; Tsetattr_atime_sec : u64;
  Tsetattr_atime_nsec : u64; Tsetattr_mtime_sec : u64; Tsetattr_mtime_nsec : u64
}.
Definition Tsetattr_fields (m : Tsetattr) :=
  Tsetattr_fid m :* Tsetattr_valid m :*
  Tsetattr_mode m :* Tsetattr_uid m :* Tsetattr_gid m :* Tsetattr_size m :*
  Tsetattr_atime_sec m :* Tsetattr_atime_nsec m :* Tsetattr_mtime_sec m :*
  Tsetattr_mtime_nsec m :* FNil.
Definition Tsetattr_make (f : u32 ** u32 ** u32 ** u32 ** u32 ** u64 ** u64 ** u64 **
  u64 ** u64 ** fnil) : Tsetattr :=
  let '(x0 :* x1 :* x2 :* x3 :* x4 :* x5 :* x6 :* x7 :* x8 :* x9 :* FNil) := f in
  MkTsetattr x0 x1 x2 x3 x4 x5 x6 x7 x8 x9.
#[global] Instance WireFormat_Tsetattr : WireFormat Tsetattr :=
  p9_wire_format_inner Tsetattr_fields Tsetattr_make.
#[global] Instance WireFormatLaws_Tsetattr : WireFormatLaws Tsetattr.
Proof. derive_struct_laws. Defined.

Record Txattrwalk : Set := MkTxattrwalk {
  Txattrwalk_fid : u32; Txattrwalk_newfid : u32; Txattrwalk_name : rstring
}.
Definition Txattrwalk_fields (m : Txattrwalk) :=
  Txattrwalk_fid m :*
  Txattrwalk_newfid m :* Txattrwalk_name m :* FNil.
Definition Txattrwalk_make (f : u32 ** u32 ** rstring ** fnil) : Txattrwalk :=
  let '(x0 :* x1 :* x2 :* FNil) := f in
  MkTxattrwalk x0 x1 x2.
#[global] Instance WireFormat_Txattrwalk : WireFormat Txattrwalk :=
  p9_wire_format_inner Txattrwalk_fields Txattrwalk_make.
#[global] Instance WireFormatLaws_Txattrwalk : WireFormatLaws Txattrwalk.
Proof. derive_struct_laws. Defined.

Record Rxattrwalk : Set := MkRxattrwalk {
  Rxattrwalk_size : u64
}.
Definition Rxattrwalk_fields (m : Rxattrwalk) :=
  Rxattrwalk_size m :* FNil.
Definition Rxattrwalk_make (f : u64 ** fnil) : Rxattrwalk :=
  let '(x0 :* FNil) := f in
  MkRxattrwalk x0.
#[global] Instance WireFormat_Rxattrwalk : WireFormat Rxattrwalk :=
  p9_wire_format_inner Rxattrwalk_fields Rxattrwalk_make.
#[global] Instance WireFormatLaws_Rxattrwalk : WireFormatLaws Rxattrwalk.
Proof. derive_struct_laws. Defined.

Record Txattrcreate : Set := MkTxattrcreate {
  Txattrcreate_fid : u32; Txattrcreate_name : rstring; Txattrcreate_attr_size : u64;
  Txattrcreate_flags : u32
}.
Definition Txattrcreate_fields (m : Txattrcreate) :=
  Txattrcreate_fid m :*
  Txattrcreate_name m :* Txattrcreate_attr_size m :* Txattrcreate_flags m :* FNil.
Definition Txattrcreate_make (f : u32 ** rstring ** u64 ** u32 ** fnil) : Txattrcreate :=
  let '(x0 :* x1 :* x2 :* x3 :* FNil) := f in
  MkTxattrcreate x0 x1 x2 x3.
#[global] Instance WireFormat_Txattrcreate : WireFormat Txattrcreate :=
  p9_wire_format_inner Txattrcreate_fields Txattrcreate_make.
#[global] Instance WireFormatLaws_Txattrcreate : WireFormatLaws Txattrcreate.
Proof. derive_struct_laws. Defined.

Record Treaddir : Set := MkTreaddir {
  Treaddir_fid : u32; Treaddir_offset : u64; Treaddir_count : u32
}.
Definition Treaddir_fields (m : Treaddir) :=
  Treaddir_fid m :* Treaddir_offset m :*
  Treaddir_count m :* FNil.
Definition Treaddir_make (f : u32 ** u64 ** u32 ** fnil) : Treaddir :=
  let '(x0 :* x1 :* x2 :* FNil) := f in
  MkTreaddir x0 x1 x2.
#[global] Instance WireFormat_Treaddir : WireFormat Treaddir :=
  p9_wire_format_inner Treaddir_fields Treaddir_make.
#[global] Instance WireFormatLaws_Treaddir : WireFormatLaws Treaddir.
Proof. derive_struct_laws. Defined.

Record Rreaddir : Set := MkRreaddir {
  Rreaddir_data : Data
}.
Definition Rreaddir_fields (m : Rreaddir) :=
  Rreaddir_data m :* FNil.
Definition Rreaddir_make (f : Data ** fnil) : Rreaddir :=
  let '(x0 :* FNil) := f in
  MkRreaddir x0.
#[global] Instance WireFormat_Rreaddir : WireFormat Rreaddir :=
  p9_wire_format_inner Rreaddir_fields Rreaddir_make.
#[global] Instance WireFormatLaws_Rreaddir : WireFormatLaws Rreaddir.
Proof. derive_struct_laws. Defined.

Record Tfsync : Set := MkTfsync {
  Tfsync_fid : u32; Tfsync_datasync : u32
}.
Definition Tfsync_fields (m : Tfsync) :=
  Tfsync_fid m :* Tfsync_datasync m :* FNil.
Definition Tfsync_make (f : u32 ** u32 ** fnil) : Tfsync :=
  let '(x0 :* x1 :* FNil) := f in
  MkTfsync x0 x1.
#[global] Instance WireFormat_Tfsync : WireFormat Tfsync :=
  p9_wire_format_inner Tfsync_fields Tfsync_make.
#[global] Instance WireFormatLaws_Tfsync : WireFormatLaws Tfsync.
Proof. derive_struct_laws. Defined.

Record Tlock : Set := MkTlock {
  Tlock_fid : u32; Tlock_type_ : u8; Tlock_flags : u32; Tlock_start : u64;
  Tlock_length : u64; Tlock_proc_id : u32; Tlock_client_id : rstring
}.
Definition Tlock_fields (m : Tlock) :=
  Tlock_fid m :* Tlock_type_ m :* Tlock_flags m :*
  Tlock_start m :* Tlock_length m :* Tlock_proc_id m :* Tlock_client_id m :* FNil.
Definition Tlock_make (f : u32 ** u8 ** u32 ** u64 ** u64 ** u32 ** rstring ** fnil) : Tlock :=
  let '(x0 :* x1 :* x2 :* x3 :* x4 :* x5 :* x6 :* FNil) := f in
  MkTlock x0 x1 x2 x3 x4 x5 x6.
#[global] Instance WireFormat_Tlock : WireFormat Tlock :=
  p9_wire_format_inner Tlock_fields Tlock_make.
#[global] Instance WireFormatLaws_Tlock : WireFormatLaws Tlock.
Proof. derive_struct_laws. Defined.

Record Rlock : Set := MkRlock {
  Rlock_status : u8
}.
Definition Rlock_fields (m : Rlock) :=
  Rlock_status m :* FNil.
Definition Rlock_make (f : u8 ** fnil) : Rlock :=
  let '(x0 :* FNil) := f in
  MkRlock x0.
#[global] Instance WireFormat_Rlock : WireFormat Rlock :=
  p9_wire_format_inner Rlock_fields Rlock_make.
#[global] Instance WireFormatLaws_Rlock : WireFormatLaws Rlock.
Proof. derive_struct_laws. Defined.

Record Tgetlock : Set := MkTgetlock {
  Tgetlock_fid : u32; Tgetlock_type_ : u8; Tgetlock_start : u64; Tgetlock_length : u64;
  Tgetlock_proc_id : u32; Tgetlock_client_id : rstring
}.
Definition Tgetlock_fields (m : Tgetlock) :=
  Tgetlock_fid m :* Tgetlock_type_ m :*
  Tgetlock_start m :* Tgetlock_length m :* Tgetlock_proc_id m :* Tgetlock_client_id m :*
  FNil.
Definition Tgetlock_make (f : u32 ** u8 ** u64 ** u64 ** u32 ** rstring ** fnil) : Tgetlock :=
  let '(x0 :* x1 :* x2 :* x3 :* x4 :* x5 :* FNil) := f in
  MkTgetlock x0 x1 x2 x3 x4 x5.
#[global] Instance WireFormat_Tgetlock : WireFormat Tgetlock :=
  p9_wire_format_inner Tgetlock_fields Tgetlock_make.
#[global] Instance WireFormatLaws_Tgetlock : WireFormatLaws Tgetlock.
Proof. derive_struct_laws. Defined.

Record Rgetlock : Set := MkRgetlock {
  Rgetlock_type_ : u8; Rgetlock_start : u64; Rgetlock_length : u64; Rgetlock_proc_id : u32;
  Rgetlock_client_id : rstring
}.
Definition Rgetlock_fields (m : Rgetlock) :=
  Rgetlock_type_ m :* Rgetlock_start m :*
  Rgetlock_length m :* Rgetlock_proc_id m :* Rgetlock_client_id m :* FNil.
Definition Rgetlock_make (f : u8 ** u64 ** u64 ** u32 ** rstring ** fnil) : Rgetlock :=
  let '(x0 :* x1 :* x2 :* x3 :* x4 :* FNil) := f in
  MkRgetlock x0 x1 x2 x3 x4.
#[global] Instance WireFormat_Rgetlock : WireFormat Rgetlock :=
  p9_wire_format_inner Rgetlock_fields Rgetlock_make.
#[global] Instance WireFormatLaws_Rgetlock : WireFormatLaws Rgetlock.
Proof. derive_struct_laws. Defined.

Record Rlerror : Set := MkRlerror {
  Rlerror_ecode : u32
}.
Definition Rlerror_fields (m : Rlerror) :=
  Rlerror_ecode m :* FNil.
Definition Rlerror_make (f : u32 ** fnil) : Rlerror :=
  let '(x0 :* FNil) := f in
  MkRlerror x0.
#[global] Instance WireFormat_Rlerror : WireFormat Rlerror :=
  p9_wire_format_inner Rlerror_fields Rlerror_make.
#[global] Instance WireFormatLaws_Rlerror : WireFormatLaws Rlerror.
Proof. derive_struct_laws. Defined.

Record Rerror : Set := MkRerror {
  Rerror_ename : rstring
}.
Definition Rerror_fields (m : Rerror) :=
  Rerror_ename m :* FNil.
Definition Rerror_make (f : rstring ** fnil) : Rerror :=
  let '(x0 :* FNil) := f in
  MkRerror x0.
#[global] Instance WireFormat_Rerror : WireFormat Rerror :=
  p9_wire_format_inner Rerror_fields Rerror_make.
#[global] Instance WireFormatLaws_Rerror : WireFormatLaws Rerror.
Proof. derive_struct_laws. Defined.

Record Tlink : Set := MkTlink {
  Tlink_dfid : u32; Tlink_fid : u32; Tlink_name : rstring
}.
Definition Tlink_fields (m : Tlink) :=
  Tlink_dfid m :* Tlink_fid m :* Tlink_name m :* FNil.
Definition Tlink_make (f : u32 ** u32 ** rstring ** fnil) : Tlink :=
  let '(x0 :* x1 :* x2 :* FNil) := f in
  MkTlink x0 x1 x2.
#[global] Instance WireFormat_Tlink : WireFormat Tlink :=
  p9_wire_format_inner Tlink_fields Tlink_make.
#[global] Instance WireFormatLaws_Tlink : WireFormatLaws Tlink.
Proof. derive_struct_laws. Defined.

Record Tmkdir : Set := MkTmkdir {
  Tmkdir_dfid : u32; Tmkdir_name : rstring; Tmkdir_mode : u32; Tmkdir_gid : u32
}.
Definition Tmkdir_fields (m : Tmkdir) :=
  Tmkdir_dfid m :* Tmkdir_name m :*
  Tmkdir_mode m :* Tmkdir_gid m :* FNil.
Definition Tmkdir_make (f : u32 ** rstring ** u32 ** u32 ** fnil) : Tmkdir :=
  let '(x0 :* x1 :* x2 :* x3 :* FNil) := f in
  MkTmkdir x0 x1 x2 x3.
#[global] Instance WireFormat_Tmkdir : WireFormat Tmkdir :=
  p9_wire_format_inner Tmkdir_fields Tmkdir_make.
#[global] Instance WireFormatLaws_Tmkdir : WireFormatLaws Tmkdir.
Proof. derive_struct_laws. Defined.

Record Rmkdir : Set := MkRmkdir {
  Rmkdir_qid : Qid
}.
Definition Rmkdir_fields (m : Rmkdir) :=
  Rmkdir_qid m :* FNil.
Definition Rmkdir_make (f : Qid ** fnil) : Rmkdir :=
  let '(x0 :* FNil) := f in
  MkRmkdir x0.
#[global] Instance WireFormat_Rmkdir : WireFormat Rmkdir :=
  p9_wire_format_inner Rmkdir_fields Rmkdir_make.
#[global] Instance WireFormatLaws_Rmkdir : WireFormatLaws Rmkdir.
Proof. derive_struct_laws. Defined.

Record Trenameat : Set := MkTrenameat {
  Trenameat_olddirfid : u32; Trenameat_oldname : rstring; Trenameat_newdirfid : u32;
  Trenameat_newname : rstring
}.
Definition Trenameat_fields (m : Trenameat) :=
  Trenameat_olddirfid m :*
  Trenameat_oldname m :* Trenameat_newdirfid m :* Trenameat_newname m :* FNil.
Definition Trenameat_make (f : u32 ** rstring ** u32 ** rstring ** fnil) : Trenameat :=
  let '(x0 :* x1 :* x2 :* x3 :* FNil) := f in
  MkTrenameat x0 x1 x2 x3.
#[global] Instance WireFormat_Trenameat : WireFormat Trenameat :=
  p9_wire_format_inner Trenameat_fields Trenameat_make.
#[global] Instance WireFormatLaws_Trenameat : WireFormatLaws Trenameat.
Proof. derive_struct_laws. Defined.

Record Tunlinkat : Set := MkTunlinkat {
  Tunlinkat_dirfd : u32; Tunlinkat_name : rstring; Tunlinkat_flags : u32
}.
Definition Tunlinkat_fields (m : Tunlinkat) :=
  Tunlinkat_dirfd m :* Tunlinkat_name m :*
  Tunlinkat_flags m :* FNil.
Definition Tunlinkat_make (f : u32 ** rstring ** u32 ** fnil) : Tunlinkat :=
  let '(x0 :* x1 :* x2 :* FNil) := f in
  MkTunlinkat x0 x1 x2.
#[global] Instance WireFormat_Tunlinkat : WireFormat Tunlinkat :=
  p9_wire_format_inner Tunlinkat_fields Tunlinkat_make.
#[global] Instance WireFormatLaws_Tunlinkat : WireFormatLaws Tunlinkat.
Proof. derive_struct_laws. Defined.

Record Dirent : Set := MkDirent {
  Dirent_qid : Qid; Dirent_offset : u64; Dirent_ty : u8; Dirent_name : rstring
}.
Definition Dirent_fields (m : Dirent) :=
  Dirent_qid m :* Dirent_offset m :*
  Dirent_ty m :* Dirent_name m :* FNil.
Definition Dirent_make (f : Qid ** u64 ** u8 ** rstring ** fnil) : Dirent :=
  let '(x0 :* x1 :* x2 :* x3 :* FNil) := f in
  MkDirent x0 x1 x2 x3.
#[global] Instance WireFormat_Dirent : WireFormat Dirent :=
  p9_wire_format_inner Dirent_fields Dirent_make.
#[global] Instance WireFormatLaws_Dirent : WireFormatLaws Dirent.
Proof. derive_struct_laws. Defined.

Record Rversion : Set := MkRversion {
  Rversion_msize : u32; Rversion_version : rstring
}.
Definition Rversion_fields (m : Rversion) :=
  Rversion_msize m :* Rversion_version m :*
  FNil.
Definition Rversion_make (f : u32 ** rstring ** fnil) : Rversion :=
  let '(x0 :* x1 :* FNil) := f in
  MkRversion x0 x1.
#[global] Instance WireFormat_Rversion : WireFormat Rversion :=
  p9_wire_format_inner Rversion_fields Rversion_make.
#[global] Instance WireFormatLaws_Rversion : WireFormatLaws Rversion.
Proof. derive_struct_laws. Defined.

Record Rwalk : Set := MkRwalk {
  Rwalk_wqids : list Qid
}.
Definition Rwalk_fields (m : Rwalk) :=
  Rwalk_wqids m :* FNil.
Definition Rwalk_make (f : (list Qid) ** fnil) : Rwalk :=
  let '(x0 :* FNil) := f in
  MkRwalk x0.
#[global] Instance WireFormat_Rwalk : WireFormat Rwalk :=
  p9_wire_format_inner Rwalk_fields Rwalk_make.
#[global] Instance WireFormatLaws_Rwalk : WireFormatLaws Rwalk.
Proof. derive_struct_laws. Defined.

Record Rauth : Set := MkRauth {
  Rauth_aqid : Qid
}.
Definition Rauth_fields (m : Rauth) :=
  Rauth_aqid m :* FNil.
Definition Rauth_make (f : Qid ** fnil) : Rauth :=
  let '(x0 :* FNil) := f in
  MkRauth x0.
#[global] Instance WireFormat_Rauth : WireFormat Rauth :=
  p9_wire_format_inner Rauth_fields Rauth_make.
#[global] Instance WireFormatLaws_Rauth : WireFormatLaws Rauth.
Proof. derive_struct_laws. Defined.

Record Rattach : Set := MkRattach {
  Rattach_qid : Qid
}.
Definition Rattach_fields (m : Rattach) :=
  Rattach_qid m :* FNil.
Definition Rattach_make (f : Qid ** fnil) : Rattach :=
  let '(x0 :* FNil) := f in
  MkRattach x0.
#[global] Instance WireFormat_Rattach : WireFormat Rattach :=
  p9_wire_format_inner Rattach_fields Rattach_make.
#[global] Instance WireFormatLaws_Rattach : WireFormatLaws Rattach.
Proof. derive_struct_laws. Defined.
