(* ===== verification/Messages.v ===== *)
(** * The 9P2000.L messages and frames: [jetstream/src/coding/messages.rs]

    [Tmessage] and [Rmessage] are the requests and replies, [Tframe] and
    [Rframe] the frames that carry them: a 32-bit size that counts itself, the
    type byte, the tag and the body. *)

From S2P Require Import Prelude StdIo WireFormat Derive MessageTypes.

(** ** Message type constants *)

Definition TLERROR : Z := 6.
Definition RLERROR : Z := TLERROR + 1.
Definition TSTATFS : Z := 8.
Definition RSTATFS : Z := TSTATFS + 1.
Definition TLOPEN : Z := 12.
Definition RLOPEN : Z := TLOPEN + 1.
Definition TLCREATE : Z := 14.
Definition RLCREATE : Z := TLCREATE + 1.
Definition TSYMLINK : Z := 16.
Definition RSYMLINK : Z := TSYMLINK + 1.
Definition TMKNOD : Z := 18.
Definition RMKNOD : Z := TMKNOD + 1.
Definition TRENAME : Z := 20.
Definition RRENAME : Z := TRENAME + 1.
Definition TREADLINK : Z := 22.
Definition RREADLINK : Z := TREADLINK + 1.
Definition TGETATTR : Z := 24.
Definition RGETATTR : Z := TGETATTR + 1.
Definition TSETATTR : Z := 26.
Definition RSETATTR : Z := TSETATTR + 1.
Definition TXATTRWALK : Z := 30.
Definition RXATTRWALK : Z := TXATTRWALK + 1.
Definition TXATTRCREATE : Z := 32.
Definition RXATTRCREATE : Z := TXATTRCREATE + 1.
Definition TREADDIR : Z := 40.
Definition RREADDIR : Z := TREADDIR + 1.
Definition TFSYNC : Z := 50.
Definition RFSYNC : Z := TFSYNC + 1.
Definition TLOCK : Z := 52.
Definition RLOCK : Z := TLOCK + 1.
Definition TGETLOCK : Z := 54.
Definition RGETLOCK : Z := TGETLOCK + 1.
Definition TLINK : Z := 70.
Definition RLINK : Z := TLINK + 1.
Definition TMKDIR : Z := 72.
Definition RMKDIR : Z := TMKDIR + 1.
Definition TRENAMEAT : Z := 74.
Definition RRENAMEAT : Z := TRENAMEAT + 1.
Definition TUNLINKAT : Z := 76.
Definition RUNLINKAT : Z := TUNLINKAT + 1.
Definition TVERSION : Z := 100.
Definition RVERSION : Z := TVERSION + 1.
Definition TAUTH : Z := 102.
Definition RAUTH : Z := TAUTH + 1.
Definition TATTACH : Z := 104.
Definition RATTACH : Z := TATTACH + 1.
Definition _TERROR : Z := 106.
Definition _RERROR : Z := _TERROR + 1.
Definition TFLUSH : Z := 108.
Definition RFLUSH : Z := TFLUSH + 1.
Definition TWALK : Z := 110.
Definition RWALK : Z := TWALK + 1.
Definition _TOPEN : Z := 112.
Definition _ROPEN : Z := _TOPEN + 1.
Definition _TCREATE : Z := 114.
Definition _RCREATE : Z := _TCREATE + 1.
Definition TREAD : Z := 116.
Definition RREAD : Z := TREAD + 1.
Definition TWRITE : Z := 118.
Definition RWRITE : Z := TWRITE + 1.
Definition TCLUNK : Z := 120.
Definition RCLUNK : Z := TCLUNK + 1.
Definition TREMOVE : Z := 122.
Definition RREMOVE : Z := TREMOVE + 1.
Definition _TSTAT : Z := 124.
Definition _RSTAT : Z := _TSTAT + 1.
Definition _TWSTAT : Z := 126.
Definition _RWSTAT : Z := _TWSTAT + 1.

(** ** Requests *)

Inductive Tmessage : Set :=
| TVersion (m : Tversion)
| TFlush (m : Tflush)
| TWalk (m : Twalk)
| TRead (m : Tread)
| TWrite (m : Twrite)
| TClunk (m : Tclunk)
| TRemove (m : Tremove)
| TAttach (m : Tattach)
| TAuth (m : Tauth)
| TStatfs (m : Tstatfs)
| TLopen (m : Tlopen)
| TLcreate (m : Tlcreate)
| TSymlink (m : Tsymlink)
| TMknod (m : Tmknod)
| TRename (m : Trename)
| TReadlink (m : Treadlink)
| TGetAttr (m : Tgetattr)
| TSetAttr (m : Tsetattr)
| TXattrWalk (m : Txattrwalk)
| TXattrCreate (m : Txattrcreate)
| TReaddir (m : Treaddir)
| TFsync (m : Tfsync)
| TLock (m : Tlock)
| TGetLock (m : Tgetlock)
| TLink (m : Tlink)
| TMkdir (m : Tmkdir)
| TRenameAt (m : Trenameat)
| TUnlinkAt (m : Tunlinkat).

Record Tframe : Type := MkTframe { Tframe_tag : u16; Tframe_msg : io_result Tmessage }.

(** The three matches on the message of [impl WireFormat for Tframe]. *)

Definition Tmessage_byte_size (m : Tmessage) : u32 :=
  match m with
  | TVersion m => byte_size m
  | TFlush m => byte_size m
  | TWalk m => byte_size m
  | TRead m => byte_size m
  | TWrite m => byte_size m
  | TClunk m => byte_size m
  | TRemove m => byte_size m
  | TAttach m => byte_size m
  | TAuth m => byte_size m
  | TStatfs m => byte_size m
  | TLopen m => byte_size m
  | TLcreate m => byte_size m
  | TSymlink m => byte_size m
  | TMknod m => byte_size m
  | TRename m => byte_size m
  | TReadlink m => byte_size m
  | TGetAttr m => byte_size m
  | TSetAttr m => byte_size m
  | TXattrWalk m => byte_size m
  | TXattrCreate m => byte_size m
  | TReaddir m => byte_size m
  | TFsync m => byte_size m
  | TLock m => byte_size m
  | TGetLock m => byte_size m
  | TLink m => byte_size m
  | TMkdir m => byte_size m
  | TRenameAt m => byte_size m
  | TUnlinkAt m => byte_size m
  end.

Definition Tmessage_type (m : Tmessage) : Z :=
  match m with
  | TVersion _ => TVERSION
  | TFlush _ => TFLUSH
  | TWalk _ => TWALK
  | TRead _ => TREAD
  | TWrite _ => TWRITE
  | TClunk _ => TCLUNK
  | TRemove _ => TREMOVE
  | TAttach _ => TATTACH
  | TAuth _ => TAUTH
  | TStatfs _ => TSTATFS
  | TLopen _ => TLOPEN
  | TLcreate _ => TLCREATE
  | TSymlink _ => TSYMLINK
  | TMknod _ => TMKNOD
  | TRename _ => TRENAME
  | TReadlink _ => TREADLINK
  | TGetAttr _ => TGETATTR
  | TSetAttr _ => TSETATTR
  | TXattrWalk _ => TXATTRWALK
  | TXattrCreate _ => TXATTRCREATE
  | TReaddir _ => TREADDIR
  | TFsync _ => TFSYNC
  | TLock _ => TLOCK
  | TGetLock _ => TGETLOCK
  | TLink _ => TLINK
  | TMkdir _ => TMKDIR
  | TRenameAt _ => TRENAMEAT
  | TUnlinkAt _ => TUNLINKAT
  end.

Definition Tmessage_encode (m : Tmessage) : enc :=
  match m with
  | TVersion m => encode m
  | TFlush m => encode m
  | TWalk m => encode m
  | TRead m => encode m
  | TWrite m => encode m
  | TClunk m => encode m
  | TRemove m => encode m
  | TAttach m => encode m
  | TAuth m => encode m
  | TStatfs m => encode m
  | TLopen m => encode m
  | TLcreate m => encode m
  | TSymlink m => encode m
  | TMknod m => encode m
  | TRename m => encode m
  | TReadlink m => encode m
  | TGetAttr m => encode m
  | TSetAttr m => encode m
  | TXattrWalk m => encode m
  | TXattrCreate m => encode m
  | TReaddir m => encode m
  | TFsync m => encode m
  | TLock m => encode m
  | TGetLock m => encode m
  | TLink m => encode m
  | TMkdir m => encode m
  | TRenameAt m => encode m
  | TUnlinkAt m => encode m
  end.

(** [Tframe::decode_message]. *)
Definition Tframe_decode_message (ty : Z) : reader Tmessage :=
  if ty =? TVERSION then TVersion <$> decode
  else if ty =? TFLUSH then TFlush <$> decode
  else if ty =? TWALK then TWalk <$> decode
  else if ty =? TREAD then TRead <$> decode
  else if ty =? TWRITE then TWrite <$> decode
  else if ty =? TCLUNK then TClunk <$> decode
  else if ty =? TREMOVE then TRemove <$> decode
  else if ty =? TATTACH then TAttach <$> decode
  else if ty =? TAUTH then TAuth <$> decode
  else if ty =? TSTATFS then TStatfs <$> decode
  else if ty =? TLOPEN then TLopen <$> decode
  else if ty =? TLCREATE then TLcreate <$> decode
  else if ty =? TSYMLINK then TSymlink <$> decode
  else if ty =? TMKNOD then TMknod <$> decode
  else if ty =? TRENAME then TRename <$> decode
  else if ty =? TREADLINK then TReadlink <$> decode
  else if ty =? TGETATTR then TGetAttr <$> decode
  else if ty =? TSETATTR then TSetAttr <$> decode
  else if ty =? TXATTRWALK then TXattrWalk <$> decode
  else if ty =? TXATTRCREATE then TXattrCreate <$> decode
  else if ty =? TREADDIR then TReaddir <$> decode
  else if ty =? TFSYNC then TFsync <$> decode
  else if ty =? TLOCK then TLock <$> decode
  else if ty =? TGETLOCK then TGetLock <$> decode
  else if ty =? TLINK then TLink <$> decode
  else if ty =? TMKDIR then TMkdir <$> decode
  else if ty =? TRENAMEAT then TRenameAt <$> decode
  else if ty =? TUNLINKAT then TUnlinkAt <$> decode
  else rfail (KindError InvalidData).

(** [size_of::<u32>() + size_of::<u8>() + size_of::<u16>()]. *)
Definition FRAME_HEADER : Z := 4 + 1 + 2.

(** [Tframe::byte_size] panics ([None]) on a frame whose message is an error. *)
Definition Tframe_byte_size (f : Tframe) : option u32 :=
  match Tframe_msg f with
  | Ok m => Some (uadd (U32 FRAME_HEADER) (Tmessage_byte_size m))
  | Err _ => None
  end.

Definition Tframe_encode (f : Tframe) : enc :=
  match Tframe_msg f with
  | Err _ => enc_err (KindError InvalidData)
  | Ok m =>
      encode (uadd (U32 FRAME_HEADER) (Tmessage_byte_size m)) ;;?
      encode (U8 (Tmessage_type m)) ;;?
      encode (Tframe_tag f) ;;?
      Tmessage_encode m
  end.

(** What [Tframe::decode] reads through [reader.take(byte_size - 4)]. *)
Definition Tframe_decode_body : reader Tframe :=
  ty ← read_exact 1;
  tag ← (decode : reader u16);
  msg ← attempt (Tframe_decode_message (le_combine ty));
  mret (MkTframe tag msg).

Definition Tframe_decode : reader Tframe :=
  size ← (decode : reader u32);
  if uval size <? 4 then rfail (KindError InvalidData)
  else with_take (uval size - 4) Tframe_decode_body.

(** ** Replies *)

Inductive Rmessage : Set :=
| RVersion (m : Rversion)
| RFlush
| RWalk (m : Rwalk)
| RRead (m : Rread)
| RWrite (m : Rwrite)
| RClunk
| RRemove
| RAttach (m : Rattach)
| RAuth (m : Rauth)
| RStatfs (m : Rstatfs)
| RLopen (m : Rlopen)
| RLcreate (m : Rlcreate)
| RSymlink (m : Rsymlink)
| RMknod (m : Rmknod)
| RRename
| RReadlink (m : Rreadlink)
| RGetAttr (m : Rgetattr)
| RSetAttr
| RXattrWalk (m : Rxattrwalk)
| RXattrCreate
| RReaddir (m : Rreaddir)
| RFsync
| RLock (m : Rlock)
| RGetLock (m : Rgetlock)
| RLink
| RMkdir (m : Rmkdir)
| RRenameAt
| RUnlinkAt
| RLerror (m : Rlerror).

Record Rframe : Set := MkRframe { Rframe_tag : u16; Rframe_msg : Rmessage }.

Definition Rmessage_byte_size (m : Rmessage) : u32 :=
  match m with
  | RVersion m => byte_size m
  | RFlush => U32 0
  | RWalk m => byte_size m
  | RRead m => byte_size m
  | RWrite m => byte_size m
  | RClunk => U32 0
  | RRemove => U32 0
  | RAttach m => byte_size m
  | RAuth m => byte_size m
  | RStatfs m => byte_size m
  | RLopen m => byte_size m
  | RLcreate m => byte_size m
  | RSymlink m => byte_size m
  | RMknod m => byte_size m
  | RRename => U32 0
  | RReadlink m => byte_size m
  | RGetAttr m => byte_size m
  | RSetAttr => U32 0
  | RXattrWalk m => byte_size m
  | RXattrCreate => U32 0
  | RReaddir m => byte_size m
  | RFsync => U32 0
  | RLock m => byte_size m
  | RGetLock m => byte_size m
  | RLink => U32 0
  | RMkdir m => byte_size m
  | RRenameAt => U32 0
  | RUnlinkAt => U32 0
  | RLerror m => byte_size m
  end.

Definition Rmessage_type (m : Rmessage) : Z :=
  match m with
  | RVersion _ => RVERSION
  | RFlush => RFLUSH
  | RWalk _ => RWALK
  | RRead _ => RREAD
  | RWrite _ => RWRITE
  | RClunk => RCLUNK
  | RRemove => RREMOVE
  | RAttach _ => RATTACH
  | RAuth _ => RAUTH
  | RStatfs _ => RSTATFS
  | RLopen _ => RLOPEN
  | RLcreate _ => RLCREATE
  | RSymlink _ => RSYMLINK
  | RMknod _ => RMKNOD
  | RRename => RRENAME
  | RReadlink _ => RREADLINK
  | RGetAttr _ => RGETATTR
  | RSetAttr => RSETATTR
  | RXattrWalk _ => RXATTRWALK
  | RXattrCreate => RXATTRCREATE
  | RReaddir _ => RREADDIR
  | RFsync => RFSYNC
  | RLock _ => RLOCK
  | RGetLock _ => RGETLOCK
  | RLink => RLINK
  | RMkdir _ => RMKDIR
  | RRenameAt => RRENAMEAT
  | RUnlinkAt => RUNLINKAT
  | RLerror _ => RLERROR
  end.

Definition Rmessage_encode (m : Rmessage) : enc :=
  match m with
  | RVersion m => encode m
  | RFlush => enc_ok
  | RWalk m => encode m
  | RRead m => encode m
  | RWrite m => encode m
  | RClunk => enc_ok
  | RRemove => enc_ok
  | RAttach m => encode m
  | RAuth m => encode m
  | RStatfs m => encode m
  | RLopen m => encode m
  | RLcreate m => encode m
  | RSymlink m => encode m
  | RMknod m => encode m
  | RRename => enc_ok
  | RReadlink m => encode m
  | RGetAttr m => encode m
  | RSetAttr => enc_ok
  | RXattrWalk m => encode m
  | RXattrCreate => enc_ok
  | RReaddir m => encode m
  | RFsync => enc_ok
  | RLock m => encode m
  | RGetLock m => encode m
  | RLink => enc_ok
  | RMkdir m => encode m
  | RRenameAt => enc_ok
  | RUnlinkAt => enc_ok
  | RLerror m => encode m
  end.

(** The match on the type byte of [Rframe::decode]. *)
Definition Rframe_decode_message (ty : Z) : reader Rmessage :=
  if ty =? RVERSION then RVersion <$> decode
  else if ty =? RFLUSH then mret RFlush
  else if ty =? RWALK then RWalk <$> decode
  else if ty =? RREAD then RRead <$> decode
  else if ty =? RWRITE then RWrite <$> decode
  else if ty =? RCLUNK then mret RClunk
  else if ty =? RREMOVE then mret RRemove
  else if ty =? RATTACH then RAttach <$> decode
  else if ty =? RAUTH then RAuth <$> decode
  else if ty =? RSTATFS then RStatfs <$> decode
  else if ty =? RLOPEN then RLopen <$> decode
  else if ty =? RLCREATE then RLcreate <$> decode
  else if ty =? RSYMLINK then RSymlink <$> decode
  else if ty =? RMKNOD then RMknod <$> decode
  else if ty =? RRENAME then mret RRename
  else if ty =? RREADLINK then RReadlink <$> decode
  else if ty =? RGETATTR then RGetAttr <$> decode
  else if ty =? RSETATTR then mret RSetAttr
  else if ty =? RXATTRWALK then RXattrWalk <$> decode
  else if ty =? RXATTRCREATE then mret RXattrCreate
  else if ty =? RREADDIR then RReaddir <$> decode
  else if ty =? RFSYNC then mret RFsync
  else if ty =? RLOCK then RLock <$> decode
  else if ty =? RGETLOCK then RGetLock <$> decode
  else if ty =? RLINK then mret RLink
  else if ty =? RMKDIR then RMkdir <$> decode
  else if ty =? RRENAMEAT then mret RRenameAt
  else if ty =? RUNLINKAT then mret RUnlinkAt
  else if ty =? RLERROR then RLerror <$> decode
  else rfail (KindError InvalidData).

Definition Rframe_byte_size (f : Rframe) : u32 :=
  uadd (U32 FRAME_HEADER) (Rmessage_byte_size (Rframe_msg f)).

Definition Rframe_encode (f : Rframe) : enc :=
  encode (Rframe_byte_size f) ;;?
  encode (U8 (Rmessage_type (Rframe_msg f))) ;;?
  encode (Rframe_tag f) ;;?
  Rmessage_encode (Rframe_msg f).

Definition Rframe_decode_body : reader Rframe :=
  ty ← read_exact 1;
  tag ← (decode : reader u16);
  msg ← Rframe_decode_message (le_combine ty);
  mret (MkRframe tag msg).

(** [byte_size - 4] is not guarded here: it wraps below 4 when overflow checks
    are off. *)
Definition Rframe_decode : reader Rframe :=
  size ← (decode : reader u32);
  with_take (uval (usub size (U32 4))) Rframe_decode_body.

#[global] Instance WireFormat_Rframe : WireFormat Rframe :=
  {| byte_size := Rframe_byte_size; encode := Rframe_encode; decode := Rframe_decode |}.

(** ** Reference serialisation of the messages *)

Definition Tmessage_wire (m : Tmessage) : list u8 :=
  match m with
  | TVersion m => wire m
  | TFlush m => wire m
  | TWalk m => wire m
  | TRead m => wire m
  | TWrite m => wire m
  | TClunk m => wire m
  | TRemove m => wire m
  | TAttach m => wire m
  | TAuth m => wire m
  | TStatfs m => wire m
  | TLopen m => wire m
  | TLcreate m => wire m
  | TSymlink m => wire m
  | TMknod m => wire m
  | TRename m => wire m
  | TReadlink m => wire m
  | TGetAttr m => wire m
  | TSetAttr m => wire m
  | TXattrWalk m => wire m
  | TXattrCreate m => wire m
  | TReaddir m => wire m
  | TFsync m => wire m
  | TLock m => wire m
  | TGetLock m => wire m
  | TLink m => wire m
  | TMkdir m => wire m
  | TRenameAt m => wire m
  | TUnlinkAt m => wire m
  end.

Definition Tmessage_encodable (m : Tmessage) : bool :=
  match m with
  | TVersion m => encodable m
  | TFlush m => encodable m
  | TWalk m => encodable m
  | TRead m => encodable m
  | TWrite m => encodable m
  | TClunk m => encodable m
  | TRemove m => encodable m
  | TAttach m => encodable m
  | TAuth m => encodable m
  | TStatfs m => encodable m
  | TLopen m => encodable m
  | TLcreate m => encodable m
  | TSymlink m => encodable m
  | TMknod m => encodable m
  | TRename m => encodable m
  | TReadlink m => encodable m
  | TGetAttr m => encodable m
  | TSetAttr m => encodable m
  | TXattrWalk m => encodable m
  | TXattrCreate m => encodable m
  | TReaddir m => encodable m
  | TFsync m => encodable m
  | TLock m => encodable m
  | TGetLock m => encodable m
  | TLink m => encodable m
  | TMkdir m => encodable m
  | TRenameAt m => encodable m
  | TUnlinkAt m => encodable m
  end.

Definition Tmessage_decodable (m : Tmessage) : bool :=
  match m with
  | TVersion m => decodable m
  | TFlush m => decodable m
  | TWalk m => decodable m
  | TRead m => decodable m
  | TWrite m => decodable m
  | TClunk m => decodable m
  | TRemove m => decodable m
  | TAttach m => decodable m
  | TAuth m => decodable m
  | TStatfs m => decodable m
  | TLopen m => decodable m
  | TLcreate m => decodable m
  | TSymlink m => decodable m
  | TMknod m => decodable m
  | TRename m => decodable m
  | TReadlink m => decodable m
  | TGetAttr m => decodable m
  | TSetAttr m => decodable m
  | TXattrWalk m => decodable m
  | TXattrCreate m => decodable m
  | TReaddir m => decodable m
  | TFsync m => decodable m
  | TLock m => decodable m
  | TGetLock m => decodable m
  | TLink m => decodable m
  | TMkdir m => decodable m
  | TRenameAt m => decodable m
  | TUnlinkAt m => decodable m
  end.

Definition Rmessage_wire (m : Rmessage) : list u8 :=
  match m with
  | RVersion m => wire m
  | RFlush => []
  | RWalk m => wire m
  | RRead m => wire m
  | RWrite m => wire m
  | RClunk => []
  | RRemove => []
  | RAttach m => wire m
  | RAuth m => wire m
  | RStatfs m => wire m
  | RLopen m => wire m
  | RLcreate m => wire m
  | RSymlink m => wire m
  | RMknod m => wire m
  | RRename => []
  | RReadlink m => wire m
  | RGetAttr m => wire m
  | RSetAttr => []
  | RXattrWalk m => wire m
  | RXattrCreate => []
  | RReaddir m => wire m
  | RFsync => []
  | RLock m => wire m
  | RGetLock m => wire m
  | RLink => []
  | RMkdir m => wire m
  | RRenameAt => []
  | RUnlinkAt => []
  | RLerror m => wire m
  end.

Definition Rmessage_encodable (m : Rmessage) : bool :=
  match m with
  | RVersion m => encodable m
  | RFlush => true
  | RWalk m => encodable m
  | RRead m => encodable m
  | RWrite m => encodable m
  | RClunk => true
  | RRemove => true
  | RAttach m => encodable m
  | RAuth m => encodable m
  | RStatfs m => encodable m
  | RLopen m => encodable m
  | RLcreate m => encodable m
  | RSymlink m => encodable m
  | RMknod m => encodable m
  | RRename => true
  | RReadlink m => encodable m
  | RGetAttr m => encodable m
  | RSetAttr => true
  | RXattrWalk m => encodable m
  | RXattrCreate => true
  | RReaddir m => encodable m
  | RFsync => true
  | RLock m => encodable m
  | RGetLock m => encodable m
  | RLink => true
  | RMkdir m => encodable m
  | RRenameAt => true
  | RUnlinkAt => true
  | RLerror m => encodable m
  end.

Definition Rmessage_decodable (m : Rmessage) : bool :=
  match m with
  | RVersion m => decodable m
  | RFlush => true
  | RWalk m => decodable m
  | RRead m => decodable m
  | RWrite m => decodable m
  | RClunk => true
  | RRemove => true
  | RAttach m => decodable m
  | RAuth m => decodable m
  | RStatfs m => decodable m
  | RLopen m => decodable m
  | RLcreate m => decodable m
  | RSymlink m => decodable m
  | RMknod m => decodable m
  | RRename => true
  | RReadlink m => decodable m
  | RGetAttr m => decodable m
  | RSetAttr => true
  | RXattrWalk m => decodable m
  | RXattrCreate => true
  | RReaddir m => decodable m
  | RFsync => true
  | RLock m => decodable m
  | RGetLock m => decodable m
  | RLink => true
  | RMkdir m => decodable m
  | RRenameAt => true
  | RUnlinkAt => true
  | RLerror m => decodable m
  end.
