(* ===== verification/FrameFacts.v ===== *)
(** * Properties of the frames

    Serialisation of the requests and replies of [Messages]: encoding against
    the reference bytes, round trips, framing and the error paths of the
    decoders. *)

From S2P Require Import Prelude StdIo WireFormat Derive MessageTypes Messages.

#[local] Arguments byte_size : simpl never.
#[local] Arguments encode : simpl never.
#[local] Arguments decode : simpl never.
#[local] Arguments wire : simpl never.
#[local] Arguments encodable : simpl never.
#[local] Arguments decodable : simpl never.

(** ** Message bodies *)

Lemma Tmessage_byte_size_wire m : Tmessage_byte_size m = U32 (lengthZ (Tmessage_wire m)).
Proof. destruct m; apply byte_size_wire. Qed.

Lemma Tmessage_encode_wire m :
  Tmessage_encodable m = true → Tmessage_encode m = (Tmessage_wire m, Ok ()).
Proof. destruct m; apply encode_wire. Qed.

Lemma Tmessage_encode_refused m :
  Tmessage_encodable m = false → (Tmessage_encode m).2 = Err (KindError InvalidInput).
Proof. destruct m; apply encode_refused. Qed.

Lemma Tmessage_decodable_encodable m :
  Tmessage_decodable m = true → Tmessage_encodable m = true.
Proof. destruct m; apply decodable_encodable. Qed.

Lemma Tmessage_type_range m : 0 <= Tmessage_type m < 256.
Proof. destruct m; vm_compute; done. Qed.

Lemma Tframe_decode_message_wire m rest :
  Tmessage_decodable m = true →
  Tframe_decode_message (Tmessage_type m) (Tmessage_wire m ++ rest) = (Ok m, rest).
Proof.
  destruct m; cbn; intros Hm; by apply fmap_ok, decode_wire.
Qed.

Lemma consumes_Tframe_decode_message ty : consumes (Tframe_decode_message ty).
Proof.
  unfold Tframe_decode_message.
  repeat (case_match; [apply consumes_fmap, decode_consumes|]). apply consumes_fail.
Qed.

Lemma Rmessage_byte_size_wire m : Rmessage_byte_size m = U32 (lengthZ (Rmessage_wire m)).
Proof. destruct m; first [apply byte_size_wire|done]. Qed.

Lemma Rmessage_encode_wire m :
  Rmessage_encodable m = true → Rmessage_encode m = (Rmessage_wire m, Ok ()).
Proof. destruct m; first [apply encode_wire|done]. Qed.

Lemma Rmessage_encode_refused m :
  Rmessage_encodable m = false → (Rmessage_encode m).2 = Err (KindError InvalidInput).
Proof. destruct m; first [apply encode_refused|done]. Qed.

Lemma Rmessage_decodable_encodable m :
  Rmessage_decodable m = true → Rmessage_encodable m = true.
Proof. destruct m; first [apply decodable_encodable|done]. Qed.

Lemma Rmessage_type_range m : 0 <= Rmessage_type m < 256.
Proof. destruct m; vm_compute; done. Qed.

Lemma Rframe_decode_message_wire m rest :
  Rmessage_decodable m = true →
  Rframe_decode_message (Rmessage_type m) (Rmessage_wire m ++ rest) = (Ok m, rest).
Proof.
  destruct m; cbn; intros Hm; first [by apply fmap_ok, decode_wire|done].
Qed.

Lemma consumes_Rframe_decode_message ty : consumes (Rframe_decode_message ty).
Proof.
  unfold Rframe_decode_message.
  repeat (case_match;
    [first [apply consumes_fmap, decode_consumes|apply consumes_ret]|]).
  apply consumes_fail.
Qed.

#[export] Hint Resolve consumes_Tframe_decode_message consumes_Rframe_decode_message : wire.

(** ** Frames *)

(** The bytes of a frame: size, type, tag and body. *)
Definition frame_wire (ty : Z) (tag : u16) (body : list u8) : list u8 :=
  wire (U32 (FRAME_HEADER + lengthZ body)) ++ [U8 ty] ++ wire tag ++ body.

Definition frame_fits (body : list u8) : Prop := FRAME_HEADER + lengthZ body < 2 ^ 32.

Definition Tframe_wire (tag : u16) (m : Tmessage) : list u8 :=
  frame_wire (Tmessage_type m) tag (Tmessage_wire m).

Definition Rframe_wire (f : Rframe) : list u8 :=
  frame_wire (Rmessage_type (Rframe_msg f)) (Rframe_tag f) (Rmessage_wire (Rframe_msg f)).

Lemma lengthZ_frame_wire ty tag body :
  lengthZ (frame_wire ty tag body) = FRAME_HEADER + lengthZ body.
Proof.
  unfold frame_wire, FRAME_HEADER.
  rewrite !lengthZ_app, lengthZ_wire_u16, lengthZ_wire_u32, lengthZ_cons, lengthZ_nil. lia.
Qed.

Lemma uadd_frame_header x : uadd (U32 FRAME_HEADER) (U32 x) = U32 (FRAME_HEADER + x).
Proof. unfold uadd. by rewrite to_uint_add_l, to_uint_add_r. Qed.

Lemma encode_u8_wire (b : u8) : encode b = ([b], Ok ()).
Proof.
  rewrite encode_wire by done. f_equal. unfold wire. cbn. f_equal. apply to_uint_uval.
Qed.

Lemma Tframe_encode_wire tag m :
  Tmessage_encodable m = true →
  Tframe_encode (MkTframe tag (Ok m)) = (Tframe_wire tag m, Ok ()).
Proof.
  intros Hm. unfold Tframe_encode, Tframe_wire, frame_wire. cbn [Tframe_msg Tframe_tag].
  by rewrite Tmessage_byte_size_wire, uadd_frame_header, encode_u8_wire, !encode_wire,
    Tmessage_encode_wire.
Qed.

Lemma Rframe_encode_wire f :
  Rmessage_encodable (Rframe_msg f) = true → Rframe_encode f = (Rframe_wire f, Ok ()).
Proof.
  intros Hm. unfold Rframe_encode, Rframe_byte_size, Rframe_wire, frame_wire.
  by rewrite Rmessage_byte_size_wire, uadd_frame_header, encode_u8_wire, !encode_wire,
    Rmessage_encode_wire.
Qed.

Lemma le_combine_byte ty : 0 <= ty < 256 → le_combine [U8 ty] = ty.
Proof.
  intros. cbn. rewrite uval_to_uint_small; [lia|]. done.
Qed.

Lemma Tframe_decode_body_wire tag m rest :
  Tmessage_decodable m = true →
  Tframe_decode_body ([U8 (Tmessage_type m)] ++ wire tag ++ Tmessage_wire m ++ rest)
  = (Ok (MkTframe tag (Ok m)), rest).
Proof.
  intros Hm. unfold Tframe_decode_body.
  erewrite bind_ok by by apply (read_exact_app [_]).
  erewrite bind_ok by apply decode_u16.
  rewrite le_combine_byte by apply Tmessage_type_range.
  unfold attempt, mbind, reader_bind. by rewrite Tframe_decode_message_wire.
Qed.

Lemma Rframe_decode_body_wire tag m rest :
  Rmessage_decodable m = true →
  Rframe_decode_body ([U8 (Rmessage_type m)] ++ wire tag ++ Rmessage_wire m ++ rest)
  = (Ok (MkRframe tag m), rest).
Proof.
  intros Hm. unfold Rframe_decode_body.
  erewrite bind_ok by by apply (read_exact_app [_]).
  erewrite bind_ok by apply decode_u16.
  rewrite le_combine_byte by apply Rmessage_type_range.
  by erewrite bind_ok by by apply Rframe_decode_message_wire.
Qed.

Lemma frame_size_small body :
  frame_fits body → uval (U32 (FRAME_HEADER + lengthZ body)) = FRAME_HEADER + lengthZ body.
Proof.
  unfold frame_fits, FRAME_HEADER. intros. pose proof (lengthZ_nonneg body).
  apply uval_to_uint_small. cbn. lia.
Qed.

Lemma frame_rest_length ty (tag : u16) body :
  FRAME_HEADER + lengthZ body - 4 = lengthZ ([U8 ty] ++ wire tag ++ body).
Proof.
  rewrite !lengthZ_app, lengthZ_wire_u16, lengthZ_cons, lengthZ_nil. unfold FRAME_HEADER. lia.
Qed.

Lemma Tframe_decode_wire tag m rest :
  Tmessage_decodable m = true → frame_fits (Tmessage_wire m) →
  Tframe_decode (Tframe_wire tag m ++ rest) = (Ok (MkTframe tag (Ok m)), rest).
Proof.
  intros Hm Hfits. unfold Tframe_decode, Tframe_wire, frame_wire. rewrite <- app_assoc.
  erewrite bind_ok by apply decode_u32. rewrite frame_size_small by done.
  pose proof (lengthZ_nonneg (Tmessage_wire m)).
  destruct (Z.ltb_spec (FRAME_HEADER + lengthZ (Tmessage_wire m)) 4);
    [unfold FRAME_HEADER in *; lia|].
  apply with_take_exact; [apply frame_rest_length|].
  rewrite <- (app_nil_r (Tmessage_wire m)). by apply Tframe_decode_body_wire.
Qed.

Lemma Rframe_decode_wire f rest :
  Rmessage_decodable (Rframe_msg f) = true → frame_fits (Rmessage_wire (Rframe_msg f)) →
  Rframe_decode (Rframe_wire f ++ rest) = (Ok f, rest).
Proof.
  intros Hm Hfits. unfold Rframe_decode, Rframe_wire, frame_wire. rewrite <- app_assoc.
  erewrite bind_ok by apply decode_u32.
  pose proof (lengthZ_nonneg (Rmessage_wire (Rframe_msg f))).
  rewrite usub_small, frame_size_small; [|done|].
  - apply with_take_exact; [apply frame_rest_length|].
    rewrite <- (app_nil_r (Rmessage_wire _)).
    rewrite Rframe_decode_body_wire by done. by destruct f.
  - rewrite frame_size_small by done. unfold FRAME_HEADER. change (uval (U32 4)) with 4. lia.
Qed.

Lemma consumes_Tframe_decode_body : consumes Tframe_decode_body.
Proof. unfold Tframe_decode_body. solve_consumes. Qed.

Lemma consumes_Tframe_decode : consumes Tframe_decode.
Proof.
  unfold Tframe_decode. apply consumes_bind; [apply decode_consumes|]. intros size.
  case_match; [apply consumes_fail|]. apply consumes_with_take, consumes_Tframe_decode_body.
Qed.

Lemma consumes_Rframe_decode : consumes Rframe_decode.
Proof.
  unfold Rframe_decode, Rframe_decode_body. solve_consumes.
Qed.

(** A frame that decodes has consumed at least its size field. *)
Lemma Tframe_decode_progress s f rest :
  Tframe_decode s = (Ok f, rest) → lengthZ rest + 4 <= lengthZ s.
Proof.
  unfold Tframe_decode. intros (size & t & H1 & H2)%bind_ok_inv.
  apply uint_decode_exact in H1 as ->; [|done]. case_match; [done|].
  pose proof (consumes_length _ t (consumes_with_take (uval size - 4) _
    consumes_Tframe_decode_body)) as Hlen.
  rewrite H2 in Hlen. cbn [snd] in Hlen.
  rewrite lengthZ_app, lengthZ_le_split. lia.
Qed.

(** The decoder with the size field of the frame already read. *)
Lemma Tframe_decode_sized (size : u32) t :
  Tframe_decode (wire size ++ t) =
  if uval size <? 4 then (Err (KindError InvalidData), t)
  else with_take (uval size - 4) Tframe_decode_body t.
Proof.
  unfold Tframe_decode. erewrite bind_ok by apply decode_u32. by case_match.
Qed.

Lemma with_take_app {A} (m : reader A) (body rest : list u8) n :
  n = lengthZ body →
  with_take n m (body ++ rest) = ((m body).1, (m body).2 ++ rest).
Proof.
  intros ->. unfold with_take. rewrite takeZ_app_exact, dropZ_app_exact.
  by destruct (m body).
Qed.

Lemma decode_message_type ty s m rest :
  Tframe_decode_message ty s = (Ok m, rest) → Tmessage_type m = ty.
Proof.
  unfold Tframe_decode_message, fmap, reader_fmap.
  repeat (case_match eqn:E; [apply Z.eqb_eq in E as ->; intros H; by split_matches|clear E]).
  done.
Qed.

(** One value of each request, to enumerate the types of the protocol. *)
Definition known_type (ty : Z) : bool :=
  bool_decide (ty ∈ [TVERSION; TFLUSH; TWALK; TREAD; TWRITE; TCLUNK; TREMOVE; TATTACH; TAUTH;
    TSTATFS; TLOPEN; TLCREATE; TSYMLINK; TMKNOD; TRENAME; TREADLINK; TGETATTR; TSETATTR;
    TXATTRWALK; TXATTRCREATE; TREADDIR; TFSYNC; TLOCK; TGETLOCK; TLINK; TMKDIR; TRENAMEAT;
    TUNLINKAT]).

Lemma decode_message_unknown ty s :
  known_type ty = false → Tframe_decode_message ty s = (Err (KindError InvalidData), s).
Proof.
  unfold known_type. intros H%bool_decide_eq_false. rewrite !elem_of_cons in H.
  unfold Tframe_decode_message.
  repeat (case_match eqn:E; [apply Z.eqb_eq in E; exfalso; apply H; tauto|clear E]).
  done.
Qed.

(** ** The properties *)

(** C10. Round trip of the requests: a request the decoder accepts and whose
    frame is below 4 GiB is encoded without error, [byte_size] is the number of
    bytes written, and decoding these bytes, whatever follows them, gives the
    frame back and stops exactly at its end. *)
Theorem tframe_roundtrip (tag : u16) (m : Tmessage) (rest : list u8) :
  Tmessage_decodable m = true → frame_fits (Tmessage_wire m) →
  ∃ bs size,
    Tframe_encode (MkTframe tag (Ok m)) = (bs, Ok ()) ∧
    Tframe_byte_size (MkTframe tag (Ok m)) = Some size ∧
    uval size = lengthZ bs ∧
    Tframe_decode (bs ++ rest) = (Ok (MkTframe tag (Ok m)), rest).
Proof.
  intros Hm Hfits. exists (Tframe_wire tag m), (U32 (FRAME_HEADER + lengthZ (Tmessage_wire m))).
  repeat split.
  - by apply Tframe_encode_wire, Tmessage_decodable_encodable.
  - cbn. by rewrite Tmessage_byte_size_wire, uadd_frame_header.
  - unfold Tframe_wire. by rewrite lengthZ_frame_wire, frame_size_small.
  - by apply Tframe_decode_wire.
Qed.

Definition example_walk : Tmessage :=
  TWalk (MkTwalk (U32 1) (U32 2) [str_lit "usr"; str_lit "bin"]).

Lemma tframe_roundtrip_witness :
  Tmessage_decodable example_walk = true ∧
  ∃ bs size,
    Tframe_encode (MkTframe (U16 7) (Ok example_walk)) = (bs, Ok ()) ∧
    Tframe_byte_size (MkTframe (U16 7) (Ok example_walk)) = Some size ∧
    uval size = lengthZ bs ∧
    Tframe_decode (bs ++ [U8 255]) = (Ok (MkTframe (U16 7) (Ok example_walk)), [U8 255]).
Proof.
  split; [reflexivity|]. apply (tframe_roundtrip (U16 7) example_walk [U8 255]).
  - reflexivity.
  - vm_compute. reflexivity.
Defined.

(** Round trip of the replies: a reply the decoder accepts and whose frame
    is below 4 GiB is encoded without error, [byte_size] is the number of bytes
    written, and decoding these bytes, whatever follows them, gives the reply
    back and stops exactly at its end. *)
Theorem rframe_roundtrip (f : Rframe) (rest : list u8) :
  Rmessage_decodable (Rframe_msg f) = true → frame_fits (Rmessage_wire (Rframe_msg f)) →
  ∃ bs,
    Rframe_encode f = (bs, Ok ()) ∧
    uval (Rframe_byte_size f) = lengthZ bs ∧
    Rframe_decode (bs ++ rest) = (Ok f, rest).
Proof.
  intros Hm Hfits. exists (Rframe_wire f). repeat split.
  - by apply Rframe_encode_wire, Rmessage_decodable_encodable.
  - unfold Rframe_byte_size, Rframe_wire.
    by rewrite Rmessage_byte_size_wire, uadd_frame_header, lengthZ_frame_wire, frame_size_small.
  - by apply Rframe_decode_wire.
Qed.

Definition example_rwalk : Rframe :=
  MkRframe (U16 7) (RWalk (MkRwalk [MkQid (U8 128) (U32 5) (U64 1234567)])).

Lemma rframe_roundtrip_witness :
  Rmessage_decodable (Rframe_msg example_rwalk) = true ∧
  ∃ bs,
    Rframe_encode example_rwalk = (bs, Ok ()) ∧
    uval (Rframe_byte_size example_rwalk) = lengthZ bs ∧
    Rframe_decode (bs ++ []) = (Ok example_rwalk, []).
Proof.
  split; [reflexivity|]. apply (rframe_roundtrip example_rwalk []).
  - reflexivity.
  - vm_compute. reflexivity.
Defined.

(** When encoding a request succeeds: exactly when the frame carries a
    message and every string and vector of it fits its 16-bit count (and every
    data field its 32-bit count).  On success the bytes are the reference
    serialisation. *)
Theorem tframe_encode_succeeds (f : Tframe) :
  (Tframe_encode f).2 = Ok () ↔
  ∃ m, Tframe_msg f = Ok m ∧ Tmessage_encodable m = true ∧
       (Tframe_encode f).1 = Tframe_wire (Tframe_tag f) m.
Proof.
  destruct f as [tag [m|e]]; cbn [Tframe_msg Tframe_tag].
  - destruct (Tmessage_encodable m) eqn:Hm.
    + rewrite Tframe_encode_wire by done. split; [|done]. eauto.
    + split; [|intros (? & [= <-] & ? & _); congruence].
      unfold Tframe_encode. cbn [Tframe_msg Tframe_tag].
      rewrite encode_u8_wire, !encode_wire by done.
      apply Tmessage_encode_refused in Hm.
      destruct (Tmessage_encode m) as [bs r]; cbn in *. by rewrite Hm.
  - split; [done|]. by intros (? & ? & _).
Qed.

(** Framing: what [Tframe::decode] returns depends only on the bytes the
    size field announces, and whatever it leaves of them is followed by the
    untouched rest of the stream. *)
Theorem tframe_decode_isolated (size : u32) (body : list u8) :
  lengthZ body = uval size - 4 →
  ∃ r left, (∃ used, body = used ++ left) ∧
    ∀ rest, Tframe_decode (wire size ++ body ++ rest) = (r, left ++ rest).
Proof.
  intros Hbody. pose proof (lengthZ_nonneg body).
  exists (Tframe_decode_body body).1, (Tframe_decode_body body).2. split.
  - apply consumes_Tframe_decode_body.
  - intros rest. rewrite Tframe_decode_sized.
    destruct (Z.ltb_spec (uval size) 4); [lia|]. by apply with_take_app.
Qed.

Lemma tframe_decode_isolated_witness :
  ∃ r left, (∃ used, [U8 TCLUNK; U8 1; U8 0; U8 9; U8 0; U8 0; U8 0; U8 77] = used ++ left) ∧
    ∀ rest, Tframe_decode (wire (U32 12) ++
      [U8 TCLUNK; U8 1; U8 0; U8 9; U8 0; U8 0; U8 0; U8 77] ++ rest) = (r, left ++ rest).
Proof. apply tframe_decode_isolated. reflexivity. Defined.

(** The decoder of a body only produces messages of the type it was given:
    the type byte of the frame and the constructor agree. *)
Theorem tframe_decode_type_agrees s tag m rest :
  Tframe_decode s = (Ok (MkTframe tag (Ok m)), rest) →
  ∃ (size : u32) (ty : u8) t, s = wire size ++ ty :: t ∧ uval ty = Tmessage_type m.
Proof.
  unfold Tframe_decode. intros (size & t & H1 & H2)%bind_ok_inv.
  apply uint_decode_exact in H1 as ->; [|done]. case_match; [done|].
  unfold with_take in H2. destruct (Tframe_decode_body _) as [r s'] eqn:Hb. simplify_eq.
  unfold Tframe_decode_body in Hb. apply bind_ok_inv in Hb as (ty & t1 & H3 & H4).
  apply read_exact_inv in H3 as [H3 Hlen]; [|done].
  apply bind_ok_inv in H4 as (tag' & t2 & _ & H5). unfold attempt, mbind, reader_bind in H5.
  destruct (Tframe_decode_message _ _) as [msg t3] eqn:Hd. injection H5 as -> -> ->.
  apply decode_message_type in Hd.
  destruct ty as [|b [|? ?]]; [by rewrite lengthZ_nil in Hlen| |
    rewrite !lengthZ_cons in Hlen; pose proof (lengthZ_nonneg l); lia].
  exists size, b, (t1 ++ dropZ (uval size - 4) t). split.
  - f_equal. rewrite <- (takeZ_dropZ (uval size - 4) t) at 1. rewrite H3. done.
  - rewrite Hd. cbn. lia.
Qed.

Lemma tframe_decode_type_agrees_witness :
  ∃ (size : u32) (ty : u8) t,
    (wire (U32 11) ++ [U8 TCLUNK; U8 1; U8 0; U8 9; U8 0; U8 0; U8 0]) = wire size ++ ty :: t ∧
    uval ty = Tmessage_type (TClunk (MkTclunk (U32 9))).
Proof.
  apply (tframe_decode_type_agrees _ (U16 1) (TClunk (MkTclunk (U32 9))) []).
  vm_compute. reflexivity.
Defined.

(** A frame with a type byte the protocol does not know is not an error of
    the stream: the frame is returned with an [InvalidData] message under its
    tag, so that the server can answer it.  Its body is left in the stream: the
    next decoding starts at the first byte of the body. *)
Theorem tframe_unknown_type_keeps_body (ty : Z) (tag : u16) (body rest : list u8) :
  0 <= ty < 256 → known_type ty = false → frame_fits body →
  Tframe_decode (frame_wire ty tag body ++ rest)
  = (Ok (MkTframe tag (Err (KindError InvalidData))), body ++ rest).
Proof.
  intros Hty Hk Hfits. unfold frame_wire. rewrite <- app_assoc, Tframe_decode_sized.
  rewrite frame_size_small by done. pose proof (lengthZ_nonneg body).
  destruct (Z.ltb_spec (FRAME_HEADER + lengthZ body) 4); [unfold FRAME_HEADER in *; lia|].
  rewrite with_take_app by apply frame_rest_length.
  assert (Tframe_decode_body ([U8 ty] ++ wire tag ++ body)
    = (Ok (MkTframe tag (Err (KindError InvalidData))), body)) as ->; [|done].
  unfold Tframe_decode_body. erewrite bind_ok by by apply (read_exact_app [_]).
  erewrite bind_ok by apply decode_u16. rewrite le_combine_byte by done.
  unfold attempt, mbind, reader_bind. by rewrite decode_message_unknown.
Qed.

Lemma tframe_unknown_type_keeps_body_witness :
  Tframe_decode (frame_wire 66 (U16 3) (Tframe_wire (U16 4) (TClunk (MkTclunk (U32 9)))) ++ [])
  = (Ok (MkTframe (U16 3) (Err (KindError InvalidData))),
     Tframe_wire (U16 4) (TClunk (MkTclunk (U32 9))) ++ []).
Proof.
  apply tframe_unknown_type_keeps_body; [done|vm_compute; reflexivity|vm_compute; reflexivity].
Defined.

(** The size guard: [Tframe::decode] refuses a size field below 4 with
    [InvalidData].  [Rframe::decode] has no such guard, and with overflow checks
    off the limit of its [take] wraps to almost 4 GiB: a reply that announces
    fewer than 4 bytes is accepted. *)
Theorem undersized_frames (size : u32) (tag : u16) (rest : list u8) :
  uval size < 4 →
  Tframe_decode (wire size ++ [U8 TCLUNK] ++ wire tag ++ rest)
  = (Err (KindError InvalidData), [U8 TCLUNK] ++ wire tag ++ rest) ∧
  (lengthZ rest < 2 ^ 31 →
   Rframe_decode (wire size ++ [U8 RCLUNK] ++ wire tag ++ rest)
   = (Ok (MkRframe tag RClunk), rest)).
Proof.
  intros Hsize. pose proof (uint_range size). split.
  - rewrite Tframe_decode_sized. by destruct (Z.ltb_spec (uval size) 4); [|lia].
  - intros Hrest. unfold Rframe_decode. erewrite bind_ok by apply decode_u32.
    set (s := [U8 RCLUNK] ++ wire tag ++ rest).
    assert (uval (usub size (U32 4)) = uval size - 4 + 2 ^ 32) as ->.
    { unfold usub. rewrite uval_to_uint. change (uval (U32 4)) with 4.
      change (Z.of_N 32) with 32 in *.
      rewrite <- (Z.mod_small (uval size - 4 + 2 ^ 32) (2 ^ 32)) by lia.
      rewrite <- Zplus_mod_idemp_r, Z.mod_same, Z.add_0_r; lia. }
    assert (lengthZ s = 3 + lengthZ rest) as Hs.
    { unfold s. rewrite !lengthZ_app, lengthZ_wire_u16, lengthZ_cons, lengthZ_nil. lia. }
    rewrite <- (app_nil_r s). unfold with_take.
    rewrite (takeZ_all _ (s ++ [])), (dropZ_all _ (s ++ []))
      by (rewrite app_nil_r, Hs; lia).
    rewrite !app_nil_r. unfold s.
    pose proof (Rframe_decode_body_wire tag RClunk rest eq_refl) as Hb. cbn [Rmessage_wire app] in Hb.
    change (Rmessage_type RClunk) with RCLUNK in Hb. cbn [app]. rewrite Hb. by rewrite app_nil_r.
Qed.

Lemma undersized_frames_witness :
  uval (U32 0) < 4 ∧
  (lengthZ [U8 9] < 2 ^ 31 →
   Rframe_decode (wire (U32 0) ++ [U8 RCLUNK] ++ wire (U16 5) ++ [U8 9])
   = (Ok (MkRframe (U16 5) RClunk), [U8 9])).
Proof.
  split; [reflexivity|]. apply (undersized_frames (U32 0) (U16 5) [U8 9]). reflexivity.
Defined.
