(* ===== verification/Os.v ===== *)
(** * The operating system as the program sees it

    The server works on files through the C library.  Neither the C library nor
    the kernel is part of the repository: the constants ([Libc]) and the system
    calls ([Kernel]) are parameters of the model, and what the theorems rely on
    is stated as the laws [KernelFds] of the table of open file descriptors. *)

From S2P Require Import Prelude StdIo.

(** ** Constants of the C library *)

Class Libc := {
  ENOENT : Z; EPERM : Z; ECONNREFUSED : Z; ECONNRESET : Z; ECONNABORTED : Z;
  ENOTCONN : Z; EADDRINUSE : Z; EADDRNOTAVAIL : Z; EPIPE : Z; EEXIST : Z;
  EWOULDBLOCK : Z; EINVAL : Z; ETIMEDOUT : Z; EIO : Z; EINTR : Z;
  EBADF : Z; EOPNOTSUPP : Z; EACCES : Z; EISDIR : Z; ENOTDIR : Z;
  O_RDONLY : Z; O_WRONLY : Z; O_RDWR : Z; O_CREAT : Z; O_EXCL : Z; O_NOCTTY : Z;
  O_TRUNC : Z; O_APPEND : Z; O_NONBLOCK : Z; O_DSYNC : Z; O_DIRECT : Z;
  O_LARGEFILE : Z; O_DIRECTORY : Z; O_NOFOLLOW : Z; O_NOATIME : Z; O_SYNC : Z;
  O_CLOEXEC : Z; O_PATH : Z;
  S_IFMT : Z; S_IFREG : Z; S_IFDIR : Z; S_IFLNK : Z;
  AT_FDCWD : Z; AT_EMPTY_PATH : Z; AT_SYMLINK_NOFOLLOW : Z; AT_SYMLINK_FOLLOW : Z;
  SEEK_SET : Z; UTIME_OMIT : Z; UTIME_NOW : Z; PATH_MAX : Z
}.

(** [libc::stat64] and [libc::statfs64]; signed 64-bit fields are [Z]. *)
Record stat64 := MkStat64 {
  st_mode : u32; st_ino : u64; st_uid : u32; st_gid : u32; st_nlink : u64; st_rdev : u64;
  st_size : Z; st_blksize : Z; st_blocks : Z;
  st_atime : Z; st_atime_nsec : Z; st_mtime : Z; st_mtime_nsec : Z;
  st_ctime : Z; st_ctime_nsec : Z
}.

Record statfs64 := MkStatfs64 {
  f_type : Z; f_bsize : Z; f_blocks : u64; f_bfree : u64; f_bavail : u64;
  f_files : u64; f_ffree : u64; f_fsid : u64; f_namelen : Z
}.

Record timespec := MkTimespec { tv_sec : Z; tv_nsec : Z }.

(** ** System calls

    A call returns its value or the error number it leaves in [errno].  Paths
    are C strings without their final NUL. *)

Class Kernel := {
  kstate : Type;
  openat64 : Z → list u8 → Z → option u32 → kstate → (Z + Z) * kstate;
  fstatat64 : Z → list u8 → Z → kstate → (stat64 + Z) * kstate;
  fstat64 : Z → kstate → (stat64 + Z) * kstate;
  fstatfs64 : Z → kstate → (statfs64 + Z) * kstate;
  readlinkat : Z → list u8 → Z → kstate → (list u8 + Z) * kstate;
  fchmodat : Z → list u8 → u32 → Z → kstate → (() + Z) * kstate;
  fchownat : Z → list u8 → u32 → u32 → Z → kstate → (() + Z) * kstate;
  utimensat : Z → list u8 → timespec → timespec → Z → kstate → (() + Z) * kstate;
  linkat : Z → list u8 → Z → list u8 → Z → kstate → (() + Z) * kstate;
  mkdirat : Z → list u8 → u32 → kstate → (() + Z) * kstate;
  renameat : Z → list u8 → Z → list u8 → kstate → (() + Z) * kstate;
  unlinkat : Z → list u8 → Z → kstate → (() + Z) * kstate;
  getdents64 : Z → Z → kstate → (list u8 + Z) * kstate;
  lseek64 : Z → Z → Z → kstate → (Z + Z) * kstate;
  (* the calls behind std's [File]: [read_at], [write_at], [set_len],
     [sync_all], [sync_data], [try_clone] and its destructor *)
  pread64 : Z → Z → u64 → kstate → (list u8 + Z) * kstate;
  pwrite64 : Z → list u8 → u64 → kstate → (Z + Z) * kstate;
  ftruncate64 : Z → u64 → kstate → (() + Z) * kstate;
  fsync : Z → kstate → (() + Z) * kstate;
  fdatasync : Z → kstate → (() + Z) * kstate;
  dup_cloexec : Z → kstate → (Z + Z) * kstate;
  close : Z → kstate → kstate
}.

(** ** Computations with state, errors and panics

    [Fail e] is an [Err(e)] that is returned to the caller; [Panic] unwinds and
    is never caught by the code below; [OutOfFuel] marks a loop the model cut
    short. *)

Inductive res (A : Type) :=
| Done (a : A)
| Fail (e : io_error)
| Panic
| OutOfFuel.
Arguments Done {A} _.
Arguments Fail {A} _.
Arguments Panic {A}.
Arguments OutOfFuel {A}.

Definition st (S A : Type) : Type := S → res A * S.

#[global] Instance st_ret {S} : MRet (st S) := λ A a s, (Done a, s).
#[global] Instance st_bind {S} : MBind (st S) := λ A B f m s,
  match m s with
  | (Done a, s') => f a s'
  | (Fail e, s') => (Fail e, s')
  | (Panic, s') => (Panic, s')
  | (OutOfFuel, s') => (OutOfFuel, s')
  end.

Definition fail {S A} (e : io_error) : st S A := λ s, (Fail e, s).
Definition panic {S A} : st S A := λ s, (Panic, s).

(** A pure [Result] used with [?]. *)
Definition of_result {S A} (r : io_result A) : st S A :=
  match r with Ok a => mret a | Err e => fail e end.

(** The macro [syscall!] of [jetstream/src/lib.rs]. *)
Definition syscall {S A} (call : S → (A + Z) * S) : st S A := λ s,
  match call s with
  | (inl a, s') => (Done a, s')
  | (inr errno, s') => (Fail (OsError errno), s')
  end.

(** [r.map(f)] on the result of a call. *)
Definition st_map {S A B} (f : A → B) (m : st S A) : st S B := a ← m; mret (f a).

(** Run [h] on an error, [Result::or_else]. *)
Definition or_else {S A} (m : st S A) (h : io_error → st S A) : st S A := λ s,
  match m s with
  | (Fail e, s') => h e s'
  | r => r
  end.

(** The result of a call as a value, without [?]. *)
Definition try_call {S A} (m : st S A) : st S (io_result A) := λ s,
  match m s with
  | (Done a, s') => (Done (Ok a), s')
  | (Fail e, s') => (Done (Err e), s')
  | (Panic, s') => (Panic, s')
  | (OutOfFuel, s') => (OutOfFuel, s')
  end.

(** ** Files

    [std::fs::File] owns its descriptor: dropping the value closes it. *)

Record File : Set := MkFile { raw_fd : Z }.

Section files.
Context {K : Kernel}.

Abbreviation kio := (st kstate).

Definition drop_file (f : File) : kio () := λ k, (Done (), close (raw_fd f) k).

(** [f] is a local of a function that runs [m] and returns early on an error:
    the early return drops it. *)
Definition or_drop {A} (f : File) (m : kio A) : kio A := λ k,
  match m k with
  | (Fail e, k') => (Fail e, close (raw_fd f) k')
  | r => r
  end.

(** [f] is a local that is dropped whatever [m] returns. *)
Definition with_local {A} (f : File) (m : kio A) : kio A := λ k,
  match m k with
  | (Done a, k') => (Done a, close (raw_fd f) k')
  | (Fail e, k') => (Fail e, close (raw_fd f) k')
  | r => r
  end.

End files.
Abbreviation kio := (st kstate).

(** ** The table of open descriptors *)

(** What POSIX promises about descriptors: opening and duplicating return a
    descriptor that was not open, closing releases it, and no other call of the
    interface opens or closes one. *)
Class KernelFds (K : Kernel) := {
  open_fds : kstate → gset Z;
  openat64_fresh d p fl m k fd k' :
    openat64 d p fl m k = (inl fd, k') → (fd ∉ open_fds k) ∧ open_fds k' = {[fd]} ∪ open_fds k;
  openat64_fails d p fl m k e k' :
    openat64 d p fl m k = (inr e, k') → open_fds k' = open_fds k;
  dup_fresh d k fd k' :
    dup_cloexec d k = (inl fd, k') → (fd ∉ open_fds k) ∧ open_fds k' = {[fd]} ∪ open_fds k;
  dup_fails d k e k' : dup_cloexec d k = (inr e, k') → open_fds k' = open_fds k;
  close_fds d k : open_fds (close d k) = open_fds k ∖ {[d]};
  fstatat64_fds d p fl k : open_fds (fstatat64 d p fl k).2 = open_fds k;
  fstat64_fds d k : open_fds (fstat64 d k).2 = open_fds k;
  fstatfs64_fds d k : open_fds (fstatfs64 d k).2 = open_fds k;
  readlinkat_fds d p n k : open_fds (readlinkat d p n k).2 = open_fds k;
  fchmodat_fds d p m fl k : open_fds (fchmodat d p m fl k).2 = open_fds k;
  fchownat_fds d p u g fl k : open_fds (fchownat d p u g fl k).2 = open_fds k;
  utimensat_fds d p a m fl k : open_fds (utimensat d p a m fl k).2 = open_fds k;
  linkat_fds d p d' p' fl k : open_fds (linkat d p d' p' fl k).2 = open_fds k;
  mkdirat_fds d p m k : open_fds (mkdirat d p m k).2 = open_fds k;
  renameat_fds d p d' p' k : open_fds (renameat d p d' p' k).2 = open_fds k;
  unlinkat_fds d p fl k : open_fds (unlinkat d p fl k).2 = open_fds k;
  getdents64_fds d n k : open_fds (getdents64 d n k).2 = open_fds k;
  lseek64_fds d o w k : open_fds (lseek64 d o w k).2 = open_fds k;
  pread64_fds d n o k : open_fds (pread64 d n o k).2 = open_fds k;
  pwrite64_fds d bs o k : open_fds (pwrite64 d bs o k).2 = open_fds k;
  ftruncate64_fds d n k : open_fds (ftruncate64 d n k).2 = open_fds k;
  fsync_fds d k : open_fds (fsync d k).2 = open_fds k;
  fdatasync_fds d k : open_fds (fdatasync d k).2 = open_fds k
}.
