(* ===== verification/ReadDir.v ===== *)
(** * Reading directories: [jetstream/src/ufs/read_dir.rs]

    [ReadDir] walks over the records that [getdents64] leaves in a buffer of
    256 bytes and refills the buffer when it is exhausted. *)

From S2P Require Import Prelude StdIo Os.

(** [size_of::<LinuxDirent64>()] of the packed header: inode, offset, record
    length and type. *)
Definition DIRENT_HEADER : Z := 8 + 8 + 2 + 1.

Record LinuxDirent64 : Set := MkLinuxDirent64 {
  d_ino : u64; d_off : u64; d_reclen : u16; d_ty : u8
}.

(** [LinuxDirent64::from_slice]. *)
Definition from_slice (data : list u8) : option LinuxDirent64 :=
  if lengthZ data =? DIRENT_HEADER then
    Some (MkLinuxDirent64
      (U64 (le_combine (takeZ 8 data)))
      (U64 (le_combine (takeZ 8 (dropZ 8 data))))
      (U16 (le_combine (takeZ 2 (dropZ 16 data))))
      (U8 (le_combine (takeZ 1 (dropZ 18 data)))))
  else None.

Record DirEntry : Set := MkDirEntry {
  de_ino : u64; de_offset : u64; de_type : u8; de_name : list u8
}.

(** [buf] is [self.buf[..self.end]]. *)
Record ReadDir := MkReadDir { rd_dir : File; rd_buf : list u8; rd_current : Z }.

(** [strip_padding]: the bytes before the first NUL; panics ([None]) without
    one. *)
Fixpoint strip_padding (b : list u8) : option (list u8) :=
  match b with
  | [] => None
  | c :: b => if uval c =? 0 then Some [] else cons c <$> strip_padding b
  end.

(** The record at the start of [rem] and its length; [None] where the code
    panics: a header or a name that runs past the buffer, a record shorter than
    its header, a name without NUL. *)
Definition parse_dirent (rem : list u8) : option (DirEntry * Z) :=
  if lengthZ rem <? DIRENT_HEADER then None
  else
    let front := takeZ DIRENT_HEADER rem in
    let back := dropZ DIRENT_HEADER rem in
    dirent64 ← from_slice front;
    let reclen := uval (d_reclen dirent64) in
    if reclen <? DIRENT_HEADER then None
    else
      let namelen := reclen - DIRENT_HEADER in
      if lengthZ back <? namelen then None
      else
        name ← strip_padding (takeZ namelen back);
        Some (MkDirEntry (d_ino dirent64) (d_off dirent64) (d_ty dirent64) name, reclen).

Section read_dir.
Context {L : Libc} {K : Kernel}.

Definition BUF_LEN : Z := 256.

(** The refill at the start of [ReadDir::next]. *)
Definition refill (d : ReadDir) : kio ReadDir :=
  if lengthZ (rd_buf d) <=? rd_current d then
    bytes ← syscall (getdents64 (raw_fd (rd_dir d)) BUF_LEN);
    mret (MkReadDir (rd_dir d) (takeZ BUF_LEN bytes) 0)
  else mret d.

(** [ReadDir::next]: the next entry with the advanced iterator, or [None] at
    the end of the directory. *)
Definition next (d : ReadDir) : kio (option (DirEntry * ReadDir)) :=
  d ← refill d;
  let rem := dropZ (rd_current d) (rd_buf d) in
  match rem with
  | [] => mret None
  | _ =>
      match parse_dirent rem with
      | None => panic
      | Some (entry, reclen) =>
          mret (Some (entry, MkReadDir (rd_dir d) (rd_buf d) (rd_current d + reclen)))
      end
  end.

(** [read_dir]: the iterator borrows the directory. *)
Definition read_dir (dir : File) (offset : Z) : kio ReadDir :=
  _ ← syscall (lseek64 (raw_fd dir) offset SEEK_SET);
  mret (MkReadDir dir [] 0).

End read_dir.

(** ** Parsing what the kernel writes *)

(** A record as [getdents64] writes it: the name is followed by a NUL and by
    padding. *)
Definition dirent_wire (e : DirEntry) (pad : list u8) : list u8 :=
  let reclen := DIRENT_HEADER + lengthZ (de_name e) + 1 + lengthZ pad in
  le_split 8 (de_ino e) ++ le_split 8 (de_offset e) ++ le_split 2 reclen ++
  [de_type e] ++ de_name e ++ U8 0 :: pad.

Definition no_nul (s : list u8) : Prop := Forall (λ c : u8, uval c ≠ 0) s.

Lemma strip_padding_spec name pad :
  no_nul name → strip_padding (name ++ U8 0 :: pad) = Some name.
Proof.
  induction 1 as [|c name Hc _ IH]; [done|]. cbn.
  rewrite IH. by destruct (Z.eqb_spec (uval c) 0).
Qed.

(** The 19 header bytes of a record. *)
Definition dirent_header (e : DirEntry) (reclen : Z) : list u8 :=
  le_split 8 (de_ino e) ++ le_split 8 (de_offset e) ++ le_split 2 reclen ++ [de_type e].

Lemma lengthZ_dirent_header e reclen : lengthZ (dirent_header e reclen) = DIRENT_HEADER.
Proof.
  unfold dirent_header. by rewrite !lengthZ_app, !lengthZ_le_split.
Qed.

Lemma from_slice_header e reclen :
  from_slice (dirent_header e reclen) =
  Some (MkLinuxDirent64 (de_ino e) (de_offset e) (U16 reclen) (de_type e)).
Proof.
  unfold from_slice. rewrite lengthZ_dirent_header, Z.eqb_refl. unfold dirent_header.
  assert (∀ (a b c d : list u8), lengthZ a = 8 → lengthZ b = 8 → lengthZ c = 2 →
    dropZ 16 (a ++ b ++ c ++ d) = c ++ d ∧ dropZ 18 (a ++ b ++ c ++ d) = d) as Hdrop.
  { intros a b c d Ha Hb Hc. rewrite (app_assoc a b). split.
    - apply dropZ_app_eq. rewrite lengthZ_app. lia.
    - rewrite (app_assoc (a ++ b)). apply dropZ_app_eq. rewrite !lengthZ_app. lia. }
  destruct (Hdrop (le_split 8 (de_ino e)) (le_split 8 (de_offset e)) (le_split 2 reclen)
    [de_type e]) as [-> ->]; [done..|].
  rewrite (dropZ_app_eq (le_split 8 (de_ino e))) by done.
  rewrite !takeZ_app_eq by done. rewrite !to_uint_combine_split by done.
  rewrite !to_uint_uval. do 2 f_equal. cbn. by rewrite Z.add_0_r, to_uint_uval.
Qed.

Lemma dirent_wire_split e pad :
  dirent_wire e pad =
  dirent_header e (DIRENT_HEADER + lengthZ (de_name e) + 1 + lengthZ pad) ++
  de_name e ++ U8 0 :: pad.
Proof. unfold dirent_wire, dirent_header. by rewrite <- !app_assoc. Qed.

(** Parsing is the inverse of the kernel's layout. *)
Lemma parse_dirent_wire e pad rest :
  no_nul (de_name e) → lengthZ (dirent_wire e pad) < 65536 →
  parse_dirent (dirent_wire e pad ++ rest) = Some (e, lengthZ (dirent_wire e pad)).
Proof.
  intros Hname. rewrite dirent_wire_split.
  set (n := DIRENT_HEADER + lengthZ (de_name e) + 1 + lengthZ pad).
  set (tail := de_name e ++ U8 0 :: pad).
  assert (lengthZ tail = n - DIRENT_HEADER) as Htail.
  { unfold tail, n. rewrite lengthZ_app, lengthZ_cons. lia. }
  rewrite lengthZ_app, lengthZ_dirent_header, Htail. intros Hn.
  pose proof (lengthZ_nonneg tail). pose proof (lengthZ_nonneg rest).
  unfold parse_dirent. rewrite <- app_assoc, !lengthZ_app, lengthZ_dirent_header.
  destruct (Z.ltb_spec (DIRENT_HEADER + (lengthZ tail + lengthZ rest)) DIRENT_HEADER); [lia|].
  rewrite takeZ_app_eq, dropZ_app_eq by by rewrite lengthZ_dirent_header.
  rewrite from_slice_header. cbn [mbind option_bind d_reclen d_ino d_off d_ty].
  assert (uval (U16 n) = n) as ->.
  { apply uval_to_uint_small. change (2 ^ Z.of_N 16) with 65536. unfold DIRENT_HEADER in *. lia. }
  destruct (Z.ltb_spec n DIRENT_HEADER); [lia|]. rewrite lengthZ_app.
  destruct (Z.ltb_spec (lengthZ tail + lengthZ rest) (n - DIRENT_HEADER)); [lia|].
  rewrite takeZ_app_eq by lia. unfold tail. rewrite strip_padding_spec by done.
  cbn. do 2 f_equal; [by destruct e|lia].
Qed.

Section read_dir_facts.
Context {L : Libc} {K : Kernel}.

(** Iterating over a buffer: when the iterator stands at a record the
    kernel wrote, [next] returns that entry, with its padding removed, without
    calling the kernel, and moves to the following record. *)
Theorem read_dir_next_entry (dir : File) (pre : list u8) (e : DirEntry) (pad post : list u8)
    (k : kstate) :
  no_nul (de_name e) → lengthZ (dirent_wire e pad) < 65536 →
  next (MkReadDir dir (pre ++ dirent_wire e pad ++ post) (lengthZ pre)) k =
  (Done (Some (e, MkReadDir dir (pre ++ dirent_wire e pad ++ post)
                    (lengthZ (pre ++ dirent_wire e pad)))), k).
Proof.
  intros Hname Hlen. unfold next, refill. cbn [rd_buf rd_current rd_dir].
  assert (0 < lengthZ (dirent_wire e pad)) as Hpos.
  { rewrite dirent_wire_split, !lengthZ_app, lengthZ_dirent_header, lengthZ_cons.
    pose proof (lengthZ_nonneg (de_name e)). pose proof (lengthZ_nonneg pad).
    unfold DIRENT_HEADER. lia. }
  rewrite !lengthZ_app. pose proof (lengthZ_nonneg pre). pose proof (lengthZ_nonneg post).
  destruct (Z.leb_spec (lengthZ pre + (lengthZ (dirent_wire e pad) + lengthZ post))
    (lengthZ pre)); [lia|].
  unfold mbind, st_bind, mret, st_ret. cbn [rd_current rd_buf rd_dir].
  rewrite dropZ_app_exact. destruct (dirent_wire e pad ++ post) as [|b l] eqn:E.
  - apply (f_equal lengthZ) in E. rewrite lengthZ_app, lengthZ_nil in E. lia.
  - rewrite <- E, parse_dirent_wire by done. done.
Qed.

End read_dir_facts.
