(* ===== verification/Ufs.v ===== *)
(** * The file server: [jetstream/src/ufs/mod.rs]

    [Server] keeps, for each fid of the client, a descriptor of the file it
    designates and, once the client has opened it, a second descriptor for
    input and output.  Every request is one definition; [handle] dispatches.  At the
    end: the flags the server opens files with, case-insensitive lookup, and the
    options of its configuration. *)

From stdpp Require Import sorting pretty.
From S2P Require Import Prelude StdIo WireFormat Derive MessageTypes Messages Os ReadDir.

(** ** Protocol constants *)

Definition P9_RDONLY : Z := 0.
Definition P9_WRONLY : Z := 1.
Definition P9_RDWR : Z := 2.
Definition P9_NOACCESS : Z := 3.
Definition P9_CREATE : Z := 64.
Definition P9_EXCL : Z := 128.
Definition P9_NOCTTY : Z := 256.
Definition P9_TRUNC : Z := 512.
Definition P9_APPEND : Z := 1024.
Definition P9_NONBLOCK : Z := 2048.
Definition P9_DSYNC : Z := 4096.
Definition P9_FASYNC : Z := 8192.
Definition P9_DIRECT : Z := 16384.
Definition P9_LARGEFILE : Z := 32768.
Definition P9_DIRECTORY : Z := 65536.
Definition P9_NOFOLLOW : Z := 131072.
Definition P9_NOATIME : Z := 262144.
Definition P9_SYNC : Z := 1048576.

Definition P9_QTDIR : Z := 0x80.
Definition P9_QTSYMLINK : Z := 0x02.
Definition P9_QTFILE : Z := 0x00.

Definition P9_GETATTR_BASIC : Z := 0x7ff.

Definition P9_SETATTR_MODE : Z := 0x1.
Definition P9_SETATTR_UID : Z := 0x2.
Definition P9_SETATTR_GID : Z := 0x4.
Definition P9_SETATTR_SIZE : Z := 0x8.
Definition P9_SETATTR_ATIME : Z := 0x10.
Definition P9_SETATTR_MTIME : Z := 0x20.
Definition P9_SETATTR_CTIME : Z := 0x40.
Definition P9_SETATTR_ATIME_SET : Z := 0x80.
Definition P9_SETATTR_MTIME_SET : Z := 0x100.

Definition P9_LOCK_TYPE_UNLCK : Z := 2.
Definition P9_LOCK_SUCCESS : Z := 0.

Definition MIN_MESSAGE_SIZE : Z := 256.
Definition MAX_MESSAGE_SIZE : Z := 64 * 1024 + 24.

(** [x & mask != 0]. *)
Definition has (x mask : Z) : bool := negb (Z.land x mask =? 0).

(** [x as i64]. *)
Definition as_i64 (x : u64) : Z := if uval x <? 2 ^ 63 then uval x else uval x - 2 ^ 64.

(** ** Data *)

Inductive FileType := Regular | Directory | OtherType.

#[global] Instance FileType_eq_dec : EqDecision FileType.
Proof. solve_decision. Defined.

Record Fid := MkFid { fid_path : File; fid_file : option File; fid_filetype : FileType }.

Record Config := MkConfig {
  cfg_root : list u8;
  cfg_msize : u32;
  cfg_uid_map : gmap u32 u32;
  cfg_gid_map : gmap u32 u32;
  cfg_ascii_casefold : bool
}.

Record Server := MkServer { srv_fids : gmap u32 Fid; srv_proc : File; srv_cfg : Config }.

Section ufs.
Context {L : Libc} {K : Kernel}.

(** The flags [open_fid] and [lcreate] translate. *)
Definition MAPPED_FLAGS : list (Z * Z) := [
  (P9_WRONLY, O_WRONLY); (P9_RDWR, O_RDWR); (P9_CREATE, O_CREAT); (P9_EXCL, O_EXCL);
  (P9_NOCTTY, O_NOCTTY); (P9_TRUNC, O_TRUNC); (P9_APPEND, O_APPEND);
  (P9_NONBLOCK, O_NONBLOCK); (P9_DSYNC, O_DSYNC); (P9_FASYNC, 0); (P9_DIRECT, O_DIRECT);
  (P9_LARGEFILE, O_LARGEFILE); (P9_DIRECTORY, O_DIRECTORY); (P9_NOFOLLOW, O_NOFOLLOW);
  (P9_NOATIME, O_NOATIME); (P9_SYNC, O_SYNC)].

(** [impl From<mode_t> for FileType]. *)
Definition FileType_from (mode : u32) : FileType :=
  let fmt := Z.land mode S_IFMT in
  if fmt =? S_IFREG then Regular
  else if fmt =? S_IFDIR then Directory
  else OtherType.

(** [impl From<stat64> for Qid]. *)
Definition Qid_from (st : stat64) : Qid :=
  let fmt := Z.land (st_mode st) S_IFMT in
  let ty := if fmt =? S_IFDIR then P9_QTDIR
            else if fmt =? S_IFREG then P9_QTFILE
            else if fmt =? S_IFLNK then P9_QTSYMLINK
            else 0 in
  MkQid (U8 ty) (U32 (st_mtime st)) (st_ino st).

(** ** Helpers *)

Definition statat (d : File) (name : list u8) (flags : Z) : kio stat64 :=
  syscall (fstatat64 (raw_fd d) name (Z.lor flags AT_SYMLINK_NOFOLLOW)).

Definition stat (f : File) : kio stat64 := statat f [] AT_EMPTY_PATH.

(** [CString::new] refuses an interior NUL. *)
Definition string_to_cstring (s : list u8) : io_result (list u8) :=
  if existsb (λ c : u8, uval c =? 0) s then Err (OsError EINVAL) else Ok s.

(** [error_to_rmessage]. *)
Definition error_to_errno (e : io_error) : Z :=
  match raw_os_error e with
  | Some errno => errno
  | None =>
      match e with
      | KindError NotFound => ENOENT
      | KindError PermissionDenied => EPERM
      | KindError ConnectionRefused => ECONNREFUSED
      | KindError ConnectionReset => ECONNRESET
      | KindError ConnectionAborted => ECONNABORTED
      | KindError NotConnected => ENOTCONN
      | KindError AddrInUse => EADDRINUSE
      | KindError AddrNotAvailable => EADDRNOTAVAIL
      | KindError BrokenPipe => EPIPE
      | KindError AlreadyExists => EEXIST
      | KindError WouldBlock => EWOULDBLOCK
      | KindError InvalidInput => EINVAL
      | KindError InvalidData => EINVAL
      | KindError TimedOut => ETIMEDOUT
      | KindError WriteZero => EIO
      | KindError Interrupted => EINTR
      | KindError Other => EIO
      | KindError UnexpectedEof => EIO
      | _ => EIO
      end
  end.

Definition error_to_rmessage (e : io_error) : Rmessage :=
  RLerror (MkRlerror (U32 (error_to_errno e))).

Definition ebadf : io_error := OsError EBADF.

Definition map_id_from_host (m : gmap u32 u32) (id : u32) : u32 :=
  default id (m !! id).

Definition lookup_file (parent : File) (name : list u8) : kio File :=
  fd ← syscall (openat64 (raw_fd parent) name
                  (Z.lor (Z.lor O_PATH O_NOFOLLOW) O_CLOEXEC) None);
  mret (MkFile fd).

(** [format!("self/fd/{}", fd)]. *)
Definition self_fd (f : File) : list u8 :=
  bytes_of_string ("self/fd/" +:+ pretty (raw_fd f)).

(** The loop over [MAPPED_FLAGS] and the test for read-only access. *)
Definition translate_flags (init p9_flags : Z) : Z :=
  let flags := foldl (λ flags '(p9f, oflag), if has p9_flags p9f then Z.lor flags oflag else flags)
                     init MAPPED_FLAGS in
  if Z.land p9_flags P9_NOACCESS =? P9_RDONLY then Z.lor flags O_RDONLY else flags.

Definition open_fid (proc path : File) (p9_flags : Z) : kio File :=
  pathname ← of_result (string_to_cstring (self_fd path));
  let flags := translate_flags O_CLOEXEC p9_flags in
  fd ← syscall (openat64 (raw_fd proc) pathname (Z.ldiff flags O_NOFOLLOW) None);
  mret (MkFile fd).

(** [eq_ignore_ascii_case]. *)
Definition to_ascii_lowercase (c : u8) : u8 :=
  if (65 <=? uval c) && (uval c <=? 90) then U8 (uval c + 32) else c.
Definition eq_ignore_ascii_case (a b : list u8) : bool :=
  bool_decide (map to_ascii_lowercase a = map to_ascii_lowercase b).

(** The loop of [ascii_casefold_lookup] over the entries of the directory. *)
Fixpoint casefold_scan (fuel : nat) (parent : File) (name : list u8) (d : ReadDir) : kio File :=
  match fuel with
  | O => λ k, (OutOfFuel, k)
  | S fuel =>
      entry ← next d;
      match entry with
      | None => fail (OsError ENOENT)
      | Some (e, d) =>
          if eq_ignore_ascii_case name (de_name e) then lookup_file parent (de_name e)
          else casefold_scan fuel parent name d
      end
  end.

(** The directory it opens is a local, dropped on every path. *)
Definition ascii_casefold_lookup (fuel : nat) (proc parent : File) (name : list u8) : kio File :=
  dir ← open_fid proc parent P9_DIRECTORY;
  with_local dir (
    dirents ← read_dir dir 0;
    casefold_scan fuel parent name dirents).

(** ** Walking *)

(** [dir_fuel] bounds the entries a case-insensitive lookup scans. *)
Context (dir_fuel : nat).

(** [current.try_clone()]. *)
Definition try_clone (f : File) : kio File :=
  fd ← syscall (dup_cloexec (raw_fd f));
  mret (MkFile fd).

(** Dropping a [MaybeOwned] closes the file only if it is owned. *)
Definition drop_maybe_owned (owned : bool) (f : File) : kio () :=
  if owned then drop_file f else mret ().

(** One component: [lookup(..).or_else(..)]. *)
Definition walk_lookup (proc : File) (ascii_casefold : bool) (current : File) (name : list u8) :
    kio File :=
  or_else (lookup_file current name) (λ e,
    if ascii_casefold && bool_decide (raw_os_error e = Some ENOENT)
    then ascii_casefold_lookup dir_fuel proc current name
    else fail e).

(** The loop of [do_walk]; [mds] is the caller's vector, which keeps what was
    pushed before an error. *)
Fixpoint do_walk (proc : File) (wnames : list rstring) (current : File) (owned : bool)
    (ascii_casefold : bool) (mds : list stat64) : kio (io_result File * list stat64) :=
  match wnames with
  | [] =>
      if owned then mret (Ok current, mds)
      else r ← try_call (try_clone current); mret (r, mds)
  | wname :: wnames =>
      r ← try_call (name ← of_result (string_to_cstring (sbytes wname));
                    walk_lookup proc ascii_casefold current name);
      match r with
      | Err e => _ ← drop_maybe_owned owned current; mret (Err e, mds)
      | Ok next =>
          _ ← drop_maybe_owned owned current;
          r ← try_call (stat next);
          match r with
          | Err e => _ ← drop_file next; mret (Err e, mds)
          | Ok md => do_walk proc wnames next true ascii_casefold (mds ++ [md])
          end
      end
  end.

(** ** The server *)

Definition world : Type := Server * kstate.
Abbreviation srv := (st world).

Definition lift {A} (m : kio A) : srv A := λ '(s, k),
  let '(r, k') := m k in (r, (s, k')).

Definition get_server : srv Server := λ w, (Done w.1, w).
Definition put_fids (fids : gmap u32 Fid) : srv () := λ '(s, k),
  (Done (), (MkServer fids (srv_proc s) (srv_cfg s), k)).
Definition put_msize (msize : u32) : srv () := λ '(s, k),
  let c := srv_cfg s in
  (Done (), (MkServer (srv_fids s) (srv_proc s)
     (MkConfig (cfg_root c) msize (cfg_uid_map c) (cfg_gid_map c) (cfg_ascii_casefold c)), k)).

(** [Fid]'s destructor: its fields in declaration order. *)
Definition drop_fid (f : Fid) : kio () :=
  _ ← drop_file (fid_path f);
  match fid_file f with Some file => drop_file file | None => mret () end.

Fixpoint drop_fids (fs : list Fid) : kio () :=
  match fs with
  | [] => mret ()
  | f :: fs => _ ← drop_fid f; drop_fids fs
  end.

(** The values of a [BTreeMap] in the order of its keys. *)
Definition key_le (a b : u32 * Fid) : Prop := uval a.1 <= uval b.1.
#[local] Instance key_le_dec : RelDecision key_le := λ a b, Z_le_dec (uval a.1) (uval b.1).
Definition btree_values (m : gmap u32 Fid) : list Fid :=
  (merge_sort key_le (map_to_list m)).*2.

(** [self.fids.insert(..)]: the value that was there is dropped. *)
Definition insert_fid (n : u32) (f : Fid) : srv () :=
  s ← get_server;
  _ ← put_fids (<[n := f]> (srv_fids s));
  match srv_fids s !! n with
  | Some old => lift (drop_fid old)
  | None => mret ()
  end.

(** [self.fids.get(&n).ok_or_else(ebadf)?]. *)
Definition get_fid (n : u32) : srv Fid :=
  s ← get_server;
  of_result (ok_or (srv_fids s !! n) ebadf).

(** [self.fids.get(&n).and_then(|fid| fid.file.as_ref()).ok_or_else(ebadf)?]. *)
Definition get_open_file (n : u32) : srv File :=
  s ← get_server;
  of_result (ok_or (srv_fids s !! n ≫= fid_file) ebadf).

(** [Config::default]. *)
Definition Config_default : Config :=
  MkConfig (bytes_of_string "/") (U32 MAX_MESSAGE_SIZE) ∅ ∅ false.

(** [Server::with_config]. *)
Definition Server_with_config (cfg : Config) : kio Server :=
  fd ← syscall (openat64 AT_FDCWD (bytes_of_string "/proc")
                  (Z.lor (Z.lor O_PATH O_NOFOLLOW) O_CLOEXEC) None);
  mret (MkServer ∅ (MkFile fd) cfg).

(** [Server::new]. *)
Definition Server_new (root : list u8) (uid_map gid_map : gmap u32 u32) : kio Server :=
  Server_with_config (MkConfig root (U32 MAX_MESSAGE_SIZE) uid_map gid_map false).

(** [Server::keep_fds]. *)
Definition Server_keep_fds (s : Server) : list Z := [raw_fd (srv_proc s)].

(** *** Requests that manage fids *)

Definition Server_auth (_ : Tauth) : srv Rauth := fail (OsError EOPNOTSUPP).

Definition Server_attach (attach : Tattach) : srv Rattach :=
  s ← get_server;
  match srv_fids s !! Tattach_fid attach with
  | None =>
      root ← of_result (if existsb (λ c : u8, uval c =? 0) (cfg_root (srv_cfg s))
                        then Err (KindError InvalidData) else Ok (cfg_root (srv_cfg s)));
      fd ← lift (syscall (openat64 AT_FDCWD root
                            (Z.lor (Z.lor O_PATH O_NOFOLLOW) O_CLOEXEC) None));
      let root_path := MkFile fd in
      st ← lift (or_drop root_path (stat root_path));
      _ ← insert_fid (Tattach_fid attach) (MkFid root_path None (FileType_from (st_mode st)));
      mret (MkRattach (Qid_from st))
  | Some _ => fail (OsError EBADF)
  end.

Definition Server_version (version : Tversion) : srv Rversion :=
  if uval (Tversion_msize version) <? MIN_MESSAGE_SIZE then fail (OsError EINVAL)
  else
    s ← get_server;
    _ ← put_fids ∅;
    _ ← lift (drop_fids (btree_values (srv_fids s)));
    let msize := umin (cfg_msize (srv_cfg s)) (Tversion_msize version) in
    _ ← put_msize msize;
    mret (MkRversion msize
      (if bool_decide (Tversion_version version = str_lit "9P2000.L")
       then str_lit "9P2000.L" else str_lit "unknown")).

Definition Server_flush (_ : Tflush) : srv () := mret ().

Definition Server_walk (walk : Twalk) : srv Rwalk :=
  s ← get_server;
  if negb (bool_decide (Twalk_fid walk = Twalk_newfid walk))
     && bool_decide (is_Some (srv_fids s !! Twalk_newfid walk))
  then fail (OsError EBADF)
  else
    start ← get_fid (Twalk_fid walk);
    let expected_len := lengthZ (Twalk_wnames walk) in
    '(r, mds) ← lift (do_walk (srv_proc s) (Twalk_wnames walk) (fid_path start) false
                        (cfg_ascii_casefold (srv_cfg s)) []);
    _ ← match r with
        | Ok end_ =>
            if lengthZ mds =? expected_len then
              st ← match last mds with
                   | Some st => mret st
                   | None => lift (or_drop end_ (stat end_))
                   end;
              insert_fid (Twalk_newfid walk) (MkFid end_ None (FileType_from (st_mode st)))
            else lift (drop_file end_)
        | Err e => if bool_decide (mds = []) then fail e else mret ()
        end;
    mret (MkRwalk (map Qid_from mds)).

Definition Server_clunk (clunk : Tclunk) : srv () :=
  s ← get_server;
  match srv_fids s !! Tclunk_fid clunk with
  | None => fail (OsError EBADF)
  | Some f =>
      _ ← put_fids (delete (Tclunk_fid clunk) (srv_fids s));
      lift (drop_fid f)
  end.

Definition Server_remove (_ : Tremove) : srv () := fail (OsError EOPNOTSUPP).

(** *** Input, output and opening *)

(** The size of the reply that carries no data. *)
Definition read_header_size : u32 :=
  Rframe_byte_size (MkRframe (U16 0) (RRead (MkRread (MkData [])))).
Definition readdir_header_size : u32 :=
  Rframe_byte_size (MkRframe (U16 0) (RReaddir (MkRreaddir (MkData [])))).

(** [a - b] on [u32] where overflow panics. *)
Definition checked_sub (a b : u32) : srv u32 :=
  if uval a <? uval b then panic else mret (usub a b).

Definition Server_read (read : Tread) : srv Rread :=
  file ← get_open_file (Tread_fid read);
  s ← get_server;
  room ← checked_sub (cfg_msize (srv_cfg s)) read_header_size;
  let capacity := uval (umin room (Tread_count read)) in
  bytes ← lift (syscall (pread64 (raw_fd file) capacity (Tread_offset read)));
  mret (MkRread (MkData (takeZ capacity bytes))).

Definition Server_write (write : Twrite) : srv Rwrite :=
  file ← get_open_file (Twrite_fid write);
  count ← lift (syscall (pwrite64 (raw_fd file) (data_bytes (Twrite_data write))
                           (Twrite_offset write)));
  mret (MkRwrite (U32 count)).

Definition Server_statfs (statfs : Tstatfs) : srv Rstatfs :=
  fid ← get_fid (Tstatfs_fid statfs);
  out ← lift (syscall (fstatfs64 (raw_fd (fid_path fid))));
  mret (MkRstatfs (U32 (f_type out)) (U32 (f_bsize out)) (f_blocks out) (f_bfree out)
          (f_bavail out) (f_files out) (f_ffree out) (f_fsid out) (U32 (f_namelen out))).

(** [fid.file = Some(file)]: the file that was there is dropped. *)
Definition set_file (n : u32) (fid : Fid) (file : File) (ty : FileType) : srv Fid :=
  s ← get_server;
  let fid' := MkFid (fid_path fid) (Some file) ty in
  _ ← put_fids (<[n := fid']> (srv_fids s));
  _ ← match fid_file fid with Some old => lift (drop_file old) | None => mret () end;
  mret fid'.

(** [fid.path = path]. *)
Definition set_path (n : u32) (fid : Fid) (path : File) : srv () :=
  s ← get_server;
  _ ← put_fids (<[n := MkFid path (fid_file fid) (fid_filetype fid)]> (srv_fids s));
  lift (drop_file (fid_path fid)).

Definition Server_lopen (lopen : Tlopen) : srv Rlopen :=
  fid ← get_fid (Tlopen_fid lopen);
  s ← get_server;
  file ← lift (open_fid (srv_proc s) (fid_path fid) (Tlopen_flags lopen));
  st ← lift (or_drop file (stat file));
  _ ← set_file (Tlopen_fid lopen) fid file (fid_filetype fid);
  mret (MkRlopen (Qid_from st) (U32 0)).

Definition Server_lcreate (lcreate : Tlcreate) : srv Rlcreate :=
  fid ← get_fid (Tlcreate_fid lcreate);
  if negb (bool_decide (fid_filetype fid = Directory)) then fail (OsError ENOTDIR)
  else
    let flags := translate_flags (Z.lor (Z.lor O_CLOEXEC O_CREAT) O_EXCL)
                   (Tlcreate_flags lcreate) in
    name ← of_result (string_to_cstring (sbytes (Tlcreate_name lcreate)));
    fd ← lift (syscall (openat64 (raw_fd (fid_path fid)) name flags
                          (Some (Tlcreate_mode lcreate))));
    let file := MkFile fd in
    st ← lift (or_drop file (stat file));
    fid ← set_file (Tlcreate_fid lcreate) fid file Regular;
    path ← lift (lookup_file (fid_path fid) name);
    _ ← set_path (Tlcreate_fid lcreate) fid path;
    mret (MkRlcreate (Qid_from st) (U32 0)).

Definition Server_symlink (_ : Tsymlink) : srv Rsymlink := fail (OsError EACCES).
Definition Server_mknod (_ : Tmknod) : srv Rmknod := fail (OsError EACCES).
Definition Server_rename (_ : Trename) : srv () := fail (OsError EOPNOTSUPP).

Definition Server_readlink (readlink : Treadlink) : srv Rreadlink :=
  fid ← get_fid (Treadlink_fid readlink);
  link ← lift (syscall (readlinkat (raw_fd (fid_path fid)) [] PATH_MAX));
  match from_utf8 (takeZ PATH_MAX link) with
  | Some target => mret (MkRreadlink target)
  | None => fail (KindError InvalidData)
  end.

(** *** Attributes *)

Definition Server_get_attr (get_attr : Tgetattr) : srv Rgetattr :=
  fid ← get_fid (Tgetattr_fid get_attr);
  st ← lift (stat (fid_path fid));
  s ← get_server;
  mret (MkRgetattr (U64 P9_GETATTR_BASIC) (Qid_from st) (st_mode st)
    (map_id_from_host (cfg_uid_map (srv_cfg s)) (st_uid st))
    (map_id_from_host (cfg_gid_map (srv_cfg s)) (st_gid st))
    (st_nlink st) (st_rdev st) (U64 (st_size st)) (U64 (st_blksize st)) (U64 (st_blocks st))
    (U64 (st_atime st)) (U64 (st_atime_nsec st)) (U64 (st_mtime st)) (U64 (st_mtime_nsec st))
    (U64 (st_ctime st)) (U64 (st_ctime_nsec st)) (U64 0) (U64 0) (U64 0) (U64 0)).

(** [File::set_len] refuses a length that is not an [i64]. *)
Definition set_len (f : File) (size : u64) : kio () :=
  if 2 ^ 63 <=? uval size then fail (KindError InvalidInput)
  else syscall (ftruncate64 (raw_fd f) size).

Definition set_attr_mode (proc : File) (path : list u8) (a : Tsetattr) : kio () :=
  if has (Tsetattr_valid a) P9_SETATTR_MODE
  then syscall (fchmodat (raw_fd proc) path (Tsetattr_mode a) 0)
  else mret ().

Definition set_attr_owner (proc : File) (path : list u8) (a : Tsetattr) : kio () :=
  if has (Tsetattr_valid a) (Z.lor P9_SETATTR_UID P9_SETATTR_GID) then
    let uid := if has (Tsetattr_valid a) P9_SETATTR_UID then Tsetattr_uid a else U32 (-1) in
    let gid := if has (Tsetattr_valid a) P9_SETATTR_GID then Tsetattr_gid a else U32 (-1) in
    syscall (fchownat (raw_fd proc) path uid gid 0)
  else mret ().

Definition set_attr_size (proc : File) (fid : Fid) (a : Tsetattr) : kio () :=
  if has (Tsetattr_valid a) P9_SETATTR_SIZE then
    if bool_decide (fid_filetype fid = Directory) then fail (OsError EISDIR)
    else
      match fid_file fid with
      | Some file => set_len file (Tsetattr_size a)
      | None =>
          file ← open_fid proc (fid_path fid) (Z.lor P9_NONBLOCK P9_RDWR);
          with_local file (set_len file (Tsetattr_size a))
      end
  else mret ().

(** A time of [utimensat]: left alone, the current time, or the one given. *)
Definition set_attr_timespec (valid : u32) (flag set_flag : Z) (sec nsec : u64) : timespec :=
  MkTimespec (as_i64 sec)
    (if negb (has valid flag) then UTIME_OMIT
     else if negb (has valid set_flag) then UTIME_NOW
     else as_i64 nsec).

Definition set_attr_times (proc : File) (path : list u8) (a : Tsetattr) : kio () :=
  if has (Tsetattr_valid a) (Z.lor P9_SETATTR_ATIME P9_SETATTR_MTIME) then
    syscall (utimensat (raw_fd proc) path
      (set_attr_timespec (Tsetattr_valid a) P9_SETATTR_ATIME P9_SETATTR_ATIME_SET
         (Tsetattr_atime_sec a) (Tsetattr_atime_nsec a))
      (set_attr_timespec (Tsetattr_valid a) P9_SETATTR_MTIME P9_SETATTR_MTIME_SET
         (Tsetattr_mtime_sec a) (Tsetattr_mtime_nsec a)) 0)
  else mret ().

Definition set_attr_ctime (proc : File) (path : list u8) (a : Tsetattr) : kio () :=
  if has (Tsetattr_valid a) P9_SETATTR_CTIME
     && (Z.ldiff (Tsetattr_valid a) P9_SETATTR_CTIME =? 0)
  then syscall (fchownat (raw_fd proc) path (U32 u32_max) (U32 u32_max) 0)
  else mret ().

Definition Server_set_attr (set_attr : Tsetattr) : srv () :=
  fid ← get_fid (Tsetattr_fid set_attr);
  s ← get_server;
  path ← of_result (string_to_cstring (self_fd (fid_path fid)));
  _ ← lift (set_attr_mode (srv_proc s) path set_attr);
  _ ← lift (set_attr_owner (srv_proc s) path set_attr);
  _ ← lift (set_attr_size (srv_proc s) fid set_attr);
  _ ← lift (set_attr_times (srv_proc s) path set_attr);
  lift (set_attr_ctime (srv_proc s) path set_attr).

Definition Server_xattr_walk (_ : Txattrwalk) : srv Rxattrwalk := fail (OsError EOPNOTSUPP).
Definition Server_xattr_create (_ : Txattrcreate) : srv () := fail (OsError EOPNOTSUPP).

(** *** Directories *)

(** The loop of [readdir]: [out] is the content of the cursor, whose capacity
    is [count].  An entry takes at least 24 bytes, which bounds the number of
    iterations. *)
Fixpoint readdir_loop (fuel : nat) (path : File) (count : Z) (dirents : ReadDir)
    (out : list u8) : kio (list u8) :=
  match fuel with
  | O => λ k, (OutOfFuel, k)
  | S fuel =>
      dirent ← next dirents;
      match dirent with
      | None => mret out
      | Some (dirent, dirents) =>
          st ← statat path (de_name dirent) 0;
          name ← of_result (ok_or (from_utf8 (de_name dirent)) (KindError InvalidData));
          let entry := MkDirent (Qid_from st) (de_offset dirent) (de_type dirent) name in
          if count - lengthZ out <? uval (byte_size entry) then mret out
          else
            let '(bytes, r) := encode entry in
            _ ← of_result r;
            readdir_loop fuel path count dirents (out ++ bytes)
      end
  end.

Definition MIN_DIRENT : Z := 13 + 8 + 1 + 2.

Definition Server_readdir (readdir : Treaddir) : srv Rreaddir :=
  fid ← get_fid (Treaddir_fid readdir);
  if negb (bool_decide (fid_filetype fid = Directory)) then fail (OsError ENOTDIR)
  else
    s ← get_server;
    room ← checked_sub (cfg_msize (srv_cfg s)) readdir_header_size;
    let count := uval (umin room (Treaddir_count readdir)) in
    dir ← of_result (ok_or (fid_file fid) ebadf);
    data ← lift (
      dirents ← read_dir dir (as_i64 (Treaddir_offset readdir));
      readdir_loop (S (Z.to_nat (count / MIN_DIRENT))) (fid_path fid) count dirents []);
    mret (MkRreaddir (MkData data)).

Definition Server_fsync (f : Tfsync) : srv () :=
  file ← get_open_file (Tfsync_fid f);
  if uval (Tfsync_datasync f) =? 0
  then lift (syscall (fsync (raw_fd file)))
  else lift (syscall (fdatasync (raw_fd file))).

Definition Server_lock (lock : Tlock) : srv Rlock :=
  file ← get_open_file (Tlock_fid lock);
  _ ← lift (syscall (fstat64 (raw_fd file)));
  mret (MkRlock (U8 P9_LOCK_SUCCESS)).

Definition Server_get_lock (get_lock : Tgetlock) : srv Rgetlock :=
  file ← get_open_file (Tgetlock_fid get_lock);
  _ ← lift (syscall (fstat64 (raw_fd file)));
  mret (MkRgetlock (U8 P9_LOCK_TYPE_UNLCK) (Tgetlock_start get_lock) (Tgetlock_length get_lock)
          (Tgetlock_proc_id get_lock) (Tgetlock_client_id get_lock)).

(** [x as libc::c_int]. *)
Definition as_i32 (x : u32) : Z := if uval x <? 2 ^ 31 then uval x else uval x - 2 ^ 32.

Definition Server_link (link : Tlink) : srv () :=
  target ← get_fid (Tlink_fid link);
  path ← of_result (string_to_cstring (self_fd (fid_path target)));
  dir ← get_fid (Tlink_dfid link);
  name ← of_result (string_to_cstring (sbytes (Tlink_name link)));
  s ← get_server;
  lift (syscall (linkat (raw_fd (srv_proc s)) path (raw_fd (fid_path dir)) name
                   AT_SYMLINK_FOLLOW)).

Definition Server_mkdir (mkdir : Tmkdir) : srv Rmkdir :=
  fid ← get_fid (Tmkdir_dfid mkdir);
  name ← of_result (string_to_cstring (sbytes (Tmkdir_name mkdir)));
  _ ← lift (syscall (mkdirat (raw_fd (fid_path fid)) name (Tmkdir_mode mkdir)));
  st ← lift (statat (fid_path fid) name 0);
  mret (MkRmkdir (Qid_from st)).

Definition Server_rename_at (rename_at : Trenameat) : srv () :=
  olddir ← get_fid (Trenameat_olddirfid rename_at);
  oldname ← of_result (string_to_cstring (sbytes (Trenameat_oldname rename_at)));
  newdir ← get_fid (Trenameat_newdirfid rename_at);
  newname ← of_result (string_to_cstring (sbytes (Trenameat_newname rename_at)));
  lift (syscall (renameat (raw_fd (fid_path olddir)) oldname (raw_fd (fid_path newdir)) newname)).

Definition Server_unlink_at (unlink_at : Tunlinkat) : srv () :=
  dir ← get_fid (Tunlinkat_dirfd unlink_at);
  name ← of_result (string_to_cstring (sbytes (Tunlinkat_name unlink_at)));
  lift (syscall (unlinkat (raw_fd (fid_path dir)) name (as_i32 (Tunlinkat_flags unlink_at)))).

(** ** Dispatch *)

(** The match on the message, which [handle] and [handle_message] share. *)
Definition dispatch (m : Tmessage) : srv Rmessage :=
  match m with
  | TVersion m => st_map RVersion (Server_version m)
  | TFlush m => st_map (λ _, RFlush) (Server_flush m)
  | TWalk m => st_map RWalk (Server_walk m)
  | TRead m => st_map RRead (Server_read m)
  | TWrite m => st_map RWrite (Server_write m)
  | TClunk m => st_map (λ _, RClunk) (Server_clunk m)
  | TRemove m => st_map (λ _, RRemove) (Server_remove m)
  | TAttach m => st_map RAttach (Server_attach m)
  | TAuth m => st_map RAuth (Server_auth m)
  | TStatfs m => st_map RStatfs (Server_statfs m)
  | TLopen m => st_map RLopen (Server_lopen m)
  | TLcreate m => st_map RLcreate (Server_lcreate m)
  | TSymlink m => st_map RSymlink (Server_symlink m)
  | TMknod m => st_map RMknod (Server_mknod m)
  | TRename m => st_map (λ _, RRename) (Server_rename m)
  | TReadlink m => st_map RReadlink (Server_readlink m)
  | TGetAttr m => st_map RGetAttr (Server_get_attr m)
  | TSetAttr m => st_map (λ _, RSetAttr) (Server_set_attr m)
  | TXattrWalk m => st_map RXattrWalk (Server_xattr_walk m)
  | TXattrCreate m => st_map (λ _, RXattrCreate) (Server_xattr_create m)
  | TReaddir m => st_map RReaddir (Server_readdir m)
  | TFsync m => st_map (λ _, RFsync) (Server_fsync m)
  | TLock m => st_map RLock (Server_lock m)
  | TGetLock m => st_map RGetLock (Server_get_lock m)
  | TLink m => st_map (λ _, RLink) (Server_link m)
  | TMkdir m => st_map RMkdir (Server_mkdir m)
  | TRenameAt m => st_map (λ _, RRenameAt) (Server_rename_at m)
  | TUnlinkAt m => st_map (λ _, RUnlinkAt) (Server_unlink_at m)
  end.

(** [Server::handle]: an error of a request becomes its reply. *)
Definition handle (tx : Tframe) : srv Rframe :=
  rmsg ← try_call match Tframe_msg tx with
                  | Ok m => dispatch m
                  | Err _ => fail (KindError InvalidData)
                  end;
  mret (MkRframe (Tframe_tag tx)
          match rmsg with Ok m => m | Err e => error_to_rmessage e end).

(** [Server::handle_message]: the result, what is left of the reader and the
    bytes written. *)
Definition handle_message (input : list u8) : srv (io_result () * list u8 * list u8) :=
  s ← get_server;
  let '(r, rest) := with_take (uval (cfg_msize (srv_cfg s))) Tframe_decode input in
  match r with
  | Err e => mret (Err e, rest, [])
  | Ok frame =>
      response ← handle frame;
      let '(bytes, r) := Rframe_encode response in
      mret (r, rest, bytes)
  end.

End ufs.
Abbreviation srv := (st world).

(** ** Parsing a configuration: [impl FromStr for Config] *)

(** [str::splitn(2, sep)]: what precedes the first separator, and the rest if
    there is one. *)
Fixpoint splitn2 (sep : Z) (s : list u8) : list u8 * option (list u8) :=
  match s with
  | [] => ([], None)
  | c :: s =>
      if uval c =? sep then ([], Some s)
      else let '(kind, value) := splitn2 sep s in (c :: kind, value)
  end.

(** [value.parse::<bool>()]. *)
Definition parse_bool (s : list u8) : option bool :=
  if bool_decide (s = bytes_of_string "true") then Some true
  else if bool_decide (s = bytes_of_string "false") then Some false
  else None.

(** The error strings of [from_str]. *)
Inductive config_error := OptionForm | NotABoolean | UnrecognizedOption.

Definition set_casefold (c : Config) (b : bool) : Config :=
  MkConfig (cfg_root c) (cfg_msize c) (cfg_uid_map c) (cfg_gid_map c) b.

Fixpoint parse_options (cfg : Config) (opts : list (list u8)) : Config + config_error :=
  match opts with
  | [] => inl cfg
  | opt :: opts =>
      match splitn2 61 opt with
      | (_, None) => inr OptionForm
      | (kind, Some value) =>
          if bool_decide (kind = bytes_of_string "ascii_casefold") then
            match parse_bool value with
            | Some b => parse_options (set_casefold cfg b) opts
            | None => inr NotABoolean
            end
          else inr UnrecognizedOption
      end
  end.

Definition Config_from_str (params : list u8) : Config + config_error :=
  if bool_decide (params = []) then inl Config_default
  else parse_options Config_default (split_on 58 params).

(** ** Flags *)

Section flags.
Context {L : Libc}.

(** The bits a set of 9P flags stands for. *)
Definition mapped_bit (p9_flags : Z) (table : list (Z * Z)) (i : Z) : bool :=
  existsb (λ x, has p9_flags x.1 && Z.testbit x.2 i) table.

Lemma foldl_flags_bit p9 table init i :
  Z.testbit (foldl (λ flags '(p9f, oflag), if has p9 p9f then Z.lor flags oflag else flags)
               init table) i =
  Z.testbit init i || mapped_bit p9 table i.
Proof.
  revert init. induction table as [|[p o] table IH]; intros init; cbn; [by rewrite orb_false_r|].
  rewrite IH. destruct (has p9 p); cbn; [|done]. by rewrite Z.lor_spec, orb_assoc.
Qed.

Lemma translate_flags_bit init p9 i :
  Z.testbit (translate_flags init p9) i =
  Z.testbit init i || mapped_bit p9 MAPPED_FLAGS i ||
  ((Z.land p9 P9_NOACCESS =? P9_RDONLY) && Z.testbit O_RDONLY i).
Proof.
  unfold translate_flags. destruct (_ =? _).
  - by rewrite Z.lor_spec, foldl_flags_bit.
  - by rewrite foldl_flags_bit, orb_false_r.
Qed.

(** The flags of an open: bit by bit, what [open_fid] passes to the kernel
    is the close-on-exec flag and the flags the request maps to, without those
    of [O_NOFOLLOW] (the link in [/proc] must be followed), whatever the client
    asks for. *)
Theorem open_flags_bits p9 i :
  Z.testbit (Z.ldiff (translate_flags O_CLOEXEC p9) O_NOFOLLOW) i =
  negb (Z.testbit O_NOFOLLOW i) &&
  (Z.testbit O_CLOEXEC i || mapped_bit p9 MAPPED_FLAGS i ||
   ((Z.land p9 P9_NOACCESS =? P9_RDONLY) && Z.testbit O_RDONLY i)).
Proof. rewrite Z.ldiff_spec, translate_flags_bit. apply andb_comm. Qed.

End flags.

(** ** Case-insensitive lookup *)

Section casefold.
Context {L : Libc} {K : Kernel}.

(** From [d] the directory yields the entries [es] and ends in the state [k']. *)
Inductive yields : ReadDir → kstate → list DirEntry → kstate → Prop :=
| yields_end d k k' : next d k = (Done None, k') → yields d k [] k'
| yields_entry d k e d' k1 es k' :
    next d k = (Done (Some (e, d')), k1) → yields d' k1 es k' → yields d k (e :: es) k'.

(** The same, stopping at an entry. *)
Inductive reaches : ReadDir → kstate → list DirEntry → DirEntry → kstate → Prop :=
| reaches_here d k e d' k' :
    next d k = (Done (Some (e, d')), k') → reaches d k [] e k'
| reaches_later d k e d' k1 es e' k' :
    next d k = (Done (Some (e, d')), k1) → reaches d' k1 es e' k' → reaches d k (e :: es) e' k'.

Lemma casefold_scan_found fuel parent name d k es e k' :
  reaches d k es e k' → (length es < fuel)%nat →
  Forall (λ x, eq_ignore_ascii_case name (de_name x) = false) es →
  eq_ignore_ascii_case name (de_name e) = true →
  casefold_scan fuel parent name d k = lookup_file parent (de_name e) k'.
Proof.
  intros Hr. revert fuel. induction Hr as [d k e d' k' Hn|d k e d' k1 es e' k' Hn Hr IH];
    intros [|fuel] Hf Hes He; cbn [length] in Hf; try lia;
    cbn [casefold_scan]; unfold mbind, st_bind; rewrite Hn; cbn beta iota.
  - by rewrite He.
  - apply Forall_cons in Hes as [Hx Hes]. rewrite Hx. apply IH; [lia|done..].
Qed.

Lemma casefold_scan_missing fuel parent name d k es k' :
  yields d k es k' → (length es < fuel)%nat →
  Forall (λ x, eq_ignore_ascii_case name (de_name x) = false) es →
  casefold_scan fuel parent name d k = (Fail (OsError ENOENT), k').
Proof.
  intros Hr. revert fuel. induction Hr as [d k k' Hn|d k e d' k1 es k' Hn Hr IH];
    intros [|fuel] Hf Hes; cbn [length] in Hf; try lia;
    cbn [casefold_scan]; unfold mbind, st_bind; rewrite Hn; cbn beta iota; [done|].
  apply Forall_cons in Hes as [Hx Hes]. rewrite Hx. apply IH; [lia|done].
Qed.

(** A case-insensitive lookup scans the directory once, from its start: it
    opens the first entry whose name is the requested one up to the case of
    ASCII letters, under the name it has on disk, and reports [ENOENT] at the end
    of a directory that has none. *)
Theorem casefold_scan_spec fuel parent name d k es k' :
  (length es < fuel)%nat →
  Forall (λ x, eq_ignore_ascii_case name (de_name x) = false) es →
  (∀ e, reaches d k es e k' → eq_ignore_ascii_case name (de_name e) = true →
        casefold_scan fuel parent name d k = lookup_file parent (de_name e) k') ∧
  (yields d k es k' →
        casefold_scan fuel parent name d k = (Fail (OsError ENOENT), k')).
Proof.
  intros Hf Hes. split.
  - intros e Hr He. by eapply casefold_scan_found.
  - intros Hy. by eapply casefold_scan_missing.
Qed.

End casefold.

(** ** The options of a configuration *)

(** A list of options as it is written: [ascii_casefold=<bool>], separated by
    colons. *)
Definition print_bool (b : bool) : list u8 := bytes_of_string (if b then "true" else "false").
Definition print_option (b : bool) : list u8 := bytes_of_string "ascii_casefold=" ++ print_bool b.

Fixpoint print_options (b : bool) (bs : list bool) : list u8 :=
  match bs with
  | [] => print_option b
  | b' :: bs => print_option b ++ U8 58 :: print_options b' bs
  end.

Lemma print_option_chars b : Forall (λ c : u8, uval c ≠ 58) (print_option b).
Proof. destruct b; repeat constructor; vm_compute; discriminate. Qed.

Lemma split_print_options b bs : split_on 58 (print_options b bs) = map print_option (b :: bs).
Proof.
  revert b. induction bs as [|b' bs IH]; intros b; cbn [print_options].
  - rewrite <- (app_nil_r (print_option b)), split_on_app by apply print_option_chars.
    cbn. by rewrite app_nil_r.
  - rewrite split_on_app by apply print_option_chars. cbn [split_on].
    change (uval (U8 58) =? 58) with true. cbn iota. rewrite IH. cbn. by rewrite app_nil_r.
Qed.

Lemma parse_print_options cfg bs :
  parse_options cfg (map print_option bs) = inl (foldl set_casefold cfg bs).
Proof.
  revert cfg. induction bs as [|b bs IH]; intros cfg; [done|]. cbn [map parse_options foldl].
  destruct b; cbn -[parse_options map]; apply IH.
Qed.

Lemma foldl_set_casefold bs cfg b :
  foldl set_casefold cfg (bs ++ [b]) = set_casefold cfg b.
Proof. revert cfg. induction bs as [|b' bs IH]; intros cfg; [done|]. cbn. by rewrite IH. Qed.

(** The configuration string: [from_str] accepts every list of
    [ascii_casefold=true] and [ascii_casefold=false] separated by colons, the last
    one counts, and no string it accepts changes anything but that option of the
    default configuration. *)
Theorem config_from_str_spec :
  (∀ bs b, Config_from_str (match bs ++ [b] with c :: cs => print_options c cs | [] => [] end) =
           inl (set_casefold Config_default b)) ∧
  (∀ params c, Config_from_str params = inl c →
     c = set_casefold Config_default (cfg_ascii_casefold c)).
Proof.
  split.
  - intros bs b. destruct (bs ++ [b]) as [|c cs] eqn:E; [by destruct bs|].
    unfold Config_from_str. rewrite bool_decide_eq_false_2 by (destruct c, cs; done).
    rewrite split_print_options, parse_print_options, <- E. f_equal. apply foldl_set_casefold.
  - intros params c. unfold Config_from_str. case_bool_decide; [by intros [= <-]|].
    assert (∀ opts cfg, cfg = set_casefold Config_default (cfg_ascii_casefold cfg) →
      parse_options cfg opts = inl c → c = set_casefold Config_default (cfg_ascii_casefold c)) as Hp.
    { induction opts as [|o opts IH]; intros cfg Hcfg Ho; cbn in Ho; [by injection Ho as <-|].
      destruct (splitn2 61 o) as [kind [value|]]; [|done]. case_bool_decide; [|done].
      destruct (parse_bool value) as [b|]; [|done]. eapply IH; [|exact Ho]. by rewrite Hcfg. }
    by apply Hp.
Qed.
