(* ===== verification/Extensions.v ===== *)
(** * Results, byte buffers and version names

    The implementation of [WireFormat] for [io::Result<T>] at the end of
    [jetstream/src/coding/wire_format.rs], the conversions [to_bytes] and
    [from_bytes] of [jetstream/src/wire_format_extensions.rs], and the protocol
    names of [jetstream/src/versions.rs]. *)

From S2P Require Import Prelude StdIo WireFormat Derive MessageTypes Messages Os Ufs.

(** ** Signed integers: [uint_wire_format_impl!(i32)]

    The macro is also used at [i32]: the bytes are those of the two's
    complement. *)

Definition i32_byte_size (_ : Z) : u32 := U32 4.
Definition i32_encode (x : Z) : enc := encode (U32 x).
Definition i32_decode : reader Z := as_i32 <$> (decode : reader u32).

Lemma i32_roundtrip x rest :
  - 2 ^ 31 <= x < 2 ^ 31 → i32_decode ((i32_encode x).1 ++ rest) = (Ok x, rest).
Proof.
  intros Hx. unfold i32_decode, i32_encode. rewrite encode_wire by done.
  unfold fmap, reader_fmap. cbn [fst]. rewrite decode_u32. do 2 f_equal.
  unfold as_i32. rewrite uval_to_uint. change (2 ^ Z.of_N 32) with 4294967296 in *.
  change (2 ^ 31) with 2147483648 in *. change (2 ^ 32) with 4294967296.
  destruct (Z.ltb_spec (x mod 4294967296) 2147483648); Z.div_mod_to_equations; lia.
Qed.

(** ** [impl WireFormat for io::Result<T>] *)

Section io_result.
Context {L : Libc} {T : Type} `{!WireFormat T}.

(** [error_to_rmessage] of [wire_format.rs], with the same table as the one of
    the server. *)
Definition error_to_rlerror (e : io_error) : Rlerror := MkRlerror (U32 (error_to_errno e)).

Definition io_result_byte_size (r : io_result T) : u32 :=
  match r with
  | Ok value => byte_size value
  | Err err => byte_size (error_to_rlerror err)
  end.

Definition io_result_encode (r : io_result T) : enc :=
  match r with
  | Ok value => encode value
  | Err err => encode (error_to_rlerror err)
  end.

(** The outer result is the one of [decode], the inner one the value. *)
Definition io_result_decode : reader (io_result T) :=
  error ← (decode : reader Rlerror);
  if uval (Rlerror_ecode error) =? 0
  then value ← (decode : reader T); mret (Ok value)
  else rfail (OsError (as_i32 (Rlerror_ecode error))).

End io_result.

(** ** Byte buffers *)

Section bytes.
Context {T : Type} `{!WireFormat T}.

(** [to_bytes] panics ([None]) where encoding fails. *)
Definition to_bytes (x : T) : option (list u8) :=
  match encode x with
  | (buf, Ok _) => Some buf
  | (_, Err _) => None
  end.

Definition from_bytes (buf : list u8) : io_result T := (decode buf).1.

End bytes.

(** ** Protocol versions *)

Inductive Version := V9P2000 | V9P2000U | V9P2000L | V9P2000Lu | V9P2024q9p.

#[global] Instance Version_eq_dec : EqDecision Version.
Proof. solve_decision. Defined.

Definition Version_into (v : Version) : string :=
  match v with
  | V9P2000 => "9P2000"
  | V9P2000U => "9P2000.u"
  | V9P2000L => "9P2000.L"
  | V9P2000Lu => "9P2000.Lu"
  | V9P2024q9p => "9P2024.q9p"
  end.

Definition Version_from_str (version : string) : option Version :=
  if bool_decide (version = "9P2000") then Some V9P2000
  else if bool_decide (version = "9P2000.u") then Some V9P2000U
  else if bool_decide (version = "9P2000.L") then Some V9P2000L
  else if bool_decide (version = "9P2000.Lu") then Some V9P2000Lu
  else if bool_decide (version = "9P2024.q9p") then Some V9P2024q9p
  else None.

(** [From<&str>] and [From<String>] panic on an unknown name. *)
Definition Version_from {S : Type} (version : string) : st S Version :=
  match Version_from_str version with Some v => mret v | None => panic end.

(** ** Facts *)

Lemma decode_rlerror (e : Rlerror) rest : decode (wire e ++ rest) = (Ok e, rest).
Proof. by apply decode_wire. Qed.

Section facts.
Context {L : Libc} {T : Type} `{!WireFormat T, !WireFormatLaws T}.

(** What [decode] expects of an [io::Result<T>] is a zero error code before
    the value: then the value is read back, and a non-zero code is reported as
    the operating system error of that number. *)
Theorem io_result_decode_tagged (e : Rlerror) (x : T) rest :
  decodable x = true →
  io_result_decode (T := T) (wire e ++ wire x ++ rest) =
  if uval (Rlerror_ecode e) =? 0 then (Ok (Ok x), rest)
  else (Err (OsError (as_i32 (Rlerror_ecode e))), wire x ++ rest).
Proof.
  intros Hx. unfold io_result_decode. erewrite bind_ok by apply decode_rlerror.
  case_match; [|done]. by erewrite bind_ok by by apply decode_wire.
Qed.

(** [encode] writes no such code before a successful value, so the two do
    not agree: the encoding of [Ok(x)] is decoded as an error whenever its first
    four bytes are not zero, and the encoding of an error is decoded as a failure
    of [decode] itself. *)
Theorem io_result_roundtrip_lost (r : io_result T) (n : u32) t rest :
  uval n ≠ 0 → (io_result_encode r).1 ++ rest = wire n ++ t →
  io_result_decode (T := T) ((io_result_encode r).1 ++ rest) = (Err (OsError (as_i32 n)), t).
Proof.
  intros Hn ->. unfold io_result_decode.
  assert (wire n = wire (MkRlerror n)) as -> by (symmetry; apply app_nil_r).
  erewrite bind_ok by apply decode_rlerror. cbn [Rlerror_ecode].
  by destruct (Z.eqb_spec (uval n) 0).
Qed.

(** [from_bytes] inverts [to_bytes] on every value the decoder accepts, and
    [to_bytes] panics exactly on the values [encode] refuses. *)
Theorem to_bytes_from_bytes (x : T) :
  (decodable x = true → ∃ buf, to_bytes x = Some buf ∧ from_bytes buf = Ok x) ∧
  (to_bytes x = None ↔ encodable x = false).
Proof.
  unfold to_bytes, from_bytes. split.
  - intros Hx. rewrite encode_wire by auto with wire. exists (wire x). split; [done|].
    rewrite <- (app_nil_r (wire x)). by rewrite decode_wire.
  - destruct (encodable x) eqn:Hx.
    + by rewrite encode_wire.
    + pose proof (encode_refused x Hx). destruct (encode x) as [buf []]; naive_solver.
Qed.

End facts.

(** The names of the versions: parsing accepts exactly the names that are
    printed, so that printing and parsing are inverse of each other. *)
Theorem version_names (s : string) (v : Version) :
  Version_from_str s = Some v ↔ Version_into v = s.
Proof.
  unfold Version_from_str. repeat (case_bool_decide; [destruct v; naive_solver|]).
  destruct v; naive_solver.
Qed.
