(* ===== verification/Protocol.v ===== *)
(** * The attribute macro [protocol]:
    [jetstream/third_party/p9_wire_format_derive/src/protocol.rs]

    The macro turns a trait into a remote procedure call protocol: it numbers the
    methods, generates a request and a reply structure for each, the frames that
    carry them, and a dispatcher.  A trait is a list of items; the generated code
    is a function of that list.  The names of the methods are not modelled: they
    are taken to be distinct identifiers of one word each, which the conversions of
    case turn into identifiers again (another name stops the compilation). *)

From S2P Require Import Prelude StdIo WireFormat Derive Os.

(** ** Traits *)

(** A type that has a wire format. *)
Record fmt := MkFmt {
  fty :> Type;
  ffmt :: WireFormat fty;
  flaws :: WireFormatLaws fty
}.

(** A method: the type of its argument besides [self], and its return type, if it
    has one.  The macro separates several arguments by no comma, so that the code it generates
    is well-formed for one argument at most. *)
Record method := MkMethod { m_arg : option fmt; m_ret : option fmt }.

(** [TraitItem::Fn] or another item. *)
Inductive trait_item := ItemFn (m : method) | ItemOther.

(** ** Message identifiers *)

Definition MESSAGE_ID_START : Z := 101.

(** [generate_msg_id]: the constants of the method at [index].  [None] where an
    addition of the constants, or the multiplication in the macro, overflows
    [u8], which stops the compilation. *)
Definition generate_msg_id (index : nat) : option (Z * Z) :=
  let offset := 2 * (Z.of_nat index mod 256) in
  if (offset <? 256) && (MESSAGE_ID_START + offset + 1 <? 256)
  then Some (MESSAGE_ID_START + offset, MESSAGE_ID_START + offset + 1)
  else None.

(** ** The generated structures *)

(** The fields that follow the tag. *)
Definition payload (t : option fmt) : Type :=
  match t with Some t => t ** fnil | None => fnil end.

#[global] Instance payload_seq t : FieldSeq (payload t).
Proof. destruct t; apply _. Defined.
#[global] Instance payload_laws t : FieldSeqLaws (payload t).
Proof. destruct t; apply _. Defined.

(** [generate_input_struct] and [generate_return_struct]: a structure that
    starts with a tag, with the derived format. *)
Definition tagged (t : option fmt) : Type := u16 ** payload t.

#[global] Instance tagged_format t : WireFormat (tagged t) :=
  p9_wire_format_inner (λ x : tagged t, x) (λ x, x).
#[global] Instance tagged_laws t : WireFormatLaws (tagged t).
Proof. by apply derive_laws. Defined.

Definition tagged_fmt (t : option fmt) : fmt := MkFmt (tagged t) _ _.

(** ** Frames: [generate_frame] *)

(** The messages of one direction: their identifiers and their types. *)
Abbreviation variants := (list (Z * fmt)).

(** The generated enumeration. *)
Fixpoint message (vs : variants) : Type :=
  match vs with
  | [] => Empty_set
  | v :: vs => fty v.2 + message vs
  end.

Fixpoint message_byte_size (vs : variants) : message vs → u32 :=
  match vs with
  | [] => λ msg, match msg with end
  | v :: vs => λ msg,
      match msg with inl x => byte_size x | inr msg => message_byte_size vs msg end
  end.

Fixpoint message_ty (vs : variants) : message vs → Z :=
  match vs with
  | [] => λ msg, match msg with end
  | v :: vs => λ msg, match msg with inl _ => v.1 | inr msg => message_ty vs msg end
  end.

Fixpoint message_encode (vs : variants) : message vs → enc :=
  match vs with
  | [] => λ msg, match msg with end
  | v :: vs => λ msg,
      match msg with inl x => encode x | inr msg => message_encode vs msg end
  end.

(** [decode_message]: the arms are tried in order. *)
Fixpoint decode_message (vs : variants) (ty : Z) : reader (message vs) :=
  match vs with
  | [] => rfail (KindError InvalidData)
  | v :: vs =>
      if ty =? v.1 then inl <$> (decode : reader (fty v.2))
      else inr <$> decode_message vs ty
  end.

Record frame (vs : variants) := MkFrame { frame_tag : u16; frame_msg : message vs }.
Arguments MkFrame {vs} _ _.
Arguments frame_tag {vs} _.
Arguments frame_msg {vs} _.

Section frame.
Context {vs : variants}.

Definition PFRAME_HEADER : Z := 4 + 1 + 2.

Definition frame_byte_size (f : frame vs) : u32 :=
  uadd (U32 PFRAME_HEADER) (message_byte_size vs (frame_msg f)).

Definition frame_encode (f : frame vs) : enc :=
  encode (frame_byte_size f) ;;? encode (U8 (message_ty vs (frame_msg f))) ;;?
  encode (frame_tag f) ;;? message_encode vs (frame_msg f).

Definition frame_decode_body : reader (frame vs) :=
  ty ← (decode : reader u8);
  tag ← (decode : reader u16);
  msg ← decode_message vs (uval ty);
  mret (MkFrame tag msg).

Definition frame_decode : reader (frame vs) :=
  size ← (decode : reader u32);
  if uval size <? 4 then rfail (KindError InvalidData)
  else with_take (uval size - 4) frame_decode_body.

End frame.
Arguments frame_decode : clear implicits.
Arguments frame_decode_body : clear implicits.

(** ** The protocol: [generate_jetstream_prococol] *)

(** [tmsgs] and [rmsgs]: the methods with their identifiers, numbered by their
    position among all the items of the trait. *)
Fixpoint numbered (index : nat) (items : list trait_item) : option (list (Z * Z * method)) :=
  match items with
  | [] => Some []
  | ItemOther :: items => numbered (S index) items
  | ItemFn m :: items =>
      '(t, r) ← generate_msg_id index;
      ms ← numbered (S index) items;
      Some ((t, r, m) :: ms)
  end.

(** The function that calls a method: it makes the reply of the tag and the result,
    [Rname(tag, ..)], which is ill-typed for a method without a return type, as the
    structure [Rname] has no field for the result then. *)
Record call := MkCall { c_arg : option fmt; c_ret : fmt }.

Definition generate_call (m : method) : option call :=
  ret ← m_ret m; Some (MkCall (m_arg m) ret).

Abbreviation calls := (list (Z * Z * call)).

Definition tmsgs (ms : calls) : variants := map (λ '(t, r, m), (t, tagged_fmt (c_arg m))) ms.
Definition rmsgs (ms : calls) : variants := map (λ '(t, r, m), (r, tagged_fmt (Some (c_ret m)))) ms.

(** The arms of [rpc]: one for each request, zipped with one body for each item
    of the trait.  A body that is empty is a syntax error. *)
Fixpoint zip_arms (ms : list method) (items : list trait_item) : option (list (method * method)) :=
  match ms, items with
  | m :: ms, ItemFn body :: items => cons (m, body) <$> zip_arms ms items
  | _ :: _, ItemOther :: _ => None
  | _, _ => Some []
  end.

(** The methods the trait offers, if the generated code compiles. *)
Definition generate_protocol (items : list trait_item) : option calls :=
  ms ← numbered 0 items;
  arms ← zip_arms (map snd ms) items;
  mapM (λ '(t, r, m), c ← generate_call m; Some (t, r, c)) ms.

(** ** The dispatcher *)

Section rpc.
Context {S : Type}.

(** An implementation of the trait. *)
Fixpoint methods (ms : calls) : Type :=
  match ms with
  | [] => ()
  | (_, _, m) :: ms => (payload (c_arg m) → S → c_ret m * S) * methods ms
  end.

(** [rpc]: the reply carries the tag of the frame, in the frame and in the
    structure. *)
Fixpoint rpc_msg (ms : calls) :
    methods ms → u16 → message (tmsgs ms) → S → message (rmsgs ms) * S :=
  match ms with
  | [] => λ _ _ msg, match msg with end
  | (_, _, m) :: ms => λ impl tag msg s,
      match msg with
      | inl req => let '(res, s') := impl.1 (ftail req) s in (inl (tag :* res :* FNil), s')
      | inr msg => let '(r, s') := rpc_msg ms impl.2 tag msg s in (inr r, s')
      end
  end.

Definition rpc (ms : calls) (impl : methods ms) (req : frame (tmsgs ms)) (s : S) :
    frame (rmsgs ms) * S :=
  let '(r, s') := rpc_msg ms impl (frame_tag req) (frame_msg req) s in
  (MkFrame (frame_tag req) r, s').

(** [handle]: the rest of the reader, the bytes written and the result. *)
Definition protocol_handle (ms : calls) (impl : methods ms) (input : list u8) (s : S) :
    io_result () * list u8 * list u8 * S :=
  match frame_decode (tmsgs ms) input with
  | (Err e, rest) => (Err e, rest, [], s)
  | (Ok req, rest) =>
      let '(res, s') := rpc ms impl req s in
      let '(bytes, r) := frame_encode res in
      (r, rest, bytes, s')
  end.

End rpc.

(** ** Correctness of the generated code *)

Fixpoint message_wire (vs : variants) : message vs → list u8 :=
  match vs with
  | [] => λ msg, match msg with end
  | v :: vs => λ msg, match msg with inl x => wire x | inr msg => message_wire vs msg end
  end.

Fixpoint message_encodable (vs : variants) : message vs → bool :=
  match vs with
  | [] => λ msg, match msg with end
  | v :: vs => λ msg,
      match msg with inl x => encodable x | inr msg => message_encodable vs msg end
  end.

Fixpoint message_decodable (vs : variants) : message vs → bool :=
  match vs with
  | [] => λ msg, match msg with end
  | v :: vs => λ msg,
      match msg with inl x => decodable x | inr msg => message_decodable vs msg end
  end.

Lemma message_byte_size_wire vs msg :
  message_byte_size vs msg = U32 (lengthZ (message_wire vs msg)).
Proof. induction vs as [|v vs IH]; destruct msg; cbn; [apply byte_size_wire|apply IH]. Qed.

Lemma message_decodable_encodable vs msg :
  message_decodable vs msg = true → message_encodable vs msg = true.
Proof. induction vs as [|v vs IH]; destruct msg; cbn; [auto with wire|apply IH]. Qed.

Lemma message_encode_wire vs msg :
  message_encodable vs msg = true → message_encode vs msg = (message_wire vs msg, Ok ()).
Proof. induction vs as [|v vs IH]; destruct msg; cbn; [apply encode_wire|apply IH]. Qed.

Lemma message_ty_in vs msg : message_ty vs msg ∈ vs.*1.
Proof.
  induction vs as [|v vs IH]; destruct msg; cbn; apply elem_of_cons; [by left|right; apply IH].
Qed.

(** The identifiers select the right decoder. *)
Lemma decode_message_wire vs msg rest :
  NoDup vs.*1 → message_decodable vs msg = true →
  decode_message vs (message_ty vs msg) (message_wire vs msg ++ rest) = (Ok msg, rest).
Proof.
  induction vs as [|v vs IH]; [destruct msg|]. destruct msg as [x|msg]; cbn; intros Hids Hdec.
  - rewrite Z.eqb_refl. by apply fmap_ok, decode_wire.
  - apply NoDup_cons in Hids as [Hv Hids]. pose proof (message_ty_in vs msg).
    destruct (Z.eqb_spec (message_ty vs msg) v.1); [congruence|]. by apply fmap_ok, IH.
Qed.

Definition byte_ids (vs : variants) : Prop := Forall (λ i, 0 <= i < 256) vs.*1.

Definition pframe_wire {vs} (f : frame vs) : list u8 :=
  wire (U32 (PFRAME_HEADER + lengthZ (message_wire vs (frame_msg f)))) ++
  wire (U8 (message_ty vs (frame_msg f))) ++ wire (frame_tag f) ++
  message_wire vs (frame_msg f).

Definition pframe_fits {vs} (f : frame vs) : Prop :=
  PFRAME_HEADER + lengthZ (message_wire vs (frame_msg f)) < 2 ^ 32.

Lemma frame_encode_wire {vs} (f : frame vs) :
  message_encodable vs (frame_msg f) = true → frame_encode f = (pframe_wire f, Ok ()).
Proof.
  intros Hm. unfold frame_encode, frame_byte_size, pframe_wire.
  rewrite message_byte_size_wire. unfold uadd. rewrite to_uint_add_l, to_uint_add_r.
  by rewrite !encode_wire, message_encode_wire.
Qed.

Lemma frame_decode_body_wire {vs} (f : frame vs) rest :
  NoDup vs.*1 → byte_ids vs → message_decodable vs (frame_msg f) = true →
  frame_decode_body vs (wire (U8 (message_ty vs (frame_msg f))) ++ wire (frame_tag f) ++
    message_wire vs (frame_msg f) ++ rest) = (Ok f, rest).
Proof.
  intros Hids Hbyte Hm. unfold frame_decode_body.
  erewrite bind_ok by by apply decode_wire. erewrite bind_ok by by apply decode_wire.
  pose proof (proj1 (Forall_forall _ _) Hbyte _ (message_ty_in vs (frame_msg f))) as Hty.
  cbn beta in Hty.   rewrite uval_to_uint_small by (change (2 ^ Z.of_N 8) with 256; lia).
  erewrite bind_ok by by apply decode_message_wire. by destruct f.
Qed.

Lemma frame_decode_wire {vs} (f : frame vs) rest :
  NoDup vs.*1 → byte_ids vs → message_decodable vs (frame_msg f) = true → pframe_fits f →
  frame_decode vs (pframe_wire f ++ rest) = (Ok f, rest).
Proof.
  intros Hids Hbyte Hm Hfits. unfold frame_decode, pframe_wire. rewrite <- app_assoc.
  erewrite bind_ok by apply decode_u32. unfold pframe_fits in Hfits.
  pose proof (lengthZ_nonneg (message_wire vs (frame_msg f))).
  rewrite uval_to_uint_small by (unfold PFRAME_HEADER in *; cbn; lia).
  destruct (Z.ltb_spec (PFRAME_HEADER + lengthZ (message_wire vs (frame_msg f))) 4);
    [unfold PFRAME_HEADER in *; lia|].
  apply with_take_exact.
  - rewrite !lengthZ_app, lengthZ_wire_u16. change (lengthZ (wire (U8 ?x))) with 1.
    unfold PFRAME_HEADER. lia.
  - rewrite <- (app_nil_r (message_wire vs (frame_msg f))) at 1.
    by apply frame_decode_body_wire.
Qed.

(** *** Identifiers *)

Lemma generate_msg_id_spec index t r :
  (index < 256)%nat → generate_msg_id index = Some (t, r) →
  t = 101 + 2 * Z.of_nat index ∧ r = t + 1 ∧ (index <= 76)%nat.
Proof.
  unfold generate_msg_id, MESSAGE_ID_START. intros Hi H. rewrite Z.mod_small in H by lia.
  case_match eqn:E; [|done]. apply andb_true_iff in E as [E1%Z.ltb_lt E2%Z.ltb_lt].
  injection H as <- <-. lia.
Qed.

(** If the arms of the dispatcher are well-formed, the methods come first in the
    trait and each arm calls the method of its own request. *)
Lemma zip_arms_prefix index items ms arms :
  numbered index items = Some ms → zip_arms (map snd ms) items = Some arms →
  (∃ others, items = map ItemFn (map snd ms) ++ others) ∧ arms = map (λ m, (m.2, m.2)) ms.
Proof.
  revert index ms arms. induction items as [|[m|] items IH]; intros index ms arms Hn Hz; cbn in Hn.
  - injection Hn as <-. injection Hz as <-. split; [by exists []|done].
  - destruct (generate_msg_id index) as [[t r]|]; [|done]. cbn in Hn.
    destruct (numbered (S index) items) as [ms'|] eqn:Hn'; [|done]. injection Hn as <-.
    cbn in Hz. destruct (zip_arms (map snd ms') items) as [arms'|] eqn:Hz'; [|done].
    injection Hz as <-. destruct (IH _ _ _ Hn' Hz') as [[others ->] ->].
    split; [by exists others|done].
  - destruct ms as [|m ms]; [|done]. injection Hz as <-. split; [by exists (ItemOther :: items)|done].
Qed.

Definition all_ids {A} (ms : list (Z * Z * A)) : list Z :=
  concat (map (λ m, [m.1.1; m.1.2]) ms).

Lemma numbered_ids index ms0 others ms :
  (index < 256)%nat → length ms = length ms0 →
  numbered index (map ItemFn ms0 ++ others) = Some ms →
  Forall (λ i, 101 + 2 * Z.of_nat index <= i <= 255) (all_ids ms) ∧ NoDup (all_ids ms).
Proof.
  revert index ms. induction ms0 as [|m ms0 IH]; intros index ms Hi Hlen Hn.
  { apply length_zero_iff_nil in Hlen as ->. split; constructor. }
  cbn in Hn. destruct (generate_msg_id index) as [[t r]|] eqn:Hid; [|done]. cbn in Hn.
  destruct (numbered (S index) _) as [ms'|] eqn:Hn'; [|done]. injection Hn as <-.
  apply generate_msg_id_spec in Hid as (-> & -> & Hi'); [|done].
  destruct (IH (S index) ms') as [Hr Hnd]; [lia|by injection Hlen|done|].
  assert (Forall (λ i, 103 + 2 * Z.of_nat index <= i <= 255) (all_ids ms')) as Hr'.
  { eapply Forall_impl; [exact Hr|]. cbn beta. intros i. lia. }
  unfold all_ids in *. cbn [map concat app fst snd]. split.
  - repeat constructor; [lia..|]. eapply Forall_impl; [exact Hr'|]. cbn beta. intros i. lia.
  - rewrite Forall_forall in Hr'. apply NoDup_cons. split.
    { intros [?|H%Hr']%elem_of_cons; lia. }
    apply NoDup_cons. split; [intros H%Hr'; lia|done].
Qed.

(** The numbered methods and the calls made of them. *)
Definition called (x : Z * Z * method) (y : Z * Z * call) : Prop :=
  x.1 = y.1 ∧ generate_call x.2 = Some y.2.

Lemma generate_protocol_inv items ms :
  generate_protocol items = Some ms →
  ∃ ms0 others, numbered 0 items = Some ms0 ∧ items = map ItemFn (map snd ms0) ++ others ∧ Forall2 called ms0 ms.
Proof.
  unfold generate_protocol. destruct (numbered 0 items) as [ms0|] eqn:Hn; [|done]. cbn.
  destruct (zip_arms (map snd ms0) items) as [arms|] eqn:Hz; [|done]. cbn. intros Hm%mapM_Some.
  destruct (zip_arms_prefix _ _ _ _ Hn Hz) as [[others Hitems] _]. exists ms0, others. split_and!; [done..|].
  eapply Forall2_impl; [exact Hm|]. intros [[t r] m] y Hy. cbn in Hy.
  destruct (generate_call m) eqn:Hc; [|done]. by injection Hy as <-.
Qed.

Lemma called_ids ms0 ms : Forall2 called ms0 ms → all_ids ms0 = all_ids ms.
Proof.
  unfold all_ids. induction 1 as [|x y ms0 ms [Hid _] _ IH]; [done|]. cbn [map concat].
  by rewrite Hid, IH.
Qed.

Lemma protocol_ids items ms :
  generate_protocol items = Some ms →
  Forall (λ i, 101 <= i <= 255) (all_ids ms) ∧ NoDup (all_ids ms).
Proof.
  intros (ms0 & others & Hn & -> & Hc)%generate_protocol_inv. rewrite <- (called_ids _ _ Hc).
  apply (numbered_ids 0 (map snd ms0) others); [lia|by rewrite length_map|done].
Qed.

(** The method at position [i] has the identifiers [101 + 2 i] and [102 + 2 i]. *)
Lemma numbered_at index ms0 others ms i t r m :
  (index < 256)%nat → length ms = length ms0 →
  numbered index (map ItemFn ms0 ++ others) = Some ms → ms !! i = Some (t, r, m) →
  t = 101 + 2 * Z.of_nat (index + i) ∧ r = t + 1.
Proof.
  revert index ms i. induction ms0 as [|m0 ms0 IH]; intros index ms i Hi Hlen Hn Hl.
  { by apply length_zero_iff_nil in Hlen as ->. }
  cbn in Hn. destruct (generate_msg_id index) as [[t0 r0]|] eqn:Hid; [|done]. cbn in Hn.
  destruct (numbered (S index) _) as [ms'|] eqn:Hn'; [|done]. injection Hn as <-.
  apply generate_msg_id_spec in Hid as (-> & -> & Hi'); [|done]. destruct i as [|i]; cbn in Hl.
  - injection Hl as <- <- <-. split; [|done]. lia.
  - destruct (IH (S index) ms' i) as [-> ->]; [lia|by injection Hlen|done..|]. lia.
Qed.

Lemma protocol_at items ms i t r c :
  generate_protocol items = Some ms → ms !! i = Some (t, r, c) →
  t = 101 + 2 * Z.of_nat i ∧ r = 102 + 2 * Z.of_nat i.
Proof.
  intros (ms0 & others & Hn & -> & Hc)%generate_protocol_inv Hi.
  destruct (Forall2_lookup_r _ _ _ _ _ Hc Hi) as ([[t0 r0] m] & Hi0 & [Hid _]). injection Hid as -> ->.
  destruct (numbered_at 0 (map snd ms0) others ms0 i t r m) as [-> ->]; [lia|by rewrite length_map|done..|]. lia.
Qed.

(** The identifier of a method in one direction. *)
Definition msg_id {A} (reply : bool) (m : Z * Z * A) : Z := if reply then m.1.2 else m.1.1.

Lemma tmsgs_ids ms : (tmsgs ms).*1 = map (msg_id false) ms.
Proof. induction ms as [|[[t r] m] ms IH]; [done|]. cbn. f_equal. exact IH. Qed.
Lemma rmsgs_ids ms : (rmsgs ms).*1 = map (msg_id true) ms.
Proof. induction ms as [|[[t r] m] ms IH]; [done|]. cbn. f_equal. exact IH. Qed.

Lemma elem_of_all_ids {A} (ms : list (Z * Z * A)) b i : i ∈ map (msg_id b) ms → i ∈ all_ids ms.
Proof.
  induction ms as [|m ms IH]; intros Hi; [by apply elem_of_nil in Hi|].
  unfold all_ids in *. cbn [map concat app] in *. rewrite !elem_of_cons.
  apply elem_of_cons in Hi as [->|Hi]; [destruct b; tauto|]. auto.
Qed.

Lemma msg_id_NoDup {A} (ms : list (Z * Z * A)) b : NoDup (all_ids ms) → NoDup (map (msg_id b) ms).
Proof.
  induction ms as [|m ms IH]; cbn; intros H; [constructor|].
  unfold all_ids in H. cbn [map concat app] in H.
  apply NoDup_cons in H as [H1 H]. apply NoDup_cons in H as [H2 H].
  apply NoDup_cons. split; [|by apply IH].
  intros Hin%elem_of_all_ids. destruct b; [by apply H2|]. apply H1, elem_of_cons. by right.
Qed.

Lemma protocol_variants items ms :
  generate_protocol items = Some ms →
  (NoDup (tmsgs ms).*1 ∧ byte_ids (tmsgs ms)) ∧ (NoDup (rmsgs ms).*1 ∧ byte_ids (rmsgs ms)).
Proof.
  intros [Hr Hnd]%protocol_ids. unfold byte_ids. rewrite tmsgs_ids, rmsgs_ids.
  assert (∀ b, Forall (λ i, 0 <= i < 256) (map (msg_id b) ms)) as Hb.
  { intros b. apply Forall_forall. intros i Hi%elem_of_all_ids.
    apply (proj1 (Forall_forall _ _) Hr) in Hi. cbn beta in Hi. lia. }
  auto using msg_id_NoDup.
Qed.

(** The method at position [i] of an implementation, and the variants of its
    request and of its reply. *)
Inductive serves {S} : ∀ (ms : calls) (impl : methods (S := S) ms) (i : nat) (c : call),
    (payload (c_arg c) → S → c_ret c * S) → (tagged (c_arg c) → message (tmsgs ms)) →
    (tagged (Some (c_ret c)) → message (rmsgs ms)) → Prop :=
  | serves_here t r c ms m (impl : methods ms) :
      serves ((t, r, c) :: ms) (m, impl) 0 c m inl inl
  | serves_there t r c' m' ms (impl : methods ms) i c m req rep :
      serves ms impl i c m req rep →
      serves ((t, r, c') :: ms) (m', impl) (Datatypes.S i) c m (λ x, inr (req x)) (λ x, inr (rep x)).

Lemma serves_lookup {S} ms (impl : methods (S := S) ms) i c m req rep :
  serves ms impl i c m req rep →
  ∃ t r, ms !! i = Some (t, r, c) ∧
  (∀ x, message_ty (tmsgs ms) (req x) = t) ∧ (∀ x, message_ty (rmsgs ms) (rep x) = r).
Proof.
  induction 1 as [t r|t r c' m' ms' impl' i' c0 m0 req0 rep0 _ (t1 & r1 & Hi & Ht & Hr)].
  - by exists t, r.
  - by exists t1, r1.
Qed.

Lemma serves_message {S} ms (impl : methods (S := S) ms) i c m req rep x y :
  serves ms impl i c m req rep →
  message_wire (tmsgs ms) (req x) = wire x ∧ message_decodable (tmsgs ms) (req x) = decodable x ∧
  message_wire (rmsgs ms) (rep y) = wire y ∧ message_decodable (rmsgs ms) (rep y) = decodable y.
Proof. induction 1 as [t r|t r c' m' ms' impl' i' c0 m0 req0 rep0 _ IH]; [done|]. apply IH. Qed.

Lemma serves_runs {S} ms (impl : methods (S := S) ms) i c m req rep tag x s :
  serves ms impl i c m req rep →
  rpc_msg ms impl tag (req x) s = let '(res, s') := m (ftail x) s in (rep (tag :* res :* FNil), s').
Proof.
  induction 1 as [t r|t r c' m' ms' impl' i' c0 m0 req0 rep0 _ IH]; cbn.
  - by destruct (m (ftail x) s).
  - rewrite IH. by destruct (m0 (ftail x) s).
Qed.

(** The identifiers a trait gets are distinct bytes from 101 on, requests
    and replies included, so that a trait the macro accepts has at most 77
    methods; its methods come before its other items, and each arm of the
    dispatcher calls the method whose request it matches. *)
Theorem protocol_well_numbered items ms :
  generate_protocol items = Some ms →
  NoDup (all_ids ms) ∧ Forall (λ i, 101 <= i <= 255) (all_ids ms) ∧
  (length ms <= 77)%nat ∧
  ∃ ms0, Forall2 called ms0 ms ∧ zip_arms (map snd ms0) items = Some (map (λ m, (m.2, m.2)) ms0).
Proof.
  intros H. destruct (protocol_ids items ms H) as [Hr Hnd]. split_and!; [done..| |].
  - assert (length (all_ids ms) = 2 * length ms)%nat as Hlen.
    { clear. unfold all_ids. induction ms; cbn in *; lia. }
    assert (length (all_ids ms) <= length (seqZ 101 155))%nat as Hle.
    { apply submseteq_length, NoDup_submseteq; [done|]. intros i Hi.
      apply elem_of_seqZ. apply (proj1 (Forall_forall _ _) Hr) in Hi. cbn beta in Hi. lia. }
    rewrite length_seqZ in Hle. lia.
  - destruct (generate_protocol_inv _ _ H) as (ms0 & others & Hn & _ & Hc). exists ms0. split; [done|].
    unfold generate_protocol in H. rewrite Hn in H. cbn in H.
    destruct (zip_arms (map snd ms0) items) as [arms|] eqn:Hz; [|done].
    f_equal. by destruct (zip_arms_prefix _ _ _ _ Hn Hz).
Qed.

(** The bytes of a frame: its size, the identifier of the message, the tag, and the
    structure of the message, which starts with a tag of its own. *)
Definition call_bytes {t} (id : Z) (tag : u16) (x : tagged t) : list u8 :=
  wire (U32 (7 + lengthZ (wire x))) ++ wire (U8 id) ++ wire tag ++ wire x.

(** What the decoder accepts and a frame has room for. *)
Definition sendable {t} (x : tagged t) : Prop := decodable x = true ∧ 7 + lengthZ (wire x) < 2 ^ 32.

(** C38. A remote call, for a trait whose methods come before its other items and have
    a return type each (for another one the generated code does not compile): when the
    bytes of a request for the method at position [i] arrive, under the identifier
    [101 + 2 i], [handle] calls this method on the argument of the request in the state
    it is in, takes the state the method leaves, and writes a frame with the identifier
    [102 + 2 i], the tag of the request and the result; the client decodes from these
    bytes that result under that tag.  Request and reply are values that the decoder
    accepts, of frames below 4 GiB. *)
Theorem protocol_call {S} items ms (impl : methods (S := S) ms) i c method req rep
    (tag tag' : u16) (arg : payload (c_arg c)) rest rest' s :
  generate_protocol items = Some ms → serves ms impl i c method req rep → sendable (tag' :* arg) →
  let '(res, s') := method arg s in
  let reply : tagged (Some (c_ret c)) := tag :* res :* FNil in
  sendable reply →
  protocol_handle ms impl (call_bytes (101 + 2 * Z.of_nat i) tag (t := c_arg c) (tag' :* arg) ++ rest) s =
    (Ok (), rest, call_bytes (102 + 2 * Z.of_nat i) tag reply, s') ∧
  frame_decode (rmsgs ms) (call_bytes (102 + 2 * Z.of_nat i) tag reply ++ rest') =
    (Ok (MkFrame tag (rep reply)), rest').
Proof.
  intros Hgen Hs [Hd Hf]. destruct (method arg s) as [res s'] eqn:Hm. intros reply [Hd' Hf'].
  destruct (protocol_variants items ms Hgen) as [[HT1 HT2] [HR1 HR2]].
  destruct (serves_lookup _ _ _ _ _ _ _ Hs) as (t & r & Hi & Ht & Hr).
  destruct (protocol_at _ _ _ _ _ _ Hgen Hi) as [-> ->].
  destruct (serves_message _ _ _ _ _ _ _ (tag' :* arg) reply Hs) as (Hw & Hdec & Hw' & Hdec').
  pose proof (serves_runs _ _ _ _ _ _ _ tag (tag' :* arg) s Hs) as Hrun. cbn [ftail] in Hrun. rewrite Hm in Hrun.
  assert (Hq : call_bytes (101 + 2 * Z.of_nat i) tag (t := c_arg c) (tag' :* arg) =
    pframe_wire (MkFrame (vs := tmsgs ms) tag (req (tag' :* arg)))).
  { unfold call_bytes, pframe_wire. cbn [frame_msg frame_tag]. by rewrite Ht, Hw. }
  assert (Hp : call_bytes (102 + 2 * Z.of_nat i) tag reply = pframe_wire (MkFrame (vs := rmsgs ms) tag (rep reply))).
  { unfold call_bytes, pframe_wire. cbn [frame_msg frame_tag]. by rewrite Hr, Hw'. }
  rewrite Hq, Hp. split.
  - unfold protocol_handle. rewrite frame_decode_wire; [|done..|by cbn; rewrite Hdec|by unfold pframe_fits; cbn; rewrite Hw].
    unfold rpc. cbn [frame_tag frame_msg]. rewrite Hrun. fold reply.
    by rewrite frame_encode_wire by (apply message_decodable_encodable; cbn; by rewrite Hdec').
  - apply frame_decode_wire; [done..|by cbn; rewrite Hdec'|by unfold pframe_fits; cbn; rewrite Hw'].
Qed.

(** ** An example: a counter *)

Definition u32_fmt : fmt := MkFmt u32 _ _.
Definition counter_items : list trait_item :=
  [ItemFn (MkMethod (Some u32_fmt) (Some u32_fmt)); ItemFn (MkMethod None (Some u32_fmt)); ItemOther].
Definition counter_ms : calls := default [] (generate_protocol counter_items).
Definition counter : methods (S := u32) counter_ms :=
  ((λ arg s, let s' := uadd s (fhead arg) in (s', s')), ((λ _ s, (s, s)), ())).

(** A method without a return type does not compile. *)
Example no_return_type_rejected : generate_protocol [ItemFn (MkMethod (Some u32_fmt) None)] = None.
Proof. reflexivity. Qed.

Lemma protocol_well_numbered_witness :
  NoDup (all_ids counter_ms) ∧ Forall (λ i, 101 <= i <= 255) (all_ids counter_ms) ∧
  (length counter_ms <= 77)%nat ∧
  ∃ ms0, Forall2 called ms0 counter_ms ∧ zip_arms (map snd ms0) counter_items = Some (map (λ m, (m.2, m.2)) ms0).
Proof. apply (protocol_well_numbered counter_items counter_ms). reflexivity. Defined.

(** The request adds 5 to the counter, which is 2. *)
Lemma protocol_call_witness :
  protocol_handle counter_ms counter
      (call_bytes 101 (U16 9) (t := Some u32_fmt) (U16 9 :* U32 5 :* FNil) ++ []) (U32 2) =
    (Ok (), [], call_bytes 102 (U16 9) (t := Some u32_fmt) (U16 9 :* U32 7 :* FNil), U32 7) ∧
  frame_decode (rmsgs counter_ms) (call_bytes 102 (U16 9) (t := Some u32_fmt) (U16 9 :* U32 7 :* FNil) ++ []) =
    (Ok (MkFrame (vs := rmsgs counter_ms) (U16 9) (inl (U16 9 :* U32 7 :* FNil))), []).
Proof.
  apply (protocol_call counter_items counter_ms counter 0 (MkCall (Some u32_fmt) u32_fmt) counter.1
    inl inl (U16 9) (U16 9) (U32 5 :* FNil) [] [] (U32 2)).
  - reflexivity.
  - exact (serves_here 101 102 (MkCall (Some u32_fmt) u32_fmt) (tail counter_ms) counter.1 counter.2).
  - split; [reflexivity|]. vm_compute. reflexivity.
  - split; [reflexivity|]. vm_compute. reflexivity.
Defined.
