(* ===== verification/Session.v ===== *)
(** * The session a client sees

    An abstract specification of the server of [jetstream/src/ufs/mod.rs]: a
    table that maps each fid to the kind of file it designates and whether it is
    open, and the negotiated message size.  [session_step] says which replies a
    request may get and what each does to the table; [dispatch_refines] shows
    that the handlers implement it, whatever the kernel answers. *)

From S2P Require Import Prelude StdIo WireFormat Derive MessageTypes Messages Os ReadDir Ufs.

(** ** The specification *)

(** The kind of the file, and whether the fid is open for input and output. *)
Abbreviation fid_state := (FileType * bool)%type.

Record session := MkSession { ses_fids : gmap u32 fid_state; ses_msize : u32 }.

Definition set_fid (S : session) (n : u32) (f : fid_state) : session :=
  MkSession (<[n := f]> (ses_fids S)) (ses_msize S).

(** The fids a request refers to, in the order the server looks them up. *)
Definition uses_fids (m : Tmessage) : list u32 :=
  match m with
  | TWalk m => [Twalk_fid m]
  | TRead m => [Tread_fid m]
  | TWrite m => [Twrite_fid m]
  | TClunk m => [Tclunk_fid m]
  | TStatfs m => [Tstatfs_fid m]
  | TLopen m => [Tlopen_fid m]
  | TLcreate m => [Tlcreate_fid m]
  | TReadlink m => [Treadlink_fid m]
  | TGetAttr m => [Tgetattr_fid m]
  | TSetAttr m => [Tsetattr_fid m]
  | TReaddir m => [Treaddir_fid m]
  | TFsync m => [Tfsync_fid m]
  | TLock m => [Tlock_fid m]
  | TGetLock m => [Tgetlock_fid m]
  | TLink m => [Tlink_fid m; Tlink_dfid m]
  | TMkdir m => [Tmkdir_dfid m]
  | TRenameAt m => [Trenameat_olddirfid m; Trenameat_newdirfid m]
  | TUnlinkAt m => [Tunlinkat_dirfd m]
  | _ => []
  end.

(** Requests that need the fid to be open. *)
Definition needs_open (m : Tmessage) : bool :=
  match m with
  | TRead _ | TWrite _ | TReaddir _ | TFsync _ | TLock _ | TGetLock _ => true
  | _ => false
  end.

(** Requests that never change the table. *)
Definition read_only (m : Tmessage) : bool :=
  match m with
  | TVersion _ | TAttach _ | TWalk _ | TClunk _ | TLopen _ | TLcreate _ => false
  | _ => true
  end.

(** Requests the server refuses whatever the state. *)
Definition unsupported (m : Tmessage) : bool :=
  match m with
  | TRemove _ | TAuth _ | TSymlink _ | TMknod _ | TRename _ | TXattrWalk _
  | TXattrCreate _ => true
  | _ => false
  end.

(** The fid is in the table, and open if the request needs that. *)
Definition usable (S : session) (m : Tmessage) (n : u32) : Prop :=
  ∃ ty op, ses_fids S !! n = Some (ty, op) ∧ (needs_open m = true → op = true).

Inductive session_step (S : session) : Tmessage → Rmessage → session → Prop :=
| step_error m e : session_step S m (RLerror e) S
| step_version m r :
    MIN_MESSAGE_SIZE <= uval (Tversion_msize m) →
    Rversion_msize r = umin (ses_msize S) (Tversion_msize m) →
    session_step S (TVersion m) (RVersion r) (MkSession ∅ (Rversion_msize r))
| step_attach m r ty :
    ses_fids S !! Tattach_fid m = None →
    session_step S (TAttach m) (RAttach r) (set_fid S (Tattach_fid m) (ty, false))
| step_walk_full m r ty :
    usable S (TWalk m) (Twalk_fid m) →
    Twalk_fid m = Twalk_newfid m ∨ ses_fids S !! Twalk_newfid m = None →
    lengthZ (Rwalk_wqids r) = lengthZ (Twalk_wnames m) →
    session_step S (TWalk m) (RWalk r) (set_fid S (Twalk_newfid m) (ty, false))
| step_walk_partial m r :
    usable S (TWalk m) (Twalk_fid m) →
    0 < lengthZ (Rwalk_wqids r) < lengthZ (Twalk_wnames m) →
    session_step S (TWalk m) (RWalk r) S
| step_clunk m :
    usable S (TClunk m) (Tclunk_fid m) →
    session_step S (TClunk m) RClunk
      (MkSession (delete (Tclunk_fid m) (ses_fids S)) (ses_msize S))
| step_lopen m r ty op :
    ses_fids S !! Tlopen_fid m = Some (ty, op) →
    session_step S (TLopen m) (RLopen r) (set_fid S (Tlopen_fid m) (ty, true))
| step_lcreate m r op :
    ses_fids S !! Tlcreate_fid m = Some (Directory, op) →
    session_step S (TLcreate m) (RLcreate r) (set_fid S (Tlcreate_fid m) (Regular, true))
(* the file was created and opened, but its path could not be looked up *)
| step_lcreate_half m e op :
    ses_fids S !! Tlcreate_fid m = Some (Directory, op) →
    session_step S (TLcreate m) (RLerror e) (set_fid S (Tlcreate_fid m) (Regular, true))
| step_read_only m r :
    read_only m = true → unsupported m = false →
    Rmessage_type r = Tmessage_type m + 1 →
    Forall (usable S m) (uses_fids m) →
    session_step S m r S.

(** ** Triples on the table of fids

    The kernel may do anything: [lift m] says nothing about its result. *)

Section rules.
Context {L : Libc} {K : Kernel}.

Definition hs {A} (P : Server → Prop) (m : srv A) (Q : A → Server → Prop)
    (E : Server → Prop) : Prop :=
  ∀ s k, P s →
    match m (s, k) with
    | (Done a, (s', _)) => Q a s'
    | (Fail _, (s', _)) => E s'
    | _ => True
    end.

Lemma hs_bind {A B} P Q R E (m : srv A) (f : A → srv B) :
  hs P m Q E → (∀ a, hs (Q a) (f a) R E) → hs P (m ≫= f) R E.
Proof.
  intros Hm Hf s k HP. specialize (Hm s k HP). unfold mbind, st_bind.
  destruct (m (s, k)) as [[a| | |] [s' k']]; [by apply Hf|done..].
Qed.

Lemma hs_ret {A} (P : Server → Prop) E (a : A) : hs P (mret a) (λ x s, x = a ∧ P s) E.
Proof. by intros s k. Qed.

Lemma hs_ret' {A} (P : Server → Prop) (Q : A → Server → Prop) E (a : A) :
  (∀ s, P s → Q a s) → hs P (mret a) Q E.
Proof. intros H s k. apply H. Qed.

Lemma hs_fail {A} (P : Server → Prop) Q E e : (∀ s, P s → E s) → hs P (fail e : srv A) Q E.
Proof. intros H s k. apply H. Qed.

Lemma hs_panic {A} (P : Server → Prop) Q E : hs P (panic : srv A) Q E.
Proof. by intros s k. Qed.

Lemma hs_of_result {A} (P E : Server → Prop) (r : io_result A) :
  (∀ s, P s → E s) → hs P (of_result r) (λ a s, r = Ok a ∧ P s) E.
Proof. intros H s k Hs. destruct r; [done|by apply H]. Qed.

Lemma hs_get_server P E : hs P get_server (λ s s', s' = s ∧ P s') E.
Proof. by intros s k. Qed.

Lemma hs_lift {A} (P E : Server → Prop) (m : kio A) :
  (∀ s, P s → E s) → hs P (lift m) (λ _ s, P s) E.
Proof.
  intros H s k HP. unfold lift. destruct (m k) as [[] k']; [done|by apply H|done..].
Qed.

Lemma hs_get_fid (P E : Server → Prop) n :
  (∀ s, P s → E s) → hs P (get_fid n) (λ f s, srv_fids s !! n = Some f ∧ P s) E.
Proof.
  intros H s k HP. unfold get_fid, mbind, st_bind, get_server. cbn.
  destruct (srv_fids s !! n) eqn:E'; [done|by apply H].
Qed.

Lemma hs_get_open_file (P E : Server → Prop) n :
  (∀ s, P s → E s) →
  hs P (get_open_file n) (λ f s, (srv_fids s !! n ≫= fid_file) = Some f ∧ P s) E.
Proof.
  intros H s k HP. unfold get_open_file, mbind at 1, st_bind, get_server. cbn.
  destruct (srv_fids s !! n ≫= fid_file) eqn:E'; [done|by apply H].
Qed.

Lemma hs_checked_sub (P E : Server → Prop) a b :
  hs P (checked_sub a b) (λ _ s, P s) E.
Proof. unfold checked_sub. case_match; [apply hs_panic|by apply hs_ret']. Qed.

Lemma hs_weaken {A} (P P' : Server → Prop) (Q Q' : A → Server → Prop) (E E' : Server → Prop)
    (m : srv A) :
  (∀ s, P' s → P s) → (∀ a s, Q a s → Q' a s) → (∀ s, E s → E' s) →
  hs P m Q E → hs P' m Q' E'.
Proof.
  intros HP HQ HE Hm s k Hs. specialize (Hm s k (HP s Hs)).
  destruct (m (s, k)) as [[] [s' k']]; auto.
Qed.

Lemma hs_put_fids (P : Server → Prop) (Q : Server → Prop) E fids :
  (∀ s, P s → Q (MkServer fids (srv_proc s) (srv_cfg s))) →
  hs P (put_fids fids) (λ _, Q) E.
Proof. intros H s k. apply H. Qed.

End rules.

(** ** The server implements the specification *)

Definition abs_fid (f : Fid) : fid_state := (fid_filetype f, bool_decide (is_Some (fid_file f))).

Definition abs (s : Server) : session :=
  MkSession (abs_fid <$> srv_fids s) (cfg_msize (srv_cfg s)).

Section refinement.
Context {L : Libc} {K : Kernel}.

Lemma abs_lookup s n f : srv_fids s !! n = Some f → ses_fids (abs s) !! n = Some (abs_fid f).
Proof. intros H. cbn. by rewrite lookup_fmap, H. Qed.

Lemma abs_lookup_none s n : srv_fids s !! n = None → ses_fids (abs s) !! n = None.
Proof. intros H. cbn. by rewrite lookup_fmap, H. Qed.

Lemma usable_fid s m n f :
  srv_fids s !! n = Some f → needs_open m = false → usable (abs s) m n.
Proof. intros H Hm. exists (fid_filetype f), (bool_decide (is_Some (fid_file f))). split; [by apply abs_lookup|]. congruence. Qed.

Lemma usable_open s m n g : (srv_fids s !! n ≫= fid_file) = Some g → usable (abs s) m n.
Proof.
  intros H. destruct (srv_fids s !! n) as [f|] eqn:E; [|done]. cbn in H.
  exists (fid_filetype f), true. split; [|done].
  apply abs_lookup in E as ->. unfold abs_fid. by rewrite H.
Qed.

Lemma drop_fid_done f k : ∃ k', drop_fid f k = (Done (), k').
Proof. unfold drop_fid, mbind, st_bind. cbn. destruct (fid_file f); cbn; by eexists. Qed.

Lemma drop_fids_done fs k : ∃ k', drop_fids fs k = (Done (), k').
Proof.
  revert k. induction fs as [|f fs IH]; intros k; cbn [drop_fids]; [by eexists|].
  unfold mbind, st_bind. destruct (drop_fid_done f k) as [k' ->]. apply IH.
Qed.

Lemma abs_insert s n f :
  abs (MkServer (<[n := f]> (srv_fids s)) (srv_proc s) (srv_cfg s)) = set_fid (abs s) n (abs_fid f).
Proof. unfold abs, set_fid. cbn. by rewrite fmap_insert. Qed.

Lemma hs_insert_fid s0 (P E : Server → Prop) n f :
  (∀ s, P s → s = s0) →
  hs P (insert_fid n f) (λ _ s, abs s = set_fid (abs s0) n (abs_fid f)) E.
Proof.
  intros HP s k ->%HP. unfold insert_fid, mbind, st_bind, get_server, put_fids. cbn.
  rewrite <- abs_insert. destruct (srv_fids s0 !! n) as [old|]; [|done].
  unfold lift. by destruct (drop_fid_done old k) as [k' ->].
Qed.

Lemma hs_set_file s0 (P E : Server → Prop) n f file ty :
  (∀ s, P s → s = s0) →
  hs P (set_file n f file ty)
    (λ f' s, f' = MkFid (fid_path f) (Some file) ty ∧ srv_fids s !! n = Some f' ∧
             abs s = set_fid (abs s0) n (ty, true)) E.
Proof.
  intros HP s k ->%HP. unfold set_file, mbind, st_bind, get_server, put_fids. cbn.
  assert (∀ g, (g, true) = abs_fid (MkFid (fid_path f) (Some file) g)) as Hg by done.
  rewrite (Hg ty), <- abs_insert.
  destruct (fid_file f); cbn; (split_and!; [done|apply lookup_insert_eq|done]).
Qed.

Lemma hs_set_path S (P E : Server → Prop) n f path :
  (∀ s, P s → srv_fids s !! n = Some f ∧ abs s = S) →
  hs P (set_path n f path) (λ _ s, abs s = S) E.
Proof.
  intros HP s k [Hn HS]%HP. unfold set_path, mbind, st_bind, get_server, put_fids. cbn.
  rewrite abs_insert, <- HS. unfold set_fid, abs. cbn. f_equal.
  apply insert_id. rewrite lookup_fmap, Hn. by destruct f.
Qed.

Definition walk_outcome (owned : bool) (mds : list stat64) (wnames : list rstring)
    (r : io_result File * list stat64) : Prop :=
  match r.1 with
  | Ok _ => lengthZ r.2 = lengthZ mds + lengthZ wnames
  | Err _ => (owned = false ∧ r.2 = mds) ∨ lengthZ r.2 < lengthZ mds + lengthZ wnames
  end.

(** A walk that returns a file has a [stat64] for every name; one that stops
    early has fewer. *)
Lemma do_walk_length fuel proc wnames cur owned cf mds k r k' :
  do_walk fuel proc wnames cur owned cf mds k = (Done r, k') → walk_outcome owned mds wnames r.
Proof.
  revert cur owned mds k. induction wnames as [|w wnames IH]; intros cur owned mds k;
    cbn [do_walk]; unfold mbind, st_bind, walk_outcome.
  { rewrite lengthZ_nil. destruct owned.
    - intros [= <- <-]. cbn. lia.
    - destruct (try_call _ k) as [[[]| | |] k1]; intros [= <- <-]; cbn; [lia|auto]. }
  rewrite lengthZ_cons.
  destruct (try_call _ k) as [[[f|e]| | |] k1]; [| |done..].
  - destruct (drop_maybe_owned owned cur k1) as [[] k2]; [|done..].
    destruct (try_call _ k2) as [[[md|e]| | |] k3]; [| |done..].
    + intros H%IH. unfold walk_outcome in H. rewrite lengthZ_app, lengthZ_cons, lengthZ_nil in H.
      destruct r.1; [lia|]. right. destruct H as [[??]|H]; [done|lia].
    + destruct (drop_file f k3) as [[] k4]; [|done..]. intros [= <- <-].
      pose proof (lengthZ_nonneg wnames). cbn. lia.
  - destruct (drop_maybe_owned owned cur k1) as [[] k2]; [|done..]. intros [= <- <-].
    pose proof (lengthZ_nonneg wnames). cbn. lia.
Qed.

Abbreviation is_server s0 := (λ s : Server, s = s0).

(** The handler leaves the table alone and succeeds only on usable fids. *)
Definition handler_reads {A} (m : Tmessage) (h : srv A) : Prop :=
  ∀ s0, hs (is_server s0) h (λ _ s, Forall (usable (abs s0) m) (uses_fids m) ∧ s = s0)
          (is_server s0).

Definition refines (m : Tmessage) (h : srv Rmessage) : Prop :=
  ∀ s0, hs (is_server s0) h (λ r s, session_step (abs s0) m r (abs s))
          (λ s, ∀ e, session_step (abs s0) m (RLerror e) (abs s)).

Lemma hs_map {A B} P Q E (f : A → B) (h : srv A) :
  hs P h (λ a, Q (f a)) E → hs P (st_map f h) Q E.
Proof. intros Hh. eapply hs_bind; [exact Hh|]. intros a. by apply hs_ret'. Qed.

Lemma refines_reads {A} m (f : A → Rmessage) (h : srv A) :
  read_only m = true → unsupported m = false →
  (∀ a, Rmessage_type (f a) = Tmessage_type m + 1) →
  handler_reads m h → refines m (st_map f h).
Proof.
  intros Hro Hsup Hty Hh s0. apply hs_map.
  eapply hs_weaken; [..|apply (Hh s0)]; cbn; [by intros s| |].
  - intros a s [HF ->]. by apply step_read_only.
  - intros s -> e. apply step_error.
Qed.

Lemma refines_fail {A} m (f : A → Rmessage) e : refines m (st_map f (fail e)).
Proof. intros s0. apply hs_map, hs_fail. intros s -> e'. apply step_error. Qed.

Lemma hs_lift_last {A} (P E : Server → Prop) (Q : A → Server → Prop) (m : kio A) :
  (∀ s, P s → E s) → (∀ a s, P s → Q a s) → hs P (lift m) Q E.
Proof.
  intros HE HQ. eapply hs_weaken; [..|apply (hs_lift P E)]; auto.
Qed.

Ltac solve_pre :=
  cbn beta; intros; destruct_and?; subst; first [done|apply step_error].
Ltac h_bind tac := eapply hs_bind; [tac; try solve [solve_pre]|cbn beta; intros ?].

(** The rule for the first computation of a sequence. *)
Ltac h_rule m :=
  lazymatch m with
  | get_fid _ => apply hs_get_fid
  | get_open_file _ => apply hs_get_open_file
  | get_server => apply hs_get_server
  | of_result _ => apply hs_of_result
  | checked_sub _ _ => apply hs_checked_sub
  | lift _ => apply hs_lift
  end.

(** Runs through a handler that only reads the table. *)
Ltac solve_reads :=
  intros s0;
  repeat match goal with
  | |- hs _ (?m ≫= _) _ _ => h_bind ltac:(idtac; h_rule m)
  | |- hs _ (mret _) _ _ => apply hs_ret'
  | |- hs _ (fail _) _ _ => apply hs_fail; solve_pre
  | |- hs _ (lift _) _ _ => apply hs_lift_last; [solve_pre|]
  | |- hs _ _ _ _ => case_match
  end.

Ltac finish_reads :=
  cbn beta; intros; destruct_and?; subst; split; [|done];
  repeat constructor; first [by eapply usable_open|by eapply usable_fid].

Lemma reads_read m : handler_reads (TRead m) (Server_read m).
Proof. unfold Server_read. solve_reads. finish_reads. Qed.
Lemma reads_write m : handler_reads (TWrite m) (Server_write m).
Proof. unfold Server_write. solve_reads. finish_reads. Qed.
Lemma reads_statfs m : handler_reads (TStatfs m) (Server_statfs m).
Proof. unfold Server_statfs. solve_reads. finish_reads. Qed.
Lemma reads_readlink m : handler_reads (TReadlink m) (Server_readlink m).
Proof. unfold Server_readlink. solve_reads. finish_reads. Qed.
Lemma reads_get_attr m : handler_reads (TGetAttr m) (Server_get_attr m).
Proof. unfold Server_get_attr. solve_reads. finish_reads. Qed.
Lemma reads_lock m : handler_reads (TLock m) (Server_lock m).
Proof. unfold Server_lock. solve_reads. finish_reads. Qed.
Lemma reads_get_lock m : handler_reads (TGetLock m) (Server_get_lock m).
Proof. unfold Server_get_lock. solve_reads. finish_reads. Qed.
Lemma reads_mkdir m : handler_reads (TMkdir m) (Server_mkdir m).
Proof. unfold Server_mkdir. solve_reads. finish_reads. Qed.
Lemma reads_fsync m : handler_reads (TFsync m) (Server_fsync m).
Proof. unfold Server_fsync. solve_reads; finish_reads. Qed.
Lemma reads_set_attr m : handler_reads (TSetAttr m) (Server_set_attr m).
Proof. unfold Server_set_attr. solve_reads. finish_reads. Qed.
Lemma reads_link m : handler_reads (TLink m) (Server_link m).
Proof. unfold Server_link. solve_reads. finish_reads. Qed.
Lemma reads_rename_at m : handler_reads (TRenameAt m) (Server_rename_at m).
Proof. unfold Server_rename_at. solve_reads. finish_reads. Qed.
Lemma reads_unlink_at m : handler_reads (TUnlinkAt m) (Server_unlink_at m).
Proof. unfold Server_unlink_at. solve_reads. finish_reads. Qed.

Lemma reads_readdir m : handler_reads (TReaddir m) (Server_readdir m).
Proof.
  unfold Server_readdir. solve_reads. cbn beta. intros s Hs. destruct_and? Hs. subst.
  split; [|done]. repeat constructor. apply (usable_open _ _ _ a2).
  match goal with H : srv_fids _ !! _ = Some _ |- _ => rewrite H end. cbn.
  destruct (fid_file a); [by simplify_eq/=|discriminate].
Qed.

(** *** Requests that change the table *)

Lemma refines_version m : refines (TVersion m) (st_map RVersion (Server_version m)).
Proof.
  intros s0. apply hs_map. intros s k ->. unfold Server_version.
  destruct (Z.ltb_spec (uval (Tversion_msize m)) MIN_MESSAGE_SIZE); [intros e; apply step_error|].
  unfold mbind, st_bind, get_server, put_fids, lift. cbn.
  destruct (drop_fids_done (btree_values (srv_fids s0)) k) as [k' ->]. cbn.
  assert (abs (MkServer ∅ (srv_proc s0) (MkConfig (cfg_root (srv_cfg s0))
    (umin (cfg_msize (srv_cfg s0)) (Tversion_msize m)) (cfg_uid_map (srv_cfg s0))
    (cfg_gid_map (srv_cfg s0)) (cfg_ascii_casefold (srv_cfg s0)))) =
    MkSession ∅ (umin (ses_msize (abs s0)) (Tversion_msize m))) as ->.
  { unfold abs. cbn. by rewrite fmap_empty. }
  by apply step_version.
Qed.

(** Reading the state when it is known. *)
Lemma hs_bind_get {A} s0 (P : Server → Prop) Q E (f : Server → srv A) :
  (∀ s, P s → s = s0) → hs P (f s0) Q E → hs P (get_server ≫= f) Q E.
Proof. intros HP Hf s k Hs. rewrite (HP s Hs). rewrite (HP s Hs) in Hs. by apply Hf. Qed.

Lemma refines_attach m : refines (TAttach m) (st_map RAttach (Server_attach m)).
Proof.
  intros s0. apply hs_map. unfold Server_attach. apply (hs_bind_get s0); [done|].
  destruct (srv_fids s0 !! Tattach_fid m) eqn:Hn; [apply hs_fail; solve_pre|].
  h_bind ltac:(apply hs_of_result). h_bind ltac:(apply hs_lift). h_bind ltac:(apply hs_lift).
  h_bind ltac:(apply (hs_insert_fid s0)).
  apply hs_ret'. intros s ->. apply step_attach, abs_lookup_none, Hn.
Qed.

Lemma refines_clunk m : refines (TClunk m) (st_map (λ _, RClunk) (Server_clunk m)).
Proof.
  intros s0. apply hs_map. unfold Server_clunk. apply (hs_bind_get s0); [done|].
  destruct (srv_fids s0 !! Tclunk_fid m) as [f|] eqn:Hn; [|apply hs_fail; solve_pre].
  intros s k ->. unfold mbind, st_bind, put_fids, lift. cbn.
  destruct (drop_fid_done f k) as [k' ->].
  assert (abs (MkServer (delete (Tclunk_fid m) (srv_fids s0)) (srv_proc s0) (srv_cfg s0)) =
    MkSession (delete (Tclunk_fid m) (ses_fids (abs s0))) (ses_msize (abs s0))) as ->.
  { unfold abs. cbn. by rewrite fmap_delete. }
  apply step_clunk. by eapply usable_fid.
Qed.

Lemma hs_bind_get_fid {A} s0 (E : Server → Prop) Q n (f : Fid → srv A) :
  E s0 → (∀ fid, srv_fids s0 !! n = Some fid → hs (is_server s0) (f fid) Q E) →
  hs (is_server s0) (get_fid n ≫= f) Q E.
Proof.
  intros HE Hf. apply (hs_bind _ (λ fid s, srv_fids s !! n = Some fid ∧ s = s0)).
  - apply hs_get_fid. by intros s ->.
  - intros fid s k [Hn ->]. by apply Hf.
Qed.

(** The kernel's computation may establish a fact about its result. *)
Lemma hs_bind_lift_post {A B} (φ : A → Prop) s0 (E : Server → Prop) Q (m : kio A)
    (f : A → srv B) :
  E s0 → (∀ k a k', m k = (Done a, k') → φ a) →
  (∀ a, φ a → hs (is_server s0) (f a) Q E) → hs (is_server s0) (lift m ≫= f) Q E.
Proof.
  intros HE Hm Hf s k ->. unfold mbind, st_bind, lift.
  destruct (m k) as [[] k'] eqn:Hk; [|done..]. by apply (Hf a (Hm _ _ _ Hk)).
Qed.

Lemma refines_lopen m : refines (TLopen m) (st_map RLopen (Server_lopen m)).
Proof.
  intros s0. apply hs_map. unfold Server_lopen.
  apply hs_bind_get_fid; [intros e; apply step_error|]. intros fid Hn.
  apply (hs_bind_get s0); [done|]. h_bind ltac:(apply hs_lift). h_bind ltac:(apply hs_lift).
  h_bind ltac:(apply (hs_set_file s0)). apply hs_ret'. intros s (-> & _ & ->).
  eapply step_lopen, abs_lookup, Hn.
Qed.

Lemma refines_lcreate m : refines (TLcreate m) (st_map RLcreate (Server_lcreate m)).
Proof.
  intros s0. apply hs_map. unfold Server_lcreate.
  apply hs_bind_get_fid; [intros e; apply step_error|]. intros fid Hn.
  destruct (bool_decide_reflect (fid_filetype fid = Directory)) as [Hty|];
    cbn [negb]; [|apply hs_fail; solve_pre].
  assert (∀ r, session_step (abs s0) (TLcreate m) (RLcreate r)
                 (set_fid (abs s0) (Tlcreate_fid m) (Regular, true))) as Hok.
  { intros r. eapply step_lcreate. rewrite (abs_lookup _ _ _ Hn). unfold abs_fid. by rewrite Hty. }
  assert (∀ e, session_step (abs s0) (TLcreate m) (RLerror e)
                 (set_fid (abs s0) (Tlcreate_fid m) (Regular, true))) as Herr.
  { intros e. eapply step_lcreate_half. rewrite (abs_lookup _ _ _ Hn). unfold abs_fid. by rewrite Hty. }
  h_bind ltac:(apply hs_of_result). h_bind ltac:(apply hs_lift). h_bind ltac:(apply hs_lift).
  h_bind ltac:(apply (hs_set_file s0)).
  h_bind ltac:(apply hs_lift); [intros s (-> & _ & ->); exact Herr|].
  h_bind ltac:(apply (hs_set_path (set_fid (abs s0) (Tlcreate_fid m) (Regular, true)))).
  apply hs_ret'. intros s ->. apply Hok.
Qed.

Lemma refines_walk fuel m : refines (TWalk m) (st_map RWalk (Server_walk fuel m)).
Proof.
  intros s0. apply hs_map. unfold Server_walk. apply (hs_bind_get s0); [done|].
  case_match eqn:Hnew; [apply hs_fail; solve_pre|].
  assert (Twalk_fid m = Twalk_newfid m ∨ ses_fids (abs s0) !! Twalk_newfid m = None) as Hfree.
  { apply andb_false_iff in Hnew as [Hnew|Hnew].
    - apply negb_false_iff, bool_decide_eq_true in Hnew. by left.
    - right. apply abs_lookup_none. by apply bool_decide_eq_false, eq_None_not_Some in Hnew. }
  apply hs_bind_get_fid; [intros e; apply step_error|]. intros fid Hn.
  assert (usable (abs s0) (TWalk m) (Twalk_fid m)) as Huse by by eapply usable_fid.
  eapply (hs_bind_lift_post (walk_outcome false [] (Twalk_wnames m)));
    [intros e; apply step_error|by intros k r k' Hk; eapply do_walk_length|].
  intros [[f|e] mds] Hout; unfold walk_outcome in Hout; cbn in Hout.
  - rewrite Hout, Z.eqb_refl.
    apply (hs_bind _ (λ _ s, ∃ ty, abs s = set_fid (abs s0) (Twalk_newfid m) (ty, false))).
    + apply (hs_bind _ (λ _, is_server s0)).
      { destruct (last mds); [by apply hs_ret'|apply hs_lift; solve_pre]. }
      intros st. eapply hs_weaken; [..|apply (hs_insert_fid s0 (is_server s0))];
        [done| |intros s Hs; exact Hs|done]. intros [] s ->. by eexists.
    + intros []. apply hs_ret'. intros s [ty ->].
      apply step_walk_full; [done..|]. cbn. by rewrite lengthZ_map.
  - apply (hs_bind _ (λ _ s, mds ≠ [] ∧ s = s0)).
    + destruct (bool_decide_reflect (mds = [])); [apply hs_fail; solve_pre|by apply hs_ret'].
    + intros []. apply hs_ret'. intros s [Hmds ->]. apply step_walk_partial; [done|].
      cbn. rewrite lengthZ_map. destruct Hout as [[_ Hout]|Hout]; [done|].
      destruct mds; [done|]. rewrite lengthZ_cons in *. pose proof (lengthZ_nonneg mds). rewrite lengthZ_nil in Hout. lia.
Qed.

(** Every request is answered as the specification allows. *)
Lemma dispatch_refines fuel m : refines m (dispatch fuel m).
Proof.
  destruct m; cbn [dispatch];
    first [ apply refines_version | apply refines_walk | apply refines_clunk
          | apply refines_attach | apply refines_lopen | apply refines_lcreate
          | apply refines_fail
          | apply refines_reads; [done..|] ];
    first [ apply reads_read | apply reads_write | apply reads_statfs | apply reads_readlink
          | apply reads_get_attr | apply reads_set_attr | apply reads_readdir | apply reads_fsync
          | apply reads_lock | apply reads_get_lock | apply reads_link | apply reads_mkdir
          | apply reads_rename_at | apply reads_unlink_at | idtac ].
  intros s0. by apply hs_ret'.
Qed.

Lemma handle_cases fuel tx s k r s' k' :
  handle fuel tx (s, k) = (Done r, (s', k')) →
  Rframe_tag r = Tframe_tag tx ∧
  match Tframe_msg tx with
  | Ok m =>
      (dispatch fuel m (s, k) = (Done (Rframe_msg r), (s', k'))) ∨
      (∃ e, dispatch fuel m (s, k) = (Fail e, (s', k')) ∧ Rframe_msg r = error_to_rmessage e)
  | Err _ => Rframe_msg r = error_to_rmessage (KindError InvalidData) ∧ s' = s ∧ k' = k
  end.
Proof.
  unfold handle, mbind, st_bind, try_call. destruct (Tframe_msg tx) as [m|e].
  - destruct (dispatch fuel m (s, k)) as [[] w]; cbn; [| |done..].
    + intros [= <- <-]. auto.
    + intros [= <- <-]. eauto.
  - intros [= <- <- <-]. done.
Qed.

Lemma handle_session fuel tx s k r s' k' :
  handle fuel tx (s, k) = (Done r, (s', k')) →
  Rframe_tag r = Tframe_tag tx ∧
  match Tframe_msg tx with
  | Ok m => session_step (abs s) m (Rframe_msg r) (abs s')
  | Err _ => Rframe_msg r = RLerror (MkRlerror (U32 EINVAL)) ∧ s' = s
  end.
Proof.
  intros [Htag H]%handle_cases. split; [done|]. destruct (Tframe_msg tx) as [m|].
  - pose proof (dispatch_refines fuel m s s k eq_refl) as Hm.
    destruct H as [H|(e & H & ->)]; rewrite H in Hm; [done|apply Hm].
  - by destruct H as (-> & -> & _).
Qed.

(** C1. A served request is answered under its own tag and as the abstract
    session allows: the reply is of the kind that belongs to the request or an
    error, and the table of fids and the message size change as
    [session_step] says; a frame whose body could not be decoded is answered
    with [EINVAL] and changes nothing. *)
Theorem handle_refines_session fuel tx s k r s' k' :
  handle fuel tx (s, k) = (Done r, (s', k')) →
  Rframe_tag r = Tframe_tag tx ∧
  match Tframe_msg tx with
  | Ok m => session_step (abs s) m (Rframe_msg r) (abs s')
  | Err _ => Rframe_msg r = RLerror (MkRlerror (U32 EINVAL)) ∧ s' = s
  end.
Proof. apply handle_session. Qed.

(** ** Sequences of requests *)

(** [served w log w']: from [w] the server answers the requests of [log] with
    the replies beside them and ends in [w']. *)
Inductive served (fuel : nat) : world → list (Tframe * Rframe) → world → Prop :=
| served_nil w : served fuel w [] w
| served_cons w tx r w1 log w' :
    handle fuel tx w = (Done r, w1) → served fuel w1 log w' →
    served fuel w ((tx, r) :: log) w'.

End refinement.

(** The same for the specification. *)
Inductive session_run (S : session) : list (Tframe * Rframe) → session → Prop :=
| run_nil : session_run S [] S
| run_step tx m r S1 log S' :
    Tframe_msg tx = Ok m → Rframe_tag r = Tframe_tag tx →
    session_step S m (Rframe_msg r) S1 → session_run S1 log S' →
    session_run S ((tx, r) :: log) S'
| run_bad tx e r e' log S' :
    Tframe_msg tx = Err e → Rframe_tag r = Tframe_tag tx → Rframe_msg r = RLerror e' →
    session_run S log S' → session_run S ((tx, r) :: log) S'.

(** The reply puts [n] in the table. *)
Definition establishes (n : u32) (x : Tframe * Rframe) : bool :=
  match Tframe_msg x.1, Rframe_msg x.2 with
  | Ok (TAttach m), RAttach _ => bool_decide (Tattach_fid m = n)
  | Ok (TWalk m), RWalk r =>
      bool_decide (Twalk_newfid m = n) && (lengthZ (Rwalk_wqids r) =? lengthZ (Twalk_wnames m))
  | _, _ => false
  end.

(** The reply takes [n] out of the table. *)
Definition retires (n : u32) (x : Tframe * Rframe) : bool :=
  match Tframe_msg x.1, Rframe_msg x.2 with
  | Ok (TClunk m), RClunk => bool_decide (Tclunk_fid m = n)
  | Ok (TVersion _), RVersion _ => true
  | _, _ => false
  end.

(** Whether [n] is in the table after the requests of [log]. *)
Fixpoint live (n : u32) (log : list (Tframe * Rframe)) (alive : bool) : bool :=
  match log with
  | [] => alive
  | x :: log => live n log (establishes n x || (alive && negb (retires n x)))
  end.

Definition in_table (S : session) (n : u32) : bool := bool_decide (is_Some (ses_fids S !! n)).

Lemma in_table_set_fid S n' f n :
  in_table (set_fid S n' f) n = bool_decide (n' = n) || in_table S n.
Proof.
  unfold in_table, set_fid. cbn. destruct (decide (n' = n)) as [->|Hn].
  - rewrite lookup_insert_eq, !bool_decide_eq_true_2 by done. done.
  - rewrite lookup_insert_ne, (bool_decide_eq_false_2 (n' = n)) by done. done.
Qed.

Lemma in_table_set_known S n' f f' n :
  ses_fids S !! n' = Some f' → in_table (set_fid S n' f) n = in_table S n.
Proof.
  intros Hn'. rewrite in_table_set_fid. destruct (decide (n' = n)) as [->|Hn].
  - unfold in_table. rewrite Hn', !bool_decide_eq_true_2 by done. done.
  - by rewrite (bool_decide_eq_false_2 (n' = n)).
Qed.

Lemma step_live S m r S1 n tx rx :
  session_step S m r S1 → Tframe_msg tx = Ok m → Rframe_msg rx = r →
  in_table S1 n = establishes n (tx, rx) || (in_table S n && negb (retires n (tx, rx))).
Proof.
  intros Hstep Htx Hrx. unfold establishes, retires. cbn [fst snd]. rewrite Htx, Hrx.
  destruct Hstep; cbn [negb]; rewrite ?andb_true_r, ?andb_false_r, ?orb_false_r.
  - destruct m; cbn; by rewrite ?andb_true_r.
  - done.
  - apply in_table_set_fid.
  - rewrite in_table_set_fid. by rewrite (proj2 (Z.eqb_eq _ _)), andb_true_r by done.
  - rewrite (proj2 (Z.eqb_neq _ _)) by lia. by rewrite andb_false_r.
  - unfold in_table. cbn. destruct (decide (Tclunk_fid m = n)) as [<-|Hn].
    + by rewrite lookup_delete_eq, (bool_decide_eq_true_2 (_ = _)), andb_false_r.
    + rewrite lookup_delete_ne, (bool_decide_eq_false_2 (_ = _)), andb_true_r by done. done.
  - by eapply in_table_set_known.
  - by eapply in_table_set_known.
  - by eapply in_table_set_known.
  - destruct m; cbn in *; try done; by rewrite ?andb_true_r.
Qed.

Lemma run_live S log S' n : session_run S log S' → in_table S' n = live n log (in_table S n).
Proof.
  induction 1 as [|S tx m r S1 log S' Htx Htag Hstep Hrun IH|S tx e r e' log S' Htx Htag Hr Hrun IH];
    [done|..]; cbn [live].
  - rewrite IH. f_equal. by eapply step_live.
  - rewrite IH. f_equal. unfold establishes, retires. cbn [fst snd]. by rewrite Htx, andb_true_r.
Qed.

Section traces.
Context {L : Libc} {K : Kernel}.

Lemma served_run fuel w log w' : served fuel w log w' → session_run (abs w.1) log (abs w'.1).
Proof.
  induction 1 as [|[s k] tx r [s1 k1] log w' Hh Hs IH]; [constructor|].
  apply handle_session in Hh as [Htag Hm]. destruct (Tframe_msg tx) as [m|e] eqn:Htx.
  - by eapply run_step.
  - destruct Hm as [Hr ->]. by eapply run_bad.
Qed.

(** C29. The client can compute from the transcript which fids the server
    holds: a fid is in the table at the end exactly if a successful attach or a
    complete walk put it there (or it was there at the start) and no clunk or
    version reply has removed it since. *)
Theorem served_fids_live fuel s k log s' k' n :
  served fuel (s, k) log (s', k') →
  bool_decide (is_Some (srv_fids s' !! n)) =
  live n log (bool_decide (is_Some (srv_fids s !! n))).
Proof.
  intros H%served_run. apply (run_live _ _ _ n) in H. unfold in_table in H. cbn in H.
  revert H. rewrite !lookup_fmap. by destruct (srv_fids s' !! n), (srv_fids s !! n).
Qed.

Lemma run_msize S log S' :
  session_run S log S' →
  uval (ses_msize S') <= uval (ses_msize S) ∧
  (MIN_MESSAGE_SIZE <= uval (ses_msize S) → MIN_MESSAGE_SIZE <= uval (ses_msize S')).
Proof.
  induction 1 as [|S tx m r S1 log S' Htx Htag Hstep Hrun IH|]; [lia| |done].
  enough (uval (ses_msize S1) <= uval (ses_msize S) ∧
    (MIN_MESSAGE_SIZE <= uval (ses_msize S) → MIN_MESSAGE_SIZE <= uval (ses_msize S1))) by lia.
  clear IH Hrun. destruct Hstep; cbn; try lia. rewrite H0. unfold umin. case_match; zbool; lia.
Qed.

(** Negotiation only ever lowers the message size, and it never falls
    below the 256 bytes of [MIN_MESSAGE_SIZE]. *)
Theorem served_msize fuel s k log s' k' :
  served fuel (s, k) log (s', k') →
  MIN_MESSAGE_SIZE <= uval (cfg_msize (srv_cfg s)) →
  MIN_MESSAGE_SIZE <= uval (cfg_msize (srv_cfg s')) <= uval (cfg_msize (srv_cfg s)).
Proof. intros H%served_run Hs. apply run_msize in H. cbn in H. lia. Qed.

Lemma bind_fail {S A B} (m : st S A) (f : A → st S B) s e s' :
  m s = (Fail e, s') → (m ≫= f) s = (Fail e, s').
Proof. unfold mbind, st_bind. by intros ->. Qed.

Lemma bind_get {A} (f : Server → srv A) s k : (get_server ≫= f) (s, k) = f s (s, k).
Proof. done. Qed.

Lemma get_fid_none n s k :
  srv_fids s !! n = None → get_fid n (s, k) = (Fail (OsError EBADF), (s, k)).
Proof. unfold get_fid. rewrite bind_get. by intros ->. Qed.

Lemma get_open_file_none n s k :
  (srv_fids s !! n ≫= fid_file) = None → get_open_file n (s, k) = (Fail (OsError EBADF), (s, k)).
Proof. unfold get_open_file. rewrite bind_get. by intros ->. Qed.

(** A request on a fid that is not in the table, or that is not open when
    the request reads, writes, synchronizes or locks, is refused with [EBADF]
    without any call to the kernel and without any change of the table. *)
Theorem unusable_fid_refused fuel m n ns s k :
  uses_fids m = n :: ns → ¬ usable (abs s) m n →
  match m with TReaddir _ => srv_fids s !! n = None | _ => True end →
  dispatch fuel m (s, k) = (Fail (OsError EBADF), (s, k)).
Proof.
  intros Hm Hn Hrd.
  assert (needs_open m = false → srv_fids s !! n = None) as Hnone.
  { intros Ho. apply eq_None_not_Some. intros [f Hf]. by eapply Hn, usable_fid. }
  assert (needs_open m = true → (srv_fids s !! n ≫= fid_file) = None) as Hopen.
  { intros Ho. apply eq_None_not_Some. intros [f Hf]. by eapply Hn, usable_open. }
  destruct m; cbn in Hm, Hnone, Hopen; simplify_eq; cbn [dispatch]; apply bind_fail;
    try (apply bind_fail; first [by apply get_fid_none; auto|by apply get_open_file_none; auto]).
  - unfold Server_walk. rewrite bind_get. case_match; [done|].
    apply bind_fail, get_fid_none. auto.
  - unfold Server_clunk. rewrite bind_get. cbn. by rewrite Hnone.
Qed.

End traces.
