(* ===== verification/Ownership.v ===== *)
(** * Ownership of file descriptors

    [std::fs::File] closes its descriptor when it is dropped.  This file gives a
    small logic for the descriptors a computation owns before and after it
    runs, and proves with it that the server of [jetstream/src/ufs/mod.rs]
    neither leaks a descriptor nor closes one it does not own. *)

From stdpp Require Import sorting.
From S2P Require Import Prelude StdIo WireFormat Derive MessageTypes Messages Os ReadDir Ufs Session.

Create HintDb own.

(** ** Permutations of concatenated lists *)

Lemma perm_find_app_skip {A} (x y r r' : list A) : r ≡ₚ x ++ r' → y ++ r ≡ₚ x ++ y ++ r'.
Proof. intros ->. apply Permutation_app_swap_app. Qed.
Lemma perm_find_app_skip1 {A} (x : list A) b r r' : r ≡ₚ x ++ r' → b :: r ≡ₚ x ++ b :: r'.
Proof. intros ->. apply Permutation_middle. Qed.
Lemma perm_find_cons_skip {A} (a : A) y r r' : r ≡ₚ a :: r' → y ++ r ≡ₚ a :: y ++ r'.
Proof. intros ->. symmetry. apply Permutation_middle. Qed.
Lemma perm_find_cons_skip1 {A} (a b : A) r r' : r ≡ₚ a :: r' → b :: r ≡ₚ a :: b :: r'.
Proof. intros ->. apply Permutation_swap. Qed.

Ltac perm_find :=
  first [ reflexivity
        | apply perm_find_app_skip; perm_find
        | apply perm_find_app_skip1; perm_find
        | apply perm_find_cons_skip; perm_find
        | apply perm_find_cons_skip1; perm_find ].

Lemma perm_match_app {A} (x r t r' : list A) : t ≡ₚ x ++ r' → r ≡ₚ r' → x ++ r ≡ₚ t.
Proof. by intros -> ->. Qed.
Lemma perm_match_cons {A} (a : A) r t r' : t ≡ₚ a :: r' → r ≡ₚ r' → a :: r ≡ₚ t.
Proof. by intros -> ->. Qed.

(** Solves [l ≡ₚ l'] for two concatenations of the same parts. *)
Ltac solve_perm :=
  repeat first [rewrite <- app_assoc | rewrite app_nil_r | progress (cbn [app])];
  repeat first
    [ reflexivity
    | eapply perm_match_app; [perm_find|]
    | eapply perm_match_cons; [perm_find|] ].

Section ownership.
Context {L : Libc} {K : Kernel} {KF : KernelFds K}.

(** The open descriptors are exactly those of [l], each listed once. *)
Definition holds (k : kstate) (l : list Z) : Prop :=
  NoDup l ∧ open_fds k = list_to_set l.

#[export] Instance holds_proper k : Proper ((≡ₚ) ==> iff) (holds k).
Proof.
  intros l l' Hl. unfold holds. by rewrite Hl.
Qed.

Lemma holds_same k k' l : open_fds k' = open_fds k → holds k l → holds k' l.
Proof. unfold holds. by intros ->. Qed.

Lemma holds_open k k' fd l :
  fd ∉ open_fds k → open_fds k' = {[fd]} ∪ open_fds k → holds k l → holds k' (fd :: l).
Proof.
  intros Hfd Hk' [Hl Hk]. split; [constructor; [|done]|by rewrite Hk', Hk].
  by rewrite Hk, elem_of_list_to_set in Hfd.
Qed.

Lemma holds_close k fd l : holds k (fd :: l) → holds (close fd k) l.
Proof.
  intros [Hl Hk]. apply NoDup_cons in Hl as [Hfd Hl]. split; [done|].
  rewrite close_fds, Hk. cbn.
  rewrite difference_union_distr_l_L, difference_diag_L, (left_id_L ∅ (∪)).
  apply difference_disjoint_L. by apply disjoint_singleton_r, not_elem_of_list_to_set.
Qed.

(** ** Triples on computations of the kernel *)

(** [m] turns the descriptors [pre] into [post a], or [err] when it returns an
    error, and leaves all others alone. *)
Definition owns {A} (pre : list Z) (m : kio A) (post : A → list Z) (err : list Z) : Prop :=
  ∀ F k, holds k (pre ++ F) →
    match m k with
    | (Done a, k') => holds k' (post a ++ F)
    | (Fail _, k') => holds k' (err ++ F)
    | _ => True
    end.

(** [m] opens and closes nothing. *)
Definition neutral {A} (m : kio A) : Prop := ∀ k, open_fds (m k).2 = open_fds k.

Lemma owns_neutral {A} own (m : kio A) : neutral m → owns own m (λ _, own) own.
Proof.
  intros Hm F k Hk. specialize (Hm k). destruct (m k) as [[] k']; cbn in Hm; try done;
    by apply (holds_same k).
Qed.

Lemma owns_ret {A} post err (a : A) : owns (post a) (mret a) post err.
Proof. by intros F k. Qed.

Ltac own_ret := let H := fresh in intros ? ? H; exact H.

Lemma owns_fail {A} post err e : owns err (fail e : kio A) post err.
Proof. by intros F k. Qed.

Lemma owns_bind {A B} pre mid post err (m : kio A) (f : A → kio B) :
  owns pre m mid err → (∀ a, owns (mid a) (f a) post err) → owns pre (m ≫= f) post err.
Proof.
  intros Hm Hf F k Hk. specialize (Hm F k Hk). unfold mbind, st_bind.
  destruct (m k) as [[] k']; [by apply Hf|done..].
Qed.

Lemma owns_frame {A} G pre post err (m : kio A) :
  owns pre m post err → owns (pre ++ G) m (λ a, post a ++ G) (err ++ G).
Proof.
  intros Hm F k. rewrite <- app_assoc. intros Hk. specialize (Hm _ _ Hk).
  destruct (m k) as [[] k']; by rewrite <- ?app_assoc.
Qed.

Lemma owns_perm {A} pre pre' post post' err err' (m : kio A) :
  owns pre m post err →
  pre' ≡ₚ pre → (∀ a, post a ≡ₚ post' a) → err ≡ₚ err' → owns pre' m post' err'.
Proof.
  intros Hm Hpre Hpost Herr F k. rewrite Hpre. intros Hk. specialize (Hm _ _ Hk).
  destruct (m k) as [[] k']; by rewrite <- ?Hpost, <- ?Herr.
Qed.

Lemma owns_drop_file f l err : owns (raw_fd f :: l) (drop_file f) (λ _, l) err.
Proof. intros F k. apply holds_close. Qed.

Lemma owns_or_drop {A} f pre post err (m : kio A) :
  owns pre m post (raw_fd f :: err) → owns pre (or_drop f m) post err.
Proof.
  intros Hm F k Hk. specialize (Hm F k Hk). unfold or_drop.
  destruct (m k) as [[] k']; [done| |done..]. by apply holds_close.
Qed.

Lemma owns_with_local {A} f pre post err (m : kio A) :
  owns pre m (λ a, raw_fd f :: post a) (raw_fd f :: err) → owns pre (with_local f m) post err.
Proof.
  intros Hm F k Hk. specialize (Hm F k Hk). unfold with_local.
  destruct (m k) as [[] k']; [..|done|done]; by apply holds_close.
Qed.

Lemma owns_try_call {A} pre post err err' (m : kio A) :
  owns pre m post err →
  owns pre (try_call m) (λ r, match r with Ok a => post a | Err _ => err end) err'.
Proof.
  intros Hm F k Hk. specialize (Hm F k Hk). unfold try_call. by destruct (m k) as [[] k'].
Qed.

Lemma owns_or_else {A} pre mid post err (m : kio A) h :
  owns pre m post mid → (∀ e, owns mid (h e) post err) → owns pre (or_else m h) post err.
Proof.
  intros Hm Hh F k Hk. specialize (Hm F k Hk). unfold or_else.
  destruct (m k) as [[] k']; [done| |done..]. by apply Hh.
Qed.

(** Calls that open a descriptor. *)
Lemma owns_openat64 d p fl m err :
  owns err (syscall (openat64 d p fl m)) (λ fd, fd :: err) err.
Proof.
  intros F k Hk. unfold syscall. destruct (openat64 d p fl m k) as [[fd|e] k'] eqn:E.
  - apply openat64_fresh in E as [??]. by eapply holds_open.
  - apply openat64_fails in E. by eapply holds_same.
Qed.

Lemma owns_dup d err : owns err (syscall (dup_cloexec d)) (λ fd, fd :: err) err.
Proof.
  intros F k Hk. unfold syscall. destruct (dup_cloexec d k) as [[fd|e] k'] eqn:E.
  - apply dup_fresh in E as [??]. by eapply holds_open.
  - apply dup_fails in E. by eapply holds_same.
Qed.

(** ** Computations that leave the descriptors alone *)

Lemma neutral_ret {A} (a : A) : neutral (mret a).
Proof. done. Qed.
Lemma neutral_fail {A} e : neutral (fail e : kio A).
Proof. done. Qed.
Lemma neutral_panic {A} : neutral (panic : kio A).
Proof. done. Qed.
Lemma neutral_of_result {A} (r : io_result A) : neutral (of_result r).
Proof. by destruct r. Qed.
Lemma neutral_syscall {A} (call : kstate → (A + Z) * kstate) :
  (∀ k, open_fds (call k).2 = open_fds k) → neutral (syscall call).
Proof.
  intros H k. specialize (H k). unfold syscall. by destruct (call k) as [[] k'].
Qed.
Lemma neutral_bind {A B} (m : kio A) (f : A → kio B) :
  neutral m → (∀ a, neutral (f a)) → neutral (m ≫= f).
Proof.
  intros Hm Hf k. specialize (Hm k). unfold mbind, st_bind.
  destruct (m k) as [[] k']; cbn in *; [by rewrite Hf|done..].
Qed.

#[local] Hint Resolve neutral_ret neutral_fail neutral_panic neutral_of_result : own.
#[local] Hint Resolve neutral_syscall fstatat64_fds fstat64_fds fstatfs64_fds readlinkat_fds
  fchmodat_fds fchownat_fds utimensat_fds linkat_fds mkdirat_fds renameat_fds unlinkat_fds
  getdents64_fds lseek64_fds pread64_fds pwrite64_fds ftruncate64_fds fsync_fds
  fdatasync_fds : own.

Ltac solve_neutral :=
  repeat first
    [ solve [eauto with own]
    | apply neutral_bind; [|intros ?]
    | progress case_match ].

Lemma neutral_stat f : neutral (stat f).
Proof. unfold stat, statat. solve_neutral. Qed.
Lemma neutral_statat f n fl : neutral (statat f n fl).
Proof. unfold statat. solve_neutral. Qed.
Lemma neutral_next d : neutral (next d).
Proof. unfold next, refill. solve_neutral. Qed.
Lemma neutral_read_dir d o : neutral (read_dir d o).
Proof. unfold read_dir. solve_neutral. Qed.
#[local] Hint Resolve neutral_stat neutral_statat neutral_next neutral_read_dir : own.

Lemma neutral_readdir_loop fuel path count d out : neutral (readdir_loop fuel path count d out).
Proof.
  revert d out. induction fuel as [|fuel IH]; intros d out; cbn [readdir_loop]; [done|].
  solve_neutral.
Qed.
#[local] Hint Resolve neutral_readdir_loop : own.

(** ** Operations that return a file *)

Abbreviation file_fds := (λ f : File, [raw_fd f]).

Lemma owns_of_result {A} own post err (r : io_result A) (f : A → kio File) :
  (∀ a, owns own (f a) post err) → own = err → owns own (a ← of_result r; f a) post err.
Proof.
  intros Hf ->. apply (owns_bind _ (λ _, err)); [|done].
  apply owns_neutral, neutral_of_result.
Qed.

Lemma owns_lookup_file f n : owns [] (lookup_file f n) file_fds [].
Proof.
  eapply owns_bind; [apply owns_openat64|]. intros fd. own_ret.
Qed.

Lemma owns_open_fid proc path fl : owns [] (open_fid proc path fl) file_fds [].
Proof.
  apply owns_of_result; [|done]. intros p.
  eapply owns_bind; [apply owns_openat64|]. intros fd. own_ret.
Qed.

Lemma owns_try_clone f : owns [] (try_clone f) file_fds [].
Proof. eapply owns_bind; [apply owns_dup|]. intros fd. own_ret. Qed.

Lemma owns_casefold_scan fuel parent name d :
  owns [] (casefold_scan fuel parent name d) file_fds [].
Proof.
  revert d. induction fuel as [|fuel IH]; intros d; cbn [casefold_scan]; [done|].
  eapply owns_bind; [apply owns_neutral, neutral_next|]. intros [[e d']|].
  - case_match; [apply owns_lookup_file|apply IH].
  - apply owns_fail.
Qed.

Lemma owns_ascii_casefold_lookup fuel proc parent name :
  owns [] (ascii_casefold_lookup fuel proc parent name) file_fds [].
Proof.
  eapply owns_bind; [apply owns_open_fid|]. intros dir. apply owns_with_local.
  eapply owns_bind; [apply owns_neutral, neutral_read_dir|]. intros d.
  eapply owns_perm; [apply (owns_frame [raw_fd dir]), (owns_casefold_scan fuel parent name d)|..];
    [done|intros a; apply Permutation_app_comm|done].
Qed.

Lemma owns_walk_lookup fuel proc cf cur name :
  owns [] (walk_lookup fuel proc cf cur name) file_fds [].
Proof.
  apply (owns_or_else _ []); [apply owns_lookup_file|]. intros e.
  case_match; [apply owns_ascii_casefold_lookup|apply owns_fail].
Qed.

(** What a [MaybeOwned] holds. *)
Definition maybe_fds (owned : bool) (f : File) : list Z := if owned then [raw_fd f] else [].
Abbreviation walk_fds :=
  (λ r : io_result File * list stat64, match r.1 with Ok f => [raw_fd f] | Err _ => [] end).

Lemma owns_drop_maybe_owned owned f l err :
  owns (maybe_fds owned f ++ l) (drop_maybe_owned owned f) (λ _, l) err.
Proof. destruct owned; [apply owns_drop_file|own_ret]. Qed.

Lemma owns_do_walk fuel proc wnames cur owned cf mds :
  owns (maybe_fds owned cur) (do_walk fuel proc wnames cur owned cf mds) walk_fds [].
Proof.
  revert cur owned mds. induction wnames as [|w wnames IH]; intros cur owned mds; cbn [do_walk].
  { destruct owned; [own_ret|].
    eapply owns_bind; [apply (owns_try_call _ file_fds []), owns_try_clone|]. intros r.
    own_ret. }
  eapply owns_bind.
  { apply (owns_try_call (maybe_fds owned cur) (λ f, [raw_fd f] ++ maybe_fds owned cur)
      ([] ++ maybe_fds owned cur)), (owns_frame (maybe_fds owned cur) []).
    apply owns_of_result; [|done]. intros name. apply owns_walk_lookup. }
  intros [f|e].
  - apply (owns_bind _ (λ _, [raw_fd f])).
    { eapply owns_perm; [apply (owns_drop_maybe_owned owned cur [raw_fd f])|..];
        [apply Permutation_app_comm|done..]. }
    intros _. eapply owns_bind; [eapply owns_try_call, owns_neutral, neutral_stat|].
    intros [st|e]; [apply (IH f true)|].
    eapply owns_bind; [apply owns_drop_file|]. intros []. own_ret.
  - rewrite <- (app_nil_r ([] ++ _)). eapply owns_bind; [apply owns_drop_maybe_owned|].
    intros []. own_ret.
Qed.

(** ** The server *)

Definition fid_fds (f : Fid) : list Z :=
  raw_fd (fid_path f) :: from_option (λ g, [raw_fd g]) [] (fid_file f).

Definition fids_fds (m : gmap u32 Fid) : list Z := (map_to_list m).*2 ≫= fid_fds.

(** The descriptors of a server: [/proc] and those of its fids. *)
Definition owned_fds (s : Server) : list Z := raw_fd (srv_proc s) :: fids_fds (srv_fids s).

Lemma fids_fds_insert m n f : m !! n = None → fids_fds (<[n := f]> m) ≡ₚ fid_fds f ++ fids_fds m.
Proof. intros H. unfold fids_fds. by rewrite map_to_list_insert. Qed.

Lemma fids_fds_delete m n f : m !! n = Some f → fids_fds m ≡ₚ fid_fds f ++ fids_fds (delete n m).
Proof. intros H. rewrite <- fids_fds_insert by apply lookup_delete_eq. by rewrite insert_delete_id. Qed.

Lemma fids_fds_update m n f f' :
  m !! n = Some f → fids_fds (<[n := f']> m) ≡ₚ fid_fds f' ++ fids_fds (delete n m).
Proof. intros H. rewrite <- insert_delete_eq, fids_fds_insert by apply lookup_delete_eq. done. Qed.

Lemma btree_values_perm m : btree_values m ≡ₚ (map_to_list m).*2.
Proof. unfold btree_values. by rewrite merge_sort_Permutation. Qed.

Lemma owns_drop_fid f l err : owns (fid_fds f ++ l) (drop_fid f) (λ _, l) err.
Proof.
  unfold drop_fid, fid_fds. eapply owns_bind; [apply owns_drop_file|].
  intros []. destruct (fid_file f) as [g|]; [apply owns_drop_file|own_ret].
Qed.

Lemma owns_drop_fids fs err : owns (fs ≫= fid_fds) (drop_fids fs) (λ _, []) err.
Proof.
  induction fs as [|f fs IH]; [own_ret|]. cbn [drop_fids mbind list_bind].
  apply (owns_bind _ (λ _, fs ≫= fid_fds)); [|intros []; apply IH].
  apply owns_drop_fid.
Qed.

(** *** Triples on the server

    [own] are the descriptors of the handler's local variables.  When the
    handler returns an error it holds none, whatever it has done to the table
    of fids. *)
Definition sowns {A} (P : Server → Prop) (own : list Z) (m : srv A)
    (Q : A → Server → Prop) (post : A → list Z) : Prop :=
  ∀ F s k, P s → holds k (own ++ owned_fds s ++ F) →
    match m (s, k) with
    | (Done a, (s', k')) => Q a s' ∧ holds k' (post a ++ owned_fds s' ++ F)
    | (Fail _, (s', k')) => holds k' (owned_fds s' ++ F)
    | _ => True
    end.

Lemma sowns_bind {A B} P own mid (m : srv A) (f : A → srv B) Q R post :
  sowns P own m Q mid → (∀ a, sowns (Q a) (mid a) (f a) R post) → sowns P own (m ≫= f) R post.
Proof.
  intros Hm Hf F s k HP Hk. specialize (Hm F s k HP Hk). unfold mbind, st_bind.
  destruct (m (s, k)) as [[a| | |] [s' k']]; [|done..].
  destruct Hm as [HQ Hk']. exact (Hf a F s' k' HQ Hk').
Qed.

Lemma sowns_ret {A} (P : Server → Prop) own (a : A) : sowns P own (mret a) (λ _, P) (λ _, own).
Proof. by intros F s k. Qed.

Lemma sowns_fail {A} P e Q post : sowns P [] (fail e : srv A) Q post.
Proof. by intros F s k. Qed.

Lemma sowns_of_result {A} P (r : io_result A) :
  sowns P [] (of_result r) (λ _, P) (λ _, []).
Proof. intros F s k. by destruct r. Qed.

Lemma sowns_get_server P own :
  sowns P own get_server (λ s s', s' = s ∧ P s') (λ _, own).
Proof. by intros F s k. Qed.

Lemma sowns_get_fid P n :
  sowns P [] (get_fid n) (λ f s, P s ∧ srv_fids s !! n = Some f) (λ _, []).
Proof.
  intros F s k HP Hk. unfold get_fid, mbind, st_bind, get_server. cbn.
  by destruct (srv_fids s !! n) eqn:E.
Qed.

Lemma sowns_lift {A} P own (m : kio A) post :
  owns own m post [] → sowns P own (lift m) (λ _, P) post.
Proof.
  intros Hm F s k HP Hk. specialize (Hm _ k Hk). unfold lift.
  by destruct (m k) as [[] k'].
Qed.

Lemma sowns_weaken {A} (P P' : Server → Prop) own (m : srv A) (Q Q' : A → Server → Prop) post :
  (∀ s, P' s → P s) → (∀ a s, Q a s → Q' a s) → sowns P own m Q post → sowns P' own m Q' post.
Proof.
  intros HP HQ Hm F s k Hs Hk. specialize (Hm F s k (HP s Hs) Hk).
  destruct (m (s, k)) as [[] [s' k']]; [destruct Hm; auto|done..].
Qed.

(** Installing a fid gives its descriptors to the server. *)
Lemma sowns_insert_fid P n f :
  sowns P (fid_fds f) (insert_fid n f) (λ _ _, True) (λ _, []).
Proof.
  intros F s k _ Hk. unfold insert_fid, mbind, st_bind, get_server, put_fids. cbn.
  destruct (srv_fids s !! n) as [old|] eqn:E; cbn.
  - pose proof (owns_drop_fid old [] [] (owned_fds (MkServer (<[n:=f]> (srv_fids s)) (srv_proc s)
      (srv_cfg s)) ++ F) k) as Hd. unfold lift. destruct (drop_fid old k) as [[] k'];
      try (split; [done|]); try done; apply Hd; revert Hk; unfold owned_fds; cbn [srv_proc srv_fids];
      rewrite (fids_fds_update _ _ old), (fids_fds_delete (srv_fids s) n old) by done;
      apply holds_proper; solve_perm.
  - split; [done|]. revert Hk. unfold owned_fds. cbn [srv_proc srv_fids app].
    rewrite fids_fds_insert by done. apply holds_proper. solve_perm.
Qed.

(** The state after an assignment to a field of a fid, before the value it
    replaces is dropped. *)
Lemma holds_update s n f f' F k l l' :
  srv_fids s !! n = Some f → l ++ fid_fds f ≡ₚ l' ++ fid_fds f' →
  holds k (l ++ owned_fds s ++ F) →
  holds k (l' ++ owned_fds (MkServer (<[n := f']> (srv_fids s)) (srv_proc s) (srv_cfg s)) ++ F).
Proof.
  intros Hn Hl. unfold owned_fds. cbn [srv_fids srv_proc].
  rewrite (fids_fds_update _ _ f), (fids_fds_delete (srv_fids s) n f) by done.
  apply holds_proper.
  transitivity ((l' ++ fid_fds f') ++ raw_fd (srv_proc s) :: fids_fds (delete n (srv_fids s)) ++ F);
    [solve_perm|]. rewrite <- Hl. solve_perm.
Qed.

Lemma sowns_set_file n f file ty :
  sowns (λ s, srv_fids s !! n = Some f) [raw_fd file] (set_file n f file ty)
    (λ f' s, f' = MkFid (fid_path f) (Some file) ty ∧ srv_fids s !! n = Some f') (λ _, []).
Proof.
  intros F s k Hn Hk. unfold set_file, mbind, st_bind, get_server, put_fids. cbn.
  set (f' := MkFid (fid_path f) (Some file) ty).
  apply (holds_update s n f f' F k [raw_fd file]
    (from_option (λ g, [raw_fd g]) [] (fid_file f))) in Hk; [|done|];
    [|unfold fid_fds; cbn; destruct (fid_file f); cbn; solve_perm].
  destruct (fid_file f) as [old|]; cbn.
  - split; [|by apply holds_close]. split; [done|]. apply lookup_insert_eq.
  - split; [|done]. split; [done|]. apply lookup_insert_eq.
Qed.

Lemma sowns_set_path n f path :
  sowns (λ s, srv_fids s !! n = Some f) [raw_fd path] (set_path n f path) (λ _ _, True) (λ _, []).
Proof.
  intros F s k Hn Hk. unfold set_path, mbind, st_bind, get_server, put_fids. cbn.
  split; [done|]. apply holds_close.
  apply (holds_update s n f (MkFid path (fid_file f) (fid_filetype f)) F k [raw_fd path]
    [raw_fd (fid_path f)] Hn); [|done].
  unfold fid_fds. cbn. solve_perm.
Qed.

Abbreviation any := (λ _ : Server, True).

(** A handler that starts and ends without descriptors of its own. *)
Definition handler_ok {A} (m : srv A) : Prop :=
  sowns any [] m (λ _, any) (λ _, []).

Lemma handler_clunk m : handler_ok (Server_clunk m).
Proof.
  intros F s k _ Hk. unfold Server_clunk, mbind, st_bind, get_server, put_fids. cbn.
  destruct (srv_fids s !! _) as [f|] eqn:E; [|done]. cbn.
  pose proof (owns_drop_fid f [] [] (owned_fds (MkServer (delete (Tclunk_fid m) (srv_fids s))
    (srv_proc s) (srv_cfg s)) ++ F) k) as Hd. unfold lift.
  assert (Hk' : holds k ((fid_fds f ++ []) ++ owned_fds (MkServer
    (delete (Tclunk_fid m) (srv_fids s)) (srv_proc s) (srv_cfg s)) ++ F)).
  { revert Hk. unfold owned_fds. cbn [srv_proc srv_fids].
    rewrite (fids_fds_delete _ _ _ E). apply holds_proper. solve_perm. }
  specialize (Hd Hk'). by destruct (drop_fid f k) as [[] k'].
Qed.

Lemma handler_version m : handler_ok (Server_version m).
Proof.
  intros F s k _ Hk. unfold Server_version. destruct (_ <? _); [done|].
  unfold mbind, st_bind, get_server, put_fids, lift. cbn.
  pose proof (owns_drop_fids (btree_values (srv_fids s)) [] (raw_fd (srv_proc s) :: F) k) as Hd.
  assert (Hk' : holds k ((btree_values (srv_fids s) ≫= fid_fds) ++ raw_fd (srv_proc s) :: F)).
  { revert Hk. unfold owned_fds, fids_fds. rewrite btree_values_perm.
    apply holds_proper. solve_perm. }
  specialize (Hd Hk'). by destruct (drop_fids _ k) as [[] k'].
Qed.

Lemma owns_or_drop_stat f : owns [raw_fd f] (or_drop f (stat f)) (λ _, [raw_fd f]) [].
Proof. apply owns_or_drop, owns_neutral, neutral_stat. Qed.

Ltac s_bind tac := eapply sowns_bind; [tac|cbn beta; intros ?].

Lemma handler_attach m : handler_ok (Server_attach m).
Proof.
  unfold handler_ok, Server_attach.
  s_bind ltac:(apply sowns_get_server). case_match; [apply sowns_fail|].
  s_bind ltac:(apply sowns_of_result).
  s_bind ltac:(apply sowns_lift, owns_openat64).
  s_bind ltac:(apply sowns_lift, (owns_or_drop_stat (MkFile _))).
  s_bind ltac:(apply (sowns_insert_fid _ _ (MkFid (MkFile _) None _))).
  apply sowns_ret.
Qed.

Lemma handler_walk fuel m : handler_ok (Server_walk fuel m).
Proof.
  unfold handler_ok, Server_walk.
  s_bind ltac:(apply sowns_get_server). case_match; [apply sowns_fail|].
  s_bind ltac:(apply sowns_get_fid).
  s_bind ltac:(apply sowns_lift, (owns_do_walk _ _ _ _ false)).
  match goal with r : _ * _ |- _ => destruct r as [[f|e] mds] end; cbn [fst].
  - s_bind ltac:(idtac); [|apply sowns_ret]. case_match.
    + s_bind ltac:(idtac); [|apply (sowns_insert_fid _ _ (MkFid f None _))].
      case_match; [apply sowns_ret|apply sowns_lift, owns_or_drop_stat].
    + apply (sowns_weaken any _ _ _ (λ _, any)); [done..|apply sowns_lift, owns_drop_file].
  - s_bind ltac:(idtac); [|apply sowns_ret].
    apply (sowns_weaken any _ _ _ (λ _, any)); [done..|].
    case_match; [apply sowns_fail|apply sowns_ret].
Qed.

Lemma handler_lopen m : handler_ok (Server_lopen m).
Proof.
  unfold handler_ok, Server_lopen.
  s_bind ltac:(apply sowns_get_fid).
  s_bind ltac:(apply sowns_get_server).
  s_bind ltac:(apply sowns_lift, owns_open_fid).
  s_bind ltac:(apply sowns_lift, owns_or_drop_stat).
  s_bind ltac:(eapply sowns_weaken; [..|apply sowns_set_file]; [|done]; cbn; tauto).
  apply (sowns_weaken any _ _ _ (λ _, any)); [done..|apply sowns_ret].
Qed.

Lemma handler_lcreate m : handler_ok (Server_lcreate m).
Proof.
  unfold handler_ok, Server_lcreate.
  s_bind ltac:(apply sowns_get_fid). case_match; [apply sowns_fail|].
  s_bind ltac:(apply sowns_of_result).
  s_bind ltac:(apply sowns_lift, owns_openat64).
  s_bind ltac:(apply sowns_lift, (owns_or_drop_stat (MkFile _))).
  s_bind ltac:(eapply sowns_weaken; [..|apply (sowns_set_file _ _ (MkFile _))]; [|done]; cbn; tauto).
  s_bind ltac:(apply sowns_lift, owns_lookup_file).
  s_bind ltac:(eapply sowns_weaken; [..|apply sowns_set_path]; [|done]; cbn; tauto).
  apply sowns_ret.
Qed.

Lemma owns_set_attr_size proc f a : owns [] (set_attr_size proc f a) (λ _, []) [].
Proof.
  unfold set_attr_size, set_len. case_match; [|own_ret]. case_match; [apply owns_fail|].
  destruct (fid_file f) as [g|].
  - apply owns_neutral. solve_neutral.
  - eapply owns_bind; [apply owns_open_fid|]. intros g. apply owns_with_local.
    apply owns_neutral. solve_neutral.
Qed.

Lemma handler_set_attr m : handler_ok (Server_set_attr m).
Proof.
  unfold handler_ok, Server_set_attr, set_attr_mode, set_attr_owner, set_attr_times,
    set_attr_ctime.
  s_bind ltac:(apply sowns_get_fid).
  s_bind ltac:(apply sowns_get_server).
  s_bind ltac:(apply sowns_of_result).
  s_bind ltac:(apply sowns_lift, owns_neutral; solve_neutral).
  s_bind ltac:(apply sowns_lift, owns_neutral; solve_neutral).
  s_bind ltac:(apply sowns_lift, owns_set_attr_size).
  s_bind ltac:(apply sowns_lift, owns_neutral; solve_neutral).
  apply (sowns_weaken any _ _ _ (λ _, any)); [done..|].
  apply sowns_lift, owns_neutral. solve_neutral.
Qed.

(** *** Handlers that only read the table of fids *)

Definition keeps {A} (m : srv A) : Prop :=
  ∀ s k, (m (s, k)).2.1 = s ∧ open_fds (m (s, k)).2.2 = open_fds k.

Lemma handler_keeps {A} (m : srv A) : keeps m → handler_ok m.
Proof.
  intros Hm F s k _ Hk. destruct (Hm s k) as [Hs Hfd].
  destruct (m (s, k)) as [[] [s' k']]; cbn in *; subst; try done.
  - split; [done|]. by apply (holds_same k).
  - by apply (holds_same k).
Qed.

Lemma keeps_ret {A} (a : A) : keeps (mret a).
Proof. done. Qed.
Lemma keeps_fail {A} e : keeps (fail e : srv A).
Proof. done. Qed.
Lemma keeps_panic {A} : keeps (panic : srv A).
Proof. done. Qed.
Lemma keeps_of_result {A} (r : io_result A) : keeps (of_result r).
Proof. by destruct r. Qed.
Lemma keeps_lift {A} (m : kio A) : neutral m → keeps (lift m).
Proof. intros Hm s k. specialize (Hm k). unfold lift. by destruct (m k). Qed.
Lemma keeps_get_server : keeps get_server.
Proof. done. Qed.
Lemma keeps_bind {A B} (m : srv A) (f : A → srv B) :
  keeps m → (∀ a, keeps (f a)) → keeps (m ≫= f).
Proof.
  intros Hm Hf s k. destruct (Hm s k) as [Hs Hk]. unfold mbind, st_bind.
  destruct (m (s, k)) as [[a| | |] [s' k']]; cbn in *; subst; try done.
  destruct (Hf a s k') as [-> ->]. done.
Qed.
Lemma keeps_get_fid n : keeps (get_fid n).
Proof. apply keeps_bind; [done|]. intros s. apply keeps_of_result. Qed.
Lemma keeps_get_open_file n : keeps (get_open_file n).
Proof. apply keeps_bind; [done|]. intros s. apply keeps_of_result. Qed.

#[local] Hint Resolve keeps_ret keeps_fail keeps_panic keeps_of_result keeps_get_server
  keeps_get_fid keeps_get_open_file : own.

Ltac solve_keeps :=
  repeat first
    [ solve [eauto with own]
    | apply keeps_lift; solve [solve_neutral]
    | apply keeps_bind; [|intros ?]
    | progress case_match ].

(** Every request, whatever the table of fids, starts and ends owning nothing
    but what is in the table. *)
Lemma handler_dispatch fuel m : handler_ok (dispatch fuel m).
Proof.
  assert (∀ A B (f : A → B) (h : srv A), handler_ok h → handler_ok (st_map f h)) as Hmap.
  { intros A B f h Hh. s_bind ltac:(exact Hh). apply sowns_ret. }
  destruct m; cbn [dispatch]; apply Hmap;
    first [ apply handler_version | apply handler_walk | apply handler_clunk
          | apply handler_attach | apply handler_lopen | apply handler_lcreate
          | apply handler_set_attr | apply handler_keeps ];
    unfold Server_flush, Server_read, Server_write, Server_remove, Server_auth, Server_statfs,
      Server_symlink, Server_mknod, Server_rename, Server_readlink, Server_get_attr,
      Server_xattr_walk, Server_xattr_create, Server_readdir, Server_fsync, Server_lock,
      Server_get_lock, Server_link, Server_mkdir, Server_rename_at, Server_unlink_at, checked_sub;
    solve_keeps.
Qed.

Lemma handle_owns fuel tx s k r s' k' base :
  handle fuel tx (s, k) = (Done r, (s', k')) →
  holds k (owned_fds s ++ base) → holds k' (owned_fds s' ++ base).
Proof.
  intros [_ H]%handle_cases Hk. destruct (Tframe_msg tx) as [m|].
  - pose proof (handler_dispatch fuel m base s k I Hk) as Hm.
    destruct H as [H|(e & H & _)]; rewrite H in Hm; [by destruct Hm|done].
  - by destruct H as (_ & -> & ->).
Qed.

Lemma served_owns fuel w log w' base :
  served fuel w log w' →
  holds w.2 (owned_fds w.1 ++ base) → holds w'.2 (owned_fds w'.1 ++ base).
Proof.
  induction 1 as [|[s k] tx r [s1 k1] log w' Hh Hs IH]; [done|].
  intros Hk. apply IH. by eapply handle_owns.
Qed.

(** C2. No descriptor is leaked or closed twice: a server started when the
    process had the descriptors [base] open holds, after any sequence of
    requests and whatever the kernel answered, exactly [base], its descriptor
    of [/proc] and the descriptors of the fids in its table, all distinct. *)
Theorem served_no_leak fuel cfg base k0 s0 k1 log s k :
  holds k0 base → Server_with_config cfg k0 = (Done s0, k1) →
  served fuel (s0, k1) log (s, k) →
  holds k (owned_fds s ++ base).
Proof.
  intros Hk0 Hstart Hlog. apply (served_owns _ _ _ _ base) in Hlog; [done|].
  unfold Server_with_config, mbind, st_bind in Hstart.
  pose proof (owns_openat64 AT_FDCWD (bytes_of_string "/proc")
    (Z.lor (Z.lor O_PATH O_NOFOLLOW) O_CLOEXEC) None [] base k0 Hk0) as Hopen.
  destruct (syscall _ k0) as [[fd| | |] k']; try done.
  injection Hstart as <- <-. exact Hopen.
Qed.

(** A [Tversion] that succeeds ends the session: the table is empty and of
    all the server's descriptors only the one of [/proc] is still open. *)
Theorem version_releases_all m v s k s' k' base :
  holds k (owned_fds s ++ base) → Server_version m (s, k) = (Done v, (s', k')) →
  srv_fids s' = ∅ ∧ holds k' (raw_fd (srv_proc s) :: base).
Proof.
  intros Hk Hv. pose proof (handler_version m base s k I Hk) as Hm. rewrite Hv in Hm.
  destruct Hm as [_ Hm]. revert Hm Hv. unfold Server_version. case_match; [done|].
  unfold mbind, st_bind, get_server, put_fids, lift. cbn.
  destruct (drop_fids _ k) as [[] k1]; [|done..]. cbn.
  intros Hm Heq. injection Heq as <- <- <-. done.
Qed.

End ownership.
