(* ===== verification/UfsFacts.v ===== *)
(** * The server always answers

    Theorems about the replies of [jetstream/src/ufs/mod.rs]: no request makes
    the server panic, the loop of [readdir] terminates, what [read] and
    [readdir] return fits in the negotiated message size, a directory listing
    consists of whole entries, and every reply can be encoded, so that
    [handle_message] serves a request from bytes to bytes. *)

From S2P Require Import Prelude StdIo WireFormat Derive MessageTypes Messages FrameFacts.
From S2P Require Import Os ReadDir Ufs Session.

(** ** Computations that neither panic nor run out of fuel *)

Definition total {S A} (E P : S → Prop) (m : st S A) (Q : A → S → Prop) : Prop :=
  ∀ s, P s →
    match m s with
    | (Done a, s') => Q a s'
    | (Fail _, s') => E s'
    | _ => False
    end.

Section total_rules.
Context {S : Type} (E : S → Prop).

Lemma total_bind {A B} P Q R (m : st S A) (f : A → st S B) :
  total E P m Q → (∀ a, total E (Q a) (f a) R) → total E P (m ≫= f) R.
Proof.
  intros Hm Hf s HP. specialize (Hm s HP). unfold mbind, st_bind.
  destruct (m s) as [[a| | |] s']; [by apply Hf|done..].
Qed.

Lemma total_ret {A} (P : S → Prop) (Q : A → S → Prop) a :
  (∀ s, P s → Q a s) → total E P (mret a) Q.
Proof. intros H s Hs. by apply H. Qed.

Lemma total_fail {A} (Q : A → S → Prop) e : total E E (fail e) Q.
Proof. by intros s. Qed.

Lemma total_of_result {A} (r : io_result A) : total E E (of_result r) (λ _, E).
Proof. intros s Hs. by destruct r. Qed.

End total_rules.

Abbreviation always := (λ _, True).

Section always_rules.
Context {S : Type}.

Lemma total_syscall {A} (call : S → (A + Z) * S) (φ : A → Prop) :
  (∀ s a s', call s = (inl a, s') → φ a) → total always always (syscall call) (λ a _, φ a).
Proof.
  intros H s Hs. unfold syscall. destruct (call s) as [[a|e] s'] eqn:E; [by eapply H|done].
Qed.

Lemma total_any {A} (call : S → (A + Z) * S) :
  total always always (syscall call) (λ _ _, True).
Proof. by apply total_syscall. Qed.

Lemma total_try_call {A} (m : st S A) :
  total always always m (λ _ _, True) → total always always (try_call m) (λ _ _, True).
Proof.
  intros Hm s Hs. specialize (Hm s Hs). unfold try_call. by destruct (m s) as [[] s'].
Qed.

Lemma total_weaken {A} (Q Q' : A → S → Prop) m :
  (∀ a s, Q a s → Q' a s) → total always always m Q → total always always m Q'.
Proof.
  intros HQ Hm s Hs. specialize (Hm s Hs). destruct (m s) as [[] s']; auto.
Qed.

(** A fact that does not depend on the state becomes a hypothesis. *)
Lemma total_fact {A} (φ : Prop) (m : st S A) Q :
  (φ → total always always m Q) → total always (λ _, φ) m Q.
Proof. intros H s Hφ. by apply H. Qed.

Lemma total_bind_any {A B} (m : st S A) (f : A → st S B) Q :
  total always always m (λ _ _, True) → (∀ a, total always always (f a) Q) →
  total always always (m ≫= f) Q.
Proof. apply total_bind. Qed.

End always_rules.

(** ** Directory records *)

(** An entry with the padding the kernel puts after its name. *)
Definition record_ok (r : DirEntry * list u8) : Prop :=
  no_nul (de_name r.1) ∧ lengthZ (dirent_wire r.1 r.2) < 65536.

Definition records_wire (rs : list (DirEntry * list u8)) : list u8 :=
  concat (map (λ r, dirent_wire r.1 r.2) rs).

(** What [getdents64(2)] promises about the buffer it fills: it holds whole
    records, each with a NUL-terminated name. *)
Class KernelDirents (K : Kernel) : Prop :=
  getdents64_records d n k bytes k' :
    0 <= n → getdents64 d n k = (inl bytes, k') →
    lengthZ bytes <= n ∧ ∃ rs, Forall record_ok rs ∧ bytes = records_wire rs.

Section facts.
Context {L : Libc} {K : Kernel} {KD : KernelDirents K}.

(** Every directory has less than [n] records: [left k d] of them are still to be
    returned for the descriptor [d], and a call returns some of these. *)
Definition dirs_end (n : nat) : Prop :=
  ∃ left : kstate → Z → nat,
    (∀ k d, (left k d < n)%nat) ∧
    (∀ d k rs k', Forall record_ok rs → getdents64 d BUF_LEN k = (inl (records_wire rs), k') →
      (length rs + left k' d <= left k d)%nat).

(** The iterator stands at the start of a record or at the end of the buffer. *)
Definition rd_wf (d : ReadDir) : Prop :=
  0 <= rd_current d ∧
  ∃ rs, Forall record_ok rs ∧ dropZ (rd_current d) (rd_buf d) = records_wire rs.

Lemma dirent_wire_pos e pad : 0 < lengthZ (dirent_wire e pad).
Proof.
  rewrite dirent_wire_split, !lengthZ_app, lengthZ_dirent_header, lengthZ_cons.
  pose proof (lengthZ_nonneg (de_name e)). pose proof (lengthZ_nonneg pad).
  unfold DIRENT_HEADER. lia.
Qed.

Lemma rd_wf_start dir : rd_wf (MkReadDir dir [] 0).
Proof. split; [done|]. by exists []. Qed.

Lemma refill_wf d : rd_wf d → total always always (refill d) (λ d' _, rd_wf d').
Proof.
  intros Hd. unfold refill. case_match; [|by apply total_ret].
  eapply total_bind.
  - apply (total_syscall _ (λ bytes, lengthZ bytes <= BUF_LEN ∧
      ∃ rs, Forall record_ok rs ∧ bytes = records_wire rs)).
    intros k bytes k' E. by eapply getdents64_records.
  - intros bytes. cbn beta. intros k (Hlen & rs & Hrs & Hb). split; [done|]. exists rs.
    cbn [rd_buf rd_current]. rewrite takeZ_all by done. by rewrite dropZ_0.
Qed.

(** The records from the position of the iterator to the end of its buffer. *)
Definition rd_at (d : ReadDir) (rs : list (DirEntry * list u8)) : Prop :=
  0 <= rd_current d ∧ Forall record_ok rs ∧ dropZ (rd_current d) (rd_buf d) = records_wire rs.

Definition advance (d : ReadDir) (r : DirEntry * list u8) : ReadDir :=
  MkReadDir (rd_dir d) (rd_buf d) (rd_current d + lengthZ (dirent_wire r.1 r.2)).

Lemma records_wire_cons r rs : records_wire (r :: rs) = dirent_wire r.1 r.2 ++ records_wire rs.
Proof. done. Qed.

Lemma lengthZ_records_cons r rs : 0 < lengthZ (records_wire (r :: rs)).
Proof.
  rewrite records_wire_cons, lengthZ_app. pose proof (dirent_wire_pos r.1 r.2).
  pose proof (lengthZ_nonneg (records_wire rs)). lia.
Qed.

Lemma rd_at_advance d r rs : rd_at d (r :: rs) → rd_at (advance d r) rs.
Proof.
  intros (Hcur & Hrs & Hrem). apply Forall_cons in Hrs as [_ Hrs].
  pose proof (dirent_wire_pos r.1 r.2). split_and!; cbn [advance rd_current rd_buf]; [lia|done|].
  rewrite <- dropZ_dropZ by lia. by rewrite Hrem, records_wire_cons, dropZ_app_exact.
Qed.

(** What [next] does with the records of its buffer. *)
Lemma next_parse d rs :
  rd_at d rs →
  match dropZ (rd_current d) (rd_buf d) with
  | [] => mret None
  | _ =>
      match parse_dirent (dropZ (rd_current d) (rd_buf d)) with
      | None => panic
      | Some (e, n) => mret (Some (e, MkReadDir (rd_dir d) (rd_buf d) (rd_current d + n)))
      end
  end = (mret (match rs with [] => None | r :: _ => Some (r.1, advance d r) end) : kio _).
Proof.
  intros (Hcur & Hrs & ->). destruct rs as [|[e pad] rs]; [done|].
  apply Forall_cons in Hrs as [[Hname Hlen] _].
  pose proof (lengthZ_records_cons (e, pad) rs). rewrite records_wire_cons in *.
  rewrite (parse_dirent_wire e pad) by done.
  by destruct (dirent_wire _ _ ++ records_wire rs).
Qed.

Lemma next_cons d r rs k : rd_at d (r :: rs) → next d k = (Done (Some (r.1, advance d r)), k).
Proof.
  intros Hd. unfold next, refill.
  destruct (Z.leb_spec (lengthZ (rd_buf d)) (rd_current d)) as [Hle|_].
  - destruct Hd as (_ & _ & Hrem). rewrite dropZ_all in Hrem by done.
    pose proof (lengthZ_records_cons r rs) as H. by rewrite <- Hrem in H.
  - exact (f_equal (λ m, m k) (next_parse d (r :: rs) Hd)).
Qed.

Lemma next_nil d k :
  rd_at d [] →
  (∃ e k', next d k = (Fail e, k')) ∨
  ∃ rs k', Forall record_ok rs ∧ getdents64 (raw_fd (rd_dir d)) BUF_LEN k = (inl (records_wire rs), k') ∧
    let d' := MkReadDir (rd_dir d) (records_wire rs) 0 in
    rd_at d' rs ∧
    next d k = (Done (match rs with [] => None | r :: _ => Some (r.1, advance d' r) end), k').
Proof.
  intros (Hcur & _ & Hrem). unfold next, refill.
  destruct (Z.leb_spec (lengthZ (rd_buf d)) (rd_current d)) as [_|Hlt].
  - unfold mbind, st_bind, syscall.
    destruct (getdents64 _ _ k) as [[bytes|e] k'] eqn:E; [right|left; by eexists _, _].
    destruct (getdents64_records _ BUF_LEN _ _ _ ltac:(done) E) as (Hlen & rs & Hrs & ->).
    assert (rd_at (MkReadDir (rd_dir d) (records_wire rs) 0) rs) as Hd'
      by (split_and!; cbn; [done..|by rewrite dropZ_0]).
    exists rs, k'. split_and!; [done..|]. cbv zeta. rewrite takeZ_all by done.
    exact (f_equal (λ m, m k') (next_parse _ rs Hd')).
  - apply (f_equal lengthZ) in Hrem. rewrite lengthZ_dropZ in Hrem by lia.
    change (lengthZ (records_wire [])) with 0 in Hrem. lia.
Qed.

Lemma next_wf d :
  rd_wf d → total always always (next d) (λ r _, match r with Some (_, d') => rd_wf d' | None => True end).
Proof.
  intros (Hcur & rs & Hrs & Hrem) k _. assert (rd_at d rs) as Hd by done.
  assert (∀ d rs, rd_at d rs → rd_wf d) as Hwf by (intros ? rs' (? & ? & ?); split; [done|by exists rs']).
  destruct rs as [|r rs].
  - destruct (next_nil d k Hd) as [(e & k' & ->)|(rs & k' & _ & _ & Hd' & ->)]; [done|].
    destruct rs as [|r rs]; [done|]. by eapply Hwf, rd_at_advance.
  - rewrite (next_cons d r rs) by done. by eapply Hwf, rd_at_advance.
Qed.

(** The scan of a directory meets a record in every step, so that it ends. *)
Lemma casefold_scan_total (left : kstate → Z → nat) fuel parent name d rs k :
  (∀ d k rs k', Forall record_ok rs → getdents64 d BUF_LEN k = (inl (records_wire rs), k') →
    (length rs + left k' d <= left k d)%nat) →
  (∀ f x k, ∃ r k', lookup_file f x k = (r, k') ∧ match r with Done _ | Fail _ => True | _ => False end) →
  rd_at d rs → (length rs + left k (raw_fd (rd_dir d)) < fuel)%nat →
  match casefold_scan fuel parent name d k with (Done _, _) | (Fail _, _) => True | _ => False end.
Proof.
  intros Hleft Hlook. revert d rs k. induction fuel as [|fuel IH]; intros d rs k Hd Hfuel; [lia|].
  cbn [casefold_scan]. unfold mbind, st_bind.
  assert (∀ (d' : ReadDir) r rs' k', rd_at d' (r :: rs') → rd_dir d' = rd_dir d →
    (length rs' + left k' (raw_fd (rd_dir d)) < fuel)%nat →
    match (if eq_ignore_ascii_case name (de_name r.1) then lookup_file parent (de_name r.1)
           else casefold_scan fuel parent name (advance d' r)) k'
    with (Done _, _) | (Fail _, _) => True | _ => False end) as Hgo.
  { intros d' r rs' k' Hd' Hdir Hf. destruct (eq_ignore_ascii_case _ _).
    - destruct (Hlook parent (de_name r.1) k') as (q & k2 & -> & Hq). by destruct q.
    - apply (IH _ rs'); [by eapply rd_at_advance|]. cbn [advance rd_dir]. by rewrite Hdir. }
  destruct rs as [|r rs].
  - destruct (next_nil d k Hd) as [(e & k' & ->)|(rs & k' & Hrs & Hget & Hd' & ->)]; [done|].
    destruct rs as [|r rs]; [done|]. cbn beta iota. apply (Hgo _ r rs); [done..|].
    specialize (Hleft _ _ _ _ Hrs Hget). cbn [length] in *. lia.
  - rewrite (next_cons d r rs) by done. cbn beta iota. apply (Hgo d r rs); [done..|].
    cbn [length] in Hfuel. lia.
Qed.

(** ** The listing of a directory *)

Lemma lengthZ_wire_string (s : rstring) : lengthZ (wire s) = 2 + slen s.
Proof.
  change (wire s) with (wire (U16 (slen s)) ++ sbytes s).
  by rewrite lengthZ_app, lengthZ_wire_u16.
Qed.

Lemma lengthZ_wire_dirent (e : Dirent) : lengthZ (wire e) = MIN_DIRENT + slen (Dirent_name e).
Proof.
  change (wire e) with ((wire (Qid_ty (Dirent_qid e)) ++ wire (Qid_version (Dirent_qid e)) ++
    wire (Qid_path (Dirent_qid e)) ++ []) ++ wire (Dirent_offset e) ++ wire (Dirent_ty e) ++
    wire (Dirent_name e) ++ []).
  rewrite !lengthZ_app, lengthZ_wire_string, !lengthZ_nil.
  change (wire (Qid_ty (Dirent_qid e))) with (le_split 1 (Qid_ty (Dirent_qid e))).
  change (wire (Qid_version (Dirent_qid e))) with (le_split 4 (Qid_version (Dirent_qid e))).
  change (wire (Qid_path (Dirent_qid e))) with (le_split 8 (Qid_path (Dirent_qid e))).
  change (wire (Dirent_offset e)) with (le_split 8 (Dirent_offset e)).
  change (wire (Dirent_ty e)) with (le_split 1 (Dirent_ty e)).
  rewrite !lengthZ_le_split. unfold MIN_DIRENT. lia.
Qed.

(** An entry that is encoded has the size [byte_size] announced. *)
Lemma encode_dirent (e : Dirent) bytes :
  encode e = (bytes, Ok ()) →
  bytes = wire e ∧ decodable e = true ∧ uval (byte_size e) = lengthZ (wire e).
Proof.
  destruct (encodable e) eqn:He.
  - rewrite encode_wire by done. intros [= <-]. split; [done|].
    assert (decodable e = true) as Hd.
    { revert He. cbn. by rewrite !andb_true_r. }
    split; [done|]. rewrite byte_size_wire. apply uval_to_uint_small.
    rewrite lengthZ_wire_dirent. cbn in He. rewrite !andb_true_r in He.
    apply negb_true_iff, Z.ltb_ge in He.
    pose proof (lengthZ_nonneg (sbytes (Dirent_name e))). unfold slen, MIN_DIRENT, u16_max in *.
    change (2 ^ Z.of_N 32) with 4294967296. lia.
  - intros Henc. pose proof (encode_refused e He) as Hr. by rewrite Henc in Hr.
Qed.

(** What the loop has written: whole entries, within the room there is. *)
Definition listing (count : Z) (data : list u8) : Prop :=
  lengthZ data <= count ∧
  ∃ ds : list Dirent, forallb decodable ds = true ∧ data = wires ds.

Lemma listing_snoc count data (e : Dirent) bytes :
  listing count data → encode e = (bytes, Ok ()) →
  (count - lengthZ data <? uval (byte_size e)) = false →
  listing count (data ++ bytes) ∧ MIN_DIRENT <= lengthZ bytes.
Proof.
  intros (Hlen & ds & Hds & ->) (-> & Hdec & Hsize)%encode_dirent Hroom%Z.ltb_ge.
  rewrite Hsize in Hroom. split; [split|].
  - rewrite lengthZ_app. lia.
  - exists (ds ++ [e]). split; [by rewrite forallb_app, Hds; cbn [forallb]; rewrite Hdec|].
    unfold wires. rewrite map_app, concat_app. cbn [map concat]. by rewrite app_nil_r.
  - rewrite lengthZ_wire_dirent. pose proof (lengthZ_nonneg (sbytes (Dirent_name e))).
    unfold slen. lia.
Qed.

(** The fuel is enough: each iteration that goes on uses at least 24 of the
    bytes that are left. *)
Lemma readdir_loop_total fuel path count d out :
  rd_wf d → listing count out → count - lengthZ out < MIN_DIRENT * Z.of_nat fuel →
  total always always (readdir_loop fuel path count d out) (λ data _, listing count data).
Proof.
  revert d out. induction fuel as [|fuel IH]; intros d out Hd Hout Hfuel.
  { destruct Hout. lia. }
  cbn [readdir_loop]. eapply total_bind; [by apply next_wf|].
  intros [[dirent d']|]; cbn beta iota; [|by apply total_ret].
  apply total_fact. intros Hd'. apply total_bind_any; [apply total_any|]. intros st.
  eapply total_bind; [apply total_of_result|]. intros name.
  case_match eqn:Hroom; [by apply total_ret|].
  destruct (encode _) as [bytes [[]|e]] eqn:Henc; [|by intros k].
  destruct (listing_snoc _ _ _ _ Hout Henc Hroom) as [Hout' Hbytes].
  intros k _. apply (IH d' (out ++ bytes)); [done..| |done]. rewrite lengthZ_app. lia.
Qed.

(** ** Every request is answered *)

Abbreviation safe m := (total always always m (λ _ _, True)).

Lemma safe_of_result {S A} (r : io_result A) : safe (of_result r : st S A).
Proof. by destruct r. Qed.
Lemma safe_bind {S A B} (m : st S A) (f : A → st S B) :
  safe m → (∀ a, safe (f a)) → safe (m ≫= f).
Proof. apply total_bind. Qed.
Lemma safe_or_drop {A} f (m : kio A) : safe m → safe (or_drop f m).
Proof. intros Hm k _. specialize (Hm k I). unfold or_drop. by destruct (m k) as [[] k']. Qed.
Lemma safe_with_local {A} f (m : kio A) : safe m → safe (with_local f m).
Proof. intros Hm k _. specialize (Hm k I). unfold with_local. by destruct (m k) as [[] k']. Qed.
Lemma safe_or_else {A} (m : kio A) h : safe m → (∀ e, safe (h e)) → safe (or_else m h).
Proof.
  intros Hm Hh k _. specialize (Hm k I). unfold or_else.
  destruct (m k) as [[] k']; [done|by apply Hh|done..].
Qed.
Lemma safe_drop_file f : safe (drop_file f).
Proof. done. Qed.

Ltac solve_safe :=
  repeat first
    [ solve [eauto using total_any, total_fail, safe_of_result, safe_drop_file]
    | by apply total_ret
    | apply total_try_call
    | apply safe_or_drop | apply safe_with_local
    | apply safe_or_else; [|intros ?]
    | apply safe_bind; [|intros ?]
    | case_match ].

Lemma safe_lookup_file f n : safe (lookup_file f n).
Proof. unfold lookup_file. solve_safe. Qed.
Lemma safe_open_fid proc path fl : safe (open_fid proc path fl).
Proof. unfold open_fid. solve_safe. Qed.
Lemma safe_stat f : safe (stat f).
Proof. unfold stat, statat. solve_safe. Qed.

Lemma safe_ascii_casefold_lookup fuel proc parent name :
  dirs_end fuel → safe (ascii_casefold_lookup fuel proc parent name).
Proof.
  intros (left & Hbound & Hleft). pose proof safe_open_fid. unfold ascii_casefold_lookup.
  apply safe_bind; [done|]. intros dir. apply safe_with_local. unfold read_dir, mbind, st_bind.
  intros k _. unfold syscall. destruct (lseek64 _ _ _ k) as [[o|e] k1]; [|done].
  cbn beta iota. unfold mret, st_ret.
  pose proof (casefold_scan_total left fuel parent name (MkReadDir dir [] 0) [] k1 Hleft) as Ht.
  destruct (casefold_scan _ _ _ _ k1) as [q k2]. destruct q; try done;
  (apply Ht; [|by split_and!; [|constructor|]|by apply Hbound]);
    intros f x k'; pose proof (safe_lookup_file f x k' I);
    destruct (lookup_file f x k') as [q k3]; exists q, k3; by destruct q.
Qed.

Lemma safe_do_walk fuel proc wnames cur owned casefold mds :
  (casefold = true → dirs_end fuel) → safe (do_walk fuel proc wnames cur owned casefold mds).
Proof.
  intros Hd. revert cur owned mds. induction wnames as [|w wnames IH]; intros cur owned mds; cbn [do_walk].
  - unfold try_clone. solve_safe.
  - assert (∀ cur name, safe (walk_lookup fuel proc casefold cur name)).
    { intros cur' name. apply safe_or_else; [apply safe_lookup_file|]. intros e.
      destruct casefold; cbn [andb]; [|apply total_fail].
      case_bool_decide; [by apply safe_ascii_casefold_lookup, Hd|apply total_fail]. }
    unfold drop_maybe_owned. pose proof safe_stat. solve_safe.
Qed.

(** The message size leaves room for a header, and the directories that lookups
    scan have less than [fuel] entries. *)
Definition ready (fuel : nat) (s : Server) : Prop :=
  uval read_header_size <= uval (cfg_msize (srv_cfg s)) ∧
  (cfg_ascii_casefold (srv_cfg s) = true → dirs_end fuel).

Section ready.
Context (fuel : nat).
Abbreviation is_ready := (λ w : world, ready fuel w.1).

Lemma total_lift {A} (m : kio A) : safe m → total is_ready is_ready (lift m) (λ _, is_ready).
Proof.
  intros Hm [s k] Hs. specialize (Hm k I). unfold lift. by destruct (m k) as [[] k'].
Qed.

Lemma total_get_server : total is_ready is_ready get_server (λ s w, ready fuel s ∧ ready fuel w.1).
Proof. by intros [s k]. Qed.

Lemma total_get_fid n : total is_ready is_ready (get_fid n) (λ _, is_ready).
Proof. intros [s k] Hs. unfold get_fid. rewrite bind_get. by destruct (srv_fids s !! n). Qed.

Lemma total_get_open_file n : total is_ready is_ready (get_open_file n) (λ _, is_ready).
Proof.
  intros [s k] Hs. unfold get_open_file. rewrite bind_get.
  by destruct (srv_fids s !! n ≫= fid_file).
Qed.

Lemma total_put_fids fids : total is_ready is_ready (put_fids fids) (λ _, is_ready).
Proof. by intros [s k]. Qed.

Lemma total_bind_get {A} (f : Server → srv A) Q :
  (∀ s, ready fuel s → total is_ready is_ready (f s) Q) → total is_ready is_ready (get_server ≫= f) Q.
Proof. intros H [s k] Hs. rewrite bind_get. by apply H. Qed.

Lemma total_bind_ready {A B} (m : srv A) (f : A → srv B) Q :
  total is_ready is_ready m (λ _, is_ready) → (∀ a, total is_ready is_ready (f a) Q) → total is_ready is_ready (m ≫= f) Q.
Proof. apply total_bind. Qed.

Lemma total_checked_sub (s : Server) (b : u32) :
  ready fuel s → uval b = uval read_header_size →
  total is_ready is_ready (checked_sub (cfg_msize (srv_cfg s)) b) (λ _, is_ready).
Proof.
  intros [Hs _] Hb w Hw. unfold checked_sub. rewrite Hb.
  by destruct (Z.ltb_spec (uval (cfg_msize (srv_cfg s))) (uval read_header_size)); [lia|].
Qed.

Lemma total_drop_fid f : total is_ready is_ready (lift (drop_fid f)) (λ _, is_ready).
Proof. apply total_lift. intros k _. by destruct (drop_fid_done f k) as [k' ->]. Qed.

Lemma total_drop_fids fs : total is_ready is_ready (lift (drop_fids fs)) (λ _, is_ready).
Proof. apply total_lift. intros k _. by destruct (drop_fids_done fs k) as [k' ->]. Qed.

Lemma total_insert_fid n f : total is_ready is_ready (insert_fid n f) (λ _, is_ready).
Proof.
  apply total_bind_get. intros s Hs. apply total_bind_ready; [apply total_put_fids|]. intros [].
  case_match; [apply total_drop_fid|by apply total_ret].
Qed.

Lemma total_set_file n f file ty : total is_ready is_ready (set_file n f file ty) (λ _, is_ready).
Proof.
  apply total_bind_get. intros s Hs. apply total_bind_ready; [apply total_put_fids|]. intros [].
  apply total_bind_ready; [|intros []; by apply total_ret].
  case_match; [by apply total_lift|by apply total_ret].
Qed.

Lemma total_set_path n f path : total is_ready is_ready (set_path n f path) (λ _, is_ready).
Proof.
  apply total_bind_get. intros s Hs. apply total_bind_ready; [apply total_put_fids|]. intros [].
  by apply total_lift.
Qed.

Lemma readdir_fuel_enough count : 0 <= count →
  count - lengthZ (@nil u8) < MIN_DIRENT * Z.of_nat (S (Z.to_nat (count / MIN_DIRENT))).
Proof.
  intros. rewrite lengthZ_nil. change MIN_DIRENT with 24.
  rewrite Nat2Z.inj_succ, Z2Nat.id by (apply Z.div_pos; lia).
  pose proof (Z.div_mod count 24 ltac:(lia)). pose proof (Z.mod_pos_bound count 24 ltac:(lia)). lia.
Qed.

(** The whole listing, from the start of the directory stream. *)
Lemma readdir_listing path count dir offset :
  0 <= count →
  total always always (
    dirents ← read_dir dir offset;
    readdir_loop (S (Z.to_nat (count / MIN_DIRENT))) path count dirents [])
    (λ data _, listing count data).
Proof.
  intros Hcount. apply (total_bind always _ (λ d _, rd_wf d)).
  - apply total_bind_any; [apply total_any|]. intros _. apply total_ret.
    intros _ _. apply rd_wf_start.
  - intros d. apply total_fact. intros Hd.
    apply readdir_loop_total; [done| |by apply readdir_fuel_enough].
    split; [done|]. by exists [].
Qed.

Lemma safe_readdir path count dir offset :
  0 <= count →
  safe (dirents ← read_dir dir offset;
        readdir_loop (S (Z.to_nat (count / MIN_DIRENT))) path count dirents []).
Proof.
  intros Hcount. eapply total_weaken; [..|by apply (readdir_listing path count dir offset)]; done.
Qed.

Ltac t_rule m :=
  lazymatch m with
  | get_fid _ => apply total_get_fid
  | get_open_file _ => apply total_get_open_file
  | of_result _ => apply total_of_result
  | put_fids _ => apply total_put_fids
  | insert_fid _ _ => apply total_insert_fid
  | set_file _ _ _ _ => apply total_set_file
  | set_path _ _ _ => apply total_set_path
  | checked_sub _ _ => by apply total_checked_sub
  | lift (drop_fid _) => apply total_drop_fid
  | lift (drop_fids _) => apply total_drop_fids
  | lift _ => apply total_lift; unfold set_attr_mode, set_attr_owner, set_attr_size,
      set_attr_times, set_attr_ctime, set_len, statat; solve_safe
  end.

(** Runs through a handler. *)
Ltac solve_total :=
  repeat lazymatch goal with
  | |- total _ _ (get_server ≫= _) _ => apply total_bind_get; intros ? ?
  | |- total _ _ (?m ≫= _) _ =>
      apply total_bind_ready; [try solve [t_rule m]|intros ?]
  | |- total _ _ (mret _) _ => by apply total_ret
  | |- total _ _ (fail _) _ => apply total_fail
  | |- total _ _ ?m _ => first [solve [t_rule m] | case_match]
  end.

Lemma total_version m : total is_ready is_ready (Server_version m) (λ _, is_ready).
Proof.
  unfold Server_version.
  destruct (Z.ltb_spec (uval (Tversion_msize m)) MIN_MESSAGE_SIZE) as [|Hm]; [apply total_fail|].
  apply total_bind_get. intros s Hs. apply total_bind_ready; [apply total_put_fids|]. intros [].
  apply total_bind_ready; [apply total_drop_fids|]. intros [].
  apply total_bind_ready; [|intros []; by apply total_ret].
  intros [s' k] [_ Hcf]. split; [|done]. destruct Hs as [Hs _]. cbn.
  rewrite umin_spec. change (uval read_header_size) with 11 in *. unfold MIN_MESSAGE_SIZE in Hm. lia.
Qed.

Lemma total_walk m : total is_ready is_ready (Server_walk fuel m) (λ _, is_ready).
Proof.
  pose proof safe_stat. unfold Server_walk. apply total_bind_get. intros s [_ Hcf].
  case_match; [apply total_fail|]. apply total_bind_ready; [apply total_get_fid|]. intros f.
  apply total_bind_ready; [by apply total_lift, safe_do_walk|]. intros [[g|e] mds]; solve_total.
Qed.

Lemma total_set_attr m : total is_ready is_ready (Server_set_attr m) (λ _, is_ready).
Proof.
  pose proof safe_open_fid. unfold Server_set_attr, set_attr_ctime. solve_total.
Qed.

Lemma total_readdir m : total is_ready is_ready (Server_readdir m) (λ _, is_ready).
Proof.
  unfold Server_readdir. apply total_bind_ready; [apply total_get_fid|]. intros f.
  case_match; [apply total_fail|]. apply total_bind_get. intros s Hs.
  apply total_bind_ready; [by apply total_checked_sub|]. intros room.
  apply total_bind_ready; [apply total_of_result|]. intros dir.
  apply total_bind_ready; [|intros data; by apply total_ret].
  apply total_lift, safe_readdir, uint_range.
Qed.

Lemma dispatch_total m : total is_ready is_ready (dispatch fuel m) (λ _, is_ready).
Proof.
  pose proof safe_open_fid. pose proof safe_stat. pose proof safe_lookup_file.
  destruct m; cbn [dispatch]; unfold st_map;
    (apply total_bind_ready; [|intros ?; by apply total_ret]);
    first [ apply total_version | apply total_walk | apply total_set_attr | apply total_readdir
          | unfold Server_flush, Server_read, Server_write, Server_remove, Server_auth,
              Server_statfs, Server_symlink, Server_mknod, Server_rename, Server_readlink,
              Server_get_attr, Server_xattr_walk, Server_xattr_create, Server_fsync,
              Server_lock, Server_get_lock, Server_link, Server_mkdir, Server_rename_at,
              Server_unlink_at, Server_attach, Server_clunk, Server_lopen, Server_lcreate;
            solve_total ].
Qed.

Lemma handle_total tx s k :
  ready fuel s → ∃ r s' k', handle fuel tx (s, k) = (Done r, (s', k')) ∧ ready fuel s'.
Proof.
  intros Hs. unfold handle, mbind, st_bind, try_call.
  destruct (Tframe_msg tx) as [m|e]; [|by eexists _, _, _].
  pose proof (dispatch_total m (s, k) Hs) as Hm.
  destruct (dispatch fuel m (s, k)) as [[] [s' k']]; try done; by eexists _, _, _.
Qed.

End ready.

(** C28. The server answers every request: starting from a message size that
    leaves room for the 11 bytes of a reply header, no sequence of requests,
    well-formed or not, makes [handle] panic or loop, whatever the kernel answers.
    Listings of directories are assumed to consist of whole records and, if the
    option [ascii_casefold] is on, to end: every directory has less than [fuel]
    records, which is the bound of the scan. *)
Theorem requests_answered fuel txs s k :
  11 <= uval (cfg_msize (srv_cfg s)) →
  (cfg_ascii_casefold (srv_cfg s) = true → dirs_end fuel) →
  ∃ log s' k', map fst log = txs ∧ served fuel (s, k) log (s', k').
Proof.
  intros Hms Hcf. assert (ready fuel s) as Hs by done. clear Hms Hcf.
  revert s k Hs. induction txs as [|tx txs IH]; intros s k Hs.
  { exists [], s, k. split; [done|constructor]. }
  destruct (handle_total fuel tx s k Hs) as (r & s1 & k1 & Hh & Hs1).
  destruct (IH s1 k1 Hs1) as (log & s' & k' & <- & Hlog).
  exists ((tx, r) :: log), s', k'. split; [done|by econstructor].
Qed.

(** ** Sizes of the replies *)

Lemma bind_done {S A B} (m : st S A) (f : A → st S B) s b s' :
  (m ≫= f) s = (Done b, s') → ∃ a s1, m s = (Done a, s1) ∧ f a s1 = (Done b, s').
Proof. unfold mbind, st_bind. destruct (m s) as [[] s1]; intros H; [eauto|done..]. Qed.

Lemma lift_done {A} (m : kio A) s k a w :
  lift m (s, k) = (Done a, w) → ∃ k', m k = (Done a, k') ∧ w = (s, k').
Proof. unfold lift. destruct (m k) as [r k']. intros [= -> <-]. eauto. Qed.

Lemma get_fid_done n s k f w :
  get_fid n (s, k) = (Done f, w) → srv_fids s !! n = Some f ∧ w = (s, k).
Proof. unfold get_fid. rewrite bind_get. destruct (srv_fids s !! n); by intros [= -> <-]. Qed.

Lemma get_open_file_done n s k f w :
  get_open_file n (s, k) = (Done f, w) → (srv_fids s !! n ≫= fid_file) = Some f ∧ w = (s, k).
Proof.
  unfold get_open_file. rewrite bind_get.
  destruct (srv_fids s !! n ≫= fid_file); by intros [= -> <-].
Qed.

Lemma checked_sub_done a b w r w' :
  checked_sub a b w = (Done r, w') → uval r = uval a - uval b ∧ 0 <= uval a - uval b ∧ w' = w.
Proof.
  unfold checked_sub. destruct (Z.ltb_spec (uval a) (uval b)); [done|].
  intros [= <- <-]. rewrite usub_small by lia. split_and!; [lia..|done].
Qed.

Lemma of_result_done {S A} (r : io_result A) (s : S) a s' :
  of_result r s = (Done a, s') → r = Ok a ∧ s' = s.
Proof. destruct r; by intros [= -> <-]. Qed.

(** Take a successful handler apart. *)
Ltac inv_done :=
  repeat match goal with
  | H : get_server _ = (Done _, _) |- _ => injection H as <- <-; cbn [fst] in *
  | H : (_ ≫= _) _ = (Done _, _) |- _ => apply bind_done in H as (? & ? & ? & ?)
  | H : lift _ _ = (Done _, _) |- _ => apply lift_done in H as (? & ? & ->)
  | H : get_fid _ _ = (Done _, _) |- _ => apply get_fid_done in H as [? ->]
  | H : get_open_file _ _ = (Done _, _) |- _ => apply get_open_file_done in H as [? ->]
  | H : checked_sub _ _ _ = (Done _, _) |- _ => apply checked_sub_done in H as (? & ? & ->)
  | H : of_result _ _ = (Done _, _) |- _ => apply of_result_done in H as [? ->]
  | H : fail _ _ = (Done _, _) |- _ => discriminate H
  | H : mret _ _ = (Done _, _) |- _ => injection H as <- <-
  | H : mret _ _ = (Done _, (_, _)) |- _ => injection H as <- <- <-
  end.

Lemma readdir_done m s k r w :
  Server_readdir m (s, k) = (Done r, w) →
  listing (Z.min (uval (cfg_msize (srv_cfg s)) - 11) (uval (Treaddir_count m)))
    (data_bytes (Rreaddir_data r)).
Proof.
  unfold Server_readdir. intros H. inv_done. case_match; [inv_done|]. inv_done.
  match goal with
  | Hd : read_dir ?dir ?off ?k0 = _, Hl : readdir_loop _ ?path (uval ?c) _ _ _ = _ |- _ =>
      pose proof (readdir_listing path (uval c) dir off (proj1 (uint_range c)) k0 I) as Hlist;
      unfold mbind, st_bind in Hlist; rewrite Hd, Hl, umin_spec in Hlist
  end.
  cbn [data_bytes Rreaddir_data]. change (uval readdir_header_size) with 11 in *.
  cbn [fst] in *. by match goal with Hx : uval _ = _ |- _ => rewrite Hx in Hlist end.
Qed.

Lemma lengthZ_wire_data (d : Data) : lengthZ (wire d) = 4 + lengthZ (data_bytes d).
Proof.
  change (wire d) with (wire (U32 (lengthZ (data_bytes d))) ++ data_bytes d).
  by rewrite lengthZ_app, lengthZ_wire_u32.
Qed.

Lemma lengthZ_data_frame tag d (r : Rmessage) :
  Rmessage_wire r = wire d ++ [] →
  lengthZ (Rframe_wire (MkRframe tag r)) = 11 + lengthZ (data_bytes d).
Proof.
  intros Hr. unfold Rframe_wire. cbn [Rframe_msg Rframe_tag].
  rewrite lengthZ_frame_wire, Hr, app_nil_r, lengthZ_wire_data. change FRAME_HEADER with 7. lia.
Qed.

(** A directory listing consists of whole entries: the data of a
    [Rreaddir] is the concatenation of encoded entries that the client decodes
    one after the other to its last byte; it is no longer than the client asked
    for, and the frame of the reply fits in the negotiated message size. *)
Theorem readdir_reply_entries m tag s k r s' k' :
  Server_readdir m (s, k) = (Done r, (s', k')) →
  (∃ ds : list Dirent,
    decode_elems (length ds) (data_bytes (Rreaddir_data r)) = (Ok ds, []) ∧
    data_bytes (Rreaddir_data r) = wires ds) ∧
  lengthZ (data_bytes (Rreaddir_data r)) <= uval (Treaddir_count m) ∧
  lengthZ (Rframe_wire (MkRframe tag (RReaddir r))) <= uval (cfg_msize (srv_cfg s)).
Proof.
  intros (Hlen & ds & Hds & Hdata)%readdir_done. split_and!; [|lia|].
  - exists ds. rewrite Hdata. split; [|done].
    rewrite <- (app_nil_r (wires ds)). by apply decode_elems_wires.
  - rewrite (lengthZ_data_frame tag (Rreaddir_data r)) by done. lia.
Qed.

Lemma read_done m s k r s' k' :
  Server_read m (s, k) = (Done r, (s', k')) →
  let n := Z.min (uval (cfg_msize (srv_cfg s)) - 11) (uval (Tread_count m)) in
  ∃ file bytes,
    (srv_fids s !! Tread_fid m ≫= fid_file) = Some file ∧
    pread64 (raw_fd file) n (Tread_offset m) k = (inl bytes, k') ∧
    data_bytes (Rread_data r) = takeZ n bytes ∧ s' = s ∧
    lengthZ (data_bytes (Rread_data r)) <= uval (cfg_msize (srv_cfg s)) - 11.
Proof.
  intros H n. unfold Server_read in H. inv_done. subst. cbn [fst] in *.
  match goal with
  | Hf : _ = Some ?file, Hs : syscall (pread64 _ (uval ?c) _) _ = (Done ?bytes, _),
    Hx : uval ?x = _ |- _ =>
      assert (uval c = n) as Hn by (rewrite umin_spec, Hx; done);
      rewrite Hn in *; exists file, bytes;
      unfold syscall in Hs; destruct (pread64 _ _ _ _) as [[b|e] k1] eqn:Hp;
      [injection Hs as -> ->|discriminate Hs]
  end.
  split_and!; [done..|]. cbn [Rread_data data_bytes].
  change (uval read_header_size) with 11 in *. pose proof (uint_range (Tread_count m)).
  rewrite lengthZ_takeZ by lia. lia.
Qed.

(** [read] asks the kernel once, at the client's offset, for as many bytes
    as the client wants and the message size allows, and returns what it got;
    the frame of the reply fits in the negotiated message size. *)
Theorem read_reply_fits m tag s k r s' k' :
  Server_read m (s, k) = (Done r, (s', k')) →
  let n := Z.min (uval (cfg_msize (srv_cfg s)) - 11) (uval (Tread_count m)) in
  ∃ file bytes,
    (srv_fids s !! Tread_fid m ≫= fid_file) = Some file ∧
    pread64 (raw_fd file) n (Tread_offset m) k = (inl bytes, k') ∧
    data_bytes (Rread_data r) = takeZ n bytes ∧ s' = s ∧
    lengthZ (Rframe_wire (MkRframe tag (RRead r))) <= uval (cfg_msize (srv_cfg s)).
Proof.
  intros H n. apply read_done in H as (file & bytes & Hf & Hp & Hd & -> & Hlen).
  exists file, bytes. split_and!; [done..|].
  rewrite (lengthZ_data_frame tag (Rread_data r)) by done. lia.
Qed.

(** ** Every reply can be sent and understood *)

(** The reply encodes, decodes to itself, and its frame is below 4 GiB. *)
Definition sendable (r : Rmessage) : Prop :=
  Rmessage_decodable r = true ∧ frame_fits (Rmessage_wire r).

(** A reply made of integers only. *)
Ltac fixed_size := split; [reflexivity|vm_compute; reflexivity].

Lemma sendable_version m s k r w :
  Server_version m (s, k) = (Done r, w) → sendable (RVersion r).
Proof.
  unfold Server_version. case_match; [done|]. intros Hv. inv_done.
  case_bool_decide; fixed_size.
Qed.

Lemma string_len_bound (x : rstring) : decodable x = true → 2 <= lengthZ (wire x) <= 65537.
Proof.
  intros Hx%negb_true_iff%Z.ltb_ge. rewrite lengthZ_wire_string.
  pose proof (lengthZ_nonneg (sbytes x)). unfold u16_max, slen in *. lia.
Qed.

Lemma sendable_get_lock m s k r w :
  Tmessage_decodable (TGetLock m) = true →
  Server_get_lock m (s, k) = (Done r, w) → sendable (RGetLock r).
Proof.
  intros Hm H. unfold Server_get_lock in H. inv_done.
  assert (decodable (Tgetlock_client_id m) = true) as Hid.
  { revert Hm. cbn. by rewrite !andb_true_r. }
  split; [cbn; by rewrite andb_true_r|]. unfold frame_fits.
  change (Rmessage_wire _) with ((le_split 1 P9_LOCK_TYPE_UNLCK ++
    le_split 8 (Tgetlock_start m) ++ le_split 8 (Tgetlock_length m) ++
    le_split 4 (Tgetlock_proc_id m)) ++ wire (Tgetlock_client_id m) ++ []).
  rewrite !lengthZ_app, !lengthZ_le_split, lengthZ_nil.
  pose proof (string_len_bound _ Hid). change FRAME_HEADER with 7. change (2 ^ 32) with 4294967296. lia.
Qed.

Lemma sendable_readlink m s k r w :
  0 <= PATH_MAX <= u16_max →
  Server_readlink m (s, k) = (Done r, w) → sendable (RReadlink r).
Proof.
  intros Hmax H. unfold Server_readlink in H. inv_done. case_match eqn:Hutf; inv_done.
  apply from_utf8_Some in Hutf.
  assert (decodable r0 = true) as Hid.
  { apply negb_true_iff, Z.ltb_ge. unfold slen. rewrite Hutf.
    pose proof (lengthZ_takeZ_le PATH_MAX x1 (proj1 Hmax)). lia. }
  split; [cbn; by rewrite andb_true_r|]. unfold frame_fits.
  change (Rmessage_wire _) with (wire r0 ++ []). rewrite app_nil_r.
  pose proof (string_len_bound _ Hid). change FRAME_HEADER with 7. change (2 ^ 32) with 4294967296. lia.
Qed.

Lemma sendable_data d :
  lengthZ (data_bytes d) <= MAX_DATA_LENGTH →
  decodable d = true ∧ frame_fits (wire d ++ []).
Proof.
  intros Hd. split; [by apply negb_true_iff, Z.ltb_ge|]. unfold frame_fits.
  rewrite app_nil_r, lengthZ_wire_data. unfold MAX_DATA_LENGTH, FRAME_HEADER in *. lia.
Qed.

Lemma lengthZ_wire_qids (l : list Qid) : lengthZ (wires l) = 13 * lengthZ l.
Proof.
  induction l as [|q l IH]; [done|]. unfold wires in *. cbn [map concat].
  rewrite lengthZ_app, lengthZ_cons, IH.
  assert (lengthZ (wire q) = 13) as -> by reflexivity. lia.
Qed.

Lemma qids_decodable (l : list Qid) : forallb decodable l = true.
Proof. by induction l. Qed.

Lemma sendable_walk fuel m s k r w :
  Tmessage_decodable (TWalk m) = true →
  Server_walk fuel m (s, k) = (Done r, w) → sendable (RWalk r).
Proof.
  intros Hm H. pose proof (refines_walk fuel m s s k eq_refl) as Href.
  unfold st_map, mbind at 1, st_bind at 1 in Href. rewrite H in Href. destruct w as [s' k'].
  assert (lengthZ (Rwalk_wqids r) <= lengthZ (Twalk_wnames m)) as Hle.
  { inversion Href; subst; [lia|lia|done]. }
  assert (lengthZ (Twalk_wnames m) <= u16_max) as Hnames.
  { assert (decodable (Twalk_wnames m) = true) as Hd.
    { revert Hm. cbn. by rewrite andb_true_r. }
    apply andb_true_iff in Hd as [Hd%negb_true_iff%Z.ltb_ge _]. done. }
  assert (decodable (Rwalk_wqids r) = true) as Hd.
  { apply andb_true_iff. split; [apply negb_true_iff, Z.ltb_ge; lia|apply qids_decodable]. }
  split; [cbn [Rmessage_decodable]; by apply andb_true_iff|]. unfold frame_fits.
  change (Rmessage_wire _) with ((wire (U16 (lengthZ (Rwalk_wqids r))) ++ wires (Rwalk_wqids r)) ++ []).
  rewrite app_nil_r, lengthZ_app, lengthZ_wire_u16, lengthZ_wire_qids.
  unfold u16_max in *. change FRAME_HEADER with 7. change (2 ^ 32) with 4294967296. lia.
Qed.

(** What the negotiation guarantees before the first request: a data reply is
    within the limit of the decoder. *)
Lemma dispatch_sendable fuel m s k r w :
  0 <= PATH_MAX <= u16_max → uval (cfg_msize (srv_cfg s)) <= MAX_DATA_LENGTH →
  Tmessage_decodable m = true → dispatch fuel m (s, k) = (Done r, w) → sendable r.
Proof.
  intros Hmax Hms Hm H.
  destruct m; cbn [dispatch] in H; apply bind_done in H as (a & w1 & H & Hr);
    injection Hr as <- <-; try fixed_size; try discriminate.
  - by eapply sendable_version.
  - by eapply sendable_walk.
  - destruct w1 as [s' k']. apply read_done in H as (? & ? & _ & _ & _ & _ & Hlen).
    destruct (sendable_data (Rread_data a)) as [Hd Hf]; [lia|].
    split; [cbn [Rmessage_decodable]; by apply andb_true_iff|done].
  - by eapply sendable_readlink.
  - apply readdir_done in H as [Hlen _].
    destruct (sendable_data (Rreaddir_data a)) as [Hd Hf]; [lia|].
    split; [cbn [Rmessage_decodable]; by apply andb_true_iff|done].
  - by eapply sendable_get_lock.
Qed.

(** Decoding within a limit that the frame respects. *)
Lemma with_take_enough {A} (m : reader A) (x rest : list u8) (a : A) n :
  (∀ t, m (x ++ t) = (Ok a, t)) → lengthZ x <= n → with_take n m (x ++ rest) = (Ok a, rest).
Proof.
  intros Hm Hn. unfold with_take. rewrite takeZ_app_ge, dropZ_app_ge by done.
  by rewrite Hm, takeZ_dropZ.
Qed.

(** C3. From bytes to bytes: when the bytes of a request within the negotiated
    size arrive, whatever follows them, [handle_message] does what [handle]
    does on the request, consumes exactly its bytes, and writes the frame of the
    reply without error, which the client decodes to that reply.  The message size
    is from 11 bytes to the 32 MiB that a client accepts for data (the default is
    64 KiB and 24 bytes), paths have at most [u16_max] bytes, and with the option
    [ascii_casefold] every directory has less than [fuel] records. *)
Theorem handle_message_serves fuel tag m rest rest' s k :
  0 <= PATH_MAX <= u16_max → (cfg_ascii_casefold (srv_cfg s) = true → dirs_end fuel) →
  11 <= uval (cfg_msize (srv_cfg s)) <= MAX_DATA_LENGTH →
  Tmessage_decodable m = true →
  lengthZ (Tframe_wire tag m) <= uval (cfg_msize (srv_cfg s)) →
  ∃ r s' k',
    handle fuel (MkTframe tag (Ok m)) (s, k) = (Done r, (s', k')) ∧
    handle_message fuel (Tframe_wire tag m ++ rest) (s, k) =
      (Done (Ok (), rest, Rframe_wire r), (s', k')) ∧
    Rframe_decode (Rframe_wire r ++ rest') = (Ok r, rest').
Proof.
  intros Hmax Hcf Hms Hm Hlen.
  destruct (handle_total fuel (MkTframe tag (Ok m)) s k) as (r & s' & k' & Hh & _).
  { split; [|done]. change (uval read_header_size) with 11. lia. }
  assert (sendable (Rframe_msg r)) as [Hdec Hfits].
  { apply handle_cases in Hh as [_ [Hd|(e & Hd & ->)]]; [|fixed_size].
    eapply dispatch_sendable; [done|apply Hms|done|exact Hd]. }
  exists r, s', k'. split_and!; [done| |by apply Rframe_decode_wire].
  unfold handle_message. rewrite bind_get.
  rewrite (with_take_enough Tframe_decode _ rest (MkTframe tag (Ok m))); [|intros t|done].
  - unfold mbind, st_bind. rewrite Hh, Rframe_encode_wire by by apply Rmessage_decodable_encodable.
    done.
  - apply Tframe_decode_wire; [done|]. unfold frame_fits.
    unfold Tframe_wire in Hlen. rewrite lengthZ_frame_wire in Hlen.
    unfold MAX_DATA_LENGTH in *. change (2 ^ 32) with 4294967296. lia.
Qed.

End facts.
