(* ===== verification/Service.v ===== *)
(** * Serving streams of frames

    The loops around the file server: the loop that [QuicServer::serve] runs for
    each stream ([jetstream/src/server/quic_server.rs]), the queue through which
    the streams reach the one server ([jetstream/src/server/ufs.rs]) and the
    proxy that forwards frames ([jetstream/src/server/proxy.rs]).  The transport
    is reliable: a stream is the list of bytes that arrive on it. *)

From S2P Require Import Prelude StdIo WireFormat Derive MessageTypes Messages FrameFacts.
From S2P Require Import Os ReadDir Ufs Session UfsFacts.

(** How a task ends: it leaves its loop after a decoding error (the end of the
    stream is one), or an [unwrap] panics; [Unfinished] is the model's cut. *)
Inductive task_end := Closed (e : io_error) | Crashed | Unfinished.

Section stream.
Context {W : Type} (call : Tframe → st W Rframe).

(** One iteration of the loop: the bytes written, the rest of the input and the
    state, or the end of the task with the bytes written before it. *)
Definition stream_step (input : list u8) (w : W) :
    (list u8 * list u8 * W) + (task_end * list u8 * W) :=
  match Tframe_decode input with
  | (Err e, _) => inr (Closed e, [], w)
  | (Ok tframe, rest) =>
      match call tframe w with
      | (Done rframe, w') =>
          match Rframe_encode rframe with
          | (bytes, Ok _) => inl (bytes, rest, w')
          | (bytes, Err _) => inr (Crashed, bytes, w')
          end
      | (_, w') => inr (Crashed, [], w')
      end
  end.

Fixpoint stream_loop (fuel : nat) (input out : list u8) (w : W) : task_end * list u8 * W :=
  match fuel with
  | O => (Unfinished, out, w)
  | S fuel =>
      match stream_step input w with
      | inl (bytes, rest, w') => stream_loop fuel rest (out ++ bytes) w'
      | inr (e, bytes, w') => (e, out ++ bytes, w')
      end
  end.

(** Every frame takes at least four bytes. *)
Definition serve_stream (input : list u8) (w : W) : task_end * list u8 * W :=
  stream_loop (S (length input)) input [] w.

(** [Proxy::run], for one connection: [down] is what the client sends, [up] and
    [rx] the bytes under way to and from the server at the other end, whose loop
    runs one iteration for each request. *)
Fixpoint proxy_loop (fuel : nat) (down up rx out : list u8) (w : W) : task_end * list u8 * W :=
  match fuel with
  | O => (Unfinished, out, w)
  | S fuel =>
      match Tframe_decode down with
      | (Err e, _) => (Closed e, out, w)
      | (Ok tframe, down) =>
          match Tframe_encode tframe with
          | (_, Err _) => (Crashed, out, w)
          | (bytes, Ok _) =>
              match stream_step (up ++ bytes) w with
              | inr (_, _, w') => (Crashed, out, w')
              | inl (reply, up, w') =>
                  match Rframe_decode (rx ++ reply) with
                  | (Err _, _) => (Crashed, out, w')
                  | (Ok rframe, rx) =>
                      match Rframe_encode rframe with
                      | (bytes, Ok _) => proxy_loop fuel down up rx (out ++ bytes) w'
                      | (bytes, Err _) => (Crashed, out ++ bytes, w')
                      end
                  end
              end
          end
      end
  end.

Definition run_proxy (down : list u8) (w : W) : task_end * list u8 * W :=
  proxy_loop (S (length down)) down [] [] [] w.

(** ** Termination *)

Lemma stream_step_progress input w bytes rest w' :
  stream_step input w = inl (bytes, rest, w') → lengthZ rest + 4 <= lengthZ input.
Proof.
  unfold stream_step. destruct (Tframe_decode input) as [[t|e] r] eqn:E; [|done].
  apply Tframe_decode_progress in E. intros H. repeat case_match; by simplify_eq.
Qed.

Lemma stream_loop_fuel fuel input out w :
  (length input < fuel)%nat → (stream_loop fuel input out w).1.1 ≠ Unfinished.
Proof.
  revert input out w. induction fuel as [|fuel IH]; intros input out w Hf; [lia|]. cbn.
  destruct (stream_step input w) as [[[bytes rest] w']|[[e bytes] w']] eqn:E.
  - apply IH. apply stream_step_progress in E. unfold lengthZ in E. lia.
  - cbn. unfold stream_step in E. repeat case_match; by simplify_eq.
Qed.

(** The task of a stream ends on every finite input, whatever the bytes and
    whatever the service answers: it leaves its loop or panics. *)
Theorem serve_stream_terminates input w : (serve_stream input w).1.1 ≠ Unfinished.
Proof. apply stream_loop_fuel. lia. Qed.

(** Two amounts of fuel that suffice give the same result. *)
Lemma stream_loop_irrelevant fuel fuel' input out w :
  (length input < fuel)%nat → (length input < fuel')%nat →
  stream_loop fuel input out w = stream_loop fuel' input out w.
Proof.
  revert fuel' input out w. induction fuel as [|fuel IH]; intros [|fuel'] input out w H H'; try lia.
  cbn. destruct (stream_step input w) as [[[bytes rest] w']|[[e bytes] w']] eqn:E; [|done].
  apply stream_step_progress in E. unfold lengthZ in E. apply IH; lia.
Qed.

(** ** Streams of well-formed requests *)

(** The requests of a client: tags and messages. *)
Abbreviation requests := (list (u16 * Tmessage)).
Definition request_frame (x : u16 * Tmessage) : Tframe := MkTframe x.1 (Ok x.2).
Definition requests_wire (reqs : requests) : list u8 :=
  concat (map (λ x, Tframe_wire x.1 x.2) reqs).
Definition replies_wire (log : list (Tframe * Rframe)) : list u8 :=
  concat (map (λ x, Rframe_wire x.2) log).

Definition request_ok (x : u16 * Tmessage) : Prop :=
  Tmessage_decodable x.2 = true ∧ frame_fits (Tmessage_wire x.2).

(** A sequence of calls whose replies can be sent. *)
Inductive answers : W → list (Tframe * Rframe) → W → Prop :=
| answers_nil w : answers w [] w
| answers_cons w tx r w1 log w' :
    call tx w = (Done r, w1) → sendable (Rframe_msg r) → answers w1 log w' →
    answers w ((tx, r) :: log) w'.

Lemma stream_step_request x r rest w w1 :
  request_ok x → call (request_frame x) w = (Done r, w1) → sendable (Rframe_msg r) →
  stream_step (Tframe_wire x.1 x.2 ++ rest) w = inl (Rframe_wire r, rest, w1).
Proof.
  intros [Hd Hf] Hc [Hrd _]. unfold stream_step. rewrite Tframe_decode_wire by done.
  unfold request_frame in Hc. rewrite Hc.
  by rewrite Rframe_encode_wire by by apply Rmessage_decodable_encodable.
Qed.

Lemma requests_wire_cons x reqs :
  requests_wire (x :: reqs) = Tframe_wire x.1 x.2 ++ requests_wire reqs.
Proof. done. Qed.

Lemma Tframe_wire_length tag m : (7 <= length (Tframe_wire tag m))%nat.
Proof.
  pose proof (lengthZ_frame_wire (Tmessage_type m) tag (Tmessage_wire m)) as H.
  pose proof (lengthZ_nonneg (Tmessage_wire m)). unfold Tframe_wire, lengthZ in *.
  unfold FRAME_HEADER in *. lia.
Qed.

(** The loop on the requests of a log and what follows them. *)
Lemma stream_loop_answers reqs log tail e rest out w w' fuel :
  Forall request_ok reqs → map fst log = map request_frame reqs → answers w log w' →
  Tframe_decode tail = (Err e, rest) →
  (length (requests_wire reqs ++ tail) < fuel)%nat →
  stream_loop fuel (requests_wire reqs ++ tail) out w = (Closed e, out ++ replies_wire log, w').
Proof.
  intros Hreqs Hlog Hans Htail. revert reqs out fuel Hreqs Hlog.
  induction Hans as [w|w tx r w1 log w' Hc Hs Hans IH]; intros reqs out fuel Hreqs Hlog Hfuel.
  - destruct reqs; [|done]. destruct fuel; [lia|]. unfold requests_wire. cbn [map concat app stream_loop].
    unfold stream_step. by rewrite Htail.
  - destruct reqs as [|x reqs]; [done|]. cbn in Hlog. injection Hlog as -> Hlog.
    apply Forall_cons in Hreqs as [Hx Hreqs]. destruct fuel; [lia|].
    rewrite requests_wire_cons, <- app_assoc in *. cbn [stream_loop].
    rewrite (stream_step_request x r _ w w1) by done.
    rewrite IH; [|done..|].
    + unfold replies_wire. cbn [map concat snd]. by rewrite app_assoc.
    + rewrite length_app in Hfuel. pose proof (Tframe_wire_length x.1 x.2). lia.
Qed.

(** The proxy on the same requests. *)
Lemma proxy_loop_answers reqs log tail e rest out w w' fuel :
  Forall request_ok reqs → map fst log = map request_frame reqs → answers w log w' →
  Tframe_decode tail = (Err e, rest) →
  (length (requests_wire reqs ++ tail) < fuel)%nat →
  proxy_loop fuel (requests_wire reqs ++ tail) [] [] out w =
  (Closed e, out ++ replies_wire log, w').
Proof.
  intros Hreqs Hlog Hans Htail. revert reqs out fuel Hreqs Hlog.
  induction Hans as [w|w tx r w1 log w' Hc Hs Hans IH]; intros reqs out fuel Hreqs Hlog Hfuel.
  - destruct reqs; [|done]. destruct fuel; [lia|]. unfold requests_wire. cbn [map concat app proxy_loop].
    rewrite Htail. by rewrite app_nil_r.
  - destruct reqs as [|x reqs]; [done|]. cbn in Hlog. injection Hlog as -> Hlog.
    apply Forall_cons in Hreqs as [Hx Hreqs]. destruct fuel; [lia|].
    rewrite requests_wire_cons, <- app_assoc in *. cbn [proxy_loop].
    destruct (Hx) as [Hxd Hxf]. rewrite Tframe_decode_wire by done.
    rewrite Tframe_encode_wire by by apply Tmessage_decodable_encodable. cbn [app].
    rewrite <- (app_nil_r (Tframe_wire x.1 x.2)), (stream_step_request x r [] w w1) by done.
    destruct Hs as [Hrd Hrf]. cbn [app]. rewrite <- (app_nil_r (Rframe_wire r)).
    rewrite Rframe_decode_wire by done.
    rewrite Rframe_encode_wire by by apply Rmessage_decodable_encodable.
    rewrite IH; [|done..|].
    + unfold replies_wire. cbn [map concat snd]. by rewrite app_assoc.
    + rewrite length_app in Hfuel. pose proof (Tframe_wire_length x.1 x.2). lia.
Qed.

End stream.

(** ** The file server behind a stream *)

Section ufs_stream.
Context {L : Libc} {K : Kernel} {KD : KernelDirents K}.

Definition path_max_ok : Prop := 0 <= PATH_MAX <= u16_max.

(** The configuration of a server that answers every request with a reply that
    can be sent. *)
Definition serving (fuel : nat) (s : Server) : Prop :=
  ready fuel s ∧ uval (cfg_msize (srv_cfg s)) <= MAX_DATA_LENGTH.

Lemma handle_serving fuel x s k :
  path_max_ok → serving fuel s → request_ok x →
  ∃ r s' k', handle fuel (request_frame x) (s, k) = (Done r, (s', k')) ∧
    sendable (Rframe_msg r) ∧ serving fuel s'.
Proof.
  intros Hmax [Hready Hms] [Hd Hf].
  destruct (handle_total fuel (request_frame x) s k Hready) as (r & s' & k' & Hh & Hready').
  exists r, s', k'. split_and!; [done| |split; [done|]].
  - apply handle_cases in Hh as [_ [Hdis|(e & Hdis & ->)]];
      [|split; [reflexivity|vm_compute; reflexivity]].
    eapply dispatch_sendable; [done|exact Hms|exact Hd|exact Hdis].
  - assert (served fuel (s, k) [(request_frame x, r)] (s', k')) as Hs.
    { econstructor; [done|constructor]. }
    apply served_run, run_msize in Hs as [Hle _]. cbn in Hle. lia.
Qed.

Lemma ufs_answers fuel reqs s k :
  path_max_ok → serving fuel s → Forall request_ok reqs →
  ∃ log s' k', map fst log = map request_frame reqs ∧
    answers (handle fuel) (s, k) log (s', k') ∧ served fuel (s, k) log (s', k').
Proof.
  intros Hmax Hs Hreqs. revert s k Hs.
  induction Hreqs as [|x reqs Hx Hreqs IH]; intros s k Hs.
  { exists [], s, k. split_and!; constructor. }
  destruct (handle_serving fuel x s k Hmax Hs Hx) as (r & s1 & k1 & Hh & Hr & Hs1).
  destruct (IH s1 k1 Hs1) as (log & s' & k' & Hlog & Ha & Hsv).
  exists ((request_frame x, r) :: log), s', k'. split_and!.
  - cbn. by rewrite Hlog.
  - by econstructor.
  - by econstructor.
Qed.

(** C30. A client that sends well-formed requests over a stream, in any number
    and of any kind, gets one reply for each, in order, and nothing else: the
    bytes written are the frames of the replies of the session [log], in which
    the server handled the requests one after the other; the stream is closed
    when no further frame can be decoded.  The server has a message size from 11
    bytes to 32 MiB, paths have at most [u16_max] bytes, and with the option
    [ascii_casefold] every directory has less than [fuel] records ([serving],
    [path_max_ok]). *)
Theorem stream_serves_session fuel reqs tail e rest s k :
  path_max_ok → serving fuel s → Forall request_ok reqs → Tframe_decode tail = (Err e, rest) →
  ∃ log s' k',
    served fuel (s, k) log (s', k') ∧ map fst log = map request_frame reqs ∧
    serve_stream (handle fuel) (requests_wire reqs ++ tail) (s, k) =
      (Closed e, replies_wire log, (s', k')).
Proof.
  intros Hmax Hs Hreqs Htail.
  destruct (ufs_answers fuel reqs s k Hmax Hs Hreqs) as (log & s' & k' & Hlog & Ha & Hsv).
  exists log, s', k'. split_and!; [done..|].
  apply (stream_loop_answers (handle fuel) reqs log tail e rest []); [done..|lia].
Qed.

(** C31. The proxy is transparent for well-formed requests: the client of a
    proxied connection receives the same bytes, and leaves the server in the
    same state, as if it were connected to the server itself.  The server has a
    message size from 11 bytes to 32 MiB, so that the proxy can decode its replies,
    paths have at most [u16_max] bytes, and with the option [ascii_casefold] every
    directory has less than [fuel] records ([serving], [path_max_ok]). *)
Theorem proxy_transparent fuel reqs tail e rest s k :
  path_max_ok → serving fuel s → Forall request_ok reqs → Tframe_decode tail = (Err e, rest) →
  run_proxy (handle fuel) (requests_wire reqs ++ tail) (s, k) =
  serve_stream (handle fuel) (requests_wire reqs ++ tail) (s, k).
Proof.
  intros Hmax Hs Hreqs Htail.
  destruct (ufs_answers fuel reqs s k Hmax Hs Hreqs) as (log & s' & k' & Hlog & Ha & _).
  unfold run_proxy, serve_stream.
  rewrite (stream_loop_answers (handle fuel) reqs log tail e rest [] (s, k) (s', k')) by (done || lia).
  by rewrite (proxy_loop_answers (handle fuel) reqs log tail e rest [] (s, k) (s', k')) by (done || lia).
Qed.

(** It is not transparent for a frame whose body cannot be decoded: a server
    answers such a frame with [EINVAL] and goes on, while the proxy panics and
    drops the connection without an answer. *)
Theorem proxy_crashes_on_undecodable fuel input tag e rest s k :
  Tframe_decode input = (Ok (MkTframe tag (Err e)), rest) →
  stream_step (handle fuel) input (s, k) =
    inl (Rframe_wire (MkRframe tag (RLerror (MkRlerror (U32 EINVAL)))), rest, (s, k)) ∧
  run_proxy (handle fuel) input (s, k) = (Crashed, [], (s, k)).
Proof.
  intros Hd. split.
  - assert (handle fuel (MkTframe tag (Err e)) (s, k) =
      (Done (MkRframe tag (RLerror (MkRlerror (U32 EINVAL)))), (s, k))) as Hh by reflexivity.
    unfold stream_step. by rewrite Hd, Hh, Rframe_encode_wire.
  - unfold run_proxy. cbn [proxy_loop]. by rewrite Hd.
Qed.

End ufs_stream.
