(* ===== verification/Concurrent.v ===== *)
(** * Many streams, one server

    [QuicServer::serve] runs a task for every stream; each task sends its request
    through a [Handler] ([jetstream/src/server/ufs.rs]) into an unbounded queue
    and waits for the reply, and [Ufs::run] takes the requests from the queue one
    at a time.  The tasks interleave freely: the system is a step relation, and
    the theorem is that every interleaving is a session of the sequential
    server. *)

From S2P Require Import Prelude StdIo WireFormat Derive MessageTypes Messages FrameFacts Os.

#[local] Arguments Tframe_decode : simpl never.
#[local] Arguments Rframe_encode : simpl never.

Section concurrent.
Context {W : Type} (handle : Tframe → st W Rframe).

(** Where the task of a stream stands: about to decode, waiting for the reply
    to its request, with a reply to write, or ended. *)
Inductive phase := Reading | Waiting | Writing (r : Rframe) | Ended.

Record stream := MkStream { st_input : list u8; st_out : list u8; st_phase : phase }.

(** [queue] holds the [Handle]s: the request and the stream that waits for its
    reply. *)
Record system := MkSystem {
  streams : gmap nat stream; queue : list (nat * Tframe); server : W
}.

(** A request handled: the stream it came from, the request and the reply. *)
Abbreviation handled := (nat * (Tframe * Rframe))%type.

Inductive step : system → option handled → system → Prop :=
(* [Req::decode_async] and [Handler::call] *)
| step_call ss q w i inp out t rest :
    ss !! i = Some (MkStream inp out Reading) → Tframe_decode inp = (Ok t, rest) →
    step (MkSystem ss q w) None
         (MkSystem (<[i := MkStream rest out Waiting]> ss) (q ++ [(i, t)]) w)
(* the end of the loop *)
| step_close ss q w i inp out e rest :
    ss !! i = Some (MkStream inp out Reading) → Tframe_decode inp = (Err e, rest) →
    step (MkSystem ss q w) None (MkSystem (<[i := MkStream inp out Ended]> ss) q w)
(* an iteration of [Ufs::run]; the stream is there to receive the reply *)
| step_process ss q w i t r w' inp out :
    handle t w = (Done r, w') → ss !! i = Some (MkStream inp out Waiting) →
    step (MkSystem ss ((i, t) :: q) w) (Some (i, (t, r)))
         (MkSystem (<[i := MkStream inp out (Writing r)]> ss) q w')
(* [rframe.encode_async] *)
| step_write ss q w i inp out r bytes :
    ss !! i = Some (MkStream inp out (Writing r)) → Rframe_encode r = (bytes, Ok ()) →
    step (MkSystem ss q w) None
         (MkSystem (<[i := MkStream inp (out ++ bytes) Reading]> ss) q w)
(* its [unwrap] panics: the task ends *)
| step_crash ss q w i inp out r bytes e :
    ss !! i = Some (MkStream inp out (Writing r)) → Rframe_encode r = (bytes, Err e) →
    step (MkSystem ss q w) None (MkSystem (<[i := MkStream inp (out ++ bytes) Ended]> ss) q w).

(** A run with the requests handled on the way, oldest first. *)
Inductive run (s0 : system) : list handled → system → Prop :=
| run_refl : run s0 [] s0
| run_snoc log s1 x s2 :
    run s0 log s1 → step s1 x s2 → run s0 (log ++ option_list x) s2.

(** The streams with their input, before any task has run. *)
Definition start (inputs : gmap nat (list u8)) (w : W) : system :=
  MkSystem ((λ inp, MkStream inp [] Reading) <$> inputs) [] w.

(** ** What is observed *)

(** [ts] are the frames at the start of [inp], followed by [rest]. *)
Inductive decodes : list u8 → list Tframe → list u8 → Prop :=
| decodes_nil inp : decodes inp [] inp
| decodes_cons inp t inp1 ts rest :
    Tframe_decode inp = (Ok t, inp1) → decodes inp1 ts rest → decodes inp (t :: ts) rest.

(** The sequential server on the requests of the log. *)
Inductive sequential : W → list (Tframe * Rframe) → W → Prop :=
| sequential_nil w : sequential w [] w
| sequential_snoc w log w1 t r w2 :
    sequential w log w1 → handle t w1 = (Done r, w2) → sequential w (log ++ [(t, r)]) w2.

(** The entries of one stream. *)
Definition mine {A} (i : nat) (l : list (nat * A)) : list A :=
  omap (λ x, if decide (x.1 = i) then Some x.2 else None) l.

#[local] Arguments mine : simpl never.

Definition reply_bytes (log : list (Tframe * Rframe)) : list u8 :=
  concat (map (λ x, (Rframe_encode x.2).1) log).

(** What the task has still to write. *)
Definition unwritten (p : phase) : list u8 :=
  match p with Writing r => (Rframe_encode r).1 | _ => [] end.

Definition waiting (p : phase) : bool := match p with Waiting => true | _ => false end.

(** ** The invariant *)

Lemma mine_app {A} i (l k : list (nat * A)) : mine i (l ++ k) = mine i l ++ mine i k.
Proof. unfold mine. by rewrite omap_app. Qed.
Lemma mine_same {A} i (x : A) : mine i [(i, x)] = [x].
Proof. unfold mine. cbn. by rewrite decide_True. Qed.
Lemma mine_other {A} i j (x : A) : i ≠ j → mine i [(j, x)] = [].
Proof. intros. unfold mine. cbn. by rewrite decide_False by congruence. Qed.

Lemma mine_cons_same {A} i (x : A) l : mine i ((i, x) :: l) = x :: mine i l.
Proof. unfold mine. cbn. by rewrite decide_True. Qed.
Lemma mine_cons_other {A} i j (x : A) l : i ≠ j → mine i ((j, x) :: l) = mine i l.
Proof. intros. unfold mine. cbn. by rewrite decide_False by congruence. Qed.

Lemma decodes_snoc inp ts inp1 t rest :
  decodes inp ts inp1 → Tframe_decode inp1 = (Ok t, rest) → decodes inp (ts ++ [t]) rest.
Proof.
  induction 1; cbn; intros Ht; [|by econstructor; [|auto]].
  econstructor; [done|constructor].
Qed.

Record stream_inv (inp0 : list u8) (log : list (Tframe * Rframe)) (q : list Tframe)
    (s : stream) : Prop := {
  inv_input : decodes inp0 (map fst log ++ q) (st_input s);
  inv_out : st_out s ++ unwritten (st_phase s) = reply_bytes log;
  inv_queue : length q = if waiting (st_phase s) then 1%nat else 0%nat
}.

Definition system_inv (inputs : gmap nat (list u8)) (w0 : W) (log : list handled) (s : system) :
    Prop :=
  sequential w0 (map snd log) (server s) ∧
  (∀ i, match streams s !! i, inputs !! i with
        | Some st, Some inp0 => stream_inv inp0 (mine i log) (mine i (queue s)) st
        | None, None => mine i (queue s) = []
        | _, _ => False
        end).

Lemma start_inv inputs w0 : system_inv inputs w0 [] (start inputs w0).
Proof.
  split; [constructor|]. intros i. cbn. rewrite lookup_fmap.
  destruct (inputs !! i) as [inp|]; cbn; [|done]. split; cbn; [constructor|done..].
Qed.

Definition streams_inv (inputs : gmap nat (list u8)) (log : list handled)
    (q : list (nat * Tframe)) (ss : gmap nat stream) : Prop :=
  ∀ i, match ss !! i, inputs !! i with
       | Some st, Some inp0 => stream_inv inp0 (mine i log) (mine i q) st
       | None, None => mine i q = []
       | _, _ => False
       end.

(** One stream changes, and the log and the queue only for that stream. *)
Lemma streams_inv_update inputs log log' q q' ss i st st' :
  streams_inv inputs log q ss → ss !! i = Some st →
  (∀ j, j ≠ i → mine j log' = mine j log ∧ mine j q' = mine j q) →
  (∀ inp0, stream_inv inp0 (mine i log) (mine i q) st →
           stream_inv inp0 (mine i log') (mine i q') st') →
  streams_inv inputs log' q' (<[i := st']> ss).
Proof.
  intros Hinv Hi Hother Hsame j. specialize (Hinv j). destruct (decide (i = j)) as [<-|Hij].
  - rewrite lookup_insert_eq. rewrite Hi in Hinv. destruct (inputs !! i); auto.
  - rewrite lookup_insert_ne by done. destruct (Hother j) as [-> ->]; done.
Qed.

Lemma step_inv inputs w0 log s x s' :
  system_inv inputs w0 log s → step s x s' → system_inv inputs w0 (log ++ option_list x) s'.
Proof.
  intros [Hseq Hst] Hstep. change (streams_inv inputs log (queue s) (streams s)) in Hst.
  destruct Hstep as [ss q w i inp out t rest Hi Hd|ss q w i inp out e rest Hi Hd|
    ss q w i t r w' inp out Hh Hi|ss q w i inp out r bytes Hi He|ss q w i inp out r bytes e Hi He];
    cbn in *; rewrite ?app_nil_r.
  - split; [done|]. eapply streams_inv_update; [exact Hst|exact Hi|..].
    + intros j Hj. cbn. by rewrite mine_app, mine_other, app_nil_r by done.
    + intros inp0 [Hin Hout Hq]. cbn in Hin, Hout, Hq |- *. apply length_zero_iff_nil in Hq.
      rewrite mine_app, mine_same, Hq in *. cbn. rewrite app_nil_r in Hin.
      split; cbn; [by eapply decodes_snoc|done..].
  - split; [done|]. eapply streams_inv_update; [exact Hst|exact Hi|done|].
    intros inp0 [Hin Hout Hq]. by split.
  - split.
    + rewrite map_app. by econstructor.
    + eapply streams_inv_update; [exact Hst|exact Hi|..].
      * intros j Hj. rewrite mine_app, mine_other, app_nil_r by done. split; [done|].
        cbn. by rewrite mine_cons_other.
      * intros inp0 [Hin Hout Hq]. rewrite mine_app, mine_same, mine_cons_same in *.
        cbn in Hin, Hout, Hq |- *. injection Hq as Hq. apply length_zero_iff_nil in Hq.
        rewrite Hq in *. split; cbn; [| |done].
        -- rewrite map_app. cbn. by rewrite app_nil_r.
        -- unfold reply_bytes in *. rewrite map_app, concat_app, <- Hout. cbn.
           by rewrite !app_nil_r.
  - split; [done|]. eapply streams_inv_update; [exact Hst|exact Hi|done|].
    intros inp0 [Hin Hout Hq]. cbn in *. rewrite He in Hout. split; cbn; [done| |done].
    by rewrite app_nil_r.
  - split; [done|]. eapply streams_inv_update; [exact Hst|exact Hi|done|].
    intros inp0 [Hin Hout Hq]. cbn in *. rewrite He in Hout. split; cbn; [done| |done].
    by rewrite app_nil_r.
Qed.

Lemma run_inv inputs w0 log s : run (start inputs w0) log s → system_inv inputs w0 log s.
Proof. induction 1; [apply start_inv|by eapply step_inv]. Qed.

(** C4. Every interleaving of the streams is a session of the sequential
    server: the requests handled, in the order they were handled, are answered as
    by a server that handles them one after the other, and a stream that is ready
    to read has received exactly the replies to the requests at the start of its
    own input, in their order and no other stream's. *)
Theorem streams_linearizable inputs w0 log s :
  run (start inputs w0) log s →
  sequential w0 (map snd log) (server s) ∧
  ∀ i inp out, streams s !! i = Some (MkStream inp out Reading) →
    ∃ inp0, inputs !! i = Some inp0 ∧ decodes inp0 (map fst (mine i log)) inp ∧
            out = reply_bytes (mine i log).
Proof.
  intros [Hseq Hst]%run_inv. split; [done|]. intros i inp out Hi. specialize (Hst i).
  rewrite Hi in Hst. destruct (inputs !! i) as [inp0|]; [|done].
  destruct Hst as [Hin Hout Hq]. cbn in *. apply length_zero_iff_nil in Hq.
  rewrite Hq, app_nil_r in *. by exists inp0.
Qed.

(** The queue never blocks: as long as the server answers, the request at
    its head can be handled and its reply delivered, since the stream it came
    from exists and is waiting (so the [unwrap] of [reply_to.send] does not
    panic). *)
Theorem queue_head_waits inputs w0 log s i t q r w' :
  run (start inputs w0) log s → queue s = (i, t) :: q → handle t (server s) = (Done r, w') →
  ∃ s', step s (Some (i, (t, r))) s' ∧ queue s' = q ∧ server s' = w'.
Proof.
  intros [_ Hst]%run_inv Hq Hh. specialize (Hst i). destruct s as [ss q0 w]. cbn in *. subst q0.
  rewrite mine_cons_same in Hst.
  destruct (ss !! i) as [[inp out p]|] eqn:Hi, (inputs !! i) as [inp0|]; try done.
  destruct Hst as [_ _ Hlen]. cbn in Hlen. destruct p; try done.
  eexists. split; [by eapply step_process|done].
Qed.

End concurrent.
