(* ===== verification/Witnesses.v ===== *)
(** * Examples of the file server

    The constants of Linux on x86-64 and a small kernel with one directory that
    holds one file, which satisfies the laws the theorems assume of a kernel; and the
    theorems about the file server applied to a session with it: negotiation,
    attaching, walking, opening and listing. *)

From S2P Require Import Prelude StdIo Os ReadDir Ufs UfsFacts WireFormat Derive MessageTypes Messages.
From S2P Require Import FrameFacts Extensions Session Ownership Service Concurrent.

#[export] Instance linux : Libc := {|
  ENOENT := 2; EPERM := 1; ECONNREFUSED := 111; ECONNRESET := 104; ECONNABORTED := 103;
  ENOTCONN := 107; EADDRINUSE := 98; EADDRNOTAVAIL := 99; EPIPE := 32; EEXIST := 17;
  EWOULDBLOCK := 11; EINVAL := 22; ETIMEDOUT := 110; EIO := 5; EINTR := 4;
  EBADF := 9; EOPNOTSUPP := 95; EACCES := 13; EISDIR := 21; ENOTDIR := 20;
  O_RDONLY := 0; O_WRONLY := 1; O_RDWR := 2; O_CREAT := 0x40; O_EXCL := 0x80;
  O_NOCTTY := 0x100; O_TRUNC := 0x200; O_APPEND := 0x400; O_NONBLOCK := 0x800;
  O_DSYNC := 0x1000; O_DIRECT := 0x4000; O_LARGEFILE := 0; O_DIRECTORY := 0x10000;
  O_NOFOLLOW := 0x20000; O_NOATIME := 0x40000; O_SYNC := 0x101000;
  O_CLOEXEC := 0x80000; O_PATH := 0x200000;
  S_IFMT := 0xf000; S_IFREG := 0x8000; S_IFDIR := 0x4000; S_IFLNK := 0xa000;
  AT_FDCWD := -100; AT_EMPTY_PATH := 0x1000; AT_SYMLINK_NOFOLLOW := 0x100;
  AT_SYMLINK_FOLLOW := 0x400;
  SEEK_SET := 0; UTIME_OMIT := 0x3ffffffe; UTIME_NOW := 0x3fffffff; PATH_MAX := 4096
|}.

(** The open descriptors, and those whose directory has been listed. *)
Record toy := MkToy { toy_open : list Z; toy_listed : list Z }.

Definition fresh_fd (l : list Z) : Z := 1 + foldr Z.max 0 l.

Lemma fresh_fd_spec l : fresh_fd l ∉ l.
Proof.
  assert (∀ x, x ∈ l → x <= foldr Z.max 0 l) as Hmax.
  { induction l as [|y l IH]; intros x Hx; [by apply elem_of_nil in Hx|].
    cbn. apply elem_of_cons in Hx as [->|Hx]; [lia|]. specialize (IH x Hx). lia. }
  intros H%Hmax. unfold fresh_fd in H. lia.
Qed.

Definition toy_opens (k : toy) : (Z + Z) * toy :=
  let fd := fresh_fd (toy_open k) in (inl fd, MkToy (fd :: toy_open k) (toy_listed k)).

Definition without (d : Z) (l : list Z) : list Z := filter (λ x, negb (x =? d)) l.

Definition toy_dir_entry : DirEntry :=
  MkDirEntry (U64 7) (U64 1) (U8 8) (bytes_of_string "hello").
Definition toy_records : list (DirEntry * list u8) := [(toy_dir_entry, [U8 0; U8 0])].

Definition toy_getdents (d n : Z) (k : toy) : (list u8 + Z) * toy :=
  if bool_decide (d ∈ toy_listed k) then (inl [], k)
  else if n <? lengthZ (records_wire toy_records) then (inr 22, k)
  else (inl (records_wire toy_records), MkToy (toy_open k) (d :: toy_listed k)).

Definition toy_stat : stat64 :=
  MkStat64 (U32 0x41ed) (U64 7) (U32 0) (U32 0) (U64 2) (U64 0) 5 4096 8 0 0 1 0 0 0.

#[export] Instance toy_kernel : Kernel := {|
  kstate := toy;
  openat64 := λ _ path _ _ k,
    if bool_decide (path = bytes_of_string "missing") then (inr 2, k) else toy_opens k;
  fstatat64 := λ _ _ _ k, (inl toy_stat, k);
  fstat64 := λ _ k, (inl toy_stat, k);
  fstatfs64 := λ _ k, (inl (MkStatfs64 1 4096 (U64 9) (U64 8) (U64 7) (U64 6) (U64 5) (U64 4) 255), k);
  readlinkat := λ _ _ _ k, (inr 22, k);
  fchmodat := λ _ _ _ _ k, (inl (), k);
  fchownat := λ _ _ _ _ _ k, (inl (), k);
  utimensat := λ _ _ _ _ _ k, (inl (), k);
  linkat := λ _ _ _ _ _ k, (inl (), k);
  mkdirat := λ _ _ _ k, (inl (), k);
  renameat := λ _ _ _ _ k, (inl (), k);
  unlinkat := λ _ _ _ k, (inl (), k);
  getdents64 := toy_getdents;
  lseek64 := λ d o _ k, (inl o, MkToy (toy_open k) (without d (toy_listed k)));
  pread64 := λ _ n _ k, (inl (takeZ n (bytes_of_string "contents")), k);
  pwrite64 := λ _ bs _ k, (inl (lengthZ bs), k);
  ftruncate64 := λ _ _ k, (inl (), k);
  fsync := λ _ k, (inl (), k);
  fdatasync := λ _ k, (inl (), k);
  dup_cloexec := λ _ k, toy_opens k;
  close := λ d k, MkToy (without d (toy_open k)) (without d (toy_listed k))
|}.

Lemma toy_opens_fresh k fd k' :
  toy_opens k = (inl fd, k') →
  (fd ∉ (list_to_set (toy_open k) : gset Z)) ∧
  (list_to_set (toy_open k') : gset Z) = {[fd]} ∪ list_to_set (toy_open k).
Proof.
  intros [= <- <-]. split; [|done]. rewrite elem_of_list_to_set. apply fresh_fd_spec.
Qed.

#[export] Instance toy_fds : KernelFds toy_kernel.
Proof.
  refine {| open_fds := λ k : @kstate toy_kernel, list_to_set (toy_open k) |}; try done; cbn.
  - intros d p fl m k fd k'. case_bool_decide; [done|]. apply toy_opens_fresh.
  - intros d p fl m k e k'. case_bool_decide; [by intros [= _ <-]|done].
  - intros d k fd k'. apply toy_opens_fresh.
  - intros d k. unfold without. apply set_eq. intros x.
    rewrite elem_of_list_to_set, elem_of_difference, elem_of_list_to_set, elem_of_singleton.
    rewrite list_elem_of_filter. destruct (Z.eqb_spec x d); cbn; tauto.
  - intros d n k. unfold toy_getdents. by repeat case_match.
Defined.

#[export] Instance toy_dirents : KernelDirents toy_kernel.
Proof.
  intros d n k bytes k' Hn. cbn. unfold toy_getdents. case_bool_decide.
  - intros [= <- _]. rewrite lengthZ_nil. split; [done|]. by exists [].
  - destruct (Z.ltb_spec n (lengthZ (records_wire toy_records))); [done|]. intros [= <- _].
    split; [done|]. exists toy_records. split; [|done]. repeat constructor.
    all: vm_compute; done.
Qed.

(** The directory has one record. *)
Lemma records_wire_length rs : (length rs <= Z.to_nat (lengthZ (records_wire rs)))%nat.
Proof.
  induction rs as [|r rs IH]; [cbn; lia|].
  rewrite records_wire_cons, lengthZ_app. pose proof (dirent_wire_pos r.1 r.2).
  pose proof (lengthZ_nonneg (records_wire rs)). cbn [length]. lia.
Qed.

Lemma toy_dirs_end : dirs_end (K := toy_kernel) 100.
Proof.
  exists (λ (k : @kstate toy_kernel) d, if bool_decide (d ∈ toy_listed k) then 0%nat else 99%nat).
  split; [intros k d; case_bool_decide; lia|].
  intros d k rs k' _. cbn. pose proof (records_wire_length rs) as Hl. unfold toy_getdents.
  case_bool_decide as Hd.
  - intros [= E <-]. rewrite <- E in Hl. rewrite bool_decide_eq_true_2 by done.
    change (length rs <= 0)%nat in Hl. lia.
  - case_match; [done|]. intros [= E <-]. rewrite <- E in Hl. cbn [toy_listed].
    rewrite bool_decide_eq_true_2 by (apply elem_of_cons; by left).
    assert (lengthZ (records_wire toy_records) = 27) as Hn by reflexivity. rewrite Hn in Hl. lia.
Qed.

(** Serving a list of requests, as a function. *)
Fixpoint serve_all {L : Libc} {K : Kernel} (fuel : nat) (txs : list Tframe) (w : world) :
    option (list (Tframe * Rframe) * world) :=
  match txs with
  | [] => Some ([], w)
  | tx :: txs =>
      match handle fuel tx w with
      | (Done r, w1) =>
          match serve_all fuel txs w1 with
          | Some (log, w') => Some ((tx, r) :: log, w')
          | None => None
          end
      | _ => None
      end
  end.

Lemma serve_all_served {L : Libc} {K : Kernel} fuel txs w log w' :
  serve_all fuel txs w = Some (log, w') → served fuel w log w'.
Proof.
  revert w log. induction txs as [|tx txs IH]; intros w log; cbn.
  { intros [= <- <-]. constructor. }
  destruct (handle fuel tx w) as [[] w1] eqn:Hh; try done.
  destruct (serve_all fuel txs w1) as [[log1 w2]|] eqn:Hs; [|done].
  intros [= <- <-]. econstructor; [done|]. by apply IH.
Qed.

(** The process starts with three descriptors open. *)
Definition toy_start : @kstate toy_kernel := MkToy [0; 1; 2] [].
Definition toy_config : Config := Config_default.
Definition toy_boot : res Server * @kstate toy_kernel := Server_with_config toy_config toy_start.
Definition toy_server : Server :=
  match toy_boot.1 with Done s => s | _ => MkServer ∅ (MkFile 0) toy_config end.

Definition req (tag : Z) (m : Tmessage) : Tframe := MkTframe (U16 tag) (Ok m).

Definition toy_attach : Tattach := MkTattach (U32 1) (U32 0) (str_lit "u") (str_lit "") (U32 0).
Definition toy_walk : Twalk := MkTwalk (U32 1) (U32 2) [str_lit "a"; str_lit "b"].
Definition toy_readdir : Treaddir := MkTreaddir (U32 2) (U64 0) (U32 100).
Definition toy_read : Tread := MkTread (U32 2) (U64 0) (U32 4).
Definition toy_version : Tversion := MkTversion (U32 8192) (str_lit "9P2000.L").

Definition toy_requests : list Tframe :=
  [ req 0 (TVersion toy_version); req 1 (TAttach toy_attach); req 2 (TWalk toy_walk);
    req 3 (TLopen (MkTlopen (U32 2) (U32 0))); MkTframe (U16 4) (Err (KindError InvalidData)) ].

Definition is_done {A B} (r : res A * B) : bool := match r.1 with Done _ => true | _ => false end.

(** The value of a computation that succeeds, and the state it leaves. *)
Definition value_of {A B} (r : res A * B) (d : A) : A := match r.1 with Done a => a | _ => d end.

Lemma value_of_done {A B} (r : res A * B) d : is_done r = true → r = (Done (value_of r d), r.2).
Proof. by destruct r as [[] ?]. Qed.

Lemma value_of_world {A} (r : res A * world) d :
  is_done r = true → r = (Done (value_of r d), (r.2.1, r.2.2)).
Proof. by destruct r as [[] []]. Qed.

Definition toy_served : list (Tframe * Rframe) * world :=
  default ([], (toy_server, toy_boot.2)) (serve_all 10 toy_requests (toy_server, toy_boot.2)).
Definition toy_log : list (Tframe * Rframe) := toy_served.1.
Definition toy_world : world := toy_served.2.

Lemma toy_session : served 10 (toy_server, toy_boot.2) toy_log (toy_world.1, toy_world.2).
Proof.
  assert (bool_decide (is_Some (serve_all 10 toy_requests (toy_server, toy_boot.2))) = true) as H
    by (vm_compute; reflexivity).
  apply bool_decide_eq_true in H as [x H].
  apply (serve_all_served 10 toy_requests). unfold toy_log, toy_world, toy_served. rewrite H.
  by destruct x as [? []].
Qed.

Lemma toy_replies : map (λ x, Rmessage_type (Rframe_msg x.2)) toy_log =
  [RVERSION; RATTACH; RWALK; RLOPEN; RLERROR].
Proof. vm_compute. reflexivity. Qed.

(** ** Directories *)

Lemma read_dir_next_entry_witness :
  no_nul (de_name toy_dir_entry) ∧
  next (MkReadDir (MkFile 3) ([U8 1] ++ dirent_wire toy_dir_entry [U8 0] ++ []) 1) toy_start =
  (Done (Some (toy_dir_entry, MkReadDir (MkFile 3)
     ([U8 1] ++ dirent_wire toy_dir_entry [U8 0] ++ [])
     (lengthZ ([U8 1] ++ dirent_wire toy_dir_entry [U8 0])))), toy_start).
Proof.
  assert (no_nul (de_name toy_dir_entry)) as Hname by (repeat constructor; vm_compute; done).
  split; [exact Hname|].
  exact (read_dir_next_entry (MkFile 3) [U8 1] toy_dir_entry [U8 0] [] toy_start Hname eq_refl).
Defined.

(** ** The session *)

Definition no_reply : Rframe := MkRframe (U16 0) RFlush.
Definition toy_handle : res Rframe * world :=
  handle 10 (req 1 (TAttach toy_attach)) (toy_server, toy_boot.2).

Lemma handle_refines_session_witness :
  Rframe_tag (value_of toy_handle no_reply) = U16 1 ∧
  session_step (abs toy_server) (TAttach toy_attach)
    (Rframe_msg (value_of toy_handle no_reply)) (abs toy_handle.2.1).
Proof.
  apply (handle_refines_session 10 (req 1 (TAttach toy_attach)) toy_server toy_boot.2
    (value_of toy_handle no_reply) toy_handle.2.1 toy_handle.2.2).
  apply value_of_world. vm_compute. reflexivity.
Defined.

Lemma served_fids_live_witness :
  bool_decide (is_Some (srv_fids toy_world.1 !! U32 2)) =
  live (U32 2) toy_log (bool_decide (is_Some (srv_fids toy_server !! U32 2))) ∧
  live (U32 2) toy_log false = true.
Proof.
  split.
  - exact (served_fids_live 10 toy_server toy_boot.2 toy_log toy_world.1 toy_world.2 (U32 2)
      toy_session).
  - vm_compute. reflexivity.
Defined.

Lemma served_msize_witness :
  MIN_MESSAGE_SIZE <= uval (cfg_msize (srv_cfg toy_world.1)) <= uval (cfg_msize (srv_cfg toy_server)).
Proof.
  apply (served_msize 10 toy_server toy_boot.2 toy_log toy_world.1 toy_world.2 toy_session).
  vm_compute. discriminate.
Defined.

Lemma unusable_fid_refused_witness :
  dispatch 10 (TClunk (MkTclunk (U32 9))) (toy_server, toy_boot.2) =
  (Fail (OsError EBADF), (toy_server, toy_boot.2)).
Proof.
  apply (unusable_fid_refused 10 (TClunk (MkTclunk (U32 9))) (U32 9) [] toy_server toy_boot.2).
  - reflexivity.
  - intros (ty & op & H & _). vm_compute in H. discriminate H.
  - exact I.
Defined.

(** ** Descriptors *)

Lemma toy_start_holds : holds toy_start [0; 1; 2].
Proof.
  split; [|reflexivity]. apply (bool_decide_unpack _). vm_compute. exact I.
Qed.

Lemma toy_boot_done : Server_with_config toy_config toy_start = (Done toy_server, toy_boot.2).
Proof. reflexivity. Qed.

Lemma served_no_leak_witness : holds toy_world.2 (owned_fds toy_world.1 ++ [0; 1; 2]).
Proof.
  exact (served_no_leak 10 toy_config [0; 1; 2] toy_start toy_server toy_boot.2 toy_log
    toy_world.1 toy_world.2 toy_start_holds toy_boot_done toy_session).
Defined.

Definition toy_reset : res Rversion * world := Server_version toy_version (toy_server, toy_boot.2).
Definition no_version : Rversion := MkRversion (U32 0) (str_lit "").

Lemma version_releases_all_witness :
  srv_fids toy_reset.2.1 = ∅ ∧ holds toy_reset.2.2 (raw_fd (srv_proc toy_server) :: [0; 1; 2]).
Proof.
  apply (version_releases_all toy_version (value_of toy_reset no_version) toy_server toy_boot.2
    toy_reset.2.1 toy_reset.2.2 [0; 1; 2]).
  - split; [|reflexivity]. apply (bool_decide_unpack _). vm_compute. exact I.
  - apply value_of_world. vm_compute. reflexivity.
Defined.

(** ** Replies *)

(** A server with case-insensitive lookup, which scans the directory. *)
Definition folding_server : Server :=
  MkServer (srv_fids toy_server) (srv_proc toy_server) (set_casefold toy_config true).
Definition folding_requests : list Tframe :=
  [ req 1 (TAttach toy_attach); req 2 (TWalk (MkTwalk (U32 1) (U32 2) [str_lit "missing"])) ].

Lemma requests_answered_witness :
  ∃ log s' k', map fst log = folding_requests ∧
    served 100 (folding_server, toy_boot.2) log (s', k').
Proof.
  apply (requests_answered 100 folding_requests folding_server toy_boot.2);
    [vm_compute; discriminate|intros _; exact toy_dirs_end].
Defined.

Definition toy_list : res Rreaddir * world := Server_readdir toy_readdir (toy_world.1, toy_world.2).
Definition no_listing : Rreaddir := MkRreaddir (MkData []).

Lemma readdir_reply_entries_witness :
  (∃ ds : list Dirent,
    decode_elems (length ds) (data_bytes (Rreaddir_data (value_of toy_list no_listing))) = (Ok ds, []) ∧
    data_bytes (Rreaddir_data (value_of toy_list no_listing)) = wires ds) ∧
  lengthZ (data_bytes (Rreaddir_data (value_of toy_list no_listing))) <= 100 ∧
  lengthZ (Rframe_wire (MkRframe (U16 5) (RReaddir (value_of toy_list no_listing)))) <=
    uval (cfg_msize (srv_cfg toy_world.1)).
Proof.
  apply (readdir_reply_entries toy_readdir (U16 5) toy_world.1 toy_world.2
    (value_of toy_list no_listing) toy_list.2.1 toy_list.2.2).
  apply value_of_world. vm_compute. reflexivity.
Defined.

Lemma toy_listing_length : lengthZ (data_bytes (Rreaddir_data (value_of toy_list no_listing))) = 29.
Proof. vm_compute. reflexivity. Qed.

Definition toy_reading : res Rread * world := Server_read toy_read (toy_world.1, toy_world.2).
Definition no_data : Rread := MkRread (MkData []).

Lemma read_reply_fits_witness :
  let n := Z.min (uval (cfg_msize (srv_cfg toy_world.1)) - 11) (uval (Tread_count toy_read)) in
  ∃ file bytes,
    (srv_fids toy_world.1 !! Tread_fid toy_read ≫= fid_file) = Some file ∧
    pread64 (raw_fd file) n (Tread_offset toy_read) toy_world.2 = (inl bytes, toy_reading.2.2) ∧
    data_bytes (Rread_data (value_of toy_reading no_data)) = takeZ n bytes ∧
    toy_reading.2.1 = toy_world.1 ∧
    lengthZ (Rframe_wire (MkRframe (U16 6) (RRead (value_of toy_reading no_data)))) <=
      uval (cfg_msize (srv_cfg toy_world.1)).
Proof.
  apply (read_reply_fits toy_read (U16 6) toy_world.1 toy_world.2 (value_of toy_reading no_data)
    toy_reading.2.1 toy_reading.2.2).
  apply value_of_world. vm_compute. reflexivity.
Defined.

Lemma handle_message_serves_witness :
  ∃ r s' k',
    handle 0 (req 1 (TAttach toy_attach)) (toy_server, toy_boot.2) = (Done r, (s', k')) ∧
    handle_message 0 (Tframe_wire (U16 1) (TAttach toy_attach) ++ [U8 1]) (toy_server, toy_boot.2) =
      (Done (Ok (), [U8 1], Rframe_wire r), (s', k')) ∧
    Rframe_decode (Rframe_wire r ++ []) = (Ok r, []).
Proof.
  apply (handle_message_serves 0 (U16 1) (TAttach toy_attach) [U8 1] [] toy_server toy_boot.2).
  - vm_compute. split; discriminate.
  - discriminate.
  - vm_compute. split; discriminate.
  - reflexivity.
  - vm_compute. discriminate.
Defined.

(** ** Results on the wire *)

Lemma io_result_decode_tagged_witness :
  io_result_decode (T := u32) (wire (MkRlerror (U32 0)) ++ wire (U32 7) ++ []) =
  (Ok (Ok (U32 7)), []).
Proof. exact (io_result_decode_tagged (T := u32) (MkRlerror (U32 0)) (U32 7) [] eq_refl). Defined.

Lemma io_result_roundtrip_lost_witness :
  io_result_decode (T := u32) ((io_result_encode (Ok (U32 7))).1 ++ []) = (Err (OsError 7), []).
Proof.
  apply (io_result_roundtrip_lost (T := u32) (Ok (U32 7)) (U32 7) [] []);
    [vm_compute; discriminate|reflexivity].
Defined.

(** ** Case-insensitive lookup *)

Definition toy_dir : ReadDir := MkReadDir (MkFile 3) [] 0.
Definition toy_dir_after : ReadDir := MkReadDir (MkFile 3) (records_wire toy_records) 27.

Lemma toy_dir_reaches : reaches toy_dir toy_start [] toy_dir_entry (MkToy [0; 1; 2] [3]).
Proof. apply (reaches_here _ _ _ toy_dir_after). reflexivity. Qed.

Lemma casefold_scan_spec_witness :
  (∀ e, reaches toy_dir toy_start [] e (MkToy [0; 1; 2] [3] : @kstate toy_kernel) →
     eq_ignore_ascii_case (bytes_of_string "HeLLo") (de_name e) = true →
     casefold_scan 5 (MkFile 4) (bytes_of_string "HeLLo") toy_dir toy_start =
     lookup_file (MkFile 4) (de_name e) (MkToy [0; 1; 2] [3] : @kstate toy_kernel)) ∧
  (yields toy_dir toy_start [] (MkToy [0; 1; 2] [3] : @kstate toy_kernel) →
     casefold_scan 5 (MkFile 4) (bytes_of_string "HeLLo") toy_dir toy_start =
     (Fail (OsError ENOENT), MkToy [0; 1; 2] [3] : @kstate toy_kernel)).
Proof.
  apply (casefold_scan_spec 5 (MkFile 4) (bytes_of_string "HeLLo") toy_dir toy_start []
    (MkToy [0; 1; 2] [3] : @kstate toy_kernel)); [cbn; lia|constructor].
Defined.

Lemma toy_lookup_hello :
  casefold_scan 5 (MkFile 4) (bytes_of_string "HeLLo") toy_dir toy_start =
  (Done (MkFile 3), MkToy [3; 0; 1; 2] [3]).
Proof. vm_compute. reflexivity. Qed.

(** ** Streams *)

Lemma toy_path_max : path_max_ok.
Proof. vm_compute. split; discriminate. Qed.

Lemma toy_serving : serving 10 toy_server.
Proof. split; [split|]; [vm_compute; discriminate|discriminate|vm_compute; discriminate]. Qed.

Definition toy_client : list (u16 * Tmessage) :=
  [(U16 0, TVersion toy_version); (U16 1, TAttach toy_attach); (U16 2, TWalk toy_walk)].

Lemma toy_client_ok : Forall request_ok toy_client.
Proof. repeat constructor; vm_compute; reflexivity. Qed.

Lemma end_of_stream : Tframe_decode [] = (Err (KindError UnexpectedEof), []).
Proof. reflexivity. Qed.

Lemma stream_serves_session_witness :
  ∃ log s' k',
    served 10 (toy_server, toy_boot.2) log (s', k') ∧ map fst log = map request_frame toy_client ∧
    serve_stream (handle 10) (requests_wire toy_client ++ []) (toy_server, toy_boot.2) =
      (Closed (KindError UnexpectedEof), replies_wire log, (s', k')).
Proof.
  exact (stream_serves_session 10 toy_client [] _ _ toy_server toy_boot.2 toy_path_max
    toy_serving toy_client_ok end_of_stream).
Defined.

Lemma proxy_transparent_witness :
  run_proxy (handle 10) (requests_wire toy_client ++ []) (toy_server, toy_boot.2) =
  serve_stream (handle 10) (requests_wire toy_client ++ []) (toy_server, toy_boot.2).
Proof.
  exact (proxy_transparent 10 toy_client [] _ _ toy_server toy_boot.2 toy_path_max
    toy_serving toy_client_ok end_of_stream).
Defined.

(** A frame with an unknown message type. *)
Definition odd_frame : list u8 := wire (U32 7) ++ [U8 255] ++ wire (U16 3).

Lemma proxy_crashes_on_undecodable_witness :
  stream_step (handle 10) odd_frame (toy_server, toy_boot.2) =
    inl (Rframe_wire (MkRframe (U16 3) (RLerror (MkRlerror (U32 EINVAL)))), [],
         (toy_server, toy_boot.2)) ∧
  run_proxy (handle 10) odd_frame (toy_server, toy_boot.2) = (Crashed, [], (toy_server, toy_boot.2)).
Proof.
  apply (proxy_crashes_on_undecodable 10 odd_frame (U16 3) (KindError InvalidData) []).
  reflexivity.
Defined.

(** ** Two streams *)

(** A server that counts the requests and answers each with [Rflush]. *)
Definition echo (t : Tframe) : st nat Rframe := λ n, (Done (MkRframe (Tframe_tag t) RFlush), S n).
Definition flush_wire : list u8 := Tframe_wire (U16 4) (TFlush (MkTflush (U16 1))).
Definition flush_frame : Tframe := MkTframe (U16 4) (Ok (TFlush (MkTflush (U16 1)))).
Definition two_inputs : gmap nat (list u8) := <[1%nat := flush_wire]> {[2%nat := flush_wire]}.

Definition waiting_system : system (W := nat) :=
  MkSystem (<[1%nat := MkStream [] [] Waiting]> (streams (start two_inputs 0%nat)))
    [(1%nat, flush_frame)] 0%nat.

Lemma waiting_run : run echo (start two_inputs 0%nat) [] waiting_system.
Proof.
  apply (run_snoc echo _ [] (start two_inputs 0%nat) None); [constructor|].
  apply (step_call echo (streams (start two_inputs 0%nat)) [] 0%nat 1%nat flush_wire []
    flush_frame []); reflexivity.
Qed.

Lemma queue_head_waits_witness :
  ∃ s', step echo waiting_system
          (Some (1%nat, (flush_frame, MkRframe (U16 4) RFlush))) s' ∧
        queue s' = [] ∧ server s' = 1%nat.
Proof.
  exact (queue_head_waits echo two_inputs 0%nat [] waiting_system 1%nat flush_frame []
    (MkRframe (U16 4) RFlush) 1%nat waiting_run eq_refl eq_refl).
Defined.

Definition flush_reply : Rframe := MkRframe (U16 4) RFlush.
Definition flush_log : list (nat * (Tframe * Rframe)) := [(1%nat, (flush_frame, flush_reply))].

Definition answered_system : system (W := nat) :=
  MkSystem (<[1%nat := MkStream [] (Rframe_wire flush_reply) Reading]>
    (<[1%nat := MkStream [] [] (Writing flush_reply)]> (streams waiting_system))) [] 1%nat.

Lemma answered_run : run echo (start two_inputs 0%nat) flush_log answered_system.
Proof.
  apply (run_snoc echo _ flush_log (MkSystem (<[1%nat := MkStream [] [] (Writing flush_reply)]>
    (streams waiting_system)) [] 1%nat) None).
  - apply (run_snoc echo _ [] waiting_system (Some (1%nat, (flush_frame, flush_reply))));
      [exact waiting_run|].
    apply (step_process echo (streams waiting_system) [] 0%nat 1%nat flush_frame flush_reply 1%nat
      [] []); reflexivity.
  - apply (step_write echo (<[1%nat := MkStream [] [] (Writing flush_reply)]>
      (streams waiting_system)) [] 1%nat 1%nat [] [] flush_reply (Rframe_wire flush_reply));
      reflexivity.
Qed.

Lemma streams_linearizable_witness :
  sequential echo 0%nat (map snd flush_log) 1%nat ∧
  ∀ i inp out, streams answered_system !! i = Some (MkStream inp out Reading) →
    ∃ inp0, two_inputs !! i = Some inp0 ∧ decodes inp0 (map fst (mine i flush_log)) inp ∧
            out = reply_bytes (mine i flush_log).
Proof. exact (streams_linearizable echo two_inputs 0%nat flush_log answered_system answered_run). Defined.
