(* ===== verification/Checked.v ===== *)
(** * Checked arithmetic and computations that can abort

    The virtual machine monitor under [libcrosvm] is built with overflow checks
    and with [panic = 'abort'] in every profile: an operation on machine integers
    that overflows ends the program.  Such an operation is a function into
    [option], and a method of an object is a computation with the state of the
    object that returns, fails with an error or aborts. *)

From S2P Require Import Prelude.

(** ** Integers *)

Section checked.
Context {w : N}.
Implicit Types a b c : uint w.

(** [a.checked_add(b)] and [a.checked_sub(b)]; also [a + b] and [a - b], where
    [None] is the panic. *)
Definition add_checked a b : option (uint w) :=
  if a + b <? 2 ^ Z.of_N w then Some (to_uint w (a + b)) else None.
Definition sub_checked a b : option (uint w) :=
  if b <=? a then Some (to_uint w (a - b)) else None.

Definition umax a b : uint w := if b <=? a then a else b.

(** [is_power_of_two]. *)
Definition is_power_of_two a : bool := (0 <? a) && (2 ^ Z.log2 a =? a).

Lemma add_checked_Some a b c : add_checked a b = Some c ↔ uval c = a + b.
Proof.
  pose proof (uint_range a). pose proof (uint_range b). pose proof (uint_range c).
  unfold add_checked. destruct (Z.ltb_spec (a + b) (2 ^ Z.of_N w)).
  - split; [intros [= <-]; apply uval_to_uint_small; lia|].
    intros <-. f_equal. apply to_uint_uval.
  - split; [done|lia].
Qed.

Lemma add_checked_None a b : add_checked a b = None ↔ 2 ^ Z.of_N w <= a + b.
Proof.
  unfold add_checked. destruct (Z.ltb_spec (a + b) (2 ^ Z.of_N w)).
  - split; [done|lia].
  - done.
Qed.

Lemma sub_checked_Some a b c : sub_checked a b = Some c ↔ uval c = a - b.
Proof.
  pose proof (uint_range a). pose proof (uint_range b). pose proof (uint_range c).
  unfold sub_checked. destruct (Z.leb_spec b a).
  - split; [intros [= <-]; apply uval_to_uint_small; lia|].
    intros <-. f_equal. apply to_uint_uval.
  - split; [done|lia].
Qed.

Lemma sub_checked_None a b : sub_checked a b = None ↔ a < b.
Proof.
  unfold sub_checked. destruct (Z.leb_spec b a).
  - split; [done|lia].
  - done.
Qed.

Lemma umax_spec a b : uval (umax a b) = Z.max a b.
Proof. unfold umax. destruct (Z.leb_spec b a); lia. Qed.

Lemma power_of_two_pos a : is_power_of_two a = true → 0 < a.
Proof. unfold is_power_of_two. intros ?. zbool. lia. Qed.

Lemma power_of_two_log a : is_power_of_two a = true → uval a = 2 ^ Z.log2 a.
Proof. unfold is_power_of_two. intros ?. zbool. lia. Qed.

Lemma power_of_two_spec a : is_power_of_two a = true ↔ ∃ k, 0 <= k ∧ uval a = 2 ^ k.
Proof.
  split.
  - intros Hp. exists (Z.log2 a). split; [apply Z.log2_nonneg|by apply power_of_two_log].
  - intros (k & Hk & Ha). unfold is_power_of_two. pose proof (Z.pow_pos_nonneg 2 k).
    rewrite Ha, Z.log2_pow2 by lia. zbool. lia.
Qed.

Lemma power_of_two_umax a b :
  is_power_of_two a = true → is_power_of_two b = true → is_power_of_two (umax a b) = true.
Proof. unfold umax. by case_match. Qed.

(** [x & !(a - 1)] rounds down to a multiple of the power of two [a]. *)
Definition align_down a b : option (uint w) :=
  mask ← sub_checked b (to_uint w 1);
  Some (to_uint w (Z.land a (uval (to_uint w (Z.lnot (uval mask)))))).

Lemma land_wrap_lnot a m : uval (to_uint w (Z.land a (uval (to_uint w (Z.lnot m))))) = Z.ldiff a m.
Proof.
  pose proof (uint_range a). rewrite !uval_to_uint. apply Z.bits_inj'. intros n Hn.
  rewrite Z.ldiff_spec. destruct (decide (n < Z.of_N w)).
  - by rewrite Z.mod_pow2_bits_low, Z.land_spec, Z.mod_pow2_bits_low, Z.lnot_spec by lia.
  - rewrite Z.mod_pow2_bits_high by lia.
    replace (Z.testbit a n) with false; [done|]. symmetry.
    destruct (decide (uval a = 0)) as [->|]; [by rewrite Z.bits_0|].
    apply Z.bits_above_log2; [lia|]. apply Z.log2_lt_pow2; [lia|].
    apply Z.lt_le_trans with (2 ^ Z.of_N w); [lia|]. apply Z.pow_le_mono_r; lia.
Qed.

Lemma align_down_spec a b :
  is_power_of_two b = true → ∃ c, align_down a b = Some c ∧ uval c = a - a mod b.
Proof.
  intros Hb. pose proof (power_of_two_log b Hb) as Hlog. pose proof (power_of_two_pos b Hb).
  pose proof (uint_range b). pose proof (Z.log2_nonneg b).
  assert (Hone : uval (to_uint w 1) = 1) by (apply uval_to_uint_small; lia).
  unfold align_down. destruct (sub_checked b (to_uint w 1)) as [mask|] eqn:Hm;
    [|apply sub_checked_None in Hm; lia].
  apply sub_checked_Some in Hm. rewrite Hone, Hlog in Hm. eexists. split; [done|].
  rewrite land_wrap_lnot, Hm.
  replace (2 ^ Z.log2 b - 1) with (Z.ones (Z.log2 b)) by (rewrite Z.ones_equiv; lia).
  rewrite Z.ldiff_ones_r, Z.shiftl_mul_pow2, Z.shiftr_div_pow2, <-Hlog by lia.
  pose proof (Z.div_mod a b). lia.
Qed.

End checked.

(** ** Computations *)

Inductive outcome (E A : Type) := Returns (a : A) | Throws (e : E) | Aborts.
Arguments Returns {E A} _.
Arguments Throws {E A} _.
Arguments Aborts {E A}.

#[global] Instance outcome_ret {E} : MRet (outcome E) := λ A a, Returns a.
#[global] Instance outcome_bind {E} : MBind (outcome E) := λ A B f o,
  match o with Returns a => f a | Throws e => Throws e | Aborts => Aborts end.

(** [o.ok_or(e)] and [o.unwrap()]. *)
Definition ok_or_else {E A} (o : option A) (e : E) : outcome E A :=
  match o with Some a => Returns a | None => Throws e end.
Definition unwrap_or_abort {E A} (o : option A) : outcome E A :=
  match o with Some a => Returns a | None => Aborts end.

Definition prog (S E A : Type) : Type := S → outcome E A * S.

Section prog.
Context {S E : Type}.

#[global] Instance prog_ret : MRet (prog S E) := λ A a s, (Returns a, s).
#[global] Instance prog_bind : MBind (prog S E) := λ A B f m s,
  match m s with
  | (Returns a, s') => f a s'
  | (Throws e, s') => (Throws e, s')
  | (Aborts, s') => (Aborts, s')
  end.

Definition get_state : prog S E S := λ s, (Returns s, s).
Definition put_state (s : S) : prog S E () := λ _, (Returns (), s).
Definition throw {A} (e : E) : prog S E A := λ s, (Throws e, s).
Definition abort {A} : prog S E A := λ s, (Aborts, s).

(** An arithmetic operation that aborts on overflow. *)
Definition checked {A} (o : option A) : prog S E A :=
  match o with Some a => mret a | None => abort end.

(** [o.ok_or(e)?]. *)
Definition ok_or_throw {A} (o : option A) (e : E) : prog S E A :=
  match o with Some a => mret a | None => throw e end.

(** A computation that does not use the state. *)
Definition give_outcome {A} (o : outcome E A) : prog S E A := λ s, (o, s).

(** The [Result] of a call as a value. *)
Definition catch {A} (m : prog S E A) : prog S E (A + E) := λ s,
  match m s with
  | (Returns a, s') => (Returns (inl a), s')
  | (Throws e, s') => (Returns (inr e), s')
  | (Aborts, s') => (Aborts, s')
  end.

End prog.

(** Run the first command of a sequence. *)
Lemma bind_returns {S E A B} (m : prog S E A) (f : A → prog S E B) s a s' :
  m s = (Returns a, s') → (m ≫= f) s = f a s'.
Proof. intros Heq. unfold mbind, prog_bind. by rewrite Heq. Qed.

Lemma get_state_run {S E} (s : S) : get_state (E := E) s = (Returns s, s).
Proof. done. Qed.
Lemma put_state_run {S E} (s s' : S) : put_state (E := E) s' s = (Returns (), s').
Proof. done. Qed.

(** Unfold the operations of the monad. *)
Ltac run_prog :=
  cbv beta iota delta [mbind prog_bind mret prog_ret get_state put_state throw abort checked
    ok_or_throw].
Tactic Notation "run_prog" "in" hyp(H) :=
  cbv beta iota delta [mbind prog_bind mret prog_ret get_state put_state throw abort checked
    ok_or_throw] in H.

(** [m] on a part of the state. *)
Definition zoom {S T E A} (view : S → T) (set : T → S → S) (m : prog T E A) : prog S E A := λ s,
  let '(r, t) := m (view s) in (r, set t s).

(** The first element of a list that satisfies a predicate whose evaluation can
    abort: [iter.find(p)]. *)
Fixpoint find_checked {A} (p : A → option bool) (l : list A) : option (option A) :=
  match l with
  | [] => Some None
  | x :: l => b ← p x; if (b : bool) then Some (Some x) else find_checked p l
  end.
