(* ===== verification/AddressRange.v ===== *)
(** * Ranges of addresses: [libcrosvm/resources/src/address_range.rs]

    A range is a pair of inclusive bounds; the algebra of ranges is proved
    against the sets of addresses they stand for. *)

From S2P Require Import Prelude Checked.

Record AddressRange : Set := MkRange { ar_start : u64; ar_end : u64 }.

#[global] Instance AddressRange_eq_dec : EqDecision AddressRange.
Proof. solve_decision. Defined.

(** ** Operations *)

Definition AddressRange_empty : AddressRange := MkRange (U64 1) (U64 0).

Definition AddressRange_from_start_and_end (start end_ : u64) : AddressRange := MkRange start end_.

Definition AddressRange_from_start_and_size (start size : u64) : option AddressRange :=
  if uval size =? 0 then Some AddressRange_empty
  else
    match add_checked start (usub size (U64 1)) with
    | Some end_ => Some (MkRange start end_)
    | None => None
    end.

Definition AddressRange_is_empty (r : AddressRange) : bool := ar_end r <? ar_start r.

Definition AddressRange_contains (r : AddressRange) (address : u64) : bool :=
  (ar_start r <=? address) && (address <=? ar_end r).

Definition AddressRange_contains_range (r other : AddressRange) : bool :=
  negb (AddressRange_is_empty other) && (ar_start r <=? ar_start other) &&
  (ar_end other <=? ar_end r).

Definition AddressRange_intersect (r other : AddressRange) : AddressRange :=
  MkRange (umax (ar_start r) (ar_start other)) (umin (ar_end r) (ar_end other)).

Definition AddressRange_overlaps (r other : AddressRange) : bool :=
  negb (AddressRange_is_empty (AddressRange_intersect r other)).

(** The two parts of [non_overlapping_ranges]. *)
Definition range_before (r other : AddressRange) : option AddressRange :=
  if ar_start other <=? ar_start r then Some AddressRange_empty
  else
    let start := umin (ar_start r) (ar_start other) in
    end_ ← sub_checked (umax (ar_start r) (ar_start other)) (U64 1);
    Some (MkRange start (umin end_ (ar_end r))).

Definition range_after (r other : AddressRange) : option AddressRange :=
  if ar_end r <=? ar_end other then Some AddressRange_empty
  else
    start ← add_checked (umin (ar_end r) (ar_end other)) (U64 1);
    Some (MkRange (umax start (ar_start r)) (umax (ar_end r) (ar_end other))).

Definition AddressRange_non_overlapping_ranges (r other : AddressRange) :
    option (AddressRange * AddressRange) :=
  before ← range_before r other;
  after ← range_after r other;
  Some (before, after).

Definition AddressRange_split_at (r : AddressRange) (split_start : u64) :
    option (AddressRange * AddressRange) :=
  if (split_start <=? ar_start r) || (ar_end r <? split_start)
  then Some (r, AddressRange_empty)
  else
    end_ ← sub_checked split_start (U64 1);
    Some (MkRange (ar_start r) end_, MkRange split_start (ar_end r)).

(** [len]: the outer [option] is a panic of the subtraction, the inner one the
    result. *)
Definition AddressRange_len (r : AddressRange) : option (option u64) :=
  if AddressRange_is_empty r then Some (Some (U64 0))
  else
    n ← sub_checked (ar_end r) (ar_start r);
    Some (add_checked n (U64 1)).

(** [Ord] and [PartialEq]. *)
Definition AddressRange_cmp (r other : AddressRange) : comparison :=
  match AddressRange_is_empty r, AddressRange_is_empty other with
  | true, true => Eq
  | true, false => Lt
  | false, true => Gt
  | false, false =>
      match uval (ar_start r) ?= uval (ar_start other) with
      | Eq => uval (ar_end r) ?= uval (ar_end other)
      | c => c
      end
  end.

Definition AddressRange_eq (r other : AddressRange) : bool :=
  match AddressRange_cmp r other with Eq => true | _ => false end.

(** ** The addresses of a range *)

Definition In_range (r : AddressRange) (x : Z) : Prop := ar_start r <= x <= ar_end r.

Definition nonempty (r : AddressRange) : Prop := ar_start r <= ar_end r.
Definition disjoint (r s : AddressRange) : Prop := ∀ x, In_range r x → ¬ In_range s x.

Lemma is_empty_false r : AddressRange_is_empty r = false ↔ nonempty r.
Proof. apply Z.ltb_ge. Qed.

Lemma is_empty_true r : AddressRange_is_empty r = true ↔ ∀ x, ¬ In_range r x.
Proof.
  unfold AddressRange_is_empty, In_range. rewrite Z.ltb_lt. split; [lia|].
  intros H. specialize (H (uval (ar_start r))). lia.
Qed.

Lemma contains_spec r x : AddressRange_contains r x = true ↔ In_range r x.
Proof. unfold AddressRange_contains, In_range. rewrite andb_true_iff, !Z.leb_le. lia. Qed.

Lemma contains_range_spec r s :
  AddressRange_contains_range r s = true ↔ nonempty s ∧ ∀ x, In_range s x → In_range r x.
Proof.
  unfold AddressRange_contains_range, In_range.
  rewrite !andb_true_iff, negb_true_iff, is_empty_false, !Z.leb_le. unfold nonempty.
  split; [intros [[? ?] ?]; split; [done|intros; lia]|].
  intros [? H]. pose proof (H (uval (ar_start s))). pose proof (H (uval (ar_end s))). lia.
Qed.

Lemma intersect_spec r s x :
  In_range (AddressRange_intersect r s) x ↔ In_range r x ∧ In_range s x.
Proof. unfold In_range; cbn. rewrite umax_spec, umin_spec. lia. Qed.

Lemma overlaps_spec r s : AddressRange_overlaps r s = true ↔ ∃ x, In_range r x ∧ In_range s x.
Proof.
  unfold AddressRange_overlaps. rewrite negb_true_iff, is_empty_false. setoid_rewrite <-intersect_spec.
  unfold nonempty, In_range. split; [|intros [x ?]; lia].
  intros. exists (uval (ar_start (AddressRange_intersect r s))). lia.
Qed.

Lemma overlaps_false r s : AddressRange_overlaps r s = false ↔ disjoint r s.
Proof.
  rewrite <-not_true_iff_false, overlaps_spec. unfold disjoint. split; [eauto|].
  intros H (x & Hr & Hs). by apply (H x).
Qed.

Lemma empty_spec x : ¬ In_range AddressRange_empty x.
Proof.
  unfold In_range. change (¬ (1 <= x <= 0)). lia.
Qed.

Lemma U64_one : uval (U64 1) = 1.
Proof. done. Qed.

(** What is left of [r] on either side of [s]. *)
Lemma range_before_spec r s :
  ∃ b, range_before r s = Some b ∧ ∀ x, In_range b x ↔ In_range r x ∧ x < ar_start s.
Proof.
  unfold range_before, In_range. destruct (Z.leb_spec (ar_start s) (ar_start r)).
  - eexists. split; [done|]. intros x. pose proof (empty_spec x). unfold In_range in *. lia.
  - destruct (sub_checked _ _) as [e|] eqn:He;
      [apply sub_checked_Some in He|apply sub_checked_None in He];
      rewrite umax_spec, U64_one in He; pose proof (uint_range (ar_start r)); [|lia].
    eexists. split; [done|]. intros x. cbn. rewrite !umin_spec. lia.
Qed.

Lemma range_after_spec r s :
  ∃ a, range_after r s = Some a ∧ ∀ x, In_range a x ↔ In_range r x ∧ ar_end s < x.
Proof.
  unfold range_after, In_range. destruct (Z.leb_spec (ar_end r) (ar_end s)).
  - eexists. split; [done|]. intros x. pose proof (empty_spec x). unfold In_range in *. lia.
  - destruct (add_checked _ _) as [e|] eqn:He;
      [apply add_checked_Some in He|apply add_checked_None in He];
      rewrite umin_spec, U64_one in He; pose proof (uint_range (ar_end r)); [|lia].
    eexists. split; [done|]. intros x. cbn. rewrite !umax_spec. lia.
Qed.

Lemma non_overlapping_spec r s :
  ∃ before after, AddressRange_non_overlapping_ranges r s = Some (before, after) ∧
    (∀ x, In_range before x ↔ In_range r x ∧ x < ar_start s) ∧
    (∀ x, In_range after x ↔ In_range r x ∧ ar_end s < x).
Proof.
  unfold AddressRange_non_overlapping_ranges.
  destruct (range_before_spec r s) as (b & -> & Hb), (range_after_spec r s) as (a & -> & Ha).
  by exists b, a.
Qed.

Lemma split_at_spec r x0 :
  ∃ low high, AddressRange_split_at r x0 = Some (low, high) ∧
    (∀ x, In_range r x ↔ In_range low x ∨ In_range high x) ∧
    (ar_start r < x0 <= ar_end r →
     (∀ x, In_range low x → x < x0) ∧ (∀ x, In_range high x → x0 <= x)).
Proof.
  unfold AddressRange_split_at.
  destruct (_ || _) eqn:Hb.
  - exists r, AddressRange_empty. split_and!; [done| |].
    + intros x. pose proof (empty_spec x). tauto.
    + apply orb_true_iff in Hb as [?%Z.leb_le|?%Z.ltb_lt]; lia.
  - zbool. destruct (sub_checked _ _) as [e|] eqn:He;
      [apply sub_checked_Some in He|apply sub_checked_None in He];
      rewrite U64_one in He; pose proof (uint_range (ar_start r)); [|lia].
    eexists _, _. split; [done|]. unfold In_range; cbn.
    split; [intros x; lia|]. intros _. split; intros x; lia.
Qed.

(** The number of addresses, when it is a 64-bit integer. *)
Lemma len_spec r :
  AddressRange_len r =
  Some (if bool_decide (uval (ar_start r) = 0 ∧ uval (ar_end r) = 2 ^ 64 - 1) then None
        else Some (U64 (Z.max 0 (ar_end r - ar_start r + 1)))).
Proof.
  unfold AddressRange_len. pose proof (uint_range (ar_start r)). pose proof (uint_range (ar_end r)).
  change (Z.of_N 64) with 64 in *. destruct (AddressRange_is_empty r) eqn:He.
  - apply Z.ltb_lt in He. rewrite bool_decide_false by lia. do 3 f_equal. lia.
  - apply is_empty_false in He. unfold nonempty in He.
    destruct (sub_checked _ _) as [n|] eqn:Hn;
      [apply sub_checked_Some in Hn|apply sub_checked_None in Hn; lia]. cbn. f_equal.
    case_bool_decide.
    + apply add_checked_None. rewrite U64_one. change (Z.of_N 64) with 64. lia.
    + apply add_checked_Some. rewrite U64_one, uval_to_uint_small; change (Z.of_N 64) with 64; lia.
Qed.

(** Two ranges are equal for [PartialEq] when they have the same addresses, and
    [Ord] is a total order on such classes: [Lt] is a strict order. *)
Lemma cmp_eq r s :
  AddressRange_cmp r s = Eq ↔ (∀ x, In_range r x ↔ In_range s x).
Proof.
  unfold AddressRange_cmp.
  destruct (AddressRange_is_empty r) eqn:Hr, (AddressRange_is_empty s) eqn:Hs;
    rewrite ?is_empty_true, ?is_empty_false in *; unfold nonempty, In_range in *.
  - split; [|done]. intros _ x. split; intros Hx; exfalso; [by apply (Hr x)|by apply (Hs x)].
  - split; [done|]. intros H. by destruct (Hr (uval (ar_start s))), (H (uval (ar_start s))); lia.
  - split; [done|]. intros H. by destruct (Hs (uval (ar_start r))), (H (uval (ar_start r))); lia.
  - destruct (Z.compare_spec (ar_start r) (ar_start s)) as [E|E|E].
    + rewrite Z.compare_eq_iff, E. split; [by intros ->|].
      intros H. pose proof (H (uval (ar_end r))). pose proof (H (uval (ar_end s))). lia.
    + split; [done|]. intros H. pose proof (H (uval (ar_start r))). lia.
    + split; [done|]. intros H. pose proof (H (uval (ar_start s))). lia.
Qed.

Lemma cmp_antisym r s : AddressRange_cmp s r = CompOpp (AddressRange_cmp r s).
Proof.
  unfold AddressRange_cmp.
  destruct (AddressRange_is_empty r), (AddressRange_is_empty s); try done.
  rewrite (Z.compare_antisym (ar_start r)), (Z.compare_antisym (ar_end r)).
  by destruct (uval (ar_start r) ?= uval (ar_start s)).
Qed.

Lemma cmp_lt_nonempty r s :
  nonempty r → nonempty s →
  AddressRange_cmp r s = Lt ↔
  ar_start r < ar_start s ∨ uval (ar_start r) = ar_start s ∧ ar_end r < ar_end s.
Proof.
  intros Hr%is_empty_false Hs%is_empty_false. unfold AddressRange_cmp. rewrite Hr, Hs.
  destruct (Z.compare_spec (ar_start r) (ar_start s)); [rewrite Z.compare_lt_iff; lia| |].
  - split; [by left|done].
  - split; [done|lia].
Qed.

(** The algebra of ranges is that of sets of addresses: containment,
    overlap, intersection and difference are those of the sets, the difference
    never overflows and its two parts lie below and above the other range, and
    two ranges compare equal exactly when they have the same addresses. *)
Theorem address_range_algebra r s :
  (∀ x : u64, AddressRange_contains r x = true ↔ In_range r x) ∧
  (AddressRange_contains_range r s = true ↔ nonempty s ∧ ∀ x, In_range s x → In_range r x) ∧
  (AddressRange_overlaps r s = true ↔ ∃ x, In_range r x ∧ In_range s x) ∧
  (∀ x, In_range (AddressRange_intersect r s) x ↔ In_range r x ∧ In_range s x) ∧
  (∃ before after, AddressRange_non_overlapping_ranges r s = Some (before, after) ∧
     (∀ x, In_range before x ∨ In_range after x ↔ In_range r x ∧ ¬ In_range s x) ∧
     (∀ x, In_range before x → x < ar_start s) ∧ (∀ x, In_range after x → ar_end s < x)) ∧
  (AddressRange_eq r s = true ↔ ∀ x, In_range r x ↔ In_range s x).
Proof.
  split_and!.
  - apply contains_spec.
  - apply contains_range_spec.
  - apply overlaps_spec.
  - apply intersect_spec.
  - destruct (non_overlapping_spec r s) as (b & a & -> & Hb & Ha). exists b, a.
    setoid_rewrite Hb. setoid_rewrite Ha. unfold In_range. split_and!; [done|..]; intros x; lia.
  - rewrite <-cmp_eq. unfold AddressRange_eq. by destruct (AddressRange_cmp r s).
Qed.
