(* ===== verification/AddressAllocator.v ===== *)
(** * Allocating ranges of addresses: [libcrosvm/resources/src/address_allocator.rs]

    An allocator hands out ranges of its pools under keys ([Alloc], of
    [libcrosvm/resources/src/lib.rs]).  [regions] is what is free, as an ordered
    set of ranges, and [allocs] what is taken. *)

From S2P Require Import Prelude Checked AddressRange.

(** ** Keys and errors *)

Inductive Alloc : Set :=
| Anon (n : u64)
| PciBar (bus dev func bar : u8)
| GpuRenderNode
| PmemDevice (n : u64)
| Pstore
| PciBridgeWindow (bus dev func : u8)
| PciBridgePrefetchWindow (bus dev func : u8)
| FileBacked (n : u64).

#[global] Instance Alloc_eq_dec : EqDecision Alloc.
Proof. solve_decision. Defined.

(** [Hash] of [Alloc], as an injection into a countable type. *)
#[global] Instance Alloc_countable : Countable Alloc.
Proof.
  refine (inj_countable'
    (λ a, match a with
          | Anon n => inl (inl (inl n))
          | PmemDevice n => inl (inl (inr n))
          | FileBacked n => inl (inr (inl n))
          | GpuRenderNode => inl (inr (inr false))
          | Pstore => inl (inr (inr true))
          | PciBar b d f r => inr (inl (b, d, f, r))
          | PciBridgeWindow b d f => inr (inr (inl (b, d, f)))
          | PciBridgePrefetchWindow b d f => inr (inr (inr (b, d, f)))
          end)
    (λ c, match c with
          | inl (inl (inl n)) => Anon n
          | inl (inl (inr n)) => PmemDevice n
          | inl (inr (inl n)) => FileBacked n
          | inl (inr (inr false)) => GpuRenderNode
          | inl (inr (inr true)) => Pstore
          | inr (inl (b, d, f, r)) => PciBar b d f r
          | inr (inr (inl (b, d, f))) => PciBridgeWindow b d f
          | inr (inr (inr (b, d, f))) => PciBridgePrefetchWindow b d f
          end) _).
  by intros [].
Defined.

Inductive Error : Set :=
| AllocSizeZero
| BadAlignment
| BadAlloc (a : Alloc)
| ExistingAlloc (a : Alloc)
| InvalidAlloc (a : Alloc)
| IOPortOutOfRange (r : AddressRange)
| MissingPlatformMMIOAddresses
| NoIoAllocator
| OutOfBounds
| OutOfSpace
| PoolOverflow (base size : u64)
| RegionOverlap (r : AddressRange).

(** ** Ordered sets of ranges

    [BTreeSet<AddressRange>] as the list of its elements in the order of
    [AddressRange::cmp]. *)

Fixpoint btree_insert (x : AddressRange) (l : list AddressRange) : list AddressRange :=
  match l with
  | [] => [x]
  | y :: l' =>
      match AddressRange_cmp x y with
      | Lt => x :: l
      | Eq => l
      | Gt => y :: btree_insert x l'
      end
  end.

(** [remove]: [None] if there was no such element. *)
Fixpoint btree_remove (x : AddressRange) (l : list AddressRange) : option (list AddressRange) :=
  match l with
  | [] => None
  | y :: l =>
      match AddressRange_cmp x y with
      | Eq => Some l
      | _ => l' ← btree_remove x l; Some (y :: l')
      end
  end.

(** [range((Unbounded, Included(slot))).max()] and
    [range((Excluded(slot), Unbounded)).min()]. *)
Definition at_most (slot r : AddressRange) : bool :=
  match AddressRange_cmp r slot with Gt => false | _ => true end.
Definition range_max (slot : AddressRange) (l : list AddressRange) : option AddressRange :=
  last (filter (λ r, at_most slot r = true) l).
Definition range_min (slot : AddressRange) (l : list AddressRange) : option AddressRange :=
  head (filter (λ r, at_most slot r = false) l).

(** ** The allocator *)

Record AddressAllocator : Type := MkAddressAllocator {
  aa_pools : list AddressRange;
  aa_min_align : u64;
  aa_preferred_align : u64;
  aa_allocs : gmap Alloc (AddressRange * string);
  aa_regions : list AddressRange
}.

(** A [HashMap] is iterated in an order that is not specified. *)
Class HashOrder := {
  hash_iter : gmap Alloc (AddressRange * string) → list (Alloc * (AddressRange * string));
  hash_iter_perm m : hash_iter m ≡ₚ map_to_list m
}.

Abbreviation aprog := (prog AddressAllocator Error).

Definition new_from_list (pools : list AddressRange) (min_align preferred_align : option u64) :
    AddressAllocator + Error :=
  let pools := filter (λ p, AddressRange_is_empty p = false) pools in
  let min_align := default (U64 4) min_align in
  if negb (is_power_of_two min_align) || (uval min_align =? 0) then inr BadAlignment
  else
    let preferred_align := default min_align preferred_align in
    if negb (is_power_of_two preferred_align) || (preferred_align <? min_align)
    then inr BadAlignment
    else inl (MkAddressAllocator pools min_align preferred_align ∅
                (fold_left (λ regions r, btree_insert r regions) pools [])).

Definition AddressAllocator_new (pool : AddressRange) (min_align preferred_align : option u64) :
    AddressAllocator + Error :=
  new_from_list [pool] min_align preferred_align.

Definition put_regions (regions : list AddressRange) : aprog () := λ a,
  (Returns (), MkAddressAllocator (aa_pools a) (aa_min_align a) (aa_preferred_align a)
                 (aa_allocs a) regions).
Definition put_allocs (allocs : gmap Alloc (AddressRange * string)) : aprog () := λ a,
  (Returns (), MkAddressAllocator (aa_pools a) (aa_min_align a) (aa_preferred_align a)
                 allocs (aa_regions a)).

Definition insert_nonempty (r : AddressRange) (regions : list AddressRange) : list AddressRange :=
  if AddressRange_is_empty r then regions else btree_insert r regions.

Definition internal_allocate_from_slot (slot range : AddressRange) (alloc : Alloc) (tag : string) :
    aprog u64 :=
  a ← get_state;
  regions ← checked (btree_remove slot (aa_regions a));
  '(before, after) ← checked (AddressRange_non_overlapping_ranges slot range);
  _ ← put_regions (insert_nonempty after (insert_nonempty before regions));
  _ ← put_allocs (<[alloc := (range, tag)]> (aa_allocs a));
  mret (ar_start range).

(** Whether a free region has room for [size] bytes at an aligned address, from
    its start and from its end. *)
Definition fits (size alignment : u64) (range : AddressRange) : option bool :=
  last ← sub_checked size (U64 1);
  let r := U64 (ar_start range mod alignment) in
  offset ← (if uval r =? 0 then Some last
            else t ← add_checked last alignment; sub_checked t r);
  Some match add_checked (ar_start range) offset with
       | Some end_ => end_ <=? ar_end range
       | None => false
       end.

Definition fits_reverse (size alignment : u64) (range : AddressRange) : option bool :=
  last ← sub_checked size (U64 1);
  match sub_checked (ar_end range) last with
  | Some start => start ← align_down start alignment; Some (ar_start range <=? uval start)
  | None => Some false
  end.

(** The address chosen in a region that has room. *)
Definition place (size alignment : u64) (slot : AddressRange) : option u64 :=
  let r := U64 (ar_start slot mod alignment) in
  if uval r =? 0 then Some (ar_start slot)
  else t ← add_checked (ar_start slot) alignment; sub_checked t r.

Definition place_reverse (size alignment : u64) (slot : AddressRange) : option u64 :=
  last ← sub_checked size (U64 1);
  t ← sub_checked (ar_end slot) last;
  align_down t alignment.

Definition internal_allocate_with_align (size : u64) (alloc : Alloc) (tag : string)
    (alignment : u64) (reverse : bool) : aprog u64 :=
  a ← get_state;
  let alignment := umax (aa_min_align a) alignment in
  if bool_decide (is_Some (aa_allocs a !! alloc)) then throw (ExistingAlloc alloc)
  else if uval size =? 0 then throw AllocSizeZero
  else if negb (is_power_of_two alignment) then throw BadAlignment
  else
    region ← checked (if negb reverse then find_checked (fits size alignment) (aa_regions a)
                      else find_checked (fits_reverse size alignment) (rev (aa_regions a)));
    match region with
    | Some slot =>
        start ← checked (if negb reverse then place size alignment slot
                         else place_reverse size alignment slot);
        end_ ← checked (t ← add_checked start size; sub_checked t (U64 1));
        internal_allocate_from_slot slot (MkRange start end_) alloc tag
    | None => throw OutOfSpace
    end.

Definition reverse_allocate_with_align (size : u64) (alloc : Alloc) (tag : string)
    (alignment : u64) : aprog u64 :=
  internal_allocate_with_align size alloc tag alignment true.

Definition allocate_with_align (size : u64) (alloc : Alloc) (tag : string) (alignment : u64) :
    aprog u64 :=
  internal_allocate_with_align size alloc tag alignment false.

Definition reverse_allocate (size : u64) (alloc : Alloc) (tag : string) : aprog u64 :=
  a ← get_state;
  r ← catch (reverse_allocate_with_align size alloc tag (aa_preferred_align a));
  match r with
  | inl pref_alloc => mret pref_alloc
  | inr _ => a ← get_state; reverse_allocate_with_align size alloc tag (aa_min_align a)
  end.

Definition allocate (size : u64) (alloc : Alloc) (tag : string) : aprog u64 :=
  a ← get_state;
  r ← catch (allocate_with_align size alloc tag (aa_preferred_align a));
  match r with
  | inl pref_alloc => mret pref_alloc
  | inr _ => a ← get_state; allocate_with_align size alloc tag (aa_min_align a)
  end.

Section hash.
Context {H : HashOrder}.

Definition find_overlapping (a : AddressAllocator) (range : AddressRange) : option Alloc :=
  if AddressRange_is_empty range then None
  else
    fst <$> List.find (λ '(_, (alloc_range, _)), AddressRange_overlaps alloc_range range)
              (hash_iter (aa_allocs a)).

Definition allocate_at (range : AddressRange) (alloc : Alloc) (tag : string) : aprog () :=
  a ← get_state;
  if bool_decide (is_Some (aa_allocs a !! alloc)) then throw (ExistingAlloc alloc)
  else if AddressRange_is_empty range then throw AllocSizeZero
  else
    match List.find (λ avail_range, AddressRange_contains_range avail_range range)
            (aa_regions a) with
    | Some slot => _ ← internal_allocate_from_slot slot range alloc tag; mret ()
    | None =>
        match find_overlapping a range with
        | Some existing_alloc => throw (ExistingAlloc existing_alloc)
        | None => throw OutOfSpace
        end
    end.

(** The neighbours [insert_at] merges with, or the error. *)
Definition smaller_merge (slot : AddressRange) (regions : list AddressRange) :
    option AddressRange + Error :=
  match range_max slot regions with
  | None => inl None
  | Some smaller =>
      match add_checked (ar_end smaller) (U64 1) with
      | None => inr (RegionOverlap slot)
      | Some next_addr =>
          match uval next_addr ?= uval (ar_start slot) with
          | Lt => inl None
          | Eq => inl (Some smaller)
          | Gt => inr (RegionOverlap slot)
          end
      end
  end.

Definition larger_merge (slot : AddressRange) (regions : list AddressRange) :
    option AddressRange + Error :=
  match range_min slot regions with
  | None => inl None
  | Some larger =>
      match sub_checked (ar_start larger) (U64 1) with
      | None => inr (RegionOverlap slot)
      | Some prev_addr =>
          match uval (ar_end slot) ?= uval prev_addr with
          | Lt => inl None
          | Eq => inl (Some larger)
          | Gt => inr (RegionOverlap slot)
          end
      end
  end.

(** [self.regions.remove(..)] where the result is ignored. *)
Definition discard (r : AddressRange) (regions : list AddressRange) : list AddressRange :=
  default regions (btree_remove r regions).

Definition insert_at (slot : AddressRange) : aprog () :=
  if AddressRange_is_empty slot then throw AllocSizeZero
  else
    a ← get_state;
    match smaller_merge slot (aa_regions a), larger_merge slot (aa_regions a) with
    | inr e, _ => throw e
    | _, inr e => throw e
    | inl smaller, inl larger =>
        let '(slot, regions) :=
          match smaller with
          | Some smaller => (MkRange (ar_start smaller) (ar_end slot), discard smaller (aa_regions a))
          | None => (slot, aa_regions a)
          end in
        let '(slot, regions) :=
          match larger with
          | Some larger => (MkRange (ar_start slot) (ar_end larger), discard larger regions)
          | None => (slot, regions)
          end in
        put_regions (btree_insert slot regions)
    end.

Definition release (alloc : Alloc) : aprog AddressRange :=
  a ← get_state;
  match aa_allocs a !! alloc with
  | Some (range, _) =>
      _ ← put_allocs (delete alloc (aa_allocs a));
      _ ← insert_at range;
      mret range
  | None => throw (BadAlloc alloc)
  end.

Definition release_containing (value : u64) : aprog AddressRange :=
  a ← get_state;
  match find_overlapping a (MkRange value value) with
  | Some alloc => release alloc
  | None => throw OutOfSpace
  end.

Definition get_max_addr (a : AddressAllocator) : u64 :=
  fold_left (λ x range, umax x (ar_end range)) (aa_regions a) (U64 0).

Definition AddressAllocator_get (a : AddressAllocator) (alloc : Alloc) :
    option (AddressRange * string) :=
  aa_allocs a !! alloc.

Definition address_from_pci_offset (a : AddressAllocator) (alloc : Alloc) (offset size : u64) :
    u64 + Error :=
  match alloc with
  | PciBar _ _ _ _ =>
      match aa_allocs a !! alloc with
      | Some (pci_bar_range, _) =>
          match add_checked (ar_start pci_bar_range) offset with
          | None => inr OutOfBounds
          | Some address =>
              match AddressRange_from_start_and_size address size with
              | None => inr OutOfBounds
              | Some offset_range =>
                  if AddressRange_contains_range pci_bar_range offset_range then inl address
                  else inr OutOfBounds
              end
          end
      | None => inr (InvalidAlloc alloc)
      end
  | _ => inr (InvalidAlloc alloc)
  end.

(** ** Sets of allocators: [AddressAllocatorSet] *)

(** The first allocator for which [op] succeeds, or the last error. *)
Fixpoint set_try {A} (op : aprog A) (last_res : Error) (allocators : list AddressAllocator) :
    outcome Error A * list AddressAllocator :=
  match allocators with
  | [] => (Throws last_res, [])
  | a :: allocators =>
      match op a with
      | (Returns x, a') => (Returns x, a' :: allocators)
      | (Throws e, a') =>
          let '(r, allocators') := set_try op e allocators in (r, a' :: allocators')
      | (Aborts, a') => (Aborts, a' :: allocators)
      end
  end.

Definition set_allocate_with_align (size : u64) (alloc : Alloc) (tag : string) (alignment : u64) :
    prog (list AddressAllocator) Error u64 :=
  set_try (allocate_with_align size alloc tag alignment) OutOfSpace.
Definition set_allocate (size : u64) (alloc : Alloc) (tag : string) :
    prog (list AddressAllocator) Error u64 :=
  set_try (allocate size alloc tag) OutOfSpace.
Definition set_allocate_at (range : AddressRange) (alloc : Alloc) (tag : string) :
    prog (list AddressAllocator) Error () :=
  set_try (allocate_at range alloc tag) OutOfSpace.
Definition set_release (alloc : Alloc) : prog (list AddressAllocator) Error AddressRange :=
  set_try (release alloc) OutOfSpace.

Fixpoint set_get (allocators : list AddressAllocator) (alloc : Alloc) :
    option (AddressRange * string) :=
  match allocators with
  | [] => None
  | a :: allocators =>
      match AddressAllocator_get a alloc with
      | Some r => Some r
      | None => set_get allocators alloc
      end
  end.

Fixpoint set_address_from_pci_offset (last_res : Error) (allocators : list AddressAllocator)
    (alloc : Alloc) (offset size : u64) : u64 + Error :=
  match allocators with
  | [] => inr last_res
  | a :: allocators =>
      match address_from_pci_offset a alloc offset size with
      | inl address => inl address
      | inr e => set_address_from_pci_offset e allocators alloc offset size
      end
  end.

End hash.
