(* ===== verification/AllocatorFacts.v ===== *)
(** * Correctness of the address allocator

    The free regions and the allocations of an allocator partition its pools, and
    every operation of [libcrosvm/resources/src/address_allocator.rs] keeps it so;
    an allocation takes the first (or last) place that fits. *)

From stdpp Require Import sorting.
From S2P Require Import Prelude Checked AddressRange AddressAllocator.

(** ** Ordered sets of disjoint ranges *)

Definition separated (r s : AddressRange) : Prop := ar_end r < ar_start s.

Definition regions_ok (l : list AddressRange) : Prop :=
  Forall nonempty l ∧ StronglySorted separated l.

(** The addresses of a set of ranges. *)
Definition free (l : list AddressRange) (z : Z) : Prop := ∃ r, r ∈ l ∧ In_range r z.

Lemma free_nil z : ¬ free [] z.
Proof. intros (r & Hr & _). by apply not_elem_of_nil in Hr. Qed.

Lemma free_cons r l z : free (r :: l) z ↔ In_range r z ∨ free l z.
Proof. unfold free. setoid_rewrite elem_of_cons. naive_solver. Qed.

Lemma free_perm l l' z : l ≡ₚ l' → free l z ↔ free l' z.
Proof. intros Hp. unfold free. by setoid_rewrite Hp. Qed.

Lemma disjoint_free r l : Forall (disjoint r) l ↔ ∀ z, In_range r z → ¬ free l z.
Proof.
  rewrite Forall_forall. unfold disjoint, free. naive_solver.
Qed.

Lemma disjoint_separated r s :
  nonempty r → nonempty s → disjoint r s → separated r s ∨ separated s r.
Proof.
  unfold nonempty, disjoint, separated, In_range. intros Hr Hs Hd.
  pose proof (Hd (uval (ar_start r))). pose proof (Hd (uval (ar_start s))). lia.
Qed.

Lemma separated_disjoint r s : separated r s → disjoint r s ∧ disjoint s r.
Proof. unfold separated, disjoint, In_range. split; intros z; lia. Qed.

(** Disjoint ranges are ordered as they lie. *)
Lemma cmp_disjoint r s :
  nonempty r → nonempty s → disjoint r s →
  AddressRange_cmp r s = Lt ∧ separated r s ∨ AddressRange_cmp r s = Gt ∧ separated s r.
Proof.
  intros Hr Hs Hd. destruct (disjoint_separated r s Hr Hs Hd) as [H|H]; [left|right];
    (split; [|done]).
  - apply cmp_lt_nonempty; [done..|]. unfold nonempty, separated in *. lia.
  - rewrite cmp_antisym. replace (AddressRange_cmp s r) with Lt; [done|]. symmetry.
    apply cmp_lt_nonempty; [done..|]. unfold nonempty, separated in *. lia.
Qed.

Lemma separated_trans r s t : nonempty s → separated r s → separated s t → separated r t.
Proof. unfold nonempty, separated. lia. Qed.

Lemma btree_insert_ok x l :
  regions_ok l → nonempty x → Forall (disjoint x) l →
  regions_ok (btree_insert x l) ∧ btree_insert x l ≡ₚ x :: l.
Proof.
  intros [Hne Hs] Hx. revert Hne. induction Hs as [|y l Hs IH Hy]; intros Hne Hd; cbn.
  { split; [|done]. split; repeat constructor; done. }
  apply Forall_cons in Hne as [Hney Hne], Hd as [Hdy Hd].
  destruct (cmp_disjoint x y Hx Hney Hdy) as [[-> Hxy]|[-> Hyx]].
  - split; [|done]. split; repeat constructor; try done.
    eapply Forall_impl; [exact Hy|]. intros z. by apply separated_trans.
  - destruct (IH Hne Hd) as [[Hne' Hs'] Hp]. split.
    + split; constructor; try done. rewrite Hp. by constructor.
    + rewrite Hp. apply Permutation_swap.
Qed.

Lemma btree_remove_ok x l :
  regions_ok l → x ∈ l →
  ∃ l', btree_remove x l = Some l' ∧ l ≡ₚ x :: l' ∧ regions_ok l'.
Proof.
  intros [Hne Hs]. revert Hne. induction Hs as [|y l Hs IH Hy]; intros Hne Hx.
  { by apply not_elem_of_nil in Hx. }
  apply Forall_cons in Hne as [Hney Hne]. cbn. apply elem_of_cons in Hx as [->|Hx].
  - replace (AddressRange_cmp y y) with Eq by (symmetry; by apply cmp_eq).
    exists l. split_and!; try done.
  - assert (nonempty x) as Hnex by (by eapply Forall_forall in Hne).
    assert (separated y x) as Hyx by (by eapply Forall_forall in Hy).
    destruct (cmp_disjoint x y Hnex Hney) as [[-> ?]|[-> ?]];
      [by apply separated_disjoint| |];
      destruct (IH Hne Hx) as (l' & -> & Hp & [Hne' Hs']); cbn; (exists (y :: l'));
      (split_and!; [done|rewrite Hp; apply Permutation_swap|]);
      (split; constructor; try done); rewrite Hp in Hy; by apply Forall_cons in Hy as [].
Qed.

(** Ranges of a set are disjoint from each other. *)
Lemma regions_ok_NoDup l : regions_ok l → NoDup l.
Proof.
  intros [Hne Hs]. induction Hs as [|x l Hs IH Hx]; [constructor|].
  apply Forall_cons in Hne as [Hnex Hne]. constructor; [|by apply IH].
  intros Hin. eapply Forall_forall in Hx; [|done]. unfold nonempty, separated in *. lia.
Qed.

Lemma regions_ok_apart l r s :
  regions_ok l → r ∈ l → s ∈ l → r = s ∨ separated r s ∨ separated s r.
Proof.
  intros [_ Hs]. induction Hs as [|x l Hs IH Hx]; intros Hr Hq; [by apply not_elem_of_nil in Hr|].
  rewrite Forall_forall in Hx. apply elem_of_cons in Hr as [->|Hr], Hq as [->|Hq]; auto.
Qed.

Lemma regions_ok_disjoint x l l' :
  regions_ok l → l ≡ₚ x :: l' → ∀ z, In_range x z → ¬ free l' z.
Proof.
  intros Hok Hp z Hz (r & Hr & Hrz). pose proof (regions_ok_NoDup l Hok) as Hnd.
  rewrite Hp in Hnd. apply NoDup_cons in Hnd as [Hx _].
  destruct (regions_ok_apart l x r Hok) as [->|Hsep]; [rewrite Hp; set_solver..|done|].
  unfold separated, In_range in *. lia.
Qed.

(** ** The invariant *)

Definition allocated (m : gmap Alloc (AddressRange * string)) (z : Z) : Prop :=
  ∃ k r t, m !! k = Some (r, t) ∧ In_range r z.

Record wf (a : AddressAllocator) : Prop := {
  wf_regions : regions_ok (aa_regions a);
  wf_nonempty k r t : aa_allocs a !! k = Some (r, t) → nonempty r;
  wf_free k r t z : aa_allocs a !! k = Some (r, t) → In_range r z → ¬ free (aa_regions a) z;
  wf_disjoint k1 k2 r1 t1 r2 t2 :
    aa_allocs a !! k1 = Some (r1, t1) → aa_allocs a !! k2 = Some (r2, t2) → k1 ≠ k2 →
    disjoint r1 r2;
  wf_pools z : free (aa_pools a) z ↔ free (aa_regions a) z ∨ allocated (aa_allocs a) z;
  wf_min_align : is_power_of_two (aa_min_align a) = true;
  wf_preferred_align : is_power_of_two (aa_preferred_align a) = true;
  wf_align_le : aa_min_align a <= aa_preferred_align a
}.

(** An operation changes only the allocations and the free regions. *)
Definition update (a : AddressAllocator) (allocs : gmap Alloc (AddressRange * string))
    (regions : list AddressRange) : AddressAllocator :=
  MkAddressAllocator (aa_pools a) (aa_min_align a) (aa_preferred_align a) allocs regions.

Lemma insert_nonempty_ok x l :
  regions_ok l → (∀ z, In_range x z → ¬ free l z) →
  regions_ok (insert_nonempty x l) ∧
  ∀ z, free (insert_nonempty x l) z ↔ In_range x z ∨ free l z.
Proof.
  intros Hok Hd. unfold insert_nonempty. destruct (AddressRange_is_empty x) eqn:Hx.
  - rewrite is_empty_true in Hx. split; [done|]. intros z. specialize (Hx z). tauto.
  - apply is_empty_false in Hx. apply disjoint_free in Hd.
    destruct (btree_insert_ok x l Hok Hx Hd) as [Hok' Hp]. split; [done|].
    intros z. rewrite (free_perm _ _ z Hp). apply free_cons.
Qed.

Lemma allocated_insert m k r t z :
  m !! k = None → allocated (<[k := (r, t)]> m) z ↔ In_range r z ∨ allocated m z.
Proof.
  intros Hk. unfold allocated. split.
  - intros (k' & r' & t' & Hl & Hz). apply lookup_insert_Some in Hl as [[<- [= <- <-]]|[? Hl]]; eauto 10.
  - intros [Hz|(k' & r' & t' & Hl & Hz)].
    + exists k, r, t. split; [apply lookup_insert_eq|done].
    + exists k', r', t'. split; [|done]. rewrite lookup_insert_ne; congruence.
Qed.

Lemma allocated_delete m k r t z :
  m !! k = Some (r, t) → allocated m z ↔ In_range r z ∨ allocated (delete k m) z.
Proof.
  intros Hk. rewrite <-(allocated_insert (delete k m) k r t) by apply lookup_delete_eq.
  by rewrite insert_delete_id.
Qed.

(** Taking a free range and giving it back. *)
Lemma wf_take a k r t regions' :
  wf a → aa_allocs a !! k = None → nonempty r →
  (∀ z, In_range r z → free (aa_regions a) z) →
  regions_ok regions' → (∀ z, free regions' z ↔ free (aa_regions a) z ∧ ¬ In_range r z) →
  wf (update a (<[k := (r, t)]> (aa_allocs a)) regions').
Proof.
  intros Hwf Hk Hr Hsub Hok Hfree. split; cbn; try apply Hwf; [done| | | |].
  - intros k' r' t' Hl. apply lookup_insert_Some in Hl as [[_ [= <- _]]|[_ Hl]]; [done|].
    by eapply wf_nonempty in Hl.
  - intros k' r' t' z Hl Hz. rewrite Hfree.
    apply lookup_insert_Some in Hl as [[_ [= <- _]]|[_ Hl]]; [tauto|].
    intros [? _]. by eapply wf_free in Hl.
  - intros k1 k2 r1 t1 r2 t2 H1 H2 Hne.
    apply lookup_insert_Some in H1 as [[<- [= <- <-]]|[? H1]],
      H2 as [[<- [= <- <-]]|[? H2]]; [done| | |].
    + intros z Hz Hz'. eapply (wf_free a Hwf k2); [done..|auto].
    + intros z Hz Hz'. eapply (wf_free a Hwf k1); [done..|auto].
    + by eapply (wf_disjoint a Hwf k1 k2).
  - intros z. rewrite (wf_pools a Hwf), Hfree, allocated_insert by done.
    destruct (decide (ar_start r <= z ∧ z <= ar_end r)) as [Hz|Hz]; [|unfold In_range; tauto].
    assert (In_range r z) by done. naive_solver.
Qed.

Lemma wf_give a k r t regions' :
  wf a → aa_allocs a !! k = Some (r, t) → regions_ok regions' →
  (∀ z, free regions' z ↔ free (aa_regions a) z ∨ In_range r z) →
  wf (update a (delete k (aa_allocs a)) regions').
Proof.
  intros Hwf Hk Hok Hfree. split; cbn; try apply Hwf; [done| | | |].
  - intros k' r' t' Hl. apply lookup_delete_Some in Hl as [_ Hl]. by eapply wf_nonempty in Hl.
  - intros k' r' t' z Hl Hz. apply lookup_delete_Some in Hl as [Hne Hl]. rewrite Hfree.
    intros [?|Hz']; [by eapply wf_free in Hl|]. by eapply (wf_disjoint a Hwf k k'); [| | |exact Hz'|].
  - intros k1 k2 r1 t1 r2 t2 H1 H2 Hne.
    apply lookup_delete_Some in H1 as [_ H1], H2 as [_ H2]. by eapply (wf_disjoint a Hwf k1 k2).
  - intros z. rewrite (wf_pools a Hwf), Hfree, (allocated_delete _ k r t) by done. tauto.
Qed.

(** ** Allocation *)

Lemma from_slot_ok a slot range alloc tag :
  wf a → slot ∈ aa_regions a → AddressRange_contains_range slot range = true →
  aa_allocs a !! alloc = None →
  ∃ regions',
    internal_allocate_from_slot slot range alloc tag a =
      (Returns (ar_start range), update a (<[alloc := (range, tag)]> (aa_allocs a)) regions') ∧
    wf (update a (<[alloc := (range, tag)]> (aa_allocs a)) regions') ∧
    ∀ z, free regions' z ↔ free (aa_regions a) z ∧ ¬ In_range range z.
Proof.
  intros Hwf Hslot [Hne Hsub]%contains_range_spec Hk.
  destruct (btree_remove_ok slot (aa_regions a)) as (l' & Hrem & Hp & Hok);
    [apply Hwf|done|].
  destruct (non_overlapping_spec slot range) as (before & after & Hno & Hb & Ha).
  pose proof (regions_ok_disjoint _ _ _ (wf_regions a Hwf) Hp) as Hd.
  assert (Hfree : ∀ z, free (aa_regions a) z ↔ In_range slot z ∨ free l' z)
    by (intros z; rewrite (free_perm _ _ z Hp); apply free_cons).
  destruct (insert_nonempty_ok before l' Hok) as [Hok1 Hf1].
  { intros z [? _]%Hb. auto. }
  destruct (insert_nonempty_ok after (insert_nonempty before l') Hok1) as [Hok2 Hf2].
  { intros z [? ?]%Ha. rewrite Hf1, Hb. unfold nonempty in Hne. intros [[??]|?]; [lia|by eapply Hd]. }
  assert (Hf : ∀ z, free (insert_nonempty after (insert_nonempty before l')) z ↔
                    free (aa_regions a) z ∧ ¬ In_range range z).
  { intros z. rewrite Hf2, Hf1, Ha, Hb, Hfree. pose proof (Hd z). pose proof (Hsub z).
    unfold nonempty, In_range in *. destruct (decide (ar_start slot <= z ∧ z <= ar_end slot));
    destruct (decide (ar_start range <= z ∧ z <= ar_end range)); intuition lia. }
  eexists. split_and!; [|apply wf_take; try done; intros z ?; apply Hfree; auto|done].
  unfold internal_allocate_from_slot, get_state, checked, mbind, prog_bind, mret, prog_ret.
  by rewrite Hrem, Hno.
Qed.

(** The least multiple of [al] from [x] on. *)
Definition align_up (x al : Z) : Z := x + (- x) mod al.

Lemma align_up_spec x al :
  0 < al → (al | align_up x al) ∧ x <= align_up x al < x + al ∧
  ∀ s, (al | s) → x <= s → align_up x al <= s.
Proof.
  intros Hal. unfold align_up. pose proof (Z.mod_pos_bound (- x) al Hal).
  pose proof (Z.div_mod (- x) al ltac:(lia)) as Hdiv. split_and!; [|lia..|].
  - exists (- (- x / al)). lia.
  - intros s [q ->] Hs. assert (- (- x / al) <= q); [|nia].
    apply Z.opp_le_mono. rewrite Z.opp_involutive. apply Z.div_le_lower_bound; lia.
Qed.

(** Rounding up, as the code writes it. *)
Lemma align_up_mod x al :
  0 < al → align_up x al = if x mod al =? 0 then x else x + al - x mod al.
Proof.
  intros Hal. unfold align_up. destruct (Z.eqb_spec (x mod al) 0) as [H|H].
  - rewrite Z.mod_opp_l_z by lia. lia.
  - rewrite Z.mod_opp_l_nz by lia. lia.
Qed.

(** [size] addresses at the multiple [s] of [al], in one of the ranges. *)
Definition available (l : list AddressRange) (size al s : Z) : Prop :=
  (al | s) ∧ ∃ r, r ∈ l ∧ ar_start r <= s ∧ s + size - 1 <= ar_end r.

Section fits.
Context (size al : u64) (Hsize : 1 <= size) (Hal : is_power_of_two al = true).
Context (Hsum : size - 1 + al < 2 ^ 64).

Lemma al_pos : 0 < al.
Proof using Hal. by apply power_of_two_pos. Qed.

Lemma size_pred : ∃ last, sub_checked size (U64 1) = Some last ∧ uval last = size - 1.
Proof using Hsize.
  destruct (sub_checked size (U64 1)) as [last|] eqn:E.
  - apply sub_checked_Some in E. by exists last.
  - apply sub_checked_None in E. rewrite U64_one in E. lia.
Qed.

Lemma start_mod r : uval (U64 (ar_start r mod al)) = ar_start r mod al.
Proof using Hal.
  pose proof al_pos. pose proof (Z.mod_pos_bound (ar_start r) al ltac:(lia)).
  pose proof (uint_range al). apply uval_to_uint_small. lia.
Qed.

Lemma fits_spec r :
  fits size al r = Some (align_up (ar_start r) al + size - 1 <=? ar_end r).
Proof using All.
  pose proof al_pos. pose proof (Z.mod_pos_bound (ar_start r) al ltac:(lia)).
  pose proof (uint_range (ar_end r)). pose proof (uint_range (ar_start r)).
  change (Z.of_N 64) with 64 in *.
  destruct size_pred as (last & Hlast & Hl). unfold fits. rewrite Hlast. cbn -[Z.modulo].
  rewrite start_mod, align_up_mod by lia.
  assert (∀ off : u64, match add_checked (ar_start r) off with
                 | Some end_ => end_ <=? ar_end r | None => false end
               = (ar_start r + off <=? ar_end r)) as Hoff.
  { intros off. destruct (add_checked _ _) as [e|] eqn:E.
    - apply add_checked_Some in E. by rewrite E.
    - apply add_checked_None in E. change (Z.of_N 64) with 64 in E. symmetry. apply Z.leb_gt. lia. }
  destruct (Z.eqb_spec (ar_start r mod al) 0) as [E|E]; cbn.
  - rewrite Hoff. do 2 f_equal. lia.
  - destruct (add_checked last al) as [t|] eqn:Et;
      [apply add_checked_Some in Et|apply add_checked_None in Et; change (Z.of_N 64) with 64 in *; lia].
    cbn -[Z.modulo]. destruct (sub_checked t _) as [off|] eqn:Eo;
      [apply sub_checked_Some in Eo|apply sub_checked_None in Eo]; rewrite start_mod in Eo; [|lia].
    cbn. rewrite Hoff. do 2 f_equal. lia.
Qed.

Lemma place_spec r :
  align_up (ar_start r) al + size - 1 <= ar_end r →
  ∃ s, place size al r = Some s ∧ uval s = align_up (ar_start r) al.
Proof using Hsize Hal.
  clear Hsum.
  intros Hfit. pose proof al_pos. pose proof (Z.mod_pos_bound (ar_start r) al ltac:(lia)).
  pose proof (uint_range (ar_end r)). pose proof (uint_range al). pose proof (uint_range (ar_start r)).
  change (Z.of_N 64) with 64 in *.
  unfold place. rewrite start_mod. rewrite align_up_mod in * by lia.
  destruct (Z.eqb_spec (ar_start r mod al) 0) as [E|E]; [by eexists|].
  destruct (add_checked (ar_start r) al) as [t|] eqn:Et; [apply add_checked_Some in Et|].
  - cbn -[Z.modulo]. destruct (sub_checked t _) as [s|] eqn:Es;
      [apply sub_checked_Some in Es|apply sub_checked_None in Es]; rewrite start_mod in Es; [|lia].
    exists s. split; [done|]. lia.
  - apply add_checked_None in Et. change (Z.of_N 64) with 64 in Et. exfalso.
    (* a multiple of [al] below 2^64 is at most 2^64 - al *)
    assert ((al | 2 ^ 64)) as [q Hq].
    { rewrite (power_of_two_log al) by done. exists (2 ^ (64 - Z.log2 al)).
      assert (Z.log2 al < 64) by (apply Z.log2_lt_pow2; lia). pose proof (Z.log2_nonneg al).
      rewrite <-Z.pow_add_r by lia. f_equal. lia. }
    pose proof (Z.div_mod (ar_start r) al ltac:(lia)).
    assert (ar_start r / al + 1 < q) by nia. nia.
Qed.

(** From the end of a range: the greatest multiple that leaves room. *)
Definition top (r : AddressRange) : Z := (ar_end r - (size - 1)) - (ar_end r - (size - 1)) mod al.

Lemma top_spec r :
  (al | top r) ∧ top r + size - 1 <= ar_end r ∧
  ∀ s, (al | s) → s + size - 1 <= ar_end r → s <= top r.
Proof using Hal.
  clear Hsum.
  pose proof al_pos. unfold top. set (x := ar_end r - (size - 1)).
  pose proof (Z.mod_pos_bound x al ltac:(lia)). pose proof (Z.div_mod x al ltac:(lia)).
  split_and!; [exists (x / al); lia|lia|].
  intros s [q ->] Hs. assert (q <= x / al); [|nia]. apply Z.div_le_lower_bound; lia.
Qed.

Lemma place_reverse_spec r :
  size - 1 <= ar_end r → ∃ s, place_reverse size al r = Some s ∧ uval s = top r.
Proof using Hsize Hal.
  clear Hsum.
  intros Hle. destruct size_pred as (last & Hlast & Hl). unfold place_reverse. rewrite Hlast. cbn.
  destruct (sub_checked (ar_end r) last) as [t|] eqn:Et;
    [apply sub_checked_Some in Et|apply sub_checked_None in Et; lia].
  cbn. destruct (align_down_spec t al Hal) as (s & -> & Hs). exists s. split; [done|].
  rewrite Hs, Et, Hl. done.
Qed.

Lemma fits_reverse_spec r :
  fits_reverse size al r = Some (bool_decide (ar_start r <= top r ∧ size - 1 <= ar_end r)).
Proof using Hsize Hal.
  clear Hsum.
  destruct size_pred as (last & Hlast & Hl). unfold fits_reverse. rewrite Hlast. cbn.
  destruct (sub_checked (ar_end r) last) as [t|] eqn:Et;
    [apply sub_checked_Some in Et|apply sub_checked_None in Et].
  - destruct (align_down_spec t al Hal) as (s & -> & Hs). cbn. f_equal.
    pose proof (uint_range t). rewrite Hs, Et, Hl. fold (top r).
    destruct (Z.leb_spec (ar_start r) (top r)); symmetry;
      [apply bool_decide_eq_true|apply bool_decide_eq_false]; lia.
  - f_equal. symmetry. apply bool_decide_eq_false. lia.
Qed.

(** The choice among the regions. *)
Lemma available_cons r l s :
  (∀ s, (al | s) → ar_start r <= s → s + size - 1 <= ar_end r → False) →
  available (r :: l) size al s ↔ available l size al s.
Proof using.
  intros Hr. unfold available. setoid_rewrite elem_of_cons. split.
  - intros (Hd & r' & [->|Hr'] & ? & ?); [by destruct (Hr s)|eauto].
  - intros (Hd & r' & Hr' & ? & ?). eauto 10.
Qed.

Lemma find_first (l : list AddressRange) :
  regions_ok l →
  match find_checked (fits size al) l with
  | Some (Some r) =>
      r ∈ l ∧ available l size al (align_up (ar_start r) al) ∧
      align_up (ar_start r) al + size - 1 <= ar_end r ∧
      ∀ s, available l size al s → align_up (ar_start r) al <= s
  | Some None => ∀ s, ¬ available l size al s
  | None => False
  end.
Proof using All.
  pose proof al_pos as Hpos. intros [_ Hs]. induction Hs as [|r l Hs IH Hr]; cbn.
  { intros s (_ & r & Hr & _). by apply not_elem_of_nil in Hr. }
  destruct (align_up_spec (ar_start r) al Hpos) as (Hdiv & Hup & Hmin).
  rewrite fits_spec. cbn. destruct (Z.leb_spec (align_up (ar_start r) al + size - 1) (ar_end r)).
  - split_and!; [by left| |done|].
    + split; [done|]. exists r. split_and!; [by left|lia|done].
    + intros s (Hdivs & r' & Hr' & ? & ?). apply elem_of_cons in Hr' as [->|Hr']; [auto|].
      eapply Forall_forall in Hr; [|done]. unfold separated in Hr. lia.
  - assert (∀ s, available (r :: l) size al s ↔ available l size al s) as Hav.
    { intros s. apply available_cons. intros s' Hd ? ?. specialize (Hmin s' Hd). lia. }
    destruct (find_checked _ l) as [[r'|]|]; [|by setoid_rewrite Hav|done].
    setoid_rewrite Hav. destruct IH as (? & IH). split; [by right|done].
Qed.

Lemma find_last (l : list AddressRange) :
  StronglySorted (flip separated) l →
  match find_checked (fits_reverse size al) l with
  | Some (Some r) =>
      r ∈ l ∧ available l size al (top r) ∧ ar_start r <= top r ∧ size - 1 <= ar_end r ∧
      ∀ s, available l size al s → s <= top r
  | Some None => ∀ s, ¬ available l size al s
  | None => False
  end.
Proof using Hsize Hal.
  clear Hsum. intros Hs. induction Hs as [|r l Hs IH Hr]; cbn.
  { intros s (_ & r & Hr & _). by apply not_elem_of_nil in Hr. }
  destruct (top_spec r) as (Hdiv & Hup & Hmax). pose proof (uint_range (ar_start r)).
  rewrite fits_reverse_spec. cbn. case_bool_decide as Hc.
  - split_and!; [by left| |lia..|].
    + split; [done|]. exists r. split_and!; [by left|lia|done].
    + intros s (Hdivs & r' & Hr' & ? & ?). apply elem_of_cons in Hr' as [->|Hr']; [auto|].
      eapply Forall_forall in Hr; [|done]. unfold separated, flip in Hr. lia.
  - assert (∀ s, available (r :: l) size al s ↔ available l size al s) as Hav.
    { intros s. apply available_cons. intros s' Hd ? ?. specialize (Hmax s' Hd). lia. }
    destruct (find_checked _ l) as [[r'|]|]; [|by setoid_rewrite Hav|done].
    setoid_rewrite Hav. destruct IH as (? & IH). split; [by right|done].
Qed.

End fits.

Lemma StronglySorted_snoc {A} (R : A → A → Prop) l x :
  StronglySorted R l → Forall (λ y, R y x) l → StronglySorted R (l ++ [x]).
Proof.
  induction 1 as [|y l Hs IH Hy]; intros Hx; cbn; [repeat constructor|].
  apply Forall_cons in Hx as [? Hx]. constructor; [auto|]. apply Forall_app. auto.
Qed.

Lemma regions_ok_rev l : regions_ok l → StronglySorted (flip separated) (rev l).
Proof.
  intros [_ Hs]. induction Hs as [|x l Hs IH Hx]; cbn; [constructor|].
  apply StronglySorted_snoc; [done|]. by apply List.Forall_rev.
Qed.

Lemma available_rev l size al s : available (rev l) size al s ↔ available l size al s.
Proof.
  unfold available. pose proof (Permutation_rev l) as Hp. by setoid_rewrite <-Hp.
Qed.

(** The address an allocation of [size] at alignment [al] gets: the lowest that is
    available, or the highest. *)
Definition chosen (reverse : bool) (l : list AddressRange) (size al s : Z) : Prop :=
  available l size al s ∧
  ∀ s', available l size al s' → if reverse then s' <= s else s <= s'.

Lemma find_region a size al reverse :
  wf a → 1 <= uval size → is_power_of_two al = true → uval size - 1 + uval al < 2 ^ 64 →
  match (if negb reverse then find_checked (fits size al) (aa_regions a)
         else find_checked (fits_reverse size al) (rev (aa_regions a))) with
  | Some (Some r) =>
      r ∈ aa_regions a ∧
      ∃ s, (if negb reverse then place size al r else place_reverse size al r) = Some s ∧
           chosen reverse (aa_regions a) size al s ∧
           ar_start r <= s ∧ s + size - 1 <= ar_end r
  | Some None => ∀ s, ¬ available (aa_regions a) size al s
  | None => False
  end.
Proof.
  intros Hwf Hsize Hal Hsum. pose proof (wf_regions a Hwf) as Hok. destruct reverse; cbn [negb].
  - pose proof (find_last size al Hsize Hal _ (regions_ok_rev _ Hok)) as Hf.
    destruct (find_checked _ _) as [[r|]|]; [|by setoid_rewrite available_rev in Hf|done].
    destruct Hf as (Hin & Hav & Hst & Hle & Hmax).
    setoid_rewrite available_rev in Hav. setoid_rewrite available_rev in Hmax.
    rewrite <-Permutation_rev in Hin. split; [done|].
    destruct (place_reverse_spec size al Hsize Hal r Hle) as (s & -> & Hs).
    destruct (top_spec size al Hal r) as (_ & ? & _).
    exists s. unfold chosen. rewrite Hs. split_and!; done || lia.
  - pose proof (find_first size al Hsize Hal Hsum _ Hok) as Hf.
    destruct (find_checked _ _) as [[r|]|]; [|done..].
    destruct Hf as (Hin & Hav & Hle & Hmin). split; [done|].
    destruct (place_spec size al Hsize Hal r Hle) as (s & -> & Hs).
    destruct (align_up_spec (ar_start r) al (power_of_two_pos al Hal)) as (_ & ? & _).
    exists s. unfold chosen. rewrite Hs. split_and!; done || lia.
Qed.

(** What an attempt to allocate may return, and its effect. *)
Definition allocation_result (reverse : bool) (a : AddressAllocator) (size : u64) (alloc : Alloc)
    (tag : string) (al : u64) (r : outcome Error u64) (a' : AddressAllocator) : Prop :=
  match r with
  | Returns s =>
      aa_allocs a !! alloc = None ∧ chosen reverse (aa_regions a) size al s ∧
      ∃ e regions', uval e = s + size - 1 ∧
        a' = update a (<[alloc := (MkRange s e, tag)]> (aa_allocs a)) regions' ∧
        ∀ z, free regions' z ↔ free (aa_regions a) z ∧ ¬ s <= z <= e
  | Throws e =>
      a' = a ∧
      match e with
      | ExistingAlloc k => k = alloc ∧ is_Some (aa_allocs a !! alloc)
      | AllocSizeZero => uval size = 0
      | BadAlignment => is_power_of_two al = false
      | OutOfSpace => ∀ s, ¬ available (aa_regions a) size al s
      | _ => False
      end
  | Aborts => False
  end.

(** Below the last address, an allocation does not overflow. *)
Lemma end_of_allocation (s size : u64) (r : AddressRange) :
  1 <= uval size → s + size - 1 <= ar_end r → ar_end r < 2 ^ 64 - 1 →
  ∃ e, (t ← add_checked s size; sub_checked t (U64 1)) = Some e ∧ uval e = s + size - 1.
Proof.
  intros Hsize Hle Hlt. destruct (add_checked s size) as [t|] eqn:Et;
    [apply add_checked_Some in Et|apply add_checked_None in Et; change (Z.of_N 64) with 64 in Et; lia].
  cbn. pose proof (uint_range s).
  destruct (sub_checked t (U64 1)) as [e|] eqn:Ee;
    [apply sub_checked_Some in Ee|apply sub_checked_None in Ee]; rewrite U64_one in Ee; [|lia].
  exists e. split; [done|lia].
Qed.

Lemma region_below_top a r :
  wf a → ¬ free (aa_pools a) (2 ^ 64 - 1) → r ∈ aa_regions a → ar_end r < 2 ^ 64 - 1.
Proof.
  intros Hwf Htop Hr. pose proof (uint_range (ar_end r)) as Hb. change (Z.of_N 64) with 64 in Hb.
  destruct (decide (uval (ar_end r) = 2 ^ 64 - 1)) as [E|]; [|lia].
  exfalso. apply Htop, wf_pools; [done|]. left. exists r. split; [done|].
  pose proof (wf_regions a Hwf) as [Hne _]. eapply Forall_forall in Hne; [|done].
  unfold nonempty, In_range in *. lia.
Qed.

Ltac answer := eexists _, _; split; [reflexivity|]; repeat (split; [done|]).

Lemma internal_allocate_ok a size alloc tag alignment reverse :
  let al := umax (aa_min_align a) alignment in
  wf a → ¬ free (aa_pools a) (2 ^ 64 - 1) → uval size - 1 + uval al < 2 ^ 64 →
  ∃ r a', internal_allocate_with_align size alloc tag alignment reverse a = (r, a') ∧ wf a' ∧
    allocation_result reverse a size alloc tag al r a'.
Proof.
  intros al Hwf Htop Hsum. unfold internal_allocate_with_align, get_state, throw.
  unfold mbind, prog_bind. fold al.
  case_bool_decide as Hk; [by answer|]. apply eq_None_not_Some in Hk.
  destruct (Z.eqb_spec size 0); [by answer|].
  destruct (is_power_of_two al) eqn:Hal; cbn [negb]; [|by answer].
  pose proof (uint_range size).
  pose proof (find_region a size al reverse Hwf ltac:(lia) Hal Hsum) as Hf.
  destruct (if negb reverse then _ else _) as [[slot|]|]; cbn [checked mret prog_ret]; [|by answer|done].
  destruct Hf as (Hin & s & -> & Hch & Hs & He). cbn [checked mret prog_ret].
  destruct (end_of_allocation s size slot) as (e & Hend & Hee);
    [lia|done|by eapply region_below_top|]. unfold mbind in Hend. rewrite Hend.
  cbn [checked mret prog_ret].
  destruct (from_slot_ok a slot (MkRange s e) alloc tag Hwf Hin) as (regions' & -> & Hwf' & Hfree);
    [|done|].
  { apply contains_range_spec. unfold nonempty, In_range; cbn. split; [lia|]. intros z ?. lia. }
  eexists _, _. split_and!; [done..|]. split_and!; [done..|]. exists e, regions'. by split_and!.
Qed.

(** ** Giving a range back *)

Lemma split_regions slot l :
  regions_ok l → nonempty slot → (∀ z, In_range slot z → ¬ free l z) →
  ∃ l1 l2, l = l1 ++ l2 ∧ Forall (λ r, separated r slot) l1 ∧ Forall (separated slot) l2.
Proof.
  intros [Hne Hs] Hslot. revert Hne. induction Hs as [|x l Hs IH Hx]; intros Hne Hd.
  { by exists [], []. }
  apply Forall_cons in Hne as [Hnex Hne]. setoid_rewrite free_cons in Hd.
  destruct (disjoint_separated slot x Hslot Hnex) as [H|H]; [intros z Hz ?; apply (Hd z Hz); by left| |].
  - exists [], (x :: l). split_and!; [done..|]. constructor; [done|].
    eapply Forall_impl; [exact Hx|]. intros z. by apply separated_trans.
  - destruct IH as (l1 & l2 & -> & H1 & H2); [done|intros z Hz ?; apply (Hd z Hz); by right|].
    exists (x :: l1), l2. auto.
Qed.

Lemma at_most_separated slot r :
  nonempty slot → nonempty r →
  (separated r slot → at_most slot r = true) ∧ (separated slot r → at_most slot r = false).
Proof.
  intros Hs Hr. unfold at_most. split; intros H.
  - destruct (cmp_disjoint r slot Hr Hs) as [[-> _]|[_ H']]; [by apply (separated_disjoint r slot)|done|].
    unfold separated, nonempty in *. lia.
  - destruct (cmp_disjoint r slot Hr Hs) as [[_ H']|[-> _]]; [by apply (separated_disjoint slot r)| |done].
    unfold separated, nonempty in *. lia.
Qed.

Lemma filter_keep {A} (P : A → Prop) `{∀ x, Decision (P x)} l : Forall P l → filter P l = l.
Proof. induction 1 as [|x l Hx Hl IH]; [done|]. rewrite filter_cons_True by done. by f_equal. Qed.

Lemma filter_drop {A} (P : A → Prop) `{∀ x, Decision (P x)} l :
  Forall (λ x, ¬ P x) l → filter P l = [].
Proof. induction 1 as [|x l Hx Hl IH]; [done|]. by rewrite filter_cons_False. Qed.

(** The neighbours of a range that is disjoint from the regions. *)
Lemma neighbours slot l1 l2 :
  nonempty slot → Forall nonempty (l1 ++ l2) →
  Forall (λ r, separated r slot) l1 → Forall (separated slot) l2 →
  range_max slot (l1 ++ l2) = last l1 ∧ range_min slot (l1 ++ l2) = head l2.
Proof.
  intros Hs [Hn1 Hn2]%Forall_app H1 H2. unfold range_max, range_min. rewrite !filter_app.
  rewrite Forall_forall in Hn1, Hn2, H1, H2.
  rewrite (filter_keep (λ r, at_most slot r = true) l1), (filter_drop (λ r, at_most slot r = true) l2).
  rewrite (filter_drop (λ r, at_most slot r = false) l1), (filter_keep (λ r, at_most slot r = false) l2).
  { by rewrite app_nil_r. }
  all: apply Forall_forall; intros r Hr.
  1: by apply (at_most_separated slot r); auto.
  1: rewrite (proj1 (at_most_separated slot r Hs ltac:(auto))) by auto; done.
  1: rewrite (proj2 (at_most_separated slot r Hs ltac:(auto))) by auto; done.
  by apply (at_most_separated slot r); auto.
Qed.

Lemma smaller_merge_spec slot l :
  regions_ok l → nonempty slot → (∀ z, In_range slot z → ¬ free l z) →
  ∃ m, smaller_merge slot l = inl m ∧
       match m with Some s => s ∈ l ∧ ar_end s + 1 = ar_start slot | None => True end.
Proof.
  intros Hok Hs Hd. destruct (split_regions slot l Hok Hs Hd) as (l1 & l2 & -> & H1 & H2).
  destruct (neighbours slot l1 l2) as [Hmax _]; [done|apply Hok|done..|].
  unfold smaller_merge. rewrite Hmax. destruct (last l1) as [s|] eqn:Hl; [|by eexists].
  apply last_Some in Hl as [l1' ->]. rewrite Forall_app, Forall_singleton in H1.
  destruct H1 as [_ Hsep]. unfold separated in Hsep.
  pose proof (uint_range (ar_start slot)) as Hb. change (Z.of_N 64) with 64 in Hb.
  destruct (add_checked (ar_end s) (U64 1)) as [n|] eqn:En;
    [apply add_checked_Some in En|apply add_checked_None in En; change (Z.of_N 64) with 64 in En];
    rewrite U64_one in En; [|lia].
  destruct (Z.compare_spec n (ar_start slot)); [|by eexists|lia].
  eexists. split; [done|]. split; [set_solver|lia].
Qed.

Lemma larger_merge_spec slot l :
  regions_ok l → nonempty slot → (∀ z, In_range slot z → ¬ free l z) →
  ∃ m, larger_merge slot l = inl m ∧
       match m with Some g => g ∈ l ∧ ar_end slot + 1 = ar_start g | None => True end.
Proof.
  intros Hok Hs Hd. destruct (split_regions slot l Hok Hs Hd) as (l1 & l2 & -> & H1 & H2).
  destruct (neighbours slot l1 l2) as [_ Hmin]; [done|apply Hok|done..|].
  unfold larger_merge. rewrite Hmin. destruct l2 as [|g l2]; cbn; [by eexists|].
  apply Forall_cons in H2 as [Hsep _]. unfold separated in Hsep.
  pose proof (uint_range (ar_end slot)).
  destruct (sub_checked (ar_start g) (U64 1)) as [n|] eqn:En;
    [apply sub_checked_Some in En|apply sub_checked_None in En]; rewrite U64_one in En; [|lia].
  destruct (Z.compare_spec (ar_end slot) n); [|by eexists|lia].
  eexists. split; [done|]. split; [set_solver|lia].
Qed.

Lemma discard_ok x l :
  regions_ok l → x ∈ l →
  regions_ok (discard x l) ∧ (∀ z, free l z ↔ In_range x z ∨ free (discard x l) z) ∧
  (∀ z, In_range x z → ¬ free (discard x l) z) ∧ (∀ y, y ∈ l → y ≠ x → y ∈ discard x l).
Proof.
  intros Hok Hx. destruct (btree_remove_ok x l Hok Hx) as (l' & Hl & Hp & Hok').
  unfold discard. rewrite Hl. cbn. split_and!; [done| | |].
  - intros z. rewrite (free_perm _ _ z Hp). apply free_cons.
  - exact (regions_ok_disjoint x l l' Hok Hp).
  - intros y Hy Hne. rewrite Hp, elem_of_cons in Hy. by destruct Hy.
Qed.

Lemma btree_insert_free x l :
  regions_ok l → nonempty x → (∀ z, In_range x z → ¬ free l z) →
  regions_ok (btree_insert x l) ∧ ∀ z, free (btree_insert x l) z ↔ free l z ∨ In_range x z.
Proof.
  intros Hok Hx Hd%disjoint_free. destruct (btree_insert_ok x l Hok Hx Hd) as [Hok' Hp].
  split; [done|]. intros z. rewrite (free_perm _ _ z Hp), free_cons. tauto.
Qed.

(** A merged range: the old one and its neighbour. *)
Lemma merge_left s slot z :
  nonempty s → nonempty slot → ar_end s + 1 = ar_start slot →
  nonempty (MkRange (ar_start s) (ar_end slot)) ∧
  (In_range (MkRange (ar_start s) (ar_end slot)) z ↔ In_range s z ∨ In_range slot z).
Proof. unfold nonempty, In_range; cbn. lia. Qed.

Lemma merge_right slot g z :
  nonempty slot → nonempty g → ar_end slot + 1 = ar_start g →
  nonempty (MkRange (ar_start slot) (ar_end g)) ∧
  (In_range (MkRange (ar_start slot) (ar_end g)) z ↔ In_range slot z ∨ In_range g z).
Proof. unfold nonempty, In_range; cbn. lia. Qed.

Lemma insert_at_ok a slot :
  regions_ok (aa_regions a) → nonempty slot →
  (∀ z, In_range slot z → ¬ free (aa_regions a) z) →
  ∃ regions', insert_at slot a = (Returns (), update a (aa_allocs a) regions') ∧
    regions_ok regions' ∧ ∀ z, free regions' z ↔ free (aa_regions a) z ∨ In_range slot z.
Proof.
  intros Hok Hne Hd. unfold insert_at, get_state, mbind, prog_bind.
  rewrite (proj2 (is_empty_false slot) Hne).
  destruct (smaller_merge_spec slot _ Hok Hne Hd) as (sm & -> & Hsm).
  destruct (larger_merge_spec slot _ Hok Hne Hd) as (lm & -> & Hlm).
  set (l := aa_regions a) in *. pose proof Hok as [Hall _]. rewrite Forall_forall in Hall.
  (* after the merge with the smaller neighbour *)
  assert (∃ slot1 l1, match sm with
      | Some s => (MkRange (ar_start s) (ar_end slot), discard s l)
      | None => (slot, l) end = (slot1, l1) ∧ ar_end slot1 = ar_end slot ∧ nonempty slot1 ∧
      regions_ok l1 ∧ (∀ z, In_range slot1 z → ¬ free l1 z) ∧
      (∀ z, free l z ∨ In_range slot z ↔ free l1 z ∨ In_range slot1 z) ∧
      (∀ g, g ∈ l → separated slot g → g ∈ l1))
    as (slot1 & l1 & -> & Hend & Hne1 & Hok1 & Hd1 & Hf1 & Hin1).
  { destruct sm as [s|]; [|eexists _, _; by split_and!]. destruct Hsm as [Hs Heq].
    destruct (discard_ok s l Hok Hs) as (Hok1 & Hf & Hds & Hin).
    eexists _, _. split; [done|]. pose proof (λ z, merge_left s slot z (Hall s Hs) Hne Heq) as Hm.
    split_and!; [done|apply (Hm 0)|done| | |].
    - intros z Hz. rewrite (proj2 (Hm z)) in Hz. specialize (Hd z). rewrite Hf in Hd.
      specialize (Hds z). tauto.
    - intros z. rewrite (proj2 (Hm z)), Hf. tauto.
    - intros g Hg Hsep. apply Hin; [done|]. intros ->. pose proof (Hall s Hs). unfold separated, nonempty in *. lia. }
  destruct lm as [g|].
  - destruct Hlm as [Hg Heq]. assert (g ∈ l1) as Hg1 by (apply Hin1; unfold separated; [done|lia]).
    destruct (discard_ok g l1 Hok1 Hg1) as (Hok2 & Hf & Hds & _). rewrite <-Hend in Heq.
    pose proof (λ z, merge_right slot1 g z Hne1 (Hall g Hg) Heq) as Hm.
    destruct (btree_insert_free (MkRange (ar_start slot1) (ar_end g)) (discard g l1)) as [Hok3 Hf3];
      [done|apply (Hm 0)| |].
    { intros z Hz. rewrite (proj2 (Hm z)) in Hz. specialize (Hd1 z). rewrite Hf in Hd1.
      specialize (Hds z). tauto. }
    eexists. split_and!; [done|done|]. intros z. rewrite Hf3, (proj2 (Hm z)), Hf1, Hf. tauto.
  - destruct (btree_insert_free slot1 l1) as [Hok3 Hf3]; [done..|].
    eexists. split_and!; [done|done|]. intros z. rewrite Hf3, Hf1. tauto.
Qed.

Lemma release_ok a k r t :
  wf a → aa_allocs a !! k = Some (r, t) →
  ∃ regions', release k a = (Returns r, update a (delete k (aa_allocs a)) regions') ∧
    wf (update a (delete k (aa_allocs a)) regions') ∧
    ∀ z, free regions' z ↔ free (aa_regions a) z ∨ In_range r z.
Proof.
  intros Hwf Hk. unfold release, get_state, put_allocs, mbind, prog_bind. rewrite Hk.
  destruct (insert_at_ok (update a (delete k (aa_allocs a)) (aa_regions a)) r)
    as (regions' & Hi & Hok & Hf); cbn.
  - apply Hwf.
  - by eapply wf_nonempty.
  - intros z Hz. by eapply wf_free.
  - exists regions'. split_and!; [|by eapply wf_give|done].
    unfold update in Hi; cbn in Hi. by rewrite Hi.
Qed.

(** ** Every operation that does not abort keeps the invariant *)

Lemma find_checked_Some {A} (p : A → option bool) l x :
  find_checked p l = Some (Some x) → x ∈ l ∧ p x = Some true.
Proof.
  induction l as [|y l IH]; cbn; [done|]. intros H.
  apply bind_Some in H as ([] & Hy & H); [simplify_eq; split; [left|done]|].
  apply IH in H as [? ?]. split; [by right|done].
Qed.

(** Turn the equations of checked operations into arithmetic. *)
Ltac checked_inv :=
  repeat match goal with
  | H : _ ≫= _ = Some _ |- _ => apply bind_Some in H as (? & ? & H)
  | H : sub_checked _ _ = Some _ |- _ => apply sub_checked_Some in H
  | H : add_checked _ _ = Some _ |- _ => apply add_checked_Some in H
  | H : Some _ = Some _ |- _ => injection H as H
  end; rewrite ?U64_one in *.

Lemma fits_contains (size al : u64) r s e :
  is_power_of_two al = true →
  fits size al r = Some true → place size al r = Some s →
  (t ← add_checked s size; sub_checked t (U64 1)) = Some e →
  AddressRange_contains_range r (MkRange s e) = true.
Proof.
  intros Hal Hf Hp He. pose proof (power_of_two_pos al Hal).
  pose proof (Z.mod_pos_bound (ar_start r) al ltac:(lia)).
  unfold fits, place in *. rewrite start_mod in * by done. pose proof (uint_range size).
  apply contains_range_spec. unfold nonempty, In_range; cbn.
  destruct (Z.eqb_spec (ar_start r mod al) 0); checked_inv; rewrite ?start_mod in * by done;
    destruct (add_checked (ar_start r) _) eqn:Ha in Hf; try done; checked_inv; zbool;
    subst; (split; [|intros ? ?]); uint_lia.
Qed.

Lemma fits_reverse_contains (size al : u64) r s e :
  is_power_of_two al = true →
  fits_reverse size al r = Some true → place_reverse size al r = Some s →
  (t ← add_checked s size; sub_checked t (U64 1)) = Some e →
  AddressRange_contains_range r (MkRange s e) = true.
Proof.
  intros Hal Hf Hp He. pose proof (power_of_two_pos al Hal).
  unfold fits_reverse, place_reverse in *. checked_inv.
  apply contains_range_spec. unfold nonempty, In_range; cbn.
  destruct (sub_checked (ar_end r) _) as [t|] eqn:Et in Hf; [|done]. checked_inv. zbool.
  match goal with
  | H1 : align_down t al = Some _, H2 : align_down ?t' al = Some _ |- _ =>
      destruct (align_down_spec t al Hal) as (c & Hc & Hcv);
      assert (t' = t) as -> by (apply uint_eq; congruence || lia);
      rewrite Hc in H1, H2; simplify_eq
  end.
  pose proof (Z.mod_pos_bound t al ltac:(lia)). (split; [|intros ? ?]); uint_lia.
Qed.

(** What an operation never changes. *)
Definition config (a : AddressAllocator) : list AddressRange * u64 * u64 :=
  (aa_pools a, aa_min_align a, aa_preferred_align a).

Definition keeps {A} (m : aprog A) : Prop :=
  ∀ a r a', wf a → m a = (r, a') → r ≠ Aborts → wf a' ∧ config a' = config a.

(** The effect of an allocation that returns. *)
Definition takes (a : AddressAllocator) (alloc : Alloc) (a' : AddressAllocator) : Prop :=
  ∃ r t regions', aa_allocs a !! alloc = None ∧
    a' = update a (<[alloc := (r, t)]> (aa_allocs a)) regions' ∧ wf a' ∧
    ∀ z, free (aa_regions a) z ↔ free regions' z ∨ In_range r z.

Lemma from_slot_takes a slot range alloc tag r a' :
  wf a → slot ∈ aa_regions a → AddressRange_contains_range slot range = true →
  aa_allocs a !! alloc = None →
  internal_allocate_from_slot slot range alloc tag a = (r, a') →
  r = Returns (ar_start range) ∧ takes a alloc a'.
Proof.
  intros Hwf Hin Hc Hk Hrun.
  destruct (from_slot_ok a slot range alloc tag Hwf Hin Hc Hk) as (regions' & Hs & Hwf' & Hf).
  rewrite Hs in Hrun. injection Hrun as <- <-. split; [done|].
  exists range, tag, regions'. split_and!; [done..|]. apply contains_range_spec in Hc as [_ Hsub].
  intros z. rewrite Hf. split.
  - intros Hz. destruct (decide (ar_start range <= z ∧ z <= ar_end range)); [by right|left; by split].
  - intros [[? _]|Hz]; [done|]. exists slot. auto.
Qed.

(** Nothing changes, or the request is served. *)
Definition attempts {A} (alloc : Alloc) (m : aprog A) : Prop :=
  ∀ a r a', wf a → m a = (r, a') →
    match r with
    | Returns _ => takes a alloc a'
    | Throws _ => a' = a
    | Aborts => True
    end.

Lemma internal_allocate_attempts size alloc tag alignment reverse :
  attempts alloc (internal_allocate_with_align size alloc tag alignment reverse).
Proof.
  intros a r a' Hwf Hrun. unfold internal_allocate_with_align, get_state, throw in Hrun.
  unfold mbind at 1, prog_bind at 1 in Hrun. set (al := umax _ _) in Hrun.
  case_bool_decide as Hk; [by simplify_eq|]. apply eq_None_not_Some in Hk.
  case_match; [by simplify_eq|].
  destruct (is_power_of_two al) eqn:Hal; cbn [negb] in Hrun; [|by simplify_eq].
  unfold mbind at 1, prog_bind at 1 in Hrun.
  destruct (if negb reverse then find_checked _ _ else _) as [[slot|]|] eqn:Hfind in Hrun;
    cbn in Hrun; [|by simplify_eq..].
  unfold mbind at 1, prog_bind at 1 in Hrun.
  destruct (if negb reverse then place _ _ _ else _) as [s|] eqn:Hp in Hrun;
    cbn in Hrun; [|by simplify_eq].
  unfold mbind at 1, prog_bind at 1 in Hrun.
  destruct (add_checked s size ≫= _) as [e|] eqn:He in Hrun; cbn in Hrun; [|by simplify_eq].
  assert (slot ∈ aa_regions a ∧ AddressRange_contains_range slot (MkRange s e) = true) as [Hin Hc].
  { destruct reverse; cbn [negb] in *; apply find_checked_Some in Hfind as [Hin Hf].
    - rewrite <-Permutation_rev in Hin. split; [done|]. by eapply fits_reverse_contains.
    - split; [done|]. by eapply fits_contains. }
  by apply from_slot_takes in Hrun as [-> ?].
Qed.

Lemma retry_attempts alloc (m1 m2 : AddressAllocator → aprog u64) :
  (∀ a, attempts alloc (m1 a)) → (∀ a, attempts alloc (m2 a)) →
  attempts alloc (a ← get_state; r ← catch (m1 a);
                  match r with inl s => mret s | inr _ => a ← get_state; m2 a end).
Proof.
  intros H1 H2 a r a' Hwf Hrun. unfold get_state, catch, mbind, prog_bind in Hrun.
  destruct (m1 a a) as [r1 a1] eqn:E1. specialize (H1 a a r1 a1 Hwf E1).
  destruct r1 as [s|e|]; cbn in Hrun; [by injection Hrun as <- <-| |by injection Hrun as <- <-].
  subst a1. by apply (H2 a a r a' Hwf).
Qed.

Lemma attempts_void {A} alloc (m : aprog A) : attempts alloc m → attempts alloc (_ ← m; mret ()).
Proof.
  intros Hm a r a' Hwf Hrun. unfold mbind, prog_bind in Hrun.
  destruct (m a) as [r1 a1] eqn:E. specialize (Hm a r1 a1 Hwf E).
  by destruct r1; injection Hrun as <- <-.
Qed.

Lemma attempts_keeps {A} alloc (m : aprog A) : attempts alloc m → keeps m.
Proof.
  intros Hm a r a' Hwf Hrun Hr. specialize (Hm a r a' Hwf Hrun). destruct r; [|by subst|done].
  destruct Hm as (range & t & regions' & _ & -> & ? & _). done.
Qed.

Section operations.
Context {H : HashOrder}.

Lemma allocate_at_attempts range alloc tag : attempts alloc (allocate_at range alloc tag).
Proof.
  intros a r a' Hwf Hrun. unfold allocate_at, get_state, throw in Hrun.
  unfold mbind at 1, prog_bind at 1 in Hrun.
  case_bool_decide as Hk; [by simplify_eq|]. apply eq_None_not_Some in Hk.
  case_match; [by simplify_eq|]. destruct (List.find _ _) as [slot|] eqn:Hf in Hrun.
  - apply List.find_some in Hf as [Hin%list_elem_of_In Hc]. unfold mbind, prog_bind in Hrun.
    destruct (internal_allocate_from_slot _ _ _ _ _) as [r1 a1] eqn:E.
    apply from_slot_takes in E as [-> ?]; [|done..]. by injection Hrun as <- <-.
  - case_match; by simplify_eq.
Qed.

Lemma release_keeps alloc : keeps (release alloc).
Proof.
  intros a r a' Hwf Hrun Hr. destruct (aa_allocs a !! alloc) as [[range t]|] eqn:Hk.
  - destruct (release_ok a alloc range t Hwf Hk) as (regions' & Hs & Hwf' & _).
    rewrite Hs in Hrun. by simplify_eq.
  - unfold release, get_state, mbind, prog_bind in Hrun. rewrite Hk in Hrun.
    by injection Hrun as <- <-.
Qed.

Lemma release_containing_keeps value : keeps (release_containing value).
Proof.
  intros a r a' Hwf Hrun Hr. unfold release_containing, get_state, mbind, prog_bind in Hrun.
  destruct (find_overlapping _ _); [by eapply release_keeps|].
  by injection Hrun as <- <-.
Qed.

(** ** Sequences of operations *)

Inductive op : Type :=
| OpAllocate (size : u64) (alloc : Alloc) (tag : string)
| OpAllocateWithAlign (size : u64) (alloc : Alloc) (tag : string) (alignment : u64)
| OpReverseAllocate (size : u64) (alloc : Alloc) (tag : string)
| OpReverseAllocateWithAlign (size : u64) (alloc : Alloc) (tag : string) (alignment : u64)
| OpAllocateAt (range : AddressRange) (alloc : Alloc) (tag : string)
| OpRelease (alloc : Alloc)
| OpReleaseContaining (value : u64).

Definition exec (o : op) : aprog () :=
  match o with
  | OpAllocate size alloc tag => _ ← allocate size alloc tag; mret ()
  | OpAllocateWithAlign size alloc tag al => _ ← allocate_with_align size alloc tag al; mret ()
  | OpReverseAllocate size alloc tag => _ ← reverse_allocate size alloc tag; mret ()
  | OpReverseAllocateWithAlign size alloc tag al =>
      _ ← reverse_allocate_with_align size alloc tag al; mret ()
  | OpAllocateAt range alloc tag => allocate_at range alloc tag
  | OpRelease alloc => _ ← release alloc; mret ()
  | OpReleaseContaining value => _ ← release_containing value; mret ()
  end.

(** The allocator after a sequence of operations, some of which may fail; [None]
    if one aborts. *)
Fixpoint run_ops (os : list op) (a : AddressAllocator) : option AddressAllocator :=
  match os with
  | [] => Some a
  | o :: os =>
      match exec o a with
      | (Aborts, _) => None
      | (_, a') => run_ops os a'
      end
  end.

(** The key an operation allocates under. *)
Definition op_alloc (o : op) : option Alloc :=
  match o with
  | OpAllocate _ k _ | OpAllocateWithAlign _ k _ _ | OpReverseAllocate _ k _
  | OpReverseAllocateWithAlign _ k _ _ | OpAllocateAt _ k _ => Some k
  | OpRelease _ | OpReleaseContaining _ => None
  end.

Lemma exec_attempts o k : op_alloc o = Some k → attempts k (exec o).
Proof.
  destruct o; intros [= ->]; cbn [exec]; try apply attempts_void;
    try apply allocate_at_attempts; try apply internal_allocate_attempts;
    apply retry_attempts; intros ?; apply internal_allocate_attempts.
Qed.

Lemma keeps_void {A} (m : aprog A) : keeps m → keeps (_ ← m; mret ()).
Proof.
  intros Hm a r a' Hwf Hrun Hr. unfold mbind, prog_bind in Hrun.
  destruct (m a) as [r1 a1] eqn:E. specialize (Hm a r1 a1 Hwf E).
  destruct r1; injection Hrun as <- <-; [by apply Hm..|done].
Qed.

Lemma exec_keeps o : keeps (exec o).
Proof.
  destruct (op_alloc o) as [k|] eqn:Hk; [by eapply attempts_keeps, exec_attempts|].
  destruct o; try done; cbn [exec]; apply keeps_void;
    [apply release_keeps|apply release_containing_keeps].
Qed.

Lemma run_ops_keeps os a a' :
  wf a → run_ops os a = Some a' → wf a' ∧ config a' = config a.
Proof.
  revert a. induction os as [|o os IH]; intros a Hwf Hrun; cbn in Hrun; [by simplify_eq|].
  destruct (exec o a) as [r a1] eqn:E.
  assert (r ≠ Aborts) as Hr by (by intros ->).
  destruct (exec_keeps o a r a1 Hwf E Hr) as [Hwf1 <-]. apply IH; [done|]. by destruct r.
Qed.

End operations.

(** ** The new allocator *)

Fixpoint pairwise_disjoint (l : list AddressRange) : Prop :=
  match l with
  | [] => True
  | p :: l => Forall (disjoint p) l ∧ pairwise_disjoint l
  end.

Lemma disjoint_sym r s : disjoint r s → disjoint s r.
Proof. unfold disjoint. naive_solver. Qed.

Lemma insert_all_ok l acc :
  regions_ok acc → Forall nonempty l → pairwise_disjoint l →
  (∀ z, free l z → ¬ free acc z) →
  regions_ok (fold_left (λ regions r, btree_insert r regions) l acc) ∧
  ∀ z, free (fold_left (λ regions r, btree_insert r regions) l acc) z ↔ free acc z ∨ free l z.
Proof.
  revert acc. induction l as [|p l IH]; intros acc Hok Hne Hpd Hd; cbn.
  { split; [done|]. intros z. pose proof (free_nil z). tauto. }
  apply Forall_cons in Hne as [Hp Hne]. destruct Hpd as [Hpl Hpd].
  setoid_rewrite free_cons in Hd. rewrite disjoint_free in Hpl.
  destruct (btree_insert_free p acc Hok Hp) as [Hok1 Hf1]; [naive_solver|].
  destruct (IH (btree_insert p acc) Hok1 Hne Hpd) as [Hok2 Hf2].
  { intros z Hz. rewrite Hf1. specialize (Hd z). specialize (Hpl z). tauto. }
  split; [done|]. intros z. rewrite Hf2, Hf1, free_cons. tauto.
Qed.

Lemma filter_pools_free l z :
  free (filter (λ p, AddressRange_is_empty p = false) l) z ↔ free l z.
Proof.
  unfold free. setoid_rewrite list_elem_of_filter. split; [naive_solver|].
  intros (r & Hr & Hz). exists r. split_and!; [|done..]. apply is_empty_false.
  unfold nonempty, In_range in *. lia.
Qed.

Lemma pairwise_filter P `{∀ x, Decision (P x)} l :
  pairwise_disjoint l → pairwise_disjoint (filter P l).
Proof.
  induction l as [|p l IH]; [done|]. intros [Hp Hl]. destruct (decide (P p)).
  - rewrite filter_cons_True by done. split; [|auto]. rewrite Forall_forall in *.
    intros q [_ Hq]%list_elem_of_filter. auto.
  - rewrite filter_cons_False by done. auto.
Qed.

Lemma new_from_list_wf pools min_align preferred_align a :
  pairwise_disjoint pools → new_from_list pools min_align preferred_align = inl a →
  wf a ∧ ∀ z, free (aa_pools a) z ↔ free pools z.
Proof.
  intros Hpd Hnew. unfold new_from_list in Hnew. case_match; [done|]. case_match; [done|].
  simplify_eq. zbool. split; [|by intros z; apply filter_pools_free].
  destruct (insert_all_ok (filter (λ p, AddressRange_is_empty p = false) pools) []) as [Hok Hf].
  - by split; constructor.
  - apply Forall_forall. intros p [?%is_empty_false _]%list_elem_of_filter. done.
  - by apply pairwise_filter.
  - intros z _. apply free_nil.
  - split; cbn; try done.
    intros z. rewrite Hf. pose proof (free_nil z). unfold allocated.
    setoid_rewrite lookup_empty. naive_solver.
Qed.

Lemma new_from_list_fields pools min_align preferred_align a :
  new_from_list pools min_align preferred_align = inl a →
  aa_allocs a = ∅ ∧ aa_min_align a = default (U64 4) min_align ∧
  aa_preferred_align a = default (default (U64 4) min_align) preferred_align.
Proof. unfold new_from_list. intros ?. by repeat case_match; simplify_eq. Qed.

Lemma allocated_empty z : ¬ allocated ∅ z.
Proof. intros (k & r & t & Hk & _). by rewrite lookup_empty in Hk. Qed.

(** ** The theorems *)

Section theorems.
Context {H : HashOrder}.

(** C19. The pools are partitioned at all times: after any sequence of
    operations on an allocator made from disjoint pools, successful or not, every
    address of a pool is either free or belongs to exactly one allocation, no
    other address is handed out, and the free regions are kept sorted, disjoint
    and not empty. *)
Theorem allocator_partitions pools min_align preferred_align a0 os a :
  pairwise_disjoint pools → new_from_list pools min_align preferred_align = inl a0 →
  run_ops os a0 = Some a →
  (∀ z, free pools z ↔ free (aa_regions a) z ∨ allocated (aa_allocs a) z) ∧
  (∀ z, free (aa_regions a) z → ¬ allocated (aa_allocs a) z) ∧
  (∀ k1 k2 r1 t1 r2 t2, AddressAllocator_get a k1 = Some (r1, t1) →
     AddressAllocator_get a k2 = Some (r2, t2) → k1 ≠ k2 → disjoint r1 r2) ∧
  regions_ok (aa_regions a).
Proof.
  intros Hpd Hnew Hrun. destruct (new_from_list_wf _ _ _ _ Hpd Hnew) as [Hwf0 Hp].
  destruct (run_ops_keeps os a0 a Hwf0 Hrun) as [Hwf [= Hpools _ _]]. split_and!.
  - intros z. rewrite <-Hp, <-Hpools. by apply wf_pools.
  - intros z Hz (k & r & t & Hk & Hrz). by eapply wf_free.
  - intros k1 k2 r1 t1 r2 t2 H1 H2 Hne. by eapply (wf_disjoint a Hwf k1 k2).
  - apply Hwf.
Qed.

(** C37. In a well-formed allocator whose pools do not contain the last address, and for
    a size and an alignment (the larger of the one asked for and the minimal one) with
    size - 1 + alignment below 2^64, an allocation takes the lowest aligned place that is free (the highest,
    when it is made in reverse), changes nothing else, and fails only for the
    reason it gives: [OutOfSpace] means that no free region has room for it at
    that alignment.  It does not abort, and the allocator stays well-formed. *)
Theorem allocation_chosen a size alloc tag alignment reverse :
  let al := umax (aa_min_align a) alignment in
  wf a → ¬ free (aa_pools a) (2 ^ 64 - 1) → uval size - 1 + uval al < 2 ^ 64 →
  ∃ r a', internal_allocate_with_align size alloc tag alignment reverse a = (r, a') ∧ wf a' ∧
    allocation_result reverse a size alloc tag al r a'.
Proof. apply internal_allocate_ok. Qed.

(** Releasing undoes an allocation, whichever way it was made: the same
    addresses are free as before it, merged with their neighbours, and the other
    allocations are untouched. *)
Theorem release_undoes_allocation a o alloc a1 :
  wf a → op_alloc o = Some alloc → exec o a = (Returns (), a1) →
  ∃ r a2, release alloc a1 = (Returns r, a2) ∧ wf a2 ∧ aa_allocs a2 = aa_allocs a ∧
    ∀ z, free (aa_regions a2) z ↔ free (aa_regions a) z.
Proof.
  intros Hwf Ho Hrun. pose proof (exec_attempts o alloc Ho a _ a1 Hwf Hrun) as Ht.
  destruct Ht as (range & t & regions' & Hk & -> & Hwf1 & Hf).
  destruct (release_ok _ alloc range t Hwf1) as (regions2 & Hrel & Hwf2 & Hf2);
    [apply lookup_insert_eq|]. eexists _, _. split_and!; [done..| |].
  - cbn. by rewrite delete_insert_id.
  - intros z. cbn. rewrite Hf2, Hf. done.
Qed.

(** An allocation whose chosen place ends at the last address aborts the
    program, although the place is free: the end is computed as [start + size - 1]
    with checked additions from the left. *)
Theorem allocation_at_top_aborts a size alloc tag alignment reverse s :
  let al := umax (aa_min_align a) alignment in
  wf a → aa_allocs a !! alloc = None → 1 <= uval size → is_power_of_two al = true →
  uval size - 1 + uval al < 2 ^ 64 →
  chosen reverse (aa_regions a) size al s → s + uval size = 2 ^ 64 →
  internal_allocate_with_align size alloc tag alignment reverse a = (Aborts, a).
Proof.
  intros al Hwf Hk Hsize Hal Hsum [Hav Hbest] Hend.
  pose proof (find_region a size al reverse Hwf Hsize Hal Hsum) as Hf.
  unfold internal_allocate_with_align, get_state, throw, mbind, prog_bind. fold al.
  rewrite bool_decide_false by (by rewrite Hk; apply is_Some_None).
  rewrite (proj2 (Z.eqb_neq size 0)) by lia. rewrite Hal. cbn [negb].
  destruct (if negb reverse then _ else _) as [[slot|]|]; [|by destruct (Hf s)|done].
  destruct Hf as (_ & s' & Hp & [Hav' Hbest'] & _ & _).
  cbn [checked mret prog_ret]. rewrite Hp. cbn [checked mret prog_ret].
  specialize (Hbest _ Hav'). specialize (Hbest' _ Hav).
  assert (uval s' = s) as Hs by (destruct reverse; lia).
  rewrite (proj2 (add_checked_None s' size)); [done|]. change (Z.of_N 64) with 64. lia.
Qed.

End theorems.
