(* ===== verification/SystemAllocator.v ===== *)
(** * The resources of a virtual machine: [libcrosvm/resources/src/system_allocator.rs]

    A [SystemAllocator] holds an address allocator for each kind of resource:
    I/O ports, low and high memory-mapped I/O, platform devices, interrupt
    numbers, general purpose events and, for each PCI bus, its device functions. *)

From stdpp Require Import sorting.
From S2P Require Import Prelude Checked AddressRange AddressAllocator AllocatorFacts.

Inductive MmioType := Low | High.
#[global] Instance MmioType_eq_dec : EqDecision MmioType.
Proof. solve_decision. Defined.

Record AllocOptions : Set := MkAllocOptions {
  opt_prefetchable : bool; opt_max_address : u64; opt_alignment : option u64; opt_top_down : bool
}.

Definition u64_MAX : Z := 2 ^ 64 - 1.
Definition AllocOptions_new : AllocOptions := MkAllocOptions false (U64 u64_MAX) None false.
Definition AllocOptions_prefetchable (b : bool) (o : AllocOptions) : AllocOptions :=
  MkAllocOptions b (opt_max_address o) (opt_alignment o) (opt_top_down o).
Definition AllocOptions_max_address (m : u64) (o : AllocOptions) : AllocOptions :=
  MkAllocOptions (opt_prefetchable o) m (opt_alignment o) (opt_top_down o).
Definition AllocOptions_align (alignment : u64) (o : AllocOptions) : AllocOptions :=
  MkAllocOptions (opt_prefetchable o) (opt_max_address o) (Some alignment) (opt_top_down o).
Definition AllocOptions_top_down (b : bool) (o : AllocOptions) : AllocOptions :=
  MkAllocOptions (opt_prefetchable o) (opt_max_address o) (opt_alignment o) b.

Record SystemAllocatorConfig : Set := MkSystemAllocatorConfig {
  cfg_io : option AddressRange;
  cfg_low_mmio : AddressRange;
  cfg_high_mmio : AddressRange;
  cfg_platform_mmio : option AddressRange;
  cfg_first_irq : u32
}.

Record SystemAllocator : Type := MkSystemAllocator {
  sa_io : option AddressAllocator;
  sa_low : AddressAllocator;
  sa_high : AddressAllocator;
  sa_platform : option AddressAllocator;
  sa_reserved : option AddressRange;
  sa_pci : gmap u8 AddressAllocator;
  sa_irq : AddressAllocator;
  sa_gpe : AddressAllocator;
  sa_next_anon_id : u64
}.

Abbreviation sprog := (prog SystemAllocator Error).

(** ** Construction *)

Definition lift_new (r : AddressAllocator + Error) : prog () Error AddressAllocator :=
  match r with inl a => mret a | inr e => throw e end.

(** The region that is split off the start of the high range. *)
Definition reserve_region (high_mmio : AddressRange) (reserve_region_size : option u64) :
    prog () Error (AddressRange * option AddressRange) :=
  match reserve_region_size with
  | None => mret (high_mmio, None)
  | Some reserved_len =>
      len ← checked (AddressRange_len high_mmio);
      high_mmio_len ← ok_or_throw len OutOfBounds;
      if uval high_mmio_len <? uval reserved_len then throw OutOfSpace
      else
        let reserved_start := ar_start high_mmio in
        t ← checked (add_checked reserved_start reserved_len);
        reserved_end ← checked (sub_checked t (U64 1));
        high_mmio_start ← checked (add_checked reserved_end (U64 1));
        mret (MkRange high_mmio_start (ar_end high_mmio),
              Some (MkRange reserved_start reserved_end))
  end.

Definition intersect_mmio_range (mmio_address_ranges : list AddressRange)
    (src_range : AddressRange) : list AddressRange :=
  match mmio_address_ranges with
  | [] => [src_range]
  | _ => map (λ r, AddressRange_intersect r src_range) mmio_address_ranges
  end.

(** [page_size] is what the operating system reports. *)
Definition SystemAllocator_new (page_size : u64) (config : SystemAllocatorConfig)
    (reserve_region_size : option u64) (mmio_address_ranges : list AddressRange) :
    prog () Error SystemAllocator :=
  '(high_mmio, reserved_region) ← reserve_region (cfg_high_mmio config) reserve_region_size;
  io ← match cfg_io config with
       | Some io =>
           if 0xffff <? ar_end io then throw (IOPortOutOfRange io)
           else a ← lift_new (AddressAllocator_new io (Some (U64 0x400)) None); mret (Some a)
       | None => mret None
       end;
  low ← lift_new (new_from_list (intersect_mmio_range mmio_address_ranges (cfg_low_mmio config))
                    (Some page_size) None);
  high ← lift_new (new_from_list (intersect_mmio_range mmio_address_ranges high_mmio)
                     (Some page_size) None);
  platform ← match cfg_platform_mmio config with
             | Some platform =>
                 a ← lift_new (AddressAllocator_new platform (Some page_size) None); mret (Some a)
             | None => mret None
             end;
  irq ← lift_new (AddressAllocator_new (MkRange (U64 (cfg_first_irq config)) (U64 1023))
                    (Some (U64 1)) None);
  gpe ← lift_new (AddressAllocator_new (MkRange (U64 0) (U64 255)) (Some (U64 1)) None);
  mret (MkSystemAllocator io low high platform reserved_region ∅ irq gpe (U64 0)).

(** ** Access to the parts *)

Definition set_low (a : AddressAllocator) (s : SystemAllocator) : SystemAllocator :=
  MkSystemAllocator (sa_io s) a (sa_high s) (sa_platform s) (sa_reserved s) (sa_pci s)
    (sa_irq s) (sa_gpe s) (sa_next_anon_id s).
Definition set_high (a : AddressAllocator) (s : SystemAllocator) : SystemAllocator :=
  MkSystemAllocator (sa_io s) (sa_low s) a (sa_platform s) (sa_reserved s) (sa_pci s)
    (sa_irq s) (sa_gpe s) (sa_next_anon_id s).
Definition set_pci (m : gmap u8 AddressAllocator) (s : SystemAllocator) : SystemAllocator :=
  MkSystemAllocator (sa_io s) (sa_low s) (sa_high s) (sa_platform s) (sa_reserved s) m
    (sa_irq s) (sa_gpe s) (sa_next_anon_id s).
Definition set_irq (a : AddressAllocator) (s : SystemAllocator) : SystemAllocator :=
  MkSystemAllocator (sa_io s) (sa_low s) (sa_high s) (sa_platform s) (sa_reserved s) (sa_pci s)
    a (sa_gpe s) (sa_next_anon_id s).
Definition set_gpe (a : AddressAllocator) (s : SystemAllocator) : SystemAllocator :=
  MkSystemAllocator (sa_io s) (sa_low s) (sa_high s) (sa_platform s) (sa_reserved s) (sa_pci s)
    (sa_irq s) a (sa_next_anon_id s).
Definition set_next_anon_id (n : u64) (s : SystemAllocator) : SystemAllocator :=
  MkSystemAllocator (sa_io s) (sa_low s) (sa_high s) (sa_platform s) (sa_reserved s) (sa_pci s)
    (sa_irq s) (sa_gpe s) n.

(** The allocators of memory-mapped I/O: [mmio_allocator] and [mmio_allocator_any]. *)
Definition mmio_allocator {A} (t : MmioType) (m : aprog A) : sprog A :=
  match t with
  | Low => zoom sa_low set_low m
  | High => zoom sa_high set_high m
  end.

Definition mmio_allocator_any {A} (m : prog (list AddressAllocator) Error A) : sprog A :=
  zoom (λ s, [sa_low s; sa_high s])
       (λ l s, match l with [low; high] => set_high high (set_low low s) | _ => s end) m.

Definition mmio_pools (s : SystemAllocator) : list AddressRange :=
  aa_pools (sa_low s) ++ aa_pools (sa_high s).

Definition get_anon_alloc : sprog Alloc :=
  s ← get_state;
  n ← checked (add_checked (sa_next_anon_id s) (U64 1));
  _ ← put_state (set_next_anon_id n s);
  mret (Anon n).

(** ** Interrupts and events *)

Section hash.
Context {H : HashOrder}.

(** [res.map(f).ok()]. *)
Definition ok_map {A B} (f : A → B) (m : sprog A) : sprog (option B) :=
  r ← catch m; mret match r with inl a => Some (f a) | inr _ => None end.
Definition is_ok_of {A} (m : sprog A) : sprog bool :=
  r ← catch m; mret match r with inl _ => true | inr _ => false end.

Definition allocate_irq : sprog (option u32) :=
  id ← get_anon_alloc;
  ok_map (λ v : u64, U32 v) (zoom sa_irq set_irq (allocate (U64 1) id "irq-auto")).

Definition release_irq (irq : u32) : sprog () :=
  _ ← catch (zoom sa_irq set_irq (release_containing (U64 irq))); mret ().

Definition reserve_irq (irq : u32) : sprog bool :=
  id ← get_anon_alloc;
  is_ok_of (zoom sa_irq set_irq (allocate_at (MkRange (U64 irq) (U64 irq)) id "irq-fixed")).

Definition allocate_gpe : sprog (option u32) :=
  id ← get_anon_alloc;
  ok_map (λ v : u64, U32 v) (zoom sa_gpe set_gpe (allocate (U64 1) id "gpe-auto")).

(** ** PCI *)

(** [get_pci_allocator_mut]: the allocator of a bus is made on its first use. *)
Definition get_pci_allocator_mut (bus : u8) : sprog (option AddressAllocator) :=
  s ← get_state;
  match sa_pci s !! bus with
  | Some a => mret (Some a)
  | None =>
      let base := U64 (if uval bus =? 0 then 8 else 0) in
      match AddressAllocator_new (MkRange base (U64 (32 * 8 - 1))) (Some (U64 1)) (Some (U64 8)) with
      | inl v => _ ← put_state (set_pci (<[bus := v]> (sa_pci s)) s); mret (Some v)
      | inr _ => mret None
      end
  end.

(** An operation on the allocator of a bus, through the mutable reference. *)
Definition on_bus {A} (bus : u8) (a : AddressAllocator) (m : aprog A) : sprog A :=
  zoom (λ s, default a (sa_pci s !! bus)) (λ a' s, set_pci (<[bus := a']> (sa_pci s)) s) m.

Definition pci_bus_empty (s : SystemAllocator) (bus : u8) : bool :=
  bool_decide (sa_pci s !! bus = None).

Definition allocate_pci (bus : u8) (tag : string) : sprog (option Alloc) :=
  id ← get_anon_alloc;
  allocator ← get_pci_allocator_mut bus;
  match allocator with
  | None => mret None
  | Some a =>
      ok_map (λ v : u64, PciBar bus (U8 (Z.shiftr v 3)) (U8 (Z.land v 7)) (U8 0))
             (on_bus bus a (allocate (U64 1) id tag))
  end.

(** [((dev as u64) << 3) | (func as u64)]. *)
Definition dev_func (dev func : u8) : u64 := U64 (Z.lor (Z.shiftl dev 3) func).

Definition reserve_pci (alloc : Alloc) (tag : string) : sprog bool :=
  id ← get_anon_alloc;
  match alloc with
  | PciBar bus dev func _ =>
      allocator ← get_pci_allocator_mut bus;
      match allocator with
      | None => mret false
      | Some a =>
          let df := dev_func dev func in
          is_ok_of (on_bus bus a (allocate_at (MkRange df df) id tag))
      end
  | _ => mret false
  end.

Definition release_pci (bus dev func : u8) : sprog bool :=
  allocator ← get_pci_allocator_mut bus;
  match allocator with
  | None => mret false
  | Some a => is_ok_of (on_bus bus a (release_containing (dev_func dev func)))
  end.

(** ** Memory-mapped I/O *)

Definition allocate_mmio_internal (size : u64) (alloc : Alloc) (tag : string)
    (opts : AllocOptions) (mmio_type : MmioType) : sprog u64 :=
  mmio_allocator mmio_type
    match opt_alignment opts, opt_top_down opts with
    | Some align, true => reverse_allocate_with_align size alloc tag align
    | Some align, false => allocate_with_align size alloc tag align
    | None, true => reverse_allocate size alloc tag
    | None, false => allocate size alloc tag
    end.

Definition allocate_mmio (size : u64) (alloc : Alloc) (tag : string) (opts : AllocOptions) :
    sprog u64 :=
  if opt_max_address opts <? 2 ^ 32 - 1 then throw OutOfSpace
  else
    let mmio_type :=
      if (opt_max_address opts <? u64_MAX) || negb (opt_prefetchable opts) then Low else High in
    res ← catch (allocate_mmio_internal size alloc tag opts mmio_type);
    match res with
    | inr OutOfSpace =>
        if bool_decide (mmio_type = High) then allocate_mmio_internal size alloc tag opts Low
        else throw OutOfSpace
    | inr e => throw e
    | inl v => mret v
    end.

(** The loop of [reserve_mmio] over the pools in the order of their start. *)
Fixpoint reserve_pools (range : AddressRange) (pools : list AddressRange) : sprog () :=
  match pools with
  | [] => mret ()
  | pool :: pools =>
      if ar_end range <? ar_start pool then mret ()
      else
        let overlap := AddressRange_intersect pool range in
        _ ← (if AddressRange_is_empty overlap then mret ()
             else
               id ← get_anon_alloc;
               mmio_allocator_any (set_allocate_at overlap id "pci mmio reserve"));
        reserve_pools range pools
  end.

Definition start_le (p q : AddressRange) : Prop := ar_start p <= ar_start q.
#[local] Instance start_le_dec : RelDecision start_le :=
  λ p q, Z_le_dec (ar_start p) (ar_start q).

Definition reserve_mmio (range : AddressRange) : sprog () :=
  s ← get_state;
  reserve_pools range (merge_sort start_le (mmio_pools s)).

End hash.
