(* ===== verification/SystemFacts.v ===== *)
(** * Correctness of the system allocator

    Every allocator of a [SystemAllocator] keeps its invariant over any sequence
    of operations, the anonymous keys are fresh, and PCI device functions are
    handed out as the code promises. *)

From S2P Require Import Prelude Checked AddressRange AddressAllocator AllocatorFacts SystemAllocator.

(** ** Allocators with anonymous keys up to a bound *)

Definition anon_bounded (n : u64) (a : AddressAllocator) : Prop :=
  ∀ m rt, aa_allocs a !! Anon m = Some rt → uval m <= n.

Definition good (n : u64) (a : AddressAllocator) : Prop := wf a ∧ anon_bounded n a.

(** A key that is not anonymous, or within the bound. *)
Definition key_ok (n : u64) (k : Alloc) : Prop :=
  match k with Anon m => uval m <= n | _ => True end.

Definition keeps_good {A} (n : u64) (m : aprog A) : Prop :=
  ∀ a r a', good n a → m a = (r, a') → r ≠ Aborts → good n a' ∧ config a' = config a.

Lemma good_mono (n n' : u64) a : n <= n' → good n a → good n' a.
Proof. intros Hn [? Hb]. split; [done|]. intros m rt Hm%Hb. lia. Qed.

Lemma attempts_good {A} n k (m : aprog A) : attempts k m → key_ok n k → keeps_good n m.
Proof.
  intros Hm Hk a r a' [Hwf Hb] Hrun Hr.
  destruct (attempts_keeps k m Hm a r a' Hwf Hrun Hr) as [Hwf' Hcfg].
  split; [|done]. split; [done|]. specialize (Hm a r a' Hwf Hrun). destruct r; [|by subst|done].
  destruct Hm as (range & t & regions' & _ & -> & _). intros j rt Hj. cbn in Hj.
  apply lookup_insert_Some in Hj as [[-> _]|[_ Hj]]; [done|by eapply Hb].
Qed.

Lemma release_good n k : keeps_good n (release k).
Proof.
  intros a r a' [Hwf Hb] Hrun Hr. destruct (release_keeps k a r a' Hwf Hrun Hr) as [Hwf' Hcfg].
  split; [|done]. split; [done|]. destruct (aa_allocs a !! k) as [[range t]|] eqn:Hk.
  - destruct (release_ok a k range t Hwf Hk) as (regions' & Hs & _ & _).
    rewrite Hs in Hrun. injection Hrun as <- <-. intros j rt Hj. cbn in Hj.
    apply lookup_delete_Some in Hj as [_ Hj]. by eapply Hb.
  - unfold release, get_state, mbind, prog_bind in Hrun. rewrite Hk in Hrun.
    by injection Hrun as <- <-.
Qed.

Section system.
Context {H : HashOrder}.

Lemma release_containing_good n v : keeps_good n (release_containing v).
Proof.
  intros a r a' Hg Hrun Hr. unfold release_containing, get_state, mbind, prog_bind in Hrun.
  destruct (find_overlapping _ _); [by eapply release_good|]. by injection Hrun as <- <-.
Qed.

Lemma allocate_attempts size k tag : attempts k (allocate size k tag).
Proof. apply retry_attempts; intros ?; apply internal_allocate_attempts. Qed.

Lemma reverse_allocate_attempts size k tag : attempts k (reverse_allocate size k tag).
Proof. apply retry_attempts; intros ?; apply internal_allocate_attempts. Qed.

(** ** The invariant of the system *)

(** The first device function of a bus: the root complex is 00:00.0. *)
Definition first_slot (bus : u8) : Z := if uval bus =? 0 then 8 else 0.

Definition bus_ok (n : u64) (bus : u8) (a : AddressAllocator) : Prop :=
  good n a ∧ aa_min_align a = U64 1 ∧ aa_preferred_align a = U64 8 ∧
  ∀ z, free (aa_pools a) z ↔ first_slot bus <= z <= 255.

Record sys_wf (s : SystemAllocator) : Prop := {
  sw_low : good (sa_next_anon_id s) (sa_low s);
  sw_high : good (sa_next_anon_id s) (sa_high s);
  sw_irq : good (sa_next_anon_id s) (sa_irq s);
  sw_gpe : good (sa_next_anon_id s) (sa_gpe s);
  sw_pci bus a : sa_pci s !! bus = Some a → bus_ok (sa_next_anon_id s) bus a
}.

(** Operations under a key that the client may use. *)
Definition keeps_sys {A} (k : Alloc) (m : sprog A) : Prop :=
  ∀ s r s', sys_wf s → key_ok (sa_next_anon_id s) k → m s = (r, s') → r ≠ Aborts →
    sys_wf s' ∧ sa_next_anon_id s <= sa_next_anon_id s'.

Lemma key_ok_mono (n n' : u64) k : n <= n' → key_ok n k → key_ok n' k.
Proof. intros ?. destruct k; cbn; lia. Qed.

Lemma keeps_sys_bind {A B} k (m : sprog A) (f : A → sprog B) :
  keeps_sys k m → (∀ a, keeps_sys k (f a)) → keeps_sys k (a ← m; f a).
Proof.
  intros Hm Hf s r s' Hs Hk Hrun Hr. unfold mbind, prog_bind in Hrun.
  destruct (m s) as [[a|e|] s1] eqn:E; [|injection Hrun as <- <-; by eapply Hm|by injection Hrun as <- <-].
  destruct (Hm s _ s1 Hs Hk E) as [Hs1 Hn]; [done|].
  destruct (Hf a s1 r s' Hs1) as [? Hn']; [by eapply key_ok_mono|done..|]. split; [done|lia].
Qed.

Lemma keeps_pure {A} k (m : sprog A) : (∀ s, (m s).2 = s) → keeps_sys k m.
Proof. intros Hm s r s' Hs _ Hrun _. specialize (Hm s). rewrite Hrun in Hm. cbn in Hm. by subst. Qed.

Lemma keeps_catch {A} k (m : sprog A) : keeps_sys k m → keeps_sys k (catch m).
Proof.
  intros Hm s r s' Hs Hk Hrun Hr. unfold catch in Hrun.
  destruct (m s) as [[a|e|] s1] eqn:E; injection Hrun as <- <-; [by eapply Hm..|done].
Qed.

Lemma keeps_ok_map {A B} k (f : A → B) (m : sprog A) : keeps_sys k m → keeps_sys k (ok_map f m).
Proof. intros Hm. apply keeps_sys_bind; [by apply keeps_catch|]. intros ?. by apply keeps_pure. Qed.

Lemma keeps_is_ok {A} k (m : sprog A) : keeps_sys k m → keeps_sys k (is_ok_of m).
Proof. intros Hm. apply keeps_sys_bind; [by apply keeps_catch|]. intros ?. by apply keeps_pure. Qed.

(** A fresh key. *)
Lemma sys_wf_next s n : sys_wf s → sa_next_anon_id s <= uval n → sys_wf (set_next_anon_id n s).
Proof.
  intros Hs Hn. split; cbn; try (eapply good_mono; [exact Hn|apply Hs]).
  intros bus a Ha. destruct (sw_pci s Hs bus a Ha) as (Hg & ?). split; [|done].
  by eapply good_mono.
Qed.

Lemma keeps_anon {B} k (f : Alloc → sprog B) :
  (∀ m, keeps_sys (Anon m) (f (Anon m))) → keeps_sys k (id ← get_anon_alloc; f id).
Proof.
  intros Hf s r s' Hs _ Hrun Hr.
  unfold get_anon_alloc, get_state, put_state, mbind, prog_bind in Hrun.
  destruct (add_checked (sa_next_anon_id s) (U64 1)) as [n|] eqn:En; cbn in Hrun;
    [apply add_checked_Some in En; rewrite U64_one in En|by injection Hrun as <- <-].
  destruct (Hf n (set_next_anon_id n s) r s') as [? Hle];
    [apply sys_wf_next; [done|lia]|cbn; lia|done..|]. cbn in Hle. split; [done|lia].
Qed.

(** Operations on one of the allocators. *)
Ltac keeps_part :=
  let s := fresh "s" in let E := fresh "E" in
  intros Hm s r s' Hs Hk Hrun Hr; unfold zoom in Hrun;
  lazymatch type of Hrun with
  | context [let '(_, _) := ?c in _] => destruct c as [r1 a'] eqn:E
  end; injection Hrun as <- <-; (split; [|done]);
  edestruct (Hm _ Hk) as [Hgood _]; [|exact E|exact Hr|]; [apply Hs|];
  split; cbn; try apply Hs; exact Hgood.

Lemma keeps_irq {A} k (m : aprog A) :
  (∀ n, key_ok n k → keeps_good n m) → keeps_sys k (zoom sa_irq set_irq m).
Proof. keeps_part. Qed.

Lemma keeps_gpe {A} k (m : aprog A) :
  (∀ n, key_ok n k → keeps_good n m) → keeps_sys k (zoom sa_gpe set_gpe m).
Proof. keeps_part. Qed.

Lemma keeps_mmio {A} k t (m : aprog A) :
  (∀ n, key_ok n k → keeps_good n m) → keeps_sys k (mmio_allocator t m).
Proof. destruct t; cbn [mmio_allocator]; keeps_part. Qed.

Lemma keeps_mmio_any {A} k (m : aprog A) e :
  (∀ n, key_ok n k → keeps_good n m) → keeps_sys k (mmio_allocator_any (set_try m e)).
Proof.
  intros Hm s r s' Hs Hk Hrun Hr. unfold mmio_allocator_any, zoom in Hrun. cbn in Hrun.
  specialize (Hm _ Hk).
  destruct (m (sa_low s)) as [r1 a1] eqn:E1.
  pose proof (Hm _ r1 a1 (sw_low s Hs) E1) as H1.
  destruct r1 as [v|e1|]; [| |by injection Hrun as <- <-].
  - injection Hrun as <- <-. destruct H1; [done|]. split; [|done]. split; cbn; try apply Hs; done.
  - destruct H1 as [H1 _]; [done|]. destruct (m (sa_high s)) as [r2 a2] eqn:E2.
    pose proof (Hm _ r2 a2 (sw_high s Hs) E2) as H2.
    destruct r2 as [v|e2|]; injection Hrun as <- <-; [destruct H2 as [H2 _]; [done|]..|done];
      (split; [|done]); split; cbn; try apply Hs; done.
Qed.

(** ** PCI buses *)

(** The device functions of a bus that are free. *)
Definition slot_free (s : SystemAllocator) (bus : u8) (z : Z) : Prop :=
  match sa_pci s !! bus with
  | Some a => free (aa_regions a) z
  | None => first_slot bus <= z <= 255
  end.

Lemma new_bus n bus :
  ∃ a, AddressAllocator_new (MkRange (U64 (if uval bus =? 0 then 8 else 0)) (U64 (32 * 8 - 1)))
         (Some (U64 1)) (Some (U64 8)) = inl a ∧
       bus_ok n bus a ∧ aa_allocs a = ∅ ∧ ∀ z, free (aa_regions a) z ↔ first_slot bus <= z <= 255.
Proof.
  destruct (AddressAllocator_new _ _ _) as [a|e] eqn:E;
    [|by destruct (uval bus =? 0); vm_compute in E].
  exists a. split; [done|]. unfold AddressAllocator_new in E.
  edestruct new_from_list_wf as [Hwf Hp]; [|exact E|]; [by repeat constructor|].
  apply new_from_list_fields in E as (Hallocs & Hmin & Hpref).
  assert (∀ z, free (aa_pools a) z ↔ first_slot bus <= z <= 255) as Hpools.
  { intros z. rewrite Hp, free_cons. pose proof (free_nil z). unfold In_range, first_slot. cbn.
    destruct (uval bus =? 0); (split; [intros [?|?]; [done|tauto]|by left]). }
  split_and!; [|done|].
  - split_and!; [|done..]. split; [done|]. intros m rt. by rewrite Hallocs, lookup_empty.
  - intros z. rewrite <-Hpools, (wf_pools a Hwf), Hallocs. pose proof (allocated_empty z). tauto.
Qed.

Lemma get_pci_ok bus s :
  sys_wf s →
  ∃ a s1, get_pci_allocator_mut bus s = (Returns (Some a), s1) ∧ sys_wf s1 ∧
    sa_pci s1 = <[bus := a]> (sa_pci s) ∧ sa_next_anon_id s1 = sa_next_anon_id s ∧
    (sa_pci s !! bus = Some a ∨ aa_allocs a = ∅) ∧
    ∀ z, free (aa_regions a) z ↔ slot_free s bus z.
Proof.
  intros Hs. unfold get_pci_allocator_mut, get_state, put_state, mbind, prog_bind, slot_free.
  destruct (sa_pci s !! bus) as [a|] eqn:Ha.
  - exists a, s. split_and!; [done..| |done|by left|done]. by rewrite insert_id.
  - destruct (new_bus (sa_next_anon_id s) bus) as (a & -> & Hok & Hempty & Hf).
    eexists a, _. split; [done|]. split_and!; [|done|done|by right|done]. split; cbn; try apply Hs.
    intros b a' Hb. apply lookup_insert_Some in Hb as [[<- <-]|[_ Hb]]; [done|by apply Hs].
Qed.

(** An operation on the allocator of a bus. *)
Lemma on_bus_ok {A} k bus a (m : aprog A) s r s' :
  (∀ n, key_ok n k → keeps_good n m) → sys_wf s → key_ok (sa_next_anon_id s) k →
  sa_pci s !! bus = Some a → on_bus bus a m s = (r, s') → r ≠ Aborts →
  ∃ a', m a = (r, a') ∧ s' = set_pci (<[bus := a']> (sa_pci s)) s ∧ sys_wf s'.
Proof.
  intros Hm Hs Hk Ha Hrun Hr. unfold on_bus, zoom in Hrun. rewrite Ha in Hrun. cbn in Hrun.
  destruct (m a) as [r1 a'] eqn:E. injection Hrun as <- <-.
  destruct (sw_pci s Hs bus a Ha) as (Hg & Hmin & Hpref & Hpools).
  destruct (Hm _ Hk a r1 a' Hg E Hr) as [Hg' [= Hp Hmin' Hpref']].
  exists a'. split_and!; [done..|]. split; cbn; try apply Hs.
  intros b a2 Hb. apply lookup_insert_Some in Hb as [[<- <-]|[_ Hb]]; [|by apply Hs].
  split_and!; [done|congruence..|]. by rewrite Hp.
Qed.

Lemma keeps_with_bus {A B} k bus (m : aprog A) (F : sprog A → sprog B) (d : B) :
  (∀ n, key_ok n k → keeps_good n m) →
  (∀ m s r s', F m s = (r, s') → r ≠ Aborts → ∃ r1, m s = (r1, s') ∧ r1 ≠ Aborts) →
  keeps_sys k (al ← get_pci_allocator_mut bus;
               match al with None => mret d | Some a => F (on_bus bus a m) end).
Proof.
  intros Hm HF s r s' Hs Hk Hrun Hr. unfold mbind, prog_bind in Hrun.
  destruct (get_pci_ok bus s Hs) as (a & s1 & Hget & Hs1 & Hpci & Hn & _ & _). rewrite Hget in Hrun.
  destruct (HF _ _ _ _ Hrun Hr) as (r1 & Hrun1 & Hr1). rewrite <-Hn in Hk.
  eapply on_bus_ok in Hrun1 as (a' & _ & -> & Hs'); [|done..|by rewrite Hpci, lookup_insert_eq|done].
  split; [done|]. cbn. by rewrite Hn.
Qed.

Lemma ok_map_inv {A B} (f : A → B) (m : sprog A) s r s' :
  ok_map f m s = (r, s') → r ≠ Aborts → ∃ r1, m s = (r1, s') ∧ r1 ≠ Aborts.
Proof.
  unfold ok_map, catch, mbind, prog_bind. intros Hrun Hr.
  destruct (m s) as [[] ?]; injection Hrun as <- <-; eauto.
Qed.

Lemma is_ok_inv {A} (m : sprog A) s r s' :
  is_ok_of m s = (r, s') → r ≠ Aborts → ∃ r1, m s = (r1, s') ∧ r1 ≠ Aborts.
Proof.
  unfold is_ok_of, catch, mbind, prog_bind. intros Hrun Hr.
  destruct (m s) as [[] ?]; injection Hrun as <- <-; eauto.
Qed.

(** ** Sequences of operations *)

Inductive sys_op : Type :=
| SAllocateIrq
| SReleaseIrq (irq : u32)
| SReserveIrq (irq : u32)
| SAllocateGpe
| SAllocatePci (bus : u8) (tag : string)
| SReservePci (alloc : Alloc) (tag : string)
| SReleasePci (bus dev func : u8)
| SAllocateMmio (size : u64) (alloc : Alloc) (tag : string) (opts : AllocOptions)
| SAllocateMmioAnon (size : u64) (tag : string) (opts : AllocOptions)
| SReserveMmio (range : AddressRange).

Definition sys_exec (o : sys_op) : sprog () :=
  match o with
  | SAllocateIrq => _ ← allocate_irq; mret ()
  | SReleaseIrq irq => release_irq irq
  | SReserveIrq irq => _ ← reserve_irq irq; mret ()
  | SAllocateGpe => _ ← allocate_gpe; mret ()
  | SAllocatePci bus tag => _ ← allocate_pci bus tag; mret ()
  | SReservePci alloc tag => _ ← reserve_pci alloc tag; mret ()
  | SReleasePci bus dev func => _ ← release_pci bus dev func; mret ()
  | SAllocateMmio size alloc tag opts => _ ← allocate_mmio size alloc tag opts; mret ()
  | SAllocateMmioAnon size tag opts =>
      id ← get_anon_alloc; _ ← allocate_mmio size id tag opts; mret ()
  | SReserveMmio range => reserve_mmio range
  end.

(** Anonymous keys come from [get_anon_alloc] only, as its documentation asks. *)
Definition sys_op_ok (o : sys_op) : Prop :=
  match o with SAllocateMmio _ (Anon _) _ _ => False | _ => True end.

Fixpoint run_sys (os : list sys_op) (s : SystemAllocator) : option SystemAllocator :=
  match os with
  | [] => Some s
  | o :: os =>
      match sys_exec o s with
      | (Aborts, _) => None
      | (_, s') => run_sys os s'
      end
  end.

Lemma keeps_void_sys {A} k (m : sprog A) : keeps_sys k m → keeps_sys k (_ ← m; mret ()).
Proof. intros Hm. apply keeps_sys_bind; [done|]. intros ?. by apply keeps_pure. Qed.

Lemma keeps_allocate_mmio size k tag opts : keeps_sys k (allocate_mmio size k tag opts).
Proof.
  assert (∀ t, keeps_sys k (allocate_mmio_internal size k tag opts t)) as Hint.
  { intros t. apply keeps_mmio. intros n Hn. eapply attempts_good; [|exact Hn].
    destruct (opt_alignment opts), (opt_top_down opts); try apply internal_allocate_attempts;
      [apply reverse_allocate_attempts|apply allocate_attempts]. }
  unfold allocate_mmio. case_match; [by apply keeps_pure|]. cbn zeta.
  apply keeps_sys_bind; [by apply keeps_catch|]. intros [v|e]; [by apply keeps_pure|].
  destruct e; try (by apply keeps_pure). case_bool_decide; [done|by apply keeps_pure].
Qed.

Lemma keeps_reserve_pools k range pools : keeps_sys k (reserve_pools range pools).
Proof.
  induction pools as [|p pools IH]; cbn [reserve_pools]; [by apply keeps_pure|].
  case_match; [by apply keeps_pure|]. apply keeps_sys_bind; [|done].
  case_match; [by apply keeps_pure|]. apply keeps_anon. intros m.
  apply keeps_mmio_any. intros n Hn. by eapply attempts_good; [apply allocate_at_attempts|].
Qed.

Lemma keeps_pci_op {A B} k bus (m : Alloc → aprog A) (F : sprog A → sprog B) (d : B) :
  (∀ id, attempts id (m id)) →
  (∀ m s r s', F m s = (r, s') → r ≠ Aborts → ∃ r1, m s = (r1, s') ∧ r1 ≠ Aborts) →
  keeps_sys k (id ← get_anon_alloc; al ← get_pci_allocator_mut bus;
               match al with None => mret d | Some a => F (on_bus bus a (m id)) end).
Proof.
  intros Hm HF. apply keeps_anon. intros j. apply keeps_with_bus; [|done].
  intros n Hn. by eapply attempts_good.
Qed.

(** The key a client passes. *)
Definition sys_op_key (o : sys_op) : Alloc :=
  match o with SAllocateMmio _ k _ _ => k | _ => GpuRenderNode end.

Lemma sys_op_key_ok o n : sys_op_ok o → key_ok n (sys_op_key o).
Proof. by destruct o as [| | | | | | |? []| |]. Qed.

Lemma sys_exec_keeps o : keeps_sys (sys_op_key o) (sys_exec o).
Proof.
  assert (∀ v n, key_ok n GpuRenderNode → keeps_good n (release_containing v)) as Hrel
    by (intros; apply release_containing_good).
  destruct o as [| | | | | | |size alloc tag opts| |]; cbn [sys_exec sys_op_key].
  - apply keeps_void_sys, keeps_anon. intros m. apply keeps_ok_map, keeps_irq. intros n Hn.
    by eapply attempts_good; [apply allocate_attempts|].
  - apply keeps_sys_bind; [|intros ?; by apply keeps_pure]. by apply keeps_catch, keeps_irq, Hrel.
  - apply keeps_void_sys, keeps_anon. intros m. apply keeps_is_ok, keeps_irq. intros n Hn.
    by eapply attempts_good; [apply allocate_at_attempts|].
  - apply keeps_void_sys, keeps_anon. intros m. apply keeps_ok_map, keeps_gpe. intros n Hn.
    by eapply attempts_good; [apply allocate_attempts|].
  - apply keeps_void_sys, keeps_pci_op; [|apply ok_map_inv]. intros id. apply allocate_attempts.
  - apply keeps_void_sys. destruct alloc; try (apply keeps_anon; intros ?; by apply keeps_pure).
    apply keeps_pci_op; [|by intros; eapply is_ok_inv]. intros id. apply allocate_at_attempts.
  - apply keeps_void_sys, keeps_with_bus; [apply Hrel|by intros; eapply is_ok_inv].
  - apply keeps_void_sys, keeps_allocate_mmio.
  - apply keeps_anon. intros m. apply keeps_void_sys, keeps_allocate_mmio.
  - apply keeps_sys_bind; [by apply keeps_pure|]. intros ?. apply keeps_reserve_pools.
Qed.

Lemma run_sys_keeps os s s' :
  Forall sys_op_ok os → sys_wf s → run_sys os s = Some s' → sys_wf s'.
Proof.
  intros Hos. revert s. induction Hos as [|o os Ho Hos IH]; intros s Hs Hrun; cbn in Hrun;
    [by injection Hrun as <-|].   destruct (sys_exec o s) as [r s1] eqn:E. assert (r ≠ Aborts) as Hr by (by intros ->).
  destruct (sys_exec_keeps o s r s1 Hs (sys_op_key_ok _ _ Ho) E Hr) as [Hs1 _]. apply (IH s1); [done|]. by destruct r.
Qed.

(** ** The new system *)

Lemma pairwise_intersect l r :
  pairwise_disjoint l → pairwise_disjoint (map (λ p, AddressRange_intersect p r) l).
Proof.
  induction l as [|p l IH]; cbn; [done|]. intros [Hp Hl]. split; [|auto].
  apply Forall_map. eapply Forall_impl; [exact Hp|]. intros q Hd z. cbn.
  rewrite !intersect_spec. intros [? _] [? _]. by apply (Hd z).
Qed.

Lemma intersect_mmio_disjoint ranges r :
  pairwise_disjoint ranges → pairwise_disjoint (intersect_mmio_range ranges r).
Proof.
  intros Hd. unfold intersect_mmio_range. destruct ranges; [by repeat constructor|].
  by apply pairwise_intersect.
Qed.

Lemma new_good n pools min_align preferred_align a :
  pairwise_disjoint pools → new_from_list pools min_align preferred_align = inl a → good n a.
Proof.
  intros Hd Hnew. destruct (new_from_list_wf _ _ _ _ Hd Hnew) as [Hwf _]. split; [done|].
  apply new_from_list_fields in Hnew as (Hallocs & _). intros m rt. by rewrite Hallocs, lookup_empty.
Qed.

Lemma lift_new_inv (r : AddressAllocator + Error) u a u' :
  lift_new r u = (Returns a, u') → r = inl a.
Proof. destruct r; [by intros [= -> _]|done]. Qed.

Lemma prog_bind_inv {S E A B} (m : prog S E A) (f : A → prog S E B) s b s' :
  (a ← m; f a) s = (Returns b, s') → ∃ a s1, m s = (Returns a, s1) ∧ f a s1 = (Returns b, s').
Proof. unfold mbind, prog_bind. destruct (m s) as [[] ?]; eauto; done. Qed.

Ltac bind_inv H :=
  let a := fresh "a" in let s := fresh "u" in let E := fresh "E" in
  apply prog_bind_inv in H as (a & s & E & H).

Lemma new_sys_wf page_size cfg reserve ranges s :
  pairwise_disjoint ranges →
  SystemAllocator_new page_size cfg reserve ranges () = (Returns s, ()) → sys_wf s.
Proof.
  intros Hd Hnew. unfold SystemAllocator_new in Hnew.
  bind_inv Hnew. destruct a as [high_mmio reserved].
  do 6 bind_inv Hnew. injection Hnew as <-.
  repeat match goal with H : lift_new _ _ = _ |- _ => apply lift_new_inv in H end.
  split; cbn; try (eapply new_good; [|done]); try (by apply intersect_mmio_disjoint);
    try (by repeat constructor).
Qed.

(** ** Device functions *)

Lemma available_one l al z : available l 1 al z ↔ (al | z) ∧ free l z.
Proof.
  unfold available, free, In_range. split.
  - intros (Hd & r & Hr & ? & ?). split; [done|]. exists r. split; [done|lia].
  - intros (Hd & r & Hr & ?). split; [done|]. exists r. split_and!; [done|lia..].
Qed.

(** Allocating one address from an allocator that prefers multiples of 8. *)
Lemma allocate_slot n bus a id tag :
  bus_ok n bus a → aa_allocs a !! id = None →
  ∃ r a', allocate (U64 1) id tag a = (r, a') ∧
    match r with
    | Returns v =>
        (((8 | uval v) ∧ free (aa_regions a) v ∧
          ∀ z, (8 | z) → free (aa_regions a) z → uval v <= z) ∨
         ((∀ z, (8 | z) → ¬ free (aa_regions a) z) ∧ free (aa_regions a) v ∧
          ∀ z, free (aa_regions a) z → uval v <= z)) ∧
        ∀ z, free (aa_regions a') z ↔ free (aa_regions a) z ∧ z ≠ v
    | Throws _ => a' = a ∧ ∀ z, ¬ free (aa_regions a) z
    | Aborts => False
    end.
Proof.
  intros ((Hwf & _) & Hmin & Hpref & Hpools) Hid.
  assert (¬ free (aa_pools a) (2 ^ 64 - 1)) as Htop by (rewrite Hpools; lia).
  unfold allocate, allocate_with_align, get_state, catch, mbind, prog_bind. rewrite Hpref.
  assert (uval (umax (aa_min_align a) (U64 8)) = 8) as Hal8 by (by rewrite Hmin).
  assert (uval (umax (aa_min_align a) (U64 1)) = 1) as Hal1 by (by rewrite Hmin).
  destruct (internal_allocate_ok a (U64 1) id tag (U64 8) false Hwf Htop) as (r & a' & -> & _ & Hr);
    [rewrite Hal8; done|]. unfold allocation_result in Hr. rewrite Hal8 in Hr.
  assert (∀ (v e : u64) l', uval e = v + 1 - 1 →
            (∀ z, free l' z ↔ free (aa_regions a) z ∧ ¬ v <= z <= e) →
            ∀ z, free l' z ↔ free (aa_regions a) z ∧ z ≠ uval v) as Hone.
  { intros v e l' He Hl z. rewrite Hl. intuition lia. }
  change (uval (U64 1)) with 1 in *.
  destruct r as [v|e|]; [| |done].
  - destruct Hr as (_ & [Hav Hbest] & e & regions' & He & -> & Hf).
    eexists _, _. split; [done|].
    apply available_one in Hav as [? ?]. split; [left; split_and!; [done..|]|].
    + intros z Hd Hz. apply Hbest, available_one. done.
    + by eapply Hone.
  - destruct Hr as [-> He]. rewrite Hmin.
    assert (∀ z, (8 | z) → ¬ free (aa_regions a) z) as Hno8.
    { destruct e; try done.
      - by rewrite Hmin in He; vm_compute in He.
      - destruct He as [_ Hsome]. rewrite Hid in Hsome. by apply is_Some_None in Hsome.
      - intros z Hd Hz. apply (He z), available_one. done. }
    destruct (internal_allocate_ok a (U64 1) id tag (U64 1) false Hwf Htop)
      as (r & a' & -> & _ & Hr); [rewrite Hal1; done|]. unfold allocation_result in Hr.
    rewrite Hal1 in Hr. eexists _, _. split; [done|]. destruct r as [v|e'|]; [| |done].
    + destruct Hr as (_ & [Hav Hbest] & e' & regions' & He' & -> & Hf).
      change (uval (U64 1)) with 1 in *. apply available_one in Hav as [_ ?].
      split; [right; split_and!; [done..|]|].
      * intros z Hz. apply Hbest, available_one. split; [apply Z.divide_1_l|done].
      * by eapply Hone.
    + destruct Hr as [-> He']. split; [done|]. intros z Hz. destruct e'; try done.
      * by rewrite Hmin in He'; vm_compute in He'.
      * destruct He' as [_ Hsome]. rewrite Hid in Hsome. by apply is_Some_None in Hsome.
      * apply (He' z), available_one. split; [apply Z.divide_1_l|done].
Qed.

(** A device function as a number and back. *)
Definition slot_check (v : Z) : bool :=
  (uval (dev_func (U8 (Z.shiftr v 3)) (U8 (Z.land v 7))) =? v) &&
  (uval (U8 (Z.shiftr v 3)) =? v / 8) && (uval (U8 (Z.land v 7)) =? v mod 8).

Lemma slot_check_all v : 0 <= v <= 255 → slot_check v = true.
Proof.
  intros Hv. assert (forallb (λ n, slot_check (Z.of_nat n)) (seq 0 256) = true) as Hall
    by (vm_compute; reflexivity).
  rewrite forallb_forall in Hall. rewrite <-(Z2Nat.id v) by lia. apply Hall, in_seq. lia.
Qed.

(** The choice of the allocator of the bus. *)
Definition slot_choice (a : AddressAllocator) (v : Z) : Prop :=
  (8 | v) ∧ free (aa_regions a) v ∧ (∀ z, (8 | z) → free (aa_regions a) z → v <= z) ∨
  (∀ z, (8 | z) → ¬ free (aa_regions a) z) ∧ free (aa_regions a) v ∧
  (∀ z, free (aa_regions a) z → v <= z).

Lemma allocate_pci_run bus tag s :
  sys_wf s → sa_next_anon_id s < u64_MAX →
  ∃ n a a' s', bus_ok n bus a ∧ (∀ z, free (aa_regions a) z ↔ slot_free s bus z) ∧
    sa_pci s' !! bus = Some a' ∧
    ((∃ v : u64, allocate_pci bus tag s =
        (Returns (Some (PciBar bus (U8 (Z.shiftr v 3)) (U8 (Z.land v 7)) (U8 0))), s') ∧
        slot_choice a v ∧ ∀ z, free (aa_regions a') z ↔ free (aa_regions a) z ∧ z ≠ v) ∨
     allocate_pci bus tag s = (Returns None, s') ∧ ∀ z, ¬ free (aa_regions a) z).
Proof.
  intros Hs Hn.
  destruct (add_checked (sa_next_anon_id s) (U64 1)) as [n|] eqn:Hadd;
    [|apply add_checked_None in Hadd; change (Z.of_N 64) with 64 in Hadd;
      rewrite U64_one in Hadd; unfold u64_MAX in Hn; lia].
  pose proof Hadd as En. apply add_checked_Some in En. rewrite U64_one in En.
  set (s1 := set_next_anon_id n s).
  assert (sys_wf s1) as Hs1 by (apply sys_wf_next; [done|lia]).
  destruct (get_pci_ok bus s1 Hs1) as (a & s2 & Hget & Hs2 & Hpci & Hn2 & Horig & Hfree).
  assert (sa_pci s2 !! bus = Some a) as Ha by (by rewrite Hpci, lookup_insert_eq).
  assert (aa_allocs a !! Anon n = None) as Hid.
  { destruct (aa_allocs a !! Anon n) as [rt|] eqn:Hl; [|done]. exfalso.
    destruct Horig as [Ha0|Hempty]; [|by rewrite Hempty, lookup_empty in Hl].
    destruct (sw_pci s Hs bus a Ha0) as ((_ & Hb) & _). specialize (Hb _ _ Hl). lia. }
  pose proof (sw_pci s2 Hs2 bus a Ha) as Hok.
  destruct (allocate_slot _ bus a (Anon n) tag Hok Hid) as (r & a' & Hal & Hr).
  exists (sa_next_anon_id s2), a, a', (set_pci (<[bus := a']> (sa_pci s2)) s2).
  split_and!; [done|done|apply lookup_insert_eq|].
  unfold allocate_pci, get_anon_alloc, get_state, put_state, mbind, prog_bind.
  rewrite Hadd. cbn [checked mret prog_ret]. fold s1. rewrite Hget.
  unfold ok_map, catch, on_bus, zoom, mbind, prog_bind. rewrite Ha. cbn [default from_option].
  unfold id. rewrite Hal. destruct r as [v|e|]; [| |done].
  - left. by exists v.
  - right. by destruct Hr.
Qed.

(** PCI device functions: in every state the system allocator can reach,
    [allocate_pci] returns a function of the bus that was free and is taken
    afterwards, never one of the root complex.  If some device has its function 0
    free it takes the function 0 of the lowest such device, otherwise the lowest
    free function, and it returns [None] only when the bus is full. *)
Theorem allocate_pci_slot page_size cfg reserve ranges s0 os s bus tag :
  pairwise_disjoint ranges →
  SystemAllocator_new page_size cfg reserve ranges () = (Returns s0, ()) →
  Forall sys_op_ok os → run_sys os s0 = Some s → sa_next_anon_id s < u64_MAX →
  ∃ r s', allocate_pci bus tag s = (Returns r, s') ∧
  match r with
  | Some (PciBar b dev func bar) =>
      let df := uval (dev_func dev func) in
      b = bus ∧ uval bar = 0 ∧ slot_free s bus df ∧ first_slot bus <= df <= 255 ∧
      (uval func = 0 ∧ (∀ dev', slot_free s bus (8 * dev') → uval dev <= dev') ∨
       (∀ dev', ¬ slot_free s bus (8 * dev')) ∧ (∀ z, slot_free s bus z → df <= z)) ∧
      ∀ z, slot_free s' bus z ↔ slot_free s bus z ∧ z ≠ df
  | Some _ => False
  | None => ∀ z, ¬ slot_free s bus z
  end.
Proof.
  intros Hd Hnew Hos Hrun Hn.
  pose proof (run_sys_keeps os s0 s Hos (new_sys_wf _ _ _ _ _ Hd Hnew) Hrun) as Hs.
  destruct (allocate_pci_run bus tag s Hs Hn)
    as (n & a & a' & s' & ((Hwf & _) & _ & _ & Hpools) & Hfree & Ha' & [(v & -> & Hv & Hf)|(-> & Hf)]);
    eexists _, s'; (split; [done|]); [|intros z Hz%Hfree; by apply (Hf z)].
  assert (free (aa_regions a) v) as Hvf by (by destruct Hv as [(_ & ? & _)|(_ & ? & _)]).
  assert (first_slot bus <= v <= 255) as Hb by (apply Hpools, wf_pools; auto).
  assert (slot_check v = true) as Hc.
  { apply slot_check_all. unfold first_slot in Hb. case_match; lia. }
  unfold slot_check in Hc. zbool. cbn beta iota zeta.
  repeat match goal with H : uval _ = _ |- _ => rewrite H end.
  setoid_rewrite <-Hfree. unfold slot_free. rewrite Ha'. split_and!; [done|done|done|lia|lia| |done].
  destruct Hv as [(Hdiv & _ & Hmin)|(Hno & _ & Hmin)]; [left|right].
  - split; [by apply Z.mod_divide in Hdiv|]. intros dev' Hdev.
    specialize (Hmin (8 * dev') (Z.divide_factor_l _ _) Hdev). apply Z.div_le_upper_bound; lia.
  - split; [|done]. intros dev'. apply Hno, Z.divide_factor_l.
Qed.

End system.
