(* ===== verification/Bits.v ===== *)
(** * Bits of machine integers, and event descriptors

    The registers of the devices are machine integers that are read and changed
    bit by bit.  This file has the bitwise operators on [uint w], what they do to
    each bit, and the event descriptors devices signal. *)

From S2P Require Import Prelude Checked.

(** ** Bitwise operators *)

Section bits.
Context {w : N}.
Implicit Types a b : uint w.

Definition uand a b : uint w := to_uint w (Z.land a b).
Definition uor a b : uint w := to_uint w (Z.lor a b).
Definition unot a : uint w := to_uint w (Z.lnot a).

(** [1 << n], for [n] below the width. *)
Definition ubit (n : Z) : uint w := to_uint w (2 ^ n).

(** The bit [n] of [a]. *)
Definition bit a (n : Z) : bool := Z.testbit a n.

Lemma bit_high a n : Z.of_N w <= n → bit a n = false.
Proof.
  intros Hn. unfold bit. pose proof (uint_range a).
  destruct (decide (uval a = 0)) as [->|]; [apply Z.bits_0|].
  apply Z.bits_above_log2; [lia|]. apply Z.log2_lt_pow2; [lia|].
  apply Z.lt_le_trans with (2 ^ Z.of_N w); [lia|]. apply Z.pow_le_mono_r; lia.
Qed.

Lemma bit_neg a n : n < 0 → bit a n = false.
Proof. apply Z.testbit_neg_r. Qed.

Lemma bit_to_uint z n : bit (to_uint w z) n = (n <? Z.of_N w) && Z.testbit z n.
Proof.
  destruct (Z.ltb_spec n (Z.of_N w)).
  - cbn. destruct (decide (0 <= n)).
    + unfold bit. rewrite uval_to_uint. apply Z.mod_pow2_bits_low. lia.
    + rewrite bit_neg, Z.testbit_neg_r; [done|lia|lia].
  - rewrite bit_high by lia. done.
Qed.

Lemma bit_eq a b : (∀ n, 0 <= n < Z.of_N w → bit a n = bit b n) → a = b.
Proof.
  intros H. apply uint_eq, Z.bits_inj'. intros n Hn.
  destruct (decide (n < Z.of_N w)); [by apply H|].
  change (bit a n = bit b n). by rewrite !bit_high by lia.
Qed.

Lemma bit_and a b n : bit (uand a b) n = bit a n && bit b n.
Proof.
  unfold uand. rewrite bit_to_uint, Z.land_spec. destruct (Z.ltb_spec n (Z.of_N w)); [done|].
  unfold bit. rewrite <-Z.land_spec. change (false = Z.testbit (Z.land a b) n).
  rewrite Z.land_spec. fold (bit a n). by rewrite bit_high.
Qed.

Lemma bit_or a b n : bit (uor a b) n = bit a n || bit b n.
Proof.
  unfold uor. rewrite bit_to_uint, Z.lor_spec. destruct (Z.ltb_spec n (Z.of_N w)); [done|].
  fold (bit a n) (bit b n). by rewrite !bit_high.
Qed.

Lemma bit_not a n : 0 <= n < Z.of_N w → bit (unot a) n = negb (bit a n).
Proof.
  intros Hn. unfold unot. rewrite bit_to_uint, Z.lnot_spec by lia.
  destruct (Z.ltb_spec n (Z.of_N w)); [done|lia].
Qed.

Lemma bit_ubit k n : 0 <= k < Z.of_N w → bit (ubit k) n = (n =? k).
Proof.
  intros Hk. unfold ubit. rewrite bit_to_uint.
  destruct (Z.ltb_spec n (Z.of_N w)); cbn.
  - destruct (Z.eqb_spec n k) as [->|]; [apply Z.pow2_bits_true; lia|].
    apply Z.pow2_bits_false. lia.
  - destruct (Z.eqb_spec n k); [lia|done].
Qed.

(** [a & (1 << k) != 0] tests the bit [k]. *)
Lemma and_ubit_zero a k : 0 <= k < Z.of_N w → (uval (uand a (ubit k)) =? 0) = negb (bit a k).
Proof.
  intros Hk. destruct (bit a k) eqn:Hb; cbn.
  - apply Z.eqb_neq. intros H0.
    assert (Ht : bit (uand a (ubit k)) k = false) by (unfold bit; rewrite H0; apply Z.bits_0).
    rewrite bit_and, Hb, bit_ubit, Z.eqb_refl in Ht by lia. done.
  - apply Z.eqb_eq. replace 0 with (uval (to_uint w 0)).
    + f_equal. apply bit_eq. intros n Hn. rewrite bit_and, bit_ubit by lia.
      rewrite bit_to_uint, Z.bits_0, andb_false_r.
      destruct (Z.eqb_spec n k) as [->|]; [by rewrite Hb|apply andb_false_r].
    + rewrite uval_to_uint. apply Z.mod_0_l, Z.pow_nonzero; lia.
Qed.

Lemma bit_zero a n : uval a = 0 → bit a n = false.
Proof. unfold bit. intros ->. apply Z.bits_0. Qed.

Lemma nonzero_bit a : uval a ≠ 0 → ∃ n, 0 <= n < Z.of_N w ∧ bit a n = true.
Proof.
  intros Ha. pose proof (uint_range a). exists (Z.log2 a).
  split; [|apply Z.bit_log2; lia]. split; [apply Z.log2_nonneg|].
  apply Z.log2_lt_pow2; lia.
Qed.

(** Setting and clearing one bit. *)
Lemma bit_set a k n : 0 <= k < Z.of_N w → bit (uor a (ubit k)) n = (n =? k) || bit a n.
Proof. intros. rewrite bit_or, bit_ubit by done. apply orb_comm. Qed.

Lemma bit_clear a k n : 0 <= k < Z.of_N w →
  bit (uand a (unot (ubit k))) n = negb (n =? k) && bit a n.
Proof.
  intros Hk. rewrite bit_and. destruct (decide (0 <= n < Z.of_N w)).
  - rewrite bit_not, bit_ubit by done. apply andb_comm.
  - destruct (decide (n < 0)); [rewrite !bit_neg by lia|rewrite !bit_high by lia];
      by rewrite !andb_false_r.
Qed.

End bits.

(** ** Event descriptors

    A device signals an event descriptor by writing to it.  The kernel decides
    whether the write succeeds; a write that fails makes the caller panic. *)

Definition Event := nat.

Class EventFds := event_accepts : Event → bool.
