(* ===== verification/Bus.v ===== *)
(** * The device bus: [libcrosvm/devices/src/bus.rs]

    Also the fragments of a snapshot, of [vm_control/src/snapshot_format.rs].

    A bus routes accesses to an address space to the devices that own parts of
    it.  The map of devices is shared by the clones of a bus, so that it is the
    state of the operations; the number of the requesting processor belongs to
    each clone.  Devices are shared too: the map holds pointers into a store. *)

From stdpp Require Import pretty.
From S2P Require Import Prelude Checked Bits.

Inductive BusType := Mmio | Io.

Record BusAccessInfo : Set := MkAccess {
  bai_offset : u64;
  bai_address : u64;
  bai_id : u64
}.

Record BusRange : Set := MkBusRange { br_base : u64; br_len : u64 }.

Inductive BusError :=
  | BusEmpty
  | BusOverlap (base len other_base other_len : u64).

(** ** Ranges *)

(** [a.saturating_add(b)]. *)
Definition saturating_add (a b : u64) : u64 :=
  match add_checked a b with Some c => c | None => U64 (2 ^ 64 - 1) end.

Definition BusRange_contains (r : BusRange) (addr : u64) : bool :=
  (br_base r <=? addr) && (addr <? saturating_add (br_base r) (br_len r)).

Definition BusRange_overlaps (r : BusRange) (base len : u64) : bool :=
  (br_base r <? saturating_add base len) && (base <? saturating_add (br_base r) (br_len r)).

(** ** Devices

    The operations of the traits [BusDevice], [Suspendable] and [BusDeviceSync]
    on the state of a device: the first group for a device behind a mutex, the
    second for one that synchronises itself.  [None] and [Aborts] are panics. *)
Class BusDevice (D V : Type) := {
  debug_label : D → string;
  dev_read : BusAccessInfo → list u8 → D → option (list u8 * D);
  dev_write : BusAccessInfo → list u8 → D → option D;
  dev_sleep : prog D string ();
  dev_wake : prog D string ();
  dev_snapshot : prog D string V;
  dev_restore : V → prog D string ();
  sync_read : BusAccessInfo → list u8 → D → option (list u8 * D);
  sync_write : BusAccessInfo → list u8 → D → option D;
  sync_sleep : prog D string ();
  sync_wake : prog D string ();
  sync_snapshot : prog D string V;
  sync_restore : V → prog D string ()
}.

Inductive BusDeviceEntry := OuterSync (dev : nat) | InnerSync (dev : nat).

(** [Arc::as_ptr]. *)
Definition entry_ptr (e : BusDeviceEntry) : nat :=
  match e with OuterSync p => p | InnerSync p => p end.

(** A clone of a bus. *)
Record Bus := MkBus { bus_access_id : u64; bus_bus_type : BusType }.

Definition Bus_new (t : BusType) : Bus := MkBus (U64 0) t.
Definition Bus_get_bus_type (b : Bus) : BusType := bus_bus_type b.
Definition Bus_set_access_id (id : u64) (b : Bus) : Bus := MkBus id (bus_bus_type b).

(** ** The ordered map of devices

    [BTreeMap<BusRange, BusEntry>]: ranges are compared by their base, and an
    insertion at a key that is there keeps the key and replaces the value. *)

Definition device_map := list (BusRange * BusDeviceEntry).

Fixpoint btree_insert (r : BusRange) (e : BusDeviceEntry) (m : device_map) :
    option BusDeviceEntry * device_map :=
  match m with
  | [] => (None, [(r, e)])
  | (r', e') :: m' =>
      if br_base r <? br_base r' then (None, (r, e) :: m)
      else if br_base r =? br_base r' then (Some e', (r', e) :: m')
      else let '(old, m'') := btree_insert r e m' in (old, (r', e') :: m'')
  end.

Fixpoint btree_remove (r : BusRange) (m : device_map) : option BusDeviceEntry * device_map :=
  match m with
  | [] => (None, [])
  | (r', e') :: m' =>
      if br_base r =? br_base r' then (Some e', m')
      else let '(old, m'') := btree_remove r m' in (old, (r', e') :: m'')
  end.

(** [first_before]: [devices.range(..=BusRange { base: addr, len: 1 }).next_back()]. *)
Definition first_before (addr : u64) (m : device_map) : option (BusRange * BusDeviceEntry) :=
  last (List.filter (λ p, br_base p.1 <=? addr) m).

(** The offset in the device, the address and the entry; the subtraction is
    checked. *)
Definition get_device (addr : u64) (m : device_map) :
    option (option (u64 * u64 * BusDeviceEntry)) :=
  match first_before addr m with
  | Some (range, entry) =>
      offset ← sub_checked addr (br_base range);
      Some (if uval offset <? br_len range then Some (offset, addr, entry) else None)
  | None => Some None
  end.

Fixpoint dedup (seen : list nat) (l : list BusDeviceEntry) : list BusDeviceEntry :=
  match l with
  | [] => []
  | e :: l =>
      if bool_decide (entry_ptr e ∈ seen) then dedup seen l
      else e :: dedup (entry_ptr e :: seen) l
  end.

Definition unique_devices (m : device_map) : list BusDeviceEntry := dedup [] (map snd m).

(** ** Keys of a snapshot *)

Definition dash : Ascii.ascii := Ascii.ascii_of_N 45.

(** [debug_label.replace(char::is_whitespace, "-")] on the bytes of a UTF-8
    string: the white space of one byte, of two and of three bytes. *)
Definition space1 (a : N) : bool := (9 <=? a)%N && (a <=? 13)%N || (a =? 32)%N.
Definition space2 (a b : N) : bool := (a =? 194)%N && ((b =? 133)%N || (b =? 160)%N).
Definition space3 (a b c : N) : bool :=
  (a =? 225)%N && (b =? 154)%N && (c =? 128)%N
  || (a =? 226)%N && (b =? 128)%N
     && ((128 <=? c)%N && (c <=? 138)%N || (c =? 168)%N || (c =? 169)%N || (c =? 175)%N)
  || (a =? 226)%N && (b =? 129)%N && (c =? 159)%N
  || (a =? 227)%N && (b =? 128)%N && (c =? 128)%N.

Fixpoint dash_whitespace (s : string) : string :=
  match s with
  | EmptyString => EmptyString
  | String a s1 =>
      let a' := Ascii.N_of_ascii a in
      if space1 a' then String dash (dash_whitespace s1)
      else
        match s1 with
        | EmptyString => String a (dash_whitespace s1)
        | String b s2 =>
            let b' := Ascii.N_of_ascii b in
            if space2 a' b' then String dash (dash_whitespace s2)
            else
              match s2 with
              | EmptyString => String a (dash_whitespace s1)
              | String c s3 =>
                  if space3 a' b' (Ascii.N_of_ascii c) then String dash (dash_whitespace s3)
                  else String a (dash_whitespace s1)
              end
        end
  end.

Definition snapshot_key (label : string) (id : N) : string := label +:+ "-" +:+ pretty id.

(** [choose_key], with the counters [next_ids]. *)
Definition choose_key (next_ids : gmap string N) (debug_label : string) :
    string * gmap string N :=
  let label := dash_whitespace debug_label in
  let id := default 0%N (next_ids !! label) in
  (snapshot_key label id, <[label := (id + 1)%N]> next_ids).

(** ** Fragments of a snapshot

    A fragment is a file in the directory of the snapshot. *)

Definition slash : Ascii.ascii := Ascii.ascii_of_N 47.

(** No separator is needed after an empty path and after a separator. *)
Fixpoint ends_path (dir : string) : bool :=
  match dir with
  | EmptyString => true
  | String a EmptyString => bool_decide (a = slash)
  | String _ dir => ends_path dir
  end.

(** [dir.join(name)]: an absolute name replaces the directory. *)
Definition path_join (dir name : string) : string :=
  match name with
  | String a _ => if bool_decide (a = slash) then name else if ends_path dir then dir +:+ name else dir +:+ String slash name
  | EmptyString => if ends_path dir then dir else dir +:+ String slash EmptyString
  end.

(** The file system, and the serialization of values as JSON into a file and from it;
    the errors are not told apart. *)
Class SnapshotHost (K V : Type) := {
  create_new : string → prog K string ();
  write_json : string → V → prog K string ();
  open_file : string → prog K string ();
  parse_json : string → prog K string V;
  read_dir : string → prog K string (list string)
}.

(** The directory, and whether there is a key to encrypt the fragments with. *)
Record SnapshotWriter := MkSnapshotWriter { sw_dir : string; sw_key : bool }.
Record SnapshotReader := MkSnapshotReader { sr_dir : string; sr_key : bool }.

Section fragments.
Context {K V : Type} `{SnapshotHost K V}.

(** The path of the file that is written; [create_new] fails for a file that exists.
    The encryption of this build panics. *)
Definition writer_raw_fragment (w : SnapshotWriter) (name : string) : prog K string string :=
  let path := path_join (sw_dir w) name in
  create_new path;;
  if sw_key w then abort else mret path.

Definition write_fragment (w : SnapshotWriter) (name : string) (v : V) : prog K string () :=
  path ← writer_raw_fragment w name;
  write_json path v.

Definition reader_raw_fragment (r : SnapshotReader) (name : string) : prog K string string :=
  let path := path_join (sr_dir r) name in
  open_file path;;
  if sr_key r then abort else mret path.

Definition read_fragment (r : SnapshotReader) (name : string) : prog K string V :=
  path ← reader_raw_fragment r name;
  parse_json path.

Definition list_fragments (r : SnapshotReader) : prog K string (list string) := read_dir (sr_dir r).
End fragments.

Section bus.
Context {D V : Type} `{BusDevice D V}.

(** The shared map and the store of devices. *)
Record BusState := MkBusState { bs_devices : device_map; bs_store : gmap nat D }.

Definition set_devices (m : device_map) (s : BusState) : BusState :=
  MkBusState m (bs_store s).

Fixpoint snapshot_keys (next_ids : gmap string N) (label : nat → string)
    (l : list BusDeviceEntry) : list (string * BusDeviceEntry) :=
  match l with
  | [] => []
  | e :: l =>
      let '(key, next_ids) := choose_key next_ids (label (entry_ptr e)) in
      (key, e) :: snapshot_keys next_ids label l
  end.

(** The label of the device behind a pointer; the pointers of a map are never
    dangling. *)
Definition label_of (store : gmap nat D) (p : nat) : string :=
  match store !! p with Some d => debug_label d | None => EmptyString end.

Definition unique_devices_with_snapshot_key (s : BusState) : list (string * BusDeviceEntry) :=
  snapshot_keys ∅ (label_of (bs_store s)) (unique_devices (bs_devices s)).

(** Run a method of the device behind [p]. *)
Definition on_device {A} (p : nat) (m : prog D string A) : prog BusState string A := λ s,
  match bs_store s !! p with
  | None => (Aborts, s)
  | Some d => let '(r, d') := m d in (r, MkBusState (bs_devices s) (<[p := d']> (bs_store s)))
  end.

(** ** Inserting and removing devices *)

Definition insert_entry (e : BusDeviceEntry) (base len : u64) : prog BusState BusError () :=
  if uval len =? 0 then throw (BusOverlap base len (U64 0) (U64 0))
  else
    s ← get_state;
    match List.find (λ p, BusRange_overlaps p.1 base len) (bs_devices s) with
    | Some (range, _) => throw (BusOverlap base len (br_base range) (br_len range))
    | None =>
        let '(old, m) := btree_insert (MkBusRange base len) e (bs_devices s) in
        _ ← put_state (set_devices m s);
        match old with
        | Some _ => throw (BusOverlap base len base len)
        | None => mret ()
        end
    end.

Definition Bus_insert (dev : nat) (base len : u64) : prog BusState BusError () :=
  insert_entry (OuterSync dev) base len.
Definition Bus_insert_sync (dev : nat) (base len : u64) : prog BusState BusError () :=
  insert_entry (InnerSync dev) base len.

Definition Bus_remove (base len : u64) : prog BusState BusError () :=
  if uval len =? 0 then throw (BusOverlap base len (U64 0) (U64 0))
  else
    s ← get_state;
    if existsb (λ p, (br_base p.1 =? base) && (br_len p.1 =? len)) (bs_devices s) then
      let '(ret, m) := btree_remove (MkBusRange base len) (bs_devices s) in
      _ ← put_state (set_devices m s);
      match ret with Some _ => mret () | None => throw BusEmpty end
    else throw BusEmpty.

(** ** Accesses *)

(** Call the device of an entry; the result is [None] on a panic. *)
Definition entry_read (e : BusDeviceEntry) (io : BusAccessInfo) (data : list u8) :
    D → option (list u8 * D) :=
  match e with OuterSync _ => dev_read io data | InnerSync _ => sync_read io data end.
Definition entry_write (e : BusDeviceEntry) (io : BusAccessInfo) (data : list u8) :
    D → option D :=
  match e with OuterSync _ => dev_write io data | InnerSync _ => sync_write io data end.

(** [read] returns whether a device was found, and the buffer. *)
Definition Bus_read (b : Bus) (addr : u64) (data : list u8) :
    prog BusState BusError (bool * list u8) :=
  s ← get_state;
  found ← checked (get_device addr (bs_devices s));
  match found with
  | None => mret (false, data)
  | Some (offset, address, entry) =>
      let io := MkAccess offset address (bus_access_id b) in
      d ← checked (bs_store s !! entry_ptr entry);
      '(data', d') ← checked (entry_read entry io data d);
      _ ← put_state (MkBusState (bs_devices s) (<[entry_ptr entry := d']> (bs_store s)));
      mret (true, data')
  end.

Definition Bus_write (b : Bus) (addr : u64) (data : list u8) :
    prog BusState BusError bool :=
  s ← get_state;
  found ← checked (get_device addr (bs_devices s));
  match found with
  | None => mret false
  | Some (offset, address, entry) =>
      let io := MkAccess offset address (bus_access_id b) in
      d ← checked (bs_store s !! entry_ptr entry);
      d' ← checked (entry_write entry io data d);
      _ ← put_state (MkBusState (bs_devices s) (<[entry_ptr entry := d']> (bs_store s)));
      mret true
  end.

(** ** Suspending *)

(** A loop over the devices that stops at the first error, as [?] does. *)
Fixpoint for_devices {S A} (f : A → prog S string ()) (l : list A) : prog S string () :=
  match l with
  | [] => mret ()
  | x :: l => _ ← f x; for_devices f l
  end.

Definition sleep_devices : prog BusState string () :=
  s ← get_state;
  for_devices (λ e, match e with
                    | OuterSync p => on_device p dev_sleep
                    | InnerSync p => on_device p sync_sleep
                    end) (unique_devices (bs_devices s)).

Definition wake_devices : prog BusState string () :=
  s ← get_state;
  for_devices (λ e, match e with
                    | OuterSync p => on_device p dev_wake
                    | InnerSync p => on_device p sync_wake
                    end) (unique_devices (bs_devices s)).

Definition snapshot_devices {K} `{SnapshotHost K V} (snapshot_writer : SnapshotWriter) : prog (BusState * K) string () :=
  '(s, _) ← get_state;
  for_devices (λ '(snapshot_key, device_entry),
    v ← zoom fst (λ s p, (s, p.2))
          (match device_entry with
           | OuterSync p => on_device p dev_snapshot
           | InnerSync p => on_device p sync_snapshot
           end);
    zoom snd (λ k p, (p.1, k)) (write_fragment snapshot_writer snapshot_key v)) (unique_devices_with_snapshot_key s).

(** The names of fragments that belong to no device are only logged. *)
Definition restore_devices {K} `{SnapshotHost K V} (snapshot_reader : SnapshotReader) : prog (BusState * K) string () :=
  _ ← zoom snd (λ k p, (p.1, k)) (list_fragments snapshot_reader);
  '(s, _) ← get_state;
  for_devices (λ '(snapshot_key, device_entry),
    v ← zoom snd (λ k p, (p.1, k)) (read_fragment snapshot_reader snapshot_key);
    zoom fst (λ s p, (s, p.2))
      (match device_entry with
       | OuterSync p => on_device p (dev_restore v)
       | InnerSync p => on_device p (sync_restore v)
       end)) (unique_devices_with_snapshot_key s).

End bus.
Arguments BusState : clear implicits.
