(* ===== verification/BusFacts.v ===== *)
(** * Theorems on the device bus

    Ranges on a bus do not overlap as long as none starts at the last address;
    then every access goes to the one device that owns its address.  The keys of
    a snapshot are distinct, and restoring it hands every device the value that its own
    snapshot returned. *)

From stdpp Require Import pretty.
From S2P Require Import Prelude Checked Bits Bus.

(** ** Ordered maps of disjoint ranges *)

Definition range_limit (r : BusRange) : Z := br_base r + br_len r.

(** Ranges in ascending order, not empty, disjoint, from [lo] on. *)
Fixpoint disjoint_from (lo : Z) (m : device_map) : Prop :=
  match m with
  | [] => True
  | (r, _) :: m => lo <= br_base r ∧ 0 < br_len r ∧ disjoint_from (range_limit r) m
  end.

Definition bus_wf (m : device_map) : Prop := disjoint_from 0 m.

(** The device that owns an address. *)
Definition owns (m : device_map) (addr : Z) (r : BusRange) (e : BusDeviceEntry) : Prop :=
  (r, e) ∈ m ∧ br_base r <= addr < range_limit r.

Definition last_address : Z := 2 ^ 64 - 1.

Lemma saturating_add_spec a b : uval (saturating_add a b) = Z.min (a + b) last_address.
Proof.
  unfold saturating_add, last_address. destruct (add_checked a b) as [c|] eqn:Hc.
  - apply add_checked_Some in Hc. pose proof (uint_range c). cbn [Z.of_N] in *. lia.
  - apply add_checked_None in Hc. rewrite uval_to_uint_small by (cbn; lia).
    cbn [Z.of_N] in *. lia.
Qed.

(** [overlaps] is the overlap of the ranges unless one starts at the last
    address. *)
Lemma bus_range_overlaps_spec r (base len : u64) :
  0 < br_len r → 0 < len → br_base r < last_address → base < last_address →
  BusRange_overlaps r base len = true ↔ br_base r < base + len ∧ base < range_limit r.
Proof.
  intros. unfold BusRange_overlaps, range_limit.
  rewrite andb_true_iff, !Z.ltb_lt, !saturating_add_spec. lia.
Qed.

Lemma disjoint_from_le lo lo' m : lo' <= lo → disjoint_from lo m → disjoint_from lo' m.
Proof. destruct m as [|[r e] m]; cbn; [done|]. intuition lia. Qed.

Lemma disjoint_from_elem lo m r e :
  disjoint_from lo m → (r, e) ∈ m → lo <= br_base r ∧ 0 < br_len r.
Proof.
  revert lo. induction m as [|[r' e'] m IH]; intros lo; cbn; [intros _ ?%elem_of_nil; done|].
  intros (Hlo & Hlen & Hm) [[= <- <-]|Hin]%elem_of_cons; [done|].
  destruct (IH _ Hm Hin). unfold range_limit in *. lia.
Qed.

Lemma disjoint_from_owner lo m addr r e r' e' :
  disjoint_from lo m → owns m addr r e → owns m addr r' e' → r = r' ∧ e = e'.
Proof.
  revert lo. induction m as [|[r0 e0] m IH]; intros lo; cbn.
  { intros _ [?%elem_of_nil _]. done. }
  intros (Hlo & Hlen & Hm) [[Hi|Hi]%elem_of_cons Ha] [[Hj|Hj]%elem_of_cons Hb].
  - by simplify_eq.
  - simplify_eq. destruct (disjoint_from_elem _ _ _ _ Hm Hj). unfold range_limit in *. lia.
  - simplify_eq. destruct (disjoint_from_elem _ _ _ _ Hm Hi). unfold range_limit in *. lia.
  - by apply (IH _ Hm).
Qed.

(** ** Lookup *)

(** The ranges from [addr + 1] on are filtered out. *)
Lemma filter_beyond lo m addr :
  disjoint_from lo m → addr < lo → List.filter (λ p, br_base p.1 <=? addr) m = [].
Proof.
  revert lo. induction m as [|[r e] m IH]; intros lo; cbn; [done|].
  intros (Hlo & Hlen & Hm) Ha. destruct (Z.leb_spec (br_base r) addr); [lia|].
  apply (IH (range_limit r)); [done|]. unfold range_limit. lia.
Qed.

Lemma first_before_spec lo m (addr : u64) r e :
  disjoint_from lo m → owns m addr r e → first_before addr m = Some (r, e).
Proof.
  unfold first_before. revert lo. induction m as [|[r' e'] m IH]; intros lo; cbn.
  { intros _ [?%elem_of_nil _]. done. }
  intros (Hlo & Hlen & Hm) [[Hi|Hi]%elem_of_cons Ha].
  - simplify_eq. destruct (Z.leb_spec (br_base r') addr); [|lia].
    by rewrite (filter_beyond (range_limit r')) by (done || lia).
  - destruct (disjoint_from_elem _ _ _ _ Hm Hi). unfold range_limit in *.
    destruct (Z.leb_spec (br_base r') addr); [|lia].
    specialize (IH _ Hm (conj Hi Ha)).
    destruct (List.filter _ m); [done|]. exact IH.
Qed.

Lemma first_before_elem m (addr : u64) r e :
  first_before addr m = Some (r, e) → (r, e) ∈ m ∧ br_base r <= addr.
Proof.
  unfold first_before. intros Hl. apply last_Some_elem_of, list_elem_of_In, filter_In in Hl.
  destruct Hl as [Hin Hle]. apply Z.leb_le in Hle. by rewrite list_elem_of_In.
Qed.

(** Looking an address up finds its owner and the offset in it. *)
Lemma get_device_owner lo m (addr : u64) r e :
  disjoint_from lo m → owns m addr r e →
  get_device addr m = Some (Some (U64 (addr - br_base r), addr, e)).
Proof.
  intros Hm Ho. unfold get_device. rewrite (first_before_spec lo m addr r e) by done.
  destruct Ho as [_ [Hb He]]. unfold range_limit in He. cbn.
  destruct (sub_checked addr (br_base r)) as [o|] eqn:Hs;
    [|apply sub_checked_None in Hs; lia].
  apply sub_checked_Some in Hs. cbn.
  destruct (Z.ltb_spec o (br_len r)); [|lia]. do 3 f_equal. f_equal.
  apply uint_eq. rewrite Hs. symmetry. apply uval_to_uint_small. uint_lia.
Qed.

Lemma get_device_none m (addr : u64) :
  (∀ r e, ¬ owns m addr r e) → get_device addr m = Some None.
Proof.
  intros Hno. unfold get_device. destruct (first_before addr m) as [[r e]|] eqn:Hf; [|done].
  apply first_before_elem in Hf as [Hin Hb]. cbn.
  destruct (sub_checked addr (br_base r)) as [o|] eqn:Hs;
    [|apply sub_checked_None in Hs; lia].
  apply sub_checked_Some in Hs. cbn. destruct (Z.ltb_spec o (br_len r)); [|done].
  destruct (Hno r e). split; [done|]. unfold range_limit. lia.
Qed.

Lemma owner_dec lo m addr :
  disjoint_from lo m → (∃ r e, owns m addr r e) ∨ (∀ r e, ¬ owns m addr r e).
Proof.
  revert lo. induction m as [|[r e] m IH]; intros lo; cbn.
  { right. by intros r e [?%elem_of_nil _]. }
  intros (Hlo & Hlen & Hm). destruct (decide (br_base r <= addr < range_limit r)).
  { left. exists r, e. by split; [left|]. }
  destruct (IH _ Hm) as [(r' & e' & Hin & Ha)|Hno].
  - left. exists r', e'. by split; [right|].
  - right. intros r' e' [[[= -> ->]|Hin]%elem_of_cons Ha]; [done|]. by apply (Hno r' e').
Qed.

(** ** Insertion and removal *)

Definition apart (base len : Z) (m : device_map) : Prop :=
  ∀ r e, (r, e) ∈ m → range_limit r <= base ∨ base + len <= br_base r.

Lemma apart_cons base len r e m :
  apart base len ((r, e) :: m) ↔
  (range_limit r <= base ∨ base + len <= br_base r) ∧ apart base len m.
Proof.
  unfold apart. split.
  - intros Ha. split; [apply (Ha r e); by left|]. intros r' e' ?. apply (Ha r' e'). by right.
  - intros [Hr Ha] r' e' [[= -> ->]|Hin]%elem_of_cons; [done|]. by apply (Ha r' e').
Qed.

Lemma btree_insert_apart lo m (base len : u64) e :
  disjoint_from lo m → apart base len m → lo <= base → 0 < len →
  ∃ m1 m2, m = m1 ++ m2 ∧
    btree_insert (MkBusRange base len) e m = (None, m1 ++ (MkBusRange base len, e) :: m2) ∧
    disjoint_from lo (m1 ++ (MkBusRange base len, e) :: m2).
Proof.
  revert lo. induction m as [|[r' e'] m IH]; intros lo; cbn.
  { intros _ _ Hlo Hlen. exists [], []. done. }
  intros (Hlo' & Hlen' & Hm) [Hr Ha]%apart_cons Hlo Hlen.
  destruct (Z.ltb_spec base (br_base r')).
  - exists [], ((r', e') :: m). repeat split; try done; cbn; unfold range_limit in *; cbn; lia.
  - destruct (Z.eqb_spec base (br_base r')); [unfold range_limit in *; lia|].
    destruct (IH _ Hm Ha) as (m1 & m2 & -> & Heq & Hd);
      [unfold range_limit in *; lia|done|].
    exists ((r', e') :: m1), m2. cbn. rewrite Heq. done.
Qed.

Lemma find_overlap_none m (base len : u64) :
  bus_wf m → base < last_address → Forall (λ p, br_base p.1 < last_address) m → 0 < len →
  List.find (λ p, BusRange_overlaps p.1 base len) m = None ↔ apart base len m.
Proof.
  intros Hm Hb Hl Hlen. rewrite Forall_forall in Hl.
  assert (Hov : ∀ r e, (r, e) ∈ m → BusRange_overlaps r base len = true ↔
      br_base r < base + len ∧ base < range_limit r).
  { intros r e Hin. destruct (disjoint_from_elem _ _ _ _ Hm Hin).
    apply bus_range_overlaps_spec; [done|done|exact (Hl _ Hin)|done]. }
  split.
  - intros Hf r e Hin. pose proof (List.find_none _ _ Hf (r, e)) as Hn.
    rewrite <-list_elem_of_In in Hn. specialize (Hn Hin). cbn in Hn.
    destruct (Hov r e Hin) as [_ H]. destruct (decide (br_base r < base + len)); [|lia].
    destruct (decide (base < range_limit r)); [|lia]. by rewrite H in Hn.
  - intros Ha. destruct (List.find _ m) as [[r e]|] eqn:Hf; [|done].
    apply List.find_some in Hf as [Hin Ho]. rewrite <-list_elem_of_In in Hin. cbn in Ho.
    apply (Hov r e Hin) in Ho. specialize (Ha r e Hin). lia.
Qed.

(** The maps the operations keep. *)
Definition bus_ok (m : device_map) : Prop :=
  bus_wf m ∧ Forall (λ p, br_base p.1 < last_address) m.

Lemma bus_ok_base m r e r' e' :
  bus_ok m → (r, e) ∈ m → (r', e') ∈ m → br_base r = br_base r' → r = r' ∧ e = e'.
Proof.
  intros [Hm _] Hin Hin' Hb. destruct (disjoint_from_elem _ _ _ _ Hm Hin).
  destruct (disjoint_from_elem _ _ _ _ Hm Hin').
  apply (disjoint_from_owner 0 m (br_base r)); [done| |]; split; try done;
    unfold range_limit; rewrite <-?Hb; lia.
Qed.

Section insert_remove.
Context {D : Type}.
Implicit Types s : BusState D.

Lemma insert_entry_zero e (base len : u64) s :
  uval len = 0 → insert_entry e base len s = (Throws (BusOverlap base len (U64 0) (U64 0)), s).
Proof. intros Hl. unfold insert_entry. by rewrite Hl. Qed.

Lemma insert_entry_overlap e (base len : u64) s :
  bus_ok (bs_devices s) → base < last_address → 0 < len → ¬ apart base len (bs_devices s) →
  ∃ ob ol, insert_entry e base len s = (Throws (BusOverlap base len ob ol), s).
Proof.
  intros [Hwf Hl] Hb Hlen Ha. unfold insert_entry.
  destruct (Z.eqb_spec len 0); [lia|]. run_prog.
  destruct (List.find _ _) as [[r x]|] eqn:Hf; [by eauto|].
  by apply find_overlap_none in Hf.
Qed.

Lemma insert_entry_apart e (base len : u64) s :
  bus_ok (bs_devices s) → base < last_address → 0 < len → apart base len (bs_devices s) →
  ∃ m, insert_entry e base len s = (Returns (), set_devices m s) ∧ bus_ok m ∧
    m ≡ₚ (MkBusRange base len, e) :: bs_devices s.
Proof.
  intros [Hwf Hl] Hb Hlen Ha. unfold insert_entry.
  destruct (Z.eqb_spec len 0); [lia|]. run_prog.
  replace (List.find _ _) with (@None (BusRange * BusDeviceEntry))
    by (symmetry; by apply find_overlap_none).
  destruct (btree_insert_apart 0 _ base len e Hwf Ha) as (m1 & m2 & Heq & -> & Hd);
    [uint_lia|done|].
  eexists. split; [done|]. rewrite Heq in *. split; [|by rewrite Permutation_middle].
  split; [done|]. rewrite Forall_app, Forall_cons in *. naive_solver.
Qed.

Lemma remove_exact base len m e :
  bus_ok m → (MkBusRange base len, e) ∈ m →
  ∃ m1 m2, m = m1 ++ (MkBusRange base len, e) :: m2 ∧
    btree_remove (MkBusRange base len) m = (Some e, m1 ++ m2).
Proof.
  intros Hok Hin. induction m as [|[r x] m IH]; [by apply elem_of_nil in Hin|]. cbn.
  destruct (Z.eqb_spec base (br_base r)) as [Hb|Hb].
  - destruct (bus_ok_base _ (MkBusRange base len) e r x Hok) as [<- <-];
      [done|by left|by apply uint_eq|]. by exists [], m.
  - apply elem_of_cons in Hin as [[= <- <-]|Hin]; [done|].
    destruct IH as (m1 & m2 & -> & ->); [|done|by exists ((r, x) :: m1), m2].
    destruct Hok as [(? & ? & Hm) Hl]. apply Forall_cons in Hl as [_ Hl]. split; [|done].
    eapply disjoint_from_le; [|exact Hm]. unfold range_limit. uint_lia.
Qed.

Lemma disjoint_from_delete lo m1 p m2 :
  disjoint_from lo (m1 ++ p :: m2) → disjoint_from lo (m1 ++ m2).
Proof.
  revert lo. induction m1 as [|[r x] m1 IH]; intros lo; cbn.
  - destruct p as [r x]. intros (? & ? & Hd). eapply disjoint_from_le; [|exact Hd].
    unfold range_limit. lia.
  - intros (? & ? & Hd). eauto.
Qed.

Lemma bus_ok_delete m1 p m2 : bus_ok (m1 ++ p :: m2) → bus_ok (m1 ++ m2).
Proof.
  intros [Hd Hl]. split; [by eapply disjoint_from_delete|].
  rewrite Forall_app, Forall_cons in *. naive_solver.
Qed.

End insert_remove.

(** ** Refinement to a registry

    The abstract bus is a list of ranges with their devices in no particular
    order: a range is added if it is not empty and shares no address with the
    others, and removed if it is there. *)

Inductive bus_op :=
  | InsertOp (e : BusDeviceEntry) (base len : u64)
  | RemoveOp (base len : u64).

Definition bus_op_exec {D} (op : bus_op) : prog (BusState D) BusError () :=
  match op with
  | InsertOp (OuterSync p) base len => Bus_insert p base len
  | InsertOp (InnerSync p) base len => Bus_insert_sync p base len
  | RemoveOp base len => Bus_remove base len
  end.

(** Run the operations, and tell which ones succeed. *)
Fixpoint bus_run {D} (ops : list bus_op) (s : BusState D) : list bool * BusState D :=
  match ops with
  | [] => ([], s)
  | op :: ops =>
      let '(r, s') := bus_op_exec op s in
      let '(rs, s'') := bus_run ops s' in
      (match r with Returns _ => true | _ => false end :: rs, s'')
  end.

Definition shares (base len : Z) (p : BusRange * BusDeviceEntry) : bool :=
  (br_base p.1 <? base + len) && (base <? br_base p.1 + br_len p.1).
Definition same_range (base len : u64) (p : BusRange * BusDeviceEntry) : bool :=
  (br_base p.1 =? base) && (br_len p.1 =? len).

Definition registry_step (op : bus_op) (reg : device_map) : bool * device_map :=
  match op with
  | InsertOp e base len =>
      if (uval len =? 0) || existsb (shares base len) reg then (false, reg)
      else (true, (MkBusRange base len, e) :: reg)
  | RemoveOp base len =>
      if negb (uval len =? 0) && existsb (same_range base len) reg
      then (true, List.filter (λ p, negb (same_range base len p)) reg)
      else (false, reg)
  end.

Fixpoint registry_run (ops : list bus_op) (reg : device_map) : list bool * device_map :=
  match ops with
  | [] => ([], reg)
  | op :: ops =>
      let '(b, reg') := registry_step op reg in
      let '(bs, reg'') := registry_run ops reg' in (b :: bs, reg'')
  end.

(** The device an address belongs to, with the offset in it. *)
Definition registry_lookup (reg : device_map) (addr : u64) :
    option (u64 * u64 * BusDeviceEntry) :=
  match List.find (shares addr 1) reg with
  | Some (r, e) => Some (U64 (addr - br_base r), addr, e)
  | None => None
  end.

Definition bus_op_ok (op : bus_op) : Prop :=
  match op with InsertOp _ base _ => base < last_address | RemoveOp _ _ => True end.

Lemma shares_apart base len m :
  0 < len → existsb (shares base len) m = false ↔ apart base len m.
Proof.
  intros Hlen. induction m as [|[r e] m IH]; cbn.
  - split; [|done]. intros _ r e ?%elem_of_nil. done.
  - rewrite orb_false_iff, IH, apart_cons. unfold shares, range_limit. cbn.
    rewrite andb_false_iff, !Z.ltb_ge. intuition lia.
Qed.

Lemma existsb_perm {A} (f : A → bool) l k : l ≡ₚ k → existsb f l = existsb f k.
Proof.
  intros Hp. apply eq_true_iff_eq. rewrite !existsb_exists. setoid_rewrite <-list_elem_of_In.
  by setoid_rewrite Hp.
Qed.

Lemma filter_perm {A} (f : A → bool) l k : l ≡ₚ k → List.filter f l ≡ₚ List.filter f k.
Proof.
  induction 1; cbn; repeat case_match; try constructor; eauto using Permutation.
Qed.

Lemma filter_all {A} (f : A → bool) l : Forall (λ x, f x = true) l → List.filter f l = l.
Proof. induction 1 as [|x l Hx _ IH]; cbn; [done|]. by rewrite Hx, IH. Qed.

(** An exact removal is the filter that drops the range. *)
Lemma filter_delete base len m1 e m2 :
  bus_ok (m1 ++ (MkBusRange base len, e) :: m2) →
  List.filter (λ p, negb (same_range base len p)) (m1 ++ (MkBusRange base len, e) :: m2) = m1 ++ m2.
Proof.
  intros Hok. rewrite List.filter_app. cbn. unfold same_range at 2. cbn. rewrite !Z.eqb_refl. cbn.
  assert (Hother : ∀ r x, (r, x) ∈ m1 ++ m2 → br_base r ≠ base).
  { assert (Hd : disjoint_from 0 (m1 ++ (MkBusRange base len, e) :: m2)) by apply Hok.
    clear Hok. revert Hd. generalize 0. induction m1 as [|[r1 x1] m1 IH]; intros lo; cbn.
    - intros (? & ? & Hd) r x Hin Hb. destruct (disjoint_from_elem _ _ _ _ Hd Hin).
      unfold range_limit in *. cbn in *. rewrite Hb in *. lia.
    - intros (? & ? & Hd) r x [[= -> ->]|Hin]%elem_of_cons; [|by eapply IH].
      destruct (disjoint_from_elem _ _ (MkBusRange base len) e Hd) as [Hlt _];
        [rewrite elem_of_app; right; by left|].
      unfold range_limit in *. cbn in *. intros Hb. rewrite Hb in *. lia. }
  rewrite !filter_all; [done| |]; apply Forall_forall; intros [r x] Hin; unfold same_range; cbn;
    (destruct (Z.eqb_spec (br_base r) base) as [Hb|]; [|done]); apply uint_eq in Hb;
    exfalso; apply (Hother r x); [|done|..]; try done; apply elem_of_app; auto.
Qed.

Lemma same_range_elem base len m :
  existsb (same_range base len) m = true ↔ ∃ e, (MkBusRange base len, e) ∈ m.
Proof.
  rewrite existsb_exists. split.
  - intros ([r e] & Hin%list_elem_of_In & Hs). unfold same_range in Hs. cbn in Hs. zbool.
    exists e. destruct r as [b l]. cbn in *.
    by replace (MkBusRange base len) with (MkBusRange b l) by (f_equal; by apply uint_eq).
  - intros [e Hin]. exists (MkBusRange base len, e). split; [by apply list_elem_of_In|].
    unfold same_range. cbn. by rewrite !Z.eqb_refl.
Qed.

Lemma bus_insert_refines {D} (s : BusState D) reg e (base len : u64) :
  bus_ok (bs_devices s) → bs_devices s ≡ₚ reg → base < last_address →
  ∃ r s', insert_entry e base len s = (r, s') ∧
    (match r with Returns _ => true | _ => false end = (registry_step (InsertOp e base len) reg).1) ∧
    bus_ok (bs_devices s') ∧ bs_devices s' ≡ₚ (registry_step (InsertOp e base len) reg).2.
Proof.
  intros Hok Hp Hb. cbn. rewrite <-(existsb_perm _ _ _ Hp).
  destruct (Z.eqb_spec len 0) as [Hz|Hz]; cbn.
  { rewrite insert_entry_zero by done. eexists _, _. by split_and!. }
  assert (0 < len) by uint_lia.
  destruct (existsb _ _) eqn:Hs.
  - destruct (insert_entry_overlap e base len s) as (ob & ol & ->); try done;
      [|eexists _, _; by split_and!].
    intros Ha. apply shares_apart in Ha; [|done]. congruence.
  - apply shares_apart in Hs; [|done].
    destruct (insert_entry_apart e base len s) as (m & -> & Hm & Hpm); try done.
    eexists _, _. split_and!; try done. cbn. by rewrite Hpm, Hp.
Qed.

Lemma bus_remove_refines {D} (s : BusState D) reg (base len : u64) :
  bus_ok (bs_devices s) → bs_devices s ≡ₚ reg →
  ∃ r s', Bus_remove base len s = (r, s') ∧
    (match r with Returns _ => true | _ => false end = (registry_step (RemoveOp base len) reg).1) ∧
    bus_ok (bs_devices s') ∧ bs_devices s' ≡ₚ (registry_step (RemoveOp base len) reg).2.
Proof.
  intros Hok Hp. cbn. rewrite <-(existsb_perm _ _ _ Hp). unfold Bus_remove.
  destruct (Z.eqb_spec len 0) as [Hz|Hz]; cbn; [eexists _, _; by split_and!|].
  run_prog. fold (same_range base len).
  destruct (existsb _ _) eqn:Hs; [|eexists _, _; by split_and!].
  apply same_range_elem in Hs as [e Hin].
  destruct (remove_exact base len _ e Hok Hin) as (m1 & m2 & Heq & ->).
  rewrite Heq in Hok. eexists _, _. split_and!; cbn; [done..|by eapply bus_ok_delete|].
  rewrite <-(filter_perm _ _ _ Hp), Heq, filter_delete by done. done.
Qed.

Lemma bus_op_refines {D} (s : BusState D) reg op :
  bus_ok (bs_devices s) → bs_devices s ≡ₚ reg → bus_op_ok op →
  ∃ r s', bus_op_exec op s = (r, s') ∧
    (match r with Returns _ => true | _ => false end = (registry_step op reg).1) ∧
    bus_ok (bs_devices s') ∧ bs_devices s' ≡ₚ (registry_step op reg).2.
Proof.
  intros Hok Hp Hop. destruct op as [[p|p] base len|base len]; cbn [bus_op_exec].
  - by apply bus_insert_refines.
  - by apply bus_insert_refines.
  - by apply bus_remove_refines.
Qed.

Lemma bus_run_refines {D} ops (s : BusState D) reg :
  Forall bus_op_ok ops → bus_ok (bs_devices s) → bs_devices s ≡ₚ reg →
  (bus_run ops s).1 = (registry_run ops reg).1 ∧
  bus_ok (bs_devices (bus_run ops s).2) ∧
  bs_devices (bus_run ops s).2 ≡ₚ (registry_run ops reg).2.
Proof.
  revert s reg. induction ops as [|op ops IH]; intros s reg Hops Hok Hp; cbn; [done|].
  apply Forall_cons in Hops as [Hop Hops].
  destruct (bus_op_refines s reg op Hok Hp Hop) as (r & s' & -> & Hr & Hok' & Hp').
  destruct (registry_step op reg) as [b reg']. cbn in Hr, Hp'.
  destruct (IH s' reg' Hops Hok' Hp') as (H1 & H2 & H3).
  destruct (bus_run ops s') as [rs s2], (registry_run ops reg') as [bs reg2]. cbn in *.
  by rewrite Hr, H1.
Qed.

Lemma registry_lookup_spec m reg addr :
  bus_wf m → m ≡ₚ reg → get_device addr m = Some (registry_lookup reg addr).
Proof.
  intros Hm Hp. unfold registry_lookup.
  destruct (List.find (shares addr 1) reg) as [[r e]|] eqn:Hf.
  - apply List.find_some in Hf as [Hin%list_elem_of_In Hs]. unfold shares in Hs. cbn in Hs. zbool.
    apply (get_device_owner 0); [done|]. split; [by rewrite Hp|]. unfold range_limit. lia.
  - apply get_device_none. intros r e [Hin Ha]. rewrite Hp in Hin.
    pose proof (List.find_none _ _ Hf (r, e)) as Hn. rewrite <-list_elem_of_In in Hn.
    specialize (Hn Hin). unfold shares, range_limit in *. cbn in Hn. zbool. lia.
Qed.

(** C26. A bus is its registry: after any sequence of insertions and removals, no
    range inserted at the last address, the operations that succeeded are those
    the registry accepts (a range that is not empty and shares no address with
    another; a range that is there), and looking an address up, as every read
    and write does, finds the device of the only range that contains it with the
    offset from its base, or nothing if there is none. *)
Theorem bus_refines_registry {D} (store : gmap nat D) (ops : list bus_op) :
  Forall bus_op_ok ops →
  (bus_run ops (MkBusState [] store)).1 = (registry_run ops []).1 ∧
  ∀ addr, get_device addr (bs_devices (bus_run ops (MkBusState [] store)).2) =
    Some (registry_lookup (registry_run ops []).2 addr).
Proof.
  intros Hops.
  destruct (bus_run_refines ops (MkBusState [] store) [] Hops) as (Hr & [Hwf _] & Hp); [|done|].
  { by split; [|constructor]. }
  split; [done|]. intros addr. by apply registry_lookup_spec.
Qed.

Definition registry_example : list bus_op :=
  [InsertOp (OuterSync 1) (U64 16) (U64 16); InsertOp (OuterSync 2) (U64 15) (U64 16);
   InsertOp (InnerSync 3) (U64 32) (U64 5); RemoveOp (U64 16) (U64 16);
   InsertOp (OuterSync 4) (U64 0) (U64 32)].

Lemma bus_refines_registry_witness :
  (bus_run registry_example (MkBusState [] (∅ : gmap nat ()))).1 = [true; false; true; true; true] ∧
  get_device (U64 33) (bs_devices (bus_run registry_example (MkBusState [] (∅ : gmap nat ()))).2) =
    Some (Some (U64 1, U64 33, InnerSync 3)).
Proof.
  destruct (bus_refines_registry (∅ : gmap nat ()) registry_example) as [H1 H2].
  { repeat constructor. }
  split; [rewrite H1|rewrite H2]; by vm_compute.
Defined.

(** ** The last address *)

(** At the last address the check for overlaps fails: a device at [base =
    u64::MAX] is inserted over a device that owns that address, and inserting
    there again reports an overlap although the old device has been replaced. *)
Theorem bus_last_address {D} (store : gmap nat D) (p q p' : nat) :
  let top := U64 last_address in
  let s0 := MkBusState [] store in
  let s1 := (Bus_insert p (U64 (last_address - 1)) (U64 2) s0).2 in
  let s2 := (Bus_insert q top (U64 1) s1).2 in
  let s3 := (Bus_insert p' top (U64 1) s2).2 in
  (Bus_insert q top (U64 1) s1).1 = Returns () ∧
  get_device top (bs_devices s1) = Some (Some (U64 1, top, OuterSync p)) ∧
  get_device top (bs_devices s2) = Some (Some (U64 0, top, OuterSync q)) ∧
  (Bus_insert p' top (U64 1) s2).1 = Throws (BusOverlap top (U64 1) top (U64 1)) ∧
  get_device top (bs_devices s3) = Some (Some (U64 0, top, OuterSync p')).
Proof.
  cbv zeta. split_and!; by vm_compute.
Qed.

(** ** Keys of snapshots *)

(** Strings without a dash. *)
Fixpoint dash_free (s : string) : bool :=
  match s with
  | EmptyString => true
  | String a s => negb (bool_decide (a = dash)) && dash_free s
  end.

Lemma pretty_N_go_dash_free x s : dash_free s = true → dash_free (pretty_N_go x s) = true.
Proof.
  revert s. induction (N.lt_wf_0 x) as [x _ IH]; intros s Hs.
  assert (x = 0 ∨ 0 < x)%N as [->|Hx] by lia; [by rewrite pretty_N_go_0|].
  rewrite pretty_N_go_step by done. apply IH; [by apply N.div_lt|].
  cbn. rewrite Hs, andb_true_r. unfold pretty_N_char. by repeat case_match.
Qed.

Lemma pretty_dash_free (n : N) : dash_free (pretty n) = true.
Proof. unfold pretty, pretty_N. case_decide; [done|]. by apply pretty_N_go_dash_free. Qed.

Lemma dash_free_app_dash l p : dash_free (l +:+ String dash p) = false.
Proof.
  induction l as [|a l IH]; [done|].
  change (negb (bool_decide (a = dash)) && dash_free (l +:+ String dash p) = false).
  rewrite IH. apply andb_false_r.
Qed.

Lemma dash_split_inj l1 l2 p1 p2 :
  dash_free p1 = true → dash_free p2 = true →
  l1 +:+ String dash p1 = l2 +:+ String dash p2 → l1 = l2 ∧ p1 = p2.
Proof.
  intros H1 H2. revert l2. induction l1 as [|a l1 IH]; intros [|b l2] Heq.
  - by injection Heq.
  - assert (p1 = l2 +:+ String dash p2) as -> by (by injection Heq).
    by rewrite dash_free_app_dash in H1.
  - assert (p2 = l1 +:+ String dash p1) as -> by (by injection Heq).
    by rewrite dash_free_app_dash in H2.
  - injection Heq as -> Heq. by destruct (IH l2 Heq) as [-> ->].
Qed.

Lemma snapshot_key_inj l1 n1 l2 n2 :
  snapshot_key l1 n1 = snapshot_key l2 n2 → l1 = l2 ∧ n1 = n2.
Proof.
  intros Heq. apply (dash_split_inj l1 l2 (pretty n1) (pretty n2)) in Heq as [-> Hn];
    [|apply pretty_dash_free..]. by apply (inj pretty) in Hn.
Qed.

(** The counters only grow, so a key that was given is not given again. *)
Lemma snapshot_keys_fresh ids label l key e :
  (key, e) ∈ snapshot_keys ids label l →
  ∃ lb n, key = snapshot_key lb n ∧ (default 0 (ids !! lb) <= n)%N.
Proof.
  revert ids. induction l as [|x l IH]; intros ids; cbn; [by intros ?%elem_of_nil|].
  set (lb := dash_whitespace (label (entry_ptr x))).
  intros [[= -> ->]|Hin]%elem_of_cons; [by eexists _, _|].
  destruct (IH _ Hin) as (lb' & n & -> & Hn). eexists _, _. split; [done|].
  destruct (decide (lb = lb')) as [<-|].
  - rewrite lookup_insert_eq in Hn. cbn in Hn. lia.
  - by rewrite lookup_insert_ne in Hn.
Qed.

Lemma snapshot_keys_nodup ids label l : NoDup (map fst (snapshot_keys ids label l)).
Proof.
  revert ids. induction l as [|x l IH]; intros ids; cbn; [constructor|].
  constructor; [|apply IH]. rewrite list_elem_of_fmap. intros ([key e] & Heq & Hin). cbn in Heq.
  apply snapshot_keys_fresh in Hin as (lb & n & -> & Hn).
  apply snapshot_key_inj in Heq as [<- <-]. rewrite lookup_insert_eq in Hn. cbn in Hn. lia.
Qed.

Lemma snapshot_keys_entries ids label l : map snd (snapshot_keys ids label l) = l.
Proof. revert ids. induction l as [|x l IH]; intros ids; cbn; [done|]. by rewrite IH. Qed.

Lemma dedup_nodup seen l :
  NoDup (map entry_ptr (dedup seen l)) ∧ ∀ e, e ∈ dedup seen l → entry_ptr e ∉ seen.
Proof.
  revert seen. induction l as [|x l IH]; intros seen; cbn.
  { split; [constructor|]. by intros e ?%elem_of_nil. }
  case_bool_decide as Hx; [apply IH|]. destruct (IH (entry_ptr x :: seen)) as [H1 H2]. split.
  - cbn. constructor; [|done]. rewrite list_elem_of_fmap. intros (e & Heq & He).
    apply (H2 e He). rewrite <-Heq. by left.
  - intros e [->|He]%elem_of_cons; [done|]. intros Hs. apply (H2 e He). by right.
Qed.

Lemma dedup_complete seen l e :
  e ∈ l → entry_ptr e ∈ seen ∨ entry_ptr e ∈ map entry_ptr (dedup seen l).
Proof.
  revert seen. induction l as [|x l IH]; intros seen; cbn; [by intros ?%elem_of_nil|].
  intros [->|Hin]%elem_of_cons; case_bool_decide; cbn; try set_solver.
  destruct (IH (entry_ptr x :: seen) Hin) as [[Heq|?]%elem_of_cons|?]; [rewrite Heq|..];
    set_solver.
Qed.

Lemma snapshot_keys_ext ids f g l :
  (∀ e, e ∈ l → f (entry_ptr e) = g (entry_ptr e)) →
  snapshot_keys ids f l = snapshot_keys ids g l.
Proof.
  revert ids. induction l as [|x l IH]; intros ids Heq; cbn; [done|].
  rewrite (Heq x) by (by left). f_equal. apply IH. intros e He. apply Heq. by right.
Qed.

(** ** Fragments *)

(** A name for a file in a directory. *)
Fixpoint slash_free (s : string) : bool :=
  match s with
  | EmptyString => true
  | String a s => negb (bool_decide (a = slash)) && slash_free s
  end.
Definition plain (name : string) : Prop := slash_free name = true ∧ name ∉ [""; "."; ".."]%string.

Lemma slash_free_app s t : slash_free (s +:+ t) = slash_free s && slash_free t.
Proof.
  induction s as [|a s IH]; [done|].
  change (slash_free (String a s +:+ t)) with (negb (bool_decide (a = slash)) && slash_free (s +:+ t)).
  rewrite IH. cbn. by rewrite andb_assoc.
Qed.

Lemma pretty_N_go_slash_free x s : slash_free s = true → slash_free (pretty_N_go x s) = true.
Proof.
  revert s. induction (N.lt_wf_0 x) as [x _ IH]; intros s Hs.
  assert (x = 0 ∨ 0 < x)%N as [->|Hx] by lia; [by rewrite pretty_N_go_0|].
  rewrite pretty_N_go_step by done. apply IH; [by apply N.div_lt|].
  cbn. rewrite Hs, andb_true_r. unfold pretty_N_char. by repeat case_match.
Qed.

Lemma pretty_slash_free (n : N) : slash_free (pretty n) = true.
Proof. unfold pretty, pretty_N. case_decide; [done|]. by apply pretty_N_go_slash_free. Qed.

Lemma dash_whitespace_slash_free s : slash_free s = true → slash_free (dash_whitespace s) = true.
Proof.
  remember (String.length s) as n eqn:Hn. assert (String.length s <= n)%nat as Hle by lia. clear Hn. revert s Hle.
  induction n as [|n IH]; intros [|a s1] Hle Hs; try done; [cbn in Hle; lia|].
  cbn [slash_free] in Hs. apply andb_true_iff in Hs as [Ha Hs1]. cbn [dash_whitespace String.length] in *.
  case_match; [cbn; apply IH; [lia|done]|].
  destruct s1 as [|b s2]; [change (negb (bool_decide (a = slash)) && true = true); by rewrite Ha|].
  cbn [String.length] in Hle.
  pose proof Hs1 as Hs2. cbn [slash_free] in Hs2. apply andb_true_iff in Hs2 as [_ Hs2].
  assert (slash_free (String a (dash_whitespace (String b s2))) = true) as Hkeep.
  { cbn [slash_free]. rewrite Ha. apply IH; [cbn; lia|done]. }
  case_match; [cbn; apply IH; [lia|done]|]. destruct s2 as [|c s3]; [exact Hkeep|].
  cbn [String.length] in Hle. cbn [slash_free] in Hs2. apply andb_true_iff in Hs2 as [_ Hs3].
  case_match; [cbn; apply IH; [lia|done]|exact Hkeep].
Qed.

Lemma snapshot_key_plain label n : slash_free label = true → plain (snapshot_key label n).
Proof.
  intros Hl. unfold snapshot_key, plain. split.
  - rewrite !slash_free_app, Hl, pretty_slash_free. done.
  - intros Hin. pose proof (dash_free_app_dash label (pretty n)) as Hd.
    change (label +:+ String dash (pretty n)) with (label +:+ "-" +:+ pretty n) in Hd.
    rewrite !elem_of_cons in Hin.
    destruct Hin as [Heq|[Heq|[Heq|[]%not_elem_of_nil]]]; rewrite Heq in Hd; done.
Qed.

(** What the files of a directory hold: a value, or something else.  [snap_faults] counts
    the calls that failed although the files are as they should be. *)
Class SnapshotView (K V : Type) := {
  files : K → string → gmap string (option V);
  snap_faults : K → nat
}.

(** The calls on files with a plain name in a directory. *)
Class SnapshotLaws (K V : Type) `{SnapshotHost K V} `{SnapshotView K V} : Prop := {
  create_new_law dir name k r k' :
    plain name → create_new (path_join dir name) k = (r, k') →
    match r with
    | Returns _ => files k dir !! name = None ∧ files k' dir = <[name := None]> (files k dir) ∧
        (snap_faults k <= snap_faults k')%nat
    | Throws _ => (is_Some (files k dir !! name) ∧ (snap_faults k <= snap_faults k')%nat) ∨
        (snap_faults k < snap_faults k')%nat
    | Aborts => False
    end;
  write_json_law dir name v k r k' :
    plain name → files k dir !! name = Some None → write_json (path_join dir name) v k = (r, k') →
    match r with
    | Returns _ => files k' dir = <[name := Some v]> (files k dir) ∧ (snap_faults k <= snap_faults k')%nat
    | Throws _ => (snap_faults k < snap_faults k')%nat
    | Aborts => False
    end;
  open_file_law dir name k r k' :
    plain name → is_Some (files k dir !! name) → open_file (path_join dir name) k = (r, k') →
    match r with
    | Returns _ => files k' dir = files k dir ∧ (snap_faults k <= snap_faults k')%nat
    | Throws _ => (snap_faults k < snap_faults k')%nat
    | Aborts => False
    end;
  parse_json_law dir name v k r k' :
    plain name → files k dir !! name = Some (Some v) → parse_json (path_join dir name) k = (r, k') →
    match r with
    | Returns v' => v' = v ∧ files k' dir = files k dir ∧ (snap_faults k <= snap_faults k')%nat
    | Throws _ => (snap_faults k < snap_faults k')%nat
    | Aborts => False
    end;
  read_dir_law dir k r k' :
    read_dir dir k = (r, k') →
    match r with
    | Returns _ => files k' dir = files k dir ∧ (snap_faults k <= snap_faults k')%nat
    | Throws _ => (snap_faults k < snap_faults k')%nat
    | Aborts => False
    end
}.

Section fragments.
Context {K V : Type} `{SnapshotLaws K V}.

Lemma write_fragment_spec dir name v k r k' :
  plain name → files k dir !! name = None → write_fragment (MkSnapshotWriter dir false) name v k = (r, k') →
  match r with
  | Returns _ => files k' dir = <[name := Some v]> (files k dir) ∧ (snap_faults k <= snap_faults k')%nat
  | Throws _ => (snap_faults k < snap_faults k')%nat
  | Aborts => False
  end.
Proof.
  intros Hp Hno. unfold write_fragment, writer_raw_fragment, mbind, prog_bind. cbn [sw_dir sw_key].
  destruct (create_new _ k) as [o k1] eqn:E. apply (create_new_law _ _ _ _ _ Hp) in E.
  destruct o as [[]|e|]; [| |done].
  - destruct E as (_ & Hf & Hm). cbn. intros Hw. apply (write_json_law dir name) in Hw; [|done|by rewrite Hf, lookup_insert_eq].
    destruct r as [[]|e|]; [|lia|done]. destruct Hw as [-> Hm']. rewrite Hf, insert_insert_eq. split; [done|lia].
  - intros [= <- <-]. destruct E as [[[x Hx] _]|Hlt]; [congruence|done].
Qed.

Lemma read_fragment_spec dir name v k r k' :
  plain name → files k dir !! name = Some (Some v) → read_fragment (MkSnapshotReader dir false) name k = (r, k') →
  match r with
  | Returns v' => v' = v ∧ files k' dir = files k dir ∧ (snap_faults k <= snap_faults k')%nat
  | Throws _ => (snap_faults k < snap_faults k')%nat
  | Aborts => False
  end.
Proof.
  intros Hp Hv. unfold read_fragment, reader_raw_fragment, mbind, prog_bind. cbn [sr_dir sr_key].
  destruct (open_file _ k) as [o k1] eqn:E. apply (open_file_law dir name) in E; [|done|by eexists].
  destruct o as [[]|e|]; [|by intros [= <- <-]|done]. destruct E as [Hf Hm]. cbn. intros Hr.
  apply (parse_json_law dir name v) in Hr; [|done|by rewrite Hf].
  destruct r as [v'|e|]; [|lia|done]. destruct Hr as (-> & -> & Hm'). split; [done|]. split; [done|lia].
Qed.
End fragments.

(** ** Snapshots *)

Section suspend.
Context {K D V : Type} `{BusDevice D V} `{SnapshotLaws K V}.
Implicit Types (s : BusState D) (k : K) (e : BusDeviceEntry).

(** The methods of the device of an entry. *)
Definition take_image e : prog D string V := match e with OuterSync _ => dev_snapshot | InnerSync _ => sync_snapshot end.
Definition give_image e (v : V) : prog D string () :=
  match e with OuterSync _ => dev_restore v | InnerSync _ => sync_restore v end.

(** A method of the device of [e] ends in [o]. *)
Definition device_ends {A} (m : prog D string A) s e (o : outcome string A) : Prop :=
  ∃ d d', bs_store s !! entry_ptr e = Some d ∧ m d = (o, d').

(** The device of [e] was changed from [s] to [s'] by a method that returned [a]. *)
Definition device_ran {A} (m : prog D string A) (a : A) s s' e : Prop :=
  ∃ d d', bs_store s !! entry_ptr e = Some d ∧ m d = (Returns a, d') ∧ bs_store s' !! entry_ptr e = Some d'.

Lemma on_device_run {A} (m : prog D string A) s p d :
  bs_store s !! p = Some d →
  on_device p m s = ((m d).1, MkBusState (bs_devices s) (<[p := (m d).2]> (bs_store s))).
Proof. intros Hd. unfold on_device. rewrite Hd. by destruct (m d). Qed.

(** One step of the loop of [snapshot_devices], and of the one of [restore_devices]. *)
Definition snapshot_one (w : SnapshotWriter) : string * BusDeviceEntry → prog (BusState D * K) string () := λ '(key, e),
  v ← zoom fst (λ s p, (s, p.2))
        (match e with OuterSync p => on_device p dev_snapshot | InnerSync p => on_device p sync_snapshot end);
  zoom snd (λ k p, (p.1, k)) (write_fragment w key v).
Definition restore_one (r : SnapshotReader) : string * BusDeviceEntry → prog (BusState D * K) string () := λ '(key, e),
  v ← zoom snd (λ k p, (p.1, k)) (read_fragment r key);
  zoom fst (λ s p, (s, p.2))
    (match e with OuterSync p => on_device p (dev_restore v) | InnerSync p => on_device p (sync_restore v) end).

Lemma snapshot_one_run w key e s k d :
  bs_store s !! entry_ptr e = Some d →
  snapshot_one w (key, e) (s, k) =
  let s1 := MkBusState (bs_devices s) (<[entry_ptr e := (take_image e d).2]> (bs_store s)) in
  match (take_image e d).1 with
  | Returns v => let '(r, k') := write_fragment w key v k in (r, (s1, k'))
  | Throws x => (Throws x, (s1, k))
  | Aborts => (Aborts, (s1, k))
  end.
Proof.
  intros Hd. unfold snapshot_one, mbind, prog_bind, zoom. cbn [fst snd].
  destruct e as [p|p]; cbn [entry_ptr take_image] in *; rewrite (on_device_run _ s p d Hd); cbn [fst snd];
    [destruct (dev_snapshot d) as [[v|x|] d']|destruct (sync_snapshot d) as [[v|x|] d']]; cbn; try done;
    by destruct (write_fragment w key v k).
Qed.

Lemma restore_one_run r key e s k d :
  bs_store s !! entry_ptr e = Some d →
  restore_one r (key, e) (s, k) =
  match read_fragment r key k with
  | (Returns v, k') => ((give_image e v d).1, (MkBusState (bs_devices s) (<[entry_ptr e := (give_image e v d).2]> (bs_store s)), k'))
  | (Throws x, k') => (Throws x, (s, k'))
  | (Aborts, k') => (Aborts, (s, k'))
  end.
Proof.
  intros Hd. unfold restore_one, mbind, prog_bind, zoom. cbn [fst snd].
  destruct (read_fragment r key k) as [[v|x|] k']; [|done..].
  destruct e as [p|p]; cbn [entry_ptr give_image fst snd] in *; by rewrite (on_device_run _ s p d Hd).
Qed.

(** How the loop over the keys [l] of [snapshot_devices] ends. *)
Definition snapshot_ends dir s k (l : list (string * BusDeviceEntry)) (o : outcome string ()) s1 k1 : Prop :=
  match o with
  | Returns _ =>
      (∀ key e, (key, e) ∈ l → ∃ v, device_ran (take_image e) v s s1 e ∧ files k1 dir !! key = Some (Some v)) ∧
      (∀ p, p ∉ map entry_ptr (map snd l) → bs_store s1 !! p = bs_store s !! p) ∧
      (∀ key, key ∉ map fst l → files k1 dir !! key = files k dir !! key)
  | Throws _ => (snap_faults k < snap_faults k1)%nat ∨ ∃ key e x, (key, e) ∈ l ∧ device_ends (take_image e) s e (Throws x)
  | Aborts => ∃ key e, (key, e) ∈ l ∧ device_ends (take_image e) s e Aborts
  end.

Lemma ptr_in (l : list (string * BusDeviceEntry)) key e : (key, e) ∈ l → entry_ptr e ∈ map entry_ptr (map snd l).
Proof. intros Hin. exact (list_elem_of_fmap_2 entry_ptr _ _ (list_elem_of_fmap_2 snd _ _ Hin)). Qed.
Lemma key_in (l : list (string * BusDeviceEntry)) key e : (key, e) ∈ l → key ∈ map fst l.
Proof. intros Hin. exact (list_elem_of_fmap_2 fst _ _ Hin). Qed.

Lemma snapshot_loop dir l : ∀ s k,
  NoDup (map fst l) → NoDup (map entry_ptr (map snd l)) → (∀ key, key ∈ map fst l → plain key ∧ files k dir !! key = None) →
  (∀ key e, (key, e) ∈ l → is_Some (bs_store s !! entry_ptr e)) →
  ∃ o s1 k1, for_devices (snapshot_one (MkSnapshotWriter dir false)) l (s, k) = (o, (s1, k1)) ∧
    snapshot_ends dir s k l o s1 k1.
Proof.
  induction l as [|[key e] l IH]; intros s k Hnd Hnp Hnew Hlive; cbn [for_devices].
  { exists (Returns ()), s, k. split; [done|]. split; [by intros key e ?%elem_of_nil|done]. }
  apply NoDup_cons in Hnd as [Hkey Hnd]. apply NoDup_cons in Hnp as [Hptr Hnp]. cbn [fst snd] in Hkey, Hptr.
  destruct (Hlive key e) as [d Hd]; [by left|]. destruct (Hnew key) as [Hpl Hno]; [by left|].
  unfold mbind, prog_bind. rewrite (snapshot_one_run _ key e s k d Hd). cbv zeta.
  destruct (take_image e d) as [[v|x|] d'] eqn:Ht; cbn [fst snd].
  2: { eexists _, _, _. split; [done|]. right. exists key, e, x. split; [by left|]. by exists d, d'. }
  2: { eexists _, _, _. split; [done|]. exists key, e. split; [by left|]. by exists d, d'. }
  set (s1 := MkBusState _ _). destruct (write_fragment _ key v k) as [o k1] eqn:Ew.
  apply (write_fragment_spec dir) in Ew; [|done|done]. destruct o as [[]|x|]; [| |done].
  2: { eexists _, _, _. split; [done|]. by left. }
  destruct Ew as [Hf Hm].
  destruct (IH s1 k1 Hnd Hnp) as (o & s2 & k2 & Hrun & Hends).
  - intros key' Hin. destruct (Hnew key') as [Hpl' Hno']; [by right|]. split; [done|].
    rewrite Hf, lookup_insert_ne; [done|]. by intros ->.
  - intros key' e' Hin. cbn. destruct (decide (entry_ptr e = entry_ptr e')) as [->|Hne].
    + rewrite lookup_insert_eq. by eexists.
    + rewrite lookup_insert_ne by done. apply (Hlive key'). by right.
  - exists o, s2, k2. split; [done|].
    assert (∀ key' e', (key', e') ∈ l → bs_store s1 !! entry_ptr e' = bs_store s !! entry_ptr e') as Hsame.
    { intros key' e' Hin. cbn. rewrite lookup_insert_ne; [done|]. intros Heq. apply Hptr. rewrite Heq. by eapply ptr_in. }
    destruct o as [[]|x|]; cbn in Hends |- *.
    + destruct Hends as (Hall & Hp & Hk). split; [|split].
      * intros key' e' [[= -> ->]|Hin]%elem_of_cons.
        -- exists v. split; [exists d, d'; split; [done|]; split; [done|]; rewrite Hp by done; cbn; by rewrite lookup_insert_eq|].
           rewrite Hk by done. by rewrite Hf, lookup_insert_eq.
        -- destruct (Hall key' e' Hin) as (v' & (d1 & d2 & Hd1 & Hrn & Hd2) & Hfile). exists v'. split; [|done].
           exists d1, d2. by rewrite <- (Hsame key' e' Hin).
      * intros p [Hne Hni]%not_elem_of_cons. rewrite Hp by done. cbn. by rewrite lookup_insert_ne.
      * intros key' [Hne Hni]%not_elem_of_cons. rewrite Hk by done. by rewrite Hf, lookup_insert_ne.
    + destruct Hends as [Hlt|(key' & e' & y & Hin & d1 & d2 & Hd1 & Hrn)]; [left; lia|right].
      exists key', e', y. split; [by right|]. exists d1, d2. by rewrite <- (Hsame key' e' Hin).
    + destruct Hends as (key' & e' & Hin & d1 & d2 & Hd1 & Hrn). exists key', e'. split; [by right|].
      exists d1, d2. by rewrite <- (Hsame key' e' Hin).
Qed.

(** How the loop of [restore_devices] ends, if the fragments hold the values [val]. *)
Definition restore_ends s k (l : list (string * BusDeviceEntry)) (val : BusDeviceEntry → V → Prop)
    (o : outcome string ()) s1 k1 : Prop :=
  match o with
  | Returns _ => (∀ key e, (key, e) ∈ l → ∃ v, val e v ∧ device_ran (give_image e v) () s s1 e) ∧
      (∀ p, p ∉ map entry_ptr (map snd l) → bs_store s1 !! p = bs_store s !! p)
  | Throws _ => (snap_faults k < snap_faults k1)%nat ∨
      ∃ key e v x, (key, e) ∈ l ∧ val e v ∧ device_ends (give_image e v) s e (Throws x)
  | Aborts => ∃ key e v, (key, e) ∈ l ∧ val e v ∧ device_ends (give_image e v) s e Aborts
  end.

Lemma restore_loop dir l val : ∀ s k,
  NoDup (map entry_ptr (map snd l)) → (∀ key, key ∈ map fst l → plain key) →
  (∀ key e, (key, e) ∈ l → is_Some (bs_store s !! entry_ptr e) ∧ ∃ v, val e v ∧ files k dir !! key = Some (Some v)) →
  ∃ o s1 k1, for_devices (restore_one (MkSnapshotReader dir false)) l (s, k) = (o, (s1, k1)) ∧ restore_ends s k l val o s1 k1.
Proof.
  induction l as [|[key e] l IH]; intros s k Hnp Hpl Hlive; cbn [for_devices].
  { exists (Returns ()), s, k. split; [done|]. split; [by intros key e ?%elem_of_nil|done]. }
  apply NoDup_cons in Hnp as [Hptr Hnp]. cbn [fst snd] in Hptr.
  destruct (Hlive key e) as ([d Hd] & v & Hv & Hfile); [by left|].
  unfold mbind, prog_bind. rewrite (restore_one_run _ key e s k d Hd).
  destruct (read_fragment _ key k) as [o k1] eqn:Er. apply (read_fragment_spec dir key v) in Er; [|apply Hpl; by left|done].
  destruct o as [v'|x|]; [| |done].
  2: { eexists _, _, _. split; [done|]. by left. }
  destruct Er as (-> & Hf & Hm). destruct (give_image e v d) as [[[]|x|] d'] eqn:Eg; cbn [fst snd].
  2: { eexists _, _, _. split; [done|]. right. exists key, e, v, x. split; [by left|]. split; [done|]. by exists d, d'. }
  2: { eexists _, _, _. split; [done|]. exists key, e, v. split; [by left|]. split; [done|]. by exists d, d'. }
  set (s1 := MkBusState _ _).
  assert (∀ key' e', (key', e') ∈ l → bs_store s1 !! entry_ptr e' = bs_store s !! entry_ptr e') as Hsame.
  { intros key' e' Hin. cbn. rewrite lookup_insert_ne; [done|]. intros Heq. apply Hptr. rewrite Heq. by eapply ptr_in. }
  destruct (IH s1 k1 Hnp) as (o & s2 & k2 & Hrun & Hends).
  - intros key' Hin. apply Hpl. by right.
  - intros key' e' Hin. rewrite (Hsame key' e' Hin), Hf. apply Hlive. by right.
  - exists o, s2, k2. split; [done|]. destruct o as [[]|x|]; cbn in Hends |- *.
    + destruct Hends as (Hall & Hp). split.
      * intros key' e' [[= -> ->]|Hin]%elem_of_cons.
        -- exists v. split; [done|]. exists d, d'. split; [done|]. split; [done|]. rewrite Hp by done. cbn. by rewrite lookup_insert_eq.
        -- destruct (Hall key' e' Hin) as (v' & Hv' & d1 & d2 & Hd1 & Hrn & Hd2). exists v'. split; [done|].
           exists d1, d2. by rewrite <- (Hsame key' e' Hin).
      * intros p [Hne Hni]%not_elem_of_cons. rewrite Hp by done. cbn. by rewrite lookup_insert_ne.
    + destruct Hends as [Hlt|(key' & e' & v' & y & Hin & Hv' & d1 & d2 & Hd1 & Hrn)]; [left; lia|right].
      exists key', e', v', y. split; [by right|]. split; [done|]. exists d1, d2. by rewrite <- (Hsame key' e' Hin).
    + destruct Hends as (key' & e' & v' & Hin & Hv' & d1 & d2 & Hd1 & Hrn). exists key', e', v'. split; [by right|].
      split; [done|]. exists d1, d2. by rewrite <- (Hsame key' e' Hin).
Qed.

(** The pointers of a bus are not dangling, and the labels have no slash. *)
Definition bus_live s : Prop :=
  ∀ r e, (r, e) ∈ bs_devices s → ∃ d, bs_store s !! entry_ptr e = Some d ∧ slash_free (debug_label d) = true.

(** The same devices at the same places. *)
Definition same_layout s s' : Prop :=
  bs_devices s' = bs_devices s ∧
  ∀ r e d, (r, e) ∈ bs_devices s → bs_store s !! entry_ptr e = Some d →
    ∃ d', bs_store s' !! entry_ptr e = Some d' ∧ debug_label d' = debug_label d.

Lemma unique_elem e m : e ∈ unique_devices m → ∃ r, (r, e) ∈ m.
Proof.
  unfold unique_devices. intros He. assert (Hin : e ∈ map snd m).
  { revert He. generalize (@nil nat). generalize (map snd m) as l.
    induction l as [|x l IH]; intros seen; cbn; [done|]. case_bool_decide; [by right; eauto|].
    intros [->|?]%elem_of_cons; [by left|right; eauto]. }
  apply list_elem_of_fmap in Hin as ([r x] & -> & Hin). by exists r.
Qed.

Lemma snapshot_keys_plain ids label l :
  (∀ e, e ∈ l → slash_free (label (entry_ptr e)) = true) → ∀ key, key ∈ map fst (snapshot_keys ids label l) → plain key.
Proof.
  revert ids. induction l as [|x l IH]; intros ids Hl key; cbn; [by intros ?%elem_of_nil|].
  intros [->|Hin]%elem_of_cons; [|eapply IH; [|exact Hin]; intros e He; apply Hl; by right].
  apply snapshot_key_plain, dash_whitespace_slash_free, Hl. by left.
Qed.

Lemma same_layout_keys s s' :
  bus_live s → same_layout s s' → unique_devices_with_snapshot_key s' = unique_devices_with_snapshot_key s.
Proof.
  intros Hlive [Hm Hlab]. unfold unique_devices_with_snapshot_key. rewrite Hm. apply snapshot_keys_ext.
  intros e [r Hin]%unique_elem. unfold label_of. destruct (Hlive r e Hin) as (d & Hd & _).
  destruct (Hlab r e d Hin Hd) as (d' & -> & Heq). by rewrite Hd.
Qed.

(** C36. A snapshot of a bus, in an empty directory and without encryption, of devices
    whose labels have no slash: it fails only if the host or the snapshot of a device
    fails, never because two devices have the same key, and takes the snapshot of every
    device once.  Restoring it into a bus with the same layout and labels, from the files
    as they are, hands every device the value that the snapshot of that device returned,
    and fails only if the host or a device that was handed its value fails. *)
Theorem snapshot_restore_roundtrip s k dir :
  bus_live s → files k dir = ∅ →
  ∃ o s1 k1, snapshot_devices (MkSnapshotWriter dir false) (s, k) = (o, (s1, k1)) ∧
    match o with
    | Throws _ => (snap_faults k < snap_faults k1)%nat ∨
        ∃ e x, e ∈ unique_devices (bs_devices s) ∧ device_ends (take_image e) s e (Throws x)
    | Aborts => ∃ e, e ∈ unique_devices (bs_devices s) ∧ device_ends (take_image e) s e Aborts
    | Returns _ =>
        (∀ e, e ∈ unique_devices (bs_devices s) → ∃ v, device_ran (take_image e) v s s1 e) ∧
        ∀ s' k', same_layout s s' → files k' dir = files k1 dir →
          ∃ o' s2 k2, restore_devices (MkSnapshotReader dir false) (s', k') = (o', (s2, k2)) ∧
            match o' with
            | Returns _ => ∀ e, e ∈ unique_devices (bs_devices s) →
                ∃ v, device_ran (take_image e) v s s1 e ∧ device_ran (give_image e v) () s' s2 e
            | Throws _ => (snap_faults k' < snap_faults k2)%nat ∨
                ∃ e v x, e ∈ unique_devices (bs_devices s) ∧ device_ran (take_image e) v s s1 e ∧
                  device_ends (give_image e v) s' e (Throws x)
            | Aborts => ∃ e v, e ∈ unique_devices (bs_devices s) ∧ device_ran (take_image e) v s s1 e ∧
                device_ends (give_image e v) s' e Aborts
            end
    end.
Proof.
  intros Hlive Hempty. set (l := unique_devices_with_snapshot_key s).
  assert (Hl : map snd l = unique_devices (bs_devices s)) by apply snapshot_keys_entries.
  assert (Hun : ∀ key e, (key, e) ∈ l → e ∈ unique_devices (bs_devices s)).
  { intros key e Hin. rewrite <-Hl. by apply (list_elem_of_fmap_2 snd) in Hin. }
  assert (Hkey : ∀ e, e ∈ unique_devices (bs_devices s) → ∃ key, (key, e) ∈ l).
  { intros e He. rewrite <-Hl in He. apply list_elem_of_fmap in He as ([key x] & -> & Hin). by exists key. }
  assert (Hnp : NoDup (map entry_ptr (map snd l))) by (rewrite Hl; apply dedup_nodup).
  assert (Hplain : ∀ key, key ∈ map fst l → plain key).
  { apply snapshot_keys_plain. intros e [r Hin]%unique_elem. unfold label_of. by destruct (Hlive r e Hin) as (d & -> & Hd). }
  destruct (snapshot_loop dir l s k) as (o & s1 & k1 & Hsnap & Hends);
    [apply snapshot_keys_nodup|done|by intros key Hin; rewrite Hempty; split; [apply Hplain|]| |].
  { intros key e Hin. apply Hun, unique_elem in Hin as [r Hin]. destruct (Hlive r e Hin) as (d & Hd & _). by eexists. }
  exists o, s1, k1. split; [exact Hsnap|]. destruct o as [[]|x|]; cbn in Hends.
  - destruct Hends as (Hall & _ & _). split.
    { intros e [key Hin]%Hkey. destruct (Hall key e Hin) as (v & Hv & _). by exists v. }
    intros s' k' Hsame Hfiles. unfold restore_devices, mbind, prog_bind, zoom. cbn [fst snd].
    unfold list_fragments. destruct (read_dir _ k') as [o k2] eqn:Ed. apply read_dir_law in Ed.
    destruct o as [names|x|]; [|by eexists _, _, _; split; [done|]; left|done]. destruct Ed as [Hf Hm].
    cbn [sr_dir] in *. cbn. rewrite (same_layout_keys s s' Hlive Hsame). fold l.
    destruct (restore_loop dir l (λ e v, device_ran (take_image e) v s s1 e) s' k2) as (o & s2 & k3 & Hrest & Hre); [done|done| |].
    { intros key e Hin. split; [|destruct (Hall key e Hin) as (v & ? & ?); exists v; by rewrite Hf, Hfiles].
      pose proof Hin as Hin'. apply Hun, unique_elem in Hin' as [r Hr]. destruct (Hlive r e Hr) as (d & Hd & _).
      destruct Hsame as [_ Hlab]. destruct (Hlab r e d Hr Hd) as (d' & Hd' & _). by eexists. }
    exists o, s2, k3. split; [exact Hrest|]. destruct o as [[]|x|]; cbn in Hre.
    + intros e [key Hin]%Hkey. by destruct (proj1 Hre key e Hin) as (v & ? & ?); exists v.
    + destruct Hre as [Hlt|(key & e & v & y & Hin & Hv & He)]; [left; lia|right]. exists e, v, y. split; [by eapply Hun|done].
    + destruct Hre as (key & e & v & Hin & Hv & He). exists e, v. split; [by eapply Hun|done].
  - destruct Hends as [Hlt|(key & e & y & Hin & He)]; [by left|right]. exists e, y. split; [by eapply Hun|done].
  - destruct Hends as (key & e & Hin & He). exists e. split; [by eapply Hun|done].
Qed.
End suspend.
