(* ===== verification/Pic.v ===== *)
(** * The interrupt controller: [libcrosvm/devices/src/irqchip/pic.rs]

    Two cascaded 8259A controllers.  [PicState] is the structure of
    [libcrosvm/hypervisor/src/x86_64.rs]; the methods of [Pic] are computations
    with the pair of controllers.  The events a method signals are collected in
    the field [signalled]. *)

From S2P Require Import Prelude Checked Bits Bus.

Inductive PicSelect := Primary | Secondary.
Inductive PicInitState := Icw1 | Icw2 | Icw3 | Icw4.

#[global] Instance PicSelect_eq_dec : EqDecision PicSelect.
Proof. solve_decision. Defined.

Record PicState := MkPicState {
  last_irr : u8;
  irr : u8;
  imr : u8;
  isr : u8;
  priority_add : u8;
  irq_base : u8;
  read_reg_select : bool;
  poll : bool;
  special_mask : bool;
  init_state : PicInitState;
  auto_eoi : bool;
  rotate_on_auto_eoi : bool;
  special_fully_nested_mode : bool;
  use_4_byte_icw : bool;
  elcr : u8;
  elcr_mask : u8
}.

Record Pic := MkPic {
  interrupt_request : bool;
  resample_events : list (list Event);
  primary : PicState;
  secondary : PicState;
  signalled : list Event
}.

(** ** Assignments to fields *)

Section assignments.
Implicit Types (p : PicState) (v : u8) (b : bool).

Definition set_irrs v v' p := MkPicState v' v (imr p) (isr p) (priority_add p) (irq_base p)
  (read_reg_select p) (poll p) (special_mask p) (init_state p) (auto_eoi p)
  (rotate_on_auto_eoi p) (special_fully_nested_mode p) (use_4_byte_icw p) (elcr p) (elcr_mask p).
Definition set_irr v p := set_irrs v (last_irr p) p.
Definition set_last_irr v p := set_irrs (irr p) v p.
Definition set_imr v p := MkPicState (last_irr p) (irr p) v (isr p) (priority_add p) (irq_base p)
  (read_reg_select p) (poll p) (special_mask p) (init_state p) (auto_eoi p)
  (rotate_on_auto_eoi p) (special_fully_nested_mode p) (use_4_byte_icw p) (elcr p) (elcr_mask p).
Definition set_isr v p := MkPicState (last_irr p) (irr p) (imr p) v (priority_add p) (irq_base p)
  (read_reg_select p) (poll p) (special_mask p) (init_state p) (auto_eoi p)
  (rotate_on_auto_eoi p) (special_fully_nested_mode p) (use_4_byte_icw p) (elcr p) (elcr_mask p).
Definition set_priority_add v p := MkPicState (last_irr p) (irr p) (imr p) (isr p) v (irq_base p)
  (read_reg_select p) (poll p) (special_mask p) (init_state p) (auto_eoi p)
  (rotate_on_auto_eoi p) (special_fully_nested_mode p) (use_4_byte_icw p) (elcr p) (elcr_mask p).
Definition set_irq_base v p := MkPicState (last_irr p) (irr p) (imr p) (isr p) (priority_add p) v
  (read_reg_select p) (poll p) (special_mask p) (init_state p) (auto_eoi p)
  (rotate_on_auto_eoi p) (special_fully_nested_mode p) (use_4_byte_icw p) (elcr p) (elcr_mask p).
Definition set_read_reg_select b p := MkPicState (last_irr p) (irr p) (imr p) (isr p)
  (priority_add p) (irq_base p) b (poll p) (special_mask p) (init_state p) (auto_eoi p)
  (rotate_on_auto_eoi p) (special_fully_nested_mode p) (use_4_byte_icw p) (elcr p) (elcr_mask p).
Definition set_poll b p := MkPicState (last_irr p) (irr p) (imr p) (isr p) (priority_add p)
  (irq_base p) (read_reg_select p) b (special_mask p) (init_state p) (auto_eoi p)
  (rotate_on_auto_eoi p) (special_fully_nested_mode p) (use_4_byte_icw p) (elcr p) (elcr_mask p).
Definition set_special_mask b p := MkPicState (last_irr p) (irr p) (imr p) (isr p)
  (priority_add p) (irq_base p) (read_reg_select p) (poll p) b (init_state p) (auto_eoi p)
  (rotate_on_auto_eoi p) (special_fully_nested_mode p) (use_4_byte_icw p) (elcr p) (elcr_mask p).
Definition set_init_state i p := MkPicState (last_irr p) (irr p) (imr p) (isr p) (priority_add p)
  (irq_base p) (read_reg_select p) (poll p) (special_mask p) i (auto_eoi p)
  (rotate_on_auto_eoi p) (special_fully_nested_mode p) (use_4_byte_icw p) (elcr p) (elcr_mask p).
(** The two modes the fourth initialisation word sets. *)
Definition set_modes nested eoi p := MkPicState (last_irr p) (irr p) (imr p) (isr p)
  (priority_add p) (irq_base p) (read_reg_select p) (poll p) (special_mask p) (init_state p) eoi
  (rotate_on_auto_eoi p) nested (use_4_byte_icw p) (elcr p) (elcr_mask p).
Definition set_rotate_on_auto_eoi b p := MkPicState (last_irr p) (irr p) (imr p) (isr p)
  (priority_add p) (irq_base p) (read_reg_select p) (poll p) (special_mask p) (init_state p)
  (auto_eoi p) b (special_fully_nested_mode p) (use_4_byte_icw p) (elcr p) (elcr_mask p).
Definition set_use_4_byte_icw b p := MkPicState (last_irr p) (irr p) (imr p) (isr p)
  (priority_add p) (irq_base p) (read_reg_select p) (poll p) (special_mask p) (init_state p)
  (auto_eoi p) (rotate_on_auto_eoi p) (special_fully_nested_mode p) b (elcr p) (elcr_mask p).
Definition set_elcr v p := MkPicState (last_irr p) (irr p) (imr p) (isr p) (priority_add p)
  (irq_base p) (read_reg_select p) (poll p) (special_mask p) (init_state p) (auto_eoi p)
  (rotate_on_auto_eoi p) (special_fully_nested_mode p) (use_4_byte_icw p) v (elcr_mask p).

End assignments.

(** [self.pics[select]]. *)
Definition pic_at (sel : PicSelect) (s : Pic) : PicState :=
  match sel with Primary => primary s | Secondary => secondary s end.
Definition set_pic_at (sel : PicSelect) (p : PicState) (s : Pic) : Pic :=
  match sel with
  | Primary => MkPic (interrupt_request s) (resample_events s) p (secondary s) (signalled s)
  | Secondary => MkPic (interrupt_request s) (resample_events s) (primary s) p (signalled s)
  end.
Definition set_interrupt_request (b : bool) (s : Pic) : Pic :=
  MkPic b (resample_events s) (primary s) (secondary s) (signalled s).
Definition set_signalled (l : list Event) (s : Pic) : Pic :=
  MkPic (interrupt_request s) (resample_events s) (primary s) (secondary s) l.

(** ** Construction *)

Definition PicState_default : PicState :=
  MkPicState (U8 0) (U8 0) (U8 0) (U8 0) (U8 0) (U8 0) false false false Icw1 false false false
    false (U8 0) (U8 0).

Definition with_elcr_mask (v : u8) (p : PicState) : PicState :=
  MkPicState (last_irr p) (irr p) (imr p) (isr p) (priority_add p) (irq_base p)
    (read_reg_select p) (poll p) (special_mask p) (init_state p) (auto_eoi p)
    (rotate_on_auto_eoi p) (special_fully_nested_mode p) (use_4_byte_icw p) (elcr p) v.

Definition Pic_new : Pic :=
  MkPic false []
    (with_elcr_mask (unot (uor (uor (ubit 0) (ubit 1)) (ubit 2))) PicState_default)
    (with_elcr_mask (unot (uor (ubit 0) (ubit 5))) PicState_default) [].

Definition get_pic_state (sel : PicSelect) (s : Pic) : PicState := pic_at sel s.
Definition set_pic_state (sel : PicSelect) (p : PicState) (s : Pic) : Pic := set_pic_at sel p s.
Definition register_resample_events (evts : list (list Event)) (s : Pic) : Pic :=
  MkPic (interrupt_request s) evts (primary s) (secondary s) (signalled s).

(** ** Lines and priorities *)

Definition PRIMARY_PIC_CASCADE_PIN : u8 := U8 2.
Definition CASCADE_MASK : u8 := U8 4.
Definition SPURIOUS_IRQ : u8 := U8 7.
Definition INVALID_PRIORITY : u8 := U8 8.

(** [set_irq_internal]; [None] is the failure of the assertion. *)
Definition set_irq_internal (irq : u8) (level : bool) (p : PicState) : option PicState :=
  if irq <=? 7 then
    let irq_bitmap := ubit irq in
    Some
      (if negb (uval (uand (elcr p) irq_bitmap) =? 0) then
         if level then set_irrs (uor (irr p) irq_bitmap) (uor (last_irr p) irq_bitmap) p
         else set_irrs (uand (irr p) (unot irq_bitmap)) (uand (last_irr p) (unot irq_bitmap)) p
       else
         if level then
           let p' := if uval (uand (last_irr p) irq_bitmap) =? 0
                     then set_irr (uor (irr p) irq_bitmap) p else p in
           set_last_irr (uor (last_irr p') irq_bitmap) p'
         else set_last_irr (uand (last_irr p) (unot irq_bitmap)) p)
  else None.

(** The loop of [get_priority].  Eight rounds are enough: they test all the bits. *)
Fixpoint priority_loop (fuel : nat) (add irq_bitmap priority : u8) : option u8 :=
  rank ← add_checked priority add;
  if uval (uand irq_bitmap (ubit (Z.land (uval rank) 7))) =? 0 then
    match fuel with
    | O => None
    | S fuel => priority' ← add_checked priority (U8 1); priority_loop fuel add irq_bitmap priority'
    end
  else Some priority.

(** The outer [option] is a panic. *)
Definition get_priority (p : PicState) (irq_bitmap : u8) : option (option u8) :=
  if uval irq_bitmap =? 0 then Some None
  else priority ← priority_loop 8 (priority_add p) irq_bitmap (U8 0); Some (Some priority).

Definition get_irq (sel : PicSelect) (s : Pic) : option (option u8) :=
  let p := pic_at sel s in
  found ← get_priority p (uand (irr p) (unot (imr p)));
  match found with
  | None => Some None
  | Some priority =>
      let irq_bitmap :=
        if bool_decide (sel = Primary) && special_fully_nested_mode p
        then uand (isr p) (unot CASCADE_MASK) else isr p in
      serviced ← get_priority p irq_bitmap;
      let new_priority := default INVALID_PRIORITY serviced in
      if uval priority <? new_priority then
        irq ← add_checked priority (priority_add p); Some (Some (U8 (Z.land (uval irq) 7)))
      else Some None
  end.

(** The methods: they return or panic. *)
Abbreviation Command := (prog Pic Empty_set).

Section pic.
Context `{EventFds}.

Definition update_pic (sel : PicSelect) (f : PicState → PicState) : Command () :=
  s ← get_state; put_state (set_pic_at sel (f (pic_at sel s)) s).

(** [evt.signal().unwrap()] for every event of a list. *)
Fixpoint signal_all (evts : list Event) : Command () :=
  match evts with
  | [] => mret ()
  | e :: evts =>
      if event_accepts e
      then s ← get_state; _ ← put_state (set_signalled (signalled s ++ [e]) s); signal_all evts
      else abort
  end.

Definition clear_isr (sel : PicSelect) (irq : u8) : Command () :=
  s ← get_state;
  if irq <=? 7 then
    let p := set_isr (uand (isr (pic_at sel s)) (unot (ubit irq))) (pic_at sel s) in
    p' ← checked (set_irq_internal irq false p);
    _ ← put_state (set_pic_at sel p' s);
    n ← checked (match sel with Primary => Some irq | Secondary => add_checked irq (U8 8) end);
    match resample_events s !! Z.to_nat (uval n) with
    | Some evts => signal_all evts
    | None => mret ()
    end
  else abort.

(** The second half of [update_irq]. *)
Definition fire_primary : Command bool :=
  s ← get_state;
  fired ← checked (get_irq Primary s);
  match fired with
  | Some _ => _ ← put_state (set_interrupt_request true s); mret true
  | None => mret false
  end.

Definition update_irq : Command bool :=
  s ← get_state;
  pending ← checked (get_irq Secondary s);
  _ ← match pending with
      | Some _ =>
          p ← checked (set_irq_internal PRIMARY_PIC_CASCADE_PIN true (primary s));
          p' ← checked (set_irq_internal PRIMARY_PIC_CASCADE_PIN false p);
          put_state (set_pic_at Primary p' s)
      | None => mret ()
      end;
  fire_primary.

(** A line of one of the controllers changes its level. *)
Definition service_irq (irq : u8) (level : bool) : Command bool :=
  if irq <=? 15 then
    let sel := if irq <=? 7 then Primary else Secondary in
    s ← get_state;
    p ← checked (set_irq_internal (U8 (Z.land irq 7)) level (pic_at sel s));
    _ ← put_state (set_pic_at sel p s);
    update_irq
  else abort.

Definition masked (s : Pic) : bool := uval (imr (primary s)) =? 255.

Definition has_interrupt (s : Pic) : option bool :=
  i ← get_irq Primary s; Some (match i with Some _ => true | None => false end).

Definition interrupt_requested (s : Pic) : bool := interrupt_request s.

(** [self.pics[pic].priority_add = (irq + 1) & 7]. *)
Definition rotate_to (sel : PicSelect) (irq : u8) : Command () :=
  next ← checked (add_checked irq (U8 1));
  update_pic sel (set_priority_add (U8 (Z.land (uval next) 7))).

Definition interrupt_ack (sel : PicSelect) (irq : u8) : Command () :=
  if irq <=? 7 then
    let irq_bitmap := ubit irq in
    _ ← update_pic sel (λ p,
      let p := set_isr (uor (isr p) irq_bitmap) p in
      if uval (uand (elcr p) irq_bitmap) =? 0
      then set_irr (uand (irr p) (unot irq_bitmap)) p else p);
    s ← get_state;
    if auto_eoi (pic_at sel s) then
      _ ← (if rotate_on_auto_eoi (pic_at sel s) then rotate_to sel irq else mret ());
      clear_isr sel irq
    else mret ()
  else abort.

Definition get_external_interrupt : Command (option u8) :=
  s ← get_state;
  _ ← put_state (set_interrupt_request false s);
  found ← checked (get_irq Primary s);
  match found with
  | None => mret None
  | Some irq_primary =>
      _ ← interrupt_ack Primary irq_primary;
      int_num ←
        (if bool_decide (irq_primary = PRIMARY_PIC_CASCADE_PIN) then
           s ← get_state;
           pending ← checked (get_irq Secondary s);
           irq_secondary ← match pending with
                           | Some irq => _ ← interrupt_ack Secondary irq; mret irq
                           | None => mret SPURIOUS_IRQ
                           end;
           s ← get_state;
           checked (add_checked (irq_base (secondary s)) irq_secondary)
         else
           s ← get_state; checked (add_checked (irq_base (primary s)) irq_primary));
      _ ← update_irq;
      mret (Some int_num)
  end.

(** ** Reading registers *)

(** The result and whether [update_irq] is needed. *)
Definition poll_read (sel : PicSelect) : Command (u8 * bool) :=
  s ← get_state;
  found ← checked (get_irq sel s);
  match found with
  | Some irq =>
      _ ← (if bool_decide (sel = Secondary) then
             update_pic Primary (λ p,
               set_irr (uand (irr p) (unot CASCADE_MASK))
                 (set_isr (uand (isr p) (unot CASCADE_MASK)) p))
           else mret ());
      _ ← update_pic sel (λ p, set_irr (uand (irr p) (unot (ubit (uval irq)))) p);
      _ ← clear_isr sel irq;
      mret (irq, bool_decide (sel = Secondary) && negb (bool_decide (irq = PRIMARY_PIC_CASCADE_PIN)))
  | None => mret (SPURIOUS_IRQ, true)
  end.

(** The common part of the two reads in poll mode. *)
Definition read_polled (sel : PicSelect) : Command u8 :=
  '(ret, needed) ← poll_read sel;
  _ ← update_pic sel (set_poll false);
  _ ← (if needed : bool then _ ← update_irq; mret () else mret ());
  mret ret.

Definition pic_read_command (sel : PicSelect) : Command u8 :=
  s ← get_state;
  if poll (pic_at sel s) then read_polled sel
  else if read_reg_select (pic_at sel s) then mret (isr (pic_at sel s))
  else mret (irr (pic_at sel s)).

Definition pic_read_data (sel : PicSelect) : Command u8 :=
  s ← get_state;
  if poll (pic_at sel s) then read_polled sel else mret (imr (pic_at sel s)).

Definition pic_read_elcr (sel : PicSelect) : Command u8 :=
  s ← get_state; mret (elcr (pic_at sel s)).

(** ** Writing registers *)

Fixpoint clear_edges (sel : PicSelect) (edge_irr : u8) (irqs : list Z) : Command () :=
  match irqs with
  | [] => mret ()
  | irq :: irqs =>
      _ ← (if uval (uand edge_irr (ubit irq)) =? 0 then mret () else clear_isr sel (U8 irq));
      clear_edges sel edge_irr irqs
  end.

(** [reset_pic] before the loop over the lines. *)
Definition reset_fields (p : PicState) : PicState :=
  let p := set_irrs (uand (irr p) (elcr p)) (U8 0) p in
  let p := set_read_reg_select false (set_special_mask false
             (set_priority_add (U8 0) (set_imr (U8 0) p))) in
  let p := if use_4_byte_icw p then p else set_modes false false p in
  set_init_state Icw2 p.

Definition reset_pic (sel : PicSelect) : Command () :=
  s ← get_state;
  let p := pic_at sel s in
  let edge_irr := uand (irr p) (unot (elcr p)) in
  _ ← put_state (set_pic_at sel (reset_fields p) s);
  clear_edges sel edge_irr [0; 1; 2; 3; 4; 5; 6; 7].

Definition has_bits (value mask : u8) : bool := negb (uval (uand value mask) =? 0).

Definition init_command_word_1 (sel : PicSelect) (value : u8) : Command () :=
  _ ← update_pic sel (set_use_4_byte_icw (has_bits value (U8 1)));
  reset_pic sel.

Inductive Ocw2 :=
  | RotateAutoEoiClear | NonSpecificEoi | NoOp | SpecificEoi
  | RotateAutoEoiSet | RotateNonSpecificEoi | SetPriority | RotateSpecificEoi.

(** [Ocw2::n]. *)
Definition Ocw2_n (v : u8) : option Ocw2 :=
  match uval v with
  | 0 => Some RotateAutoEoiClear
  | 32 => Some NonSpecificEoi
  | 64 => Some NoOp
  | 96 => Some SpecificEoi
  | 128 => Some RotateAutoEoiSet
  | 160 => Some RotateNonSpecificEoi
  | 192 => Some SetPriority
  | 224 => Some RotateSpecificEoi
  | _ => None
  end.

Definition end_of_interrupt (sel : PicSelect) (irq : u8) : Command () :=
  _ ← clear_isr sel irq; _ ← update_irq; mret ().

Definition non_specific_eoi (sel : PicSelect) (rotate : bool) : Command () :=
  s ← get_state;
  found ← checked (get_priority (pic_at sel s) (isr (pic_at sel s)));
  match found with
  | None => mret ()
  | Some priority =>
      sum ← checked (add_checked priority (priority_add (pic_at sel s)));
      let irq := U8 (Z.land (uval sum) 7) in
      _ ← (if rotate then rotate_to sel irq else mret ());
      end_of_interrupt sel irq
  end.

Definition operation_command_word_2 (sel : PicSelect) (value : u8) : Command () :=
  let irq := uand value (U8 7) in
  match Ocw2_n (uand value (U8 224)) with
  | None => mret ()
  | Some RotateAutoEoiSet => update_pic sel (set_rotate_on_auto_eoi true)
  | Some RotateAutoEoiClear => update_pic sel (set_rotate_on_auto_eoi false)
  | Some NonSpecificEoi => non_specific_eoi sel false
  | Some RotateNonSpecificEoi => non_specific_eoi sel true
  | Some SpecificEoi => end_of_interrupt sel irq
  | Some SetPriority => _ ← rotate_to sel irq; _ ← update_irq; mret ()
  | Some RotateSpecificEoi => _ ← rotate_to sel irq; end_of_interrupt sel irq
  | Some NoOp => mret ()
  end.

Definition operation_command_word_3 (value : u8) (p : PicState) : PicState :=
  let p := if has_bits value (U8 4) then set_poll true p else p in
  let p := if has_bits value (U8 2) then set_read_reg_select (has_bits value (U8 1)) p else p in
  if has_bits value (U8 64) then set_special_mask (has_bits value (U8 32)) p else p.

Definition pic_write_command (sel : PicSelect) (value : u8) : Command () :=
  if has_bits value (U8 16) then init_command_word_1 sel value
  else if has_bits value (U8 8) then update_pic sel (operation_command_word_3 value)
  else operation_command_word_2 sel value.

Definition pic_write_data (sel : PicSelect) (value : u8) : Command () :=
  s ← get_state;
  match init_state (pic_at sel s) with
  | Icw1 => _ ← update_pic sel (set_imr value); _ ← update_irq; mret ()
  | Icw2 => update_pic sel (λ p, set_init_state Icw3 (set_irq_base (uand value (U8 248)) p))
  | Icw3 =>
      update_pic sel (λ p, set_init_state (if use_4_byte_icw p then Icw4 else Icw1) p)
  | Icw4 =>
      update_pic sel (λ p,
        set_init_state Icw1 (set_modes (has_bits value (U8 16)) (has_bits value (U8 2)) p))
  end.

Definition pic_write_elcr (sel : PicSelect) (value : u8) : Command () :=
  update_pic sel (λ p, set_elcr (uand value (unot (elcr p))) p).

(** ** The device on the bus *)

Inductive PicRegister := PicCommand | PicData | PicElcr.

Definition pic_port (address : u64) : option (PicSelect * PicRegister) :=
  match uval address with
  | 0x20 => Some (Primary, PicCommand)
  | 0x21 => Some (Primary, PicData)
  | 0x4d0 => Some (Primary, PicElcr)
  | 0xa0 => Some (Secondary, PicCommand)
  | 0xa1 => Some (Secondary, PicData)
  | 0x4d1 => Some (Secondary, PicElcr)
  | _ => None
  end.

Definition Pic_write (info : BusAccessInfo) (data : list u8) : Command () :=
  match data with
  | [value] =>
      match pic_port (bai_address info) with
      | Some (sel, PicCommand) => pic_write_command sel value
      | Some (sel, PicData) => pic_write_data sel value
      | Some (sel, PicElcr) => pic_write_elcr sel value
      | None => mret ()
      end
  | _ => mret ()
  end.

Definition Pic_read (info : BusAccessInfo) (data : list u8) : Command (list u8) :=
  match data with
  | [_] =>
      match pic_port (bai_address info) with
      | Some (sel, PicCommand) => v ← pic_read_command sel; mret [v]
      | Some (sel, PicData) => v ← pic_read_data sel; mret [v]
      | Some (sel, PicElcr) => v ← pic_read_elcr sel; mret [v]
      | None => mret data
      end
  | _ => mret data
  end.

End pic.
