(* ===== verification/PicFacts.v ===== *)
(** * Theorems on the interrupt controller

    Priorities, totality, delivery and the end of interrupts. *)

From S2P Require Import Prelude Checked Bits Bus BusFacts Pic.

(** ** Priorities *)

(** The place of a line in the rotated order; 0 is the highest priority. *)
Definition rank (p : PicState) (irq : Z) : Z := (irq - priority_add p) mod 8.

Definition requested (p : PicState) (irq : Z) : bool := bit (irr p) irq && negb (bit (imr p) irq).

(** A line in service, but for the cascade of a primary controller in special
    fully nested mode. *)
Definition in_service (sel : PicSelect) (p : PicState) (irq : Z) : bool :=
  bit (isr p) irq &&
  negb (bool_decide (sel = Primary) && special_fully_nested_mode p && (irq =? 2)).

(** The line a controller offers: it is requested and not masked, no requested
    line has a higher priority and every line in service has a lower one. *)
Definition offers (sel : PicSelect) (p : PicState) (irq : Z) : Prop :=
  0 <= irq < 8 ∧ requested p irq = true ∧
  (∀ j, 0 <= j < 8 → requested p j = true → rank p irq <= rank p j) ∧
  (∀ j, 0 <= j < 8 → in_service sel p j = true → rank p irq < rank p j).

(** What the registers of a controller satisfy. *)
Definition pic_ok (p : PicState) : Prop := priority_add p <= 7 ∧ irq_base p <= 248.
Definition pics_ok (s : Pic) : Prop := pic_ok (primary s) ∧ pic_ok (secondary s).

Lemma land_7 x : Z.land x 7 = x mod 8.
Proof. change 7 with (Z.ones 3). by rewrite Z.land_ones. Qed.

Lemma rank_range p irq : 0 <= rank p irq < 8.
Proof. apply Z.mod_pos_bound. lia. Qed.

Lemma rank_inv p irq : 0 <= irq < 8 → (rank p irq + priority_add p) mod 8 = irq.
Proof.
  intros. unfold rank. rewrite Zplus_mod_idemp_l.
  replace (irq - priority_add p + priority_add p) with irq by lia. by apply Z.mod_small.
Qed.

Lemma rank_of p q : 0 <= q < 8 → rank p ((q + priority_add p) mod 8) = q.
Proof.
  intros. unfold rank. rewrite Zminus_mod_idemp_l.
  replace (q + priority_add p - priority_add p) with q by lia. by apply Z.mod_small.
Qed.

Lemma rank_inj p i j : 0 <= i < 8 → 0 <= j < 8 → rank p i = rank p j → i = j.
Proof. intros Hi Hj Heq. rewrite <-(rank_inv p i), <-(rank_inv p j) by done. by rewrite Heq. Qed.

Lemma mod8_range x : 0 <= x mod 8 < 8.
Proof. apply Z.mod_pos_bound. lia. Qed.

(** The line back from its rank. *)
Lemma unrank_sum p irq (pr : u8) :
  priority_add p <= 7 → 0 <= irq < 8 → uval pr = rank p irq →
  ∃ sum, add_checked pr (priority_add p) = Some sum ∧
    U8 (Z.land (uval sum) 7) = U8 irq ∧ uval (U8 irq) = irq.
Proof.
  intros Hp Hirq Hpr. pose proof (rank_range p irq).
  destruct (add_checked pr (priority_add p)) as [sum|] eqn:Hs.
  - apply add_checked_Some in Hs. exists sum. split; [done|].
    rewrite land_7, Hs, Hpr, rank_inv by done. split; [done|]. apply uval_to_uint_small. cbn. lia.
  - apply add_checked_None in Hs. cbn [Z.of_N] in Hs. lia.
Qed.

(** One round of the loop. *)
Lemma priority_round p (bm q : u8) :
  priority_add p <= 7 → q <= 8 →
  ∃ sum, add_checked q (priority_add p) = Some sum ∧
    (uval (uand bm (ubit (Z.land (uval sum) 7))) =? 0) = negb (bit bm ((q + priority_add p) mod 8)).
Proof.
  intros Hp Hq. destruct (add_checked q (priority_add p)) as [sum|] eqn:Hs.
  - exists sum. split; [done|]. apply add_checked_Some in Hs. rewrite land_7, Hs.
    apply and_ubit_zero. pose proof (mod8_range (q + priority_add p)). cbn. lia.
  - apply add_checked_None in Hs. cbn [Z.of_N] in Hs. lia.
Qed.

Lemma u8_succ (q : u8) : q < 255 → ∃ q', add_checked q (U8 1) = Some q' ∧ uval q' = q + 1.
Proof.
  intros Hq. destruct (add_checked q (U8 1)) as [q'|] eqn:Hs.
  - exists q'. split; [done|]. by apply add_checked_Some in Hs.
  - apply add_checked_None in Hs. change (uval (U8 1)) with 1 in Hs. cbn [Z.of_N] in Hs. lia.
Qed.

Lemma priority_loop_spec fuel p (bm q : u8) irq :
  priority_add p <= 7 → 0 <= irq < 8 → bit bm irq = true → q <= rank p irq →
  rank p irq - q <= Z.of_nat fuel →
  ∃ pr, priority_loop fuel (priority_add p) bm q = Some pr ∧ q <= pr <= rank p irq ∧
    bit bm ((pr + priority_add p) mod 8) = true ∧
    ∀ k, q <= k < pr → bit bm ((k + priority_add p) mod 8) = false.
Proof.
  intros Hp Hirq Hb. pose proof (rank_range p irq). revert q. induction fuel as [|fuel IH]; intros q Hle Hf.
  - destruct (priority_round p bm q) as (sum & Hs & Hz); [done|lia|]. cbn. rewrite Hs. cbn.
    rewrite Hz. replace (uval q) with (rank p irq) by lia. rewrite rank_inv, Hb by done. cbn.
    exists q. split_and!; [done|lia|lia| |].
    + replace (uval q) with (rank p irq) by lia. by rewrite rank_inv.
    + intros. lia.
  - destruct (priority_round p bm q) as (sum & Hs & Hz); [done|lia|].
    cbn [priority_loop]. rewrite Hs. cbn [mbind option_bind]. rewrite Hz.
    destruct (bit bm ((q + priority_add p) mod 8)) eqn:Hq; cbn [negb].
    + exists q. split_and!; [done|lia|lia|done|]. intros. lia.
    + assert (uval q ≠ rank p irq).
      { intros Heq. rewrite Heq, rank_inv, Hb in Hq; done. }
      destruct (u8_succ q) as (q' & Hq' & Hv); [lia|]. rewrite Hq'. cbn [mbind option_bind].
      destruct (IH q') as (pr & Hpr & Hr & Hbit & Hno); [lia|lia|].
      exists pr. split_and!; [done|lia|lia|done|].
      intros k Hk. destruct (decide (k = uval q)) as [->|]; [done|]. apply Hno. lia.
Qed.

(** [get_priority] is the rank of the line with the highest priority. *)
Lemma get_priority_spec p bm :
  priority_add p <= 7 →
  (uval bm = 0 ∧ get_priority p bm = Some None) ∨
  ∃ (irq : Z) (pr : u8), 0 <= irq < 8 ∧ bit bm irq = true ∧
    get_priority p bm = Some (Some pr) ∧ uval pr = rank p irq ∧
    ∀ j, 0 <= j < 8 → bit bm j = true → rank p irq <= rank p j.
Proof.
  intros Hp. unfold get_priority. destruct (Z.eqb_spec bm 0) as [|Hnz]; [by left|]. right.
  destruct (nonzero_bit bm Hnz) as (n & Hn & Hb). cbn [Z.of_N] in Hn.
  pose proof (rank_range p n).
  destruct (priority_loop_spec 8 p bm (U8 0) n) as (pr & -> & Hr & Hbit & Hno);
    [done|lia|done|change (uval (U8 0)) with 0; lia|change (uval (U8 0)) with 0; lia|].
  change (uval (U8 0)) with 0 in *. cbn.
  exists ((pr + priority_add p) mod 8), pr. split_and!; [apply mod8_range..|done|done| |].
  - rewrite rank_of; [done|lia].
  - rewrite rank_of by lia. intros j Hj Hbj. destruct (decide (pr <= rank p j)); [done|].
    pose proof (rank_range p j). rewrite <-(rank_inv p j), Hno in Hbj by lia. done.
Qed.

Lemma bit_unmasked p j : 0 <= j < 8 → bit (uand (irr p) (unot (imr p))) j = requested p j.
Proof. intros. rewrite bit_and, bit_not by (cbn; lia). done. Qed.

Lemma bit_serviced sel p j : 0 <= j < 8 →
  bit (if bool_decide (sel = Primary) && special_fully_nested_mode p
       then uand (isr p) (unot CASCADE_MASK) else isr p) j = in_service sel p j.
Proof.
  intros. unfold in_service. destruct (_ && _); cbn; [|by rewrite andb_true_r].
  change CASCADE_MASK with (ubit (w := 8) 2). rewrite bit_clear by (cbn; lia). apply andb_comm.
Qed.

Lemma get_irq_offers sel s :
  priority_add (pic_at sel s) <= 7 →
  (get_irq sel s = Some None ∧ ∀ irq, ¬ offers sel (pic_at sel s) irq) ∨
  (∃ irq : u8, get_irq sel s = Some (Some irq) ∧ offers sel (pic_at sel s) irq).
Proof.
  intros Hp. unfold get_irq. set (p := pic_at sel s) in *.
  destruct (get_priority_spec p (uand (irr p) (unot (imr p))) Hp)
    as [[Hz ->]|(irq & pr & Hirq & Hbit & -> & Hpr & Hmin)]; cbn [mbind option_bind].
  { left. split; [done|]. intros irq (Hirq & Hreq & _).
    rewrite <-bit_unmasked, bit_zero in Hreq; done. }
  rewrite bit_unmasked in Hbit by done.
  set (bm := if bool_decide (sel = Primary) && _ then _ else _).
  assert (Hbm : ∀ j, 0 <= j < 8 → bit bm j = in_service sel p j) by (intros; by apply bit_serviced).
  assert (Hmin' : ∀ j, 0 <= j < 8 → requested p j = true → rank p irq <= rank p j).
  { intros j Hj Hr. apply Hmin; [done|]. by rewrite bit_unmasked. }
  destruct (unrank_sum p irq pr Hp Hirq Hpr) as (sum & Hsum & Heq & Hval).
  destruct (get_priority_spec p bm Hp)
    as [[Hz ->]|(srv & pr' & Hsrv & Hbit' & -> & Hpr' & Hmin2)]; cbn [mbind option_bind default].
  - right. change (uval INVALID_PRIORITY) with 8. destruct (Z.ltb_spec pr 8);
      [|pose proof (rank_range p irq); lia].
    rewrite Hsum. cbn [mbind option_bind]. rewrite Heq. exists (U8 irq). split; [done|].
    rewrite Hval. split_and!; try done; try lia. intros j Hj Hin. rewrite <-Hbm, bit_zero in Hin; done.
  - cbn [from_option id]. rewrite Hpr, Hpr'. destruct (Z.ltb_spec (rank p irq) (rank p srv)).
    + right. rewrite Hsum. cbn [mbind option_bind]. rewrite Heq. exists (U8 irq). split; [done|].
      rewrite Hval. split_and!; try done; try lia. intros j Hj Hin.
      rewrite <-Hbm in Hin by done. specialize (Hmin2 j Hj Hin). lia.
    + left. split; [done|]. intros irq' (Hirq' & Hreq' & _ & Hlow).
      specialize (Hlow srv Hsrv). rewrite <-Hbm in Hlow by done. specialize (Hlow Hbit').
      specialize (Hmin' irq' Hirq' Hreq'). lia.
Qed.

Lemma offers_unique sel p i j : offers sel p i → offers sel p j → i = j.
Proof.
  intros (Hi & Hri & Hmi & _) (Hj & Hrj & Hmj & _). apply (rank_inj p); [done..|].
  specialize (Hmi j Hj Hrj). specialize (Hmj i Hi Hri). lia.
Qed.

(** ** Commands that never abort

    [safe m Q]: started with registers in range, [m] returns a value that
    satisfies [Q] and leaves them in range. *)

Section safe.
Context `{EventFds}.
Hypothesis accepts : ∀ e, event_accepts e = true.

Definition safe {A} (m : Command A) (Q : A → Prop) : Prop :=
  ∀ s, pics_ok s → match m s with (Returns a, s') => pics_ok s' ∧ Q a | _ => False end.

Lemma safe_ret {A} (a : A) (Q : A → Prop) : Q a → safe (mret a) Q.
Proof. intros HQ s Hs. by split. Qed.

Lemma pic_safe_bind {A B} (m : Command A) (f : A → Command B) P Q :
  safe m P → (∀ a, P a → safe (f a) Q) → safe (m ≫= f) Q.
Proof.
  intros Hm Hf s Hs. specialize (Hm s Hs). unfold mbind, prog_bind.
  destruct (m s) as [[a|e|] s']; [|done..]. destruct Hm as [Hs' Ha]. by apply Hf.
Qed.

Lemma safe_get : safe get_state pics_ok.
Proof. intros s Hs. by split. Qed.

Lemma safe_put s : pics_ok s → safe (put_state s) (λ _, True).
Proof. intros Hs s' _. by split. Qed.

Lemma safe_checked {A} (o : option A) a (Q : A → Prop) : o = Some a → Q a → safe (checked o) Q.
Proof. intros -> ?. by apply safe_ret. Qed.

Lemma safe_weaken {A} (m : Command A) (P Q : A → Prop) :
  safe m P → (∀ a, P a → Q a) → safe m Q.
Proof.
  intros Hm HPQ s Hs. specialize (Hm s Hs). destruct (m s) as [[a|e|] s']; [|done..].
  destruct Hm. auto.
Qed.

Lemma pics_ok_at sel s : pics_ok s → pic_ok (pic_at sel s).
Proof. intros [H1 H2]. by destruct sel. Qed.

Lemma pics_ok_set sel p s : pics_ok s → pic_ok p → pics_ok (set_pic_at sel p s).
Proof. intros [H1 H2] ?. by destruct sel. Qed.

Lemma safe_update sel f :
  (∀ p, pic_ok p → pic_ok (f p)) → safe (update_pic sel f) (λ _, True).
Proof.
  intros Hf. unfold update_pic. eapply pic_safe_bind; [apply safe_get|]. intros s Hs.
  apply safe_put, pics_ok_set; [done|]. by apply Hf, pics_ok_at.
Qed.

Lemma set_irq_internal_ok (irq : u8) level p :
  irq <= 7 → pic_ok p → ∃ p', set_irq_internal irq level p = Some p' ∧ pic_ok p'.
Proof.
  intros Hirq Hp. unfold set_irq_internal. destruct (Z.leb_spec irq 7); [|lia].
  eexists. split; [done|]. by repeat case_match.
Qed.

Lemma get_irq_safe sel s : pics_ok s →
  safe (checked (get_irq sel s)) (λ r, match r with Some irq => irq <= 7 | None => True end).
Proof.
  intros Hs. destruct (get_irq_offers sel s) as [[Heq _]|(irq & Heq & Ho)].
  - by destruct (pics_ok_at sel s Hs).
  - by eapply safe_checked.
  - eapply safe_checked; [done|]. destruct Ho. lia.
Qed.

Lemma signal_all_safe evts : safe (signal_all evts) (λ _, True).
Proof.
  induction evts as [|e evts IH]; cbn; [by apply safe_ret|]. rewrite accepts.
  eapply pic_safe_bind; [apply safe_get|]. intros s Hs.
  eapply pic_safe_bind; [by apply (safe_put (set_signalled _ s))|]. auto.
Qed.

Lemma clear_isr_safe sel (irq : u8) : irq <= 7 → safe (clear_isr sel irq) (λ _, True).
Proof.
  intros Hirq. unfold clear_isr. eapply pic_safe_bind; [apply safe_get|]. intros s Hs.
  destruct (Z.leb_spec irq 7); [|lia]. cbv zeta.
  set (p := set_isr _ _). assert (Hp : pic_ok p) by by apply pics_ok_at.
  destruct (set_irq_internal_ok irq false p Hirq Hp) as (p' & Heq & Hp').
  eapply pic_safe_bind; [by eapply (safe_checked _ _ (eq p'))|]. intros ? <-.
  eapply pic_safe_bind; [by apply safe_put, pics_ok_set|]. intros _ _.
  apply (pic_safe_bind _ _ (λ _, True)); [|intros n _; by case_match; auto using signal_all_safe, safe_ret].
  destruct sel; [by eapply safe_checked|].
  destruct (add_checked irq (U8 8)) eqn:Ha; [by eapply safe_checked|].
  apply add_checked_None in Ha. change (uval (U8 8)) with 8 in Ha. cbn [Z.of_N] in Ha. lia.
Qed.

Lemma fire_primary_safe : safe fire_primary (λ _, True).
Proof.
  eapply pic_safe_bind; [apply safe_get|]. intros s Hs.
  eapply pic_safe_bind; [by apply get_irq_safe|]. intros [i|] _; [|by apply safe_ret].
  eapply pic_safe_bind; [by apply (safe_put (set_interrupt_request true s))|].
  intros _ _. by apply safe_ret.
Qed.

Lemma update_irq_safe : safe update_irq (λ _, True).
Proof.
  unfold update_irq. eapply pic_safe_bind; [apply safe_get|]. intros s Hs.
  eapply pic_safe_bind; [by apply get_irq_safe|]. intros r _.
  apply (pic_safe_bind _ _ (λ _, True)); [|intros _ _; apply fire_primary_safe].
  destruct r; [|by apply safe_ret].
  destruct (set_irq_internal_ok PRIMARY_PIC_CASCADE_PIN true (primary s)) as (p1 & E1 & H1);
    [done|by destruct Hs|].
  destruct (set_irq_internal_ok PRIMARY_PIC_CASCADE_PIN false p1) as (p2 & E2 & H2); [done..|].
  eapply pic_safe_bind; [by eapply (safe_checked _ _ (eq p1))|]. intros ? <-.
  eapply pic_safe_bind; [by eapply (safe_checked _ _ (eq p2))|]. intros ? <-.
  by apply safe_put, (pics_ok_set Primary).
Qed.

Lemma service_irq_safe (irq : u8) level : irq <= 15 → safe (service_irq irq level) (λ _, True).
Proof.
  intros Hirq. unfold service_irq. destruct (Z.leb_spec irq 15); [|lia]. cbv zeta.
  eapply pic_safe_bind; [apply safe_get|]. intros s Hs.
  set (sel := if irq <=? 7 then _ else _).
  destruct (set_irq_internal_ok (U8 (Z.land irq 7)) level (pic_at sel s)) as (p & E & Hp);
    [|by apply pics_ok_at|].
  { rewrite land_7. pose proof (mod8_range irq). rewrite uval_to_uint_small; cbn; lia. }
  eapply pic_safe_bind; [by eapply (safe_checked _ _ (eq p))|]. intros ? <-.
  eapply pic_safe_bind; [by apply safe_put, pics_ok_set|]. intros _ _. apply update_irq_safe.
Qed.

Lemma land7_u8 x : uval (U8 (Z.land x 7)) <= 7.
Proof. rewrite land_7. pose proof (mod8_range x). rewrite uval_to_uint_small; cbn; lia. Qed.

Lemma rotate_to_safe sel (irq : u8) : irq <= 7 → safe (rotate_to sel irq) (λ _, True).
Proof.
  intros Hirq. unfold rotate_to. destruct (u8_succ irq) as (n & E & Hn); [lia|].
  eapply pic_safe_bind; [by eapply (safe_checked _ _ (eq n))|]. intros ? <-.
  apply safe_update. intros p [_ ?]. split; [apply land7_u8|done].
Qed.

Lemma interrupt_ack_safe sel (irq : u8) : irq <= 7 → safe (interrupt_ack sel irq) (λ _, True).
Proof.
  intros Hirq. unfold interrupt_ack. destruct (Z.leb_spec irq 7); [|lia]. cbv zeta.
  eapply pic_safe_bind; [apply safe_update; intros p Hp; by case_match|]. intros _ _.
  eapply pic_safe_bind; [apply safe_get|]. intros s Hs.
  case_match; [|by apply safe_ret].
  apply (pic_safe_bind _ _ (λ _, True)); [|intros _ _; by apply clear_isr_safe].
  case_match; [by apply rotate_to_safe|by apply safe_ret].
Qed.

(** The number of a vector fits a byte. *)
Lemma vector_safe (base irq : u8) : base <= 248 → irq <= 7 →
  safe (checked (add_checked base irq)) (λ _, True).
Proof.
  intros. destruct (add_checked base irq) eqn:Ha; [by eapply safe_checked|].
  apply add_checked_None in Ha. cbn [Z.of_N] in Ha. lia.
Qed.

Lemma get_external_interrupt_safe : safe get_external_interrupt (λ _, True).
Proof.
  unfold get_external_interrupt. eapply pic_safe_bind; [apply safe_get|]. intros s Hs.
  eapply pic_safe_bind; [by apply (safe_put (set_interrupt_request false s))|]. intros _ _.
  eapply pic_safe_bind; [by apply get_irq_safe|]. intros [irq|] Hirq; [|by apply safe_ret].
  eapply pic_safe_bind; [by apply interrupt_ack_safe|]. intros _ _.
  apply (pic_safe_bind _ _ (λ _, True)).
  - case_bool_decide.
    + eapply pic_safe_bind; [apply safe_get|]. intros s2 Hs2.
      eapply pic_safe_bind; [by apply get_irq_safe|]. intros r Hr.
      apply (pic_safe_bind _ _ (λ i, uval i <= 7)).
      { destruct r as [i|]; [|by apply safe_ret].
        eapply pic_safe_bind; [by apply interrupt_ack_safe|]. intros _ _. by apply safe_ret. }
      intros i Hi. eapply pic_safe_bind; [apply safe_get|]. intros s3 [_ [_ Hb]]. by apply vector_safe.
    + eapply pic_safe_bind; [apply safe_get|]. intros s3 [[_ Hb] _]. by apply vector_safe.
  - intros v _. eapply pic_safe_bind; [apply update_irq_safe|]. intros _ _. by apply safe_ret.
Qed.

Lemma poll_read_safe sel : safe (poll_read sel) (λ _, True).
Proof.
  unfold poll_read. eapply pic_safe_bind; [apply safe_get|]. intros s Hs.
  eapply pic_safe_bind; [by apply get_irq_safe|]. intros [irq|] Hirq; [|by apply safe_ret].
  apply (pic_safe_bind _ _ (λ _, True)); [case_bool_decide; [by apply safe_update|by apply safe_ret]|].
  intros _ _. eapply pic_safe_bind; [by apply safe_update|]. intros _ _.
  eapply pic_safe_bind; [by apply clear_isr_safe|]. intros _ _. by apply safe_ret.
Qed.

Lemma read_polled_safe sel : safe (read_polled sel) (λ _, True).
Proof.
  unfold read_polled. eapply pic_safe_bind; [apply poll_read_safe|]. intros [ret needed] _.
  eapply pic_safe_bind; [by apply safe_update|]. intros _ _.
  apply (pic_safe_bind _ _ (λ _, True)); [|by intros; apply safe_ret].
  destruct needed; [|by apply safe_ret].
  eapply pic_safe_bind; [apply update_irq_safe|]. by intros; apply safe_ret.
Qed.

Lemma end_of_interrupt_safe sel (irq : u8) :
  irq <= 7 → safe (end_of_interrupt sel irq) (λ _, True).
Proof.
  intros. eapply pic_safe_bind; [by apply clear_isr_safe|]. intros _ _.
  eapply pic_safe_bind; [apply update_irq_safe|]. by intros; apply safe_ret.
Qed.

Lemma non_specific_eoi_safe sel rotate : safe (non_specific_eoi sel rotate) (λ _, True).
Proof.
  unfold non_specific_eoi. eapply pic_safe_bind; [apply safe_get|]. intros s Hs.
  destruct (pics_ok_at sel s Hs) as [Hp _].
  destruct (get_priority_spec (pic_at sel s) (isr (pic_at sel s)) Hp)
    as [[_ ->]|(irq & pr & Hirq & _ & -> & Hpr & _)].
  { eapply pic_safe_bind; [by eapply (safe_checked _ _ (eq None))|]. intros ? <-. by apply safe_ret. }
  eapply pic_safe_bind; [by eapply (safe_checked _ _ (eq (Some pr)))|]. intros ? <-.
  destruct (priority_round (pic_at sel s) (U8 0) pr) as (sum & E & _);
    [done|pose proof (rank_range (pic_at sel s) irq); lia|].
  eapply pic_safe_bind; [by eapply (safe_checked _ _ (eq sum))|]. intros ? <-. cbv zeta.
  apply (pic_safe_bind _ _ (λ _, True)).
  { case_match; [apply rotate_to_safe, land7_u8|by apply safe_ret]. }
  intros _ _. apply end_of_interrupt_safe, land7_u8.
Qed.

Lemma operation_command_word_2_safe sel value :
  safe (operation_command_word_2 sel value) (λ _, True).
Proof.
  unfold operation_command_word_2. cbv zeta.
  assert (Hirq : uval (uand value (U8 7)) <= 7) by apply land7_u8.
  destruct (Ocw2_n _) as [[]|]; auto using end_of_interrupt_safe, non_specific_eoi_safe, safe_ret.
  - by apply safe_update.
  - by apply safe_update.
  - eapply pic_safe_bind; [by apply rotate_to_safe|]. intros _ _.
    eapply pic_safe_bind; [apply update_irq_safe|]. by intros; apply safe_ret.
  - eapply pic_safe_bind; [by apply rotate_to_safe|]. intros _ _. by apply end_of_interrupt_safe.
Qed.

Lemma reset_pic_safe sel : safe (reset_pic sel) (λ _, True).
Proof.
  unfold reset_pic. eapply pic_safe_bind; [apply safe_get|]. intros s Hs. cbv zeta.
  eapply pic_safe_bind; [apply safe_put, pics_ok_set; [done|]|].
  { destruct (pics_ok_at sel s Hs). unfold reset_fields. cbn. by case_match. }
  intros _ _. set (edge := uand _ _).
  assert (Hl : Forall (λ i, 0 <= i <= 7) [0; 1; 2; 3; 4; 5; 6; 7]) by (repeat constructor; lia).
  induction Hl as [|i l Hi _ IH]; cbn; [by apply safe_ret|].
  apply (pic_safe_bind _ _ (λ _, True)); [|done]. case_match; [by apply safe_ret|].
  apply clear_isr_safe. rewrite uval_to_uint_small; cbn; lia.
Qed.

Lemma icw2_base (value : u8) : uval (uand value (U8 248)) <= 248.
Proof.
  assert (Heq : uval (uand value (U8 248)) = Z.ldiff value (Z.ones 3))
    by exact (land_wrap_lnot value 7).
  rewrite Heq, Z.ldiff_ones_r, Z.shiftl_mul_pow2, Z.shiftr_div_pow2 by lia.
  pose proof (uint_range value). change (2 ^ Z.of_N 8) with 256 in *. change (2 ^ 3) with 8.
  Z.to_euclidean_division_equations. lia.
Qed.

Lemma Pic_write_safe info data : safe (Pic_write info data) (λ _, True).
Proof.
  unfold Pic_write. destruct data as [|value [|? ?]]; [by apply safe_ret| |by apply safe_ret].
  destruct (pic_port _) as [[sel []]|]; [| | |by apply safe_ret].
  - unfold pic_write_command. repeat case_match.
    + eapply pic_safe_bind; [by apply safe_update|]. intros _ _. apply reset_pic_safe.
    + apply safe_update. intros p Hp. unfold operation_command_word_3. cbv zeta.
      by repeat case_match.
    + apply operation_command_word_2_safe.
  - unfold pic_write_data. eapply pic_safe_bind; [apply safe_get|]. intros s _. case_match.
    + eapply pic_safe_bind; [by apply safe_update|]. intros _ _.
      eapply pic_safe_bind; [apply update_irq_safe|]. by intros; apply safe_ret.
    + apply safe_update. intros p [Hp _]. split; [done|apply icw2_base].
    + by apply safe_update.
    + by apply safe_update.
  - by apply safe_update.
Qed.

Lemma Pic_read_safe info data : safe (Pic_read info data) (λ d, length d = length data).
Proof.
  unfold Pic_read. destruct data as [|value [|? ?]]; [by apply safe_ret| |by apply safe_ret].
  destruct (pic_port _) as [[sel []]|]; [| | |by apply safe_ret].
  - eapply (pic_safe_bind _ _ (λ _, True)); [|by intros; apply safe_ret].
    unfold pic_read_command. eapply pic_safe_bind; [apply safe_get|]. intros s _.
    repeat case_match; auto using read_polled_safe, safe_ret.
  - eapply (pic_safe_bind _ _ (λ _, True)); [|by intros; apply safe_ret].
    unfold pic_read_data. eapply pic_safe_bind; [apply safe_get|]. intros s _.
    case_match; auto using read_polled_safe, safe_ret.
  - eapply (pic_safe_bind _ _ (λ _, True)); [|by intros; apply safe_ret].
    unfold pic_read_elcr. eapply pic_safe_bind; [apply safe_get|]. intros; by apply safe_ret.
Qed.

End safe.

(** ** What the commands do *)

(** A controller that differs in its request registers only. *)
Definition requests_only (p p' : PicState) : Prop := p' = set_irrs (irr p') (last_irr p') p.

Definition other (sel : PicSelect) : PicSelect :=
  match sel with Primary => Secondary | Secondary => Primary end.

Lemma pic_at_set sel p s : pic_at sel (set_pic_at sel p s) = p.
Proof. by destruct sel. Qed.
Lemma pic_at_set_other sel p s : pic_at (other sel) (set_pic_at sel p s) = pic_at (other sel) s.
Proof. by destruct sel. Qed.

(** The level of a line: a level-triggered line is requested while it is high,
    an edge-triggered one from the moment it goes high. *)
Lemma set_irq_internal_spec (irq : u8) level p :
  irq <= 7 → ∃ p', set_irq_internal irq level p = Some p' ∧ requests_only p p' ∧
    (∀ j : Z, j ≠ irq → bit (irr p') j = bit (irr p) j ∧ bit (last_irr p') j = bit (last_irr p) j) ∧
    bit (last_irr p') irq = level ∧
    bit (irr p') irq =
      (if bit (elcr p) irq then level
       else bit (irr p) irq || level && negb (bit (last_irr p) irq)).
Proof.
  intros Hirq. assert (Hr : 0 <= irq < Z.of_N 8) by (pose proof (uint_range irq); cbn; lia).
  unfold set_irq_internal. destruct (Z.leb_spec irq 7); [|lia]. eexists. split; [done|].
  rewrite !and_ubit_zero, !negb_involutive by done.
  destruct (bit (elcr p) irq), level, (bit (last_irr p) irq) eqn:Hlast;
    (split; [by destruct p|]); cbn; rewrite ?bit_set, ?bit_clear, ?Z.eqb_refl by done; cbn;
    rewrite ?orb_true_r, ?orb_false_r; split_and!; try done;
    intros j Hj; rewrite ?bit_set, ?bit_clear by done;
    (destruct (Z.eqb_spec j irq); [done|]); by cbn.
Qed.

Section spec.
Context `{EventFds}.
Hypothesis accepts : ∀ e, event_accepts e = true.

Lemma signal_all_spec evts s :
  signal_all evts s = (Returns (), set_signalled (signalled s ++ evts) s).
Proof.
  revert s. induction evts as [|e evts IH]; intros s; cbn.
  { rewrite app_nil_r. by destruct s. }
  rewrite accepts. run_prog. rewrite IH. cbn. by rewrite <-app_assoc.
Qed.

Lemma clear_isr_spec sel (irq : u8) s :
  irq <= 7 → ∃ s' p', clear_isr sel irq s = (Returns (), s') ∧
    set_irq_internal irq false
      (set_isr (uand (isr (pic_at sel s)) (unot (ubit irq))) (pic_at sel s)) = Some p' ∧
    pic_at sel s' = p' ∧ pic_at (other sel) s' = pic_at (other sel) s.
Proof.
  intros Hirq. unfold clear_isr. run_prog. destruct (Z.leb_spec irq 7); [|lia].
  set (p := set_isr _ _). destruct (set_irq_internal_spec irq false p Hirq) as (p' & -> & _).
  assert (Hn : ∃ n, match sel with Primary => Some irq | Secondary => add_checked irq (U8 8) end = Some n).
  { destruct sel; [by eauto|]. destruct (add_checked irq (U8 8)) eqn:Ha; [by eauto|].
    apply add_checked_None in Ha. change (uval (U8 8)) with 8 in Ha. cbn [Z.of_N] in Ha. lia. }
  destruct Hn as [n ->]. case_match.
  - rewrite signal_all_spec. eexists _, p'. split; [done|]. by destruct sel.
  - eexists _, p'. split; [done|]. by destruct sel.
Qed.

Lemma fire_primary_spec s :
  priority_add (primary s) <= 7 → ∃ b s', fire_primary s = (Returns b, s') ∧
    primary s' = primary s ∧ secondary s' = secondary s ∧
    (b = true ↔ ∃ i, offers Primary (primary s) i) ∧ interrupt_request s' = b || interrupt_request s.
Proof.
  intros Hp. unfold fire_primary. run_prog.
  destruct (get_irq_offers Primary s Hp) as [[-> Hno]|(irq & -> & Ho)].
  - exists false, s. split_and!; try done. split; [done|]. intros [i Hi]. by destruct (Hno i).
  - exists true, (set_interrupt_request true s). split_and!; try done. split; [|done]. by exists irq.
Qed.

Lemma update_irq_spec s :
  pics_ok s → ∃ b s', update_irq s = (Returns b, s') ∧ secondary s' = secondary s ∧
    requests_only (primary s) (primary s') ∧
    (∀ j, j ≠ 2 → bit (irr (primary s')) j = bit (irr (primary s)) j) ∧
    ((∀ i, ¬ offers Secondary (secondary s) i) → primary s' = primary s) ∧
    ((∃ i, offers Secondary (secondary s) i) → bit (last_irr (primary s)) 2 = false →
      bit (elcr (primary s)) 2 = false → bit (irr (primary s')) 2 = true) ∧
    (b = true ↔ ∃ i, offers Primary (primary s') i) ∧
    interrupt_request s' = b || interrupt_request s.
Proof.
  intros [[Hp _] [Hq _]]. unfold update_irq. run_prog.
  destruct (get_irq_offers Secondary s Hq) as [[-> Hno]|(irq & -> & Ho)].
  - destruct (fire_primary_spec s Hp) as (b & s' & Heq & H1 & H2 & H3 & H4). exists b, s'.
    split_and!; try done; rewrite ?H1; try done.
    + by destruct (primary s).
    + intros [i Hi]. by destruct (Hno i).
  - destruct (set_irq_internal_spec PRIMARY_PIC_CASCADE_PIN true (primary s))
      as (p1 & -> & R1 & N1 & L1 & B1); [done|].
    destruct (set_irq_internal_spec PRIMARY_PIC_CASCADE_PIN false p1)
      as (p2 & -> & R2 & N2 & L2 & B2); [done|].
    change (uval PRIMARY_PIC_CASCADE_PIN) with 2 in *.
    destruct (fire_primary_spec (set_pic_at Primary p2 s)) as (b & s' & Heq & H1 & H2 & H3 & H4).
    { cbn. rewrite R2, R1. done. }
    exists b, s'. cbn in H1, H2, H3, H4. split_and!; rewrite ?H1; try done.
    + rewrite R2, R1. by destruct p2.
    + intros j Hj. destruct (N1 j Hj), (N2 j Hj). congruence.
    + intros Hno. by destruct (Hno irq).
    + intros _ Hlast Helcr. assert (He : elcr p1 = elcr (primary s)) by (by rewrite R1).
      by rewrite B2, B1, He, Helcr, Hlast, orb_true_r.
Qed.

(** The state a safe command leaves. *)
Lemma safe_run {A} (m : Command A) Q s r s' :
  safe m Q → pics_ok s → m s = (r, s') → pics_ok s'.
Proof.
  intros Hm Hs Heq. specialize (Hm s Hs). rewrite Heq in Hm. by destruct r; [destruct Hm|..].
Qed.

Lemma update_pic_run sel f s :
  update_pic sel f s = (Returns (), set_pic_at sel (f (pic_at sel s)) s).
Proof. done. Qed.

Lemma rotate_to_run sel (irq : u8) s :
  irq <= 7 → ∃ v, rotate_to sel irq s =
    (Returns (), set_pic_at sel (set_priority_add v (pic_at sel s)) s).
Proof.
  intros Hirq. unfold rotate_to. destruct (u8_succ irq) as (n & -> & _); [lia|]. by eexists.
Qed.

Lemma interrupt_ack_spec sel (irq : u8) s :
  irq <= 7 → ∃ s', interrupt_ack sel irq s = (Returns (), s') ∧
    pic_at (other sel) s' = pic_at (other sel) s ∧
    irq_base (pic_at sel s') = irq_base (pic_at sel s) ∧
    (auto_eoi (pic_at sel s) = false →
      requests_only (set_isr (uor (isr (pic_at sel s)) (ubit irq)) (pic_at sel s)) (pic_at sel s')).
Proof.
  intros Hirq. unfold interrupt_ack. destruct (Z.leb_spec irq 7); [|lia]. cbv zeta.
  erewrite bind_returns by apply update_pic_run.
  erewrite bind_returns by apply get_state_run. rewrite pic_at_set.
  set (p := pic_at sel s).
  match goal with |- context [set_pic_at sel ?x s] => set (p1 := x) end.
  assert (H1 : requests_only (set_isr (uor (isr p) (ubit irq)) p) p1) by (unfold p1; by case_match).
  assert (Hb1 : irq_base p1 = irq_base p) by (unfold p1; by case_match).
  assert (Ha1 : auto_eoi p1 = auto_eoi p) by (unfold p1; by case_match).
  rewrite Ha1. destruct (auto_eoi p); [|eexists; split; [done|]; destruct sel; by split_and!].
  set (s1 := set_pic_at sel p1 s).
  assert (Hrot : ∃ s2, (if rotate_on_auto_eoi p1 then rotate_to sel irq else mret ()) s1 = (Returns (), s2) ∧
      irq_base (pic_at sel s2) = irq_base p ∧ pic_at (other sel) s2 = pic_at (other sel) s).
  { case_match; [|exists s1; split; [done|]; by destruct sel].
    destruct (rotate_to_run sel irq s1 Hirq) as [v ->]. eexists. split; [done|]. by destruct sel. }
  destruct Hrot as (s2 & Hrot & Hb2 & Ho2). erewrite bind_returns by exact Hrot.
  destruct (clear_isr_spec sel irq s2 Hirq) as (s3 & p3 & -> & Hset & Hp3 & Ho3).
  exists s3. split_and!; [done|congruence| |done]. rewrite Hp3, <-Hb2.
  destruct (set_irq_internal_spec irq false
    (set_isr (uand (isr (pic_at sel s2)) (unot (ubit irq))) (pic_at sel s2)) Hirq)
    as (p4 & Hset' & R4 & _).
  rewrite Hset in Hset'. injection Hset' as <-. by rewrite R4.
Qed.

(** The vector a line of the primary controller stands for; the line of the
    cascade stands for the line the secondary controller offers, or for the
    spurious line. *)
Definition vector_of (s : Pic) (irq v : Z) : Prop :=
  if irq =? 2 then
    ∃ i, v = irq_base (secondary s) + i ∧
      (offers Secondary (secondary s) i ∨ i = 7 ∧ ∀ j, ¬ offers Secondary (secondary s) j)
  else v = irq_base (primary s) + irq.

Lemma vector_run (base irq : u8) s :
  base <= 248 → irq <= 7 → ∃ v, checked (add_checked base irq) s = (Returns (E := Empty_set) v, s : Pic) ∧
    uval v = base + irq.
Proof.
  intros. destruct (add_checked base irq) as [v|] eqn:Ha.
  - exists v. split; [done|]. by apply add_checked_Some in Ha.
  - apply add_checked_None in Ha. cbn [Z.of_N] in Ha. lia.
Qed.

Lemma cascade_run s :
  pics_ok s → ∃ (v : u8) s', (pending ← checked (get_irq Secondary s);
       irq_secondary ← match pending with
                       | Some irq => _ ← interrupt_ack Secondary irq; mret irq
                       | None => mret SPURIOUS_IRQ
                       end;
       s ← get_state;
       checked (add_checked (irq_base (secondary s)) irq_secondary)) s = (Returns v, s') ∧
    pics_ok s' ∧ primary s' = primary s ∧ vector_of s 2 v.
Proof.
  intros Hs. unfold vector_of. cbn [Z.eqb Pos.eqb].
  destruct (get_irq_offers Secondary s) as [[-> Hno]|(irq & -> & Ho)]; [by apply Hs|..].
  - destruct (vector_run (irq_base (secondary s)) SPURIOUS_IRQ s) as (v & Hv & Hval);
      [by apply Hs|done|].
    exists v, s. split_and!; [exact Hv|by apply Hs..|done|].
    exists 7. split; [by rewrite Hval|]. by right.
  - assert (Hi : irq <= 7) by (destruct Ho; lia).
    destruct (interrupt_ack_spec Secondary irq s Hi) as (s' & Hack & Ho' & Hb & _).
    assert (Hs' : pics_ok s').
    { eapply safe_run; [by apply interrupt_ack_safe|exact Hs|exact Hack]. }
    cbn in Hb, Ho'. destruct (vector_run (irq_base (secondary s')) irq s') as (v & Hv & Hval);
      [by apply Hs'|done|].
    exists v, s'. split_and!; [|by apply Hs'..|done|].
    + erewrite bind_returns by done. cbv beta iota. erewrite bind_returns; [exact Hv|].
      by erewrite bind_returns by exact Hack.
    + exists irq. split; [congruence|]. by left.
Qed.

Lemma external_interrupt_run s :
  pics_ok s → ∃ r s', get_external_interrupt s = (Returns r, s') ∧ pics_ok s' ∧
    match r with
    | None => (∀ irq, ¬ offers Primary (primary s) irq)
    | Some v => ∃ irq, offers Primary (primary s) irq ∧ vector_of s irq v ∧
        (auto_eoi (primary s) = false →
         requests_only (set_isr (uor (isr (primary s)) (ubit irq)) (primary s)) (primary s'))
    end.
Proof.
  intros Hs. unfold get_external_interrupt. erewrite bind_returns by apply get_state_run.
  erewrite bind_returns by apply put_state_run. set (s0 := set_interrupt_request false s).
  assert (Hs0 : pics_ok s0) by done.
  destruct (get_irq_offers Primary s) as [[-> Hno]|(irq & -> & Ho)]; [by apply Hs|..].
  { by exists None, s0. }
  erewrite bind_returns by done. assert (Hi : irq <= 7) by (destruct Ho; lia).
  destruct (interrupt_ack_spec Primary irq s0 Hi) as (s1 & Hack & Ho1 & Hb1 & Hreq).
  assert (Hs1 : pics_ok s1).
  { eapply safe_run; [by apply interrupt_ack_safe|exact Hs0|exact Hack]. }
  cbv beta iota. erewrite bind_returns by exact Hack. cbn in Ho1, Hb1, Hreq.
  set (vec := if bool_decide _ then _ else _).
  assert (Hvec : ∃ (v : u8) s2, vec s1 = (Returns v, s2) ∧ pics_ok s2 ∧ primary s2 = primary s1 ∧
      vector_of s irq v).
  { unfold vec. case_bool_decide as H2.
    - destruct (cascade_run s1 Hs1) as (v & s2 & Hrun & Hs2 & Hp2 & Hv).
      exists v, s2. split_and!; [exact Hrun|by apply Hs2..|done|]. rewrite H2.
      change (uval PRIMARY_PIC_CASCADE_PIN) with 2. revert Hv. unfold vector_of.
      cbn [Z.eqb Pos.eqb]. by rewrite Ho1.
    - destruct (vector_run (irq_base (primary s1)) irq s1) as (v & Hv & Hval);
        [by apply Hs1|done|].
      exists v, s1. split_and!; [exact Hv|by apply Hs1..|done|]. unfold vector_of.
      destruct (Z.eqb_spec irq 2) as [Heq|]; [|congruence]. destruct H2. by apply uint_eq. }
  destruct Hvec as (v & s2 & Hrun & Hs2 & Hp2 & Hv). erewrite bind_returns by exact Hrun.
  destruct (update_irq_spec s2 Hs2) as (b & s3 & Hup & _ & R3 & _).
  erewrite bind_returns by exact Hup. exists (Some v), s3. split; [done|].
  split; [eapply safe_run; [apply update_irq_safe|exact Hs2|exact Hup]|].
  exists irq. split_and!; [done|done|]. intros Ha. specialize (Hreq Ha).
  unfold requests_only in *. rewrite R3, Hp2, Hreq. by destruct (primary s3).
Qed.

(** A non-specific end of interrupt ends the line in service with the highest
    priority. *)
Lemma non_specific_eoi_run s irq :
  pics_ok s → 0 <= irq < 8 → bit (isr (primary s)) irq = true →
  (∀ j, 0 <= j < 8 → bit (isr (primary s)) j = true → rank (primary s) irq <= rank (primary s) j) →
  ∃ s', pic_write_command Primary (U8 0x20) s = (Returns (), s') ∧
    isr (primary s') = uand (isr (primary s)) (unot (ubit irq)).
Proof.
  intros Hs Hirq Hbit Hmin.
  change (pic_write_command Primary (U8 0x20)) with (non_specific_eoi Primary false).
  unfold non_specific_eoi. erewrite bind_returns by apply get_state_run. cbn [pic_at].
  destruct (get_priority_spec (primary s) (isr (primary s)))
    as [[Hz _]|(irq' & pr & Hirq' & Hbit' & -> & Hpr & Hmin')]; [by apply Hs|..].
  { by rewrite bit_zero in Hbit. }
  assert (irq' = irq) as ->.
  { apply (rank_inj (primary s)); [done..|]. specialize (Hmin irq' Hirq' Hbit').
    specialize (Hmin' irq Hirq Hbit). lia. }
  erewrite bind_returns by done.
  destruct (unrank_sum (primary s) irq pr) as (sum & -> & Hsum & Hval); [by apply Hs|done..|].
  erewrite bind_returns by done. cbv zeta. rewrite Hsum. erewrite bind_returns by done.
  destruct (clear_isr_spec Primary (U8 irq) s) as (s1 & p1 & Hclr & Hset & Hp1 & _); [lia|].
  unfold end_of_interrupt. erewrite bind_returns by exact Hclr.
  destruct (update_irq_spec s1) as (b & s2 & Hup & _ & R2 & _).
  { eapply safe_run; [apply (clear_isr_safe accepts Primary (U8 irq)); lia|exact Hs|exact Hclr]. }
  erewrite bind_returns by exact Hup. exists s2. split; [done|]. rewrite R2. cbn [isr set_irrs].
  cbn in Hp1. rewrite Hp1.
  destruct (set_irq_internal_spec (U8 irq) false
    (set_isr (uand (isr (primary s)) (unot (ubit (uval (U8 irq))))) (primary s)))
    as (p3 & Hset' & R3 & _); [lia|].
  cbn in Hset. rewrite Hset in Hset'. injection Hset' as <-. rewrite R3. cbn. by rewrite Hval.
Qed.

End spec.

(** ** Reachable states *)

Inductive pic_op :=
  | PicReadOp (info : BusAccessInfo) (data : list u8)
  | PicWriteOp (info : BusAccessInfo) (data : list u8)
  | PicLineOp (irq : u8) (level : bool)
  | PicAckOp
  | PicRegisterOp (evts : list (list Event)).

Definition pic_op_ok (op : pic_op) : Prop :=
  match op with PicLineOp irq _ => irq <= 15 | _ => True end.

Section reachable.
Context `{EventFds}.

Definition pic_exec (op : pic_op) : Command () :=
  match op with
  | PicReadOp info data => _ ← Pic_read info data; mret ()
  | PicWriteOp info data => Pic_write info data
  | PicLineOp irq level => _ ← service_irq irq level; mret ()
  | PicAckOp => _ ← get_external_interrupt; mret ()
  | PicRegisterOp evts => s ← get_state; put_state (register_resample_events evts s)
  end.

Fixpoint pic_run (ops : list pic_op) : Command () :=
  match ops with
  | [] => mret ()
  | op :: ops => _ ← pic_exec op; pic_run ops
  end.

Hypothesis accepts : ∀ e, event_accepts e = true.

Lemma pic_exec_safe op : pic_op_ok op → safe (pic_exec op) (λ _, True).
Proof using accepts.
  intros Hop. destruct op; cbn in *.
  - eapply pic_safe_bind; [by apply Pic_read_safe|]. by intros; apply safe_ret.
  - by apply Pic_write_safe.
  - eapply pic_safe_bind; [by apply service_irq_safe|]. by intros; apply safe_ret.
  - eapply pic_safe_bind; [by apply get_external_interrupt_safe|]. by intros; apply safe_ret.
  - eapply pic_safe_bind; [apply safe_get|]. intros s Hs. by apply safe_put.
Qed.

Lemma pic_run_safe ops : Forall pic_op_ok ops → safe (pic_run ops) (λ _, True).
Proof using accepts.
  induction 1 as [|op ops Hop _ IH]; cbn; [by apply safe_ret|].
  eapply pic_safe_bind; [by apply pic_exec_safe|]. auto.
Qed.

Lemma Pic_new_ok : pics_ok Pic_new.
Proof. by repeat split. Qed.

(** C24. Whatever the guest writes and reads, whatever the devices do to the lines
    and whenever interrupts are acknowledged, the interrupt controller does not
    panic, and in the state it reaches each of its two halves offers exactly the
    requested, unmasked line with the highest priority, if that is above every
    line in service. *)
Theorem pic_total ops :
  Forall pic_op_ok ops →
  ∃ s, pic_run ops Pic_new = (Returns (), s) ∧ pics_ok s ∧
    ∀ sel, ∃ r, get_irq sel s = Some r ∧
      ∀ irq : u8, r = Some irq ↔ offers sel (pic_at sel s) irq.
Proof using accepts.
  intros Hops. pose proof (pic_run_safe ops Hops Pic_new Pic_new_ok) as Hrun.
  destruct (pic_run ops Pic_new) as [[[]|e|] s]; [|done..]. destruct Hrun as [Hs _].
  exists s. split_and!; [done|by apply Hs..|]. intros sel.
  destruct (get_irq_offers sel s) as [[-> Hno]|(irq & -> & Ho)];
    [by destruct (pics_ok_at sel s Hs)|..].
  - exists None. split; [done|]. intros irq. split; [done|]. intros Ho. by destruct (Hno irq).
  - exists (Some irq). split; [done|]. intros irq'. split; [by intros [= <-]|].
    intros Ho'. f_equal. apply uint_eq. by eapply offers_unique.
Qed.

Lemma acknowledged_isr p j irq :
  requests_only (set_isr (uor (isr p) (ubit irq)) p) j → 0 <= irq < 8 →
  ∀ k, bit (isr j) k = (k =? irq) || bit (isr p) k.
Proof. intros -> Hirq k. cbn. apply bit_set. cbn. lia. Qed.

(** C25. The cycle of an interrupt at the primary controller, with automatic end of
    interrupt off: the processor gets the vector of the offered line, exactly this
    line goes into service; from then on only lines with a higher priority are
    offered; and the non-specific end of interrupt command, 0x20, takes the line out
    of service, so that the lines in service are those from before.  In special
    fully nested mode the cascade line 2 is neither the one offered nor in service
    (it does not block itself there). *)
Theorem interrupt_cycle s irq :
  pics_ok s → auto_eoi (primary s) = false →
  (special_fully_nested_mode (primary s) = false ∨ bit (isr (primary s)) 2 = false) →
  offers Primary (primary s) irq → irq ≠ 2 ∨ special_fully_nested_mode (primary s) = false →
  ∃ v s1 s2, get_external_interrupt s = (Returns (Some v), s1) ∧ vector_of s irq v ∧
    (∀ j, 0 <= j < 8 → bit (isr (primary s1)) j = (j =? irq) || bit (isr (primary s)) j) ∧
    (∀ j, offers Primary (primary s1) j → rank (primary s) j < rank (primary s) irq) ∧
    pic_write_command Primary (U8 0x20) s1 = (Returns (), s2) ∧
    isr (primary s2) = isr (primary s).
Proof using accepts.
  intros Hs Hauto Hnest Ho Hcas.
  destruct (external_interrupt_run accepts s Hs) as ([v|] & s1 & Hrun & Hs1 & Hr);
    [|by destruct (Hr irq)].
  destruct Hr as (irq' & Ho' & Hv & Hreq). pose proof (offers_unique _ _ _ _ Ho Ho') as <-.
  specialize (Hreq Hauto). destruct Ho as (Hirq & _ & _ & Hlow).
  assert (Hlow' : ∀ j, 0 <= j < 8 → bit (isr (primary s)) j = true →
      rank (primary s) irq < rank (primary s) j).
  { intros j Hj Hb. apply Hlow; [done|]. unfold in_service. rewrite Hb. cbn.
    destruct Hnest as [->|H2]; [done|]. destruct (Z.eqb_spec j 2) as [->|]; [congruence|].
    by rewrite andb_false_r. }
  assert (Hfree : bit (isr (primary s)) irq = false).
  { destruct (bit _ irq) eqn:Hb; [|done]. specialize (Hlow' irq Hirq Hb). lia. }
  assert (Hadd : ∀ j, rank (primary s1) j = rank (primary s) j) by (intros; by rewrite Hreq).
  pose proof (acknowledged_isr _ _ _ Hreq Hirq) as Hisr.
  destruct (non_specific_eoi_run accepts s1 irq Hs1 Hirq) as (s2 & Heoi & Hisr2).
  { by rewrite Hisr, Z.eqb_refl. }
  { intros j Hj. rewrite Hisr, !Hadd. destruct (Z.eqb_spec j irq) as [->|]; [lia|].
    cbn. intros Hb. specialize (Hlow' j Hj Hb). lia. }
  exists v, s1, s2. split_and!; [done|done| | |done|].
  - intros j Hj. by rewrite Hisr.
  - intros j (Hj & _ & _ & Hl). specialize (Hl irq Hirq). rewrite !Hadd in Hl. apply Hl.
    unfold in_service. rewrite Hisr, Z.eqb_refl. cbn. rewrite Hreq. cbn.
    destruct Hcas as [H2| ->]; [|done]. destruct (Z.eqb_spec irq 2); [done|].
    by rewrite andb_false_r.
  - apply bit_eq. intros k Hk. rewrite Hisr2, bit_clear, Hisr by (cbn; lia).
    destruct (Z.eqb_spec k irq) as [->|]; [by rewrite Hfree|done].
Qed.

End reachable.

(** ** Delivery *)

Section delivery.
Context `{EventFds}.
Hypothesis accepts : ∀ e, event_accepts e = true.

(** Nothing is requested, in service or high, and every line is edge-triggered. *)
Definition quiet (p : PicState) : Prop :=
  uval (irr p) = 0 ∧ uval (isr p) = 0 ∧ uval (last_irr p) = 0 ∧ uval (elcr p) = 0.

(** The only requested line is offered. *)
Lemma only_request_offered sel p irq :
  0 <= irq < 8 → (∀ j, bit (isr p) j = false) → requested p irq = true →
  (∀ j, 0 <= j < 8 → j ≠ irq → bit (irr p) j = false) → offers sel p irq.
Proof.
  intros Hirq Hisr Hreq Honly. split_and!; [lia..|done| |].
  - intros j Hj Hr. destruct (decide (j = irq)) as [->|]; [done|].
    unfold requested in Hr. by rewrite Honly in Hr.
  - intros j Hj Hin. unfold in_service in Hin. by rewrite Hisr in Hin.
Qed.

Lemma quiet_no_offer sel p irq : (∀ j, bit (irr p) j = false) → ¬ offers sel p irq.
Proof. intros Hq (_ & Hr & _). unfold requested in Hr. by rewrite Hq in Hr. Qed.

(** Raising a line of a quiet controller requests it and nothing else. *)
Lemma quiet_raise p (irq : u8) :
  quiet p → irq <= 7 → ∃ p', set_irq_internal irq true p = Some p' ∧ requests_only p p' ∧
    ∀ j, 0 <= j < 8 → bit (irr p') j = (j =? irq).
Proof.
  intros (Hirr & Hisr & Hlast & Helcr) Hirq.
  destruct (set_irq_internal_spec irq true p Hirq) as (p' & Heq & R & Hother & _ & Hb).
  exists p'. split_and!; [done|done|]. intros j Hj. destruct (Z.eqb_spec j irq) as [->|Hne].
  - by rewrite Hb, !bit_zero.
  - destruct (Hother j Hne) as [-> _]. by apply bit_zero.
Qed.

Lemma raised_offered sel p p' irq :
  quiet p → requests_only p p' → 0 <= irq < 8 → bit (imr p) irq = false →
  (∀ j, 0 <= j < 8 → bit (irr p') j = (j =? irq)) → offers sel p' irq.
Proof.
  intros Hq R Hirq Himr Hirr. apply only_request_offered; [done| | |].
  - intros j. rewrite R. apply bit_zero, Hq.
  - unfold requested. rewrite Hirr, Z.eqb_refl by done. rewrite R. cbn. by rewrite Himr.
  - intros j Hj Hne. rewrite Hirr by done. by apply Z.eqb_neq.
Qed.

(** The acknowledgement after an offer of the primary controller. *)
Lemma offered_vector s irq :
  pics_ok s → offers Primary (primary s) irq →
  ∃ v s', get_external_interrupt s = (Returns (Some v), s') ∧ vector_of s irq v.
Proof using accepts.
  intros Hs Ho. destruct (external_interrupt_run accepts s Hs) as ([v|] & s1 & Hrun & _ & Hr);
    [|by destruct (Hr irq)].
  destruct Hr as (irq' & Ho' & Hv & _). pose proof (offers_unique _ _ _ _ Ho Ho') as <-.
  by exists v, s1.
Qed.

Lemma raise_primary s (irq : u8) :
  pics_ok s → quiet (primary s) → quiet (secondary s) → irq <= 7 → uval irq ≠ 2 →
  bit (imr (primary s)) irq = false →
  ∃ s1, service_irq irq true s = (Returns true, s1) ∧ pics_ok s1 ∧
    offers Primary (primary s1) irq ∧ irq_base (primary s1) = irq_base (primary s).
Proof using accepts.
  intros Hs Hq1 Hq2 Hirq Hne Himr.
  destruct (quiet_raise (primary s) irq Hq1 Hirq) as (p & Hset & R & Hirr).
  set (s0 := set_pic_at Primary p s).
  assert (Hs0 : pics_ok s0).
  { apply (pics_ok_set Primary); [done|]. rewrite R. by destruct Hs. }
  destruct (update_irq_spec s0 Hs0) as (b & s1 & Hup & _ & _ & _ & Hsame & _ & Hb & _).
  assert (Hp1 : primary s1 = p).
  { apply Hsame. intros i. apply quiet_no_offer. intros j. apply bit_zero, Hq2. }
  assert (Hrun : service_irq irq true s = (Returns b, s1)).
  { unfold service_irq. destruct (Z.leb_spec irq 15); [|lia]. destruct (Z.leb_spec irq 7); [|lia].
    cbv zeta. erewrite bind_returns by apply get_state_run.
    replace (U8 (Z.land irq 7)) with irq.
    - cbn [pic_at]. rewrite Hset. erewrite bind_returns by done.
      by erewrite bind_returns by apply put_state_run.
    - apply uint_eq. pose proof (uint_range irq). rewrite land_7, Z.mod_small, uval_to_uint_small;
        cbn in *; lia. }
  assert (Hpos : 0 <= irq < 8) by (pose proof (uint_range irq); lia).
  assert (Ho : offers Primary (primary s1) irq).
  { rewrite Hp1. by apply (raised_offered Primary (primary s)). }
  assert (b = true) as -> by (apply Hb; by eexists).
  exists s1. split_and!; [done| |done|by rewrite Hp1, R].
  eapply safe_run; [apply (service_irq_safe irq true); lia|exact Hs|exact Hrun].
Qed.

Lemma raise_secondary s (irq : u8) :
  pics_ok s → quiet (primary s) → quiet (secondary s) → 8 <= irq <= 15 →
  bit (imr (secondary s)) (irq - 8) = false → bit (imr (primary s)) 2 = false →
  ∃ s1, service_irq irq true s = (Returns true, s1) ∧ pics_ok s1 ∧
    offers Primary (primary s1) 2 ∧ offers Secondary (secondary s1) (irq - 8) ∧
    irq_base (secondary s1) = irq_base (secondary s).
Proof.
  intros Hs Hq1 Hq2 Hirq Himr Himr2.
  assert (Hlow : uval (U8 (Z.land irq 7)) = irq - 8).
  { rewrite land_7. replace (irq mod 8) with (irq - 8); [rewrite uval_to_uint_small; cbn; lia|].
    rewrite (Z.mod_eq irq 8) by lia. replace (irq / 8) with 1; [lia|].
    apply (Z.div_unique_pos irq 8 1 (irq - 8)); lia. }
  destruct (quiet_raise (secondary s) (U8 (Z.land irq 7)) Hq2) as (q & Hset & R & Hirr); [lia|].
  rewrite Hlow in Hirr. set (s0 := set_pic_at Secondary q s).
  assert (Hs0 : pics_ok s0).
  { apply (pics_ok_set Secondary); [done|]. rewrite R. by destruct Hs. }
  destruct (update_irq_spec s0 Hs0) as (b & s1 & Hup & Hsec & R1 & Hirr1 & _ & Hcas & Hb & _).
  assert (Hrun : service_irq irq true s = (Returns b, s1)).
  { unfold service_irq. destruct (Z.leb_spec irq 15); [|lia]. destruct (Z.leb_spec irq 7); [lia|].
    cbv zeta. erewrite bind_returns by apply get_state_run. cbn [pic_at]. rewrite Hset.
    erewrite bind_returns by done. by erewrite bind_returns by apply put_state_run. }
  assert (Hoff : offers Secondary (secondary s0) (irq - 8)).
  { apply (raised_offered Secondary (secondary s)); [done..|lia|done|done]. }
  assert (Ho : offers Primary (primary s1) 2).
  { apply (raised_offered Primary (primary s)); [done..|lia|done|]. intros j Hj.
    destruct (Z.eqb_spec j 2) as [->|].
    - apply Hcas; [by eexists|apply bit_zero, Hq1..].
    - rewrite Hirr1 by done. apply bit_zero, Hq1. }
  assert (b = true) as -> by (apply Hb; by eexists).
  exists s1. split_and!; [done| |done|by rewrite Hsec|by rewrite Hsec; cbn; rewrite R].
  eapply safe_run; [apply (service_irq_safe irq true); lia|exact Hs|exact Hrun].
Qed.

(** A device that raises its line gets through: when nothing is pending, an
    unmasked line going high makes the controller request an interrupt, and the
    processor is then given the vector of that line, through the cascade if it
    is a line of the secondary controller. *)
Theorem raised_line_delivered s (irq : u8) :
  pics_ok s → quiet (primary s) → quiet (secondary s) → irq <= 15 → uval irq ≠ 2 →
  (if irq <=? 7 then bit (imr (primary s)) irq = false
   else bit (imr (secondary s)) (irq - 8) = false ∧ bit (imr (primary s)) 2 = false) →
  ∃ s1 v s2, service_irq irq true s = (Returns true, s1) ∧
    get_external_interrupt s1 = (Returns (Some v), s2) ∧
    uval v = if irq <=? 7 then irq_base (primary s) + irq
             else irq_base (secondary s) + (irq - 8).
Proof using accepts.
  intros Hs Hq1 Hq2 Hirq Hne Himr. destruct (Z.leb_spec irq 7).
  - destruct (raise_primary s irq) as (s1 & Hrun & Hs1 & Ho & Hb); [done..|].
    destruct (offered_vector s1 irq Hs1 Ho) as (v & s2 & Hext & Hv).
    exists s1, v, s2. split_and!; [done..|]. unfold vector_of in Hv.
    destruct (Z.eqb_spec irq 2); [done|]. by rewrite Hv, Hb.
  - destruct Himr as [Himr Himr2].
    destruct (raise_secondary s irq) as (s1 & Hrun & Hs1 & Ho & Ho2 & Hb); [done..|lia|done|done|].
    destruct (offered_vector s1 2 Hs1 Ho) as (v & s2 & Hext & i & Hv & [Hi|[_ Hno]]);
      [|by destruct (Hno (irq - 8))].
    exists s1, v, s2. split_and!; [done..|]. rewrite Hv, Hb.
    by rewrite (offers_unique _ _ _ _ Hi Ho2).
Qed.

(** The edge/level register is not written as intended: the mask of lines
    that may be level-triggered is ignored, and what is stored is the value
    without the bits that were set before, so that writing the same value twice
    clears it. *)
Theorem write_elcr_toggles sel (v : u8) :
  ∃ s1 s2, pic_write_elcr sel v Pic_new = (Returns (), s1) ∧ elcr (pic_at sel s1) = v ∧
    pic_write_elcr sel v s1 = (Returns (), s2) ∧ uval (elcr (pic_at sel s2)) = 0.
Proof.
  eexists _, _. split; [apply update_pic_run|]. rewrite pic_at_set. cbn [elcr set_elcr].
  assert (H0 : elcr (pic_at sel Pic_new) = U8 0) by (by destruct sel).
  assert (Hv : uand v (unot (elcr (pic_at sel Pic_new))) = v).
  { apply bit_eq. intros n Hn. rewrite bit_and, bit_not, H0, bit_to_uint, Z.bits_0, andb_false_r by done.
    apply andb_true_r. }
  split; [exact Hv|]. split; [apply update_pic_run|]. rewrite !pic_at_set. cbn [elcr set_elcr].
  rewrite Hv. change 0 with (uval (U8 0)). f_equal. apply bit_eq. intros n Hn.
  rewrite bit_and, bit_not, bit_to_uint, Z.bits_0, !andb_false_r by done. apply andb_negb_r.
Qed.

End delivery.
