(* ===== verification/IoBus.v ===== *)
(** * The interrupt controller on the I/O bus

    [Pic] as a device of the bus, where [finalize_devices] of
    [libcrosvm/devices/src/irqchip/userspace.rs] attaches it, and what the
    accesses of a guest to ports do. *)

From S2P Require Import Prelude Checked Bits Bus BusFacts Pic PicFacts.

(** A panic of a method is [None]. *)
Definition run_command {A} (m : Command A) (s : Pic) : option (A * Pic) :=
  match m s with (Returns a, s') => Some (a, s') | _ => None end.

(** The traits [BusDevice] and [Suspendable] of [Pic]; it does not implement
    [BusDeviceSync]. *)
#[global] Instance Pic_BusDevice `{EventFds} : BusDevice Pic () := {
  debug_label _ := "userspace PIC"%string;
  dev_read info data := run_command (Pic_read info data);
  dev_write info data s := fmap snd (run_command (Pic_write info data) s);
  dev_sleep := mret ();
  dev_wake := mret ();
  dev_snapshot := mret ();
  dev_restore _ := mret ();
  sync_read _ _ _ := None;
  sync_write _ _ _ := None;
  sync_sleep := abort;
  sync_wake := abort;
  sync_snapshot := abort;
  sync_restore _ := abort
}.

(** [unwrap] of an insertion. *)
Definition insert_unwrap {D} (dev : nat) (base len : u64) : prog (BusState D) BusError () :=
  r ← catch (Bus_insert dev base len);
  match r with inl _ => mret () | inr _ => abort end.

Definition attach_pic {D} (dev : nat) : prog (BusState D) BusError () :=
  _ ← insert_unwrap dev (U64 0x20) (U64 2);
  _ ← insert_unwrap dev (U64 0xa0) (U64 2);
  insert_unwrap dev (U64 0x4d0) (U64 2).

Definition pic_map (dev : nat) : device_map :=
  [(MkBusRange (U64 0x20) (U64 2), OuterSync dev); (MkBusRange (U64 0xa0) (U64 2), OuterSync dev);
   (MkBusRange (U64 0x4d0) (U64 2), OuterSync dev)].

Lemma attach_pic_run {D} dev (store : gmap nat D) :
  attach_pic dev (MkBusState [] store) = (Returns (), MkBusState (pic_map dev) store).
Proof. by vm_compute. Qed.

Lemma pic_map_wf dev : bus_wf (pic_map dev).
Proof. unfold bus_wf, pic_map, range_limit. cbn. repeat split; vm_compute; done. Qed.

(** The bus finds the controller at the ports it decodes, and at no other. *)
Lemma pic_map_device dev (addr : u64) :
  match pic_port addr with
  | Some _ => ∃ offset, get_device addr (pic_map dev) = Some (Some (offset, addr, OuterSync dev))
  | None => get_device addr (pic_map dev) = Some None
  end.
Proof.
  assert (Hin : ∀ base, (MkBusRange (U64 base) (U64 2), OuterSync dev) ∈ pic_map dev →
      0 <= base < 2 ^ 64 → base <= addr < base + 2 →
      ∃ offset, get_device addr (pic_map dev) = Some (Some (offset, addr, OuterSync dev))).
  { intros base Hb Hr Ha. eexists. apply (get_device_owner 0); [apply pic_map_wf|].
    split; [done|]. unfold range_limit. cbn [br_base br_len].
    rewrite !uval_to_uint_small by (cbn; lia). lia. }
  destruct (decide (0x20 <= addr < 0x22)) as [H1|H1];
    [|destruct (decide (0xa0 <= addr < 0xa2)) as [H2|H2];
    [|destruct (decide (0x4d0 <= addr < 0x4d2)) as [H3|H3]]].
  - destruct (Hin 0x20) as [o Ho]; [by left|lia|lia|].
    unfold pic_port. assert (uval addr = 0x20 ∨ uval addr = 0x21) as [->| ->] by lia; by exists o.
  - destruct (Hin 0xa0) as [o Ho]; [by right; left|lia|lia|].
    unfold pic_port. assert (uval addr = 0xa0 ∨ uval addr = 0xa1) as [->| ->] by lia; by exists o.
  - destruct (Hin 0x4d0) as [o Ho]; [by right; right; left|lia|lia|].
    unfold pic_port. assert (uval addr = 0x4d0 ∨ uval addr = 0x4d1) as [->| ->] by lia; by exists o.
  - assert (pic_port addr = None) as ->.
    { unfold pic_port. repeat case_match; try done; lia. }
    apply get_device_none. intros r e [Hm Ha]. unfold pic_map in Hm. unfold range_limit in Ha.
    repeat (apply elem_of_cons in Hm as [[= -> ->]|Hm];
      [cbn [br_base br_len] in Ha; rewrite !uval_to_uint_small in Ha by (cbn; lia); lia|]).
    by apply elem_of_nil in Hm.
Qed.

Section ports.
Context `{EventFds}.
Hypothesis accepts : ∀ e, event_accepts e = true.

(** The command an access of one byte is. *)
Definition port_write (addr : u64) (value : u8) : Command () :=
  match pic_port addr with
  | Some (sel, PicCommand) => pic_write_command sel value
  | Some (sel, PicData) => pic_write_data sel value
  | Some (sel, PicElcr) => pic_write_elcr sel value
  | None => mret ()
  end.

(** Writing to a port of an I/O bus with the controller attached, with data of any length: the write is
    accepted exactly if the port is one of the six of the interrupt controller;
    it never panics; a byte has the effect of the command its port stands for,
    data of another length has none; and the controller stays well formed. *)
Theorem port_write_reaches_pic (b : Bus) dev pic (store : gmap nat Pic) addr data :
  store !! dev = Some pic → pics_ok pic →
  ∃ pic', Bus_write b addr data (MkBusState (pic_map dev) store) =
      (Returns (match pic_port addr with Some _ => true | None => false end),
       MkBusState (pic_map dev) (<[dev := pic']> store)) ∧ pics_ok pic' ∧
    (∀ v, data = [v] → port_write addr v pic = (Returns (), pic')) ∧
    (length data ≠ 1%nat → pic' = pic).
Proof using accepts.
  intros Hd Hok. pose proof (pic_map_device dev addr) as Hdev. unfold Bus_write.
  erewrite bind_returns by apply get_state_run. cbn [bs_devices bs_store].
  destruct (pic_port addr) as [[sel reg]|] eqn:Hp.
  - destruct Hdev as [offset ->]. erewrite bind_returns by done. cbn [entry_ptr]. rewrite Hd.
    erewrite bind_returns by done. cbn [entry_write dev_write Pic_BusDevice].
    set (info := MkAccess offset addr (bus_access_id b)).
    pose proof (Pic_write_safe accepts info data pic Hok) as Hw. unfold run_command.
    destruct (Pic_write info data pic) as [[[]|e|] pic'] eqn:Hrun; [|done..].
    destruct Hw as [Hok' _]. exists pic'. split_and!; [done|done| |].
    + intros v ->. rewrite <-Hrun. unfold port_write, Pic_write. cbn. by rewrite Hp.
    + intros Hlen. destruct data as [|v [|]]; [|done|]; by injection Hrun.
  - rewrite Hdev. erewrite bind_returns by done. exists pic. rewrite insert_id by done.
    split_and!; [done|done| |done]. intros v _. unfold port_write. by rewrite Hp.
Qed.

End ports.
