(* ===== verification/GuestMemory.v ===== *)
(** * Guest memory: [libcrosvm/vm_memory/src]

    [GuestAddress] of [guest_address.rs] and the regions of [guest_memory.rs],
    with the accesses to mappings of [base/src/mmap.rs].

    The bytes of the memory are those of shared memory objects of the host,
    which mappings make visible: [host] is the contents of the objects, so that
    two mappings of the same part of an object alias.  Creating an object and
    mapping it are calls of the kernel, which decides whether they succeed. *)

From S2P Require Import Prelude Checked Bits.

(** ** Addresses *)

Abbreviation GuestAddress := u64.

Definition offset_from (a base : GuestAddress) : option u64 := sub_checked a base.
Definition GuestAddress_checked_add (a : GuestAddress) (n : u64) : option GuestAddress :=
  add_checked a n.
Definition unchecked_add (a : GuestAddress) (n : u64) : GuestAddress := uadd a n.
Definition GuestAddress_checked_sub (a : GuestAddress) (n : u64) : option GuestAddress :=
  sub_checked a n.
Definition GuestAddress_mask (a : GuestAddress) (m : u64) : GuestAddress := uand a m.

(** [align]: the next multiple of a power of two; [align - 1] does not
    underflow. *)
Definition GuestAddress_align (a : GuestAddress) (align : u64) : option GuestAddress :=
  if align <=? 1 then Some a
  else b ← add_checked a (usub align (U64 1)); Some (uand b (unot (usub align (U64 1)))).

(** ** Objects and mappings *)

Definition host : Type := nat → Z → u8.

Record MemoryMapping := MkMapping { mm_obj : nat; mm_offset : u64; mm_size : u64 }.

(** The [n] bytes of an object from [off] on. *)
Definition host_read (h : host) (obj : nat) (off n : Z) : list u8 := map (h obj) (seqZ off n).

(** Copy bytes into an object. *)
Definition host_write (obj : nat) (off : Z) (bs : list u8) (h : host) : host := λ o z,
  if bool_decide (o = obj) && (off <=? z) && (z <? off + lengthZ bs)
  then default (U8 0) (bs !! Z.to_nat (z - off)) else h o z.

Inductive MmapError := InvalidAddress.

Inductive MemoryError :=
  | InvalidGuestAddress (a : GuestAddress)
  | InvalidOffset (n : u64)
  | InvalidSize (n : u64)
  | MemoryAccess (a : GuestAddress) (e : MmapError)
  | MemoryAddSealsFailed
  | MemoryCreationFailed
  | MemoryMappingFailed
  | MemoryNotAligned
  | MemoryRegionOverlap
  | MemoryRegionTooLarge (n : Z)
  | ShortRead (expected completed : Z)
  | ShortWrite (expected completed : Z)
  | VolatileMemoryAccess.

(** [range_end]. *)
Definition range_end (m : MemoryMapping) (offset count : u64) : option u64 :=
  mem_end ← add_checked offset count;
  if uval mem_end <=? mm_size m then Some mem_end else None.

(** [write_slice] and [read_slice]: as many bytes as fit. *)
Definition write_slice (m : MemoryMapping) (buf : list u8) (offset : u64) : prog host MmapError Z :=
  match sub_checked (mm_size m) offset with
  | Some size_past_offset =>
      let bytes_copied := Z.min (uval size_past_offset) (lengthZ buf) in
      h ← get_state;
      _ ← put_state (host_write (mm_obj m) (mm_offset m + offset) (takeZ bytes_copied buf) h);
      mret bytes_copied
  | None => throw InvalidAddress
  end.

Definition read_slice (m : MemoryMapping) (len : Z) (offset : u64) : prog host MmapError (list u8) :=
  match sub_checked (mm_size m) offset with
  | Some size_past_offset =>
      h ← get_state;
      mret (host_read h (mm_obj m) (mm_offset m + offset) (Z.min (uval size_past_offset) len))
  | None => throw InvalidAddress
  end.

(** [write_obj], [read_obj] and their volatile variants, on the bytes of the
    object: all of them or none. *)
Definition write_obj (m : MemoryMapping) (val : list u8) (offset : u64) : prog host MmapError () :=
  _ ← ok_or_throw (range_end m offset (U64 (lengthZ val))) InvalidAddress;
  h ← get_state;
  put_state (host_write (mm_obj m) (mm_offset m + offset) val h).

Definition read_obj (m : MemoryMapping) (size : u64) (offset : u64) : prog host MmapError (list u8) :=
  _ ← ok_or_throw (range_end m offset size) InvalidAddress;
  h ← get_state;
  mret (host_read h (mm_obj m) (mm_offset m + offset) size).

(** A volatile slice is a place in an object. *)
Record VolatileSlice := MkSlice { vs_obj : nat; vs_off : Z; vs_size : u64 }.

Definition get_slice (m : MemoryMapping) (offset count : u64) : option VolatileSlice :=
  mem_end ← add_checked offset count;
  if uval mem_end <=? mm_size m then Some (MkSlice (mm_obj m) (mm_offset m + offset) count) else None.

(** ** Regions *)

Record MemoryRegion := MkRegion {
  mr_mapping : MemoryMapping;
  mr_guest_base : GuestAddress;
  mr_obj_offset : u64
}.

Definition MemoryRegion_start (r : MemoryRegion) : GuestAddress := mr_guest_base r.
Definition MemoryRegion_end (r : MemoryRegion) : GuestAddress :=
  unchecked_add (mr_guest_base r) (mm_size (mr_mapping r)).
Definition MemoryRegion_contains (r : MemoryRegion) (a : GuestAddress) : bool :=
  (mr_guest_base r <=? a) && (a <? MemoryRegion_end r).

Definition GuestMemory : Type := list MemoryRegion.

(** ** Construction *)

Class HostKernel := {
  pagesize : u64;
  memfd_accepts : u64 → bool;
  seals_accepted : bool;
  mmap_accepts : u64 → u64 → u64 → bool
}.

Section construction.
Context `{HostKernel}.

(** The size of the shared memory; the sum is checked. *)
Fixpoint shm_size (ranges : list (GuestAddress * u64 * u64)) (size : u64) :
    outcome MemoryError u64 :=
  match ranges with
  | [] => Returns size
  | (_, len, _) :: ranges =>
      if uval len mod pagesize =? 0 then
        match add_checked size len with
        | Some size => shm_size ranges size
        | None => Aborts
        end
      else Throws MemoryNotAligned
  end.

(** [create_shm] gives the object [obj], filled with zeros. *)
Definition create_shm (obj : nat) (ranges : list (GuestAddress * u64 * u64)) :
    prog host MemoryError () := λ h,
  match shm_size ranges (U64 0) with
  | Returns size =>
      if memfd_accepts size then
        (if seals_accepted then Returns () else Throws MemoryAddSealsFailed,
         λ o z, if bool_decide (o = obj) then U8 0 else h o z)
      else (Throws MemoryCreationFailed, h)
  | Throws e => (Throws e, h)
  | Aborts => (Aborts, h)
  end.

(** The loop of [new_with_options]; a range is an address, a size and an
    alignment. *)
Fixpoint map_ranges (obj : nat) (ranges : list (GuestAddress * u64 * u64)) (offset : u64)
    (regions : GuestMemory) : outcome MemoryError GuestMemory :=
  match ranges with
  | [] => Returns regions
  | (base, size, align) :: ranges =>
      let overlap :=
        match last regions with
        | Some r =>
            match GuestAddress_checked_add (mr_guest_base r) (mm_size (mr_mapping r)) with
            | Some a => uval base <? a
            | None => true
            end
        | None => false
        end in
      if overlap then Throws MemoryRegionOverlap
      else if mmap_accepts offset size align then
        match add_checked offset size with
        | Some offset' =>
            map_ranges obj ranges offset'
              (regions ++ [MkRegion (MkMapping obj offset size) base offset])
        | None => Aborts
        end
      else Throws MemoryMappingFailed
  end.

Definition new_with_options (obj : nat) (ranges : list (GuestAddress * u64 * u64)) :
    prog host MemoryError GuestMemory :=
  _ ← create_shm obj ranges;
  give_outcome (map_ranges obj ranges (U64 0) []).

Definition GuestMemory_new (obj : nat) (ranges : list (GuestAddress * u64)) :
    prog host MemoryError GuestMemory :=
  new_with_options obj (map (λ '(a, n), (a, n, U64 0)) ranges).

(** [MemoryRegion::new_from_shm] and [new_from_file]. *)
Definition new_from_shm (size : u64) (guest_base : GuestAddress) (offset : u64) (obj : nat) :
    MemoryRegion + MemoryError :=
  if mmap_accepts offset size (U64 0) then inl (MkRegion (MkMapping obj offset size) guest_base offset)
  else inr MemoryMappingFailed.

End construction.

(** [from_regions]: a stable sort by the base and a check of neighbours. *)
Fixpoint insert_region (r : MemoryRegion) (l : GuestMemory) : GuestMemory :=
  match l with
  | [] => [r]
  | r' :: l' =>
      if mr_guest_base r <? mr_guest_base r' then r :: l else r' :: insert_region r l'
  end.

Fixpoint check_regions (prev_end : GuestAddress) (l : GuestMemory) : option MemoryError :=
  match l with
  | [] => None
  | r :: l =>
      if mr_guest_base r <? prev_end then Some MemoryRegionOverlap
      else
        match GuestAddress_checked_add (mr_guest_base r) (mm_size (mr_mapping r)) with
        | Some prev_end => check_regions prev_end l
        | None => Some (MemoryRegionTooLarge (mr_guest_base r + mm_size (mr_mapping r)))
        end
  end.

Definition from_regions (regions : list MemoryRegion) : GuestMemory + MemoryError :=
  let regions := foldl (λ l r, insert_region r l) [] regions in
  match regions with
  | r :: (_ :: _) =>
      match GuestAddress_checked_add (mr_guest_base r) (mm_size (mr_mapping r)) with
      | None => inr MemoryRegionOverlap
      | Some prev_end =>
          match check_regions prev_end (tail regions) with
          | None => inl regions
          | Some e => inr e
          end
      end
  | _ => inl regions
  end.

(** ** Queries *)

Section queries.
Implicit Types (gm : GuestMemory) (a : GuestAddress).

(** [max_by_key] keeps the last of the maximal elements. *)
Definition end_addr gm : GuestAddress :=
  match foldl (λ m r, match m with
                      | Some r' => if mr_guest_base r <? mr_guest_base r' then m else Some r
                      | None => Some r
                      end) None gm with
  | Some r => MemoryRegion_end r
  | None => U64 0
  end.

Definition guest_memory_regions gm : list (GuestAddress * u64) :=
  map (λ r, (mr_guest_base r, mm_size (mr_mapping r))) gm.

(** A checked sum. *)
Definition memory_size gm : option u64 :=
  foldl (λ n r, n ← n; add_checked n (mm_size (mr_mapping r))) (Some (U64 0)) gm.

Definition address_in_range gm a : bool := existsb (λ r, MemoryRegion_contains r a) gm.

Definition range_overlap gm (start end_ : GuestAddress) : bool :=
  existsb (λ r, (MemoryRegion_start r <? end_) && (start <? MemoryRegion_end r)) gm.

Definition checked_offset gm a (n : u64) : option GuestAddress :=
  b ← GuestAddress_checked_add a n; if address_in_range gm b then Some b else None.

Definition is_valid_range gm (start : GuestAddress) (length : u64) : bool :=
  if uval length =? 0 then false
  else
    match GuestAddress_checked_add start (usub length (U64 1)) with
    | Some end_ =>
        existsb (λ r, (MemoryRegion_start r <=? start) && (end_ <? MemoryRegion_end r)) gm
    | None => false
    end.

Definition num_regions gm : Z := lengthZ gm.

(** The mapping, the offset in it and the offset of the mapping in its object. *)
Definition find_region gm a : prog host MemoryError (MemoryMapping * u64 * u64) :=
  match List.find (λ r, MemoryRegion_contains r a) gm with
  | Some r => o ← checked (offset_from a (MemoryRegion_start r)); mret (mr_mapping r, o, mr_obj_offset r)
  | None => throw (InvalidGuestAddress a)
  end.

(** [map_err(|e| Error::MemoryAccess(guest_addr, e))]. *)
Definition mapping_error {A} a (m : prog host MmapError A) : prog host MemoryError A := λ h,
  match m h with
  | (Returns x, h') => (Returns x, h')
  | (Throws e, h') => (Throws (MemoryAccess a e), h')
  | (Aborts, h') => (Aborts, h')
  end.

(** ** Accesses *)

Definition write_at_addr gm (buf : list u8) a : prog host MemoryError Z :=
  '(mapping, offset, _) ← find_region gm a; mapping_error a (write_slice mapping buf offset).

Definition write_all_at_addr gm (buf : list u8) a : prog host MemoryError () :=
  completed ← write_at_addr gm buf a;
  if lengthZ buf =? completed then mret () else throw (ShortWrite (lengthZ buf) completed).

(** The bytes read into the start of a buffer of [len] bytes. *)
Definition read_at_addr gm (len : Z) a : prog host MemoryError (list u8) :=
  '(mapping, offset, _) ← find_region gm a; mapping_error a (read_slice mapping len offset).

Definition read_exact_at_addr gm (len : Z) a : prog host MemoryError (list u8) :=
  bs ← read_at_addr gm len a;
  if len =? lengthZ bs then mret bs else throw (ShortRead len (lengthZ bs)).

(** [read_obj_from_addr] and [read_obj_from_addr_volatile]. *)
Definition read_obj_from_addr gm (size : u64) a : prog host MemoryError (list u8) :=
  '(mapping, offset, _) ← find_region gm a; mapping_error a (read_obj mapping size offset).

Definition write_obj_at_addr gm (val : list u8) a : prog host MemoryError () :=
  '(mapping, offset, _) ← find_region gm a; mapping_error a (write_obj mapping val offset).

Definition get_slice_at_addr gm a (len : u64) : prog host MemoryError VolatileSlice :=
  match List.find (λ r, MemoryRegion_contains r a) gm with
  | Some r =>
      o ← checked (offset_from a (MemoryRegion_start r));
      ok_or_throw (get_slice (mr_mapping r) o len) VolatileMemoryAccess
  | None => throw (InvalidGuestAddress a)
  end.

(** [get_host_address_range]: the place in the object instead of the pointer. *)
Definition get_host_address_range gm a (size : u64) : prog host MemoryError (nat * Z) :=
  if uval size =? 0 then throw (InvalidSize size)
  else
    '(mapping, offset, _) ← find_region gm a;
    match sub_checked (mm_size mapping) offset with
    | Some v =>
        if uval v <? size then throw (InvalidGuestAddress a)
        else mret (mm_obj mapping, mm_offset mapping + uval offset)
    | None => throw (InvalidGuestAddress a)
    end.

Definition offset_from_base gm a : prog host MemoryError u64 :=
  match List.find (λ r, MemoryRegion_contains r a) gm with
  | Some r =>
      o ← checked (offset_from a (MemoryRegion_start r)); checked (add_checked (mr_obj_offset r) o)
  | None => throw (InvalidGuestAddress a)
  end.

(** The object that backs an address. *)
Definition shm_region gm a : prog host MemoryError nat :=
  match List.find (λ r, MemoryRegion_contains r a) gm with
  | Some r => mret (mm_obj (mr_mapping r))
  | None => throw (InvalidGuestAddress a)
  end.

End queries.
