(* ===== verification/GuestMemoryFacts.v ===== *)
(** * Theorems on guest memory

    A guest memory with regions that are disjoint, both in the address space of
    the guest and in the objects that back them, is a partial map from addresses
    to bytes. *)

From S2P Require Import Prelude Checked Bits GuestMemory.

(** ** Well-formed memories *)

Definition region_end (r : MemoryRegion) : Z := mr_guest_base r + mm_size (mr_mapping r).

(** Regions in ascending order, disjoint, and below the last address. *)
Fixpoint regions_from (lo : Z) (gm : GuestMemory) : Prop :=
  match gm with
  | [] => True
  | r :: gm => lo <= mr_guest_base r ∧ region_end r < 2 ^ 64 ∧ regions_from (region_end r) gm
  end.

(** The objects' bytes behind two regions are different. *)
Definition backing_apart (m m' : MemoryMapping) : Prop :=
  mm_obj m ≠ mm_obj m' ∨ mm_offset m + mm_size m <= mm_offset m' ∨
  mm_offset m' + mm_size m' <= mm_offset m.

Definition backing_disjoint (gm : GuestMemory) : Prop :=
  ∀ i j r r', gm !! i = Some r → gm !! j = Some r' → i ≠ j →
    backing_apart (mr_mapping r) (mr_mapping r').

Definition gm_ok (gm : GuestMemory) : Prop := regions_from 0 gm ∧ backing_disjoint gm.

(** The region of an address. *)
Definition region_at (gm : GuestMemory) (a : Z) (i : nat) (r : MemoryRegion) : Prop :=
  gm !! i = Some r ∧ mr_guest_base r <= a < region_end r.

Lemma region_end_ge r : 0 <= mr_guest_base r <= region_end r.
Proof.
  unfold region_end. pose proof (uint_range (mr_guest_base r)).
  pose proof (uint_range (mm_size (mr_mapping r))). lia.
Qed.

Lemma region_end_spec r : region_end r < 2 ^ 64 → uval (MemoryRegion_end r) = region_end r.
Proof.
  intros Hr. unfold MemoryRegion_end, unchecked_add, region_end in *.
  rewrite uadd_small; [done|]. exact Hr.
Qed.

Lemma regions_from_lookup lo gm i r :
  regions_from lo gm → gm !! i = Some r → lo <= mr_guest_base r ∧ region_end r < 2 ^ 64.
Proof.
  revert lo i. induction gm as [|r' gm IH]; intros lo i; [done|]. cbn.
  intros (Hlo & He & Hgm) Hi. destruct i as [|i]; cbn in Hi; [by simplify_eq|].
  destruct (IH _ _ Hgm Hi). split; [|done]. pose proof (region_end_ge r'). lia.
Qed.

Lemma region_contains_spec lo gm i r a :
  regions_from lo gm → gm !! i = Some r →
  MemoryRegion_contains r a = true ↔ mr_guest_base r <= a < region_end r.
Proof.
  intros Hgm Hi. destruct (regions_from_lookup _ _ _ _ Hgm Hi).
  unfold MemoryRegion_contains. rewrite region_end_spec by done.
  by rewrite andb_true_iff, Z.leb_le, Z.ltb_lt.
Qed.

Lemma region_at_unique lo gm a i r j r' :
  regions_from lo gm → region_at gm a i r → region_at gm a j r' → i = j ∧ r = r'.
Proof.
  revert lo i j. induction gm as [|r0 gm IH]; intros lo i j; [by intros _ [? _]|]. cbn.
  intros (Hlo & He & Hgm) [Hi Ha] [Hj Hb]. destruct i as [|i], j as [|j]; cbn in *.
  - by simplify_eq.
  - simplify_eq. destruct (regions_from_lookup _ _ _ _ Hgm Hj). lia.
  - simplify_eq. destruct (regions_from_lookup _ _ _ _ Hgm Hi). lia.
  - by destruct (IH _ i j Hgm) as [-> ->].
Qed.

(** The search for the region of an address. *)
Lemma find_region_at lo gm (a : u64) i r :
  regions_from lo gm → region_at gm a i r →
  List.find (λ r, MemoryRegion_contains r a) gm = Some r.
Proof.
  intros Hgm [Hi Ha]. destruct (List.find _ gm) as [r'|] eqn:Hf.
  - apply List.find_some in Hf as [Hin Hc]. apply list_elem_of_In, list_elem_of_lookup in Hin as [j Hj].
    apply (region_contains_spec lo gm j) in Hc; [|done..].
    by destruct (region_at_unique lo gm a i r j r') as [_ ->].
  - pose proof (List.find_none _ _ Hf r) as Hn. rewrite <-list_elem_of_In in Hn.
    specialize (Hn (list_elem_of_lookup_2 _ _ _ Hi)).
    by rewrite (proj2 (region_contains_spec lo gm i r a Hgm Hi) Ha) in Hn.
Qed.

Lemma find_region_none lo gm (a : u64) :
  regions_from lo gm → (∀ i r, ¬ region_at gm a i r) →
  List.find (λ r, MemoryRegion_contains r a) gm = None.
Proof.
  intros Hgm Hno. destruct (List.find _ gm) as [r|] eqn:Hf; [|done].
  apply List.find_some in Hf as [Hin Hc]. apply list_elem_of_In, list_elem_of_lookup in Hin as [j Hj].
  apply (region_contains_spec lo gm j) in Hc; [|done..]. by destruct (Hno j r).
Qed.

Lemma region_at_dec lo gm a :
  regions_from lo gm → (∃ i r, region_at gm a i r) ∨ (∀ i r, ¬ region_at gm a i r).
Proof.
  revert lo. induction gm as [|r gm IH]; intros lo; cbn; [right; by intros i r [? _]|].
  intros (_ & _ & Hgm). destruct (decide (mr_guest_base r <= a < region_end r)).
  { left. by exists O, r. }
  destruct (IH _ Hgm) as [(i & r' & Hi & Ha)|Hno]; [left; by exists (S i), r'|].
  right. intros [|i] r' [Hi Ha]; cbn in Hi; [by simplify_eq|]. by destruct (Hno i r').
Qed.

(** ** Bytes *)

Lemma host_read_length h obj off n : 0 <= n → lengthZ (host_read h obj off n) = n.
Proof. intros. unfold lengthZ, host_read. rewrite length_map, length_seqZ. lia. Qed.

Lemma host_read_lookup h obj off n i :
  0 <= i < n → host_read h obj off n !! Z.to_nat i = Some (h obj (off + i)).
Proof.
  intros. unfold host_read. rewrite list_lookup_fmap, lookup_seqZ_lt by lia. cbn.
  by rewrite Z2Nat.id by lia.
Qed.

Lemma host_write_in obj off bs h z :
  off <= z < off + lengthZ bs →
  Some (host_write obj off bs h obj z) = bs !! Z.to_nat (z - off).
Proof.
  intros Hz. unfold host_write. rewrite bool_decide_true by done. cbn.
  destruct (Z.leb_spec off z), (Z.ltb_spec z (off + lengthZ bs)); try lia. cbn.
  destruct (lookup_lt_is_Some_2 bs (Z.to_nat (z - off))) as [b Hb]; [unfold lengthZ in *; lia|].
  by rewrite Hb.
Qed.

Lemma host_write_out obj off bs h o z :
  o ≠ obj ∨ ¬ (off <= z < off + lengthZ bs) → host_write obj off bs h o z = h o z.
Proof.
  intros Hz. unfold host_write. case_bool_decide; [|done]. cbn.
  destruct (Z.leb_spec off z), (Z.ltb_spec z (off + lengthZ bs)); try done. lia.
Qed.

(** The byte at an address of the guest. *)
Definition guest_byte (gm : GuestMemory) (h : host) (a : Z) : option u8 :=
  match List.find (λ r, (mr_guest_base r <=? a) && (a <? region_end r)) gm with
  | Some r => Some (h (mm_obj (mr_mapping r)) (mm_offset (mr_mapping r) + (a - mr_guest_base r)))
  | None => None
  end.

(** The [n] bytes from an address on. *)
Definition guest_bytes (gm : GuestMemory) (h : host) (a n : Z) : list u8 :=
  map (λ x, default (U8 0) (guest_byte gm h x)) (seqZ a n).

Lemma guest_byte_at lo gm h a i r :
  regions_from lo gm → region_at gm a i r →
  guest_byte gm h a = Some (h (mm_obj (mr_mapping r)) (mm_offset (mr_mapping r) + (a - mr_guest_base r))).
Proof.
  intros Hgm Ha. unfold guest_byte.
  destruct (List.find _ gm) as [r'|] eqn:Hf.
  - apply List.find_some in Hf as [Hin Hc]. apply list_elem_of_In, list_elem_of_lookup in Hin as [j Hj].
    cbn beta in Hc. zbool. by destruct (region_at_unique lo gm a i r j r') as [_ ->].
  - destruct Ha as [Hi Ha]. pose proof (List.find_none _ _ Hf r) as Hn.
    rewrite <-list_elem_of_In in Hn. specialize (Hn (list_elem_of_lookup_2 _ _ _ Hi)).
    cbn beta in Hn. zbool. lia.
Qed.

Lemma guest_byte_none gm h a : (∀ i r, ¬ region_at gm a i r) → guest_byte gm h a = None.
Proof.
  intros Hno. unfold guest_byte. destruct (List.find _ gm) as [r|] eqn:Hf; [|done].
  apply List.find_some in Hf as [Hin Hc]. apply list_elem_of_In, list_elem_of_lookup in Hin as [j Hj].
  cbn beta in Hc. zbool. by destruct (Hno j r).
Qed.

Lemma guest_bytes_length gm h a n : 0 <= n → lengthZ (guest_bytes gm h a n) = n.
Proof. intros. unfold lengthZ, guest_bytes. rewrite length_map, length_seqZ. lia. Qed.

Lemma guest_bytes_lookup gm h a n i :
  0 <= i < n → guest_bytes gm h a n !! Z.to_nat i = Some (default (U8 0) (guest_byte gm h (a + i))).
Proof.
  intros. unfold guest_bytes. rewrite list_lookup_fmap, lookup_seqZ_lt by lia. cbn.
  by rewrite Z2Nat.id by lia.
Qed.

(** Lists of bytes are equal if they have the same length and elements. *)
Lemma bytes_ext (l k : list u8) :
  lengthZ l = lengthZ k → (∀ i, 0 <= i < lengthZ l → l !! Z.to_nat i = k !! Z.to_nat i) → l = k.
Proof.
  unfold lengthZ. intros Hlen Hi. apply list_eq. intros i.
  destruct (decide (i < length l)%nat).
  - specialize (Hi (Z.of_nat i)). rewrite Nat2Z.id in Hi. apply Hi. lia.
  - by rewrite !lookup_ge_None_2 by lia.
Qed.

Lemma guest_bytes_ext gm h h' a n :
  (∀ x, a <= x < a + n → guest_byte gm h x = guest_byte gm h' x) →
  guest_bytes gm h a n = guest_bytes gm h' a n.
Proof.
  intros Heq. unfold guest_bytes. apply list_fmap_ext. intros i x Hx.
  apply lookup_seqZ in Hx as [-> Hi]. by rewrite Heq by lia.
Qed.

(** ** Accesses *)

(** [n] bytes from [a] on are in one region. *)
Definition fits (gm : GuestMemory) (a n : Z) : Prop :=
  ∃ i r, region_at gm a i r ∧ a + n <= region_end r.

Lemma find_region_run lo gm (a : u64) i r h :
  regions_from lo gm → region_at gm a i r →
  ∃ o, find_region gm a h = (Returns (mr_mapping r, o, mr_obj_offset r), h) ∧
    uval o = a - mr_guest_base r.
Proof.
  intros Hgm Ha. unfold find_region. rewrite (find_region_at lo gm a i r) by done.
  destruct Ha as [Hi Ha]. unfold offset_from, MemoryRegion_start.
  destruct (sub_checked a (mr_guest_base r)) as [o|] eqn:Ho; [|apply sub_checked_None in Ho; lia].
  apply sub_checked_Some in Ho. by exists o.
Qed.

Lemma range_end_fits (m : MemoryMapping) (o n : u64) :
  (∃ e, GuestMemory.range_end m o n = Some e) ↔ o + n <= mm_size m.
Proof.
  unfold GuestMemory.range_end. destruct (add_checked o n) as [e|] eqn:He; cbn.
  - apply add_checked_Some in He. destruct (Z.leb_spec e (mm_size m)).
    + split; [lia|by eexists].
    + split; [by intros [? ?]|lia].
  - apply add_checked_None in He. split; [by intros [? ?]|]. pose proof (uint_range (mm_size m)). lia.
Qed.

Section access.
Context (gm : GuestMemory) (Hgm : gm_ok gm).

(** Writing bytes behind a region changes these bytes and no other. *)
Lemma guest_byte_write i r (a : Z) bs h x :
  region_at gm a i r → a + lengthZ bs <= region_end r →
  guest_byte gm
    (host_write (mm_obj (mr_mapping r)) (mm_offset (mr_mapping r) + (a - mr_guest_base r)) bs h) x =
  if (a <=? x) && (x <? a + lengthZ bs) then bs !! Z.to_nat (x - a) else guest_byte gm h x.
Proof using Hgm.
  intros Ha Hend. destruct Hgm as [Hreg Hback].
  destruct (region_at_dec 0 gm x Hreg) as [(j & r' & Hx)|Hno].
  - rewrite !(guest_byte_at 0 gm _ x j r') by done.
    destruct ((a <=? x) && (x <? a + lengthZ bs)) eqn:Hin; zbool.
    + assert (Hx' : region_at gm x i r) by (split; [apply Ha|destruct Ha; lia]).
      destruct (region_at_unique 0 gm x i r j r') as [<- <-]; [done..|].
      rewrite host_write_in by lia. f_equal. lia.
    + rewrite host_write_out; [done|]. destruct (decide (i = j)) as [<-|Hne].
      * destruct Ha as [Hi _], Hx as [Hj _]. simplify_eq. right. lia.
      * destruct Ha as [Hi Ha], Hx as [Hj Hx].
        destruct (Hback i j r r' Hi Hj Hne) as [?|?]; [left; congruence|right].
        unfold region_end in *. lia.
  - rewrite !guest_byte_none by done.
    destruct (Z.leb_spec a x), (Z.ltb_spec x (a + lengthZ bs)); cbn; try done.
    destruct (Hno i r). split; [apply Ha|]. destruct Ha. lia.
Qed.

Lemma write_obj_run (val : list u8) (a : u64) h :
  fits gm a (lengthZ val) → lengthZ val < 2 ^ 64 →
  ∃ h', write_obj_at_addr gm val a h = (Returns (), h') ∧
    ∀ x, guest_byte gm h' x =
      if (a <=? x) && (x <? a + lengthZ val) then val !! Z.to_nat (x - a) else guest_byte gm h x.
Proof using Hgm.
  intros (i & r & Ha & Hend) Hlen. pose proof (proj1 Hgm) as Hreg.
  destruct (find_region_run 0 gm a i r h Hreg Ha) as (o & Hf & Ho).
  unfold write_obj_at_addr. erewrite bind_returns by exact Hf. unfold mapping_error, write_obj.
  assert (Hn : uval (U64 (lengthZ val)) = lengthZ val).
  { apply uval_to_uint_small. pose proof (lengthZ_nonneg val). cbn. lia. }
  destruct (proj2 (range_end_fits (mr_mapping r) o (U64 (lengthZ val)))) as [e He].
  { unfold region_end in Hend. lia. }
  rewrite He. run_prog. eexists. split; [done|]. intros x. rewrite Ho. by apply (guest_byte_write i).
Qed.

(** The bytes of a region are those of its object. *)
Lemma guest_bytes_region h (a : Z) n i r :
  region_at gm a i r → a + n <= region_end r →
  guest_bytes gm h a n =
  host_read h (mm_obj (mr_mapping r)) (mm_offset (mr_mapping r) + (a - mr_guest_base r)) n.
Proof using Hgm.
  intros Ha Hend. destruct (decide (0 <= n)) as [Hn|]; last first.
  { unfold guest_bytes, host_read. by rewrite !seqZ_nil by lia. }
  apply bytes_ext; rewrite guest_bytes_length by done; [by rewrite host_read_length|].
  intros k Hk. rewrite guest_bytes_lookup, host_read_lookup by done.
  rewrite (guest_byte_at 0 gm h (a + k) i r); [|apply Hgm|destruct Ha; by split; [|lia]].
  cbn. do 2 f_equal. lia.
Qed.

Lemma read_obj_run (n a : u64) h :
  fits gm a n → read_obj_from_addr gm n a h = (Returns (guest_bytes gm h a n), h).
Proof using Hgm.
  intros (i & r & Ha & Hend). destruct Hgm as [Hreg _].
  destruct (find_region_run 0 gm a i r h Hreg Ha) as (o & Hf & Ho).
  unfold read_obj_from_addr. erewrite bind_returns by exact Hf. unfold mapping_error, read_obj.
  destruct (proj2 (range_end_fits (mr_mapping r) o n)) as [e ->]; [unfold region_end in Hend; lia|].
  run_prog. by rewrite (guest_bytes_region h a n i r), Ho.
Qed.

(** An access that does not fit fails and changes nothing. *)
Lemma access_fails (val : list u8) (a : u64) h :
  ¬ fits gm a (lengthZ val) → lengthZ val < 2 ^ 64 →
  (∃ e, write_obj_at_addr gm val a h = (Throws e, h)) ∧
  (∃ e, read_obj_from_addr gm (U64 (lengthZ val)) a h = (Throws e, h)).
Proof using Hgm.
  intros Hno Hlen. destruct Hgm as [Hreg _].
  assert (Hn : uval (U64 (lengthZ val)) = lengthZ val).
  { apply uval_to_uint_small. pose proof (lengthZ_nonneg val). cbn. lia. }
  destruct (region_at_dec 0 gm a Hreg) as [(i & r & Ha)|Hnone].
  - destruct (find_region_run 0 gm a i r h Hreg Ha) as (o & Hf & Ho).
    unfold write_obj_at_addr, read_obj_from_addr, mapping_error, write_obj, read_obj.
    rewrite !(bind_returns _ _ _ _ _ Hf).
    destruct (GuestMemory.range_end (mr_mapping r) o (U64 (lengthZ val))) as [e|] eqn:He.
    + destruct Hno. exists i, r. split; [done|].
      pose proof (proj1 (range_end_fits (mr_mapping r) o (U64 (lengthZ val))) (ex_intro _ e He)).
      unfold region_end. lia.
    + run_prog. eauto.
  - unfold write_obj_at_addr, read_obj_from_addr, find_region.
    rewrite (find_region_none 0 gm a Hreg Hnone). run_prog. eauto.
Qed.

(** [is_valid_range] says which accesses fit. *)
Lemma is_valid_range_fits (a n : u64) :
  0 < n → is_valid_range gm a n = true ↔ fits gm a n.
Proof using Hgm.
  intros Hn. destruct Hgm as [Hreg _]. unfold is_valid_range, GuestAddress_checked_add.
  destruct (Z.eqb_spec n 0); [lia|].
  assert (Hsub : uval (usub n (U64 1)) = n - 1) by (rewrite usub_small; [done|change (uval (U64 1)) with 1; lia]).
  destruct (add_checked a (usub n (U64 1))) as [e|] eqn:He.
  - apply add_checked_Some in He. rewrite existsb_exists. split.
    + intros (r & Hin & Hc). apply list_elem_of_In, list_elem_of_lookup in Hin as [i Hi].
      destruct (regions_from_lookup _ _ _ _ Hreg Hi). rewrite region_end_spec in Hc by done.
      unfold MemoryRegion_start in Hc. zbool. exists i, r. split; [split; [done|lia]|lia].
    + intros (i & r & [Hi Ha] & Hend). exists r.
      split; [by apply list_elem_of_In, (list_elem_of_lookup_2 _ i)|].
      destruct (regions_from_lookup _ _ _ _ Hreg Hi). rewrite region_end_spec by done.
      unfold MemoryRegion_start. apply andb_true_iff. rewrite Z.leb_le, Z.ltb_lt. lia.
  - apply add_checked_None in He. split; [done|]. intros (i & r & [Hi Ha] & Hend).
    destruct (regions_from_lookup _ _ _ _ Hreg Hi). cbn [Z.of_N] in He. lia.
Qed.

(** Either an access fits, or it fails. *)
Lemma read_obj_cases (n a : u64) h :
  0 < n →
  (fits gm a n ∧ read_obj_from_addr gm n a h = (Returns (guest_bytes gm h a n), h)) ∨
  (¬ fits gm a n ∧ ∃ e, read_obj_from_addr gm n a h = (Throws e, h)).
Proof using Hgm.
  intros Hn. pose proof (is_valid_range_fits a n Hn) as Hv. destruct (is_valid_range gm a n).
  - left. assert (fits gm a n) by (by apply Hv). split; [done|]. by apply read_obj_run.
  - right. assert (Hno : ¬ fits gm a n) by (intros Hf; by apply Hv in Hf). split; [done|].
    assert (Hlen : lengthZ (replicate (Z.to_nat n) (U8 0)) = n).
    { unfold lengthZ. rewrite length_replicate. lia. }
    destruct (access_fails (replicate (Z.to_nat n) (U8 0)) a h) as [_ [e He]].
    + by rewrite Hlen.
    + rewrite Hlen. pose proof (uint_range n). cbn [Z.of_N] in *. lia.
    + exists e. by rewrite Hlen, to_uint_uval in He.
Qed.

(** A slice for a range of addresses reads and writes the bytes there. *)
Definition slice_for (s : VolatileSlice) (a n : Z) : Prop :=
  uval (vs_size s) = n ∧
  (∀ h k, k <= n → host_read h (vs_obj s) (vs_off s) k = guest_bytes gm h a k) ∧
  (∀ h bs x, lengthZ bs <= n →
    guest_byte gm (host_write (vs_obj s) (vs_off s) bs h) x =
    if (a <=? x) && (x <? a + lengthZ bs) then bs !! Z.to_nat (x - a) else guest_byte gm h x) ∧
  ∃ r, r ∈ gm ∧ vs_obj s = mm_obj (mr_mapping r).

Lemma get_slice_run (a n : u64) h :
  fits gm a n → ∃ s, get_slice_at_addr gm a n h = (Returns s, h) ∧ slice_for s a n.
Proof using Hgm.
  intros (i & r & Ha & Hend). pose proof (proj1 Hgm) as Hreg. unfold get_slice_at_addr.
  rewrite (find_region_at 0 gm a i r) by done. unfold offset_from, MemoryRegion_start.
  destruct (sub_checked a (mr_guest_base r)) as [o|] eqn:Ho;
    [|apply sub_checked_None in Ho; destruct Ha; lia].
  apply sub_checked_Some in Ho. unfold get_slice. run_prog.
  assert (uval (mm_size (mr_mapping r)) = region_end r - mr_guest_base r) by (unfold region_end; lia).
  destruct (add_checked o n) as [e|] eqn:He; last first.
  { apply add_checked_None in He. pose proof (uint_range (mm_size (mr_mapping r))). lia. }
  apply add_checked_Some in He. cbn [option_bind].
  destruct (Z.leb_spec e (mm_size (mr_mapping r))); [|lia].
  eexists. split; [done|]. unfold slice_for. cbn. rewrite Ho. split_and!; [done|..].
  - intros h' k Hk. by rewrite (guest_bytes_region h' a k i r) by (done || lia).
  - intros h' bs x Hk. apply (guest_byte_write i); [done|lia].
  - exists r. split; [|done]. destruct Ha as [Hi _]. by apply list_elem_of_lookup_2 in Hi.
Qed.

End access.

(** C27. Guest memory is a partial map from addresses to bytes.  An object can be
    written or read at an address exactly if [is_valid_range] accepts the range
    of its bytes; writing it changes these bytes and no other, and reading it
    gives back what was written; an access that is refused changes nothing. *)
Theorem guest_access_spec gm (val : list u8) (a : u64) h :
  gm_ok gm → 0 < lengthZ val < 2 ^ 64 →
  if is_valid_range gm a (U64 (lengthZ val)) then
    ∃ h', write_obj_at_addr gm val a h = (Returns (), h') ∧
      read_obj_from_addr gm (U64 (lengthZ val)) a h' = (Returns val, h') ∧
      ∀ x, guest_byte gm h' x =
        if (a <=? x) && (x <? a + lengthZ val) then val !! Z.to_nat (x - a) else guest_byte gm h x
  else
    (∃ e, write_obj_at_addr gm val a h = (Throws e, h)) ∧
    (∃ e, read_obj_from_addr gm (U64 (lengthZ val)) a h = (Throws e, h)).
Proof.
  intros Hgm Hlen. assert (Hn : uval (U64 (lengthZ val)) = lengthZ val).
  { apply uval_to_uint_small. cbn. lia. }
  pose proof (is_valid_range_fits gm Hgm a (U64 (lengthZ val))) as Hfit. rewrite Hn in Hfit.
  destruct (is_valid_range _ _ _).
  - assert (Hf : fits gm a (lengthZ val)) by (apply Hfit; [lia|done]).
    destruct (write_obj_run gm Hgm val a h Hf) as (h' & Hw & Hview); [lia|].
    exists h'. split_and!; [done| |done]. rewrite read_obj_run by (by rewrite ?Hn). do 2 f_equal.
    rewrite Hn. apply bytes_ext; rewrite guest_bytes_length by lia; [done|].
    intros i Hi. rewrite guest_bytes_lookup, Hview by done.
    destruct (Z.leb_spec a (a + i)), (Z.ltb_spec (a + i) (a + lengthZ val)); try lia. cbn.
    replace (a + i - a) with i by lia.
    destruct (lookup_lt_is_Some_2 val (Z.to_nat i)) as [b Hb]; [unfold lengthZ in *; lia|].
    by rewrite Hb.
  - apply access_fails; [done| |lia]. intros Hf. by apply Hfit in Hf; [|lia].
Qed.

(** ** New memories *)

(** What the loop over the ranges checks. *)
Fixpoint linked (prev : option MemoryRegion) (l : GuestMemory) : Prop :=
  match l with
  | [] => True
  | r :: l =>
      match prev with
      | Some p => region_end p < 2 ^ 64 ∧ region_end p <= mr_guest_base r
      | None => True
      end ∧ linked (Some r) l
  end.

(** Consecutive parts of one object. *)
Fixpoint packed (obj : nat) (off : Z) (l : GuestMemory) : Prop :=
  match l with
  | [] => True
  | r :: l =>
      mm_obj (mr_mapping r) = obj ∧ uval (mm_offset (mr_mapping r)) = off ∧
      packed obj (off + mm_size (mr_mapping r)) l
  end.

Lemma linked_regions p l :
  linked (Some p) l → (∀ r, last (p :: l) = Some r → region_end r < 2 ^ 64) →
  regions_from (region_end p) l ∧ region_end p < 2 ^ 64.
Proof.
  revert p. induction l as [|r l IH]; intros p; cbn.
  - intros _ Hlast. split; [done|]. by apply Hlast.
  - intros [[Hp Hle] Hl] Hlast. destruct (IH r Hl) as [Hr He]; [done|]. by split_and!.
Qed.

Lemma packed_lookup obj off l i r :
  packed obj off l → l !! i = Some r →
  mm_obj (mr_mapping r) = obj ∧ off <= mm_offset (mr_mapping r).
Proof.
  revert off i. induction l as [|r' l IH]; intros off [|i]; cbn; try done.
  - intros (? & ? & _) [= <-]. lia.
  - intros (Ho & Hoff & Hl) Hi. destruct (IH _ i Hl Hi). split; [done|].
    pose proof (uint_range (mm_size (mr_mapping r'))). lia.
Qed.

Lemma packed_disjoint obj off l : packed obj off l → backing_disjoint l.
Proof.
  revert off. induction l as [|r0 l IH]; intros off Hp; [by intros i j r r' ?|].
  destruct Hp as (Ho & Hoff & Hl). intros i j r r' Hi Hj Hne.
  destruct i as [|i], j as [|j]; cbn in Hi, Hj; try done; simplify_eq.
  - destruct (packed_lookup _ _ _ _ _ Hl Hj). right; left. lia.
  - destruct (packed_lookup _ _ _ _ _ Hl Hi). right; right. lia.
  - apply (IH _ Hl i j r r'); [done..|]. by intros ->.
Qed.

Section new.
Context `{HostKernel}.

Lemma map_ranges_spec obj ranges (off : u64) acc gm :
  map_ranges obj ranges off acc = Returns gm →
  ∃ l, gm = acc ++ l ∧ linked (last acc) l ∧ packed obj off l ∧
    guest_memory_regions l = map fst ranges.
Proof.
  revert off acc. induction ranges as [|[[base size] align] ranges IH]; intros off acc; cbn.
  { intros [= <-]. exists []. by rewrite app_nil_r. }
  destruct (match last acc with Some r => _ | None => _ end) eqn:Hov; [done|].
  destruct (mmap_accepts _ _ _); [|done].
  destruct (add_checked off size) as [off'|] eqn:Hoff; [|done]. apply add_checked_Some in Hoff.
  intros Hrun. destruct (IH _ _ Hrun) as (l & -> & Hlink & Hpack & Hreg).
  set (r := MkRegion _ _ _) in *. rewrite last_snoc in Hlink.
  exists (r :: l). split; [by rewrite <-app_assoc|]. cbn [linked packed].
  change (guest_memory_regions (r :: l)) with ((base, size) :: guest_memory_regions l).
  rewrite Hreg. cbn [mr_mapping mm_size mm_obj mm_offset r]. rewrite <-Hoff.
  split_and!; try done. destruct (last acc) as [p|]; [|done].
  unfold GuestAddress_checked_add in Hov.
  destruct (add_checked (mr_guest_base p) _) as [e|] eqn:He; [|done].
  apply add_checked_Some in He. pose proof (uint_range e). zbool. unfold region_end. cbn in *. lia.
Qed.

(** Creating a guest memory checks its ranges: if it succeeds and the last
    range ends below the end of the address space, the regions are the ranges
    asked for, they are disjoint and ascending, no two share memory of the host,
    and every byte is zero. *)
Theorem new_memory_ok obj ranges h gm h' :
  new_with_options obj ranges h = (Returns gm, h') →
  (∀ base size align, last ranges = Some (base, size, align) → base + size < 2 ^ 64) →
  gm_ok gm ∧ guest_memory_regions gm = map fst ranges ∧
  ∀ a, guest_byte gm h' a =
    if existsb (λ '(base, size, _), (uval base <=? a) && (a <? uval base + uval size)) ranges
    then Some (U8 0) else None.
Proof.
  unfold new_with_options, create_shm. run_prog. intros Hrun Hlast.
  destruct (shm_size ranges (U64 0)) as [size| |]; [|done..].
  destruct (memfd_accepts size); [|done]. destruct seals_accepted; [|done].
  unfold give_outcome in Hrun. injection Hrun as Hmap <-.
  destruct (map_ranges_spec _ _ _ _ _ Hmap) as (l & -> & Hlink & Hpack & Hreg). cbn in *.
  assert (Hok : gm_ok l).
  { split; [|by eapply packed_disjoint]. destruct l as [|r l]; [done|]. destruct Hlink as [_ Hlink].
    destruct (linked_regions r l Hlink) as [Hr He].
    - intros r' Hr'. assert (Hl : last (map fst ranges) = Some (mr_guest_base r', mm_size (mr_mapping r'))).
      { rewrite <-Hreg. unfold guest_memory_regions. change (map ?f (r :: l)) with (f <$> (r :: l)).
        by rewrite fmap_last, Hr'. }
      change (map fst ranges) with (fst <$> ranges) in Hl. rewrite fmap_last in Hl.
      destruct (last ranges) as [[[b s] al]|]; [|done]. cbn in Hl. simplify_eq. by eapply Hlast.
    - cbn. split_and!; [|done|done]. pose proof (region_end_ge r). lia. }
  split_and!; [done..|]. intros a.
  assert (Hex : existsb (λ '(base, size, _), (uval base <=? a) && (a <? uval base + uval size)) ranges = true
      ↔ ∃ i r, region_at l a i r).
  { rewrite existsb_exists. split.
    - intros ([[b s] al] & Hin & Hc). apply (in_map fst) in Hin. rewrite <-Hreg in Hin.
      apply in_map_iff in Hin as (r & Heq & Hin). apply list_elem_of_In, list_elem_of_lookup in Hin as [i Hi].
      injection Heq as <- <-. zbool. exists i, r. split; [done|]. unfold region_end. lia.
    - intros (i & r & Hi & Ha). assert (Hin : In (mr_guest_base r, mm_size (mr_mapping r)) (map fst ranges)).
      { rewrite <-Hreg. apply in_map_iff. exists r. split; [done|].
        by apply list_elem_of_In, (list_elem_of_lookup_2 _ i). }
      apply in_map_iff in Hin as ([[b s] al] & Heq & Hin). exists (b, s, al). split; [done|].
      cbn in Heq. simplify_eq. unfold region_end in Ha. apply andb_true_iff.
      rewrite Z.leb_le, Z.ltb_lt. lia. }
  destruct (existsb _ ranges).
  - destruct (proj1 Hex eq_refl) as (i & r & Ha). rewrite (guest_byte_at 0 l _ a i r); [|apply Hok|done].
    destruct (packed_lookup _ _ _ _ _ Hpack (proj1 Ha)) as [-> _]. by rewrite bool_decide_true.
  - apply guest_byte_none. intros i r Ha. assert (false = true); [|done]. apply Hex. eauto.
Qed.

(** The end of the last range is not checked: a memory that reaches the end
    of the address space is created, and then contains no address. *)
Theorem last_region_wraps obj h :
  pagesize = U64 4096 → memfd_accepts (U64 4096) = true → seals_accepted = true →
  mmap_accepts (U64 0) (U64 4096) (U64 0) = true →
  ∃ gm h', GuestMemory_new obj [(U64 (2 ^ 64 - 4096), U64 4096)] h = (Returns gm, h') ∧
    guest_memory_regions gm = [(U64 (2 ^ 64 - 4096), U64 4096)] ∧
    uval (end_addr gm) = 0 ∧ ∀ a, address_in_range gm a = false.
Proof.
  intros Hp Hm Hs Hmap. unfold GuestMemory_new, new_with_options, create_shm. cbn [map shm_size].
  rewrite Hp. change (uval (U64 4096) mod U64 4096 =? 0) with true. cbn match.
  replace (add_checked (U64 0) (U64 4096)) with (Some (U64 4096)) by done.
  run_prog. rewrite Hm, Hs. unfold give_outcome. cbn [map_ranges last]. rewrite Hmap.
  replace (add_checked (U64 0) (U64 4096)) with (Some (U64 4096)) by done.
  eexists _, _. split; [done|]. split_and!; [done|done|]. intros a. cbn.
  rewrite orb_false_r. unfold MemoryRegion_contains. apply andb_false_iff. right.
  apply Z.ltb_ge. change (uval (MemoryRegion_end _)) with 0. apply uint_range.
Qed.

End new.
