(* ===== verification/DescriptorUtils.v ===== *)
(** * Buffers of descriptor chains

    [MemRegion] and its iterator of [libcrosvm/cros_async/src/mem.rs], and the
    [Reader] and [Writer] of [libcrosvm/devices/src/virtio/descriptor_utils.rs]
    over the regions of a descriptor chain.  Arithmetic on [usize] is checked;
    the position of a reader is its state, next to the bytes of the guest. *)

From S2P Require Import Prelude Checked Bits GuestMemory.

Record MemRegion : Set := MkMemRegion { rg_offset : u64; rg_len : u64 }.

(** ** The iterator

    [MemRegionIter] as the sequence of what its [next] returns: the regions from
    [skip] bytes on, cut after [remaining] bytes.  The addition of the offset is
    checked, and the iterator panics if it overflows. *)

Inductive items := Done | Panic | Item (r : MemRegion) (rest : items).

Fixpoint iter_items (regions : list MemRegion) (skip remaining : u64) : items :=
  if uval remaining =? 0 then Done
  else
    match regions with
    | [] => Done
    | first :: rest =>
        if rg_len first <=? skip then iter_items rest (usub skip (rg_len first)) remaining
        else
          match add_checked (rg_offset first) skip with
          | None => Panic
          | Some o =>
              let len := usub (rg_len first) skip in
              if remaining <=? len then Item (MkMemRegion o remaining) Done
              else Item (MkMemRegion o len) (iter_items rest (U64 0) (usub remaining len))
          end
    end.

Definition usize_max : u64 := U64 (2 ^ 64 - 1).

(** [MemRegionIter::new(regions).skip_bytes(skip)]; nothing was skipped before,
    and [remaining_bytes] saturates at 0. *)
Definition skip_items (regions : list MemRegion) (skip : u64) : items :=
  iter_items regions skip (usub usize_max skip).

(** [.take_bytes(count)] after it. *)
Definition take_items (regions : list MemRegion) (skip count : u64) : items :=
  iter_items regions skip (umin (usub usize_max skip) count).

(** The items of an iterator that is run to its end. *)
Fixpoint collect_items (l : items) : option (list MemRegion) :=
  match l with
  | Done => Some []
  | Panic => None
  | Item r l => rs ← collect_items l; Some (r :: rs)
  end.

(** ** The regions of a chain *)

Record DescriptorChainRegions := MkChainRegions {
  dcr_regions : list MemRegion;
  current_region_index : nat;
  current_region_offset : u64;
  bytes_consumed : u64
}.

Definition DescriptorChainRegions_new (regions : list MemRegion) : DescriptorChainRegions :=
  MkChainRegions regions 0 (U64 0) (U64 0).

Section regions.
Implicit Types d : DescriptorChainRegions.

(** [&self.regions[self.current_region_index..]]: the index is never beyond the
    end. *)
Definition current_regions d : list MemRegion := drop (current_region_index d) (dcr_regions d).

Definition get_remaining_regions d : items := skip_items (current_regions d) (current_region_offset d).
Definition get_remaining_regions_with_count d (count : u64) : items :=
  take_items (current_regions d) (current_region_offset d) count.

Fixpoint sum_lengths (l : list MemRegion) (count : u64) : option u64 :=
  match l with
  | [] => Some count
  | r :: l => count ← add_checked count (rg_len r); sum_lengths l count
  end.

Definition available_bytes d : option u64 :=
  l ← collect_items (get_remaining_regions d); sum_lengths l (U64 0).

(** The loop of [consume], over the regions from the current one on. *)
Fixpoint consume_loop (rest : list MemRegion) (index : nat) (offset consumed count : u64) :
    option (nat * u64 * u64) :=
  match rest with
  | [] => Some (index, offset, consumed)
  | region :: rest =>
      region_remaining ← sub_checked (rg_len region) offset;
      if uval count <? uval region_remaining then
        offset ← add_checked offset count;
        consumed ← add_checked consumed count;
        Some (index, offset, consumed)
      else
        consumed ← add_checked consumed region_remaining;
        count ← sub_checked count region_remaining;
        consume_loop rest (S index) (U64 0) consumed count
  end.

Definition consume d (count : u64) : option DescriptorChainRegions :=
  '(index, offset, consumed) ←
    consume_loop (current_regions d) (current_region_index d) (current_region_offset d)
      (bytes_consumed d) count;
  Some (MkChainRegions (dcr_regions d) index offset consumed).

(** The loop of [split_at] over the regions from the current one on: the regions
    that are left to [self]. *)
Fixpoint split_loop (rest : list MemRegion) (rem : u64) : option (list MemRegion) :=
  match rest with
  | [] => Some []
  | region :: rest =>
      if rem <=? rg_len region then Some [MkMemRegion (rg_offset region) rem]
      else
        rem ← sub_checked rem (rg_len region);
        l ← split_loop rest rem;
        Some (region :: l)
  end.

(** [self] after the split and the other half. *)
Definition regions_split_at d (offset : u64) :
    option (DescriptorChainRegions * DescriptorChainRegions) :=
  other ← consume d offset;
  let other := MkChainRegions (dcr_regions other) (current_region_index other)
                 (current_region_offset other) (U64 0) in
  l ← split_loop (current_regions d) offset;
  Some (MkChainRegions (take (current_region_index d) (dcr_regions d) ++ l)
          (current_region_index d) (current_region_offset d) (bytes_consumed d), other).

End regions.

(** ** Readers and writers *)

Inductive IoError := InvalidData | UnexpectedEof | WriteZero.

(** The guest memory is the same for all; the state is the position of the
    reader or writer and the bytes of the host. *)
Abbreviation Stream := (prog (DescriptorChainRegions * host) IoError).

Section streams.
Context (mem : GuestMemory).

(** An access to the guest memory, with its error as the value. *)
Definition on_memory {A} (m : prog host MemoryError A) : Stream (A + MemoryError) := λ '(d, h),
  match m h with
  | (Returns a, h') => (Returns (inl a), (d, h'))
  | (Throws e, h') => (Returns (inr e), (d, h'))
  | (Aborts, h') => (Aborts, (d, h'))
  end.

(** Copying from and to a volatile slice. *)
Definition slice_read (s : VolatileSlice) (n : Z) : Stream (list u8) :=
  '(_, h) ← get_state; mret (host_read h (vs_obj s) (vs_off s) n).
Definition slice_write (s : VolatileSlice) (bs : list u8) : Stream () :=
  '(d, h) ← get_state; put_state (d, host_write (vs_obj s) (vs_off s) bs h).

Definition consume_bytes (count : u64) : Stream () :=
  '(d, h) ← get_state; d' ← checked (consume d count); put_state (d', h).

(** [copy_regions_to_mut_ptr]: the bytes copied, at most [size] in all. *)
Fixpoint copy_items (src : items) (copied : list u8) (size : Z) : Stream (list u8) :=
  match src with
  | Done => mret copied
  | Panic => abort
  | Item r src =>
      if size <=? lengthZ copied then mret copied
      else
        let count := Z.min (size - lengthZ copied) (rg_len r) in
        v ← on_memory (get_slice_at_addr mem (rg_offset r) (U64 count));
        match v with
        | inr _ => throw InvalidData
        | inl vslice =>
            bs ← slice_read vslice count;
            copy_items src (copied ++ bs) size
        end
  end.

Definition copy_remaining (size : Z) : Stream (list u8) :=
  '(d, _) ← get_state; copy_items (get_remaining_regions d) [] size.

(** [Reader::peek_obj] and [read_obj], on the bytes of the object. *)
Definition peek_obj (size : Z) : Stream (list u8) :=
  bs ← copy_remaining size;
  if lengthZ bs =? size then mret bs else throw UnexpectedEof.

Definition reader_read_obj (size : Z) : Stream (list u8) :=
  bs ← peek_obj size;
  _ ← consume_bytes (U64 size);
  mret bs.

(** [ReaderIterator::next], and [Reader::collect] into a [Result] of a vector,
    which stops at the first error.  With objects that are not empty, one step
    per byte left is more than enough. *)
Definition reader_next (size : Z) : Stream (option (list u8)) :=
  '(d, _) ← get_state;
  n ← checked (available_bytes d);
  if uval n =? 0 then mret None
  else bs ← reader_read_obj size; mret (Some bs).

Fixpoint collect_loop (fuel : nat) (size : Z) : Stream (list (list u8)) :=
  match fuel with
  | O => abort
  | S fuel =>
      next ← reader_next size;
      match next with
      | None => mret []
      | Some obj => objs ← collect_loop fuel size; mret (obj :: objs)
      end
  end.

Definition Reader_collect (size : Z) : Stream (list (list u8)) :=
  '(d, _) ← get_state;
  n ← checked (available_bytes d);
  collect_loop (S (Z.to_nat (uval n))) size.

(** [Read for Reader]: the bytes read into a buffer of [len] bytes. *)
Definition Reader_read (len : Z) : Stream (list u8) :=
  bs ← copy_remaining len;
  _ ← consume_bytes (U64 (lengthZ bs));
  mret bs.

(** [get_remaining]: the slices of the remaining regions. *)
Fixpoint slices_of (l : list MemRegion) : Stream (list VolatileSlice) :=
  match l with
  | [] => mret []
  | r :: l =>
      v ← on_memory (get_slice_at_addr mem (rg_offset r) (rg_len r));
      vs ← slices_of l;
      mret (match v with inl s => s :: vs | inr _ => vs end)
  end.

Definition get_remaining : Stream (list VolatileSlice) :=
  '(d, _) ← get_state;
  l ← checked (collect_items (get_remaining_regions d));
  slices_of l.

(** The loop of [write]: the number of bytes written. *)
Fixpoint write_slices (dst : list VolatileSlice) (rem : list u8) (total : Z) : Stream Z :=
  match dst with
  | [] => mret total
  | b :: dst =>
      if lengthZ rem =? 0 then mret total
      else
        let count := Z.min (lengthZ rem) (vs_size b) in
        _ ← slice_write b (takeZ count rem);
        write_slices dst (dropZ count rem) (total + count)
  end.

(** [Write for Writer]. *)
Definition Writer_write (buf : list u8) : Stream Z :=
  dst ← get_remaining;
  total ← write_slices dst buf 0;
  _ ← consume_bytes (U64 total);
  mret total.

(** [write_all] of the standard library; a write makes progress or is the last
    one. *)
Fixpoint write_all_loop (fuel : nat) (buf : list u8) : Stream () :=
  if lengthZ buf =? 0 then mret ()
  else
    match fuel with
    | O => abort
    | S fuel =>
        n ← Writer_write buf;
        if n =? 0 then throw WriteZero else write_all_loop fuel (dropZ n buf)
    end.

Definition Writer_write_obj (val : list u8) : Stream () := write_all_loop (length val) val.

(** [Writer::write_iter], and [consume] on a collection. *)
Fixpoint Writer_write_iter (vals : list (list u8)) : Stream () :=
  match vals with
  | [] => mret ()
  | v :: vals => _ ← Writer_write_obj v; Writer_write_iter vals
  end.

(** [copy_to_volatile_slice] and [VolatileSlice::offset]. *)
Definition copy_to_volatile_slice (src dst : VolatileSlice) : Stream () :=
  bs ← slice_read src (Z.min (vs_size src) (vs_size dst));
  slice_write dst bs.

Definition slice_offset (s : VolatileSlice) (count : u64) : option VolatileSlice :=
  size ← sub_checked (vs_size s) count; Some (MkSlice (vs_obj s) (vs_off s + count) size).

(** The loops of [read_to_volatile_slice] and [write_from_volatile_slice]. *)
Fixpoint read_loop (srcs : list VolatileSlice) (dst : VolatileSlice) (read : Z) : Stream Z :=
  match srcs with
  | [] => mret read
  | src :: srcs =>
      _ ← copy_to_volatile_slice src dst;
      let copied := umin (vs_size src) (vs_size dst) in
      match slice_offset dst copied with
      | Some dst => read_loop srcs dst (read + copied)
      | None => mret (read + copied)
      end
  end.

Definition read_to_volatile_slice (slice : VolatileSlice) : Stream Z :=
  srcs ← get_remaining;
  read ← read_loop srcs slice 0;
  _ ← consume_bytes (U64 read);
  mret read.

Fixpoint write_loop (dsts : list VolatileSlice) (src : VolatileSlice) (written : Z) : Stream Z :=
  match dsts with
  | [] => mret written
  | dst :: dsts =>
      _ ← copy_to_volatile_slice src dst;
      let copied := umin (vs_size src) (vs_size dst) in
      match slice_offset src copied with
      | Some src => write_loop dsts src (written + copied)
      | None => mret (written + copied)
      end
  end.

Definition write_from_volatile_slice (slice : VolatileSlice) : Stream Z :=
  dsts ← get_remaining;
  written ← write_loop dsts slice 0;
  _ ← consume_bytes (U64 written);
  mret written.

End streams.
