(* ===== verification/StreamFacts.v ===== *)
(** * Theorems on readers and writers

    A reader or writer over regions of guest memory is a stream: a list of the
    addresses that are left, and what it reads and writes are the bytes there in
    order, however the regions cut them up. *)

From S2P Require Import Prelude Checked Bits GuestMemory GuestMemoryFacts DescriptorUtils.

(** ** Addresses *)

Definition region_addrs (r : MemRegion) : list Z := seqZ (rg_offset r) (rg_len r).
Definition addrs (l : list MemRegion) : list Z := concat (map region_addrs l).
#[global] Arguments region_addrs : simpl never.
#[global] Arguments addrs : simpl never.

(** The addresses a reader or writer has left. *)
Definition remaining (d : DescriptorChainRegions) : list Z :=
  dropZ (current_region_offset d) (addrs (current_regions d)).

Lemma addrs_cons r l : addrs (r :: l) = region_addrs r ++ addrs l.
Proof. done. Qed.

Lemma addrs_app l k : addrs (l ++ k) = addrs l ++ addrs k.
Proof. unfold addrs. by rewrite map_app, concat_app. Qed.

Lemma lengthZ_region_addrs r : lengthZ (region_addrs r) = rg_len r.
Proof. unfold lengthZ, region_addrs. rewrite length_seqZ. pose proof (uint_range (rg_len r)). lia. Qed.

Lemma dropZ_seqZ a n k : 0 <= k <= n → dropZ k (seqZ a n) = seqZ (a + k) (n - k).
Proof.
  intros. rewrite dropZ_drop. replace n with (k + (n - k)) at 1 by lia.
  rewrite seqZ_app by lia. rewrite drop_app_length'; [done|]. rewrite length_seqZ. lia.
Qed.

Lemma takeZ_seqZ a n k : 0 <= k <= n → takeZ k (seqZ a n) = seqZ a k.
Proof.
  intros. rewrite takeZ_take. replace n with (k + (n - k)) at 1 by lia.
  rewrite seqZ_app by lia. rewrite take_app_length'; [done|]. rewrite length_seqZ. lia.
Qed.

Lemma dropZ_app_le {A} n (l k : list A) : 0 <= n <= lengthZ l → dropZ n (l ++ k) = dropZ n l ++ k.
Proof. unfold lengthZ. intros. rewrite !dropZ_drop, drop_app_le by lia. done. Qed.

Lemma takeZ_app_le {A} n (l k : list A) : n <= lengthZ l → takeZ n (l ++ k) = takeZ n l.
Proof. unfold lengthZ. intros. rewrite !takeZ_take, take_app_le by lia. done. Qed.

Lemma dropZ_ge {A} n (l : list A) : lengthZ l <= n → dropZ n l = [].
Proof. unfold lengthZ. intros. rewrite dropZ_drop, drop_ge by lia. done. Qed.

(** ** The iterator *)

Section ranges.
Context (P : Z → Z → Prop).
Hypothesis P_sub : ∀ a n a' n', P a n → a <= a' → 0 < n' → a' + n' <= a + n → P a' n'.
Hypothesis P_end : ∀ a n, P a n → a + n < 2 ^ 64.

Definition region_in (r : MemRegion) : Prop := P (rg_offset r) (rg_len r).

Lemma iter_items_spec l (skip rem : u64) :
  Forall region_in l →
  ∃ k, collect_items (iter_items l skip rem) = Some k ∧ Forall region_in k ∧
    addrs k = takeZ rem (dropZ skip (addrs l)).
Proof using P_sub P_end.
  intros Hl. revert skip rem. induction Hl as [|r l Hr Hl IH]; intros skip rem.
  { exists []. unfold iter_items. destruct (uval rem =? 0); by cbn. }
  cbn [iter_items]. destruct (Z.eqb_spec (uval rem) 0) as [Hz|Hz].
  { exists []. split_and!; [done..|]. rewrite Hz. symmetry. by rewrite takeZ_take. }
  pose proof (uint_range rem). pose proof (uint_range skip). pose proof (uint_range (rg_offset r)).
  pose proof (P_end _ _ Hr). rewrite addrs_cons.
  destruct (Z.leb_spec (rg_len r) skip) as [Hskip|Hskip].
  { destruct (IH (usub skip (rg_len r)) rem) as (k & Hk & Hin & Ha). exists k. split_and!; [done..|].
    rewrite Ha, usub_small by done. rewrite dropZ_app_ge; by rewrite lengthZ_region_addrs. }
  destruct (add_checked (rg_offset r) skip) as [o|] eqn:Ho;
    [|apply add_checked_None in Ho; cbn [Z.of_N] in Ho; lia].
  apply add_checked_Some in Ho. assert (Hlen : uval (usub (rg_len r) skip) = rg_len r - skip).
  { apply usub_small. lia. }
  rewrite dropZ_app_le by (rewrite lengthZ_region_addrs; lia).
  unfold region_addrs at 1. rewrite dropZ_seqZ, Hlen by lia.
  destruct (Z.leb_spec rem (rg_len r - skip)).
  - eexists. split_and!; [done| |].
    + repeat constructor. apply (P_sub _ _ _ _ Hr); cbn; lia.
    + rewrite takeZ_app_le by (unfold lengthZ; rewrite length_seqZ; lia).
      rewrite takeZ_seqZ, addrs_cons by lia. unfold region_addrs. cbn. by rewrite Ho, app_nil_r.
  - destruct (IH (U64 0) (usub rem (usub (rg_len r) skip))) as (k & Hk & Hin & Ha).
    eexists. cbn [collect_items]. rewrite Hk. split_and!; [done| |].
    + constructor; [|done]. apply (P_sub _ _ _ _ Hr); cbn; lia.
    + rewrite addrs_cons, Ha. unfold region_addrs at 1. cbn [rg_offset rg_len]. rewrite Ho, Hlen.
      rewrite takeZ_app_ge by (unfold lengthZ; rewrite length_seqZ; lia).
      f_equal. change (uval (U64 0)) with 0. rewrite dropZ_0, usub_small, Hlen by lia. f_equal.
      unfold lengthZ. rewrite length_seqZ. lia.
Qed.

End ranges.

Lemma fits_sub gm a n a' n' :
  fits gm a n → a <= a' → 0 < n' → a' + n' <= a + n → fits gm a' n'.
Proof. intros (i & r & [Hi Ha] & Hend) ???. exists i, r. split; [split; [done|]|]; lia. Qed.

Lemma fits_end gm a n : gm_ok gm → fits gm a n → a + n < 2 ^ 64.
Proof.
  intros [Hreg _] (i & r & [Hi Ha] & Hend). destruct (regions_from_lookup _ _ _ _ Hreg Hi). lia.
Qed.

Section streams.
Context (gm : GuestMemory) (Hgm : gm_ok gm).

Abbreviation valid := (region_in (fits gm)).

(** A position in regions that are in guest memory, with no more bytes than
    [usize] counts. *)
Record stream_ok (d : DescriptorChainRegions) : Prop := {
  so_offset : match current_regions d with
              | r :: _ => uval (current_region_offset d) <= rg_len r
              | [] => uval (current_region_offset d) = 0
              end;
  so_valid : Forall valid (current_regions d);
  so_total : lengthZ (addrs (current_regions d)) < 2 ^ 64;
  so_consumed : bytes_consumed d + lengthZ (remaining d) < 2 ^ 64
}.

Lemma get_remaining_regions_spec d :
  stream_ok d → ∃ k, collect_items (get_remaining_regions d) = Some k ∧ Forall valid k ∧
    addrs k = remaining d.
Proof using Hgm.
  intros [_ Hv Ht _]. pose proof (uint_range (current_region_offset d)).
  destruct (iter_items_spec (fits gm) (fits_sub gm) (λ a n, fits_end gm a n Hgm)
    (current_regions d) (current_region_offset d) (usub usize_max (current_region_offset d)) Hv)
    as (k & Hk & Hin & Ha).
  exists k. split_and!; [done..|]. rewrite Ha. unfold remaining. apply takeZ_all.
  change (2 ^ Z.of_N 64) with (2 ^ 64) in *.
  rewrite lengthZ_dropZ, usub_small by (change (uval usize_max) with (2 ^ 64 - 1); lia).
  change (uval usize_max) with (2 ^ 64 - 1). lia.
Qed.

Lemma sum_lengths_spec l (c : u64) :
  c + lengthZ (addrs l) < 2 ^ 64 → ∃ c', sum_lengths l c = Some c' ∧ uval c' = c + lengthZ (addrs l).
Proof.
  revert c. induction l as [|r l IH]; intros c; cbn [sum_lengths].
  { intros. exists c. split; [done|]. change (lengthZ (addrs [])) with 0. lia. }
  rewrite addrs_cons, lengthZ_app, lengthZ_region_addrs. intros Hc.
  pose proof (lengthZ_nonneg (addrs l)).
  destruct (add_checked c (rg_len r)) as [c1|] eqn:H1;
    [|apply add_checked_None in H1; cbn [Z.of_N] in H1; lia].
  apply add_checked_Some in H1. cbn. destruct (IH c1) as (c' & -> & Hc'); [lia|].
  exists c'. split; [done|lia].
Qed.

Lemma available_bytes_spec d :
  stream_ok d → ∃ n, available_bytes d = Some n ∧ uval n = lengthZ (remaining d).
Proof using Hgm.
  intros Hd. destruct (get_remaining_regions_spec d Hd) as (k & Hk & _ & Ha).
  unfold available_bytes. rewrite Hk. cbn.
  destruct (sum_lengths_spec k (U64 0)) as (n & Hn & Hv).
  { rewrite Ha. change (uval (U64 0)) with 0. destruct Hd as [_ _ _ Hc].
    pose proof (uint_range (bytes_consumed d)). lia. }
  exists n. split; [done|]. by rewrite Hv, Ha.
Qed.

(** ** Consuming *)

Lemma consume_loop_spec l rest idx (off cons count : u64) :
  drop idx l = rest →
  match rest with r :: _ => uval off <= rg_len r | [] => uval off = 0 end →
  cons + lengthZ (dropZ off (addrs rest)) < 2 ^ 64 →
  ∃ idx' off' cons', consume_loop rest idx off cons count = Some (idx', off', cons') ∧
    match drop idx' l with r :: _ => uval off' <= rg_len r | [] => uval off' = 0 end ∧
    (∃ k, drop idx' l = drop k rest) ∧
    dropZ off' (addrs (drop idx' l)) = dropZ count (dropZ off (addrs rest)) ∧
    uval cons' = cons + Z.min count (lengthZ (dropZ off (addrs rest))).
Proof.
  revert idx off cons count. induction rest as [|r rest IH]; intros idx off cons count Hl Hoff Hc.
  { exists idx, off, cons. rewrite Hl. split_and!; try done; [by exists O|].
    change (lengthZ _) with 0 at 1. pose proof (uint_range count). lia. }
  cbn [consume_loop]. rewrite addrs_cons in Hc |- *.
  pose proof (uint_range off) as Hor. pose proof (uint_range count).
  rewrite dropZ_app_le in Hc |- * by (rewrite lengthZ_region_addrs; lia).
  pose proof (lengthZ_nonneg (addrs rest)).
  rewrite lengthZ_app, lengthZ_dropZ, lengthZ_region_addrs in Hc |- * by lia.
  destruct (sub_checked (rg_len r) off) as [rem|] eqn:Hrem; [|apply sub_checked_None in Hrem; lia].
  apply sub_checked_Some in Hrem. cbn [mbind option_bind].
  destruct (Z.ltb_spec count rem).
  - destruct (add_checked off count) as [off'|] eqn:Ho;
      [|apply add_checked_None in Ho; pose proof (uint_range (rg_len r)); lia].
    destruct (add_checked cons count) as [cons'|] eqn:Hco;
      [|apply add_checked_None in Hco; cbn [Z.of_N] in Hco; lia].
    apply add_checked_Some in Ho, Hco. cbn. exists idx, off', cons'. rewrite Hl.
    split_and!; [done|lia|by exists O| |lia].
    rewrite addrs_cons, dropZ_app_le by (rewrite lengthZ_region_addrs; lia).
    rewrite dropZ_app_le by (rewrite lengthZ_dropZ, lengthZ_region_addrs by lia; lia).
    f_equal. rewrite dropZ_dropZ by lia. by rewrite Ho.
  - destruct (add_checked cons rem) as [cons'|] eqn:Hco;
      [|apply add_checked_None in Hco; cbn [Z.of_N] in Hco; lia].
    destruct (sub_checked count rem) as [count'|] eqn:Hcn; [|apply sub_checked_None in Hcn; lia].
    apply add_checked_Some in Hco. apply sub_checked_Some in Hcn. cbn [mbind option_bind].
    assert (Hrest : drop (S idx) l = rest).
    { replace (S idx) with (idx + 1)%nat by lia. by rewrite <-drop_drop, Hl. }
    destruct (IH (S idx) (U64 0) cons' count' Hrest) as (idx' & off' & c' & Hrun & Hw & [k Hk] & Ha & Hn).
    + destruct rest; [done|]. change (uval (U64 0)) with 0. apply uint_range.
    + change (uval (U64 0)) with 0. rewrite dropZ_0. lia.
    + change (uval (U64 0)) with 0 in *. rewrite dropZ_0 in Ha, Hn.
      exists idx', off', c'. split_and!; [done..|by exists (S k)| |lia].
      rewrite Ha, dropZ_app_ge by (rewrite lengthZ_dropZ, lengthZ_region_addrs by lia; lia).
      f_equal. rewrite lengthZ_dropZ, lengthZ_region_addrs by lia. lia.
Qed.

Lemma addrs_drop k l : ∃ n, 0 <= n ∧ addrs (drop k l) = dropZ n (addrs l).
Proof.
  exists (lengthZ (addrs (take k l))). split; [apply lengthZ_nonneg|].
  rewrite <-(take_drop k l) at 3. by rewrite addrs_app, dropZ_app_exact.
Qed.

Lemma consume_spec d (n : u64) :
  stream_ok d → ∃ d', consume d n = Some d' ∧ stream_ok d' ∧ dcr_regions d' = dcr_regions d ∧
    remaining d' = dropZ n (remaining d) ∧
    uval (bytes_consumed d') = bytes_consumed d + Z.min n (lengthZ (remaining d)).
Proof.
  intros [Hoff Hv Ht Hc]. pose proof (uint_range n).
  destruct (consume_loop_spec (dcr_regions d) (current_regions d) (current_region_index d)
    (current_region_offset d) (bytes_consumed d) n) as (i & o & c & Hrun & Hw & [k Hk] & Ha & Hn); [done..|].
  unfold consume. rewrite Hrun. cbn. eexists. split_and!; [done| |done|done|done].
  constructor; unfold remaining, current_regions in *; cbn.
  - exact Hw.
  - rewrite Hk. by apply Forall_drop.
  - rewrite Hk. destruct (addrs_drop k (drop (current_region_index d) (dcr_regions d))) as (m & Hm & ->).
    rewrite lengthZ_dropZ by done. pose proof (lengthZ_nonneg (addrs (drop (current_region_index d) (dcr_regions d)))). lia.
  - rewrite Ha, Hn, (lengthZ_dropZ n) by lia. lia.
Qed.

(** ** Reading *)

Definition bytes_at (h : host) (l : list Z) : list u8 :=
  map (λ a, default (U8 0) (guest_byte gm h a)) l.

Lemma bytes_at_app h l k : bytes_at h (l ++ k) = bytes_at h l ++ bytes_at h k.
Proof. apply map_app. Qed.
Lemma lengthZ_bytes_at h l : lengthZ (bytes_at h l) = lengthZ l.
Proof. apply lengthZ_map. Qed.

Lemma copy_items_spec it k h d copied size :
  collect_items it = Some k → Forall valid k → lengthZ copied <= size < 2 ^ 64 →
  copy_items gm it copied size (d, h) =
  (Returns (copied ++ takeZ (size - lengthZ copied) (bytes_at h (addrs k))), (d, h)).
Proof using Hgm.
  revert k copied. induction it as [| |r it IH]; intros k copied; cbn [collect_items copy_items]; [|done|].
  { intros [= <-] _ _. cbn. by rewrite app_nil_r. }
  destruct (collect_items it) as [k'|] eqn:Hk; [|done]. cbn. intros [= <-] Hv Hsize.
  inversion_clear Hv as [|? ? Hr Hv']. pose proof (lengthZ_nonneg copied).
  destruct (Z.leb_spec size (lengthZ copied)).
  { replace (size - lengthZ copied) with 0 by lia. rewrite takeZ_take. cbn. by rewrite app_nil_r. }
  pose proof (uint_range (rg_len r)). remember (Z.min (size - lengthZ copied) (rg_len r)) as count eqn:Hmin.
  assert (Hcount : uval (U64 count) = count) by (apply uval_to_uint_small; cbn; lia).
  assert (Hfit : fits gm (rg_offset r) (U64 count)).
  { rewrite Hcount. destruct Hr as (i & mr & Ha & Hend). exists i, mr. split; [done|lia]. }
  destruct (get_slice_run gm Hgm (rg_offset r) (U64 count) h Hfit) as (s & Hs & Hsize' & Hrd & _).
  erewrite bind_returns by (unfold on_memory; by rewrite Hs). cbn beta iota.
  erewrite bind_returns by done. cbn beta iota. rewrite Hrd by lia.
  assert (Hg : guest_bytes gm h (rg_offset r) count = takeZ (size - lengthZ copied) (bytes_at h (region_addrs r))).
  { unfold guest_bytes, bytes_at, region_addrs. subst count.
    destruct (decide (size - lengthZ copied <= rg_len r)).
    - rewrite Z.min_l, takeZ_take, firstn_map, <-takeZ_take, takeZ_seqZ by lia. done.
    - rewrite Z.min_r by lia. fold (region_addrs r). symmetry. apply takeZ_all.
      rewrite lengthZ_map, lengthZ_region_addrs. lia. }
  assert (Hlen : lengthZ (guest_bytes gm h (rg_offset r) count) = count) by (apply guest_bytes_length; lia).
  rewrite (IH k') by (rewrite ?lengthZ_app; done || lia).
  rewrite lengthZ_app, Hlen, <-app_assoc. do 3 f_equal.
  rewrite addrs_cons, bytes_at_app. destruct (decide (size - lengthZ copied <= rg_len r)).
  - rewrite takeZ_app_le by (rewrite lengthZ_bytes_at, lengthZ_region_addrs; lia). rewrite Hg.
    replace (size - (lengthZ copied + count)) with 0 by lia. rewrite (takeZ_take 0). cbn. apply app_nil_r.
  - rewrite takeZ_app_ge by (rewrite lengthZ_bytes_at, lengthZ_region_addrs; lia).
    rewrite Hg, takeZ_all by (rewrite lengthZ_bytes_at, lengthZ_region_addrs; lia).
    f_equal. f_equal. rewrite lengthZ_bytes_at, lengthZ_region_addrs. lia.
Qed.

Lemma copy_remaining_spec d h size :
  stream_ok d → 0 <= size < 2 ^ 64 →
  copy_remaining gm size (d, h) = (Returns (takeZ size (bytes_at h (remaining d))), (d, h)).
Proof using Hgm.
  intros Hd Hsize. destruct (get_remaining_regions_spec d Hd) as (k & Hk & Hv & Ha).
  unfold copy_remaining. erewrite bind_returns by done. cbn beta iota.
  rewrite (copy_items_spec _ k) by (done || (rewrite lengthZ_nil; lia)).
  rewrite lengthZ_nil, Z.sub_0_r, Ha. done.
Qed.

Lemma consume_bytes_spec d h (n : u64) :
  stream_ok d → ∃ d', consume_bytes n (d, h) = (Returns (), (d', h)) ∧ stream_ok d' ∧
    remaining d' = dropZ n (remaining d) ∧
    uval (bytes_consumed d') = bytes_consumed d + Z.min n (lengthZ (remaining d)).
Proof.
  intros Hd. destruct (consume_spec d n Hd) as (d' & Hrun & Hd' & _ & Hrem & Hc).
  exists d'. split_and!; [|done..]. unfold consume_bytes. erewrite bind_returns by done. cbn beta iota.
  rewrite Hrun. done.
Qed.

(** ** Writing *)

(** Bytes stored one after the other at a list of addresses. *)
Fixpoint store (m : Z → option u8) (l : list Z) (bs : list u8) : Z → option u8 :=
  match l, bs with
  | a :: l, b :: bs => store (λ x, if x =? a then Some b else m x) l bs
  | _, _ => m
  end.

Lemma store_ext m m' l bs : (∀ x, m x = m' x) → ∀ x, store m l bs x = store m' l bs x.
Proof.
  revert m m' bs. induction l as [|a l IH]; intros m m' [|b bs] Hm; cbn; try done.
  apply IH. intros x. by rewrite Hm.
Qed.

Lemma store_app m l k bs :
  store m (l ++ k) bs = store (store m l (takeZ (lengthZ l) bs)) k (dropZ (lengthZ l) bs).
Proof.
  unfold lengthZ. rewrite takeZ_take, dropZ_drop, Nat2Z.id.
  revert m bs. induction l as [|a l IH]; intros m [|b bs]; cbn; [done..|by destruct k|by rewrite IH].
Qed.

Lemma store_nil m l : store m l [] = m.
Proof. by destruct l. Qed.

(** Bytes stored at consecutive addresses. *)
Lemma store_seqZ m a n bs x :
  lengthZ bs <= n →
  store m (seqZ a n) bs x =
  if (a <=? x) && (x <? a + lengthZ bs) then bs !! Z.to_nat (x - a) else m x.
Proof.
  revert m a n. induction bs as [|b bs IH]; intros m a n Hn.
  { rewrite store_nil, lengthZ_nil. destruct (Z.leb_spec a x), (Z.ltb_spec x (a + 0)); try done. lia. }
  rewrite lengthZ_cons in Hn |- *. pose proof (lengthZ_nonneg bs).
  rewrite seqZ_cons by lia. cbn [store]. rewrite IH by lia.
  destruct (Z.leb_spec (Z.succ a) x), (Z.leb_spec a x), (Z.ltb_spec x (Z.succ a + lengthZ bs)),
    (Z.ltb_spec x (a + (1 + lengthZ bs))), (Z.eqb_spec x a); try lia; cbn [andb]; try done.
  - replace (Z.to_nat (x - a)) with (S (Z.to_nat (x - Z.succ a))) by lia. done.
  - by replace (Z.to_nat (x - a)) with O by lia.
Qed.

(** At different addresses the bytes are found again, and no other address is
    changed. *)
Lemma store_other m l bs x : x ∉ l → store m l bs x = m x.
Proof.
  revert m bs. induction l as [|a l IH]; intros m [|b bs] Hx; cbn; try done.
  apply not_elem_of_cons in Hx as [Hne Hx]. rewrite IH by done. by destruct (Z.eqb_spec x a).
Qed.

Lemma store_lookup m l bs i a b :
  NoDup l → l !! i = Some a → bs !! i = Some b → store m l bs a = Some b.
Proof.
  revert m bs i. induction l as [|a' l IH]; intros m [|b' bs] [|i] Hl; cbn; try done;
    inversion_clear Hl.
  - intros [= ->] [= ->]. rewrite store_other by done. by rewrite Z.eqb_refl.
  - by apply IH.
Qed.

Definition slice_of (s : VolatileSlice) (r : MemRegion) : Prop :=
  slice_for gm s (rg_offset r) (rg_len r).

Lemma slices_of_spec l d h :
  Forall valid l → ∃ ss, slices_of gm l (d, h) = (Returns ss, (d, h)) ∧ Forall2 slice_of ss l.
Proof using Hgm.
  intros Hv. induction Hv as [|r l Hr Hv (ss & Hrun & Hss)]; [by exists []|].
  destruct (get_slice_run gm Hgm (rg_offset r) (rg_len r) h Hr) as (s & Hs & Hfor).
  exists (s :: ss). split; [|by constructor]. cbn [slices_of].
  erewrite bind_returns by (unfold on_memory; by rewrite Hs). by erewrite bind_returns by exact Hrun.
Qed.

Lemma get_remaining_spec d h :
  stream_ok d → ∃ ss k, get_remaining gm (d, h) = (Returns ss, (d, h)) ∧ Forall2 slice_of ss k ∧
    addrs k = remaining d.
Proof using Hgm.
  intros Hd. destruct (get_remaining_regions_spec d Hd) as (k & Hk & Hv & Ha).
  destruct (slices_of_spec k d h Hv) as (ss & Hrun & Hss). exists ss, k. split_and!; [|done..].
  unfold get_remaining. erewrite bind_returns by done. cbn beta iota. rewrite Hk. exact Hrun.
Qed.

Lemma write_slices_spec ss k bs total d h :
  Forall2 slice_of ss k →
  ∃ h', write_slices ss bs total (d, h) =
      (Returns (total + Z.min (lengthZ bs) (lengthZ (addrs k))), (d, h')) ∧
    ∀ x, guest_byte gm h' x = store (guest_byte gm h) (addrs k) bs x.
Proof.
  intros Hss. revert bs total h. induction Hss as [|s r ss k Hs Hss IH]; intros bs total h.
  { exists h. pose proof (lengthZ_nonneg bs). split; [|done]. cbn [write_slices].
    change (lengthZ (addrs [])) with 0. by rewrite Z.min_r, Z.add_0_r by lia. }
  pose proof (lengthZ_nonneg bs). pose proof (lengthZ_nonneg (addrs k)). pose proof (uint_range (rg_len r)).
  cbn [write_slices]. rewrite addrs_cons, lengthZ_app, lengthZ_region_addrs.
  destruct (Z.eqb_spec (lengthZ bs) 0) as [Hz|Hz].
  { exists h. split; [by rewrite Hz, Z.min_l, Z.add_0_r by lia|]. destruct bs; [|done].
    intros x. by rewrite store_nil. }
  destruct Hs as (Hsize & _ & Hw & _). rewrite Hsize.
  remember (Z.min (lengthZ bs) (rg_len r)) as count eqn:Hmin.
  erewrite bind_returns by done. cbn beta iota.
  set (h1 := host_write _ _ _ h).
  destruct (IH (dropZ count bs) (total + count) h1) as (h' & Hrun & Hview). exists h'. split.
  - rewrite Hrun. do 2 f_equal. rewrite lengthZ_dropZ by lia. lia.
  - intros x. rewrite Hview, store_app, lengthZ_region_addrs.
    assert (Hdrop : dropZ (rg_len r) bs = dropZ count bs).
    { destruct (decide (lengthZ bs <= rg_len r)); [|f_equal; lia]. rewrite !dropZ_ge by lia. done. }
    assert (Htake : takeZ (rg_len r) bs = takeZ count bs).
    { destruct (decide (lengthZ bs <= rg_len r)); [|f_equal; lia]. rewrite !takeZ_all by lia. done. }
    rewrite Hdrop, Htake. apply store_ext. intros y.
    pose proof (lengthZ_takeZ count bs).
    unfold h1, region_addrs. rewrite Hw, store_seqZ by lia. done.
Qed.

Lemma Writer_write_spec d h bs :
  stream_ok d → lengthZ bs < 2 ^ 64 →
  ∃ d' h', Writer_write gm bs (d, h) = (Returns (Z.min (lengthZ bs) (lengthZ (remaining d))), (d', h')) ∧
    stream_ok d' ∧ remaining d' = dropZ (lengthZ bs) (remaining d) ∧
    uval (bytes_consumed d') = bytes_consumed d + Z.min (lengthZ bs) (lengthZ (remaining d)) ∧
    ∀ x, guest_byte gm h' x = store (guest_byte gm h) (remaining d) bs x.
Proof using Hgm.
  intros Hd Hbs. destruct (get_remaining_spec d h Hd) as (ss & k & Hrun & Hss & Ha).
  destruct (write_slices_spec ss k bs 0 d h Hss) as (h' & Hw & Hview). rewrite Ha in Hw, Hview.
  pose proof (lengthZ_nonneg bs). pose proof (lengthZ_nonneg (remaining d)).
  remember (Z.min (lengthZ bs) (lengthZ (remaining d))) as n eqn:Hmin.
  assert (Hn : uval (U64 n) = n) by (apply uval_to_uint_small; cbn; lia).
  destruct (consume_bytes_spec d h' (U64 n) Hd) as (d' & Hc & Hd' & Hrem & Hcons). rewrite Hn in Hrem, Hcons.
  exists d', h'. split_and!; [|done| | |done].
  - unfold Writer_write. erewrite bind_returns by exact Hrun. erewrite bind_returns by exact Hw.
    by erewrite bind_returns by exact Hc.
  - rewrite Hrem. destruct (decide (lengthZ bs <= lengthZ (remaining d))); [f_equal; lia|].
    by rewrite !dropZ_ge by lia.
  - rewrite Hcons. lia.
Qed.

(** Nothing is left to write to. *)
Lemma write_all_full fuel d h bs :
  stream_ok d → remaining d = [] → bs ≠ [] → (0 < fuel)%nat → lengthZ bs < 2 ^ 64 →
  ∃ d' h', write_all_loop gm fuel bs (d, h) = (Throws WriteZero, (d', h')) ∧
    stream_ok d' ∧ remaining d' = [] ∧ bytes_consumed d' = bytes_consumed d ∧
    ∀ x, guest_byte gm h' x = guest_byte gm h x.
Proof using Hgm.
  intros Hd Hrem Hbs Hfuel Hlen. destruct fuel as [|fuel]; [lia|]. cbn [write_all_loop].
  pose proof (lengthZ_nonneg bs). destruct (Z.eqb_spec (lengthZ bs) 0) as [Hz|Hz]; [by destruct bs|].
  destruct (Writer_write_spec d h bs Hd Hlen) as (d' & h' & Hw & Hd' & Hr & Hc & Hview).
  rewrite Hrem, lengthZ_nil, Z.min_r in * by lia. exists d', h'.
  erewrite bind_returns by exact Hw. split_and!; [done..| |done].
  apply uint_eq. lia.
Qed.

Lemma Writer_write_obj_spec d h bs :
  stream_ok d → lengthZ bs < 2 ^ 64 →
  ∃ d' h', Writer_write_obj gm bs (d, h) =
      (if lengthZ bs <=? lengthZ (remaining d) then Returns () else Throws WriteZero, (d', h')) ∧
    stream_ok d' ∧ remaining d' = dropZ (lengthZ bs) (remaining d) ∧
    uval (bytes_consumed d') = bytes_consumed d + Z.min (lengthZ bs) (lengthZ (remaining d)) ∧
    ∀ x, guest_byte gm h' x = store (guest_byte gm h) (remaining d) bs x.
Proof using Hgm.
  intros Hd Hlen. unfold Writer_write_obj. destruct bs as [|b bs].
  { exists d, h. pose proof (lengthZ_nonneg (remaining d)). split_and!; [|done|by rewrite dropZ_0| |].
    - cbn. destruct (Z.leb_spec (lengthZ (A := u8) []) (lengthZ (remaining d))); [done|]. rewrite lengthZ_nil in *. lia.
    - rewrite lengthZ_nil, Z.min_l by done. lia.
    - intros x. by rewrite store_nil. }
  set (buf := b :: bs) in *. change (length buf) with (S (length bs)). cbn [write_all_loop].
  assert (Hbuf : lengthZ buf = 1 + lengthZ bs) by apply lengthZ_cons.
  pose proof (lengthZ_nonneg bs). destruct (Z.eqb_spec (lengthZ buf) 0) as [Hz|_]; [lia|].
  destruct (Writer_write_spec d h buf Hd Hlen) as (d1 & h1 & Hw & Hd1 & Hr & Hc & Hview).
  erewrite bind_returns by exact Hw. pose proof (lengthZ_nonneg (remaining d)).
  destruct (Z.leb_spec (lengthZ buf) (lengthZ (remaining d))).
  - rewrite Z.min_l in * by lia. destruct (Z.eqb_spec (lengthZ buf) 0); [lia|].
    rewrite dropZ_ge by done. exists d1, h1. split_and!; try done. by destruct (length bs).
  - rewrite Z.min_r in * by lia. rewrite dropZ_ge in Hr by lia.
    rewrite (dropZ_ge (lengthZ buf) (remaining d)) by lia. destruct (Z.eqb_spec (lengthZ (remaining d)) 0) as [Hz|Hz].
    { exists d1, h1. by split_and!. }
    destruct (write_all_full (length bs) d1 h1 (dropZ (lengthZ (remaining d)) buf) Hd1 Hr)
      as (d2 & h2 & Hrun & Hd2 & Hr2 & Hc2 & Hv2).
    + intros Hnil. apply (f_equal lengthZ) in Hnil. rewrite lengthZ_dropZ in Hnil by done. change (lengthZ []) with 0 in Hnil. lia.
    + unfold lengthZ in *. lia.
    + rewrite lengthZ_dropZ by done. lia.
    + exists d2, h2. split_and!; [done..| |].
      * by rewrite Hc2.
      * intros x. by rewrite Hv2, Hview.
Qed.

(** ** Copies from and to memory outside the guest *)

Definition outside (s : VolatileSlice) : Prop := ∀ r, r ∈ gm → mm_obj (mr_mapping r) ≠ vs_obj s.

Lemma guest_byte_outside s off bs h x :
  outside s → guest_byte gm (host_write (vs_obj s) off bs h) x = guest_byte gm h x.
Proof.
  intros Hs. unfold guest_byte. destruct (List.find _ gm) as [r|] eqn:Hf; [|done]. f_equal.
  apply List.find_some in Hf as [Hr _]. apply host_write_out. left. apply Hs. by apply list_elem_of_In.
Qed.

Lemma host_write_write obj off bs cs h o z :
  host_write obj (off + lengthZ bs) cs (host_write obj off bs h) o z = host_write obj off (bs ++ cs) h o z.
Proof.
  pose proof (lengthZ_nonneg bs). pose proof (lengthZ_nonneg cs).
  destruct (decide (o = obj)) as [->|]; [|by rewrite !host_write_out by auto].
  destruct (decide (off + lengthZ bs <= z < off + lengthZ bs + lengthZ cs)) as [Hin|Hout].
  - apply (inj Some). rewrite !host_write_in by (rewrite ?lengthZ_app; lia).
    rewrite lookup_app_r by (unfold lengthZ in *; lia). f_equal. unfold lengthZ. lia.
  - rewrite (host_write_out _ (off + lengthZ bs)) by (right; lia).
    destruct (decide (off <= z < off + lengthZ bs)).
    + apply (inj Some). rewrite !host_write_in by (rewrite ?lengthZ_app; lia).
      rewrite lookup_app_l by (unfold lengthZ in *; lia). done.
    + rewrite !host_write_out by (right; rewrite ?lengthZ_app; lia). done.
Qed.

Lemma bytes_at_outside s off bs h l :
  outside s → bytes_at (host_write (vs_obj s) off bs h) l = bytes_at h l.
Proof. intros Hs. apply map_ext. intros a. by rewrite guest_byte_outside. Qed.

(** What is read from a slice for a region. *)
Lemma slice_bytes s r h n :
  slice_of s r → 0 <= n <= rg_len r →
  host_read h (vs_obj s) (vs_off s) n = takeZ n (bytes_at h (region_addrs r)).
Proof.
  intros (_ & Hrd & _) Hn. rewrite Hrd by lia. unfold guest_bytes, bytes_at, region_addrs.
  rewrite takeZ_take, firstn_map, <-takeZ_take, takeZ_seqZ by lia. done.
Qed.

Lemma copy_to_run src dst n d h :
  Z.min (vs_size src) (vs_size dst) = n →
  copy_to_volatile_slice src dst (d, h) =
  (Returns (), (d, host_write (vs_obj dst) (vs_off dst) (host_read h (vs_obj src) (vs_off src) n) h)).
Proof. by intros <-. Qed.

Lemma read_loop_spec ss k dst read d h :
  Forall2 slice_of ss k → outside dst →
  ∃ h', read_loop ss dst read (d, h) =
      (Returns (read + Z.min (vs_size dst) (lengthZ (addrs k))), (d, h')) ∧
    ∀ o z, h' o z = host_write (vs_obj dst) (vs_off dst) (takeZ (vs_size dst) (bytes_at h (addrs k))) h o z.
Proof.
  intros Hss. revert dst read h. induction Hss as [|s r ss k Hs Hss IH]; intros dst read h Hout.
  { exists h. pose proof (uint_range (vs_size dst)). split.
    - cbn [read_loop]. change (lengthZ (addrs [])) with 0. by rewrite Z.min_r, Z.add_0_r by lia.
    - intros o z. symmetry. apply host_write_out. right. change (takeZ _ _) with (@nil u8). rewrite lengthZ_nil. lia. }
  pose proof (uint_range (vs_size dst)). pose proof (uint_range (rg_len r)).
  pose proof (lengthZ_nonneg (addrs k)). pose proof (proj1 Hs) as Hsize.
  cbn [read_loop]. remember (umin (vs_size s) (vs_size dst)) as c eqn:Hc.
  assert (Hcv : uval c = Z.min (rg_len r) (vs_size dst)).
  { subst c. by rewrite umin_spec, Hsize. }
  erewrite bind_returns by (apply (copy_to_run s dst c); by rewrite Hsize). cbn beta iota.
  rewrite (slice_bytes s r h c Hs) by lia. set (bs := takeZ c (bytes_at h (region_addrs r))).
  assert (Hbs : lengthZ bs = c).
  { unfold bs. rewrite lengthZ_takeZ, lengthZ_bytes_at, lengthZ_region_addrs by lia. lia. }
  unfold slice_offset. destruct (sub_checked (vs_size dst) c) as [n|] eqn:Hn;
    [|apply sub_checked_None in Hn; lia]. apply sub_checked_Some in Hn. cbn.
  destruct (IH (MkSlice (vs_obj dst) (vs_off dst + c) n) (read + c)
              (host_write (vs_obj dst) (vs_off dst) bs h) Hout) as (h' & Hrun & Hh').
  exists h'. cbn [vs_obj vs_off vs_size] in Hh', Hrun. rewrite addrs_cons, lengthZ_app, lengthZ_region_addrs. split.
  - rewrite Hrun. do 2 f_equal. lia.
  - intros o z. rewrite Hh', bytes_at_outside by done. rewrite <-Hbs, host_write_write. f_equal.
    rewrite bytes_at_app. unfold bs. destruct (decide (vs_size dst <= rg_len r)).
    + rewrite takeZ_app_le by (rewrite lengthZ_bytes_at, lengthZ_region_addrs; lia).
      replace (uval n) with 0 by lia. rewrite (takeZ_take 0). cbn. rewrite app_nil_r. f_equal. lia.
    + rewrite takeZ_app_ge by (rewrite lengthZ_bytes_at, lengthZ_region_addrs; lia).
      rewrite takeZ_all by (rewrite lengthZ_bytes_at, lengthZ_region_addrs; lia).
      f_equal. f_equal. rewrite lengthZ_bytes_at, lengthZ_region_addrs. lia.
Qed.

(** [read_to_volatile_slice] fills the slice, or moves all that is left. *)
Lemma read_to_volatile_slice_spec d h dst :
  stream_ok d → outside dst →
  let n := Z.min (vs_size dst) (lengthZ (remaining d)) in
  ∃ d' h', read_to_volatile_slice gm dst (d, h) = (Returns n, (d', h')) ∧
    stream_ok d' ∧ remaining d' = dropZ n (remaining d) ∧ uval (bytes_consumed d') = bytes_consumed d + n ∧
    ∀ o z, h' o z = host_write (vs_obj dst) (vs_off dst) (takeZ n (bytes_at h (remaining d))) h o z.
Proof using Hgm.
  intros Hd Hout n. destruct (get_remaining_spec d h Hd) as (ss & k & Hrun & Hss & Ha).
  destruct (read_loop_spec ss k dst 0 d h Hss Hout) as (h' & Hl & Hh'). rewrite Ha in Hl, Hh'. cbn [Z.add] in Hl.
  fold n in Hl. pose proof (uint_range (vs_size dst)). pose proof (lengthZ_nonneg (remaining d)).
  assert (Hn : uval (U64 n) = n) by (apply uval_to_uint_small; cbn [Z.of_N] in *; lia).
  destruct (consume_bytes_spec d h' (U64 n) Hd) as (d' & Hc & Hd' & Hrem & Hcons). rewrite Hn in Hrem, Hcons.
  exists d', h'. split_and!; [|done|done|lia|].
  - unfold read_to_volatile_slice. erewrite bind_returns by exact Hrun. erewrite bind_returns by exact Hl.
    by erewrite bind_returns by exact Hc.
  - intros o z. rewrite Hh'. f_equal. unfold n. destruct (decide (vs_size dst <= lengthZ (remaining d))).
    + f_equal. lia.
    + rewrite !takeZ_all by (rewrite lengthZ_bytes_at; lia). done.
Qed.

Lemma host_read_split h obj off n m :
  0 <= m <= n → host_read h obj off n = host_read h obj off m ++ host_read h obj (off + m) (n - m).
Proof.
  intros Hm. unfold host_read. rewrite <-map_app. f_equal.
  replace n with (m + (n - m)) at 1 by lia. apply seqZ_app; lia.
Qed.

(** Writing to a slice of the guest leaves what is outside alone. *)
Lemma host_read_outside s r src bs h off n :
  slice_of s r → outside src →
  host_read (host_write (vs_obj s) (vs_off s) bs h) (vs_obj src) off n = host_read h (vs_obj src) off n.
Proof.
  intros (_ & _ & _ & g & Hg & Ho) Hout. apply map_ext. intros z. apply host_write_out.
  left. rewrite Ho. intros Heq. by apply (Hout g Hg).
Qed.

Lemma write_loop_spec ss k src written d h :
  Forall2 slice_of ss k → outside src →
  ∃ h', write_loop ss src written (d, h) =
      (Returns (written + Z.min (vs_size src) (lengthZ (addrs k))), (d, h')) ∧
    ∀ x, guest_byte gm h' x =
      store (guest_byte gm h) (addrs k) (host_read h (vs_obj src) (vs_off src) (vs_size src)) x.
Proof.
  intros Hss. revert src written h. induction Hss as [|s r ss k Hs Hss IH]; intros src written h Hout.
  { exists h. pose proof (uint_range (vs_size src)). split; [|done].
    cbn [write_loop]. change (lengthZ (addrs [])) with 0. by rewrite Z.min_r, Z.add_0_r by lia. }
  pose proof (uint_range (vs_size src)). pose proof (uint_range (rg_len r)).
  pose proof (lengthZ_nonneg (addrs k)). destruct Hs as (Hsize & Hs). cbn [write_loop].
  remember (umin (vs_size src) (vs_size s)) as c eqn:Hc.
  assert (Hcv : uval c = Z.min (vs_size src) (rg_len r)).
  { subst c. by rewrite umin_spec, Hsize. }
  erewrite bind_returns by (apply (copy_to_run src s c); by rewrite Hsize). cbn beta iota.
  set (bs := host_read h (vs_obj src) (vs_off src) c).
  assert (Hbs : lengthZ bs = c) by (apply host_read_length; lia).
  unfold slice_offset. destruct (sub_checked (vs_size src) c) as [n|] eqn:Hn;
    [|apply sub_checked_None in Hn; lia]. apply sub_checked_Some in Hn. cbn.
  destruct (IH (MkSlice (vs_obj src) (vs_off src + c) n) (written + c)
              (host_write (vs_obj s) (vs_off s) bs h) Hout) as (h' & Hrun & Hh').
  exists h'. cbn [vs_obj vs_off vs_size] in Hh', Hrun. rewrite addrs_cons, lengthZ_app, lengthZ_region_addrs. split.
  - rewrite Hrun. do 2 f_equal. lia.
  - intros x. rewrite Hh', (host_read_outside s r src) by done.
    rewrite (host_read_split h _ _ (vs_size src) c), store_app, lengthZ_region_addrs by lia.
    fold bs. replace (vs_size src - c) with (uval n) by lia. destruct Hs as (_ & Hw & _).
    set (cs := host_read h (vs_obj src) (vs_off src + c) n).
    assert (Hcs : lengthZ cs = n) by (apply host_read_length; lia).
    assert (Htake : takeZ (rg_len r) (bs ++ cs) = bs ∧ dropZ (rg_len r) (bs ++ cs) = cs).
    { destruct (decide (rg_len r <= vs_size src)).
      - split; [apply takeZ_app_eq|apply dropZ_app_eq]; lia.
      - assert (cs = []) as -> by (destruct cs; [done|rewrite lengthZ_cons in Hcs; pose proof (lengthZ_nonneg cs); lia]).
        rewrite app_nil_r. split; [apply takeZ_all|apply dropZ_ge]; lia. }
    destruct Htake as [-> ->]. apply store_ext. intros y.
    unfold region_addrs. rewrite Hw, store_seqZ by lia. done.
Qed.

(** [write_from_volatile_slice] stores the slice, or as much as there is room for. *)
Lemma write_from_volatile_slice_spec d h src :
  stream_ok d → outside src →
  let n := Z.min (vs_size src) (lengthZ (remaining d)) in
  ∃ d' h', write_from_volatile_slice gm src (d, h) = (Returns n, (d', h')) ∧
    stream_ok d' ∧ remaining d' = dropZ n (remaining d) ∧ uval (bytes_consumed d') = bytes_consumed d + n ∧
    ∀ x, guest_byte gm h' x =
      store (guest_byte gm h) (remaining d) (host_read h (vs_obj src) (vs_off src) (vs_size src)) x.
Proof using Hgm.
  intros Hd Hout n. destruct (get_remaining_spec d h Hd) as (ss & k & Hrun & Hss & Ha).
  destruct (write_loop_spec ss k src 0 d h Hss Hout) as (h' & Hl & Hh'). rewrite Ha in Hl, Hh'. cbn [Z.add] in Hl.
  fold n in Hl. pose proof (uint_range (vs_size src)). pose proof (lengthZ_nonneg (remaining d)).
  assert (Hn : uval (U64 n) = n) by (apply uval_to_uint_small; cbn [Z.of_N] in *; lia).
  destruct (consume_bytes_spec d h' (U64 n) Hd) as (d' & Hc & Hd' & Hrem & Hcons). rewrite Hn in Hrem, Hcons.
  exists d', h'. split_and!; [|done|done|lia|done].
  unfold write_from_volatile_slice. erewrite bind_returns by exact Hrun. erewrite bind_returns by exact Hl.
  by erewrite bind_returns by exact Hc.
Qed.

(** ** Streams

    The operations of readers and writers, and what they mean for the addresses
    that are left, the bytes at every address and the number of bytes consumed. *)

Inductive stream_op :=
  | OpPeekObj (n : u64)
  | OpReadObj (n : u64)
  | OpRead (n : u64)
  | OpWrite (bs : list u8)
  | OpCollect (n : u64)
  | OpWriteObj (bs : list u8)
  | OpWriteIter (vals : list (list u8))
  | OpConsume (n : u64)
  | OpAvailable.

Inductive stream_result :=
  | RBytes (bs : list u8)
  | RObjects (objs : list (list u8))
  | RCount (n : Z)
  | RDone
  | RError (e : IoError).

Definition answer {A} (f : A → stream_result) (m : Stream A) : Stream stream_result :=
  r ← catch m; mret (match r with inl a => f a | inr e => RError e end).

Definition stream_exec (op : stream_op) : Stream stream_result :=
  match op with
  | OpPeekObj n => answer RBytes (peek_obj gm n)
  | OpReadObj n => answer RBytes (reader_read_obj gm n)
  | OpRead n => answer RBytes (Reader_read gm n)
  | OpWrite bs => answer RCount (Writer_write gm bs)
  | OpCollect n => answer RObjects (Reader_collect gm n)
  | OpWriteObj bs => answer (λ _, RDone) (Writer_write_obj gm bs)
  | OpWriteIter vals => answer (λ _, RDone) (Writer_write_iter gm vals)
  | OpConsume n => answer (λ _, RDone) (consume_bytes n)
  | OpAvailable => answer RCount ('(d, _) ← get_state; n ← checked (available_bytes d); mret (uval n))
  end.

Fixpoint stream_run (ops : list stream_op) : Stream (list stream_result) :=
  match ops with
  | [] => mret []
  | op :: ops => r ← stream_exec op; rs ← stream_run ops; mret (r :: rs)
  end.

(** The abstract stream. *)
Record tape := MkTape { tp_left : list Z; tp_mem : Z → option u8; tp_count : Z }.

Definition tape_bytes (t : tape) : list u8 := map (λ a, default (U8 0) (tp_mem t a)) (tp_left t).

Definition advance (n : Z) (t : tape) : tape :=
  MkTape (dropZ n (tp_left t)) (tp_mem t) (tp_count t + Z.min n (lengthZ (tp_left t))).

Definition tape_write (bs : list u8) (t : tape) : tape :=
  advance (lengthZ bs) (MkTape (tp_left t) (store (tp_mem t) (tp_left t) bs) (tp_count t)).

(** The bytes in objects of [n] bytes each, and whether none are left over. *)
Definition tape_collect (n : Z) (t : tape) : stream_result * tape :=
  let count := lengthZ (tp_left t) / n in
  (if lengthZ (tp_left t) mod n =? 0
   then RObjects (reshape (replicate (Z.to_nat count) (Z.to_nat n)) (tape_bytes t))
   else RError UnexpectedEof,
   advance (n * count) t).

Definition tape_exec (op : stream_op) (t : tape) : stream_result * tape :=
  let avail := lengthZ (tp_left t) in
  match op with
  | OpPeekObj n =>
      (if n <=? avail then RBytes (takeZ n (tape_bytes t)) else RError UnexpectedEof, t)
  | OpReadObj n =>
      if n <=? avail then (RBytes (takeZ n (tape_bytes t)), advance n t) else (RError UnexpectedEof, t)
  | OpRead n => (RBytes (takeZ n (tape_bytes t)), advance n t)
  | OpWrite bs => (RCount (Z.min (lengthZ bs) avail), tape_write bs t)
  | OpCollect n => tape_collect n t
  | OpWriteObj bs => (if lengthZ bs <=? avail then RDone else RError WriteZero, tape_write bs t)
  | OpWriteIter vals =>
      let bs := concat vals in
      (if lengthZ bs <=? avail then RDone else RError WriteZero, tape_write bs t)
  | OpConsume n => (RDone, advance n t)
  | OpAvailable => (RCount avail, t)
  end.

Fixpoint tape_run (ops : list stream_op) (t : tape) : list stream_result * tape :=
  match ops with
  | [] => ([], t)
  | op :: ops => let '(r, t) := tape_exec op t in let '(rs, t) := tape_run ops t in (r :: rs, t)
  end.

Record stream_is (d : DescriptorChainRegions) (h : host) (t : tape) : Prop := {
  si_ok : stream_ok d;
  si_left : remaining d = tp_left t;
  si_mem : ∀ x, guest_byte gm h x = tp_mem t x;
  si_count : uval (bytes_consumed d) = tp_count t
}.

(** The buffers of writes are slices, shorter than the address space, and objects
    that are collected are not empty. *)
Definition op_fits (op : stream_op) : Prop :=
  match op with
  | OpWrite bs | OpWriteObj bs => lengthZ bs < 2 ^ 64
  | OpWriteIter vals => Forall (λ bs, lengthZ bs < 2 ^ 64) vals
  | OpCollect n => 0 < n
  | _ => True
  end.

Lemma answer_returns {A} (f : A → stream_result) (m : Stream A) s a s' :
  m s = (Returns a, s') → answer f m s = (Returns (f a), s').
Proof. intros Hm. unfold answer, catch. run_prog. by rewrite Hm. Qed.
Lemma answer_throws {A} (f : A → stream_result) (m : Stream A) s e s' :
  m s = (Throws e, s') → answer f m s = (Returns (RError e), s').
Proof. intros Hm. unfold answer, catch. run_prog. by rewrite Hm. Qed.

Lemma stream_bytes d h t : stream_is d h t → bytes_at h (remaining d) = tape_bytes t.
Proof.
  intros [_ Hl Hm _]. unfold bytes_at, tape_bytes. rewrite Hl. apply map_ext. intros a. by rewrite Hm.
Qed.

Lemma advance_is d h t (n : u64) :
  stream_is d h t → ∃ d', consume_bytes n (d, h) = (Returns (), (d', h)) ∧ stream_is d' h (advance n t).
Proof.
  intros [Hd Hl Hm Hc]. destruct (consume_bytes_spec d h n Hd) as (d' & Hrun & Hd' & Hr & Hn).
  exists d'. split; [done|]. constructor; [done|by rewrite Hr, Hl|done|by rewrite Hn, Hc, Hl].
Qed.

Lemma peek_obj_is d h t (n : u64) :
  stream_is d h t →
  peek_obj gm n (d, h) =
  (if n <=? lengthZ (tp_left t) then Returns (takeZ n (tape_bytes t)) else Throws UnexpectedEof, (d, h)).
Proof using Hgm.
  intros Hs. pose proof (uint_range n). unfold peek_obj.
  rewrite (bind_returns _ _ _ _ _ (copy_remaining_spec d h n (si_ok _ _ _ Hs) ltac:(done))).
  rewrite (stream_bytes d h t Hs). assert (Hlen : lengthZ (tape_bytes t) = lengthZ (tp_left t)) by apply lengthZ_map.
  pose proof (lengthZ_nonneg (tp_left t)). rewrite lengthZ_takeZ, Hlen by lia.
  destruct (Z.leb_spec n (lengthZ (tp_left t))), (Z.eqb_spec (Z.min n (lengthZ (tp_left t))) n); done || lia.
Qed.

Lemma tape_write_is d d' h' t bs :
  remaining d = tp_left t → uval (bytes_consumed d) = tp_count t →
  stream_ok d' → remaining d' = dropZ (lengthZ bs) (remaining d) →
  uval (bytes_consumed d') = bytes_consumed d + Z.min (lengthZ bs) (lengthZ (remaining d)) →
  (∀ x, guest_byte gm h' x = store (tp_mem t) (remaining d) bs x) →
  stream_is d' h' (tape_write bs t).
Proof. intros Hl Hc Hd' Hr Hn Hm. rewrite Hl in *. constructor; cbn; by rewrite ?Hr, ?Hn, ?Hc. Qed.

(** [op] does to the stream what it does to the tape. *)
Definition step_ok (op : stream_op) : Prop := ∀ d h t,
  stream_is d h t →
  ∃ d' h', stream_exec op (d, h) = (Returns (fst (tape_exec op t)), (d', h')) ∧
    stream_is d' h' (snd (tape_exec op t)).

Lemma read_obj_is d h t (n : u64) :
  stream_is d h t → n <= lengthZ (tp_left t) →
  ∃ d', reader_read_obj gm n (d, h) = (Returns (takeZ n (tape_bytes t)), (d', h)) ∧ stream_is d' h (advance n t).
Proof using Hgm.
  intros Hs Hn. pose proof (peek_obj_is d h t n Hs) as Hrun.
  destruct (Z.leb_spec n (lengthZ (tp_left t))); [|lia].
  destruct (advance_is d h t (U64 n)) as (d' & Hc & Hs'); [done|].
  rewrite to_uint_uval in Hs'. exists d'. split; [|done]. unfold reader_read_obj.
  erewrite bind_returns by exact Hrun. by erewrite bind_returns by exact Hc.
Qed.

Lemma read_obj_short d h t (n : u64) :
  stream_is d h t → lengthZ (tp_left t) < n →
  reader_read_obj gm n (d, h) = (Throws UnexpectedEof, (d, h)).
Proof using Hgm.
  intros Hs Hn. pose proof (peek_obj_is d h t n Hs) as Hrun.
  destruct (Z.leb_spec n (lengthZ (tp_left t))); [lia|]. unfold reader_read_obj. run_prog. by rewrite Hrun.
Qed.

Lemma available_is d h t :
  stream_is d h t → ∃ n : u64, available_bytes d = Some n ∧ uval n = lengthZ (tp_left t).
Proof.
  intros Hs. destruct (available_bytes_spec d (si_ok _ _ _ Hs)) as (n & Hn & Hv).
  exists n. by rewrite <-(si_left _ _ _ Hs).
Qed.

Lemma read_step (n : u64) : step_ok (OpRead n).
Proof using Hgm.
  intros d h t Hs. pose proof (uint_range n). pose proof (copy_remaining_spec d h n (si_ok _ _ _ Hs) ltac:(done)) as Hrun.
  rewrite (stream_bytes d h t Hs) in Hrun. cbn [tape_exec stream_exec]. set (bs := takeZ n (tape_bytes t)) in *.
  assert (Hlen : lengthZ bs = Z.min n (lengthZ (tp_left t))).
  { unfold bs. rewrite lengthZ_takeZ by lia. f_equal. apply lengthZ_map. }
  pose proof (lengthZ_nonneg (tp_left t)). assert (Hu : uval (U64 (lengthZ bs)) = lengthZ bs).
  { apply uval_to_uint_small. lia. }
  destruct (advance_is d h t (U64 (lengthZ bs)) Hs) as (d' & Hc & Hs'). exists d', h. split.
  - apply (answer_returns RBytes). unfold Reader_read. erewrite bind_returns by exact Hrun.
    by erewrite bind_returns by exact Hc.
  - replace (snd _) with (advance (U64 (lengthZ bs)) t); [done|]. cbn. unfold advance.
    rewrite Hu, Hlen. f_equal; [|lia]. destruct (decide (n <= lengthZ (tp_left t))); [f_equal; lia|].
    by rewrite !dropZ_ge by lia.
Qed.

(** Collecting. *)
Lemma advance_0 t : advance 0 t = t.
Proof.
  destruct t as [l m c]. unfold advance. cbn. pose proof (lengthZ_nonneg l). rewrite dropZ_0, Z.min_l by lia.
  f_equal. lia.
Qed.

Lemma advance_advance n m t :
  0 <= n → 0 <= m → advance m (advance n t) = advance (n + m) t.
Proof.
  intros. destruct t as [l mm c]. unfold advance. cbn. pose proof (lengthZ_nonneg l).
  rewrite dropZ_dropZ, lengthZ_dropZ by lia. f_equal. lia.
Qed.

Lemma tape_collect_cons (n : Z) t :
  0 < n → n <= lengthZ (tp_left t) →
  tape_collect n t =
  (match (tape_collect n (advance n t)).1 with
   | RObjects objs => RObjects (takeZ n (tape_bytes t) :: objs)
   | r => r
   end, (tape_collect n (advance n t)).2).
Proof.
  intros Hn Hle. unfold tape_collect. set (a := lengthZ (tp_left t)) in *.
  assert (Ha : lengthZ (tp_left (advance n t)) = a - n).
  { cbn. rewrite lengthZ_dropZ by lia. lia. }
  assert (Hq : a / n = (a - n) / n + 1).
  { replace a with ((a - n) + 1 * n) at 1 by lia. apply Z.div_add. lia. }
  assert (Hm : a mod n = (a - n) mod n).
  { replace a with ((a - n) + 1 * n) at 1 by lia. apply Z.mod_add. lia. }
  assert (0 <= (a - n) / n) by (apply Z.div_pos; lia).
  rewrite Ha, Hm, Hq. cbn [fst snd]. f_equal.
  - destruct (_ =? 0); [|done]. rewrite Z2Nat.inj_add by lia. change (Z.to_nat 1) with 1%nat.
    rewrite Nat.add_1_r. cbn [replicate reshape]. f_equal. f_equal.
    + by rewrite takeZ_take.
    + f_equal. unfold tape_bytes. cbn. by rewrite dropZ_drop, <-skipn_map.
  - rewrite advance_advance by nia. f_equal. lia.
Qed.

Lemma collect_loop_is fuel d h t (n : u64) :
  stream_is d h t → 0 < n → lengthZ (tp_left t) < Z.of_nat fuel →
  ∃ d', collect_loop gm fuel n (d, h) =
      (match (tape_collect n t).1 with RObjects objs => Returns objs | _ => Throws UnexpectedEof end, (d', h)) ∧
    stream_is d' h (tape_collect n t).2.
Proof using Hgm.
  intros Hs Hn. revert d t Hs. induction fuel as [|fuel IH]; intros d t Hs Hf; [pose proof (lengthZ_nonneg (tp_left t)); lia|].
  pose proof (lengthZ_nonneg (tp_left t)). destruct (available_is d h t Hs) as (a & Ha & Hv).
  cbn [collect_loop]. unfold reader_next. run_prog. rewrite Ha. run_prog.
  destruct (Z.eqb_spec (uval a) 0) as [Hz|Hz].
  { exists d. unfold tape_collect. rewrite <-Hv, Hz, Z.div_0_l, Z.mod_0_l, Z.mul_0_r, advance_0 by lia. done. }
  destruct (decide (n <= lengthZ (tp_left t))) as [Hle|Hgt].
  - destruct (read_obj_is d h t n Hs Hle) as (d1 & Hrun & Hs1).
    destruct (IH d1 (advance n t) Hs1) as (d2 & Hrun2 & Hs2).
    { cbn. rewrite lengthZ_dropZ by lia. lia. }
    exists d2. rewrite tape_collect_cons by lia. cbn [fst snd]. split; [|done].
    rewrite Hrun. run_prog. rewrite Hrun2. by destruct (tape_collect n (advance n t)).1.
  - rewrite (read_obj_short d h t n Hs) by lia. exists d. unfold tape_collect.
    rewrite Z.div_small, Z.mod_small, Z.mul_0_r, advance_0 by lia.
    destruct (Z.eqb_spec (lengthZ (tp_left t)) 0); [lia|]. done.
Qed.

Lemma collect_step (n : u64) : 0 < n → step_ok (OpCollect n).
Proof using Hgm.
  intros Hn d h t Hs. destruct (available_is d h t Hs) as (a & Ha & Hv).
  destruct (collect_loop_is (S (Z.to_nat a)) d h t n Hs Hn) as (d' & Hrun & Hs'); [lia|].
  exists d', h. split; [|done]. cbn [stream_exec tape_exec].
  assert (Hc : Reader_collect gm n (d, h) = collect_loop gm (S (Z.to_nat a)) n (d, h)).
  { unfold Reader_collect. run_prog. rewrite Ha. by run_prog. }
  unfold tape_collect in *. cbn [fst snd] in *. destruct (_ =? 0).
  - apply (answer_returns RObjects). by rewrite Hc.
  - apply answer_throws. by rewrite Hc.
Qed.

(** Writing objects. *)
Lemma write_obj_is d h t bs :
  stream_is d h t → lengthZ bs < 2 ^ 64 →
  ∃ d' h', Writer_write_obj gm bs (d, h) =
      (if lengthZ bs <=? lengthZ (tp_left t) then Returns () else Throws WriteZero, (d', h')) ∧
    stream_is d' h' (tape_write bs t).
Proof using Hgm.
  intros [Hd Hl Hm Hc] Hlen. destruct (Writer_write_obj_spec d h bs Hd Hlen) as (d' & h' & Hw & Hd' & Hr & Hn & Hv).
  exists d', h'. split; [by rewrite <-Hl|]. apply (tape_write_is d); try done.
  intros x. rewrite Hv. by apply store_ext.
Qed.

(** What is stored does not depend on how the bytes are divided. *)
Lemma store_split m l bs cs :
  store m l (bs ++ cs) = store (store m l bs) (dropZ (lengthZ bs) l) cs.
Proof.
  revert m bs. induction l as [|a l IH]; intros m [|b bs]; cbn [store app]; [done..| |].
  - by rewrite lengthZ_nil, dropZ_0.
  - rewrite IH, lengthZ_cons. pose proof (lengthZ_nonneg bs). cbn [dropZ].
    destruct (Z.leb_spec (1 + lengthZ bs) 0); [lia|]. do 2 f_equal. lia.
Qed.

Lemma tape_write_app bs cs t : tape_write cs (tape_write bs t) = tape_write (bs ++ cs) t.
Proof.
  destruct t as [l m c]. unfold tape_write, advance. cbn. pose proof (lengthZ_nonneg bs).
  pose proof (lengthZ_nonneg cs). pose proof (lengthZ_nonneg l).
  rewrite <-store_split, lengthZ_app, dropZ_dropZ, lengthZ_dropZ by lia. f_equal. lia.
Qed.

Lemma tape_write_full bs cs t :
  lengthZ (tp_left t) < lengthZ bs → tape_write (bs ++ cs) t = tape_write bs t.
Proof.
  intros Hlt. rewrite <-tape_write_app. unfold tape_write, advance. cbn.
  pose proof (lengthZ_nonneg cs). rewrite (dropZ_ge (lengthZ bs)) by lia. change (lengthZ (A := Z) []) with 0.
  rewrite Z.min_r by lia. cbn. f_equal. lia.
Qed.

Lemma write_iter_is vals d h t :
  stream_is d h t → Forall (λ bs, lengthZ bs < 2 ^ 64) vals →
  ∃ d' h', Writer_write_iter gm vals (d, h) =
      (if lengthZ (concat vals) <=? lengthZ (tp_left t) then Returns () else Throws WriteZero, (d', h')) ∧
    stream_is d' h' (tape_write (concat vals) t).
Proof using Hgm.
  intros Hs Hvals. revert d h t Hs. induction Hvals as [|bs vals Hbs Hvals IH]; intros d h t Hs.
  { apply (write_obj_is d h t [] Hs). by rewrite lengthZ_nil. }
  cbn [Writer_write_iter concat]. destruct (write_obj_is d h t bs Hs Hbs) as (d1 & h1 & Hrun & Hs1).
  pose proof (lengthZ_nonneg (concat vals)). rewrite lengthZ_app.
  destruct (Z.leb_spec (lengthZ bs) (lengthZ (tp_left t))) as [Hle|Hgt].
  - destruct (IH d1 h1 _ Hs1) as (d2 & h2 & Hrun2 & Hs2). exists d2, h2. rewrite tape_write_app in Hs2.
    split; [|done]. erewrite bind_returns by exact Hrun. rewrite Hrun2. cbn.
    pose proof (lengthZ_nonneg bs). rewrite lengthZ_dropZ by lia. f_equal.
    destruct (Z.leb_spec (lengthZ (concat vals)) (Z.max 0 (lengthZ (tp_left t) - lengthZ bs))),
      (Z.leb_spec (lengthZ bs + lengthZ (concat vals)) (lengthZ (tp_left t))); done || lia.
  - exists d1, h1. rewrite tape_write_full by done. split; [|done]. run_prog. rewrite Hrun.
    by destruct (Z.leb_spec (lengthZ bs + lengthZ (concat vals)) (lengthZ (tp_left t))); [lia|].
Qed.

Lemma write_answer (m : Stream ()) s s' (b : bool) :
  m s = (if b then Returns () else Throws WriteZero, s') →
  answer (λ _, RDone) m s = (Returns (if b then RDone else RError WriteZero), s').
Proof. destruct b; [apply (answer_returns (λ _, RDone))|apply answer_throws]. Qed.

Lemma stream_step op : op_fits op → step_ok op.
Proof using Hgm.
  destruct op as [n|n|n|bs|n|bs|vals|n|]; intros Hop; [| |apply read_step| |by apply collect_step|..];
    intros d h t Hs; cbn [tape_exec stream_exec].
  - pose proof (peek_obj_is d h t n Hs) as Hrun. exists d, h. split; [|done].
    destruct (n <=? _); [by apply (answer_returns RBytes)|by apply answer_throws].
  - destruct (Z.leb_spec n (lengthZ (tp_left t))).
    + destruct (read_obj_is d h t n Hs) as (d' & Hrun & Hs'); [done|]. exists d', h. split; [|done].
      by apply (answer_returns RBytes).
    + exists d, h. split; [|done]. apply answer_throws. by apply (read_obj_short d h t).
  - destruct Hs as [Hd Hl Hm Hc]. destruct (Writer_write_spec d h bs Hd Hop) as (d' & h' & Hw & Hd' & Hr & Hn & Hv).
    exists d', h'. split; [rewrite <-Hl; by apply (answer_returns RCount)|]. apply (tape_write_is d); try done.
    intros x. rewrite Hv. by apply store_ext.
  - destruct (write_obj_is d h t bs Hs Hop) as (d' & h' & Hrun & Hs'). exists d', h'. split; [|done].
    by apply write_answer.
  - destruct (write_iter_is vals d h t Hs Hop) as (d' & h' & Hrun & Hs'). exists d', h'. split; [|done].
    by apply write_answer.
  - destruct (advance_is d h t n Hs) as (d' & Hc & Hs'). exists d', h. split; [|done].
    by rewrite (answer_returns _ _ _ _ _ Hc).
  - destruct (available_is d h t Hs) as (n & Hn & Hv). exists d, h. split; [|done].
    cbn. rewrite <-Hv. apply (answer_returns RCount). run_prog. by rewrite Hn.
Qed.

(** C9. A reader or writer is a stream over the addresses of its regions, in
    order: any sequence of operations reads the bytes there and stores bytes
    there exactly as if the regions were one buffer, never past their end,
    whatever the boundaries of the regions, and no operation aborts. *)
Theorem stream_refines_tape ops d h t :
  Forall op_fits ops → stream_is d h t →
  ∃ d' h', stream_run ops (d, h) = (Returns (fst (tape_run ops t)), (d', h')) ∧
    stream_is d' h' (snd (tape_run ops t)).
Proof using Hgm.
  intros Hops. revert d h t. induction Hops as [|op ops Hop Hops IH]; intros d h t Hs; [by exists d, h|].
  destruct (stream_step op Hop d h t Hs) as (d1 & h1 & Hrun & Hs1).
  cbn [stream_run tape_run]. erewrite bind_returns by exact Hrun.
  destruct (tape_exec op t) as [r t1]. destruct (IH d1 h1 t1 Hs1) as (d2 & h2 & Hrun2 & Hs2).
  erewrite bind_returns by exact Hrun2. destruct (tape_run ops t1) as [rs t2]. by exists d2, h2.
Qed.

(** ** Splitting *)

Lemma split_loop_spec l (n : u64) :
  Forall valid l → ∃ k, split_loop l n = Some k ∧ Forall valid k ∧ addrs k = takeZ n (addrs l).
Proof.
  intros Hl. revert n. induction Hl as [|r l Hr Hl IH]; intros n; cbn [split_loop]; [by exists []|].
  pose proof (uint_range n). rewrite addrs_cons. destruct (Z.leb_spec n (rg_len r)).
  - eexists. split_and!; [done| |].
    + repeat constructor. destruct Hr as (i & mr & Ha & Hend). exists i, mr. split; [done|cbn; lia].
    + rewrite takeZ_app_le by (rewrite lengthZ_region_addrs; lia). rewrite addrs_cons, app_nil_r.
      unfold region_addrs. cbn. by rewrite takeZ_seqZ by lia.
  - destruct (sub_checked n (rg_len r)) as [n'|] eqn:Hn; [|apply sub_checked_None in Hn; lia].
    apply sub_checked_Some in Hn. cbn. destruct (IH n') as (k & -> & Hk & Ha). cbn.
    eexists. split_and!; [done|by constructor|].
    rewrite addrs_cons, takeZ_app_ge, lengthZ_region_addrs by (rewrite lengthZ_region_addrs; lia).
    by rewrite Ha, Hn.
Qed.

(** Splitting a reader or writer that is at the start of a region gives two
    streams: the first has the next [n] addresses left, the second the others,
    and has consumed nothing. *)
Theorem split_at_start d (n : u64) :
  stream_ok d → uval (current_region_offset d) = 0 → (current_region_index d <= length (dcr_regions d))%nat →
  ∃ d1 d2, regions_split_at d n = Some (d1, d2) ∧ stream_ok d1 ∧ stream_ok d2 ∧
    remaining d1 = takeZ n (remaining d) ∧ remaining d2 = dropZ n (remaining d) ∧
    bytes_consumed d1 = bytes_consumed d ∧ uval (bytes_consumed d2) = 0.
Proof.
  intros Hd Hoff Hidx. pose proof (uint_range n).
  destruct (consume_spec d n Hd) as (d2 & Hrun & [Ho2 Hv2 Ht2 Hc2] & _ & Hr2 & Hn2).
  destruct Hd as [Ho Hv Ht Hc]. destruct (split_loop_spec (current_regions d) n Hv) as (k & Hk & Hvk & Hak).
  unfold regions_split_at. rewrite Hrun, Hk. cbn. eexists _, _. split; [done|].
  set (d1 := MkChainRegions _ _ _ _). assert (Hcur : current_regions d1 = k).
  { unfold current_regions, d1. cbn. rewrite drop_app_length'; [done|]. rewrite length_take. lia. }
  assert (Hrem : remaining d1 = takeZ n (remaining d)).
  { unfold remaining. rewrite Hcur. cbn. rewrite Hoff, !dropZ_0, Hak. done. }
  pose proof (lengthZ_nonneg (remaining d)). split_and!; try done.
  - constructor; rewrite ?Hcur, ?Hrem; [|done| |].
    + cbn [d1 current_region_offset]. rewrite Hoff. destruct k; [done|]. apply uint_range.
    + rewrite Hak, lengthZ_takeZ by lia. lia.
    + rewrite lengthZ_takeZ by lia. cbn. lia.
  - constructor; [done..|]. change (remaining _) with (remaining d2). cbn [bytes_consumed].
    change (uval (U64 0)) with 0. pose proof (uint_range (bytes_consumed d2)). lia.
Qed.

(** Splitting in the middle of a region is wrong: after [o] bytes of the
    current region have been consumed, splitting at [n] within it leaves the
    first stream only [n - o] of the [n] bytes; if [n < o], the next attempt to
    consume any of them aborts. *)
Theorem split_at_middle d r rest (n count : u64) :
  stream_ok d → current_regions d = r :: rest → 0 < current_region_offset d →
  current_region_offset d + n <= rg_len r →
  ∃ d1 d2, regions_split_at d n = Some (d1, d2) ∧ remaining d2 = dropZ n (remaining d) ∧
    (current_region_offset d <= n → remaining d1 = takeZ (n - current_region_offset d) (remaining d)) ∧
    (n < current_region_offset d → consume d1 count = None).
Proof.
  intros Hd Hcur Ho Hn. pose proof (uint_range n).
  destruct (consume_spec d n Hd) as (d2 & Hrun & _ & _ & Hr2 & _).
  unfold regions_split_at. rewrite Hrun, Hcur. cbn [split_loop mbind option_bind].
  destruct (Z.leb_spec n (rg_len r)); [|lia]. eexists _, _. split; [done|]. split; [done|].
  set (d1 := MkChainRegions _ _ _ _). assert (Hcur1 : current_regions d1 = [MkMemRegion (rg_offset r) n]).
  { unfold current_regions, d1 in *. cbn. rewrite drop_app_length'; [done|]. rewrite length_take.
    apply (f_equal length) in Hcur. rewrite length_drop in Hcur. cbn in Hcur. lia. }
  split.
  - intros Hle. unfold remaining. rewrite Hcur1, Hcur, !addrs_cons. cbn [d1 current_region_offset].
    rewrite app_nil_r, dropZ_app_le by (rewrite lengthZ_region_addrs; lia). unfold region_addrs. cbn.
    rewrite takeZ_app_le, !dropZ_seqZ by (try (unfold lengthZ; rewrite ?dropZ_seqZ, ?length_seqZ); lia).
    by rewrite takeZ_seqZ by lia.
  - intros Hlt. unfold consume. rewrite Hcur1. cbn [consume_loop rg_len d1 current_region_offset].
    destruct (sub_checked n (current_region_offset d)) as [x|] eqn:Hx; [|done].
    apply sub_checked_Some in Hx. pose proof (uint_range x). lia.
Qed.

End streams.
