(* ===== verification/DescriptorChain.v ===== *)
(** * Descriptor chains

    [DescriptorChain] of [libcrosvm/devices/src/virtio/descriptor_chain.rs] and
    the iterators over descriptors in guest memory of
    [queue/split_descriptor_chain.rs] and [queue/packed_descriptor_chain.rs].
    The contents of the memory are the guest's; every field of a descriptor is
    read from it. *)

From S2P Require Import Prelude Checked Bits GuestMemory DescriptorUtils.

Inductive QueueError :=
  | NonReadyQueue
  | AlreadyActivated
  | SizeNotPowerOfTwo
  | AreaOutOfBounds
  | IndexOutOfBounds
  | LoopDetected
  | IntegerOverflow
  | FailedToRead (e : MemoryError)
  | UnexpectedFlags
  | ZeroLengthDescriptor
  | ReadableAfterWritable
  | RangeOutOfBounds
  | LengthOverflow
  | ZeroLengthChain
  | SnapshotNotImplemented.

(** [.context(...)?] on an access to guest memory, and [.unwrap()]. *)
Definition with_context {S A E} (m : prog S MemoryError A) (f : MemoryError → E) : prog S E A := λ s,
  match m s with
  | (Returns a, s') => (Returns a, s')
  | (Throws e, s') => (Throws (f e), s')
  | (Aborts, s') => (Aborts, s')
  end.

Definition unwrap {S A E E'} (m : prog S E A) : prog S E' A := λ s,
  match m s with
  | (Returns a, s') => (Returns a, s')
  | (_, s') => (Aborts, s')
  end.

Definition VIRTQ_DESC_F_NEXT : u16 := U16 0x1.
Definition VIRTQ_DESC_F_WRITE : u16 := U16 0x2.
Definition VIRTQ_DESC_F_AVAIL : u16 := U16 0x80.
Definition VIRTQ_DESC_F_USED : u16 := U16 0x8000.

(** [flags & f != 0]. *)
Definition has_flag (flags f : u16) : bool := negb (uval (uand flags f) =? 0).

Inductive DescriptorAccess := DeviceRead | DeviceWrite.

Record Descriptor := MkDescriptor {
  de_address : u64;
  de_len : u32;
  de_access : DescriptorAccess
}.

(** The trait [DescriptorChainIter]; [iter_left] bounds the number of further
    descriptors. *)
Class DescriptorChainIter (I : Type) := {
  iter_next : I → prog host QueueError (option Descriptor * I);
  iter_count : I → u16;
  iter_id : I → option u16;
  iter_left : I → nat
}.

Record DescriptorChain := MkChain {
  dc_index : u16;
  dc_reader : DescriptorChainRegions;
  dc_writer : DescriptorChainRegions;
  dc_id : option u16;
  dc_count : u16
}.

Section chain.
Context (mem : GuestMemory).

Fixpoint validate_mem_regions (regions : list MemRegion) (total_len : u32) : outcome QueueError () :=
  match regions with
  | [] => if uval total_len =? 0 then Throws ZeroLengthChain else Returns ()
  | r :: regions =>
      let len := U32 (rg_len r) in
      if is_valid_range mem (rg_offset r) (U64 len) then
        match add_checked total_len len with
        | Some total_len => validate_mem_regions regions total_len
        | None => Throws LengthOverflow
        end
      else Throws RangeOutOfBounds
  end.

Section new.
Context {I : Type} `{!DescriptorChainIter I}.

(** The loop over the descriptors: the regions and the iterator at its end. *)
Fixpoint read_descriptors (fuel : nat) (chain : I) (readable writable : list MemRegion) (seen : bool) :
    prog host QueueError (list MemRegion * list MemRegion * I) :=
  match fuel with
  | O => abort
  | S fuel =>
      '(desc, chain) ← iter_next chain;
      match desc with
      | None => mret (readable, writable, chain)
      | Some desc =>
          if uval (de_len desc) =? 0 then read_descriptors fuel chain readable writable seen
          else
            let region := MkMemRegion (de_address desc) (U64 (de_len desc)) in
            match de_access desc with
            | DeviceRead =>
                if seen : bool then throw ReadableAfterWritable
                else read_descriptors fuel chain (readable ++ [region]) writable seen
            | DeviceWrite => read_descriptors fuel chain readable (writable ++ [region]) true
            end
      end
  end.

Definition DescriptorChain_new (chain : I) (index : u16) : prog host QueueError DescriptorChain :=
  '(readable, writable, chain) ← read_descriptors (S (iter_left chain)) chain [] [] false;
  _ ← give_outcome (validate_mem_regions (readable ++ writable) (U32 0));
  mret (MkChain index (DescriptorChainRegions_new readable) (DescriptorChainRegions_new writable)
          (iter_id chain) (iter_count chain)).

End new.

(** ** Split queues *)

Record Desc := MkDesc { d_addr : u64; d_len : u32; d_flags : u16; d_next : u16 }.

Definition Desc_of (bs : list u8) : Desc :=
  MkDesc (U64 (le_field bs 0 8)) (U32 (le_field bs 8 4)) (U16 (le_field bs 12 2)) (U16 (le_field bs 14 2)).

Record SplitDescriptorChain := MkSplitChain {
  sdc_index : option u16;
  sdc_count : u16;
  sdc_queue_size : u16;
  sdc_desc_table : GuestAddress
}.

Definition SplitDescriptorChain_new (desc_table : GuestAddress) (queue_size index : u16) :
    SplitDescriptorChain :=
  MkSplitChain (Some index) (U16 0) queue_size desc_table.

Definition access_of (flags : u16) : DescriptorAccess :=
  if has_flag flags VIRTQ_DESC_F_WRITE then DeviceWrite else DeviceRead.

Definition split_chain_next (c : SplitDescriptorChain) :
    prog host QueueError (option Descriptor * SplitDescriptorChain) :=
  match sdc_index c with
  | None => mret (None, c)
  | Some index =>
      if sdc_queue_size c <=? index then throw IndexOutOfBounds
      else if sdc_queue_size c <=? sdc_count c then throw LoopDetected
      else
        count ← checked (add_checked (sdc_count c) (U16 1));
        desc_addr ← ok_or_throw
          (GuestAddress_checked_add (sdc_desc_table c) (U64 (index * 16))) IntegerOverflow;
        bs ← with_context (read_obj_from_addr mem (U64 16) desc_addr) FailedToRead;
        let desc := Desc_of bs in
        let flags := d_flags desc in
        let unexpected_flags := uand flags (unot (uor VIRTQ_DESC_F_WRITE VIRTQ_DESC_F_NEXT)) in
        if negb (uval unexpected_flags =? 0) then throw UnexpectedFlags
        else
          let next := if has_flag flags VIRTQ_DESC_F_NEXT then Some (d_next desc) else None in
          mret (Some (MkDescriptor (d_addr desc) (d_len desc) (access_of flags)),
                MkSplitChain next count (sdc_queue_size c) (sdc_desc_table c))
  end.

Definition split_chain_iter : DescriptorChainIter SplitDescriptorChain := {|
  iter_next := split_chain_next;
  iter_count := sdc_count;
  iter_id := λ _, None;
  iter_left := λ c, Z.to_nat (sdc_queue_size c - sdc_count c)
|}.

(** ** Packed queues *)

Definition RING_EVENT_FLAGS_ENABLE : u16 := U16 0x0.
Definition RING_EVENT_FLAGS_DISABLE : u16 := U16 0x1.
Definition RING_EVENT_FLAGS_DESC : u16 := U16 0x2.

Record PackedDesc := MkPackedDesc { pd_addr : u64; pd_len : u32; pd_id : u16; pd_flags : u16 }.

Definition PackedDesc_of (bs : list u8) : PackedDesc :=
  MkPackedDesc (U64 (le_field bs 0 8)) (U32 (le_field bs 8 4)) (U16 (le_field bs 12 2))
    (U16 (le_field bs 14 2)).

Definition has_next (d : PackedDesc) : bool := has_flag (pd_flags d) VIRTQ_DESC_F_NEXT.

(** [is_available]; the wrap counter is 0 or 1. *)
Definition is_available (d : PackedDesc) (wrap : bool) : bool :=
  let avail := has_flag (pd_flags d) VIRTQ_DESC_F_AVAIL in
  let used := has_flag (pd_flags d) VIRTQ_DESC_F_USED in
  negb (eqb avail used) && eqb avail wrap.

Record PackedDescEvent := MkDescEvent { pe_desc : u16; pe_flag : u16 }.

Definition PackedDescEvent_of (bs : list u8) : PackedDescEvent :=
  MkDescEvent (U16 (le_field bs 0 2)) (U16 (le_field bs 2 2)).

Inductive PackedNotificationType := Enable | Disable | NotifyDesc (desc : u16).

Definition notification_type (e : PackedDescEvent) : PackedNotificationType :=
  if pe_flag e =? RING_EVENT_FLAGS_DISABLE then Disable
  else if pe_flag e =? RING_EVENT_FLAGS_DESC then NotifyDesc (pe_desc e)
  else Enable.

Record PackedDescriptorChain := MkPackedChain {
  pdc_avail_wrap_counter : bool;
  pdc_index : option u16;
  pdc_count : u16;
  pdc_id : option u16;
  pdc_queue_size : u16;
  pdc_desc_table : GuestAddress
}.

Definition PackedDescriptorChain_new (desc_table : GuestAddress) (queue_size : u16) (wrap : bool)
    (index : u16) : PackedDescriptorChain :=
  MkPackedChain wrap (Some index) (U16 0) None queue_size desc_table.

(** Where a chain goes on after [index], and its buffer id at the end. *)
Definition packed_chain_step (c : PackedDescriptorChain) (index : u16) (desc : PackedDesc) (count : u16) :
    option PackedDescriptorChain :=
  if has_next desc then
    index1 ← add_checked index (U16 1);
    if uval index1 <? pdc_queue_size c then
      Some (MkPackedChain (pdc_avail_wrap_counter c) (Some index1) count (pdc_id c)
              (pdc_queue_size c) (pdc_desc_table c))
    else
      Some (MkPackedChain (negb (pdc_avail_wrap_counter c)) (Some (U16 0)) count (pdc_id c)
              (pdc_queue_size c) (pdc_desc_table c))
  else
    Some (MkPackedChain (pdc_avail_wrap_counter c) None count (Some (pd_id desc))
            (pdc_queue_size c) (pdc_desc_table c)).

Definition packed_chain_next (c : PackedDescriptorChain) :
    prog host QueueError (option Descriptor * PackedDescriptorChain) :=
  match pdc_index c with
  | None => mret (None, c)
  | Some index =>
      if pdc_queue_size c <=? index then throw IndexOutOfBounds
      else if pdc_queue_size c <=? pdc_count c then throw LoopDetected
      else
        desc_addr ← ok_or_throw
          (GuestAddress_checked_add (pdc_desc_table c) (U64 (index * 16))) IntegerOverflow;
        bs ← with_context (read_obj_from_addr mem (U64 16) desc_addr) FailedToRead;
        let desc := PackedDesc_of bs in
        let flags := pd_flags desc in
        if negb (is_available desc (pdc_avail_wrap_counter c)) then mret (None, c)
        else if uval (pd_len desc) =? 0 then throw ZeroLengthDescriptor
        else
          let unexpected_flags := uand flags (unot (uor (uor (uor VIRTQ_DESC_F_WRITE VIRTQ_DESC_F_NEXT)
                                                         VIRTQ_DESC_F_AVAIL) VIRTQ_DESC_F_USED)) in
          if negb (uval unexpected_flags =? 0) then throw UnexpectedFlags
          else
            count ← checked (add_checked (pdc_count c) (U16 1));
            c ← checked (packed_chain_step c index desc count);
            mret (Some (MkDescriptor (pd_addr desc) (pd_len desc) (access_of flags)), c)
  end.

Definition packed_chain_iter : DescriptorChainIter PackedDescriptorChain := {|
  iter_next := packed_chain_next;
  iter_count := pdc_count;
  iter_id := pdc_id;
  iter_left := λ c, Z.to_nat (pdc_queue_size c - pdc_count c)
|}.

End chain.
