(* ===== verification/SplitQueue.v ===== *)
(** * Virtqueues with the split layout

    [QueueConfig] of [libcrosvm/devices/src/virtio/queue.rs] and the split queue
    of [queue/split_queue.rs].  The rings are in guest memory, which the driver
    writes between the operations of the device; an operation sees one state of
    it.  The [debug_assert!]s of the source are not in the model; what they
    assert is part of the theorems.  The [Event] of a queue is its number. *)

From S2P Require Import Prelude Checked Bits GuestMemory DescriptorUtils DescriptorChain.

Definition VIRTIO_MSI_NO_VECTOR : u16 := U16 0xffff.
Definition VIRTIO_RING_F_EVENT_IDX : Z := 29.
Definition VIRTIO_F_RING_PACKED : Z := 34.
Definition MAX_SIZE : u16 := U16 32768.

(** ** Configuration *)

Record QueueConfig := MkConfig {
  qc_activated : bool;
  qc_max_size : u16;
  qc_size : u16;
  qc_ready : bool;
  qc_vector : u16;
  qc_features : u64;
  qc_acked_features : u64;
  qc_desc_table : GuestAddress;
  qc_avail_ring : GuestAddress;
  qc_used_ring : GuestAddress;
  qc_next_avail : u16;
  qc_next_used : u16
}.

(** [QueueConfig::new]; the assertions on the size. *)
Definition QueueConfig_new (max_size : u16) (features : u64) : option QueueConfig :=
  if (0 <? max_size) && (max_size <=? MAX_SIZE) then
    Some (MkConfig false max_size max_size false VIRTIO_MSI_NO_VECTOR features (U64 0) (U64 0) (U64 0)
            (U64 0) (U16 0) (U16 0))
  else None.

Section config.
Implicit Types c : QueueConfig.

Definition QueueConfig_set_size (val : u16) c : QueueConfig :=
  if qc_ready c then c
  else if qc_max_size c <? val then c
  else MkConfig (qc_activated c) (qc_max_size c) val (qc_ready c) (qc_vector c) (qc_features c)
         (qc_acked_features c) (qc_desc_table c) (qc_avail_ring c) (qc_used_ring c) (qc_next_avail c)
         (qc_next_used c).

Definition QueueConfig_set_vector (val : u16) c : QueueConfig :=
  if qc_ready c then c
  else MkConfig (qc_activated c) (qc_max_size c) (qc_size c) (qc_ready c) val (qc_features c)
         (qc_acked_features c) (qc_desc_table c) (qc_avail_ring c) (qc_used_ring c) (qc_next_avail c)
         (qc_next_used c).

Definition QueueConfig_set_desc_table (val : GuestAddress) c : QueueConfig :=
  if qc_ready c then c
  else MkConfig (qc_activated c) (qc_max_size c) (qc_size c) (qc_ready c) (qc_vector c) (qc_features c)
         (qc_acked_features c) val (qc_avail_ring c) (qc_used_ring c) (qc_next_avail c) (qc_next_used c).

Definition QueueConfig_set_avail_ring (val : GuestAddress) c : QueueConfig :=
  if qc_ready c then c
  else MkConfig (qc_activated c) (qc_max_size c) (qc_size c) (qc_ready c) (qc_vector c) (qc_features c)
         (qc_acked_features c) (qc_desc_table c) val (qc_used_ring c) (qc_next_avail c) (qc_next_used c).

Definition QueueConfig_set_used_ring (val : GuestAddress) c : QueueConfig :=
  if qc_ready c then c
  else MkConfig (qc_activated c) (qc_max_size c) (qc_size c) (qc_ready c) (qc_vector c) (qc_features c)
         (qc_acked_features c) (qc_desc_table c) (qc_avail_ring c) val (qc_next_avail c) (qc_next_used c).

Definition QueueConfig_set_next_avail (val : u16) c : QueueConfig :=
  if qc_ready c then c
  else MkConfig (qc_activated c) (qc_max_size c) (qc_size c) (qc_ready c) (qc_vector c) (qc_features c)
         (qc_acked_features c) (qc_desc_table c) (qc_avail_ring c) (qc_used_ring c) val (qc_next_used c).

Definition QueueConfig_set_next_used (val : u16) c : QueueConfig :=
  if qc_ready c then c
  else MkConfig (qc_activated c) (qc_max_size c) (qc_size c) (qc_ready c) (qc_vector c) (qc_features c)
         (qc_acked_features c) (qc_desc_table c) (qc_avail_ring c) (qc_used_ring c) (qc_next_avail c) val.

Definition QueueConfig_ack_features (features : u64) c : QueueConfig :=
  MkConfig (qc_activated c) (qc_max_size c) (qc_size c) (qc_ready c) (qc_vector c) (qc_features c)
    (uor (qc_acked_features c) (uand features (qc_features c))) (qc_desc_table c) (qc_avail_ring c)
    (qc_used_ring c) (qc_next_avail c) (qc_next_used c).

Definition QueueConfig_set_ready (enable : bool) c : QueueConfig :=
  MkConfig (qc_activated c) (qc_max_size c) (qc_size c) enable (qc_vector c) (qc_features c)
    (qc_acked_features c) (qc_desc_table c) (qc_avail_ring c) (qc_used_ring c) (qc_next_avail c)
    (qc_next_used c).

Definition QueueConfig_reset c : QueueConfig :=
  MkConfig false (qc_max_size c) (qc_max_size c) false VIRTIO_MSI_NO_VECTOR (qc_features c) (U64 0)
    (U64 0) (U64 0) (U64 0) (U16 0) (U16 0).

End config.

(** [QueueConfigSnapshot], [snapshot] and [restore], which overwrites every field. *)
Record QueueConfigSnapshot := MkConfigSnapshot {
  cs_activated : bool;
  cs_max_size : u16;
  cs_size : u16;
  cs_ready : bool;
  cs_vector : u16;
  cs_features : u64;
  cs_acked_features : u64;
  cs_desc_table : GuestAddress;
  cs_avail_ring : GuestAddress;
  cs_used_ring : GuestAddress;
  cs_next_avail : u16;
  cs_next_used : u16
}.

Definition QueueConfig_snapshot (c : QueueConfig) : QueueConfigSnapshot :=
  MkConfigSnapshot (qc_activated c) (qc_max_size c) (qc_size c) (qc_ready c) (qc_vector c) (qc_features c)
    (qc_acked_features c) (qc_desc_table c) (qc_avail_ring c) (qc_used_ring c) (qc_next_avail c)
    (qc_next_used c).

Definition QueueConfig_restore (c : QueueConfig) (s : QueueConfigSnapshot) : QueueConfig :=
  MkConfig (cs_activated s) (cs_max_size s) (cs_size s) (cs_ready s) (cs_vector s) (cs_features s)
    (cs_acked_features s) (cs_desc_table s) (cs_avail_ring s) (cs_used_ring s) (cs_next_avail s)
    (cs_next_used s).

(** ** The queue *)

Record SplitQueue := MkSplit {
  sq_event : Event;
  sq_size : u16;
  sq_vector : u16;
  sq_desc_table : GuestAddress;
  sq_avail_ring : GuestAddress;
  sq_used_ring : GuestAddress;
  sq_next_avail : u16;
  sq_next_used : u16;
  sq_features : u64;
  sq_last_used : u16
}.

Definition ring_sizes (queue_size : u16) (desc_table avail_ring used_ring : GuestAddress) :
    list (GuestAddress * u64) :=
  [(desc_table, U64 (16 * queue_size)); (avail_ring, U64 (6 + 2 * queue_size));
   (used_ring, U64 (6 + 8 * queue_size))].

(** No address calculation in an area overflows. *)
Definition areas_in_bounds (l : list (GuestAddress * u64)) : bool :=
  forallb (λ '(addr, size), bool_decide (is_Some (GuestAddress_checked_add addr size))) l.

Definition SplitQueue_new (config : QueueConfig) (event : Event) : outcome QueueError SplitQueue :=
  let size := qc_size config in
  if negb (is_power_of_two size) then Throws SizeNotPowerOfTwo
  else if negb (areas_in_bounds (ring_sizes size (qc_desc_table config) (qc_avail_ring config)
                                   (qc_used_ring config))) then Throws AreaOutOfBounds
  else Returns (MkSplit event size (qc_vector config) (qc_desc_table config) (qc_avail_ring config)
                  (qc_used_ring config) (qc_next_avail config) (qc_next_used config)
                  (qc_acked_features config) (qc_next_used config)).

Definition wrap_queue_index (q : SplitQueue) (index : u16) : u16 :=
  uand index (usub (sq_size q) (U16 1)).

Definition set_next_avail (v : u16) (q : SplitQueue) : SplitQueue :=
  MkSplit (sq_event q) (sq_size q) (sq_vector q) (sq_desc_table q) (sq_avail_ring q) (sq_used_ring q) v
    (sq_next_used q) (sq_features q) (sq_last_used q).
Definition set_next_used (v : u16) (q : SplitQueue) : SplitQueue :=
  MkSplit (sq_event q) (sq_size q) (sq_vector q) (sq_desc_table q) (sq_avail_ring q) (sq_used_ring q)
    (sq_next_avail q) v (sq_features q) (sq_last_used q).
Definition set_last_used (v : u16) (q : SplitQueue) : SplitQueue :=
  MkSplit (sq_event q) (sq_size q) (sq_vector q) (sq_desc_table q) (sq_avail_ring q) (sq_used_ring q)
    (sq_next_avail q) (sq_next_used q) (sq_features q) v.

(** What a queue acts on: the bytes of the host, and the vectors of the
    interrupts it has signalled, the latest first. *)
Record World := MkWorld { w_host : host; w_signals : list u16 }.

(** An operation of a queue, and an access to the memory in it. *)
Abbreviation QueueOp Q := (prog (Q * World) QueueError).

Definition on_host {Q A} (m : prog host QueueError A) : QueueOp Q A := λ '(q, w),
  let '(r, h) := m (w_host w) in (r, (q, MkWorld h (w_signals w))).

Definition signal_used_queue {Q} (vector : u16) : QueueOp Q () :=
  '(q, w) ← get_state; put_state (q, MkWorld (w_host w) (vector :: w_signals w)).

Section split.
Context (mem : GuestMemory).

(** [read_obj_from_addr_volatile(addr).unwrap()] and the write, of a [u16]. *)
Definition read_u16 {Q} (addr : GuestAddress) : QueueOp Q u16 :=
  bs ← on_host (unwrap (read_obj_from_addr mem (U64 2) addr)); mret (U16 (le_combine bs)).
Definition write_bytes {Q} (bs : list u8) (addr : GuestAddress) : QueueOp Q () :=
  on_host (unwrap (write_obj_at_addr mem bs addr)).

Definition get_avail_index : QueueOp SplitQueue u16 :=
  '(q, _) ← get_state; read_u16 (unchecked_add (sq_avail_ring q) (U64 2)).

Definition set_avail_event (avail_index : u16) : QueueOp SplitQueue () :=
  '(q, _) ← get_state;
  write_bytes (le_split 2 avail_index) (unchecked_add (sq_used_ring q) (U64 (4 + 8 * sq_size q))).

Definition get_avail_flag (flag : u16) : QueueOp SplitQueue bool :=
  '(q, _) ← get_state;
  avail_flags ← read_u16 (sq_avail_ring q);
  mret (uval (uand avail_flags flag) =? flag).

Definition get_used_event : QueueOp SplitQueue u16 :=
  '(q, _) ← get_state; read_u16 (unchecked_add (sq_avail_ring q) (U64 (4 + 2 * sq_size q))).

Definition set_used_index (used_index : u16) : QueueOp SplitQueue () :=
  '(q, _) ← get_state;
  write_bytes (le_split 2 used_index) (unchecked_add (sq_used_ring q) (U64 2)).

Definition split_peek : QueueOp SplitQueue (option DescriptorChain) :=
  avail_index ← get_avail_index;
  '(q, _) ← get_state;
  if sq_next_avail q =? uval avail_index then mret None
  else
    let desc_idx_addr_offset := U64 (4 + wrap_queue_index q (sq_next_avail q) * 2) in
    match GuestAddress_checked_add (sq_avail_ring q) desc_idx_addr_offset with
    | None => mret None
    | Some desc_idx_addr =>
        descriptor_index ← read_u16 desc_idx_addr;
        let chain := SplitDescriptorChain_new (sq_desc_table q) (sq_size q) descriptor_index in
        r ← catch (on_host (@DescriptorChain_new mem _ (split_chain_iter mem) chain descriptor_index));
        mret (match r with inl chain => Some chain | inr _ => None end)
    end.

Definition event_idx_enabled (features : u64) : bool :=
  negb (uval (uand features (ubit VIRTIO_RING_F_EVENT_IDX)) =? 0).

Definition split_pop_peeked : QueueOp SplitQueue () :=
  '(q, w) ← get_state;
  let next_avail := uadd (sq_next_avail q) (U16 1) in
  _ ← put_state (set_next_avail next_avail q, w);
  if event_idx_enabled (sq_features q) then set_avail_event next_avail else mret ().

(** [Queue::pop] on a split queue. *)
Definition split_pop : QueueOp SplitQueue (option DescriptorChain) :=
  r ← split_peek;
  match r with
  | None => mret None
  | Some chain => _ ← split_pop_peeked; mret (Some chain)
  end.

(** The bytes of a [virtq_used_elem]. *)
Definition used_elem_bytes (id : u16) (len : u32) : list u8 := le_split 4 id ++ le_split 4 len.

Definition split_add_used (desc_chain : DescriptorChain) (len : u32) : QueueOp SplitQueue () :=
  '(q, w) ← get_state;
  let next_used := wrap_queue_index q (sq_next_used q) in
  let used_elem := unchecked_add (sq_used_ring q) (U64 (4 + next_used * 8)) in
  _ ← write_bytes (used_elem_bytes (dc_index desc_chain) len) used_elem;
  '(q, w) ← get_state;
  let next_used := uadd (sq_next_used q) (U16 1) in
  _ ← put_state (set_next_used next_used q, w);
  set_used_index next_used.

Definition VIRTQ_AVAIL_F_NO_INTERRUPT : u16 := U16 0x1.

Definition split_wants_interrupt : QueueOp SplitQueue bool :=
  '(q, _) ← get_state;
  if event_idx_enabled (sq_features q) then
    used_event ← get_used_event;
    mret (uval (usub (usub (sq_next_used q) used_event) (U16 1))
          <? usub (sq_next_used q) (sq_last_used q))
  else
    no_interrupt ← get_avail_flag VIRTQ_AVAIL_F_NO_INTERRUPT;
    mret (negb no_interrupt).

Definition split_trigger_interrupt : QueueOp SplitQueue bool :=
  wants ← split_wants_interrupt;
  if wants : bool then
    '(q, w) ← get_state;
    _ ← put_state (set_last_used (sq_next_used q) q, w);
    _ ← signal_used_queue (sq_vector q);
    mret true
  else mret false.

End split.

(** [snapshot] and [restore]: the fields that are kept. *)
Record SplitQueueSnapshot := MkSplitSnapshot {
  sn_size : u16;
  sn_vector : u16;
  sn_desc_table : GuestAddress;
  sn_avail_ring : GuestAddress;
  sn_used_ring : GuestAddress;
  sn_next_avail : u16;
  sn_next_used : u16;
  sn_features : u64;
  sn_last_used : u16
}.

Definition split_snapshot (q : SplitQueue) : SplitQueueSnapshot :=
  MkSplitSnapshot (sq_size q) (sq_vector q) (sq_desc_table q) (sq_avail_ring q) (sq_used_ring q)
    (sq_next_avail q) (sq_next_used q) (sq_features q) (sq_last_used q).

Definition split_restore (s : SplitQueueSnapshot) (event : Event) : SplitQueue :=
  MkSplit event (sn_size s) (sn_vector s) (sn_desc_table s) (sn_avail_ring s) (sn_used_ring s)
    (sn_next_avail s) (sn_next_used s) (sn_features s) (sn_last_used s).
