(* ===== verification/PackedQueue.v ===== *)
(** * Virtqueues with the packed layout, and queues of either layout

    [queue/packed_queue.rs] and the enum [Queue] of [queue.rs], which
    [QueueConfig::activate] creates. *)

From S2P Require Import Prelude Checked Bits GuestMemory DescriptorUtils DescriptorChain SplitQueue.

(** ** Indices *)

Record PackedQueueIndex := MkIndex { wrap_counter : bool; pi_index : u16 }.

Definition PackedQueueIndex_new_from_desc (desc : u16) : PackedQueueIndex :=
  MkIndex (Z.shiftr desc 15 =? 1) (uand desc (U16 0x7fff)).

Definition to_desc (i : PackedQueueIndex) : PackedDescEvent :=
  MkDescEvent (if wrap_counter i then uor (pi_index i) (ubit 15) else pi_index i) RING_EVENT_FLAGS_DESC.

(** [add_index], on [u16]: the addition is checked. *)
Definition add_index (i : PackedQueueIndex) (index_value size : u16) : option PackedQueueIndex :=
  new_index ← add_checked (pi_index i) index_value;
  if uval new_index <? size then Some (MkIndex (wrap_counter i) new_index)
  else new_index ← sub_checked new_index size; Some (MkIndex (negb (wrap_counter i)) new_index).

Definition PackedQueueIndex_default : PackedQueueIndex := MkIndex true (U16 0).

(** ** The queue *)

Record PackedQueue := MkPacked {
  pq_event : Event;
  pq_size : u16;
  pq_vector : u16;
  pq_avail_index : PackedQueueIndex;
  pq_use_index : PackedQueueIndex;
  pq_signalled_used_index : PackedQueueIndex;
  pq_features : u64;
  pq_desc_table : GuestAddress;
  pq_device_event_suppression : GuestAddress;
  pq_driver_event_suppression : GuestAddress
}.

Definition area_sizes (queue_size : u16) (desc_table driver_area device_area : GuestAddress) :
    list (GuestAddress * u64) :=
  [(desc_table, U64 (16 * queue_size)); (driver_area, U64 4); (device_area, U64 4)].

Definition PackedQueue_new (config : QueueConfig) (event : Event) : outcome QueueError PackedQueue :=
  let size := qc_size config in
  if negb (areas_in_bounds (area_sizes size (qc_desc_table config) (qc_avail_ring config)
                              (qc_used_ring config))) then Throws AreaOutOfBounds
  else Returns (MkPacked event size (qc_vector config) PackedQueueIndex_default PackedQueueIndex_default
                  PackedQueueIndex_default (qc_acked_features config) (qc_desc_table config)
                  (qc_used_ring config) (qc_avail_ring config)).

Definition set_avail_index (i : PackedQueueIndex) (q : PackedQueue) : PackedQueue :=
  MkPacked (pq_event q) (pq_size q) (pq_vector q) i (pq_use_index q) (pq_signalled_used_index q)
    (pq_features q) (pq_desc_table q) (pq_device_event_suppression q) (pq_driver_event_suppression q).
Definition set_use_index (i : PackedQueueIndex) (q : PackedQueue) : PackedQueue :=
  MkPacked (pq_event q) (pq_size q) (pq_vector q) (pq_avail_index q) i (pq_signalled_used_index q)
    (pq_features q) (pq_desc_table q) (pq_device_event_suppression q) (pq_driver_event_suppression q).
Definition set_signalled_used_index (i : PackedQueueIndex) (q : PackedQueue) : PackedQueue :=
  MkPacked (pq_event q) (pq_size q) (pq_vector q) (pq_avail_index q) (pq_use_index q) i
    (pq_features q) (pq_desc_table q) (pq_device_event_suppression q) (pq_driver_event_suppression q).

Section packed.
Context (mem : GuestMemory).

Definition packed_set_avail_event (event : PackedDescEvent) : QueueOp PackedQueue () :=
  '(q, _) ← get_state;
  write_bytes mem (le_split 2 (pe_desc event) ++ le_split 2 (pe_flag event)) (pq_device_event_suppression q).

Definition get_driver_event : QueueOp PackedQueue PackedDescEvent :=
  '(q, _) ← get_state;
  bs ← on_host (unwrap (read_obj_from_addr mem (U64 4) (pq_driver_event_suppression q)));
  mret (PackedDescEvent_of bs).

Definition packed_peek : QueueOp PackedQueue (option DescriptorChain) :=
  '(q, _) ← get_state;
  let index := pi_index (pq_avail_index q) in
  let wrap := wrap_counter (pq_avail_index q) in
  desc_addr ← checked (GuestAddress_checked_add (pq_desc_table q) (U64 (index * 16)));
  r ← catch (on_host (with_context (read_obj_from_addr mem (U64 16) desc_addr) FailedToRead));
  match r with
  | inr _ => mret None
  | inl bs =>
      if negb (is_available (PackedDesc_of bs) wrap) then mret None
      else
        let chain := PackedDescriptorChain_new (pq_desc_table q) (pq_size q) wrap index in
        r ← catch (on_host (@DescriptorChain_new mem _ (packed_chain_iter mem) chain index));
        mret (match r with inl chain => Some chain | inr _ => None end)
  end.

Definition packed_pop_peeked (chain : DescriptorChain) : QueueOp PackedQueue () :=
  '(q, w) ← get_state;
  avail_index ← checked (add_index (pq_avail_index q) (dc_count chain) (pq_size q));
  _ ← put_state (set_avail_index avail_index q, w);
  if event_idx_enabled (pq_features q) then packed_set_avail_event (to_desc avail_index) else mret ().

Definition packed_pop : QueueOp PackedQueue (option DescriptorChain) :=
  r ← packed_peek;
  match r with
  | None => mret None
  | Some chain => _ ← packed_pop_peeked chain; mret (Some chain)
  end.

(** The flags of a used descriptor. *)
Definition used_flags (wrap : bool) (len : u32) : u16 :=
  let flags := if wrap then uor (uor (U16 0) VIRTQ_DESC_F_USED) VIRTQ_DESC_F_AVAIL else U16 0 in
  if 0 <? len then uor flags VIRTQ_DESC_F_WRITE else flags.

Definition packed_add_used (desc_chain : DescriptorChain) (len : u32) : QueueOp PackedQueue () :=
  '(q, _) ← get_state;
  if pq_size q <=? dc_index desc_chain then mret ()
  else
    chain_id ← checked (dc_id desc_chain);
    desc_addr ← checked (GuestAddress_checked_add (pq_desc_table q) (U64 (pi_index (pq_use_index q) * 16)));
    len_addr ← checked (GuestAddress_checked_add desc_addr (U64 8));
    _ ← write_bytes mem (le_split 4 len) len_addr;
    id_addr ← checked (GuestAddress_checked_add desc_addr (U64 12));
    _ ← write_bytes mem (le_split 2 (uval chain_id)) id_addr;
    let flags := used_flags (wrap_counter (pq_use_index q)) len in
    _ ← write_bytes mem (le_split 2 flags) (unchecked_add desc_addr (U64 14));
    '(q, w) ← get_state;
    use_index ← checked (add_index (pq_use_index q) (dc_count desc_chain) (pq_size q));
    put_state (set_use_index use_index q, w).

(** [queue_wants_interrupt]: the value of the [match], unless it returns early,
    is not the value of the function. *)
Definition notification_due : QueueOp PackedQueue bool :=
  driver_event ← get_driver_event;
  '(q, w) ← get_state;
  match notification_type driver_event with
  | Enable => mret true
  | Disable => mret false
  | NotifyDesc desc =>
      if negb (event_idx_enabled (pq_features q)) then mret true
      else
        let old := pq_signalled_used_index q in
        _ ← put_state (set_signalled_used_index (pq_use_index q) q, w);
        let event_idx := pi_index (PackedQueueIndex_new_from_desc desc) in
        let old_idx := pi_index old in
        let new_idx := pi_index (pq_use_index q) in
        mret (usub (usub new_idx event_idx) (U16 1) <? usub new_idx old_idx)
  end.

Definition packed_wants_interrupt : QueueOp PackedQueue bool := _ ← notification_due; mret true.

Definition packed_trigger_interrupt : QueueOp PackedQueue bool :=
  wants ← packed_wants_interrupt;
  if wants : bool then
    '(q, _) ← get_state;
    _ ← signal_used_queue (pq_vector q);
    mret true
  else mret false.

End packed.

(** ** Either layout *)

Inductive Queue := SplitVirtQueue (q : SplitQueue) | PackedVirtQueue (q : PackedQueue).

(** [match self { SplitVirtQueue(sq) => .., PackedVirtQueue(pq) => .. }]. *)
Definition on_queue {A} (s : QueueOp SplitQueue A) (p : QueueOp PackedQueue A) : QueueOp Queue A := λ '(q, w),
  match q with
  | SplitVirtQueue sq => let '(r, (sq, w)) := s (sq, w) in (r, (SplitVirtQueue sq, w))
  | PackedVirtQueue pq => let '(r, (pq, w)) := p (pq, w) in (r, (PackedVirtQueue pq, w))
  end.

Definition Queue_peek (mem : GuestMemory) := on_queue (split_peek mem) (packed_peek mem).

(** [PeekedDescriptorChain::pop] and [Queue::pop]. *)
Definition pop_peeked (mem : GuestMemory) (chain : DescriptorChain) : QueueOp Queue DescriptorChain :=
  _ ← on_queue (split_pop_peeked mem) (packed_pop_peeked mem chain); mret chain.

Definition Queue_pop (mem : GuestMemory) : QueueOp Queue (option DescriptorChain) :=
  r ← Queue_peek mem;
  match r with
  | None => mret None
  | Some chain => chain ← pop_peeked mem chain; mret (Some chain)
  end.

Definition Queue_add_used (mem : GuestMemory) (chain : DescriptorChain) (len : u32) :=
  on_queue (split_add_used mem chain len) (packed_add_used mem chain len).

Definition Queue_trigger_interrupt (mem : GuestMemory) :=
  on_queue (split_trigger_interrupt mem) (packed_trigger_interrupt mem).

(** The queue that is activated, and the configuration after it. *)
Definition activate (c : QueueConfig) (event : Event) : outcome QueueError (Queue * QueueConfig) :=
  if negb (qc_ready c) then Throws NonReadyQueue
  else if qc_activated c then Throws AlreadyActivated
  else
    let activated :=
      MkConfig true (qc_max_size c) (qc_size c) (qc_ready c) (qc_vector c) (qc_features c)
        (qc_acked_features c) (qc_desc_table c) (qc_avail_ring c) (qc_used_ring c) (qc_next_avail c)
        (qc_next_used c) in
    if negb (Z.land (Z.shiftr (qc_acked_features c) VIRTIO_F_RING_PACKED) 1 =? 0) then
      match PackedQueue_new c event with
      | Returns q => Returns (PackedVirtQueue q, activated)
      | Throws e => Throws e
      | Aborts => Aborts
      end
    else
      match SplitQueue_new c event with
      | Returns q => Returns (SplitVirtQueue q, activated)
      | Throws e => Throws e
      | Aborts => Aborts
      end.

Definition Queue_snapshot (q : Queue) : outcome QueueError SplitQueueSnapshot :=
  match q with
  | SplitVirtQueue q => Returns (split_snapshot q)
  | PackedVirtQueue _ => Throws SnapshotNotImplemented
  end.

Definition Queue_restore (c : QueueConfig) (s : SplitQueueSnapshot) (event : Event) :
    outcome QueueError Queue :=
  if negb (uval (uand (qc_acked_features c) (ubit VIRTIO_F_RING_PACKED)) =? 0)
  then Throws SnapshotNotImplemented
  else Returns (SplitVirtQueue (split_restore s event)).
