(* ===== verification/ChainFacts.v ===== *)
(** * Theorems on descriptor chains

    What [DescriptorChain::new] makes of the descriptors of an iterator, for any
    iterator that keeps the promises of its interface, and what the iterators
    over the descriptors of split and packed queues yield. *)

From S2P Require Import Prelude Checked Bits GuestMemory GuestMemoryFacts DescriptorUtils StreamFacts.
From S2P Require Import DescriptorChain.

(** ** The interface of iterators *)

(** A call of [next] ends without a panic, does not change the memory, and uses
    up one of the descriptors that are left. *)
Class IterLaws (I : Type) `{DescriptorChainIter I} := {
  iter_inv : I → Prop;
  iter_next_total c h : iter_inv c →
    match iter_next c h with
    | (Returns (None, c'), h') => h' = h
    | (Returns (Some _, c'), h') => h' = h ∧ iter_inv c' ∧ (iter_left c' < iter_left c)%nat
    | (Throws _, h') => h' = h
    | (Aborts, _) => False
    end
}.

Definition region_of (d : Descriptor) : MemRegion := MkMemRegion (de_address d) (U64 (de_len d)).
Definition nonempty (d : Descriptor) : bool := negb (uval (de_len d) =? 0).
Definition readable (d : Descriptor) : Prop := de_access d = DeviceRead.
Definition writable (d : Descriptor) : Prop := de_access d = DeviceWrite.

(** The descriptors that have bytes, the ones to read from before the ones to
    write to. *)
Definition sorted_as (ds dr dw : list Descriptor) : Prop :=
  List.filter nonempty ds = dr ++ dw ∧ Forall readable dr ∧ Forall writable dw.

Section iter.
Context {I : Type} `{!DescriptorChainIter I}.

Inductive yields (h : host) : I → list Descriptor → I → Prop :=
  | yields_end c c' : iter_next c h = (Returns (None, c'), h) → yields h c [] c'
  | yields_next c d c1 ds c' :
      iter_next c h = (Returns (Some d, c1), h) → yields h c1 ds c' → yields h c (d :: ds) c'.

Section laws.
Context `{!IterLaws I}.

(** The loop ends within the descriptors that are left. *)
Lemma read_descriptors_total fuel (c : I) r w seen h :
  iter_inv c → (iter_left c < fuel)%nat →
  match read_descriptors fuel c r w seen h with
  | (Aborts, _) => False
  | (_, h') => h' = h
  end.
Proof.
  revert c r w seen. induction fuel as [|fuel IH]; intros c r w seen Hc Hfuel; [lia|].
  cbn [read_descriptors]. pose proof (iter_next_total c h Hc) as Hn. run_prog.
  destruct (iter_next c h) as [[[[d|] c']|e|] h']; cbn in Hn |- *; try done.
  destruct Hn as (-> & Hc' & Hlt).
  destruct (uval (de_len d) =? 0); [apply IH; [done|lia]|].
  destruct (de_access d); [destruct seen; [done|]|]; apply IH; done || lia.
Qed.

(** What the loop returns comes from the descriptors. *)
Lemma read_descriptors_sound fuel (c : I) r w seen h r' w' c' h' :
  iter_inv c → read_descriptors fuel c r w seen h = (Returns (r', w', c'), h') →
  h' = h ∧ ∃ ds dr dw, yields h c ds c' ∧ sorted_as ds dr dw ∧ (seen = true → dr = []) ∧
    r' = r ++ map region_of dr ∧ w' = w ++ map region_of dw.
Proof.
  revert c r w seen. induction fuel as [|fuel IH]; intros c r w seen Hc; [done|].
  cbn [read_descriptors]. pose proof (iter_next_total c h Hc) as Hn. run_prog.
  destruct (iter_next c h) as [[[[d|] c1]|e|] h1] eqn:Hnext; cbn in Hn |- *; try done; last first.
  { intros [= <- <- <- <-]. split; [done|]. exists [], [], []. subst h1.
    split_and!; try done; [by constructor|by rewrite app_nil_r..]. }
  destruct Hn as (-> & Hc1 & _). destruct (Z.eqb_spec (uval (de_len d)) 0) as [Hz|Hz].
  { intros Hrun. destruct (IH _ _ _ _ Hc1 Hrun) as (-> & ds & dr & dw & Hy & (Hf & Hr & Hw) & ? & -> & ->).
    split; [done|]. exists (d :: ds), dr, dw. split_and!; try done; [by eapply yields_next|].
    split_and!; try done. cbn. unfold nonempty at 1. by destruct (Z.eqb_spec (uval (de_len d)) 0). }
  assert (Hne : nonempty d = true) by (unfold nonempty; by destruct (Z.eqb_spec (uval (de_len d)) 0)).
  destruct (de_access d) eqn:Hacc; [destruct seen; [done|]|]; intros Hrun;
    destruct (IH _ _ _ _ Hc1 Hrun) as (-> & ds & dr & dw & Hy & (Hf & Hr & Hw) & Hs & -> & ->);
    (split; [done|]).
  - exists (d :: ds), (d :: dr), dw.
    split_and!; try done; [by eapply yields_next| |by rewrite <-app_assoc].
    split_and!; [|by constructor|done]. cbn. by rewrite Hne, Hf.
  - exists (d :: ds), [], (d :: dw). rewrite Hs in * by done.
    split_and!; try done; [by eapply yields_next| |by rewrite <-app_assoc].
    split_and!; [|done|by constructor]. cbn. by rewrite Hne, Hf.
Qed.

End laws.

(** Descriptors in the right order are all read. *)
Lemma read_descriptors_complete fuel (c : I) r w seen h ds dr dw c' :
  yields h c ds c' → (length ds < fuel)%nat → sorted_as ds dr dw → (seen = true → dr = []) →
  read_descriptors fuel c r w seen h =
  (Returns (r ++ map region_of dr, w ++ map region_of dw, c'), h).
Proof.
  intros Hy. revert fuel r w seen dr dw. induction Hy as [c c' Hnext|c d c1 ds c' Hnext Hy IH];
    intros fuel r w seen dr dw Hfuel (Hf & Hr & Hw) Hs; (destruct fuel as [|fuel]; [cbn in Hfuel; lia|]);
    cbn [read_descriptors]; rewrite (bind_returns _ _ _ _ _ Hnext); cbn beta iota.
  - cbn in Hf. symmetry in Hf. apply app_eq_nil in Hf as [-> ->]. cbn. by rewrite !app_nil_r.
  - cbn in Hfuel, Hf. unfold nonempty at 1 in Hf. destruct (Z.eqb_spec (uval (de_len d)) 0); cbn [negb] in Hf.
    { apply IH; [lia|done|done]. }
    destruct dr as [|d' dr]; cbn in Hf.
    + destruct dw as [|d' dw]; [done|]. injection Hf as <- Hf. inversion_clear Hw as [|? ? Hd Hw'].
      rewrite Hd. etransitivity; [apply (IH fuel r (w ++ [region_of d]) true [] dw); [lia|done..]|].
      cbn. by rewrite <-app_assoc.
    + injection Hf as <- Hf. inversion_clear Hr as [|? ? Hd Hr']. rewrite Hd.
      destruct seen; [by specialize (Hs eq_refl)|].
      etransitivity; [apply (IH fuel (r ++ [region_of d]) w false dr dw); [lia|done..]|].
      cbn. by rewrite <-app_assoc.
Qed.

End iter.

Lemma yields_length {I} `{!DescriptorChainIter I, !IterLaws I} h (c : I) ds c' :
  iter_inv c → yields h c ds c' → (length ds <= iter_left c)%nat.
Proof.
  intros Hc Hy. induction Hy as [c c' Hn|c d c1 ds c' Hn Hy IH]; cbn; [lia|].
  pose proof (iter_next_total c h Hc) as Ht. rewrite Hn in Ht. destruct Ht as (_ & Hc1 & Hlt).
  specialize (IH Hc1). lia.
Qed.

Lemma yields_det {I} `{!DescriptorChainIter I} h (c : I) ds1 c1 ds2 c2 :
  yields h c ds1 c1 → yields h c ds2 c2 → ds1 = ds2 ∧ c1 = c2.
Proof.
  intros Hy. revert ds2 c2. induction Hy as [? ? Hn|? ? ? ? ? Hn _ IH]; intros ds2 c2 Hy2;
    inversion Hy2 as [? ? Hn2|? ? ? ? ? Hn2 Hy2']; subst; rewrite Hn in Hn2; simplify_eq; [done|].
  by destruct (IH _ _ Hy2') as [-> ->].
Qed.

(** ** Validation *)

Section chains.
Context (gm : GuestMemory) (Hgm : gm_ok gm).
Abbreviation valid := (region_in (fits gm)).

Definition total_len (l : list MemRegion) : Z := lengthZ (addrs l).

(** Lengths are [u32], and not zero. *)
Definition region_sized (r : MemRegion) : Prop := 0 < rg_len r < 2 ^ 32.

Lemma total_len_cons r l : total_len (r :: l) = rg_len r + total_len l.
Proof. unfold total_len. by rewrite addrs_cons, lengthZ_app, lengthZ_region_addrs. Qed.

Lemma validate_spec l (total : u32) :
  Forall region_sized l →
  match validate_mem_regions gm l total with
  | Returns _ => Forall valid l ∧ 0 < total + total_len l < 2 ^ 32
  | Throws _ => ¬ (Forall valid l ∧ 0 < total + total_len l < 2 ^ 32)
  | Aborts => False
  end.
Proof using Hgm.
  intros Hl. revert total. induction Hl as [|r l [Hpos Hlt] Hl IH]; intros total; cbn [validate_mem_regions].
  { pose proof (uint_range total). change (total_len []) with 0.
    destruct (Z.eqb_spec (uval total) 0); [|split; [constructor|]]; cbn [Z.of_N] in *; lia. }
  assert (Hlen : uval (U32 (rg_len r)) = rg_len r) by (apply uval_to_uint_small; cbn; lia).
  rewrite Hlen, total_len_cons. rewrite to_uint_uval.
  pose proof (lengthZ_nonneg (addrs l)) as Hnn. fold (total_len l) in Hnn.
  pose proof (is_valid_range_fits gm Hgm (rg_offset r) (rg_len r) Hpos) as Hv.
  destruct (is_valid_range gm (rg_offset r) (rg_len r)).
  - assert (Hr : valid r) by (by apply Hv).
    destruct (add_checked total (U32 (rg_len r))) as [t|] eqn:Ht.
    + apply add_checked_Some in Ht. rewrite Hlen in Ht. specialize (IH t). rewrite Ht, <-Z.add_assoc in IH.
      destruct (validate_mem_regions gm l t); [|intros [Hf ?]; apply IH; inversion_clear Hf; done|done].
      destruct IH. by split; [constructor|].
    + apply add_checked_None in Ht. rewrite Hlen in Ht. cbn [Z.of_N] in Ht. intros [_ ?]. lia.
  - intros [Hf _]. inversion_clear Hf as [|? ? Hr _]. by apply Hv in Hr.
Qed.

(** ** Chains *)

(** The chain of a list of descriptors. *)
Definition chain_of (index : u16) (dr dw : list Descriptor) (id : option u16) (count : u16) :
    DescriptorChain :=
  MkChain index (DescriptorChainRegions_new (map region_of dr))
    (DescriptorChainRegions_new (map region_of dw)) id count.

(** All descriptors are in guest memory, and their bytes can be counted in a
    [u32]. *)
Definition in_memory (ds : list Descriptor) : Prop :=
  Forall valid (map region_of ds) ∧ 0 < total_len (map region_of ds) < 2 ^ 32.

Lemma sorted_sized ds dr dw : sorted_as ds dr dw → Forall region_sized (map region_of (dr ++ dw)).
Proof.
  intros (Hf & _). rewrite <-Hf. apply Forall_fmap, Forall_forall. intros d Hin.
  apply list_elem_of_In, filter_In in Hin as [_ Hne]. unfold nonempty in Hne.
  unfold region_sized. cbn. pose proof (uint_range (de_len d)).
  rewrite uval_to_uint_small by (cbn [Z.of_N] in *; lia).
  destruct (Z.eqb_spec (uval (de_len d)) 0); [done|]. cbn [Z.of_N] in *. lia.
Qed.

Context {I : Type} `{!DescriptorChainIter I, !IterLaws I}.

(** What [DescriptorChain::new] returns, for any iterator. *)
Lemma chain_new_spec (c : I) index h :
  iter_inv c →
  match DescriptorChain_new gm c index h with
  | (Returns chain, h') => h' = h ∧ ∃ ds dr dw c', yields h c ds c' ∧ sorted_as ds dr dw ∧
      in_memory (dr ++ dw) ∧ chain = chain_of index dr dw (iter_id c') (iter_count c')
  | (Throws _, h') => h' = h ∧ ∀ ds dr dw c', yields h c ds c' → sorted_as ds dr dw → ¬ in_memory (dr ++ dw)
  | (Aborts, _) => False
  end.
Proof using Hgm.
  intros Hc. unfold DescriptorChain_new.
  pose proof (read_descriptors_total (S (iter_left c)) c [] [] false h Hc ltac:(lia)) as Htot.
  destruct (read_descriptors _ c [] [] false h) as [[[[r w] c']|e|] h'] eqn:Hrun; [| |done].
  - destruct (read_descriptors_sound _ _ _ _ _ _ _ _ _ _ Hc Hrun) as (-> & ds & dr & dw & Hy & Hs & _ & -> & ->).
    rewrite (bind_returns _ _ _ _ _ Hrun). cbn beta iota. rewrite !app_nil_l, <-map_app.
    pose proof (validate_spec (map region_of (dr ++ dw)) (U32 0) (sorted_sized _ _ _ Hs)) as Hv.
    change (uval (U32 0)) with 0 in Hv. rewrite Z.add_0_l in Hv. unfold give_outcome. run_prog.
    destruct (validate_mem_regions _ _ _); [| |done].
    + split; [done|]. by exists ds, dr, dw, c'.
    + split; [done|]. intros ds' dr' dw' c'' Hy' Hs'.
      pose proof (read_descriptors_complete _ _ [] [] false _ _ _ _ _ Hy'
        (proj2 (Nat.lt_succ_r _ _) (yields_length _ _ _ _ Hc Hy')) Hs' ltac:(done)) as Hrun'.
      rewrite Hrun in Hrun'. injection Hrun' as Hr Hw _. unfold in_memory. by rewrite map_app, <-Hr, <-Hw, <-map_app.
  - subst h'. run_prog. rewrite Hrun. split; [done|]. intros ds' dr' dw' c'' Hy' Hs' _.
    pose proof (read_descriptors_complete _ _ [] [] false _ _ _ _ _ Hy'
      (proj2 (Nat.lt_succ_r _ _) (yields_length _ _ _ _ Hc Hy')) Hs' ltac:(done)) as Hrun'.
    by rewrite Hrun in Hrun'.
Qed.

Lemma remaining_new l : remaining (DescriptorChainRegions_new l) = addrs l.
Proof. apply dropZ_0. Qed.

Lemma new_stream_ok l :
  Forall valid l → lengthZ (addrs l) < 2 ^ 32 → stream_ok gm (DescriptorChainRegions_new l).
Proof.
  intros Hv Ht. assert (Hcur : current_regions (DescriptorChainRegions_new l) = l) by done.
  constructor; rewrite ?Hcur, ?remaining_new; [|done|lia|].
  - destruct l; [done|]. apply uint_range.
  - change (uval (bytes_consumed _)) with 0. lia.
Qed.

(** Its reader and writer are streams. *)
Lemma chain_streams ds dr dw index id count :
  sorted_as ds dr dw → in_memory (dr ++ dw) →
  let c := chain_of index dr dw id count in
  stream_ok gm (dc_reader c) ∧ stream_ok gm (dc_writer c) ∧
  remaining (dc_reader c) = addrs (map region_of dr) ∧ remaining (dc_writer c) = addrs (map region_of dw).
Proof.
  intros Hs [Hv Ht]. unfold total_len in Ht. rewrite map_app, addrs_app, lengthZ_app in Ht.
  rewrite map_app in Hv. apply Forall_app in Hv as [Hvr Hvw].
  pose proof (lengthZ_nonneg (addrs (map region_of dr))). pose proof (lengthZ_nonneg (addrs (map region_of dw))).
  cbn. rewrite !remaining_new. split_and!; try done; apply new_stream_ok; done || lia.
Qed.

End chains.

(** ** The descriptors of a split queue

    A chain is a linked list in the descriptor table. *)

Section split.
Context (gm : GuestMemory) (Hgm : gm_ok gm).

Definition split_inv (c : SplitDescriptorChain) : Prop := sdc_count c <= sdc_queue_size c.

Definition descriptor_of (d : Desc) : Descriptor :=
  MkDescriptor (d_addr d) (d_len d) (access_of (d_flags d)).

(** The descriptor at an index of the table. *)
Definition table_entry (h : host) (table : u64) (size i : u16) (d : Desc) : Prop :=
  i < size ∧ fits gm (table + 16 * i) 16 ∧ d = Desc_of (guest_bytes gm h (table + 16 * i) 16) ∧
  uval (uand (d_flags d) (unot (uor VIRTQ_DESC_F_WRITE VIRTQ_DESC_F_NEXT))) = 0.

Inductive linked (h : host) (table : u64) (size : u16) : u16 → list Desc → Prop :=
  | linked_last i d :
      table_entry h table size i d → has_flag (d_flags d) VIRTQ_DESC_F_NEXT = false →
      linked h table size i [d]
  | linked_next i d l :
      table_entry h table size i d → has_flag (d_flags d) VIRTQ_DESC_F_NEXT = true →
      linked h table size (d_next d) l → linked h table size i (d :: l).

(** The next index of a chain. *)
Definition next_index (d : Desc) : option u16 :=
  if has_flag (d_flags d) VIRTQ_DESC_F_NEXT then Some (d_next d) else None.

(** One step of the iterator. *)
Lemma split_next_step (i count size : u16) (table : u64) h :
  i < size → count < size →
  match split_chain_next gm (MkSplitChain (Some i) count size table) h with
  | (Returns (Some x, c'), h') => h' = h ∧ ∃ d, table_entry h table size i d ∧ x = descriptor_of d ∧
      c' = MkSplitChain (next_index d) (U16 (count + 1)) size table
  | (Throws _, h') => h' = h ∧ ∀ d, ¬ table_entry h table size i d
  | _ => False
  end.
Proof using Hgm.
  intros Hi Hc. unfold split_chain_next. cbn [sdc_index sdc_queue_size sdc_count sdc_desc_table].
  destruct (Z.leb_spec size i), (Z.leb_spec size count); try lia.
  destruct (add_checked count (U16 1)) as [count1|] eqn:Hc1; last first.
  { apply add_checked_None in Hc1. pose proof (uint_range size). change (uval (U16 1)) with 1 in Hc1. lia. }
  apply add_checked_Some in Hc1. change (uval (U16 1)) with 1 in Hc1. pose proof (uint_range i).
  assert (Hoff : uval (U64 (i * 16)) = 16 * i) by (rewrite uval_to_uint_small; cbn [Z.of_N] in *; lia).
  unfold GuestAddress_checked_add. destruct (add_checked table (U64 (i * 16))) as [a|] eqn:Ha; last first.
  { apply add_checked_None in Ha. run_prog. split; [done|]. intros d (_ & Hf & _).
    apply (fits_end gm) in Hf; [|done]. rewrite Hoff in Ha. cbn [Z.of_N] in Ha. lia. }
  apply add_checked_Some in Ha. rewrite Hoff in Ha. run_prog. unfold with_context.
  destruct (read_obj_cases gm Hgm (U64 16) a h) as [[Hf Hrd]|[Hno [e He]]]; [by change (uval (U64 16)) with 16| |].
  - rewrite Hrd. change (uval (U64 16)) with 16 in *. rewrite Ha in *.
    set (d := Desc_of _). destruct (Z.eqb_spec (uval (uand (d_flags d)
      (unot (uor VIRTQ_DESC_F_WRITE VIRTQ_DESC_F_NEXT)))) 0) as [Hz|Hz]; cbn [negb].
    + split; [done|]. exists d. split_and!; try done. f_equal. apply uint_eq. rewrite Hc1.
      symmetry. apply uval_to_uint_small. pose proof (uint_range count1). lia.
    + split; [done|]. intros d' (_ & _ & -> & Hz'). done.
  - rewrite He. split; [done|]. intros d (_ & Hf & _). apply Hno. change (uval (U64 16)) with 16.
    by rewrite Ha.
Qed.

Instance split_iter : DescriptorChainIter SplitDescriptorChain := split_chain_iter gm.

Lemma split_next_total (c : SplitDescriptorChain) h :
  split_inv c →
  match iter_next c h with
  | (Returns (None, c'), h') => h' = h
  | (Returns (Some _, c'), h') => h' = h ∧ split_inv c' ∧ (iter_left c' < iter_left c)%nat
  | (Throws _, h') => h' = h
  | (Aborts, _) => False
  end.
Proof using Hgm.
  destruct c as [[i|] count size table]; intros Hinv; [|done]. unfold split_inv in Hinv. cbn in Hinv.
  cbn [iter_next split_iter split_chain_iter]. destruct (decide (size <= i)) as [Hi|Hi].
  { unfold split_chain_next. cbn. by destruct (Z.leb_spec size i); [|lia]. }
  destruct (decide (size <= count)) as [Hc|Hc].
  { unfold split_chain_next. cbn. destruct (Z.leb_spec size i); [lia|]. by destruct (Z.leb_spec size count); [|lia]. }
  pose proof (split_next_step i count size table h ltac:(lia) ltac:(lia)) as Hs.
  destruct (split_chain_next _ _ _) as [[[[x|] c']|e|] h']; try done; [|by destruct Hs].
  destruct Hs as (-> & d & _ & _ & ->). split; [done|]. unfold split_inv. cbn.
  pose proof (uint_range count). pose proof (uint_range size).
  rewrite uval_to_uint_small by (cbn [Z.of_N] in *; lia). lia.
Qed.

Instance split_laws : IterLaws SplitDescriptorChain :=
  {| iter_inv := split_inv; iter_next_total := split_next_total |}.

Lemma split_yields_linked h (i count size : u16) table ds c' :
  yields h (MkSplitChain (Some i) count size table) ds c' →
  ∃ l, linked h table size i l ∧ count + lengthZ l <= size ∧ ds = map descriptor_of l ∧
    uval (iter_count c') = count + lengthZ l.
Proof using Hgm.
  intros Hy. remember (MkSplitChain (Some i) count size table) as c eqn:Hc.
  revert i count Hc. induction Hy as [c c' Hn|c x c1 ds c' Hn Hy IH]; intros i count ->;
    cbn [iter_next split_iter split_chain_iter] in Hn.
  all: destruct (decide (size <= i)) as [Hi|Hi];
    [unfold split_chain_next in Hn; cbn in Hn; by destruct (Z.leb_spec size i); [|lia]|].
  all: destruct (decide (size <= count)) as [Hc|Hc];
    [unfold split_chain_next in Hn; cbn in Hn; destruct (Z.leb_spec size i); [lia|];
     by destruct (Z.leb_spec size count); [|lia]|].
  all: pose proof (split_next_step i count size table h ltac:(lia) ltac:(lia)) as Hs; rewrite Hn in Hs.
  { done. }
  destruct Hs as (_ & d & Hd & -> & ->). pose proof (uint_range count). pose proof (uint_range size).
  assert (Hcount : uval (U16 (count + 1)) = count + 1) by (apply uval_to_uint_small; lia).
  unfold next_index in *. destruct (has_flag (d_flags d) VIRTQ_DESC_F_NEXT) eqn:Hnext.
  - destruct (IH _ _ eq_refl) as (l & Hl & Hle & -> & Hcnt). exists (d :: l). rewrite lengthZ_cons.
    split_and!; [by constructor|lia|done|lia].
  - exists [d]. change (lengthZ [d]) with 1. inversion Hy as [? ? Hend|? ? ? ? ? Hend]; subst; cbn in Hend; [|done].
    injection Hend as <-. split_and!; [by constructor|lia|done|done].
Qed.

Lemma linked_split_yields h (i count size : u16) table l :
  linked h table size i l → count + lengthZ l <= size →
  ∃ c', yields h (MkSplitChain (Some i) count size table) (map descriptor_of l) c' ∧
    uval (iter_count c') = count + lengthZ l ∧ iter_id c' = None.
Proof using Hgm.
  intros Hl. revert count. induction Hl as [i d Hd Hnext|i d l Hd Hnext Hl IH]; intros count Hle;
    rewrite ?lengthZ_cons in Hle |- *; pose proof (uint_range count); pose proof (uint_range size);
    try pose proof (lengthZ_nonneg l).
  all: try change (lengthZ (A := Desc) []) with 0 in *.
  all: pose proof (split_next_step i count size table h ltac:(destruct Hd; lia) ltac:(lia)) as Hs;
    assert (Hcount : uval (U16 (count + 1)) = count + 1) by (apply uval_to_uint_small; lia);
    destruct (split_chain_next _ _ _) as [[[[x|] c']|e|] h'] eqn:Hn; try done;
    [|by destruct Hs as [_ Hs]; destruct (Hs d)];
    destruct Hs as (-> & d' & Hd' & -> & ->);
    assert (d' = d) as -> by (destruct Hd as (_ & _ & -> & _); by destruct Hd' as (_ & _ & -> & _));
    unfold next_index in Hn; rewrite Hnext in Hn.
  - eexists. split_and!; [eapply yields_next; [exact Hn|by constructor]| |done].
    cbn. by rewrite Hcount.
  - destruct (IH (U16 (count + 1))) as (c' & Hy & Hcnt & Hid); [lia|].
    exists c'. split_and!; [by eapply yields_next|lia|done].
Qed.

(** The chain at an index of the table: the descriptors of the linked list, in
    the right order and in memory. *)
Definition good_chain (h : host) (table : u64) (size i : u16) (l : list Desc) (chain : DescriptorChain) : Prop :=
  linked h table size i l ∧ lengthZ l <= size ∧
  ∃ dr dw, sorted_as (map descriptor_of l) dr dw ∧ in_memory gm (dr ++ dw) ∧
    chain = chain_of i dr dw None (U16 (lengthZ l)).

Lemma split_chain_new_spec h table size i :
  match DescriptorChain_new gm (SplitDescriptorChain_new table size i) i h with
  | (Returns chain, h') => h' = h ∧ ∃ l, good_chain h table size i l chain
  | (Throws _, h') => h' = h ∧ ∀ l chain, ¬ good_chain h table size i l chain
  | (Aborts, _) => False
  end.
Proof using Hgm.
  pose proof (chain_new_spec gm Hgm (SplitDescriptorChain_new table size i) i h) as Hspec.
  assert (Hinv : iter_inv (SplitDescriptorChain_new table size i)) by apply (uint_range size).
  specialize (Hspec Hinv). destruct (DescriptorChain_new _ _ _ _) as [[chain|e|] h']; [| |done].
  - destruct Hspec as (-> & ds & dr & dw & c' & Hy & Hs & Hm & ->). split; [done|].
    destruct (split_yields_linked _ _ _ _ _ _ _ Hy) as (l & Hl & Hle & -> & Hc).
    change (uval (U16 0)) with 0 in *. exists l. split_and!; [done|lia|]. exists dr, dw. split_and!; try done.
    destruct (linked_split_yields h i (U16 0) size table l Hl Hle) as (c2 & Hy2 & Hc2 & Hid).
    destruct (yields_det _ _ _ _ _ _ Hy Hy2) as [_ ->]. rewrite Hid. f_equal. apply uint_eq.
    change (uval (U16 0)) with 0 in *. pose proof (lengthZ_nonneg l). pose proof (uint_range size).
    rewrite Hc2, uval_to_uint_small; lia.
  - destruct Hspec as [-> Hno]. split; [done|]. intros l chain (Hl & Hle & dr & dw & Hs & Hm & _).
    destruct (linked_split_yields h i (U16 0) size table l Hl) as (c2 & Hy2 & _).
    { change (uval (U16 0)) with 0. lia. }
    by eapply Hno.
Qed.

(** What a device can rely on. *)
Record chain_safe (size : u16) (c : DescriptorChain) : Prop := {
  cs_reader : stream_ok gm (dc_reader c);
  cs_writer : stream_ok gm (dc_writer c);
  cs_bytes : 0 < lengthZ (remaining (dc_reader c)) + lengthZ (remaining (dc_writer c)) < 2 ^ 32;
  cs_index : dc_index c < size;
  cs_count : 0 < dc_count c <= size
}.

Lemma linked_head h table size i l : linked h table size i l → i < size ∧ 0 < lengthZ l.
Proof.
  destruct 1 as [? ? [? _]|? ? l [? _]]; (split; [done|]); rewrite lengthZ_cons; [by cbn|].
  pose proof (lengthZ_nonneg l). lia.
Qed.

Lemma good_chain_safe h table size i l c : good_chain h table size i l c → chain_safe size c ∧ dc_index c = i.
Proof using Hgm.
  intros (Hl & Hle & dr & dw & Hs & Hm & ->). destruct (linked_head _ _ _ _ _ Hl) as [Hi Hpos].
  destruct (chain_streams gm _ dr dw i None (U16 (lengthZ l)) Hs Hm) as (Hr & Hw & Hremr & Hremw).
  split; [|done]. constructor; [done|done| |done|].
  - rewrite Hremr, Hremw, <-lengthZ_app, <-addrs_app, <-map_app. apply Hm.
  - cbn. pose proof (uint_range size). rewrite uval_to_uint_small by (cbn [Z.of_N] in *; lia). lia.
Qed.

(** Chains depend only on the bytes of the descriptor table. *)
Lemma linked_ext h h' (table : u64) (size i : u16) l :
  (∀ x, table <= x < table + 16 * size → guest_byte gm h x = guest_byte gm h' x) →
  linked h table size i l → linked h' table size i l.
Proof.
  intros Hx. assert (He : ∀ i d, table_entry h table size i d → table_entry h' table size i d).
  { intros j d (Hj & Hf & -> & Hz). pose proof (uint_range j).
    assert (Heq : guest_bytes gm h (table + 16 * j) 16 = guest_bytes gm h' (table + 16 * j) 16).
    { apply guest_bytes_ext. intros x Hin. apply Hx. lia. }
    rewrite Heq in Hz |- *. by split_and!. }
  induction 1; constructor; auto.
Qed.

Lemma good_chain_ext h h' (table : u64) (size i : u16) l c :
  (∀ x, table <= x < table + 16 * size → guest_byte gm h x = guest_byte gm h' x) →
  good_chain h table size i l c → good_chain h' table size i l c.
Proof. intros Hx (Hl & Hrest). split; [by eapply linked_ext|done]. Qed.

End split.
