(* ===== verification/SplitFacts.v ===== *)
(** * Theorems on split virtqueues *)

From S2P Require Import Prelude Checked Bits GuestMemory GuestMemoryFacts DescriptorUtils StreamFacts.
From S2P Require Import DescriptorChain ChainFacts SplitQueue.

(** ** Arithmetic of indices *)

(** The bit mask is the remainder by a power of two. *)
Lemma land_pred_power {w} (a n : uint w) :
  is_power_of_two n = true → uval (uand a (usub n (to_uint w 1))) = a mod n.
Proof.
  intros Hn. pose proof (power_of_two_pos n Hn). pose proof (power_of_two_log n Hn) as Hlog.
  pose proof (uint_range n). pose proof (uint_range a).
  assert (Hone : uval (to_uint w 1) = 1) by (apply uval_to_uint_small; lia).
  unfold uand. rewrite usub_small by lia. rewrite Hone, Hlog.
  replace (2 ^ Z.log2 n - 1) with (Z.ones (Z.log2 n)) by (rewrite Z.ones_equiv; lia).
  pose proof (Z.log2_nonneg n). rewrite Z.land_ones by done. rewrite <-Hlog.
  apply uval_to_uint_small. pose proof (Z.mod_pos_bound a n). lia.
Qed.

(** A power of two divides the number of indices. *)
Lemma power_of_two_divides {w} (n : uint w) : is_power_of_two n = true → (uval n | 2 ^ Z.of_N w).
Proof.
  intros Hn. pose proof (power_of_two_pos n Hn). pose proof (power_of_two_log n Hn) as Hlog.
  pose proof (uint_range n). pose proof (Z.log2_nonneg n).
  assert (Z.log2 n < Z.of_N w) by (apply Z.log2_lt_pow2; lia).
  rewrite Hlog. exists (2 ^ (Z.of_N w - Z.log2 n)). rewrite <-Z.pow_add_r by lia. f_equal. lia.
Qed.

Section split.
Context (gm : GuestMemory) (Hgm : gm_ok gm).

(** ** What the driver and the device see *)

Definition guest_u16 (h : host) (a : Z) : u16 := U16 (le_combine (guest_bytes gm h a 2)).
Definition guest_u32 (h : host) (a : Z) : u32 := U32 (le_combine (guest_bytes gm h a 4)).

(** The fields of the rings. *)
Definition avail_flags (h : host) (q : SplitQueue) : u16 := guest_u16 h (sq_avail_ring q).
Definition avail_idx (h : host) (q : SplitQueue) : u16 := guest_u16 h (sq_avail_ring q + 2).
Definition avail_entry (h : host) (q : SplitQueue) (k : Z) : u16 :=
  guest_u16 h (sq_avail_ring q + 4 + 2 * (k mod sq_size q)).
Definition used_event (h : host) (q : SplitQueue) : u16 :=
  guest_u16 h (sq_avail_ring q + 4 + 2 * sq_size q).
Definition used_idx (h : host) (q : SplitQueue) : u16 := guest_u16 h (sq_used_ring q + 2).
Definition used_entry (h : host) (q : SplitQueue) (k : Z) : u32 * u32 :=
  (guest_u32 h (sq_used_ring q + 4 + 8 * (k mod sq_size q)),
   guest_u32 h (sq_used_ring q + 8 + 8 * (k mod sq_size q))).
Definition avail_event_addr (q : SplitQueue) : Z := sq_used_ring q + 4 + 8 * sq_size q.

(** The size is a power of two, and the rings are in guest memory. *)
Record queue_ok (q : SplitQueue) : Prop := {
  qo_size : is_power_of_two (sq_size q) = true;
  qo_max : sq_size q <= MAX_SIZE;
  qo_avail : fits gm (sq_avail_ring q) (6 + 2 * sq_size q);
  qo_used : fits gm (sq_used_ring q) (6 + 8 * sq_size q)
}.

Lemma fits_part a n (b : Z) k : fits gm a n → a <= b → 0 < k → b + k <= a + n → fits gm b k.
Proof. intros. by eapply fits_sub. Qed.

(** The memory after bytes were stored at consecutive addresses. *)
Definition stored (m : Z → option u8) (a : Z) (bs : list u8) (x : Z) : option u8 :=
  if (a <=? x) && (x <? a + lengthZ bs) then bs !! Z.to_nat (x - a) else m x.

Lemma stored_out m a bs x : ¬ (a <= x < a + lengthZ bs) → stored m a bs x = m x.
Proof. intros Hx. unfold stored. destruct (Z.leb_spec a x), (Z.ltb_spec x (a + lengthZ bs)); done || lia. Qed.

Lemma stored_bytes h h' (a : Z) bs :
  (∀ x, a <= x < a + lengthZ bs → guest_byte gm h' x = stored (guest_byte gm h) a bs x) →
  guest_bytes gm h' a (lengthZ bs) = bs.
Proof.
  intros Hx. apply bytes_ext; rewrite guest_bytes_length by apply lengthZ_nonneg; [done|].
  intros i Hi. rewrite guest_bytes_lookup, Hx by lia. unfold stored.
  destruct (Z.leb_spec a (a + i)), (Z.ltb_spec (a + i) (a + lengthZ bs)); try lia. cbn.
  replace (a + i - a) with i by lia.
  destruct (lookup_lt_is_Some_2 bs (Z.to_nat i)) as [b Hb]; [unfold lengthZ in *; lia|].
  by rewrite Hb.
Qed.

Lemma guest_u16_ext h h' a :
  (∀ x, a <= x < a + 2 → guest_byte gm h x = guest_byte gm h' x) → guest_u16 h a = guest_u16 h' a.
Proof. intros Hx. unfold guest_u16. by rewrite (guest_bytes_ext gm h h'). Qed.

(** ** Accesses *)

Lemma on_host_run {Q A} (m : prog host QueueError A) (q : Q) w a h' :
  m (w_host w) = (Returns a, h') → on_host m (q, w) = (Returns a, (q, MkWorld h' (w_signals w))).
Proof. intros Hm. unfold on_host. by rewrite Hm. Qed.

Lemma read_u16_run {Q} (a : u64) (q : Q) w :
  fits gm a 2 → read_u16 gm a (q, w) = (Returns (guest_u16 (w_host w) a), (q, w)).
Proof using Hgm.
  intros Hf. unfold read_u16. erewrite bind_returns; last first.
  { apply on_host_run. unfold unwrap. by rewrite (read_obj_run gm Hgm (U64 2) a). }
  by destruct w.
Qed.

Lemma write_bytes_run {Q} bs (a : u64) (q : Q) w :
  fits gm a (lengthZ bs) → lengthZ bs < 2 ^ 64 →
  ∃ h', write_bytes gm bs a (q, w) = (Returns (), (q, MkWorld h' (w_signals w))) ∧
    ∀ x, guest_byte gm h' x = stored (guest_byte gm (w_host w)) a bs x.
Proof using Hgm.
  intros Hf Hlen. destruct (write_obj_run gm Hgm bs a (w_host w) Hf Hlen) as (h' & Hrun & Hx).
  exists h'. split; [|exact Hx]. unfold write_bytes. apply on_host_run. unfold unwrap. by rewrite Hrun.
Qed.

(** Addresses in the rings do not wrap around. *)
Lemma ring_addr (base : u64) n k : fits gm base n → 0 <= k <= n → uval (unchecked_add base (U64 k)) = base + k.
Proof using Hgm.
  intros Hf Hk. pose proof (fits_end gm _ _ Hgm Hf). pose proof (uint_range base).
  assert (Hu : uval (U64 k) = k) by (apply uval_to_uint_small; lia).
  unfold unchecked_add. rewrite uadd_small; rewrite Hu; [done|]. cbn [Z.of_N]. lia.
Qed.

Section queue.
Context (q : SplitQueue) (Hq : queue_ok q).

Lemma size_bounds : 0 < sq_size q <= 32768.
Proof using Hq. destruct Hq as [Hp Hm _ _]. split; [by apply power_of_two_pos|exact Hm]. Qed.

Lemma wrap_spec i : uval (wrap_queue_index q i) = i mod sq_size q.
Proof using Hq. apply (land_pred_power i (sq_size q)). apply Hq. Qed.

Lemma mod_size_bounds k : 0 <= k mod sq_size q < sq_size q.
Proof using Hq. apply Z.mod_pos_bound, size_bounds. Qed.

Lemma get_avail_index_run w : get_avail_index gm (q, w) = (Returns (avail_idx (w_host w) q), (q, w)).
Proof using Hgm Hq.
  unfold get_avail_index. erewrite bind_returns by done. cbn beta iota. pose proof size_bounds.
  pose proof (ring_addr _ _ 2 (qo_avail _ Hq) ltac:(lia)) as Ha.
  rewrite read_u16_run; rewrite Ha; [done|]. eapply fits_part; [apply (qo_avail _ Hq)|lia..].
Qed.

Lemma get_used_event_run w : get_used_event gm (q, w) = (Returns (used_event (w_host w) q), (q, w)).
Proof using Hgm Hq.
  unfold get_used_event. erewrite bind_returns by done. cbn beta iota. pose proof size_bounds.
  pose proof (ring_addr _ _ (4 + 2 * sq_size q) (qo_avail _ Hq) ltac:(lia)) as Ha.
  rewrite read_u16_run; rewrite Ha; [unfold used_event; by rewrite Z.add_assoc|].
  eapply fits_part; [apply (qo_avail _ Hq)|lia..].
Qed.

Lemma get_avail_flag_run f w :
  get_avail_flag gm f (q, w) = (Returns (uval (uand (avail_flags (w_host w) q) f) =? f), (q, w)).
Proof using Hgm Hq.
  unfold get_avail_flag. erewrite bind_returns by done. cbn beta iota. pose proof size_bounds.
  erewrite bind_returns; [|apply read_u16_run; eapply fits_part; [apply (qo_avail _ Hq)|lia..]]. done.
Qed.

Lemma set_used_index_run i w :
  ∃ h', set_used_index gm i (q, w) = (Returns (), (q, MkWorld h' (w_signals w))) ∧
    ∀ x, guest_byte gm h' x = stored (guest_byte gm (w_host w)) (sq_used_ring q + 2) (le_split 2 i) x.
Proof using Hgm Hq.
  unfold set_used_index. erewrite bind_returns by done. cbn beta iota. pose proof size_bounds.
  pose proof (ring_addr _ _ 2 (qo_used _ Hq) ltac:(lia)) as Ha. rewrite <-Ha.
  apply write_bytes_run; rewrite ?Ha, lengthZ_le_split; [|lia]. eapply fits_part; [apply (qo_used _ Hq)|lia..].
Qed.

Lemma set_avail_event_run i w :
  ∃ h', set_avail_event gm i (q, w) = (Returns (), (q, MkWorld h' (w_signals w))) ∧
    ∀ x, guest_byte gm h' x = stored (guest_byte gm (w_host w)) (avail_event_addr q) (le_split 2 i) x.
Proof using Hgm Hq.
  unfold set_avail_event. erewrite bind_returns by done. cbn beta iota. pose proof size_bounds.
  pose proof (ring_addr _ _ (4 + 8 * sq_size q) (qo_used _ Hq) ltac:(lia)) as Ha.
  unfold avail_event_addr. rewrite <-Z.add_assoc, <-Ha.
  apply write_bytes_run; rewrite ?Ha, lengthZ_le_split; [|lia]. eapply fits_part; [apply (qo_used _ Hq)|lia..].
Qed.

End queue.

Section ops.
Context (q : SplitQueue) (Hq : queue_ok q).

(** ** Peeking and popping *)

(** The chain the driver made available at position [k] of the ring. *)
Definition avail_chain (h : host) (k : Z) (l : list Desc) (c : DescriptorChain) : Prop :=
  good_chain gm h (sq_desc_table q) (sq_size q) (avail_entry h q k) l c.

Lemma split_peek_spec w :
  ∃ r, split_peek gm (q, w) = (Returns r, (q, w)) ∧
    match r with
    | Some c => sq_next_avail q ≠ avail_idx (w_host w) q ∧ ∃ l, avail_chain (w_host w) (sq_next_avail q) l c
    | None => sq_next_avail q = avail_idx (w_host w) q ∨
              ∀ l c, ¬ avail_chain (w_host w) (sq_next_avail q) l c
    end.
Proof using Hgm Hq.
  unfold split_peek. erewrite bind_returns by (by apply get_avail_index_run). erewrite bind_returns by done.
  cbn beta iota. destruct (Z.eqb_spec (sq_next_avail q) (uval (avail_idx (w_host w) q))) as [He|He].
  { exists None. split; [done|]. left. by apply uint_eq. }
  pose proof (size_bounds q Hq) as Hs. pose proof (mod_size_bounds q Hq (sq_next_avail q)) as Hm.
  pose proof (fits_end gm _ _ Hgm (qo_avail _ Hq)) as Hend.
  assert (Hoff : uval (U64 (4 + wrap_queue_index q (sq_next_avail q) * 2)) = 4 + 2 * (sq_next_avail q mod sq_size q)).
  { rewrite (wrap_spec q Hq), uval_to_uint_small; [lia|]. cbn. lia. }
  unfold GuestAddress_checked_add. destruct (add_checked (sq_avail_ring q) _) as [a|] eqn:Ha; last first.
  { apply add_checked_None in Ha. rewrite Hoff in Ha. cbn [Z.of_N] in Ha. lia. }
  apply add_checked_Some in Ha. rewrite Hoff in Ha.
  erewrite bind_returns.
  2:{ apply read_u16_run. eapply fits_part; [apply (qo_avail _ Hq)|lia..]. }
  rewrite Ha, Z.add_assoc. fold (avail_entry (w_host w) q (sq_next_avail q)).
  set (i := avail_entry _ _ _). cbn zeta.
  pose proof (split_chain_new_spec gm Hgm (w_host w) (sq_desc_table q) (sq_size q) i) as Hspec.
  unfold split_iter in Hspec. unfold catch, on_host. run_prog.
  destruct (DescriptorChain_new _ _ _ _) as [[c|e|] h']; [| |done]; destruct Hspec as [-> Hc];
    replace (MkWorld (w_host w) (w_signals w)) with w by (by destruct w).
  - exists (Some c). split; [done|]. split; [intros He'; by rewrite He' in He|]. exact Hc.
  - exists None. split; [done|]. right. exact Hc.
Qed.

(** The memory after a pop: the driver is told the next position if it asked
    for it. *)
Definition after_pop (m : Z → option u8) : Z → option u8 :=
  if event_idx_enabled (sq_features q)
  then stored m (avail_event_addr q) (le_split 2 (uadd (sq_next_avail q) (U16 1))) else m.

Lemma split_pop_peeked_run w :
  ∃ h', split_pop_peeked gm (q, w) =
      (Returns (), (set_next_avail (uadd (sq_next_avail q) (U16 1)) q, MkWorld h' (w_signals w))) ∧
    ∀ x, guest_byte gm h' x = after_pop (guest_byte gm (w_host w)) x.
Proof using Hgm Hq.
  unfold split_pop_peeked, after_pop. erewrite bind_returns by done. cbn beta iota zeta.
  erewrite bind_returns by done. destruct (event_idx_enabled (sq_features q)).
  - set (q' := set_next_avail _ q). assert (Hq' : queue_ok q') by (destruct Hq; by constructor).
    exact (set_avail_event_run q' Hq' _ w).
  - exists (w_host w). by destruct w.
Qed.

Lemma split_pop_run w :
  (split_pop gm (q, w) = (Returns None, (q, w)) ∧
     (sq_next_avail q = avail_idx (w_host w) q ∨ ∀ l c, ¬ avail_chain (w_host w) (sq_next_avail q) l c)) ∨
  (∃ c l h', split_pop gm (q, w) =
       (Returns (Some c), (set_next_avail (uadd (sq_next_avail q) (U16 1)) q, MkWorld h' (w_signals w))) ∧
     sq_next_avail q ≠ avail_idx (w_host w) q ∧ avail_chain (w_host w) (sq_next_avail q) l c ∧
     ∀ x, guest_byte gm h' x = after_pop (guest_byte gm (w_host w)) x).
Proof using Hgm Hq.
  destruct (split_peek_spec w) as ([c|] & Hrun & Hspec); unfold split_pop.
  - right. destruct Hspec as (Hne & l & Hc). destruct (split_pop_peeked_run w) as (h' & Hpop & Hx).
    exists c, l, h'. split_and!; [|done..]. erewrite bind_returns by exact Hrun. cbn beta iota.
    by erewrite bind_returns by exact Hpop.
  - left. split; [|done]. by erewrite bind_returns by exact Hrun.
Qed.

(** ** Using *)

(** The memory after an element was put into the used ring. *)
Definition after_use (id : u16) (len : u32) (m : Z → option u8) : Z → option u8 :=
  stored (stored m (sq_used_ring q + 4 + 8 * (sq_next_used q mod sq_size q)) (used_elem_bytes id len))
    (sq_used_ring q + 2) (le_split 2 (uadd (sq_next_used q) (U16 1))).

Lemma lengthZ_used_elem id len : lengthZ (used_elem_bytes id len) = 8.
Proof. unfold used_elem_bytes. by rewrite lengthZ_app, !lengthZ_le_split. Qed.

Lemma split_add_used_run c len w :
  ∃ h', split_add_used gm c len (q, w) =
      (Returns (), (set_next_used (uadd (sq_next_used q) (U16 1)) q, MkWorld h' (w_signals w))) ∧
    ∀ x, guest_byte gm h' x = after_use (dc_index c) len (guest_byte gm (w_host w)) x.
Proof using Hgm Hq.
  unfold split_add_used. erewrite bind_returns by done. cbn beta iota zeta.
  pose proof (size_bounds q Hq). pose proof (mod_size_bounds q Hq (sq_next_used q)) as Hm.
  pose proof (ring_addr _ _ (4 + wrap_queue_index q (sq_next_used q) * 8) (qo_used _ Hq)) as Ha.
  rewrite (wrap_spec q Hq) in Ha. specialize (Ha ltac:(lia)). rewrite (wrap_spec q Hq).
  destruct (write_bytes_run (used_elem_bytes (dc_index c) len)
    (unchecked_add (sq_used_ring q) (U64 (4 + sq_next_used q mod sq_size q * 8))) q w) as (h1 & H1 & Hx1).
  { rewrite lengthZ_used_elem, Ha. eapply fits_part; [apply (qo_used _ Hq)|lia..]. }
  { by rewrite lengthZ_used_elem. }
  erewrite bind_returns by exact H1. erewrite bind_returns by done. cbn beta iota zeta.
  erewrite bind_returns by done. set (q' := set_next_used _ q).
  assert (Hq' : queue_ok q') by (destruct Hq; by constructor).
  destruct (set_used_index_run q' Hq' (uadd (sq_next_used q) (U16 1)) (MkWorld h1 (w_signals w))) as (h2 & H2 & Hx2).
  exists h2. split; [exact H2|]. intros x. rewrite Hx2. unfold after_use, stored at 1 2. cbn.
  destruct (_ && _); [done|]. rewrite Hx1, Ha. f_equal. lia.
Qed.

(** ** Interrupts *)

Lemma split_wants_run w :
  split_wants_interrupt gm (q, w) =
  (Returns (if event_idx_enabled (sq_features q) then
      uval (usub (usub (sq_next_used q) (used_event (w_host w) q)) (U16 1)) <?
        usub (sq_next_used q) (sq_last_used q)
    else negb (uval (uand (avail_flags (w_host w) q) VIRTQ_AVAIL_F_NO_INTERRUPT) =? 1)), (q, w)).
Proof using Hgm Hq.
  unfold split_wants_interrupt. erewrite bind_returns by done. cbn beta iota.
  destruct (event_idx_enabled (sq_features q)).
  - by erewrite bind_returns by (by apply get_used_event_run).
  - by erewrite bind_returns by (by apply get_avail_flag_run).
Qed.

End ops.
(** ** Safety

    The steps of a device, and of a driver that changes the memory of the guest
    at will between them. *)

Inductive vq_event :=
  | DriverWrites (h : host)
  | DevicePops
  | DeviceUses (c : DescriptorChain) (len : u32)
  | DeviceTriggers.

(** The chains that are popped. *)
Fixpoint vq_run (evs : list vq_event) : QueueOp SplitQueue (list DescriptorChain) :=
  match evs with
  | [] => mret []
  | DriverWrites h :: evs =>
      '(q, w) ← get_state; _ ← put_state (q, MkWorld h (w_signals w)); vq_run evs
  | DevicePops :: evs =>
      r ← split_pop gm; cs ← vq_run evs; mret (match r with Some c => c :: cs | None => cs end)
  | DeviceUses c len :: evs => _ ← split_add_used gm c len; vq_run evs
  | DeviceTriggers :: evs => _ ← split_trigger_interrupt gm; vq_run evs
  end.

Lemma split_trigger_run q w :
  queue_ok q → ∃ b, split_wants_interrupt gm (q, w) = (Returns b, (q, w)) ∧
    split_trigger_interrupt gm (q, w) =
    (Returns b, if b then (set_last_used (sq_next_used q) q, MkWorld (w_host w) (sq_vector q :: w_signals w))
                else (q, w)).
Proof using Hgm.
  intros Hq. pose proof (split_wants_run q Hq w) as Hrun.
  match type of Hrun with _ = (Returns ?v, _) => set (b := v) in Hrun; clearbody b end.
  exists b. split; [done|]. unfold split_trigger_interrupt. erewrite bind_returns by exact Hrun. by destruct b.
Qed.

(** C8. A split queue with its rings in guest memory is safe against the
    driver: whatever it writes to the memory between the operations of the
    device, no operation panics, loops or reads outside the memory, and every
    chain the device gets has its buffers in guest memory, with at least one and
    fewer than 2^32 bytes, a head inside the descriptor table and no more
    descriptors than the table has. *)
Theorem split_queue_safe evs q w :
  queue_ok q →
  ∃ cs q' w', vq_run evs (q, w) = (Returns cs, (q', w')) ∧ queue_ok q' ∧ sq_size q' = sq_size q ∧
    Forall (chain_safe gm (sq_size q)) cs.
Proof using Hgm.
  revert q w. induction evs as [|e evs IH]; intros q w Hq; [by exists [], q, w|].
  destruct e as [h| |c len|]; cbn [vq_run].
  - erewrite bind_returns by done. cbn beta iota. erewrite bind_returns by done. by apply IH.
  - destruct (split_pop_run q Hq w) as [[Hrun _]|(c & l & h' & Hrun & _ & Hc & _)];
      erewrite bind_returns by exact Hrun.
    + destruct (IH q w Hq) as (cs & q' & w' & Hrun' & Hrest). exists cs, q', w'.
      by erewrite bind_returns by exact Hrun'.
    + set (q1 := set_next_avail _ q). assert (Hq1 : queue_ok q1) by (destruct Hq; by constructor).
      destruct (IH q1 (MkWorld h' (w_signals w)) Hq1) as (cs & q' & w' & Hrun' & Hq' & Hsize & Hcs).
      exists (c :: cs), q', w'. erewrite bind_returns by exact Hrun'. split_and!; try done.
      constructor; [|done]. by destruct (good_chain_safe gm Hgm _ _ _ _ _ _ Hc).
  - destruct (split_add_used_run q Hq c len w) as (h' & Hrun & _). erewrite bind_returns by exact Hrun.
    apply (IH (set_next_used _ q)). destruct Hq; by constructor.
  - destruct (split_trigger_run q w Hq) as (b & _ & Hrun). erewrite bind_returns by exact Hrun.
    destruct b; [apply (IH (set_last_used _ q)); destruct Hq; by constructor|by apply IH].
Qed.

(** ** Order *)

Fixpoint pops (n : nat) : QueueOp SplitQueue (list (option DescriptorChain)) :=
  match n with
  | O => mret []
  | S n => r ← split_pop gm; rs ← pops n; mret (r :: rs)
  end.

(** The used ring is apart from what the driver writes. *)
Definition areas_apart (q : SplitQueue) : Prop :=
  ∀ x, sq_used_ring q <= x < sq_used_ring q + 6 + 8 * sq_size q →
    ¬ (sq_avail_ring q <= x < sq_avail_ring q + 6 + 2 * sq_size q) ∧
    ¬ (sq_desc_table q <= x < sq_desc_table q + 16 * sq_size q).

(** Memories that agree outside the used ring have the same chains. *)
Definition same_driver (q : SplitQueue) (h h' : host) : Prop :=
  ∀ x, ¬ (sq_used_ring q <= x < sq_used_ring q + 6 + 8 * sq_size q) → guest_byte gm h x = guest_byte gm h' x.

Lemma same_driver_avail q h h' :
  queue_ok q → areas_apart q → same_driver q h h' →
  avail_idx h q = avail_idx h' q ∧ (∀ k, avail_entry h q k = avail_entry h' q k) ∧
  ∀ k l c, avail_chain q h k l c → avail_chain q h' k l c.
Proof.
  intros Hq Hap Hs. pose proof (size_bounds q Hq).
  assert (Hax : ∀ x, sq_avail_ring q <= x < sq_avail_ring q + 6 + 2 * sq_size q →
    guest_byte gm h x = guest_byte gm h' x) by (intros x Hx; apply Hs; intros Hu; by destruct (Hap x Hu)).
  assert (He : ∀ k, avail_entry h q k = avail_entry h' q k).
  { intros k. pose proof (mod_size_bounds q Hq k). apply guest_u16_ext. intros x Hx. apply Hax. lia. }
  split_and!; [apply guest_u16_ext; intros x Hx; apply Hax; lia|done|].
  intros k l c Hc. unfold avail_chain in *. rewrite <-He. eapply good_chain_ext; [|done].
  intros x Hx. apply Hs. intros Hu. by destruct (Hap x Hu).
Qed.

Lemma after_pop_same q (m : Z → option u8) x :
  0 < sq_size q →
  ¬ (sq_used_ring q <= x < sq_used_ring q + 6 + 8 * sq_size q) → after_pop q m x = m x.
Proof.
  intros Hs Hx. unfold after_pop. destruct (event_idx_enabled _); [|done]. apply stored_out.
  unfold avail_event_addr. rewrite lengthZ_le_split. lia.
Qed.

(** The number of chains that are available. *)
Definition available (h : host) (q : SplitQueue) : Z := usub (avail_idx h q) (sq_next_avail q).

Lemma available_pos h q : sq_next_avail q ≠ avail_idx h q ↔ 0 < available h q.
Proof.
  unfold available, usub. pose proof (uint_range (avail_idx h q)). pose proof (uint_range (sq_next_avail q)).
  rewrite uval_to_uint. destruct (decide (sq_next_avail q = avail_idx h q)) as [->|Hne].
  - by rewrite Z.sub_diag.
  - split; [|done]. intros _. assert (uval (sq_next_avail q) ≠ avail_idx h q) by (intros He; by apply Hne, uint_eq).
    destruct (decide (avail_idx h q < sq_next_avail q)).
    + rewrite <-(Z.mod_add _ 1), Z.mod_small; lia.
    + rewrite Z.mod_small; lia.
Qed.

Lemma uval_uadd_1 (a : u16) : uval (uadd a (U16 1)) = (a + 1) mod 2 ^ 16.
Proof. unfold uadd. rewrite uval_to_uint. by change (uval (U16 1)) with 1. Qed.

Lemma available_step h q :
  0 < available h q → available h (set_next_avail (uadd (sq_next_avail q) (U16 1)) q) = available h q - 1.
Proof.
  unfold available, usub. change (avail_idx h (set_next_avail _ q)) with (avail_idx h q).
  cbn [set_next_avail sq_next_avail]. rewrite !uval_to_uint, uval_uadd_1. intros Hpos.
  change (2 ^ Z.of_N 16) with (2 ^ 16) in *. rewrite Zminus_mod_idemp_r.
  replace (avail_idx h q - (sq_next_avail q + 1)) with (avail_idx h q - sq_next_avail q - 1) by lia.
  rewrite <-Zminus_mod_idemp_l. apply Z.mod_small.
  pose proof (Z.mod_pos_bound (avail_idx h q - sq_next_avail q) (2 ^ 16)). lia.
Qed.

(** Positions in the ring, counted from the next one, survive the wrap-around of
    the counter. *)
Lemma position_step q (k : Z) :
  queue_ok q → (uval (uadd (sq_next_avail q) (U16 1)) + k) mod sq_size q = (sq_next_avail q + (1 + k)) mod sq_size q.
Proof.
  intros Hq. pose proof (size_bounds q Hq). rewrite uval_uadd_1.
  destruct (power_of_two_divides (sq_size q) (qo_size q Hq)) as [m Hm]. cbn [Z.of_N] in Hm.
  rewrite <-Zplus_mod_idemp_l, Hm, Z.mul_comm, Z.rem_mul_r, Z.mul_comm, Z.mod_add, Zmod_mod, Zplus_mod_idemp_l by lia.
  f_equal. lia.
Qed.

(** The queue after a pop sees the same chains. *)
Lemma avail_chain_next q h k l c :
  queue_ok q →
  avail_chain q h (sq_next_avail q + (1 + k)) l c ↔
  avail_chain (set_next_avail (uadd (sq_next_avail q) (U16 1)) q) h (uval (uadd (sq_next_avail q) (U16 1)) + k) l c.
Proof.
  intros Hq. unfold avail_chain, avail_entry. cbn [set_next_avail sq_size sq_desc_table sq_avail_ring].
  rewrite position_step by exact Hq. reflexivity.
Qed.

(** C20. Chains are popped in the order in which the driver made them available,
    each exactly once: if the next [n] positions of the available ring hold valid
    chains, [n] pops return them in order, without changing what the driver
    wrote; after the last available one a pop returns nothing. *)
Theorem pops_in_order n q w :
  queue_ok q → areas_apart q → Z.of_nat n <= available (w_host w) q →
  (∀ k, 0 <= k < Z.of_nat n → ∃ l c, avail_chain q (w_host w) (sq_next_avail q + k) l c) →
  ∃ cs q' w', pops n (q, w) = (Returns (map Some cs), (q', w')) ∧ length cs = n ∧
    (∀ k c, cs !! k = Some c → ∃ l, avail_chain q (w_host w) (sq_next_avail q + Z.of_nat k) l c) ∧
    same_driver q (w_host w) (w_host w') ∧
    (available (w_host w) q = Z.of_nat n → split_pop gm (q', w') = (Returns None, (q', w'))).
Proof using Hgm.
  revert q w. induction n as [|n IH]; intros q w Hq Hap Hn Hall.
  { exists [], q, w. split_and!; try done. intros Hz.
    destruct (split_pop_run q Hq w) as [[Hrun _]|(c & l & h' & _ & Hne & _)]; [done|].
    apply available_pos in Hne. lia. }
  destruct (split_pop_run q Hq w) as [[_ [Hnil|Hbad]]|(c & l & h' & Hrun & _ & Hc & Hx)].
  { assert (Hpos : 0 < available (w_host w) q) by lia. by apply available_pos in Hpos. }
  { destruct (Hall 0) as (l & c & Hc); [lia|]. rewrite Z.add_0_r in Hc. by destruct (Hbad l c). }
  set (q1 := set_next_avail _ q) in *. set (w1 := MkWorld h' (w_signals w)) in *.
  assert (Hq1 : queue_ok q1) by (destruct Hq; by constructor). pose proof (size_bounds q Hq).
  assert (Hsame : same_driver q (w_host w) h').
  { intros x Hout. rewrite Hx. symmetry. apply after_pop_same; [lia|done]. }
  destruct (same_driver_avail q _ _ Hq Hap Hsame) as (Hidx & _ & Hch).
  assert (Hav : available h' q1 = available (w_host w) q - 1).
  { unfold q1. rewrite <-available_step by lia. unfold available.
    change (avail_idx ?h (set_next_avail _ q)) with (avail_idx h q). by rewrite Hidx. }
  assert (Hpos : ∀ k l c, avail_chain q h' (sq_next_avail q + (1 + k)) l c ↔
    avail_chain q1 h' (sq_next_avail q1 + k) l c).
  { intros k l0 c0. exact (avail_chain_next q h' k l0 c0 Hq). }
  destruct (IH q1 w1 Hq1 Hap) as (cs & q' & w' & Hrun' & Hlen & Hcs & Hs' & Hend); [cbn; lia|..].
  { intros k Hk. destruct (Hall (1 + k)) as (l' & c' & Hc'); [lia|]. exists l', c'.
    exact (proj1 (Hpos k l' c') (Hch _ _ _ Hc')). }
  exists (c :: cs), q', w'. cbn [pops]. erewrite bind_returns by exact Hrun.
  erewrite bind_returns by exact Hrun'. split_and!; [done|cbn; by rewrite Hlen| | |].
  - intros [|k] c'; cbn; [intros [= <-]; exists l; by rewrite Z.add_0_r|]. intros Hk.
    destruct (Hcs k c' Hk) as (l' & Hl'). apply (proj2 (Hpos _ l' c')) in Hl'. exists l'.
    destruct (same_driver_avail q h' (w_host w) Hq Hap) as (_ & _ & Hch'); [intros x Hout; by rewrite Hsame|].
    replace (Z.of_nat (S k)) with (1 + Z.of_nat k) by lia. exact (Hch' _ _ _ Hl').
  - intros x Hout. rewrite Hsame by done. by apply Hs'.
  - intros Heq. apply Hend. cbn. lia.
Qed.

(** ** Used entries *)

Fixpoint uses (l : list (DescriptorChain * u32)) : QueueOp SplitQueue () :=
  match l with
  | [] => mret ()
  | (c, len) :: l => _ ← split_add_used gm c len; uses l
  end.

(** The bytes of the element at a position. *)
Definition slot_addr (q : SplitQueue) (k : Z) : Z := sq_used_ring q + 4 + 8 * (k mod sq_size q).

Lemma guest_bytes_app h a n m :
  0 <= n → 0 <= m → guest_bytes gm h a (n + m) = guest_bytes gm h a n ++ guest_bytes gm h (a + n) m.
Proof. intros. unfold guest_bytes. by rewrite seqZ_app, map_app by lia. Qed.

Lemma used_entry_spec h q k (id : u16) (len : u32) :
  guest_bytes gm h (slot_addr q k) 8 = used_elem_bytes id len → used_entry h q k = (U32 id, len).
Proof.
  intros Hb. rewrite (guest_bytes_app h _ 4 4) in Hb by lia.
  apply app_inj_1 in Hb as [H1 H2].
  2:{ apply Nat2Z.inj. change (lengthZ (guest_bytes gm h (slot_addr q k) 4) = lengthZ (le_split 4 id)).
      by rewrite guest_bytes_length, lengthZ_le_split. }
  unfold used_entry, guest_u32. unfold slot_addr in *.
  replace (sq_used_ring q + 8 + 8 * (k mod sq_size q)) with (sq_used_ring q + 4 + 8 * (k mod sq_size q) + 4) by lia.
  rewrite H1, H2, !(to_uint_combine_split 4 32), to_uint_uval by done. done.
Qed.

(** Two positions less than the size apart have different elements. *)
Lemma slots_apart q k k' x :
  queue_ok q → 0 < k' - k < sq_size q → slot_addr q k <= x < slot_addr q k + 8 →
  ¬ (slot_addr q k' <= x < slot_addr q k' + 8).
Proof.
  intros Hq Hk Hx Hx'. unfold slot_addr in *.
  assert (Heq : k' mod sq_size q = k mod sq_size q) by lia.
  pose proof (size_bounds q Hq). pose proof (Z.div_mod k (sq_size q) ltac:(lia)).
  pose proof (Z.div_mod k' (sq_size q) ltac:(lia)).
  assert (Hd : k' - k = sq_size q * (k' / sq_size q - k / sq_size q)) by (rewrite Z.mul_sub_distr_l; lia).
  destruct (decide (k' / sq_size q - k / sq_size q <= 0)); nia.
Qed.

(** What a list of uses leaves alone. *)
Definition untouched (q : SplitQueue) (n : Z) (x : Z) : Prop :=
  ¬ (sq_used_ring q + 2 <= x < sq_used_ring q + 4) ∧
  ∀ k, 0 <= k < n → ¬ (slot_addr q (sq_next_used q + k) <= x < slot_addr q (sq_next_used q + k) + 8).

Lemma slot_step q k :
  queue_ok q → slot_addr q (uval (uadd (sq_next_used q) (U16 1)) + k) = slot_addr q (sq_next_used q + (1 + k)).
Proof.
  intros Hq. unfold slot_addr. do 2 f_equal.
  exact (position_step (set_next_avail (sq_next_used q) q) k (Build_queue_ok (set_next_avail (sq_next_used q) q)
    (qo_size q Hq) (qo_max q Hq) (qo_avail q Hq) (qo_used q Hq))).
Qed.

Lemma untouched_step q n x :
  queue_ok q → untouched q (1 + n) x →
  untouched (set_next_used (uadd (sq_next_used q) (U16 1)) q) n x.
Proof.
  intros Hq [Hi Hs]. split; [exact Hi|]. intros k Hk. cbn [sq_next_used set_next_used].
  change (slot_addr (set_next_used _ q)) with (slot_addr q). rewrite slot_step by done. apply Hs. lia.
Qed.

Lemma after_use_out q id len m x :
  ¬ (sq_used_ring q + 2 <= x < sq_used_ring q + 4) →
  ¬ (slot_addr q (sq_next_used q) <= x < slot_addr q (sq_next_used q) + 8) →
  after_use q id len m x = m x.
Proof.
  intros Hi Hs. unfold after_use. rewrite !stored_out; [done|..]; rewrite ?lengthZ_used_elem, ?lengthZ_le_split.
  - exact Hs.
  - lia.
Qed.

Lemma stored_bytes_2 h a (v : u16) :
  (∀ x, a <= x < a + 2 → guest_byte gm h x = le_split 2 v !! Z.to_nat (x - a)) →
  guest_bytes gm h a 2 = le_split 2 v.
Proof.
  intros Hx. change 2 with (lengthZ (le_split 2 v)) at 1. apply (stored_bytes h). intros x Hin.
  rewrite lengthZ_le_split in Hin. rewrite Hx by done. unfold stored. rewrite lengthZ_le_split.
  destruct (Z.leb_spec a x), (Z.ltb_spec x (a + Z.of_nat 2)); done || lia.
Qed.

Lemma used_idx_after q c len w h1 :
  (∀ x, guest_byte gm h1 x = after_use q (dc_index c) len (guest_byte gm (w_host w)) x) →
  ∀ x, sq_used_ring q + 2 <= x < sq_used_ring q + 2 + 2 →
    guest_byte gm h1 x = le_split 2 (uadd (sq_next_used q) (U16 1)) !! Z.to_nat (x - (sq_used_ring q + 2)).
Proof.
  intros Hx x Hin. rewrite Hx. unfold after_use. unfold stored at 1. rewrite lengthZ_le_split.
  destruct (Z.leb_spec (sq_used_ring q + 2) x), (Z.ltb_spec x (sq_used_ring q + 2 + Z.of_nat 2)); done || lia.
Qed.

Lemma elem_after q c len w h1 :
  queue_ok q →
  (∀ x, guest_byte gm h1 x = after_use q (dc_index c) len (guest_byte gm (w_host w)) x) →
  guest_bytes gm h1 (slot_addr q (sq_next_used q)) 8 = used_elem_bytes (dc_index c) len.
Proof.
  intros Hq Hx. rewrite <-(lengthZ_used_elem (dc_index c) len). apply (stored_bytes (w_host w)).
  intros x Hin. rewrite lengthZ_used_elem in Hin. rewrite Hx. unfold after_use. apply stored_out.
  rewrite lengthZ_le_split. unfold slot_addr in Hin. pose proof (mod_size_bounds q Hq (sq_next_used q)). lia.
Qed.

(** C21. Used buffers are published in order: after the device has used chains
    [cs] (no more than the ring has elements), element [next_used + k] of the
    used ring holds the head and length of the [k]-th of them, the index of the
    ring has advanced by their number, and no other byte of the guest memory has
    changed. *)
Theorem used_in_order cs q w :
  queue_ok q → lengthZ cs <= sq_size q →
  ∃ q' w', uses cs (q, w) = (Returns (), (q', w')) ∧ w_signals w' = w_signals w ∧
    (cs ≠ [] → used_idx (w_host w') q = U16 (sq_next_used q + lengthZ cs)) ∧
    (∀ k c len, cs !! k = Some (c, len) →
       used_entry (w_host w') q (sq_next_used q + Z.of_nat k) = (U32 (dc_index c), len)) ∧
    (∀ x, untouched q (lengthZ cs) x → guest_byte gm (w_host w') x = guest_byte gm (w_host w) x).
Proof using Hgm.
  revert q w. induction cs as [|[c len] cs IH]; intros q w Hq Hle; [by exists q, w|].
  rewrite lengthZ_cons in Hle |- *. pose proof (lengthZ_nonneg cs). pose proof (size_bounds q Hq).
  destruct (split_add_used_run q Hq c len w) as (h1 & Hrun & Hx).
  set (q1 := set_next_used _ q) in *. assert (Hq1 : queue_ok q1) by (destruct Hq; by constructor).
  destruct (IH q1 (MkWorld h1 (w_signals w)) Hq1) as (q' & w' & Hrun' & Hsig & Hidx & Hent & Hout); [cbn; lia|].
  exists q', w'. cbn [uses]. erewrite bind_returns by exact Hrun. split; [exact Hrun'|]. split; [exact Hsig|].
  split_and!.
  - intros _. destruct (decide (cs = [])) as [->|Hne].
    + cbn in Hrun'. injection Hrun' as <- <-. cbn [w_host]. unfold used_idx, guest_u16.
      rewrite (stored_bytes_2 h1 _ (uadd (sq_next_used q) (U16 1)) (used_idx_after q c len w h1 Hx)).
      rewrite (to_uint_combine_split 2 16), to_uint_uval by done. apply uint_eq.
      rewrite uval_uadd_1, uval_to_uint. done.
    + etransitivity; [exact (Hidx Hne)|]. apply uint_eq. cbn [q1 sq_next_used set_next_used].
      rewrite !uval_to_uint, uval_uadd_1. change (2 ^ Z.of_N 16) with (2 ^ 16).
      rewrite Zplus_mod_idemp_l. f_equal. lia.
  - intros [|k] c' len' Hk; cbn in Hk.
    + injection Hk as <- <-. rewrite Z.add_0_r. apply used_entry_spec.
      rewrite (guest_bytes_ext gm _ h1); [by eapply elem_after|]. intros x Hxs. apply Hout. split.
      * unfold slot_addr in Hxs. pose proof (mod_size_bounds q Hq (sq_next_used q)). cbn. lia.
      * intros k Hk. change (slot_addr q1) with (slot_addr q). cbn [q1 sq_next_used set_next_used].
        rewrite slot_step by done. apply (slots_apart q (sq_next_used q)); [done|lia|done].
    + replace (sq_next_used q + Z.of_nat (S k)) with (sq_next_used q + (1 + Z.of_nat k)) by lia.
      etransitivity; [|exact (Hent k c' len' Hk)]. unfold used_entry.
      pose proof (slot_step q (Z.of_nat k) Hq) as Hsl. unfold slot_addr in Hsl.
      assert (Hm : (sq_next_used q + (1 + Z.of_nat k)) mod sq_size q =
        (uval (uadd (sq_next_used q) (U16 1)) + Z.of_nat k) mod sq_size q) by lia.
      rewrite Hm. reflexivity.
  - intros x Hu. rewrite Hout by (by apply untouched_step). cbn [w_host]. rewrite Hx.
    destruct Hu as [Hi Hs]. apply after_use_out; [done|]. specialize (Hs 0). rewrite Z.add_0_r in Hs. apply Hs. lia.
Qed.

(** ** Notifications *)

(** The driver waits for entry [e], and the device has used the entries from
    [last] up to [next], not included, since it last notified the driver. *)
Definition event_reached (last next e : u16) : Prop :=
  ∃ k, 0 <= k < usub next last ∧ e = U16 (last + k).

Lemma event_reached_spec (last next e : u16) :
  (uval (usub (usub next e) (U16 1)) <? usub next last) = true ↔ event_reached last next e.
Proof.
  rewrite Z.ltb_lt. unfold event_reached, usub. change (uval (U16 1)) with 1. rewrite !uval_to_uint.
  change (2 ^ Z.of_N 16) with 65536. rewrite Zminus_mod_idemp_l.
  pose proof (uint_range last). pose proof (uint_range next). pose proof (uint_range e).
  cbn [Z.of_N] in *. change (2 ^ 16) with 65536 in *.
  pose proof (Z.mod_pos_bound (next - last) 65536 ltac:(lia)).
  pose proof (Z.mod_pos_bound (next - e - 1) 65536 ltac:(lia)).
  pose proof (Z.div_mod (next - last) 65536 ltac:(lia)). pose proof (Z.div_mod (next - e - 1) 65536 ltac:(lia)).
  split.
  - intros Hlt. exists ((next - last) mod 65536 - 1 - (next - e - 1) mod 65536). split; [lia|].
    apply uint_eq. rewrite uval_to_uint. change (2 ^ Z.of_N 16) with 65536.
    replace (last + _) with (uval e + ((next - e - 1) / 65536 - (next - last) / 65536) * 65536) by lia.
    rewrite Z.mod_add, Z.mod_small by lia. done.
  - intros (k & Hk & He). assert (Hev : uval e = (last + k) mod 65536) by (rewrite He; exact (uval_to_uint (w := 16) (last + k))).
    pose proof (Z.div_mod (last + k) 65536 ltac:(lia)).
    assert (Hm : (next - e - 1) mod 65536 = (next - last) mod 65536 - 1 - k); [|lia].
    replace (next - e - 1) with
      ((next - last) mod 65536 - 1 - k + ((next - last) / 65536 + (last + k) / 65536) * 65536) by lia.
    rewrite Z.mod_add, Z.mod_small by lia. done.
Qed.

(** C32. Event suppression: with the event index feature, the device interrupts
    the driver exactly if the entry the driver waits for is one of those used
    since the last interrupt, whatever way the 16-bit counters have wrapped
    around; without the feature, exactly if the driver has not set the flag that
    suppresses interrupts.  An interrupt goes to the vector of the queue, and
    starts the next interval. *)
Theorem trigger_interrupt_spec q w :
  queue_ok q →
  ∃ b q' w', split_trigger_interrupt gm (q, w) = (Returns b, (q', w')) ∧
    (b = true ↔
       if event_idx_enabled (sq_features q)
       then event_reached (sq_last_used q) (sq_next_used q) (used_event (w_host w) q)
       else bit (avail_flags (w_host w) q) 0 = false) ∧
    (b = true → q' = set_last_used (sq_next_used q) q ∧ w' = MkWorld (w_host w) (sq_vector q :: w_signals w)) ∧
    (b = false → q' = q ∧ w' = w).
Proof using Hgm.
  intros Hq. destruct (split_trigger_run q w Hq) as (b & Hwants & Hrun).
  rewrite (split_wants_run q Hq w) in Hwants.
  match type of Hwants with (Returns ?v, _) = _ => assert (Hb : v = b) by congruence end.
  exists b, (if b then set_last_used (sq_next_used q) q else q),
    (if b then MkWorld (w_host w) (sq_vector q :: w_signals w) else w).
  split_and!; [by destruct b| |by intros ->..]. rewrite <-Hb. destruct (event_idx_enabled (sq_features q)).
  - apply event_reached_spec.
  - set (f := avail_flags (w_host w) q). change VIRTQ_AVAIL_F_NO_INTERRUPT with (ubit (w := 16) 0).
    pose proof (and_ubit_zero f 0 ltac:(done)) as Hz.
    assert (Hb1 : uval (uand f (ubit 0)) = 0 ∨ uval (uand f (ubit 0)) = 1).
    { unfold uand. change (uval (ubit (w := 16) 0)) with (Z.ones 1). rewrite Z.land_ones by lia.
      pose proof (Z.mod_pos_bound f (2 ^ 1) ltac:(lia)). change (2 ^ 1) with 2 in *.
      rewrite uval_to_uint_small; [lia|]. change (2 ^ Z.of_N 16) with 65536. lia. }
    destruct Hb1 as [Hb1|Hb1]; rewrite Hb1 in Hz |- *; destruct (bit f 0); done.
Qed.

(** ** Rings outside the memory *)

Lemma read_u16_aborts {Q} (a : u64) (q : Q) w : ¬ fits gm a 2 → ∃ s, read_u16 gm a (q, w) = (Aborts, s).
Proof using Hgm.
  intros Hno. destruct (read_obj_cases gm Hgm (U64 2) a (w_host w)) as [[Hf _]|[_ [e He]]]; [done| |].
  - by change (uval (U64 2)) with 2 in Hf.
  - eexists. unfold read_u16, on_host, unwrap. run_prog. by rewrite He.
Qed.

(** The first operation on a ring that is not in guest memory panics. *)
Lemma stray_ring_aborts c event q w chain len :
  SplitQueue_new c event = Returns q →
  (¬ fits gm (unchecked_add (qc_avail_ring c) (U64 2)) 2 → ∃ s, split_pop gm (q, w) = (Aborts, s)) ∧
  (¬ fits gm (unchecked_add (qc_used_ring c) (U64 (4 + 8 * (qc_next_used c mod qc_size c)))) 8 →
     ∃ s, split_add_used gm chain len (q, w) = (Aborts, s)).
Proof using Hgm.
  unfold SplitQueue_new. destruct (is_power_of_two (qc_size c)) eqn:Hp; [|done]. cbn [negb].
  destruct (areas_in_bounds _); [|done]. intros [= <-]. split; intros Hno.
  - destruct (read_u16_aborts (unchecked_add (qc_avail_ring c) (U64 2)) (MkSplit event (qc_size c) (qc_vector c)
      (qc_desc_table c) (qc_avail_ring c) (qc_used_ring c) (qc_next_avail c) (qc_next_used c)
      (qc_acked_features c) (qc_next_used c)) w Hno) as [s Hs].
    exists s. unfold split_pop, split_peek, get_avail_index.
    run_prog. cbn [sq_avail_ring]. by rewrite Hs.
  - eexists. unfold split_add_used, write_bytes, on_host, unwrap. run_prog. cbn [sq_used_ring sq_next_used].
    set (q := MkSplit _ _ _ _ _ _ _ _ _ _). change (wrap_queue_index q (qc_next_used c)) with
      (uand (qc_next_used c) (usub (qc_size c) (U16 1))).
    rewrite (land_pred_power (qc_next_used c) (qc_size c) Hp), (Z.mul_comm _ 8).
    destruct (access_fails gm Hgm (used_elem_bytes (dc_index chain) len)
      (unchecked_add (qc_used_ring c) (U64 (4 + 8 * (qc_next_used c mod qc_size c)))) (w_host w)) as [[e He] _].
    + by rewrite lengthZ_used_elem.
    + by rewrite lengthZ_used_elem.
    + by rewrite He.
Qed.
End split.
