(* ===== verification/PackedFacts.v ===== *)
(** * Theorems on packed virtqueues and on the configuration of queues *)

From S2P Require Import Prelude Checked Bits GuestMemory GuestMemoryFacts DescriptorUtils StreamFacts.
From S2P Require Import DescriptorChain ChainFacts SplitQueue SplitFacts PackedQueue.

(** ** Positions

    An index and its wrap counter are a position in a ring of twice the size. *)

Definition index_ok (size : u16) (i : PackedQueueIndex) : Prop := pi_index i < size.

Definition position (size : u16) (i : PackedQueueIndex) : Z :=
  if wrap_counter i then pi_index i else size + pi_index i.

Lemma position_inj size i j : index_ok size i → index_ok size j → position size i = position size j → i = j.
Proof.
  unfold index_ok, position. destruct i as [[] i], j as [[] j]; cbn; intros ?? Heq;
    pose proof (uint_range i); pose proof (uint_range j); try lia; f_equal; apply uint_eq; lia.
Qed.

Lemma add_index_spec size i (n : u16) :
  index_ok size i → size <= MAX_SIZE → n <= size →
  ∃ j, add_index i n size = Some j ∧ index_ok size j ∧
    position size j = (position size i + n) mod (2 * size).
Proof.
  unfold index_ok, position, add_index. change (uval MAX_SIZE) with 32768. intros Hi Hs Hn.
  pose proof (uint_range (pi_index i)). pose proof (uint_range n). pose proof (uint_range size).
  destruct (add_checked (pi_index i) n) as [k|] eqn:Hk;
    [|apply add_checked_None in Hk; change (2 ^ Z.of_N 16) with 65536 in Hk; lia].
  apply add_checked_Some in Hk. cbn [mbind option_bind]. destruct (Z.ltb_spec (uval k) size).
  - eexists. split; [done|]. cbn. split; [done|]. destruct (wrap_counter i); rewrite Z.mod_small; lia.
  - destruct (sub_checked k size) as [m|] eqn:Hm; [|apply sub_checked_None in Hm; lia].
    apply sub_checked_Some in Hm. eexists. split; [done|]. cbn. split; [lia|].
    destruct (wrap_counter i); cbn.
    + rewrite Z.mod_small; lia.
    + rewrite <-(Z.mod_add _ (-1)), Z.mod_small by lia. lia.
Qed.

(** The form in which an index is told to the driver. *)
Lemma to_desc_roundtrip i :
  pi_index i < 32768 → PackedQueueIndex_new_from_desc (pe_desc (to_desc i)) = i.
Proof.
  destruct i as [wrap i]. cbn. intros Hi. pose proof (uint_range i) as Hr.
  unfold PackedQueueIndex_new_from_desc. f_equal.
  - destruct wrap; apply Z.eqb_eq || apply Z.eqb_neq.
    + apply Z.bits_inj'. intros n Hn. rewrite Z.shiftr_spec by done.
      change (Z.testbit (uor i (ubit 15)) (n + 15)) with (bit (uor i (ubit 15)) (n + 15)).
      rewrite bit_set by done. destruct (Z.eqb_spec (n + 15) 15) as [He|He].
      { by replace n with 0 by lia. }
      rewrite orb_false_l. unfold bit. rewrite Z.bits_above_log2; [|lia|].
      * symmetry. change 1 with (2 ^ 0). apply Z.pow2_bits_false. lia.
      * destruct (decide (uval i = 0)) as [->|]; [cbn; lia|]. apply Z.log2_lt_pow2; [lia|].
        apply Z.lt_le_trans with (2 ^ 15); [done|]. apply Z.pow_le_mono_r; lia.
    + rewrite Z.shiftr_div_pow2 by lia. change (2 ^ 15) with 32768. rewrite Z.div_small by lia. done.
  - apply uint_eq. unfold uand. change (uval (U16 32767)) with (Z.ones 15). rewrite Z.land_ones by lia.
    change (2 ^ 15) with 32768. pose proof (Z.mod_pos_bound (uval (if wrap then uor i (ubit 15) else i)) 32768).
    rewrite uval_to_uint_small by (change (2 ^ Z.of_N 16) with 65536; lia).
    destruct wrap; [|by rewrite Z.mod_small by lia].
    change 32768 with (2 ^ 15). apply Z.bits_inj'. intros n Hn. destruct (decide (n < 15)).
    + rewrite Z.mod_pow2_bits_low by lia. change (bit (uor i (ubit 15)) n = Z.testbit i n).
      rewrite bit_set by done. by destruct (Z.eqb_spec n 15); [lia|].
    + rewrite Z.mod_pow2_bits_high by lia. destruct (decide (uval i = 0)) as [->|]; [by rewrite Z.bits_0|].
      symmetry. apply Z.bits_above_log2; [lia|]. apply Z.lt_le_trans with 15; [|lia].
      apply Z.log2_lt_pow2; [lia|done].
Qed.

(** A descriptor is offered to the device if its flag AVAIL (bit 7) is the wrap
    counter of the driver and its flag USED (bit 15) is not. *)
Definition offered (d : PackedDesc) (wrap : bool) : bool :=
  Bool.eqb (bit (pd_flags d) 7) wrap && Bool.eqb (bit (pd_flags d) 15) (negb wrap).

Lemma is_available_offered d wrap : is_available d wrap = offered d wrap.
Proof.
  unfold is_available, offered, has_flag. change VIRTQ_DESC_F_AVAIL with (ubit 7 : u16).
  change VIRTQ_DESC_F_USED with (ubit 15 : u16). rewrite !and_ubit_zero, !negb_involutive by done.
  by destruct (bit (pd_flags d) 7), (bit (pd_flags d) 15), wrap.
Qed.

(** ** The descriptors of a packed queue

    A chain is a run of consecutive descriptors of the ring. *)

Section packed.
Context (gm : GuestMemory) (Hgm : gm_ok gm).

Definition ring_desc (h : host) (table : u64) (i : u16) : PackedDesc :=
  PackedDesc_of (guest_bytes gm h (table + 16 * i) 16).

Definition in_ring (table : u64) (size i : u16) : Prop := i < size ∧ fits gm (table + 16 * i) 16.

Definition packed_flags_ok (d : PackedDesc) : Prop :=
  uval (uand (pd_flags d) (unot (uor (uor (uor VIRTQ_DESC_F_WRITE VIRTQ_DESC_F_NEXT) VIRTQ_DESC_F_AVAIL)
    VIRTQ_DESC_F_USED))) = 0.

(** A descriptor the device can take. *)
Definition ring_entry (h : host) (table : u64) (size : u16) (wrap : bool) (i : u16) (d : PackedDesc) : Prop :=
  in_ring table size i ∧ d = ring_desc h table i ∧ offered d wrap = true ∧ uval (pd_len d) ≠ 0 ∧
  packed_flags_ok d.

(** The index after [i]. *)
Definition succ_wrap (size : u16) (wrap : bool) (i : u16) : bool :=
  if i + 1 <? size then wrap else negb wrap.
Definition succ_index (size i : u16) : u16 := if i + 1 <? size then U16 (i + 1) else U16 0.

(** A run of descriptors with its buffer id; it has none if it is cut short by a
    descriptor that is not available. *)
Inductive ring_run (h : host) (table : u64) (size : u16) : bool → u16 → list PackedDesc → option u16 → Prop :=
  | run_last wrap i d :
      ring_entry h table size wrap i d → has_next d = false →
      ring_run h table size wrap i [d] (Some (pd_id d))
  | run_next wrap i d l id :
      ring_entry h table size wrap i d → has_next d = true →
      ring_run h table size (succ_wrap size wrap i) (succ_index size i) l id →
      ring_run h table size wrap i (d :: l) id
  | run_cut wrap i :
      in_ring table size i → offered (ring_desc h table i) wrap = false →
      ring_run h table size wrap i [] None.

Definition packed_descriptor (d : PackedDesc) : Descriptor :=
  MkDescriptor (pd_addr d) (pd_len d) (access_of (pd_flags d)).

(** The iterator after a descriptor. *)
Definition packed_after (size : u16) (table : u64) (wrap : bool) (i : u16) (d : PackedDesc) (count : u16)
    (id : option u16) : PackedDescriptorChain :=
  if has_next d
  then MkPackedChain (succ_wrap size wrap i) (Some (succ_index size i)) count id size table
  else MkPackedChain wrap None count (Some (pd_id d)) size table.

Lemma packed_step_spec (size : u16) table wrap (i count : u16) id d :
  i < size →
  packed_chain_step (MkPackedChain wrap (Some i) count id size table) i d (U16 (count + 1)) =
  Some (packed_after size table wrap i d (U16 (count + 1)) id).
Proof.
  intros Hi. unfold packed_chain_step, packed_after. cbn [pdc_avail_wrap_counter pdc_id pdc_queue_size pdc_desc_table].
  destruct (has_next d); [|done]. pose proof (uint_range size). pose proof (uint_range i).
  assert (Hone : uval (U16 1) = 1) by done.
  destruct (add_checked i (U16 1)) as [i1|] eqn:H1; [|apply add_checked_None in H1; lia].
  apply add_checked_Some in H1. rewrite Hone in H1. cbn [mbind option_bind]. rewrite H1.
  unfold succ_wrap, succ_index. destruct (Z.ltb_spec (i + 1) size); [|done].
  do 3 f_equal. apply uint_eq. rewrite H1. symmetry. apply uval_to_uint_small. lia.
Qed.

Lemma packed_next_step wrap (i count size : u16) id (table : u64) h :
  i < size → count < size →
  match packed_chain_next gm (MkPackedChain wrap (Some i) count id size table) h with
  | (Returns (Some x, c'), h') => h' = h ∧ ∃ d, ring_entry h table size wrap i d ∧ x = packed_descriptor d ∧
      c' = packed_after size table wrap i d (U16 (count + 1)) id
  | (Returns (None, c'), h') => h' = h ∧ in_ring table size i ∧ offered (ring_desc h table i) wrap = false ∧
      c' = MkPackedChain wrap (Some i) count id size table
  | (Throws _, h') => h' = h ∧ (∀ d, ¬ ring_entry h table size wrap i d) ∧
      ¬ (in_ring table size i ∧ offered (ring_desc h table i) wrap = false)
  | (Aborts, _) => False
  end.
Proof using Hgm.
  intros Hi Hc. unfold packed_chain_next. cbn [pdc_index pdc_queue_size pdc_count pdc_desc_table pdc_avail_wrap_counter].
  destruct (Z.leb_spec size i), (Z.leb_spec size count); try lia. pose proof (uint_range i).
  assert (Hoff : uval (U64 (i * 16)) = 16 * i) by (rewrite uval_to_uint_small; cbn [Z.of_N] in *; lia).
  unfold GuestAddress_checked_add. destruct (add_checked table (U64 (i * 16))) as [a|] eqn:Ha; last first.
  { apply add_checked_None in Ha. rewrite Hoff in Ha. cbn [Z.of_N] in Ha. run_prog.
    assert (Hno : ¬ in_ring table size i) by (intros [_ Hf]; apply (fits_end gm) in Hf; [lia|done]).
    split_and!; [done|by intros d [? _]|by intros [? _]]. }
  apply add_checked_Some in Ha. rewrite Hoff in Ha. run_prog. unfold with_context.
  destruct (read_obj_cases gm Hgm (U64 16) a h) as [[Hf Hrd]|[Hno [e He]]]; [done|..];
    change (uval (U64 16)) with 16 in *; rewrite Ha in *; last first.
  { rewrite He. split_and!; [done|by intros d [[_ ?] _]|by intros [[_ ?] _]]. }
  rewrite Hrd. fold (ring_desc h table i). set (d := ring_desc h table i).
  rewrite is_available_offered. destruct (offered d wrap) eqn:Hav; cbn [negb]; last by split_and!.
  destruct (Z.eqb_spec (uval (pd_len d)) 0) as [Hz|Hz].
  { split_and!; [done| |by intros [_ ?]]. intros d' (_ & -> & _ & Hz' & _). done. }
  destruct (Z.eqb_spec (uval (uand (pd_flags d) (unot (uor (uor (uor VIRTQ_DESC_F_WRITE VIRTQ_DESC_F_NEXT)
    VIRTQ_DESC_F_AVAIL) VIRTQ_DESC_F_USED)))) 0) as [Hfl|Hfl]; cbn [negb]; last first.
  { split_and!; [done| |by intros [_ ?]]. intros d' (_ & -> & _ & _ & Hz'). done. }
  pose proof (uint_range size). pose proof (uint_range count). assert (Hone : uval (U16 1) = 1) by done.
  destruct (add_checked count (U16 1)) as [c1|] eqn:Hc1; [|apply add_checked_None in Hc1; lia].
  apply add_checked_Some in Hc1. rewrite Hone in Hc1. replace c1 with (U16 (count + 1)); last first.
  { apply uint_eq. rewrite Hc1. apply uval_to_uint_small. pose proof (uint_range c1). lia. }
  rewrite packed_step_spec by done. split; [done|]. exists d. by split_and!.
Qed.

Instance packed_iter : DescriptorChainIter PackedDescriptorChain := packed_chain_iter gm.

Definition packed_inv (c : PackedDescriptorChain) : Prop := pdc_count c <= pdc_queue_size c.

(** Calls outside the table, or after as many descriptors as it has. *)
Lemma packed_next_throws wrap (i count size : u16) id table h :
  size <= i ∨ size <= count →
  ∃ e, packed_chain_next gm (MkPackedChain wrap (Some i) count id size table) h = (Throws e, h).
Proof.
  intros Hor. unfold packed_chain_next. cbn.
  destruct (Z.leb_spec size i); [by eexists|]. destruct (Z.leb_spec size count); [by eexists|lia].
Qed.

Lemma packed_next_total (c : PackedDescriptorChain) h :
  packed_inv c →
  match iter_next c h with
  | (Returns (None, c'), h') => h' = h
  | (Returns (Some _, c'), h') => h' = h ∧ packed_inv c' ∧ (iter_left c' < iter_left c)%nat
  | (Throws _, h') => h' = h
  | (Aborts, _) => False
  end.
Proof using Hgm.
  destruct c as [wrap [i|] count id size table]; intros Hinv; [|done]. unfold packed_inv in Hinv. cbn in Hinv.
  cbn [iter_next packed_iter packed_chain_iter].
  destruct (decide (size <= i ∨ size <= count)) as [Hor|Hor].
  { by destruct (packed_next_throws wrap i count size id table h Hor) as [e ->]. }
  pose proof (packed_next_step wrap i count size id table h ltac:(lia) ltac:(lia)) as Hs.
  destruct (packed_chain_next _ _ _) as [[[[x|] c']|e|] h']; [|by destruct Hs..|done].
  destruct Hs as (-> & d & _ & _ & ->). split; [done|].
  assert (Hq : pdc_queue_size (packed_after size table wrap i d (U16 (count + 1)) id) = size ∧
    pdc_count (packed_after size table wrap i d (U16 (count + 1)) id) = U16 (count + 1)).
  { unfold packed_after. by destruct (has_next d). }
  destruct Hq as [Hq1 Hq2]. unfold packed_inv. cbn [iter_left packed_iter packed_chain_iter]. rewrite Hq1, Hq2.
  pose proof (uint_range count). pose proof (uint_range size). cbn [pdc_queue_size pdc_count].
  rewrite uval_to_uint_small by (cbn [Z.of_N] in *; lia). lia.
Qed.

Instance packed_laws : IterLaws PackedDescriptorChain :=
  {| iter_inv := packed_inv; iter_next_total := packed_next_total |}.

(** A run is not longer than the table; if it is cut short, the descriptor that
    cuts it is also one of the table. *)
Definition run_fits (id : option u16) (n : Z) (size : u16) : Prop :=
  match id with Some _ => n <= size | None => n < size end.

Lemma packed_yields_run h wrap (i count size : u16) table ds c' :
  yields h (MkPackedChain wrap (Some i) count None size table) ds c' →
  ∃ l, ring_run h table size wrap i l (iter_id c') ∧ run_fits (iter_id c') (count + lengthZ l) size ∧
    ds = map packed_descriptor l ∧ uval (iter_count c') = count + lengthZ l.
Proof using Hgm.
  intros Hy. remember (MkPackedChain wrap (Some i) count None size table) as c eqn:Hc.
  revert wrap i count Hc. induction Hy as [c c' Hn|c x c1 ds c' Hn Hy IH]; intros wrap i count ->;
    cbn [iter_next packed_iter packed_chain_iter] in Hn.
  all: destruct (decide (size <= i ∨ size <= count)) as [Hor|Hor];
    [destruct (packed_next_throws wrap i count size None table h Hor) as [e He]; by rewrite He in Hn|].
  all: pose proof (packed_next_step wrap i count size None table h ltac:(lia) ltac:(lia)) as Hs; rewrite Hn in Hs.
  - destruct Hs as (_ & Hr & Hav & ->). exists []. change (lengthZ []) with 0. cbn.
    split_and!; [by constructor|cbn; lia|done|lia].
  - destruct Hs as (_ & d & Hd & -> & ->). pose proof (uint_range count). pose proof (uint_range size).
    assert (Hcount : uval (U16 (count + 1)) = count + 1) by (apply uval_to_uint_small; lia).
    unfold packed_after in *. destruct (has_next d) eqn:Hnext.
    + destruct (IH _ _ _ eq_refl) as (l & Hl & Hle & -> & Hcnt). exists (d :: l). rewrite lengthZ_cons.
      split_and!; [by eapply run_next| |done|lia].
      unfold run_fits in *. destruct (iter_id c'); lia.
    + exists [d]. change (lengthZ [d]) with 1.
      inversion Hy as [? ? Hend|? ? ? ? ? Hend]; subst; cbn in Hend; [|done].
      injection Hend as <-. split_and!; [by constructor|cbn; lia|done|done].
Qed.

Lemma ring_run_yields h wrap (i count size : u16) table l id :
  ring_run h table size wrap i l id → run_fits id (count + lengthZ l) size →
  ∃ c', yields h (MkPackedChain wrap (Some i) count None size table) (map packed_descriptor l) c' ∧
    uval (iter_count c') = count + lengthZ l ∧ iter_id c' = id.
Proof using Hgm.
  intros Hl. revert count. induction Hl as [wrap i d Hd Hnext|wrap i d l id Hd Hnext Hl IH|wrap i Hr Hcut];
    intros count Hfit; pose proof (uint_range count); pose proof (uint_range size);
    rewrite ?lengthZ_cons in Hfit |- *; try pose proof (lengthZ_nonneg l).
  all: try change (lengthZ (A := PackedDesc) []) with 0 in *.
  all: assert (count < size) as Hlt by (unfold run_fits in Hfit; try destruct id; lia).
  all: pose proof (packed_next_step wrap i count size None table h
         ltac:(first [destruct Hd as [[]]; lia|by destruct Hr]) Hlt) as Hs;
    assert (Hcount : uval (U16 (count + 1)) = count + 1) by (apply uval_to_uint_small; lia);
    destruct (packed_chain_next _ _ _) as [[[[x|] c']|e|] h'] eqn:Hn; try done.
  all: try (destruct Hd as (Hin & -> & Hav & Hrest)).
  - destruct Hs as (-> & d' & (_ & -> & _) & -> & ->). unfold packed_after in Hn. rewrite Hnext in Hn.
    eexists. split_and!; [eapply yields_next; [exact Hn|by constructor]| |done]. cbn. by rewrite Hcount.
  - destruct Hs as (_ & _ & Hav' & _). congruence.
  - destruct Hs as (_ & Hno & _). by destruct (Hno (ring_desc h table i)).
  - destruct Hs as (-> & d' & (_ & -> & _) & -> & ->). unfold packed_after in Hn. rewrite Hnext in Hn.
    destruct (IH (U16 (count + 1))) as (c' & Hy & Hcnt & Hid).
    { unfold run_fits in *. destruct id; lia. }
    exists c'. split_and!; [by eapply yields_next|lia|done].
  - destruct Hs as (_ & _ & Hav' & _). congruence.
  - destruct Hs as (_ & Hno & _). by destruct (Hno (ring_desc h table i)).
  - destruct Hs as (_ & d' & (_ & -> & Hav & _) & _). congruence.
  - destruct Hs as (-> & _ & _ & ->). eexists. split_and!; [by constructor|cbn; lia|done].
  - destruct Hs as (_ & _ & Hno). by destruct Hno.
Qed.

(** A chain of the ring. *)
Definition good_run (h : host) (table : u64) (size : u16) (wrap : bool) (i : u16) (l : list PackedDesc)
    (c : DescriptorChain) : Prop :=
  ring_run h table size wrap i l (dc_id c) ∧ run_fits (dc_id c) (lengthZ l) size ∧
  ∃ dr dw, sorted_as (map packed_descriptor l) dr dw ∧ in_memory gm (dr ++ dw) ∧
    c = chain_of i dr dw (dc_id c) (U16 (lengthZ l)).

Lemma packed_chain_new_spec h table size wrap i :
  match DescriptorChain_new gm (PackedDescriptorChain_new table size wrap i) i h with
  | (Returns c, h') => h' = h ∧ ∃ l, good_run h table size wrap i l c
  | (Throws _, h') => h' = h ∧ ∀ l c, ¬ good_run h table size wrap i l c
  | (Aborts, _) => False
  end.
Proof using Hgm.
  pose proof (chain_new_spec gm Hgm (PackedDescriptorChain_new table size wrap i) i h) as Hspec.
  assert (Hinv : iter_inv (PackedDescriptorChain_new table size wrap i)) by apply (uint_range size).
  specialize (Hspec Hinv). destruct (DescriptorChain_new _ _ _ _) as [[c|e|] h']; [| |done].
  - destruct Hspec as (-> & ds & dr & dw & c' & Hy & Hs & Hm & ->). split; [done|].
    destruct (packed_yields_run _ _ _ _ _ _ _ _ Hy) as (l & Hl & Hle & -> & Hc).
    change (uval (U16 0)) with 0 in *. exists l. rewrite Z.add_0_l in Hle, Hc.
    split_and!; [done|done|]. exists dr, dw. split_and!; try done.
    unfold chain_of. cbn [dc_id]. f_equal. apply uint_eq. pose proof (uint_range size). pose proof (lengthZ_nonneg l).
    rewrite Hc, uval_to_uint_small; [done|]. unfold run_fits in Hle. case_match; lia.
  - destruct Hspec as [-> Hno]. split; [done|]. intros l c (Hl & Hle & dr & dw & Hs & Hm & _).
    destruct (ring_run_yields h wrap i (U16 0) size table l _ Hl) as (c2 & Hy2 & _); [done|].
    by eapply Hno.
Qed.

Lemma good_run_safe h table (size : u16) wrap (i : u16) l c :
  i < size → good_run h table size wrap i l c → chain_safe gm size c ∧ dc_index c = i ∧ uval (dc_count c) = lengthZ l.
Proof using Hgm.
  intros Hi (Hl & Hfit & dr & dw & Hs & Hm & Hc).
  assert (lengthZ l <= size) as Hle by (unfold run_fits in Hfit; case_match; lia).
  destruct (chain_streams gm _ dr dw i (dc_id c) (U16 (lengthZ l)) Hs Hm) as (Hr & Hw & Hremr & Hremw).
  rewrite <-Hc in Hr, Hw, Hremr, Hremw. pose proof (uint_range size). pose proof (lengthZ_nonneg l).
  assert (Hcnt : uval (dc_count c) = lengthZ l) by (rewrite Hc; cbn; apply uval_to_uint_small; lia).
  assert (Hne : 0 < lengthZ l).
  { destruct l; [|rewrite lengthZ_cons in *; pose proof (lengthZ_nonneg l); lia].
    destruct Hs as [Hf _]. cbn in Hf. symmetry in Hf. apply app_eq_nil in Hf as [-> ->].
    destruct Hm as [_ [Hpos _]]. done. }
  assert (Hidx : dc_index c = i) by (by rewrite Hc).
  split_and!; [|done|done]. constructor; [done|done| |by rewrite Hidx|lia].
  rewrite Hremr, Hremw, <-lengthZ_app, <-addrs_app, <-map_app. apply Hm.
Qed.

(** ** Operations *)

Record packed_ok (q : PackedQueue) : Prop := {
  po_size : 0 < pq_size q <= MAX_SIZE;
  po_avail : index_ok (pq_size q) (pq_avail_index q);
  po_use : index_ok (pq_size q) (pq_use_index q);
  po_table : fits gm (pq_desc_table q) (16 * pq_size q);
  po_driver : fits gm (pq_driver_event_suppression q) 4;
  po_device : fits gm (pq_device_event_suppression q) 4
}.

(** The address of a descriptor of the ring. *)
Lemma table_addr q (i : u16) :
  packed_ok q → i < pq_size q →
  ∃ a, GuestAddress_checked_add (pq_desc_table q) (U64 (i * 16)) = Some a ∧ uval a = pq_desc_table q + 16 * i ∧
    fits gm (pq_desc_table q + 16 * i) 16.
Proof using Hgm.
  intros Hq Hi. pose proof (fits_end gm _ _ Hgm (po_table _ Hq)). pose proof (uint_range i).
  pose proof (uint_range (pq_desc_table q)).
  assert (Hoff : uval (U64 (i * 16)) = 16 * i) by (rewrite uval_to_uint_small; cbn [Z.of_N] in *; lia).
  unfold GuestAddress_checked_add. destruct (add_checked _ _) as [a|] eqn:Ha; last first.
  { apply add_checked_None in Ha. rewrite Hoff in Ha. cbn [Z.of_N] in Ha. lia. }
  apply add_checked_Some in Ha. rewrite Hoff in Ha. exists a. split_and!; [done..|].
  eapply fits_part; [apply (po_table _ Hq)|lia..].
Qed.

Definition packed_run (h : host) (q : PackedQueue) (l : list PackedDesc) (c : DescriptorChain) : Prop :=
  good_run h (pq_desc_table q) (pq_size q) (wrap_counter (pq_avail_index q)) (pi_index (pq_avail_index q)) l c.

Lemma packed_peek_run q w :
  packed_ok q →
  packed_peek gm (q, w) =
  (if offered (ring_desc (w_host w) (pq_desc_table q) (pi_index (pq_avail_index q)))
        (wrap_counter (pq_avail_index q))
   then match DescriptorChain_new gm (PackedDescriptorChain_new (pq_desc_table q) (pq_size q)
          (wrap_counter (pq_avail_index q)) (pi_index (pq_avail_index q))) (pi_index (pq_avail_index q)) (w_host w) with
        | (Returns c, _) => Returns (Some c)
        | _ => Returns None
        end
   else Returns None, (q, w)).
Proof using Hgm.
  intros Hq. destruct (table_addr q (pi_index (pq_avail_index q)) Hq (po_avail _ Hq)) as (a & Ha & Hav & Hf).
  unfold packed_peek. erewrite bind_returns by done. cbn beta iota zeta. rewrite Ha.
  erewrite bind_returns by done.
  pose proof (read_obj_run gm Hgm (U64 16) a (w_host w)) as Hrd. change (uval (U64 16)) with 16 in Hrd.
  rewrite Hav in Hrd. specialize (Hrd Hf).
  erewrite bind_returns; last first.
  { unfold catch, on_host, with_context. by rewrite Hrd. }
  cbn beta iota. replace (MkWorld (w_host w) (w_signals w)) with w by (by destruct w).
  fold (ring_desc (w_host w) (pq_desc_table q) (pi_index (pq_avail_index q))).
  rewrite is_available_offered. destruct (offered _ _); cbn [negb]; [|done].
  pose proof (packed_chain_new_spec (w_host w) (pq_desc_table q) (pq_size q) (wrap_counter (pq_avail_index q))
    (pi_index (pq_avail_index q))) as Hspec.
  unfold packed_iter in *. unfold catch, on_host. run_prog.
  destruct (DescriptorChain_new _ _ _ _) as [[c|e|] h']; [destruct Hspec as [-> _]..|done];
    by replace (MkWorld (w_host w) (w_signals w)) with w by (by destruct w).
Qed.

Lemma packed_peek_spec q w :
  packed_ok q →
  ∃ r, packed_peek gm (q, w) = (Returns r, (q, w)) ∧
    match r with
    | Some c => ∃ l, packed_run (w_host w) q l c
    | None => ∀ l c, ¬ packed_run (w_host w) q l c
    end.
Proof using Hgm.
  intros Hq. rewrite packed_peek_run by done.
  pose proof (packed_chain_new_spec (w_host w) (pq_desc_table q) (pq_size q) (wrap_counter (pq_avail_index q))
    (pi_index (pq_avail_index q))) as Hspec.
  destruct (offered _ _) eqn:Hav.
  - destruct (DescriptorChain_new _ _ _ _) as [[c|e|] h']; [|by exists None; destruct Hspec|done].
    exists (Some c). split; [done|]. apply Hspec.
  - exists None. split; [done|]. intros l c (Hl & _ & dr & dw & Hs & [_ Hm] & _).
    inversion Hl as [? ? d (_ & -> & Hav' & _)|? ? d ? ? (_ & -> & Hav' & _)|]; subst; [congruence..|].
    destruct Hs as [Hf _]. cbn in Hf. symmetry in Hf. apply app_eq_nil in Hf as [-> ->]. by destruct Hm.
Qed.

Lemma packed_set_avail_event_run e q w :
  packed_ok q → ∃ h', packed_set_avail_event gm e (q, w) = (Returns (), (q, MkWorld h' (w_signals w))) ∧
    ∀ x, ¬ (pq_device_event_suppression q <= x < pq_device_event_suppression q + 4) →
      guest_byte gm h' x = guest_byte gm (w_host w) x.
Proof using Hgm.
  intros Hq. unfold packed_set_avail_event. erewrite bind_returns by done. cbn beta iota.
  destruct (write_bytes_run gm Hgm (le_split 2 (pe_desc e) ++ le_split 2 (pe_flag e))
    (pq_device_event_suppression q) q w) as (h' & Hrun & Hx).
  - rewrite lengthZ_app, !lengthZ_le_split. apply Hq.
  - by rewrite lengthZ_app, !lengthZ_le_split.
  - exists h'. split; [done|]. intros x Hn. rewrite Hx. apply stored_out.
    by rewrite lengthZ_app, !lengthZ_le_split.
Qed.

Lemma packed_pop_run q w :
  packed_ok q →
  ∃ r q' w', packed_pop gm (q, w) = (Returns r, (q', w')) ∧ packed_ok q' ∧
    w_signals w' = w_signals w ∧
    (∀ x, ¬ (pq_device_event_suppression q <= x < pq_device_event_suppression q + 4) →
      guest_byte gm (w_host w') x = guest_byte gm (w_host w) x) ∧
    match r with
    | None => q' = q ∧ w' = w ∧ ∀ l c, ¬ packed_run (w_host w) q l c
    | Some c => ∃ l, packed_run (w_host w) q l c ∧ chain_safe gm (pq_size q) c ∧
        pq_use_index q' = pq_use_index q ∧ pq_size q' = pq_size q ∧
        position (pq_size q) (pq_avail_index q') =
          (position (pq_size q) (pq_avail_index q) + lengthZ l) mod (2 * pq_size q)
    end.
Proof using Hgm.
  intros Hq. destruct (packed_peek_spec q w Hq) as ([c|] & Hrun & Hc); unfold packed_pop;
    erewrite bind_returns by exact Hrun; [|by exists None, q, w].
  destruct Hc as (l & Hl). destruct (good_run_safe _ _ _ _ _ _ _ (po_avail _ Hq) Hl) as (Hsafe & _ & Hcnt).
  destruct (add_index_spec (pq_size q) (pq_avail_index q) (dc_count c)) as (j & Hj & Hok & Hpos);
    [apply Hq|apply (po_size _ Hq)|apply (cs_count _ _ _ Hsafe)|].
  set (q' := set_avail_index j q). assert (Hq' : packed_ok q') by (destruct Hq; by constructor).
  assert (Hpop : ∃ w', packed_pop_peeked gm c (q, w) = (Returns (), (q', w')) ∧ w_signals w' = w_signals w ∧
    ∀ x, ¬ (pq_device_event_suppression q <= x < pq_device_event_suppression q + 4) →
      guest_byte gm (w_host w') x = guest_byte gm (w_host w) x).
  { unfold packed_pop_peeked. erewrite bind_returns by done. cbn beta iota. rewrite Hj.
    erewrite bind_returns by done. erewrite bind_returns by done. destruct (event_idx_enabled _).
    - destruct (packed_set_avail_event_run (to_desc j) q' w Hq') as (h' & Hset & Hx).
      eexists. split_and!; [exact Hset|done|exact Hx].
    - by exists w. }
  destruct Hpop as (w' & Hpop & Hsig & Hx). exists (Some c), q', w'. erewrite bind_returns by exact Hpop.
  split_and!; [done..|]. exists l. split_and!; try done. by rewrite <-Hcnt.
Qed.

(** C33. Popping from a packed queue whose table and event areas are in guest memory
    never panics, whatever the driver writes.  A chain is popped exactly if the
    descriptors at the position of the device form one: a run of consecutive
    descriptors that the driver offers, by the flags of each and the wrap counter,
    up to one without the flag NEXT or one that is not offered, with their buffers in
    guest memory and those to read before those to write.  The position advances by
    their number in a ring of twice the size, so that index and wrap counter stay in
    step with the driver; otherwise nothing changes.  Nothing is written but the event
    area of the device. *)
Theorem packed_pop_spec q w :
  packed_ok q →
  ∃ r q' w', packed_pop gm (q, w) = (Returns r, (q', w')) ∧ packed_ok q' ∧
    w_signals w' = w_signals w ∧
    (∀ x, ¬ (pq_device_event_suppression q <= x < pq_device_event_suppression q + 4) →
      guest_byte gm (w_host w') x = guest_byte gm (w_host w) x) ∧
    match r with
    | None => q' = q ∧ w' = w ∧ ∀ l c, ¬ packed_run (w_host w) q l c
    | Some c => ∃ l, packed_run (w_host w) q l c ∧ chain_safe gm (pq_size q) c ∧
        pq_use_index q' = pq_use_index q ∧ pq_size q' = pq_size q ∧
        position (pq_size q) (pq_avail_index q') =
          (position (pq_size q) (pq_avail_index q) + lengthZ l) mod (2 * pq_size q)
    end.
Proof using Hgm. apply packed_pop_run. Qed.

(** ** Using *)

Lemma stored_app (m : Z → option u8) a b1 b2 x :
  stored (stored m a b1) (a + lengthZ b1) b2 x = stored m a (b1 ++ b2) x.
Proof.
  unfold stored. rewrite lengthZ_app. pose proof (lengthZ_nonneg b1). pose proof (lengthZ_nonneg b2).
  destruct (Z.leb_spec (a + lengthZ b1) x), (Z.ltb_spec x (a + lengthZ b1 + lengthZ b2)),
    (Z.leb_spec a x), (Z.ltb_spec x (a + lengthZ b1)), (Z.ltb_spec x (a + (lengthZ b1 + lengthZ b2)));
    cbn [andb]; try lia; try done.
  - rewrite lookup_app_r by (unfold lengthZ in *; lia). f_equal. unfold lengthZ in *. lia.
  - rewrite lookup_app_l; [done|]. unfold lengthZ in *. lia.
Qed.

Lemma stored_ext (m m' : Z → option u8) a bs x : (∀ x, m x = m' x) → stored m a bs x = stored m' a bs x.
Proof. intros Hm. unfold stored. by rewrite Hm. Qed.

(** The bytes of a used descriptor after its address. *)
Definition used_desc_bytes (len : u32) (id : u16) (wrap : bool) : list u8 :=
  le_split 4 len ++ le_split 2 id ++ le_split 2 (used_flags wrap len).

Lemma lengthZ_used_desc len id wrap : lengthZ (used_desc_bytes len id wrap) = 8.
Proof. unfold used_desc_bytes. by rewrite !lengthZ_app, !lengthZ_le_split. Qed.

Lemma packed_add_used_run q w c len id :
  packed_ok q → dc_index c < pq_size q → dc_count c <= pq_size q → dc_id c = Some id →
  ∃ j h', packed_add_used gm c len (q, w) = (Returns (), (set_use_index j q, MkWorld h' (w_signals w))) ∧
    add_index (pq_use_index q) (dc_count c) (pq_size q) = Some j ∧ index_ok (pq_size q) j ∧
    position (pq_size q) j = (position (pq_size q) (pq_use_index q) + dc_count c) mod (2 * pq_size q) ∧
    ∀ x, guest_byte gm h' x = stored (guest_byte gm (w_host w))
      (pq_desc_table q + 16 * pi_index (pq_use_index q) + 8)
      (used_desc_bytes len id (wrap_counter (pq_use_index q))) x.
Proof using Hgm.
  intros Hq Hidx Hcnt Hid. set (i := pi_index (pq_use_index q)).
  destruct (table_addr q i Hq (po_use _ Hq)) as (a & Ha & Hav & Hf).
  pose proof (fits_end gm _ _ Hgm Hf). pose proof (uint_range a).
  destruct (add_index_spec (pq_size q) (pq_use_index q) (dc_count c)) as (j & Hj & Hok & Hpos);
    [apply Hq|apply (po_size _ Hq)|done|].
  assert (H8 : ∃ a8, add_checked a (U64 8) = Some a8 ∧ uval a8 = a + 8).
  { destruct (add_checked a (U64 8)) as [a8|] eqn:He; [apply add_checked_Some in He; by exists a8|].
    apply add_checked_None in He. change (uval (U64 8)) with 8 in He. cbn [Z.of_N] in He. lia. }
  assert (H12 : ∃ a12, add_checked a (U64 12) = Some a12 ∧ uval a12 = a + 12).
  { destruct (add_checked a (U64 12)) as [a12|] eqn:He; [apply add_checked_Some in He; by exists a12|].
    apply add_checked_None in He. change (uval (U64 12)) with 12 in He. cbn [Z.of_N] in He. lia. }
  destruct H8 as (a8 & H8 & Hv8), H12 as (a12 & H12 & Hv12).
  assert (Hv14 : uval (unchecked_add a (U64 14)) = a + 14).
  { unfold unchecked_add. rewrite uadd_small; change (uval (U64 14)) with 14; [done|]. cbn [Z.of_N]. lia. }
  destruct (write_bytes_run gm Hgm (le_split 4 len) a8 q w) as (h1 & Hw1 & Hx1);
    [rewrite lengthZ_le_split; eapply fits_part; [exact Hf|lia..]|by rewrite lengthZ_le_split|].
  destruct (write_bytes_run gm Hgm (le_split 2 id) a12 q (MkWorld h1 (w_signals w))) as (h2 & Hw2 & Hx2);
    [rewrite lengthZ_le_split; eapply fits_part; [exact Hf|lia..]|by rewrite lengthZ_le_split|].
  destruct (write_bytes_run gm Hgm (le_split 2 (used_flags (wrap_counter (pq_use_index q)) len))
    (unchecked_add a (U64 14)) q (MkWorld h2 (w_signals w))) as (h3 & Hw3 & Hx3);
    [rewrite lengthZ_le_split; eapply fits_part; [exact Hf|lia..]|by rewrite lengthZ_le_split|].
  exists j, h3. split_and!; try done.
  - unfold packed_add_used. erewrite bind_returns by done. cbn beta iota.
    destruct (Z.leb_spec (pq_size q) (dc_index c)); [lia|]. rewrite Hid. erewrite bind_returns by done.
    fold i. rewrite Ha. erewrite bind_returns by done. unfold GuestAddress_checked_add. rewrite H8.
    erewrite bind_returns by done. erewrite bind_returns by exact Hw1. rewrite H12.
    erewrite bind_returns by done. erewrite bind_returns by exact Hw2. cbn zeta.
    erewrite bind_returns by exact Hw3. erewrite bind_returns by done. cbn beta iota. by rewrite Hj.
  - set (b := pq_desc_table q + 16 * i + 8). set (l1 := le_split 4 len). set (l2 := le_split 2 id).
    assert (Hy : ∀ y, guest_byte gm h2 y = stored (guest_byte gm (w_host w)) b (l1 ++ l2) y).
    { intros y. rewrite Hx2, Hv12, <-stored_app. cbn [w_host].
      replace (uval a + 12) with (b + lengthZ l1) by (unfold l1; rewrite lengthZ_le_split; lia).
      apply stored_ext. intros z. rewrite Hx1, Hv8. by replace (uval a + 8) with b by lia. }
    intros x. rewrite Hx3, Hv14. cbn [w_host]. erewrite stored_ext by exact Hy.
    replace (uval a + 14) with (b + lengthZ (l1 ++ l2)).
    + rewrite stored_app, <-app_assoc. done.
    + unfold l1, l2. rewrite lengthZ_app, !lengthZ_le_split. lia.
Qed.

(** Both flags of a used descriptor are the wrap counter: it is not available. *)
Lemma used_flags_spec wrap len :
  has_flag (used_flags wrap len) VIRTQ_DESC_F_AVAIL = wrap ∧ has_flag (used_flags wrap len) VIRTQ_DESC_F_USED = wrap.
Proof. unfold used_flags. by destruct wrap, (0 <? uval len). Qed.

Lemma guest_bytes_halves h a : guest_bytes gm h a 16 = guest_bytes gm h a 8 ++ guest_bytes gm h (a + 8) 8.
Proof. exact (guest_bytes_app gm h a 8 8 ltac:(done) ltac:(done)). Qed.

(** The fields of a used descriptor. *)
Lemma used_desc_fields (b : list u8) (len : u32) (id : u16) wrap :
  lengthZ b = 8 →
  PackedDesc_of (b ++ used_desc_bytes len id wrap) =
  MkPackedDesc (U64 (le_combine b)) len id (used_flags wrap len).
Proof.
  intros Hb. unfold PackedDesc_of, used_desc_bytes. f_equal.
  - by rewrite le_field_here by done.
  - rewrite le_field_skip, Hb by lia. rewrite le_field_here by (by rewrite lengthZ_le_split).
    rewrite (to_uint_combine_split 4 32) by done. apply to_uint_uval.
  - rewrite !le_field_skip, Hb, !lengthZ_le_split by (rewrite ?Hb, ?lengthZ_le_split; lia).
    rewrite le_field_here by (by rewrite lengthZ_le_split).
    rewrite (to_uint_combine_split 2 16) by done. apply to_uint_uval.
  - rewrite !le_field_skip, Hb, !lengthZ_le_split by (rewrite ?Hb, ?lengthZ_le_split; lia).
    rewrite <-(app_nil_r (le_split 2 (used_flags wrap len))).
    rewrite le_field_here by (by rewrite lengthZ_le_split).
    rewrite (to_uint_combine_split 2 16) by done. apply to_uint_uval.
Qed.

(** Using a chain of a packed queue writes its length, its buffer id and the
    flags of a used descriptor to the descriptor at the position of the device,
    and nothing else: the driver finds both flags equal to the wrap counter, the
    device finds the descriptor unavailable whatever its own counter, and the
    position advances by the number of descriptors of the chain. *)
Theorem packed_add_used_spec q w c len id :
  packed_ok q → dc_index c < pq_size q → dc_count c <= pq_size q → dc_id c = Some id →
  let i := pi_index (pq_use_index q) in
  let wrap := wrap_counter (pq_use_index q) in
  ∃ q' w', packed_add_used gm c len (q, w) = (Returns (), (q', w')) ∧ packed_ok q' ∧
    w_signals w' = w_signals w ∧
    ring_desc (w_host w') (pq_desc_table q) i =
      MkPackedDesc (pd_addr (ring_desc (w_host w) (pq_desc_table q) i)) len id (used_flags wrap len) ∧
    has_flag (used_flags wrap len) VIRTQ_DESC_F_AVAIL = wrap ∧
    has_flag (used_flags wrap len) VIRTQ_DESC_F_USED = wrap ∧
    (∀ counter, offered (ring_desc (w_host w') (pq_desc_table q) i) counter = false) ∧
    (∀ x, ¬ (pq_desc_table q + 16 * i + 8 <= x < pq_desc_table q + 16 * i + 16) →
       guest_byte gm (w_host w') x = guest_byte gm (w_host w) x) ∧
    position (pq_size q) (pq_use_index q') =
      (position (pq_size q) (pq_use_index q) + dc_count c) mod (2 * pq_size q).
Proof using Hgm.
  intros Hq Hidx Hcnt Hid i wrap.
  destruct (packed_add_used_run q w c len id Hq Hidx Hcnt Hid) as (j & h' & Hrun & _ & Hok & Hpos & Hx).
  fold i wrap in Hx. set (slot := pq_desc_table q + 16 * i) in *.
  destruct (used_flags_spec wrap len) as [Hfa Hfu].
  assert (Hout : ∀ x, ¬ (slot + 8 <= x < slot + 16) → guest_byte gm h' x = guest_byte gm (w_host w) x).
  { intros x Hn. rewrite Hx. apply stored_out. rewrite lengthZ_used_desc. lia. }
  assert (Hbytes : guest_bytes gm h' slot 16 = guest_bytes gm (w_host w) slot 8 ++ used_desc_bytes len id wrap).
  { rewrite (guest_bytes_halves h'). f_equal.
    - apply guest_bytes_ext. intros x Hin. apply Hout. lia.
    - rewrite <-(lengthZ_used_desc len id wrap). apply (stored_bytes gm (w_host w)). intros x _. apply Hx. }
  assert (Haddr : pd_addr (ring_desc (w_host w) (pq_desc_table q) i) = U64 (le_combine (guest_bytes gm (w_host w) slot 8))).
  { unfold ring_desc. fold slot. rewrite (guest_bytes_halves (w_host w)). cbn [PackedDesc_of pd_addr].
    by rewrite le_field_here by (by rewrite guest_bytes_length). }
  assert (Hd : ring_desc h' (pq_desc_table q) i =
    MkPackedDesc (pd_addr (ring_desc (w_host w) (pq_desc_table q) i)) len id (used_flags wrap len)).
  { rewrite Haddr. unfold ring_desc. fold slot. rewrite Hbytes. apply used_desc_fields. by apply guest_bytes_length. }
  exists (set_use_index j q), (MkWorld h' (w_signals w)). cbn [w_host w_signals].
  split_and!; [exact Hrun| |reflexivity|exact Hd|exact Hfa|exact Hfu| |exact Hout|exact Hpos].
  - destruct Hq. by constructor.
  - intros counter. rewrite Hd, <- is_available_offered. unfold is_available. cbn [pd_flags]. rewrite Hfa, Hfu. by destruct wrap.
Qed.

(** The chain of a descriptor with the next flag that the next descriptor cuts
    short. *)
Lemma packed_cut_chain h table (size : u16) wrap (i : u16) d :
  i + 1 < size → ring_entry h table size wrap i d → has_next d = true → in_ring table size (U16 (i + 1)) →
  offered (ring_desc h table (U16 (i + 1))) wrap = false → fits gm (pd_addr d) (pd_len d) →
  ∃ c, DescriptorChain_new gm (PackedDescriptorChain_new table size wrap i) i h = (Returns c, h) ∧
    dc_id c = None ∧ dc_index c = i.
Proof using Hgm.
  intros Hi Hd Hnext Hr1 Hcut Hfit. pose proof (uint_range i). pose proof (uint_range size).
  set (c0 := PackedDescriptorChain_new table size wrap i).
  set (c1 := MkPackedChain wrap (Some (U16 (i + 1))) (U16 (0 + 1)) None size table).
  assert (Hy : yields h c0 [packed_descriptor d] c1).
  { eapply (yields_next _ _ _ c1).
    - pose proof (packed_next_step wrap i (U16 0) size None table h ltac:(lia) ltac:(change (uval (U16 0)) with 0; lia)) as Hs.
      cbn [iter_next packed_iter packed_chain_iter]. unfold c0, PackedDescriptorChain_new.
      destruct (packed_chain_next _ _ _) as [[[[x|] c']|e|] h']; [| | |done].
      + destruct Hs as (-> & d' & Hd' & -> & ->). destruct Hd as (_ & -> & _), Hd' as (_ & -> & _).
        unfold packed_after, succ_wrap, succ_index. rewrite Hnext. by destruct (Z.ltb_spec (i + 1) size); [|lia].
      + destruct Hs as (_ & _ & Hav & _), Hd as (_ & -> & Hav' & _). congruence.
      + destruct Hs as (_ & Hno & _). by destruct (Hno d).
    - constructor. pose proof (packed_next_step wrap (U16 (i + 1)) (U16 (0 + 1)) size None table h
        (proj1 Hr1) ltac:(change (uval (U16 (0 + 1))) with 1; lia)) as Hs.
      cbn [iter_next packed_iter packed_chain_iter]. unfold c1.
      destruct (packed_chain_next _ _ _) as [[[[x|] c']|e|] h']; [| | |done].
      + destruct Hs as (_ & d' & (_ & -> & Hav & _) & _). congruence.
      + by destruct Hs as (-> & _ & _ & ->).
      + destruct Hs as (_ & _ & Hno). by destruct Hno. }
  assert (Hlen : uval (U64 (pd_len d)) = pd_len d).
  { apply uval_to_uint_small. pose proof (uint_range (pd_len d)). cbn [Z.of_N] in *. lia. }
  assert (Hmem : in_memory gm [packed_descriptor d]).
  { split; [repeat constructor; unfold region_in; cbn; by rewrite Hlen|]. unfold total_len. cbn [map].
    rewrite addrs_cons, app_nil_r, lengthZ_region_addrs. cbn. rewrite Hlen.
    destruct Hd as (_ & _ & _ & Hz & _). pose proof (uint_range (pd_len d)). cbn [Z.of_N] in *. lia. }
  assert (Hsort : ∃ dr dw, sorted_as [packed_descriptor d] dr dw ∧ dr ++ dw = [packed_descriptor d]).
  { assert (Hne : nonempty (packed_descriptor d) = true).
    { destruct Hd as (_ & _ & _ & Hz & _). unfold nonempty. cbn. by destruct (Z.eqb_spec (uval (pd_len d)) 0). }
    destruct (de_access (packed_descriptor d)) eqn:Hacc;
      [exists [packed_descriptor d], []|exists [], [packed_descriptor d]];
      (split; [|done]); (split_and!; [cbn [List.filter]; by rewrite Hne|repeat constructor; done..]). }
  destruct Hsort as (dr & dw & Hsort & Happ).
  pose proof (chain_new_spec gm Hgm c0 i h (proj1 (uint_range size))) as Hspec.
  destruct (DescriptorChain_new gm c0 i h) as [[c|e|] h']; [| |done].
  - destruct Hspec as (-> & ds & dr' & dw' & c' & Hy' & _ & _ & ->).
    destruct (yields_det _ _ _ _ _ _ Hy Hy') as [_ <-]. eexists. by split_and!.
  - destruct Hspec as [_ Hno]. destruct (Hno _ _ _ _ Hy Hsort). by rewrite Happ.
Qed.

(** A chain of a packed queue that is cut short has no buffer id: if the
    driver makes a descriptor with the next flag available but not the one after
    it, the chain is popped like any other, and using it panics. *)
Theorem packed_cut_chain_aborts q w d len :
  packed_ok q →
  let i := pi_index (pq_avail_index q) in
  let wrap := wrap_counter (pq_avail_index q) in
  i + 1 < pq_size q →
  ring_entry (w_host w) (pq_desc_table q) (pq_size q) wrap i d → has_next d = true →
  offered (ring_desc (w_host w) (pq_desc_table q) (U16 (i + 1))) wrap = false →
  fits gm (pd_addr d) (pd_len d) →
  ∃ c q' w', packed_pop gm (q, w) = (Returns (Some c), (q', w')) ∧ dc_id c = None ∧
    ∃ s, packed_add_used gm c len (q', w') = (Aborts, s).
Proof using Hgm.
  intros Hq i wrap Hi Hd Hnext Hcut Hfit. pose proof (uint_range i). pose proof (uint_range (pq_size q)).
  assert (Hi1 : uval (U16 (i + 1)) = i + 1) by (apply uval_to_uint_small; lia).
  assert (Hr1 : in_ring (pq_desc_table q) (pq_size q) (U16 (i + 1))).
  { split; [lia|]. by destruct (table_addr q (U16 (i + 1)) Hq ltac:(lia)) as (? & _ & _ & ?). }
  destruct (packed_cut_chain _ _ _ _ _ _ Hi Hd Hnext Hr1 Hcut Hfit) as (c & Hnew & Hid & Hidx).
  assert (Hpeek : packed_peek gm (q, w) = (Returns (Some c), (q, w))).
  { rewrite packed_peek_run by done. fold i wrap. destruct Hd as (_ & -> & -> & _). by rewrite Hnew. }
  destruct (packed_pop_run q w Hq) as (r & q' & w' & Hrun & Hq' & _ & _ & Hr).
  assert (r = Some c) as ->.
  { unfold packed_pop in Hrun. rewrite (bind_returns _ _ _ _ _ Hpeek) in Hrun. run_prog in Hrun.
    by destruct (packed_pop_peeked gm c (q, w)) as [[]?]; simplify_eq. }
  destruct Hr as (l & _ & _ & _ & Hsize & _). exists c, q', w'. split_and!; [done..|].
  eexists. unfold packed_add_used. erewrite bind_returns by done. cbn beta iota. rewrite Hsize, Hidx.
  destruct (Z.leb_spec (pq_size q) i); [lia|]. by rewrite Hid.
Qed.

(** ** Interrupts *)

Definition driver_event (h : host) (q : PackedQueue) : PackedDescEvent :=
  PackedDescEvent_of (guest_bytes gm h (pq_driver_event_suppression q) 4).

Lemma get_driver_event_run q w :
  packed_ok q → get_driver_event gm (q, w) = (Returns (driver_event (w_host w) q), (q, w)).
Proof using Hgm.
  intros Hq. unfold get_driver_event. erewrite bind_returns by done. cbn beta iota.
  erewrite bind_returns; last first.
  { apply on_host_run. unfold unwrap.
    by rewrite (read_obj_run gm Hgm (U64 4) (pq_driver_event_suppression q) _ (po_driver _ Hq)). }
  by destruct w.
Qed.

(** The device always interrupts the driver of a packed queue: also if the
    driver has disabled interrupts, in which case the [match] computes that no
    notification is due and its value is dropped. *)
Theorem packed_always_interrupts q w :
  packed_ok q →
  (∃ q' w', packed_trigger_interrupt gm (q, w) = (Returns true, (q', w')) ∧
     w_signals w' = pq_vector q :: w_signals w ∧ w_host w' = w_host w) ∧
  (pe_flag (driver_event (w_host w) q) = RING_EVENT_FLAGS_DISABLE →
     notification_due gm (q, w) = (Returns false, (q, w))).
Proof using Hgm.
  intros Hq. pose proof (get_driver_event_run q w Hq) as Hrun.
  assert (Hdue : ∃ b j, notification_due gm (q, w) = (Returns b, (set_signalled_used_index j q, w))).
  { unfold notification_due. erewrite bind_returns by exact Hrun. erewrite bind_returns by done. cbn beta iota.
    assert (Hq0 : q = set_signalled_used_index (pq_signalled_used_index q) q) by (by destruct q).
    destruct (notification_type _); [eexists _, (pq_signalled_used_index q); by rewrite <-Hq0..|].
    destruct (event_idx_enabled (pq_features q)); cbn [negb];
      [by eexists _, _|eexists _, (pq_signalled_used_index q); by rewrite <-Hq0]. }
  split.
  - destruct Hdue as (b & j & Hdue). eexists _, _. unfold packed_trigger_interrupt, packed_wants_interrupt.
    erewrite bind_returns by (by erewrite bind_returns by exact Hdue). by split_and!.
  - intros Hf. unfold notification_due. erewrite bind_returns by exact Hrun. erewrite bind_returns by done.
    unfold notification_type. by rewrite Hf, Z.eqb_refl.
Qed.
End packed.

(** ** Configuration *)

Inductive config_op :=
  | OpSetSize (v : u16)
  | OpSetVector (v : u16)
  | OpSetDescTable (v : u64)
  | OpSetAvailRing (v : u64)
  | OpSetUsedRing (v : u64)
  | OpSetNextAvail (v : u16)
  | OpSetNextUsed (v : u16)
  | OpAckFeatures (v : u64)
  | OpSetReady (b : bool)
  | OpActivate (event : Event)
  | OpReset.

Definition config_step (c : QueueConfig) (op : config_op) : QueueConfig :=
  match op with
  | OpSetSize v => QueueConfig_set_size v c
  | OpSetVector v => QueueConfig_set_vector v c
  | OpSetDescTable v => QueueConfig_set_desc_table v c
  | OpSetAvailRing v => QueueConfig_set_avail_ring v c
  | OpSetUsedRing v => QueueConfig_set_used_ring v c
  | OpSetNextAvail v => QueueConfig_set_next_avail v c
  | OpSetNextUsed v => QueueConfig_set_next_used v c
  | OpAckFeatures v => QueueConfig_ack_features v c
  | OpSetReady b => QueueConfig_set_ready b c
  | OpActivate event => match activate c event with Returns (_, c') => c' | _ => c end
  | OpReset => QueueConfig_reset c
  end.

(** The setters of the size, the vector, the areas and the first indices. *)
Definition is_setter (op : config_op) : bool :=
  match op with OpAckFeatures _ | OpSetReady _ | OpActivate _ | OpReset => false | _ => true end.

Definition is_reset (op : config_op) : bool :=
  match op with OpReset => true | _ => false end.

Record config_ok (m : u16) (f : u64) (c : QueueConfig) : Prop := {
  co_max : qc_max_size c = m;
  co_size : qc_size c <= m;
  co_limit : 0 < m <= MAX_SIZE;
  co_features : qc_features c = f;
  co_acked : ∀ n, bit (qc_acked_features c) n = true → bit f n = true
}.

(** Activation only marks the configuration as activated. *)
Definition mark_activated (c : QueueConfig) : QueueConfig :=
  MkConfig true (qc_max_size c) (qc_size c) (qc_ready c) (qc_vector c) (qc_features c) (qc_acked_features c)
    (qc_desc_table c) (qc_avail_ring c) (qc_used_ring c) (qc_next_avail c) (qc_next_used c).

Lemma activate_marks c event q c' : activate c event = Returns (q, c') → c' = mark_activated c.
Proof.
  unfold activate, mark_activated. intros Hact.
  destruct (qc_ready c); [|done]. destruct (qc_activated c); [done|]. destruct (negb (Z.land _ _ =? 0)).
  - destruct (PackedQueue_new c event); [|done..]. by injection Hact.
  - destruct (SplitQueue_new c event); [|done..]. by injection Hact.
Qed.

Lemma config_step_ok m f c op : config_ok m f c → config_ok m f (config_step c op).
Proof.
  intros [Hm Hs Hl Hf Ha]. destruct op as [v|v|v|v|v|v|v|v|b|ev|]; cbn [config_step];
    unfold QueueConfig_set_size, QueueConfig_set_vector, QueueConfig_set_desc_table, QueueConfig_set_avail_ring,
      QueueConfig_set_used_ring, QueueConfig_set_next_avail, QueueConfig_set_next_used;
    try (destruct (qc_ready c); constructor; cbn; done).
  - destruct (qc_ready c); [by constructor|]. destruct (Z.ltb_spec (qc_max_size c) v); [by constructor|].
    constructor; cbn; try done. by rewrite <-Hm.
  - constructor; cbn; try done. intros n. rewrite bit_or, bit_and, orb_true_iff, andb_true_iff, Hf. naive_solver.
  - destruct (activate c ev) as [[q c']|e|] eqn:Hact; [|by constructor..].
    apply activate_marks in Hact as ->. by constructor.
  - constructor; cbn; try done; [by rewrite Hm|]. intros n. by rewrite bit_zero.
Qed.

Lemma config_reachable m f c0 ops :
  QueueConfig_new m f = Some c0 → config_ok m f (foldl config_step c0 ops).
Proof.
  intros Hnew. assert (H0 : config_ok m f c0).
  { unfold QueueConfig_new in Hnew. destruct (Z.ltb_spec 0 m), (Z.leb_spec m MAX_SIZE); simplify_eq/=.
    constructor; cbn; try done. intros n. by rewrite bit_zero. }
  clear Hnew. revert c0 H0. induction ops as [|op ops IH]; intros c0 H0; [done|]. by apply IH, config_step_ok.
Qed.

(** Without a reset, an activated configuration stays activated. *)
Lemma activated_stays c ops :
  qc_activated c = true → existsb is_reset ops = false → qc_activated (foldl config_step c ops) = true.
Proof.
  revert c. induction ops as [|op ops IH]; intros c Ha Hno; [done|]. cbn in Hno.
  apply orb_false_iff in Hno as [Hop Hno]. apply IH; [|done].
  destruct op as [v|v|v|v|v|v|v|v|b|ev|]; try done; cbn;
    unfold QueueConfig_set_size, QueueConfig_set_vector, QueueConfig_set_desc_table, QueueConfig_set_avail_ring,
      QueueConfig_set_used_ring, QueueConfig_set_next_avail, QueueConfig_set_next_used;
    try (repeat case_match; done).
  destruct (activate c ev) as [[q c']|e|] eqn:Hact; [|done..]. by apply activate_marks in Hact as ->.
Qed.

Lemma areas_in_bounds_spec l :
  if areas_in_bounds l then ∀ a n : u64, (a, n) ∈ l → a + n < 2 ^ 64
  else ∃ a n : u64, (a, n) ∈ l ∧ 2 ^ 64 <= a + n.
Proof.
  unfold areas_in_bounds. induction l as [|[a n] l IH]; [by intros ? ? ?%not_elem_of_nil|]. cbn [forallb].
  assert (Hc : bool_decide (is_Some (GuestAddress_checked_add a n)) = true ↔ a + n < 2 ^ 64).
  { rewrite bool_decide_eq_true. unfold GuestAddress_checked_add. split.
    - intros [b Hb]. apply add_checked_Some in Hb. pose proof (uint_range b). cbn [Z.of_N] in *. lia.
    - intros Hlt. destruct (add_checked a n) eqn:E; [by eexists|]. apply add_checked_None in E.
      cbn [Z.of_N] in E. lia. }
  destruct (bool_decide _); cbn [andb].
  - destruct (forallb _ l).
    + intros a' n' [[= -> ->]|Hin]%elem_of_cons; [by apply Hc|by apply IH].
    + destruct IH as (a' & n' & Hin & Hle). exists a', n'. split; [by right|done].
  - exists a, n. split; [by left|]. destruct (Z.lt_ge_cases (a + n) (2 ^ 64)) as [Hlt|]; [|done].
    by apply Hc in Hlt.
Qed.

Lemma packed_bit (x : u64) : (Z.land (Z.shiftr x VIRTIO_F_RING_PACKED) 1 =? 0) = negb (bit x VIRTIO_F_RING_PACKED).
Proof.
  change 1 with (Z.ones 1). rewrite Z.land_ones by lia. change (2 ^ 1) with 2.
  rewrite Zmod_odd, <-Z.bit0_odd, Z.shiftr_spec by lia. unfold bit. rewrite Z.add_0_l.
  by destruct (Z.testbit x VIRTIO_F_RING_PACKED).
Qed.

(** The driver has accepted the packed layout: feature bit 34. *)
Definition wants_packed (c : QueueConfig) : bool := bit (qc_acked_features c) 34.

(** The areas the driver has to provide: their addresses and their lengths. *)
Definition areas (c : QueueConfig) : list (Z * Z) :=
  if wants_packed c then
    [(uval (qc_desc_table c), 16 * qc_size c); (uval (qc_avail_ring c), 4); (uval (qc_used_ring c), 4)]
  else [(uval (qc_desc_table c), 16 * qc_size c); (uval (qc_avail_ring c), 6 + 2 * qc_size c);
        (uval (qc_used_ring c), 6 + 8 * qc_size c)].

(** No area goes beyond the last address. *)
Definition areas_end (c : QueueConfig) : Prop := ∀ a n, (a, n) ∈ areas c → a + n < 2 ^ 64.

(** The queue a configuration is activated to. *)
Definition activated_as (c : QueueConfig) (event : Event) (q : Queue) : Prop :=
  match q with
  | SplitVirtQueue q =>
      wants_packed c = false ∧ (∃ k, 0 <= k ∧ uval (qc_size c) = 2 ^ k) ∧
      q = MkSplit event (qc_size c) (qc_vector c) (qc_desc_table c) (qc_avail_ring c) (qc_used_ring c)
            (qc_next_avail c) (qc_next_used c) (qc_acked_features c) (qc_next_used c) ∧
      ∀ gm, (∀ a n, (a, n) ∈ areas c → fits gm a n) → queue_ok gm q
  | PackedVirtQueue q =>
      wants_packed c = true ∧
      q = MkPacked event (qc_size c) (qc_vector c) (MkIndex true (U16 0)) (MkIndex true (U16 0))
            (MkIndex true (U16 0)) (qc_acked_features c) (qc_desc_table c) (qc_used_ring c) (qc_avail_ring c) ∧
      ∀ gm, 0 < qc_size c → (∀ a n, (a, n) ∈ areas c → fits gm a n) → packed_ok gm q
  end.

(** What makes the activation fail. *)
Definition refused (c : QueueConfig) (e : QueueError) : Prop :=
  match e with
  | NonReadyQueue => qc_ready c = false
  | AlreadyActivated => qc_ready c = true ∧ qc_activated c = true
  | SizeNotPowerOfTwo => wants_packed c = false ∧ ¬ ∃ k, 0 <= k ∧ uval (qc_size c) = 2 ^ k
  | AreaOutOfBounds => ∃ a n, (a, n) ∈ areas c ∧ 2 ^ 64 <= a + n
  | _ => False
  end.

Lemma packed_new_spec c event :
  wants_packed c = true → 0 <= qc_size c <= MAX_SIZE →
  match PackedQueue_new c event with
  | Returns q => areas_end c ∧ activated_as c event (PackedVirtQueue q)
  | Throws e => refused c e
  | Aborts => False
  end.
Proof.
  intros Hw Hs. unfold PackedQueue_new. cbv zeta.
  pose proof (areas_in_bounds_spec (area_sizes (qc_size c) (qc_desc_table c) (qc_avail_ring c) (qc_used_ring c))) as Hb.
  unfold area_sizes in *. assert (uval (U64 (16 * qc_size c)) = 16 * qc_size c) as Hl.
  { apply uval_to_uint_small. change (uval MAX_SIZE) with 32768 in Hs. cbn [Z.of_N]. lia. }
  destruct (areas_in_bounds _); cbn [negb].
  - split.
    + unfold areas_end, areas. rewrite Hw. intros a n Hin. rewrite !elem_of_cons in Hin.
      destruct Hin as [[= -> ->]|[[= -> ->]|[[= -> ->]|[]%not_elem_of_nil]]].
      * rewrite <- Hl. apply Hb. set_solver.
      * apply (Hb _ (U64 4)). set_solver.
      * apply (Hb _ (U64 4)). set_solver.
    + split_and!; [done|done|]. unfold areas. rewrite Hw. intros gm Hpos Hfit.
      constructor; cbn; try done; try apply Hfit; try set_solver.
  - cbn. unfold areas. rewrite Hw. destruct Hb as (a & n & Hin & Hle). exists (uval a), (uval n). split; [|done].
    rewrite !elem_of_cons in Hin. rewrite !elem_of_cons, <- Hl.
    destruct Hin as [[= -> ->]|[[= -> ->]|[[= -> ->]|[]%not_elem_of_nil]]]; auto.
Qed.

Lemma split_new_spec c event :
  wants_packed c = false → 0 <= qc_size c <= MAX_SIZE →
  match SplitQueue_new c event with
  | Returns q => areas_end c ∧ activated_as c event (SplitVirtQueue q)
  | Throws e => refused c e
  | Aborts => False
  end.
Proof.
  intros Hw Hs. unfold SplitQueue_new. cbv zeta. change (uval MAX_SIZE) with 32768 in Hs.
  destruct (is_power_of_two (qc_size c)) eqn:Hp; cbn [negb]; last first.
  { split; [done|]. intros Hk%power_of_two_spec. congruence. }
  pose proof (areas_in_bounds_spec (ring_sizes (qc_size c) (qc_desc_table c) (qc_avail_ring c) (qc_used_ring c))) as Hb.
  unfold ring_sizes in *.
  assert (uval (U64 (16 * qc_size c)) = 16 * qc_size c ∧ uval (U64 (6 + 2 * qc_size c)) = 6 + 2 * qc_size c ∧
    uval (U64 (6 + 8 * qc_size c)) = 6 + 8 * qc_size c) as (Hl1 & Hl2 & Hl3).
  { split_and!; apply uval_to_uint_small; cbn [Z.of_N]; lia. }
  destruct (areas_in_bounds _); cbn [negb].
  - split.
    + unfold areas_end, areas. rewrite Hw. intros a n Hin. rewrite !elem_of_cons in Hin.
      destruct Hin as [[= -> ->]|[[= -> ->]|[[= -> ->]|[]%not_elem_of_nil]]];
        [rewrite <- Hl1|rewrite <- Hl2|rewrite <- Hl3]; apply Hb; set_solver.
    + split_and!; [done|by apply power_of_two_spec|done|]. unfold areas. rewrite Hw. intros gm Hfit.
      constructor; cbn; try done; try apply Hfit; try set_solver.
  - cbn. unfold areas. rewrite Hw. destruct Hb as (a & n & Hin & Hle). exists (uval a), (uval n). split; [|done].
    rewrite !elem_of_cons in Hin. rewrite !elem_of_cons, <- Hl1, <- Hl2, <- Hl3.
    destruct Hin as [[= -> ->]|[[= -> ->]|[[= -> ->]|[]%not_elem_of_nil]]]; auto.
Qed.

(** C34. The configuration of a queue, after any operations on it: its size is at most
    what the device offers, and the features accepted are among those offered; while
    the driver has it declared ready, the setters of size, vector, areas and first
    indices change nothing (the features accepted can still grow).  The activation
    fails exactly if the queue is not ready, has been activated, has a size that is no
    power of two (a split queue) or an area beyond the last address; otherwise it gives
    a queue of the layout the driver accepted, with the configured parameters, which is
    well-formed for a memory that has its areas (and a size above 0 for a packed
    queue).  Until the next reset every further activation fails. *)
Theorem activation_spec m f c0 ops event :
  QueueConfig_new m f = Some c0 →
  let c := foldl config_step c0 ops in
  config_ok m f c ∧
  (qc_ready c = true → ∀ op, is_setter op = true → config_step c op = c) ∧
  match activate c event with
  | Returns (q, c') =>
      qc_ready c = true ∧ qc_activated c = false ∧ areas_end c ∧ activated_as c event q ∧
      c' = mark_activated c ∧
      ∀ later event', existsb is_reset later = false →
        ∃ e, activate (foldl config_step c' later) event' = Throws e ∧ (e = NonReadyQueue ∨ e = AlreadyActivated)
  | Throws e => refused c e
  | Aborts => False
  end.
Proof.
  intros Hnew c. pose proof (config_reachable m f c0 ops Hnew) as Hok. fold c in Hok. clearbody c.
  split; [done|]. split.
  { intros Hr [] Hs; try done; cbn; unfold QueueConfig_set_size, QueueConfig_set_vector, QueueConfig_set_desc_table,
      QueueConfig_set_avail_ring, QueueConfig_set_used_ring, QueueConfig_set_next_avail, QueueConfig_set_next_used;
      by rewrite Hr. }
  destruct Hok as [Hm Hs Hl _ _]. pose proof (uint_range (qc_size c)) as Hsz. cbn [Z.of_N] in Hsz.
  assert (Hlater : ∀ later event', existsb is_reset later = false →
    ∃ e, activate (foldl config_step (mark_activated c) later) event' = Throws e ∧
      (e = NonReadyQueue ∨ e = AlreadyActivated)).
  { intros later event' Hno. pose proof (activated_stays (mark_activated c) later eq_refl Hno) as Ha.
    unfold activate. rewrite Ha. destruct (qc_ready _); eexists; eauto. }
  unfold activate. fold (mark_activated c). destruct (qc_ready c) eqn:Hr; cbn [negb]; [|done].
  destruct (qc_activated c) eqn:Ha; [done|]. rewrite packed_bit, negb_involutive.
  change (bit (qc_acked_features c) VIRTIO_F_RING_PACKED) with (wants_packed c).
  destruct (wants_packed c) eqn:Hw.
  - pose proof (packed_new_spec c event Hw ltac:(lia)) as Hq. destruct (PackedQueue_new c event); [|done..].
    destruct Hq. by split_and!.
  - pose proof (split_new_spec c event Hw ltac:(lia)) as Hq. destruct (SplitQueue_new c event); [|done..].
    destruct Hq. by split_and!.
Qed.

(** Popping a queue of either layout is popping that queue. *)
Lemma Queue_pop_split gm q w :
  Queue_pop gm (SplitVirtQueue q, w) =
  let '(r, (q', w')) := split_pop gm (q, w) in (r, (SplitVirtQueue q', w')).
Proof.
  unfold Queue_pop, Queue_peek, pop_peeked, on_queue, split_pop. run_prog.
  destruct (split_peek gm (q, w)) as [[[c|]|e|] [q1 w1]]; try done.
  by destruct (split_pop_peeked gm (q1, w1)) as [[] [q2 w2]].
Qed.

Lemma Queue_pop_packed gm q w :
  Queue_pop gm (PackedVirtQueue q, w) =
  let '(r, (q', w')) := packed_pop gm (q, w) in (r, (PackedVirtQueue q', w')).
Proof.
  unfold Queue_pop, Queue_peek, pop_peeked, on_queue, packed_pop. run_prog.
  destruct (packed_peek gm (q, w)) as [[[c|]|e|] [q1 w1]]; try done.
  by destruct (packed_pop_peeked gm c (q1, w1)) as [[] [q2 w2]].
Qed.

(** An activated split queue survives a snapshot: the configuration and the queue
    are restored as they were, with the event of the new process, whatever the
    configuration of the device before, and cannot be activated again. *)
Lemma queue_snapshot_roundtrip c event q c' sn c0 event' :
  activate c event = Returns (q, c') → bit (qc_acked_features c) VIRTIO_F_RING_PACKED = false →
  Queue_snapshot q = Returns sn →
  let c1 := QueueConfig_restore c0 (QueueConfig_snapshot c') in
  c1 = c' ∧ activate c1 event' = Throws AlreadyActivated ∧
  ∃ sq, q = SplitVirtQueue sq ∧
    Queue_restore c1 sn event' = Returns (SplitVirtQueue
      (MkSplit event' (sq_size sq) (sq_vector sq) (sq_desc_table sq) (sq_avail_ring sq) (sq_used_ring sq)
         (sq_next_avail sq) (sq_next_used sq) (sq_features sq) (sq_last_used sq))).
Proof.
  intros Hact Hbit Hsn c1. assert (Hc1 : c1 = c') by by destruct c'. rewrite Hc1. clearbody c1.
  unfold activate in Hact. destruct (qc_ready c) eqn:Hr; [|done]. destruct (qc_activated c) eqn:Ha; [done|].
  rewrite packed_bit, Hbit in Hact. cbn in Hact.
  destruct (SplitQueue_new c event) as [sq|e|]; [|done..]. injection Hact as <- <-. injection Hsn as <-.
  split_and!; [done|..].
  - done.
  - exists sq. split; [done|]. unfold Queue_restore. cbn [qc_acked_features]. by rewrite and_ubit_zero, Hbit by done.
Qed.

(** C40. A split queue is activated without a check that its rings are in guest
    memory: it is enough that the driver has declared it ready, that its size is a power
    of two and that no area goes beyond the last address.  The first pop panics if the
    index of the available ring is not in guest memory, and the first use panics if the
    next entry of the used ring is not. *)
Theorem ring_outside_memory_aborts gm c event w chain len :
  gm_ok gm → qc_ready c = true → qc_activated c = false → wants_packed c = false →
  (∃ k, 0 <= k ∧ uval (qc_size c) = 2 ^ k) → areas_end c →
  ∃ q, activate c event = Returns (q, mark_activated c) ∧
    (¬ fits gm (qc_avail_ring c + 2) 2 → ∃ s, Queue_pop gm (q, w) = (Aborts, s)) ∧
    (¬ fits gm (qc_used_ring c + 4 + 8 * (qc_next_used c mod qc_size c)) 8 →
       ∃ s, Queue_add_used gm chain len (q, w) = (Aborts, s)).
Proof.
  intros Hgm Hr Ha Hw Hk%power_of_two_spec Hend.
  assert (0 < qc_size c <= MAX_SIZE) as Hsz.
  { pose proof (power_of_two_pos _ Hk). destruct (power_of_two_divides _ Hk) as [z Hz].
    pose proof (uint_range (qc_size c)) as Hu. change (uval MAX_SIZE) with 32768.
    change (2 ^ Z.of_N 16) with 65536 in *. assert (2 <= z) by nia. nia. }
  pose proof (split_new_spec c event Hw ltac:(lia)) as Hnew.
  assert (Hareas := Hend). unfold areas_end, areas in Hareas. rewrite Hw in Hareas.
  pose proof (Hareas _ _ ltac:(right; left)) as Hav. pose proof (Hareas _ _ ltac:(right; right; left)) as Hus.
  pose proof (uint_range (qc_avail_ring c)). pose proof (uint_range (qc_used_ring c)).
  change (uval MAX_SIZE) with 32768 in Hsz. pose proof (Z.mod_pos_bound (qc_next_used c) (qc_size c) ltac:(lia)).
  destruct (SplitQueue_new c event) as [q|e|] eqn:Hq; [|exfalso|done].
  - destruct (stray_ring_aborts gm Hgm c event q w chain len Hq) as [Hpop Huse].
    exists (SplitVirtQueue q). split_and!.
    + unfold activate. rewrite Hr, Ha, packed_bit. cbn [negb]. unfold wants_packed in Hw.
      change VIRTIO_F_RING_PACKED with 34. rewrite Hw, Hq. unfold mark_activated. by rewrite Hr.
    + intros Hno. rewrite Queue_pop_split. destruct Hpop as [[q' w'] ->]; [|by eexists].
      unfold unchecked_add. rewrite uadd_small; [done|]. change (uval (U64 2)) with 2. cbn [Z.of_N]. lia.
    + intros Hno. unfold Queue_add_used, on_queue. destruct Huse as [[q' w'] ->]; [|by eexists].
      unfold unchecked_add.
      assert (Hu : uval (U64 (4 + 8 * (qc_next_used c mod qc_size c))) = 4 + 8 * (qc_next_used c mod qc_size c)).
      { apply uval_to_uint_small. cbn [Z.of_N]. lia. }
      rewrite uadd_small, Hu; [by rewrite Z.add_assoc|]. rewrite Hu. cbn [Z.of_N]. lia.
  - destruct e; cbn in Hnew; try done; try naive_solver congruence.
    + destruct Hnew as [_ Hno]. by apply Hno, power_of_two_spec.
    + destruct Hnew as (a & n & Hin & Hle). pose proof (Hend _ _ Hin). lia.
Qed.
