(* ===== verification/DeviceExamples.v ===== *)
(** * Examples of resources and devices

    The theorems on address ranges and allocators applied to small pools, and those
    on the bus, the interrupt controller and guest memory applied to small
    machines. *)

From S2P Require Import Prelude Checked AddressRange AddressAllocator AllocatorFacts SystemAllocator.
From S2P Require Import SystemFacts Bits Bus BusFacts Pic PicFacts IoBus GuestMemory GuestMemoryFacts.

(** A [HashMap] iterated in the order of [map_to_list]. *)
#[local] Instance list_order : HashOrder :=
  {| hash_iter := map_to_list; hash_iter_perm m := Permutation_refl (map_to_list m) |}.

Definition range_of (lo hi : Z) : AddressRange := MkRange (U64 lo) (U64 hi).

(** An allocator of one pool. *)
Definition pool_allocator (lo hi : Z) : AddressAllocator :=
  MkAddressAllocator [range_of lo hi] (U64 4) (U64 4) ∅ [range_of lo hi].

Lemma single_disjoint r : pairwise_disjoint [r].
Proof. by repeat constructor. Qed.

Lemma pool_allocator_new lo hi :
  AddressRange_is_empty (range_of lo hi) = false →
  new_from_list [range_of lo hi] None None = inl (pool_allocator lo hi).
Proof.
  intros Hne. unfold new_from_list. rewrite filter_cons_True by done. reflexivity.
Qed.

Lemma pool_allocator_wf lo hi :
  AddressRange_is_empty (range_of lo hi) = false → wf (pool_allocator lo hi).
Proof.
  intros Hne. by apply (new_from_list_wf _ _ _ _ (single_disjoint _) (pool_allocator_new lo hi Hne)).
Qed.

(** ** Partition *)

Definition some_ops : list op :=
  [ OpAllocate (U64 0x110) (Anon (U64 1)) "a"; OpReverseAllocate (U64 0x20) (Anon (U64 2)) "b";
    OpAllocateAt (range_of 0x2000 0x2fff) Pstore "c"; OpRelease (Anon (U64 1));
    OpAllocateAt (range_of 0x2800 0x3000) GpuRenderNode "d"; OpReleaseContaining (U64 0x2123) ].

Definition ops_run (lo hi : Z) (os : list op) : bool :=
  match run_ops os (pool_allocator lo hi) with Some _ => true | None => false end.

Lemma allocator_partitions_witness :
  ∃ a, run_ops some_ops (pool_allocator 0x1000 0xffff) = Some a ∧ regions_ok (aa_regions a).
Proof.
  assert (ops_run 0x1000 0xffff some_ops = true) as Hb by (vm_compute; reflexivity).
  unfold ops_run in Hb.
  destruct (run_ops some_ops (pool_allocator 0x1000 0xffff)) as [a|] eqn:E; [|discriminate].
  exists a. split; [reflexivity|].
  exact (proj2 (proj2 (proj2 (allocator_partitions [range_of 0x1000 0xffff] None None
    (pool_allocator 0x1000 0xffff) some_ops a (single_disjoint _)
    (pool_allocator_new 0x1000 0xffff eq_refl) E)))).
Defined.

(** ** Allocation *)

Lemma free_pool lo hi z : free [range_of lo hi] z ↔ In_range (range_of lo hi) z.
Proof. rewrite free_cons. pose proof (free_nil z). tauto. Qed.

Lemma below_top lo hi :
  uval (U64 hi) < 2 ^ 64 - 1 → ¬ free (aa_pools (pool_allocator lo hi)) (2 ^ 64 - 1).
Proof. intros Hhi. cbn [aa_pools pool_allocator]. rewrite free_pool. unfold In_range. cbn [ar_end range_of]. lia. Qed.

Lemma allocation_chosen_witness :
  ∃ r a', internal_allocate_with_align (U64 0x100) Pstore "x" (U64 0x1000) true
            (pool_allocator 0x1234 0xffff) = (r, a') ∧ wf a' ∧
    allocation_result true (pool_allocator 0x1234 0xffff) (U64 0x100) Pstore "x"
      (umax (U64 4) (U64 0x1000)) r a'.
Proof.
  apply (allocation_chosen (pool_allocator 0x1234 0xffff) (U64 0x100) Pstore "x" (U64 0x1000) true).
  - apply pool_allocator_wf. reflexivity.
  - apply below_top. reflexivity.
  - reflexivity.
Defined.

Definition returned {A} (r : outcome Error A * AddressAllocator) : bool :=
  match r.1 with Returns _ => true | _ => false end.

Lemma release_undoes_allocation_witness :
  ∃ a1 r a2, exec (OpAllocate (U64 0x100) Pstore "x") (pool_allocator 0x1234 0xffff) =
               (Returns (), a1) ∧
    release Pstore a1 = (Returns r, a2) ∧
    ∀ z, free (aa_regions a2) z ↔ free (aa_regions (pool_allocator 0x1234 0xffff)) z.
Proof.
  set (o := OpAllocate (U64 0x100) Pstore "x"). set (a := pool_allocator 0x1234 0xffff).
  assert (returned (exec o a) = true) as Hb by (vm_compute; reflexivity).
  destruct (exec o a) as [[[]|e|] a1] eqn:E; cbn in Hb; [|discriminate..].
  destruct (release_undoes_allocation a o Pstore a1 (pool_allocator_wf 0x1234 0xffff eq_refl)
              eq_refl E) as (r & a2 & Hrel & _ & _ & Hf).
  exists a1, r, a2. exact (conj eq_refl (conj Hrel Hf)).
Defined.

(** The last page of the address space: the allocation that fills it aborts. *)
Lemma allocation_at_top_aborts_witness :
  internal_allocate_with_align (U64 0x1000) Pstore "x" (U64 4) false
    (pool_allocator (2 ^ 64 - 0x1000) (2 ^ 64 - 1)) =
  (Aborts, pool_allocator (2 ^ 64 - 0x1000) (2 ^ 64 - 1)).
Proof.
  apply (allocation_at_top_aborts _ (U64 0x1000) Pstore "x" (U64 4) false (2 ^ 64 - 0x1000)).
  - apply pool_allocator_wf. reflexivity.
  - reflexivity.
  - discriminate.
  - reflexivity.
  - reflexivity.
  - split.
    + split; [exists (2 ^ 62 - 0x400); reflexivity|].
      exists (range_of (2 ^ 64 - 0x1000) (2 ^ 64 - 1)). split; [left|split; discriminate].
    + intros s' (_ & r & Hr & Hlo & _). apply list_elem_of_singleton in Hr. subst r. exact Hlo.
  - reflexivity.
Defined.

(** ** PCI *)

Definition example_config : SystemAllocatorConfig :=
  MkSystemAllocatorConfig (Some (range_of 0x1000 0xffff)) (range_of 0x30000000 0xbfffffff)
    (range_of 0x100000000 0x1ffffffff) None (to_uint 32 5).

Definition example_sys_ops : list sys_op :=
  [SAllocateIrq; SAllocatePci (U8 0) "a"; SReservePci (PciBar (U8 0) (U8 2) (U8 0) (U8 0)) "b";
   SAllocateMmio (U64 0x1000) Pstore "c" AllocOptions_new].

Definition sys_run_ok : bool :=
  match SystemAllocator_new (U64 0x1000) example_config None [] () with
  | (Returns s0, _) =>
      match run_sys example_sys_ops s0 with
      | Some s => sa_next_anon_id s <? u64_MAX
      | None => false
      end
  | _ => false
  end.

Lemma allocate_pci_slot_witness :
  ∃ s r s', allocate_pci (U8 0) "d" s = (Returns r, s').
Proof.
  assert (sys_run_ok = true) as Hb by (vm_compute; reflexivity). unfold sys_run_ok in Hb.
  destruct (SystemAllocator_new (U64 0x1000) example_config None [] ()) as [[s0|e|] []] eqn:Enew;
    [|discriminate..].
  destruct (run_sys example_sys_ops s0) as [s|] eqn:Erun; [|discriminate]. apply Z.ltb_lt in Hb.
  destruct (allocate_pci_slot (U64 0x1000) example_config None [] s0 example_sys_ops s (U8 0) "d"
              I Enew ltac:(repeat constructor) Erun Hb) as (r & s' & Hr & _).
  exists s, r, s'. exact Hr.
Defined.

(** ** Outside the hypotheses *)

(** Pools that overlap: the same range is allocated twice. *)
Definition shared_twice : bool :=
  match new_from_list [range_of 0 9; range_of 5 14] (Some (U64 1)) None with
  | inl a =>
      let '(r1, a1) := allocate_at (range_of 5 9) (Anon (U64 1)) "a" a in
      let '(r2, a2) := allocate_at (range_of 5 9) (Anon (U64 2)) "b" a1 in
      match r1, r2 with Returns _, Returns _ => true | _, _ => false end
  | inr _ => false
  end.

Example overlapping_pools_share : shared_twice = true.
Proof. vm_compute. reflexivity. Qed.

(** A size close to 2^64 on a region that is not aligned. *)
Definition huge_size_aborts : bool :=
  match (allocate (U64 (2 ^ 64 - 1)) Pstore "x" (pool_allocator 2 0xff)).1 with
  | Aborts => true
  | _ => false
  end.

Example size_overflow_aborts : huge_size_aborts = true.
Proof. vm_compute. reflexivity. Qed.

(** ** Snapshots *)

(** A device with a byte of state. *)
Record Latch := MkLatch { latch_value : u8 }.

#[local] Instance Latch_BusDevice : BusDevice Latch u8 := {
  debug_label _ := "latch"%string;
  dev_read _ data d := Some (map (λ _, latch_value d) data, d);
  dev_write _ data d := Some (match data with [v] => MkLatch v | _ => d end);
  dev_sleep := mret ();
  dev_wake := mret ();
  dev_snapshot := d ← get_state; mret (latch_value d);
  dev_restore v := put_state (MkLatch v);
  sync_read _ data d := Some (map (λ _, latch_value d) data, d);
  sync_write _ data d := Some (match data with [v] => MkLatch v | _ => d end);
  sync_sleep := mret ();
  sync_wake := mret ();
  sync_snapshot := d ← get_state; mret (latch_value d);
  sync_restore v := put_state (MkLatch v)
}.

Definition latch_map : device_map :=
  [(MkBusRange (U64 16) (U64 4), OuterSync 0); (MkBusRange (U64 32) (U64 4), InnerSync 1)].

Definition latches (a b : Z) : BusState Latch :=
  MkBusState latch_map {[0%nat := MkLatch (U8 a); 1%nat := MkLatch (U8 b)]}.

Lemma latches_live a b r e :
  (r, e) ∈ latch_map → ∃ v, bs_store (latches a b) !! entry_ptr e = Some (MkLatch (U8 v)).
Proof.
  intros Hin. repeat (apply elem_of_cons in Hin as [[= -> ->]|Hin]; [by eexists|]). by apply elem_of_nil in Hin.
Qed.

(** A file system without failures: the files of every directory, by the path of the
    directory up to its last slash. *)
Abbreviation snap_files := (gmap string (gmap string (option u8))).

Fixpoint split_path (path : string) : string * string :=
  match path with
  | EmptyString => (EmptyString, EmptyString)
  | String a path =>
      let '(dir, name) := split_path path in
      match dir with
      | EmptyString => if bool_decide (a = slash) then (String a EmptyString, name) else (EmptyString, String a name)
      | _ => (String a dir, name)
      end
  end.

Definition dir_path (dir : string) : string := if ends_path dir then dir else dir +:+ "/".
Definition dir_files (k : snap_files) (dir : string) : gmap string (option u8) := default ∅ (k !! dir_path dir).
Definition get_file (k : snap_files) (path : string) : option (option u8) :=
  let '(dir, name) := split_path path in default ∅ (k !! dir) !! name.
Definition put_file (path : string) (x : option u8) (k : snap_files) : snap_files :=
  let '(dir, name) := split_path path in <[dir := <[name := x]> (default ∅ (k !! dir))]> k.

#[local] Instance snap_host : SnapshotHost snap_files u8 := {|
  create_new path k := match get_file k path with Some _ => (Throws "exists"%string, k) | None => (Returns (), put_file path None k) end;
  write_json path v k := (Returns (), put_file path (Some v) k);
  open_file path k := match get_file k path with Some _ => (Returns (), k) | None => (Throws "missing"%string, k) end;
  parse_json path k := match get_file k path with Some (Some v) => (Returns v, k) | _ => (Throws "invalid"%string, k) end;
  read_dir dir k := (Returns (elements (dom (dir_files k dir))), k)
|}.
#[local] Instance snap_view : SnapshotView snap_files u8 := {| files := dir_files; snap_faults _ := 0%nat |}.

Lemma split_plain name : slash_free name = true → split_path name = (EmptyString, name).
Proof.
  induction name as [|a name IH]; [done|]. cbn [slash_free split_path]. intros [Ha Hn]%andb_true_iff.
  rewrite IH by done. apply negb_true_iff in Ha. by rewrite Ha.
Qed.

Lemma split_dir dir name : slash_free name = true → ends_path dir = true → split_path (dir +:+ name) = (dir, name).
Proof.
  intros Hn. induction dir as [|a dir IH]; intros He; [by apply split_plain|].
  change (String a dir +:+ name) with (String a (dir +:+ name)). cbn [split_path]. destruct dir as [|b dir].
  - change (EmptyString +:+ name) with name. rewrite split_plain by done. cbn [ends_path] in He. by rewrite He.
  - rewrite IH by done. done.
Qed.

Lemma ends_dir_path dir : ends_path (dir_path dir) = true.
Proof.
  unfold dir_path. destruct (ends_path dir) eqn:E; [done|]. clear E. induction dir as [|a dir IH]; [done|].
  destruct dir as [|b dir]; [done|]. exact IH.
Qed.

Lemma split_join dir name : plain name → split_path (path_join dir name) = (dir_path dir, name).
Proof.
  intros [Hs Hn]. assert (path_join dir name = dir_path dir +:+ name) as ->; [|apply split_dir; [done|apply ends_dir_path]].
  destruct name as [|a name]; [set_solver|]. cbn [slash_free] in Hs. apply andb_true_iff in Hs as [Ha _].
  apply negb_true_iff in Ha. unfold path_join, dir_path. rewrite Ha. destruct (ends_path dir); [done|].
  induction dir as [|b dir IH]; [done|]. exact (f_equal (String b) IH).
Qed.

Lemma get_join k dir name : plain name → get_file k (path_join dir name) = dir_files k dir !! name.
Proof. intros Hp. unfold get_file. by rewrite split_join. Qed.
Lemma put_join k dir name x : plain name → dir_files (put_file (path_join dir name) x k) dir = <[name := x]> (dir_files k dir).
Proof. intros Hp. unfold put_file, dir_files. rewrite split_join by done. cbn beta iota. by rewrite lookup_insert_eq. Qed.

#[local] Instance snap_laws : SnapshotLaws snap_files u8.
Proof.
  split; cbn.
  - intros dir name k r k' Hp. rewrite get_join by done. destruct (dir_files k dir !! name) eqn:E; intros [= <- <-].
    + left. split; [by eexists|done].
    + rewrite put_join by done. done.
  - intros dir name v k r k' Hp _ [= <- <-]. by rewrite put_join.
  - intros dir name k r k' Hp [x Hx]. rewrite get_join, Hx by done. by intros [= <- <-].
  - intros dir name v k r k' Hp Hv. rewrite get_join, Hv by done. by intros [= <- <-].
  - by intros dir k r k' [= <- <-].
Qed.

(** The two devices have the same label; their values are restored into others. *)
Lemma snapshot_restore_roundtrip_witness :
  ∃ s1 (k1 : snap_files), snapshot_devices (MkSnapshotWriter "snap" false) (latches 1 2, ∅) = (Returns (), (s1, k1)) ∧
    ∃ o' s2 k2, restore_devices (MkSnapshotReader "snap" false) (latches 3 4, k1) = (o', (s2, k2)) ∧
      match o' with
      | Returns _ => ∀ e, e ∈ unique_devices latch_map →
          ∃ v, device_ran (take_image e) v (latches 1 2) s1 e ∧ device_ran (give_image e v) () (latches 3 4) s2 e
      | _ => False
      end.
Proof.
  destruct (snapshot_restore_roundtrip (latches 1 2) (∅ : snap_files) "snap") as (o & s1 & k1 & Hrun & Hends).
  - intros r e Hin. destruct (latches_live 1 2 r e Hin) as [v Hv]. by exists (MkLatch (U8 v)).
  - reflexivity.
  - assert (match (snapshot_devices (MkSnapshotWriter "snap" false) (latches 1 2, ∅ : snap_files)).1 with
            | Returns _ => true | _ => false end = true) as Hok by (by vm_compute).
    rewrite Hrun in Hok. destruct o as [[]|x|]; [|done..]. exists s1, k1. split; [exact Hrun|].
    destruct Hends as [_ Hrest]. destruct (Hrest (latches 3 4) k1) as (o' & s2 & k2 & Hrun' & Ho); [|reflexivity|].
    + split; [reflexivity|]. intros r e d Hin Hd. destruct (latches_live 3 4 r e Hin) as [v Hv]. by exists (MkLatch (U8 v)).
    + exists o', s2, k2. split; [exact Hrun'|]. destruct o' as [[]|x|]; [exact Ho|..].
      * destruct Ho as [Hlt|(e & v & x' & _ & _ & d & d' & _ & He)]; [by apply Nat.lt_irrefl in Hlt|]. by destruct e.
      * destruct Ho as (e & v & _ & _ & d & d' & _ & He). by destruct e.
Defined.

(** ** The interrupt controller *)

#[local] Instance all_events : EventFds := λ _, true.

Lemma all_events_accepted e : event_accepts e = true.
Proof. done. Qed.

(** Line 3 is raised and acknowledged, and a command ends the interrupt. *)
Definition line_ops : list pic_op :=
  [PicLineOp (U8 3) true; PicAckOp; PicWriteOp (MkAccess (U64 0) (U64 0x20) (U64 0)) [U8 0x20]].

Lemma pic_total_witness :
  ∃ s, pic_run line_ops Pic_new = (Returns (), s) ∧ pics_ok s ∧
    ∀ sel, ∃ r, get_irq sel s = Some r ∧ ∀ irq : u8, r = Some irq ↔ offers sel (pic_at sel s) irq.
Proof.
  apply (pic_total all_events_accepted line_ops). repeat constructor. by vm_compute.
Defined.

(** Line 3 is requested. *)
Definition line3_requested : Pic := set_pic_at Primary (set_irr (U8 8) (primary Pic_new)) Pic_new.

Lemma line3_ok : pics_ok line3_requested.
Proof. by vm_compute. Qed.

Lemma line3_offered : offers Primary (primary line3_requested) 3.
Proof.
  apply only_request_offered; [lia| |by vm_compute|].
  - intros j. by apply bit_zero.
  - intros j Hj Hne. assert (j = 0 ∨ j = 1 ∨ j = 2 ∨ j = 4 ∨ j = 5 ∨ j = 6 ∨ j = 7) as Hc by lia.
    repeat (destruct Hc as [->|Hc]; [by vm_compute|]). subst j. by vm_compute.
Qed.

Lemma interrupt_cycle_witness :
  ∃ v s1 s2, get_external_interrupt line3_requested = (Returns (Some v), s1) ∧ vector_of line3_requested 3 v ∧
    (∀ j, 0 <= j < 8 → bit (isr (primary s1)) j = (j =? 3) || bit (isr (primary line3_requested)) j) ∧
    (∀ j, offers Primary (primary s1) j → rank (primary line3_requested) j < rank (primary line3_requested) 3) ∧
    pic_write_command Primary (U8 0x20) s1 = (Returns (), s2) ∧
    isr (primary s2) = isr (primary line3_requested).
Proof.
  apply (interrupt_cycle all_events_accepted line3_requested 3); [exact line3_ok|reflexivity|left; reflexivity|
    exact line3_offered|left; lia].
Defined.

Lemma raised_line_delivered_witness :
  ∃ s1 v s2, service_irq (U8 12) true Pic_new = (Returns true, s1) ∧
    get_external_interrupt s1 = (Returns (Some v), s2) ∧ uval v = irq_base (secondary Pic_new) + (U8 12 - 8).
Proof.
  apply (raised_line_delivered all_events_accepted Pic_new (U8 12)); by vm_compute.
Defined.

(** A write of a byte to port 0x21 with the controller attached. *)
Lemma port_write_reaches_pic_witness :
  ∃ pic', Bus_write (Bus_new Io) (U64 0x21) [U8 0xff] (MkBusState (pic_map 0) {[0%nat := Pic_new]}) =
      (Returns true, MkBusState (pic_map 0) (<[0%nat := pic']> {[0%nat := Pic_new]})) ∧ pics_ok pic' ∧
    (∀ v, [U8 0xff] = [v] → port_write (U64 0x21) v Pic_new = (Returns (), pic')) ∧
    (length [U8 0xff] ≠ 1%nat → pic' = Pic_new).
Proof.
  apply (port_write_reaches_pic all_events_accepted (Bus_new Io) 0 Pic_new {[0%nat := Pic_new]} (U64 0x21) [U8 0xff]).
  - apply lookup_singleton_eq.
  - by vm_compute.
Defined.

(** ** Guest memory *)

#[local] Instance small_host : HostKernel :=
  {| pagesize := U64 4096; memfd_accepts _ := true; seals_accepted := true; mmap_accepts _ _ _ := true |}.

(** Memory from 0 to 64 KiB. *)
Definition small_region : MemoryRegion := MkRegion (MkMapping 0 (U64 0) (U64 0x10000)) (U64 0) (U64 0).
Definition small_memory : GuestMemory := [small_region].
Definition blank : host := λ _ _, U8 0.

Lemma small_memory_ok : gm_ok small_memory.
Proof.
  split; [by vm_compute|]. intros [|i] [|j] r r' Hi Hj Hne; cbn in *; try done; by destruct i, j.
Qed.

Lemma guest_access_spec_witness :
  ∃ h', write_obj_at_addr small_memory [U8 1; U8 2] (U64 0xfffe) blank = (Returns (), h') ∧
    read_obj_from_addr small_memory (U64 (lengthZ [U8 1; U8 2])) (U64 0xfffe) h' = (Returns [U8 1; U8 2], h') ∧
    ∀ x, guest_byte small_memory h' x =
      if (U64 0xfffe <=? x) && (x <? U64 0xfffe + lengthZ [U8 1; U8 2])
      then [U8 1; U8 2] !! Z.to_nat (x - U64 0xfffe) else guest_byte small_memory blank x.
Proof. exact (guest_access_spec small_memory [U8 1; U8 2] (U64 0xfffe) blank small_memory_ok ltac:(done)). Defined.

Definition two_ranges : list (GuestAddress * u64 * u64) :=
  [(U64 0, U64 0x1000, U64 0); (U64 0x8000, U64 0x2000, U64 0)].

Definition two_regions : GuestMemory :=
  [MkRegion (MkMapping 0 (U64 0) (U64 0x1000)) (U64 0) (U64 0);
   MkRegion (MkMapping 0 (U64 0x1000) (U64 0x2000)) (U64 0x8000) (U64 0x1000)].

Lemma new_memory_ok_witness :
  gm_ok two_regions ∧ guest_memory_regions two_regions = map fst two_ranges ∧
  ∀ a, guest_byte two_regions (new_with_options 0 two_ranges blank).2 a =
    if existsb (λ '(base, size, _), (uval base <=? a) && (a <? uval base + uval size)) two_ranges
    then Some (U8 0) else None.
Proof.
  apply (new_memory_ok 0 two_ranges blank two_regions (new_with_options 0 two_ranges blank).2); [reflexivity|].
  intros base size align [= <- <- <-]. done.
Defined.

Lemma last_region_wraps_witness :
  ∃ gm h', GuestMemory_new 0 [(U64 (2 ^ 64 - 4096), U64 4096)] blank = (Returns gm, h') ∧
    guest_memory_regions gm = [(U64 (2 ^ 64 - 4096), U64 4096)] ∧
    uval (end_addr gm) = 0 ∧ ∀ a, address_in_range gm a = false.
Proof. apply (last_region_wraps 0 blank); reflexivity. Defined.
