(* ===== verification/QueueExamples.v ===== *)
(** * Examples of virtqueues

    The theorems on buffers and queues applied to rings of four descriptors in a
    guest memory of 64 KiB. *)

From S2P Require Import Prelude Checked Bits GuestMemory GuestMemoryFacts DescriptorUtils StreamFacts.
From S2P Require Import DescriptorChain ChainFacts SplitQueue SplitFacts PackedQueue PackedFacts.
From S2P Require Import DeviceExamples.

(** Ranges of the memory. *)
Lemma small_fits (a n : Z) : 0 <= a < 0x10000 → a + n <= 0x10000 → fits small_memory a n.
Proof. intros Ha Hn. exists O, small_region. split; [by split|]. done. Qed.

(** The memory with some bytes written. *)
Definition filled (l : list (Z * list u8)) : host := foldr (λ '(a, bs) h, host_write 0 a bs h) blank l.

(** ** Streams *)

Definition two_buffers : DescriptorChainRegions :=
  DescriptorChainRegions_new [MkMemRegion (U64 0x1000) (U64 2); MkMemRegion (U64 0x3000) (U64 3)].

Lemma two_buffers_ok : stream_ok small_memory two_buffers.
Proof.
  apply new_stream_ok; [|done]. repeat constructor; by apply small_fits.
Qed.

Definition letters : host := filled [(0x1000, [U8 1; U8 2]); (0x3000, [U8 3; U8 4; U8 5])].

Definition letters_tape : tape :=
  MkTape [0x1000; 0x1001; 0x3000; 0x3001; 0x3002] (guest_byte small_memory letters) 0.

Definition stream_ops : list stream_op :=
  [OpReadObj (U64 1); OpWriteIter [[U8 7]; [U8 8; U8 9]]; OpAvailable; OpPeekObj (U64 2); OpCollect (U64 1); OpRead (U64 7)].

Lemma stream_refines_tape_witness :
  ∃ d' h', stream_run small_memory stream_ops (two_buffers, letters) =
      (Returns [RBytes [U8 1]; RDone; RCount 1; RError UnexpectedEof; RObjects [[U8 5]]; RBytes []], (d', h')) ∧
    stream_is small_memory d' h' (tape_run stream_ops letters_tape).2.
Proof.
  destruct (stream_refines_tape small_memory small_memory_ok stream_ops two_buffers letters letters_tape)
    as (d' & h' & Hrun & Hs).
  - repeat constructor.
  - constructor; [exact two_buffers_ok|by vm_compute|done|done].
  - exists d', h'. split; [|exact Hs]. exact Hrun.
Defined.

Lemma split_at_start_witness :
  ∃ d1 d2, regions_split_at two_buffers (U64 3) = Some (d1, d2) ∧ stream_ok small_memory d1 ∧
    stream_ok small_memory d2 ∧ remaining d1 = takeZ (U64 3) (remaining two_buffers) ∧
    remaining d2 = dropZ (U64 3) (remaining two_buffers) ∧
    bytes_consumed d1 = bytes_consumed two_buffers ∧ uval (bytes_consumed d2) = 0.
Proof.
  apply (split_at_start small_memory two_buffers (U64 3)); [exact two_buffers_ok|reflexivity|cbn; lia].
Defined.

(** After 2 of 16 bytes, split at 1. *)
Definition one_buffer : DescriptorChainRegions :=
  MkChainRegions [MkMemRegion (U64 0x1000) (U64 16)] 0 (U64 2) (U64 2).

Lemma one_buffer_ok : stream_ok small_memory one_buffer.
Proof. constructor; [by vm_compute|repeat constructor; by apply small_fits|by vm_compute..]. Qed.

Lemma split_at_middle_witness :
  ∃ d1 d2, regions_split_at one_buffer (U64 1) = Some (d1, d2) ∧
    remaining d2 = dropZ (U64 1) (remaining one_buffer) ∧
    (current_region_offset one_buffer <= U64 1 →
       remaining d1 = takeZ (U64 1 - current_region_offset one_buffer) (remaining one_buffer)) ∧
    (U64 1 < current_region_offset one_buffer → consume d1 (U64 0) = None).
Proof.
  apply (split_at_middle small_memory one_buffer (MkMemRegion (U64 0x1000) (U64 16)) [] (U64 1) (U64 0));
    [exact one_buffer_ok|reflexivity|by vm_compute..].
Defined.

(** ** A split queue *)

Definition ring_config : QueueConfig :=
  MkConfig false (U16 8) (U16 4) true (U16 5) (ubit 29) (ubit 29) (U64 0) (U64 0x200) (U64 0x400) (U16 0) (U16 0).

Definition ring_queue : SplitQueue :=
  MkSplit 7%nat (U16 4) (U16 5) (U64 0) (U64 0x200) (U64 0x400) (U16 0) (U16 0) (ubit 29) (U16 0).

Lemma ring_queue_ok : queue_ok small_memory ring_queue.
Proof. constructor; [by vm_compute|by vm_compute|by apply small_fits..]. Qed.

(** Descriptor 0 has 16 bytes to read and goes on to descriptor 1, which has 32 bytes
    to write; the available ring holds the chain from 0. *)
Definition desc_bytes (addr len flags next : Z) : list u8 :=
  le_split 8 addr ++ le_split 4 len ++ le_split 2 flags ++ le_split 2 next.

Definition driver_memory : host :=
  filled [(0, desc_bytes 0x1000 16 1 1); (16, desc_bytes 0x2000 32 2 0); (0x200, le_split 2 0);
          (0x202, le_split 2 1); (0x204, le_split 2 0)].

Definition driver_world : World := MkWorld driver_memory [].

Lemma split_queue_safe_witness :
  ∃ cs q' w', vq_run small_memory
      [DevicePops; DriverWrites (λ _ _, U8 255); DevicePops; DeviceTriggers] (ring_queue, driver_world) =
      (Returns cs, (q', w')) ∧ queue_ok small_memory q' ∧ sq_size q' = sq_size ring_queue ∧
    Forall (chain_safe small_memory (sq_size ring_queue)) cs.
Proof. apply (split_queue_safe small_memory small_memory_ok). exact ring_queue_ok. Defined.

(** Whether a computation returns. *)
Definition returns {S E A} (r : outcome E A * S) : bool :=
  match r.1 with Returns _ => true | _ => false end.

Lemma driver_chain : ∃ l c, avail_chain small_memory ring_queue driver_memory 0 l c.
Proof.
  pose proof (split_chain_new_spec small_memory small_memory_ok driver_memory (U64 0) (U16 4)
    (avail_entry small_memory driver_memory ring_queue 0)) as Hspec.
  assert (Hr : returns (@DescriptorChain_new small_memory _ (split_chain_iter small_memory)
    (SplitDescriptorChain_new (U64 0) (U16 4) (avail_entry small_memory driver_memory ring_queue 0))
    (avail_entry small_memory driver_memory ring_queue 0) driver_memory) = true) by (by vm_compute).
  unfold split_iter in Hspec. destruct (DescriptorChain_new _ _ _ _) as [[c|e|] h']; [|done..].
  destruct Hspec as (_ & l & Hl). by exists l, c.
Qed.

Lemma pops_in_order_witness :
  ∃ cs q' w', pops small_memory 1 (ring_queue, driver_world) = (Returns (map Some cs), (q', w')) ∧ length cs = 1%nat ∧
    (∀ k c, cs !! k = Some c →
       ∃ l, avail_chain small_memory ring_queue driver_memory (sq_next_avail ring_queue + Z.of_nat k) l c) ∧
    same_driver small_memory ring_queue driver_memory (w_host w') ∧
    (available small_memory driver_memory ring_queue = Z.of_nat 1 →
       split_pop small_memory (q', w') = (Returns None, (q', w'))).
Proof.
  apply (pops_in_order small_memory small_memory_ok 1 ring_queue driver_world).
  - exact ring_queue_ok.
  - intros x Hx. change (0x400 <= x < 0x400 + 6 + 8 * 4) in Hx.
    change (¬ (0x200 <= x < 0x200 + 6 + 2 * 4) ∧ ¬ (0 <= x < 0 + 16 * 4)). lia.
  - by vm_compute.
  - intros k Hk. assert (k = 0) as -> by lia. exact driver_chain.
Defined.

Definition head_chain (i : Z) : DescriptorChain := chain_of (U16 i) [] [] None (U16 1).

Lemma used_in_order_witness :
  ∃ q' w', uses small_memory [(head_chain 0, U32 16); (head_chain 2, U32 0)] (ring_queue, driver_world) =
      (Returns (), (q', w')) ∧ w_signals w' = [] ∧
    used_entry small_memory (w_host w') ring_queue 1 = (U32 (U16 2), U32 0).
Proof.
  destruct (used_in_order small_memory small_memory_ok [(head_chain 0, U32 16); (head_chain 2, U32 0)]
    ring_queue driver_world) as (q' & w' & Hrun & Hsig & _ & Hent & _); [exact ring_queue_ok|by vm_compute|].
  exists q', w'. split; [exact Hrun|]. split; [exact Hsig|]. exact (Hent 1%nat _ _ eq_refl).
Defined.

(** One chain has been used, and the driver waits for it. *)
Definition used_queue : SplitQueue := set_next_used (U16 1) ring_queue.

Lemma trigger_interrupt_spec_witness :
  ∃ b q' w', split_trigger_interrupt small_memory (used_queue, driver_world) = (Returns b, (q', w')) ∧
    (b = true ↔ event_reached (U16 0) (U16 1) (used_event small_memory driver_memory used_queue)) ∧
    (b = true → q' = set_last_used (U16 1) used_queue ∧ w' = MkWorld driver_memory [U16 5]) ∧
    (b = false → q' = used_queue ∧ w' = driver_world).
Proof.
  apply (trigger_interrupt_spec small_memory small_memory_ok used_queue driver_world).
  destruct ring_queue_ok. by constructor.
Defined.

(** The rings are at 1 MiB, where there is no memory. *)
Definition stray_config : QueueConfig :=
  MkConfig false (U16 8) (U16 4) true (U16 5) (U64 0) (U64 0) (U64 0) (U64 0x100000) (U64 0x200000) (U16 0) (U16 0).

Lemma stray_fits (a n : Z) : 0x10000 <= a → ¬ fits small_memory a n.
Proof. intros Ha ([|i] & r & [Hi Hr] & _); [|by destruct i]. injection Hi as <-.
  change (0 <= a < 0x10000) in Hr. lia. Qed.

Lemma ring_outside_memory_aborts_witness :
  ∃ q, activate stray_config 7%nat = Returns (q, mark_activated stray_config) ∧
    (∃ s, Queue_pop small_memory (q, driver_world) = (Aborts, s)) ∧
    (∃ s, Queue_add_used small_memory (head_chain 0) (U32 0) (q, driver_world) = (Aborts, s)).
Proof.
  destruct (ring_outside_memory_aborts small_memory stray_config 7%nat driver_world (head_chain 0) (U32 0))
    as (q & Hact & Hpop & Huse); [exact small_memory_ok|reflexivity..| | |].
  - by exists 2.
  - intros a n Hin. unfold areas in Hin. replace (wants_packed _) with false in Hin by (by vm_compute).
    rewrite !elem_of_cons in Hin. destruct Hin as [[= -> ->]|[[= -> ->]|[[= -> ->]|[]%not_elem_of_nil]]]; by vm_compute.
  - exists q. split; [exact Hact|]. split; [apply Hpop|apply Huse]; by apply stray_fits.
Defined.

(** ** A packed queue *)

Definition packed_queue : PackedQueue :=
  MkPacked 7%nat (U16 4) (U16 5) (MkIndex true (U16 0)) (MkIndex true (U16 0)) (MkIndex true (U16 0)) (U64 0)
    (U64 0) (U64 0x400) (U64 0x200).

Lemma packed_queue_ok : packed_ok small_memory packed_queue.
Proof. constructor; [by vm_compute..|by apply small_fits|by apply small_fits|by apply small_fits]. Qed.

(** Descriptor 0 is available and goes on to descriptor 1, which is not; the
    driver has disabled interrupts. *)
Definition packed_desc_bytes (addr len id flags : Z) : list u8 :=
  le_split 8 addr ++ le_split 4 len ++ le_split 2 id ++ le_split 2 flags.

Definition cut_memory : host :=
  filled [(0, packed_desc_bytes 0x1000 16 3 0x81); (0x200, le_split 2 0); (0x202, le_split 2 1)].

Definition cut_world : World := MkWorld cut_memory [].

Lemma packed_pop_spec_witness :
  ∃ c q' w' l, packed_pop small_memory (packed_queue, cut_world) = (Returns (Some c), (q', w')) ∧
    packed_run small_memory cut_memory packed_queue l c ∧ w_signals w' = [].
Proof.
  destruct (packed_pop_spec small_memory small_memory_ok packed_queue cut_world packed_queue_ok)
    as (r & q' & w' & Hrun & _ & Hsig & _ & Hr).
  assert (Hsome : match packed_pop small_memory (packed_queue, cut_world) with
                  | (Returns (Some _), _) => true | _ => false end = true) by (by vm_compute).
  rewrite Hrun in Hsome. destruct r as [c|]; [|done]. destruct Hr as (l & Hl & _).
  exists c, q', w', l. split_and!; [exact Hrun|exact Hl|exact Hsig].
Defined.

Lemma packed_add_used_spec_witness :
  ∃ q' w', packed_add_used small_memory (chain_of (U16 0) [] [] (Some (U16 3)) (U16 2)) (U32 8)
      (packed_queue, cut_world) = (Returns (), (q', w')) ∧
    ring_desc small_memory (w_host w') (U64 0) (U16 0) =
      MkPackedDesc (pd_addr (ring_desc small_memory cut_memory (U64 0) (U16 0))) (U32 8) (U16 3) (used_flags true (U32 8)).
Proof.
  destruct (packed_add_used_spec small_memory small_memory_ok packed_queue cut_world
    (chain_of (U16 0) [] [] (Some (U16 3)) (U16 2)) (U32 8) (U16 3)) as (q' & w' & Hrun & _ & _ & Hd & _);
    [exact packed_queue_ok|by vm_compute|by vm_compute|reflexivity|].
  exists q', w'. split; [exact Hrun|exact Hd].
Defined.

Lemma packed_cut_chain_aborts_witness :
  ∃ c q' w', packed_pop small_memory (packed_queue, cut_world) = (Returns (Some c), (q', w')) ∧ dc_id c = None ∧
    ∃ s, packed_add_used small_memory c (U32 0) (q', w') = (Aborts, s).
Proof.
  apply (packed_cut_chain_aborts small_memory small_memory_ok packed_queue cut_world
    (ring_desc small_memory cut_memory (U64 0) (U16 0)) (U32 0)).
  - exact packed_queue_ok.
  - by vm_compute.
  - unfold ring_entry. split_and!; [split; [by vm_compute|by apply small_fits]|reflexivity|by vm_compute..].
  - by vm_compute.
  - by vm_compute.
  - apply small_fits; by vm_compute.
Defined.

Lemma packed_always_interrupts_witness :
  (∃ q' w', packed_trigger_interrupt small_memory (packed_queue, cut_world) = (Returns true, (q', w')) ∧
     w_signals w' = [U16 5] ∧ w_host w' = cut_memory) ∧
  notification_due small_memory (packed_queue, cut_world) = (Returns false, (packed_queue, cut_world)).
Proof.
  destruct (packed_always_interrupts small_memory small_memory_ok packed_queue cut_world packed_queue_ok) as [H1 H2].
  split; [exact H1|]. apply H2. apply uint_eq. by vm_compute.
Defined.

(** ** Activation *)

Definition setup : list config_op :=
  [OpSetSize (U16 4); OpSetDescTable (U64 0); OpSetAvailRing (U64 0x200); OpSetUsedRing (U64 0x400);
   OpSetReady true; OpSetSize (U16 2)].

Definition fresh_config : QueueConfig :=
  MkConfig false (U16 8) (U16 8) false VIRTIO_MSI_NO_VECTOR (ubit 29) (U64 0) (U64 0) (U64 0) (U64 0) (U16 0) (U16 0).

Definition is_split (r : outcome QueueError (Queue * QueueConfig)) : bool :=
  match r with Returns (SplitVirtQueue _, _) => true | _ => false end.

Lemma activation_spec_witness :
  config_ok (U16 8) (ubit 29) (foldl config_step fresh_config setup) ∧
  match activate (foldl config_step fresh_config setup) 7%nat with
  | Returns (SplitVirtQueue q, c') =>
      queue_ok small_memory q ∧
      ∀ event, ∃ e, activate (config_step c' (OpSetSize (U16 1))) event = Throws e
  | _ => False
  end.
Proof.
  destruct (activation_spec (U16 8) (ubit 29) fresh_config setup 7%nat eq_refl) as (Hok & _ & Hact).
  split; [exact Hok|].
  assert (Hs : is_split (activate (foldl config_step fresh_config setup) 7%nat) = true) by (by vm_compute).
  destruct (activate _ _) as [[[q|q] c']|e|]; [|done..].
  destruct Hact as (_ & _ & _ & (_ & _ & _ & Hq) & _ & Hagain). split.
  - apply Hq. intros a n Hin. unfold areas in Hin.
    replace (wants_packed _) with false in Hin by (by vm_compute). rewrite !elem_of_cons in Hin.
    destruct Hin as [[= -> ->]|[[= -> ->]|[[= -> ->]|[]%not_elem_of_nil]]]; apply small_fits; by vm_compute.
  - intros event. destruct (Hagain [OpSetSize (U16 1)] event eq_refl) as (e & He & _). by exists e.
Defined.
