(* ===== verification/DeviceTree.v ===== *)
(** * Flattened device trees

    [cros_fdt/src/fdt.rs], [propval.rs] and [path.rs]: the tree of nodes that the
    monitor builds for the guest, its blob, and the parser of blobs.  A name or a
    path is the list of its bytes; where the program makes a string from bytes,
    the model checks that they are UTF-8.  A parser is a computation on the rest of the
    input; writing to a vector cannot fail, so that a writer is a function to
    bytes. *)

From S2P Require Import Prelude StdIo Checked.

(** The errors, without their messages. *)
Inductive FdtError :=
  | ApplyOverlayError
  | BinarySizeTooLarge
  | DuplicateNode (name : list u8)
  | FdtParseError
  | FilterError
  | InvalidName (name : list u8)
  | InvalidPath
  | InvalidString (s : list u8)
  | PropertyValueInvalid
  | PropertyValueTooLarge
  | TotalSizeTooLarge.

Abbreviation Blob := (list u8).
Abbreviation Parser := (prog (list u8) FdtError).

Definition SIZE_U32 : Z := 4.
Definition SIZE_U64 : Z := 8.

(** [to_be_bytes] and [from_be_bytes]. *)
Definition be_bytes (n : nat) (z : Z) : list u8 := rev (le_split n z).
Definition u32_be (x : u32) : list u8 := be_bytes 4 x.
Definition u64_be (x : u64) : list u8 := be_bytes 8 x.
Definition from_be (bs : list u8) : Z := le_combine (rev bs).

Definition FDT_BEGIN_NODE : u32 := U32 0x1.
Definition FDT_END_NODE : u32 := U32 0x2.
Definition FDT_PROP : u32 := U32 0x3.
Definition FDT_NOP : u32 := U32 0x4.
Definition FDT_END : u32 := U32 0x9.

(** [consume]. *)
Definition blob_consume (n : Z) : Parser (list u8) :=
  bytes ← get_state;
  if lengthZ bytes <? n then throw PropertyValueInvalid
  else _ ← put_state (dropZ n bytes); mret (takeZ n bytes).

Definition rdu32 : Parser u32 := bs ← blob_consume SIZE_U32; mret (U32 (from_be bs)).
Definition rdu64 : Parser u64 := bs ← blob_consume SIZE_U64; mret (U64 (from_be bs)).

Definition align_pad_len (size alignment : Z) : Z := (alignment - size mod alignment) mod alignment.

Definition align_data (data : list u8) (alignment : Z) : list u8 :=
  data ++ zeros (align_pad_len (lengthZ data) alignment).

(** The bytes before the first null byte, if there is one. *)
Fixpoint until_nul (l : list u8) : option (list u8) :=
  match l with
  | [] => None
  | b :: l => if uval b =? 0 then Some [] else s ← until_nul l; Some (b :: s)
  end.

Definition c_str_to_string (input : Blob) : option (list u8) :=
  s ← until_nul input; if utf8_valid s then Some s else None.

Definition is_ascii_alphanumeric (c : u8) : bool :=
  in_byte_range 48 57 c || in_byte_range 65 90 c || in_byte_range 97 122 c.

(** [.,_+?#-] and [.,_+-@]. *)
Definition PROP_SPECIAL_CHARS : list Z := [46; 44; 95; 43; 63; 35; 45].
Definition NODE_SPECIAL_CHARS : list Z := [46; 44; 95; 43; 45; 64].

Definition allowed (special : list Z) (c : u8) : bool :=
  is_ascii_alphanumeric c || existsb (Z.eqb c) special.

Definition is_valid_prop_name (name : list u8) : bool := forallb (allowed PROP_SPECIAL_CHARS) name.

Definition is_valid_node_name (name : list u8) : bool :=
  if 1 <? lengthZ (filter (λ c : u8, uval c = 64) name) then false
  else forallb (allowed NODE_SPECIAL_CHARS) name.

(** ** Maps that keep the order of insertion *)

Section index_map.
Context {V : Type}.

Fixpoint index_get (k : list u8) (m : list (list u8 * V)) : option V :=
  match m with
  | [] => None
  | (k', v) :: m => if bool_decide (k = k') then Some v else index_get k m
  end.

(** [IndexMap::insert]: a key that is there keeps its place. *)
Fixpoint index_insert (k : list u8) (v : V) (m : list (list u8 * V)) : list (list u8 * V) :=
  match m with
  | [] => [(k, v)]
  | (k', v') :: m => if bool_decide (k = k') then (k, v) :: m else (k', v') :: index_insert k v m
  end.

Definition index_extend (m new : list (list u8 * V)) : list (list u8 * V) :=
  foldl (λ m '(k, v), index_insert k v m) m new.

End index_map.

(** ** The header *)

Record FdtHeader := MkHeader {
  magic : u32;
  total_size : u32;
  off_dt_struct : u32;
  off_dt_strings : u32;
  off_mem_rsvmap : u32;
  version : u32;
  last_comp_version : u32;
  boot_cpuid : u32;
  size_dt_strings : u32;
  size_dt_struct : u32
}.

Definition FDT_MAGIC : u32 := U32 0xd00dfeed.
Definition FDT_VERSION : u32 := U32 17.
Definition FDT_LAST_COMP_VERSION : u32 := U32 16.
Definition HEADER_SIZE : Z := 10 * SIZE_U32.

Definition FdtHeader_new (total struct_off strings_off rsvmap_off cpuid strings_size struct_size : u32) :
    FdtHeader :=
  MkHeader FDT_MAGIC total struct_off strings_off rsvmap_off FDT_VERSION FDT_LAST_COMP_VERSION cpuid
    strings_size struct_size.

Definition header_write_blob (h : FdtHeader) : list u8 :=
  concat (map u32_be [magic h; total_size h; off_dt_struct h; off_dt_strings h; off_mem_rsvmap h;
    version h; last_comp_version h; boot_cpuid h; size_dt_strings h; size_dt_struct h]).

Definition read_header : Parser FdtHeader :=
  magic ← rdu32;
  total_size ← rdu32;
  off_dt_struct ← rdu32;
  off_dt_strings ← rdu32;
  off_mem_rsvmap ← rdu32;
  version ← rdu32;
  last_comp_version ← rdu32;
  boot_cpuid ← rdu32;
  size_dt_strings ← rdu32;
  size_dt_struct ← rdu32;
  mret (MkHeader magic total_size off_dt_struct off_dt_strings off_mem_rsvmap version
          last_comp_version boot_cpuid size_dt_strings size_dt_struct).

Definition header_from_blob : Parser FdtHeader :=
  input ← get_state;
  if lengthZ input <? HEADER_SIZE then throw FdtParseError
  else
    header ← read_header;
    if negb (magic header =? FDT_MAGIC) then throw FdtParseError
    else if version header <? FDT_VERSION then throw FdtParseError
    else if (off_dt_strings header <=? off_mem_rsvmap header)
            || (off_mem_rsvmap header <? HEADER_SIZE) then throw FdtParseError
    else
      off_dt_struct_end ← ok_or_throw
        (add_checked (off_dt_struct header) (size_dt_struct header)) FdtParseError;
      if off_dt_strings header <? uval off_dt_struct_end then throw FdtParseError
      else
        off_dt_strings_end ← ok_or_throw
          (add_checked (off_dt_strings header) (size_dt_strings header)) FdtParseError;
        if total_size header <? uval off_dt_strings_end then throw FdtParseError
        else mret header.

(** ** The strings block *)

Record FdtStrings := MkStrings {
  strings : list u8;
  string_offsets : list (list u8 * u32)
}.

Definition FdtStrings_default : FdtStrings := MkStrings [] [].

(** The loop of [from_blob] over the parts between null bytes. *)
Fixpoint index_strings (parts : list (list u8)) (offset : u32) (m : list (list u8 * u32)) :
    outcome FdtError (list (list u8 * u32)) :=
  match parts with
  | [] => Returns m
  | bytes :: parts =>
      if lengthZ bytes =? 0 then Returns m
      else if negb (utf8_valid bytes) then Throws FdtParseError
      else if 2 ^ 32 <=? lengthZ bytes + 1 then Throws BinarySizeTooLarge
      else
        match add_checked offset (U32 (lengthZ bytes + 1)) with
        | None => Aborts
        | Some offset' => index_strings parts offset' (index_insert bytes offset m)
        end
  end.

Definition strings_from_blob (input : Blob) : outcome FdtError FdtStrings :=
  if match last input with Some b => negb (uval b =? 0) | None => false end then Throws FdtParseError
  else
    match index_strings (split_on 0 input) (U32 0) [] with
    | Returns m => Returns (MkStrings input m)
    | Throws e => Throws e
    | Aborts => Aborts
    end.

Definition intern_string (s : list u8) (t : FdtStrings) : u32 * FdtStrings :=
  match index_get s (string_offsets t) with
  | Some off => (off, t)
  | None =>
      let off := U32 (lengthZ (strings t)) in
      (off, MkStrings (strings t ++ s ++ [U8 0]) (index_insert s off (string_offsets t)))
  end.

Definition at_offset (t : FdtStrings) (off : u32) : option (list u8) :=
  if lengthZ (strings t) <? off then None
  else
    s ← c_str_to_string (dropZ off (strings t));
    if lengthZ s =? 0 then None else Some s.

(** ** Nodes *)

#[warnings="-register-all"]
Inductive FdtNode := MkNode (name : list u8) (props : list (list u8 * list u8))
  (subnodes : list (list u8 * FdtNode)).

Definition node_name (n : FdtNode) : list u8 := let 'MkNode name _ _ := n in name.
Definition node_props (n : FdtNode) : list (list u8 * list u8) := let 'MkNode _ props _ := n in props.
Definition node_subnodes (n : FdtNode) : list (list u8 * FdtNode) := let 'MkNode _ _ subs := n in subs.

Definition FdtNode_new (name : list u8) (props : list (list u8 * list u8))
    (subnodes : list (list u8 * FdtNode)) : outcome FdtError FdtNode :=
  if negb (is_valid_node_name name) then Throws (InvalidName name)
  else
    match List.find (λ '(pname, _), negb (is_valid_prop_name pname)) props with
    | Some (pname, _) => Throws (InvalidName pname)
    | None => Returns (MkNode name props subnodes)
    end.

Definition FdtNode_empty (name : list u8) : outcome FdtError FdtNode := FdtNode_new name [] [].

(** [read_token] skips the [FDT_NOP] tokens; every step takes four bytes. *)
Fixpoint read_token_loop (fuel : nat) : Parser u32 :=
  match fuel with
  | O => abort
  | S fuel => value ← rdu32; if negb (uval value =? FDT_NOP) then mret value else read_token_loop fuel
  end.

Definition read_token : Parser u32 := input ← get_state; read_token_loop (S (length input)).

(** One property, after its token. *)
Definition parse_prop (t : FdtStrings) : Parser (list u8 * list u8) :=
  prop_len ← rdu32;
  prop_name_offset ← rdu32;
  prop_blob ← blob_consume (uval prop_len + align_pad_len (uval prop_len) SIZE_U32);
  prop_name ← ok_or_throw (at_offset t prop_name_offset) FdtParseError;
  mret (prop_name, takeZ (uval prop_len) prop_blob).

(** [parse_node] and its loop: the properties and the subnodes found.  Every call
    takes at least four bytes of the input. *)
Fixpoint parse_node (fuel : nat) (t : FdtStrings) : Parser FdtNode :=
  match fuel with
  | O => abort
  | S fuel =>
      input ← get_state;
      name ← ok_or_throw (c_str_to_string input) FdtParseError;
      let name_nbytes := lengthZ name + 1 in
      _ ← blob_consume (name_nbytes + align_pad_len name_nbytes SIZE_U32);
      '(props, subnodes) ← parse_items fuel t [] [] false;
      give_outcome (FdtNode_new name props subnodes)
  end
with parse_items (fuel : nat) (t : FdtStrings) (props : list (list u8 * list u8))
    (subnodes : list (list u8 * FdtNode)) (encountered_subnode : bool) :
    Parser (list (list u8 * list u8) * list (list u8 * FdtNode)) :=
  match fuel with
  | O => abort
  | S fuel =>
      token ← read_token;
      if uval token =? FDT_BEGIN_NODE then
        subnode ← parse_node fuel t;
        match index_get (node_name subnode) subnodes with
        | None => parse_items fuel t props (index_insert (node_name subnode) subnode subnodes) true
        | Some _ => throw (DuplicateNode (node_name subnode))
        end
      else if uval token =? FDT_END_NODE then mret (props, subnodes)
      else if uval token =? FDT_PROP then
        if encountered_subnode then throw FdtParseError
        else
          '(prop_name, value) ← parse_prop t;
          parse_items fuel t (index_insert prop_name value props) subnodes encountered_subnode
      else if uval token =? FDT_NOP then parse_items fuel t props subnodes encountered_subnode
      else throw FdtParseError
  end.

Definition node_from_blob (t : FdtStrings) : Parser FdtNode :=
  token ← read_token;
  if negb (uval token =? FDT_BEGIN_NODE) then throw FdtParseError
  else
    input ← get_state;
    root ← parse_node (S (length input)) t;
    token ← read_token;
    if negb (uval token =? FDT_END) then throw FdtParseError else mret root.

(** The properties of a node, with the names interned in order. *)
Fixpoint write_props (props : list (list u8 * list u8)) (t : FdtStrings) : list u8 * FdtStrings :=
  match props with
  | [] => ([], t)
  | (propname, propblob) :: props =>
      let '(off, t) := intern_string propname t in
      let '(rest, t) := write_props props t in
      (u32_be FDT_PROP ++ u32_be (U32 (lengthZ propblob)) ++ u32_be off ++ propblob
       ++ zeros (align_pad_len (lengthZ propblob) SIZE_U32) ++ rest, t)
  end.

Fixpoint node_write_blob (n : FdtNode) (t : FdtStrings) : list u8 * FdtStrings :=
  let 'MkNode name props subnodes := n in
  let '(pbytes, t) := write_props props t in
  let '(sbytes, t) :=
    (fix write_subnodes l t :=
       match l with
       | [] => ([], t)
       | (_, n) :: l =>
           let '(bs, t) := node_write_blob n t in
           let '(rest, t) := write_subnodes l t in
           (bs ++ rest, t)
       end) subnodes t in
  (u32_be FDT_BEGIN_NODE ++ name ++ U8 0 :: zeros (align_pad_len (lengthZ name + 1) SIZE_U32)
   ++ pbytes ++ sbytes ++ u32_be FDT_END_NODE, t).

(** ** Property values *)

Class ToFdtPropval (T : Type) := to_propval : T → outcome FdtError (list u8).
Class FromFdtPropval (T : Type) := from_propval : list u8 → option T.

Definition u32_to_bytes (value : list u32) : list u8 := concat (map u32_be value).
Definition u64_to_bytes (value : list u64) : list u8 := concat (map u64_be value).

Definition is_valid_string_property (val : list u8) : bool := forallb (λ b : u8, negb (uval b =? 0)) val.

Fixpoint str_to_bytes (value : list rstring) : outcome FdtError (list u8) :=
  match value with
  | [] => Returns []
  | s :: value =>
      if negb (is_valid_string_property (sbytes s)) then Throws (InvalidString (sbytes s))
      else
        match str_to_bytes value with
        | Returns bs => Returns (sbytes s ++ U8 0 :: bs)
        | r => r
        end
  end.

#[global] Instance unit_to_propval : ToFdtPropval () := λ _, Returns [].
#[global] Instance bytes_to_propval : ToFdtPropval (list u8) := λ bs, Returns bs.
#[global] Instance u32_to_propval : ToFdtPropval u32 := λ x, Returns (u32_to_bytes [x]).
#[global] Instance u32s_to_propval : ToFdtPropval (list u32) := λ l, Returns (u32_to_bytes l).
#[global] Instance u64_to_propval : ToFdtPropval u64 := λ x, Returns (u64_to_bytes [x]).
#[global] Instance u64s_to_propval : ToFdtPropval (list u64) := λ l, Returns (u64_to_bytes l).
#[global] Instance string_to_propval : ToFdtPropval rstring := λ s, str_to_bytes [s].
#[global] Instance strings_to_propval : ToFdtPropval (list rstring) := str_to_bytes.

(** [chunks(n)]: pieces of [n] bytes, the last one possibly shorter. *)
Fixpoint chunks_loop (fuel : nat) (n : Z) (bs : list u8) : list (list u8) :=
  match fuel, bs with
  | S fuel, _ :: _ => takeZ n bs :: chunks_loop fuel n (dropZ n bs)
  | _, _ => []
  end.
Definition chunks (n : Z) (bs : list u8) : list (list u8) := chunks_loop (length bs) n bs.

Fixpoint take_while_nonempty (l : list (list u8)) : list (list u8) :=
  match l with
  | [] :: _ | [] => []
  | s :: l => s :: take_while_nonempty l
  end.

#[global] Instance unit_from_propval : FromFdtPropval () := λ bs,
  if lengthZ bs =? 0 then Some () else None.
#[global] Instance bytes_from_propval : FromFdtPropval (list u8) := Some.
#[global] Instance u32_from_propval : FromFdtPropval u32 := λ bs,
  if lengthZ bs =? SIZE_U32 then Some (U32 (from_be bs)) else None.
#[global] Instance u32s_from_propval : FromFdtPropval (list u32) := λ bs,
  if negb (lengthZ bs mod SIZE_U32 =? 0) then None
  else Some (map (λ c, U32 (from_be c)) (chunks SIZE_U32 bs)).
#[global] Instance u64_from_propval : FromFdtPropval u64 := λ bs,
  if lengthZ bs =? SIZE_U64 then Some (U64 (from_be bs)) else None.
#[global] Instance u64s_from_propval : FromFdtPropval (list u64) := λ bs,
  if negb (lengthZ bs mod SIZE_U64 =? 0) then None
  else Some (map (λ c, U64 (from_be c)) (chunks SIZE_U64 bs)).
#[global] Instance string_from_propval : FromFdtPropval rstring := λ bs,
  s ← c_str_to_string bs; from_utf8 s.
#[global] Instance strings_from_propval : FromFdtPropval (list rstring) := λ bs,
  match last bs with
  | Some b =>
      if uval b =? 0 then Some (omap from_utf8 (take_while_nonempty (split_on 0 bs))) else None
  | None => None
  end.

(** ** Reading and editing a node *)

Abbreviation Edit := (prog FdtNode FdtError).

Definition has_prop (name : list u8) (n : FdtNode) : bool :=
  match index_get name (node_props n) with Some _ => true | None => false end.

Definition get_prop {T} `{FromFdtPropval T} (name : list u8) (n : FdtNode) : option T :=
  bs ← index_get name (node_props n); from_propval bs.

(** [data.get(offset..offset + 4)]. *)
Definition four_bytes (data : list u8) (offset : Z) : option (list u8) :=
  if lengthZ data <? offset + SIZE_U32 then None else Some (takeZ SIZE_U32 (dropZ offset data)).

Definition phandle_at_offset (name : list u8) (offset : Z) (n : FdtNode) : option u32 :=
  data ← index_get name (node_props n);
  bs ← four_bytes data offset;
  from_propval bs.

Definition set_props (props : list (list u8 * list u8)) (n : FdtNode) : FdtNode :=
  MkNode (node_name n) props (node_subnodes n).
Definition set_subnodes (subs : list (list u8 * FdtNode)) (n : FdtNode) : FdtNode :=
  MkNode (node_name n) (node_props n) subs.

Definition update_phandle_at_offset (name : list u8) (offset : Z) (phandle : u32) : Edit () :=
  n ← get_state;
  data ← ok_or_throw (index_get name (node_props n)) (InvalidName name);
  match four_bytes data offset with
  | Some _ =>
      bytes ← give_outcome (to_propval phandle);
      put_state (set_props
        (index_insert name (takeZ offset data ++ bytes ++ dropZ (offset + SIZE_U32) data)
           (node_props n)) n)
  | None => throw PropertyValueInvalid
  end.

Definition set_prop {T} `{ToFdtPropval T} (name : list u8) (value : T) : Edit () :=
  if negb (is_valid_prop_name name) then throw (InvalidName name)
  else
    bytes ← give_outcome (to_propval value);
    if 2 ^ 32 <=? lengthZ bytes then throw PropertyValueTooLarge
    else n ← get_state; put_state (set_props (index_insert name bytes (node_props n)) n).

Definition subnode (name : list u8) (n : FdtNode) : option FdtNode := index_get name (node_subnodes n).

(** [subnode_mut], with what the caller does to the node it gets. *)
Definition with_subnode_mut {A} (name : list u8) (edit : Edit A) : Edit A :=
  n ← get_state;
  _ ← match subnode name n with
      | Some _ => mret ()
      | None =>
          empty ← give_outcome (FdtNode_empty name);
          put_state (set_subnodes (index_insert name empty (node_subnodes n)) n)
      end;
  n ← get_state;
  match subnode name n with
  | None => abort
  | Some child =>
      let '(r, child') := edit child in
      _ ← put_state (set_subnodes (index_insert name child' (node_subnodes n)) n);
      give_outcome r
  end.

(** ** Paths *)

Definition PATH_SEP : Z := 47.

Fixpoint trim_start (sep : Z) (s : list u8) : list u8 :=
  match s with
  | c :: s' => if uval c =? sep then trim_start sep s' else s
  | [] => []
  end.
Definition trim_end (sep : Z) (s : list u8) : list u8 := rev (trim_start sep (rev s)).

Definition starts_with_sep (s : list u8) : bool :=
  match s with c :: _ => uval c =? PATH_SEP | [] => false end.

Definition sanitize (path : list u8) : outcome FdtError (list u8) :=
  if negb (starts_with_sep path) then Throws InvalidPath
  else if bool_decide (path = [U8 PATH_SEP]) then Returns path
  else
    let path := trim_end PATH_SEP path in
    if (lengthZ path =? 0) || existsb (λ c, lengthZ c =? 0) (drop 1 (split_on PATH_SEP path))
    then Throws InvalidPath
    else if starts_with_sep path then Returns path else Aborts.

(** [Path] is its string; [Path::new]. *)
Definition Path_new (path : list u8) : outcome FdtError (list u8) := sanitize path.

Definition Path_push (path subpath : list u8) : outcome FdtError (list u8) :=
  let new_path :=
    match last path with
    | Some c => if uval c =? PATH_SEP then path else path ++ [U8 PATH_SEP]
    | None => path ++ [U8 PATH_SEP]
    end in
  sanitize (new_path ++ trim_end PATH_SEP (trim_start PATH_SEP subpath)).

Definition Path_iter (path : list u8) : list (list u8) :=
  drop (if bool_decide (path = [U8 PATH_SEP]) then 2 else 1) (split_on PATH_SEP path).

Fixpoint is_prefix_of (l k : list (list u8)) : bool :=
  match l, k with
  | [], _ => true
  | x :: l, y :: k => bool_decide (x = y) && is_prefix_of l k
  | _ :: _, [] => false
  end.
Definition is_child_of (path other : list u8) : bool := is_prefix_of (Path_iter other) (Path_iter path).

(** ** The tree *)

Record FdtReserveEntry := MkReserve { re_address : u64; re_size : u64 }.

Definition RESVMEM_TERMINATOR : FdtReserveEntry := MkReserve (U64 0) (U64 0).

Definition reserve_from_blob : Parser FdtReserveEntry :=
  address ← rdu64; size ← rdu64; mret (MkReserve address size).
Definition reserve_write_blob (e : FdtReserveEntry) : list u8 := u64_be (re_address e) ++ u64_be (re_size e).

Record Fdt := MkFdt {
  reserved_memory : list FdtReserveEntry;
  root : FdtNode;
  fdt_strings : FdtStrings;
  boot_cpuid_phys : u32
}.

Definition Fdt_new (mem_reservations : list FdtReserveEntry) : outcome FdtError Fdt :=
  match FdtNode_empty [] with
  | Returns root => Returns (MkFdt mem_reservations root FdtStrings_default (U32 0))
  | _ => Aborts
  end.

Definition set_boot_cpuid_phys (cpuid : u32) (f : Fdt) : Fdt :=
  MkFdt (reserved_memory f) (root f) (fdt_strings f) cpuid.

(** Every entry takes sixteen bytes. *)
Fixpoint parse_reserved_loop (fuel : nat) (entries : list FdtReserveEntry) : Parser (list FdtReserveEntry) :=
  match fuel with
  | O => abort
  | S fuel =>
      entry ← reserve_from_blob;
      if (re_address entry =? 0) && (re_size entry =? 0) then mret entries
      else parse_reserved_loop fuel (entries ++ [entry])
  end.
Definition parse_reserved_memory : Parser (list FdtReserveEntry) :=
  input ← get_state; parse_reserved_loop (S (length input)) [].

Definition write_reserved_memory (f : Fdt) : list u8 :=
  concat (map reserve_write_blob (reserved_memory f)) ++ reserve_write_blob RESVMEM_TERMINATOR.

(** [&input[from..to]]. *)
Definition slice (input : list u8) (from to : Z) : option (list u8) :=
  if (from <=? to) && (to <=? lengthZ input) then Some (takeZ (to - from) (dropZ from input)) else None.

(** Run a parser on a slice of its own. *)
Definition on_slice {S A} (m : Parser A) (input : list u8) : prog S FdtError A :=
  give_outcome (m input).1.

Definition parse_fdt (input : Blob) : prog () FdtError Fdt :=
  header_blob ← ok_or_throw (slice input 0 HEADER_SIZE) FdtParseError;
  header ← on_slice header_from_blob header_blob;
  if negb (total_size header =? lengthZ input) then throw FdtParseError
  else
    reserved_mem_blob ← checked (slice input (off_mem_rsvmap header) (lengthZ input));
    struct_end ← checked (add_checked (off_dt_struct header) (size_dt_struct header));
    nodes_blob ← checked (slice input (off_dt_struct header) (uval struct_end));
    strings_end ← checked (add_checked (off_dt_strings header) (size_dt_strings header));
    strings_blob ← checked (slice input (off_dt_strings header) (uval strings_end));
    reserved ← on_slice parse_reserved_memory reserved_mem_blob;
    strings ← give_outcome (strings_from_blob strings_blob);
    root ← on_slice (node_from_blob strings) nodes_blob;
    mret (MkFdt reserved root strings (boot_cpuid header)).

Definition Fdt_from_blob (input : Blob) : outcome FdtError Fdt := fst (parse_fdt input ()).

Definition set_root (n : FdtNode) (f : Fdt) : Fdt :=
  MkFdt (reserved_memory f) n (fdt_strings f) (boot_cpuid_phys f).
Definition set_strings (t : FdtStrings) (f : Fdt) : Fdt :=
  MkFdt (reserved_memory f) (root f) t (boot_cpuid_phys f).

Definition write_struct (f : Fdt) : list u8 * Fdt :=
  let '(bs, t) := node_write_blob (root f) (fdt_strings f) in
  (bs ++ u32_be FDT_END, set_strings t f).

Definition finish : prog Fdt FdtError (list u8) :=
  f ← get_state;
  let result := align_data (zeros HEADER_SIZE) SIZE_U64 in
  let off_mem_rsvmap := lengthZ result in
  let result := align_data (result ++ write_reserved_memory f) SIZE_U64 in
  let off_dt_struct := lengthZ result in
  let '(struct, f) := write_struct f in
  _ ← put_state f;
  let result := align_data (result ++ struct) SIZE_U32 in
  let off_dt_strings := lengthZ result in
  let result := result ++ strings (fdt_strings f) in
  if 2 ^ 32 <=? lengthZ result then throw TotalSizeTooLarge
  else
    let total_size := U32 (lengthZ result) in
    strings_size ← checked (sub_checked total_size (U32 off_dt_strings));
    struct_size ← checked (sub_checked (U32 off_dt_strings) (U32 off_dt_struct));
    let header := FdtHeader_new total_size (U32 off_dt_struct) (U32 off_dt_strings) (U32 off_mem_rsvmap)
                    (boot_cpuid_phys f) strings_size struct_size in
    mret (header_write_blob header ++ dropZ HEADER_SIZE result).

(** [root_mut], with what the caller does to the root. *)
Definition with_root_mut {A} (edit : Edit A) : prog Fdt FdtError A := zoom root set_root edit.

Fixpoint follow (names : list (list u8)) (n : FdtNode) : option FdtNode :=
  match names with
  | [] => Some n
  | name :: names => n ← subnode name n; follow names n
  end.

(** The [assert!] of [sanitize] holds, so that [Aborts] is never reached. *)
Definition get_node (path : list u8) (f : Fdt) : option FdtNode :=
  match Path_new path with
  | Returns p => follow (Path_iter p) (root f)
  | _ => None
  end.

(** [get_node_mut], with what the caller does to the node: [None] if there is no
    node at the path. *)
Fixpoint with_follow {A} (names : list (list u8)) (edit : Edit A) : Edit (option A) :=
  match names with
  | [] => a ← edit; mret (Some a)
  | name :: names => λ n,
      match subnode name n with
      | None => (Returns None, n)
      | Some child =>
          let '(r, child') := with_follow names edit child in
          (r, set_subnodes (index_insert name child' (node_subnodes n)) n)
      end
  end.

Definition with_node_mut {A} (path : list u8) (edit : Edit A) : prog Fdt FdtError (option A) :=
  match Path_new path with
  | Returns p => with_root_mut (with_follow (Path_iter p) edit)
  | Throws _ => mret None
  | Aborts => abort
  end.

Definition SYMBOLS_NODE : list u8 := bytes_of_string "__symbols__".

Definition symbol_to_path (symbol : list u8) (f : Fdt) : outcome FdtError (list u8) :=
  match subnode SYMBOLS_NODE (root f) with
  | None => Throws InvalidPath
  | Some symbols_node =>
      match get_prop (T := rstring) symbol symbols_node with
      | None => Throws (InvalidName symbol)
      | Some s => Path_new (sbytes s)
      end
  end.
