(* ===== verification/DeviceTreeFacts.v ===== *)
(** * Device trees: the blob and its parser

    Theorems on [DeviceTree]: the blob that is written is read back as the same
    tree, and the parser is total and only returns well-formed trees. *)

From S2P Require Import Prelude StdIo Checked DeviceTree.

(** ** Bytes *)

Lemma lengthZ_be n z : lengthZ (be_bytes n z) = Z.of_nat n.
Proof. unfold be_bytes, lengthZ. by rewrite length_rev, length_le_split. Qed.

Lemma length_u32_be x : length (u32_be x) = 4%nat.
Proof. done. Qed.

Lemma from_be_bytes n w z : w = (8 * N.of_nat n)%N → to_uint w (from_be (be_bytes n z)) = to_uint w z.
Proof. intros Hw. unfold from_be, be_bytes. rewrite rev_involutive. by apply to_uint_combine_split. Qed.

Lemma u32_be_inv (x : u32) : U32 (from_be (u32_be x)) = x.
Proof. unfold u32_be. by rewrite (from_be_bytes 4 32), to_uint_uval by done. Qed.
Lemma u64_be_inv (x : u64) : U64 (from_be (u64_be x)) = x.
Proof. unfold u64_be. by rewrite (from_be_bytes 8 64), to_uint_uval by done. Qed.

Lemma blob_consume_app bs rest n :
  lengthZ bs = n → blob_consume n (bs ++ rest) = (Returns bs, rest).
Proof.
  intros Hn. unfold blob_consume. run_prog. rewrite lengthZ_app. pose proof (lengthZ_nonneg rest).
  destruct (Z.ltb_spec (lengthZ bs + lengthZ rest) n); [lia|]. by rewrite takeZ_app_eq, dropZ_app_eq.
Qed.

Lemma rdu32_app x rest : rdu32 (u32_be x ++ rest) = (Returns x, rest).
Proof.
  unfold rdu32. erewrite bind_returns by (apply blob_consume_app, lengthZ_be). by rewrite u32_be_inv.
Qed.
Lemma rdu64_app x rest : rdu64 (u64_be x ++ rest) = (Returns x, rest).
Proof.
  unfold rdu64. erewrite bind_returns by (apply blob_consume_app, lengthZ_be). by rewrite u64_be_inv.
Qed.

Lemma align_pad_len_range size : 0 <= align_pad_len size SIZE_U32 < 4.
Proof. apply Z.mod_pos_bound. done. Qed.

Lemma read_token_app tok rest :
  uval tok ≠ FDT_NOP → read_token (u32_be tok ++ rest) = (Returns tok, rest).
Proof.
  intros Htok. unfold read_token. run_prog. cbn [read_token_loop].
  erewrite bind_returns by apply rdu32_app. cbn beta. by destruct (Z.eqb_spec (uval tok) FDT_NOP).
Qed.

(** ** Ordered maps *)

Section index_facts.
Context {V : Type}.
Implicit Types m : list (list u8 * V).

Lemma index_get_None k m : index_get k m = None ↔ k ∉ m.*1.
Proof.
  induction m as [|[k' v] m IH]; cbn; [split; [|done]; intros _ Hin; by apply elem_of_nil in Hin|].
  rewrite not_elem_of_cons. case_bool_decide; [|by rewrite IH; naive_solver]. naive_solver.
Qed.

Lemma index_get_Some k v m : index_get k m = Some v → (k, v) ∈ m.
Proof.
  induction m as [|[k' v'] m IH]; cbn; [done|]. case_bool_decide as Hk; [|by intros; right; apply IH].
  intros [= ->]. subst. left.
Qed.

Lemma index_get_in k v m : NoDup m.*1 → (k, v) ∈ m → index_get k m = Some v.
Proof.
  induction m as [|[k' v'] m IH]; cbn; intros Hnd Hin; [by apply elem_of_nil in Hin|].
  inversion_clear Hnd as [|? ? Hk Hnd']. apply elem_of_cons in Hin as [[= <- <-]|Hin].
  - by rewrite bool_decide_true.
  - case_bool_decide as Heq; [|by apply IH]. subst. destruct Hk. by apply (list_elem_of_fmap_2 fst) in Hin.
Qed.

Lemma index_insert_new k v m : k ∉ m.*1 → index_insert k v m = m ++ [(k, v)].
Proof.
  induction m as [|[k' v'] m IH]; cbn; [done|]. rewrite not_elem_of_cons. intros [Hne Hin].
  rewrite bool_decide_false by done. by rewrite IH.
Qed.

Lemma index_get_insert_eq k v m : index_get k (index_insert k v m) = Some v.
Proof.
  induction m as [|[k' v'] m IH]; cbn; [by rewrite bool_decide_true|].
  case_bool_decide as Hk; cbn; [by rewrite bool_decide_true|]. by rewrite bool_decide_false.
Qed.

Lemma index_get_insert_ne k k' v m : k ≠ k' → index_get k (index_insert k' v m) = index_get k m.
Proof.
  intros Hne. induction m as [|[k1 v1] m IH]; cbn; [by rewrite bool_decide_false|].
  case_bool_decide as Hk; cbn; [|by rewrite IH]. subst. by rewrite bool_decide_false.
Qed.

Lemma index_insert_keys k v m :
  (index_insert k v m).*1 = if bool_decide (k ∈ m.*1) then m.*1 else m.*1 ++ [k].
Proof.
  induction m as [|[k' v'] m IH]; cbn; [done|]. destruct (decide (k = k')) as [->|Hk].
  - rewrite (bool_decide_true (k' = k')) by done. cbn.
    rewrite bool_decide_true; [done|]. rewrite elem_of_cons. by left.
  - rewrite (bool_decide_false (k = k')) by done. cbn. rewrite IH, (bool_decide_ext (k ∈ k' :: m.*1) (k ∈ m.*1)); [by case_bool_decide|].
    rewrite elem_of_cons. naive_solver.
Qed.

Lemma index_insert_NoDup k v m : NoDup m.*1 → NoDup (index_insert k v m).*1.
Proof.
  intros Hnd. rewrite index_insert_keys. case_bool_decide as Hin; [done|].
  apply NoDup_app. split_and!; [done| |by repeat constructor; intros ?%elem_of_nil].
  intros x Hx ->%list_elem_of_singleton. done.
Qed.

Lemma index_insert_Forall (P : list u8 * V → Prop) k v m :
  Forall P m → P (k, v) → Forall P (index_insert k v m).
Proof.
  intros Hm Hkv. induction Hm as [|[k' v'] m Hx Hm IH]; cbn; [by repeat constructor|].
  case_bool_decide; by constructor.
Qed.

End index_facts.

(** ** Names *)

Definition ascii_name (s : list u8) : Prop := Forall (λ c : u8, 0 < c < 128) s.

Lemma allowed_ascii special c :
  forallb (λ x, (0 <? x) && (x <? 128)) special = true → allowed special c = true → 0 < c < 128.
Proof.
  unfold allowed, is_ascii_alphanumeric, in_byte_range. intros Hsp Hc.
  apply orb_true_iff in Hc as [Hc|Hc].
  - repeat (apply orb_true_iff in Hc as [Hc|Hc]); zbool; lia.
  - apply existsb_exists in Hc as (x & Hin & Hx). rewrite forallb_forall in Hsp.
    specialize (Hsp x Hin). zbool. lia.
Qed.

Lemma allowed_names special s :
  forallb (λ x, (0 <? x) && (x <? 128)) special = true →
  forallb (allowed special) s = true → ascii_name s.
Proof.
  intros Hsp Hs. apply Forall_forall. intros c Hc. rewrite forallb_forall in Hs.
  apply (allowed_ascii special); [done|]. by apply Hs, list_elem_of_In.
Qed.

Lemma prop_name_ascii s : is_valid_prop_name s = true → ascii_name s.
Proof. by apply allowed_names. Qed.
Lemma node_name_ascii s : is_valid_node_name s = true → ascii_name s.
Proof. unfold is_valid_node_name. case_match; [done|]. by apply allowed_names. Qed.

Lemma ascii_utf8 s : ascii_name s → utf8_valid s = true.
Proof.
  induction 1 as [|c s Hc _ IH]; cbn [utf8_valid]; [done|]. by destruct (Z.ltb_spec c 0x80); [|lia].
Qed.

Definition no_nuls (s : list u8) : Prop := Forall (λ c : u8, uval c ≠ 0) s.

Lemma ascii_no_nuls s : ascii_name s → no_nuls s.
Proof. intros Hs. eapply Forall_impl; [exact Hs|]. cbn. intros c Hc. lia. Qed.

Lemma until_nul_app s rest : no_nuls s → until_nul (s ++ U8 0 :: rest) = Some s.
Proof.
  induction 1 as [|c s Hc _ IH]; cbn; [done|]. destruct (Z.eqb_spec (uval c) 0); [lia|]. by rewrite IH.
Qed.

Lemma until_nul_Some l s :
  until_nul l = Some s → no_nuls s ∧ ∃ rest, l = s ++ U8 0 :: rest.
Proof.
  revert s. induction l as [|c l IH]; intros s; cbn; [done|].
  destruct (Z.eqb_spec (uval c) 0) as [Hz|Hz].
  - intros [= <-]. split; [constructor|]. exists l. cbn. f_equal. by apply uint_eq.
  - destruct (until_nul l) as [s'|]; [|done]. cbn. intros [= <-].
    destruct (IH s' eq_refl) as (Hs & rest & ->). split; [by constructor|]. by exists rest.
Qed.

Lemma c_str_app s rest : ascii_name s → c_str_to_string (s ++ U8 0 :: rest) = Some s.
Proof.
  intros Hs. unfold c_str_to_string. rewrite until_nul_app by by apply ascii_no_nuls. cbn.
  by rewrite ascii_utf8.
Qed.

Lemma c_str_Some l s :
  c_str_to_string l = Some s → utf8_valid s = true ∧ no_nuls s ∧ ∃ rest, l = s ++ U8 0 :: rest.
Proof.
  unfold c_str_to_string. destruct (until_nul l) as [s'|] eqn:Hl; [|done]. cbn. case_match eqn:Hu; [|done].
  intros [= ->]. apply until_nul_Some in Hl. naive_solver.
Qed.

(** ** The strings block *)

Definition terminated (s : list u8) : list u8 := s ++ [U8 0].

(** [s] with its terminator is at offset [off]. *)
Definition string_at (bytes : list u8) (off : Z) (s : list u8) : Prop :=
  ∃ pre rest, bytes = pre ++ terminated s ++ rest ∧ lengthZ pre = off.

Lemma string_at_prefix b b' off s : b `prefix_of` b' → string_at b off s → string_at b' off s.
Proof.
  intros [k ->] (pre & rest & -> & Hoff). exists pre, (rest ++ k). split; [|done]. by rewrite <-!app_assoc.
Qed.

(** The block consists of terminated strings, those up to the first empty one are
    UTF-8, and the index is right.  A block that is too large is never used. *)
Record strings_ok (t : FdtStrings) : Prop := {
  st_parts : ∃ l, strings t = concat (map terminated l) ∧ Forall no_nuls l ∧
    Forall (λ s, utf8_valid s = true) (take_while_nonempty l);
  st_index : lengthZ (strings t) < 2 ^ 32 → ∀ s (off : u32),
    index_get s (string_offsets t) = Some off → string_at (strings t) off s
}.

Lemma take_while_snoc l s (P : list u8 → Prop) :
  Forall P (take_while_nonempty l) → P s → Forall P (take_while_nonempty (l ++ [s])).
Proof.
  intros Hl Hs. induction l as [|x l IH]; cbn.
  - destruct s; [constructor|]. by repeat constructor.
  - destruct x; [constructor|]. inversion_clear Hl. constructor; [done|]. by apply IH.
Qed.

Lemma intern_string_spec s t off t' :
  strings_ok t → ascii_name s → intern_string s t = (off, t') →
  strings_ok t' ∧ strings t `prefix_of` strings t' ∧
  (lengthZ (strings t') < 2 ^ 32 → string_at (strings t') off s).
Proof.
  intros [Hp Hi] Hs. unfold intern_string. destruct (index_get s (string_offsets t)) as [off'|] eqn:Hg.
  { intros [= <- <-]. split_and!; [by constructor|done|]. intros Hlen. by apply Hi. }
  intros [= <- <-]. cbn [strings string_offsets]. pose proof (lengthZ_nonneg (strings t)).
  assert (Hat : lengthZ (strings t ++ s ++ [U8 0]) < 2 ^ 32 →
    string_at (strings t ++ s ++ [U8 0]) (U32 (lengthZ (strings t))) s).
  { intros Hlen. exists (strings t), []. rewrite app_nil_r. split; [done|].
    rewrite lengthZ_app in Hlen. pose proof (lengthZ_nonneg (s ++ [U8 0])).
    symmetry. apply uval_to_uint_small. cbn [Z.of_N]. lia. }
  split_and!; [|by exists (s ++ [U8 0])|done].
  constructor; cbn [strings string_offsets].
  - destruct Hp as (l & -> & Hl & Hu). exists (l ++ [s]). split_and!.
    + by rewrite map_app, concat_app; cbn; rewrite app_nil_r.
    + apply Forall_app. split; [done|]. constructor; [by apply ascii_no_nuls|done].
    + apply take_while_snoc; [done|]. by apply ascii_utf8.
  - intros Hlen s' off' Hget. destruct (decide (s' = s)) as [->|Hne].
    + rewrite index_get_insert_eq in Hget. injection Hget as <-. by apply Hat.
    + rewrite index_get_insert_ne in Hget by done. eapply string_at_prefix; [by eexists|].
      apply Hi; [|done]. rewrite lengthZ_app in Hlen. pose proof (lengthZ_nonneg (s ++ [U8 0])). lia.
Qed.

Lemma at_offset_ok t (off : u32) s :
  string_at (strings t) off s → ascii_name s → s ≠ [] → at_offset t off = Some s.
Proof.
  intros (pre & rest & Ht & Hoff) Hs Hne. unfold at_offset. rewrite Ht, lengthZ_app, Hoff.
  pose proof (lengthZ_nonneg (terminated s ++ rest)).
  destruct (Z.ltb_spec (off + lengthZ (terminated s ++ rest)) off); [lia|].
  rewrite dropZ_app_eq by done. unfold terminated. rewrite <-app_assoc. cbn [app].
  rewrite c_str_app by done. cbn. destruct (Z.eqb_spec (lengthZ s) 0) as [Hz|]; [|done].
  destruct s; [done|]. rewrite lengthZ_cons in Hz. pose proof (lengthZ_nonneg s). lia.
Qed.

Lemma split_terminated l : Forall no_nuls l → split_on 0 (concat (map terminated l)) = l ++ [[]].
Proof.
  induction 1 as [|s l Hs _ IH]; cbn [map concat]; [done|].
  unfold terminated at 1. rewrite <-app_assoc. cbn [app].
  rewrite split_on_app by exact Hs. change (split_on 0 (U8 0 :: ?r)) with ([] :: split_on 0 r).
  by rewrite IH, app_nil_r.
Qed.

Definition ends_with_nul (l : list u8) : Prop :=
  match last l with Some b => uval b = 0 | None => True end.

#[local] Instance ends_with_nul_dec l : Decision (ends_with_nul l).
Proof. unfold ends_with_nul. destruct (last l); apply _. Defined.

Lemma terminated_parts input :
  ends_with_nul input → ∃ l, input = concat (map terminated l) ∧ Forall no_nuls l.
Proof.
  unfold ends_with_nul. induction input as [|c input IH]; intros Hlast; [by exists []|].
  destruct input as [|c' input].
  { cbn in Hlast. exists [[]]. split; [|by repeat constructor]. cbn. f_equal. by apply uint_eq. }
  destruct IH as (l & Hl & Hn); [done|]. rewrite Hl. destruct (decide (uval c = 0)) as [Hz|Hz].
  - exists ([] :: l). split; [|by constructor; [constructor|]]. cbn. f_equal. by apply uint_eq.
  - destruct l as [|s l]; [done|]. exists ((c :: s) :: l). inversion_clear Hn.
    split; [done|]. constructor; [by constructor|done].
Qed.

Lemma last_terminated l : ends_with_nul (concat (map terminated l)).
Proof.
  unfold ends_with_nul. induction l as [|s l IH] using rev_ind; [done|].
  rewrite map_app, concat_app. cbn. unfold terminated. by rewrite app_nil_r, app_assoc, last_snoc.
Qed.

Definition index_right (bytes : list u8) (m : list (list u8 * u32)) : Prop :=
  ∀ s (off : u32), index_get s m = Some off → string_at bytes off s.

Lemma index_strings_spec bytes l pre (off : u32) m :
  bytes = pre ++ concat (map terminated l) → lengthZ pre = off → lengthZ bytes < 2 ^ 32 →
  index_right bytes m →
  match index_strings (l ++ [[]]) off m with
  | Returns m' => index_right bytes m' ∧ Forall (λ s, utf8_valid s = true) (take_while_nonempty l)
  | Throws _ => ¬ Forall (λ s, utf8_valid s = true) (take_while_nonempty l)
  | Aborts => False
  end.
Proof.
  intros Hb Hpre Hlen Hm. revert pre off m Hb Hpre Hm. induction l as [|s l IH]; intros pre off m Hb Hpre Hm.
  { cbn. split; [done|constructor]. }
  cbn [app index_strings take_while_nonempty]. pose proof (lengthZ_nonneg s).
  destruct s as [|c s]; [done|]. remember (c :: s) as str eqn:Hstr.
  destruct (Z.eqb_spec (lengthZ str) 0) as [Hz|_].
  { subst str. rewrite lengthZ_cons in Hz. pose proof (lengthZ_nonneg s). lia. }
  destruct (utf8_valid str) eqn:Hu; cbn [negb]; [|by intros Hf; inversion_clear Hf; congruence].
  cbn [map concat] in Hb.
  assert (Hb' : bytes = (pre ++ terminated str) ++ concat (map terminated l)) by by rewrite <-app_assoc.
  assert (Hl' : lengthZ (pre ++ terminated str) = off + (lengthZ str + 1)).
  { unfold terminated. rewrite !lengthZ_app, lengthZ_cons, lengthZ_nil. lia. }
  assert (Htot : off + (lengthZ str + 1) < 2 ^ 32).
  { rewrite Hb', lengthZ_app in Hlen. pose proof (lengthZ_nonneg (concat (map terminated l))). lia. }
  pose proof (uint_range off). destruct (Z.leb_spec (2 ^ 32) (lengthZ str + 1)); [lia|].
  destruct (add_checked off (U32 (lengthZ str + 1))) as [off'|] eqn:Ho; last first.
  { apply add_checked_None in Ho. rewrite uval_to_uint_small in Ho by (cbn [Z.of_N]; lia). cbn [Z.of_N] in Ho. lia. }
  apply add_checked_Some in Ho. rewrite uval_to_uint_small in Ho by (cbn [Z.of_N]; lia).
  assert (Hm' : index_right bytes (index_insert str off m)).
  { intros s' o Hg. destruct (decide (s' = str)) as [->|Hne].
    - rewrite index_get_insert_eq in Hg. injection Hg as <-. by exists pre, (concat (map terminated l)).
    - rewrite index_get_insert_ne in Hg by done. by apply Hm. }
  specialize (IH (pre ++ terminated str) off' (index_insert str off m) Hb' ltac:(lia) Hm').
  destruct (index_strings (l ++ [[]]) off' (index_insert str off m)) as [m'|e|]; [|by inversion_clear 1|done].
  destruct IH as [Hr Hf]. split; [done|by constructor].
Qed.

Lemma strings_from_parts l :
  Forall no_nuls l → lengthZ (concat (map terminated l)) < 2 ^ 32 →
  match strings_from_blob (concat (map terminated l)) with
  | Returns u => strings u = concat (map terminated l) ∧ strings_ok u
  | Throws _ => ¬ Forall (λ s, utf8_valid s = true) (take_while_nonempty l)
  | Aborts => False
  end.
Proof.
  intros Hl Hlen. pose proof (last_terminated l) as Hlast. unfold ends_with_nul in Hlast.
  unfold strings_from_blob. rewrite split_terminated by done.
  remember (concat (map terminated l)) as bytes eqn:Hb.
  assert (Hend : match last bytes with Some b => negb (uval b =? 0) | None => false end = false).
  { destruct (last bytes); [|done]. by rewrite Hlast. }
  rewrite Hend. pose proof (index_strings_spec bytes l [] (U32 0) [] Hb eq_refl Hlen) as Hi.
  destruct (index_strings (l ++ [[]]) (U32 0) []) as [m|e|]; [|by apply Hi..].
  destruct Hi as [Hr Hf]; [done|]. split; [done|]. constructor; [by exists l|]. intros _. exact Hr.
Qed.

Lemma strings_from_blob_spec input :
  lengthZ input < 2 ^ 32 →
  match strings_from_blob input with
  | Returns u => strings u = input ∧ strings_ok u
  | Throws _ => True
  | Aborts => False
  end.
Proof.
  intros Hlen. destruct (decide (ends_with_nul input)) as [He|He].
  - destruct (terminated_parts input He) as (l & -> & Hl). pose proof (strings_from_parts l Hl Hlen) as H.
    by destruct (strings_from_blob _).
  - unfold strings_from_blob, ends_with_nul in *. destruct (last input) as [b|]; [|done].
    by destruct (Z.eqb_spec (uval b) 0).
Qed.

Lemma strings_from_blob_ok t :
  strings_ok t → lengthZ (strings t) < 2 ^ 32 →
  ∃ u, strings_from_blob (strings t) = Returns u ∧ strings u = strings t.
Proof.
  intros [(l & Ht & Hl & Hf) _] Hlen. rewrite Ht in *. pose proof (strings_from_parts l Hl Hlen) as H.
  destruct (strings_from_blob _) as [u|e|]; [|done..]. exists u. by destruct H.
Qed.

Lemma strings_default_ok : strings_ok FdtStrings_default.
Proof. constructor; [by exists []|done]. Qed.

(** ** Well-formed trees *)

Lemma FdtNode_tree_ind (P : FdtNode → Prop) :
  (∀ name props subs, Forall (λ p, P p.2) subs → P (MkNode name props subs)) → ∀ n, P n.
Proof.
  intros Hstep. fix IH 1. intros [name props subs]. apply Hstep.
  induction subs as [|[k n] subs IHs]; constructor; [apply IH|exact IHs].
Qed.

Definition prop_ok (p : list u8 * list u8) : Prop :=
  is_valid_prop_name p.1 = true ∧ p.1 ≠ [] ∧ lengthZ p.2 < 2 ^ 32.

(** Names are valid and those of properties not empty, keys are distinct, a
    subnode is under its own name. *)
Inductive node_ok : FdtNode → Prop :=
  | node_ok_intro name props subs :
      is_valid_node_name name = true →
      NoDup props.*1 → Forall prop_ok props →
      NoDup subs.*1 → Forall (λ p, node_name p.2 = p.1) subs →
      (∀ k n, (k, n) ∈ subs → node_ok n) →
      node_ok (MkNode name props subs).

(** ** Writing a node *)

Fixpoint write_subnodes (l : list (list u8 * FdtNode)) (t : FdtStrings) : list u8 * FdtStrings :=
  match l with
  | [] => ([], t)
  | (_, n) :: l =>
      let '(bs, t) := node_write_blob n t in
      let '(rest, t) := write_subnodes l t in
      (bs ++ rest, t)
  end.

(** The bytes of a node after its first token. *)
Definition node_body (n : FdtNode) (t : FdtStrings) : list u8 * FdtStrings :=
  let 'MkNode name props subs := n in
  let '(pbytes, t) := write_props props t in
  let '(sbytes, t) := write_subnodes subs t in
  (terminated name ++ zeros (align_pad_len (lengthZ name + 1) SIZE_U32)
   ++ pbytes ++ sbytes ++ u32_be FDT_END_NODE, t).

Lemma node_write_body n t :
  node_write_blob n t = let '(bs, t') := node_body n t in (u32_be FDT_BEGIN_NODE ++ bs, t').
Proof.
  destruct n as [name props subs]. cbn [node_write_blob node_body].
  destruct (write_props props t) as [pb t1].
  assert (Hs : ∀ l t, (fix write_subnodes l t :=
    match l with
    | [] => ([], t)
    | (_, n) :: l =>
        let '(bs, t) := node_write_blob n t in
        let '(rest, t) := write_subnodes l t in (bs ++ rest, t)
    end) l t = write_subnodes l t).
  { intros l. induction l as [|[k n] l IH]; intros t'; cbn; [done|].
    destruct (node_write_blob n t') as [b t2]. by rewrite IH. }
  rewrite Hs. destruct (write_subnodes subs t1) as [sb t2]. unfold terminated. by rewrite <-app_assoc.
Qed.

(** The strings only grow. *)
Lemma write_props_strings props t bs t' :
  Forall prop_ok props → strings_ok t → write_props props t = (bs, t') →
  strings_ok t' ∧ strings t `prefix_of` strings t'.
Proof.
  intros Hp. revert t bs t'. induction Hp as [|[k v] props (Hk & _) Hp IH]; intros t bs t' Ht; cbn.
  { by intros [= <- <-]. }
  destruct (intern_string k t) as [off t1] eqn:Hi.
  destruct (intern_string_spec k t off t1) as (Ht1 & Hpre & _); [done|by apply prop_name_ascii|done|].
  destruct (write_props props t1) as [rest t2] eqn:Hw. intros [= <- <-].
  destruct (IH t1 rest t2) as [Ht2 Hpre2]; [done..|]. split; [done|]. by etrans.
Qed.

Lemma node_body_strings n t bs t' :
  node_ok n → strings_ok t → node_body n t = (bs, t') →
  strings_ok t' ∧ strings t `prefix_of` strings t'.
Proof.
  revert t bs t'. induction n as [name props subs IH] using FdtNode_tree_ind. intros t bs t' Hn Ht.
  inversion_clear Hn as [? ? ? _ _ Hp _ _ Hok]. cbn [node_body].
  destruct (write_props props t) as [pb t1] eqn:Hw. destruct (write_props_strings _ _ _ _ Hp Ht Hw) as [Ht1 Hpre].
  destruct (write_subnodes subs t1) as [sb t2] eqn:Hs. intros [= _ <-].
  assert (Hgo : strings_ok t2 ∧ strings t1 `prefix_of` strings t2); [|destruct Hgo; split; [done|by etrans]].
  clear Hw Hpre. revert t1 sb t2 Ht1 Hs. induction IH as [|[k n] subs Hn IHs IH]; intros t1 sb t2 Ht1; cbn.
  { by intros [= _ <-]. }
  rewrite node_write_body. destruct (node_body n t1) as [b t3] eqn:Hb.
  destruct (write_subnodes subs t3) as [rest t4] eqn:Hr. intros [= _ <-].
  destruct (Hn t1 b t3) as [Ht3 Hpre3]; [by apply (Hok k); left|done|done|].
  destruct (IH ltac:(intros k' n' Hin; apply (Hok k'); by right) t3 rest t4 Ht3 Hr) as [Ht4 Hpre4].
  split; [done|]. by etrans.
Qed.

(** ** Reading what was written *)

Lemma lengthZ_app_pad a b n :
  lengthZ (a ++ zeros (align_pad_len n SIZE_U32) ++ b) = lengthZ a + align_pad_len n SIZE_U32 + lengthZ b.
Proof. pose proof (align_pad_len_range n). rewrite !lengthZ_app, lengthZ_zeros by lia. lia. Qed.

Lemma parse_prop_app t (off : u32) k v rest :
  string_at (strings t) off k → prop_ok (k, v) →
  parse_prop t (u32_be (U32 (lengthZ v)) ++ u32_be off ++ v
    ++ zeros (align_pad_len (lengthZ v) SIZE_U32) ++ rest) = (Returns (k, v), rest).
Proof.
  intros Hat (Hk & Hne & Hv). cbn [fst snd] in *. pose proof (lengthZ_nonneg v). unfold parse_prop.
  assert (Hlen : uval (U32 (lengthZ v)) = lengthZ v) by (apply uval_to_uint_small; cbn [Z.of_N]; lia).
  erewrite bind_returns by apply rdu32_app. erewrite bind_returns by apply rdu32_app. rewrite Hlen.
  pose proof (align_pad_len_range (lengthZ v)). rewrite (app_assoc v).
  erewrite bind_returns.
  2:{ apply blob_consume_app. rewrite lengthZ_app, lengthZ_zeros by lia. done. }
  rewrite (at_offset_ok t off k) by (done || by apply prop_name_ascii).
  run_prog. by rewrite takeZ_app_exact.
Qed.

(** The state of the loop after reading a token. *)
Lemma parse_items_token fuel u props subs enc tok rest :
  uval tok ≠ FDT_NOP →
  parse_items (S fuel) u props subs enc (u32_be tok ++ rest) =
  (if uval tok =? FDT_BEGIN_NODE then
     subnode ← parse_node fuel u;
     match index_get (node_name subnode) subs with
     | None => parse_items fuel u props (index_insert (node_name subnode) subnode subs) true
     | Some _ => throw (DuplicateNode (node_name subnode))
     end
   else if uval tok =? FDT_END_NODE then mret (props, subs)
   else if uval tok =? FDT_PROP then
     if enc then throw FdtParseError
     else '(prop_name, value) ← parse_prop u; parse_items fuel u (index_insert prop_name value props) subs enc
   else if uval tok =? FDT_NOP then parse_items fuel u props subs enc
   else throw FdtParseError) rest.
Proof. intros Htok. cbn [parse_items]. by erewrite bind_returns by by apply read_token_app. Qed.

Lemma parse_props_app props t bs t' u acc rest fuel :
  Forall prop_ok props → strings_ok t → write_props props t = (bs, t') →
  lengthZ (strings t') < 2 ^ 32 → strings t' `prefix_of` strings u →
  NoDup (acc.*1 ++ props.*1) → (length (bs ++ rest) < fuel)%nat →
  ∃ fuel', (length rest < fuel')%nat ∧
    parse_items fuel u acc [] false (bs ++ rest) = parse_items fuel' u (acc ++ props) [] false rest.
Proof.
  intros Hp. revert t bs t' acc fuel. induction Hp as [|[k v] props Hkv Hp IH]; intros t bs t' acc fuel Ht.
  { cbn. intros [= <- <-] _ _ _ Hf. exists fuel. split; [done|]. by rewrite app_nil_r. }
  cbn [write_props]. destruct (intern_string k t) as [off t1] eqn:Hi.
  destruct (intern_string_spec k t off t1) as (Ht1 & Hpre & Hat); [done|by apply prop_name_ascii, Hkv|done|].
  destruct (write_props props t1) as [rbs t2] eqn:Hw. intros [<- <-]%pair_equal_spec Hlen Hu Hnd Hf.
  destruct (write_props_strings _ _ _ _ Hp Ht1 Hw) as [_ Hpre2].
  assert (Hlen1 : lengthZ (strings t1) < 2 ^ 32).
  { destruct Hpre2 as [x Hx]. rewrite Hx, lengthZ_app in Hlen. pose proof (lengthZ_nonneg x). lia. }
  assert (Hat' : string_at (strings u) off k).
  { eapply string_at_prefix; [by etrans|]. by apply Hat. }
  destruct fuel as [|fuel]; [lia|]. rewrite <-!app_assoc, parse_items_token by done.
  change (if uval FDT_PROP =? FDT_BEGIN_NODE then ?a else if uval FDT_PROP =? FDT_END_NODE then ?b else
    if uval FDT_PROP =? FDT_PROP then ?c else ?d) with c. cbn beta iota.
  erewrite bind_returns by by apply parse_prop_app. cbn beta iota.
  cbn [fmap list_fmap] in Hnd. rewrite index_insert_new.
  2:{ apply NoDup_app in Hnd as (_ & Hd & _). intros Hin. apply (Hd k Hin). by left. }
  destruct (IH t1 rbs t2 (acc ++ [(k, v)]) fuel) as (fuel' & Hf' & Heq); [done..| | |].
  - rewrite fmap_app. cbn. by rewrite <-app_assoc.
  - rewrite !length_app, !length_u32_be in *. lia.
  - exists fuel'. split; [done|]. rewrite Heq. by rewrite <-app_assoc.
Qed.

Lemma new_ok name props subs :
  node_ok (MkNode name props subs) → FdtNode_new name props subs = Returns (MkNode name props subs).
Proof.
  intros Hn. inversion_clear Hn as [? ? ? Hname _ Hp _ _ _]. unfold FdtNode_new. rewrite Hname. cbn [negb].
  destruct (List.find _ props) as [[k v]|] eqn:Hf; [|done].
  apply List.find_some in Hf as [Hin Hk]. rewrite Forall_forall in Hp.
  destruct (Hp (k, v)) as [Hv _]; [by apply list_elem_of_In|]. cbn [fst] in Hv. by rewrite Hv in Hk.
Qed.

(** What [parse_node] does on the bytes of a node. *)
Definition reads_back (n : FdtNode) : Prop := ∀ t bs t' u rest fuel,
  node_ok n → strings_ok t → node_body n t = (bs, t') →
  lengthZ (strings t') < 2 ^ 32 → strings t' `prefix_of` strings u →
  (length (bs ++ rest) < fuel)%nat → parse_node fuel u (bs ++ rest) = (Returns n, rest).

Lemma prefix_short (a b : list u8) : a `prefix_of` b → lengthZ b < 2 ^ 32 → lengthZ a < 2 ^ 32.
Proof. intros [k ->]. rewrite lengthZ_app. pose proof (lengthZ_nonneg k). lia. Qed.

Lemma write_subnodes_strings subs t bs t' :
  (∀ k n, (k, n) ∈ subs → node_ok n) → strings_ok t → write_subnodes subs t = (bs, t') →
  strings_ok t' ∧ strings t `prefix_of` strings t'.
Proof.
  revert t bs t'. induction subs as [|[k n] subs IH]; intros t bs t' Hok Ht; cbn [write_subnodes].
  { by intros [= _ <-]. }
  rewrite node_write_body. destruct (node_body n t) as [b t1] eqn:Hb.
  destruct (write_subnodes subs t1) as [rest t2] eqn:Hr. intros [_ <-]%pair_equal_spec.
  destruct (node_body_strings n t b t1) as [Ht1 Hpre]; [by apply (Hok k); left|done|done|].
  destruct (IH t1 rest t2) as [Ht2 Hpre2]; [|done|done|split; [done|by etrans]].
  intros k' n' Hin. apply (Hok k'). by right.
Qed.

Lemma parse_subnodes_app subs t bs t' u props acc enc rest fuel :
  Forall (λ p, reads_back p.2) subs → (∀ k n, (k, n) ∈ subs → node_ok n) →
  Forall (λ p, node_name p.2 = p.1) subs → strings_ok t → write_subnodes subs t = (bs, t') →
  lengthZ (strings t') < 2 ^ 32 → strings t' `prefix_of` strings u →
  NoDup (acc.*1 ++ subs.*1) → (length (bs ++ rest) < fuel)%nat →
  ∃ fuel' enc', (length rest < fuel')%nat ∧
    parse_items fuel u props acc enc (bs ++ rest) = parse_items fuel' u props (acc ++ subs) enc' rest.
Proof.
  intros Hback Hok. revert t bs t' acc enc fuel.
  induction Hback as [|[k n] subs Hn Hback IH]; intros t bs t' acc enc fuel Hkeys Ht.
  { cbn. intros [= <- <-] _ _ _ Hf. exists fuel, enc. split; [done|]. by rewrite app_nil_r. }
  cbn [write_subnodes]. rewrite node_write_body. destruct (node_body n t) as [b t1] eqn:Hb.
  destruct (write_subnodes subs t1) as [rbs t2] eqn:Hr. intros [<- <-]%pair_equal_spec Hlen Hu Hnd Hf.
  inversion_clear Hkeys as [|? ? Hk Hkeys']. cbn in Hk. subst k.
  assert (Hn_ok : node_ok n) by (apply (Hok (node_name n)); left).
  assert (Hok' : ∀ k n, (k, n) ∈ subs → node_ok n) by (intros k' n' Hin; apply (Hok k'); by right).
  destruct (node_body_strings n t b t1 Hn_ok Ht Hb) as [Ht1 _].
  destruct (write_subnodes_strings subs t1 rbs t2 Hok' Ht1 Hr) as [_ Hpre2].
  destruct fuel as [|fuel]; [lia|]. rewrite <-!app_assoc, parse_items_token by done.
  change (if uval FDT_BEGIN_NODE =? FDT_BEGIN_NODE then ?a else ?b) with a.
  rewrite !length_app, length_u32_be in Hf.
  erewrite bind_returns.
  2:{ apply (Hn t b t1); try done; [by eapply prefix_short|by etrans|rewrite !length_app; lia]. }
  cbn [snd]. cbn [fmap list_fmap fst] in Hnd. assert (Hnew : node_name n ∉ acc.*1).
  { apply NoDup_app in Hnd as (_ & Hd & _). intros Hin. apply (Hd _ Hin). by left. }
  rewrite (proj2 (index_get_None _ _) Hnew), index_insert_new by done.
  destruct (IH Hok' t1 rbs t2 (acc ++ [(node_name n, n)]) true fuel) as (fuel' & enc' & Hf' & Heq); try done.
  - rewrite fmap_app. cbn. by rewrite <-app_assoc.
  - rewrite length_app. lia.
  - exists fuel', enc'. split; [done|]. rewrite Heq. by rewrite <-app_assoc.
Qed.

Lemma node_reads_back n : reads_back n.
Proof.
  induction n as [name props subs IH] using FdtNode_tree_ind.
  intros t bs t' u rest fuel Hn Ht. cbn [node_body]. pose proof Hn as Hn'.
  inversion_clear Hn' as [? ? ? Hname Hnd Hp Hnds Hkeys Hok].
  destruct (write_props props t) as [pb t1] eqn:Hw. destruct (write_props_strings _ _ _ _ Hp Ht Hw) as [Ht1 _].
  destruct (write_subnodes subs t1) as [sb t2] eqn:Hs. intros [<- <-]%pair_equal_spec Hlen Hu Hf.
  destruct (write_subnodes_strings subs t1 sb t2 Hok Ht1 Hs) as [_ Hpre].
  destruct fuel as [|fuel]; [lia|]. pose proof (align_pad_len_range (lengthZ name + 1)) as Hpad.
  cbn [parse_node]. rewrite <-!app_assoc in *. unfold terminated at 1. rewrite <-app_assoc.
  run_prog. cbn [app]. rewrite (c_str_app name) by by apply node_name_ascii.
  replace (name ++ U8 0 :: zeros (align_pad_len (lengthZ name + 1) SIZE_U32) ++ pb ++ sb ++ u32_be FDT_END_NODE ++ rest)
    with ((terminated name ++ zeros (align_pad_len (lengthZ name + 1) SIZE_U32)) ++ pb ++ sb ++ u32_be FDT_END_NODE ++ rest)
    by (unfold terminated; by rewrite <-!app_assoc).
  rewrite blob_consume_app.
  2:{ unfold terminated. rewrite !lengthZ_app, lengthZ_zeros, lengthZ_cons, lengthZ_nil by lia. lia. }
  unfold terminated in Hf. rewrite !length_app in Hf. cbn [length] in Hf.
  destruct (parse_props_app props t pb t1 u [] (sb ++ u32_be FDT_END_NODE ++ rest) fuel)
    as (fuel1 & Hf1 & Heq1); try done; [by eapply prefix_short|by etrans|rewrite !length_app; lia|].
  destruct (parse_subnodes_app subs t1 sb t2 u props [] false (u32_be FDT_END_NODE ++ rest) fuel1)
    as (fuel2 & enc & Hf2 & Heq2); try done.
  destruct fuel2 as [|fuel2]; [lia|]. cbn [app] in Heq1, Heq2. rewrite Heq1, Heq2, parse_items_token by done.
  change (if uval FDT_END_NODE =? FDT_BEGIN_NODE then ?a else if uval FDT_END_NODE =? FDT_END_NODE then ?b else ?c)
    with b. run_prog. unfold give_outcome. by rewrite new_ok.
Qed.

(** ** The whole blob *)

Definition is_terminator (e : FdtReserveEntry) : bool := (re_address e =? 0) && (re_size e =? 0).

Lemma reserve_app e rest : reserve_from_blob (reserve_write_blob e ++ rest) = (Returns e, rest).
Proof.
  unfold reserve_from_blob, reserve_write_blob. rewrite <-app_assoc.
  erewrite bind_returns by apply rdu64_app. erewrite bind_returns by apply rdu64_app. by destruct e.
Qed.

Lemma length_reserve e : length (reserve_write_blob e) = 16%nat.
Proof. done. Qed.

Lemma parse_reserved_app entries acc rest fuel :
  Forall (λ e, is_terminator e = false) entries → (length entries < fuel)%nat →
  parse_reserved_loop fuel acc
    (concat (map reserve_write_blob entries) ++ reserve_write_blob RESVMEM_TERMINATOR ++ rest) =
  (Returns (acc ++ entries), rest).
Proof.
  intros He. revert acc fuel. induction He as [|e entries He Hes IH]; intros acc fuel Hf.
  - destruct fuel as [|fuel]; [cbn in Hf; lia|]. cbn [map concat app parse_reserved_loop].
    erewrite bind_returns by apply reserve_app. cbn. by rewrite app_nil_r.
  - destruct fuel as [|fuel]; [cbn in Hf; lia|]. cbn [map concat parse_reserved_loop]. rewrite <-app_assoc.
    erewrite bind_returns by apply reserve_app. fold (is_terminator e). rewrite He.
    rewrite IH by (cbn in Hf; lia). by rewrite <-app_assoc.
Qed.

Lemma parse_reserved_memory_app f rest :
  Forall (λ e, is_terminator e = false) (reserved_memory f) →
  (parse_reserved_memory (write_reserved_memory f ++ rest)).1 = Returns (reserved_memory f).
Proof.
  intros He. unfold parse_reserved_memory, write_reserved_memory. run_prog. rewrite <-app_assoc.
  rewrite parse_reserved_app; [done|done|]. rewrite length_app. apply Nat.lt_succ_r.
  assert (Hl : (length (reserved_memory f) <= length (concat (map reserve_write_blob (reserved_memory f))))%nat).
  { generalize (reserved_memory f). intros l. induction l as [|e l IH]; cbn [map concat]; [done|].
    rewrite length_app, length_reserve. cbn. lia. }
  lia.
Qed.

Lemma read_header_app h rest : read_header (header_write_blob h ++ rest) = (Returns h, rest).
Proof.
  unfold header_write_blob. cbn [map concat]. rewrite <-!app_assoc. unfold read_header.
  do 10 erewrite bind_returns by apply rdu32_app. by destruct h.
Qed.

Lemma lengthZ_header h : lengthZ (header_write_blob h) = HEADER_SIZE.
Proof. done. Qed.

Lemma slice_mid (a b c : list u8) from to :
  lengthZ a = from → lengthZ b = to - from → slice (a ++ b ++ c) from to = Some b.
Proof.
  intros Ha Hb. pose proof (lengthZ_nonneg b). pose proof (lengthZ_nonneg c). unfold slice.
  rewrite !lengthZ_app.
  destruct (Z.leb_spec from to); [|lia]. destruct (Z.leb_spec to (lengthZ a + (lengthZ b + lengthZ c))); [|lia].
  cbn. rewrite dropZ_app_eq by done. by rewrite takeZ_app_eq by lia.
Qed.

(** A blob in the order in which [finish] writes its blocks. *)
Definition layout (a b c : list u8) (cpuid : u32) : list u8 :=
  header_write_blob (FdtHeader_new (U32 (HEADER_SIZE + lengthZ a + lengthZ b + lengthZ c))
    (U32 (HEADER_SIZE + lengthZ a)) (U32 (HEADER_SIZE + lengthZ a + lengthZ b)) (U32 HEADER_SIZE) cpuid
    (U32 (lengthZ c)) (U32 (lengthZ b))) ++ a ++ b ++ c.

Lemma header_from_layout (a b c : list u8) cpuid :
  let total := HEADER_SIZE + lengthZ a + lengthZ b + lengthZ c in
  total < 2 ^ 32 → 0 < lengthZ a →
  let h := FdtHeader_new (U32 total) (U32 (HEADER_SIZE + lengthZ a))
    (U32 (HEADER_SIZE + lengthZ a + lengthZ b)) (U32 HEADER_SIZE) cpuid (U32 (lengthZ c)) (U32 (lengthZ b)) in
  (header_from_blob (header_write_blob h)).1 = Returns h.
Proof.
  intros total Ht Ha h. pose proof (lengthZ_nonneg b). pose proof (lengthZ_nonneg c). unfold HEADER_SIZE, SIZE_U32 in *.
  assert (Hu : ∀ z, 0 <= z <= total → uval (U32 z) = z).
  { intros z Hz. apply uval_to_uint_small. cbn [Z.of_N]. lia. }
  unfold header_from_blob. erewrite bind_returns by done. rewrite lengthZ_header, Z.ltb_irrefl.
  pose proof (read_header_app h []) as Hr. rewrite app_nil_r in Hr.
  erewrite bind_returns by exact Hr. clear Hr.
  unfold h, FdtHeader_new, HEADER_SIZE, SIZE_U32 in *. cbn [Z.ltb magic version off_dt_strings off_mem_rsvmap
    off_dt_struct size_dt_struct size_dt_strings total_size].
  rewrite Z.eqb_refl, Z.ltb_irrefl. cbn [negb]. change (10 * 4) with 40 in *.
  rewrite !Hu by (unfold total; lia).
  destruct (Z.leb_spec (40 + lengthZ a + lengthZ b) 40); [lia|]. cbn [orb].
  change (40 <? 40) with false. cbn iota.
  destruct (add_checked (U32 (40 + lengthZ a)) (U32 (lengthZ b))) as [se|] eqn:Hse; last first.
  { apply add_checked_None in Hse. rewrite !Hu in Hse by (unfold total; lia). cbn [Z.of_N] in Hse. lia. }
  apply add_checked_Some in Hse. rewrite !Hu in Hse by (unfold total; lia).
  run_prog. destruct (Z.ltb_spec (40 + lengthZ a + lengthZ b) (uval se)); [lia|].
  destruct (add_checked (U32 (40 + lengthZ a + lengthZ b)) (U32 (lengthZ c))) as [ce|] eqn:Hce; last first.
  { apply add_checked_None in Hce. rewrite !Hu in Hce by (unfold total; lia). cbn [Z.of_N] in Hce. lia. }
  apply add_checked_Some in Hce. rewrite !Hu in Hce by (unfold total; lia).
  destruct (Z.ltb_spec total (uval ce)); [lia|]. done.
Qed.

Lemma from_layout a b c cpuid reserved t r :
  HEADER_SIZE + lengthZ a + lengthZ b + lengthZ c < 2 ^ 32 → 0 < lengthZ a →
  (parse_reserved_memory (a ++ b ++ c)).1 = Returns reserved →
  strings_from_blob c = Returns t → (node_from_blob t b).1 = Returns r →
  Fdt_from_blob (layout a b c cpuid) = Returns (MkFdt reserved r t cpuid).
Proof.
  intros Ht Ha Hres Hstr Hnode. pose proof (lengthZ_nonneg b). pose proof (lengthZ_nonneg c).
  pose proof (header_from_layout a b c cpuid Ht Ha) as Hh. cbv zeta in Hh. unfold Fdt_from_blob, parse_fdt, layout.
  set (h := FdtHeader_new _ _ _ _ _ _ _) in *. set (hb := header_write_blob h) in *.
  assert (Hhb : lengthZ hb = 40) by done. unfold HEADER_SIZE, SIZE_U32 in *. change (10 * 4) with 40 in *.
  assert (Hu : ∀ z, 0 <= z <= 40 + lengthZ a + lengthZ b + lengthZ c → uval (U32 z) = z).
  { intros z Hz. apply uval_to_uint_small. cbn [Z.of_N]. lia. }
  erewrite bind_returns.
  2:{ change hb with ([] ++ hb) at 1. rewrite <-app_assoc.
      rewrite (slice_mid [] hb (a ++ b ++ c) 0 40); [done|done|lia]. }
  erewrite bind_returns by (unfold on_slice, give_outcome; by rewrite Hh).
  unfold h, FdtHeader_new. cbn [total_size off_mem_rsvmap off_dt_struct size_dt_struct off_dt_strings size_dt_strings boot_cpuid].
  rewrite !Hu by lia. rewrite !lengthZ_app, Hhb.
  destruct (Z.eqb_spec (40 + lengthZ a + lengthZ b + lengthZ c) (40 + (lengthZ a + (lengthZ b + lengthZ c)))); [|lia].
  cbn [negb]. erewrite bind_returns.
  2:{ pose proof (slice_mid hb (a ++ b ++ c) [] 40 (40 + (lengthZ a + (lengthZ b + lengthZ c)))) as Hsl.
      rewrite !app_nil_r in Hsl. rewrite Hsl; [done|done|rewrite !lengthZ_app; lia]. }
  destruct (add_checked (U32 (40 + lengthZ a)) (U32 (lengthZ b))) as [se|] eqn:Hse; last first.
  { apply add_checked_None in Hse. rewrite !Hu in Hse by lia. cbn [Z.of_N] in Hse. lia. }
  apply add_checked_Some in Hse. rewrite !Hu in Hse by lia. erewrite bind_returns by done.
  erewrite bind_returns.
  2:{ rewrite app_assoc, (slice_mid (hb ++ a) b c); [done|rewrite lengthZ_app; lia|lia]. }
  destruct (add_checked (U32 (40 + lengthZ a + lengthZ b)) (U32 (lengthZ c))) as [ce|] eqn:Hce; last first.
  { apply add_checked_None in Hce. rewrite !Hu in Hce by lia. cbn [Z.of_N] in Hce. lia. }
  apply add_checked_Some in Hce. rewrite !Hu in Hce by lia. erewrite bind_returns by done.
  erewrite bind_returns.
  2:{ pose proof (slice_mid (hb ++ a ++ b) c [] (40 + lengthZ a + lengthZ b) (uval ce)) as Hsl.
      rewrite app_nil_r, <-!app_assoc in Hsl. rewrite Hsl; [done|rewrite !lengthZ_app; lia|lia]. }
  unfold on_slice, give_outcome. run_prog. by rewrite Hres, Hstr, Hnode.
Qed.

Lemma sub_checked_U32 x y z :
  0 <= y <= x → x < 2 ^ 32 → z = x - y → sub_checked (U32 x) (U32 y) = Some (U32 z).
Proof. intros Hy Hx ->. apply sub_checked_Some. rewrite !uval_to_uint_small by (cbn [Z.of_N]; lia). done. Qed.

Lemma finish_run f struct f' :
  write_struct f = (struct, f') →
  ∃ p1 p2, let a := write_reserved_memory f ++ p1 in let b := struct ++ p2 in let c := strings (fdt_strings f') in
    finish f =
    (if 2 ^ 32 <=? HEADER_SIZE + lengthZ a + lengthZ b + lengthZ c then Throws TotalSizeTooLarge
     else Returns (layout a b c (boot_cpuid_phys f)), f').
Proof.
  intros Hw. assert (Hcpu : boot_cpuid_phys f' = boot_cpuid_phys f).
  { unfold write_struct in Hw. destruct (node_write_blob _ _). by injection Hw as _ <-. }
  unfold finish. erewrite bind_returns by done. rewrite Hw.
  change (align_data (zeros HEADER_SIZE) SIZE_U64) with (zeros HEADER_SIZE).
  set (p1 := zeros (align_pad_len (lengthZ (zeros HEADER_SIZE ++ write_reserved_memory f)) SIZE_U64)).
  assert (H1 : align_data (zeros HEADER_SIZE ++ write_reserved_memory f) SIZE_U64 =
    zeros HEADER_SIZE ++ write_reserved_memory f ++ p1) by (unfold align_data; by rewrite <-app_assoc).
  rewrite H1. clear H1. set (a := write_reserved_memory f ++ p1). erewrite bind_returns by done.
  set (p2 := zeros (align_pad_len (lengthZ ((zeros HEADER_SIZE ++ a) ++ struct)) SIZE_U32)).
  assert (H2 : align_data ((zeros HEADER_SIZE ++ a) ++ struct) SIZE_U32 = zeros HEADER_SIZE ++ a ++ struct ++ p2)
    by (unfold align_data; by rewrite <-!app_assoc).
  rewrite H2. clear H2. set (b := struct ++ p2). set (c := strings (fdt_strings f')).
  assert (Hz : lengthZ (zeros HEADER_SIZE) = HEADER_SIZE) by done.
  pose proof (lengthZ_nonneg a). pose proof (lengthZ_nonneg b). pose proof (lengthZ_nonneg c).
  rewrite <-!app_assoc, !lengthZ_app, Hz, !Z.add_assoc. exists p1, p2. fold a b c. cbv zeta. fold a b c.
  assert (HEADER_SIZE = 40) by done.
  destruct (Z.leb_spec (2 ^ 32) (HEADER_SIZE + lengthZ a + lengthZ b + lengthZ c)); [done|].
  rewrite (sub_checked_U32 (_ + lengthZ c) _ (lengthZ c)), (sub_checked_U32 (_ + lengthZ b) _ (lengthZ b)) by lia.
  run_prog. rewrite Hcpu, (dropZ_app_eq (zeros HEADER_SIZE)) by done. done.
Qed.

(** A tree that has been built or read: the names and the strings block are in
    order, and no reserved region looks like the end of the list. *)
Record fdt_ok (f : Fdt) : Prop := {
  fo_root : node_ok (root f);
  fo_strings : strings_ok (fdt_strings f);
  fo_reserved : Forall (λ e, is_terminator e = false) (reserved_memory f)
}.

Lemma node_from_blob_app n t t' bs u pad :
  node_ok n → strings_ok t → node_write_blob n t = (bs, t') →
  lengthZ (strings t') < 2 ^ 32 → strings t' = strings u →
  (node_from_blob u ((bs ++ u32_be FDT_END) ++ pad)).1 = Returns n.
Proof.
  intros Hn Ht. rewrite node_write_body. destruct (node_body n t) as [b t1] eqn:Hb.
  intros [<- <-]%pair_equal_spec Hlen Hu. rewrite <-!app_assoc. unfold node_from_blob.
  erewrite bind_returns by by apply read_token_app. rewrite Z.eqb_refl. cbn [negb].
  erewrite bind_returns by done. erewrite bind_returns.
  2:{ apply (node_reads_back n t b t1); [done..|by rewrite Hu|lia]. }
  by erewrite bind_returns by by apply read_token_app.
Qed.

(** The blocks [finish] puts together, and what becomes of the strings. *)
Lemma finish_blocks f :
  fdt_ok f → ∃ t' a b, strings_ok t' ∧ 16 <= lengthZ a ∧
    (∀ rest, (parse_reserved_memory (a ++ rest)).1 = Returns (reserved_memory f)) ∧
    (lengthZ (strings t') < 2 ^ 32 → ∀ u, strings t' = strings u → (node_from_blob u b).1 = Returns (root f)) ∧
    finish f =
    (if 2 ^ 32 <=? HEADER_SIZE + lengthZ a + lengthZ b + lengthZ (strings t') then Throws TotalSizeTooLarge
     else Returns (layout a b (strings t') (boot_cpuid_phys f)), set_strings t' f).
Proof.
  intros [Hn Ht Hr]. destruct (node_write_blob (root f) (fdt_strings f)) as [bs t'] eqn:Hw.
  destruct (finish_run f (bs ++ u32_be FDT_END) (set_strings t' f)) as (p1 & p2 & Hf).
  { unfold write_struct. by rewrite Hw. }
  exists t', (write_reserved_memory f ++ p1), ((bs ++ u32_be FDT_END) ++ p2). split_and!.
  - rewrite node_write_body in Hw. destruct (node_body (root f) (fdt_strings f)) as [b t1] eqn:Hb.
    apply pair_equal_spec in Hw as [_ <-]. by apply (node_body_strings (root f) (fdt_strings f) b).
  - unfold write_reserved_memory. rewrite !lengthZ_app. change (lengthZ (reserve_write_blob _)) with 16.
    pose proof (lengthZ_nonneg (concat (map reserve_write_blob (reserved_memory f)))).
    pose proof (lengthZ_nonneg p1). lia.
  - intros rest. rewrite <-app_assoc. by apply parse_reserved_memory_app.
  - intros Hlen u Hu. by apply (node_from_blob_app _ (fdt_strings f) t').
  - exact Hf.
Qed.

Lemma finish_reads_back f blob f' :
  fdt_ok f → finish f = (Returns blob, f') → lengthZ blob < 2 ^ 32 ∧
  ∃ g, Fdt_from_blob blob = Returns g ∧ fdt_ok g ∧ root g = root f ∧
    reserved_memory g = reserved_memory f ∧ boot_cpuid_phys g = boot_cpuid_phys f.
Proof.
  intros Hok Hfin. destruct (finish_blocks f Hok) as (t' & a & b & Ht' & Ha & Hres & Hnode & Hf).
  rewrite Hf in Hfin. clear Hf. pose proof (lengthZ_nonneg b). pose proof (lengthZ_nonneg (strings t')).
  assert (HEADER_SIZE = 40) by done.
  destruct (Z.leb_spec (2 ^ 32) (HEADER_SIZE + lengthZ a + lengthZ b + lengthZ (strings t'))) as [|Hlen]; [done|].
  injection Hfin as <- _. split; [unfold layout; rewrite lengthZ_app, lengthZ_header, !lengthZ_app; lia|].
  destruct (strings_from_blob_ok t' Ht') as (u & Hu & Hus); [lia|].
  exists (MkFdt (reserved_memory f) (root f) u (boot_cpuid_phys f)). split_and!; try done.
  - apply from_layout; [done|lia|apply Hres|done|]. apply Hnode; [lia|done].
  - destruct Hok. constructor; [done| |done]. cbn.
    pose proof (strings_from_blob_spec (strings t')) as Hs. rewrite Hu in Hs. apply Hs. lia.
Qed.

(** C11. The blob of a device tree is read back as the same tree: for every tree
    that was built with the operations of the library or read from a blob,
    [finish] either fails because the blob would not fit in 32 bits, or returns
    a blob that [from_blob] accepts, with the same nodes and properties in the
    same order, the same reserved regions and the same boot processor. *)
Theorem fdt_roundtrip f :
  fdt_ok f →
  match finish f with
  | (Returns blob, f') => fdt_ok f' ∧ lengthZ blob < 2 ^ 32 ∧
      ∃ g, Fdt_from_blob blob = Returns g ∧ fdt_ok g ∧ root g = root f ∧
        reserved_memory g = reserved_memory f ∧ boot_cpuid_phys g = boot_cpuid_phys f
  | (Throws e, f') => fdt_ok f' ∧ e = TotalSizeTooLarge
  | (Aborts, _) => False
  end.
Proof.
  intros Hok. destruct (finish_blocks f Hok) as (t' & a & b & Ht' & _ & _ & _ & Hf).
  assert (Hok' : fdt_ok (set_strings t' f)) by by destruct Hok.
  destruct (finish f) as [r f'] eqn:Hfin. apply pair_equal_spec in Hf as [Hr ->].
  destruct (_ <=? _); subst r; [done|]. split; [done|]. by apply (finish_reads_back f _ (set_strings t' f)).
Qed.

(** ** Reading any blob *)

(** On inputs shorter than [fuel], [m] does not abort; if it returns, it has taken
    at least [k] bytes and the result satisfies [P]. *)
Definition parses {A} (fuel : nat) (m : Parser A) (k : nat) (P : A → Prop) : Prop := ∀ input,
  (length input < fuel)%nat →
  match m input with
  | (Returns a, rest) => (length rest + k <= length input)%nat ∧ P a
  | (Throws _, _) => True
  | (Aborts, _) => False
  end.

Lemma parses_ret {A} fuel (a : A) (P : A → Prop) : P a → parses fuel (mret a) 0 P.
Proof. intros Ha input _. cbn. split; [lia|done]. Qed.

Lemma parses_throw {A} fuel e k (P : A → Prop) : parses fuel (throw e) k P.
Proof. by intros input _. Qed.

Lemma parses_bind {A B} fuel (m : Parser A) (f : A → Parser B) j k l P Q :
  parses fuel m j P → (l <= j + k)%nat → (∀ a, P a → parses (fuel - j) (f a) k Q) → parses fuel (m ≫= f) l Q.
Proof.
  intros Hm Hl Hf input Hin. specialize (Hm input Hin). unfold mbind, prog_bind.
  destruct (m input) as [[a|e|] rest]; [|done..]. destruct Hm as [Hrest Ha].
  specialize (Hf a Ha rest ltac:(lia)). destruct (f a rest) as [[b|e|] rest']; [|done..].
  destruct Hf as [? ?]. split; [lia|done].
Qed.

Lemma parses_get {B} fuel (f : list u8 → Parser B) k Q :
  (∀ input, (length input < fuel)%nat →
     match f input input with
     | (Returns a, rest) => (length rest + k <= length input)%nat ∧ Q a
     | (Throws _, _) => True
     | (Aborts, _) => False
     end) → parses fuel (get_state ≫= f) k Q.
Proof. intros Hf input Hin. by apply Hf. Qed.

Lemma parses_input {B} fuel (f : list u8 → Parser B) k Q :
  (∀ i, parses fuel (f i) k Q) → parses fuel (get_state ≫= f) k Q.
Proof. intros Hf input Hin. by apply Hf. Qed.

Lemma parses_weaken {A} fuel fuel' (m : Parser A) k k' (P Q : A → Prop) :
  parses fuel m k P → (fuel' <= fuel)%nat → (k' <= k)%nat → (∀ a, P a → Q a) → parses fuel' m k' Q.
Proof.
  intros Hm Hf Hk HP input Hin. specialize (Hm input ltac:(lia)). destruct (m input) as [[a|e|] rest]; [|done..].
  destruct Hm. split; [lia|auto].
Qed.

Lemma parses_option {A} fuel (o : option A) e (P : A → Prop) :
  (∀ a, o = Some a → P a) → parses fuel (ok_or_throw o e) 0 P.
Proof. intros Ho. destruct o; [by apply parses_ret, Ho|apply parses_throw]. Qed.

Lemma parses_outcome {A} fuel (o : outcome FdtError A) (P : A → Prop) :
  match o with Returns a => P a | Throws _ => True | Aborts => False end → parses fuel (give_outcome o) 0 P.
Proof. intros Ho input _. unfold give_outcome. destruct o; [split; [lia|done]|done..]. Qed.

Lemma blob_consume_parses fuel n : 0 <= n → parses fuel (blob_consume n) (Z.to_nat n) (λ bs, lengthZ bs = n).
Proof.
  intros Hn input _. unfold blob_consume. run_prog.
  destruct (Z.ltb_spec (lengthZ input) n); [done|]. rewrite lengthZ_takeZ by lia.
  rewrite dropZ_drop, length_drop. unfold lengthZ in *. split; lia.
Qed.

Lemma rdu32_parses fuel : parses fuel rdu32 4 (λ _, True).
Proof.
  eapply (parses_bind _ _ _ 4 0); [by apply (blob_consume_parses _ 4)|lia|].
  intros bs _. by apply parses_ret.
Qed.
Lemma rdu64_parses fuel : parses fuel rdu64 8 (λ _, True).
Proof.
  eapply (parses_bind _ _ _ 8 0); [by apply (blob_consume_parses _ 8)|lia|].
  intros bs _. by apply parses_ret.
Qed.

Lemma read_token_loop_parses fuel : parses fuel (read_token_loop fuel) 4 (λ _, True).
Proof.
  induction fuel as [|fuel IH]; [intros input Hin; lia|]. cbn [read_token_loop].
  eapply (parses_bind _ _ _ 4 0); [apply rdu32_parses|lia|]. intros v _.
  case_match; [by apply parses_ret|]. eapply parses_weaken; [apply IH|lia|lia|done].
Qed.

Lemma read_token_parses fuel : parses fuel read_token 4 (λ _, True).
Proof. apply parses_get. intros input Hin. apply read_token_loop_parses. lia. Qed.

Lemma parse_prop_parses fuel t :
  parses fuel (parse_prop t) 8 (λ p, p.1 ≠ [] ∧ lengthZ p.2 < 2 ^ 32).
Proof.
  unfold parse_prop. eapply (parses_bind _ _ _ 4 4); [apply rdu32_parses|lia|]. intros len _.
  eapply (parses_bind _ _ _ 4 0); [apply rdu32_parses|lia|]. intros off _.
  pose proof (uint_range len). pose proof (align_pad_len_range len).
  eapply (parses_bind _ _ _ _ 0); [by apply blob_consume_parses; lia|lia|]. intros bs Hbs.
  eapply (parses_bind _ _ _ 0 0); [apply (parses_option _ _ _ (λ s, s ≠ []))|lia|].
  { intros s Hs. unfold at_offset in Hs. case_match; [done|]. destruct (c_str_to_string _); [|done]. cbn in Hs.
    destruct (Z.eqb_spec (lengthZ l) 0) as [|Hl]; [done|]. injection Hs as <-. by intros ->. }
  intros s Hs. apply parses_ret. cbn. split; [done|]. rewrite lengthZ_takeZ by lia. cbn [Z.of_N] in *. lia.
Qed.

(** What the loop of [parse_node] has collected. *)
Definition props_inv (props : list (list u8 * list u8)) : Prop :=
  NoDup props.*1 ∧ Forall (λ p, p.1 ≠ [] ∧ lengthZ p.2 < 2 ^ 32) props.
Definition subs_inv (subs : list (list u8 * FdtNode)) : Prop :=
  NoDup subs.*1 ∧ Forall (λ p, node_name p.2 = p.1 ∧ node_ok p.2) subs.

Lemma node_new_ok name props subs :
  props_inv props → subs_inv subs →
  match FdtNode_new name props subs with Returns n => node_ok n | Throws _ => True | Aborts => False end.
Proof.
  intros [Hnd Hp] [Hnds Hs]. unfold FdtNode_new. destruct (is_valid_node_name name) eqn:Hn; cbn [negb]; [|done].
  destruct (List.find _ props) as [[k v]|] eqn:Hf; [done|]. constructor; try done.
  - apply Forall_forall. intros [k v] Hin. rewrite Forall_forall in Hp. destruct (Hp _ Hin) as [Hne Hv].
    split; [|done]. cbn [fst]. apply list_elem_of_In in Hin. pose proof (List.find_none _ _ Hf _ Hin) as Hk.
    by apply negb_false_iff in Hk.
  - eapply Forall_impl; [exact Hs|]. by intros ? [].
  - intros k n Hin. rewrite Forall_forall in Hs. by apply (Hs (k, n)).
Qed.

Lemma parse_total fuel t :
  parses fuel (parse_node fuel t) 1 node_ok ∧
  ∀ props subs enc, props_inv props → subs_inv subs →
    parses fuel (parse_items fuel t props subs enc) 4 (λ r, props_inv r.1 ∧ subs_inv r.2).
Proof.
  induction fuel as [|fuel [IHn IHi]]; [split; [|intros]; intros input Hin; lia|]. split.
  - cbn [parse_node]. apply parses_input. intros input.
    eapply (parses_bind _ _ _ 0 1 _ (λ _, True)); [by apply parses_option|lia|]. intros name _.
    pose proof (lengthZ_nonneg name). pose proof (align_pad_len_range (lengthZ name + 1)).
    eapply (parses_bind _ _ _ 1 0 _ (λ _, True)).
    { by eapply parses_weaken; [apply blob_consume_parses; lia|done|lia|]. }
    { lia. }
    intros _ _. eapply (parses_bind _ _ _ 4 0).
    { eapply parses_weaken; [by apply (IHi [] [] false); split; constructor|lia|lia|by intros ? H'; exact H']. }
    { lia. }
    intros [props subs] [Hp Hs]. apply parses_outcome. by apply node_new_ok.
  - intros props subs enc Hp Hs. cbn [parse_items].
    eapply (parses_bind _ _ _ 4 0); [apply read_token_parses|lia|]. intros tok _.
    destruct (uval tok =? FDT_BEGIN_NODE).
    { eapply (parses_bind _ _ _ 1 0); [eapply parses_weaken; [apply IHn|lia|lia|done]|lia|]. intros n Hn.
      destruct (index_get (node_name n) subs) eqn:Hg; [apply parses_throw|].
      eapply parses_weaken; [apply IHi; [done|]|lia|lia|done]. destruct Hs as [Hnd Hs].
      split; [by apply index_insert_NoDup|by apply index_insert_Forall]. }
    destruct (uval tok =? FDT_END_NODE); [by apply parses_ret|].
    destruct (uval tok =? FDT_PROP).
    { destruct enc; [apply parses_throw|].
      eapply (parses_bind _ _ _ 8 0); [apply parse_prop_parses|lia|].
      intros [k v] Hkv. eapply parses_weaken; [apply IHi; [|done]|lia|lia|done].
      destruct Hp as [Hnd Hp]. split; [by apply index_insert_NoDup|by apply index_insert_Forall]. }
    destruct (uval tok =? FDT_NOP); [eapply parses_weaken; [by apply IHi|lia|lia|done]|apply parses_throw].
Qed.

Lemma node_from_blob_total t input :
  match node_from_blob t input with
  | (Returns n, _) => node_ok n
  | (Throws _, _) => True
  | (Aborts, _) => False
  end.
Proof.
  assert (Hp : parses (S (length input)) (node_from_blob t) 0 node_ok).
  { unfold node_from_blob. eapply (parses_bind _ _ _ 4 0); [apply read_token_parses|lia|]. intros tok _.
    case_match; [apply parses_throw|]. apply parses_get. intros i Hi.
    assert (Hn : parses (S (length i)) (root ← parse_node (S (length i)) t;
      token ← read_token; if negb (uval token =? FDT_END) then throw FdtParseError else mret root) 0 node_ok).
    { eapply (parses_bind _ _ _ 1 0); [apply parse_total|lia|]. intros n Hn.
      eapply (parses_bind _ _ _ 4 0); [apply read_token_parses|lia|]. intros tok' _.
      case_match; [apply parses_throw|by apply parses_ret]. }
    apply Hn. lia. }
  specialize (Hp input ltac:(lia)). destruct (node_from_blob t input) as [[n|e|] rest]; [|done..]. by destruct Hp.
Qed.

Lemma parse_reserved_total input :
  match parse_reserved_memory input with
  | (Returns l, _) => Forall (λ e, is_terminator e = false) l
  | (Throws _, _) => True
  | (Aborts, _) => False
  end.
Proof.
  assert (Hp : ∀ fuel acc, Forall (λ e, is_terminator e = false) acc →
    parses fuel (parse_reserved_loop fuel acc) 0 (Forall (λ e, is_terminator e = false))).
  { induction fuel as [|fuel IH]; intros acc Hacc; [intros i Hi; lia|]. cbn [parse_reserved_loop].
    eapply (parses_bind _ _ _ 16 0 _ (λ _, True)); [|lia|].
    - unfold reserve_from_blob. eapply (parses_bind _ _ _ 8 8); [apply rdu64_parses|lia|]. intros a _.
      eapply (parses_bind _ _ _ 8 0); [apply rdu64_parses|lia|]. intros b _. by apply parses_ret.
    - intros e _. case_match eqn:He; [by apply parses_ret|].
      eapply parses_weaken; [apply IH|lia|lia|done]. apply Forall_app. by repeat constructor. }
  unfold parse_reserved_memory. erewrite bind_returns by done.
  pose proof (Hp (S (length input)) [] ltac:(constructor) input ltac:(lia)) as H.
  destruct (parse_reserved_loop _ _ input) as [[l|e|] rest]; [|done..]. by destruct H.
Qed.

(** What the checks on the header establish. *)
Lemma header_from_blob_spec input :
  match (header_from_blob input).1 with
  | Returns h => HEADER_SIZE <= off_mem_rsvmap h < off_dt_strings h ∧
      off_dt_struct h + size_dt_struct h <= off_dt_strings h ∧
      off_dt_strings h + size_dt_strings h <= total_size h
  | Throws _ => True
  | Aborts => False
  end.
Proof.
  unfold header_from_blob. erewrite bind_returns by done. destruct (lengthZ input <? HEADER_SIZE); [done|].
  assert (Hr : parses (S (length input)) read_header 0 (λ _, True)).
  { unfold read_header. do 10 (eapply (parses_bind _ _ _ 4 0); [apply rdu32_parses|lia|intros ? _]).
    by apply parses_ret. }
  specialize (Hr input ltac:(lia)). unfold mbind at 1, prog_bind at 1.
  destruct (read_header input) as [[h|e|] rest]; [|done..]. clear Hr.
  destruct (negb (magic h =? FDT_MAGIC)); [done|]. destruct (version h <? FDT_VERSION); [done|].
  destruct (Z.leb_spec (off_dt_strings h) (off_mem_rsvmap h)); [done|]. cbn [orb].
  destruct (Z.ltb_spec (off_mem_rsvmap h) HEADER_SIZE); [done|].
  destruct (add_checked (off_dt_struct h) (size_dt_struct h)) as [se|] eqn:Hse; [|done].
  apply add_checked_Some in Hse. run_prog. destruct (Z.ltb_spec (off_dt_strings h) (uval se)); [done|].
  destruct (add_checked (off_dt_strings h) (size_dt_strings h)) as [ce|] eqn:Hce; [|done].
  apply add_checked_Some in Hce. destruct (Z.ltb_spec (total_size h) (uval ce)); [done|]. cbn [fst]. lia.
Qed.

Lemma slice_Some input from to :
  0 <= from <= to → to <= lengthZ input → ∃ bs, slice input from to = Some bs ∧ lengthZ bs = to - from.
Proof.
  intros Hf Ht. unfold slice. destruct (Z.leb_spec from to); [|lia].
  destruct (Z.leb_spec to (lengthZ input)); [|lia]. eexists. split; [done|].
  rewrite lengthZ_takeZ, lengthZ_dropZ by lia. lia.
Qed.

(** C15. The parser of blobs is safe on every input: [from_blob] ends without a
    panic, and what it returns is a well-formed tree, in which the names of nodes
    are valid and distinct among their siblings, the names of properties are
    valid and distinct, and the index of the strings block is right. *)
Theorem fdt_from_blob_safe input :
  match Fdt_from_blob input with
  | Returns f => fdt_ok f
  | Throws _ => True
  | Aborts => False
  end.
Proof.
  unfold Fdt_from_blob, parse_fdt. destruct (slice input 0 HEADER_SIZE) as [hb|] eqn:Hsl; [|done].
  erewrite bind_returns by done. pose proof (header_from_blob_spec hb) as Hh.
  destruct (header_from_blob hb).1 as [h|e|] eqn:Hhd;
    [|by unfold on_slice, give_outcome; run_prog; rewrite Hhd|done].
  erewrite bind_returns by (unfold on_slice, give_outcome; by rewrite Hhd).
  destruct Hh as (Hrsv & Hst & Hstr). unfold HEADER_SIZE, SIZE_U32 in Hrsv.
  destruct (Z.eqb_spec (uval (total_size h)) (lengthZ input)) as [Htot|]; [|done]. cbn [negb].
  pose proof (uint_range (off_dt_struct h)). pose proof (uint_range (size_dt_struct h)).
  pose proof (uint_range (size_dt_strings h)). pose proof (uint_range (total_size h)) as Hmax. cbn [Z.of_N] in Hmax.
  destruct (slice_Some input (off_mem_rsvmap h) (lengthZ input)) as (rb & -> & _); [lia..|].
  erewrite bind_returns by done.
  destruct (add_checked (off_dt_struct h) (size_dt_struct h)) as [se|] eqn:Hse;
    [|apply add_checked_None in Hse; cbn [Z.of_N] in Hse; lia].
  apply add_checked_Some in Hse. erewrite bind_returns by done.
  destruct (slice_Some input (off_dt_struct h) (uval se)) as (nb & -> & _); [lia..|]. erewrite bind_returns by done.
  destruct (add_checked (off_dt_strings h) (size_dt_strings h)) as [ce|] eqn:Hce;
    [|apply add_checked_None in Hce; cbn [Z.of_N] in Hce; lia].
  apply add_checked_Some in Hce. erewrite bind_returns by done.
  destruct (slice_Some input (off_dt_strings h) (uval ce)) as (sb & -> & Hsb); [lia..|]. erewrite bind_returns by done.
  unfold on_slice, give_outcome. run_prog. pose proof (parse_reserved_total rb) as Hr.
  destruct (parse_reserved_memory rb) as [[l|e|] ?]; cbn [fst]; [|done..].
  pose proof (strings_from_blob_spec sb ltac:(lia)) as Hs. destruct (strings_from_blob sb) as [t|e|]; [|done..].
  pose proof (node_from_blob_total t nb) as Hn. destruct (node_from_blob t nb) as [[n|e|] ?]; cbn [fst]; [|done..].
  constructor; [done|by destruct Hs|done].
Qed.
