(* ===== verification/DeviceTreeEdits.v ===== *)
(** * Device trees: values, edits and paths

    Typed property values, and the trees that the operations on nodes make: what is
    set at a path is what is read there, also after the blob has been written and
    read, and nothing else changes.  Then the string of a path and the names along
    it: [Path_new], [Path_push] and [Path_iter] on the paths that lead to a node. *)

From S2P Require Import Prelude StdIo Checked DeviceTree DeviceTreeFacts.

(** ** Typed values *)

(** Values that are read back as they were written. *)
Class PropvalLaws (T : Type) `{ToFdtPropval T, FromFdtPropval T} (good : T → Prop) :=
  from_to_propval : ∀ v bs, good v → to_propval v = Returns bs → from_propval bs = Some v.

Abbreviation any_value := (λ _, True).

#[global] Instance unit_laws : PropvalLaws () any_value.
Proof. by intros [] bs _ [= <-]. Qed.
#[global] Instance bytes_laws : PropvalLaws (list u8) any_value.
Proof. by intros v bs _ [= <-]. Qed.

Lemma u32_bytes_one x : u32_to_bytes [x] = u32_be x.
Proof. unfold u32_to_bytes. cbn [map concat]. apply app_nil_r. Qed.
Lemma u64_bytes_one x : u64_to_bytes [x] = u64_be x.
Proof. unfold u64_to_bytes. cbn [map concat]. apply app_nil_r. Qed.

Lemma u32_propval_inv (x : u32) : from_propval (u32_be x) = Some x.
Proof. unfold from_propval, u32_from_propval. by rewrite u32_be_inv. Qed.

#[global] Instance u32_laws : PropvalLaws u32 any_value.
Proof.
  intros v bs _ Hbs. unfold to_propval, u32_to_propval in Hbs. rewrite u32_bytes_one in Hbs.
  assert (bs = u32_be v) as -> by congruence. apply u32_propval_inv.
Qed.
#[global] Instance u64_laws : PropvalLaws u64 any_value.
Proof.
  intros v bs _ Hbs. unfold to_propval, u64_to_propval in Hbs. rewrite u64_bytes_one in Hbs.
  assert (bs = u64_be v) as -> by congruence. unfold from_propval, u64_from_propval. by rewrite u64_be_inv.
Qed.

(** Cutting a concatenation of pieces of the same length. *)
Lemma chunks_concat n (pieces : list (list u8)) fuel :
  0 < n → Forall (λ p, lengthZ p = n) pieces → (length (concat pieces) <= fuel)%nat →
  chunks_loop fuel n (concat pieces) = pieces.
Proof.
  intros Hn Hp. revert fuel. induction Hp as [|p pieces Hl Hp IH]; intros fuel Hf; [by destruct fuel|].
  cbn [concat] in *. destruct p as [|b p]; [rewrite lengthZ_nil in Hl; lia|].
  destruct fuel as [|fuel]; [cbn in Hf; lia|]. cbn [app chunks_loop].
  change (b :: p ++ concat pieces) with ((b :: p) ++ concat pieces).
  rewrite takeZ_app_eq, dropZ_app_eq by done. rewrite IH; [done|]. cbn in Hf. rewrite length_app in Hf. lia.
Qed.

Lemma lengthZ_pieces n (pieces : list (list u8)) :
  Forall (λ p, lengthZ p = n) pieces → lengthZ (concat pieces) = n * lengthZ pieces.
Proof.
  induction 1 as [|p pieces Hl Hp IH]; cbn [concat]; [unfold lengthZ; cbn [length]; lia|]. rewrite lengthZ_app, lengthZ_cons, IH. lia.
Qed.

Lemma chunked_inv {T} n (enc : T → list u8) (dec : list u8 → T) (l : list T) :
  0 < n → (∀ x, lengthZ (enc x) = n) → (∀ x, dec (enc x) = x) →
  lengthZ (concat (map enc l)) mod n = 0 ∧ map dec (chunks n (concat (map enc l))) = l.
Proof.
  intros Hn Hlen Hinv. assert (Hp : Forall (λ p, lengthZ p = n) (map enc l)).
  { apply Forall_fmap, Forall_true. intros x. apply Hlen. }
  split.
  - rewrite (lengthZ_pieces n) by done. rewrite Z.mul_comm. apply Z.mod_mul. lia.
  - unfold chunks. rewrite chunks_concat by done. rewrite map_map. rewrite <-(map_id l) at 2. by apply map_ext.
Qed.

#[global] Instance u32s_laws : PropvalLaws (list u32) any_value.
Proof.
  intros v bs _ Hbs. unfold to_propval, u32s_to_propval in Hbs.
  assert (bs = concat (map u32_be v)) as -> by (unfold u32_to_bytes in Hbs; congruence).
  destruct (chunked_inv 4 u32_be (λ c, U32 (from_be c)) v) as [Hm Hc]; [done|by intros; apply lengthZ_be|apply u32_be_inv|].
  unfold from_propval, u32s_from_propval, SIZE_U32. by rewrite Hm, Hc.
Qed.
#[global] Instance u64s_laws : PropvalLaws (list u64) any_value.
Proof.
  intros v bs _ Hbs. unfold to_propval, u64s_to_propval in Hbs.
  assert (bs = concat (map u64_be v)) as -> by (unfold u64_to_bytes in Hbs; congruence).
  destruct (chunked_inv 8 u64_be (λ c, U64 (from_be c)) v) as [Hm Hc]; [done|by intros; apply lengthZ_be|apply u64_be_inv|].
  unfold from_propval, u64s_from_propval, SIZE_U64. by rewrite Hm, Hc.
Qed.

Lemma valid_string_no_nuls s : is_valid_string_property s = true → no_nuls s.
Proof.
  unfold is_valid_string_property. intros Hs. apply Forall_forall. intros c Hc. rewrite forallb_forall in Hs.
  specialize (Hs c ltac:(by apply list_elem_of_In)). zbool. done.
Qed.

(** [to_propval] of strings refuses exactly those with a null byte. *)
Lemma str_to_bytes_spec l :
  match str_to_bytes l with
  | Returns bs => Forall (λ s, no_nuls (sbytes s)) l ∧ bs = concat (map (λ s, terminated (sbytes s)) l)
  | Throws e => ∃ s, s ∈ l ∧ e = InvalidString (sbytes s)
  | Aborts => False
  end.
Proof.
  induction l as [|s l IH]; cbn [str_to_bytes]; [by split; [constructor|]|].
  destruct (is_valid_string_property (sbytes s)) eqn:Hs; cbn [negb]; [|by exists s; split; [left|]].
  destruct (str_to_bytes l) as [bs|e|]; [|destruct IH as (x & Hx & ->); exists x; split; [by right|done]|done].
  destruct IH as [Hl ->]. split; [by constructor; [apply valid_string_no_nuls|]|].
  cbn [map concat]. unfold terminated. by rewrite <-app_assoc.
Qed.

#[global] Instance string_laws : PropvalLaws rstring any_value.
Proof.
  intros v bs _ Hbs. unfold to_propval, string_to_propval in Hbs. pose proof (str_to_bytes_spec [v]) as Hs.
  rewrite Hbs in Hs. destruct Hs as [Hn ->]. inversion_clear Hn as [|? ? Hv _].
  cbn [map concat]. rewrite app_nil_r. unfold from_propval, string_from_propval, c_str_to_string, terminated.
  rewrite until_nul_app by done. cbn. rewrite sbytes_utf8. cbn. apply from_utf8_sbytes.
Qed.

Lemma take_while_all (l : list (list u8)) : Forall (λ s, s ≠ []) l → take_while_nonempty (l ++ [[]]) = l.
Proof. induction 1 as [|s l Hs _ IH]; [done|]. cbn. destruct s; [done|]. by rewrite IH. Qed.

(** A list of strings is read back if it is not empty and none of them is. *)
#[global] Instance strings_laws :
  PropvalLaws (list rstring) (λ l, l ≠ [] ∧ Forall (λ s, sbytes s ≠ []) l).
Proof.
  intros v bs [Hne Hs] Hbs. unfold to_propval, strings_to_propval in Hbs. pose proof (str_to_bytes_spec v) as Hspec.
  rewrite Hbs in Hspec. destruct Hspec as [Hn ->]. clear Hbs.
  replace (map (λ s, terminated (sbytes s)) v) with (map terminated (map sbytes v)) by apply map_map.
  pose proof (last_terminated (map sbytes v)) as Hlast. unfold ends_with_nul in Hlast.
  unfold from_propval, strings_from_propval.
  destruct (last (concat (map terminated (map sbytes v)))) as [b|] eqn:Hb; last first.
  { destruct v as [|s v]; [done|]. apply last_None in Hb. cbn in Hb. by destruct (sbytes s). }
  rewrite Hlast. cbn [Z.eqb]. rewrite split_terminated by by apply Forall_fmap.
  rewrite take_while_all by by apply Forall_fmap. f_equal. clear.
  induction v as [|s v IH]; [done|]. cbn. by rewrite from_utf8_sbytes, IH.
Qed.

(** ** Edits *)

(** What the caller of a chain of [subnode_mut] does at its end. *)
Fixpoint edit_at {A} (names : list (list u8)) (edit : Edit A) : Edit A :=
  match names with
  | [] => edit
  | name :: names => with_subnode_mut name (edit_at names edit)
  end.

(** The value of the property [key] of the node at [names]. *)
Definition value_at (names : list (list u8)) (key : list u8) (n : FdtNode) : option (list u8) :=
  n ← follow names n; index_get key (node_props n).

Lemma follow_cons name names n : follow (name :: names) n = (c ← subnode name n; follow names c).
Proof. done. Qed.

Lemma value_at_cons name names key n :
  value_at (name :: names) key n = (child ← subnode name n; value_at names key child).
Proof. unfold value_at. cbn. by destruct (subnode name n). Qed.

(** An edit that keeps trees well formed and the name of the node, and sets at
    most the property [key] at [names]. *)
Record edit_ok {A} (names : list (list u8)) (key : list u8) (bytes : option (list u8)) (edit : Edit A) : Prop := {
  eo_total : ∀ n, node_ok n → (edit n).1 ≠ Aborts;
  eo_ok : ∀ n, node_ok n → node_ok (edit n).2;
  eo_name : ∀ n, node_name (edit n).2 = node_name n;
  eo_frame : ∀ n names' key', (names', key') ≠ (names, key) → value_at names' key' (edit n).2 = value_at names' key' n;
  eo_throws : ∀ n e, (edit n).1 = Throws e → value_at names key (edit n).2 = value_at names key n;
  eo_returns : ∀ n a, (edit n).1 = Returns a → bytes ≠ None ∧ value_at names key (edit n).2 = bytes
}.

Definition propval_bytes {T} `{ToFdtPropval T} (v : T) : option (list u8) :=
  match to_propval v with Returns bs => Some bs | _ => None end.

Lemma node_ok_name n : node_ok n → is_valid_node_name (node_name n) = true.
Proof. by inversion_clear 1. Qed.

Lemma node_props_ok n : node_ok n → NoDup (node_props n).*1 ∧ Forall prop_ok (node_props n).
Proof. by inversion_clear 1. Qed.

Lemma set_props_ok n props :
  node_ok n → NoDup props.*1 → Forall prop_ok props → node_ok (set_props props n).
Proof. inversion_clear 1. intros. by constructor. Qed.

Lemma set_prop_ok {T} `{ToFdtPropval T} key (v : T) :
  key ≠ [] → to_propval v ≠ Aborts → edit_ok [] key (propval_bytes v) (set_prop key v).
Proof.
  intros Hkey Hab. unfold set_prop, propval_bytes.
  destruct (is_valid_prop_name key) eqn:Hk; cbn [negb]; [|by constructor].
  unfold give_outcome. destruct (to_propval v) as [bs|e|]; [|by constructor|done]. run_prog.
  destruct (Z.leb_spec (2 ^ 32) (lengthZ bs)); [by constructor|]. constructor; cbn [fst snd]; try done.
  - intros n Hn. destruct (node_props_ok n Hn) as [Hnd Hp].
    apply set_props_ok; [done|by apply index_insert_NoDup|by apply index_insert_Forall].
  - intros n names' key' Hne. destruct names' as [|name names']; [|done].
    unfold value_at. cbn. apply index_get_insert_ne. congruence.
  - intros n a _. split; [done|]. unfold value_at. cbn. apply index_get_insert_eq.
Qed.

Lemma index_insert_twice {V} k (v w : V) m : index_insert k v (index_insert k w m) = index_insert k v m.
Proof.
  induction m as [|[k' v'] m IH]; cbn; [by rewrite bool_decide_true|].
  case_bool_decide as Hk; cbn; [by rewrite bool_decide_true|]. by rewrite bool_decide_false, IH.
Qed.

(** The child an edit starts from: the one that is there, or a new one. *)
Definition child_for (name : list u8) (n : FdtNode) : option FdtNode :=
  match subnode name n with
  | Some child => Some child
  | None => if is_valid_node_name name then Some (MkNode name [] []) else None
  end.

Lemma with_subnode_mut_run {A} name (edit : Edit A) n :
  with_subnode_mut name edit n =
  match child_for name n with
  | Some child => ((edit child).1, set_subnodes (index_insert name (edit child).2 (node_subnodes n)) n)
  | None => (Throws (InvalidName name), n)
  end.
Proof.
  unfold with_subnode_mut, child_for. run_prog. destruct (subnode name n) as [child|] eqn:Hs.
  { rewrite Hs. by destruct (edit child). }
  unfold give_outcome, FdtNode_empty, FdtNode_new. destruct (is_valid_node_name name); [|done]. cbn [negb List.find].
  unfold subnode. cbn [node_subnodes set_subnodes]. rewrite index_get_insert_eq.
  destruct (edit (MkNode name [] [])) as [r c]. cbn. by rewrite index_insert_twice.
Qed.

Lemma node_subnodes_ok n :
  node_ok n → NoDup (node_subnodes n).*1 ∧ Forall (λ p, node_name p.2 = p.1 ∧ node_ok p.2) (node_subnodes n).
Proof.
  destruct n as [name props subs]. intros Hn. inversion_clear Hn as [? ? ? _ _ _ Hnd Hk Hok]. split; [done|]. cbn.
  apply Forall_forall. intros [k c] Hin. rewrite Forall_forall in Hk. split; [by apply (Hk (k, c))|by apply (Hok k)].
Qed.

Lemma set_subnodes_ok n subs :
  node_ok n → NoDup subs.*1 → Forall (λ p, node_name p.2 = p.1 ∧ node_ok p.2) subs → node_ok (set_subnodes subs n).
Proof.
  inversion_clear 1. intros Hnd Hs. constructor; try done.
  - eapply Forall_impl; [exact Hs|]. by intros ? [].
  - intros k c Hin. rewrite Forall_forall in Hs. by apply (Hs (k, c)).
Qed.

Lemma child_for_ok name n child : node_ok n → child_for name n = Some child → node_ok child ∧ node_name child = name.
Proof.
  intros Hn. unfold child_for. destruct (subnode name n) as [c|] eqn:Hs.
  - intros [= <-]. destruct (node_subnodes_ok n Hn) as [_ Hf]. rewrite Forall_forall in Hf.
    apply index_get_Some in Hs. destruct (Hf _ Hs). done.
  - case_match eqn:Hv; [|done]. intros [= <-]. split; [|done].
    constructor; [done|by apply NoDup_nil|done|by apply NoDup_nil|done|]. by intros ? ? ?%elem_of_nil.
Qed.

(** A new child has no values. *)
Lemma child_for_value name n child names key :
  child_for name n = Some child → value_at (name :: names) key n = value_at names key child.
Proof.
  rewrite value_at_cons. unfold child_for. destruct (subnode name n) as [c|] eqn:Hs; [by intros [= <-]|].
  case_match; [|done]. intros [= <-]. cbn. unfold value_at. by destruct names.
Qed.

Lemma set_subnode_value name c n names key :
  value_at names key (set_subnodes (index_insert name c (node_subnodes n)) n) =
  match names with
  | name' :: rest => if bool_decide (name' = name) then value_at rest key c else value_at names key n
  | [] => value_at names key n
  end.
Proof.
  destruct names as [|name' rest]; [done|]. rewrite !value_at_cons. unfold subnode. cbn [node_subnodes set_subnodes].
  case_bool_decide as Hn; [subst; by rewrite index_get_insert_eq|by rewrite index_get_insert_ne].
Qed.

Lemma put_child_ok name c b :
  node_ok b → node_ok c → node_name c = name → node_ok (set_subnodes (index_insert name c (node_subnodes b)) b).
Proof.
  intros Hb Hc Hn. destruct (node_subnodes_ok b Hb) as [Hnd Hf].
  apply set_subnodes_ok; [done|by apply index_insert_NoDup|by apply index_insert_Forall].
Qed.

Lemma subnode_put name name' c b :
  subnode name' (set_subnodes (index_insert name c (node_subnodes b)) b) =
  if bool_decide (name' = name) then Some c else subnode name' b.
Proof.
  unfold subnode. cbn [node_subnodes set_subnodes].
  case_bool_decide; [subst; apply index_get_insert_eq|by apply index_get_insert_ne].
Qed.

(** ** Editing the node at a path *)

Lemma index_insert_same {V} k (v : V) m : index_get k m = Some v → index_insert k v m = m.
Proof.
  induction m as [|[k' v'] m IH]; cbn; [done|]. case_bool_decide as Hk; [by intros [= ->]; subst|].
  intros Hg. by rewrite IH.
Qed.

Lemma set_subnodes_same n : set_subnodes (node_subnodes n) n = n.
Proof. by destruct n. Qed.

(** The tree with [m] in the place of the node at [names]. *)
Fixpoint put_at (names : list (list u8)) (m n : FdtNode) : FdtNode :=
  match names with
  | [] => m
  | name :: names =>
      match subnode name n with
      | Some c => set_subnodes (index_insert name (put_at names m c) (node_subnodes n)) n
      | None => n
      end
  end.

Lemma with_follow_run {A} names (edit : Edit A) n :
  with_follow names edit n =
  match follow names n with
  | Some m => (match (edit m).1 with Returns a => Returns (Some a) | Throws e => Throws e | Aborts => Aborts end,
               put_at names (edit m).2 n)
  | None => (Returns None, n)
  end.
Proof.
  revert n. induction names as [|name names IH]; intros n; cbn [with_follow put_at].
  { cbn. unfold mbind, prog_bind. by destruct (edit n) as [[a|e|] m]. }
  rewrite follow_cons. destruct (subnode name n) as [c|] eqn:Hc; cbn; [|done]. rewrite IH.
  destruct (follow names c) as [m|]; [done|]. unfold subnode in Hc. by rewrite index_insert_same, set_subnodes_same.
Qed.

Lemma value_at_put names names' key m m' n :
  follow names n = Some m → node_subnodes m' = node_subnodes m →
  value_at names' key (put_at names m' n) =
  if bool_decide (names' = names) then index_get key (node_props m') else value_at names' key n.
Proof.
  revert names' n. induction names as [|name names IH]; intros names' n Hf Hs; cbn [put_at].
  { injection Hf as ->. case_bool_decide as Hn; [by subst|]. destruct names' as [|nm rest]; [done|].
    rewrite !value_at_cons. unfold subnode. by rewrite Hs. }
  rewrite follow_cons in Hf. destruct (subnode name n) as [c|] eqn:Hc; [|done]. cbn in Hf.
  rewrite set_subnode_value. destruct names' as [|nm rest]; [by rewrite bool_decide_false|].
  destruct (decide (nm = name)) as [->|Hne]; [rewrite bool_decide_true by done|by rewrite !bool_decide_false by congruence].
  rewrite (IH rest c Hf Hs), value_at_cons, Hc. cbn. 
  destruct (decide (rest = names)) as [->|Hne]; [by rewrite !bool_decide_true|by rewrite !bool_decide_false by congruence].
Qed.

Lemma follow_put names names' m m' n :
  follow names n = Some m → node_subnodes m' = node_subnodes m →
  is_Some (follow names' (put_at names m' n)) ↔ is_Some (follow names' n).
Proof.
  revert names' n. induction names as [|name names IH]; intros names' n Hf Hs; cbn [put_at].
  { injection Hf as ->. destruct names' as [|nm rest]; [done|]. rewrite !follow_cons. unfold subnode. by rewrite Hs. }
  rewrite follow_cons in Hf. destruct (subnode name n) as [c|] eqn:Hc; [|done]. cbn in Hf.
  destruct names' as [|nm rest]; [done|]. rewrite !follow_cons, subnode_put.
  case_bool_decide; [subst; rewrite Hc; cbn; by apply IH|done].
Qed.

Lemma subnode_ok name n c : node_ok n → subnode name n = Some c → node_ok c ∧ node_name c = name.
Proof.
  intros Hn Hs. destruct (node_subnodes_ok n Hn) as [_ Hf]. rewrite Forall_forall in Hf.
  apply index_get_Some in Hs. by destruct (Hf _ Hs).
Qed.

Lemma follow_ok names n m : node_ok n → follow names n = Some m → node_ok m.
Proof.
  revert n. induction names as [|name names IH]; intros n Hn; [by intros [= <-]|]. rewrite follow_cons.
  destruct (subnode name n) as [c|] eqn:Hc; [|done]. cbn. apply IH. by eapply subnode_ok.
Qed.

Lemma put_at_ok names m m' n :
  node_ok n → follow names n = Some m → node_ok m' → node_name m' = node_name m →
  node_ok (put_at names m' n) ∧ node_name (put_at names m' n) = node_name n.
Proof.
  revert n. induction names as [|name names IH]; intros n Hn Hf Hm' Hname; cbn [put_at].
  { injection Hf as ->. done. }
  rewrite follow_cons in Hf. destruct (subnode name n) as [c|] eqn:Hc; [|done]. cbn in Hf.
  destruct (subnode_ok _ _ _ Hn Hc) as [Hco Hcn]. destruct (IH c Hco Hf Hm' Hname) as [Hp Hpn].
  split; [|done]. apply put_child_ok; [done|done|]. by rewrite Hpn.
Qed.

Lemma with_subnode_mut_ok {A} name names key bytes (edit : Edit A) :
  edit_ok names key bytes edit → edit_ok (name :: names) key bytes (with_subnode_mut name edit).
Proof.
  intros [Ht Hok Hname Hframe Hthrow Hret].
  constructor; intros n; rewrite with_subnode_mut_run; destruct (child_for name n) as [child|] eqn:Hc; try done; cbn [fst snd].
  - intros Hn. apply Ht. by eapply child_for_ok.
  - intros Hn. destruct (child_for_ok name n child Hn Hc) as [Hco Hcn]. destruct (node_subnodes_ok n Hn) as [Hnd Hf].
    apply set_subnodes_ok; [done|by apply index_insert_NoDup|]. apply index_insert_Forall; [done|]. cbn.
    split; [by rewrite Hname|by apply Hok].
  - intros names' key' Hne. rewrite set_subnode_value. destruct names' as [|name' rest]; [done|].
    case_bool_decide; [subst|done]. rewrite (child_for_value _ _ _ _ _ Hc). apply Hframe. congruence.
  - intros e He. rewrite set_subnode_value, bool_decide_true by done.
    rewrite (child_for_value _ _ _ _ _ Hc). by eapply Hthrow.
  - intros a Ha. rewrite set_subnode_value, bool_decide_true by done. by eapply Hret.
Qed.

Lemma edit_at_ok {A} names key bytes (edit : Edit A) :
  edit_ok [] key bytes edit → edit_ok names key bytes (edit_at names edit).
Proof. intros He. induction names as [|name names IH]; [done|]. by apply with_subnode_mut_ok. Qed.

(** The types of property values of the source, and how a value of each is written
    and read. *)
Inductive prop_type : Set := PUnit | PBytes | PU32 | PU64 | PU32s | PU64s | PString | PStrings.

Definition prop_value (t : prop_type) : Type :=
  match t with
  | PUnit => () | PBytes => list u8 | PU32 => u32 | PU64 => u64 | PU32s => list u32 | PU64s => list u64
  | PString => rstring | PStrings => list rstring
  end.

#[global] Instance prop_value_to t : ToFdtPropval (prop_value t) :=
  match t with
  | PUnit => unit_to_propval | PBytes => bytes_to_propval | PU32 => u32_to_propval | PU64 => u64_to_propval
  | PU32s => u32s_to_propval | PU64s => u64s_to_propval | PString => string_to_propval
  | PStrings => strings_to_propval
  end.
#[global] Instance prop_value_from t : FromFdtPropval (prop_value t) :=
  match t with
  | PUnit => unit_from_propval | PBytes => bytes_from_propval | PU32 => u32_from_propval
  | PU64 => u64_from_propval | PU32s => u32s_from_propval | PU64s => u64s_from_propval
  | PString => string_from_propval | PStrings => strings_from_propval
  end.

(** A list of strings is read up to its first empty string. *)
Definition reads_whole (t : prop_type) : prop_value t → Prop :=
  match t with PStrings => λ l, l ≠ [] ∧ Forall (λ s, sbytes s ≠ []) l | _ => λ _, True end.

Lemma prop_value_laws t : PropvalLaws (prop_value t) (reads_whole t).
Proof.
  destruct t; [exact unit_laws|exact bytes_laws|exact u32_laws|exact u64_laws|exact u32s_laws|exact u64s_laws
    |exact string_laws|exact strings_laws].
Qed.

Lemma prop_value_total t (v : prop_value t) : to_propval v ≠ Aborts.
Proof.
  assert (∀ l, str_to_bytes l ≠ Aborts) as Hs.
  { intros l Ha. pose proof (str_to_bytes_spec l) as Hl. by rewrite Ha in Hl. }
  destruct t; [done..|apply Hs|apply Hs].
Qed.

(** What can be set: the path and the key have valid names, and the value can be
    written and is not too large. *)
Definition settable {T} `{ToFdtPropval T} (names : list (list u8)) (key : list u8) (v : T) : Prop :=
  Forall (λ name, is_valid_node_name name = true) names ∧ is_valid_prop_name key = true ∧
  ∃ bs, to_propval v = Returns bs ∧ lengthZ bs < 2 ^ 32.

Lemma edit_at_succeeds {T} `{ToFdtPropval T} names key (v : T) n :
  settable names key v → (edit_at names (set_prop key v) n).1 = Returns ().
Proof.
  intros (Hnames & Hkey & bs & Hbs & Hlen). revert n. induction Hnames as [|name names Hname _ IH]; intros n.
  - cbn [edit_at]. unfold set_prop. rewrite Hkey. cbn [negb]. unfold give_outcome. rewrite Hbs. run_prog.
    by destruct (Z.leb_spec (2 ^ 32) (lengthZ bs)); [lia|].
  - cbn [edit_at]. rewrite with_subnode_mut_run. unfold child_for. rewrite Hname.
    by destruct (subnode name n); cbn [fst].
Qed.


(** A name that can be a component of a path. *)
Definition good_name (s : list u8) : Prop := s ≠ [] ∧ Forall (λ c : u8, uval c ≠ PATH_SEP) s.

(** The path with the given components. *)
Definition path_str (names : list (list u8)) : list u8 :=
  match names with
  | [] => [U8 PATH_SEP]
  | _ :: _ => concat (map (cons (U8 PATH_SEP)) names)
  end.

Lemma valid_name_sep s : is_valid_node_name s = true → Forall (λ c : u8, uval c ≠ PATH_SEP) s.
Proof.
  unfold is_valid_node_name. case_match; [done|]. intros Hs. apply Forall_forall. intros c Hc.
  apply list_elem_of_In in Hc. eapply forallb_forall in Hs; [|exact Hc]. intros Heq.
  unfold allowed, is_ascii_alphanumeric, in_byte_range in Hs. rewrite Heq in Hs. vm_compute in Hs. done.
Qed.

Lemma split_names names :
  Forall good_name names → split_on PATH_SEP (concat (map (cons (U8 PATH_SEP)) names)) = [] :: names.
Proof.
  induction 1 as [|s names [_ Hs] _ IH]; [done|]. cbn [map concat app split_on].
  rewrite split_on_app by exact Hs. rewrite IH. by rewrite app_nil_r.
Qed.

Lemma Path_iter_str names : Forall good_name names → Path_iter (path_str names) = names.
Proof.
  intros Hn. destruct names as [|s names]; [done|]. unfold Path_iter.
  replace (bool_decide (path_str (s :: names) = [U8 PATH_SEP])) with false.
  - cbn [path_str]. by rewrite split_names.
  - symmetry. apply bool_decide_eq_false. cbn. apply Forall_cons in Hn as [[Hs _] _]. by destruct s.
Qed.

Lemma path_str_inj names names' :
  Forall good_name names → Forall good_name names' → path_str names = path_str names' → names = names'.
Proof. intros H H' Heq. rewrite <-(Path_iter_str names H), <-(Path_iter_str names' H'). by rewrite Heq. Qed.

Lemma trim_end_last sep s c : last s = Some c → uval c ≠ sep → trim_end sep s = s.
Proof.
  intros [l ->]%last_Some Hc. unfold trim_end. rewrite rev_app_distr. cbn.
  destruct (Z.eqb_spec (uval c) sep); [done|]. cbn. by rewrite rev_involutive.
Qed.

Lemma last_good s : good_name s → ∃ c, last s = Some c ∧ uval c ≠ PATH_SEP.
Proof.
  intros [Hs Hf]. destruct (last s) as [c|] eqn:Hl; [|apply last_None in Hl; contradiction]. exists c. split; [done|].
  apply last_Some in Hl as [l ->]. apply Forall_app in Hf as [_ Hf]. by inversion_clear Hf.
Qed.

Lemma path_str_snoc names s :
  path_str (names ++ [s]) = match names with [] => [] | _ :: _ => path_str names end ++ U8 PATH_SEP :: s.
Proof.
  destruct names as [|n names]; [cbn; by rewrite app_nil_r|]. cbn [app path_str].
  change (n :: names ++ [s]) with ((n :: names) ++ [s]). rewrite map_app, concat_app. cbn. by rewrite app_nil_r.
Qed.

Lemma path_str_last names s :
  good_name s → ∃ c, last (path_str (names ++ [s])) = Some c ∧ uval c ≠ PATH_SEP.
Proof.
  intros Hs. destruct (last_good s Hs) as (c & Hc & Hne). exists c. split; [|done].
  rewrite path_str_snoc. apply last_Some in Hc as [l ->]. rewrite app_comm_cons, app_assoc. by apply last_snoc.
Qed.

Lemma Path_new_str names : Forall good_name names → Path_new (path_str names) = Returns (path_str names).
Proof.
  intros Hn. destruct names as [|s names _] using rev_ind; [done|].
  assert (Hs : good_name s) by (apply Forall_app in Hn as [_ Hn]; by inversion_clear Hn).
  destruct (path_str_last names s Hs) as (c & Hc & Hne). unfold Path_new, sanitize.
  assert (Hst : starts_with_sep (path_str (names ++ [s])) = true) by by destruct names.
  rewrite Hst. cbn [negb]. rewrite bool_decide_false by (intros Heq; rewrite Heq in Hc; by injection Hc as <-).
  rewrite (trim_end_last _ _ c) by done. rewrite Hst.
  replace (split_on PATH_SEP (path_str (names ++ [s]))) with ([] :: (names ++ [s]));
    [|by rewrite <-split_names by done; destruct names].
  cbn [drop]. replace (existsb _ _) with false; [by destruct names|].
  clear -Hn. induction Hn as [|x l [Hx _] _ IH]; [done|]. cbn. by destruct x.
Qed.

Lemma trim_start_good s : good_name s → trim_start PATH_SEP s = s.
Proof.
  intros [Hs Hf]. destruct s as [|c s]; [done|]. apply Forall_cons in Hf as [Hc _]. cbn.
  by destruct (Z.eqb_spec (uval c) PATH_SEP).
Qed.

Lemma Path_push_str names s :
  Forall good_name names → good_name s → Path_push (path_str names) s = Returns (path_str (names ++ [s])).
Proof.
  intros Hn Hs. unfold Path_push. rewrite trim_start_good by done.
  destruct (last_good s Hs) as (c & Hc & Hne). rewrite (trim_end_last _ _ c) by done.
  replace (_ ++ s) with (path_str (names ++ [s])).
  { apply (Path_new_str (names ++ [s])). apply Forall_app_2; [done|by constructor]. }
  rewrite path_str_snoc. destruct names as [|n names _] using rev_ind; [done|].
  assert (Hg : good_name n) by (apply Forall_app in Hn as [_ Hn]; by inversion_clear Hn).
  destruct (path_str_last names n Hg) as (d & -> & Hd). destruct (Z.eqb_spec (uval d) PATH_SEP); [done|].
  rewrite <-app_assoc. by destruct names.
Qed.

Lemma trim_end_sep sep s c : uval c = sep → trim_end sep (s ++ [c]) = trim_end sep s.
Proof. intros Hc. unfold trim_end. rewrite rev_app_distr. cbn. by rewrite (proj2 (Z.eqb_eq _ _) Hc). Qed.

Lemma Path_push_nil names : Forall good_name names → Path_push (path_str names) [] = Returns (path_str names).
Proof.
  intros Hn. destruct names as [|s names _] using rev_ind; [done|]. unfold Path_push. cbn [trim_start].
  assert (Hs : good_name s) by (apply Forall_app in Hn as [_ Hn']; by inversion_clear Hn').
  destruct (path_str_last names s Hs) as (c & Hc & Hne). rewrite Hc. destruct (Z.eqb_spec (uval c) PATH_SEP); [done|].
  change (trim_end PATH_SEP []) with (@nil u8). rewrite app_nil_r. pose proof (Path_new_str _ Hn) as Hnew.
  unfold Path_new, sanitize in *. rewrite trim_end_sep by done.
  destruct (path_str (names ++ [s])) as [|d p] eqn:Hp; [done|]. cbn [starts_with_sep app] in *.
  destruct (negb (uval d =? PATH_SEP)); [done|].
  rewrite bool_decide_false in Hnew by (intros Heq; rewrite Heq in Hc; by injection Hc as <-).
  rewrite bool_decide_false by (intros Heq; injection Heq as _ Heq; by destruct p). exact Hnew.
Qed.

(** A valid name can always be pushed; the empty one leaves the path. *)
Lemma Path_push_valid names s :
  Forall good_name names → is_valid_node_name s = true →
  ∃ names', Forall good_name names' ∧ Path_push (path_str names) s = Returns (path_str names').
Proof.
  intros Hn Hs. destruct s as [|c s]; [exists names; split; [done|by apply Path_push_nil]|].
  assert (Hg : good_name (c :: s)) by (split; [done|by apply valid_name_sep]).
  exists (names ++ [c :: s]). split; [apply Forall_app_2; [done|by constructor]|by apply Path_push_str].
Qed.
