(* ===== verification/Overlay.v ===== *)
(** * Overlays of device trees

    [cros_fdt/src/overlay.rs] and the paths with properties of [path.rs]: applying
    an overlay to a base tree.  The overlay is dropped when a step fails, so that
    the steps that only change the overlay are functions to a new one; the steps
    that change the base keep what they did before an error. *)

From stdpp Require Import sorting.
From S2P Require Import Prelude StdIo Checked DeviceTree.

Definition PHANDLE_PROP : list u8 := bytes_of_string "phandle".
Definition LINUX_PHANDLE_PROP : list u8 := bytes_of_string "linux,phandle".
Definition TARGET_PATH_PROP : list u8 := bytes_of_string "target-path".
Definition TARGET_PROP : list u8 := bytes_of_string "target".
Definition LOCAL_FIXUPS_NODE : list u8 := bytes_of_string "__local_fixups__".
Definition OVERLAY_NODE : list u8 := bytes_of_string "__overlay__".
Definition FIXUPS_NODE : list u8 := bytes_of_string "__fixups__".
Definition ROOT_NODE : list u8 := bytes_of_string "/".

(** A [HashSet] is a list without duplicates, iterated in an order that is not
    specified. *)
Class SetOrder := {
  set_iter {A : Set} : list A → list A;
  set_iter_perm {A : Set} (l : list A) : set_iter l ≡ₚ l
}.

Section set.
Context {A : Set} `{EqDecision A}.

Definition set_insert (l : list A) (x : A) : list A := if bool_decide (x ∈ l) then l else l ++ [x].
Definition set_extend (l k : list A) : list A := foldl set_insert l k.

End set.

(** Strings are compared byte by byte. *)
Fixpoint string_le (a b : list u8) : bool :=
  match a, b with
  | [], _ => true
  | _ :: _, [] => false
  | x :: a, y :: b => (x <? y) || ((x =? y) && string_le a b)
  end.

Definition string_ordered (a b : list u8) : Prop := string_le a b = true.
#[global] Instance string_ordered_dec : RelDecision string_ordered.
Proof. intros a b. unfold string_ordered. apply _. Defined.

(** [PhandlePin]: the name of a property and the offset of a phandle in it. *)
Record PhandlePin := MkPin { pin_prop : list u8; pin_offset : u32 }.

(** [str::parse::<u32>]. *)
Fixpoint parse_digits (s : list u8) (acc : Z) : option Z :=
  match s with
  | [] => Some acc
  | c :: s =>
      if in_byte_range 48 57 c then
        let acc := acc * 10 + (c - 48) in
        if 2 ^ 32 <=? acc then None else parse_digits s acc
      else None
  end.
Definition parse_u32 (s : list u8) : option u32 :=
  let digits := match s with c :: s' => if uval c =? 43 then s' else s | [] => s end in
  if lengthZ digits =? 0 then None else U32 <$> parse_digits digits 0.

Definition parse_path_with_prop (value : list u8) : outcome FdtError (list u8 * PhandlePin) :=
  match split_on 58 value with
  | [] => Aborts
  | p :: elements =>
      path ← Path_new p;
      prop ← ok_or_else (elements !! 0%nat) InvalidPath;
      text ← ok_or_else (elements !! 1%nat) InvalidPath;
      off ← ok_or_else (parse_u32 text) InvalidPath;
      Returns (path, MkPin prop off)
  end.

(** ** Reading the trees *)

Definition get_node_phandle (n : FdtNode) : option u32 :=
  match get_prop PHANDLE_PROP n with
  | Some p => Some p
  | None => get_prop LINUX_PHANDLE_PROP n
  end.

(** The nodes of a tree, with their paths, in the order of the queue: the fuel
    bounds the number of nodes. *)
Fixpoint node_count (n : FdtNode) : nat :=
  S (foldr (λ p acc, (node_count (snd p) + acc)%nat) 0%nat (node_subnodes n)).

(** The children of a node, with the path of each. *)
Fixpoint push_children (path : list u8) (subs : list (list u8 * FdtNode)) :
    outcome FdtError (list (list u8 * FdtNode)) :=
  match subs with
  | [] => Returns []
  | (_, child) :: subs =>
      p ← Path_push path (node_name child);
      rest ← push_children path subs;
      Returns ((p, child) :: rest)
  end.

Fixpoint visit_nodes (fuel : nat) (queue : list (list u8 * FdtNode)) :
    outcome FdtError (list (list u8 * FdtNode)) :=
  match queue, fuel with
  | [], _ => Returns []
  | _ :: _, O => Aborts
  | (path, n) :: queue, S fuel =>
      children ← push_children path (node_subnodes n);
      rest ← visit_nodes fuel (queue ++ children);
      Returns ((path, n) :: rest)
  end.

(** [get_all_phandles]: a later node replaces an earlier one with its phandle; a
    path that cannot be built is a panic. *)
Definition get_all_phandles (f : Fdt) : outcome FdtError (gmap Z (list u8)) :=
  match visit_nodes (node_count (root f)) [(ROOT_NODE, root f)] with
  | Returns nodes =>
      Returns (foldl (λ m '(path, n),
        match get_node_phandle n with Some p => <[uval p := path]> m | None => m end) ∅ nodes)
  | _ => Aborts
  end.

(** [collect_phandle_refs_from_props]: the loops over the properties of the fixup
    node and over the offsets in each. *)
Fixpoint refs_at (propname : list u8) (offsets : list u32) (tree_node : FdtNode) : outcome FdtError (list u32) :=
  match offsets with
  | [] => Returns []
  | o :: offsets =>
      p ← ok_or_else (phandle_at_offset propname (uval o) tree_node) PropertyValueInvalid;
      rest ← refs_at propname offsets tree_node;
      Returns (p :: rest)
  end.

Fixpoint refs_from_props (fixup_props : list (list u8 * list u8)) (tree_node : FdtNode) :
    outcome FdtError (list u32) :=
  match fixup_props with
  | [] => Returns []
  | (propname, value) :: props =>
      offsets ← unwrap_or_abort (from_propval (T := list u32) value);
      refs ← refs_at propname offsets tree_node;
      rest ← refs_from_props props tree_node;
      Returns (refs ++ rest)
  end.

Fixpoint collect_refs (names : list (list u8)) (tree_node fixup_node : FdtNode) (refs : list u32) :
    outcome FdtError (list u32) :=
  match names with
  | [] => Returns refs
  | name :: names =>
      tree_node ← ok_or_else (subnode name tree_node) InvalidPath;
      match subnode name fixup_node with
      | None => Returns refs
      | Some fixup_node =>
          new ← refs_from_props (node_props fixup_node) tree_node;
          collect_refs names tree_node fixup_node (set_extend refs new)
      end
  end.

Definition collect_all_references_by_path (path : list u8) (root local_fixups_node : FdtNode) :
    outcome FdtError (list u32) := collect_refs (Path_iter path) root local_fixups_node [].

(** ** Filtering *)

(** [dedup_by(|a, b| a.is_child_of(b))] keeps a path unless it is under the last one kept. *)
Fixpoint dedup_children (kept : list u8) (paths : list (list u8)) : list (list u8) :=
  match paths with
  | [] => []
  | p :: paths => if is_child_of p kept then dedup_children kept paths else p :: dedup_children p paths
  end.

Definition minimize_paths (paths : list (list u8)) : list (list u8) :=
  match merge_sort string_ordered paths with
  | [] => []
  | p :: paths => p :: dedup_children p paths
  end.

Section overlay.
Context {SO : SetOrder}.

(** [prepare_filtered_symbols]: the set of the symbols and the paths of its
    elements. *)
Fixpoint symbol_paths (symbols : list (list u8)) (f : Fdt) : outcome FdtError (list (list u8)) :=
  match symbols with
  | [] => Returns []
  | s :: symbols =>
      match symbol_to_path s f with
      | Returns p => rest ← symbol_paths symbols f; Returns (p :: rest)
      | Throws _ => Throws FilterError
      | Aborts => Aborts
      end
  end.

Definition prepare_filtered_symbols (start_symbols : list (list u8)) (f : Fdt) :
    outcome FdtError (list (list u8) * list (list u8)) :=
  let symbols := set_extend [] start_symbols in
  paths ← symbol_paths (set_iter symbols) f;
  Returns (symbols, paths).

(** The paths of the nodes with the given phandles. *)
Fixpoint paths_of (phandles : list u32) (all_phandles : gmap Z (list u8)) : outcome FdtError (list (list u8)) :=
  match phandles with
  | [] => Returns []
  | ph :: phandles =>
      p ← ok_or_else (all_phandles !! uval ph) PropertyValueInvalid;
      rest ← paths_of phandles all_phandles;
      Returns (p :: rest)
  end.

(** The loop over the pending paths: the set of the paths to keep. *)
Fixpoint pending_loop (fuel : nat) (pending result : list (list u8)) (f : Fdt) (local_fixups : FdtNode)
    (all_phandles : gmap Z (list u8)) : outcome FdtError (list (list u8)) :=
  match pending, fuel with
  | [], _ => Returns result
  | _ :: _, O => Aborts
  | path :: pending, S fuel =>
      if bool_decide (path ∈ result) then pending_loop fuel pending result f local_fixups all_phandles
      else
        phandles ← collect_all_references_by_path path (root f) local_fixups;
        new ← paths_of (set_iter phandles) all_phandles;
        pending_loop fuel (pending ++ new) (set_insert result path) f local_fixups all_phandles
  end.

(** A path is processed once, and the references of one path are distinct
    phandles of the tree. *)
Definition pending_fuel (paths : nat) (phandles : nat) : nat := paths + (paths + phandles) * phandles.

Definition collect_all_filtered_paths (start_paths : list (list u8)) (f : Fdt) :
    outcome FdtError (list (list u8)) :=
  match start_paths with
  | [] => Returns []
  | _ :: _ =>
      let start_paths := minimize_paths start_paths in
      match subnode LOCAL_FIXUPS_NODE (root f) with
      | None => Returns start_paths
      | Some local_fixups_node =>
          all_phandles ← get_all_phandles f;
          result ← pending_loop (pending_fuel (length start_paths) (size all_phandles)) start_paths []
                     f local_fixups_node all_phandles;
          Returns (minimize_paths (set_iter result))
      end
  end.

(** Copy the nodes along a path, without their other subnodes: a name that is
    missing in the source, or not valid, is a panic. *)
Fixpoint graft (names : list (list u8)) (src_node tgt_node : FdtNode) : outcome FdtError FdtNode :=
  match names with
  | [] => Returns tgt_node
  | name :: names =>
      src_node ← unwrap_or_abort (subnode name src_node);
      child ← match subnode name tgt_node with
              | Some child => Returns child
              | None => match FdtNode_empty name with Returns n => Returns n | _ => Aborts end
              end;
      child ← graft names src_node (set_props (node_props src_node) child);
      Returns (set_subnodes (index_insert name child (node_subnodes tgt_node)) tgt_node)
  end.

Fixpoint graft_paths (paths : list (list u8)) (src tgt : FdtNode) : outcome FdtError FdtNode :=
  match paths with
  | [] => Returns tgt
  | p :: paths => tgt ← graft (Path_iter p) src tgt; graft_paths paths src tgt
  end.

Definition do_overlay_filter (filtered_paths : list (list u8)) (overlay : Fdt) : outcome FdtError Fdt :=
  match filtered_paths with
  | [] => Returns overlay
  | _ :: _ =>
      match FdtNode_empty [] with
      | Returns new_root =>
          new_root ← graft_paths filtered_paths (root overlay) new_root;
          Returns (set_root new_root overlay)
      | _ => Aborts
      end
  end.

End overlay.

(** ** Phandles *)

(** The largest phandle; the order in which the queue visits the nodes does not
    matter. *)
Fixpoint max_phandle (n : FdtNode) : Z :=
  foldr (λ p acc, Z.max (max_phandle (snd p)) acc)
    (match get_node_phandle n with Some p => uval p | None => 0 end) (node_subnodes n).
Definition get_max_phandle (n : FdtNode) : u32 := U32 (max_phandle n).

(** Run an edit and keep what it made. *)
Definition edited {S A} (edit : prog S FdtError A) (s : S) : outcome FdtError S :=
  match edit s with (Returns _, s') => Returns s' | (Throws e, _) => Throws e | (Aborts, _) => Aborts end.

Definition offset_phandle_prop (propname : list u8) (delta : u32) : Edit () :=
  n ← get_state;
  val ← ok_or_throw (get_prop (T := u32) propname n) ApplyOverlayError;
  val ← ok_or_throw (add_checked val delta) ApplyOverlayError;
  r ← catch (set_prop propname val);
  match r with inl _ => mret () | inr _ => abort end.

Definition offset_phandle_node (delta : u32) : Edit () :=
  n ← get_state;
  _ ← (if has_prop PHANDLE_PROP n then offset_phandle_prop PHANDLE_PROP delta else mret ());
  n ← get_state;
  if has_prop LINUX_PHANDLE_PROP n then offset_phandle_prop LINUX_PHANDLE_PROP delta else mret ().

Fixpoint offset_phandle_tree (delta : u32) (n : FdtNode) : outcome FdtError FdtNode :=
  n' ← edited (offset_phandle_node delta) n;
  subs ← (fix go l :=
            match l with
            | [] => Returns []
            | (k, c) :: l => c ← offset_phandle_tree delta c; l ← go l; Returns ((k, c) :: l)
            end) (node_subnodes n);
  Returns (set_subnodes subs n').

Definition offset_phandle_values (f : Fdt) (delta : u32) : outcome FdtError Fdt :=
  r ← offset_phandle_tree delta (root f); Returns (set_root r f).

(** ** References inside the overlay *)

(** The pins of one node of [__local_fixups__]. *)
Fixpoint pins_of (props : list (list u8 * list u8)) : outcome FdtError (list PhandlePin) :=
  match props with
  | [] => Returns []
  | (propname, value) :: props =>
      offsets ← ok_or_else (from_propval (T := list u32) value) ApplyOverlayError;
      rest ← pins_of props;
      Returns (map (MkPin propname) offsets ++ rest)
  end.

(** The loop over the queue: a node without properties makes no entry of the map.
    The fuel bounds the number of nodes. *)
Fixpoint fixup_paths_loop (fuel : nat) (queue : list (list u8 * FdtNode)) (m : list (list u8 * list PhandlePin)) :
    outcome FdtError (list (list u8 * list PhandlePin)) :=
  match queue, fuel with
  | [], _ => Returns m
  | _ :: _, O => Aborts
  | (path, n) :: queue, S fuel =>
      pins ← pins_of (node_props n);
      let m := match node_props n with
               | [] => m
               | _ :: _ => index_insert path (default [] (index_get path m) ++ pins) m
               end in
      children ← push_children path (node_subnodes n);
      fixup_paths_loop fuel (queue ++ children) m
  end.

(** [BTreeMap] iterates in the order of the keys. *)
Definition key_ordered {V} (a b : list u8 * V) : Prop := string_ordered a.1 b.1.
#[global] Instance key_ordered_dec {V} : RelDecision (key_ordered (V := V)).
Proof. intros a b. apply string_ordered_dec. Defined.

Definition collect_local_fixup_paths (f : Fdt) : outcome FdtError (list (list u8 * list PhandlePin)) :=
  match subnode LOCAL_FIXUPS_NODE (root f) with
  | None => Returns []
  | Some local_fixups_node =>
      m ← fixup_paths_loop (node_count local_fixups_node) [(ROOT_NODE, local_fixups_node)] [];
      Returns (merge_sort key_ordered m)
  end.

Fixpoint update_pins (pins : list PhandlePin) (delta : u32) : Edit () :=
  match pins with
  | [] => mret ()
  | pin :: pins =>
      n ← get_state;
      phandle_val ← ok_or_throw (phandle_at_offset (pin_prop pin) (pin_offset pin) n) ApplyOverlayError;
      new_val ← checked (add_checked phandle_val delta);
      _ ← update_phandle_at_offset (pin_prop pin) (pin_offset pin) new_val;
      update_pins pins delta
  end.

Fixpoint update_local_phandle_propvals (paths : list (list u8 * list PhandlePin)) (delta : u32) :
    prog Fdt FdtError () :=
  match paths with
  | [] => mret ()
  | (path, pins) :: paths =>
      r ← with_node_mut path (update_pins pins delta);
      _ ← ok_or_throw r ApplyOverlayError;
      update_local_phandle_propvals paths delta
  end.

Definition update_local_refs (delta : u32) : prog Fdt FdtError () :=
  f ← get_state;
  phandle_locations ← give_outcome (collect_local_fixup_paths f);
  update_local_phandle_propvals phandle_locations delta.

(** ** References to the base *)

Definition get_symbol_path_and_phandle (symbol : list u8) (f : Fdt) : option (rstring * u32) :=
  symbols_node ← subnode SYMBOLS_NODE (root f);
  s ← get_prop (T := rstring) symbol symbols_node;
  target_node ← get_node (sbytes s) f;
  phandle ← get_node_phandle target_node;
  Some (s, phandle).

(** The keys of the map of places to update: [(String, u32)]. *)
Definition fixup_key : Type := rstring * u32.
Definition same_key (a b : fixup_key) : bool := bool_decide (sbytes a.1 = sbytes b.1) && (a.2 =? b.2).

Fixpoint fixup_insert (k : fixup_key) (v : list rstring) (m : list (fixup_key * list rstring)) :
    list (fixup_key * list rstring) :=
  match m with
  | [] => [(k, v)]
  | (k', v') :: m => if same_key k k' then (k, v) :: m else (k', v') :: fixup_insert k v m
  end.

Fixpoint collect_fixups (base : Fdt) (props : list (list u8 * list u8)) (m : list (fixup_key * list rstring)) :
    outcome FdtError (list (fixup_key * list rstring)) :=
  match props with
  | [] => Returns m
  | (fixup_symbol, value) :: props =>
      path_and_phandle ← ok_or_else (get_symbol_path_and_phandle fixup_symbol base) ApplyOverlayError;
      target_paths ← ok_or_else (from_propval (T := list rstring) value) ApplyOverlayError;
      collect_fixups base props (fixup_insert path_and_phandle target_paths m)
  end.

(** Tuples are compared by their components in order. *)
Definition fixup_le (a b : fixup_key) : bool :=
  if bool_decide (sbytes a.1 = sbytes b.1) then a.2 <=? b.2 else string_le (sbytes a.1) (sbytes b.1).
Definition fixup_ordered (a b : fixup_key * list rstring) : Prop := fixup_le a.1 b.1 = true.
#[global] Instance fixup_ordered_dec : RelDecision fixup_ordered.
Proof. intros a b. unfold fixup_ordered. apply _. Defined.

(** The change to one node. *)
Definition fix_target (base_path : rstring) (phandle : u32) (pin : PhandlePin) : Edit () :=
  _ ← update_phandle_at_offset (pin_prop pin) (pin_offset pin) phandle;
  n ← get_state;
  if bool_decide (pin_prop pin = TARGET_PROP)
     && existsb (λ '(_, c), bool_decide (node_name c = OVERLAY_NODE)) (node_subnodes n)
  then set_prop TARGET_PATH_PROP base_path
  else mret ().

Fixpoint fix_paths (base_path : rstring) (phandle : u32) (paths : list rstring) : prog Fdt FdtError () :=
  match paths with
  | [] => mret ()
  | p :: paths =>
      '(path, pin) ← give_outcome (parse_path_with_prop (sbytes p));
      r ← with_node_mut path (fix_target base_path phandle pin);
      _ ← ok_or_throw r ApplyOverlayError;
      fix_paths base_path phandle paths
  end.

Fixpoint fix_all (m : list (fixup_key * list rstring)) : prog Fdt FdtError () :=
  match m with
  | [] => mret ()
  | ((base_path, phandle), paths) :: m => _ ← fix_paths base_path phandle paths; fix_all m
  end.

(** On the overlay. *)
Definition apply_external_fixups (base : Fdt) : prog Fdt FdtError () :=
  overlay ← get_state;
  match subnode FIXUPS_NODE (root overlay) with
  | None => mret ()
  | Some fixups_node =>
      paths_to_update ← give_outcome (collect_fixups base (node_props fixups_node) []);
      fix_all (merge_sort fixup_ordered paths_to_update)
  end.

(** ** Merging into the base *)

Fixpoint overlay_node_pair (overlay_node : FdtNode) : Edit () :=
  base_node ← get_state;
  _ ← put_state (set_props (index_extend (node_props base_node) (node_props overlay_node)) base_node);
  (fix go subs : Edit () :=
     match subs with
     | [] => mret ()
     | (_, overlay_subnode) :: subs =>
         _ ← with_subnode_mut (node_name overlay_subnode) (overlay_node_pair overlay_subnode);
         go subs
     end) (node_subnodes overlay_node).

Definition overlay_fragment (fragment_node : FdtNode) : prog Fdt FdtError () :=
  match subnode OVERLAY_NODE fragment_node with
  | None => mret ()
  | Some overlay_node =>
      match get_prop (T := rstring) TARGET_PATH_PROP fragment_node with
      | None => mret ()
      | Some target_path =>
          r ← with_node_mut (sbytes target_path) (overlay_node_pair overlay_node);
          _ ← ok_or_throw r ApplyOverlayError;
          mret ()
      end
  end.

Fixpoint overlay_fragments (subs : list (list u8 * FdtNode)) : prog Fdt FdtError () :=
  match subs with
  | [] => mret ()
  | (_, fragment_node) :: subs => _ ← overlay_fragment fragment_node; overlay_fragments subs
  end.

Fixpoint join_names (names : list (list u8)) : list u8 :=
  match names with
  | [] => []
  | [n] => n
  | n :: names => n ++ U8 PATH_SEP :: join_names names
  end.

Definition extract_fragment_and_subpath (path : list u8) : outcome FdtError (list u8 * list u8) :=
  match Path_iter path with
  | [] => Throws ApplyOverlayError
  | fragment_name :: names =>
      match drop 1 names with
      | [] => Throws ApplyOverlayError
      | rest => Returns (fragment_name, join_names rest)
      end
  end.

(** The path of a symbol in the base: the [target-path] of its fragment, and what
    follows [__overlay__]. *)
Definition new_symbol_path (overlay symbols_node : FdtNode) (symbol : list u8) : outcome FdtError (list u8) :=
  target ← unwrap_or_abort (get_prop (T := rstring) symbol symbols_node);
  symbol_target ← Path_new (sbytes target);
  '(fragment_name, rest) ← extract_fragment_and_subpath symbol_target;
  fragment_node ← ok_or_else (subnode fragment_name overlay) ApplyOverlayError;
  let target_path := match get_prop (T := rstring) TARGET_PATH_PROP fragment_node with
                     | Some s => sbytes s
                     | None => []
                     end in
  base_path ← Path_new target_path;
  Path_push base_path rest.

(** The loop of [update_base_symbols], on the symbols node of the base; a path is a
    string. *)
Fixpoint copy_symbols (overlay symbols_node : FdtNode) (filtered : list (list u8)) (symbols : list (list u8)) :
    Edit () :=
  match symbols with
  | [] => mret ()
  | symbol :: symbols =>
      if negb (lengthZ filtered =? 0) && negb (bool_decide (symbol ∈ filtered))
      then copy_symbols overlay symbols_node filtered symbols
      else
        new_path ← give_outcome (new_symbol_path overlay symbols_node symbol);
        match from_utf8 new_path with
        | None => abort
        | Some s =>
            r ← catch (set_prop symbol s);
            match r with
            | inl _ => copy_symbols overlay symbols_node filtered symbols
            | inr _ => abort
            end
        end
  end.

Definition update_base_symbols (overlay : Fdt) (filtered_symbols : list (list u8)) : prog Fdt FdtError () :=
  match subnode SYMBOLS_NODE (root overlay) with
  | None => mret ()
  | Some overlay_symbols_node =>
      with_root_mut (with_subnode_mut SYMBOLS_NODE
        (copy_symbols (root overlay) overlay_symbols_node filtered_symbols
           (map fst (node_props overlay_symbols_node))))
  end.

(** ** Reserved memory *)

(** [Reverse(a.address)]: descending, and the last element is popped first. *)
Definition address_descending (a b : FdtReserveEntry) : Prop := re_address b <= re_address a.
#[global] Instance address_descending_dec : RelDecision address_descending.
Proof. intros a b. unfold address_descending. apply _. Defined.

Definition entry_end (e : FdtReserveEntry) : option u64 := add_checked (re_address e) (re_size e).

(** The loop, on the entries in the order in which they are popped. *)
Fixpoint merge_entries (entry : FdtReserveEntry) (rest result : list FdtReserveEntry) :
    option (list FdtReserveEntry) :=
  match rest with
  | [] => Some (result ++ [entry])
  | next_entry :: rest =>
      end_ ← entry_end entry;
      if uval (re_address next_entry) <=? uval end_ then
        next_end ← entry_end next_entry;
        size ← sub_checked (umax end_ next_end) (re_address entry);
        merge_entries (MkReserve (re_address entry) size) rest result
      else merge_entries next_entry rest (result ++ [entry])
  end.

Definition merge_resvmem (base new_entries : list FdtReserveEntry) : option (list FdtReserveEntry) :=
  match rev (merge_sort address_descending (base ++ new_entries)) with
  | [] => Some []
  | entry :: rest => merge_entries entry rest []
  end.

Definition set_reserved (l : list FdtReserveEntry) (f : Fdt) : Fdt :=
  MkFdt l (root f) (fdt_strings f) (boot_cpuid_phys f).

Definition apply_overlay `{SetOrder} (overlay : Fdt) (filter_symbols : list (list u8)) : prog Fdt FdtError () :=
  '(filter_symbols, filter_paths) ← give_outcome (prepare_filtered_symbols filter_symbols overlay);
  filtered_paths ← give_outcome (collect_all_filtered_paths filter_paths overlay);
  base ← get_state;
  let max_phandle := get_max_phandle (root base) in
  overlay ← give_outcome (offset_phandle_values overlay max_phandle);
  overlay ← give_outcome (edited (update_local_refs max_phandle) overlay);
  overlay ← give_outcome (edited (apply_external_fixups base) overlay);
  _ ← update_base_symbols overlay filter_symbols;
  overlay ← give_outcome (do_overlay_filter filtered_paths overlay);
  _ ← overlay_fragments (node_subnodes (root overlay));
  base ← get_state;
  reserved ← checked (merge_resvmem (reserved_memory base) (reserved_memory overlay));
  put_state (set_reserved reserved base).
