(* ===== verification/OverlayFacts.v ===== *)
(** * Overlays: what applying one does

    The reserved regions of both trees are merged without losing a byte; a fragment
    is laid over its target property by property; the phandles of the overlay are
    moved above those of the base, and the references to them inside the overlay
    move along; the base stays well formed, whatever the overlay holds. *)

From stdpp Require Import sorting.
From S2P Require Import Prelude StdIo Checked DeviceTree DeviceTreeFacts DeviceTreeEdits Overlay.

(** ** Reserved memory *)

(** The address [x] lies in one of the regions. *)
Definition in_entry (x : Z) (e : FdtReserveEntry) : Prop := re_address e <= x < re_address e + re_size e.
Definition covered (x : Z) (l : list FdtReserveEntry) : Prop := Exists (in_entry x) l.

(** A gap between one region and the next. *)
Definition apart (a b : FdtReserveEntry) : Prop := re_address a + re_size a < re_address b.

Lemma covered_cons x e l : covered x (e :: l) ↔ in_entry x e ∨ covered x l.
Proof. unfold covered. by rewrite Exists_cons. Qed.

Lemma covered_perm x l k : l ≡ₚ k → covered x l ↔ covered x k.
Proof. intros Hp. unfold covered. by rewrite Hp. Qed.

Lemma merge_entries_result entry rest result :
  merge_entries entry rest result = (result ++.) <$> merge_entries entry rest [].
Proof.
  revert entry result. induction rest as [|next rest IH]; intros entry result; cbn [merge_entries]; [done|].
  destruct (entry_end entry) as [e|]; cbn; [|done]. destruct (_ <=? _).
  - destruct (entry_end next); cbn; [|done]. destruct (sub_checked _ _); cbn; [|done]. apply IH.
  - rewrite IH, (IH _ [entry]). destruct (merge_entries next rest []); cbn; [|done]. by rewrite <-app_assoc.
Qed.

Definition ascending (a b : FdtReserveEntry) : Prop := re_address a <= re_address b.

(** Two regions become one: the same addresses, and not a terminator. *)
Lemma merged_entry a b (end_ bend size : u64) :
  ascending a b → entry_end a = Some end_ → re_address b <= end_ → entry_end b = Some bend →
  sub_checked (umax end_ bend) (re_address a) = Some size →
  (∀ x, in_entry x (MkReserve (re_address a) size) ↔ in_entry x a ∨ in_entry x b) ∧
  (is_terminator a = false → is_terminator (MkReserve (re_address a) size) = false).
Proof.
  unfold entry_end, ascending, in_entry, is_terminator. intros Hab Ha Hle Hb Hs.
  apply add_checked_Some in Ha, Hb. apply sub_checked_Some in Hs. rewrite umax_spec in Hs. cbn [re_address re_size].
  pose proof (uint_range (re_size a)). pose proof (uint_range (re_size b)). split; [lia|].
  rewrite !andb_false_iff, !Z.eqb_neq. lia.
Qed.

Lemma merge_entries_spec entry rest r :
  StronglySorted ascending (entry :: rest) → merge_entries entry rest [] = Some r →
  (∀ x, covered x r ↔ covered x (entry :: rest)) ∧ Sorted apart r ∧
  (∃ e l, r = e :: l ∧ re_address e = re_address entry) ∧
  (Forall (λ e, is_terminator e = false) (entry :: rest) → Forall (λ e, is_terminator e = false) r).
Proof.
  revert entry r. induction rest as [|next rest IH]; intros entry r Hs; cbn [merge_entries].
  { intros [= <-]. split_and!; [done| |by eauto|done]. by repeat constructor. }
  apply StronglySorted_cons in Hs as [Hle Hs]. apply Forall_cons in Hle as [Hn Hr].
  destruct (entry_end entry) as [e|] eqn:He; cbn; [|done]. destruct (Z.leb_spec (re_address next) e) as [Hin|Hout].
  - destruct (entry_end next) as [ne|] eqn:Hne; cbn; [|done].
    destruct (sub_checked _ _) as [size|] eqn:Hsize; cbn; [|done].
    destruct (merged_entry _ _ _ _ _ Hn He Hin Hne Hsize) as [Hcov Hterm]. intros Hm.
    apply StronglySorted_cons in Hs as [_ Hs].
    destruct (IH (MkReserve (re_address entry) size) r) as (Hc & Hap & Hhd & Ht); [by apply StronglySorted_cons|done|].
    split_and!; [|done|done|].
    + intros x. rewrite Hc, !covered_cons, Hcov. tauto.
    + intros [? [? ?]%Forall_cons_1]%Forall_cons_1. apply Ht. eauto.
  - rewrite merge_entries_result. destruct (merge_entries next rest []) as [r'|] eqn:Hm; cbn; [|done]. intros [= <-].
    destruct (IH next r' Hs Hm) as (Hc & Hap & (hd & tl & -> & Hhd) & Ht). split_and!; [| |by eauto|].
    + intros x. by rewrite !(covered_cons x entry), Hc.
    + constructor; [done|]. constructor. unfold apart. unfold entry_end in He. apply add_checked_Some in He. rewrite Hhd. lia.
    + intros [? [? ?]%Forall_cons_1]%Forall_cons_1. constructor; [done|]. apply Ht. eauto.
Qed.

(** Entries that end below 2^64 are always merged. *)
Definition bounded_entry (e : FdtReserveEntry) : Prop := re_address e + re_size e < 2 ^ 64.

Lemma bounded_end e : bounded_entry e → ∃ end_ : u64, entry_end e = Some end_ ∧ uval end_ = re_address e + re_size e.
Proof.
  intros He. unfold entry_end. destruct (add_checked _ _) as [end_|] eqn:Ha.
  - exists end_. split; [done|]. by apply add_checked_Some in Ha.
  - apply add_checked_None in Ha. unfold bounded_entry in He. cbn [Z.of_N] in Ha. lia.
Qed.

Lemma merge_entries_total entry rest :
  Forall bounded_entry (entry :: rest) → is_Some (merge_entries entry rest []).
Proof.
  revert entry. induction rest as [|next rest IH]; intros entry; cbn [merge_entries]; [by eauto|].
  intros [He [Hn Hr]%Forall_cons_1]%Forall_cons_1.
  destruct (bounded_end entry He) as (e & -> & Hev). destruct (bounded_end next Hn) as (ne & -> & Hnev). cbn.
  destruct (Z.leb_spec (re_address next) e).
  - pose proof (umax_spec e ne). pose proof (uint_range (re_size entry)).
    destruct (sub_checked _ _) as [size|] eqn:Hs; cbn; [|apply sub_checked_None in Hs; lia].
    apply sub_checked_Some in Hs. apply IH. constructor; [|done]. unfold bounded_entry in *. cbn. lia.
  - rewrite merge_entries_result. destruct (IH next) as [r ->]; [by constructor|]. by eauto.
Qed.

Lemma StronglySorted_rev {A} (R : relation A) l : StronglySorted R l → StronglySorted (flip R) (rev l).
Proof.
  induction 1 as [|x l Hs IH Hx]; cbn; [constructor|]. clear Hs.
  assert (Hx' : Forall (R x) (rev l)) by (rewrite <-(Permutation_rev l); done).
  clear Hx. induction IH as [|y k Hk IH Hy]; cbn; [by repeat constructor|]. apply Forall_cons in Hx' as [Hxy Hx'].
  apply StronglySorted_cons. split; [|by apply IH]. apply Forall_app. by repeat constructor.
Qed.

#[local] Instance address_descending_trans : Transitive address_descending.
Proof. intros a b c. unfold address_descending. lia. Qed.
#[local] Instance address_descending_total : Total address_descending.
Proof. intros a b. unfold address_descending. lia. Qed.

Lemma popped_entries l :
  StronglySorted ascending (rev (merge_sort address_descending l)) ∧ rev (merge_sort address_descending l) ≡ₚ l.
Proof.
  split; [apply (StronglySorted_rev address_descending), StronglySorted_merge_sort; apply _|].
  etransitivity; [symmetry; apply Permutation_rev|apply merge_sort_Permutation].
Qed.

Lemma merge_resvmem_terminators base new r :
  Forall (λ e, is_terminator e = false) (base ++ new) → merge_resvmem base new = Some r →
  Forall (λ e, is_terminator e = false) r.
Proof.
  unfold merge_resvmem. destruct (popped_entries (base ++ new)) as [Hs Hp]. intros Hf. rewrite <-Hp in Hf.
  destruct (rev _) as [|entry rest]; [by intros [= <-]|]. intros Hm.
  by apply (merge_entries_spec entry rest r Hs Hm).
Qed.

Lemma merge_resvmem_covers base new r :
  merge_resvmem base new = Some r → ∀ x, covered x r ↔ covered x base ∨ covered x new.
Proof.
  unfold merge_resvmem. destruct (popped_entries (base ++ new)) as [Hs Hp]. intros Hm x. unfold covered at 2 3.
  rewrite <-Exists_app. change (covered x r ↔ covered x (base ++ new)). rewrite <-(covered_perm _ _ _ Hp).
  destruct (rev _) as [|entry rest]; [by injection Hm as <-|]. by apply (merge_entries_spec entry rest r Hs Hm).
Qed.

(** Merging the reserved regions of an overlay into those of the base loses no
    byte and reserves none that was not reserved: the result covers exactly the
    addresses of both lists, in ascending order and with a gap between one region
    and the next, and regions that end below 2^64 are always merged. *)
Theorem merge_resvmem_spec base new :
  (∀ r, merge_resvmem base new = Some r →
     (∀ x, covered x r ↔ covered x base ∨ covered x new) ∧ Sorted apart r) ∧
  (Forall bounded_entry (base ++ new) → is_Some (merge_resvmem base new)).
Proof.
  split.
  - intros r Hm. split; [by apply merge_resvmem_covers|]. unfold merge_resvmem in Hm.
    destruct (popped_entries (base ++ new)) as [Hs _]. destruct (rev _) as [|entry rest]; [by injection Hm as <-|].
    by apply (merge_entries_spec entry rest r Hs Hm).
  - unfold merge_resvmem. destruct (popped_entries (base ++ new)) as [_ Hp].
    destruct (rev _) as [|entry rest]; [by eauto|]. intros Hb. apply merge_entries_total. by rewrite Hp.
Qed.

(** ** Laying a node over another *)

Fixpoint overlay_subnodes (subs : list (list u8 * FdtNode)) : Edit () :=
  match subs with
  | [] => mret ()
  | (_, sub) :: subs => _ ← with_subnode_mut (node_name sub) (overlay_node_pair sub); overlay_subnodes subs
  end.

Lemma overlay_node_pair_run o b :
  overlay_node_pair o b =
  overlay_subnodes (node_subnodes o) (set_props (index_extend (node_props b) (node_props o)) b).
Proof.
  destruct o as [name props subs]. cbn [overlay_node_pair node_props node_subnodes].
  erewrite bind_returns by done. erewrite bind_returns by done.
  generalize (set_props (index_extend (node_props b) props) b) as n.
  induction subs as [|[k c] subs IH]; intros n; [done|]. cbn [overlay_subnodes].
  unfold mbind, prog_bind. destruct (with_subnode_mut _ _ n) as [[[]|e|] n']; [apply IH|done..].
Qed.

Lemma index_get_extend {V} k (m new : list (list u8 * V)) :
  NoDup new.*1 →
  index_get k (index_extend m new) = match index_get k new with Some v => Some v | None => index_get k m end.
Proof.
  unfold index_extend. revert m. induction new as [|[k' v] new IH]; intros m; [done|].
  cbn [fmap list_fmap foldl]. intros [Hk' Hnd]%NoDup_cons. rewrite IH by done. cbn [index_get].
  case_bool_decide as Hk; [subst|].
  - rewrite (proj2 (index_get_None k' new)) by done. by rewrite index_get_insert_eq.
  - by rewrite index_get_insert_ne.
Qed.

Lemma index_extend_props (m new : list (list u8 * list u8)) :
  NoDup m.*1 → Forall prop_ok m → Forall prop_ok new →
  NoDup (index_extend m new).*1 ∧ Forall prop_ok (index_extend m new).
Proof.
  unfold index_extend. intros Hnd Hm Hnew. revert m Hnd Hm.
  induction Hnew as [|[k v] new Hkv _ IH]; intros m Hnd Hm; [done|]. cbn [foldl].
  apply IH; [by apply index_insert_NoDup|by apply index_insert_Forall].
Qed.

(** [b'] is [b] with [o] laid over it: the properties of [o] hide those of [b], and
    the nodes are those of both. *)
Record laid_over (o b b' : FdtNode) : Prop := {
  lo_ok : node_ok b';
  lo_name : node_name b' = node_name b;
  lo_values names key : value_at names key b' =
    match value_at names key o with Some v => Some v | None => value_at names key b end;
  lo_nodes names : is_Some (follow names b') ↔ is_Some (follow names o) ∨ is_Some (follow names b)
}.

(** The same for the subnodes alone. *)
Record subnodes_over (subs : list (list u8 * FdtNode)) (b b' : FdtNode) : Prop := {
  so_ok : node_ok b';
  so_name : node_name b' = node_name b;
  so_props : node_props b' = node_props b;
  so_other name : index_get name subs = None → subnode name b' = subnode name b;
  so_over name o : index_get name subs = Some o →
    ∃ c c', child_for name b = Some c ∧ subnode name b' = Some c' ∧ laid_over o c c'
}.

Definition overlays (o : FdtNode) : Prop := ∀ b,
  node_ok b → ∃ b', overlay_node_pair o b = (Returns (), b') ∧ laid_over o b b'.

Lemma child_for_valid name b : is_valid_node_name name = true → ∃ c, child_for name b = Some c.
Proof. intros Hv. unfold child_for. destruct (subnode name b); [by eauto|]. rewrite Hv. by eauto. Qed.

Lemma overlay_subnodes_over subs b :
  NoDup subs.*1 → Forall (λ p, node_name p.2 = p.1 ∧ node_ok p.2) subs → Forall (λ p, overlays p.2) subs →
  node_ok b → ∃ b', overlay_subnodes subs b = (Returns (), b') ∧ subnodes_over subs b b'.
Proof.
  intros Hnd Hok Hov. revert b. induction Hok as [|[k o] subs [Hk Ho] _ IH]; intros b Hb.
  { exists b. by split. }
  cbn [fmap list_fmap fst snd] in *. apply NoDup_cons in Hnd as [Hin Hnd]. apply Forall_cons in Hov as [Hov Hovs].
  cbn [overlay_subnodes snd] in *. subst k. destruct (child_for_valid (node_name o) b) as [c Hc]; [by apply node_ok_name|].
  destruct (child_for_ok _ _ _ Hb Hc) as [Hcok Hcn]. destruct (Hov c Hcok) as (c' & Hrun & Hlo).
  set (b1 := set_subnodes (index_insert (node_name o) c' (node_subnodes b)) b).
  assert (Hb1 : node_ok b1) by (apply put_child_ok; [done|apply Hlo|rewrite (lo_name _ _ _ Hlo); exact Hcn]).
  destruct (IH Hnd Hovs b1 Hb1) as (b' & Hrun' & [Hso Hsn Hsp Hother Hover]). exists b'. split.
  { erewrite bind_returns; [exact Hrun'|]. rewrite with_subnode_mut_run, Hc, Hrun. done. }
  constructor; [done|done|done|..].
  - intros name. cbn [index_get]. case_bool_decide as Hn; [done|]. intros Hg.
    rewrite Hother by done. unfold b1. by rewrite subnode_put, bool_decide_false.
  - intros name o'. cbn [index_get]. case_bool_decide as Hn.
    + intros [= <-]. subst name. exists c, c'. split_and!; [done| |done].
      rewrite Hother by by apply index_get_None. unfold b1. by rewrite subnode_put, bool_decide_true.
    + intros Hg. destruct (Hover name o' Hg) as (d & d' & Hd & Hd' & Hdo). exists d, d'. split_and!; [|done|done].
      unfold child_for in *. unfold b1 in Hd. by rewrite subnode_put, bool_decide_false in Hd.
Qed.

Lemma follow_child_for name b c names :
  child_for name b = Some c → names ≠ [] → is_Some (follow names c) ↔ is_Some (follow (name :: names) b).
Proof.
  rewrite follow_cons. unfold child_for. destruct (subnode name b) as [d|] eqn:Hs; [by intros [= <-]|].
  case_match; [|done]. intros [= <-]. destruct names as [|n names]; [done|]. intros _. cbn. by split; intros [? ?].
Qed.

Lemma overlay_node_pair_over o : node_ok o → overlays o.
Proof.
  induction o as [name props subs IH] using FdtNode_tree_ind. intros Ho b Hb.
  destruct (node_subnodes_ok _ Ho) as [Hnds Hsok]. destruct (node_props_ok _ Ho) as [Hndp Hpok].
  cbn [node_subnodes node_props] in *. destruct (node_props_ok _ Hb) as [Hndb Hpb].
  assert (Hov : Forall (λ p, overlays p.2) subs).
  { rewrite Forall_forall in *. intros p Hp. apply IH; [done|by apply Hsok]. }
  destruct (index_extend_props (node_props b) props Hndb Hpb Hpok) as [Hnd' Hp'].
  destruct (overlay_subnodes_over subs (set_props (index_extend (node_props b) props) b) Hnds Hsok Hov)
    as (b' & Hrun & [Hok Hn Hp Hother Hover]); [by apply set_props_ok|].
  exists b'. split; [by rewrite overlay_node_pair_run|]. constructor; [done|done|..].
  - intros [|nm rest] key.
    + unfold value_at. cbn. rewrite Hp. cbn [node_props set_props]. by apply index_get_extend.
    + rewrite !value_at_cons. unfold subnode at 2. cbn [node_subnodes].
      destruct (index_get nm subs) as [oc|] eqn:Hg; cbn; [|by rewrite (Hother nm Hg)].
      destruct (Hover nm oc Hg) as (c & c' & Hc & -> & Hlo). cbn. rewrite (lo_values _ _ _ Hlo).
      rewrite <-(child_for_value _ _ _ rest key Hc). by rewrite value_at_cons.
  - intros [|nm rest]; [cbn; by split; eauto|]. rewrite !follow_cons. unfold subnode at 2. cbn [node_subnodes].
    destruct (index_get nm subs) as [oc|] eqn:Hg; cbn.
    + destruct (Hover nm oc Hg) as (c & c' & Hc & -> & Hlo). cbn. rewrite (lo_nodes _ _ _ Hlo).
      destruct rest as [|n2 rest]; [cbn; by split; eauto|]. by rewrite (follow_child_for nm _ c _ Hc).
    + rewrite (Hother nm Hg). cbn. split; [by right|]. by intros [[? ?]|?].
Qed.

(** Laying an overlay node over a node of the base never fails on well-formed
    trees and merges them: at every path below, a property that the overlay has
    takes its value from the overlay, every other property keeps the value of the
    base, and the nodes are exactly those of the two trees. *)
Theorem overlay_node_merges o b :
  node_ok o → node_ok b →
  ∃ b', overlay_node_pair o b = (Returns (), b') ∧ node_ok b' ∧
    (∀ names key, value_at names key b' =
       match value_at names key o with Some v => Some v | None => value_at names key b end) ∧
    (∀ names, is_Some (follow names b') ↔ is_Some (follow names o) ∨ is_Some (follow names b)).
Proof.
  intros Ho Hb. destruct (overlay_node_pair_over o Ho b Hb) as (b' & Hrun & [Hok _ Hv Hf]). by exists b'.
Qed.

(** ** Moving the phandles *)

Definition is_phandle_key (key : list u8) : bool :=
  bool_decide (key = PHANDLE_PROP) || bool_decide (key = LINUX_PHANDLE_PROP).

(** What moving by [delta] does to the value of a property. *)
Definition moved (delta : u32) (key : list u8) (old new : option (list u8)) : Prop :=
  if is_phandle_key key then
    match old with
    | None => new = None
    | Some bs => ∃ v v' : u32, from_propval bs = Some v ∧ uval v' = v + delta ∧ new = Some (u32_be v')
    end
  else new = old.

Lemma phandle_key_valid key : is_phandle_key key = true → is_valid_prop_name key = true ∧ key ≠ [].
Proof. unfold is_phandle_key. intros [H|H]%orb_true_iff; apply bool_decide_eq_true_1 in H as ->; done. Qed.

Lemma offset_phandle_prop_run key delta n :
  is_phandle_key key = true →
  offset_phandle_prop key delta n =
  match get_prop (T := u32) key n with
  | Some v =>
      match add_checked v delta with
      | Some v' => (Returns (), set_props (index_insert key (u32_be v') (node_props n)) n)
      | None => (Throws ApplyOverlayError, n)
      end
  | None => (Throws ApplyOverlayError, n)
  end.
Proof.
  intros [Hk _]%phandle_key_valid. unfold offset_phandle_prop. erewrite bind_returns by done.
  destruct (get_prop key n) as [v|]; [|done]. erewrite bind_returns by done.
  destruct (add_checked v delta) as [v'|]; [|done]. erewrite bind_returns by done.
  unfold catch, set_prop, give_outcome, to_propval, u32_to_propval. rewrite Hk. cbn [negb].
  rewrite u32_bytes_one. run_prog. change (2 ^ 32 <=? lengthZ (u32_be v')) with false. done.
Qed.

(** One of the two steps on a node. *)
Definition offset_step (key : list u8) (delta : u32) : Edit () :=
  n ← get_state; if has_prop key n then offset_phandle_prop key delta else mret ().

Lemma offset_phandle_node_run delta n :
  offset_phandle_node delta n = (_ ← offset_step PHANDLE_PROP delta; offset_step LINUX_PHANDLE_PROP delta) n.
Proof.
  unfold offset_phandle_node, offset_step. run_prog. destruct (has_prop PHANDLE_PROP n); [|done].
  by destruct (offset_phandle_prop PHANDLE_PROP delta n) as [[[]|e|] n'].
Qed.

Lemma offset_step_spec key delta n :
  is_phandle_key key = true →
  match offset_step key delta n with
  | (Returns _, n') => (node_ok n → node_ok n') ∧ node_name n' = node_name n ∧ node_subnodes n' = node_subnodes n ∧
      moved delta key (index_get key (node_props n)) (index_get key (node_props n')) ∧
      ∀ key', key' ≠ key → index_get key' (node_props n') = index_get key' (node_props n)
  | (Throws e, n') => ∃ bs, index_get key (node_props n) = Some bs ∧
      ∀ v : u32, from_propval bs = Some v → 2 ^ 32 <= v + delta
  | (Aborts, _) => False
  end.
Proof.
  intros Hk. unfold offset_step. erewrite bind_returns by done. unfold has_prop, moved. rewrite Hk.
  destruct (index_get key (node_props n)) as [bs|] eqn:Hg; [|done].
  rewrite offset_phandle_prop_run by done. unfold get_prop. rewrite Hg. cbn.
  destruct (from_propval bs) as [v|] eqn:Hv; [|exists bs; split; [done|intros ? ?; congruence]]. destruct (add_checked v delta) as [v'|] eqn:Ha.
  - apply add_checked_Some in Ha. cbn [node_name node_subnodes node_props set_props]. split_and!; [|done|done|..].
    + intros Hn. destruct (node_props_ok n Hn) as [Hnd Hp]. destruct (phandle_key_valid key Hk).
      apply set_props_ok; [done|by apply index_insert_NoDup|]. apply index_insert_Forall; [done|].
      split_and!; [done|done|]. done.
    + exists v, v'. by rewrite index_get_insert_eq.
    + intros key' Hne. by apply index_get_insert_ne.
  - exists bs. split; [done|]. intros w Hw. apply add_checked_None in Ha. rewrite Hv in Hw. by injection Hw as <-.
Qed.

Lemma offset_phandle_node_spec delta n :
  match offset_phandle_node delta n with
  | (Returns _, n') => (node_ok n → node_ok n') ∧ node_name n' = node_name n ∧ node_subnodes n' = node_subnodes n ∧
      ∀ key, moved delta key (index_get key (node_props n)) (index_get key (node_props n'))
  | (Throws e, _) => ∃ key bs, is_phandle_key key = true ∧ index_get key (node_props n) = Some bs ∧
      ∀ v : u32, from_propval bs = Some v → 2 ^ 32 <= v + delta
  | (Aborts, _) => False
  end.
Proof.
  rewrite offset_phandle_node_run. pose proof (offset_step_spec PHANDLE_PROP delta n eq_refl) as H1.
  unfold mbind, prog_bind. destruct (offset_step PHANDLE_PROP delta n) as [[[]|e|] n1]; [|by exists PHANDLE_PROP; naive_solver|done].
  destruct H1 as (Hok1 & Hn1 & Hs1 & Hm1 & Hf1).
  pose proof (offset_step_spec LINUX_PHANDLE_PROP delta n1 eq_refl) as H2.
  destruct (offset_step LINUX_PHANDLE_PROP delta n1) as [[[]|e|] n2]; [| |done].
  - destruct H2 as (Hok2 & Hn2 & Hs2 & Hm2 & Hf2). split_and!; [by auto|congruence|congruence|]. intros key.
    destruct (decide (key = LINUX_PHANDLE_PROP)) as [->|Hl]; [by rewrite Hf1 in Hm2|]. rewrite Hf2 by done.
    destruct (decide (key = PHANDLE_PROP)) as [->|Hp]; [done|]. rewrite Hf1 by done.
    unfold moved, is_phandle_key. by rewrite !bool_decide_false.
  - destruct H2 as (bs & Hg & Hv). exists LINUX_PHANDLE_PROP, bs. rewrite Hf1 in Hg by done. done.
Qed.

Fixpoint offset_subnodes (delta : u32) (l : list (list u8 * FdtNode)) : outcome FdtError (list (list u8 * FdtNode)) :=
  match l with
  | [] => Returns []
  | (k, c) :: l => c ← offset_phandle_tree delta c; l ← offset_subnodes delta l; Returns ((k, c) :: l)
  end.

Lemma offset_phandle_tree_run delta n :
  offset_phandle_tree delta n =
  (n' ← edited (offset_phandle_node delta) n;
   subs ← offset_subnodes delta (node_subnodes n);
   Returns (set_subnodes subs n')).
Proof.
  destruct n as [name props subs]. cbn [offset_phandle_tree node_subnodes].
  destruct (edited _ _) as [n1|e|]; [|done..]. cbn. f_equal.
  induction subs as [|[k c] subs IH]; [done|]. cbn. destruct (offset_phandle_tree delta c); [|done..]. cbn. by rewrite IH.
Qed.

(** The tree [n'] is [n] with its phandles moved by [delta]. *)
Record tree_moved (delta : u32) (n n' : FdtNode) : Prop := {
  tm_ok : node_ok n → node_ok n';
  tm_name : node_name n' = node_name n;
  tm_nodes names : is_Some (follow names n') ↔ is_Some (follow names n);
  tm_values names key : moved delta key (value_at names key n) (value_at names key n')
}.

(** A phandle that cannot be moved. *)
Definition stuck_phandle (delta : u32) (n : FdtNode) : Prop := ∃ names key bs,
  is_phandle_key key = true ∧ value_at names key n = Some bs ∧
  ∀ v : u32, from_propval bs = Some v → 2 ^ 32 <= v + delta.

Definition moves (delta : u32) (n : FdtNode) : Prop :=
  match offset_phandle_tree delta n with
  | Returns n' => tree_moved delta n n'
  | Throws _ => node_ok n → stuck_phandle delta n
  | Aborts => False
  end.

(** The subnodes, one by one under the same keys. *)
Lemma offset_subnodes_spec delta subs :
  Forall (λ p, moves delta p.2) subs →
  match offset_subnodes delta subs with
  | Returns subs' => Forall2 (λ p p', p'.1 = p.1 ∧ tree_moved delta p.2 p'.2) subs subs'
  | Throws _ => ∃ k c, (k, c) ∈ subs ∧ (node_ok c → stuck_phandle delta c)
  | Aborts => False
  end.
Proof.
  induction 1 as [|[k c] subs Hc _ IH]; cbn [offset_subnodes]; [constructor|].
  unfold moves in Hc. cbn [snd] in Hc. destruct (offset_phandle_tree delta c) as [c'|e|]; cbn; [| |done].
  - destruct (offset_subnodes delta subs) as [subs'|e|]; cbn; [by constructor| |done].
    destruct IH as (k' & c0 & Hin & Hs). exists k', c0. split; [by right|done].
  - exists k, c. split; [by left|done].
Qed.

Lemma moved_index_get delta (subs subs' : list (list u8 * FdtNode)) name :
  Forall2 (λ p p', p'.1 = p.1 ∧ tree_moved delta p.2 p'.2) subs subs' →
  match index_get name subs, index_get name subs' with
  | Some c, Some c' => tree_moved delta c c'
  | None, None => True
  | _, _ => False
  end.
Proof.
  induction 1 as [|[k c] [k' c'] subs subs' [Hk Hc] _ IH]; cbn in *; [done|]. subst k'. by case_bool_decide.
Qed.

Lemma moved_None delta key : moved delta key None None.
Proof. unfold moved. by case_match. Qed.

Lemma offset_phandle_tree_moves delta n : moves delta n.
Proof.
  induction n as [name props subs IH] using FdtNode_tree_ind. unfold moves. rewrite offset_phandle_tree_run.
  unfold edited. pose proof (offset_phandle_node_spec delta (MkNode name props subs)) as Hn.
  destruct (offset_phandle_node delta _) as [[[]|e|] n1]; cbn; [| |done].
  2:{ intros _. destruct Hn as (key & bs & Hk & Hg & Hv). by exists [], key, bs. }
  destruct Hn as (Hok & Hname & Hsubs & Hprops). apply offset_subnodes_spec in IH. cbn [node_subnodes].
  destruct (offset_subnodes delta subs) as [subs'|e|]; cbn; [| |done].
  - constructor; [|done|..].
    + intros Hn. apply set_subnodes_ok; [by apply Hok|..]; destruct (node_subnodes_ok _ Hn) as [Hnd Hf]; cbn in Hnd, Hf.
      * replace (subs'.*1) with (subs.*1); [done|]. clear -IH. induction IH as [|p p' l l' [Hp _] _ IH]; [done|].
        cbn. by rewrite Hp, IH.
      * clear -IH Hf. induction IH as [|p p' l l' [Hp [Hpo Hpn _ _]] _ IH]; [constructor|].
        apply Forall_cons in Hf as [[Hn Ho] Hf]. constructor; [|by apply IH]. rewrite Hp, Hpn. by auto.
    + intros [|nm rest]; [done|]. pose proof (moved_index_get delta subs subs' nm IH) as Hg.
      cbn [follow]. unfold subnode. cbn [node_subnodes set_subnodes].
      destruct (index_get nm subs), (index_get nm subs'); cbn; [by apply Hg|done..].
    + intros [|nm rest] key; [apply Hprops|]. pose proof (moved_index_get delta subs subs' nm IH) as Hg.
      rewrite !value_at_cons. unfold subnode. cbn [node_subnodes set_subnodes].
      destruct (index_get nm subs), (index_get nm subs'); cbn; [by apply Hg|done..|apply moved_None].
  - intros Hn. destruct IH as (k & c & Hin & Hs). destruct (node_subnodes_ok _ Hn) as [Hnd Hf].
    rewrite Forall_forall in Hf. destruct (Hf _ Hin) as [Hk Hc]. destruct (Hs Hc) as (names & key & bs & Hp & Hv & Hst).
    exists (k :: names), key, bs. split_and!; [done| |done]. rewrite value_at_cons. unfold subnode.
    by rewrite (index_get_in k c).
Qed.

(** ** The phandle of a node *)

Definition phandle_of (names : list (list u8)) (f : Fdt) : option u32 :=
  n ← follow names (root f); get_node_phandle n.

Definition read_u32 (value : option (list u8)) : option u32 :=
  match value with Some bs => from_propval bs | None => None end.

Lemma phandle_of_values names f :
  phandle_of names f =
  match read_u32 (value_at names PHANDLE_PROP (root f)) with
  | Some p => Some p
  | None => read_u32 (value_at names LINUX_PHANDLE_PROP (root f))
  end.
Proof. unfold phandle_of, value_at, get_node_phandle, get_prop. by destruct (follow names (root f)). Qed.

Lemma moved_phandle delta key old new :
  is_phandle_key key = true → moved delta key old new →
  match read_u32 old, read_u32 new with
  | Some p, Some p' => uval p' = p + delta
  | None, None => True
  | _, _ => False
  end.
Proof.
  unfold moved. intros ->. destruct old as [bs|]; [|by intros ->]. intros (v & v' & Hv & Hd & ->).
  unfold read_u32. by rewrite u32_propval_inv, Hv.
Qed.

Lemma phandle_of_moved delta f f' names :
  tree_moved delta (root f) (root f') →
  match phandle_of names f, phandle_of names f' with
  | Some p, Some p' => uval p' = p + delta
  | None, None => True
  | _, _ => False
  end.
Proof.
  intros Hm. rewrite !phandle_of_values.
  pose proof (moved_phandle delta PHANDLE_PROP _ _ eq_refl (tm_values _ _ _ Hm names PHANDLE_PROP)) as H1.
  pose proof (moved_phandle delta LINUX_PHANDLE_PROP _ _ eq_refl (tm_values _ _ _ Hm names LINUX_PHANDLE_PROP)) as H2.
  destruct (read_u32 (value_at names PHANDLE_PROP (root f))), (read_u32 (value_at names PHANDLE_PROP (root f')));
    [exact H1|destruct H1..|exact H2].
Qed.

Lemma foldr_max_le (f : list u8 * FdtNode → Z) z l :
  z <= foldr (λ p acc, Z.max (f p) acc) z l ∧ ∀ p, p ∈ l → f p <= foldr (λ p acc, Z.max (f p) acc) z l.
Proof.
  induction l as [|q l [IHz IH]]; cbn; [split; [lia|by intros p ?%elem_of_nil]|]. split; [lia|].
  intros p [->|Hp]%elem_of_cons; [lia|]. specialize (IH p Hp). lia.
Qed.

Lemma max_phandle_unfold n :
  max_phandle n = foldr (λ p acc, Z.max (max_phandle p.2) acc)
    (match get_node_phandle n with Some p => uval p | None => 0 end) (node_subnodes n).
Proof. by destruct n. Qed.

Lemma max_phandle_bound n names m p :
  follow names n = Some m → get_node_phandle m = Some p → p <= max_phandle n.
Proof.
  revert n. induction names as [|nm rest IH]; intros n Hf Hp; rewrite max_phandle_unfold.
  - injection Hf as ->. rewrite Hp. apply foldr_max_le.
  - rewrite follow_cons in Hf. destruct (subnode nm n) as [c|] eqn:Hc; [|done]. cbn in Hf.
    apply index_get_Some in Hc. etransitivity; [by apply IH|].
    by apply (proj2 (foldr_max_le (λ p, max_phandle p.2) _ _) (nm, c)).
Qed.

Lemma max_phandle_range n : 0 <= max_phandle n < 2 ^ 32.
Proof.
  induction n as [name props subs IH] using FdtNode_tree_ind. rewrite max_phandle_unfold. cbn [node_subnodes].
  assert (Hz : 0 <= match get_node_phandle (MkNode name props subs) with Some p => uval p | None => 0 end < 2 ^ 32).
  { destruct (get_node_phandle _) as [u|]; [|lia]. pose proof (uint_range u). cbn [Z.of_N] in *. lia. }
  revert Hz. generalize (match get_node_phandle (MkNode name props subs) with Some p => uval p | None => 0 end).
  intros z Hz. induction IH as [|p subs Hp _ IHs]; cbn [foldr]; [done|]. cbn beta in Hp. lia.
Qed.

(** Before an overlay is merged its phandles are moved out of the way: every
    node keeps its place, the phandle of a node grows by the largest phandle of
    the base, so that no node of the base has it, no other property changes, and
    the operation fails only on a phandle that is not 32 bits wide or would
    overflow. *)
Theorem overlay_phandles_fresh base overlay :
  match offset_phandle_values overlay (get_max_phandle (root base)) with
  | Returns overlay' =>
      (∀ names, is_Some (follow names (root overlay')) ↔ is_Some (follow names (root overlay))) ∧
      (∀ names, match phandle_of names overlay, phandle_of names overlay' with
                | Some p, Some p' => uval p' = p + get_max_phandle (root base)
                | None, None => True
                | _, _ => False
                end) ∧
      (∀ names names' p q q', phandle_of names base = Some p → phandle_of names' overlay = Some q →
         0 < q → phandle_of names' overlay' = Some q' → p < q') ∧
      (∀ names key, is_phandle_key key = false →
         value_at names key (root overlay') = value_at names key (root overlay))
  | Throws _ => node_ok (root overlay) → stuck_phandle (get_max_phandle (root base)) (root overlay)
  | Aborts => False
  end.
Proof.
  unfold offset_phandle_values. pose proof (offset_phandle_tree_moves (get_max_phandle (root base)) (root overlay)) as H.
  unfold moves in H. destruct (offset_phandle_tree _ _) as [r|e|]; cbn; [|done..].
  assert (Hph : ∀ names, match phandle_of names overlay, phandle_of names (set_root r overlay) with
                | Some p, Some p' => uval p' = p + get_max_phandle (root base)
                | None, None => True
                | _, _ => False
                end) by (intros names; by apply phandle_of_moved).
  split_and!; [apply H|exact Hph|..].
  - intros names names' p q q' Hp Hq Hpos Hq'. specialize (Hph names'). rewrite Hq, Hq' in Hph.
    unfold phandle_of in Hp. destruct (follow names (root base)) as [m|] eqn:Hm; [|done].
    pose proof (max_phandle_bound _ _ _ _ Hm Hp). pose proof (max_phandle_range (root base)).
    unfold get_max_phandle in Hph. rewrite uval_to_uint_small in Hph by done. lia.
  - intros names key Hk. pose proof (tm_values _ _ _ H names key) as Hv. unfold moved in Hv. by rewrite Hk in Hv.
Qed.
