(* ===== verification/OverlayRefs.v ===== *)
(** * Overlays: references

    [__local_fixups__] lists the places of an overlay that hold a phandle of the
    overlay itself.  Once the phandles have moved, every such place has moved with
    the node it refers to, and nothing else has changed. *)

From stdpp Require Import sorting.
From S2P Require Import Prelude StdIo Checked DeviceTree DeviceTreeFacts DeviceTreeEdits Overlay OverlayFacts.

(** ** Lists whose elements are pairwise related *)

Abbreviation pairwise := StronglySorted.

Lemma pairwise_app {A} (R : relation A) l k :
  pairwise R (l ++ k) ↔ pairwise R l ∧ pairwise R k ∧ Forall (λ x, Forall (R x) k) l.
Proof.
  induction l as [|x l IH]; cbn.
  { split; [intros H; split_and!; [constructor|done|constructor]|by intros (_ & H & _)]. }
  rewrite !StronglySorted_cons, IH, Forall_app, Forall_cons. tauto.
Qed.

Lemma pairwise_perm {A} (R : relation A) `{!Symmetric R} l k : l ≡ₚ k → pairwise R l → pairwise R k.
Proof.
  induction 1 as [|x l k Hp IH|x y l|]; [done|..|by auto].
  - rewrite !StronglySorted_cons. intros [Hx Hl]. split; [by rewrite <-Hp|by apply IH].
  - rewrite !StronglySorted_cons, !Forall_cons. intros ([Hyx ?] & ? & ?). by apply symmetry in Hyx.
Qed.

(** ** Places that hold a reference *)

Definition ref_place : Type := list (list u8) * PhandlePin.

Definition ref_at (p : ref_place) (n : FdtNode) : option u32 :=
  data ← value_at p.1 (pin_prop p.2) n; bs ← four_bytes data (pin_offset p.2); from_propval bs.

(** Two places that share no byte. *)
Definition clear_of (p q : ref_place) : Prop :=
  p.1 ≠ q.1 ∨ pin_prop p.2 ≠ pin_prop q.2 ∨ 4 <= Z.abs (pin_offset p.2 - pin_offset q.2).

#[local] Instance clear_of_sym : Symmetric clear_of.
Proof. intros p q [H|[H|H]]; [by left; auto|by right; left; auto|right; right; lia]. Qed.

(** The references in [ps] have moved by [delta], those elsewhere have not, and the
    properties without such a place are the same. *)
Definition untouched (names : list (list u8)) (key : list u8) (p : ref_place) : Prop := p.1 ≠ names ∨ pin_prop p.2 ≠ key.

Definition refs_moved (delta : u32) (ps : list ref_place) (n n' : FdtNode) : Prop :=
  (∀ p, p ∈ ps → ∃ v v', ref_at p n = Some v ∧ ref_at p n' = Some v' ∧ uval v' = v + delta) ∧
  (∀ p, Forall (clear_of p) ps → ref_at p n' = ref_at p n) ∧
  (∀ names key, Forall (untouched names key) ps → value_at names key n' = value_at names key n).

Lemma refs_moved_perm delta ps ps' n n' : ps ≡ₚ ps' → refs_moved delta ps n n' → refs_moved delta ps' n n'.
Proof.
  intros Hp (Hm & Hf & Hv). split_and!.
  - intros p Hin. apply Hm. by rewrite Hp.
  - intros p Hc. apply Hf. by rewrite Hp.
  - intros names key Hc. apply Hv. by rewrite Hp.
Qed.

Lemma refs_moved_app delta ps qs n n1 n2 :
  pairwise clear_of (ps ++ qs) → refs_moved delta ps n n1 → refs_moved delta qs n1 n2 → refs_moved delta (ps ++ qs) n n2.
Proof.
  intros (_ & _ & Hpq)%pairwise_app (Hm1 & Hf1 & Hv1) (Hm2 & Hf2 & Hv2). rewrite Forall_forall in Hpq. split_and!.
  - intros p [Hp|Hq]%elem_of_app.
    + destruct (Hm1 p Hp) as (v & v' & Hv & Hv' & Hd). exists v, v'. split_and!; [done| |done].
      rewrite Hf2; [done|]. by apply Hpq.
    + destruct (Hm2 p Hq) as (v & v' & Hv & Hv' & Hd). exists v, v'. split_and!; [|done|done].
      rewrite <-Hf1; [done|]. apply Forall_forall. intros q Hqp. specialize (Hpq q Hqp). rewrite Forall_forall in Hpq.
      symmetry. by apply Hpq.
  - intros p [Hp Hq]%Forall_app. by rewrite Hf2, Hf1.
  - intros names key [Hp Hq]%Forall_app. by rewrite Hv2, Hv1.
Qed.

(** ** Changing four bytes *)

Lemma splice_four data o (bs : list u8) :
  0 <= o → o + 4 <= lengthZ data → lengthZ bs = 4 →
  let data' := takeZ o data ++ bs ++ dropZ (o + 4) data in
  lengthZ data' = lengthZ data ∧ four_bytes data' o = Some bs ∧
  ∀ o', 0 <= o' → 4 <= Z.abs (o' - o) → four_bytes data' o' = four_bytes data o'.
Proof.
  intros Ho Hlen Hbs. cbn zeta. rewrite !lengthZ_app, lengthZ_takeZ, lengthZ_dropZ by lia.
  assert (Hl : lengthZ (takeZ o data ++ bs ++ dropZ (o + 4) data) = lengthZ data).
  { rewrite !lengthZ_app, lengthZ_takeZ, lengthZ_dropZ by lia. lia. }
  unfold four_bytes, SIZE_U32. rewrite Hl. split_and!; [lia|..].
  - destruct (Z.ltb_spec (lengthZ data) (o + 4)); [lia|]. f_equal.
    rewrite (dropZ_app_eq (takeZ o data)) by (rewrite lengthZ_takeZ by lia; lia). by apply takeZ_app_eq.
  - intros o' Ho' Habs. destruct (Z.ltb_spec (lengthZ data) (o' + 4)) as [|Hin]; [done|]. f_equal.
    rewrite !takeZ_take, !dropZ_drop. unfold lengthZ in *. apply list_eq. intros i.
    rewrite !lookup_take. case_decide as Hi; [|done]. rewrite !lookup_drop. destruct (Z.lt_ge_cases o' o).
    + rewrite lookup_app_l by (rewrite length_take; lia). rewrite lookup_take, decide_True by lia. done.
    + rewrite lookup_app_r by (rewrite length_take; lia). rewrite lookup_app_r by (rewrite length_take; lia).
      rewrite lookup_drop, length_take. f_equal. lia.
Qed.

(** ** The places in one node *)

Abbreviation here := (pair (A := list (list u8)) (B := PhandlePin) []).

(** A change to the properties of the node alone. *)
Record same_node (n n' : FdtNode) : Prop := {
  sn_name : node_name n' = node_name n;
  sn_subnodes : node_subnodes n' = node_subnodes n;
  sn_ok : node_ok n → node_ok n'
}.

Lemma same_node_trans n n1 n2 : same_node n n1 → same_node n1 n2 → same_node n n2.
Proof. intros [H1 H2 H3] [H4 H5 H6]. constructor; [congruence|congruence|by auto]. Qed.

Lemma ref_at_here pin n : ref_at (here pin) n = phandle_at_offset (pin_prop pin) (pin_offset pin) n.
Proof. done. Qed.

Lemma update_phandle_moved pin (v v' delta : u32) n :
  ref_at (here pin) n = Some v → uval v' = v + delta →
  ∃ n', update_phandle_at_offset (pin_prop pin) (pin_offset pin) v' n = (Returns (), n') ∧
    same_node n n' ∧ refs_moved delta [here pin] n n'.
Proof.
  destruct pin as [key o]. rewrite ref_at_here. cbn [pin_prop pin_offset]. intros Hv Hd. unfold phandle_at_offset in Hv.
  destruct (index_get key (node_props n)) as [data|] eqn:Hg; [|done]. cbn in Hv.
  destruct (four_bytes data o) as [bs|] eqn:Hb; [|done]. cbn in Hv. pose proof (uint_range o) as [Ho _].
  assert (Hlen : o + 4 <= lengthZ data) by (unfold four_bytes, SIZE_U32 in Hb; destruct (Z.ltb_spec (lengthZ data) (o + 4)); [done|lia]).
  destruct (splice_four data o (u32_be v') Ho Hlen eq_refl) as (Hl & Hat & Hother).
  set (data' := takeZ o data ++ u32_be v' ++ dropZ (o + 4) data) in *.
  exists (set_props (index_insert key data' (node_props n)) n). split_and!.
  - unfold update_phandle_at_offset. erewrite bind_returns by done. rewrite Hg. erewrite bind_returns by done. rewrite Hb.
    unfold give_outcome, to_propval, u32_to_propval. by rewrite u32_bytes_one.
  - constructor; [done|done|]. intros Hn. destruct (node_props_ok n Hn) as [Hnd Hp].
    apply set_props_ok; [done|by apply index_insert_NoDup|]. apply index_insert_Forall; [done|].
    rewrite Forall_forall in Hp. destruct (Hp _ (index_get_Some _ _ _ Hg)) as (Hk & Hne & Hlt).
    split_and!; [done|done|]. cbn [snd] in *. lia.
  - split_and!.
    + intros p ->%list_elem_of_singleton. exists v, v'. split_and!; [|..|done].
      * rewrite ref_at_here. unfold phandle_at_offset. cbn [pin_prop pin_offset]. rewrite Hg. cbn. by rewrite Hb.
      * rewrite ref_at_here. unfold phandle_at_offset. cbn [pin_prop pin_offset node_props set_props].
        rewrite index_get_insert_eq. cbn. rewrite Hat. cbn. apply u32_propval_inv.
    + intros [names [key' o']] [Hc _]%Forall_cons. destruct names as [|name names]; [|done].
      rewrite !ref_at_here. unfold phandle_at_offset. cbn [pin_prop pin_offset node_props set_props].
      destruct Hc as [Hc|Hc]; [done|]. cbn [fst snd pin_prop pin_offset] in Hc.
      destruct (decide (key' = key)) as [->|Hne]; [|by rewrite index_get_insert_ne].
      destruct Hc as [Hc|Hc]; [done|]. rewrite index_get_insert_eq, Hg. cbn. rewrite Hother; [done| |done].
      pose proof (uint_range o'). lia.
    + intros [|name names] key' [Hc _]%Forall_cons; [|done]. destruct Hc as [Hc|Hc]; [done|]. cbn in Hc.
      unfold value_at. cbn. by apply index_get_insert_ne.
Qed.

(** A place that can be moved. *)
Definition movable (delta : u32) (n : FdtNode) (p : ref_place) : Prop :=
  ∃ v, ref_at p n = Some v ∧ v + delta < 2 ^ 32.

Lemma movable_kept delta ps n n' p :
  refs_moved delta ps n n' → Forall (clear_of p) ps → movable delta n p → movable delta n' p.
Proof. intros (_ & Hf & _) Hc (v & Hv & Hd). exists v. by rewrite Hf. Qed.

Lemma update_pins_moved delta pins n :
  pairwise clear_of (map here pins) → Forall (movable delta n) (map here pins) →
  ∃ n', update_pins pins delta n = (Returns (), n') ∧ same_node n n' ∧ refs_moved delta (map here pins) n n'.
Proof.
  revert n. induction pins as [|pin pins IH]; intros n Hpw Hmv; cbn [map update_pins].
  { exists n. split_and!; [done|done|]. split_and!; [by intros p ?%elem_of_nil|done|done]. }
  cbn [map] in *. pose proof Hpw as Hall. apply StronglySorted_cons in Hpw as [Hc Hpw].
  apply Forall_cons in Hmv as [(v & Hv & Hd) Hmv]. pose proof (uint_range v). pose proof (uint_range delta).
  assert (uval (U32 (v + delta)) = v + delta) as Hv' by (apply uval_to_uint_small; cbn [Z.of_N] in *; lia).
  destruct (update_phandle_moved pin v (U32 (v + delta)) delta n Hv Hv') as (n1 & Hrun & Hs1 & Hm1).
  destruct (IH n1 Hpw) as (n' & Hrun' & Hs2 & Hm2).
  { rewrite Forall_forall in *. intros p Hp. eapply movable_kept; [exact Hm1| |by apply Hmv].
    constructor; [|constructor]. symmetry. by apply Hc. }
  exists n'. split_and!; [|by eapply same_node_trans|].
  - erewrite bind_returns by done. rewrite ref_at_here in Hv. rewrite Hv. erewrite bind_returns by done.
    rewrite (proj2 (add_checked_Some v delta (U32 (v + delta)))) by done. erewrite bind_returns by done.
    by erewrite bind_returns by exact Hrun.
  - by apply (refs_moved_app delta [here pin] (map here pins) n n1).
Qed.

(** ** The places in a tree *)

Definition at_node (names : list (list u8)) (pins : list PhandlePin) : list ref_place := map (pair names) pins.

Lemma ref_at_value p n : ref_at p n = (data ← value_at p.1 (pin_prop p.2) n; bs ← four_bytes data (pin_offset p.2); from_propval bs).
Proof. done. Qed.

Lemma ref_at_follow names pin n m : follow names n = Some m → ref_at (names, pin) n = ref_at (here pin) m.
Proof. intros Hf. unfold ref_at, value_at. cbn. by rewrite Hf. Qed.

Lemma clear_here names pin pin' : clear_of (names, pin) (names, pin') ↔ clear_of (here pin) (here pin').
Proof. unfold clear_of. cbn. naive_solver. Qed.

Lemma refs_moved_put delta names pins n m m' :
  follow names n = Some m → node_subnodes m' = node_subnodes m → refs_moved delta (map here pins) m m' →
  refs_moved delta (at_node names pins) n (put_at names m' n).
Proof.
  intros Hf Hs (Hm & Hfr & Hval). unfold at_node. split_and!.
  - intros p (pin & -> & Hin)%list_elem_of_fmap. destruct (Hm (here pin)) as (v & v' & Hv & Hv' & Hd).
    { apply list_elem_of_fmap. by eauto. }
    exists v, v'. split_and!; [by rewrite (ref_at_follow _ _ _ m)| |done].
    rewrite ref_at_value. cbn [fst snd]. rewrite (value_at_put _ _ _ m) by done. by rewrite bool_decide_true.
  - intros [names' pin] Hc. rewrite !ref_at_value. cbn [fst snd]. rewrite (value_at_put _ _ _ m) by done.
    case_bool_decide as Hn; [|done]. subst names'. specialize (Hfr (here pin)).
    unfold value_at. rewrite Hf. apply Hfr. rewrite Forall_fmap in Hc |- *. eapply Forall_impl; [exact Hc|].
    cbn. intros pin' Hp. by apply clear_here in Hp.
  - intros names' key Hc. rewrite (value_at_put _ _ _ m) by done. case_bool_decide as Hn; [|done]. subst names'.
    specialize (Hval [] key). unfold value_at in *. rewrite Hf. apply Hval. rewrite Forall_fmap in Hc |- *.
    eapply Forall_impl; [exact Hc|]. intros pin [Hp|Hp]; [done|by right].
Qed.

Lemma pairwise_here names pins : pairwise clear_of (at_node names pins) → pairwise clear_of (map here pins).
Proof.
  unfold at_node. induction pins as [|pin pins IH]; cbn; [done|]. rewrite !StronglySorted_cons.
  intros [Hc Hpw]. split; [|by apply IH]. rewrite Forall_fmap in Hc |- *. eapply Forall_impl; [exact Hc|].
  cbn. intros q Hq. by apply clear_here in Hq.
Qed.

(** The nodes stay, and the references in [ps] move. *)
Record tree_refs_moved (delta : u32) (ps : list ref_place) (n n' : FdtNode) : Prop := {
  tr_ok : node_ok n → node_ok n';
  tr_nodes names : is_Some (follow names n') ↔ is_Some (follow names n);
  tr_refs : refs_moved delta ps n n'
}.

Lemma update_node_moved delta names pins f :
  node_ok (root f) → Forall good_name names → is_Some (follow names (root f)) →
  pairwise clear_of (at_node names pins) → Forall (movable delta (root f)) (at_node names pins) →
  ∃ f', with_node_mut (path_str names) (update_pins pins delta) f = (Returns (Some ()), f') ∧
    tree_refs_moved delta (at_node names pins) (root f) (root f').
Proof.
  intros Hok Hn [m Hf] Hpw Hmv. unfold at_node in *.
  destruct (update_pins_moved delta pins m) as (m' & Hrun & [Hname Hsub Hk] & Hm).
  - by apply (pairwise_here names).
  - rewrite Forall_fmap in Hmv |- *. eapply Forall_impl; [exact Hmv|]. intros pin (v & Hv & Hd). exists v.
    split; [|done]. by rewrite <-(ref_at_follow names _ (root f)).
  - unfold with_node_mut, with_root_mut, zoom. rewrite Path_new_str by done. rewrite Path_iter_str by done.
    rewrite with_follow_run, Hf, Hrun. cbn [fst snd]. eexists. split; [done|]. cbn [root set_root].
    constructor; [|by intros names'; eapply follow_put|by eapply refs_moved_put].
    intros _. eapply put_at_ok; [done|done|by apply Hk; eapply follow_ok|done].
Qed.

(** The entries of the map: the path of a node and its pins. *)
Definition entry_places (e : list (list u8) * list PhandlePin) : list ref_place := at_node e.1 e.2.
Definition entry_path (e : list (list u8) * list PhandlePin) : list u8 * list PhandlePin := (path_str e.1, e.2).

Lemma update_propvals_moved delta (es : list (list (list u8) * list PhandlePin)) f :
  node_ok (root f) → Forall (λ e, Forall good_name e.1 ∧ is_Some (follow e.1 (root f))) es →
  pairwise clear_of (concat (map entry_places es)) → Forall (movable delta (root f)) (concat (map entry_places es)) →
  ∃ f', update_local_phandle_propvals (map entry_path es) delta f = (Returns (), f') ∧
    tree_refs_moved delta (concat (map entry_places es)) (root f) (root f').
Proof.
  revert f. induction es as [|[names pins] es IH]; intros f Hok Hes Hpw Hmv; cbn [map concat update_local_phandle_propvals] in *.
  { exists f. split; [done|]. constructor; [done|done|]. split_and!; [by intros p ?%elem_of_nil|done|done]. }
  apply Forall_cons in Hes as [[Hn Hf] Hes]. apply Forall_app in Hmv as [Hmv1 Hmv2]. cbn [fst] in *.
  pose proof Hpw as Hall. apply pairwise_app in Hpw as (Hpw1 & Hpw2 & Hcl).
  destruct (update_node_moved delta names pins f Hok Hn Hf Hpw1 Hmv1) as (f1 & Hrun & [Ho1 Hn1 Hm1]).
  destruct (IH f1) as (f' & Hrun' & [Ho2 Hn2 Hm2]); [by apply Ho1| |done| |].
  { eapply Forall_impl; [exact Hes|]. intros e [? ?]. by split; [|apply Hn1]. }
  { rewrite Forall_forall in *. intros p Hp. eapply movable_kept; [exact Hm1| |by apply Hmv2].
    apply Forall_forall. intros q Hq. symmetry. specialize (Hcl q Hq). rewrite Forall_forall in Hcl. by apply Hcl. }
  exists f'. split.
  - unfold entry_path at 1. cbn [fst snd]. erewrite bind_returns by exact Hrun. by erewrite bind_returns by done.
  - constructor; [by auto|intros names'; by rewrite Hn2, Hn1|]. by eapply refs_moved_app.
Qed.

(** ** The places that [__local_fixups__] lists *)

Definition prop_pins (p : list u8 * list u8) : list PhandlePin :=
  match from_propval (T := list u32) p.2 with Some offsets => map (MkPin p.1) offsets | None => [] end.
Definition node_pins (n : FdtNode) : list PhandlePin := concat (map prop_pins (node_props n)).

Fixpoint all_pins (names : list (list u8)) (n : FdtNode) : list ref_place :=
  at_node names (node_pins n) ++ flat_map (λ p, all_pins (names ++ [p.1]) p.2) (node_subnodes n).

(** Every property is a list of offsets, and every node below has a name. *)
Definition readable (n : FdtNode) : Prop :=
  ∀ names key bs, value_at names key n = Some bs → is_Some (from_propval (T := list u32) bs).
Definition named (n : FdtNode) : Prop := ∀ names m, follow names n = Some m → Forall (λ s, s ≠ []) names.

Lemma pins_of_run (props : list (list u8 * list u8)) :
  Forall (λ p, is_Some (from_propval (T := list u32) p.2)) props → pins_of props = Returns (concat (map prop_pins props)).
Proof.
  induction 1 as [|[key bs] props [offs Ho] _ IH]; [done|]. cbn [pins_of map concat]. unfold prop_pins at 1.
  cbn [fst snd] in *. rewrite Ho. cbn. rewrite IH. done.
Qed.

(** The queue holds nodes with the names that lead to them. *)
Definition queued (q : list (list u8) * FdtNode) : list u8 * FdtNode := (path_str q.1, q.2).

Record fixup_node (P : list (list u8) → Prop) (q : list (list u8) * FdtNode) : Prop := {
  fn_names : Forall good_name q.1;
  fn_ok : node_ok q.2;
  fn_named : named q.2;
  fn_readable : readable q.2;
  fn_place names m : follow names q.2 = Some m → node_props m ≠ [] → P (q.1 ++ names)
}.

Lemma fixup_node_child P names n k c :
  fixup_node P (names, n) → (k, c) ∈ node_subnodes n →
  fixup_node P (names ++ [k], c) ∧ good_name k ∧ node_name c = k.
Proof.
  intros [Hg Hok Hnm Hr HP] Hin. cbn [fst snd] in *. destruct (node_subnodes_ok n Hok) as [Hnd Hf].
  rewrite Forall_forall in Hf. destruct (Hf _ Hin) as [Hk Hc]. cbn [fst snd] in *.
  assert (Hs : subnode k n = Some c) by by apply index_get_in.
  assert (Hfol : ∀ rest, follow (k :: rest) n = follow rest c) by (intros rest; by rewrite follow_cons, Hs).
  assert (Hgk : good_name k).
  { split; [|rewrite <-Hk; by apply valid_name_sep, node_ok_name].
    pose proof (Hnm [k] c (Hfol [])) as Hne. by inversion_clear Hne. }
  split; [|done]. constructor; cbn [fst snd].
  - apply Forall_app_2; [done|by constructor].
  - done.
  - intros rest m Hm. pose proof (Hnm (k :: rest) m) as Hne. rewrite Hfol in Hne. specialize (Hne Hm). by inversion_clear Hne.
  - intros rest key bs Hv. apply (Hr (k :: rest) key). rewrite value_at_cons, Hs. exact Hv.
  - intros rest m Hm Hp. rewrite <-app_assoc. apply (HP (k :: rest) m); [by rewrite Hfol|done].
Qed.

Lemma push_children_run P names n :
  fixup_node P (names, n) →
  push_children (path_str names) (node_subnodes n) =
    Returns (map queued (map (λ p, (names ++ [p.1], p.2)) (node_subnodes n))) ∧
  Forall (fixup_node P) (map (λ p, (names ++ [p.1], p.2)) (node_subnodes n)).
Proof.
  intros Hq. assert (Hsub : ∀ k c, (k, c) ∈ node_subnodes n → (k, c) ∈ node_subnodes n) by done.
  revert Hsub. generalize (node_subnodes n) at 1 3 4 5 as l. induction l as [|[k c] l IH]; intros Hl; [done|].
  destruct (fixup_node_child P names n k c Hq) as (Hc & Hk & Hn); [apply Hl; by left|].
  destruct IH as [IH1 IH2]; [intros k' c' Hin; apply Hl; by right|]. cbn [push_children map]. split; [|by constructor].
  rewrite Hn, Path_push_str by (done || apply Hq). cbn. by rewrite IH1.
Qed.

Abbreviation entries_places es := (concat (map entry_places es)).

Lemma insert_entry (P : list (list u8) → Prop) names pins es :
  Forall good_name names → P names → Forall (λ e, Forall good_name e.1 ∧ P e.1) es →
  ∃ es', index_insert (path_str names) (default [] (index_get (path_str names) (map entry_path es)) ++ pins)
           (map entry_path es) = map entry_path es' ∧
    entries_places es' ≡ₚ entries_places es ++ at_node names pins ∧
    Forall (λ e, Forall good_name e.1 ∧ P e.1) es'.
Proof.
  intros Hg HP. induction 1 as [|[names' pins'] es [Hg' HP'] Hes IH]; cbn [map index_insert index_get].
  { exists [(names, pins)]. split_and!; [done|cbn; by rewrite app_nil_r|by repeat constructor]. }
  cbn [entry_path fst snd]. case_bool_decide as Hp.
  - apply path_str_inj in Hp as <-; [|done..]. exists ((names, pins' ++ pins) :: es). split_and!; [done| |by constructor].
    cbn [map concat]. unfold entry_places at 1 3, at_node. cbn [fst snd default]. rewrite map_app, <-!app_assoc.
    apply Permutation_app_head. apply Permutation_app_comm.
  - destruct IH as (es' & Hes' & Hperm & Hall). exists ((names', pins') :: es'). split_and!; [|..|by constructor].
    + cbn [map]. by rewrite Hes'.
    + cbn [map concat]. rewrite <-app_assoc. by apply Permutation_app_head.
Qed.

Definition queue_count {A} (queue : list (A * FdtNode)) : nat :=
  foldr (λ q acc, (node_count q.2 + acc)%nat) 0%nat queue.

Lemma queue_count_app {A} (q r : list (A * FdtNode)) : queue_count (q ++ r) = (queue_count q + queue_count r)%nat.
Proof. unfold queue_count. induction q as [|x q IH]; cbn; [done|]. rewrite IH. lia. Qed.

Lemma queue_count_cons {A} (x : A) n (q : list (A * FdtNode)) : queue_count ((x, n) :: q) = (node_count n + queue_count q)%nat.
Proof. done. Qed.

Lemma node_count_subnodes n : node_count n = S (queue_count (node_subnodes n)).
Proof. by destruct n. Qed.

Lemma node_count_children names n :
  node_count n = S (queue_count (map (λ p, (names ++ [p.1], p.2)) (node_subnodes n))).
Proof.
  destruct n as [name props subs]. cbn [node_count node_subnodes]. f_equal.
  induction subs as [|[k c] subs IH]; cbn; [done|]. by rewrite IH.
Qed.

Abbreviation queue_pins queue := (flat_map (λ q, all_pins q.1 q.2) queue).

Lemma all_pins_children names n :
  all_pins names n = at_node names (node_pins n) ++ queue_pins (map (λ p, (names ++ [p.1], p.2)) (node_subnodes n)).
Proof.
  destruct n as [name props subs]. cbn [all_pins node_subnodes]. f_equal.
  induction subs as [|[k c] subs IH]; cbn; [done|]. by rewrite IH.
Qed.

Lemma fixup_paths_loop_run P fuel queue es :
  Forall (fixup_node P) queue → Forall (λ e, Forall good_name e.1 ∧ P e.1) es → (queue_count queue <= fuel)%nat →
  ∃ es', fixup_paths_loop fuel (map queued queue) (map entry_path es) = Returns (map entry_path es') ∧
    entries_places es' ≡ₚ entries_places es ++ queue_pins queue ∧ Forall (λ e, Forall good_name e.1 ∧ P e.1) es'.
Proof.
  revert queue es. induction fuel as [|fuel IH]; intros queue es Hq Hes Hfuel.
  { destruct queue as [|[names n] queue]; [|cbn in Hfuel; destruct n; cbn in Hfuel; lia].
    exists es. split_and!; [done|by rewrite app_nil_r|done]. }
  destruct queue as [|[names n] queue]; [exists es; split_and!; [done|by rewrite app_nil_r|done]|].
  apply Forall_cons in Hq as [Hn Hq]. cbn [map queued fixup_paths_loop fst snd].
  rewrite pins_of_run; cycle 1.
  { apply Forall_forall. intros [key bs] Hin. apply (fn_readable _ _ Hn [] key). unfold value_at. cbn.
    apply index_get_in; [|done]. by apply node_props_ok, Hn. }
  assert (Hins : ∃ es1, match node_props n with
      | [] => map entry_path es
      | _ :: _ => index_insert (path_str names)
          (default [] (index_get (path_str names) (map entry_path es)) ++ concat (map prop_pins (node_props n))) (map entry_path es)
      end = map entry_path es1 ∧ entries_places es1 ≡ₚ entries_places es ++ at_node names (node_pins n) ∧
      Forall (λ e, Forall good_name e.1 ∧ P e.1) es1).
  { unfold node_pins. destruct (node_props n) as [|p props] eqn:Hp; [exists es; cbn; by rewrite app_nil_r|].
    apply insert_entry; [apply Hn| |done]. pose proof (fn_place _ _ Hn [] n eq_refl) as HP. cbn in HP.
    rewrite app_nil_r, Hp in HP. by apply HP. }
  destruct Hins as (es1 & Hes1 & Hp1 & Hall1). cbn [mbind outcome_bind]. rewrite Hes1.
  destruct (push_children_run P names n Hn) as [-> Hch]. cbn [mbind outcome_bind]. rewrite <-map_app.
  destruct (IH (queue ++ map (λ p, (names ++ [p.1], p.2)) (node_subnodes n)) es1) as (es' & Hrun & Hp' & Hall').
  { by apply Forall_app_2. }
  { done. }
  { cbn in Hfuel. rewrite (node_count_children names) in Hfuel. rewrite queue_count_app. unfold queue_count in *. lia. }
  exists es'. split_and!; [done| |done]. rewrite Hp', Hp1. cbn [flat_map fst snd].
  rewrite all_pins_children, flat_map_app, <-!app_assoc. do 2 apply Permutation_app_head. apply Permutation_app_comm.
Qed.

Lemma collect_local_fixup_paths_run P f fx :
  subnode LOCAL_FIXUPS_NODE (root f) = Some fx → fixup_node P ([], fx) →
  ∃ es, collect_local_fixup_paths f = Returns (map entry_path es) ∧
    entries_places es ≡ₚ all_pins [] fx ∧ Forall (λ e, Forall good_name e.1 ∧ P e.1) es.
Proof.
  intros Hs Hn. unfold collect_local_fixup_paths. rewrite Hs.
  destruct (fixup_paths_loop_run P (node_count fx) [([], fx)] []) as (es & Hrun & Hp & Hes);
    [by constructor|constructor|cbn; lia|].
  change [(ROOT_NODE, fx)] with (map queued [([], fx)]). change (map entry_path []) with (@nil (list u8 * list PhandlePin)) in Hrun.
  rewrite Hrun. cbn [mbind outcome_bind].
  destruct (Permutation_map_inv entry_path es (merge_sort_Permutation key_ordered (map entry_path es))) as (es' & -> & Hp').
  exists es'. split_and!; [done| |by rewrite <-Hp']. rewrite <-Hp', Hp. cbn. by rewrite app_nil_r.
Qed.

(** The places are those the tree of fixups names. *)
Definition listed (n : FdtNode) (names : list (list u8)) (pin : PhandlePin) : Prop :=
  ∃ bs offs, value_at names (pin_prop pin) n = Some bs ∧ from_propval bs = Some offs ∧ pin_offset pin ∈ offs.

Lemma node_pins_in n pin : node_ok n → pin ∈ node_pins n ↔ listed n [] pin.
Proof.
  intros Hn. destruct (node_props_ok n Hn) as [Hnd _]. unfold node_pins, listed, value_at. cbn.
  rewrite list_elem_of_In, in_concat. setoid_rewrite <-list_elem_of_In.
  split.
  - intros (l & ([key bs] & -> & Hin)%list_elem_of_fmap & Hpin). unfold prop_pins in Hpin. cbn in Hpin.
    destruct (from_propval bs) as [offs|] eqn:Ho; [|by apply elem_of_nil in Hpin].
    apply list_elem_of_fmap in Hpin as (o & -> & Hoff). exists bs, offs. by rewrite (index_get_in key bs).
  - destruct pin as [key o]. cbn. intros (bs & offs & Hv & Ho & Hin). exists (map (MkPin key) offs). split; [|apply list_elem_of_fmap; by eauto].
    apply list_elem_of_fmap. exists (key, bs). split; [|by apply index_get_Some]. unfold prop_pins. cbn. by rewrite Ho.
Qed.

Lemma all_pins_in n names names' pin :
  node_ok n → (names', pin) ∈ all_pins names n ↔ ∃ rest, names' = names ++ rest ∧ listed n rest pin.
Proof.
  revert names names'. induction n as [name props subs IH] using FdtNode_tree_ind. intros names names' Hn.
  rewrite all_pins_children, elem_of_app. cbn [node_subnodes]. unfold at_node. rewrite list_elem_of_fmap.
  destruct (node_subnodes_ok _ Hn) as [Hnd Hf]. cbn in Hnd, Hf. rewrite Forall_forall in Hf, IH.
  rewrite list_elem_of_In, in_flat_map. setoid_rewrite in_map_iff. split.
  - intros [(pin' & [= -> ->] & Hpin)|(q & ([k c] & <- & Hin) & Hq)].
    + exists []. rewrite app_nil_r. split; [done|]. by apply node_pins_in.
    + cbn in Hq. apply list_elem_of_In in Hin, Hq. destruct (Hf _ Hin) as [_ Hc].
      apply (IH _ Hin _ _ Hc) in Hq as (rest & -> & bs & offs & Hv & Ho). exists (k :: rest).
      rewrite <-app_assoc. split; [done|]. exists bs, offs. split; [|done].
      rewrite value_at_cons. unfold subnode. cbn. by rewrite (index_get_in k c).
  - intros ([|k rest] & -> & Hl).
    + left. rewrite app_nil_r. exists pin. split; [done|]. by apply node_pins_in.
    + right. destruct Hl as (bs & offs & Hv & Ho). rewrite value_at_cons in Hv. unfold subnode in Hv. cbn in Hv.
      destruct (index_get k subs) as [c|] eqn:Hk; [|done]. cbn in Hv. apply index_get_Some in Hk.
      exists (names ++ [k], c). split; [exists (k, c); by rewrite <-list_elem_of_In|]. cbn [fst snd].
      apply list_elem_of_In, (IH _ Hk); [by apply (Hf _ Hk)|]. exists rest. rewrite <-app_assoc. split; [done|]. by exists bs, offs.
Qed.

(** The offsets in one property are those of different phandles. *)
Definition far (x y : u32) : Prop := 4 <= Z.abs (x - y).
Definition spread (n : FdtNode) : Prop :=
  ∀ names key bs offs, value_at names key n = Some bs → from_propval bs = Some offs → pairwise far offs.

Lemma prop_pins_key p pin : pin ∈ prop_pins p → pin_prop pin = p.1.
Proof.
  unfold prop_pins. destruct (from_propval p.2); [|by intros ?%elem_of_nil]. by intros (o & -> & _)%list_elem_of_fmap.
Qed.

Lemma node_pins_pairwise names n : node_ok n → spread n → pairwise clear_of (at_node names (node_pins n)).
Proof.
  intros Hn Hsp. destruct (node_props_ok n Hn) as [Hnd _]. unfold node_pins, at_node.
  assert (Hin : ∀ key bs, (key, bs) ∈ node_props n → ∀ offs, from_propval bs = Some offs → pairwise far offs).
  { intros key bs Hin offs. apply (Hsp [] key). unfold value_at. cbn. by apply index_get_in. }
  clear Hn Hsp. induction (node_props n) as [|[key bs] props IH]; cbn [map concat]; [constructor|].
  cbn in Hnd. apply NoDup_cons in Hnd as [Hkey Hnd]. rewrite map_app. apply pairwise_app. split_and!.
  - specialize (Hin key bs ltac:(by left)). unfold prop_pins. cbn.
    destruct (from_propval bs) as [offs|]; [|constructor]. specialize (Hin offs eq_refl). rewrite map_map.
    eapply StronglySorted_fmap; [|exact Hin]. intros x y Hxy. by right; right.
  - apply IH; [done|]. intros k b Hkb. apply (Hin k). by right.
  - apply Forall_forall. intros p (pin & -> & Hpin%prop_pins_key)%list_elem_of_fmap.
    apply Forall_forall. intros q (pin' & -> & Hpin')%list_elem_of_fmap. right; left. cbn in *.
    apply list_elem_of_In, in_concat in Hpin' as (l & Hl & Hpin'). apply in_map_iff in Hl as ([k' b'] & <- & Hk').
    apply list_elem_of_In in Hpin', Hk'. apply prop_pins_key in Hpin'. cbn in Hpin'. intros Heq. apply Hkey.
    apply list_elem_of_fmap. exists (k', b'). cbn. split; [congruence|done].
Qed.

Lemma pairwise_flat_map {A B} (R : relation B) (f : A → list B) l :
  Forall (λ x, pairwise R (f x)) l → pairwise (λ x y, ∀ a b, a ∈ f x → b ∈ f y → R a b) l → pairwise R (flat_map f l).
Proof.
  intros Hf. induction Hf as [|x l Hx _ IH]; cbn; [constructor|]. intros [Hxl Hl]%StronglySorted_cons.
  apply pairwise_app. split_and!; [done|by apply IH|]. apply Forall_forall. intros a Ha. apply Forall_forall. intros b Hb.
  apply list_elem_of_In, in_flat_map in Hb as (y & Hy & Hb). apply list_elem_of_In in Hb, Hy.
  rewrite Forall_forall in Hxl. by apply (Hxl y).
Qed.

Lemma pairwise_weaken {A} (R S : relation A) l :
  (∀ x y, x ∈ l → y ∈ l → R x y → S x y) → pairwise R l → pairwise S l.
Proof.
  intros HS. induction 1 as [|x l Hl IH Hx]; [constructor|]. apply StronglySorted_cons. split.
  - rewrite Forall_forall in *. intros y Hy. apply HS; [by left|by right|by apply Hx].
  - apply IH. intros y z Hy Hz. apply HS; by right.
Qed.

Lemma NoDup_pairwise {A V} (l : list (A * V)) : NoDup l.*1 → pairwise (λ p q, p.1 ≠ q.1) l.
Proof.
  induction l as [|[k v] l IH]; cbn; [constructor|]. intros [Hk Hnd]%NoDup_cons. apply StronglySorted_cons.
  split; [|by apply IH]. apply Forall_forall. intros [k' v'] Hin. cbn. intros ->. apply Hk, list_elem_of_fmap. by exists (k', v').
Qed.

Lemma all_pins_pairwise names n : node_ok n → spread n → pairwise clear_of (all_pins names n).
Proof.
  revert names. induction n as [name props subs IH] using FdtNode_tree_ind. intros names Hn Hsp.
  destruct (node_subnodes_ok _ Hn) as [Hnd Hf]. cbn in Hnd, Hf. rewrite Forall_forall in Hf, IH.
  assert (Hpre : ∀ k c names' pin, (k, c) ∈ subs → (names', pin) ∈ all_pins (names ++ [k]) c → ∃ rest, names' = names ++ k :: rest).
  { intros k c names' pin Hin Hp. apply all_pins_in in Hp as (rest & -> & _); [|by apply (Hf _ Hin)].
    exists rest. by rewrite <-app_assoc. }
  cbn [all_pins node_subnodes]. apply pairwise_app. split_and!; [by apply node_pins_pairwise|..].
  - apply pairwise_flat_map.
    + apply Forall_forall. intros [k c] Hin. apply (IH _ Hin); [by apply (Hf _ Hin)|]. intros rest key bs offs Hv.
      apply (Hsp (k :: rest) key). rewrite value_at_cons. unfold subnode. cbn. by rewrite (index_get_in k c).
    + apply NoDup_pairwise in Hnd. eapply pairwise_weaken; [|exact Hnd].
      intros [k c] [k' c'] Hk Hk' Hne [p1 p2] [q1 q2] Hp Hq. left. cbn in *.
      destruct (Hpre _ _ _ _ Hk Hp) as [r ->]. destruct (Hpre _ _ _ _ Hk' Hq) as [r' ->].
      intros Heq%app_inv_head. congruence.
  - apply Forall_forall. intros [p1 p2] (pin & [= -> ->] & _)%list_elem_of_fmap. apply Forall_forall. intros [q1 q2] Hq.
    apply list_elem_of_In, in_flat_map in Hq as ([k c] & Hk & Hq). apply list_elem_of_In in Hk, Hq. left. cbn in *.
    destruct (Hpre _ _ _ _ Hk Hq) as [r ->]. intros Heq%(f_equal length). rewrite length_app in Heq. cbn in Heq. lia.
Qed.

(** What a tree of fixups must be, for the overlay [n], to be applied with [delta]. *)
Record fixups_ok (delta : u32) (n fx : FdtNode) : Prop := {
  fx_node : subnode LOCAL_FIXUPS_NODE n = Some fx;
  fx_named : named fx;
  fx_readable : readable fx;
  fx_spread : spread fx;
  fx_nodes names key : is_Some (value_at names key fx) → is_Some (follow names n);
  fx_movable names pin : listed fx names pin → movable delta n (names, pin)
}.

Lemma update_local_refs_moved delta f fx :
  node_ok (root f) → fixups_ok delta (root f) fx →
  ∃ f', update_local_refs delta f = (Returns (), f') ∧ tree_refs_moved delta (all_pins [] fx) (root f) (root f').
Proof.
  intros Hok [Hs Hnm Hr Hsp Hnodes Hmv]. destruct (subnode_ok _ _ _ Hok Hs) as [Hfx _].
  destruct (collect_local_fixup_paths_run (λ names, is_Some (follow names (root f))) f fx Hs) as (es & Hcol & Hp & Hes).
  { constructor; [constructor|done|done|done|]. cbn [fst snd app]. intros names m Hm Hprops.
    destruct (node_props m) as [|[key bs] props] eqn:Hmp; [done|]. apply (Hnodes names key).
    unfold value_at. rewrite Hm. cbn. rewrite Hmp. cbn. rewrite bool_decide_true by done. by eauto. }
  destruct (update_propvals_moved delta es f Hok Hes) as (f' & Hrun & [Ho Hn Hm]).
  - eapply pairwise_perm; [apply _|by symmetry|by apply all_pins_pairwise].
  - rewrite Hp. apply Forall_forall. intros [names pin] Hin. apply all_pins_in in Hin as (rest & -> & Hl); [|done].
    by apply Hmv.
  - exists f'. split; [|constructor; [done|done|by eapply refs_moved_perm]].
    unfold update_local_refs. erewrite bind_returns by done. unfold give_outcome. by rewrite Hcol.
Qed.

(** ** Both steps *)

Lemma moved_same delta key old new : is_phandle_key key = false → moved delta key old new → new = old.
Proof. unfold moved. by intros ->. Qed.

Lemma moved_absent delta key new : moved delta key None new → new = None.
Proof. unfold moved. by case_match. Qed.

Definition no_phandles (fx : FdtNode) : Prop := ∀ names key, is_Some (value_at names key fx) → is_phandle_key key = false.

(** The tree of fixups itself does not change when the phandles move. *)
Lemma fixups_moved delta n n' fx :
  tree_moved delta n n' → fixups_ok delta n fx → no_phandles fx →
  ∃ fx', fixups_ok delta n' fx' ∧ ∀ names pin, listed fx' names pin ↔ listed fx names pin.
Proof.
  intros Hmv [Hs Hnm Hr Hsp Hnodes Hmov] Hno.
  assert (Hfol : ∀ names, follow (LOCAL_FIXUPS_NODE :: names) n = follow names fx) by (intros; by rewrite follow_cons, Hs).
  destruct (proj2 (tm_nodes _ _ _ Hmv [LOCAL_FIXUPS_NODE])) as [fx' Hfx']; [rewrite Hfol; by eauto|].
  assert (Hs' : subnode LOCAL_FIXUPS_NODE n' = Some fx').
  { rewrite follow_cons in Hfx'. by destruct (subnode LOCAL_FIXUPS_NODE n'). }
  assert (Hval : ∀ names key, value_at names key fx' = value_at names key fx).
  { intros names key. pose proof (tm_values _ _ _ Hmv (LOCAL_FIXUPS_NODE :: names) key) as Hv.
    rewrite !value_at_cons, Hs, Hs' in Hv. cbn in Hv. destruct (value_at names key fx) as [bs|] eqn:Hbs.
    - eapply moved_same; [|exact Hv]. apply (Hno names). by rewrite Hbs.
    - by eapply moved_absent. }
  assert (Hl : ∀ names pin, listed fx' names pin ↔ listed fx names pin) by (intros; unfold listed; by rewrite Hval).
  exists fx'. split; [|done]. constructor; [done|..].
  - intros names m Hm. assert (is_Some (follow (LOCAL_FIXUPS_NODE :: names) n)) as [m0 Hm0].
    { apply (tm_nodes _ _ _ Hmv). rewrite follow_cons, Hs'. cbn. by eauto. }
    rewrite Hfol in Hm0. by apply (Hnm names m0).
  - intros names key bs. rewrite Hval. apply Hr.
  - intros names key bs offs. rewrite Hval. apply Hsp.
  - intros names key. rewrite Hval, (tm_nodes _ _ _ Hmv). apply Hnodes.
  - intros names pin Hpin. apply Hl in Hpin. destruct (Hmov names pin Hpin) as (v & Hv & Hd). exists v. split; [|done].
    unfold ref_at in *. cbn [fst snd] in *. destruct Hpin as (bs & offs & Hb & _).
    rewrite (moved_same _ _ _ _ (Hno names _ ltac:(rewrite Hb; by eauto)) (tm_values _ _ _ Hmv names (pin_prop pin))). done.
Qed.

(** C18. The references inside an overlay follow the nodes they refer to: if the tree
    of fixups is readable, lists each place once and every listed place holds a
    phandle with room to grow, then moving the phandles and updating the listed
    places succeeds, unless a phandle cannot be moved; afterwards a listed place
    that held the phandle of a node holds the new phandle of that node, and a
    property that is neither a phandle nor listed has its old value. *)
Theorem local_refs_follow delta overlay fx :
  node_ok (root overlay) → fixups_ok delta (root overlay) fx → no_phandles fx →
  match offset_phandle_values overlay delta with
  | Returns f1 => ∃ f2, update_local_refs delta f1 = (Returns (), f2) ∧ node_ok (root f2) ∧
      (∀ names pin target p, listed fx names pin →
         ref_at (names, pin) (root overlay) = Some p → phandle_of target overlay = Some p →
         ∃ p', ref_at (names, pin) (root f2) = Some p' ∧ phandle_of target f2 = Some p' ∧ uval p' = p + delta) ∧
      (∀ names key, is_phandle_key key = false → (∀ pin, listed fx names pin → pin_prop pin ≠ key) →
         value_at names key (root f2) = value_at names key (root overlay))
  | Throws _ => stuck_phandle delta (root overlay)
  | Aborts => False
  end.
Proof.
  intros Hok Hfx Hno. unfold offset_phandle_values. pose proof (offset_phandle_tree_moves delta (root overlay)) as Hmv.
  unfold moves in Hmv. destruct (offset_phandle_tree delta (root overlay)) as [r|e|]; cbn [mbind outcome_bind]; [|by auto|done].
  destruct (fixups_moved delta (root overlay) r fx Hmv Hfx Hno) as (fx' & Hfx' & Hl).
  assert (Hr : node_ok r) by by apply Hmv.
  destruct (update_local_refs_moved delta (set_root r overlay) fx' Hr Hfx') as (f2 & Hrun & [Hok2 _ (Hm & _ & Hv)]).
  destruct (subnode_ok _ _ _ Hr (fx_node _ _ _ Hfx')) as [Hfxok _]. cbn [root set_root] in *.
  assert (Hin : ∀ names pin, (names, pin) ∈ all_pins [] fx' ↔ listed fx names pin).
  { intros names pin. rewrite all_pins_in by done. setoid_rewrite Hl. split; [by intros (? & -> & ?)|by eauto]. }
  assert (Hkeep : ∀ names key, (∀ pin, listed fx names pin → pin_prop pin ≠ key) →
    value_at names key (root f2) = value_at names key r).
  { intros names key Hk. apply Hv, Forall_forall. intros [names' pin] Hp%Hin. unfold untouched. cbn.
    destruct (decide (names' = names)) as [->|]; [right; by apply Hk|by left]. }
  exists f2. split_and!; [done|by apply Hok2|..].
  - intros names pin target p Hpin Href Hph. destruct (Hm (names, pin)) as (v & v' & Hr1 & Hr2 & Hd); [by apply Hin|].
    assert (Hkey : is_phandle_key (pin_prop pin) = false) by (destruct Hpin as (bs & ? & Hb & _); apply (Hno names); by rewrite Hb).
    assert (Hsame : ref_at (names, pin) r = ref_at (names, pin) (root overlay)).
    { unfold ref_at. cbn [fst snd]. by rewrite (moved_same _ _ _ _ Hkey (tm_values _ _ _ Hmv names _)). }
    rewrite Hsame, Href in Hr1. injection Hr1 as <-. exists v'. split_and!; [done| |done].
    pose proof (phandle_of_moved delta overlay (set_root r overlay) target Hmv) as Ht. rewrite Hph in Ht.
    assert (phandle_of target f2 = phandle_of target (set_root r overlay)) as ->.
    { rewrite !phandle_of_values. cbn [root set_root].
      rewrite !Hkeep; [done|..]; intros pin' (bs & ? & Hb & _) Heq; rewrite Heq in Hb;
        (assert (Hf : is_Some (value_at target (pin_prop pin') fx)) by (rewrite Heq, Hb; by eauto));
        apply Hno in Hf; by rewrite Heq in Hf. }
    destruct (phandle_of target (set_root r overlay)) as [q|]; [|done]. f_equal. apply uint_eq. lia.
  - intros names key Hk Hpin. rewrite Hkeep by done. by apply (moved_same _ _ _ _ Hk (tm_values _ _ _ Hmv names key)).
Qed.
