(* ===== verification/OverlayApply.v ===== *)
(** * Overlays: the base

    Whatever an overlay holds, and however applying it ends, the base stays a
    well-formed tree that has lost no node and no property. *)

From stdpp Require Import sorting.
From S2P Require Import Prelude StdIo Checked DeviceTree DeviceTreeFacts DeviceTreeEdits Overlay OverlayFacts OverlayRefs.

(** ** Trees that only grow *)

Record kept (n n' : FdtNode) : Prop := {
  k_ok : node_ok n';
  k_name : node_name n' = node_name n;
  k_nodes names : is_Some (follow names n) → is_Some (follow names n');
  k_values names key : is_Some (value_at names key n) → is_Some (value_at names key n')
}.

Lemma kept_refl n : node_ok n → kept n n.
Proof. by constructor. Qed.
Lemma kept_trans n n1 n2 : kept n n1 → kept n1 n2 → kept n n2.
Proof. intros [? ? ? ?] [? ? ? ?]. constructor; [done|congruence|by auto|by auto]. Qed.

Lemma kept_set_prop n key bs :
  node_ok n → prop_ok (key, bs) → kept n (set_props (index_insert key bs (node_props n)) n).
Proof.
  intros Hn Hp. destruct (node_props_ok n Hn) as [Hnd Hps]. constructor; [|done|..].
  - apply set_props_ok; [done|by apply index_insert_NoDup|by apply index_insert_Forall].
  - by intros [|name names].
  - intros [|name names] key'; [|done]. unfold value_at. cbn.
    destruct (decide (key' = key)) as [->|Hne]; [rewrite index_get_insert_eq; by eauto|by rewrite index_get_insert_ne].
Qed.

Lemma kept_put_child n name c c' :
  node_ok n → child_for name n = Some c → kept c c' →
  kept n (set_subnodes (index_insert name c' (node_subnodes n)) n).
Proof.
  intros Hn Hc [Hok Hname Hnodes Hvals]. destruct (child_for_ok _ _ _ Hn Hc) as [_ Hcn]. constructor; [|done|..].
  - apply put_child_ok; [done|done|congruence].
  - intros [|nm rest]; [done|]. rewrite !follow_cons, subnode_put. case_bool_decide; [subst nm|done]. cbn.
    unfold child_for in Hc. destruct (subnode name n) as [d|]; [|by intros [? ?]]. injection Hc as ->. apply Hnodes.
  - intros names key. rewrite set_subnode_value. destruct names as [|nm rest]; [done|]. case_bool_decide; [subst nm|done].
    rewrite (child_for_value _ _ _ _ _ Hc). apply Hvals.
Qed.

Lemma subnode_child_for name n c : subnode name n = Some c → child_for name n = Some c.
Proof. unfold child_for. by intros ->. Qed.

Lemma kept_put_at names n m m' : node_ok n → follow names n = Some m → kept m m' → kept n (put_at names m' n).
Proof.
  revert n. induction names as [|name names IH]; intros n Hn Hf Hk; cbn [put_at]; [by injection Hf as ->|].
  rewrite follow_cons in Hf. destruct (subnode name n) as [c|] eqn:Hc; [|done]. cbn in Hf.
  eapply kept_put_child; [done|by apply subnode_child_for|]. apply IH; [|done|done]. by eapply subnode_ok.
Qed.

Lemma laid_over_kept o b b' : laid_over o b b' → kept b b'.
Proof.
  intros [Hok Hname Hv Hf]. constructor; [done|done|..].
  - intros names Hn. apply Hf. by right.
  - intros names key Hb. rewrite Hv. case_match; [by eauto|done].
Qed.

(** ** Edits of a node *)

Definition keeps {A} (edit : Edit A) : Prop := ∀ n, node_ok n → kept n (edit n).2.

Create HintDb keeps discriminated.

Lemma edit_keeps_ret {A} (a : A) : keeps (mret a).
Proof. intros n Hn. by apply kept_refl. Qed.
Lemma edit_keeps_throw {A} e : keeps (throw (A := A) e).
Proof. intros n Hn. by apply kept_refl. Qed.
Lemma edit_keeps_abort {A} : keeps (abort (A := A)).
Proof. intros n Hn. by apply kept_refl. Qed.
Lemma edit_keeps_get : keeps get_state.
Proof. intros n Hn. by apply kept_refl. Qed.
Lemma edit_keeps_outcome {A} (o : outcome FdtError A) : keeps (give_outcome o).
Proof. intros n Hn. by apply kept_refl. Qed.
Lemma edit_keeps_ok_or {A} (o : option A) e : keeps (ok_or_throw o e).
Proof. intros n Hn. destruct o; by apply kept_refl. Qed.
Lemma edit_keeps_checked {A} (o : option A) : keeps (checked o).
Proof. intros n Hn. destruct o; by apply kept_refl. Qed.
Lemma edit_keeps_bind {A B} (m : Edit A) (f : A → Edit B) : keeps m → (∀ a, keeps (f a)) → keeps (m ≫= f).
Proof.
  intros Hm Hf n Hn. specialize (Hm n Hn). unfold mbind, prog_bind. destruct (m n) as [[a|e|] n1]; [|done..].
  eapply kept_trans; [exact Hm|]. apply Hf, Hm.
Qed.
Lemma edit_keeps_catch {A} (m : Edit A) : keeps m → keeps (catch m).
Proof. intros Hm n Hn. specialize (Hm n Hn). unfold catch. by destruct (m n) as [[a|e|] n1]. Qed.

#[export] Hint Resolve edit_keeps_ret edit_keeps_throw edit_keeps_abort edit_keeps_get edit_keeps_outcome edit_keeps_ok_or edit_keeps_checked edit_keeps_catch : keeps.

Ltac edit_keeps_step := repeat first [solve [eauto with keeps] | lazymatch goal with |- keeps (_ ≫= _) => apply edit_keeps_bind; [|intros ?] end | case_match].

Lemma keeps_update_phandle key (off v : u32) : keeps (update_phandle_at_offset key off v).
Proof.
  intros n Hn. unfold update_phandle_at_offset. erewrite bind_returns by done.
  destruct (index_get key (node_props n)) as [data|] eqn:Hg; [|by apply kept_refl]. erewrite bind_returns by done.
  destruct (four_bytes data off) as [bs|] eqn:Hb; [|by apply kept_refl]. pose proof (uint_range off) as [Ho _].
  assert (Hlen : off + 4 <= lengthZ data).
  { unfold four_bytes, SIZE_U32 in Hb. destruct (Z.ltb_spec (lengthZ data) (off + 4)); [done|lia]. }
  destruct (splice_four data off (u32_be v) Ho Hlen eq_refl) as (Hl & _).
  unfold give_outcome, to_propval, u32_to_propval. rewrite u32_bytes_one.
  apply kept_set_prop; [done|]. destruct (node_props_ok n Hn) as [_ Hp]. rewrite Forall_forall in Hp.
  destruct (Hp _ (index_get_Some _ _ _ Hg)) as (Hk & Hne & Hlt). split_and!; [done|done|]. cbn [snd] in *. unfold SIZE_U32. lia.
Qed.

Lemma keeps_set_prop {T} `{ToFdtPropval T} key (v : T) : key ≠ [] → keeps (set_prop key v).
Proof.
  intros Hk n Hn. unfold set_prop. destruct (is_valid_prop_name key) eqn:Hv; cbn [negb]; [|by apply kept_refl].
  unfold give_outcome. destruct (to_propval v) as [bs|e|]; [|by apply kept_refl..]. run_prog.
  destruct (Z.leb_spec (2 ^ 32) (lengthZ bs)); [by apply kept_refl|]. by apply kept_set_prop.
Qed.

Lemma keeps_with_subnode {A} name (edit : Edit A) : keeps edit → keeps (with_subnode_mut name edit).
Proof.
  intros He n Hn. rewrite with_subnode_mut_run. destruct (child_for name n) as [c|] eqn:Hc; [|by apply kept_refl].
  eapply kept_put_child; [done|done|]. apply He. by eapply child_for_ok.
Qed.

Lemma keeps_with_follow {A} names (edit : Edit A) : keeps edit → keeps (with_follow names edit).
Proof.
  intros He n Hn. rewrite with_follow_run. destruct (follow names n) as [m|] eqn:Hf; [|by apply kept_refl].
  eapply kept_put_at; [done|done|]. apply He. by eapply follow_ok.
Qed.

#[export] Hint Resolve keeps_update_phandle keeps_with_subnode keeps_with_follow : keeps.
#[export] Hint Extern 1 (keeps (set_prop _ _)) => apply keeps_set_prop; done : keeps.

Lemma keeps_update_pins pins delta : keeps (update_pins pins delta).
Proof. induction pins as [|pin pins IH]; cbn [update_pins]; edit_keeps_step. Qed.

Lemma keeps_fix_target base_path phandle pin : keeps (fix_target base_path phandle pin).
Proof. unfold fix_target. edit_keeps_step. Qed.

Lemma keeps_copy_symbols overlay symbols_node filtered symbols :
  Forall (λ s, s ≠ []) symbols → keeps (copy_symbols overlay symbols_node filtered symbols).
Proof.
  induction 1 as [|s symbols Hs _ IH]; cbn [copy_symbols]; edit_keeps_step.
Qed.

Lemma keeps_overlay_node o : node_ok o → keeps (overlay_node_pair o).
Proof.
  intros Ho b Hb. destruct (overlay_node_pair_over o Ho b Hb) as (b' & -> & Hlo). by eapply laid_over_kept.
Qed.

#[export] Hint Resolve keeps_update_pins keeps_fix_target keeps_overlay_node : keeps.

(** ** Edits of a tree *)

Record tree_kept (f f' : Fdt) : Prop := {
  tk_root : kept (root f) (root f');
  tk_reserved : reserved_memory f' = reserved_memory f;
  tk_strings : fdt_strings f' = fdt_strings f;
  tk_cpuid : boot_cpuid_phys f' = boot_cpuid_phys f
}.

Lemma tree_kept_refl f : node_ok (root f) → tree_kept f f.
Proof. intros Hf. constructor; [by apply kept_refl|done..]. Qed.
Lemma tree_kept_trans f f1 f2 : tree_kept f f1 → tree_kept f1 f2 → tree_kept f f2.
Proof. intros [? ? ? ?] [? ? ? ?]. constructor; [by eapply kept_trans|congruence..]. Qed.

Definition tree_keeps {A} (m : prog Fdt FdtError A) : Prop := ∀ f, node_ok (root f) → tree_kept f (m f).2.

Create HintDb tree_keeps discriminated.

Lemma tree_keeps_ret {A} (a : A) : tree_keeps (mret a).
Proof. intros f Hf. by apply tree_kept_refl. Qed.
Lemma tree_keeps_abort {A} : tree_keeps (abort (A := A)).
Proof. intros f Hf. by apply tree_kept_refl. Qed.
Lemma tree_keeps_get : tree_keeps get_state.
Proof. intros f Hf. by apply tree_kept_refl. Qed.
Lemma tree_keeps_outcome {A} (o : outcome FdtError A) : tree_keeps (give_outcome o).
Proof. intros f Hf. by apply tree_kept_refl. Qed.
Lemma tree_keeps_ok_or {A} (o : option A) e : tree_keeps (ok_or_throw o e).
Proof. intros f Hf. destruct o; by apply tree_kept_refl. Qed.
Lemma tree_keeps_bind {A B} (m : prog Fdt FdtError A) (k : A → prog Fdt FdtError B) :
  tree_keeps m → (∀ a, tree_keeps (k a)) → tree_keeps (m ≫= k).
Proof.
  intros Hm Hk f Hf. specialize (Hm f Hf). unfold mbind, prog_bind. destruct (m f) as [[a|e|] f1]; [|done..].
  eapply tree_kept_trans; [exact Hm|]. apply Hk, Hm.
Qed.
Lemma tree_keeps_root {A} (edit : Edit A) : keeps edit → tree_keeps (with_root_mut edit).
Proof.
  intros He f Hf. specialize (He (root f) Hf). unfold with_root_mut, zoom. by destruct (edit (root f)) as [r n].
Qed.
Lemma tree_keeps_node {A} path (edit : Edit A) : keeps edit → tree_keeps (with_node_mut path edit).
Proof.
  intros He. unfold with_node_mut. destruct (Path_new path); [|apply tree_keeps_ret|apply tree_keeps_abort].
  by apply tree_keeps_root, keeps_with_follow.
Qed.

#[export] Hint Resolve tree_keeps_ret tree_keeps_abort tree_keeps_get tree_keeps_outcome tree_keeps_ok_or : tree_keeps.
#[export] Hint Extern 1 (tree_keeps (with_node_mut _ _)) => apply tree_keeps_node; eauto with keeps : tree_keeps.

Ltac tree_step := repeat first [solve [eauto with tree_keeps] | lazymatch goal with |- tree_keeps (_ ≫= _) => apply tree_keeps_bind; [|intros ?] end | case_match].

Lemma tree_keeps_propvals paths delta : tree_keeps (update_local_phandle_propvals paths delta).
Proof. induction paths as [|[path pins] paths IH]; cbn [update_local_phandle_propvals]; tree_step. Qed.

Lemma tree_keeps_fix_paths base_path phandle paths : tree_keeps (fix_paths base_path phandle paths).
Proof. induction paths as [|p paths IH]; cbn [fix_paths]; tree_step. Qed.

#[export] Hint Resolve tree_keeps_propvals tree_keeps_fix_paths : tree_keeps.

Lemma tree_keeps_fix_all m : tree_keeps (fix_all m).
Proof. induction m as [|[[base_path phandle] paths] m IH]; cbn [fix_all]; tree_step. Qed.

#[export] Hint Resolve tree_keeps_fix_all : tree_keeps.

Lemma tree_keeps_local_refs delta : tree_keeps (update_local_refs delta).
Proof. unfold update_local_refs. tree_step. Qed.

Lemma tree_keeps_external base : tree_keeps (apply_external_fixups base).
Proof. unfold apply_external_fixups. tree_step. Qed.

Lemma tree_keeps_symbols overlay filtered : node_ok (root overlay) → tree_keeps (update_base_symbols overlay filtered).
Proof.
  intros Ho. unfold update_base_symbols. destruct (subnode SYMBOLS_NODE (root overlay)) as [sn|] eqn:Hs; [|apply tree_keeps_ret].
  apply tree_keeps_root, keeps_with_subnode, keeps_copy_symbols. destruct (subnode_ok _ _ _ Ho Hs) as [Hsn _].
  destruct (node_props_ok sn Hsn) as [_ Hp]. rewrite Forall_fmap. eapply Forall_impl; [exact Hp|]. by intros p (_ & ? & _).
Qed.

Lemma tree_keeps_fragments subs :
  Forall (λ p, node_name p.2 = p.1 ∧ node_ok p.2) subs → tree_keeps (overlay_fragments subs).
Proof.
  induction 1 as [|[k n] subs [_ Hn] _ IH]; cbn [overlay_fragments]; [apply tree_keeps_ret|].
  apply tree_keeps_bind; [|done]. unfold overlay_fragment. destruct (subnode OVERLAY_NODE n) as [o|] eqn:Ho; [|apply tree_keeps_ret].
  destruct (subnode_ok _ _ _ Hn Ho) as [Hok _]. tree_step.
Qed.

(** ** The overlay stays well formed *)

Lemma edited_kept {A} (m : prog Fdt FdtError A) f f' :
  tree_keeps m → node_ok (root f) → edited m f = Returns f' → node_ok (root f') ∧ reserved_memory f' = reserved_memory f.
Proof.
  intros Hm Hf. specialize (Hm f Hf). unfold edited. destruct (m f) as [[a|e|] f1]; [|done..]. intros [= <-].
  split; apply Hm.
Qed.

Lemma graft_ok names src tgt r : node_ok src → node_ok tgt → graft names src tgt = Returns r → node_ok r ∧ node_name r = node_name tgt.
Proof.
  revert src tgt r. induction names as [|name names IH]; intros src tgt r Hs Ht; cbn [graft]; [by intros [= <-]|].
  destruct (subnode name src) as [sc|] eqn:Hsc; [|done]. cbn [unwrap_or_abort mbind outcome_bind].
  destruct (subnode_ok _ _ _ Hs Hsc) as [Hscok _]. destruct (node_props_ok sc Hscok) as [Hnd Hp].
  assert (Hchild : ∀ c, match subnode name tgt with Some c => Returns c
      | None => match FdtNode_empty name with Returns n => Returns n | _ => Aborts end end = Returns (E := FdtError) c →
    child_for name tgt = Some c).
  { intros c. unfold child_for. destruct (subnode name tgt); [by intros [= ->]|].
    unfold FdtNode_empty, FdtNode_new. destruct (is_valid_node_name name); cbn; [by intros [= <-]|done]. }
  destruct (match subnode name tgt with Some c => _ | None => _ end) as [c|e|]; [|done..]. cbn [mbind outcome_bind].
  destruct (child_for_ok _ _ _ Ht (Hchild c eq_refl)) as [Hc Hcn].
  destruct (graft names sc (set_props (node_props sc) c)) as [d|e|] eqn:Hg; [|done..]. cbn. intros [= <-].
  apply IH in Hg as [Hd Hdn]; [|done|by apply set_props_ok]. split; [|done]. apply put_child_ok; [done|done|]. by rewrite Hdn.
Qed.

Lemma graft_paths_ok paths src tgt r : node_ok src → node_ok tgt → graft_paths paths src tgt = Returns r → node_ok r.
Proof.
  intros Hs. revert tgt. induction paths as [|p paths IH]; intros tgt Ht; cbn [graft_paths]; [by intros [= <-]|].
  destruct (graft (Path_iter p) src tgt) as [d|e|] eqn:Hg; [|done..]. cbn. apply IH. exact (proj1 (graft_ok _ _ _ _ Hs Ht Hg)).
Qed.

Lemma do_overlay_filter_ok paths f f' :
  node_ok (root f) → do_overlay_filter paths f = Returns f' → node_ok (root f') ∧ reserved_memory f' = reserved_memory f.
Proof.
  intros Hf. unfold do_overlay_filter. destruct paths as [|p paths]; [by intros [= <-]|].
  destruct (FdtNode_empty []) as [n|e|] eqn:He; [|done..].
  destruct (graft_paths (p :: paths) (root f) n) as [r|e|] eqn:Hg; [|done..]. cbn. intros [= <-]. cbn. split; [|done].
  eapply graft_paths_ok; [exact Hf| |exact Hg]. vm_compute in He. injection He as <-.
  constructor; [done|by apply NoDup_nil|done|by apply NoDup_nil|done|]. by intros ? ? ?%elem_of_nil.
Qed.

(** ** Applying an overlay *)

(** Everything before the reserved regions are merged. *)
Lemma tree_keeps_apply `{SetOrder} overlay (filter_symbols : list (list u8)) f :
  node_ok (root overlay) → node_ok (root f) →
  match apply_overlay overlay filter_symbols f with
  | (Returns _, f') => ∃ f1 r, tree_kept f f1 ∧
      merge_resvmem (reserved_memory f) (reserved_memory overlay) = Some r ∧ f' = set_reserved r f1
  | (_, f') => tree_kept f f'
  end.
Proof.
  intros Ho Hf. unfold apply_overlay. pose proof (tree_kept_refl f Hf) as Hrefl.
  destruct (prepare_filtered_symbols filter_symbols overlay) as [[fs fp]|e|]; [|exact Hrefl..].
  erewrite bind_returns by done. cbn beta iota. destruct (collect_all_filtered_paths fp overlay) as [ps|e|]; [|exact Hrefl..].
  erewrite bind_returns by done. erewrite bind_returns by done. cbn zeta.
  pose proof (offset_phandle_tree_moves (get_max_phandle (root f)) (root overlay)) as Hmv. unfold moves in Hmv.
  unfold offset_phandle_values. destruct (offset_phandle_tree _ (root overlay)) as [r0|e|]; [|exact Hrefl|done].
  cbn [mbind outcome_bind]. erewrite bind_returns by done. pose proof (tm_ok _ _ _ Hmv Ho) as Ho0.
  destruct (edited (update_local_refs _) _) as [o1|e|] eqn:H1; [|exact Hrefl..]. erewrite bind_returns by done.
  apply edited_kept in H1 as [Ho1 Hr1]; [|apply tree_keeps_local_refs|done].
  destruct (edited (apply_external_fixups f) o1) as [o2|e|] eqn:H2; [|exact Hrefl..]. erewrite bind_returns by done.
  apply edited_kept in H2 as [Ho2 Hr2]; [|apply tree_keeps_external|done].
  pose proof (tree_keeps_symbols o2 fs Ho2 f Hf) as Hk. unfold mbind at 1, prog_bind at 1.
  destruct (update_base_symbols o2 fs f) as [[[]|e|] f1]; cbn [snd] in Hk; [|exact Hk..].
  destruct (do_overlay_filter ps o2) as [o3|e|] eqn:H3; [|exact Hk..]. erewrite bind_returns by done.
  destruct (do_overlay_filter_ok _ _ _ Ho2 H3) as [Ho3 Hr3]. destruct (node_subnodes_ok _ Ho3) as [_ Hsubs].
  pose proof (tree_keeps_fragments _ Hsubs f1 (k_ok _ _ (tk_root _ _ Hk))) as Hk2. unfold mbind at 1, prog_bind at 1.
  destruct (overlay_fragments (node_subnodes (root o3)) f1) as [[[]|e|] f2]; cbn [snd] in Hk2;
    [|by eapply tree_kept_trans..]. erewrite bind_returns by done.
  pose proof (tree_kept_trans _ _ _ Hk Hk2) as Hk3. rewrite (tk_reserved _ _ Hk3), Hr3, Hr2, Hr1.
  cbn [reserved_memory set_root]. destruct (merge_resvmem _ _) as [r|]; [|done]. by exists f2, r.
Qed.

(** C17. However applying an overlay ends, the base stays well formed: no node and no
    property of the base is lost and its processor stays the same; when it
    succeeds the reserved regions are those of both trees, otherwise they are
    unchanged. *)
Theorem apply_overlay_keeps_base `{SetOrder} base overlay (filter_symbols : list (list u8)) :
  fdt_ok base → fdt_ok overlay →
  let '(r, base') := apply_overlay overlay filter_symbols base in
  fdt_ok base' ∧ boot_cpuid_phys base' = boot_cpuid_phys base ∧
  (∀ names, is_Some (follow names (root base)) → is_Some (follow names (root base'))) ∧
  (∀ names key, is_Some (value_at names key (root base)) → is_Some (value_at names key (root base'))) ∧
  match r with
  | Returns _ => ∀ x, covered x (reserved_memory base') ↔ covered x (reserved_memory base) ∨ covered x (reserved_memory overlay)
  | _ => reserved_memory base' = reserved_memory base
  end.
Proof.
  intros [Hb Hst Hrb] [Ho _ Hro]. pose proof (tree_keeps_apply overlay filter_symbols base Ho Hb) as Hk.
  destruct (apply_overlay overlay filter_symbols base) as [[[]|e|] base'].
  - destruct Hk as (f1 & r & [[Hok _ Hn Hv] _ Hs Hc] & Hm & ->). split_and!; [|done|done|done|].
    + constructor; [done|cbn; by rewrite Hs|]. eapply merge_resvmem_terminators; [|exact Hm]. by apply Forall_app_2.
    + by apply merge_resvmem_covers.
  - destruct Hk as [[Hok _ Hn Hv] Hr Hs Hc]. split_and!; [|done..]. constructor; [done|by rewrite Hs|by rewrite Hr].
  - destruct Hk as [[Hok _ Hn Hv] Hr Hs Hc]. split_and!; [|done..]. constructor; [done|by rewrite Hs|by rewrite Hr].
Qed.
