(* ===== verification/OverlayFilter.v ===== *)
(** * Overlays: filtering

    Applying an overlay for some symbols only: the set of paths to keep is closed
    under references and found in finitely many steps, and the filtered overlay has
    exactly the nodes along these paths. *)

From stdpp Require Import sorting.
From S2P Require Import Prelude StdIo Checked DeviceTree DeviceTreeFacts DeviceTreeEdits Overlay OverlayRefs.

(** ** Paths under other paths *)

Lemma is_prefix_of_spec l k : is_prefix_of l k = true ↔ l `prefix_of` k.
Proof.
  revert k. induction l as [|x l IH]; intros [|y k]; cbn.
  - split; [by intros _; apply prefix_nil|done].
  - split; [by intros _; apply prefix_nil|done].
  - split; [done|]. by intros ?%prefix_nil_not.
  - rewrite andb_true_iff, bool_decide_eq_true, IH. split.
    + intros [-> Hp]. by apply prefix_cons.
    + intros Hp. split; [by eapply prefix_cons_inv_1|by eapply prefix_cons_inv_2].
Qed.

Lemma is_child_of_spec p q : is_child_of p q = true ↔ Path_iter q `prefix_of` Path_iter p.
Proof. apply is_prefix_of_spec. Qed.

Lemma dedup_children_covers kept paths p :
  p ∈ paths → is_child_of p kept = true ∨ ∃ q, q ∈ dedup_children kept paths ∧ is_child_of p q = true.
Proof.
  revert kept. induction paths as [|p' paths IH]; intros kept; [by intros ?%elem_of_nil|].
  intros [->|Hp]%elem_of_cons; cbn [dedup_children].
  - destruct (is_child_of p' kept) eqn:Hc; [by left|]. right. exists p'. split; [by left|]. by apply is_child_of_spec.
  - destruct (is_child_of p' kept) eqn:Hc; [by apply IH|]. right.
    destruct (IH p' Hp) as [Hk|(q & Hq & Hk)]; [exists p'; split; [by left|done]|exists q; split; [by right|done]].
Qed.

Lemma dedup_children_subset kept paths p : p ∈ dedup_children kept paths → p ∈ paths.
Proof.
  revert kept. induction paths as [|p' paths IH]; intros kept; cbn [dedup_children]; [done|].
  case_match; [intros Hp; right; by eapply IH|]. intros [->|Hp]%elem_of_cons; [by left|right; by eapply IH].
Qed.

Lemma minimize_paths_covers paths p : p ∈ paths → ∃ q, q ∈ minimize_paths paths ∧ is_child_of p q = true.
Proof.
  unfold minimize_paths. rewrite <-(merge_sort_Permutation string_ordered paths).
  destruct (merge_sort string_ordered paths) as [|q paths']; [by intros ?%elem_of_nil|].
  intros [->|Hp]%elem_of_cons; [exists q; split; [by left|by apply is_child_of_spec]|].
  destruct (dedup_children_covers q paths' p Hp) as [Hc|(r & Hr & Hc)];
    [exists q; split; [by left|done]|exists r; split; [by right|done]].
Qed.

Lemma minimize_paths_subset paths p : p ∈ minimize_paths paths → p ∈ paths.
Proof.
  unfold minimize_paths. intros Hp. rewrite <-(merge_sort_Permutation string_ordered paths).
  destruct (merge_sort string_ordered paths) as [|q paths']; [done|]. apply elem_of_cons in Hp as [->|Hp]; [by left|].
  right. by eapply dedup_children_subset.
Qed.

(** ** Sets *)

Section sets.
Context {A : Set} `{EqDecision A}.
Implicit Types l k : list A.

Lemma set_insert_spec l x : NoDup l → NoDup (set_insert l x) ∧ ∀ y, y ∈ set_insert l x ↔ y ∈ l ∨ y = x.
Proof.
  unfold set_insert. intros Hl. case_bool_decide as Hx; [split; [done|]; intros y; split; [by left|by intros [?| ->]]|].
  split; [|intros y; by rewrite elem_of_app, list_elem_of_singleton]. apply NoDup_app. split_and!; [done| |by apply NoDup_singleton].
  intros y Hy ->%list_elem_of_singleton. done.
Qed.

Lemma set_extend_NoDup l k : NoDup l → NoDup (set_extend l k).
Proof.
  unfold set_extend. revert l. induction k as [|x k IH]; intros l Hl; [done|]. cbn. by apply IH, set_insert_spec.
Qed.

End sets.

(** ** The references of a path *)

Lemma collect_refs_NoDup names tree fixup refs r : NoDup refs → collect_refs names tree fixup refs = Returns r → NoDup r.
Proof.
  revert tree fixup refs. induction names as [|name names IH]; intros tree fixup refs Hr; cbn [collect_refs]; [by intros [= <-]|].
  destruct (subnode name tree) as [t|]; [|done]. cbn [ok_or_else mbind outcome_bind].
  destruct (subnode name fixup) as [fx|]; [|by intros [= <-]].
  destruct (refs_from_props (node_props fx) t) as [new|e|]; [|done..]. cbn [mbind outcome_bind]. by apply IH, set_extend_NoDup.
Qed.

Lemma paths_of_spec phandles all paths :
  paths_of phandles all = Returns paths → Forall2 (λ (ph : u32) p, all !! uval ph = Some p) phandles paths.
Proof.
  revert paths. induction phandles as [|ph phandles IH]; intros paths; cbn [paths_of]; [by intros [= <-]; constructor|].
  destruct (all !! uval ph) as [p|] eqn:Hp; [|done]. cbn [ok_or_else mbind outcome_bind].
  destruct (paths_of phandles all) as [rest|e|]; [|done..]. cbn. intros [= <-]. constructor; [done|by apply IH].
Qed.

Lemma paths_of_aborts phandles all : paths_of phandles all ≠ Aborts.
Proof.
  induction phandles as [|ph phandles IH]; cbn [paths_of]; [done|].
  destruct (all !! uval ph); cbn [ok_or_else mbind outcome_bind]; [|done]. by destruct (paths_of phandles all).
Qed.

(** Distinct references are distinct phandles of the tree. *)
Lemma distinct_phandles (phandles : list u32) (all : gmap Z (list u8)) :
  NoDup phandles → Forall (λ ph : u32, is_Some (all !! uval ph)) phandles → (length phandles <= size all)%nat.
Proof.
  intros Hnd Hall. rewrite <-(length_fmap uval), <-size_dom.
  rewrite <-(size_list_to_set (C := gset Z) (uval <$> phandles)).
  - apply subseteq_size. intros z Hz. apply elem_of_list_to_set, list_elem_of_fmap in Hz as (ph & -> & Hph).
    rewrite Forall_forall in Hall. apply elem_of_dom. by apply Hall.
  - apply NoDup_fmap_2; [|done]. intros x y Hxy. by apply uint_eq.
Qed.

Section pending.
Context {SO : SetOrder} (f : Fdt) (fx : FdtNode) (all : gmap Z (list u8)) (start : list (list u8)).

(** The paths the loop may meet. *)
Definition universe : list (list u8) := start ++ (map_to_list all).*2.

Lemma universe_length : length universe = (length start + size all)%nat.
Proof. unfold universe. by rewrite length_app, length_fmap, length_map_to_list. Qed.

Definition reads (path : list u8) (new : list (list u8)) : Prop :=
  ∃ phandles, collect_all_references_by_path path (root f) fx = Returns phandles ∧ paths_of (set_iter phandles) all = Returns new.

Lemma reads_spec path new :
  reads path new → (length new <= size all)%nat ∧ (∀ p, p ∈ new → p ∈ universe) ∧
  ∃ phandles, collect_all_references_by_path path (root f) fx = Returns phandles ∧
    ∀ ph, ph ∈ phandles → ∃ p, all !! uval ph = Some p ∧ p ∈ new.
Proof.
  intros (phandles & Hc & Hp). apply paths_of_spec in Hp as Hf.
  assert (Hnd : NoDup (set_iter phandles)).
  { rewrite set_iter_perm. eapply collect_refs_NoDup; [|exact Hc]. by apply NoDup_nil. }
  split_and!.
  - rewrite <-(Forall2_length _ _ _ Hf). apply distinct_phandles; [done|].
    eapply Forall2_Forall_l; [exact Hf|]. apply Forall_true. by eauto.
  - intros p Hin. apply list_elem_of_lookup in Hin as [i Hi]. eapply Forall2_lookup_r in Hi as (ph & _ & Hph); [|exact Hf].
    apply elem_of_app. right. apply list_elem_of_fmap. exists (uval ph, p). split; [done|]. by apply elem_of_map_to_list.
  - exists phandles. split; [done|]. intros ph Hph. rewrite <-(set_iter_perm phandles) in Hph.
    apply list_elem_of_lookup in Hph as [i Hi]. eapply Forall2_lookup_l in Hi as (p & Hp' & Hph); [|exact Hf].
    exists p. split; [done|]. by eapply list_elem_of_lookup_2.
Qed.

(** The steps that are left. *)
Definition steps_left (pending result : list (list u8)) : nat :=
  length pending + (length universe - length result) * size all.

Lemma steps_left_cons p pending result : steps_left (p :: pending) result = S (steps_left pending result).
Proof. done. Qed.

Definition loop_inv (pending result : list (list u8)) : Prop :=
  NoDup result ∧ (∀ p, p ∈ pending → p ∈ universe) ∧ (∀ p, p ∈ result → p ∈ universe).

Lemma loop_inv_step path pending result new :
  loop_inv (path :: pending) result → path ∉ result → reads path new →
  loop_inv (pending ++ new) (set_insert result path) ∧
  (steps_left (pending ++ new) (set_insert result path) < steps_left (path :: pending) result)%nat.
Proof.
  intros (Hnd & Hp & Hr) Hnew Hreads. destruct (reads_spec _ _ Hreads) as (Hlen & Huniv & _).
  destruct (set_insert_spec result path Hnd) as [Hnd' Hin].
  assert (Hr' : ∀ p, p ∈ set_insert result path → p ∈ universe).
  { intros p [?| ->]%Hin; [by apply Hr|]. apply Hp. by left. }
  split.
  - split_and!; [done| |done]. intros p [?|?]%elem_of_app; [|by apply Huniv]. apply Hp. by right.
  - assert (Hle : (length (set_insert result path) <= length universe)%nat) by by apply submseteq_length, NoDup_submseteq.
    assert (Hs : length (set_insert result path) = S (length result)).
    { unfold set_insert. rewrite bool_decide_false by done. rewrite length_app. cbn. lia. }
    unfold steps_left. rewrite length_app. cbn [length]. rewrite Hs in *.
    destruct (length universe - length result)%nat as [|left] eqn:Hleft; [lia|].
    replace (length universe - S (length result))%nat with left by lia. cbn [Nat.mul]. lia.
Qed.

(** The loop ends before the fuel does: it aborts only if reading the references of
    a path does. *)
Lemma pending_loop_aborts fuel pending result :
  loop_inv pending result → (steps_left pending result <= fuel)%nat →
  pending_loop fuel pending result f fx all = Aborts →
  ∃ p, collect_all_references_by_path p (root f) fx = Aborts.
Proof.
  revert pending result. induction fuel as [|fuel IH]; intros pending result Hinv Hfuel.
  { destruct pending as [|p pending]; [done|]. rewrite steps_left_cons in Hfuel. lia. }
  destruct pending as [|path pending]; [done|]. cbn [pending_loop]. case_bool_decide as Hin.
  - destruct Hinv as (Hnd & Hp & Hr). apply IH; [|rewrite steps_left_cons in Hfuel; lia].
    split_and!; [done| |done]. intros p ?. apply Hp. by right.
  - destruct (collect_all_references_by_path path (root f) fx) as [phandles|e|] eqn:Hc; [|done|by eauto]. cbn [mbind outcome_bind].
    destruct (paths_of (set_iter phandles) all) as [new|e|] eqn:Hn; [|done|by apply paths_of_aborts in Hn]. cbn [mbind outcome_bind].
    assert (Hreads : reads path new) by by exists phandles.
    destruct (loop_inv_step path pending result new Hinv Hin Hreads). apply IH; [done|lia].
Qed.

(** What has been read is in the set or waiting. *)
Definition closed_in (result others : list (list u8)) : Prop := ∀ r, r ∈ result →
  ∃ phandles, collect_all_references_by_path r (root f) fx = Returns phandles ∧
    ∀ ph, ph ∈ phandles → ∃ p, all !! uval ph = Some p ∧ (p ∈ result ∨ p ∈ others).

Lemma pending_loop_closed fuel pending result r :
  NoDup result → closed_in result pending → pending_loop fuel pending result f fx all = Returns r →
  closed_in r [] ∧ (∀ p, p ∈ pending → p ∈ r) ∧ (∀ p, p ∈ result → p ∈ r).
Proof.
  revert pending result. induction fuel as [|fuel IH]; intros [|path pending] result Hnd Hcl; cbn [pending_loop];
    [by intros [= <-]; split_and!; [|by intros ? ?%elem_of_nil|]|done|by intros [= <-]; split_and!; [|by intros ? ?%elem_of_nil|]|].
  case_bool_decide as Hin.
  - intros Hrun. destruct (IH pending result Hnd) as (Hc & Hp & Hr); [|done|].
    + intros q Hq. destruct (Hcl q Hq) as (phs & Hphs & Hall). exists phs. split; [done|]. intros ph Hph.
      destruct (Hall ph Hph) as (p & Hp & Hor). exists p. split; [done|]. rewrite elem_of_cons in Hor. naive_solver.
    + split_and!; [done| |done]. intros p [->|?]%elem_of_cons; [by apply Hr|by apply Hp].
  - destruct (collect_all_references_by_path path (root f) fx) as [phandles|e|] eqn:Hc; [|done..]. cbn [mbind outcome_bind].
    destruct (paths_of (set_iter phandles) all) as [new|e|] eqn:Hn; [|done..]. cbn [mbind outcome_bind]. intros Hrun.
    destruct (reads_spec path new) as (_ & _ & phs & Hphs & Hall); [by exists phandles|].
    destruct (set_insert_spec result path Hnd) as [Hnd' Hmem].
    destruct (IH (pending ++ new) (set_insert result path) Hnd') as (Hc' & Hp & Hr); [|done|].
    + intros q [Hq| ->]%Hmem.
      * destruct (Hcl q Hq) as (phs' & Hphs' & Hall'). exists phs'. split; [done|]. intros ph Hph.
        destruct (Hall' ph Hph) as (p & Hp & Hor). exists p. split; [done|]. rewrite Hmem, elem_of_app, elem_of_cons in *. tauto.
      * exists phs. split; [done|]. intros ph Hph. destruct (Hall ph Hph) as (p & Hp & Hpn). exists p. split; [done|].
        right. apply elem_of_app. by right.
    + split_and!; [done|..].
      * intros p [->|?]%elem_of_cons; [apply Hr, Hmem; by right|apply Hp, elem_of_app; by left].
      * intros p ?. apply Hr, Hmem. by left.
Qed.

End pending.

(** The paths an overlay is filtered by are closed under references: every start
    path lies on or below a path of the result; the paths that were visited lie on
    or below the result too and the result is among them; and a phandle that a
    visited path refers to is the phandle of a node whose path was visited. *)
Theorem filtered_paths_closed `{SetOrder} start f :
  match collect_all_filtered_paths start f with
  | Returns ps =>
      (∀ s, s ∈ start → ∃ q, q ∈ ps ∧ is_child_of s q = true) ∧
      ∀ fx all, subnode LOCAL_FIXUPS_NODE (root f) = Some fx → get_all_phandles f = Returns all → start ≠ [] →
        ∃ visited : list (list u8), (∀ q, q ∈ ps → q ∈ visited) ∧
          (∀ p, p ∈ visited → ∃ q, q ∈ ps ∧ is_child_of p q = true) ∧
          ∀ p, p ∈ visited → ∃ phandles, collect_all_references_by_path p (root f) fx = Returns phandles ∧
            ∀ ph, ph ∈ phandles → ∃ q, all !! uval ph = Some q ∧ q ∈ visited
  | _ => True
  end.
Proof.
  unfold collect_all_filtered_paths. destruct start as [|s0 start]; [split; [by intros s ?%elem_of_nil|done]|].
  set (paths := s0 :: start). destruct (subnode LOCAL_FIXUPS_NODE (root f)) as [fx|] eqn:Hfx;
    [|split; [intros s; apply minimize_paths_covers|done]].
  destruct (get_all_phandles f) as [all|e|] eqn:Hall; [|done..]. cbn [mbind outcome_bind].
  destruct (pending_loop _ _ _ _ _ _) as [visited|e|] eqn:Hrun; [|done..]. cbn [mbind outcome_bind].
  destruct (pending_loop_closed f fx all [] _ _ _ _ ltac:(apply NoDup_nil; done) ltac:(by intros ? ?%elem_of_nil) Hrun) as (Hcl & Hp & _).
  assert (Hcov : ∀ p, p ∈ visited → ∃ q, q ∈ minimize_paths (set_iter visited) ∧ is_child_of p q = true).
  { intros p Hv. apply minimize_paths_covers. by rewrite set_iter_perm. }
  split.
  - intros s Hs. destruct (minimize_paths_covers paths s Hs) as (t & Ht & Hst). destruct (Hcov t (Hp t Ht)) as (q & Hq & Htq).
    exists q. split; [done|]. apply is_child_of_spec in Hst, Htq. apply is_child_of_spec. by etransitivity.
  - intros fx' all' [= <-] [= <-] _. exists visited. split_and!; [|done|].
    + intros q Hq. apply minimize_paths_subset in Hq. by rewrite set_iter_perm in Hq.
    + intros p Hv. destruct (Hcl p Hv) as (phs & Hphs & Hph). exists phs. split; [done|]. intros ph Hin.
      destruct (Hph ph Hin) as (q & Hq & [?|?%elem_of_nil]); [by exists q|done].
Qed.

(** ** Panics *)

Lemma refs_at_aborts key offs tree : refs_at key offs tree ≠ Aborts.
Proof.
  induction offs as [|o offs IH]; cbn [refs_at]; [done|].
  destruct (phandle_at_offset key o tree); cbn [ok_or_else mbind outcome_bind]; [|done]. by destruct (refs_at key offs tree).
Qed.

Lemma refs_from_props_aborts props tree :
  refs_from_props props tree = Aborts → ∃ key bs, (key, bs) ∈ props ∧ from_propval (T := list u32) bs = None.
Proof.
  induction props as [|[key bs] props IH]; cbn [refs_from_props]; [done|].
  destruct (from_propval bs) as [offs|] eqn:Ho; cbn [unwrap_or_abort mbind outcome_bind];
    [|intros _; exists key, bs; split; [by left|done]].
  destruct (refs_at key offs tree) as [r|e|] eqn:Hr; cbn [mbind outcome_bind]; [|done|by apply refs_at_aborts in Hr].
  destruct (refs_from_props props tree) as [r'|e|]; cbn [mbind outcome_bind]; [done|done|].
  intros _. destruct (IH eq_refl) as (k & b & Hin & Hb). exists k, b. split; [by right|done].
Qed.

(** A property of the tree of fixups that is not a list of offsets. *)
Definition bad_fixup (fx : FdtNode) : Prop :=
  ∃ names key bs, value_at names key fx = Some bs ∧ from_propval (T := list u32) bs = None.

Lemma collect_refs_aborts names tree fx refs : node_ok fx → collect_refs names tree fx refs = Aborts → bad_fixup fx.
Proof.
  revert tree fx refs. induction names as [|name names IH]; intros tree fx refs Hok; cbn [collect_refs]; [done|].
  destruct (subnode name tree) as [t|]; [|done]. cbn [ok_or_else mbind outcome_bind].
  destruct (subnode name fx) as [c|] eqn:Hc; [|done]. destruct (subnode_ok _ _ _ Hok Hc) as [Hcok _].
  assert (Hup : ∀ rest key, value_at (name :: rest) key fx = value_at rest key c) by (intros; by rewrite value_at_cons, Hc).
  destruct (refs_from_props (node_props c) t) as [new|e|] eqn:Hr; cbn [mbind outcome_bind]; [|done|].
  - intros Ha. destruct (IH _ _ _ Hcok Ha) as (rest & key & bs & Hv & Hb). exists (name :: rest), key, bs. by rewrite Hup.
  - intros _. destruct (refs_from_props_aborts _ _ Hr) as (key & bs & Hin & Hb). exists [name], key, bs. rewrite Hup.
    split; [|done]. unfold value_at. cbn. apply index_get_in; [|done]. by apply node_props_ok.
Qed.

(** The queue of the traversal: nodes with the paths that were built for them. *)
Definition queue_node (q : list u8 * FdtNode) : Prop :=
  (∃ names, Forall good_name names ∧ q.1 = path_str names) ∧ node_ok q.2.

Lemma push_children_total path subs :
  (∃ names, Forall good_name names ∧ path = path_str names) →
  Forall (λ p, node_name p.2 = p.1 ∧ node_ok p.2) subs →
  ∃ children, push_children path subs = Returns children ∧ Forall queue_node children ∧ queue_count children = queue_count subs.
Proof.
  intros (names & Hn & ->). induction 1 as [|[k c] subs [_ Hc] _ (children & Hrun & Hok & Hcount)]; cbn [push_children].
  { by exists []. }
  destruct (Path_push_valid names (node_name c) Hn) as (names' & Hn' & ->); [by apply node_ok_name|].
  cbn [mbind outcome_bind]. rewrite Hrun. cbn [mbind outcome_bind]. eexists. split_and!; [done| |].
  - constructor; [|done]. split; [by eauto|done].
  - by rewrite !queue_count_cons, Hcount.
Qed.

Lemma visit_nodes_total fuel queue :
  Forall queue_node queue → (queue_count queue <= fuel)%nat → ∃ nodes, visit_nodes fuel queue = Returns nodes.
Proof.
  revert queue. induction fuel as [|fuel IH]; intros [|[path n] queue] Hq Hfuel; [by exists []| |by exists []|].
  { rewrite queue_count_cons, node_count_subnodes in Hfuel. lia. }
  apply Forall_cons in Hq as [[Hp Hn] Hq]. cbn [fst snd] in *. cbn [visit_nodes].
  destruct (push_children_total path (node_subnodes n) Hp) as (children & -> & Hch & Hcount); [by apply node_subnodes_ok|].
  cbn [mbind outcome_bind]. destruct (IH (queue ++ children)) as [nodes ->]; [by apply Forall_app_2| |by eexists].
  rewrite queue_count_cons, node_count_subnodes in Hfuel. rewrite queue_count_app, Hcount. lia.
Qed.

Lemma get_all_phandles_total f : node_ok (root f) → ∃ all, get_all_phandles f = Returns all.
Proof.
  intros Hf. unfold get_all_phandles.
  destruct (visit_nodes_total (node_count (root f)) [(ROOT_NODE, root f)]) as [nodes ->]; [|cbn; lia|by eexists].
  constructor; [|constructor]. split; [by exists []|done].
Qed.

(** C35. Computing the paths to filter by ends, and without a panic unless the tree
    of fixups of the overlay has a property that is not a list of 32-bit offsets. *)
Theorem filter_panics_only_on_bad_fixups `{SetOrder} start f :
  node_ok (root f) → collect_all_filtered_paths start f = Aborts →
  ∃ fx, subnode LOCAL_FIXUPS_NODE (root f) = Some fx ∧ bad_fixup fx.
Proof.
  intros Hf. unfold collect_all_filtered_paths. destruct start as [|s0 start]; [done|]. set (paths := minimize_paths (s0 :: start)).
  destruct (subnode LOCAL_FIXUPS_NODE (root f)) as [fx|] eqn:Hfx; [|done].
  destruct (get_all_phandles_total f Hf) as [all ->]. cbn [mbind outcome_bind].
  destruct (pending_loop _ _ _ _ _ _) as [visited|e|] eqn:Hrun; cbn [mbind outcome_bind]; [done|done|]. intros _.
  assert (Hab : ∃ p, collect_all_references_by_path p (root f) fx = Aborts).
  { eapply (pending_loop_aborts f fx all paths); [| |exact Hrun].
    - split_and!; [by apply NoDup_nil|intros p Hp; apply elem_of_app; by left|by intros ? ?%elem_of_nil].
    - unfold steps_left, pending_fuel. rewrite universe_length. cbn [length]. rewrite Nat.sub_0_r. lia. }
  destruct Hab as [p Hp].
  exists fx. split; [done|]. eapply collect_refs_aborts; [|exact Hp]. by eapply subnode_ok.
Qed.

(** ** The filtered overlay *)

Lemma prefix_of_cons_iff (x y : list u8) (q names : list (list u8)) :
  (x :: q) `prefix_of` (y :: names) ↔ x = y ∧ q `prefix_of` names.
Proof.
  split; [intros Hp; split; [by eapply prefix_cons_inv_1|by eapply prefix_cons_inv_2]|].
  intros [-> Hp]. by apply prefix_cons.
Qed.

(** Grafting a path adds the nodes along it, with the properties of the source. *)
Record grafted (names : list (list u8)) (src tgt r : FdtNode) : Prop := {
  gr_ok : node_ok r;
  gr_name : node_name r = node_name tgt;
  gr_props : node_props r = node_props tgt;
  gr_nodes q : is_Some (follow q r) ↔ is_Some (follow q tgt) ∨ q `prefix_of` names;
  gr_on q key : q ≠ [] → q `prefix_of` names → value_at q key r = value_at q key src;
  gr_off q key : ¬ (q `prefix_of` names) → value_at q key r = value_at q key tgt
}.

Lemma graft_child name tgt :
  is_valid_node_name name = true →
  ∃ c, match subnode name tgt with
       | Some child => Returns child
       | None => match FdtNode_empty name with Returns n => Returns n | _ => Aborts end
       end = Returns (E := FdtError) c ∧ child_for name tgt = Some c.
Proof.
  intros Hv. unfold child_for. destruct (subnode name tgt) as [c|]; [by exists c|].
  unfold FdtNode_empty, FdtNode_new. rewrite Hv. by eexists.
Qed.

Lemma graft_spec names src tgt :
  node_ok src → node_ok tgt → is_Some (follow names src) → ∃ r, graft names src tgt = Returns r ∧ grafted names src tgt r.
Proof.
  revert src tgt. induction names as [|name names IH]; intros src tgt Hs Ht Hf; cbn [graft].
  { exists tgt. split; [done|]. constructor; [done|done|done| |by intros q key ? ?%prefix_nil_inv|done].
    intros q. split; [by left|]. intros [?|Hq%prefix_nil_inv]; [done|]. subst q. cbn. by eauto. }
  rewrite follow_cons in Hf. destruct (subnode name src) as [sc|] eqn:Hsc; [|by destruct Hf]. cbn in Hf.
  cbn [unwrap_or_abort mbind outcome_bind]. destruct (subnode_ok _ _ _ Hs Hsc) as [Hscok Hscn].
  destruct (graft_child name tgt) as (c & -> & Hc); [rewrite <-Hscn; by apply node_ok_name|]. cbn [mbind outcome_bind].
  destruct (child_for_ok _ _ _ Ht Hc) as [Hcok Hcn]. destruct (node_props_ok sc Hscok) as [Hnd Hp].
  destruct (IH sc (set_props (node_props sc) c) Hscok) as (d & -> & [Hdok Hdn Hdp Hdnodes Hdon Hdoff]);
    [by apply set_props_ok|done|]. cbn [mbind outcome_bind]. eexists. split; [done|].
  assert (Hsp : ∀ rest key, rest ≠ [] → value_at rest key (set_props (node_props sc) c) = value_at rest key c) by by intros [|? ?].
  constructor; [|done|done|..].
  - apply put_child_ok; [done|done|]. by rewrite Hdn.
  - intros [|nm rest]; [split; [intros _; right; apply prefix_nil|intros _; cbn; by eauto]|].
    rewrite !follow_cons, subnode_put, prefix_of_cons_iff. case_bool_decide as Hnm; [subst nm; cbn|naive_solver].
    rewrite Hdnodes. destruct rest as [|n2 rest].
    + split; [intros _; right; split; [done|apply prefix_nil]|intros _; right; apply prefix_nil].
    + change (follow (n2 :: rest) (set_props (node_props sc) c)) with (follow (n2 :: rest) c).
      unfold child_for in Hc. destruct (subnode name tgt) as [c'|]; [injection Hc as ->; cbn; tauto|].
      case_match; [|done]. injection Hc as <-. cbn. naive_solver.
  - intros [|nm rest] key Hq; [done|]. rewrite prefix_of_cons_iff. intros [-> Hpre].
    rewrite set_subnode_value, bool_decide_true by done. rewrite value_at_cons, Hsc. cbn.
    destruct rest as [|n2 rest]; [unfold value_at; cbn; by rewrite Hdp|]. by apply Hdon.
  - intros [|nm rest] key; [intros []; apply prefix_nil|]. rewrite prefix_of_cons_iff. intros Hpre.
    rewrite set_subnode_value. case_bool_decide as Hnm; [subst nm|done].
    rewrite (child_for_value _ _ _ _ _ Hc). destruct rest as [|n2 rest]; [destruct Hpre; split; [done|apply prefix_nil]|].
    rewrite Hdoff, Hsp by (done || naive_solver). done.
Qed.

(** A tree with the nodes along [paths] and the properties of [src]. *)
Record selected (paths : list (list u8)) (src r : FdtNode) : Prop := {
  se_ok : node_ok r;
  se_nodes q : is_Some (follow q r) ↔ q = [] ∨ ∃ p, p ∈ paths ∧ q `prefix_of` Path_iter p;
  se_values q key : q ≠ [] → is_Some (follow q r) → value_at q key r = value_at q key src
}.

Lemma selected_graft paths p src tgt r :
  selected paths src tgt → grafted (Path_iter p) src tgt r → selected (paths ++ [p]) src r.
Proof.
  intros [Hok Hn Hv] [Hrok _ _ Hrn Hon Hoff]. constructor; [done|..].
  - intros q. rewrite Hrn, Hn. setoid_rewrite elem_of_app. setoid_rewrite list_elem_of_singleton. naive_solver.
  - intros q key Hq Hs. destruct (decide (q `prefix_of` Path_iter p)) as [Hp|Hp]; [by apply Hon|].
    rewrite Hoff by done. apply Hv; [done|]. apply Hrn in Hs. naive_solver.
Qed.

Lemma graft_paths_spec paths done_ src tgt :
  node_ok src → selected done_ src tgt → Forall (λ p, is_Some (follow (Path_iter p) src)) paths →
  ∃ r, graft_paths paths src tgt = Returns r ∧ selected (done_ ++ paths) src r.
Proof.
  intros Hs Hsel Hp. revert done_ tgt Hsel. induction Hp as [|p paths Hp _ IH]; intros done_ tgt Hsel; cbn [graft_paths].
  { exists tgt. by rewrite app_nil_r. }
  destruct (graft_spec (Path_iter p) src tgt Hs (se_ok _ _ _ Hsel) Hp) as (t & -> & Hg). cbn [mbind outcome_bind].
  destruct (IH (done_ ++ [p]) t (selected_graft _ _ _ _ _ Hsel Hg)) as (r & Hr & Hsr). exists r. by rewrite <-app_assoc in Hsr.
Qed.

(** Filtering an overlay by paths of its nodes keeps exactly the nodes along
    these paths, with the properties they had; it never fails. *)
Theorem overlay_filter_selects paths f :
  node_ok (root f) → paths ≠ [] → Forall (λ p, is_Some (follow (Path_iter p) (root f))) paths →
  ∃ f', do_overlay_filter paths f = Returns f' ∧ node_ok (root f') ∧
    (∀ q, is_Some (follow q (root f')) ↔ q = [] ∨ ∃ p, p ∈ paths ∧ q `prefix_of` Path_iter p) ∧
    (∀ q key, q ≠ [] → is_Some (follow q (root f')) → value_at q key (root f') = value_at q key (root f)).
Proof.
  intros Hf Hne Hp. unfold do_overlay_filter. destruct paths as [|p0 paths]; [done|].
  assert (Hempty : selected [] (root f) (MkNode [] [] [])).
  { constructor.
    - constructor; [done|by apply NoDup_nil|done|by apply NoDup_nil|done|]. by intros ? ? ?%elem_of_nil.
    - intros [|nm q]; cbn; [split; [by left|by eauto]|]. split; [by intros [? ?]|]. by intros [?|(p & ?%elem_of_nil & _)].
    - intros [|nm q] key Hq; [done|]. by intros [? ?]. }
  destruct (graft_paths_spec (p0 :: paths) [] (root f) _ Hf Hempty Hp) as (r & Hr & [Hok Hn Hv]).
  exists (set_root r f). split_and!; [|done|done|done].
  change (FdtNode_empty []) with (Returns (E := FdtError) (MkNode [] [] [])). cbn iota. by rewrite Hr.
Qed.
