(* ===== verification/DeviceTreeExamples.v ===== *)
(** * Device trees: examples

    A base tree with one device, an overlay that adds another below it, and what
    the theorems say of them; and inputs on which the library does not do what it
    means to. *)

From stdpp Require Import sorting.
From S2P Require Import Prelude StdIo Checked DeviceTree DeviceTreeFacts DeviceTreeEdits Overlay OverlayFacts OverlayRefs OverlayApply OverlayFilter.

(** ** Trees *)

Abbreviation bs := bytes_of_string.

Definition tnode (name : string) (props : list (list u8 * list u8)) (subs : list FdtNode) : FdtNode :=
  MkNode (bs name) props (map (λ c, (node_name c, c)) subs).
Definition cell (name : string) (v : Z) : list u8 * list u8 := (bs name, u32_be (U32 v)).
Definition text (name value : string) : list u8 * list u8 := (bs name, bs value ++ [U8 0]).
Definition tree (resv : list FdtReserveEntry) (subs : list FdtNode) : Fdt :=
  MkFdt resv (tnode EmptyString [] subs) FdtStrings_default (U32 0).

Definition base_tree : Fdt := tree [MkReserve (U64 4096) (U64 4096)]
  [tnode "soc" [cell "phandle" 1] []; tnode "__symbols__" [text "soc" "/soc"] []].

Definition overlay_dev : FdtNode :=
  tnode "dev" [cell "phandle" 1; cell "peer" 2] [tnode "port" [cell "phandle" 2] []].
Definition overlay_fixups : FdtNode :=
  tnode "__local_fixups__" [] [tnode "fragment@0" [] [tnode "__overlay__" [] [tnode "dev" [cell "peer" 0] []]]].
Definition overlay_tree : Fdt := tree [MkReserve (U64 8192) (U64 16)]
  [tnode "fragment@0" [cell "target" 4294967295] [tnode "__overlay__" [] [overlay_dev]];
   tnode "__symbols__" [text "dev" "/fragment@0/__overlay__/dev"; text "port" "/fragment@0/__overlay__/dev/port"] [];
   tnode "__fixups__" [text "soc" "/fragment@0:target:0"] [];
   overlay_fixups].

(** An order of sets. *)
#[local] Instance list_order : SetOrder := {| set_iter A l := l; set_iter_perm A l := reflexivity l |}.

Definition named_path (l : list string) : list (list u8) := map bytes_of_string l.

(** The overlay is merged: the new nodes are below the device, their phandles and
    the reference between them have moved past the phandle of the base. *)
Example overlay_applied :
  let '(r, f) := apply_overlay overlay_tree [] base_tree in
  r = Returns () ∧
  map (λ l, phandle_of (named_path l) f) [["soc"]; ["soc"; "dev"]; ["soc"; "dev"; "port"]]%string =
    [Some (U32 1); Some (U32 2); Some (U32 3)] ∧
  value_at (named_path ["soc"; "dev"]%string) (bs "peer") (root f) = Some (u32_be (U32 3)) ∧
  value_at (named_path ["__symbols__"]%string) (bs "dev") (root f) = Some (bs "/soc/dev" ++ [U8 0]) ∧
  reserved_memory f = [MkReserve (U64 4096) (U64 4112)].
Proof. vm_compute. auto 10. Qed.

(** ** The trees are well formed *)

Ltac prove_node :=
  constructor;
  [vm_compute; reflexivity
  |apply (bool_decide_unpack _); vm_compute; exact I
  |repeat (constructor; [split_and!; [vm_compute; reflexivity|discriminate|vm_compute; reflexivity]|]); constructor
  |apply (bool_decide_unpack _); vm_compute; exact I
  |repeat (constructor; [reflexivity|]); constructor
  |let k := fresh in let n := fresh in let Hin := fresh in
   intros k n Hin; cbn [map node_name] in Hin;
   repeat (apply elem_of_cons in Hin as [[-> ->]%pair_equal_spec|Hin]; [prove_node|]);
   by apply elem_of_nil in Hin].

Lemma base_tree_ok : fdt_ok base_tree.
Proof. constructor; [prove_node|apply strings_default_ok|by repeat constructor]. Qed.

Lemma overlay_tree_ok : fdt_ok overlay_tree.
Proof. constructor; [prove_node|apply strings_default_ok|by repeat constructor]. Qed.

(** ** The theorems applied *)

Lemma fdt_roundtrip_witness : ∃ blob f', finish base_tree = (Returns blob, f') ∧
  ∃ g, Fdt_from_blob blob = Returns g ∧ root g = root base_tree.
Proof.
  pose proof (fdt_roundtrip base_tree base_tree_ok) as H.
  destruct (finish base_tree) as [[blob|e|] f'] eqn:Hf; [|by vm_compute in Hf|done].
  destruct H as (_ & _ & g & Hg & _ & Hr & _). exists blob, f'. split; [done|]. by exists g.
Defined.


Lemma overlay_node_merges_witness : ∃ b',
  overlay_node_pair overlay_dev (tnode "dev" [cell "rate" 7] []) = (Returns (), b') ∧
  value_at [] (bs "rate") b' = Some (u32_be (U32 7)) ∧ value_at [] (bs "peer") b' = Some (u32_be (U32 2)).
Proof.
  destruct (overlay_node_merges overlay_dev (tnode "dev" [cell "rate" 7] [])) as (b' & Hrun & _ & Hv & _);
    [prove_node|prove_node|]. exists b'. rewrite !Hv. done.
Defined.

Lemma apply_overlay_keeps_base_witness :
  let '(r, f) := apply_overlay overlay_tree [bs "dev"] base_tree in
  fdt_ok f ∧ is_Some (value_at (named_path ["soc"]%string) (bs "phandle") (root f)).
Proof.
  pose proof (apply_overlay_keeps_base base_tree overlay_tree [bs "dev"] base_tree_ok overlay_tree_ok) as H.
  destruct (apply_overlay overlay_tree [bs "dev"] base_tree) as [r f]. destruct H as (Hok & _ & _ & Hv & _).
  split; [done|]. apply Hv. by eexists.
Defined.

(** The only fixup of the overlay. *)
Definition dev_path : list (list u8) := named_path ["fragment@0"; "__overlay__"; "dev"]%string.

Lemma only_child name n c names m :
  node_subnodes n = [(name, c)] → follow names n = Some m →
  names = [] ∧ m = n ∨ ∃ rest, names = name :: rest ∧ follow rest c = Some m.
Proof.
  intros Hs. destruct names as [|x rest]; [intros [= <-]; by left|]. rewrite follow_cons. unfold subnode. rewrite Hs.
  cbn [index_get]. case_bool_decide as Hx; [|done]. subst x. cbn. intros Hf. right. by exists rest.
Qed.

Lemma overlay_fixups_nodes names m :
  follow names overlay_fixups = Some m →
  Forall (λ s, s ≠ []) names ∧ (node_props m ≠ [] → names = dev_path ∧ node_props m = [cell "peer" 0]).
Proof.
  intros Hf. do 3 (eapply only_child in Hf as [[-> ->]|(? & -> & Hf)];
    [split; [repeat (constructor; [discriminate|]); constructor|by intros []]| |reflexivity]).
  match type of Hf with follow ?r _ = _ => destruct r as [|? ?]; [|done] end. injection Hf as <-.
  split; [repeat (constructor; [discriminate|]); constructor|done].
Qed.

Lemma overlay_fixups_values names key b :
  value_at names key overlay_fixups = Some b → names = dev_path ∧ key = bs "peer" ∧ b = u32_be (U32 0).
Proof.
  unfold value_at. destruct (follow names overlay_fixups) as [m|] eqn:Hf; [|done]. cbn. intros Hg.
  destruct (overlay_fixups_nodes names m Hf) as [_ Hm]. destruct (node_props m) as [|p props] eqn:Hp; [done|].
  destruct Hm as [-> Hp']; [done|]. rewrite Hp' in Hg. cbn [index_get cell] in Hg. case_bool_decide; [|done].
  injection Hg as <-. done.
Qed.

Lemma overlay_fixups_listed names pin : listed overlay_fixups names pin → names = dev_path ∧ pin = MkPin (bs "peer") (U32 0).
Proof.
  intros (b & offs & Hv & Ho & Hin). apply overlay_fixups_values in Hv as (-> & Hk & ->). split; [done|].
  vm_compute in Ho. injection Ho as <-. apply list_elem_of_singleton in Hin. destruct pin as [k o]. cbn in *. by subst.
Qed.

Lemma overlay_fixups_ok : fixups_ok (U32 1) (root overlay_tree) overlay_fixups ∧ no_phandles overlay_fixups.
Proof.
  split; [constructor|].
  - vm_compute. reflexivity.
  - intros names m Hf. by apply (overlay_fixups_nodes names m).
  - intros names key b (_ & _ & ->)%overlay_fixups_values. by eexists.
  - intros names key b offs (_ & _ & ->)%overlay_fixups_values Ho. vm_compute in Ho. injection Ho as <-. by repeat constructor.
  - intros names key [b (-> & _ & _)%overlay_fixups_values]. by eexists.
  - intros names pin [-> ->]%overlay_fixups_listed. exists (U32 2). by split.
  - intros names key [b (_ & -> & _)%overlay_fixups_values]. done.
Qed.

Lemma local_refs_follow_witness : ∃ f1 f2 p, offset_phandle_values overlay_tree (U32 1) = Returns f1 ∧
  update_local_refs (U32 1) f1 = (Returns (), f2) ∧
  ref_at (dev_path, MkPin (bs "peer") (U32 0)) (root f2) = Some p ∧ phandle_of (dev_path ++ [bs "port"]) f2 = Some p.
Proof.
  destruct overlay_fixups_ok as [Hfx Hno].
  pose proof (local_refs_follow (U32 1) overlay_tree overlay_fixups (fo_root _ overlay_tree_ok) Hfx Hno) as H.
  destruct (offset_phandle_values overlay_tree (U32 1)) as [f1|e|] eqn:Hf1; [|by vm_compute in Hf1|done].
  destruct H as (f2 & Hrun & _ & Hrefs & _).
  destruct (Hrefs dev_path (MkPin (bs "peer") (U32 0)) (dev_path ++ [bs "port"]) (U32 2)) as (p & Hp & Hph & _);
    [|reflexivity|reflexivity|by exists f1, f2, p].
  exists (u32_be (U32 0)), [U32 0]. split_and!; [reflexivity|reflexivity|by left].
Defined.

Lemma overlay_filter_selects_witness : ∃ f',
  do_overlay_filter [bs "/fragment@0/__overlay__/dev"] overlay_tree = Returns f' ∧
  value_at dev_path (bs "peer") (root f') = Some (u32_be (U32 2)).
Proof.
  destruct (overlay_filter_selects [bs "/fragment@0/__overlay__/dev"] overlay_tree (fo_root _ overlay_tree_ok)) as (f' & Hf & _ & Hn & Hv);
    [done|constructor; [by eexists|constructor]|]. exists f'. split; [done|]. rewrite Hv; [reflexivity|done|].
  apply Hn. right. eexists. split; [by left|]. reflexivity.
Defined.

(** ** Overlays on which the library panics *)

(** A fixup that is not a list of 32-bit offsets. *)
Definition torn_overlay : Fdt := tree []
  [tnode "fragment@0" [text "target-path" "/soc"] [tnode "__overlay__" [] [overlay_dev]];
   tnode "__symbols__" [text "dev" "/fragment@0/__overlay__/dev"] [];
   tnode "__local_fixups__" [] [tnode "fragment@0" [] [tnode "__overlay__" [] [tnode "dev" [(bs "peer", [U8 0])] []]]]].

Lemma torn_overlay_ok : fdt_ok torn_overlay.
Proof. constructor; [prove_node|apply strings_default_ok|by repeat constructor]. Qed.

Lemma filter_panics_only_on_bad_fixups_witness :
  (apply_overlay torn_overlay [bs "dev"] base_tree).1 = Aborts ∧
  ∃ fx, subnode LOCAL_FIXUPS_NODE (root torn_overlay) = Some fx ∧ bad_fixup fx.
Proof.
  split; [vm_compute; reflexivity|].
  apply (filter_panics_only_on_bad_fixups [bs "/fragment@0/__overlay__/dev"]); [apply torn_overlay_ok|].
  vm_compute. reflexivity.
Defined.

(** A symbol whose node is missing. *)
Example missing_symbol_panics :
  (apply_overlay (tree [] [tnode "fragment@0" [text "target-path" "/soc"] [tnode "__overlay__" [] []];
     tnode "__symbols__" [text "dev" "/fragment@0/__overlay__/dev"] []]) [bs "dev"] base_tree).1 = Aborts.
Proof. vm_compute. reflexivity. Qed.

(** ** Where the library loses something *)

(** Two symbols are chosen and one is the child of the other: the symbol of the
    child is added to the base and its node is not. *)
Example chosen_child_lost :
  let '(r, f) := apply_overlay overlay_tree [bs "dev"; bs "port"] base_tree in
  r = Returns () ∧
  value_at (named_path ["__symbols__"]%string) (bs "port") (root f) = Some (bs "/soc/dev/port" ++ [U8 0]) ∧
  follow (named_path ["soc"; "dev"; "port"]%string) (root f) = None.
Proof. vm_compute. auto. Qed.

(** Two symbols of the base name one node: the fixups of the first are lost. *)
Definition alias_base : Fdt := tree []
  [tnode "soc" [cell "phandle" 1] []; tnode "__symbols__" [text "bus" "/soc"; text "soc" "/soc"] []].
Definition alias_overlay : Fdt := tree []
  [tnode "fragment@0" [text "target-path" "/soc"]
     [tnode "__overlay__" [] [tnode "dev" [cell "a" 4294967295; cell "b" 4294967295] []]];
   tnode "__fixups__" [text "bus" "/fragment@0/__overlay__/dev:a:0"; text "soc" "/fragment@0/__overlay__/dev:b:0"] []].
Example alias_fixup_lost :
  let '(r, f) := apply_overlay alias_overlay [] alias_base in
  r = Returns () ∧
  value_at (named_path ["soc"; "dev"]%string) (bs "a") (root f) = Some (u32_be (U32 4294967295)) ∧
  value_at (named_path ["soc"; "dev"]%string) (bs "b") (root f) = Some (u32_be (U32 1)).
Proof. vm_compute. auto. Qed.

(** What a reader of the blob of a tree gets. *)
Definition reread (f : Fdt) : outcome FdtError Fdt :=
  match finish f with (Returns blob, _) => Fdt_from_blob blob | (Throws e, _) => Throws e | (Aborts, _) => Aborts end.

(** An empty reserved region at address 0 ends the list of the regions. *)
Example zero_region_ends_list :
  match reread (tree [MkReserve (U64 0) (U64 0); MkReserve (U64 4096) (U64 4096)] []) with
  | Returns g => reserved_memory g = []
  | _ => False
  end.
Proof. vm_compute. reflexivity. Qed.

(** A property with an empty name is accepted, and makes a blob that is not. *)
Example empty_name_refused :
  let '(r, n) := set_prop [] (U32 1) (tnode EmptyString [] []) in
  r = Returns () ∧ reread (MkFdt [] n FdtStrings_default (U32 0)) = Throws FdtParseError.
Proof. vm_compute. auto. Qed.

(** An empty string ends a list of strings. *)
Example empty_string_ends_list :
  ∃ b, to_propval [str_lit "a"; str_lit EmptyString; str_lit "b"] = Returns b ∧ from_propval b = Some [str_lit "a"].
Proof. eexists. split; [vm_compute; reflexivity|vm_compute; reflexivity]. Qed.
