(* ===== verification/DiskFile.v ===== *)
(** * Disk images: files of the host and the trait [DiskFile]

    The model of [base/src/file_traits.rs], [base/src/sys/unix/file_traits.rs]
    and of the traits of [disk/src/disk.rs].  The files of the host are reached
    through system calls: [HostFiles] is the class of the calls, [HostLaws] what
    POSIX says of them.  Files that are opened twice share their contents, so the
    contents belong to the host and a [File] only names its inode.

    A disk is an object with state of its own on top of the host.  [DiskFile]
    is the class of its operations and [DiskLaws] the contract that every disk
    format keeps: a disk is a partial function from offsets to bytes, reads
    return a prefix of the bytes asked for, writes replace a prefix.  The loops
    [read_exact_at_volatile] and [write_all_at_volatile] are proved against the
    contract only. *)

From S2P Require Import Prelude StdIo Checked.

(** ** The host *)

(** [File]: an open file. *)
Record File := mkFile { f_inode : Z; f_writable : bool }.

#[global] Instance File_eq_dec : EqDecision File.
Proof. solve_decision. Defined.

(** The contents of the regular files, by inode. *)
Abbreviation store := (gmap Z (list u8)).

(** [io::Error::kind] on Linux, as far as it matters here. *)
Definition error_kind (e : io_error) : ErrorKind :=
  match e with
  | OsError errno => if errno =? 4 then Interrupted else OtherKind
  | KindError kind => kind
  end.

(** The byte at an offset of a file. *)
Definition byte_at (data : list u8) (j : Z) : option u8 :=
  if 0 <=? j then data !! Z.to_nat j else None.

(** The contents of a file after [bs] is written at [off]; a write past the end
    fills the gap with zeros. *)
Definition overwrite (data : list u8) (off : Z) (bs : list u8) : list u8 :=
  takeZ off data ++ replicate (Z.to_nat (off - lengthZ data)) (U8 0) ++ bs
    ++ dropZ (off + lengthZ bs) data.

(** [x as off_t]. *)
Definition as_off_t (x : u64) : Z := if x <? 2 ^ 63 then uval x else x - 2 ^ 64.

(** The system calls.  [signals] bounds how many more calls a signal can
    interrupt; [faults] counts the calls that failed for another reason and the
    writes that moved no byte. *)
Class HostFiles (K : Type) := {
  contents : K → store;
  signals : K → nat;
  faults : K → nat;
  pread : File → u64 → Z → prog K io_error (list u8);
  pwrite : File → list u8 → Z → prog K io_error u64;
  lseek : File → Z → prog K io_error ();
  lseek_end : File → prog K io_error u64;
  ftruncate : File → u64 → prog K io_error ()
}.

(** An error of an operation: being interrupted uses up a signal, and otherwise a
    call of the host failed, or [φ] is the reason. *)
Definition fails_unless {K} `{HostFiles K} (φ : Prop) (e : io_error) (k k' : K) : Prop :=
  (error_kind e = Interrupted → (signals k' < signals k)%nat ∧ faults k' = faults k) ∧
  (error_kind e ≠ Interrupted → (faults k < faults k')%nat ∨ φ).
Definition fails {K} `{HostFiles K} (e : io_error) (k k' : K) : Prop := fails_unless False e k k'.

Class HostLaws (K : Type) `{HostFiles K} : Prop := {
  pread_law f n off k r k' :
    pread f n off k = (r, k') →
    contents k' = contents k ∧ (signals k' ≤ signals k)%nat ∧
    match r with
    | Returns bs =>
        0 <= off ∧ lengthZ bs <= n ∧ faults k' = faults k ∧
        ∃ data, contents k !! f_inode f = Some data ∧ bs `prefix_of` dropZ off data ∧
          (0 < n → off < lengthZ data → bs ≠ [])
    | Throws e => fails e k k'
    | Aborts => False
    end;
  pwrite_law f bs off k r k' :
    pwrite f bs off k = (r, k') →
    (signals k' ≤ signals k)%nat ∧
    match r with
    | Returns m =>
        0 <= off ∧ m <= lengthZ bs ∧ f_writable f = true ∧
        (0 < m → faults k' = faults k) ∧ (uval m = 0 → bs ≠ [] → (faults k < faults k')%nat) ∧
        ∃ data, contents k !! f_inode f = Some data ∧
          contents k' = <[f_inode f := overwrite data off (takeZ m bs)]> (contents k)
    | Throws e => contents k' = contents k ∧ fails e k k'
    | Aborts => False
    end;
  lseek_law f pos k r k' :
    lseek f pos k = (r, k') →
    contents k' = contents k ∧ (signals k' ≤ signals k)%nat ∧
    match r with
    | Returns _ => 0 <= pos < 2 ^ 63 ∧ faults k' = faults k
    | Throws e => (faults k < faults k')%nat
    | Aborts => False
    end;
  file_size_law k i data : contents k !! i = Some data → lengthZ data < 2 ^ 63;
  lseek_end_law f k r k' :
    lseek_end f k = (r, k') →
    contents k' = contents k ∧ (signals k' ≤ signals k)%nat ∧
    match r with
    | Returns len =>
        faults k' = faults k ∧ ∃ data, contents k !! f_inode f = Some data ∧ uval len = lengthZ data
    | Throws e => (faults k < faults k')%nat
    | Aborts => False
    end
}.

(** ** The trait *)

(** [DiskFile]: the operations of a disk.  A read into a slice of [n] bytes gives
    the bytes it stored at the start of the slice, a write takes the bytes of the
    slice. *)
Class DiskFile (K D : Type) := {
  get_len : prog (K * D) io_error u64;
  set_len : u64 → prog (K * D) io_error ();
  read_at_volatile : u64 → u64 → prog (K * D) io_error (list u8);
  write_at_volatile : list u8 → u64 → prog (K * D) io_error u64
}.

(** A call to the host. *)
Definition on_host {K D E A} (m : prog K E A) : prog (K * D) E A :=
  zoom fst (λ k s, (k, s.2)) m.

(** [impl DiskFile for File]. *)
Section file.
Context {K : Type} `{HostFiles K}.

Definition File_get_len : prog (K * File) io_error u64 :=
  '(_, f) ← get_state; on_host (lseek_end f).
Definition File_set_len (len : u64) : prog (K * File) io_error () :=
  '(_, f) ← get_state; on_host (ftruncate f len).
Definition File_read_at_volatile (size offset : u64) : prog (K * File) io_error (list u8) :=
  '(_, f) ← get_state; on_host (pread f size (as_off_t offset)).
Definition File_write_at_volatile (slice : list u8) (offset : u64) : prog (K * File) io_error u64 :=
  '(_, f) ← get_state; on_host (pwrite f slice (as_off_t offset)).

#[global] Instance File_DiskFile : DiskFile K File := {|
  get_len := File_get_len;
  set_len := File_set_len;
  read_at_volatile := File_read_at_volatile;
  write_at_volatile := File_write_at_volatile
|}.
End file.

(** ** Whole transfers *)

Section transfers.
Context {K D : Type} `{HostFiles K} `{DiskFile K D}.

(** [read_exact_at_volatile] and [write_all_at_volatile].  A round of the loop
    takes one unit of fuel; [None] is a loop that is still running. *)
Fixpoint read_exact_at_volatile (fuel : nat) (size offset : u64)
    : prog (K * D) io_error (option (list u8)) :=
  if size <=? 0 then mret (Some []) else
  match fuel with
  | O => mret None
  | S fuel =>
      r ← catch (read_at_volatile size offset);
      match r with
      | inl [] => throw (KindError UnexpectedEof)
      | inl bs =>
          rest ← checked (if lengthZ bs <=? size then Some (U64 (size - lengthZ bs)) else None);
          next ← checked (add_checked offset (U64 (lengthZ bs)));
          tl ← read_exact_at_volatile fuel rest next;
          mret (app bs <$> tl)
      | inr e =>
          if decide (error_kind e = Interrupted) then read_exact_at_volatile fuel size offset
          else throw e
      end
  end.

Fixpoint write_all_at_volatile (fuel : nat) (slice : list u8) (offset : u64)
    : prog (K * D) io_error (option ()) :=
  match slice with
  | [] => mret (Some ())
  | _ =>
      match fuel with
      | O => mret None
      | S fuel =>
          r ← catch (write_at_volatile slice offset);
          match r with
          | inl n =>
              if uval n =? 0 then throw (KindError WriteZero) else
              rest ← checked (if n <=? lengthZ slice then Some (dropZ n slice) else None);
              next ← checked (add_checked offset n);
              write_all_at_volatile fuel rest next
          | inr e =>
              if decide (error_kind e = Interrupted) then write_all_at_volatile fuel slice offset
              else throw e
          end
      end
  end.

(** The default methods [read_vectored_at_volatile] and
    [write_vectored_at_volatile]. *)
Definition read_vectored_at_volatile (bufs : list u64) (offset : u64)
    : prog (K * D) io_error (list u8) :=
  match bufs with
  | slice :: _ => read_at_volatile slice offset
  | [] => mret []
  end.
Definition write_vectored_at_volatile (bufs : list (list u8)) (offset : u64)
    : prog (K * D) io_error u64 :=
  match bufs with
  | slice :: _ => write_at_volatile slice offset
  | [] => mret (U64 0)
  end.
End transfers.

(** ** Sequential access

    The position of an open file; [stream_position], [seek] and
    [Read::read_exact] of a [File]. *)

(** [r.map_err(f)]. *)
Definition map_err {S E E' A} (f : E → E') (m : prog S E A) : prog S E' A := λ s,
  match m s with
  | (Returns a, s') => (Returns a, s')
  | (Throws e, s') => (Throws (f e), s')
  | (Aborts, s') => (Aborts, s')
  end.

Section cursor.
Context {K : Type} `{HostFiles K} (f : File).

Definition seek_start (pos : Z) : prog (K * u64) io_error u64 :=
  on_host (lseek f pos);;
  '(k, _) ← get_state; put_state (k, U64 pos);; mret (U64 pos).
Definition seek_current (delta : Z) : prog (K * u64) io_error u64 :=
  '(_, pos) ← get_state; seek_start (uval pos + delta).
Definition stream_position : prog (K * u64) io_error u64 := seek_current 0.

(** The loop of the standard library is the loop above; as many rounds as there
    are bytes and signals are enough for it. *)
Definition file_read_exact (size : u64) : prog (K * u64) io_error (list u8) :=
  '(k, pos) ← get_state;
  r ← zoom (λ s, (s.1, f)) (λ t s, (t.1, s.2))
        (read_exact_at_volatile (Z.to_nat size + signals k) size pos);
  bs ← checked r;
  '(k, _) ← get_state; put_state (k, U64 (uval pos + size));; mret bs.
End cursor.

(** ** The contract *)

(** What a disk shows: its bytes as a function of the host's files, the inodes
    they come from and those a write can change; [disk_rw d j] if the part of the
    disk at [j] is of a format that can be written. *)
Class DiskView (D : Type) := {
  disk_ok : D → Prop;
  disk_rw : D → Z → Prop;
  disk_byte : store → D → Z → option u8;
  disk_inodes : D → gset Z;
  disk_winodes : D → gset Z
}.

(** [bs] are the bytes of the disk at [off]. *)
Definition shows {D} `{DiskView D} (σ : store) (d : D) (off : Z) (bs : list u8) : Prop :=
  ∀ i b, bs !! i = Some b → disk_byte σ d (off + Z.of_nat i) = Some b.

(** Every byte outside the [m] bytes at [off] is what it was. *)
Definition spared {D} `{DiskView D} (σ σ' : store) (d d' : D) (off m : Z) : Prop :=
  ∀ j b, ¬ (off <= j < off + m) → disk_byte σ d j = Some b → disk_byte σ' d' j = Some b.

(** What a disk shows depends on its files only. *)
Class ViewLaws (D : Type) `{DiskView D} : Prop := {
  winodes_inodes (d : D) : disk_winodes d ⊆ disk_inodes d;
  byte_frame (σ σ' : store) (d : D) j :
    (∀ i, i ∈ disk_inodes d → σ !! i = σ' !! i) → disk_byte σ d j = disk_byte σ' d j
}.

Class DiskLaws (K D : Type) `{HostFiles K} `{DiskFile K D} `{DiskView D} : Prop := {
  disk_ViewLaws :: ViewLaws D;
  read_law (n off : u64) k d r k' (d' : D) :
    disk_ok d → off + n < 2 ^ 64 →
    read_at_volatile n off (k, d) = (r, (k', d')) →
    contents k' = contents k ∧ (signals k' ≤ signals k)%nat ∧ d' = d ∧
    match r with
    | Returns bs =>
        lengthZ bs <= n ∧ shows (contents k) d off bs ∧ faults k' = faults k ∧
        (0 < n → is_Some (disk_byte (contents k) d off) → bs ≠ [])
    | Throws e => fails_unless (disk_byte (contents k) d off = None) e k k'
    | Aborts => disk_byte (contents k) d off = None
    end;
  write_law bs (off : u64) k d r k' (d' : D) :
    disk_ok d → off + lengthZ bs < 2 ^ 64 →
    write_at_volatile bs off (k, d) = (r, (k', d')) →
    disk_ok d' ∧ (signals k' ≤ signals k)%nat ∧
    disk_inodes d' = disk_inodes d ∧ disk_winodes d' = disk_winodes d ∧
    (∀ j, disk_rw d' j ↔ disk_rw d j) ∧
    (∀ i, i ∉ disk_winodes d → contents k' !! i = contents k !! i) ∧
    match r with
    | Returns m =>
        m <= lengthZ bs ∧ shows (contents k') d' off (takeZ m bs) ∧
        spared (contents k) (contents k') d d' off m ∧
        (0 < m → faults k' = faults k) ∧
        (uval m = 0 → bs ≠ [] → disk_byte (contents k) d off ≠ None → (faults k < faults k')%nat)
    | Throws e =>
        contents k' = contents k ∧ d' = d ∧
        fails_unless (disk_byte (contents k) d off = None ∨ ¬ disk_rw d off) e k k'
    | Aborts => contents k' = contents k ∧ d' = d ∧ disk_byte (contents k) d off = None
    end
}.

(** A file shows its contents. *)
#[global] Instance File_DiskView : DiskView File := {|
  disk_ok _ := True;
  disk_rw _ _ := True;
  disk_byte σ f j := σ !! f_inode f ≫= λ data, byte_at data j;
  disk_inodes f := {[ f_inode f ]};
  disk_winodes f := if f_writable f then {[ f_inode f ]} else ∅
|}.
