(* ===== verification/DiskFacts.v ===== *)
(** * Facts about disks

    [File] keeps the contract of [DiskFile], and a transfer of [n] bytes through
    any disk that keeps it moves exactly these bytes: the loops terminate, give
    the bytes the disk shows, and a write changes nothing else. *)

From S2P Require Import Prelude StdIo Checked DiskFile.

(** ** Bytes at offsets *)

Lemma byte_at_lookup data (i : nat) : byte_at data (Z.of_nat i) = data !! i.
Proof. unfold byte_at. destruct (Z.leb_spec 0 (Z.of_nat i)); [|lia]. by rewrite Nat2Z.id. Qed.

Lemma byte_at_Some data j b :
  byte_at data j = Some b ↔ 0 <= j ∧ data !! Z.to_nat j = Some b.
Proof. unfold byte_at. destruct (Z.leb_spec 0 j); split; naive_solver lia. Qed.

Lemma byte_at_is_Some data j : is_Some (byte_at data j) ↔ 0 <= j < lengthZ data.
Proof.
  unfold byte_at, lengthZ. destruct (Z.leb_spec 0 j); [rewrite lookup_lt_is_Some|]; split;
    try lia. intros []%is_Some_None.
Qed.

Lemma byte_at_app_l data data' j :
  j < lengthZ data → byte_at (data ++ data') j = byte_at data j.
Proof. unfold byte_at, lengthZ. intros ?. case_match; [|done]. zbool. rewrite lookup_app_l; [done|lia]. Qed.

Lemma byte_at_app_r data data' j :
  lengthZ data <= j → byte_at (data ++ data') j = byte_at data' (j - lengthZ data).
Proof.
  pose proof (lengthZ_nonneg data). unfold byte_at, lengthZ in *. intros ?.
  destruct (Z.leb_spec 0 j), (Z.leb_spec 0 (j - Z.of_nat (length data))); try lia.
  rewrite lookup_app_r by lia. f_equal. lia.
Qed.

Lemma byte_at_dropZ data off j :
  0 <= off → 0 <= j → byte_at (dropZ off data) j = byte_at data (off + j).
Proof.
  intros ??. unfold byte_at. destruct (Z.leb_spec 0 j), (Z.leb_spec 0 (off + j)); try lia.
  rewrite dropZ_drop, lookup_drop. f_equal. lia.
Qed.

Lemma byte_at_takeZ data n j : j < n → byte_at (takeZ n data) j = byte_at data j.
Proof.
  intros ?. unfold byte_at. case_match; [|done]. zbool. rewrite takeZ_take.
  by rewrite lookup_take_lt by lia.
Qed.

Lemma byte_at_replicate n x j : 0 <= j < Z.of_nat n → byte_at (replicate n x) j = Some x.
Proof.
  intros ?. unfold byte_at. case_match; zbool; [|lia]. apply lookup_replicate_2. lia.
Qed.

Lemma byte_at_None_neg data j : j < 0 → byte_at data j = None.
Proof. intros ?. unfold byte_at. case_match; [|done]. zbool. lia. Qed.

(** The bytes of an overwritten file. *)
Lemma byte_at_overwrite_in data off bs j :
  0 <= off → off <= j < off + lengthZ bs → byte_at (overwrite data off bs) j = byte_at bs (j - off).
Proof.
  intros ? Hj. pose proof (lengthZ_nonneg data). unfold overwrite. rewrite app_assoc, byte_at_app_r.
  - rewrite byte_at_app_l; [f_equal|]; rewrite lengthZ_app, lengthZ_takeZ by done;
      unfold lengthZ in *; rewrite length_replicate; lia.
  - rewrite lengthZ_app, lengthZ_takeZ by done. unfold lengthZ in *. rewrite length_replicate. lia.
Qed.

Lemma byte_at_overwrite_out data off bs j b :
  0 <= off → ¬ (off <= j < off + lengthZ bs) →
  byte_at data j = Some b → byte_at (overwrite data off bs) j = Some b.
Proof.
  intros ? Hj Hb. assert (0 <= j < lengthZ data) as Hd by (apply byte_at_is_Some; eauto).
  pose proof (lengthZ_nonneg bs). unfold overwrite. destruct (Z.lt_ge_cases j off).
  - rewrite byte_at_app_l by (rewrite lengthZ_takeZ by done; lia). by rewrite byte_at_takeZ.
  - assert (Z.to_nat (off - lengthZ data) = O) as -> by lia. cbn [replicate app].
    rewrite byte_at_app_r; rewrite lengthZ_takeZ by done; [|lia].
    rewrite byte_at_app_r by lia. rewrite byte_at_dropZ by lia. rewrite <- Hb. f_equal. lia.
Qed.

Lemma as_off_t_nonneg x : 0 <= as_off_t x → as_off_t x = uval x.
Proof.
  unfold as_off_t. pose proof (uint_range x). cbn [Z.of_N] in *. case_match; [done|]. lia.
Qed.

(** ** Files keep the contract *)

#[global] Instance File_ViewLaws : ViewLaws File.
Proof.
  split.
  - intros f. cbn. destruct (f_writable f); set_solver.
  - intros σ σ' f j Hf. cbn. by rewrite (Hf (f_inode f)) by set_solver.
Qed.

(** A weaker reason. *)
Lemma fails_weaken {K} `{HostFiles K} (φ ψ : Prop) e (k k' : K) :
  fails_unless φ e k k' → (φ → ψ) → fails_unless ψ e k k'.
Proof. intros [Hi Hn] Hφ. split; [done|]. intros He. destruct (Hn He); auto. Qed.

Lemma fails_any {K} `{HostFiles K} (φ : Prop) e (k k' : K) : fails e k k' → fails_unless φ e k k'.
Proof. intros Hf. by eapply fails_weaken. Qed.

Lemma fails_because {K} `{HostFiles K} (φ : Prop) e (k : K) :
  φ → error_kind e ≠ Interrupted → fails_unless φ e k k.
Proof. intros ??. split; [done|auto]. Qed.

Section file_laws.
Context {K : Type} `{HostLaws K}.

Lemma file_read_run n off k f :
  read_at_volatile (D := File) n off (k, f) =
  let '(r, k') := pread f n (as_off_t off) k in (r, (k', f)).
Proof. done. Qed.
Lemma file_write_run bs off k f :
  write_at_volatile (D := File) bs off (k, f) =
  let '(r, k') := pwrite f bs (as_off_t off) k in (r, (k', f)).
Proof. done. Qed.

Lemma shows_prefix σ f data off bs :
  0 <= off → σ !! f_inode f = Some data → bs `prefix_of` dropZ off data → shows σ f off bs.
Proof.
  intros Hoff Hd Hpre i b Hb. cbn. rewrite Hd. cbn.
  rewrite <- byte_at_dropZ, byte_at_lookup by lia. eapply prefix_lookup_Some; eauto.
Qed.

#[global] Instance File_DiskLaws : DiskLaws K File.
Proof.
  split.
  - apply _.
  - intros n off k f r k' f' _ Hn Hr. rewrite file_read_run in Hr.
    destruct (pread f n _ k) as [r0 k0] eqn:E. injection Hr as -> -> ->.
    destruct (pread_law _ _ _ _ _ _ E) as (Hc & Hs & Hr). do 3 (split; [done|]).
    destruct r as [bs|e|]; [|by apply fails_any|done].
    destruct Hr as (Hoff & Hl & Hnf & data & Hd & Hpre & Hne).
    rewrite as_off_t_nonneg in Hpre, Hne, Hoff by done. split; [done|].
    split; [by eapply shows_prefix|]. split; [done|]. intros Hpos [b Hb]. apply Hne; [done|].
    cbn in Hb. rewrite Hd in Hb. cbn in Hb. apply byte_at_is_Some. eauto.
  - intros bs off k f r k' f' _ Hn Hr. rewrite file_write_run in Hr.
    destruct (pwrite f bs _ k) as [r0 k0] eqn:E. injection Hr as -> -> ->.
    destruct (pwrite_law _ _ _ _ _ _ E) as (Hs & Hr). split; [done|]. split; [done|].
    do 3 (split; [done|]). destruct r as [m|e|];
      [|destruct Hr as [-> ?]; split_and!; [done..|by apply fails_any]|done].
    destruct Hr as (Hoff & Hm & Hw & Hnf & Hzero & data & Hd & Hc). rewrite as_off_t_nonneg in Hc, Hoff by done.
    pose proof (uint_range m) as Hmr. cbn. rewrite Hw, Hc. split_and!; [|done| | |done|intros; by apply Hzero].
    + intros i Hi. rewrite lookup_insert_ne; [done|set_solver].
    + intros i b Hb. cbn. rewrite lookup_insert_eq. cbn. pose proof (lookup_lt_Some _ _ _ Hb).
      rewrite byte_at_overwrite_in by (unfold lengthZ; lia).
      replace (off + Z.of_nat i - off) with (Z.of_nat i) by lia. by rewrite byte_at_lookup.
    + intros j b Hj Hb. cbn in *. rewrite Hd in Hb. rewrite lookup_insert_eq. cbn in *.
      apply byte_at_overwrite_out; [done| |done]. rewrite lengthZ_takeZ; lia.
Qed.
End file_laws.

(** ** Transfers through a disk that keeps the contract *)

Section transfer_facts.
Context {K D : Type} `{DiskLaws K D}.
Implicit Types (d : D) (k : K) (σ : store).

Lemma shows_app σ d off bs bs' :
  shows σ d off (bs ++ bs') ↔ shows σ d off bs ∧ shows σ d (off + lengthZ bs) bs'.
Proof.
  unfold shows, lengthZ. split.
  - intros Hs. split; intros i b Hb; [apply Hs; by apply lookup_app_l_Some|].
    rewrite <- Z.add_assoc, <- Nat2Z.inj_add. apply Hs. rewrite lookup_app_r by lia.
    rewrite <- Hb. f_equal. lia.
  - intros [Hfst Hsnd] i b [Hb|[Hl Hb]]%lookup_app_Some; [by apply Hfst|].
    rewrite <- (Hsnd _ _ Hb). f_equal. lia.
Qed.

Lemma shows_nil σ d off : shows σ d off [].
Proof. intros i b Hb. by rewrite lookup_nil in Hb. Qed.

(** The bytes of a range, all there. *)
Definition readable σ d (off n : Z) : Prop :=
  ∀ j, off <= j < off + n → is_Some (disk_byte σ d j).

Lemma readable_sub σ d off n off' n' :
  readable σ d off n → off <= off' → off' + n' <= off + n → readable σ d off' n'.
Proof. intros Hr ?? j ?. apply Hr. lia. Qed.

Lemma read_exact_spec fuel : ∀ (size off : u64) k d r s',
  disk_ok d → off + size < 2 ^ 64 → readable (contents k) d off size →
  (Z.to_nat size + signals k ≤ fuel)%nat →
  read_exact_at_volatile fuel size off (k, d) = (r, s') →
  contents s'.1 = contents k ∧ s'.2 = d ∧
  match r with
  | Returns (Some bs) => lengthZ bs = size ∧ shows (contents k) d off bs ∧ faults s'.1 = faults k
  | Returns None | Aborts => False
  | Throws e => error_kind e ≠ Interrupted ∧ (faults k < faults s'.1)%nat
  end.
Proof.
  induction fuel as [|fuel IH]; intros size off k d r s' Hok Hlt Hrd Hfuel; cbn [read_exact_at_volatile];
    pose proof (uint_range size) as Hsz; pose proof (uint_range off) as Hoff;
    cbn [Z.of_N] in Hsz, Hoff.
  all: destruct (Z.leb_spec size 0) as [Hz|Hz];
    [intros [= <- <-]; split_and!; [done|done|rewrite lengthZ_nil; lia|apply shows_nil|done]|].
  { lia. }
  unfold mbind at 1, prog_bind at 1, catch.
  destruct (read_at_volatile size off (k, d)) as [o [k1 d1]] eqn:E.
  destruct (read_law _ _ _ _ _ _ _ Hok Hlt E) as (Hc & Hs & -> & Ho).
  destruct o as [bs|e|].
  - destruct Ho as (Hl & Hsh & Hnf & Hne). destruct bs as [|b bs].
    { exfalso. apply Hne; [lia| |done]. apply Hrd. lia. }
    set (bs' := b :: bs) in *. assert (0 < lengthZ bs') as Hpos by (unfold bs', lengthZ; cbn; lia).
    clearbody bs'. destruct (Z.leb_spec (lengthZ bs') size); [|lia].
    assert (uval (U64 (size - lengthZ bs')) = size - lengthZ bs') as Hrest
      by (apply uval_to_uint_small; cbn [Z.of_N]; lia).
    assert (uval (U64 (lengthZ bs')) = lengthZ bs') as Hn
      by (apply uval_to_uint_small; cbn [Z.of_N]; lia).
    destruct (add_checked off (U64 (lengthZ bs'))) as [next|] eqn:Hnext;
      [|apply add_checked_None in Hnext; cbn [Z.of_N] in Hnext; lia].
    apply add_checked_Some in Hnext. run_prog.
    destruct (read_exact_at_volatile fuel _ next (k1, d)) as [o' s2] eqn:E2.
    apply IH in E2; [|done|lia|rewrite Hc; eapply readable_sub; [done|lia|lia]|lia].
    rewrite Hc in E2. destruct E2 as (Hc2 & Hd2 & Ho2). intros Heq.
    rewrite Hnf in Ho2. destruct o' as [[tl|]|e|]; cbn in Heq; inversion Heq; subst; [|done..].
    destruct Ho2 as (Hl2 & Hsh2 & Hnf2). split_and!; [done..|rewrite lengthZ_app; lia| |done].
    rewrite Hnext, Hn in Hsh2. by apply shows_app.
  - destruct Ho as [Hi Hn]. case_decide as Hint.
    + destruct (Hi Hint) as [Hsig Hnf]. intros E2.
      apply IH in E2; [by rewrite Hc, Hnf in E2|done|done|by rewrite Hc|lia].
    + intros [= <- <-]. split_and!; [done..|]. destruct (Hn Hint) as [|Hb]; [done|].
      destruct (Hrd off) as [? ?]; [lia|]. congruence.
  - destruct (Hrd off) as [? Hb]; [lia|]. congruence.
Qed.

(** Every byte of a range is in a part that can be written. *)
Definition rw_range d (off n : Z) : Prop := ∀ j, off <= j < off + n → disk_rw d j.

(** What a write of [bs] at [off] that moved [m] bytes leaves. *)
Definition written k k' d d' (off : Z) (bs : list u8) (m : Z) : Prop :=
  0 <= m <= lengthZ bs ∧ shows (contents k') d' off (takeZ m bs) ∧
  spared (contents k) (contents k') d d' off m ∧
  disk_ok d' ∧ disk_inodes d' = disk_inodes d ∧ disk_winodes d' = disk_winodes d ∧
  (∀ i, i ∉ disk_winodes d → contents k' !! i = contents k !! i).

Lemma written_0 k k' d off bs :
  disk_ok d → contents k' = contents k → written k k' d d off bs 0.
Proof.
  intros ? Hc. pose proof (lengthZ_nonneg bs). unfold written. rewrite Hc.
  split_and!; [lia|lia| |by intros ????|done..].
  intros i b Hb. assert (takeZ 0 bs = []) as E by (by destruct bs). rewrite E in Hb. done.
Qed.

Lemma written_step k k1 k2 d d1 d2 off bs m m' :
  written k k1 d d1 off bs m → written k1 k2 d1 d2 (off + m) (dropZ m bs) m' →
  written k k2 d d2 off bs (m + m').
Proof.
  intros (Hm & Hs & Hp & Hok & Hi & Hw & Hf) (Hm' & Hs' & Hp' & Hok' & Hi' & Hw' & Hf').
  rewrite lengthZ_dropZ in Hm' by lia. unfold written. split_and!; [lia|lia| | |done|congruence|congruence|].
  - assert (takeZ (m + m') bs = takeZ m bs ++ takeZ m' (dropZ m bs)) as ->.
    { rewrite !takeZ_take, dropZ_drop, Z2Nat.inj_add by lia. by rewrite take_take_drop. }
    apply shows_app. rewrite lengthZ_takeZ by lia.
    replace (Z.min m (lengthZ bs)) with m by lia. split; [|done].
    intros i b Hb. apply Hp'; [|by apply Hs]. pose proof (lookup_lt_Some _ _ _ Hb) as Hlt.
    rewrite takeZ_take, length_take in Hlt. lia.
  - intros j b Hj Hb. apply Hp'; [lia|]. apply Hp; [lia|done].
  - intros i Hin. rewrite Hf' by (by rewrite Hw). by apply Hf.
Qed.

Lemma written_readable k k' d d' off bs m o n :
  written k k' d d' off bs m → readable (contents k) d o n → readable (contents k') d' o n.
Proof.
  intros (Hm & Hs & Hp & _) Hr j Hj. destruct (decide (off <= j < off + m)) as [Hin|Hout].
  - destruct (lookup_lt_is_Some_2 (takeZ m bs) (Z.to_nat (j - off))) as [b Hb].
    { rewrite takeZ_take, length_take. unfold lengthZ in Hm. lia. }
    exists b. rewrite <- (Hs _ _ Hb). f_equal. lia.
  - destruct (Hr j Hj) as [b Hb]. exists b. by apply Hp.
Qed.

Lemma write_at_written bs (off : u64) k d m s' :
  disk_ok d → off + lengthZ bs < 2 ^ 64 →
  write_at_volatile bs off (k, d) = (Returns m, s') → written k s'.1 d s'.2 off bs m.
Proof.
  intros Hok Hlt E. destruct s' as [k' d'].
  destruct (write_law _ _ _ _ _ _ _ Hok Hlt E) as (Hok' & Hs & Hi & Hw & Hrw & Hf & Hm & Hsh & Hsp & _).
  pose proof (uint_range m). split_and!; done || lia.
Qed.

Lemma write_all_spec fuel : ∀ bs (off : u64) k d r s',
  disk_ok d → off + lengthZ bs < 2 ^ 64 → readable (contents k) d off (lengthZ bs) →
  (length bs + signals k ≤ fuel)%nat →
  write_all_at_volatile fuel bs off (k, d) = (r, s') →
  ∃ m, written k s'.1 d s'.2 off bs m ∧
  match r with
  | Returns (Some _) => m = lengthZ bs ∧ faults s'.1 = faults k
  | Returns None | Aborts => False
  | Throws e =>
      error_kind e ≠ Interrupted ∧ (rw_range d off (lengthZ bs) → (faults k < faults s'.1)%nat)
  end.
Proof.
  induction fuel as [|fuel IH]; intros bs off k d r s' Hok Hlt Hrd Hfuel; cbn [write_all_at_volatile];
    (destruct bs as [|b0 bs0];
      [intros [= <- <-]; exists 0; split; [by apply written_0|done]|]).
  { cbn in Hfuel. lia. }
  set (bs := b0 :: bs0) in *. assert (0 < lengthZ bs) as Hpos by (unfold bs, lengthZ; cbn; lia).
  assert (Z.of_nat (length bs) = lengthZ bs) as Hlen by done. clearbody bs.
  unfold mbind at 1, prog_bind at 1, catch.
  destruct (write_at_volatile bs off (k, d)) as [o [k1 d1]] eqn:E.
  pose proof (write_law _ _ _ _ _ _ _ Hok Hlt E) as (Hok1 & Hs & Hi & Hw & Hrw & Hf & Ho).
  destruct o as [m|e|].
  - pose proof (write_at_written _ _ _ _ _ _ Hok Hlt E) as Hwr. cbn in Hwr.
    pose proof (uint_range m) as Hmr. destruct Ho as (Hm & _ & _ & Hnf & Hzero).
    destruct (Z.eqb_spec m 0) as [Hz|Hz].
    { intros [= <- <-]. exists m. split_and!; [done..|]. intros _. apply Hzero; [done| |].
      - by intros ->.
      - apply not_eq_None_Some, Hrd. lia. }
    rewrite <- Hnf by lia.
    destruct (Z.leb_spec m (lengthZ bs)); [|lia].
    destruct (add_checked off m) as [next|] eqn:Hnext;
      [|apply add_checked_None in Hnext; cbn [Z.of_N] in Hnext; lia].
    apply add_checked_Some in Hnext. run_prog. intros E2.
    assert (lengthZ (dropZ m bs) = lengthZ bs - m) as Hdl by (rewrite lengthZ_dropZ; lia).
    apply IH in E2; [|done|lia| |unfold lengthZ in Hdl; lia].
    + destruct E2 as (m' & Hwr' & Hr). exists (m + m'). rewrite Hnext in Hwr'.
      split; [by eapply written_step|]. destruct r as [[]|e|]; [split; [lia|apply Hr]|done| |done].
      destruct Hr as [He Hr]. split; [done|]. intros Hrange. apply Hr. intros j Hj. apply Hrw, Hrange. lia.
    + eapply written_readable; [done|]. eapply readable_sub; [done|lia|lia].
  - destruct Ho as (Hc & -> & Hint' & Hfail). case_decide as Hint.
    + destruct (Hint' Hint) as [Hsig Hnf].
      intros E2. apply IH in E2; [|done|done|by rewrite Hc|lia]. rewrite Hnf in E2.
      destruct E2 as (m & Hwr & Hr). exists m. split; [|done]. unfold written in *. by rewrite Hc in Hwr.
    + intros [= <- <-]. exists 0. split; [by apply written_0|]. split; [done|]. intros Hrange.
      destruct (Hfail Hint) as [|[Hb|Hb]]; [done| |].
      * destruct (Hrd off) as [? ?]; [lia|]. congruence.
      * destruct Hb. apply Hrange. lia.
  - destruct Ho as (_ & _ & Hb). destruct (Hrd off) as [? ?]; [lia|]. congruence.
Qed.
End transfer_facts.

(** The bytes of a disk whose contents are an image. *)
Lemma shown_exactly {D} `{DiskView D} σ (d : D) image pos n bs :
  (∀ j, disk_byte σ d j = byte_at image j) → 0 <= pos → lengthZ bs = n → shows σ d pos bs →
  bs = takeZ n (dropZ pos image).
Proof.
  intros Hd Hpos Hl Hsh. apply list_eq_same_length with (length bs); [|done|].
  - unfold lengthZ in *. rewrite takeZ_take, dropZ_drop, length_take, length_drop.
    assert (length bs = Z.to_nat n) as Hl' by lia. rewrite Hl'.
    destruct (decide (Z.to_nat n = O)) as [->|Hne]; [done|].
    destruct (lookup_lt_is_Some_2 bs (Z.to_nat n - 1)) as [b Hb]; [lia|].
    apply Hsh in Hb. rewrite Hd in Hb.
    assert (is_Some (byte_at image (pos + Z.of_nat (Z.to_nat n - 1)))) as Hs by eauto.
    apply byte_at_is_Some in Hs. unfold lengthZ in Hs. lia.
  - intros i x y Hi Hx Hy. apply Hsh in Hx. rewrite Hd in Hx.
    rewrite takeZ_take, lookup_take_lt, dropZ_drop, lookup_drop in Hy by (unfold lengthZ in *; lia).
    apply byte_at_Some in Hx as [_ Hx]. rewrite Z2Nat.inj_add, Nat2Z.id in Hx by lia. congruence.
Qed.

(** ** Sequential access

    [wp m Q X s]: from [s], [m] does not abort; it ends with a value and a state
    that satisfy [Q], or with an error and a state that satisfy [X]. *)

Definition wp {S E A} (m : prog S E A) (Q : A → S → Prop) (X : E → S → Prop) (s : S) : Prop :=
  match m s with
  | (Returns a, s') => Q a s'
  | (Throws e, s') => X e s'
  | (Aborts, _) => False
  end.

Section wp.
Context {S E : Type}.

Lemma wp_ret {A} (a : A) (Q : A → S → Prop) (X : E → S → Prop) s : Q a s → wp (mret a) Q X s.
Proof. done. Qed.
Lemma wp_throw {A} (e : E) (Q : A → S → Prop) X s : X e s → wp (throw e) Q X s.
Proof. done. Qed.
Lemma wp_bind {A B} (m : prog S E A) (f : A → prog S E B) Q X s :
  wp m (λ a, wp (f a) Q X) X s → wp (m ≫= f) Q X s.
Proof. unfold wp at 1 3, mbind, prog_bind. by destruct (m s) as [[] ?]. Qed.
Lemma wp_get (Q : S → S → Prop) (X : E → S → Prop) s : Q s s → wp get_state Q X s.
Proof. done. Qed.
Lemma wp_put (Q : () → S → Prop) (X : E → S → Prop) s s' : Q () s' → wp (put_state s') Q X s.
Proof. done. Qed.
Lemma wp_checked {A} (o : option A) (Q : A → S → Prop) (X : E → S → Prop) s :
  (∃ a, o = Some a ∧ Q a s) → wp (checked o) Q X s.
Proof. by intros (a & -> & ?). Qed.
Lemma wp_ok_or_throw {A} (o : option A) (e : E) (Q : A → S → Prop) X s :
  (∃ a, o = Some a ∧ Q a s) → wp (ok_or_throw o e) Q X s.
Proof. by intros (a & -> & ?). Qed.
Lemma wp_give_outcome {A} (a : A) (o : outcome E A) (Q : A → S → Prop) X s :
  o = Returns a → Q a s → wp (give_outcome o) Q X s.
Proof. by intros ->. Qed.
Lemma wp_map_err {E' A} (g : E' → E) (m : prog S E' A) Q X s :
  wp m Q (λ e, X (g e)) s → wp (map_err g m) Q X s.
Proof. unfold wp, map_err. by destruct (m s) as [[] ?]. Qed.
Lemma wp_mono {A} (m : prog S E A) (Q Q' : A → S → Prop) (X X' : E → S → Prop) s :
  wp m Q X s → (∀ a s', Q a s' → Q' a s') → (∀ e s', X e s' → X' e s') → wp m Q' X' s.
Proof. unfold wp. destruct (m s) as [[] ?]; eauto. Qed.
End wp.

Section cursor_facts.
Context {K : Type} `{HostLaws K} (f : File).

(** The host's files are [σ], and [n] of its calls have failed. *)
Definition calm (σ : store) (n : nat) (k : K) : Prop := contents k = σ ∧ faults k = n.
Definition host_at (σ : store) (n : nat) (s : K * u64) : Prop := calm σ n s.1.

(** What an error leaves: the files are unchanged and a call has failed. *)
Definition unchanged {E} (σ : store) (n : nat) (_ : E) (s : K * u64) : Prop :=
  contents s.1 = σ ∧ (n < faults s.1)%nat.

(** The cursor is at [pos]. *)
Definition cursor_at (σ : store) (n : nat) (pos : Z) (s : K * u64) : Prop :=
  host_at σ n s ∧ uval s.2 = pos.

Lemma wp_seek_start σ nf pos s (Q : u64 → K * u64 → Prop) :
  host_at σ nf s →
  (∀ p s', cursor_at σ nf pos s' → uval p = pos → Q p s') →
  wp (seek_start f pos) Q (unchanged σ nf) s.
Proof.
  intros [Hc Hn] HQ. destruct s as [k p]. unfold wp, seek_start, on_host, zoom. run_prog. cbn [fst snd].
  destruct (lseek f pos k) as [r k'] eqn:E. destruct (lseek_law _ _ _ _ _ E) as (Hc' & _ & Hr).
  cbn in Hc, Hn. destruct r; [|split; cbn; congruence || lia|done]. destruct Hr as [Hr Hnf].
  assert (uval (U64 pos) = pos) by (apply uval_to_uint_small; cbn [Z.of_N]; lia).
  apply HQ; [split; [split|]; cbn; congruence|done].
Qed.

Lemma wp_seek_current σ nf pos delta s (Q : u64 → K * u64 → Prop) :
  cursor_at σ nf pos s →
  (∀ p s', cursor_at σ nf (pos + delta) s' → uval p = pos + delta → Q p s') →
  wp (seek_current f delta) Q (unchanged σ nf) s.
Proof.
  intros [Hc Hp] HQ. unfold seek_current. apply wp_bind, wp_get. destruct s as [k p]. cbn in Hp.
  rewrite Hp. by apply wp_seek_start.
Qed.

Lemma wp_read_exact σ nf data pos (n : u64) s (Q : list u8 → K * u64 → Prop) :
  cursor_at σ nf pos s → σ !! f_inode f = Some data → pos + n <= lengthZ data →
  (∀ s', cursor_at σ nf (pos + n) s' → Q (takeZ n (dropZ pos data)) s') →
  wp (file_read_exact f n) Q (unchanged σ nf) s.
Proof.
  intros [[Hc Hnf] Hp] Hd Hfit HQ. destruct s as [k p]. cbn in Hc, Hnf, Hp. subst σ nf pos.
  pose proof (uint_range p) as Hpr. pose proof (uint_range n) as Hnr. pose proof (file_size_law _ _ _ Hd).
  unfold file_read_exact. apply wp_bind, wp_get. cbn beta iota. apply wp_bind.
  unfold wp at 1, zoom. cbn [fst snd].
  destruct (read_exact_at_volatile _ n p (k, f)) as [r s'] eqn:E.
  apply read_exact_spec in E as (Hc' & Hf & Hr); [|done|lia| |done].
  2: { intros j Hj. cbn. rewrite Hd. cbn. apply byte_at_is_Some. lia. }
  destruct r as [[bs|]|e|]; [|done|by split; [|apply Hr]|done].
  destruct Hr as (Hl & Hsh & Hnf). apply wp_bind, wp_checked. exists bs. split; [done|].
  apply wp_bind, wp_get. cbn beta iota. apply wp_bind, wp_put, wp_ret.
  rewrite (shown_exactly (contents k) f data p n bs); [|intros j; cbn; by rewrite Hd|lia|done|done].
  apply HQ. split; [done|]. cbn. apply uval_to_uint_small. cbn [Z.of_N]. lia.
Qed.
End cursor_facts.
