(* ===== verification/SparseImage.v ===== *)
(** * Android sparse images

    The model of [disk/src/android_sparse.rs]: the parser of the format and the
    disk that shows the expanded image.  The chunks are kept by the offset they
    expand to, in the order of the offsets ([BTreeMap<u64, ChunkWithSize>]). *)

From S2P Require Import Prelude StdIo Checked DiskFile.

(** ** The format *)

Definition SPARSE_HEADER_MAGIC : Z := 0xed26ff3a.
Definition MAJOR_VERSION : Z := 1.

Record SparseHeader := {
  sh_magic : u32;
  sh_major_version : u16;
  sh_minor_version : u16;
  sh_file_hdr_sz : u16;
  sh_chunk_hdr_size : u16;
  sh_blk_sz : u32;
  sh_total_blks : u32;
  sh_total_chunks : u32;
  sh_image_checksum : u32
}.

Definition CHUNK_TYPE_RAW : Z := 0xCAC1.
Definition CHUNK_TYPE_FILL : Z := 0xCAC2.
Definition CHUNK_TYPE_DONT_CARE : Z := 0xCAC3.
Definition CHUNK_TYPE_CRC32 : Z := 0xCAC4.

Record ChunkHeader := {
  ch_chunk_type : u16;
  ch_reserved1 : u16;
  ch_chunk_sz : u32;
  ch_total_sz : u32
}.

(** [size_of::<SparseHeader>()], [size_of::<ChunkHeader>()]. *)
Definition SPARSE_HEADER_SIZE : Z := 28.
Definition HEADER_SIZE : Z := 12.

(** [as_bytes_mut()]: the structure in a buffer. *)
Definition SparseHeader_from_bytes (bs : list u8) : SparseHeader := {|
  sh_magic := U32 (le_field bs 0 4);
  sh_major_version := U16 (le_field bs 4 2);
  sh_minor_version := U16 (le_field bs 6 2);
  sh_file_hdr_sz := U16 (le_field bs 8 2);
  sh_chunk_hdr_size := U16 (le_field bs 10 2);
  sh_blk_sz := U32 (le_field bs 12 4);
  sh_total_blks := U32 (le_field bs 16 4);
  sh_total_chunks := U32 (le_field bs 20 4);
  sh_image_checksum := U32 (le_field bs 24 4)
|}.
Definition ChunkHeader_from_bytes (bs : list u8) : ChunkHeader := {|
  ch_chunk_type := U16 (le_field bs 0 2);
  ch_reserved1 := U16 (le_field bs 2 2);
  ch_chunk_sz := U32 (le_field bs 4 4);
  ch_total_sz := U32 (le_field bs 8 4)
|}.

(** ** The disk *)

Inductive Chunk :=
| Raw (file_offset : u64)
| Fill (fill_bytes : list u8)
| DontCare.

#[global] Instance Chunk_eq_dec : EqDecision Chunk.
Proof. solve_decision. Defined.

Record ChunkWithSize := { chunk : Chunk; expanded_size : u64 }.

Abbreviation chunk_map := (list (u64 * ChunkWithSize)).

Record AndroidSparse := {
  as_file : File;
  as_total_size : u64;
  as_chunks : chunk_map
}.

Module Sparse.
Inductive Error :=
| InvalidMagicHeader
| InvalidSpecification
| ReadSpecificationError (e : io_error).
End Sparse.

(** [BTreeMap::insert]: the map and the value the key had. *)
Fixpoint chunks_insert (key : u64) (c : ChunkWithSize) (m : chunk_map)
    : option ChunkWithSize * chunk_map :=
  match m with
  | [] => (None, [(key, c)])
  | (key', c') :: m' =>
      if key <? key' then (None, (key, c) :: m)
      else if uval key =? uval key' then (Some c', (key, c) :: m')
      else let '(old, m'') := chunks_insert key c m' in (old, (key', c') :: m'')
  end.

(** [chunks.range(..=offset).next_back()]. *)
Fixpoint last_chunk (offset : u64) (m : chunk_map) : option (u64 * ChunkWithSize) :=
  match m with
  | [] => None
  | (key, c) :: m' =>
      if key <=? offset then
        match last_chunk offset m' with Some found => Some found | None => Some (key, c) end
      else None
  end.

(** [fill_bytes.iter().cloned().cycle().skip(skip).take(n).collect()]. *)
Definition cycle_from (fill_bytes : list u8) (skip : Z) (n : nat) : list u8 :=
  (λ i, nth (Z.to_nat ((skip + Z.of_nat i) mod lengthZ fill_bytes)) fill_bytes (U8 0)) <$> seq 0 n.

Section sparse.
Context {K : Type} `{HostFiles K}.

(** *** Parsing *)

(** The [match] on the type of a chunk; [None] is a chunk that is passed over. *)
Definition chunk_of_type (input : File) (ty : Z) (current_offset chunk_body_size : u64)
    : prog (K * u64) Sparse.Error (option Chunk) :=
  if ty =? CHUNK_TYPE_RAW then
    map_err Sparse.ReadSpecificationError (seek_current input (uval chunk_body_size));;
    start ← checked (add_checked current_offset (U64 HEADER_SIZE));
    mret (Some (Raw start))
  else if ty =? CHUNK_TYPE_FILL then
    if negb (uval chunk_body_size =? 4) then throw Sparse.InvalidSpecification else
    fill_bytes ← map_err Sparse.ReadSpecificationError (file_read_exact input (U64 4));
    mret (Some (Fill fill_bytes))
  else if ty =? CHUNK_TYPE_DONT_CARE then mret (Some DontCare)
  else if ty =? CHUNK_TYPE_CRC32 then mret None
  else throw Sparse.InvalidSpecification.

Definition parse_chunk (input : File) (blk_sz : u64)
    : prog (K * u64) Sparse.Error (option ChunkWithSize) :=
  current_offset ← map_err Sparse.ReadSpecificationError (stream_position input);
  header ← map_err Sparse.ReadSpecificationError (file_read_exact input (U64 HEADER_SIZE));
  let chunk_header := ChunkHeader_from_bytes header in
  chunk_body_size ←
    ok_or_throw (sub_checked (U64 (ch_total_sz chunk_header)) (U64 HEADER_SIZE))
      Sparse.InvalidSpecification;
  chunk ← chunk_of_type input (ch_chunk_type chunk_header) current_offset chunk_body_size;
  mret ((λ chunk, {| chunk := chunk;
                     expanded_size := U64 (uval (ch_chunk_sz chunk_header) * blk_sz) |}) <$> chunk).

(** [(0..n).filter_map(|_| parse_chunk(..).transpose()).collect()]. *)
Fixpoint parse_chunks (input : File) (blk_sz : u64) (n : nat)
    : prog (K * u64) Sparse.Error (list ChunkWithSize) :=
  match n with
  | O => mret []
  | S n =>
      c ← parse_chunk input blk_sz;
      rest ← parse_chunks input blk_sz n;
      mret (match c with Some c => c :: rest | None => rest end)
  end.

(** The loop of [from_parts]. *)
Fixpoint place_chunks (chunks : list ChunkWithSize) (expanded_location : u64) (m : chunk_map)
    : outcome Sparse.Error chunk_map :=
  match chunks with
  | [] => mret m
  | c :: chunks =>
      let '(old, m') := chunks_insert expanded_location c m in
      match old with
      | Some _ => Throws Sparse.InvalidSpecification
      | None =>
          next ← unwrap_or_abort (add_checked expanded_location (expanded_size c));
          place_chunks chunks next m'
      end
  end.

(** [map(|x| x.1.expanded_size).sum()]. *)
Fixpoint sum_sizes (m : chunk_map) (acc : u64) : option u64 :=
  match m with
  | [] => Some acc
  | (_, c) :: m => acc ← add_checked acc (expanded_size c); sum_sizes m acc
  end.

Definition from_parts (file : File) (size : u64) (chunks : list ChunkWithSize)
    : outcome Sparse.Error AndroidSparse :=
  chunks_map ← place_chunks chunks (U64 0) [];
  calculated_len ← unwrap_or_abort (sum_sizes chunks_map (U64 0));
  if negb (uval calculated_len =? uval size) then Throws Sparse.InvalidSpecification
  else Returns {| as_file := file; as_total_size := size; as_chunks := chunks_map |}.

Definition from_file (file : File) : prog (K * u64) Sparse.Error AndroidSparse :=
  map_err Sparse.ReadSpecificationError (seek_start file 0);;
  bytes ← map_err Sparse.ReadSpecificationError (file_read_exact file (U64 SPARSE_HEADER_SIZE));
  let sparse_header := SparseHeader_from_bytes bytes in
  if negb (uval (sh_magic sparse_header) =? SPARSE_HEADER_MAGIC) then
    throw Sparse.InvalidSpecification
  else if negb (uval (sh_major_version sparse_header) =? MAJOR_VERSION) then
    throw Sparse.InvalidSpecification
  else if negb (uval (sh_chunk_hdr_size sparse_header) =? HEADER_SIZE) then
    throw Sparse.InvalidSpecification
  else
  let block_size := U64 (sh_blk_sz sparse_header) in
  chunks ← parse_chunks file block_size (Z.to_nat (sh_total_chunks sparse_header));
  let total_size := U64 (uval (sh_total_blks sparse_header) * uval (sh_blk_sz sparse_header)) in
  give_outcome (from_parts file total_size chunks).

(** *** Reading *)

Definition AndroidSparse_get_len : prog (K * AndroidSparse) io_error u64 :=
  '(_, d) ← get_state; mret (as_total_size d).
Definition AndroidSparse_set_len (_ : u64) : prog (K * AndroidSparse) io_error () :=
  throw (KindError PermissionDenied).

(** The part of the slice that lies in the chunk; [sub_slice] fails when the part
    is not in the slice. *)
Definition in_chunk (size chunk_size chunk_offset : u64) : outcome io_error u64 :=
  last ← unwrap_or_abort (add_checked chunk_offset size);
  if (chunk_size : Z) <? uval last then
    n ← unwrap_or_abort (sub_checked chunk_size chunk_offset);
    if uval n <=? size then Returns n else Throws (KindError InvalidData)
  else Returns size.

Definition AndroidSparse_read_at_volatile (size offset : u64)
    : prog (K * AndroidSparse) io_error (list u8) :=
  '(_, d) ← get_state;
  '(chunk_start, c) ← ok_or_throw (last_chunk offset (as_chunks d)) (KindError UnexpectedEof);
  chunk_offset ← checked (sub_checked offset chunk_start);
  let chunk_size := expanded_size c in
  subslice ← give_outcome (in_chunk size chunk_size chunk_offset);
  match chunk c with
  | DontCare => mret (replicate (Z.to_nat subslice) (U8 0))
  | Raw file_offset =>
      pos ← checked (add_checked file_offset chunk_offset);
      zoom (λ s, (s.1, as_file d)) (λ t s, (t.1, s.2)) (read_at_volatile (D := File) subslice pos)
  | Fill fill_bytes =>
      let chunk_offset_mod := uval chunk_offset mod lengthZ fill_bytes in
      mret (cycle_from fill_bytes chunk_offset_mod (Z.to_nat subslice))
  end.

Definition AndroidSparse_write_at_volatile (_ : list u8) (_ : u64)
    : prog (K * AndroidSparse) io_error u64 :=
  throw (KindError PermissionDenied).

#[global] Instance AndroidSparse_DiskFile : DiskFile K AndroidSparse := {|
  get_len := AndroidSparse_get_len;
  set_len := AndroidSparse_set_len;
  read_at_volatile := AndroidSparse_read_at_volatile;
  write_at_volatile := AndroidSparse_write_at_volatile
|}.
End sparse.

(** ** What an image shows *)

(** The byte at an offset of a chunk. *)
Definition chunk_byte (data : list u8) (c : Chunk) (j : Z) : option u8 :=
  match c with
  | Raw file_offset => byte_at data (file_offset + j)
  | Fill fill_bytes => fill_bytes !! Z.to_nat (j mod 4)
  | DontCare => Some (U8 0)
  end.

(** The byte at an offset of the expanded image: the chunks one after another. *)
Fixpoint expanded_byte (data : list u8) (cs : list ChunkWithSize) (j : Z) : option u8 :=
  match cs with
  | [] => None
  | c :: cs =>
      if j <? expanded_size c then chunk_byte data (chunk c) j
      else expanded_byte data cs (j - expanded_size c)
  end.

(** Every chunk lies where the chunks before it end. *)
Fixpoint chunks_at (start : Z) (m : chunk_map) : Prop :=
  match m with
  | [] => True
  | (key, c) :: m => uval key = start ∧ chunks_at (start + expanded_size c) m
  end.

Definition chunk_ok (c : ChunkWithSize) : Prop :=
  match chunk c with Fill fill_bytes => length fill_bytes = 4%nat | _ => True end.

Fixpoint size_of_chunks (cs : list ChunkWithSize) : Z :=
  match cs with [] => 0 | c :: cs => expanded_size c + size_of_chunks cs end.

#[global] Instance AndroidSparse_DiskView : DiskView AndroidSparse := {|
  disk_ok d :=
    chunks_at 0 (as_chunks d) ∧ Forall chunk_ok (as_chunks d).*2 ∧
    size_of_chunks (as_chunks d).*2 = as_total_size d;
  disk_rw _ _ := False;
  disk_byte σ d j :=
    if 0 <=? j then
      expanded_byte (default [] (σ !! f_inode (as_file d))) (as_chunks d).*2 j
    else None;
  disk_inodes d := {[ f_inode (as_file d) ]};
  disk_winodes _ := ∅
|}.
