(* ===== verification/SparseFacts.v ===== *)
(** * Facts about sparse images

    A disk made of an Android sparse image keeps the contract of [DiskFile]:
    what it shows is the expanded image. *)

From S2P Require Import Prelude StdIo Checked DiskFile DiskFacts SparseImage.

(** ** The chunk of an offset *)

Lemma chunks_at_app start pre post :
  chunks_at start (pre ++ post) ↔
  chunks_at start pre ∧ chunks_at (start + size_of_chunks pre.*2) post.
Proof.
  revert start. induction pre as [|[key c] pre IH]; intros start; cbn.
  - rewrite Z.add_0_r. tauto.
  - rewrite IH, Z.add_assoc. tauto.
Qed.

Lemma size_of_chunks_nonneg cs : 0 <= size_of_chunks cs.
Proof. induction cs as [|c cs IH]; cbn; [lia|]. pose proof (uint_range (expanded_size c)). lia. Qed.

Lemma last_chunk_spec m : ∀ start (off : u64),
  chunks_at start m → start <= off →
  match last_chunk off m with
  | None => m = []
  | Some (key, c) => ∃ pre post, m = pre ++ (key, c) :: post ∧ uval key = start + size_of_chunks pre.*2 ∧
      key <= off ∧ (post ≠ [] → off < key + expanded_size c)
  end.
Proof.
  induction m as [|[key c] m IH]; intros start off Hat Hoff; [done|]. cbn [last_chunk].
  destruct Hat as [Hkey Hat]. destruct (Z.leb_spec key off); [|lia].
  pose proof (uint_range (expanded_size c)).
  destruct (Z.le_gt_cases (start + expanded_size c) off) as [Hin|Hout].
  - specialize (IH _ _ Hat Hin). destruct (last_chunk off m) as [[key' c']|].
    + destruct IH as (pre & post & -> & Hk & Hle & Hpost).
      exists ((key, c) :: pre), post. cbn. split_and!; [done|lia|done|done].
    + subst m. exists [], []. cbn. split_and!; [done|lia|done|done].
  - assert (last_chunk off m = None) as ->.
    { destruct m as [|[key' c'] m]; [done|]. destruct Hat as [Hk' _]. cbn.
      destruct (Z.leb_spec key' off); [lia|done]. }
    exists [], m. cbn. split_and!; [done|lia|done|lia].
Qed.

Lemma expanded_byte_in data pre c post j :
  0 <= j < expanded_size c →
  expanded_byte data (pre ++ c :: post) (size_of_chunks pre + j) = chunk_byte data (chunk c) j.
Proof.
  intros Hj. induction pre as [|c' pre IH];
    cbn [app expanded_byte size_of_chunks].
  - rewrite Z.add_0_l. destruct (Z.ltb_spec j (expanded_size c)); [done|lia].
  - pose proof (size_of_chunks_nonneg pre). destruct (Z.ltb_spec (expanded_size c' + size_of_chunks pre + j) (expanded_size c')); [lia|].
    rewrite <- IH. f_equal. lia.
Qed.

Lemma expanded_byte_past data cs j : size_of_chunks cs <= j → expanded_byte data cs j = None.
Proof.
  revert j. induction cs as [|c cs IH]; intros j Hj; cbn in *; [done|].
  pose proof (size_of_chunks_nonneg cs).
  destruct (Z.ltb_spec j (expanded_size c)); [lia|]. apply IH. lia.
Qed.

Lemma size_of_chunks_app a b : size_of_chunks (a ++ b) = size_of_chunks a + size_of_chunks b.
Proof. induction a as [|c a IH]; cbn; [done|]. rewrite IH. lia. Qed.

Lemma cycle_from_lookup fill skip n i b :
  cycle_from fill skip n !! i = Some b → length fill = 4%nat → 0 <= skip →
  fill !! Z.to_nat ((skip + Z.of_nat i) mod 4) = Some b ∧ (i < n)%nat.
Proof.
  intros Hb Hlen Hskip. unfold cycle_from in Hb. apply list_lookup_fmap_Some in Hb.
  destruct Hb as (i' & -> & [-> Hlt]%lookup_seq). split; [|done].
  unfold lengthZ. rewrite Hlen. change (Z.of_nat 4) with 4.
  pose proof (Z.mod_pos_bound (skip + Z.of_nat i) 4 ltac:(lia)).
  rewrite nth_lookup. destruct (fill !! _) eqn:E; [done|].
  apply lookup_ge_None in E. lia.
Qed.

(** ** The contract *)

#[global] Instance AndroidSparse_ViewLaws : ViewLaws AndroidSparse.
Proof.
  split.
  - intros d. apply empty_subseteq.
  - intros σ σ' d j Hf. cbn. by rewrite (Hf (f_inode (as_file d))) by set_solver.
Qed.

Section sparse_laws.
Context {K : Type} `{HostLaws K}.
Implicit Types d : AndroidSparse.

Lemma sparse_byte σ d j :
  0 <= j →
  disk_byte σ d j = expanded_byte (default [] (σ !! f_inode (as_file d))) (as_chunks d).*2 j.
Proof. intros ?. cbn [disk_byte AndroidSparse_DiskView]. by destruct (Z.leb_spec 0 j); [|lia]. Qed.

Lemma chunk_bytes_shown σ d data pre key c post (off : u64) bs :
  data = default [] (σ !! f_inode (as_file d)) →
  as_chunks d = pre ++ (key, c) :: post → uval key = size_of_chunks pre.*2 → key <= off →
  off - key + lengthZ bs <= expanded_size c →
  (∀ i b, bs !! i = Some b → chunk_byte data (chunk c) (off - key + Z.of_nat i) = Some b) →
  shows σ d off bs.
Proof.
  intros Hd Hm Hkey Hle Hfit Hbs i b Hb. pose proof (uint_range off).
  pose proof (lookup_lt_Some _ _ _ Hb). unfold lengthZ in Hfit. rewrite sparse_byte, <- Hd by lia.
  rewrite <- (Hbs _ _ Hb), Hm, fmap_app, fmap_cons. cbn [snd].
  replace (off + Z.of_nat i) with (size_of_chunks pre.*2 + (off - key + Z.of_nat i)) by lia.
  apply expanded_byte_in. lia.
Qed.

(** What the disk shows at an offset is what its chunk stands for. *)
Lemma chunk_at_spec σ d (off : u64) :
  disk_ok d →
  let data := default [] (σ !! f_inode (as_file d)) in
  match last_chunk off (as_chunks d) with
  | None => disk_byte σ d off = None
  | Some (key, c) =>
      chunk_ok c ∧ key <= off ∧
      (expanded_size c <= off - key → disk_byte σ d off = None) ∧
      (off - key < expanded_size c → disk_byte σ d off = chunk_byte data (chunk c) (off - key)) ∧
      (∀ bs, off - key + lengthZ bs <= expanded_size c →
        (∀ i b, bs !! i = Some b → chunk_byte data (chunk c) (off - key + Z.of_nat i) = Some b) →
        shows σ d off bs)
  end.
Proof.
  intros (Hat & Hcs & Htot) data. pose proof (uint_range off) as Hoff.
  pose proof (last_chunk_spec _ 0 off Hat ltac:(lia)) as Hlast.
  destruct (last_chunk off _) as [[key c]|]; [|rewrite sparse_byte by lia; by rewrite Hlast].
  destruct Hlast as (pre & post & Hm & Hkey & Hle & Hpost). rewrite Z.add_0_l in Hkey.
  pose proof (uint_range key) as Hk. rewrite sparse_byte by lia. fold data.
  rewrite Hm, fmap_app, fmap_cons in Hcs |- *. apply Forall_app in Hcs as [_ [Hc _]%Forall_cons].
  split_and!; [done|done| | |].
  - intros Hge. apply expanded_byte_past. destruct post; [|specialize (Hpost ltac:(done)); lia].
    rewrite size_of_chunks_app. cbn. lia.
  - intros Hlt. replace (uval off) with (size_of_chunks pre.*2 + (off - key)) by lia.
    rewrite expanded_byte_in by (cbn [snd]; lia). f_equal. lia.
  - intros bs Hfit Hbs. by eapply chunk_bytes_shown.
Qed.

Lemma in_chunk_spec (size chunk_size chunk_offset : u64) :
  chunk_offset + size < 2 ^ 64 →
  match in_chunk size chunk_size chunk_offset with
  | Returns n => uval n = Z.min size (chunk_size - chunk_offset) ∨ (uval n = 0 ∧ uval size = 0)
  | Throws _ => False
  | Aborts => chunk_size < chunk_offset
  end.
Proof.
  intros Hlt. unfold in_chunk. pose proof (uint_range size).
  destruct (add_checked chunk_offset size) as [last|] eqn:E;
    [|apply add_checked_None in E; cbn [Z.of_N] in E; lia].
  apply add_checked_Some in E. cbn [mbind outcome_bind unwrap_or_abort].
  destruct (Z.ltb_spec chunk_size last); [|lia].
  destruct (sub_checked chunk_size chunk_offset) as [n|] eqn:E2;
    [apply sub_checked_Some in E2|apply sub_checked_None in E2; done].
  cbn [mbind outcome_bind unwrap_or_abort]. destruct (Z.leb_spec n size); [lia|lia].
Qed.

(** The bytes a read takes out of a chunk. *)
Definition from_chunk d (c : Chunk) (n chunk_offset : u64) : prog (K * AndroidSparse) io_error (list u8) :=
  match c with
  | DontCare => mret (replicate (Z.to_nat n) (U8 0))
  | Raw file_offset =>
      pos ← checked (add_checked file_offset chunk_offset);
      zoom (λ s, (s.1, as_file d)) (λ t s, (t.1, s.2)) (read_at_volatile (D := File) n pos)
  | Fill fill_bytes =>
      mret (cycle_from fill_bytes (uval chunk_offset mod lengthZ fill_bytes) (Z.to_nat n))
  end.

Lemma from_chunk_spec d c (n chunk_offset : u64) k r s' :
  let data := default [] (contents k !! f_inode (as_file d)) in
  chunk_ok c → from_chunk d (chunk c) n chunk_offset (k, d) = (r, s') →
  contents s'.1 = contents k ∧ (signals s'.1 ≤ signals k)%nat ∧ s'.2 = d ∧
  match r with
  | Returns bs => lengthZ bs <= n ∧
        (∀ i b, bs !! i = Some b → chunk_byte data (chunk c) (chunk_offset + Z.of_nat i) = Some b) ∧
        faults s'.1 = faults k ∧
        (0 < n → is_Some (chunk_byte data (chunk c) chunk_offset) → bs ≠ [])
  | Throws e => fails e k s'.1
  | Aborts => chunk_byte data (chunk c) chunk_offset = None
  end.
Proof.
  intros data Hok. pose proof (uint_range n) as Hn. cbn [Z.of_N] in Hn.
  unfold chunk_ok in Hok. destruct (chunk c) as [file_offset|fill|]; cbn [from_chunk].
  - destruct (add_checked file_offset chunk_offset) as [pos|] eqn:Hpos.
    + apply add_checked_Some in Hpos. run_prog. unfold zoom. rewrite file_read_run.
      destruct (pread _ _ _ _) as [o k1] eqn:E. intros [= -> <-].
      destruct (pread_law _ _ _ _ _ _ E) as (Hc & Hs & Ho). do 3 (split; [done|]).
      destruct r as [bs|e|]; [|done|done]. destruct Ho as (Hoff & Hl & Hnf & data' & Hd & Hpre & Hne).
      rewrite as_off_t_nonneg in * by done. split; [done|]. cbn [fst] in Hd.
      assert (data = data') as -> by (unfold data; by rewrite Hd). cbn [chunk_byte]. split_and!; [|done|].
      * intros i b Hb. rewrite Z.add_assoc, <- Hpos, <- byte_at_dropZ, byte_at_lookup by lia.
        eapply prefix_lookup_Some; eauto.
      * intros ? Hb. apply byte_at_is_Some in Hb. apply Hne; lia.
    + apply add_checked_None in Hpos. intros [= <- <-]. do 3 (split; [done|]).
      assert (lengthZ data < 2 ^ 63) as Hd.
      { unfold data. destruct (_ !! _) eqn:Hd; [by apply file_size_law in Hd|done]. }
      clearbody data. cbn [chunk_byte Z.of_N] in *.
      destruct (byte_at _ _) eqn:E; [|done].
      assert (is_Some (byte_at data (file_offset + chunk_offset))) as Hb by eauto.
      apply byte_at_is_Some in Hb. lia.
  - intros [= <- <-]. do 3 (split; [done|]). split.
    { unfold lengthZ, cycle_from. rewrite length_fmap, length_seq. lia. }
    clearbody data. cbn [chunk_byte]. split_and!; [|done|].
    + intros i b Hb. pose proof (uint_range chunk_offset) as Hco.
      unfold lengthZ in Hb. rewrite Hok in Hb. change (Z.of_nat 4) with 4 in Hb.
      apply cycle_from_lookup in Hb as [Hb _]; [|done|apply Z.mod_pos_bound; lia].
      by rewrite Z.add_mod_idemp_l in Hb by lia.
    + intros ? _ Hnil. apply (f_equal length) in Hnil. unfold cycle_from in Hnil.
      rewrite length_fmap, length_seq in Hnil. cbn in Hnil. lia.
  - intros [= <- <-]. do 3 (split; [done|]). split.
    { unfold lengthZ. rewrite length_replicate. lia. }
    clearbody data. cbn [chunk_byte]. split_and!; [|done|].
    + by intros i b [-> _]%lookup_replicate.
    + intros ? _ Hnil. apply (f_equal length) in Hnil. rewrite length_replicate in Hnil. cbn in Hnil. lia.
Qed.

Lemma sparse_read_run (n off : u64) k d :
  read_at_volatile n off (k, d) =
  match last_chunk off (as_chunks d) with
  | None => (Throws (KindError UnexpectedEof), (k, d))
  | Some (key, c) =>
      match sub_checked off key with
      | None => (Aborts, (k, d))
      | Some chunk_offset =>
          match in_chunk n (expanded_size c) chunk_offset with
          | Returns m => from_chunk d (chunk c) m chunk_offset (k, d)
          | Throws e => (Throws e, (k, d))
          | Aborts => (Aborts, (k, d))
          end
      end
  end.
Proof.
  cbn [read_at_volatile AndroidSparse_DiskFile]. unfold AndroidSparse_read_at_volatile. run_prog.
  destruct (last_chunk off _) as [[key c]|]; [|done].
  destruct (sub_checked off key) as [chunk_offset|]; [|done]. unfold give_outcome.
  by destruct (in_chunk _ _ _).
Qed.

#[global] Instance AndroidSparse_DiskLaws : DiskLaws K AndroidSparse.
Proof.
  split.
  - apply _.
  - intros n off k d r k' d' Hok Hlt. pose proof (uint_range off) as Hoff.
    pose proof (uint_range n) as Hn. rewrite sparse_read_run.
    pose proof (chunk_at_spec (contents k) d off Hok) as Hat.
    destruct (last_chunk off _) as [[key c]|];
      [|intros [= <- <- <-]; split_and!; [done..|by apply fails_because]].
    destruct Hat as (Hc & Hle & Hpast & Hbyte & Hshow).
    destruct (sub_checked off key) as [co|] eqn:Hco; [|apply sub_checked_None in Hco; lia].
    apply sub_checked_Some in Hco. rewrite <- Hco in *. pose proof (uint_range key) as Hk.
    pose proof (in_chunk_spec n (expanded_size c) co ltac:(lia)) as Hin.
    destruct (in_chunk _ _ _) as [m|e|]; [|done|intros [= <- <- <-]; do 3 (split; [done|]); apply Hpast; lia].
    intros E. apply from_chunk_spec in E; [|done]. cbn [fst snd] in E.
    destruct E as (Hcc & Hs & Hd & Hr). split_and!; [done..|].
    destruct r as [bs|e|]; [|by apply fails_any|].
    + destruct Hr as (Hl & Hbs & Hnf & Hne). pose proof (uint_range m) as Hmr. split; [lia|]. split_and!; [|done|].
      * destruct bs as [|b bs]; [apply shows_nil|]. apply Hshow; [|done]. rewrite lengthZ_cons in *.
        pose proof (lengthZ_nonneg bs). lia.
      * intros Hpos Hb. destruct (Z.le_gt_cases (expanded_size c) co) as [Hge|Hltc].
        -- rewrite Hpast in Hb by done. by destruct Hb.
        -- apply Hne; [lia|]. by rewrite <- Hbyte.
    + destruct (Z.le_gt_cases (expanded_size c) co) as [Hge|Hltc]; [by apply Hpast|]. by rewrite Hbyte.
  - intros bs off k d r k' d' Hok _ [= <- <- <-]. split_and!; [done..|].
    apply fails_because; [right; cbn; tauto|done].
Qed.
End sparse_laws.
