(* ===== verification/SparseFormat.v ===== *)
(** * The Android sparse format

    The format as its documentation gives it: an encoder of chunks, the image
    they expand to, and the proof that [from_file] reads an encoded image as the
    disk that shows the expanded image. *)

From S2P Require Import Prelude StdIo Checked DiskFile DiskFacts SparseImage SparseFacts.

(** ** Encoding *)

Inductive source_body := SRaw (bs : list u8) | SFill (bs : list u8) | SHole.
Record source_chunk := { sc_blocks : Z; sc_body : source_body }.

Definition body_bytes (b : source_body) : list u8 :=
  match b with SRaw bs => bs | SFill bs => bs | SHole => [] end.
Definition body_type (b : source_body) : Z :=
  match b with SRaw _ => CHUNK_TYPE_RAW | SFill _ => CHUNK_TYPE_FILL | SHole => CHUNK_TYPE_DONT_CARE end.

Definition encode_chunk (c : source_chunk) : list u8 :=
  (le_split 2 (body_type (sc_body c)) ++ le_split 2 0 ++ le_split 4 (sc_blocks c)
     ++ le_split 4 (HEADER_SIZE + lengthZ (body_bytes (sc_body c))))
  ++ body_bytes (sc_body c).

Fixpoint total_blocks (cs : list source_chunk) : Z :=
  match cs with [] => 0 | c :: cs => sc_blocks c + total_blocks cs end.

Definition encode_header (blk checksum : Z) (cs : list source_chunk) : list u8 :=
  le_split 4 SPARSE_HEADER_MAGIC ++ le_split 2 MAJOR_VERSION ++ le_split 2 0
    ++ le_split 2 SPARSE_HEADER_SIZE ++ le_split 2 HEADER_SIZE ++ le_split 4 blk
    ++ le_split 4 (total_blocks cs) ++ le_split 4 (lengthZ cs) ++ le_split 4 checksum.

Definition encode_chunks (cs : list source_chunk) : list u8 := concat (map encode_chunk cs).

Definition encode_image (blk checksum : Z) (cs : list source_chunk) : list u8 :=
  encode_header blk checksum cs ++ encode_chunks cs.

(** The bytes a chunk stands for. *)
Definition expand_chunk (blk : Z) (c : source_chunk) : list u8 :=
  match sc_body c with
  | SRaw bs => bs
  | SFill bs => cycle_from bs 0 (Z.to_nat (sc_blocks c * blk))
  | SHole => replicate (Z.to_nat (sc_blocks c * blk)) (U8 0)
  end.
Definition expand (blk : Z) (cs : list source_chunk) : list u8 := concat (map (expand_chunk blk) cs).

(** Chunks the format can hold: none is empty, and a raw chunk has the bytes of
    its blocks. *)
Definition source_ok (blk : Z) (c : source_chunk) : Prop :=
  0 < sc_blocks c < 2 ^ 32 ∧
  match sc_body c with
  | SRaw bs => lengthZ bs = sc_blocks c * blk ∧ HEADER_SIZE + lengthZ bs < 2 ^ 32
  | SFill bs => length bs = 4%nat
  | SHole => True
  end.

Definition image_ok (blk : Z) (cs : list source_chunk) : Prop :=
  0 < blk < 2 ^ 32 ∧ Forall (source_ok blk) cs ∧ total_blocks cs < 2 ^ 32 ∧ lengthZ cs < 2 ^ 32.

(** ** The fields of the structures *)

Lemma le_field_first (m : nat) z rest off n :
  off = 0 → n = Z.of_nat m → le_field (le_split m z ++ rest) off n = z mod 256 ^ n.
Proof.
  intros -> ->. rewrite le_field_here by (by rewrite lengthZ_le_split). apply le_combine_split.
Qed.

Lemma le_field_last (m : nat) z off n :
  off = 0 → n = Z.of_nat m → le_field (le_split m z) off n = z mod 256 ^ n.
Proof. intros Ho Hn. rewrite <- (le_field_first m z [] off n Ho Hn). by rewrite app_nil_r. Qed.

(** Read a field of a concatenation of fields. *)
Ltac le_fields :=
  repeat (rewrite le_field_skip by (rewrite !lengthZ_le_split; lia));
  rewrite ?lengthZ_le_split;
  first [rewrite le_field_first by lia | rewrite le_field_last by lia].

Lemma uval_mod_small (w : N) z m : 0 <= z < m → m <= 2 ^ Z.of_N w → uval (to_uint w (z mod m)) = z.
Proof. intros ??. rewrite Z.mod_small by done. apply uval_to_uint_small. lia. Qed.

Lemma chunk_header_fields ty blocks total h :
  h = ChunkHeader_from_bytes (le_split 2 ty ++ le_split 2 0 ++ le_split 4 blocks ++ le_split 4 total) →
  0 <= ty < 2 ^ 16 → 0 <= blocks < 2 ^ 32 → 0 <= total < 2 ^ 32 →
  uval (ch_chunk_type h) = ty ∧ uval (ch_chunk_sz h) = blocks ∧ uval (ch_total_sz h) = total.
Proof.
  intros -> ???. cbn [ch_chunk_type ch_chunk_sz ch_total_sz ChunkHeader_from_bytes].
  split_and!; le_fields; by apply uval_mod_small.
Qed.

Lemma sparse_header_fields blk checksum cs h :
  h = SparseHeader_from_bytes (encode_header blk checksum cs) →
  0 <= blk < 2 ^ 32 → 0 <= total_blocks cs < 2 ^ 32 → lengthZ cs < 2 ^ 32 →
  uval (sh_magic h) = SPARSE_HEADER_MAGIC ∧ uval (sh_major_version h) = MAJOR_VERSION ∧
  uval (sh_chunk_hdr_size h) = HEADER_SIZE ∧ uval (sh_blk_sz h) = blk ∧
  uval (sh_total_blks h) = total_blocks cs ∧ uval (sh_total_chunks h) = lengthZ cs.
Proof.
  intros -> ???. pose proof (lengthZ_nonneg cs).
  cbn [sh_magic sh_major_version sh_chunk_hdr_size sh_blk_sz sh_total_blks sh_total_chunks
       SparseHeader_from_bytes]. unfold encode_header.
  split_and!; le_fields; by apply uval_mod_small.
Qed.

Lemma lengthZ_encode_header blk checksum cs :
  lengthZ (encode_header blk checksum cs) = SPARSE_HEADER_SIZE.
Proof. unfold encode_header. by rewrite !lengthZ_app, !lengthZ_le_split. Qed.

Lemma lengthZ_encode_chunk c :
  lengthZ (encode_chunk c) = HEADER_SIZE + lengthZ (body_bytes (sc_body c)).
Proof. unfold encode_chunk. by rewrite !lengthZ_app, !lengthZ_le_split. Qed.

(** ** Parsing an encoded image *)

Definition parsed_chunk (blk pos : Z) (c : source_chunk) : ChunkWithSize := {|
  chunk := match sc_body c with
           | SRaw _ => Raw (U64 (pos + HEADER_SIZE))
           | SFill bs => Fill bs
           | SHole => DontCare
           end;
  expanded_size := U64 (sc_blocks c * blk)
|}.

Fixpoint parsed_chunks (blk pos : Z) (cs : list source_chunk) : list ChunkWithSize :=
  match cs with
  | [] => []
  | c :: cs => parsed_chunk blk pos c :: parsed_chunks blk (pos + lengthZ (encode_chunk c)) cs
  end.

Lemma source_total blk c :
  source_ok blk c → HEADER_SIZE <= HEADER_SIZE + lengthZ (body_bytes (sc_body c)) < 2 ^ 32.
Proof.
  intros [_ Hb]. pose proof (lengthZ_nonneg (body_bytes (sc_body c))).
  unfold HEADER_SIZE in *. destruct (sc_body c) as [bs|bs|]; cbn [body_bytes] in *;
    [lia| |rewrite lengthZ_nil; lia].
  unfold lengthZ. rewrite Hb. lia.
Qed.

Section parse.
Context {K : Type} `{HostLaws K} (f : File).

(** The only errors of parsing an encoded image are those of a call of the host that
    failed. *)
Definition host_error (σ : store) (nf : nat) (e : Sparse.Error) (s : K * u64) : Prop :=
  unchanged σ nf e s ∧ ∃ io, e = Sparse.ReadSpecificationError io.

Lemma wp_host {A} σ nf (m : prog (K * u64) io_error A) Q s :
  wp m Q (unchanged σ nf) s → wp (map_err Sparse.ReadSpecificationError m) Q (host_error σ nf) s.
Proof.
  intros Hwp. apply wp_map_err. eapply wp_mono; [done|done|].
  intros e s' Hc. split; [done|eauto].
Qed.

Lemma wp_read_part σ nf data pre mid post (n : u64) s (Q : list u8 → K * u64 → Prop) :
  cursor_at σ nf (lengthZ pre) s → σ !! f_inode f = Some data → data = pre ++ mid ++ post →
  lengthZ mid = n →
  (∀ s', cursor_at σ nf (lengthZ pre + n) s' → Q mid s') →
  wp (map_err Sparse.ReadSpecificationError (file_read_exact f n)) Q (host_error σ nf) s.
Proof.
  intros Hcur Hd -> Hn HQ. apply wp_host. eapply wp_read_exact; [done|done| |].
  - rewrite !lengthZ_app. pose proof (lengthZ_nonneg post). lia.
  - intros s' Hs'. rewrite dropZ_app_exact, takeZ_app_eq by lia. by apply HQ.
Qed.

Lemma chunk_of_type_encoded σ nf data pre b post (pos size : u64) s :
  cursor_at σ nf (lengthZ pre) s → σ !! f_inode f = Some data → data = pre ++ body_bytes b ++ post →
  uval size = lengthZ (body_bytes b) → pos + HEADER_SIZE < 2 ^ 64 →
  match b with SFill bs => length bs = 4%nat | _ => True end →
  wp (chunk_of_type f (body_type b) pos size)
    (λ r s', r = Some (match b with SRaw _ => Raw (U64 (pos + HEADER_SIZE)) | SFill bs => Fill bs
                       | SHole => DontCare end) ∧
       cursor_at σ nf (lengthZ pre + lengthZ (body_bytes b)) s')
    (host_error σ nf) s.
Proof.
  intros Hcur Hd Hdata Hsize Hpos Hfill. unfold chunk_of_type.
  destruct b as [bs|bs|]; cbn [body_bytes body_type] in *; rewrite <- Hsize;
    cbv match delta [negb Z.eqb CHUNK_TYPE_RAW CHUNK_TYPE_FILL CHUNK_TYPE_DONT_CARE Pos.eqb].
  - apply wp_bind, wp_host. eapply wp_seek_current; [done|]. intros p s1 Hs1 _. cbn beta.
    apply wp_bind, wp_checked. exists (U64 (pos + HEADER_SIZE)). split; [|apply wp_ret; done].
    apply add_checked_Some. change (uval (U64 HEADER_SIZE)) with HEADER_SIZE.
    apply uval_to_uint_small. pose proof (uint_range pos).
    unfold HEADER_SIZE in *. cbn [Z.of_N]. lia.
  - unfold lengthZ in Hsize. rewrite Hfill in Hsize.
    change (Z.of_nat 4) with (uval (U64 4)) in Hsize. rewrite Hsize. cbn [negb Z.eqb].
    apply wp_bind. eapply wp_read_part; [done|done|exact Hdata|unfold lengthZ; by rewrite Hfill|].
    intros s1 Hs1. by apply wp_ret.
  - apply wp_ret. split; [done|]. rewrite Hsize, lengthZ_nil. by rewrite Z.add_0_r.
Qed.

Lemma parse_chunk_encoded σ nf data pre c post (blk : u64) s :
  cursor_at σ nf (lengthZ pre) s → σ !! f_inode f = Some data →
  data = pre ++ encode_chunk c ++ post → source_ok blk c →
  wp (parse_chunk f blk)
    (λ r s', r = Some (parsed_chunk blk (lengthZ pre) c) ∧
       cursor_at σ nf (lengthZ pre + lengthZ (encode_chunk c)) s')
    (host_error σ nf) s.
Proof.
  intros Hcur Hd Hdata Hok. pose proof (source_total _ _ Hok) as Htot.
  rewrite lengthZ_encode_chunk.
  assert (lengthZ pre < 2 ^ 63) as Hpre.
  { destruct Hcur as [[<- _] _]. apply file_size_law in Hd. rewrite Hdata, !lengthZ_app in Hd.
    pose proof (lengthZ_nonneg (encode_chunk c)). pose proof (lengthZ_nonneg post). lia. }
  set (total := HEADER_SIZE + lengthZ (body_bytes (sc_body c))) in *.
  set (hdr := le_split 2 (body_type (sc_body c)) ++ le_split 2 0 ++ le_split 4 (sc_blocks c)
                ++ le_split 4 total).
  assert (data = pre ++ hdr ++ body_bytes (sc_body c) ++ post) as Hdata'
    by (rewrite Hdata; unfold encode_chunk; by rewrite <- app_assoc).
  assert (lengthZ hdr = HEADER_SIZE) as Hhdr by (unfold hdr; by rewrite !lengthZ_app, !lengthZ_le_split).
  unfold parse_chunk. apply wp_bind, wp_host. eapply wp_seek_current; [done|].
  intros p s1 Hs1 Hp. rewrite Z.add_0_r in Hs1, Hp. cbn beta.
  apply wp_bind. eapply wp_read_part; [done|done|exact Hdata'|done|]. intros s2 Hs2.
  destruct (chunk_header_fields (body_type (sc_body c)) (sc_blocks c) total _ eq_refl)
    as (Hty & Hbl & Hts); [by destruct (sc_body c)|destruct Hok; lia|unfold HEADER_SIZE in *; lia|].
  fold hdr in Hty, Hbl, Hts. change (uval (U64 HEADER_SIZE)) with HEADER_SIZE in Hs2.
  apply wp_bind, wp_ok_or_throw. exists (U64 (total - HEADER_SIZE)).
  assert (uval (U64 (total - HEADER_SIZE)) = lengthZ (body_bytes (sc_body c))) as Hsize.
  { unfold total, HEADER_SIZE in *. rewrite uval_to_uint_small; cbn [Z.of_N]; lia. }
  split.
  { apply sub_checked_Some. rewrite Hsize, Hts, uval_to_uint_small;
      unfold total, HEADER_SIZE in *; cbn [Z.of_N]; [change (uval (U64 12)) with 12|]; lia. }
  cbn beta. rewrite Hty, Hbl. apply wp_bind. eapply wp_mono.
  - eapply (chunk_of_type_encoded σ nf data (pre ++ hdr)); [by rewrite lengthZ_app, Hhdr|done| |done|
      rewrite Hp; unfold HEADER_SIZE; lia|by destruct Hok as [_ Hb]; destruct (sc_body c)].
    by rewrite Hdata', <- app_assoc.
  - intros r s3 [-> Hs3]. apply wp_ret. rewrite Hp. split; [done|].
    rewrite lengthZ_app, Hhdr in Hs3. unfold total. by rewrite Z.add_assoc.
  - done.
Qed.

Lemma parse_chunks_encoded σ nf data cs (blk : u64) : ∀ pre s,
  cursor_at σ nf (lengthZ pre) s → σ !! f_inode f = Some data →
  data = pre ++ encode_chunks cs → Forall (source_ok blk) cs →
  wp (parse_chunks f blk (length cs))
    (λ r s', r = parsed_chunks blk (lengthZ pre) cs ∧ host_at σ nf s') (host_error σ nf) s.
Proof.
  induction cs as [|c cs IH]; intros pre s Hcur Hd Hdata Hok; cbn [parse_chunks length].
  { apply wp_ret. split; [done|apply Hcur]. }
  apply Forall_cons in Hok as [Hc Hok]. apply wp_bind. eapply wp_mono.
  - eapply parse_chunk_encoded; [done|done|exact Hdata|done].
  - intros r s1 [-> Hs1]. apply wp_bind. eapply wp_mono.
    + apply (IH (pre ++ encode_chunk c)); [by rewrite lengthZ_app|done| |done].
      rewrite Hdata. cbn. by rewrite <- app_assoc.
    + intros r s2 [-> Hs2]. apply wp_ret. split; [|done]. by rewrite lengthZ_app.
    + done.
  - done.
Qed.
End parse.

(** *** Placing the chunks *)

Lemma chunks_insert_last (key : u64) c m :
  Forall (λ x, uval x.1 < key) m → chunks_insert key c m = (None, m ++ [(key, c)]).
Proof.
  induction 1 as [|[key' c'] m Hk _ IH]; cbn; [done|]. cbn in Hk.
  destruct (Z.ltb_spec key key'); [lia|]. destruct (Z.eqb_spec key key'); [lia|]. by rewrite IH.
Qed.

Lemma chunks_at_keys start m :
  chunks_at start m → Forall (λ c, 0 < expanded_size c) m.*2 →
  Forall (λ x, uval x.1 < start + size_of_chunks m.*2) m.
Proof.
  revert start. induction m as [|[key c] m IH]; intros start Hat Hpos; constructor; cbn in *.
  - apply Forall_cons in Hpos as [? _]. pose proof (size_of_chunks_nonneg m.*2). lia.
  - apply Forall_cons in Hpos as [? Hpos]. destruct Hat as [_ Hat].
    eapply Forall_impl; [by apply (IH (start + expanded_size c))|]. cbn. lia.
Qed.

Lemma place_chunks_ok cs : ∀ (loc : u64) m,
  chunks_at 0 m → uval loc = size_of_chunks m.*2 →
  Forall (λ c, 0 < expanded_size c) (m.*2 ++ cs) →
  size_of_chunks (m.*2 ++ cs) < 2 ^ 64 →
  ∃ m', place_chunks cs loc m = Returns m' ∧ m'.*2 = m.*2 ++ cs ∧ chunks_at 0 m'.
Proof.
  induction cs as [|c cs IH]; intros loc m Hat Hloc Hpos Hlt.
  { exists m. by rewrite app_nil_r. }
  apply Forall_app in Hpos as Hp'. destruct Hp' as [Hm _].
  cbn [place_chunks]. rewrite chunks_insert_last.
  2: { rewrite Hloc. by apply (chunks_at_keys 0). }
  rewrite size_of_chunks_app in Hlt. cbn in Hlt. pose proof (size_of_chunks_nonneg cs).
  destruct (add_checked loc (expanded_size c)) as [next|] eqn:E;
    [apply add_checked_Some in E|apply add_checked_None in E; cbn [Z.of_N] in E; lia].
  cbn [mbind outcome_bind unwrap_or_abort].
  destruct (IH next (m ++ [(loc, c)])) as (m' & Hpl & Hm' & Hat').
  - apply chunks_at_app. split; [done|]. cbn. by rewrite <- Hloc.
  - rewrite fmap_app, size_of_chunks_app, E, Hloc. cbn. lia.
  - rewrite fmap_app, <- app_assoc. by cbn.
  - rewrite fmap_app, <- app_assoc, size_of_chunks_app. cbn. lia.
  - exists m'. split; [done|]. split; [|done]. rewrite Hm', fmap_app, <- app_assoc. by cbn.
Qed.

Lemma sum_sizes_ok m : ∀ acc : u64,
  acc + size_of_chunks m.*2 < 2 ^ 64 →
  ∃ total, sum_sizes m acc = Some total ∧ uval total = acc + size_of_chunks m.*2.
Proof.
  induction m as [|[key c] m IH]; intros acc Hlt; cbn in *; [exists acc; split; [done|lia]|].
  pose proof (size_of_chunks_nonneg m.*2).
  destruct (add_checked acc (expanded_size c)) as [acc'|] eqn:E;
    [apply add_checked_Some in E|apply add_checked_None in E; cbn [Z.of_N] in E; lia].
  cbn. destruct (IH acc') as (total & -> & Ht); [lia|]. exists total. split; [done|lia].
Qed.

Lemma from_parts_ok file (size : u64) cs :
  Forall (λ c, 0 < expanded_size c) cs → size_of_chunks cs = size → Forall chunk_ok cs →
  ∃ d, from_parts file size cs = Returns d ∧ as_file d = file ∧ (as_chunks d).*2 = cs ∧ disk_ok d ∧
    as_total_size d = size.
Proof.
  intros Hpos Hsize Hok. pose proof (uint_range size) as Hr. cbn [Z.of_N] in Hr. unfold from_parts.
  destruct (place_chunks_ok cs (U64 0) []) as (m & -> & Hm & Hat); [done|done|done|cbn; lia|].
  cbn [fmap list_fmap app] in Hm. cbn [mbind outcome_bind].
  destruct (sum_sizes_ok m (U64 0)) as (total & -> & Ht).
  { rewrite Hm. change (uval (U64 0)) with 0. lia. }
  rewrite Hm in Ht. change (uval (U64 0)) with 0 in Ht. cbn [unwrap_or_abort mbind outcome_bind].
  destruct (Z.eqb_spec total size); [|lia]. cbn [negb]. eexists. split; [done|]. cbn.
  split_and!; try done; by rewrite Hm.
Qed.

(** *** What the parsed chunks show *)

Lemma lengthZ_expand_chunk blk c :
  source_ok blk c → 0 < blk → lengthZ (expand_chunk blk c) = sc_blocks c * blk.
Proof.
  intros [Hb Hs] Hblk. assert (0 < sc_blocks c * blk) by nia. unfold expand_chunk, lengthZ in *.
  destruct (sc_body c) as [bs|bs|]; [by destruct Hs| |].
  - unfold cycle_from. rewrite length_fmap, length_seq. lia.
  - rewrite length_replicate. lia.
Qed.

Lemma parsed_chunk_size blk pos c :
  source_ok blk c → 0 < blk < 2 ^ 32 → uval (expanded_size (parsed_chunk blk pos c)) = sc_blocks c * blk.
Proof. intros [Hb _] Hblk. apply uval_to_uint_small. cbn [Z.of_N]. nia. Qed.

Lemma parsed_chunk_byte blk pre c post j :
  source_ok blk c → 0 < blk < 2 ^ 32 → lengthZ pre + HEADER_SIZE < 2 ^ 64 → 0 <= j < sc_blocks c * blk →
  chunk_byte (pre ++ encode_chunk c ++ post) (chunk (parsed_chunk blk (lengthZ pre) c)) j =
  byte_at (expand_chunk blk c) j.
Proof.
  intros Hok Hblk Hpre Hj. pose proof (lengthZ_expand_chunk _ _ Hok ltac:(lia)) as Hlen.
  pose proof (lengthZ_nonneg pre). destruct Hok as [Hb Hs].
  unfold parsed_chunk, expand_chunk, encode_chunk in *. cbn [chunk].
  destruct (sc_body c) as [bs|bs|]; cbn [chunk_byte body_bytes body_type] in *.
  - rewrite uval_to_uint_small by (unfold HEADER_SIZE in *; cbn [Z.of_N]; lia).
    rewrite byte_at_app_r by (unfold HEADER_SIZE; lia).
    rewrite <- app_assoc, byte_at_app_r by (rewrite !lengthZ_app, !lengthZ_le_split; unfold HEADER_SIZE; lia).
    rewrite byte_at_app_l by (rewrite !lengthZ_app, !lengthZ_le_split; unfold HEADER_SIZE; lia).
    f_equal. rewrite !lengthZ_app, !lengthZ_le_split. unfold HEADER_SIZE. lia.
  - destruct (byte_at _ _) as [b|] eqn:E.
    + apply byte_at_Some in E as [_ E]. apply cycle_from_lookup in E as [E _]; [|done|done].
      by rewrite Z2Nat.id, Z.add_0_l in E by lia.
    + assert (is_Some (byte_at (cycle_from bs 0 (Z.to_nat (sc_blocks c * blk))) j)) as [? ?]; [|congruence].
      apply byte_at_is_Some. lia.
  - by rewrite byte_at_replicate by lia.
Qed.

Lemma parsed_chunks_byte blk cs : ∀ pre j,
  Forall (source_ok blk) cs → 0 < blk < 2 ^ 32 → lengthZ (pre ++ encode_chunks cs) < 2 ^ 63 → 0 <= j →
  expanded_byte (pre ++ encode_chunks cs) (parsed_chunks blk (lengthZ pre) cs) j =
  byte_at (expand blk cs) j.
Proof.
  induction cs as [|c cs IH]; intros pre j Hok Hblk Hlen Hj; cbn [parsed_chunks expanded_byte].
  { unfold byte_at. by case_match. }
  apply Forall_cons in Hok as [Hc Hok]. rewrite parsed_chunk_size by done.
  change (encode_chunks (c :: cs)) with (encode_chunk c ++ encode_chunks cs) in *.
  change (expand blk (c :: cs)) with (expand_chunk blk c ++ expand blk cs).
  pose proof (lengthZ_expand_chunk _ _ Hc ltac:(lia)) as Hl.
  rewrite !lengthZ_app, lengthZ_encode_chunk in Hlen. pose proof (lengthZ_nonneg (encode_chunks cs)).
  pose proof (lengthZ_nonneg (body_bytes (sc_body c))).
  destruct (Z.ltb_spec j (sc_blocks c * blk)) as [Hlt|Hge].
  - rewrite byte_at_app_l by lia. apply parsed_chunk_byte; [done|done|lia|lia].
  - rewrite byte_at_app_r, Hl by lia. rewrite app_assoc, <- lengthZ_app.
    apply IH; [done|done| |lia]. rewrite !lengthZ_app, lengthZ_encode_chunk. lia.
Qed.

Lemma parsed_chunks_facts blk cs : ∀ pos,
  Forall (source_ok blk) cs → 0 < blk < 2 ^ 32 →
  Forall (λ c, 0 < expanded_size c) (parsed_chunks blk pos cs) ∧
  Forall chunk_ok (parsed_chunks blk pos cs) ∧
  size_of_chunks (parsed_chunks blk pos cs) = total_blocks cs * blk.
Proof.
  induction cs as [|c cs IH]; intros pos Hok Hblk; [by split_and!; constructor|].
  apply Forall_cons in Hok as [Hc Hok]. cbn [parsed_chunks size_of_chunks].
  destruct (IH (pos + lengthZ (encode_chunk c)) Hok Hblk) as (Hpos & Hck & Hsz).
  pose proof (parsed_chunk_size blk pos c Hc Hblk) as Hs. rewrite Hs, Hsz. split_and!.
  - constructor; [|done]. rewrite Hs. destruct Hc. nia.
  - constructor; [|done]. destruct Hc as [_ Hc]. unfold chunk_ok, parsed_chunk. cbn.
    by destruct (sc_body c).
  - cbn. lia.
Qed.

Lemma total_blocks_nonneg blk cs : Forall (source_ok blk) cs → 0 <= total_blocks cs.
Proof. induction 1 as [|c cs [Hc _] _ IH]; cbn; lia. Qed.

Lemma lengthZ_expand blk cs :
  Forall (source_ok blk) cs → 0 < blk → lengthZ (expand blk cs) = total_blocks cs * blk.
Proof.
  intros Hok Hblk. induction Hok as [|c cs Hc _ IH]; [done|].
  change (expand blk (c :: cs)) with (expand_chunk blk c ++ expand blk cs).
  rewrite lengthZ_app, IH, lengthZ_expand_chunk by done. cbn. lia.
Qed.

Section image.
Context {K : Type} `{HostLaws K} (f : File).

(** A disk that shows an image. *)
Definition shows_image (σ : store) (d : AndroidSparse) (image : list u8) : Prop :=
  disk_ok d ∧ as_file d = f ∧ uval (as_total_size d) = lengthZ image ∧
  ∀ j, disk_byte σ d j = byte_at image j.

Lemma from_file_encoded σ nf blk checksum cs s :
  host_at σ nf s → σ !! f_inode f = Some (encode_image blk checksum cs) → image_ok blk cs →
  wp (from_file f) (λ d s', shows_image σ d (expand blk cs) ∧ host_at σ nf s') (host_error σ nf) s.
Proof.
  intros Hc Hd (Hblk & Hcs & Htot & Hlen).
  pose proof (total_blocks_nonneg _ _ Hcs) as Hnn. pose proof (lengthZ_nonneg cs).
  assert (lengthZ (encode_image blk checksum cs) < 2 ^ 63) as Himg.
  { destruct Hc as [<- _]. by apply file_size_law in Hd. }
  unfold from_file. apply wp_bind, wp_host. eapply wp_seek_start; [done|]. intros p s1 Hs1 _.
  cbn beta. apply wp_bind.
  eapply (wp_read_part f σ nf _ [] (encode_header blk checksum cs) (encode_chunks cs));
    [done|done|done|by rewrite lengthZ_encode_header|]. intros s2 Hs2.
  destruct (sparse_header_fields blk checksum cs _ eq_refl) as (-> & -> & -> & Hb & Ht & Hn); [lia..|].
  cbn [negb Z.eqb]. rewrite !Z.eqb_refl. cbn [negb]. rewrite Hb, Ht, Hn.
  assert (uval (U64 blk) = blk) as Hb64 by (apply uval_to_uint_small; cbn [Z.of_N]; lia).
  apply wp_bind. unfold lengthZ at 1. rewrite Nat2Z.id. eapply wp_mono.
  - apply (parse_chunks_encoded f σ nf (encode_image blk checksum cs) cs (U64 blk) (encode_header blk checksum cs));
      [by rewrite lengthZ_encode_header|done|done|by rewrite Hb64].
  - intros r s3 [-> Hs3]. rewrite Hb64.
    destruct (parsed_chunks_facts blk cs (lengthZ (encode_header blk checksum cs)) Hcs Hblk)
      as (Hpos & Hck & Hsz).
    assert (uval (U64 (total_blocks cs * blk)) = total_blocks cs * blk) as Hsize
      by (apply uval_to_uint_small; cbn [Z.of_N]; nia).
    destruct (from_parts_ok f (U64 (total_blocks cs * blk)) _ Hpos ltac:(by rewrite Hsize) Hck)
      as (d & Hd' & Hfile & Hchunks & Hdok & Hts).
    eapply wp_give_outcome; [done|]. split; [|done]. split_and!; [done|done| |].
    + rewrite Hts, Hsize, lengthZ_expand; [done..|lia].
    + intros j. destruct (Z.lt_ge_cases j 0) as [Hj|Hj].
      * rewrite byte_at_None_neg by done. cbn [disk_byte AndroidSparse_DiskView].
        by destruct (Z.leb_spec 0 j); [lia|].
      * rewrite sparse_byte, Hfile, Hd, Hchunks by done. by apply parsed_chunks_byte.
  - done.
Qed.

(** C14. [from_file] on a file that holds an encoded Android sparse image gives a
    disk as long as the expanded image, and [read_exact_at_volatile] of any range of
    the disk ends with exactly the bytes of the expanded image in this range: raw
    chunks as they are stored, fill chunks with their pattern repeated, holes as
    zeros, across any number of chunk boundaries, short reads of the host and
    interrupted calls.  The image has raw, fill and hole chunks of at least a block
    each and no checksum chunks ([image_ok]).  The only other ends are errors, and
    then a call of the host has failed. *)
Theorem sparse_image_reads blk checksum cs k pos :
  contents k !! f_inode f = Some (encode_image blk checksum cs) → image_ok blk cs →
  match from_file f (k, pos) with
  | (Returns d, (k1, _)) =>
      uval (as_total_size d) = lengthZ (expand blk cs) ∧
      ∀ (fuel : nat) (n off : u64),
        off + n <= lengthZ (expand blk cs) → (Z.to_nat n + signals k1 ≤ fuel)%nat →
        match read_exact_at_volatile fuel n off (k1, d) with
        | (Returns (Some bs), _) => bs = takeZ n (dropZ off (expand blk cs))
        | (Throws e, (k2, _)) => (faults k1 < faults k2)%nat
        | _ => False
        end
  | (Throws e, (k1, _)) => (∃ io, e = Sparse.ReadSpecificationError io) ∧ (faults k < faults k1)%nat
  | (Aborts, _) => False
  end.
Proof.
  intros Hd Hok. pose proof (from_file_encoded _ (faults k) blk checksum cs (k, pos) ltac:(done) Hd Hok) as Hwp.
  unfold wp in Hwp. destruct (from_file f (k, pos)) as [[d|e|] [k1 p1]]; [|by destruct Hwp as [[_ ?] ?]|done].
  destruct Hwp as [(Hdok & _ & Hts & Hbyte) [Hc _]]. cbn in Hc. split; [done|]. intros fuel n off Hfit Hfuel.
  destruct (read_exact_at_volatile fuel n off (k1, d)) as [r [k2 d2]] eqn:E.
  pose proof (uint_range (as_total_size d)) as Htr. cbn [Z.of_N] in Htr. pose proof (uint_range off).
  apply read_exact_spec in E as (_ & _ & Hr); [|done|lia| |done].
  - destruct r as [[bs|]|e|]; [|done|apply Hr|done]. destruct Hr as (Hl & Hsh & _).
    eapply shown_exactly; [|lia|done|done]. intros j. by rewrite Hc.
  - intros j Hj. rewrite Hc, Hbyte. apply byte_at_is_Some. lia.
Qed.
End image.
