(* ===== verification/Gpt.v ===== *)
(** * GUID partition tables

    The model of [disk/src/gpt.rs].  The functions write to anything that
    implements [io::Write]: the class [Sink], with instances for a buffer of fixed
    size and for a file at its position.  The checksum of the crate [crc32fast] is
    a parameter. *)

From S2P Require Import Prelude StdIo Checked DiskFile.

(** ** Sinks *)

(** [Write::write_all]. *)
Class Sink (S : Type) := write_to : list u8 → prog S io_error ().

(** [&mut [u8]]: what was written and the room that is left.  A write that does
    not fit fills the buffer and fails. *)
Record buffer := mkBuffer { buf_written : list u8; buf_room : Z }.

#[global] Instance buffer_Sink : Sink buffer := λ bs b,
  if lengthZ bs <=? buf_room b
  then (Returns (), mkBuffer (buf_written b ++ bs) (buf_room b - lengthZ bs))
  else (Throws (KindError WriteZero), mkBuffer (buf_written b ++ takeZ (buf_room b) bs) 0).

(** The bytes of the buffer when the writer is done: the rest is still zero. *)
Definition buffer_bytes (b : buffer) : list u8 :=
  buf_written b ++ replicate (Z.to_nat (buf_room b)) (U8 0).

(** [Write::write_all] of a file at its position; the loop of the standard library
    is the one of [write_all_at_volatile]. *)
Definition file_write_all {K} `{HostFiles K} (f : File) (bs : list u8) : prog (K * u64) io_error () :=
  '(k, pos) ← get_state;
  r ← zoom (λ s, (s.1, f)) (λ t s, (t.1, s.2))
        (write_all_at_volatile (length bs + signals k) bs pos);
  checked r;;
  '(k, _) ← get_state;
  put_state (k, U64 (uval pos + lengthZ bs)).

(** ** Constants *)

Definition SECTOR_SIZE : Z := Z.shiftl 1 9.
Definition MBR_PARTITION_ENTRY_SIZE : Z := 16.
Definition GPT_HEADER_SIZE : Z := 92.
Definition GPT_NUM_PARTITIONS : Z := 128.
Definition GPT_PARTITION_ENTRY_SIZE : Z := 128.
Definition GPT_BEGINNING_SIZE : Z := SECTOR_SIZE * 40.
Definition GPT_END_SIZE : Z := SECTOR_SIZE * 33.

Module Gpt.
Inductive Error := InvalidDiskSize | WritingData (e : io_error).
End Gpt.

(** [Uuid]: the fields of [Uuid::as_fields]. *)
Record Uuid := mkUuid { uuid_0 : u32; uuid_1 : u16; uuid_2 : u16; uuid_3 : list u8 }.

(** [Uuid::from_u128]. *)
Definition Uuid_from_u128 (v : Z) : Uuid :=
  mkUuid (U32 (Z.shiftr v 96)) (U16 (Z.shiftr v 80)) (U16 (Z.shiftr v 64)) (rev (le_split 8 v)).

(** [x.to_le_bytes()] of an integer of [n] bytes. *)
Definition to_le_bytes {w} (n : nat) (x : uint w) : list u8 := le_split n (uval x).

Section gpt.
Context {S : Type} `{Sink S}.

(** [out.write_all(bs).map_err(Error::WritingData)?]. *)
Definition put (bs : list u8) : prog S Gpt.Error () := map_err Gpt.WritingData (write_to bs).

Definition write_protective_mbr (disk_size : u64) : prog S Gpt.Error () :=
  put (zeros 446);;
  put [U8 0x00];;
  put (zeros 3);;
  put [U8 0xEE];;
  put (zeros 3);;
  let first_lba := U32 1 in
  put (to_le_bytes 4 first_lba);;
  let sectors := uval disk_size / SECTOR_SIZE in
  number_of_sectors ← ok_or_throw (if sectors <? 2 ^ 32 then Some (U32 sectors) else None)
                        Gpt.InvalidDiskSize;
  put (to_le_bytes 4 number_of_sectors);;
  put (zeros (MBR_PARTITION_ENTRY_SIZE * 3));;
  put [U8 0x55; U8 0xAA].

Definition write_guid (guid : Uuid) : prog S Gpt.Error () :=
  put (to_le_bytes 4 (uuid_0 guid));;
  put (to_le_bytes 2 (uuid_1 guid));;
  put (to_le_bytes 2 (uuid_2 guid));;
  put (uuid_3 guid).
End gpt.

Record GptHeader := {
  signature : list u8;
  revision : list u8;
  header_size : u32;
  header_crc32 : u32;
  current_lba : u64;
  backup_lba : u64;
  first_usable_lba : u64;
  last_usable_lba : u64;
  header_guid : Uuid;
  partition_entries_lba : u64;
  num_partition_entries : u32;
  partition_entry_size : u32;
  entries_crc32 : u32
}.

Record GptPartitionEntry := {
  partition_type_guid : Uuid;
  unique_partition_guid : Uuid;
  first_lba : u64;
  last_lba : u64;
  attributes : u64;
  partition_name : list u16
}.

Section headers.
Context {S : Type} `{Sink S}.

Definition GptHeader_write_bytes (h : GptHeader) : prog S Gpt.Error () :=
  put (signature h);;
  put (revision h);;
  put (to_le_bytes 4 (header_size h));;
  put (to_le_bytes 4 (header_crc32 h));;
  put (zeros 4);;
  put (to_le_bytes 8 (current_lba h));;
  put (to_le_bytes 8 (backup_lba h));;
  put (to_le_bytes 8 (first_usable_lba h));;
  put (to_le_bytes 8 (last_usable_lba h));;
  write_guid (header_guid h);;
  put (to_le_bytes 8 (partition_entries_lba h));;
  put (to_le_bytes 4 (num_partition_entries h));;
  put (to_le_bytes 4 (partition_entry_size h));;
  put (to_le_bytes 4 (entries_crc32 h)).

(** [for code_unit in &self.partition_name]. *)
Fixpoint write_units (units : list u16) : prog S Gpt.Error () :=
  match units with
  | [] => mret ()
  | code_unit :: units => put (to_le_bytes 2 code_unit);; write_units units
  end.

Definition GptPartitionEntry_write_bytes (e : GptPartitionEntry) : prog S Gpt.Error () :=
  write_guid (partition_type_guid e);;
  write_guid (unique_partition_guid e);;
  put (to_le_bytes 8 (first_lba e));;
  put (to_le_bytes 8 (last_lba e));;
  put (to_le_bytes 8 (attributes e));;
  write_units (partition_name e).
End headers.

(** The header [write_gpt_header] builds, with its checksum still zero. *)
Definition gpt_header_of (disk_guid : Uuid) (partition_entries_crc32 : u32)
    (secondary_header_lba last_usable : u64) (secondary : bool) : GptHeader := {|
  signature := bytes_of_string "EFI PART";
  revision := [U8 0; U8 0; U8 1; U8 0];
  header_size := U32 GPT_HEADER_SIZE;
  header_crc32 := U32 0;
  current_lba := if secondary then secondary_header_lba else U64 1;
  backup_lba := if secondary then U64 1 else secondary_header_lba;
  first_usable_lba := U64 (GPT_BEGINNING_SIZE / SECTOR_SIZE);
  last_usable_lba := last_usable;
  header_guid := disk_guid;
  partition_entries_lba := U64 2;
  num_partition_entries := U32 GPT_NUM_PARTITIONS;
  partition_entry_size := U32 GPT_PARTITION_ENTRY_SIZE;
  entries_crc32 := partition_entries_crc32
|}.

Definition with_crc (h : GptHeader) (crc : u32) : GptHeader := {|
  signature := signature h; revision := revision h; header_size := header_size h;
  header_crc32 := crc; current_lba := current_lba h; backup_lba := backup_lba h;
  first_usable_lba := first_usable_lba h; last_usable_lba := last_usable_lba h;
  header_guid := header_guid h; partition_entries_lba := partition_entries_lba h;
  num_partition_entries := num_partition_entries h; partition_entry_size := partition_entry_size h;
  entries_crc32 := entries_crc32 h
|}.

Section gpt_header.
Context {S : Type} `{Sink S} (crc32 : list u8 → u32).

Definition write_gpt_header (disk_guid : Uuid) (partition_entries_crc32 : u32)
    (secondary_table_offset : u64) (secondary : bool) : prog S Gpt.Error () :=
  table_end ← checked (add_checked secondary_table_offset (U64 GPT_END_SIZE));
  secondary_header_lba ← checked (sub_checked (U64 (uval table_end / SECTOR_SIZE)) (U64 1));
  last_usable ← checked (sub_checked (U64 (uval secondary_table_offset / SECTOR_SIZE)) (U64 1));
  let gpt_header := gpt_header_of disk_guid partition_entries_crc32 secondary_header_lba
                      last_usable secondary in
  let '(r, header_without_crc) :=
    GptHeader_write_bytes gpt_header (mkBuffer [] GPT_HEADER_SIZE) in
  give_outcome r;;
  GptHeader_write_bytes (with_crc gpt_header (crc32 (buffer_bytes header_without_crc))).
End gpt_header.
