(* ===== verification/CompositeDisk.v ===== *)
(** * Composite disks and the opening of images

    The model of [disk/src/composite.rs], of the detection and opening of images
    in [disk/src/disk.rs] and of [open_file_or_duplicate] in
    [base/src/sys/linux/mod.rs], for a build with the features [composite-disk]
    and [android-sparse].  A composite disk is made of disks of a class of its
    own; [disk n] are the disks that can be opened with a nesting depth of [n],
    which is the bound the code puts on its recursion. *)

From S2P Require Import Prelude StdIo Checked DiskFile SparseImage Gpt.

(** ** Paths

    A [Path] is compared and taken apart by its components: empty components are
    dropped, and so is [.] unless it starts a relative path. *)

Record path := mkPath { p_absolute : bool; p_components : list (list u8) }.

#[global] Instance path_eq_dec : EqDecision path.
Proof. solve_decision. Defined.

Definition SLASH : Z := 47.
Definition dot : list u8 := [U8 46].

Definition named (c : list u8) : bool := negb (bool_decide (c = [] ∨ c = dot)).

(** The components that are kept of a list of components. *)
Definition normal (absolute : bool) (cs : list (list u8)) : list (list u8) :=
  match filter (λ c, c ≠ []) cs with
  | c :: cs' => (if bool_decide (c = dot) && negb absolute then [c] else filter (λ c, named c) [c])
                  ++ filter (λ c, named c) cs'
  | [] => []
  end.

(** [PathBuf::from]. *)
Definition path_from (s : list u8) : path :=
  let absolute := match s with c :: _ => uval c =? SLASH | [] => false end in
  mkPath absolute (normal absolute (split_on SLASH s)).

Definition is_relative (p : path) : bool := negb (p_absolute p).

(** [Path::parent], [Path::file_name], [Path::join]. *)
Definition parent (p : path) : option path :=
  match p_components p with
  | [] => None
  | cs => Some (mkPath (p_absolute p) (removelast cs))
  end.
Definition file_name (p : path) : option (list u8) := last (p_components p).
Definition join (p q : path) : path :=
  if p_absolute q then q
  else mkPath (p_absolute p) (normal (p_absolute p) (p_components p ++ p_components q)).

(** [str::parse::<i32>]: an optional sign and decimal digits, in range. *)
Fixpoint parse_digits (s : list u8) (acc : Z) : option Z :=
  match s with
  | [] => Some acc
  | c :: s => if (48 <=? c) && (c <=? 57) then parse_digits s (10 * acc + (c - 48)) else None
  end.
Definition parse_i32 (s : list u8) : option Z :=
  let in_i32 z := if (- 2 ^ 31 <=? z) && (z <? 2 ^ 31) then Some z else None in
  match s with
  | [] => None
  | c :: s' =>
      if uval c =? 45 then match s' with [] => None | _ => parse_digits s' 0 ≫= λ z, in_i32 (- z) end
      else if uval c =? 43 then match s' with [] => None | _ => parse_digits s' 0 ≫= in_i32 end
      else parse_digits s 0 ≫= in_i32
  end.

(** ** The specification of a composite disk

    The messages of [protos/src/cdisk_spec.proto], as the generated code has
    them. *)

Definition READ_ONLY : u32 := U32 0.
Definition READ_WRITE : u32 := U32 1.

Record ComponentDisk := {
  cd_file_path : rstring;
  cd_offset : u64;
  cd_read_write_capability : u32
}.
Record CompositeProto := {
  cp_version : u64;
  cp_component_disks : list ComponentDisk;
  cp_length : u64
}.

(** Opening files, [fstatfs], and the reader of protocol buffers; [path_inode]
    are the names of the files. *)
Class HostOpen (K : Type) := {
  path_inode : path → option Z;
  open_path : path → bool → prog K io_error File;
  dup_fd : Z → prog K io_error File;
  fs_type : File → prog K io_error Z;
  parse_from_reader : File → prog (K * u64) () CompositeProto
}.

(** A call ends, and counts as a failure if it does so with an error. *)
Definition answered {K E A} `{HostFiles K} (r : outcome E A) (k k' : K) : Prop :=
  match r with Returns _ => faults k' = faults k | Throws _ => (faults k < faults k')%nat | Aborts => False end.

Class HostOpenLaws (K : Type) `{HostFiles K} `{HostOpen K} : Prop := {
  open_path_law p writable k r k' :
    open_path p writable k = (r, k') →
    contents k' = contents k ∧ (signals k' ≤ signals k)%nat ∧
    match r with
    | Returns f => path_inode p = Some (f_inode f) ∧ f_writable f = writable ∧ faults k' = faults k
    | Throws _ => (faults k < faults k')%nat
    | Aborts => False
    end;
  dup_fd_law fd k r k' :
    dup_fd fd k = (r, k') →
    contents k' = contents k ∧ (signals k' ≤ signals k)%nat ∧ answered r k k';
  fs_type_law f k r k' :
    fs_type f k = (r, k') →
    contents k' = contents k ∧ (signals k' ≤ signals k)%nat ∧ answered r k k';
  parse_from_reader_law f s r s' :
    parse_from_reader f s = (r, s') →
    contents s'.1 = contents s.1 ∧ (signals s'.1 ≤ signals s.1)%nat ∧
    match r with Returns _ => faults s'.1 = faults s.1 | Throws _ => True | Aborts => False end
}.

(** ** Components *)

Record ComponentDiskPart (D : Type) := mkPart {
  part_file : D;
  part_offset : u64;
  part_length : u64;
  needs_fsync : bool
}.
Arguments mkPart {D} _ _ _ _.
Arguments part_file {D} _.
Arguments part_offset {D} _.
Arguments part_length {D} _.
Arguments needs_fsync {D} _.

(** [CompositeDiskFile]. *)
Record CompositeDiskFile (D : Type) := mkComposite { component_disks : list (ComponentDiskPart D) }.
Arguments mkComposite {D} _.
Arguments component_disks {D} _.

(** [Range<u64>]. *)
Record range := mkRange { range_start : u64; range_end : u64 }.

Definition range_intersection (a b : range) : option range :=
  let r := mkRange (umax (range_start a) (range_start b)) (umin (range_end a) (range_end b)) in
  if range_start r <? range_end r then Some r else None.
Definition ranges_overlap (a b : range) : bool :=
  match range_intersection a b with Some _ => true | None => false end.

(** ** Errors *)

Inductive disk_error :=
| BlockDeviceNew (e : io_error)
| CreateAndroidSparseDisk (e : Sparse.Error)
| CreateCompositeDisk (e : composite_error)
| CreateSingleFileDisk (e : io_error)
| Fdatasync (e : io_error)
| Fsync (e : io_error)
| HostFsType (e : io_error)
| MaxNestingDepthExceeded
| PunchHole (e : io_error)
| PunchHoleBlockDeviceFile (e : io_error)
| ReadingData (e : io_error)
| ReadingHeader (e : io_error)
| ReadToMem (e : io_error)
| SeekingFile (e : io_error)
| UnknownType
| WriteFromMem (e : io_error)
| WriteFromVec (e : io_error)
| WritingData (e : io_error)
| ToAsync (e : io_error)
| GuestMemoryError
| UnsupportedOperation
with composite_error :=
| DiskError (e : disk_error)
| DuplicatePartitionLabel (label : rstring)
| GptError (e : Gpt.Error)
| InvalidMagicHeader
| InvalidPath (path : list u8)
| InvalidProto
| InvalidSpecification
| OpenFile (e : io_error)
| ReadSpecificationError (e : io_error)
| UnalignedReadWrite (label : rstring)
| UnknownVersion (version : u64)
| WriteHeader (e : io_error)
| WriteProto
| WriteZeroFiller (e : io_error).

(** ** The composite disk *)

Definition COMPOSITE_DISK_VERSION : Z := 2.
Definition CDISK_MAGIC : list u8 := bytes_of_string "composite_disk" ++ [U8 0x1d].

Section composite.
Context {D : Type}.
Implicit Types disk : ComponentDiskPart D.

(** [ComponentDiskPart::range]; the sum can overflow. *)
Definition part_range disk : option range :=
  last ← add_checked (part_offset disk) (part_length disk);
  Some (mkRange (part_offset disk) last).

Definition in_range_of (r : range) (offset : u64) : bool :=
  (range_start r <=? offset) && (offset <? range_end r).

(** [disks.sort_by(|d1, d2| d1.offset.cmp(&d2.offset))], which is stable. *)
Fixpoint insert_part disk (disks : list (ComponentDiskPart D)) : list (ComponentDiskPart D) :=
  match disks with
  | [] => [disk]
  | d :: disks' =>
      if part_offset disk <=? part_offset d then disk :: disks else d :: insert_part disk disks'
  end.
Definition sort_parts (disks : list (ComponentDiskPart D)) : list (ComponentDiskPart D) :=
  foldr insert_part [] disks.

(** [disks.windows(2)]: two neighbours at the same offset. *)
Fixpoint same_offsets (disks : list (ComponentDiskPart D)) : bool :=
  match disks with
  | d1 :: ((d2 :: _) as rest) => (uval (part_offset d1) =? uval (part_offset d2)) || same_offsets rest
  | _ => false
  end.

Definition CompositeDiskFile_new (disks : list (ComponentDiskPart D))
    : outcome composite_error (CompositeDiskFile D) :=
  let disks := sort_parts disks in
  if same_offsets disks then Throws InvalidSpecification else Returns (mkComposite disks).

(** The loop of [from_file] that sets the lengths, up to the last disk. *)
Fixpoint set_lengths (disks : list (ComponentDiskPart D))
    : outcome composite_error (list (ComponentDiskPart D)) :=
  match disks with
  | d1 :: ((d2 :: _) as rest) =>
      length ← unwrap_or_abort (sub_checked (part_offset d2) (part_offset d1));
      if uval length =? 0 then Throws InvalidSpecification else
      rest ← set_lengths rest;
      Returns (mkPart (part_file d1) (part_offset d1) length (needs_fsync d1) :: rest)
  | _ => Returns disks
  end.

Definition set_last_length (total : u64) (disks : list (ComponentDiskPart D))
    : outcome composite_error (list (ComponentDiskPart D)) :=
  match last disks with
  | Some d =>
      if total <=? part_offset d then Throws InvalidSpecification else
      length ← unwrap_or_abort (sub_checked total (part_offset d));
      Returns (removelast disks ++ [mkPart (part_file d) (part_offset d) length (needs_fsync d)])
  | None => Throws InvalidSpecification
  end.

(** The end of [from_file]: [0..(disks.len() - 1)] overflows when there are no
    disks. *)
Definition assemble (total : u64) (disks : list (ComponentDiskPart D))
    : outcome composite_error (CompositeDiskFile D) :=
  let disks := sort_parts disks in
  unwrap_or_abort (sub_checked (U64 (lengthZ disks)) (U64 1));;
  disks ← set_lengths disks;
  disks ← set_last_length total disks;
  CompositeDiskFile_new disks.

Definition composite_length (c : CompositeDiskFile D) : option u64 :=
  match last (component_disks c) with
  | Some disk => add_checked (part_offset disk) (part_length disk)
  | None => Some (U64 0)
  end.

(** [disk_at_offset]: the position of the disk in the list. *)
Fixpoint position_of (offset : u64) (disks : list (ComponentDiskPart D)) : option (option nat) :=
  match disks with
  | [] => Some None
  | d :: disks =>
      r ← part_range d;
      if in_range_of r offset then Some (Some O)
      else i ← position_of offset disks; Some (option_map S i)
  end.
Definition disk_at_offset (offset : u64) (c : CompositeDiskFile D)
    : outcome io_error (nat * ComponentDiskPart D) :=
  i ← unwrap_or_abort (position_of offset (component_disks c));
  i ← ok_or_else i (KindError InvalidData);
  disk ← unwrap_or_abort (component_disks c !! i);
  Returns (i, disk).

(** The part of the slice that lies in the disk. *)
Definition in_disk (size offset : u64) disk : outcome io_error u64 :=
  slice_end ← unwrap_or_abort (add_checked offset size);
  disk_end ← unwrap_or_abort (add_checked (part_offset disk) (part_length disk));
  if uval disk_end <? uval slice_end then
    new_size ← unwrap_or_abort (sub_checked disk_end offset);
    if uval new_size <=? size then Returns new_size else Throws (KindError InvalidData)
  else Returns size.

(** An operation of the [i]th disk. *)
Definition on_part {K E A} (i : nat) disk (m : prog (K * D) E A)
    : prog (K * CompositeDiskFile D) E A := λ '(k, c),
  let '(r, (k', file)) := m (k, part_file disk) in
  (r, (k', mkComposite (<[i := mkPart file (part_offset disk) (part_length disk) (needs_fsync disk)]>
                          (component_disks c)))).

(** [disk.needs_fsync = true]. *)
Definition set_needs_fsync {K E} (i : nat) : prog (K * CompositeDiskFile D) E () :=
  '(k, c) ← get_state;
  put_state (k, mkComposite (alter (λ d, mkPart (part_file d) (part_offset d) (part_length d) true) i
                               (component_disks c))).
End composite.

Section composite_disk.
Context {K D : Type} `{DiskFile K D}.

Definition Composite_get_len : prog (K * CompositeDiskFile D) io_error u64 :=
  '(_, c) ← get_state; checked (composite_length c).
Definition Composite_set_len (_ : u64) : prog (K * CompositeDiskFile D) io_error () :=
  throw (KindError Other).

Definition Composite_read_at_volatile (size offset : u64)
    : prog (K * CompositeDiskFile D) io_error (list u8) :=
  '(_, c) ← get_state;
  '(i, disk) ← give_outcome (disk_at_offset offset c);
  subslice ← give_outcome (in_disk size offset disk);
  pos ← checked (sub_checked offset (part_offset disk));
  on_part i disk (read_at_volatile subslice pos).

Definition Composite_write_at_volatile (slice : list u8) (offset : u64)
    : prog (K * CompositeDiskFile D) io_error u64 :=
  '(_, c) ← get_state;
  '(i, disk) ← give_outcome (disk_at_offset offset c);
  subslice ← give_outcome (in_disk (U64 (lengthZ slice)) offset disk);
  pos ← checked (sub_checked offset (part_offset disk));
  bytes ← on_part i disk (write_at_volatile (takeZ (uval subslice) slice) pos);
  set_needs_fsync i;;
  mret bytes.

#[global] Instance Composite_DiskFile : DiskFile K (CompositeDiskFile D) := {|
  get_len := Composite_get_len;
  set_len := Composite_set_len;
  read_at_volatile := Composite_read_at_volatile;
  write_at_volatile := Composite_write_at_volatile
|}.
End composite_disk.

(** ** Opening images *)

Inductive ImageType := RawImage | CompositeDiskImage | AndroidSparseImage.

#[global] Instance ImageType_eq_dec : EqDecision ImageType.
Proof. solve_decision. Defined.

(** [Box<dyn DiskFile>], with components of type [D]. *)
Inductive any_disk (D : Type) :=
| RawDisk (f : File)
| SparseDisk (d : AndroidSparse)
| CompositeDisk (c : CompositeDiskFile D).
Arguments RawDisk {D} _.
Arguments SparseDisk {D} _.
Arguments CompositeDisk {D} _.

(** The disks of a nesting depth. *)
Fixpoint disk (max_nesting_depth : nat) : Type :=
  match max_nesting_depth with
  | O => Empty_set
  | S n => any_disk (disk n)
  end.

Section any_disk.
Context {K D : Type} `{HostFiles K} `{DiskFile K D}.

(** A call through the trait object. *)
Definition any_dispatch {A}
    (on_raw : prog (K * File) io_error A) (on_sparse : prog (K * AndroidSparse) io_error A)
    (on_composite : prog (K * CompositeDiskFile D) io_error A)
    : prog (K * any_disk D) io_error A := λ '(k, d),
  match d with
  | RawDisk f => let '(r, (k', f')) := on_raw (k, f) in (r, (k', RawDisk f'))
  | SparseDisk d => let '(r, (k', d')) := on_sparse (k, d) in (r, (k', SparseDisk d'))
  | CompositeDisk c => let '(r, (k', c')) := on_composite (k, c) in (r, (k', CompositeDisk c'))
  end.

#[global] Instance any_disk_DiskFile : DiskFile K (any_disk D) := {|
  get_len := any_dispatch get_len get_len get_len;
  set_len len := any_dispatch (set_len len) (set_len len) (set_len len);
  read_at_volatile size offset :=
    any_dispatch (read_at_volatile size offset) (read_at_volatile size offset)
      (read_at_volatile size offset);
  write_at_volatile slice offset :=
    any_dispatch (write_at_volatile slice offset) (write_at_volatile slice offset)
      (write_at_volatile slice offset)
|}.
End any_disk.

(** No disk has depth 0. *)
#[global] Instance empty_DiskFile {K} : DiskFile K Empty_set := {|
  get_len s := match (s.2 : Empty_set) with end;
  set_len _ s := match (s.2 : Empty_set) with end;
  read_at_volatile _ _ s := match (s.2 : Empty_set) with end;
  write_at_volatile _ _ s := match (s.2 : Empty_set) with end
|}.

#[global] Instance disk_DiskFile {K} `{HostFiles K} : ∀ n, DiskFile K (disk n) :=
  fix go n := match n with O => empty_DiskFile | S n => any_disk_DiskFile (H0 := go n) end.

Section opening.
Context {K : Type} `{HostFiles K} `{HostOpen K}.

(** A file that has just been opened: its position is 0. *)
Definition with_cursor {E A} (m : prog (K * u64) E A) : prog K E A := λ k,
  let '(r, (k', _)) := m (k, U64 0) in (r, k').

Definition EINVAL : Z := 22.

Definition proc_self_fd : path := path_from (bytes_of_string "/proc/self/fd").

Definition safe_descriptor_from_path (p : path) : prog K io_error (option File) :=
  if bool_decide (parent p = Some proc_self_fd) then
    raw_descriptor ←
      ok_or_throw (file_name p ≫= λ name, from_utf8 name ≫= λ s, parse_i32 (sbytes s))
        (OsError EINVAL);
    file ← dup_fd raw_descriptor; mret (Some file)
  else mret None.
Definition open_file_or_duplicate (p : path) (writable : bool) : prog K io_error File :=
  fd ← safe_descriptor_from_path p;
  match fd with
  | Some file => mret file
  | None => open_path p writable
  end.

Definition MAGIC_BLOCK_SIZE : Z := 4096.

Definition read_from_disk (file : File) (offset : Z) (len : u64)
    : prog (K * u64) disk_error (list u8) :=
  map_err SeekingFile (seek_start file offset);;
  map_err ReadingHeader (file_read_exact file len).

Definition detect_image_type (file : File) : prog (K * u64) disk_error ImageType :=
  disk_size ← map_err SeekingFile (on_host (lseek_end file));
  orig_seek ← map_err SeekingFile (stream_position file);
  map_err HostFsType (on_host (fs_type file));;
  let magic_read_len := umin disk_size (U64 MAGIC_BLOCK_SIZE) in
  bytes ← read_from_disk file 0 magic_read_len;
  map_err SeekingFile (seek_start file (uval orig_seek));;
  let magic := bytes ++ replicate (Z.to_nat (MAGIC_BLOCK_SIZE - lengthZ bytes)) (U8 0) in
  if bool_decide (takeZ (lengthZ CDISK_MAGIC) magic = CDISK_MAGIC) then mret CompositeDiskImage
  else if bool_decide (takeZ 4 magic = le_split 4 SPARSE_HEADER_MAGIC) then mret AndroidSparseImage
  else mret RawImage.

(** [CompositeDiskFile::from_file]; [create] is [create_disk_file] one level
    down. *)
Section from_file.
Context {D : Type} (create : File → bool → path → prog K disk_error D).

(** The closure that opens a component; [unwrap] of the parent of the path of the
    image can panic. *)
Definition open_component (proto : CompositeProto) (is_sparse_file : bool) (image_path : path)
    (disk : ComponentDisk) : prog K composite_error (ComponentDiskPart D) :=
  let writable := uval (cd_read_write_capability disk) =? READ_WRITE in
  let component_path := path_from (sbytes (cd_file_path disk)) in
  path ←
    (if is_relative component_path || (1 <? cp_version proto) then
       dir ← checked (parent image_path); mret (join dir component_path)
     else mret component_path);
  comp_file ← map_err OpenFile (open_file_or_duplicate path writable);
  file ← map_err DiskError (create comp_file (is_sparse_file && writable) path);
  mret (mkPart file (cd_offset disk) (U64 0) false).

Fixpoint open_components (proto : CompositeProto) (is_sparse_file : bool) (image_path : path)
    (disks : list ComponentDisk) : prog K composite_error (list (ComponentDiskPart D)) :=
  match disks with
  | [] => mret []
  | disk :: disks =>
      part ← open_component proto is_sparse_file image_path disk;
      parts ← open_components proto is_sparse_file image_path disks;
      mret (part :: parts)
  end.

Definition Composite_from_file (file : File) (is_sparse_file : bool) (image_path : path)
    : prog K composite_error (CompositeDiskFile D) :=
  proto ← with_cursor (
    map_err ReadSpecificationError (seek_start file 0);;
    magic_space ← map_err ReadSpecificationError
                    (file_read_exact file (U64 (lengthZ CDISK_MAGIC)));
    if negb (bool_decide (magic_space = CDISK_MAGIC)) then throw InvalidMagicHeader else
    proto ← map_err (λ _, InvalidProto) (parse_from_reader file);
    if COMPOSITE_DISK_VERSION <? cp_version proto then throw (UnknownVersion (cp_version proto))
    else mret proto);
  disks ← open_components proto is_sparse_file image_path (cp_component_disks proto);
  give_outcome (assemble (cp_length proto) disks).
End from_file.

(** [create_disk_file] and [create_disk_file_of_type]. *)
Fixpoint create_disk_file (max_nesting_depth : nat) (raw_image : File) (is_sparse_file : bool)
    (image_path : path) : prog K disk_error (disk max_nesting_depth) :=
  image_type ← with_cursor (detect_image_type raw_image);
  match max_nesting_depth return prog K disk_error (disk max_nesting_depth) with
  | O => throw MaxNestingDepthExceeded
  | S n =>
      match image_type with
      | RawImage => mret (RawDisk raw_image : disk (S n))
      | CompositeDiskImage =>
          c ← map_err CreateCompositeDisk
                (Composite_from_file (create_disk_file n) raw_image is_sparse_file image_path);
          mret (CompositeDisk c : disk (S n))
      | AndroidSparseImage =>
          d ← map_err CreateAndroidSparseDisk (with_cursor (from_file raw_image));
          mret (SparseDisk d : disk (S n))
      end
  end.
End opening.
