(* ===== verification/CompositeFacts.v ===== *)
(** * Facts about composite disks

    A composite disk whose components keep the contract of [DiskFile] keeps it
    itself: it shows its components side by side.  Components may share files as
    long as no file that one of them can write is part of another.  By recursion
    on the nesting depth, every disk that [create_disk_file] can open keeps the
    contract. *)

From S2P Require Import Prelude StdIo Checked DiskFile DiskFacts SparseImage SparseFacts CompositeDisk.

(** ** What a composite disk shows *)

Section view.
Context {D : Type} `{DiskView D}.
Implicit Types (p q : ComponentDiskPart D) (ps : list (ComponentDiskPart D)).

Definition covers p (j : Z) : Prop := part_offset p <= j < part_offset p + part_length p.
#[global] Instance covers_dec p j : Decision (covers p j) := _.

Fixpoint parts_byte (σ : store) ps (j : Z) : option u8 :=
  match ps with
  | [] => None
  | p :: ps =>
      if decide (covers p j) then disk_byte σ (part_file p) (j - part_offset p)
      else parts_byte σ ps j
  end.

Definition part_ok p : Prop :=
  disk_ok (part_file p) ∧ part_offset p + part_length p < 2 ^ 64.

(** The components follow one another without a gap. *)
Fixpoint contiguous ps : Prop :=
  match ps with
  | p1 :: ((p2 :: _) as rest) =>
      part_offset p1 + part_length p1 = part_offset p2 ∧ contiguous rest
  | _ => True
  end.

(** A file one component writes is no other component's. *)
Definition separate ps : Prop :=
  ∀ i j p q, i ≠ j → ps !! i = Some p → ps !! j = Some q →
    disk_winodes (part_file p) ## disk_inodes (part_file q).

#[global] Instance Composite_DiskView : DiskView (CompositeDiskFile D) := {|
  disk_ok c :=
    Forall part_ok (component_disks c) ∧ contiguous (component_disks c) ∧
    separate (component_disks c);
  disk_rw c j :=
    ∀ i p, component_disks c !! i = Some p → covers p j → disk_rw (part_file p) (j - part_offset p);
  disk_byte σ c j := parts_byte σ (component_disks c) j;
  disk_inodes c := ⋃ ((disk_inodes ∘ part_file) <$> component_disks c);
  disk_winodes c := ⋃ ((disk_winodes ∘ part_file) <$> component_disks c)
|}.

(** *** The component of an offset *)

Lemma contiguous_cons p ps : contiguous (p :: ps) → contiguous ps.
Proof. destruct ps; [done|]. by intros [_ ?]. Qed.

Lemma contiguous_after p ps q :
  contiguous (p :: ps) → q ∈ ps → part_offset p + part_length p <= part_offset q.
Proof.
  revert p. induction ps as [|p2 ps IH]; intros p Hc Hq; [by apply elem_of_nil in Hq|].
  destruct Hc as [Heq Hc]. apply elem_of_cons in Hq as [->|Hq]; [lia|].
  specialize (IH _ Hc Hq). pose proof (uint_range (part_length p2)). lia.
Qed.

Lemma parts_byte_at σ ps i p j :
  contiguous ps → ps !! i = Some p → covers p j →
  parts_byte σ ps j = disk_byte σ (part_file p) (j - part_offset p).
Proof.
  revert i. induction ps as [|q ps IH]; intros i Hc Hp Hj; [done|]. cbn.
  destruct i as [|i]; cbn in Hp.
  - injection Hp as ->. by rewrite decide_True.
  - rewrite decide_False; [by eapply IH; eauto using contiguous_cons|].
    pose proof (contiguous_after _ _ p Hc ltac:(by eapply list_elem_of_lookup_2)).
    unfold covers in *. lia.
Qed.

Lemma parts_byte_Some σ ps j b :
  parts_byte σ ps j = Some b →
  ∃ i p, ps !! i = Some p ∧ covers p j ∧ disk_byte σ (part_file p) (j - part_offset p) = Some b.
Proof.
  induction ps as [|p ps IH]; [done|]. cbn. case_decide as Hc.
  - intros Hb. by exists O, p.
  - intros (i & q & Hq & Hcov & Hb)%IH. by exists (S i), q.
Qed.

Lemma part_range_ok p :
  part_ok p → ∃ last, part_range p = Some (mkRange (part_offset p) last) ∧
    uval last = part_offset p + part_length p.
Proof.
  intros [_ Hlt]. unfold part_range.
  destruct (add_checked _ _) as [last|] eqn:E;
    [apply add_checked_Some in E|apply add_checked_None in E; cbn [Z.of_N] in E; lia].
  by exists last.
Qed.

Lemma position_of_spec ps (off : u64) :
  Forall part_ok ps →
  ∃ o, position_of off ps = Some o ∧
    match o with
    | Some i => ∃ p, ps !! i = Some p ∧ covers p off
    | None => ∀ σ, parts_byte σ ps off = None
    end.
Proof.
  induction 1 as [|p ps Hp _ IH]; [by exists None|]. cbn [position_of].
  destruct (part_range_ok p Hp) as (last & -> & Hlast). cbn [mbind option_bind].
  destruct (in_range_of _ off) eqn:E; unfold in_range_of in E; cbn in E.
  - exists (Some O). split; [done|]. exists p. split; [done|]. unfold covers. zbool. lia.
  - destruct IH as (o & -> & Ho). cbn [mbind option_bind]. eexists. split; [done|].
    destruct o as [i|]; cbn; [done|]. intros σ. rewrite decide_False; [done|].
    unfold covers. intros Hc. rewrite (proj2 (Z.leb_le _ _)) in E by lia.
    cbn in E. zbool. lia.
Qed.

Lemma disk_at_offset_spec c (off : u64) :
  disk_ok c →
  match disk_at_offset off c with
  | Returns (i, p) => component_disks c !! i = Some p ∧ covers p off ∧ part_ok p
  | Throws e => e = KindError InvalidData ∧ ∀ σ, disk_byte σ c off = None
  | Aborts => False
  end.
Proof.
  intros (Hok & Hc & _). unfold disk_at_offset.
  destruct (position_of_spec _ off Hok) as (o & -> & Ho). cbn [mbind outcome_bind unwrap_or_abort].
  destruct o as [i|]; [|done]. destruct Ho as (p & Hp & Hcov). cbn [ok_or_else mbind outcome_bind].
  rewrite Hp. cbn [unwrap_or_abort mbind outcome_bind]. split_and!; [done|done|].
  by eapply Forall_lookup_1.
Qed.

Lemma in_disk_spec p (size off : u64) :
  part_ok p → covers p off → off + size < 2 ^ 64 →
  ∃ n, in_disk size off p = Returns n ∧
    uval n = Z.min size (part_offset p + part_length p - off).
Proof.
  intros [_ Hp] Hc Hlt. unfold in_disk, covers in *.
  destruct (add_checked off size) as [last|] eqn:E;
    [apply add_checked_Some in E|apply add_checked_None in E; cbn [Z.of_N] in E; lia].
  destruct (add_checked (part_offset p) _) as [dend|] eqn:E2;
    [apply add_checked_Some in E2|apply add_checked_None in E2; cbn [Z.of_N] in E2; lia].
  cbn [mbind outcome_bind unwrap_or_abort]. destruct (Z.ltb_spec dend last); [|exists size; split; [done|lia]].
  destruct (sub_checked dend off) as [n|] eqn:E3;
    [apply sub_checked_Some in E3|apply sub_checked_None in E3; lia].
  cbn [mbind outcome_bind unwrap_or_abort]. destruct (Z.leb_spec n size); [|lia].
  exists n. split; [done|lia].
Qed.

(** *** Replacing a component *)

(** [q] stands where [p] stood and uses the same files. *)
Definition same_place p q : Prop :=
  part_offset q = part_offset p ∧ part_length q = part_length p ∧
  disk_inodes (part_file q) = disk_inodes (part_file p) ∧
  disk_winodes (part_file q) = disk_winodes (part_file p).

Lemma contiguous_insert ps i p q :
  ps !! i = Some p → part_offset q = part_offset p → part_length q = part_length p →
  contiguous ps → contiguous (<[i := q]> ps).
Proof.
  intros Hp Ho Hl. revert i Hp. induction ps as [|p1 ps IH]; intros i Hp Hc; [done|].
  destruct i as [|i]; cbn in *.
  - injection Hp as ->. destruct ps as [|p2 ps]; [done|]. by rewrite Ho, Hl.
  - destruct ps as [|p2 ps]; [done|]. destruct Hc as [Heq Hc]. specialize (IH i Hp Hc).
    destruct i as [|i]; cbn in *; [|done]. injection Hp as ->.
    split; [by rewrite Ho|done].
Qed.

Lemma union_insert (f : ComponentDiskPart D → gset Z) ps i p q :
  ps !! i = Some p → f q = f p → ⋃ (f <$> <[i := q]> ps) = ⋃ (f <$> ps).
Proof.
  intros Hp Hf. rewrite list_fmap_insert, Hf.
  rewrite list_insert_id; [done|]. by rewrite list_lookup_fmap, Hp.
Qed.

Lemma separate_insert ps i p q :
  ps !! i = Some p → same_place p q → separate ps → separate (<[i := q]> ps).
Proof.
  intros Hp (_ & _ & Hi & Hw) Hsep a b x y Hne Hx Hy.
  assert (∀ a x, <[i:=q]> ps !! a = Some x → ∃ x', ps !! a = Some x' ∧
      disk_inodes (part_file x) = disk_inodes (part_file x') ∧
      disk_winodes (part_file x) = disk_winodes (part_file x')) as Hold.
  { intros c z Hz. destruct (decide (i = c)) as [<-|Hic].
    - rewrite list_lookup_insert_eq in Hz by (by eapply lookup_lt_Some).
      injection Hz as <-. eauto.
    - rewrite list_lookup_insert_ne in Hz by done. eauto. }
  destruct (Hold _ _ Hx) as (x' & Hx' & _ & Hwx), (Hold _ _ Hy) as (y' & Hy' & Hiy & _).
  rewrite Hwx, Hiy. by eapply Hsep.
Qed.

Lemma composite_ok_insert ps i p q :
  disk_ok (mkComposite ps) → ps !! i = Some p → same_place p q → disk_ok (part_file q) →
  disk_ok (mkComposite (<[i := q]> ps)).
Proof.
  intros (Hok & Hc & Hs) Hp Hq Hqok. pose proof Hq as (Ho & Hl & _ & _). split_and!; cbn in *.
  - apply Forall_insert; [done|]. split; [done|]. rewrite Ho, Hl.
    by destruct (Forall_lookup_1 _ _ _ _ Hok Hp).
  - by eapply contiguous_insert.
  - by eapply separate_insert.
Qed.

Lemma composite_inodes_insert ps i p q :
  ps !! i = Some p → same_place p q →
  disk_inodes (mkComposite (<[i := q]> ps)) = disk_inodes (mkComposite ps) ∧
  disk_winodes (mkComposite (<[i := q]> ps)) = disk_winodes (mkComposite ps).
Proof. intros Hp (_ & _ & Hi & Hw). split; cbn; by eapply union_insert. Qed.

Lemma composite_rw_insert ps i p q j :
  ps !! i = Some p → part_offset q = part_offset p → part_length q = part_length p →
  (∀ j, disk_rw (part_file q) j ↔ disk_rw (part_file p) j) →
  disk_rw (mkComposite (<[i := q]> ps)) j ↔ disk_rw (mkComposite ps) j.
Proof.
  intros Hp Ho Hl Hrw. cbn. pose proof (lookup_lt_Some _ _ _ Hp) as Hlt. split; intros Hc a x Hx Hcov.
  - destruct (decide (i = a)) as [<-|Hia].
    + rewrite Hp in Hx. injection Hx as <-. rewrite <- Hrw, <- Ho.
      apply (Hc i); [by apply list_lookup_insert_eq|]. unfold covers in *. by rewrite Ho, Hl.
    + apply (Hc a); [by rewrite list_lookup_insert_ne|done].
  - destruct (decide (i = a)) as [<-|Hia].
    + rewrite list_lookup_insert_eq in Hx by done. injection Hx as <-. rewrite Hrw, Ho.
      apply (Hc i); [done|]. unfold covers in *. by rewrite Ho, Hl in Hcov.
    + rewrite list_lookup_insert_ne in Hx by done. by apply (Hc a).
Qed.
End view.

Section view_laws.
Context {D : Type} `{DiskView D}.
Implicit Types (c : CompositeDiskFile D) (p : ComponentDiskPart D).

Lemma part_eta p : mkPart (part_file p) (part_offset p) (part_length p) (needs_fsync p) = p.
Proof. by destruct p. Qed.

Lemma insert_same c i p :
  component_disks c !! i = Some p → mkComposite (<[i := p]> (component_disks c)) = c.
Proof. intros Hp. rewrite list_insert_id by done. by destruct c. Qed.

Lemma composite_byte σ c i p j :
  disk_ok c → component_disks c !! i = Some p → covers p j →
  disk_byte σ c j = disk_byte σ (part_file p) (j - part_offset p).
Proof. intros (_ & Hc & _) Hp Hj. by eapply parts_byte_at. Qed.

Lemma composite_shows σ c i p (off : u64) bs :
  disk_ok c → component_disks c !! i = Some p → part_offset p <= off →
  off + lengthZ bs <= part_offset p + part_length p →
  shows σ (part_file p) (off - part_offset p) bs → shows σ c off bs.
Proof.
  intros Hok Hp Hle Hfit Hsh a b Hb. pose proof (lookup_lt_Some _ _ _ Hb).
  erewrite composite_byte; [|done|done|unfold covers, lengthZ in *; lia].
  rewrite <- (Hsh _ _ Hb). f_equal. lia.
Qed.

Context `{!ViewLaws D} {K : Type} `{HostFiles K}.
Implicit Types k : K.

Lemma composite_frame σ σ' c j :
  (∀ i, i ∈ disk_inodes c → σ !! i = σ' !! i) → disk_byte σ c j = disk_byte σ' c j.
Proof.
  intros Hf. cbn in *. induction (component_disks c) as [|p ps IH]; [done|]. cbn in *.
  rewrite (byte_frame σ σ' (part_file p)) by set_solver. rewrite IH by set_solver. done.
Qed.

(** The state after a component was written. *)
Lemma composite_write_spared k k' c i p q off m :
  disk_ok c → component_disks c !! i = Some p → same_place p q →
  (∀ a, a ∉ disk_winodes (part_file p) → contents k' !! a = contents k !! a) →
  spared (contents k) (contents k') (part_file p) (part_file q) (off - part_offset p) m →
  spared (contents k) (contents k') c (mkComposite (<[i := q]> (component_disks c))) off m.
Proof.
  intros (Hpok & Hc & Hsep) Hp Hq Hf Hsp j b Hj Hb. pose proof Hq as (Ho & Hl & _ & _). cbn in *.
  apply parts_byte_Some in Hb as (a & x & Hx & Hcov & Hb).
  pose proof (lookup_lt_Some _ _ _ Hp) as Hlt.
  pose proof (contiguous_insert _ _ _ _ Hp Ho Hl Hc) as Hc'.
  destruct (decide (i = a)) as [<-|Hia].
  - rewrite Hp in Hx. injection Hx as <-.
    erewrite parts_byte_at; [|done|by rewrite list_lookup_insert_eq|unfold covers in *; by rewrite Ho, Hl].
    rewrite Ho. apply Hsp; [lia|done].
  - erewrite parts_byte_at; [|done|by rewrite list_lookup_insert_ne|done].
    rewrite <- Hb. apply byte_frame. intros z Hz. apply Hf.
    pose proof (Hsep _ _ _ _ Hia Hp Hx). set_solver.
Qed.

Lemma elem_of_winodes c i p z :
  component_disks c !! i = Some p → z ∈ disk_winodes (part_file p) → z ∈ disk_winodes c.
Proof.
  intros Hp Hz. cbn. apply elem_of_union_list. eexists. split; [|done].
  apply list_elem_of_fmap. exists p. split; [done|]. by eapply list_elem_of_lookup_2.
Qed.

Lemma alter_insert_same {A} (g : A → A) (l : list A) i x : alter g i (<[i := x]> l) = <[i := g x]> l.
Proof. revert i. induction l as [|y l IH]; intros [|i]; cbn; [done..|]. by rewrite IH. Qed.

(** A write that moved [w] bytes of the [n] that lie in the component. *)
Lemma composite_written k k' c i p file fs (off : u64) bs (n w : u64) :
  disk_ok c → component_disks c !! i = Some p → covers p off →
  uval n = Z.min (lengthZ bs) (part_offset p + part_length p - off) →
  written k k' (part_file p) file (off - part_offset p) (takeZ n bs) w →
  written k k' c
    (mkComposite (<[i := mkPart file (part_offset p) (part_length p) fs]> (component_disks c)))
    off bs w.
Proof.
  intros Hok Hp Hcov Hn (Hw & Hsh & Hsp & Hfok & Hi & Hwi & Hf).
  set (q := mkPart file (part_offset p) (part_length p) fs).
  assert (same_place p q) as Hq by done. pose proof (lengthZ_nonneg bs). unfold covers in Hcov.
  pose proof (uint_range n) as Hnr. rewrite lengthZ_takeZ in Hw by lia.
  pose proof (composite_ok_insert (component_disks c) i p q ltac:(by destruct c) Hp Hq Hfok) as Hok'.
  destruct (composite_inodes_insert _ i p q Hp Hq) as [Hin Hwin].
  assert (takeZ w (takeZ n bs) = takeZ w bs) as Htt.
  { rewrite !takeZ_take, take_take. f_equal. lia. }
  rewrite Htt in Hsh. unfold written. split_and!; [lia|lia| | |done|by destruct c|by destruct c|].
  - apply (composite_shows _ _ i q); [done|apply list_lookup_insert_eq; by eapply lookup_lt_Some| | |done].
    + cbn. lia.
    + cbn. rewrite lengthZ_takeZ by lia. lia.
  - by eapply composite_write_spared.
  - intros z Hz. apply Hf. intros Hz'. apply Hz. by eapply elem_of_winodes.
Qed.

#[global] Instance Composite_ViewLaws : ViewLaws (CompositeDiskFile D).
Proof.
  split.
  - intros c. cbn. intros z Hz. apply elem_of_union_list in Hz as (X & HX & Hz).
    apply list_elem_of_fmap in HX as (p & -> & Hp). apply elem_of_union_list.
    exists (disk_inodes (part_file p)). split; [by apply (list_elem_of_fmap_2 (disk_inodes ∘ part_file))|].
    by apply winodes_inodes.
  - apply composite_frame.
Qed.
End view_laws.

(** ** The contract *)

Section composite_laws.
Context {K D : Type} `{DiskLaws K D}.
Implicit Types (c : CompositeDiskFile D) (p : ComponentDiskPart D) (k : K).

(** The places of a read or a write: the component and what of the slice lies in
    it. *)
Definition target c (size off : u64) : outcome io_error (nat * ComponentDiskPart D * u64 * u64) :=
  '(i, p) ← disk_at_offset off c;
  n ← in_disk size off p;
  pos ← unwrap_or_abort (sub_checked off (part_offset p));
  Returns (i, p, n, pos).

Lemma target_spec c (size off : u64) :
  disk_ok c → off + size < 2 ^ 64 →
  match target c size off with
  | Returns (i, p, n, pos) =>
      component_disks c !! i = Some p ∧ part_ok p ∧ covers p off ∧
      uval n = Z.min size (part_offset p + part_length p - off) ∧ uval pos = off - part_offset p
  | Throws e => e = KindError InvalidData ∧ ∀ σ, disk_byte σ c off = None
  | Aborts => False
  end.
Proof.
  intros Hok Hlt. unfold target. pose proof (disk_at_offset_spec c off Hok) as Hd.
  destruct (disk_at_offset off c) as [[i p]|e|]; [|done|done]. destruct Hd as (Hp & Hcov & Hpok).
  cbn [mbind outcome_bind]. destruct (in_disk_spec p size off Hpok Hcov Hlt) as (n & -> & Hn).
  cbn [mbind outcome_bind].
  destruct (sub_checked off (part_offset p)) as [pos|] eqn:E;
    [apply sub_checked_Some in E|apply sub_checked_None in E; unfold covers in Hcov; lia].
  done.
Qed.

Lemma composite_read_run (n off : u64) k c :
  read_at_volatile n off (k, c) =
  match target c n off with
  | Returns (i, p, m, pos) => on_part i p (read_at_volatile m pos) (k, c)
  | Throws e => (Throws e, (k, c))
  | Aborts => (Aborts, (k, c))
  end.
Proof.
  cbn [read_at_volatile Composite_DiskFile]. unfold Composite_read_at_volatile, target. run_prog.
  unfold give_outcome. destruct (disk_at_offset off c) as [[i p]|e|]; [|done|done].
  cbn [outcome_bind]. destruct (in_disk n off p) as [m|e|]; [|done|done]. cbn [outcome_bind].
  by destruct (sub_checked off (part_offset p)).
Qed.

Lemma composite_write_run bs (off : u64) k c :
  write_at_volatile bs off (k, c) =
  match target c (U64 (lengthZ bs)) off with
  | Returns (i, p, m, pos) =>
      match write_at_volatile (takeZ m bs) pos (k, part_file p) with
      | (Returns w, (k', file)) =>
          (Returns w, (k', mkComposite (alter (λ d, mkPart (part_file d) (part_offset d) (part_length d) true) i
             (<[i := mkPart file (part_offset p) (part_length p) (needs_fsync p)]> (component_disks c)))))
      | (o, (k', file)) =>
          (o, (k', mkComposite (<[i := mkPart file (part_offset p) (part_length p) (needs_fsync p)]>
                                  (component_disks c))))
      end
  | Throws e => (Throws e, (k, c))
  | Aborts => (Aborts, (k, c))
  end.
Proof.
  cbn [write_at_volatile Composite_DiskFile]. unfold Composite_write_at_volatile, target. run_prog.
  unfold give_outcome. destruct (disk_at_offset off c) as [[i p]|e|]; [|done|done].
  cbn [outcome_bind]. destruct (in_disk _ off p) as [m|e|]; [|done|done]. cbn [outcome_bind].
  destruct (sub_checked off (part_offset p)); [|done]. cbn [unwrap_or_abort outcome_bind].
  unfold on_part. by destruct (write_at_volatile _ _ _) as [[] [k' file]].
Qed.

Lemma composite_read_law (n off : u64) k c r k' c' :
  disk_ok c → off + n < 2 ^ 64 → read_at_volatile n off (k, c) = (r, (k', c')) →
  contents k' = contents k ∧ (signals k' ≤ signals k)%nat ∧ c' = c ∧
  match r with
  | Returns bs => lengthZ bs <= n ∧ shows (contents k) c off bs ∧ faults k' = faults k ∧
      (0 < n → is_Some (disk_byte (contents k) c off) → bs ≠ [])
  | Throws e => fails_unless (disk_byte (contents k) c off = None) e k k'
  | Aborts => disk_byte (contents k) c off = None
  end.
Proof.
  intros Hok Hlt. rewrite composite_read_run. pose proof (target_spec c n off Hok Hlt) as Ht.
  destruct (target c n off) as [[[[i p] m] pos]|e|]; [| |done].
  2: { destruct Ht as [-> Hb]. intros [= <- <- <-]. split_and!; [done..|by apply fails_because]. }
  destruct Ht as (Hp & [Hpok Hplt] & Hcov & Hm & Hpos). unfold on_part.
  destruct (read_at_volatile m pos (k, part_file p)) as [o [k1 file]] eqn:E. intros [= -> <- <-].
  pose proof Hcov as Hcov'. unfold covers in Hcov'.
  pose proof (uint_range (part_offset p)). pose proof (uint_range n).
  apply read_law in E as (Hc & Hs & -> & Hr); [|done|lia].
  rewrite part_eta, insert_same by done. split_and!; [done..|].
  pose proof (composite_byte (contents k) c i p off Hok Hp Hcov) as Hbyte. rewrite Hpos in Hr.
  destruct r as [bs|e|]; [|by rewrite Hbyte..]. destruct Hr as (Hl & Hsh & Hnf & Hne). split_and!.
  - lia.
  - eapply composite_shows; [done|done|lia|lia|done].
  - done.
  - intros Hn. rewrite Hbyte. apply Hne. lia.
Qed.

Lemma composite_write_law bs (off : u64) k c r k' c' :
  disk_ok c → off + lengthZ bs < 2 ^ 64 → write_at_volatile bs off (k, c) = (r, (k', c')) →
  disk_ok c' ∧ (signals k' ≤ signals k)%nat ∧
  disk_inodes c' = disk_inodes c ∧ disk_winodes c' = disk_winodes c ∧
  (∀ j, disk_rw c' j ↔ disk_rw c j) ∧
  (∀ i, i ∉ disk_winodes c → contents k' !! i = contents k !! i) ∧
  match r with
  | Returns m => m <= lengthZ bs ∧ shows (contents k') c' off (takeZ m bs) ∧
      spared (contents k) (contents k') c c' off m ∧
      (0 < m → faults k' = faults k) ∧
      (uval m = 0 → bs ≠ [] → disk_byte (contents k) c off ≠ None → (faults k < faults k')%nat)
  | Throws e =>
      contents k' = contents k ∧ c' = c ∧
      fails_unless (disk_byte (contents k) c off = None ∨ ¬ disk_rw c off) e k k'
  | Aborts => contents k' = contents k ∧ c' = c ∧ disk_byte (contents k) c off = None
  end.
Proof.
  intros Hok Hlt. rewrite composite_write_run. pose proof (lengthZ_nonneg bs).
  pose proof (uint_range off) as Hoff.
  assert (uval (U64 (lengthZ bs)) = lengthZ bs) as Hbs
    by (apply uval_to_uint_small; cbn [Z.of_N]; lia).
  pose proof (target_spec c (U64 (lengthZ bs)) off Hok ltac:(lia)) as Ht.
  destruct (target c _ off) as [[[[i p] n] pos]|e|]; [| |done].
  2: { destruct Ht as [-> Hb]. intros [= <- <- <-]. split_and!; [done..|]. apply fails_because; [by left|done]. }
  destruct Ht as (Hp & [Hpok Hplt] & Hcov & Hn & Hpos). rewrite Hbs in Hn.
  pose proof Hcov as Hcov'. unfold covers in Hcov'. pose proof (uint_range (part_offset p)).
  pose proof (uint_range n). assert (lengthZ (takeZ n bs) = n) as Hln by (rewrite lengthZ_takeZ; lia).
  destruct (write_at_volatile (takeZ n bs) pos (k, part_file p)) as [o [k1 file]] eqn:E.
  pose proof (composite_byte (contents k) c i p off Hok Hp Hcov) as Hbyte.
  assert (pos + lengthZ (takeZ n bs) < 2 ^ 64) as Hfit by lia.
  pose proof (write_law _ _ _ _ _ _ _ Hpok Hfit E) as (_ & Hs & _ & _ & Hrw & _ & Ho).
  destruct o as [w|e|].
  - apply write_at_written in E; [|done|done]. rewrite Hpos in E. cbn [fst snd] in E.
    rewrite alter_insert_same. intros [= <- <- <-].
    pose proof (composite_written k k1 c i p file true off bs n w Hok Hp Hcov Hn E)
      as (Hw & Hsh & Hsp & Hok' & Hi & Hwi & Hf). destruct Ho as (_ & _ & _ & Hnf & Hzero).
    split_and!; [done..| |done|lia|done|done|done|].
    + intros j. rewrite composite_rw_insert; [by destruct c|done..].
    + intros Hz Hbs0 Hb. apply Hzero; [done| |by rewrite Hpos, <- Hbyte].
      intros Hnil. rewrite Hnil, lengthZ_nil in Hln. destruct bs; [done|]. rewrite lengthZ_cons in Hn.
      pose proof (lengthZ_nonneg bs). lia.
  - destruct Ho as (Hc & -> & Hfail). rewrite part_eta, insert_same by done.
    intros [= <- <- <-]. rewrite Hc. split_and!; [done..|]. eapply fails_weaken; [done|].
    rewrite Hbyte, Hpos. intros [Hb|Hb]; [by left|right]. intros Hall. by apply Hb, (Hall i).
  - destruct Ho as (Hc & -> & Hb). rewrite part_eta, insert_same by done.
    intros [= <- <- <-]. rewrite Hc, Hbyte, <- Hpos. by split_and!.
Qed.

#[global] Instance Composite_DiskLaws : DiskLaws K (CompositeDiskFile D).
Proof. split; [apply _|apply composite_read_law|apply composite_write_law]. Qed.
End composite_laws.

(** ** Disks of any depth *)

#[global] Instance any_disk_DiskView {D} `{DiskView D} : DiskView (any_disk D) := {|
  disk_ok d := match d with RawDisk f => disk_ok f | SparseDisk s => disk_ok s | CompositeDisk c => disk_ok c end;
  disk_rw d j :=
    match d with RawDisk f => disk_rw f j | SparseDisk s => disk_rw s j | CompositeDisk c => disk_rw c j end;
  disk_byte σ d j :=
    match d with
    | RawDisk f => disk_byte σ f j | SparseDisk s => disk_byte σ s j | CompositeDisk c => disk_byte σ c j
    end;
  disk_inodes d :=
    match d with RawDisk f => disk_inodes f | SparseDisk s => disk_inodes s | CompositeDisk c => disk_inodes c end;
  disk_winodes d :=
    match d with RawDisk f => disk_winodes f | SparseDisk s => disk_winodes s | CompositeDisk c => disk_winodes c end
|}.

#[global] Instance any_disk_ViewLaws {D} `{DiskView D} `{!ViewLaws D} : ViewLaws (any_disk D).
Proof.
  split.
  - intros [f|s|c]; [apply (winodes_inodes f)|apply (winodes_inodes s)|apply (winodes_inodes c)].
  - intros σ σ' [f|s|c] j;
      [apply (byte_frame σ σ' f)|apply (byte_frame σ σ' s)|apply (byte_frame σ σ' c)].
Qed.

Section any_disk_laws.
Context {K D : Type} `{HostLaws K} `{!DiskFile K D, !DiskView D, !DiskLaws K D}.

#[global] Instance any_disk_DiskLaws : DiskLaws K (any_disk D).
Proof.
  split.
  - apply _.
  - intros n off k [f|s|c] r k' d' Hok Hlt; cbn [read_at_volatile any_disk_DiskFile any_dispatch];
      destruct (read_at_volatile n off _) as [o [k1 x]] eqn:E; intros [= -> <- <-];
      (apply read_law in E as (Hc & Hs & -> & Hr); [by split_and!|done|done]).
  - intros bs off k [f|s|c] r k' d' Hok Hlt; cbn [write_at_volatile any_disk_DiskFile any_dispatch];
      destruct (write_at_volatile bs off _) as [o [k1 x]] eqn:E; intros [= -> <- <-];
      (apply write_law in E as (Hx & Hs & Hi & Hw & Hrw & Hf & Hr); [|done|done]);
      (split_and!; [done..|]); (destruct r as [m|e|]; [done|by destruct Hr as (? & -> & ?)..]).
Qed.
End any_disk_laws.

#[global] Instance empty_DiskView : DiskView Empty_set := {|
  disk_ok d := match (d : Empty_set) with end;
  disk_rw d _ := match (d : Empty_set) with end;
  disk_byte _ d _ := match (d : Empty_set) with end;
  disk_inodes d := match (d : Empty_set) with end;
  disk_winodes d := match (d : Empty_set) with end
|}.
#[global] Instance disk_DiskView : ∀ n, DiskView (disk n) :=
  fix go n := match n with O => empty_DiskView | S n => @any_disk_DiskView _ (go n) end.

#[global] Instance disk_DiskLaws {K} `{HostLaws K} n : DiskLaws K (disk n).
Proof.
  induction n as [|n IH]; [|apply any_disk_DiskLaws].
  split; [split|..]; intros; by match goal with d : disk 0 |- _ => destruct d end.
Qed.
