(* ===== verification/CompositeOpen.v ===== *)
(** * Facts about opened disks

    Every disk that [create_disk_file] opens is well formed: a sparse image has
    its chunks one after another, the components of a composite disk follow one
    another and end at the length of the specification.  With the contract of
    the disks, what is written to an opened disk is what is read back. *)

From S2P Require Import Prelude StdIo Checked DiskFile DiskFacts SparseImage SparseFacts.
From S2P Require Import CompositeDisk CompositeFacts.

(** ** Sparse images *)

Lemma chunks_insert_None (key : u64) c m m' :
  chunks_insert key c m = (None, m') → Forall (λ x, uval x.1 <= key) m → m' = m ++ [(key, c)].
Proof.
  revert m'. induction m as [|[key' c'] m IH]; intros m'; cbn; [by intros [= <-]|].
  intros Hins [Hk Hm]%Forall_cons. cbn in Hk. destruct (Z.ltb_spec key key'); [lia|].
  destruct (Z.eqb_spec key key'); [done|]. destruct (chunks_insert key c m) as [old m''] eqn:E.
  injection Hins as -> <-. by rewrite (IH m'').
Qed.

Lemma chunks_at_keys_le start m :
  chunks_at start m → Forall (λ x, uval x.1 <= start + size_of_chunks m.*2) m.
Proof.
  revert start. induction m as [|[key c] m IH]; intros start Hat; constructor; cbn in *.
  - pose proof (size_of_chunks_nonneg m.*2). pose proof (uint_range (expanded_size c)). lia.
  - destruct Hat as [_ Hat]. eapply Forall_impl; [by apply (IH (start + expanded_size c))|]. cbn. lia.
Qed.

Lemma place_chunks_inv cs : ∀ (loc : u64) m m',
  place_chunks cs loc m = Returns m' → chunks_at 0 m → uval loc = size_of_chunks m.*2 →
  chunks_at 0 m' ∧ m'.*2 = m.*2 ++ cs.
Proof.
  induction cs as [|c cs IH]; intros loc m m' Hpl Hat Hloc; cbn in Hpl.
  { injection Hpl as <-. by rewrite app_nil_r. }
  destruct (chunks_insert loc c m) as [[?|] m1] eqn:E; [done|].
  apply chunks_insert_None in E; [|rewrite Hloc; by apply (chunks_at_keys_le 0)]. subst m1.
  destruct (add_checked loc (expanded_size c)) as [next|] eqn:En; [|done].
  apply add_checked_Some in En. cbn in Hpl. apply IH in Hpl as [Hat' Hm'].
  - split; [done|]. rewrite Hm', fmap_app, <- app_assoc. done.
  - apply chunks_at_app. split; [done|]. cbn. by rewrite <- Hloc.
  - rewrite fmap_app, size_of_chunks_app, En, Hloc. cbn. lia.
Qed.

Lemma sum_sizes_inv m : ∀ acc total : u64,
  sum_sizes m acc = Some total → uval total = acc + size_of_chunks m.*2.
Proof.
  induction m as [|[key c] m IH]; intros acc total; cbn; [intros [= <-]; lia|].
  destruct (add_checked acc (expanded_size c)) as [acc'|] eqn:E; [|done].
  apply add_checked_Some in E. cbn. intros ->%IH. lia.
Qed.

Lemma from_parts_inv file size cs d :
  from_parts file size cs = Returns d → Forall chunk_ok cs → disk_ok d ∧ as_file d = file.
Proof.
  unfold from_parts. intros Hd Hcs. destruct (place_chunks cs _ _) as [m|e|] eqn:E; [|done..].
  apply place_chunks_inv in E as [Hat Hm]; [|done|done]. cbn [mbind outcome_bind] in Hd.
  destruct (sum_sizes m _) as [total|] eqn:Et; [|done]. apply sum_sizes_inv in Et.
  cbn [mbind outcome_bind unwrap_or_abort] in Hd. change (uval (U64 0)) with 0 in Et.
  destruct (Z.eqb_spec total size) as [Heq|]; [|done]. injection Hd as <-. cbn in *.
  rewrite Hm in *. split_and!; [done|done|lia|done].
Qed.

(** [ends m Q s]: if [m] ends with a value, the value and the state satisfy [Q]. *)
Definition ends {S E A} (m : prog S E A) (Q : A → S → Prop) (s : S) : Prop :=
  ∀ a s', m s = (Returns a, s') → Q a s'.

Section ends.
Context {S E : Type}.

Lemma ends_ret {A} (a : A) (Q : A → S → Prop) s : Q a s → ends (E := E) (mret a) Q s.
Proof. by intros ? ?? [= <- <-]. Qed.
Lemma ends_throw {A} (e : E) (Q : A → S → Prop) s : ends (throw e) Q s.
Proof. by intros ???. Qed.
Lemma ends_bind {A B} (m : prog S E A) (f : A → prog S E B) Q s :
  ends m (λ a, ends (f a) Q) s → ends (m ≫= f) Q s.
Proof.
  unfold ends, mbind, prog_bind. intros Hm b s' Hb. destruct (m s) as [[a|e|] s1]; [|done..].
  by eapply Hm.
Qed.
Lemma ends_map_err {E' A} (g : E → E') (m : prog S E A) Q s : ends m Q s → ends (map_err g m) Q s.
Proof.
  unfold ends, map_err. intros Hm a s' Ha. destruct (m s) as [[?|e|] s1]; simplify_eq. by apply Hm.
Qed.
Lemma ends_mono {A} (m : prog S E A) (Q Q' : A → S → Prop) s :
  ends m Q s → (∀ a s', Q a s' → Q' a s') → ends m Q' s.
Proof. intros Hm HQ a s' Ha. by apply HQ, Hm. Qed.
Lemma ends_checked {A} (o : option A) (Q : A → S → Prop) s :
  (∀ a, o = Some a → Q a s) → ends (E := E) (checked o) Q s.
Proof. destruct o; [|done]. intros HQ a' s' [= <- <-]. by apply HQ. Qed.
Lemma ends_ok_or_throw {A} (o : option A) (e : E) (Q : A → S → Prop) s :
  (∀ a, o = Some a → Q a s) → ends (ok_or_throw o e) Q s.
Proof. destruct o; [|done]. intros HQ a' s' [= <- <-]. by apply HQ. Qed.
Lemma ends_give_outcome {A} (o : outcome E A) (Q : A → S → Prop) s :
  (∀ a, o = Returns a → Q a s) → ends (give_outcome o) Q s.
Proof. intros HQ a s' [= -> <-]. by apply HQ. Qed.
Lemma ends_get (Q : S → S → Prop) s : Q s s → ends (E := E) get_state Q s.
Proof. by intros ? ?? [= <- <-]. Qed.
Lemma ends_put (Q : () → S → Prop) s s' : Q () s' → ends (E := E) (put_state s') Q s.
Proof. by intros ? ?? [= <- <-]. Qed.
End ends.

Section cursor_ends.
Context {K : Type} `{HostLaws K}.

Lemma file_exact_returns fuel : ∀ (size off : u64) k (f : File) o s',
  read_exact_at_volatile fuel size off (k, f) = (Returns o, s') →
  contents s'.1 = contents k ∧ match o with Some bs => lengthZ bs = size | None => True end.
Proof.
  induction fuel as [|fuel IH]; intros size off k f o s'; cbn [read_exact_at_volatile];
    pose proof (uint_range size);
    (destruct (Z.leb_spec size 0); [intros [= <- <-]; split; [done|rewrite lengthZ_nil; lia]|]).
  { by intros [= <- <-]. }
  unfold mbind at 1, prog_bind at 1, catch. rewrite file_read_run.
  destruct (pread f size (as_off_t off) k) as [r k1] eqn:E.
  destruct (pread_law _ _ _ _ _ _ E) as (Hc & _ & Hr). destruct r as [bs|e|]; [|case_decide; [|done]|done].
  - destruct bs as [|b bs]; [done|]. set (bs' := b :: bs) in *. clearbody bs'.
    destruct Hr as (_ & Hl & _). destruct (Z.leb_spec (lengthZ bs') size); [|lia].
    destruct (add_checked off _) as [next|]; [|done]. run_prog.
    destruct (read_exact_at_volatile fuel _ next (k1, f)) as [[tl|e|] s2] eqn:E2; [|done..].
    apply IH in E2 as [Hc2 Ho2]. intros [= <- <-]. split; [congruence|].
    destruct tl as [tl|]; [|done]. cbn. pose proof (lengthZ_nonneg bs').
    rewrite uval_to_uint_small in Ho2 by (cbn [Z.of_N] in *; lia). rewrite lengthZ_app. lia.
  - intros E2. apply IH in E2 as [Hc2 Ho2]. by rewrite Hc2.
Qed.

Lemma ends_read (f : File) (n : u64) s (Q : list u8 → K * u64 → Prop) :
  (∀ bs s', contents s'.1 = contents s.1 → lengthZ bs = n → Q bs s') →
  ends (file_read_exact f n) Q s.
Proof.
  intros HQ. destruct s as [k pos]. unfold file_read_exact. apply ends_bind, ends_get. cbn beta iota.
  apply ends_bind. intros o s1. unfold zoom. cbn [fst snd].
  destruct (read_exact_at_volatile _ n pos (k, f)) as [r t] eqn:E. intros [= -> <-].
  apply file_exact_returns in E as [Hc Ho]. apply ends_bind, ends_checked. intros bs ->.
  apply ends_bind, ends_get. cbn beta iota. apply ends_bind, ends_put, ends_ret. by apply HQ.
Qed.

Lemma ends_seek_start (f : File) pos s (Q : u64 → K * u64 → Prop) :
  (∀ p s', contents s'.1 = contents s.1 → Q p s') → ends (seek_start f pos) Q s.
Proof.
  intros HQ. destruct s as [k p0]. unfold seek_start. apply ends_bind. intros [] s1. unfold on_host, zoom.
  cbn [fst snd]. destruct (lseek f pos k) as [r k1] eqn:E. intros [= -> <-].
  apply lseek_law in E as (Hc & _). apply ends_bind, ends_get. cbn beta iota.
  apply ends_bind, ends_put, ends_ret. by apply HQ.
Qed.

Lemma ends_seek_current (f : File) delta s (Q : u64 → K * u64 → Prop) :
  (∀ p s', contents s'.1 = contents s.1 → Q p s') → ends (seek_current f delta) Q s.
Proof.
  intros HQ. unfold seek_current. apply ends_bind, ends_get. destruct s as [k p]. by apply ends_seek_start.
Qed.

(** What [from_file] gives is well formed. *)
Lemma parse_chunk_ends (f : File) blk s :
  ends (parse_chunk f blk)
    (λ o s', contents s'.1 = contents s.1 ∧ match o with Some c => chunk_ok c | None => True end) s.
Proof.
  unfold parse_chunk. apply ends_bind, ends_map_err, ends_seek_current. intros p s1 Hc1.
  apply ends_bind, ends_map_err, ends_read. intros hdr s2 Hc2 _.
  apply ends_bind, ends_ok_or_throw. intros size _. apply ends_bind.
  eapply (ends_mono _ (λ o s', contents s'.1 = contents s.1 ∧
      match o with Some (Fill bs) => length bs = 4%nat | _ => True end)).
  - unfold chunk_of_type. repeat case_match; try apply ends_throw.
    + apply ends_bind, ends_map_err, ends_seek_current. intros _ s3 Hc3.
      apply ends_bind, ends_checked. intros start _. apply ends_ret. split; [congruence|done].
    + apply ends_bind, ends_map_err, ends_read. intros bs s3 Hc3 Hl. apply ends_ret.
      split; [congruence|]. unfold lengthZ in Hl. change (uval (U64 4)) with 4 in Hl. lia.
    + apply ends_ret. split; [congruence|done].
    + apply ends_ret. split; [congruence|done].
  - intros o s3 [Hc3 Ho]. apply ends_ret. split; [done|]. destruct o as [[]|]; done.
Qed.

Lemma parse_chunks_ends (f : File) blk n : ∀ s,
  ends (parse_chunks f blk n) (λ cs s', contents s'.1 = contents s.1 ∧ Forall chunk_ok cs) s.
Proof.
  induction n as [|n IH]; intros s; cbn; [apply ends_ret; done|].
  apply ends_bind. eapply ends_mono; [apply parse_chunk_ends|]. intros o s1 [Hc1 Ho].
  apply ends_bind. eapply ends_mono; [apply IH|]. intros cs s2 [Hc2 Hcs]. apply ends_ret.
  split; [congruence|]. destruct o; [by constructor|done].
Qed.

Lemma from_file_ends (f : File) s :
  ends (from_file f) (λ d s', contents s'.1 = contents s.1 ∧ disk_ok d ∧ as_file d = f) s.
Proof.
  unfold from_file. apply ends_bind, ends_map_err, ends_seek_start. intros _ s1 Hc1.
  apply ends_bind, ends_map_err, ends_read. intros hdr s2 Hc2 _. cbv zeta.
  do 3 (case_match; [apply ends_throw|]).
  apply ends_bind. eapply ends_mono; [apply parse_chunks_ends|]. intros cs s3 [Hc3 Hcs].
  apply ends_give_outcome. intros d Hd. apply from_parts_inv in Hd; [|done].
  split; [congruence|done].
Qed.
End cursor_ends.

(** ** Assembling components *)

Section assemble.
Context {D : Type}.
Implicit Types (p q : ComponentDiskPart D) (ps : list (ComponentDiskPart D)).

(** Offsets that do not decrease, and offsets that increase. *)
Fixpoint ordered ps : Prop :=
  match ps with
  | p1 :: ((p2 :: _) as rest) => part_offset p1 <= part_offset p2 ∧ ordered rest
  | _ => True
  end.
Fixpoint increasing ps : Prop :=
  match ps with
  | p1 :: ((p2 :: _) as rest) => part_offset p1 < part_offset p2 ∧ increasing rest
  | _ => True
  end.

(** Every disk reaches to the next one, the last one to the end. *)
Fixpoint lay_out (total : u64) ps : list (ComponentDiskPart D) :=
  match ps with
  | [] => []
  | p :: rest =>
      let after := match rest with q :: _ => part_offset q | [] => total end in
      mkPart (part_file p) (part_offset p) (U64 (after - part_offset p)) (needs_fsync p)
        :: lay_out total rest
  end.

Definition ends_before (total : u64) ps : Prop := ∀ p, last ps = Some p → part_offset p < total.

Lemma insert_part_perm p ps : insert_part p ps ≡ₚ p :: ps.
Proof. induction ps as [|q ps IH]; cbn; [done|]. case_match; [done|]. rewrite IH. apply Permutation_swap. Qed.

Lemma sort_parts_perm ps : sort_parts ps ≡ₚ ps.
Proof. induction ps as [|p ps IH]; [done|]. cbn. rewrite insert_part_perm. by f_equiv. Qed.

Lemma insert_part_ordered p ps : ordered ps → ordered (insert_part p ps).
Proof.
  induction ps as [|q ps IH]; [done|]. intros Ho. cbn [insert_part].
  destruct (Z.leb_spec (part_offset p) (part_offset q)) as [Hle|Hgt]; [by split|].
  destruct ps as [|q2 ps]; [by cbn; lia|]. destruct Ho as [Hq Ho]. specialize (IH Ho). revert IH.
  cbn [insert_part]. case_match; intros IH; split; try done; lia.
Qed.

Lemma sort_parts_ordered ps : ordered (sort_parts ps).
Proof. induction ps as [|p ps IH]; [done|]. by apply insert_part_ordered. Qed.

Lemma ordered_cons p ps : ordered (p :: ps) → ordered ps.
Proof. destruct ps; [done|]. by intros [_ ?]. Qed.

Lemma increasing_ordered ps : increasing ps → ordered ps.
Proof. induction ps as [|p [|q ps] IH]; [done..|]. intros [? ?]. split; [lia|by apply IH]. Qed.

Lemma sort_parts_id ps : ordered ps → sort_parts ps = ps.
Proof.
  induction ps as [|p ps IH]; [done|]. intros Ho. cbn [sort_parts foldr].
  change (foldr insert_part [] ps) with (sort_parts ps). rewrite IH by (by eapply ordered_cons).
  destruct ps as [|q ps]; [done|]. destruct Ho as [Hle _]. cbn.
  by destruct (Z.leb_spec (part_offset p) (part_offset q)); [|lia].
Qed.

Lemma increasing_same_offsets ps : increasing ps → same_offsets ps = false.
Proof.
  induction ps as [|p [|q ps] IH]; [done..|]. intros [Hlt Hi].
  change (same_offsets (p :: q :: ps))
    with ((uval (part_offset p) =? uval (part_offset q)) || same_offsets (q :: ps)).
  rewrite IH by done. by destruct (Z.eqb_spec (part_offset p) (part_offset q)); [lia|].
Qed.

Lemma lay_out_offsets total ps : part_offset <$> lay_out total ps = part_offset <$> ps.
Proof. induction ps as [|p ps IH]; [done|]. cbn. by rewrite IH. Qed.

Lemma increasing_offsets ps qs : part_offset <$> ps = part_offset <$> qs → increasing ps → increasing qs.
Proof.
  revert qs. induction ps as [|p ps IH]; intros [|q qs] Heq Hi; try done.
  cbn in Heq. injection Heq as Hpq Heq. destruct ps as [|p2 ps], qs as [|q2 qs]; try done.
  destruct Hi as [Hlt Hi]. pose proof (IH _ Heq Hi). cbn in Heq. injection Heq as H2 _.
  split; [congruence|done].
Qed.

Lemma set_last_length_cons total p q qs :
  set_last_length total (p :: q :: qs) =
  (rest ← set_last_length total (q :: qs); Returns (p :: rest)).
Proof.
  unfold set_last_length. change (last (p :: q :: qs)) with (last (q :: qs)).
  destruct (last (q :: qs)) as [z|]; [|done]. case_match; [done|].
  by destruct (sub_checked total (part_offset z)).
Qed.

Lemma set_lengths_cons p1 p2 ps :
  set_lengths (p1 :: p2 :: ps) =
  (length ← unwrap_or_abort (sub_checked (part_offset p2) (part_offset p1));
   if uval length =? 0 then Throws InvalidSpecification else
   rest ← set_lengths (p2 :: ps);
   Returns (mkPart (part_file p1) (part_offset p1) length (needs_fsync p1) :: rest)).
Proof. done. Qed.

Lemma set_lengths_head p ps ps' :
  set_lengths (p :: ps) = Returns ps' → ∃ q qs, ps' = q :: qs ∧ part_offset q = part_offset p.
Proof.
  destruct ps as [|p2 ps]; [intros [= <-]; eauto|]. rewrite set_lengths_cons.
  destruct (sub_checked _ _); [|done]. cbn [unwrap_or_abort mbind outcome_bind]. case_match; [done|].
  destruct (set_lengths (p2 :: ps)); [|done..]. cbn. intros [= <-]. eauto.
Qed.

(** The lengths of disks in order: an error unless the offsets increase and the
    last one is below the total. *)
Inductive set_lengths_result (total : u64) ps : outcome composite_error (list (ComponentDiskPart D)) → Prop :=
| lengths_set : increasing ps → ends_before total ps → set_lengths_result total ps (Returns (lay_out total ps))
| lengths_refused : ¬ (increasing ps ∧ ends_before total ps) →
    set_lengths_result total ps (Throws InvalidSpecification).

Lemma set_lengths_spec total ps :
  ordered ps → ps ≠ [] → set_lengths_result total ps (set_lengths ps ≫= set_last_length total).
Proof.
  induction ps as [|p [|p2 ps] IH]; intros Ho Hne; [done| |].
  - cbn. destruct (Z.leb_spec total (part_offset p)) as [Hle|Hlt].
    { right. intros [_ Hb]. specialize (Hb p eq_refl). lia. }
    destruct (sub_checked total (part_offset p)) as [len|] eqn:E;
      [apply sub_checked_Some in E|apply sub_checked_None in E; lia].
    cbn. rewrite <- (to_uint_uval len), E. left; [done|by intros ? [= <-]].
  - destruct Ho as [Hle Ho]. rewrite set_lengths_cons.
    destruct (sub_checked (part_offset p2) (part_offset p)) as [len|] eqn:E;
      [apply sub_checked_Some in E|apply sub_checked_None in E; lia].
    cbn [unwrap_or_abort mbind outcome_bind]. pose proof (uint_range len).
    destruct (Z.eqb_spec len 0) as [Hz|Hnz].
    { right. intros [[? _] _]. lia. }
    specialize (IH Ho ltac:(done)).
    destruct (set_lengths (p2 :: ps)) as [rest|e|] eqn:Es; cbn [mbind outcome_bind] in *.
    + destruct (set_lengths_head _ _ _ Es) as (q & qs & -> & _). rewrite set_last_length_cons.
      inversion IH as [Hi Hl Heq|Hno Heq]; cbn [mbind outcome_bind].
      * rewrite <- (to_uint_uval len), E. left; [split; [lia|done]|done].
      * right. intros [[_ Hi] Hb]. by apply Hno.
    + inversion IH as [|Hno Heq]; subst. right. intros [[_ Hi] Hb]. by apply Hno.
    + inversion IH.
Qed.

Lemma assemble_tail total ps :
  ordered ps → ps ≠ [] →
  let r := (disks ← set_lengths ps; disks ← set_last_length total disks; CompositeDiskFile_new disks) in
  (increasing ps ∧ ends_before total ps ∧ r = Returns (mkComposite (lay_out total ps))) ∨
  (¬ (increasing ps ∧ ends_before total ps) ∧ r = Throws InvalidSpecification).
Proof.
  intros Ho Hne r. unfold r. pose proof (set_lengths_spec total ps Ho Hne) as Hs.
  destruct (set_lengths ps) as [ls|e|]; cbn [mbind outcome_bind] in *;
    [|inversion Hs; by right|inversion Hs].
  inversion Hs as [Hi Hb Heq|Hno Heq]; cbn [mbind outcome_bind]; [left|by right].
  split_and!; [done|done|]. unfold CompositeDiskFile_new.
  pose proof (increasing_offsets ps (lay_out total ps) ltac:(by rewrite lay_out_offsets) Hi) as Hi'.
  rewrite sort_parts_id by (by apply increasing_ordered). by rewrite increasing_same_offsets.
Qed.

Lemma sort_parts_nil ps : sort_parts ps = [] → ps = [].
Proof. intros Hs. apply Permutation_nil. rewrite <- Hs. apply sort_parts_perm. Qed.

Lemma assemble_inv total ps c :
  assemble total ps = Returns c →
  ps ≠ [] ∧ increasing (sort_parts ps) ∧ ends_before total (sort_parts ps) ∧
  c = mkComposite (lay_out total (sort_parts ps)).
Proof.
  unfold assemble. destruct (sub_checked _ _) as [z|] eqn:E; [|done].
  cbn [unwrap_or_abort mbind outcome_bind]. intros Hc.
  assert (sort_parts ps ≠ []) as Hne by (intros Hn; by rewrite Hn in E).
  assert (ps ≠ []) by (by intros ->).
  destruct (assemble_tail total _ (sort_parts_ordered ps) Hne) as [(Hi & Hb & Heq)|[_ Heq]];
    cbn [mbind outcome_bind] in Heq; rewrite Heq in Hc; by simplify_eq.
Qed.

(** Disks in order, with a length past the last of them. *)
Lemma assemble_ok total ps :
  ps ≠ [] → lengthZ ps < 2 ^ 64 → increasing ps → ends_before total ps →
  assemble total ps = Returns (mkComposite (lay_out total ps)).
Proof.
  intros Hne Hlen Hi Hb. pose proof (increasing_ordered _ Hi) as Ho. unfold assemble.
  rewrite sort_parts_id by done. assert (0 < lengthZ ps) by (destruct ps; [done|unfold lengthZ; cbn; lia]).
  destruct (sub_checked _ _) as [z|] eqn:E.
  2: { apply sub_checked_None in E. rewrite uval_to_uint_small in E by (cbn [Z.of_N]; lia).
       change (uval (U64 1)) with 1 in E. lia. }
  cbn [unwrap_or_abort mbind outcome_bind].
  by destruct (assemble_tail total ps Ho Hne) as [(_ & _ & Heq)|[Hno _]]; [|destruct Hno].
Qed.

Lemma assemble_empty total : assemble total (@nil (ComponentDiskPart D)) = Aborts.
Proof. done. Qed.
End assemble.

(** ** Opened disks are well formed *)

Section lay_out_facts.
Context {D : Type} `{DiskView D}.
Implicit Types (p q : ComponentDiskPart D) (ps : list (ComponentDiskPart D)).

Lemma lay_out_contiguous total ps : increasing ps → contiguous (lay_out total ps).
Proof.
  induction ps as [|p [|q ps] IH]; intros Hi; [done..|]. destruct Hi as [Hlt Hi].
  split; [|by apply IH]. cbn. pose proof (uint_range (part_offset q)). pose proof (uint_range (part_offset p)).
  rewrite uval_to_uint_small; lia.
Qed.

Lemma increasing_last ps p : increasing ps → p ∈ ps → ∃ q, last ps = Some q ∧ part_offset p <= part_offset q.
Proof.
  revert p. induction ps as [|p1 [|p2 ps] IH]; intros p Hi Hp.
  - by apply elem_of_nil in Hp.
  - apply list_elem_of_singleton in Hp as ->. exists p1. split; [done|lia].
  - destruct Hi as [Hlt Hi]. apply elem_of_cons in Hp as [->|Hp]; [|by apply IH].
    destruct (IH p2 Hi (list_elem_of_here p2 ps)) as (q & Hq & Hle). exists q. split; [done|lia].
Qed.

(** The components of the laid out disk: the file and the offset of one of the
    disks, and a length that stays below the total. *)
Lemma lay_out_parts total ps p :
  increasing ps → ends_before total ps → p ∈ lay_out total ps →
  ∃ q, q ∈ ps ∧ part_file p = part_file q ∧ part_offset p = part_offset q ∧
    0 < part_length p ∧ part_offset p + part_length p <= total.
Proof.
  induction ps as [|q ps IH]; intros Hi Hb Hp; [by apply elem_of_nil in Hp|].
  pose proof (uint_range total) as Ht. pose proof (uint_range (part_offset q)) as Hq.
  cbn [lay_out] in Hp. apply elem_of_cons in Hp as [->|Hp].
  - exists q. split; [apply list_elem_of_here|]. cbn. split_and!; [done|done| |].
    all: destruct ps as [|q2 ps]; [pose proof (Hb q eq_refl)|destruct Hi as [? Hi];
        pose proof (uint_range (part_offset q2));
        destruct (increasing_last (q2 :: ps) q2 Hi (list_elem_of_here _ _)) as (z & Hz & ?);
        pose proof (Hb z Hz)]; rewrite uval_to_uint_small; lia.
  - destruct ps as [|q2 ps]; [by apply elem_of_nil in Hp|]. destruct Hi as [_ Hi].
    destruct (IH Hi Hb Hp) as (z & Hz & ?). exists z. split; [by apply list_elem_of_further|done].
Qed.
End lay_out_facts.

(** No component writes a file of another. *)
Definition composite_separated {D} `{DiskView D} (sep : D → Prop) (c : CompositeDiskFile D) : Prop :=
  separate (component_disks c) ∧ Forall (λ p, sep (part_file p)) (component_disks c).

Fixpoint separated (n : nat) : disk n → Prop :=
  match n return disk n → Prop with
  | O => λ _, True
  | S n => λ d, match d with CompositeDisk c => composite_separated (separated n) c | _ => True end
  end.

Section open_facts.
Context {K : Type} `{HostLaws K} `{!HostOpen K, !HostOpenLaws K}.

Definition same_store (k k' : K) : Prop := contents k' = contents k.

Lemma ends_on_host {E A T} (m : prog K E A) (s : K * T) (Q : A → K * T → Prop) :
  ends m (λ a k', Q a (k', s.2)) s.1 → ends (on_host m) Q s.
Proof.
  intros Hm a s'. unfold on_host, zoom. destruct (m s.1) as [r k'] eqn:E0. intros [= -> <-].
  by apply Hm.
Qed.

Lemma ends_with_cursor {E A} (m : prog (K * u64) E A) k (Q : A → K → Prop) :
  ends m (λ a s', Q a s'.1) (k, U64 0) → ends (with_cursor m) Q k.
Proof.
  intros Hm a k'. unfold with_cursor. destruct (m (k, U64 0)) as [r [k1 p]] eqn:E0. intros [= -> <-].
  by apply (Hm a (k1, p)).
Qed.

Lemma open_file_ends p writable k :
  ends (open_file_or_duplicate p writable) (λ _ k', same_store k k') k.
Proof.
  unfold open_file_or_duplicate, safe_descriptor_from_path. apply ends_bind. case_bool_decide.
  - apply ends_bind, ends_ok_or_throw. intros fd _. apply ends_bind. intros f k1 Hf. apply ends_ret.
    apply ends_ret. apply dup_fd_law in Hf. by destruct Hf.
  - apply ends_ret. intros f k1 Hf. apply open_path_law in Hf. by destruct Hf.
Qed.

Lemma detect_ends f s : ends (detect_image_type f) (λ _ s', contents s'.1 = contents s.1) s.
Proof.
  unfold detect_image_type, read_from_disk. apply ends_bind, ends_map_err, ends_on_host.
  intros len k1 Hk1. apply lseek_end_law in Hk1 as (Hc1 & _).
  apply ends_bind, ends_map_err, ends_seek_current. intros p s2 Hc2.
  apply ends_bind, ends_map_err, ends_on_host. intros t k3 Hk3. apply fs_type_law in Hk3 as (Hc3 & _).
  cbv zeta. apply ends_bind, ends_bind, ends_map_err, ends_seek_start. intros _ s4 Hc4.
  apply ends_map_err, ends_read. intros bs s5 Hc5 _.
  apply ends_bind, ends_map_err, ends_seek_start. intros _ s6 Hc6. cbn in *.
  repeat case_match; apply ends_ret; congruence.
Qed.

Section composite_ends.
Context {D : Type} `{!DiskView D} (sep : D → Prop)
  (create : File → bool → path → prog K disk_error D).
Hypothesis create_ends : ∀ f sp p k,
  ends (create f sp p) (λ d k', same_store k k' ∧ (sep d → disk_ok d)) k.

Lemma open_components_ends proto sp image_path disks : ∀ k,
  ends (open_components create proto sp image_path disks)
    (λ ps k', same_store k k' ∧ Forall (λ p, sep (part_file p) → disk_ok (part_file p)) ps) k.
Proof.
  induction disks as [|d disks IH]; intros k; cbn; [by apply ends_ret|].
  apply ends_bind. unfold open_component. apply ends_bind.
  eapply (ends_mono _ (λ _ k', k' = k)).
  { case_match; [|by apply ends_ret]. apply ends_bind, ends_checked. intros dir _. by apply ends_ret. }
  intros p ? ->. apply ends_bind, ends_map_err. eapply ends_mono; [apply open_file_ends|].
  intros f k1 Hk1. apply ends_bind, ends_map_err. eapply ends_mono; [apply create_ends|].
  intros file k2 [Hk2 Hfile]. apply ends_ret, ends_bind. eapply ends_mono; [apply IH|].
  intros ps k3 [Hk3 Hps]. apply ends_ret. unfold same_store in *. split; [congruence|by constructor].
Qed.

Lemma composite_from_file_ends f sp image_path k :
  ends (Composite_from_file create f sp image_path)
    (λ c k', same_store k k' ∧ (composite_separated sep c → disk_ok c)) k.
Proof.
  unfold Composite_from_file. apply ends_bind, ends_with_cursor.
  apply ends_bind, ends_map_err, ends_seek_start. intros _ s1 Hc1.
  apply ends_bind, ends_map_err, ends_read. intros magic s2 Hc2 _.
  case_match; [apply ends_throw|]. apply ends_bind, ends_map_err. intros proto s3 Hs3.
  apply parse_from_reader_law in Hs3 as (Hc3 & _). case_match; [apply ends_throw|]. apply ends_ret.
  apply ends_bind. eapply ends_mono; [apply open_components_ends|]. intros ps k4 [Hc4 Hps].
  apply ends_give_outcome. intros c Hc. apply assemble_inv in Hc as (_ & Hi & Hb & ->).
  unfold same_store in *. cbn in *. split; [congruence|]. intros [Hsep Hall]. cbn in *.
  split_and!; [|by apply lay_out_contiguous|done]. apply Forall_forall. intros p Hp.
  destruct (lay_out_parts _ _ _ Hi Hb Hp) as (q & Hq & Hf & Ho & _ & Hle).
  pose proof (uint_range (cp_length proto)). split; [|cbn [Z.of_N] in *; cbn; lia].
  rewrite Forall_forall in Hall, Hps. specialize (Hall _ Hp). cbn in Hall. rewrite Hf in *.
  apply Hps; [|done]. by rewrite <- (sort_parts_perm ps).
Qed.
End composite_ends.

Lemma create_disk_file_ends n : ∀ f sp image_path k,
  ends (create_disk_file n f sp image_path)
    (λ d k', same_store k k' ∧ (separated n d → disk_ok d)) k.
Proof.
  induction n as [|n IH]; intros f sp image_path k; cbn [create_disk_file];
    (apply ends_bind, ends_with_cursor; eapply ends_mono; [apply detect_ends|]);
    intros ty s1 Hc1; cbn in Hc1.
  { apply ends_throw. }
  destruct ty.
  - apply ends_ret. split; [done|]. by intros _.
  - apply ends_bind, ends_map_err. eapply ends_mono; [by eapply composite_from_file_ends|].
    intros c k2 [Hc2 Hok]. apply ends_ret. unfold same_store in *. split; [congruence|done].
  - apply ends_bind, ends_map_err, ends_with_cursor. eapply ends_mono; [apply from_file_ends|].
    intros d s2 (Hc2 & Hok & _). apply ends_ret. cbn in *. split; [|done].
    unfold same_store. congruence.
Qed.

(** What a transfer reads from a disk after [bs] was written at [off]. *)
Definition reads_back {D} `{DiskView D} (σ : store) (d : D) (off : Z) (bs : list u8)
    (o : Z) (bs' : list u8) : Prop :=
  ∀ i b, bs' !! i = Some b →
    if decide (off <= o + Z.of_nat i < off + lengthZ bs)
    then bs !! Z.to_nat (o + Z.of_nat i - off) = Some b
    else disk_byte σ d (o + Z.of_nat i) = Some b.

Lemma written_reads_back {D} `{!DiskFile K D, !DiskView D, !DiskLaws K D} k k' (d d' : D) off bs o bs' :
  written k k' d d' off bs (lengthZ bs) → shows (contents k') d' o bs' →
  readable (contents k) d o (lengthZ bs') → reads_back (contents k) d off bs o bs'.
Proof.
  intros (_ & Hsh & Hsp & _) Hsh' Hr i b Hb. pose proof (Hsh' _ _ Hb) as Hnew.
  pose proof (lookup_lt_Some _ _ _ Hb). rewrite takeZ_all in Hsh by done. case_decide as Hj.
  - destruct (lookup_lt_is_Some_2 bs (Z.to_nat (o + Z.of_nat i - off))) as [b' Hb'];
      [unfold lengthZ in *; lia|].
    rewrite Hb'. apply Hsh in Hb'. rewrite Z2Nat.id in Hb' by lia.
    replace (off + (o + Z.of_nat i - off)) with (o + Z.of_nat i) in Hb' by lia. congruence.
  - destruct (Hr (o + Z.of_nat i)) as [b' Hb']; [unfold lengthZ; lia|].
    rewrite Hb'. apply Hsp in Hb'; [congruence|done].
Qed.

(** C12. Opening an image of any kind and nesting (a raw file, an Android sparse
    image, a composite disk of such disks) changes no file, and if no component
    writes a file that another one uses ([separated]), the disk behaves as an array
    of bytes: [write_all_at_volatile] of bytes the disk has ends with all of them
    written, and every later [read_exact_at_volatile] gives the written bytes where
    the ranges meet and the old bytes everywhere else, across component and chunk
    boundaries, short transfers and interrupted calls.  Neither aborts.  A read fails
    only if a call of the host failed ([faults]), a write only if a call failed or
    part of its range is in a sparse image ([rw_range]), which cannot be written. *)
Theorem opened_disk_is_array n image is_sparse_file image_path k0 k (d : disk n) :
  create_disk_file n image is_sparse_file image_path k0 = (Returns d, k) → separated n d →
  contents k = contents k0 ∧
  ∀ (fuel : nat) bs (off : u64),
    off + lengthZ bs < 2 ^ 64 → readable (contents k) d off (lengthZ bs) →
    (length bs + signals k ≤ fuel)%nat →
    match write_all_at_volatile fuel bs off (k, d) with
    | (Returns (Some _), (k1, d1)) =>
        ∀ (fuel1 : nat) (m o : u64),
          o + m < 2 ^ 64 → readable (contents k) d o m → (Z.to_nat m + signals k1 ≤ fuel1)%nat →
          match read_exact_at_volatile fuel1 m o (k1, d1) with
          | (Returns (Some bs'), _) => lengthZ bs' = m ∧ reads_back (contents k) d off bs o bs'
          | (Throws e, (k2, _)) => (faults k1 < faults k2)%nat
          | _ => False
          end
    | (Throws e, (k1, _)) => rw_range d off (lengthZ bs) → (faults k < faults k1)%nat
    | _ => False
    end.
Proof.
  intros Hopen Hsep. destruct (create_disk_file_ends _ _ _ _ _ _ _ Hopen) as [Hc Hok].
  specialize (Hok Hsep). split; [done|]. intros fuel bs off Hlt Hrd Hfuel.
  destruct (write_all_at_volatile fuel bs off (k, d)) as [r [k1 d1]] eqn:E.
  apply write_all_spec in E as (m0 & Hw & Hr); [|done..].
  destruct r as [[[]|]|e|]; [|done|apply Hr|done]. destruct Hr as [-> _]. intros fuel1 m o Hlt1 Hrd1 Hfuel1. cbn [fst snd] in Hw.
  pose proof (written_readable _ _ _ _ _ _ _ _ _ Hw Hrd1) as Hrd2.
  destruct (read_exact_at_volatile fuel1 m o (k1, d1)) as [r2 [k2 d2]] eqn:E2.
  apply read_exact_spec in E2 as (_ & _ & Hr2); [|by destruct Hw as (_ & _ & _ & ? & _)|done..].
  destruct r2 as [[bs'|]|e|]; [|done|apply Hr2|done]. destruct Hr2 as (Hl & Hsh & _). split; [done|].
  eapply written_reads_back; [done|done|]. by rewrite Hl.
Qed.
End open_facts.
