(* ===== verification/CompositeCreate.v ===== *)
(** * Creating composite disks

    The model of [create_composite_disk] in [disk/src/composite.rs]: a composite
    disk with a protective MBR, a GUID partition table, the files of the
    partitions and a backup table.  The random identifiers of the crate [uuid], the
    checksum of [crc32fast] and the encoder of protocol buffers are parameters. *)

From S2P Require Import Prelude StdIo Checked DiskFile SparseImage Gpt CompositeDisk.

(** ** Strings in UTF-16 *)

(** The characters of a UTF-8 string. *)
Fixpoint utf8_chars (s : list u8) : list Z :=
  match s with
  | [] => []
  | b0 :: s0 =>
      if b0 <? 0x80 then uval b0 :: utf8_chars s0
      else if b0 <? 0xE0 then
        match s0 with
        | b1 :: s1 => Z.lor (Z.shiftl (Z.land b0 0x1F) 6) (Z.land b1 0x3F) :: utf8_chars s1
        | _ => []
        end
      else if b0 <? 0xF0 then
        match s0 with
        | b1 :: b2 :: s2 =>
            Z.lor (Z.shiftl (Z.land b0 0x0F) 12)
              (Z.lor (Z.shiftl (Z.land b1 0x3F) 6) (Z.land b2 0x3F)) :: utf8_chars s2
        | _ => []
        end
      else
        match s0 with
        | b1 :: b2 :: b3 :: s3 =>
            Z.lor (Z.shiftl (Z.land b0 0x07) 18)
              (Z.lor (Z.shiftl (Z.land b1 0x3F) 12)
                 (Z.lor (Z.shiftl (Z.land b2 0x3F) 6) (Z.land b3 0x3F))) :: utf8_chars s3
        | _ => []
        end
  end.

(** [str::encode_utf16]. *)
Definition utf16_units (c : Z) : list u16 :=
  if c <? 0x10000 then [U16 c]
  else [U16 (0xD800 + Z.shiftr (c - 0x10000) 10); U16 (0xDC00 + Z.land (c - 0x10000) 0x3FF)].
Definition encode_utf16 (s : rstring) : list u16 := concat (map utf16_units (utf8_chars (sbytes s))).

(** [Vec::resize]. *)
Definition resize {A} (n : nat) (x : A) (l : list A) : list A :=
  take n l ++ replicate (n - length l) x.

(** ** Partitions *)

Inductive ImagePartitionType := LinuxFilesystem | EfiSystemPartition.

Record PartitionInfo := {
  pi_label : rstring;
  pi_path : list u8;
  pi_partition_type : ImagePartitionType;
  pi_writable : bool;
  pi_size : u64
}.

Definition PARTITION_SIZE_SHIFT : Z := 12.
Definition DISK_SIZE_SHIFT : Z := 16.
Definition PARTITION_ALIGNMENT_SIZE : Z :=
  GPT_BEGINNING_SIZE - 2 * SECTOR_SIZE - GPT_NUM_PARTITIONS * GPT_PARTITION_ENTRY_SIZE.
Definition HEADER_PADDING_LENGTH : Z := SECTOR_SIZE - GPT_HEADER_SIZE.

Definition LINUX_FILESYSTEM_GUID : Uuid := Uuid_from_u128 0x0FC63DAF848347728E793D69D8477DE4.
Definition EFI_SYSTEM_PARTITION_GUID : Uuid := Uuid_from_u128 0xC12A7328F81F11D2BA4B00A0C93EC93B.

Definition guid (t : ImagePartitionType) : Uuid :=
  match t with
  | LinuxFilesystem => LINUX_FILESYSTEM_GUID
  | EfiSystemPartition => EFI_SYSTEM_PARTITION_GUID
  end.

Definition align_to_power_of_2 (val : u64) (align_log : Z) : option u64 :=
  let align := Z.shiftl 1 align_log in
  sum ← add_checked val (U64 (align - 1));
  Some (U64 (uval sum / align * align)).

Definition aligned_size (p : PartitionInfo) : option u64 :=
  align_to_power_of_2 (pi_size p) PARTITION_SIZE_SHIFT.

Definition create_gpt_entry (new_v4 : Uuid) (partition : PartitionInfo) (offset : u64)
    : option GptPartitionEntry :=
  size ← aligned_size partition;
  next ← add_checked offset size;
  last ← sub_checked (U64 (uval next / SECTOR_SIZE)) (U64 1);
  Some {|
    partition_type_guid := guid (pi_partition_type partition);
    unique_partition_guid := new_v4;
    first_lba := U64 (offset / SECTOR_SIZE);
    last_lba := last;
    attributes := U64 0;
    partition_name := resize 36 (U16 0) (encode_utf16 (pi_label partition))
  |}.

Definition create_component_disks (partition : PartitionInfo) (offset : u64)
    (zero_filler_path : rstring) : outcome composite_error (list ComponentDisk) :=
  size ← unwrap_or_abort (aligned_size partition);
  file_path ← ok_or_else (from_utf8 (pi_path partition)) (InvalidPath (pi_path partition));
  let component := {|
    cd_file_path := file_path;
    cd_offset := offset;
    cd_read_write_capability := if pi_writable partition then READ_WRITE else READ_ONLY
  |} in
  if negb (uval (pi_size partition) =? uval size) then
    if pi_writable partition then Throws (UnalignedReadWrite (pi_label partition))
    else
      filler_offset ← unwrap_or_abort (add_checked offset (pi_size partition));
      Returns [component; {| cd_file_path := zero_filler_path; cd_offset := filler_offset;
                             cd_read_write_capability := READ_ONLY |}]
  else Returns [component].

(** The loop over the partitions: the table of entries and the components so far,
    the labels and the offset of the next partition. *)
Record layout := mkLayout {
  lo_entries : buffer;
  lo_disks : list ComponentDisk;
  lo_labels : list (list u16);
  lo_next : u64
}.

Definition add_partition (new_v4 : Uuid) (zero_filler_path : rstring) (partition : PartitionInfo)
    (l : layout) : outcome composite_error layout :=
  gpt_entry ← unwrap_or_abort (create_gpt_entry new_v4 partition (lo_next l));
  if bool_decide (partition_name gpt_entry ∈ lo_labels l)
  then Throws (DuplicatePartitionLabel (pi_label partition)) else
  let '(r, entries) := GptPartitionEntry_write_bytes gpt_entry (lo_entries l) in
  match r with
  | Throws e => Throws (GptError e)
  | Aborts => Aborts
  | Returns _ =>
      disks ← create_component_disks partition (lo_next l) zero_filler_path;
      size ← unwrap_or_abort (aligned_size partition);
      next ← unwrap_or_abort (add_checked (lo_next l) size);
      Returns (mkLayout entries (lo_disks l ++ disks) (partition_name gpt_entry :: lo_labels l) next)
  end.

Fixpoint add_partitions (new_v4 : nat → Uuid) (zero_filler_path : rstring)
    (partitions : list PartitionInfo) (i : nat) (l : layout) : outcome composite_error layout :=
  match partitions with
  | [] => Returns l
  | partition :: partitions =>
      l ← add_partition (new_v4 i) zero_filler_path partition l;
      add_partitions new_v4 zero_filler_path partitions (S i) l
  end.

(** ** The tables *)

Section tables.
Context {S : Type} `{Sink S} (crc32 : list u8 → u32).

(** [file.write_all(bs).map_err(Error::WriteHeader)?]. *)
Definition put_header (bs : list u8) : prog S composite_error () := map_err WriteHeader (write_to bs).

Definition write_beginning (disk_guid : Uuid) (partitions : list u8) (partition_entries_crc32 : u32)
    (secondary_table_offset disk_size : u64) : prog S composite_error () :=
  map_err GptError (write_protective_mbr disk_size);;
  map_err GptError
    (write_gpt_header crc32 disk_guid partition_entries_crc32 secondary_table_offset false);;
  put_header (zeros HEADER_PADDING_LENGTH);;
  put_header partitions;;
  put_header (zeros PARTITION_ALIGNMENT_SIZE).

Definition write_end (disk_guid : Uuid) (partitions : list u8) (partition_entries_crc32 : u32)
    (secondary_table_offset disk_size : u64) : prog S composite_error () :=
  put_header partitions;;
  map_err GptError
    (write_gpt_header crc32 disk_guid partition_entries_crc32 secondary_table_offset true);;
  put_header (zeros HEADER_PADDING_LENGTH);;
  used_disk_size ← checked (add_checked secondary_table_offset (U64 GPT_END_SIZE));
  padding ← checked (sub_checked disk_size used_disk_size);
  put_header (zeros (uval padding)).
End tables.

(** The encoder of protocol buffers. *)
Class ProtoWriter (K : Type) := {
  proto_bytes : CompositeProto → list u8;
  write_to_writer : CompositeProto → File → prog (K * u64) () ()
}.

Section create.
Context {K : Type} `{HostFiles K} `{ProtoWriter K}.
Context (new_v4 : nat → Uuid) (crc32 : list u8 → u32).

Definition to_str (p : list u8) : outcome composite_error rstring :=
  ok_or_else (from_utf8 p) (InvalidPath p).

(** The components, the table of entries and the offset of the backup table. *)
Definition plan (partitions : list PartitionInfo) (zero_filler_path header_path : rstring)
    : outcome composite_error layout :=
  add_partitions new_v4 zero_filler_path partitions 0
    (mkLayout (mkBuffer [] (GPT_NUM_PARTITIONS * GPT_PARTITION_ENTRY_SIZE))
       [{| cd_file_path := header_path; cd_offset := U64 0; cd_read_write_capability := READ_ONLY |}]
       [] (U64 GPT_BEGINNING_SIZE)).

(** The files are written from their start. *)
Definition create_composite_disk (partitions : list PartitionInfo)
    (zero_filler_path header_path : list u8) (header_file : File)
    (footer_path : list u8) (footer_file output_composite : File) : prog K composite_error () :=
  zero_filler_path ← give_outcome (to_str zero_filler_path);
  header_path ← give_outcome (to_str header_path);
  footer_path ← give_outcome (to_str footer_path);
  l ← give_outcome (plan partitions zero_filler_path header_path);
  let secondary_table_offset := lo_next l in
  table_end ← checked (add_checked secondary_table_offset (U64 GPT_END_SIZE));
  disk_size ← checked (align_to_power_of_2 table_end DISK_SIZE_SHIFT);
  let footer := {| cd_file_path := footer_path; cd_offset := secondary_table_offset;
                   cd_read_write_capability := READ_ONLY |} in
  let partitions_buffer := buffer_bytes (lo_entries l) in
  let partition_entries_crc32 := crc32 partitions_buffer in
  let disk_guid := new_v4 (length partitions) in
  with_cursor
    (write_beginning (H := file_write_all header_file) crc32 disk_guid partitions_buffer
       partition_entries_crc32 secondary_table_offset disk_size);;
  with_cursor
    (write_end (H := file_write_all footer_file) crc32 disk_guid partitions_buffer
       partition_entries_crc32 secondary_table_offset disk_size);;
  let composite_proto := {| cp_version := U64 COMPOSITE_DISK_VERSION;
                            cp_component_disks := lo_disks l ++ [footer];
                            cp_length := disk_size |} in
  with_cursor (
    map_err WriteHeader (file_write_all output_composite CDISK_MAGIC);;
    map_err (λ _, WriteProto) (write_to_writer composite_proto output_composite)).
End create.
