(* ===== verification/GptFacts.v ===== *)
(** * Facts about partition tables

    What the writers of [Gpt] leave in a sink: [emits m bs] says that [m] appends
    [bs].  The sinks are a buffer, which fails only when it is full, and a file
    whose position is at its end. *)

From S2P Require Import Prelude StdIo Checked DiskFile DiskFacts Gpt.

(** ** Sinks and what they hold *)

(** [sink_safe s n]: a write of [n] bytes is sure to succeed.  [sink_frame] is what
    a write keeps of the rest of the state.  [sink_calm s s'] if no call of the host
    failed from [s] to [s'], and [sink_failed s s'] if one did, where it matters. *)
Class SinkView (S : Type) := {
  sink_bytes : S → option (list u8);
  sink_safe : S → Z → Prop;
  sink_frame : S → S → Prop;
  sink_calm : S → S → Prop;
  sink_failed : S → S → Prop
}.

(** [m] appends [bs], or fails where failing is possible, with an error in [X]. *)
Definition emits {S E A} `{SinkView S} (X : E → Prop) (m : prog S E A) (bs : list u8) : Prop :=
  ∀ s b, sink_bytes s = Some b →
  match m s with
  | (Returns _, s') =>
      sink_bytes s' = Some (b ++ bs) ∧ sink_frame s s' ∧ sink_calm s s' ∧
      ∀ n, sink_safe s (lengthZ bs + n) → sink_safe s' n
  | (Throws e, s') =>
      X e ∧ sink_frame s s' ∧ sink_failed s s' ∧ ∀ n, 0 <= n → ¬ sink_safe s (lengthZ bs + n)
  | (Aborts, _) => False
  end.

Class SinkLaws (S : Type) `{Sink S} `{SinkView S} : Prop := {
  sink_frame_trans : Transitive (sink_frame (S := S));
  sink_frame_refl : Reflexive (sink_frame (S := S));
  sink_calm_trans : Transitive (sink_calm (S := S));
  sink_calm_refl : Reflexive (sink_calm (S := S));
  sink_calm_failed s1 s2 s3 : sink_calm (S := S) s1 s2 → sink_failed s2 s3 → sink_failed s1 s3;
  write_to_emits bs : emits (λ _, True) (write_to bs) bs
}.

Section emits.
Context {S : Type} `{SinkLaws S}.

Lemma emits_seq {E A B} X (m : prog S E A) (m' : prog S E B) bs bs' :
  emits X m bs → emits X m' bs' → emits X (m;; m') (bs ++ bs').
Proof.
  intros Hm Hm' s b Hb. specialize (Hm s b Hb). unfold mbind, prog_bind.
  pose proof (lengthZ_nonneg bs). pose proof (lengthZ_nonneg bs').
  destruct (m s) as [[a|e|] s1]; [| |done].
  - destruct Hm as (Hb1 & Hf1 & Hc1 & Hs1). specialize (Hm' s1 _ Hb1).
    destruct (m' s1) as [[a'|e|] s2]; [| |done].
    + destruct Hm' as (Hb2 & Hf2 & Hc2 & Hs2).
      split_and!; [by rewrite Hb2, app_assoc|by eapply sink_frame_trans|by eapply sink_calm_trans|].
      intros n Hn. rewrite lengthZ_app, <- Z.add_assoc in Hn. auto.
    + destruct Hm' as (HX & Hf2 & Hc2 & Hs2). split; [done|]. split; [by eapply sink_frame_trans|].
      split; [by eapply sink_calm_failed|]. intros n Hn Hsafe.
      rewrite lengthZ_app, <- Z.add_assoc in Hsafe. apply (Hs2 n); auto.
  - destruct Hm as (HX & Hf & Hc & Hs). do 3 (split; [done|]). intros n Hn. rewrite lengthZ_app, <- Z.add_assoc.
    apply Hs. lia.
Qed.

Lemma emits_map_err {E E' A} (X : E → Prop) (X' : E' → Prop) (g : E → E') (m : prog S E A) bs :
  (∀ e, X e → X' (g e)) → emits X m bs → emits X' (map_err g m) bs.
Proof.
  intros Hg Hm s b Hb. specialize (Hm s b Hb). unfold map_err. destruct (m s) as [[a|e|] s1]; [done| |done].
  destruct Hm as (HX & ?). split; [by apply Hg|done].
Qed.

(** An error of the sink. *)
Definition gpt_io_error (e : Gpt.Error) : Prop := ∃ io, e = Gpt.WritingData io.

Lemma emits_put bs : emits gpt_io_error (put bs) bs.
Proof. eapply emits_map_err, write_to_emits. intros e _. by exists e. Qed.

Lemma emits_ret {E A} X (a : A) : emits X (mret (M := prog S E) a) [].
Proof.
  intros s b Hb. cbn. rewrite app_nil_r. split_and!; [done|apply sink_frame_refl|apply sink_calm_refl|]. intros n.
  by rewrite lengthZ_nil.
Qed.

(** A step that does not write. *)
Lemma emits_checked {E A B} X (o : option A) a (f : A → prog S E B) bs :
  o = Some a → emits X (f a) bs → emits X (checked o ≫= f) bs.
Proof. by intros ->. Qed.
Lemma emits_ok_or_throw {E A B} X (o : option A) (e : E) a (f : A → prog S E B) bs :
  o = Some a → emits X (f a) bs → emits X (ok_or_throw o e ≫= f) bs.
Proof. by intros ->. Qed.
Lemma emits_give {E A B} X (r : outcome E A) a (f : A → prog S E B) bs :
  r = Returns a → emits X (f a) bs → emits X (give_outcome r ≫= f) bs.
Proof. by intros ->. Qed.

(** *** The parts of the tables *)

Definition guid_bytes (g : Uuid) : list u8 :=
  to_le_bytes 4 (uuid_0 g) ++ to_le_bytes 2 (uuid_1 g) ++ to_le_bytes 2 (uuid_2 g) ++ uuid_3 g.

Definition mbr_bytes (sectors : Z) : list u8 :=
  zeros 446 ++ [U8 0x00] ++ zeros 3 ++ [U8 0xEE] ++ zeros 3 ++ to_le_bytes 4 (U32 1)
    ++ to_le_bytes 4 (U32 sectors) ++ zeros (MBR_PARTITION_ENTRY_SIZE * 3) ++ [U8 0x55; U8 0xAA].

Definition header_bytes (h : GptHeader) : list u8 :=
  signature h ++ revision h ++ to_le_bytes 4 (header_size h) ++ to_le_bytes 4 (header_crc32 h)
    ++ zeros 4 ++ to_le_bytes 8 (current_lba h) ++ to_le_bytes 8 (backup_lba h)
    ++ to_le_bytes 8 (first_usable_lba h) ++ to_le_bytes 8 (last_usable_lba h)
    ++ guid_bytes (header_guid h) ++ to_le_bytes 8 (partition_entries_lba h)
    ++ to_le_bytes 4 (num_partition_entries h) ++ to_le_bytes 4 (partition_entry_size h)
    ++ to_le_bytes 4 (entries_crc32 h).

Definition units_bytes (units : list u16) : list u8 := concat (map (to_le_bytes 2) units).

Definition entry_bytes (e : GptPartitionEntry) : list u8 :=
  guid_bytes (partition_type_guid e) ++ guid_bytes (unique_partition_guid e)
    ++ to_le_bytes 8 (first_lba e) ++ to_le_bytes 8 (last_lba e) ++ to_le_bytes 8 (attributes e)
    ++ units_bytes (partition_name e).

Lemma emits_guid g : emits gpt_io_error (write_guid g) (guid_bytes g).
Proof. repeat (apply emits_seq; [apply emits_put|]). apply emits_put. Qed.

Lemma emits_mbr (disk_size : u64) :
  uval disk_size / SECTOR_SIZE < 2 ^ 32 →
  emits gpt_io_error (write_protective_mbr disk_size) (mbr_bytes (uval disk_size / SECTOR_SIZE)).
Proof.
  intros Hlt. unfold write_protective_mbr, mbr_bytes. repeat (apply emits_seq; [apply emits_put|]).
  cbv zeta. eapply emits_ok_or_throw.
  { by destruct (Z.ltb_spec (uval disk_size / SECTOR_SIZE) (2 ^ 32)); [|lia]. }
  repeat (apply emits_seq; [apply emits_put|]). apply emits_put.
Qed.

Lemma emits_header h : emits gpt_io_error (GptHeader_write_bytes h) (header_bytes h).
Proof.
  unfold GptHeader_write_bytes, header_bytes.
  repeat (apply emits_seq; [first [apply emits_put|apply emits_guid]|]). apply emits_put.
Qed.

Lemma emits_units units : emits gpt_io_error (write_units units) (units_bytes units).
Proof. induction units as [|u units IH]; [apply emits_ret|]. by apply emits_seq; [apply emits_put|]. Qed.

Lemma emits_entry e : emits gpt_io_error (GptPartitionEntry_write_bytes e) (entry_bytes e).
Proof.
  unfold GptPartitionEntry_write_bytes, entry_bytes.
  repeat (apply emits_seq; [first [apply emits_put|apply emits_guid]|]). apply emits_units.
Qed.
End emits.

(** ** Sizes *)

Definition uuid_ok (g : Uuid) : Prop := length (uuid_3 g) = 8%nat.

Lemma lengthZ_to_le_bytes {w} n (x : uint w) : lengthZ (to_le_bytes n x) = Z.of_nat n.
Proof. apply lengthZ_le_split. Qed.
Lemma lengthZ_guid g : uuid_ok g → lengthZ (guid_bytes g) = 16.
Proof.
  intros Hg. unfold guid_bytes. rewrite !lengthZ_app, !lengthZ_to_le_bytes. unfold lengthZ. by rewrite Hg.
Qed.
Lemma lengthZ_mbr n : lengthZ (mbr_bytes n) = SECTOR_SIZE.
Proof.
  unfold mbr_bytes. rewrite !lengthZ_app, !lengthZ_to_le_bytes.
  rewrite (lengthZ_zeros 446), (lengthZ_zeros 3), (lengthZ_zeros (_ * 3)) by (unfold MBR_PARTITION_ENTRY_SIZE; lia).
  done.
Qed.
Lemma lengthZ_header_bytes h :
  lengthZ (signature h) = 8 → lengthZ (revision h) = 4 → uuid_ok (header_guid h) →
  lengthZ (header_bytes h) = GPT_HEADER_SIZE.
Proof.
  intros Hs Hr Hg. unfold header_bytes. rewrite !lengthZ_app, !lengthZ_to_le_bytes, lengthZ_guid by done.
  rewrite Hs, Hr, (lengthZ_zeros 4) by lia. done.
Qed.
Lemma lengthZ_units units : lengthZ (units_bytes units) = 2 * lengthZ units.
Proof.
  induction units as [|u units IH]; [done|].
  change (units_bytes (u :: units)) with (to_le_bytes 2 u ++ units_bytes units).
  rewrite lengthZ_app, lengthZ_to_le_bytes, IH, lengthZ_cons. lia.
Qed.
Lemma lengthZ_entry e :
  uuid_ok (partition_type_guid e) → uuid_ok (unique_partition_guid e) → lengthZ (partition_name e) = 36 →
  lengthZ (entry_bytes e) = GPT_PARTITION_ENTRY_SIZE.
Proof.
  intros Ht Hu Hn. unfold entry_bytes.
  rewrite !lengthZ_app, !lengthZ_to_le_bytes, !lengthZ_guid, lengthZ_units, Hn by done. done.
Qed.

(** ** The sinks *)

#[global] Instance buffer_SinkView : SinkView buffer := {|
  sink_bytes b := if 0 <=? buf_room b then Some (buf_written b) else None;
  sink_safe b n := n <= buf_room b;
  sink_frame b b' :=
    0 <= buf_room b → 0 <= buf_room b' ∧
    lengthZ (buf_written b') + buf_room b' = lengthZ (buf_written b) + buf_room b;
  sink_calm _ _ := True;
  sink_failed _ _ := True
|}.

#[global] Instance buffer_SinkLaws : SinkLaws buffer.
Proof.
  split.
  - intros a b c Hab Hbc. cbn in *. intros Ha. destruct (Hab Ha) as [Hb ?]. destruct (Hbc Hb). split; lia.
  - intros b. cbn. lia.
  - done.
  - done.
  - done.
  - intros bs b w Hw. cbn in Hw. destruct (Z.leb_spec 0 (buf_room b)) as [Hr|]; [|done].
    injection Hw as <-. unfold write_to, buffer_Sink. pose proof (lengthZ_nonneg bs).
    destruct (Z.leb_spec (lengthZ bs) (buf_room b)) as [Hle|Hgt]; cbn [buf_room buf_written].
    + split_and!; cbn [sink_bytes sink_frame sink_safe buffer_SinkView buf_room buf_written].
      * destruct (Z.leb_spec 0 (buf_room b - lengthZ bs)); [done|lia].
      * intros _. rewrite lengthZ_app. lia.
      * done.
      * lia.
    + split_and!; cbn [sink_frame sink_safe buffer_SinkView buf_room buf_written]; [done| |done|].
      * intros _. rewrite lengthZ_app, lengthZ_takeZ by lia. lia.
      * lia.
Qed.

(** A file with its position at the end. *)
Section file_sink.
Context {K : Type} `{HostLaws K} (f : File).

#[local] Instance file_Sink : Sink (K * u64) := file_write_all f.

#[local] Instance file_SinkView : SinkView (K * u64) := {|
  sink_bytes s := data ← contents s.1 !! f_inode f;
                  if uval s.2 =? lengthZ data then Some data else None;
  sink_safe _ _ := False;
  sink_frame s s' := ∀ i, i ≠ f_inode f → contents s'.1 !! i = contents s.1 !! i;
  sink_calm s s' := faults s'.1 = faults s.1;
  sink_failed s s' := (faults s.1 < faults s'.1)%nat
|}.

Lemma overwrite_end data bs : overwrite data (lengthZ data) bs = data ++ bs.
Proof.
  unfold overwrite. rewrite takeZ_all by lia. rewrite Z.sub_diag. cbn [Z.to_nat replicate app].
  rewrite dropZ_all by (pose proof (lengthZ_nonneg bs); lia). by rewrite app_nil_r.
Qed.

(** A write at the end of the file. *)
Lemma pwrite_end bs (pos : u64) k data m k1 :
  contents k !! f_inode f = Some data → uval pos = lengthZ data →
  pwrite f bs (as_off_t pos) k = (Returns m, k1) →
  contents k1 = <[f_inode f := data ++ takeZ m bs]> (contents k) ∧ m <= lengthZ bs ∧
  pos + m < 2 ^ 63 ∧ lengthZ (data ++ takeZ m bs) = pos + m ∧
  (0 < m → faults k1 = faults k) ∧ (uval m = 0 → bs ≠ [] → (faults k < faults k1)%nat).
Proof.
  intros Hd Hpos E. apply pwrite_law in E as (_ & Hoff & Hm & _ & Hnf & Hzero & data' & Hd' & Hc).
  rewrite as_off_t_nonneg in Hc by done. rewrite Hd in Hd'. injection Hd' as <-.
  rewrite Hpos, overwrite_end in Hc. pose proof (uint_range m).
  assert (lengthZ (data ++ takeZ m bs) = pos + m) as Hl by (rewrite lengthZ_app, lengthZ_takeZ; lia).
  split_and!; [done|done| |done|done|done]. rewrite <- Hl. eapply (file_size_law k1 (f_inode f)).
  by rewrite Hc, lookup_insert_eq.
Qed.

(** Appending to a file. *)
Lemma append_all fuel : ∀ bs (pos : u64) k data r s',
  contents k !! f_inode f = Some data → uval pos = lengthZ data →
  (length bs + signals k ≤ fuel)%nat →
  write_all_at_volatile fuel bs pos (k, f) = (r, s') →
  ∃ m, contents s'.1 = <[f_inode f := data ++ takeZ m bs]> (contents k) ∧
  match r with
  | Returns (Some _) =>
      takeZ m bs = bs ∧ lengthZ data + lengthZ bs < 2 ^ 63 ∧ faults s'.1 = faults k
  | Throws _ => (faults k < faults s'.1)%nat
  | Returns None | Aborts => False
  end.
Proof.
  induction fuel as [|fuel IH]; intros bs pos k data r s' Hd Hpos Hfuel; cbn [write_all_at_volatile];
    (destruct bs as [|b0 bs0]; [intros [= <- <-]; exists 0; cbn [takeZ fst];
      rewrite app_nil_r, insert_id by done; split; [done|]; split_and!; [done| |done];
      rewrite lengthZ_nil, Z.add_0_r; by eapply file_size_law|]).
  { cbn in Hfuel. lia. }
  set (bs := b0 :: bs0) in *. assert (0 < lengthZ bs) as Hlen by (unfold bs, lengthZ; cbn; lia).
  clearbody bs. unfold mbind at 1, prog_bind at 1, catch. rewrite file_write_run.
  destruct (pwrite f bs (as_off_t pos) k) as [o k1] eqn:E. pose proof (pwrite_law _ _ _ _ _ _ E) as (Hs & Ho).
  assert (∀ k2, contents k2 = contents k →
      contents k2 = <[f_inode f := data ++ takeZ 0 bs]> (contents k)) as Hsame.
  { intros k2 ->. replace (takeZ 0 bs) with (@nil u8) by (by destruct bs). rewrite app_nil_r. by rewrite insert_id. }
  destruct o as [m|e|]; [|destruct Ho as [Hc Hfail]|done].
  - destruct (pwrite_end _ _ _ _ _ _ Hd Hpos E) as (Hc & Hm & Hlt & Hl & Hnf & Hzero). pose proof (uint_range m).
    destruct (Z.eqb_spec m 0) as [Hz|Hz].
    { intros [= <- <-]. exists m. split; [done|]. apply Hzero; [done|]. by intros ->. }
    rewrite <- Hnf by lia.
    destruct (Z.leb_spec m (lengthZ bs)); [|lia].
    destruct (add_checked pos m) as [next|] eqn:En;
      [apply add_checked_Some in En|apply add_checked_None in En; cbn [Z.of_N] in En; lia].
    run_prog. intros E2.
    eapply IH in E2 as (m' & Hc2 & Hr); [|by rewrite Hc, lookup_insert_eq|lia|].
    2: { assert (lengthZ (dropZ m bs) = lengthZ bs - m) by (rewrite lengthZ_dropZ; lia).
         unfold lengthZ in *. lia. }
    exists (if decide (m' < 0) then uval m else m + m'). rewrite Hc, insert_insert_eq in Hc2. rewrite Hc2.
    assert (takeZ (if decide (m' < 0) then uval m else m + m') bs = takeZ m bs ++ takeZ m' (dropZ m bs)) as Heq.
    { rewrite !takeZ_take, dropZ_drop. case_decide.
      - replace (Z.to_nat m') with O by lia. by rewrite take_0, app_nil_r.
      - rewrite Z2Nat.inj_add by lia. by rewrite take_take_drop. }
    rewrite Heq, app_assoc. split; [done|]. destruct r as [[]|e|]; try done. destruct Hr as (Ht & Hsz & Hnf').
    rewrite Ht. split_and!; [by rewrite takeZ_dropZ| |done]. rewrite Hl, lengthZ_dropZ in Hsz by lia. lia.
  - case_decide as Hint.
    + destruct (proj1 Hfail Hint) as [Hsig Hnf].
      intros E2. eapply IH in E2 as (m & Hc2 & Hr); [|by rewrite Hc|done|lia].
      rewrite Hc in Hc2. rewrite Hnf in Hr. by exists m.
    + intros [= <- <-]. exists 0. split; [by apply Hsame|]. by destruct (proj2 Hfail Hint).
Qed.

Lemma file_SinkLaws : SinkLaws (K * u64).
Proof.
  split.
  - intros a b c Hab Hbc i Hi. by rewrite Hbc, Hab.
  - by intros a i Hi.
  - intros a b c. cbn. congruence.
  - done.
  - intros a b c. cbn. by intros ->.
  - intros bs [k pos] data Hdata. cbn in Hdata.
    destruct (contents k !! f_inode f) as [data'|] eqn:Hd; [|done]. cbn in Hdata.
    destruct (Z.eqb_spec pos (lengthZ data')) as [Hpos|]; [|done]. injection Hdata as <-.
    unfold write_to, file_Sink, file_write_all. run_prog. unfold zoom. cbn [fst snd].
    destruct (write_all_at_volatile _ bs pos (k, f)) as [r s'] eqn:E.
    eapply append_all in E as (m & Hc & Hr); [|done|done|done].
    assert (∀ i, i ≠ f_inode f → contents s'.1 !! i = contents k !! i) as Hframe
      by (intros i Hi; rewrite Hc; by rewrite lookup_insert_ne).
    destruct r as [[]|e|]; [|done|split_and!; [done|done|done|by intros ?? []]|done].
    destruct Hr as (Ht & Hsz & Hnf). cbn.
    rewrite Hc, Ht, lookup_insert_eq. cbn. pose proof (lengthZ_nonneg data'). pose proof (lengthZ_nonneg bs).
    rewrite uval_to_uint_small by (cbn [Z.of_N]; lia). rewrite lengthZ_app, Hpos, Z.eqb_refl.
    split_and!; [done| |done|done]. intros i Hi. rewrite <- Hframe by done. by rewrite Hc, Ht.
Qed.
End file_sink.

(** ** The header *)

Section gpt_header_facts.
Context {S : Type} `{SinkLaws S} (crc32 : list u8 → u32).

(** The header with its checksum. *)
Definition full_header (disk_guid : Uuid) (entries_crc : u32) (secondary_table_offset : Z)
    (secondary : bool) : GptHeader :=
  let h := gpt_header_of disk_guid entries_crc
             (U64 ((secondary_table_offset + GPT_END_SIZE) / SECTOR_SIZE - 1))
             (U64 (secondary_table_offset / SECTOR_SIZE - 1)) secondary in
  with_crc h (crc32 (header_bytes h)).

Lemma lengthZ_full_header g c o b :
  uuid_ok g → lengthZ (header_bytes (full_header g c o b)) = GPT_HEADER_SIZE.
Proof. intros Hg. by apply lengthZ_header_bytes. Qed.

Lemma header_in_buffer h :
  lengthZ (header_bytes h) = GPT_HEADER_SIZE →
  GptHeader_write_bytes h (mkBuffer [] GPT_HEADER_SIZE) = (Returns (), mkBuffer (header_bytes h) 0).
Proof.
  intros Hl. pose proof (emits_header (S := buffer) h (mkBuffer [] GPT_HEADER_SIZE) [] eq_refl) as He.
  destruct (GptHeader_write_bytes h _) as [[[]|e|] [w room]]; [| |done].
  - destruct He as (Hw & Hf & _).
    cbn [sink_bytes sink_frame buffer_SinkView buf_room buf_written app] in *.
    destruct (Z.leb_spec 0 room); [|done]. injection Hw as ->. destruct Hf as [_ Hf]; [done|].
    rewrite lengthZ_nil, Hl in Hf. repeat f_equal. lia.
  - destruct He as (_ & _ & _ & He). destruct (He 0); [done|]. cbn. unfold GPT_HEADER_SIZE in *. lia.
Qed.

Lemma emits_gpt_header disk_guid entries_crc (offset : u64) secondary :
  uuid_ok disk_guid → SECTOR_SIZE <= offset → offset + GPT_END_SIZE < 2 ^ 64 →
  emits gpt_io_error (write_gpt_header crc32 disk_guid entries_crc offset secondary)
    (header_bytes (full_header disk_guid entries_crc offset secondary)).
Proof.
  intros Hg Hlo Hhi. unfold write_gpt_header. pose proof (uint_range offset) as Hr.
  change SECTOR_SIZE with 512 in *. change GPT_END_SIZE with 16896 in *.
  assert (uval (U64 16896) = 16896) as E16 by done. assert (uval (U64 1) = 1) as E1 by done.
  pose proof (Z.div_le_mono 512 offset 512 ltac:(lia) Hlo).
  pose proof (Z.div_le_mono offset (offset + 16896) 512 ltac:(lia) ltac:(lia)).
  pose proof (Z.div_le_upper_bound (offset + 16896) 512 (2 ^ 55) ltac:(lia) ltac:(lia)).
  assert (512 / 512 = 1) by done.
  eapply emits_checked.
  { apply (add_checked_Some _ _ (U64 (offset + 16896))). rewrite E16. apply uval_to_uint_small; cbn [Z.of_N]; lia. }
  rewrite uval_to_uint_small by (cbn [Z.of_N]; lia). eapply emits_checked.
  { apply (sub_checked_Some _ _ (U64 ((offset + 16896) / 512 - 1))). rewrite E1.
    rewrite !uval_to_uint_small; cbn [Z.of_N]; lia. }
  eapply emits_checked.
  { apply (sub_checked_Some _ _ (U64 (offset / 512 - 1))). rewrite E1.
    rewrite !uval_to_uint_small; cbn [Z.of_N]; lia. }
  cbv zeta. rewrite header_in_buffer by (by apply lengthZ_header_bytes).
  eapply emits_give; [done|]. unfold buffer_bytes. cbn [buf_written buf_room Z.to_nat replicate].
  rewrite app_nil_r. apply emits_header.
Qed.
End gpt_header_facts.
