(* ===== verification/CreateFacts.v ===== *)
(** * Facts about created composite disks: the plan

    What [create_composite_disk] writes, for partitions it accepts: the two tables
    and the list of components, as functions of the partitions. *)

From S2P Require Import Prelude StdIo Checked DiskFile DiskFacts Gpt GptFacts.
From S2P Require Import SparseImage CompositeDisk CompositeCreate.

(** ** The tables *)

Section tables_facts.
Context {S : Type} `{SinkLaws S} (crc32 : list u8 → u32).

Definition beginning_bytes (g : Uuid) (entries : list u8) (offset disk_size : Z) : list u8 :=
  mbr_bytes (disk_size / SECTOR_SIZE)
    ++ header_bytes (full_header crc32 g (crc32 entries) offset false)
    ++ zeros HEADER_PADDING_LENGTH ++ entries ++ zeros PARTITION_ALIGNMENT_SIZE.

Definition end_bytes (g : Uuid) (entries : list u8) (offset disk_size : Z) : list u8 :=
  entries ++ header_bytes (full_header crc32 g (crc32 entries) offset true)
    ++ zeros HEADER_PADDING_LENGTH ++ zeros (disk_size - (offset + GPT_END_SIZE)).

(** An error of the sink. *)
Definition write_error (e : composite_error) : Prop :=
  match e with GptError (Gpt.WritingData _) | WriteHeader _ | WriteProto => True | _ => False end.

Lemma emits_put_header bs : emits write_error (put_header bs) bs.
Proof. by eapply emits_map_err, write_to_emits. Qed.

Lemma emits_gpt (m : prog S Gpt.Error ()) bs : emits gpt_io_error m bs → emits write_error (map_err GptError m) bs.
Proof. apply emits_map_err. by intros e [io ->]. Qed.

Lemma emits_beginning g entries (offset disk_size : u64) :
  uuid_ok g → SECTOR_SIZE <= offset → offset + GPT_END_SIZE < 2 ^ 64 →
  disk_size / SECTOR_SIZE < 2 ^ 32 →
  emits write_error (write_beginning crc32 g entries (crc32 entries) offset disk_size)
    (beginning_bytes g entries offset disk_size).
Proof.
  intros Hg Hlo Hhi Hsz. unfold write_beginning, beginning_bytes.
  apply emits_seq; [by apply emits_gpt, emits_mbr|].
  apply emits_seq; [by apply emits_gpt, emits_gpt_header|].
  repeat (apply emits_seq; [apply emits_put_header|]). apply emits_put_header.
Qed.

Lemma emits_end g entries (offset disk_size : u64) :
  uuid_ok g → SECTOR_SIZE <= offset → offset + GPT_END_SIZE <= disk_size →
  emits write_error (write_end crc32 g entries (crc32 entries) offset disk_size)
    (end_bytes g entries offset disk_size).
Proof.
  intros Hg Hlo Hhi. pose proof (uint_range disk_size) as Hd. pose proof (uint_range offset) as Ho.
  cbn [Z.of_N] in Hd, Ho. change SECTOR_SIZE with 512 in *.
  assert (GPT_END_SIZE = 16896) as E16 by done. assert (uval (U64 GPT_END_SIZE) = GPT_END_SIZE) as Eu by done.
  unfold write_end, end_bytes.
  apply emits_seq; [apply emits_put_header|].
  apply emits_seq; [apply emits_gpt, emits_gpt_header; [done|done|lia]|].
  apply emits_seq; [apply emits_put_header|].
  eapply emits_checked.
  { apply (add_checked_Some _ _ (U64 (offset + GPT_END_SIZE))). rewrite Eu.
    apply uval_to_uint_small. cbn [Z.of_N]. lia. }
  eapply emits_checked.
  { apply (sub_checked_Some _ _ (U64 (disk_size - (offset + GPT_END_SIZE)))).
    rewrite !uval_to_uint_small; cbn [Z.of_N]; lia. }
  rewrite uval_to_uint_small by (cbn [Z.of_N]; lia). apply emits_put_header.
Qed.

Lemma lengthZ_beginning g entries offset disk_size :
  uuid_ok g → lengthZ entries = GPT_NUM_PARTITIONS * GPT_PARTITION_ENTRY_SIZE →
  lengthZ (beginning_bytes g entries offset disk_size) = GPT_BEGINNING_SIZE.
Proof.
  intros Hg He. unfold beginning_bytes. rewrite !lengthZ_app, lengthZ_mbr, lengthZ_full_header by done.
  by rewrite He, !lengthZ_zeros by done.
Qed.

Lemma lengthZ_end g entries offset disk_size :
  uuid_ok g → lengthZ entries = GPT_NUM_PARTITIONS * GPT_PARTITION_ENTRY_SIZE →
  offset + GPT_END_SIZE <= disk_size →
  lengthZ (end_bytes g entries offset disk_size) = disk_size - offset.
Proof.
  intros Hg He Hle. unfold end_bytes. rewrite !lengthZ_app, lengthZ_full_header by done.
  rewrite He, lengthZ_zeros, lengthZ_zeros by (done || lia).
  change (GPT_NUM_PARTITIONS * GPT_PARTITION_ENTRY_SIZE) with 16384. change GPT_HEADER_SIZE with 92.
  change HEADER_PADDING_LENGTH with 420. change GPT_END_SIZE with 16896. lia.
Qed.
End tables_facts.

(** ** The plan *)

(** The size of a partition rounded up to 4 KiB. *)
Definition aligned (p : PartitionInfo) : Z := (pi_size p + 4095) / 4096 * 4096.

Fixpoint total_size (ps : list PartitionInfo) : Z :=
  match ps with [] => 0 | p :: ps => aligned p + total_size ps end.

Definition name_of (p : PartitionInfo) : list u16 := resize 36 (U16 0) (encode_utf16 (pi_label p)).

(** A partition that can be part of a disk. *)
Definition partition_ok (p : PartitionInfo) : Prop :=
  0 < pi_size p ∧ is_Some (from_utf8 (pi_path p)) ∧ (pi_writable p = true → uval (pi_size p) = aligned p).

Definition MAX_DISK : Z := 2 ^ 41 - 2 ^ 16.

Definition partitions_ok (ps : list PartitionInfo) : Prop :=
  Forall partition_ok ps ∧ NoDup (name_of <$> ps) ∧ lengthZ ps <= GPT_NUM_PARTITIONS ∧
  GPT_BEGINNING_SIZE + total_size ps + GPT_END_SIZE < MAX_DISK.

Definition entry_of (new_v4 : Uuid) (p : PartitionInfo) (start : Z) : GptPartitionEntry := {|
  partition_type_guid := guid (pi_partition_type p);
  unique_partition_guid := new_v4;
  first_lba := U64 (start / SECTOR_SIZE);
  last_lba := U64 ((start + aligned p) / SECTOR_SIZE - 1);
  attributes := U64 0;
  partition_name := name_of p
|}.

Definition path_of (p : PartitionInfo) : rstring := default (str_lit "?") (from_utf8 (pi_path p)).

Definition components_of (zero_filler : rstring) (p : PartitionInfo) (start : Z) : list ComponentDisk :=
  {| cd_file_path := path_of p; cd_offset := U64 start;
     cd_read_write_capability := if pi_writable p then READ_WRITE else READ_ONLY |}
  :: if uval (pi_size p) =? aligned p then []
     else [{| cd_file_path := zero_filler; cd_offset := U64 (start + pi_size p);
              cd_read_write_capability := READ_ONLY |}].

Fixpoint plan_entries (new_v4 : nat → Uuid) (i : nat) (start : Z) (ps : list PartitionInfo)
    : list GptPartitionEntry :=
  match ps with
  | [] => []
  | p :: ps => entry_of (new_v4 i) p start :: plan_entries new_v4 (S i) (start + aligned p) ps
  end.

Fixpoint plan_components (zero_filler : rstring) (start : Z) (ps : list PartitionInfo)
    : list ComponentDisk :=
  match ps with
  | [] => []
  | p :: ps => components_of zero_filler p start ++ plan_components zero_filler (start + aligned p) ps
  end.

Definition entries_bytes (es : list GptPartitionEntry) : list u8 := concat (map entry_bytes es).

Lemma aligned_bounds p : 0 < pi_size p → pi_size p <= aligned p < pi_size p + 4096 ∧ aligned p mod 4096 = 0.
Proof.
  intros Hp. unfold aligned. pose proof (Z.div_mod (pi_size p + 4095) 4096 ltac:(lia)).
  pose proof (Z.mod_pos_bound (pi_size p + 4095) 4096 ltac:(lia)). split; [lia|].
  by rewrite Z.mod_mul.
Qed.

Lemma total_size_nonneg ps : Forall partition_ok ps → 0 <= total_size ps.
Proof.
  induction 1 as [|p ps [Hp _] _ IH]; [done|]. cbn. pose proof (aligned_bounds p Hp). lia.
Qed.

Lemma aligned_size_spec p :
  0 < pi_size p → aligned p < 2 ^ 63 → aligned_size p = Some (U64 (aligned p)).
Proof.
  intros Hp Hlt. pose proof (aligned_bounds p Hp) as [? _]. unfold aligned_size, align_to_power_of_2.
  change (Z.shiftl 1 PARTITION_SIZE_SHIFT) with 4096. change (4096 - 1) with 4095.
  assert (uval (U64 4095) = 4095) as E by done.
  destruct (add_checked _ _) as [sum|] eqn:Es;
    [apply add_checked_Some in Es|apply add_checked_None in Es; rewrite E in Es; cbn [Z.of_N] in Es; lia].
  rewrite E in Es. cbn [mbind option_bind]. rewrite Es. done.
Qed.

Lemma uuid_ok_guid t : uuid_ok (guid t).
Proof. by destruct t. Qed.

Lemma lengthZ_name p : lengthZ (name_of p) = 36.
Proof.
  unfold name_of, resize, lengthZ. rewrite length_app, length_take, length_replicate. lia.
Qed.

Lemma lengthZ_entry_of u p start : uuid_ok u → lengthZ (entry_bytes (entry_of u p start)) = 128.
Proof. intros Hu. apply lengthZ_entry; [apply uuid_ok_guid|done|apply lengthZ_name]. Qed.

Lemma create_gpt_entry_spec u p (start : u64) :
  0 < pi_size p → SECTOR_SIZE <= start → start + aligned p < 2 ^ 63 →
  create_gpt_entry u p start = Some (entry_of u p start).
Proof.
  intros Hp Hs Hlt. pose proof (aligned_bounds p Hp) as [Ha _]. unfold create_gpt_entry.
  change SECTOR_SIZE with 512 in *. rewrite aligned_size_spec by lia. cbn [mbind option_bind].
  assert (uval (U64 (aligned p)) = aligned p) as Eal by (apply uval_to_uint_small; cbn [Z.of_N]; lia).
  assert (uval (U64 1) = 1) as E1 by done.
  destruct (add_checked start _) as [next|] eqn:En;
    [apply add_checked_Some in En; rewrite Eal in En
    |apply add_checked_None in En; rewrite Eal in En; cbn [Z.of_N] in En; lia].
  cbn [mbind option_bind]. rewrite En.
  pose proof (Z.div_le_mono 512 (start + aligned p) 512 ltac:(lia) ltac:(lia)).
  pose proof (Z.div_le_upper_bound (start + aligned p) 512 (2 ^ 55) ltac:(lia) ltac:(lia)).
  assert (512 / 512 = 1) by done.
  rewrite (proj2 (sub_checked_Some _ _ (U64 ((start + aligned p) / 512 - 1)))); [done|].
  rewrite E1, !uval_to_uint_small; cbn [Z.of_N]; lia.
Qed.

Lemma create_component_disks_spec filler p (start : u64) :
  partition_ok p → start + aligned p < 2 ^ 63 →
  create_component_disks p start filler = Returns (components_of filler p start).
Proof.
  intros (Hp & [path Hpath] & Hw) Hlt. pose proof (aligned_bounds p Hp) as [Ha _].
  pose proof (uint_range start) as Hs. unfold create_component_disks.
  rewrite aligned_size_spec by lia. cbn [mbind outcome_bind unwrap_or_abort].
  rewrite Hpath. cbn [mbind outcome_bind ok_or_else]. unfold components_of, path_of. rewrite Hpath.
  cbn [default from_option id]. rewrite to_uint_uval.
  rewrite (uval_to_uint_small (aligned p)) by (cbn [Z.of_N]; lia).
  destruct (Z.eqb_spec (pi_size p) (aligned p)) as [Heq|Hne]; cbn [negb]; [done|].
  destruct (pi_writable p); [by destruct Hne; apply Hw|].
  destruct (add_checked start (pi_size p)) as [fo|] eqn:E;
    [apply add_checked_Some in E|apply add_checked_None in E; cbn [Z.of_N] in E; lia].
  cbn [mbind outcome_bind unwrap_or_abort]. rewrite <- E. by rewrite to_uint_uval.
Qed.

Lemma entry_in_buffer e w room :
  lengthZ (entry_bytes e) = 128 → 128 <= room →
  GptPartitionEntry_write_bytes e (mkBuffer w room) =
  (Returns (), mkBuffer (w ++ entry_bytes e) (room - 128)).
Proof.
  intros Hl Hroom. pose proof (emits_entry (S := buffer) e (mkBuffer w room) w) as He.
  cbn [sink_bytes buffer_SinkView buf_room buf_written] in He.
  rewrite (proj2 (Z.leb_le 0 room)) in He by lia. specialize (He eq_refl).
  destruct (GptPartitionEntry_write_bytes e _) as [[[]|err|] [w' room']]; [| |done].
  - destruct He as (Hw & Hf & _). cbn [sink_bytes sink_frame buffer_SinkView buf_room buf_written] in *.
    destruct (Z.leb_spec 0 room'); [|done]. injection Hw as ->. destruct Hf as [_ Hf]; [lia|].
    rewrite lengthZ_app, Hl in Hf. repeat f_equal. lia.
  - destruct He as (_ & _ & _ & He). destruct (He 0); [done|]. cbn [sink_safe buffer_SinkView buf_room]. lia.
Qed.

Lemma add_partition_spec u filler p w room disks labels (start : u64) :
  partition_ok p → uuid_ok u → SECTOR_SIZE <= start → start + aligned p < 2 ^ 63 → 128 <= room →
  name_of p ∉ labels →
  add_partition u filler p (mkLayout (mkBuffer w room) disks labels start) =
  Returns (mkLayout (mkBuffer (w ++ entry_bytes (entry_of u p start)) (room - 128))
             (disks ++ components_of filler p start) (name_of p :: labels) (U64 (start + aligned p))).
Proof.
  intros Hp Hu Hs Hlt Hroom Hname. pose proof Hp as (Hsz & _).
  pose proof (aligned_bounds p Hsz) as [Ha _]. unfold add_partition.
  cbn [lo_next lo_labels lo_entries lo_disks]. rewrite create_gpt_entry_spec by done.
  cbn [unwrap_or_abort mbind outcome_bind].
  change (partition_name (entry_of u p start)) with (name_of p). rewrite bool_decide_false by done.
  rewrite entry_in_buffer by (done || by apply lengthZ_entry_of).
  rewrite create_component_disks_spec by done. cbn [mbind outcome_bind].
  rewrite aligned_size_spec by (done || pose proof (uint_range start); lia).
  cbn [mbind outcome_bind unwrap_or_abort].
  destruct (add_checked start _) as [next|] eqn:En;
    [apply add_checked_Some in En|apply add_checked_None in En];
    pose proof (uint_range start); rewrite (uval_to_uint_small (aligned p)) in En by (cbn [Z.of_N]; lia).
  - cbn [mbind outcome_bind unwrap_or_abort]. rewrite <- En. by rewrite to_uint_uval.
  - cbn [Z.of_N] in En. lia.
Qed.

Lemma add_partitions_spec new_v4 filler ps : ∀ i w room disks labels (start : u64),
  Forall partition_ok ps → (∀ i, uuid_ok (new_v4 i)) → SECTOR_SIZE <= start →
  start + total_size ps < 2 ^ 63 → 128 * lengthZ ps <= room →
  NoDup ((name_of <$> ps) ++ labels) →
  ∃ labels', add_partitions new_v4 filler ps i (mkLayout (mkBuffer w room) disks labels start) =
  Returns (mkLayout
    (mkBuffer (w ++ entries_bytes (plan_entries new_v4 i start ps)) (room - 128 * lengthZ ps))
    (disks ++ plan_components filler start ps) labels' (U64 (start + total_size ps))).
Proof.
  induction ps as [|p ps IH]; intros i w room disks labels start Hok Hu Hs Hlt Hroom Hnd.
  { exists labels. cbn [add_partitions plan_entries plan_components total_size]. unfold entries_bytes. cbn [map concat].
    rewrite !app_nil_r, Z.add_0_r, to_uint_uval. repeat f_equal. unfold lengthZ. cbn [length]. lia. }
  apply Forall_cons in Hok as [Hp Hok]. pose proof (total_size_nonneg ps Hok).
  pose proof (proj1 Hp) as Hpos. pose proof (aligned_bounds p Hpos) as [Ha _]. cbn [total_size] in Hlt. rewrite lengthZ_cons in *.
  pose proof (uint_range start). pose proof (lengthZ_nonneg ps).
  cbn [fmap list_fmap app] in Hnd. apply NoDup_cons in Hnd as [Hnin Hnd].
  cbn [add_partitions]. rewrite add_partition_spec by
    (done || lia || (intros Hin; apply Hnin, elem_of_app; by right)).
  cbn [mbind outcome_bind].
  assert (uval (U64 (start + aligned p)) = start + aligned p) as Hst
    by (apply uval_to_uint_small; cbn [Z.of_N]; lia).
  destruct (IH (S i) (w ++ entry_bytes (entry_of (new_v4 i) p start)) (room - 128)
              (disks ++ components_of filler p start) (name_of p :: labels) (U64 (start + aligned p)))
    as [labels' ->]; [done|done|lia|lia|lia| |].
  - apply NoDup_app in Hnd as (Hnd1 & Hdis & Hnd2). apply NoDup_app. split_and!; [done| |].
    + intros x Hx [->|Hl]%elem_of_cons; [apply Hnin, elem_of_app; by left|by eapply Hdis].
    + constructor; [intros Hin; apply Hnin, elem_of_app; by right|done].
  - exists labels'. cbn [plan_entries plan_components total_size]. rewrite Hst.
    change (entries_bytes (?e :: ?es)) with (entry_bytes e ++ entries_bytes es).
    rewrite !app_assoc, Z.add_assoc.
    by replace (room - 128 - 128 * lengthZ ps) with (room - 128 * (1 + lengthZ ps)) by lia.
Qed.

(** ** The files *)

(** What is assumed of the protocol buffers: the writer appends the encoding, and
    the reader gives back what was encoded. *)
Class ProtoLaws (K : Type) `{HostFiles K} `{HostOpen K} `{ProtoWriter K} : Prop := {
  write_to_writer_law p f : emits (H := file_SinkView f) (λ _, True) (write_to_writer p f) (proto_bytes p);
  parse_law p f k (pos : u64) data :
    contents k !! f_inode f = Some data → dropZ pos data = proto_bytes p →
    match parse_from_reader f (k, pos) with
    | (Returns q, _) => q = p
    | (Throws _, s') => (faults k < faults s'.1)%nat
    | (Aborts, _) => False
    end
}.

Section create_facts.
Context {K : Type} `{HostLaws K} `{!HostOpen K, !HostOpenLaws K, !ProtoWriter K, !ProtoLaws K}.
Context (new_v4 : nat → Uuid) (crc32 : list u8 → u32).
Hypothesis new_v4_ok : ∀ i, uuid_ok (new_v4 i).

(** A new file holds what is written to it. *)
Lemma new_file_holds {E A} (f : File) X (m : prog (K * u64) E A) bs k (Q : A → K → Prop) :
  emits (H := file_SinkView f) X m bs → contents k !! f_inode f = Some [] →
  (∀ a k', contents k' = <[f_inode f := bs]> (contents k) → faults k' = faults k → Q a k') →
  wp (with_cursor m) Q (λ e k', X e ∧ (faults k < faults k')%nat) k.
Proof.
  intros Hm Hf HQ. unfold wp, with_cursor. specialize (Hm (k, U64 0) []). cbn in Hm. rewrite Hf in Hm.
  specialize (Hm eq_refl). destruct (m (k, U64 0)) as [[a|e|] [k' pos]]; [|by destruct Hm as (? & _ & ? & _)|done].
  destruct Hm as (Hd & Hframe & Hcalm & _). apply HQ; [|done]. cbn in Hd, Hframe.
  destruct (contents k' !! f_inode f) as [data|] eqn:E0; [|done]. cbn in Hd. case_match; [|done].
  injection Hd as ->. apply map_eq. intros i. destruct (decide (i = f_inode f)) as [->|Hi].
  - by rewrite lookup_insert_eq.
  - rewrite lookup_insert_ne by done. by apply Hframe.
Qed.

(** The table of entries, full size. *)
Definition table (ps : list PartitionInfo) : list u8 :=
  let es := entries_bytes (plan_entries new_v4 0 GPT_BEGINNING_SIZE ps) in
  es ++ replicate (Z.to_nat (GPT_NUM_PARTITIONS * GPT_PARTITION_ENTRY_SIZE - 128 * lengthZ ps)) (U8 0).

Definition backup_offset (ps : list PartitionInfo) : Z := GPT_BEGINNING_SIZE + total_size ps.

(** The size of the disk: a multiple of 64 KiB. *)
Definition disk_size_of (ps : list PartitionInfo) : Z :=
  (backup_offset ps + GPT_END_SIZE + 65535) / 65536 * 65536.

Definition proto_of (filler header footer : rstring) (ps : list PartitionInfo) : CompositeProto := {|
  cp_version := U64 COMPOSITE_DISK_VERSION;
  cp_component_disks :=
    {| cd_file_path := header; cd_offset := U64 0; cd_read_write_capability := READ_ONLY |}
      :: plan_components filler GPT_BEGINNING_SIZE ps
      ++ [{| cd_file_path := footer; cd_offset := U64 (backup_offset ps);
             cd_read_write_capability := READ_ONLY |}];
  cp_length := U64 (disk_size_of ps)
|}.

Lemma lengthZ_entries i start ps :
  lengthZ (entries_bytes (plan_entries new_v4 i start ps)) = 128 * lengthZ ps.
Proof.
  revert i start. induction ps as [|p ps IH]; intros i start; [done|]. cbn [plan_entries].
  change (entries_bytes (?e :: ?es)) with (entry_bytes e ++ entries_bytes es).
  rewrite lengthZ_app, IH, lengthZ_entry_of, lengthZ_cons by done. lia.
Qed.

Lemma lengthZ_table ps :
  lengthZ ps <= GPT_NUM_PARTITIONS → lengthZ (table ps) = GPT_NUM_PARTITIONS * GPT_PARTITION_ENTRY_SIZE.
Proof.
  intros Hl. unfold table. rewrite lengthZ_app, lengthZ_entries. unfold lengthZ at 2.
  rewrite length_replicate. unfold GPT_NUM_PARTITIONS, GPT_PARTITION_ENTRY_SIZE in *. lia.
Qed.

Lemma disk_size_bounds ps :
  partitions_ok ps →
  GPT_BEGINNING_SIZE <= backup_offset ps ∧ backup_offset ps + GPT_END_SIZE <= disk_size_of ps < 2 ^ 41 ∧
  disk_size_of ps mod 65536 = 0.
Proof.
  intros (Hok & _ & _ & Hmax). pose proof (total_size_nonneg ps Hok).
  unfold disk_size_of, backup_offset in *. change GPT_BEGINNING_SIZE with 20480 in *.
  change GPT_END_SIZE with 16896 in *. unfold MAX_DISK in Hmax.
  set (x := 20480 + total_size ps + 16896) in *.
  pose proof (Z.div_mod (x + 65535) 65536 ltac:(lia)).
  pose proof (Z.mod_pos_bound (x + 65535) 65536 ltac:(lia)).
  rewrite Z.mod_mul by lia. lia.
Qed.

(** What the plan is for partitions that can be part of a disk. *)
Lemma plan_spec filler header ps :
  partitions_ok ps →
  ∃ l, plan new_v4 ps filler header = Returns l ∧ buffer_bytes (lo_entries l) = table ps ∧
    lo_disks l = {| cd_file_path := header; cd_offset := U64 0; cd_read_write_capability := READ_ONLY |}
                   :: plan_components filler GPT_BEGINNING_SIZE ps ∧
    uval (lo_next l) = backup_offset ps.
Proof.
  intros Hps. pose proof (disk_size_bounds ps Hps) as (Hb & Hd & _).
  destruct Hps as (Hok & Hnd & Hlen & Hmax). unfold plan.
  assert (uval (U64 GPT_BEGINNING_SIZE) = GPT_BEGINNING_SIZE) as Eb by done.
  change GPT_END_SIZE with 16896 in *. unfold backup_offset in *.
  destruct (add_partitions_spec new_v4 filler ps 0 []
     (GPT_NUM_PARTITIONS * GPT_PARTITION_ENTRY_SIZE)
     [{| cd_file_path := header; cd_offset := U64 0; cd_read_write_capability := READ_ONLY |}]
     [] (U64 GPT_BEGINNING_SIZE)) as [labels' ->];
    [done|done|done|rewrite Eb; lia
    |unfold GPT_NUM_PARTITIONS, GPT_PARTITION_ENTRY_SIZE in *; lia|by rewrite app_nil_r|].
  eexists. split; [done|]. cbn [lo_entries lo_disks lo_next]. rewrite Eb. split_and!; [done|done|].
  apply uval_to_uint_small. change GPT_BEGINNING_SIZE with 20480 in *. cbn [Z.of_N]. lia.
Qed.

Lemma align_disk_spec (x : u64) :
  x + 65535 < 2 ^ 63 → align_to_power_of_2 x DISK_SIZE_SHIFT = Some (U64 ((x + 65535) / 65536 * 65536)).
Proof.
  intros Hlt. unfold align_to_power_of_2. change (Z.shiftl 1 DISK_SIZE_SHIFT) with 65536.
  change (65536 - 1) with 65535. assert (uval (U64 65535) = 65535) as E0 by done.
  destruct (add_checked x _) as [sum|] eqn:E;
    [apply add_checked_Some in E|apply add_checked_None in E; rewrite E0 in E; cbn [Z.of_N] in E; lia].
  cbn [mbind option_bind]. by rewrite E, E0.
Qed.

Lemma emits_output (fo : File) (proto : CompositeProto) :
  emits (H := file_SinkView fo) write_error
    (map_err WriteHeader (file_write_all (K := K) fo CDISK_MAGIC);;
     map_err (λ _, WriteProto) (write_to_writer proto fo))
    (CDISK_MAGIC ++ proto_bytes proto).
Proof.
  apply (@emits_seq _ _ _ (file_SinkLaws fo)).
  - by eapply emits_map_err, (@write_to_emits _ _ _ (file_SinkLaws fo)).
  - by eapply emits_map_err, write_to_writer_law.
Qed.

Lemma create_spec ps zero_filler header_path footer_path filler header footer (fh ff fo : File) k :
  from_utf8 zero_filler = Some filler → from_utf8 header_path = Some header →
  from_utf8 footer_path = Some footer → partitions_ok ps →
  NoDup [f_inode fh; f_inode ff; f_inode fo] →
  contents k !! f_inode fh = Some [] → contents k !! f_inode ff = Some [] →
  contents k !! f_inode fo = Some [] →
  wp (create_composite_disk new_v4 crc32 ps zero_filler header_path fh footer_path ff fo)
    (λ _ k', faults k' = faults k ∧ contents k' =
       <[f_inode fo := CDISK_MAGIC ++ proto_bytes (proto_of filler header footer ps)]>
       (<[f_inode ff := end_bytes crc32 (new_v4 (length ps)) (table ps) (backup_offset ps) (disk_size_of ps)]>
       (<[f_inode fh := beginning_bytes crc32 (new_v4 (length ps)) (table ps) (backup_offset ps) (disk_size_of ps)]>
          (contents k))))
    (λ e k', write_error e ∧ (faults k < faults k')%nat) k.
Proof.
  intros Hz Hh Hf Hps Hnd Kh Kf Ko. pose proof (disk_size_bounds ps Hps) as (Hlo & Hds & _).
  destruct (plan_spec filler header ps Hps) as (l & Hplan & Htab & Hdisks & Hnext).
  apply NoDup_cons in Hnd as [Hn1 Hnd]. apply NoDup_cons in Hnd as [Hn2 _].
  unfold create_composite_disk, to_str. rewrite Hz, Hh, Hf.
  do 3 (apply wp_bind; eapply wp_give_outcome; [done|]).
  apply wp_bind. eapply wp_give_outcome; [done|]. cbv zeta.
  assert (uval (U64 GPT_END_SIZE) = GPT_END_SIZE) as Ee by done.
  change GPT_BEGINNING_SIZE with 20480 in Hlo. assert (GPT_END_SIZE = 16896) as E16 by done.
  apply wp_bind, wp_checked. exists (U64 (backup_offset ps + GPT_END_SIZE)). split.
  { apply add_checked_Some. rewrite Hnext, Ee. apply uval_to_uint_small. cbn [Z.of_N]. lia. }
  apply wp_bind, wp_checked. exists (U64 (disk_size_of ps)). split.
  { rewrite align_disk_spec; rewrite uval_to_uint_small by (cbn [Z.of_N]; lia); [done|lia]. }
  assert (uval (U64 (disk_size_of ps)) = disk_size_of ps) as Eds by (apply uval_to_uint_small; cbn [Z.of_N]; lia).
  assert (disk_size_of ps / SECTOR_SIZE < 2 ^ 32) as Hsec.
  { change SECTOR_SIZE with 512. apply Z.div_lt_upper_bound; lia. }
  rewrite Htab, Hdisks.
  replace (lo_next l) with (U64 (backup_offset ps)) by (rewrite <- Hnext; apply to_uint_uval).
  assert (uval (U64 (backup_offset ps)) = backup_offset ps) as Ebo by (apply uval_to_uint_small; cbn [Z.of_N]; lia).
  apply wp_bind. eapply (new_file_holds fh); [|done|].
  { apply (@emits_beginning _ _ _ (file_SinkLaws fh)); [done|rewrite Ebo|rewrite Ebo|by rewrite Eds];
      change SECTOR_SIZE with 512; lia. }
  intros _ k1 Hk1 Hn_1. rewrite <- Hn_1. apply wp_bind. eapply (new_file_holds ff).
  { apply (@emits_end _ _ _ (file_SinkLaws ff)); [done|rewrite Ebo; change SECTOR_SIZE with 512; lia
      |rewrite Ebo, Eds; lia]. }
  { rewrite Hk1, lookup_insert_ne; [done|]. intros Heq. apply Hn1. rewrite Heq. apply list_elem_of_here. }
  intros _ k2 Hk2 Hn_2. rewrite <- Hn_2. eapply (new_file_holds fo).
  { apply emits_output. }
  { rewrite Hk2, Hk1, !lookup_insert_ne; [done| |].
    - intros Heq. apply Hn1. rewrite Heq. by apply list_elem_of_further, list_elem_of_here.
    - intros Heq. apply Hn2. rewrite Heq. apply list_elem_of_here. }
  intros _ k3 -> Hn_3. split; [done|]. by rewrite Hk2, Hk1, Ebo, Eds.
Qed.
End create_facts.
