(* ===== verification/CreateReopen.v ===== *)
(** * Created composite disks, opened again

    [CompositeDiskFile::from_file] on what [create_composite_disk] wrote: the disk
    has the partition table at its start, and at the place the table gives for a
    partition it shows the partition's file, padded with zeros. *)

From S2P Require Import Prelude StdIo Checked DiskFile DiskFacts Gpt GptFacts SparseImage SparseFacts.
From S2P Require Import CompositeDisk CompositeFacts CompositeOpen CompositeCreate CreateFacts.

(** ** Opening plain files *)

(** The first block of a file, as [detect_image_type] sees it. *)
Definition first_block (data : list u8) : list u8 :=
  takeZ MAGIC_BLOCK_SIZE data
    ++ replicate (Z.to_nat (MAGIC_BLOCK_SIZE - lengthZ (takeZ MAGIC_BLOCK_SIZE data))) (U8 0).

(** A file that is no disk image of another format. *)
Definition plain (data : list u8) : Prop :=
  takeZ (lengthZ CDISK_MAGIC) (first_block data) ≠ CDISK_MAGIC ∧
  takeZ 4 (first_block data) ≠ le_split 4 SPARSE_HEADER_MAGIC.
#[global] Instance plain_dec data : Decision (plain data).
Proof. unfold plain. apply _. Defined.

(** The errors that only the host can cause. *)
Definition detect_error (e : disk_error) : Prop :=
  match e with SeekingFile _ | HostFsType _ | ReadingHeader _ => True | _ => False end.
Definition open_error (e : composite_error) : Prop :=
  match e with
  | DiskError e => detect_error e
  | OpenFile _ | ReadSpecificationError _ | InvalidProto => True
  | _ => False
  end.

Section reopen.
Context {K : Type} `{HostLaws K} `{!HostOpen K, !HostOpenLaws K, !ProtoWriter K, !ProtoLaws K}.

Lemma wp_on_host {E A T} (m : prog K E A) (s : K * T) Q X :
  wp m (λ a k', Q a (k', s.2)) (λ e k', X e (k', s.2)) s.1 → wp (on_host m) Q X s.
Proof. unfold wp, on_host, zoom. by destruct (m s.1) as [[] k']. Qed.

Lemma wp_with_cursor {E A} (m : prog (K * u64) E A) k (Q : A → K → Prop) (X : E → K → Prop) :
  wp m (λ a s', Q a s'.1) (λ e s', X e s'.1) (k, U64 0) → wp (with_cursor m) Q X k.
Proof. unfold wp, with_cursor. by destruct (m (k, U64 0)) as [[] [k' p]]. Qed.

(** An error of the kind [X], after a call of the host failed. *)
Definition blamed {E} (X : E → Prop) (nf : nat) (e : E) (k : K) : Prop := X e ∧ (nf < faults k)%nat.

Lemma wp_unchanged {E A} (X : E → Prop) σ nf (g : io_error → E) (m : prog (K * u64) io_error A) Q s :
  (∀ e, X (g e)) → wp m Q (unchanged σ nf) s → wp (map_err g m) Q (λ e s', blamed X nf e s'.1) s.
Proof. intros Hg Hm. apply wp_map_err. eapply wp_mono; [done|done|]. intros e s' [_ ?]. by split. Qed.

Lemma detect_plain f σ nf data s :
  host_at σ nf s → σ !! f_inode f = Some data → plain data →
  wp (detect_image_type f) (λ t s', t = RawImage ∧ host_at σ nf s') (λ e s', blamed detect_error nf e s'.1) s.
Proof.
  intros [Hc Hn] Hd [Hp1 Hp2]. unfold detect_image_type, read_from_disk.
  apply wp_bind, wp_map_err, wp_on_host. unfold wp at 1.
  destruct (lseek_end f s.1) as [r1 k1] eqn:E1. apply lseek_end_law in E1 as (Hc1 & _ & Hr1).
  destruct r1 as [len|e|]; [|by split; cbn; [|lia]|done]. destruct Hr1 as (Hn1 & data' & Hd' & Hlen).
  rewrite Hc, Hd in Hd'. injection Hd' as <-.
  apply wp_bind, (wp_unchanged _ σ); [done|].
  eapply (wp_seek_current f σ nf (uval s.2) 0); [split; [split|]; cbn; congruence|].
  intros p s2 [[Hc2 Hn2] _] Hp. cbv beta.
  apply wp_bind, wp_map_err, wp_on_host. unfold wp at 1.
  destruct (fs_type f s2.1) as [r3 k3] eqn:E3. apply fs_type_law in E3 as (Hc3 & _ & Hr3).
  destruct r3 as [t|e|]; [|split; cbn in *; [done|lia]|done]. cbn in Hr3. cbv zeta.
  apply wp_bind, wp_bind, (wp_unchanged _ σ); [done|].
  eapply (wp_seek_start f σ nf 0); [split; cbn; congruence|]. intros q s4 Hs4 _. cbv beta.
  apply (wp_unchanged _ σ); [done|].
  pose proof (umin_spec len (U64 MAGIC_BLOCK_SIZE)) as Hmin.
  change (uval (U64 MAGIC_BLOCK_SIZE)) with MAGIC_BLOCK_SIZE in Hmin.
  eapply (wp_read_exact f σ nf data 0); [done|done|lia|]. intros s5 [Hc5 _]. cbv beta.
  rewrite dropZ_0. replace (takeZ (umin len (U64 MAGIC_BLOCK_SIZE)) data) with (takeZ MAGIC_BLOCK_SIZE data).
  2: { rewrite Hmin, Hlen. unfold MAGIC_BLOCK_SIZE. destruct (Z.le_ge_cases 4096 (lengthZ data)).
       - by rewrite Z.min_r. - rewrite Z.min_l by done. by rewrite !takeZ_all. }
  apply wp_bind, (wp_unchanged _ σ); [done|].
  eapply (wp_seek_start f σ nf p); [done|]. intros q6 s6 [Hc6 _] _. cbv beta.
  fold (first_block data). rewrite !bool_decide_false by done. by apply wp_ret.
Qed.

(** [file_path], taken from the directory of the image, names the plain file
    [data]. *)
Definition resolves (dir : path) (σ : store) (file_path : rstring) (data : list u8) : Prop :=
  let p := join dir (path_from (sbytes file_path)) in
  parent p ≠ Some proc_self_fd ∧
  ∃ ino, path_inode p = Some ino ∧ σ !! ino = Some data ∧ plain data.

(** An opened component: the plain file at its offset. *)
Definition opened {n} (σ : store) (dir : path) (comp : ComponentDisk) (part : ComponentDiskPart (disk (S n))) : Prop :=
  part_offset part = cd_offset comp ∧
  ∃ f, part_file part = RawDisk f ∧
    path_inode (join dir (path_from (sbytes (cd_file_path comp)))) = Some (f_inode f).

Lemma create_plain n f sp image_path σ nf data k :
  calm σ nf k → σ !! f_inode f = Some data → plain data →
  wp (create_disk_file (S n) f sp image_path) (λ d k', d = RawDisk f ∧ calm σ nf k')
    (blamed detect_error nf) k.
Proof.
  intros Hc Hd Hp. cbn [create_disk_file]. apply wp_bind, wp_with_cursor. eapply wp_mono.
  - by eapply detect_plain.
  - intros t s' [-> Hc']. by apply wp_ret.
  - done.
Qed.

Lemma open_component_plain n proto sp image_path dir σ nf comp data k :
  calm σ nf k → 1 < cp_version proto → parent image_path = Some dir →
  resolves dir σ (cd_file_path comp) data →
  wp (open_component (create_disk_file (S n)) proto sp image_path comp)
    (λ part k', calm σ nf k' ∧ opened σ dir comp part) (blamed open_error nf) k.
Proof.
  intros [Hc Hn] Hv Hdir (Hnp & ino & Hino & Hdata & Hplain). unfold open_component. cbv zeta.
  rewrite (proj2 (Z.ltb_lt 1 _) Hv), orb_true_r. apply wp_bind, wp_bind, wp_checked.
  exists dir. split; [done|]. apply wp_ret. apply wp_bind, wp_map_err.
  unfold open_file_or_duplicate, safe_descriptor_from_path. rewrite bool_decide_false by done.
  apply wp_bind, wp_ret. unfold wp at 1.
  destruct (open_path _ _ k) as [r k1] eqn:E. apply open_path_law in E as (Hc1 & _ & Hr).
  destruct r as [f|e|]; [|split; cbn; [done|lia]|done]. destruct Hr as (Hf & _ & Hn1).
  rewrite Hino in Hf. injection Hf as Hf. apply wp_bind, wp_map_err. eapply wp_mono.
  - eapply (create_plain _ _ _ _ σ nf); [split; congruence|by rewrite <- Hf|done].
  - intros d k2 [-> Hc2]. apply wp_ret. split; [done|]. split; [done|].
    exists f. split; [done|]. by rewrite Hino, Hf.
  - by intros e k' [? ?].
Qed.

Lemma open_components_plain n proto sp image_path dir σ nf comps : ∀ k,
  calm σ nf k → 1 < cp_version proto → parent image_path = Some dir →
  Forall (λ comp, ∃ data, resolves dir σ (cd_file_path comp) data) comps →
  wp (open_components (create_disk_file (S n)) proto sp image_path comps)
    (λ parts k', calm σ nf k' ∧ Forall2 (opened σ dir) comps parts) (blamed open_error nf) k.
Proof.
  induction comps as [|comp comps IH]; intros k Hc Hv Hdir Hres; cbn [open_components].
  { apply wp_ret. split; [done|constructor]. }
  apply Forall_cons in Hres as [[data Hd] Hres]. apply wp_bind. eapply wp_mono.
  - by eapply open_component_plain.
  - intros part k1 [Hc1 Hpart]. apply wp_bind. eapply wp_mono; [by apply IH| |done].
    intros parts k2 [Hc2 Hparts]. apply wp_ret. split; [done|by constructor].
  - done.
Qed.

(** Opening a file that holds a specification. *)
Lemma composite_from_file_plain n proto sp image_path dir σ nf fo k :
  calm σ nf k → σ !! f_inode fo = Some (CDISK_MAGIC ++ proto_bytes proto) →
  uval (cp_version proto) = 2 → parent image_path = Some dir →
  Forall (λ comp, ∃ data, resolves dir σ (cd_file_path comp) data) (cp_component_disks proto) →
  (∀ parts, Forall2 (opened (n := n) σ dir) (cp_component_disks proto) parts →
     assemble (cp_length proto) parts = Returns (mkComposite (lay_out (cp_length proto) parts))) →
  wp (Composite_from_file (create_disk_file (S n)) fo sp image_path)
    (λ c k', calm σ nf k' ∧ ∃ parts, Forall2 (opened σ dir) (cp_component_disks proto) parts ∧
       c = mkComposite (lay_out (cp_length proto) parts))
    (blamed open_error nf) k.
Proof.
  intros Hc Hd Hv Hdir Hres Hass. unfold Composite_from_file. apply wp_bind, wp_with_cursor.
  apply wp_bind, (wp_unchanged _ σ); [done|].
  eapply (wp_seek_start fo σ nf 0); [done|]. intros q s1 Hs1 _. cbv beta.
  apply wp_bind, (wp_unchanged _ σ); [done|].
  change (U64 (lengthZ CDISK_MAGIC)) with (U64 15).
  eapply (wp_read_exact fo σ nf _ 0); [done|done| |].
  { rewrite lengthZ_app. pose proof (lengthZ_nonneg (proto_bytes proto)).
    change (lengthZ CDISK_MAGIC) with 15. change (uval (U64 15)) with 15. lia. }
  intros [k2 pos] [[Hc2 Hn2] Hpos]. cbn in Hc2, Hn2, Hpos. cbv beta. change (uval (U64 15)) with (lengthZ CDISK_MAGIC).
  rewrite dropZ_0, takeZ_app_exact, bool_decide_true by done. cbn [negb].
  apply wp_bind, wp_map_err. unfold wp at 1.
  pose proof (parse_law proto fo k2 pos (CDISK_MAGIC ++ proto_bytes proto)) as Hparse.
  rewrite Hc2, Hpos in Hparse. specialize (Hparse Hd (dropZ_app_exact CDISK_MAGIC _)).
  destruct (parse_from_reader fo (k2, pos)) as [r s3] eqn:E.
  apply parse_from_reader_law in E as (Hc3 & _ & Hn3).
  destruct r as [proto'|e|]; [|split; [done|lia]|done]. subst proto'.
  rewrite Hv. change (COMPOSITE_DISK_VERSION <? 2) with false. cbv iota. apply wp_ret.
  apply wp_bind. eapply wp_mono.
  - apply (open_components_plain n proto sp image_path dir σ nf);
      [split; cbn in *; congruence|by rewrite Hv|done|done].
  - intros parts k4 [Hc4 Hparts]. eapply wp_give_outcome; [by apply Hass|]. split; [done|]. by exists parts.
  - done.
Qed.
End reopen.

(** ** The offsets of the components *)

Fixpoint incr (l : list Z) : Prop :=
  match l with
  | a :: ((b :: _) as rest) => a < b ∧ incr rest
  | _ => True
  end.

Lemma incr_app l x l' : incr (l ++ [x]) → incr (x :: l') → incr (l ++ x :: l').
Proof.
  induction l as [|a [|b l] IH]; intros Hl Hl'; cbn in *; [done|by destruct Hl|].
  destruct Hl as [? Hl]. split; [done|]. by apply IH.
Qed.

Lemma incr_increasing {D} (ps : list (ComponentDiskPart D)) :
  incr (map (λ p, uval (part_offset p)) ps) → increasing ps.
Proof.
  induction ps as [|p [|q ps] IH]; [done..|]. intros [? ?]. split; [done|]. by apply IH.
Qed.

Definition offsets (cs : list ComponentDisk) : list Z := map (λ c, uval (cd_offset c)) cs.

Lemma components_incr filler p start :
  partition_ok p → 0 <= start → start + aligned p < 2 ^ 63 →
  offsets (components_of filler p start) ++ [start + aligned p] =
    (if uval (pi_size p) =? aligned p then [start; start + aligned p]
     else [start; start + pi_size p; start + aligned p]) ∧
  incr (offsets (components_of filler p start) ++ [start + aligned p]).
Proof.
  intros (Hsz & _) H0 Hlt. pose proof (aligned_bounds p Hsz) as [Ha _]. unfold components_of, offsets.
  assert (uval (U64 start) = start) as Es by (apply uval_to_uint_small; cbn [Z.of_N]; lia).
  destruct (Z.eqb_spec (pi_size p) (aligned p)) as [Heq|Hne]; cbn [map app cd_offset]; rewrite Es.
  - split; [done|]. split; [lia|done].
  - rewrite uval_to_uint_small by (cbn [Z.of_N]; lia). split; [done|]. cbn [incr]. split_and!; [lia|lia|done].
Qed.

Lemma plan_incr filler ps : ∀ start,
  Forall partition_ok ps → 0 <= start → start + total_size ps < 2 ^ 63 →
  incr (offsets (plan_components filler start ps) ++ [start + total_size ps]) ∧
  ∃ rest, offsets (plan_components filler start ps) ++ [start + total_size ps] = start :: rest.
Proof.
  induction ps as [|p ps IH]; intros start Hok H0 Hlt.
  { cbn. rewrite Z.add_0_r. split; [done|by exists []]. }
  apply Forall_cons in Hok as [Hp Hok]. pose proof (total_size_nonneg ps Hok).
  pose proof (proj1 Hp) as Hsz. pose proof (aligned_bounds p Hsz) as [Ha _].
  cbn [total_size plan_components] in *. unfold offsets in *. rewrite map_app, <- app_assoc, Z.add_assoc.
  destruct (IH (start + aligned p) Hok ltac:(lia) ltac:(lia)) as [Hi [rest Hrest]]. rewrite Hrest in *.
  destruct (components_incr filler p start Hp ltac:(lia) ltac:(lia)) as [Heq Hc]. unfold offsets in *. split.
  - by apply incr_app.
  - unfold components_of. cbn [map app cd_offset]. rewrite uval_to_uint_small by (cbn [Z.of_N]; lia). eauto.
Qed.

(** The plan around a partition. *)
Lemma plan_components_app filler start ps1 ps2 :
  plan_components filler start (ps1 ++ ps2) =
  plan_components filler start ps1 ++ plan_components filler (start + total_size ps1) ps2.
Proof.
  revert start. induction ps1 as [|p ps1 IH]; intros start; cbn; [by rewrite Z.add_0_r|].
  by rewrite IH, <- app_assoc, Z.add_assoc.
Qed.

Lemma plan_entries_app new_v4 i start ps1 ps2 :
  plan_entries new_v4 i start (ps1 ++ ps2) =
  plan_entries new_v4 i start ps1
    ++ plan_entries new_v4 (i + length ps1) (start + total_size ps1) ps2.
Proof.
  revert i start. induction ps1 as [|p ps1 IH]; intros i start; cbn.
  - by rewrite Z.add_0_r, Nat.add_0_r.
  - rewrite IH, Z.add_assoc. by replace (i + S (length ps1))%nat with (S i + length ps1)%nat by lia.
Qed.

Lemma total_size_app ps1 ps2 : total_size (ps1 ++ ps2) = total_size ps1 + total_size ps2.
Proof. induction ps1 as [|p ps1 IH]; cbn; [done|]. rewrite IH. lia. Qed.

(** Two neighbours of a laid out disk. *)
Lemma lay_out_lookup {D} total (l1 l2 : list (ComponentDiskPart D)) x y :
  lay_out total (l1 ++ x :: y :: l2) !! length l1 =
  Some (mkPart (part_file x) (part_offset x) (U64 (part_offset y - part_offset x)) (needs_fsync x)).
Proof. induction l1 as [|a l1 IH]; [done|]. by cbn. Qed.

Lemma opened_offsets {K} `{HostOpen K} {n} σ dir comps (parts : list (ComponentDiskPart (disk (S n)))) :
  Forall2 (opened (K := K) σ dir) comps parts →
  map (λ p, uval (part_offset p)) parts = offsets comps.
Proof.
  induction 1 as [|comp part comps parts [Ho _] _ IH]; [done|].
  unfold offsets in *. cbn [map]. by rewrite Ho, IH.
Qed.

(** ** The files are plain *)

Lemma takeZ_cons {A} n (x : A) l : 0 < n → takeZ n (x :: l) = x :: takeZ (n - 1) l.
Proof. intros ?. rewrite !takeZ_take. by replace (Z.to_nat n) with (S (Z.to_nat (n - 1))) by lia. Qed.

Lemma plain_head b data : uval b ≠ 0x63 → uval b ≠ 0x3a → plain (b :: data).
Proof.
  intros Hc Hs. unfold plain, first_block. change MAGIC_BLOCK_SIZE with 4096.
  rewrite (takeZ_cons 4096) by lia. cbn [app]. change (lengthZ CDISK_MAGIC) with 15.
  rewrite (takeZ_cons 15), (takeZ_cons 4) by lia. split; intros Heq; apply (f_equal head) in Heq;
    injection Heq as ->; by vm_compute in Hc, Hs.
Qed.

Lemma plain_zeros n : 0 < n → plain (zeros n).
Proof.
  intros ?. unfold zeros. replace (Z.to_nat n) with (S (Z.to_nat (n - 1))) by lia. by apply plain_head.
Qed.

Section shown.
Context {K : Type} `{HostLaws K} `{!HostOpen K, !HostOpenLaws K, !ProtoWriter K, !ProtoLaws K}.
Context (new_v4 : nat → Uuid) (crc32 : list u8 → u32).
Hypothesis new_v4_ok : ∀ i, uuid_ok (new_v4 i).

Lemma plain_beginning g t o s : plain (beginning_bytes crc32 g t o s).
Proof. by apply (plain_head (U8 0)). Qed.

Lemma plain_end g ps o s :
  lengthZ ps <= GPT_NUM_PARTITIONS → plain (end_bytes crc32 g (table new_v4 ps) o s).
Proof.
  intros Hlen. destruct ps as [|p ps].
  - apply (plain_head (U8 0)); done.
  - unfold end_bytes, table. cbn [plan_entries].
    change (entries_bytes (?e :: ?es)) with (entry_bytes e ++ entries_bytes es).
    unfold entry_bytes, guid_bytes. cbn [partition_type_guid entry_of].
    destruct (pi_partition_type p); apply plain_head; done.
Qed.

(** The entry of a partition gives the place of the partition in sectors. *)
Lemma entry_sectors u p start :
  0 < pi_size p → 0 <= start → start mod 4096 = 0 → start + aligned p < 2 ^ 63 →
  first_lba (entry_of u p start) * SECTOR_SIZE = start ∧
  (last_lba (entry_of u p start) + 1) * SECTOR_SIZE = start + aligned p.
Proof.
  intros Hp Hst Hm Hlt. pose proof (aligned_bounds p Hp) as [Ha Ham]. cbn [first_lba last_lba entry_of].
  change SECTOR_SIZE with 512. 
  pose proof (Z.div_mod start 4096 ltac:(lia)). pose proof (Z.div_mod (aligned p) 4096 ltac:(lia)).
  assert (start / 512 = start / 4096 * 8) as E1.
  { symmetry. apply (Z.div_unique _ _ _ 0); lia. }
  assert ((start + aligned p) / 512 = start / 4096 * 8 + aligned p / 4096 * 8) as E2.
  { symmetry. apply (Z.div_unique _ _ _ 0); lia. }
  rewrite E1, E2, !uval_to_uint_small; cbn [Z.of_N]; lia.
Qed.

Lemma total_size_mod ps : Forall partition_ok ps → total_size ps mod 4096 = 0.
Proof.
  induction 1 as [|p ps [Hp _] _ IH]; [done|]. cbn [total_size].
  destruct (aligned_bounds p Hp) as [_ Ha]. by rewrite Z.add_mod, Ha, IH by lia.
Qed.

(** *** Reading a component *)

Lemma shows_part {n} σ dir total comp comp' comps1 comps2 parts data off (bs : list u8) :
  off = uval (cd_offset comp) →
  Forall2 (opened (K := K) (n := n) σ dir) (comps1 ++ comp :: comp' :: comps2) parts →
  incr (offsets (comps1 ++ comp :: comp' :: comps2)) →
  resolves (K := K) dir σ (cd_file_path comp) data →
  bs `prefix_of` data → cd_offset comp + lengthZ bs <= cd_offset comp' →
  shows σ (mkComposite (lay_out total parts)) off bs.
Proof.
  intros -> Hparts Hincr (_ & ino & Hino & Hdata & _) Hpre Hfit.
  pose proof (opened_offsets _ _ _ _ Hparts) as Hoff.
  apply Forall2_app_inv_l in Hparts as (l1 & l2 & Hl1 & Hl2 & ->).
  apply Forall2_cons_inv_l in Hl2 as (x & l2' & Hx & Hl2 & ->).
  apply Forall2_cons_inv_l in Hl2 as (y & l2 & Hy & _ & ->).
  destruct Hx as (Hox & f & Hfx & Hfino), Hy as (Hoy & _).
  pose proof (uint_range (cd_offset comp)). pose proof (uint_range (cd_offset comp')).
  assert (increasing (l1 ++ x :: y :: l2)) as Hi by (apply incr_increasing; by rewrite Hoff).
  pose proof (lay_out_lookup total l1 l2 x y) as Hlook. rewrite Hox, Hoy in Hlook.
  intros i b Hb. pose proof (lookup_lt_Some _ _ _ Hb). cbn.
  erewrite parts_byte_at; [|by apply lay_out_contiguous|exact Hlook|].
  - cbn [part_file part_offset]. rewrite Hfx. cbn. rewrite Hino in Hfino. injection Hfino as ->. rewrite Hdata. cbn.
    replace (cd_offset comp + Z.of_nat i - cd_offset comp) with (Z.of_nat i) by lia.
    rewrite byte_at_lookup. by eapply prefix_lookup_Some.
  - unfold covers, lengthZ in *. cbn [part_offset part_length]. rewrite uval_to_uint_small; lia.
Qed.

Lemma all_incr filler header footer ps :
  partitions_ok ps →
  incr (offsets (cp_component_disks (proto_of filler header footer ps))).
Proof.
  intros Hps. pose proof (disk_size_bounds ps Hps) as (_ & Hds & _). destruct Hps as (Hok & _).
  pose proof (total_size_nonneg ps Hok). unfold backup_offset in Hds.
  change GPT_END_SIZE with 16896 in Hds. 
  destruct (plan_incr filler ps GPT_BEGINNING_SIZE Hok ltac:(done) ltac:(lia)) as [Hi [rest Hrest]].
  unfold offsets in *. cbn [cp_component_disks proto_of map]. rewrite map_app. cbn [map cd_offset].
  unfold backup_offset. change GPT_BEGINNING_SIZE with 20480 in *.
  rewrite (uval_to_uint_small (20480 + total_size ps)) by (cbn [Z.of_N]; lia).
  rewrite Hrest in *. by split.
Qed.

Lemma length_plan_components filler st ps :
  (length (plan_components filler st ps) ≤ 2 * length ps)%nat.
Proof.
  revert st. induction ps as [|p ps IH]; intros st; [done|]. cbn [plan_components].
  rewrite length_app. specialize (IH (st + aligned p)). unfold components_of. destruct (_ =? _); cbn [length]; lia.
Qed.

Lemma assemble_created {n} σ dir filler header footer ps parts :
  partitions_ok ps →
  Forall2 (opened (K := K) (n := n) σ dir) (cp_component_disks (proto_of filler header footer ps)) parts →
  assemble (U64 (disk_size_of ps)) parts = Returns (mkComposite (lay_out (U64 (disk_size_of ps)) parts)).
Proof.
  intros Hps Hparts. pose proof (disk_size_bounds ps Hps) as (Hlo & Hds & _).
  pose proof (opened_offsets _ _ _ _ Hparts) as Hoff. pose proof (all_incr filler header footer ps Hps) as Hi.
  rewrite <- Hoff in Hi. change GPT_END_SIZE with 16896 in Hds. change GPT_BEGINNING_SIZE with 20480 in Hlo.
  cbn [cp_component_disks proto_of] in Hparts. rewrite app_comm_cons in Hparts.
  pose proof (Forall2_length _ _ _ Hparts) as Hlen.
  apply Forall2_app_inv_l in Hparts as (l1 & l2 & Hl1 & Hl2 & ->).
  apply Forall2_cons_inv_l in Hl2 as (y & l3 & [Hy _] & Hl3 & ->). apply Forall2_nil_inv_l in Hl3 as ->.
  apply assemble_ok.
  - by destruct l1.
  - unfold lengthZ. rewrite <- Hlen.
    pose proof (length_plan_components filler GPT_BEGINNING_SIZE ps).
    destruct Hps as (_ & _ & Hl & _). unfold lengthZ, GPT_NUM_PARTITIONS in Hl. rewrite length_app. cbn [length]. lia.
  - by apply incr_increasing.
  - intros z Hz. rewrite last_snoc in Hz. injection Hz as <-. rewrite Hy. cbn [cd_offset].
    rewrite !uval_to_uint_small; cbn [Z.of_N]; lia.
Qed.

(** *** The scene *)

(** The files around a call: the new files are empty, the file of every partition
    is plain and at least as long as the partition, the filler is a page of zeros,
    and the specification finds all of them by their paths. *)
Record scene (k : K) (ps : list PartitionInfo) (data_of : PartitionInfo → list u8)
    (filler header footer : rstring) (fh ff fo : File) (dir : path) : Prop := {
  scene_distinct : NoDup [f_inode fh; f_inode ff; f_inode fo];
  scene_empty : ∀ f, f ∈ [fh; ff; fo] → contents k !! f_inode f = Some [];
  scene_header : let p := join dir (path_from (sbytes header)) in
    parent p ≠ Some proc_self_fd ∧ path_inode p = Some (f_inode fh);
  scene_footer : let p := join dir (path_from (sbytes footer)) in
    parent p ≠ Some proc_self_fd ∧ path_inode p = Some (f_inode ff);
  scene_filler : resolves (K := K) dir (contents k) filler (zeros 4096);
  scene_filler_old : ∀ f, f ∈ [fh; ff; fo] →
    path_inode (join dir (path_from (sbytes filler))) ≠ Some (f_inode f);
  scene_partitions : ∀ p, p ∈ ps → pi_size p <= lengthZ (data_of p) ∧
    resolves (K := K) dir (contents k) (path_of p) (data_of p) ∧
    ∀ f, f ∈ [fh; ff; fo] → path_inode (join dir (path_from (sbytes (path_of p)))) ≠ Some (f_inode f)
}.

(** The files after the call. *)
Definition created (σ : store) ps filler header footer (fh ff fo : File) : store :=
  <[f_inode fo := CDISK_MAGIC ++ proto_bytes (proto_of filler header footer ps)]>
  (<[f_inode ff := end_bytes crc32 (new_v4 (length ps)) (table new_v4 ps) (backup_offset ps) (disk_size_of ps)]>
  (<[f_inode fh := beginning_bytes crc32 (new_v4 (length ps)) (table new_v4 ps) (backup_offset ps)
                     (disk_size_of ps)]> σ)).

Section in_scene.
Context (k : K) (ps : list PartitionInfo) (data_of : PartitionInfo → list u8).
Context (filler header footer : rstring) (fh ff fo : File) (dir : path).
Hypothesis Hscene : scene k ps data_of filler header footer fh ff fo dir.
Hypothesis Hps : partitions_ok ps.
Let σ := created (contents k) ps filler header footer fh ff fo.

Lemma created_old file_path data :
  resolves (K := K) dir (contents k) file_path data →
  (∀ f, f ∈ [fh; ff; fo] → path_inode (join dir (path_from (sbytes file_path))) ≠ Some (f_inode f)) →
  resolves (K := K) dir σ file_path data.
Proof.
  intros (Hnp & ino & Hino & Hd & Hpl) Hold. split; [done|]. exists ino. split; [done|]. split; [|done].
  unfold σ, created. rewrite !lookup_insert_ne; [done| | |];
    intros Heq; [apply (Hold fh)|apply (Hold ff)|apply (Hold fo)]; try congruence; set_solver.
Qed.

Lemma created_header :
  resolves (K := K) dir σ header
    (beginning_bytes crc32 (new_v4 (length ps)) (table new_v4 ps) (backup_offset ps) (disk_size_of ps)).
Proof.
  destruct (scene_header _ _ _ _ _ _ _ _ _ _ Hscene) as [Hnp Hino]. split; [done|].
  exists (f_inode fh). split; [done|]. split; [|apply plain_beginning].
  pose proof (scene_distinct _ _ _ _ _ _ _ _ _ _ Hscene) as Hnd. apply NoDup_cons in Hnd as [Hn _].
  unfold σ, created. rewrite lookup_insert_ne, lookup_insert_ne, lookup_insert_eq; [done| |]; set_solver.
Qed.

Lemma created_footer :
  resolves (K := K) dir σ footer
    (end_bytes crc32 (new_v4 (length ps)) (table new_v4 ps) (backup_offset ps) (disk_size_of ps)).
Proof.
  destruct (scene_footer _ _ _ _ _ _ _ _ _ _ Hscene) as [Hnp Hino]. split; [done|].
  exists (f_inode ff). split; [done|]. split; [|by apply plain_end; destruct Hps as (_ & _ & ? & _)].
  pose proof (scene_distinct _ _ _ _ _ _ _ _ _ _ Hscene) as Hnd. apply NoDup_cons in Hnd as [_ Hnd].
  apply NoDup_cons in Hnd as [Hn _].
  unfold σ, created. rewrite lookup_insert_ne, lookup_insert_eq; [done|]; set_solver.
Qed.

Lemma created_resolves :
  Forall (λ comp, ∃ data, resolves (K := K) dir σ (cd_file_path comp) data)
    (cp_component_disks (proto_of filler header footer ps)).
Proof.
  cbn [cp_component_disks proto_of]. constructor; [eexists; apply created_header|].
  apply Forall_app_2; [|constructor; [eexists; apply created_footer|constructor]].
  assert (∀ p, p ∈ ps → ∃ data, resolves (K := K) dir σ (path_of p) data) as Hpart.
  { intros p Hp. destruct (scene_partitions _ _ _ _ _ _ _ _ _ _ Hscene p Hp) as (_ & Hr & Hold).
    eexists. by apply created_old. }
  assert (∃ data, resolves (K := K) dir σ filler data) as Hfill.
  { eexists. apply created_old; [apply (scene_filler _ _ _ _ _ _ _ _ _ _ Hscene)|
      apply (scene_filler_old _ _ _ _ _ _ _ _ _ _ Hscene)]. }
  generalize GPT_BEGINNING_SIZE. clearbody σ. clear Hps Hscene.
  induction ps as [|p qs IH]; intros st; [constructor|]. cbn [plan_components].
  apply Forall_app_2; [|apply IH; intros q Hq; apply Hpart; by apply list_elem_of_further].
  unfold components_of. constructor; [apply Hpart, list_elem_of_here|]. case_match; [constructor|].
  constructor; [done|constructor].
Qed.

(** The components around a partition. *)
Lemma components_around ps1 p ps2 :
  ps = ps1 ++ p :: ps2 →
  let start := GPT_BEGINNING_SIZE + total_size ps1 in
  ∃ pre comp' post,
    cp_component_disks (proto_of filler header footer ps) =
      pre ++ components_of filler p start ++ comp' :: post ∧
    uval (cd_offset comp') = start + aligned p.
Proof.
  intros Heq start. pose proof (disk_size_bounds ps Hps) as (_ & Hds & _).
  assert (Forall partition_ok ps) as Hok by (by destruct Hps).
  rewrite Heq in Hok. apply Forall_app in Hok as [Hok1 [Hp Hok2]%Forall_cons].
  pose proof (total_size_nonneg _ Hok1). pose proof (total_size_nonneg _ Hok2).
  pose proof (proj1 Hp) as Hsz. pose proof (aligned_bounds p Hsz) as [Ha _].
  assert (backup_offset ps = start + aligned p + total_size ps2) as Hbo.
  { unfold backup_offset, start. rewrite Heq, total_size_app. cbn [total_size]. lia. }
  change GPT_END_SIZE with 16896 in Hds.
  assert (0 <= start) by (unfold start; change GPT_BEGINNING_SIZE with 20480; lia).
  destruct (plan_incr filler ps2 (start + aligned p) Hok2 ltac:(lia) ltac:(lia)) as [_ [rest Hrest]].
  set (tail := plan_components filler (start + aligned p) ps2
                 ++ [{| cd_file_path := footer; cd_offset := U64 (backup_offset ps);
                        cd_read_write_capability := READ_ONLY |}]).
  assert (offsets tail = start + aligned p :: rest) as Htail.
  { rewrite <- Hrest. unfold offsets, tail. rewrite map_app. cbn [map cd_offset].
    rewrite uval_to_uint_small by (cbn [Z.of_N]; lia). by rewrite Hbo. }
  destruct tail as [|comp' post] eqn:Et; [done|]. injection Htail as Hc' _.
  eexists (_ :: plan_components filler GPT_BEGINNING_SIZE ps1), comp', post. split; [|done].
  cbn [cp_component_disks proto_of app]. f_equal. rewrite <- Et. unfold tail.
  rewrite Heq at 1. rewrite plan_components_app. cbn [plan_components]. by rewrite <- !app_assoc.
Qed.

Section opened_parts.
Context {n : nat} (parts : list (ComponentDiskPart (disk (S n)))).
Hypothesis Hparts :
  Forall2 (opened (K := K) σ dir) (cp_component_disks (proto_of filler header footer ps)) parts.
Let c := mkComposite (lay_out (U64 (disk_size_of ps)) parts).

Lemma shown_partition ps1 p ps2 :
  ps = ps1 ++ p :: ps2 →
  shows σ c (GPT_BEGINNING_SIZE + total_size ps1)
    (takeZ (pi_size p) (data_of p) ++ zeros (aligned p - pi_size p)).
Proof.
  intros Heq. pose proof (all_incr filler header footer ps Hps) as Hincr.
  destruct (components_around _ _ _ Heq) as (pre & comp' & post & Hcomps & Hoff').
  set (start := GPT_BEGINNING_SIZE + total_size ps1) in *.
  pose proof (disk_size_bounds ps Hps) as (_ & Hds & _). change GPT_END_SIZE with 16896 in Hds.
  assert (Forall partition_ok ps) as Hok by (by destruct Hps).
  rewrite Heq in Hok. apply Forall_app in Hok as [Hok1 [Hp Hok2]%Forall_cons].
  pose proof (total_size_nonneg _ Hok1). pose proof (total_size_nonneg _ Hok2).
  pose proof (proj1 Hp) as Hsz. pose proof (aligned_bounds p Hsz) as [Ha _].
  assert (backup_offset ps = start + aligned p + total_size ps2) as Hbo.
  { unfold backup_offset, start. rewrite Heq, total_size_app. cbn [total_size]. lia. }
  assert (0 <= start) by (unfold start; change GPT_BEGINNING_SIZE with 20480; lia).
  destruct (scene_partitions _ _ _ _ _ _ _ _ _ _ Hscene p) as (Hlen & Hres & Hold).
  { rewrite Heq. apply elem_of_app. right. apply list_elem_of_here. }
  apply created_old in Hres; [|done].
  assert (uval (U64 start) = start) as Es by (apply uval_to_uint_small; cbn [Z.of_N]; lia).
  assert (lengthZ (takeZ (pi_size p) (data_of p)) = pi_size p) as Hl by (rewrite lengthZ_takeZ; lia).
  assert (takeZ (pi_size p) (data_of p) `prefix_of` data_of p) as Hpre
    by (exists (dropZ (pi_size p) (data_of p)); by rewrite takeZ_dropZ).
  apply shows_app. rewrite Hl. rewrite Hcomps in Hparts, Hincr.
  unfold components_of in Hparts, Hincr.
  destruct (Z.eqb_spec (pi_size p) (aligned p)) as [Hal|Hnal]; cbn [app] in Hparts, Hincr; split.
  - eapply shows_part; [|exact Hparts|exact Hincr|exact Hres|done|]; [done|].
    cbn [cd_offset]. rewrite Es, Hoff'. lia.
  - rewrite <- Hal, Z.sub_diag. apply shows_nil.
  - eapply shows_part; [|exact Hparts|exact Hincr|exact Hres|done|]; [done|].
    cbn [cd_offset]. rewrite Es, uval_to_uint_small; cbn [Z.of_N]; lia.
  - assert (uval (U64 (start + pi_size p)) = start + pi_size p) as Ef
      by (apply uval_to_uint_small; cbn [Z.of_N]; lia).
    rewrite cons_middle, app_assoc in Hparts, Hincr.
    eapply shows_part; [|exact Hparts|exact Hincr| | |]; [done| | |].
    + apply created_old; [apply (scene_filler _ _ _ _ _ _ _ _ _ _ Hscene)|
        apply (scene_filler_old _ _ _ _ _ _ _ _ _ _ Hscene)].
    + exists (zeros (4096 - (aligned p - pi_size p))). unfold zeros. rewrite <- replicate_add. f_equal. lia.
    + cbn [cd_offset]. rewrite Ef, Hoff', lengthZ_zeros; lia.
Qed.

Lemma shown_beginning :
  shows σ c 0 (beginning_bytes crc32 (new_v4 (length ps)) (table new_v4 ps) (backup_offset ps)
                 (disk_size_of ps)).
Proof.
  pose proof (all_incr filler header footer ps Hps) as Hincr.
  pose proof (disk_size_bounds ps Hps) as (_ & Hds & _). change GPT_END_SIZE with 16896 in Hds.
  pose proof Hps as (Hok & _ & Hlen & _). pose proof (total_size_nonneg _ Hok).
  unfold backup_offset in Hds.
  destruct (plan_incr filler ps GPT_BEGINNING_SIZE Hok ltac:(done) ltac:(lia)) as [_ [rest Hrest]].
  cbn [cp_component_disks proto_of] in Hparts, Hincr.
  set (tail := plan_components filler GPT_BEGINNING_SIZE ps
                 ++ [{| cd_file_path := footer; cd_offset := U64 (backup_offset ps);
                        cd_read_write_capability := READ_ONLY |}]) in *.
  assert (offsets tail = GPT_BEGINNING_SIZE :: rest) as Htail.
  { rewrite <- Hrest. unfold offsets, tail. rewrite map_app. cbn [map cd_offset]. unfold backup_offset.
    change GPT_BEGINNING_SIZE with 20480 in *. by rewrite uval_to_uint_small by (cbn [Z.of_N]; lia). }
  destruct tail as [|comp' post]; [done|]. injection Htail as Hc' _.
  eapply (shows_part _ _ _ _ _ []); [|exact Hparts|exact Hincr|apply created_header|done|]; [done|].
  rewrite Hc', lengthZ_beginning; [done|done|by apply lengthZ_table].
Qed.

(** The entry of a partition in the table at sector 2. *)
Lemma shown_entry ps1 p ps2 :
  ps = ps1 ++ p :: ps2 →
  shows σ c (2 * SECTOR_SIZE + GPT_PARTITION_ENTRY_SIZE * lengthZ ps1)
    (entry_bytes (entry_of (new_v4 (length ps1)) p (GPT_BEGINNING_SIZE + total_size ps1))).
Proof.
  intros Heq. pose proof shown_beginning as Hb. unfold beginning_bytes in Hb.
  rewrite !app_assoc in Hb. apply shows_app in Hb as [Hb _]. rewrite <- !app_assoc in Hb.
  rewrite (app_assoc (header_bytes _)), (app_assoc (mbr_bytes _)) in Hb. apply shows_app in Hb as [_ Hb].
  rewrite !lengthZ_app, lengthZ_mbr, lengthZ_full_header, lengthZ_zeros in Hb by done.
  unfold table in Hb. apply shows_app in Hb as [Hb _].
  rewrite Heq, plan_entries_app in Hb. unfold entries_bytes in Hb. rewrite map_app, concat_app in Hb.
  apply shows_app in Hb as [_ Hb]. cbn [plan_entries map concat] in Hb. apply shows_app in Hb as [Hb _].
  fold (entries_bytes (plan_entries new_v4 0 GPT_BEGINNING_SIZE ps1)) in Hb.
  rewrite lengthZ_entries in Hb by done. exact Hb.
Qed.
End opened_parts.
End in_scene.

(** C13. [create_composite_disk] on partitions it accepts writes its three files and
    nothing else, and [CompositeDiskFile::from_file] opens what it wrote: the disk has
    the primary partition table in its first sectors, the entry of every partition
    has its label and type and names the sectors from the partition's start to its
    end, rounded up to 4 KiB, and in these sectors the disk shows the partition's file
    followed by zeros.  The partitions ([partitions_ok]) are at most 128, with
    labels that differ in the 36 units that the table holds, not empty, of a size that is
    a multiple of 4 KiB if they are writable, and of less than 2 TiB - 64 KiB in all with
    the tables; paths are UTF-8 and not below [/proc/self/fd]; the files ([scene]) are
    three distinct empty ones to write, a zero filler of 4 KiB, and for every partition a file that is
    no disk image itself and at least as long as the partition.  Neither call aborts or rejects its
    input: where one ends with an error, a call of the host has failed. *)
Theorem created_disk_shows_partitions n is_sparse_file image_path dir
    ps data_of zero_filler header_path footer_path filler header footer fh ff fo k :
  from_utf8 zero_filler = Some filler → from_utf8 header_path = Some header →
  from_utf8 footer_path = Some footer → parent image_path = Some dir →
  partitions_ok ps → scene k ps data_of filler header footer fh ff fo dir →
  match create_composite_disk new_v4 crc32 ps zero_filler header_path fh footer_path ff fo k with
  | (Returns _, k1) =>
      contents k1 = created (contents k) ps filler header footer fh ff fo ∧
      match Composite_from_file (create_disk_file (S n)) fo is_sparse_file image_path k1 with
      | (Returns c, k2) =>
          ∀ ps1 p ps2, ps = ps1 ++ p :: ps2 →
          ∃ e, partition_name e = name_of p ∧ partition_type_guid e = guid (pi_partition_type p) ∧
            shows (contents k2) c (2 * SECTOR_SIZE + GPT_PARTITION_ENTRY_SIZE * lengthZ ps1)
              (entry_bytes e) ∧
            shows (contents k2) c (first_lba e * SECTOR_SIZE)
              (takeZ (pi_size p) (data_of p) ++ zeros (aligned p - pi_size p)) ∧
            (last_lba e + 1) * SECTOR_SIZE = first_lba e * SECTOR_SIZE + aligned p
      | (Throws e, k2) => open_error e ∧ (faults k1 < faults k2)%nat
      | (Aborts, _) => False
      end
  | (Throws e, k1) => write_error e ∧ (faults k < faults k1)%nat
  | (Aborts, _) => False
  end.
Proof.
  intros Hz Hh Hf Hdir Hps Hscene. pose proof Hscene as [Hnd Hempty _ _ _ _ _].
  pose proof (create_spec new_v4 crc32 new_v4_ok ps zero_filler header_path footer_path filler header
    footer fh ff fo k Hz Hh Hf Hps Hnd) as Hcreate. unfold wp in Hcreate.
  destruct (create_composite_disk _ _ _ _ _ _ _ _ _ k) as [[[]|e|] k1];
    [|apply Hcreate; apply Hempty; set_solver|apply Hcreate; apply Hempty; set_solver].
  assert (contents k1 = created (contents k) ps filler header footer fh ff fo) as Hc1
    by (apply Hcreate; apply Hempty; set_solver). split; [done|].
  pose proof (composite_from_file_plain n (proto_of filler header footer ps) is_sparse_file image_path dir
    _ (faults k1) fo k1 (conj Hc1 eq_refl)) as Hopen. unfold wp in Hopen.
  destruct (Composite_from_file _ fo is_sparse_file image_path k1) as [[c|e|] k2];
    [|apply Hopen; [by apply lookup_insert_eq|done|done|by eapply created_resolves|
        intros parts; by apply assemble_created]..].
  destruct Hopen as ([Hc2 _] & parts & Hparts & ->); [by apply lookup_insert_eq|done|done
    |by eapply created_resolves|intros parts; by apply assemble_created|].
  rewrite Hc2. intros ps1 p ps2 Heq. pose proof Hps as (Hok & _ & _ & Hmax).
  rewrite Heq in Hok. apply Forall_app in Hok as [Hok1 [Hp Hok2]%Forall_cons].
  pose proof (total_size_nonneg _ Hok1). pose proof (total_size_nonneg _ Hok2).
  pose proof (total_size_mod _ Hok1) as Hmod.
  rewrite Heq, total_size_app in Hmax. cbn [total_size] in Hmax. unfold MAX_DISK in Hmax.
  change GPT_END_SIZE with 16896 in Hmax.
  destruct (entry_sectors (new_v4 (length ps1)) p (GPT_BEGINNING_SIZE + total_size ps1)) as [Hfirst Hlast];
    [apply Hp|change GPT_BEGINNING_SIZE with 20480; lia| |lia|].
  { change GPT_BEGINNING_SIZE with (5 * 4096). by rewrite Z.add_comm, Z.mod_add by lia. }
  exists (entry_of (new_v4 (length ps1)) p (GPT_BEGINNING_SIZE + total_size ps1)).
  split; [done|]. split; [done|].
  split; [by eapply shown_entry|]. rewrite Hfirst. split; [by eapply shown_partition|done].
Qed.
End shown.
