(* ===== verification/ToyHost.v ===== *)
(** * A host for the examples of disks

    Files in memory with the system calls of [HostFiles]: a call moves at most
    [th_limit] bytes, and the next [th_signals] calls are interrupted.  A small
    self-delimiting code stands for protocol buffers.  The host keeps the laws that
    the theorems about disks assume. *)

From S2P Require Import Prelude StdIo Checked DiskFile DiskFacts Gpt GptFacts.
From S2P Require Import SparseImage CompositeDisk CompositeCreate CreateFacts.

Record thost := mkHost { th_files : store; th_signals : nat; th_limit : u64; th_faults : nat }.

(** A call that fails. *)
Definition th_fail {E A} (e : E) : prog thost E A := λ k,
  (Throws e, mkHost (th_files k) (th_signals k) (th_limit k) (S (th_faults k))).

Definition small (x : Z * list u8) : Prop := lengthZ x.2 < 2 ^ 63.
#[global] Instance small_dec x : Decision (small x) := _.

Definition th_contents (k : thost) : store := filter small (th_files k).

(** A call that a signal can interrupt. *)
Definition interruptible {A} (m : prog thost io_error A) : prog thost io_error A := λ k,
  match th_signals k with
  | S n => (Throws (OsError 4), mkHost (th_files k) n (th_limit k) (th_faults k))
  | O => m k
  end.

Definition th_moved (k : thost) (n : Z) : Z := Z.min n (Z.max 1 (th_limit k)).

Definition th_pread (f : File) (n : u64) (off : Z) : prog thost io_error (list u8) :=
  interruptible (λ k,
    if off <? 0 then th_fail (OsError 22) k else
    match th_contents k !! f_inode f with
    | None => th_fail (OsError 9) k
    | Some data => (Returns (takeZ (th_moved k n) (dropZ off data)), k)
    end).

Definition th_pwrite (f : File) (bs : list u8) (off : Z) : prog thost io_error u64 :=
  interruptible (λ k,
    if (off <? 0) || negb (f_writable f) then th_fail (OsError 22) k else
    match th_contents k !! f_inode f with
    | None => th_fail (OsError 9) k
    | Some data =>
        let m := th_moved k (lengthZ bs) in
        let data' := overwrite data off (takeZ m bs) in
        if (lengthZ data' <? 2 ^ 63) && (m <? 2 ^ 64)
        then (Returns (U64 m), mkHost (<[f_inode f := data']> (th_files k)) 0 (th_limit k) (th_faults k))
        else th_fail (OsError 27) k
    end).

Definition th_lseek (f : File) (pos : Z) : prog thost io_error () := λ k,
  if (0 <=? pos) && (pos <? 2 ^ 63) then (Returns (), k) else th_fail (OsError 22) k.

Definition th_lseek_end (f : File) : prog thost io_error u64 := λ k,
  match th_contents k !! f_inode f with
  | None => th_fail (OsError 9) k
  | Some data => (Returns (U64 (lengthZ data)), k)
  end.

#[global] Instance thost_HostFiles : HostFiles thost := {|
  contents := th_contents;
  signals := th_signals;
  faults := th_faults;
  pread := th_pread;
  pwrite := th_pwrite;
  lseek := th_lseek;
  lseek_end := th_lseek_end;
  ftruncate _ _ := th_fail (OsError 22)
|}.

Lemma th_contents_small k i data : th_contents k !! i = Some data → lengthZ data < 2 ^ 63.
Proof. unfold th_contents. intros [_ Hs]%map_lookup_filter_Some. done. Qed.

Lemma th_fail_fails e k : error_kind e ≠ Interrupted → fails e k (@th_fail io_error () e k).2.
Proof. intros He. split; [done|]. left. cbn. lia. Qed.

#[global] Instance thost_HostLaws : HostLaws thost.
Proof.
  split.
  - intros f n off k r k'. change (pread f n off k) with (th_pread f n off k). unfold th_pread, interruptible. pose proof (uint_range n).
    destruct (th_signals k) as [|m] eqn:Es; [|intros [= <- <-]; cbn; rewrite ?Es; split_and!; [done|lia|]; split; cbn; [lia|done]].
    destruct (Z.ltb_spec off 0); [intros [= <- <-]; split_and!; [done..|by apply th_fail_fails]|].
    destruct (th_contents k !! f_inode f) as [data|] eqn:Ed; [|intros [= <- <-]; split_and!; [done..|by apply th_fail_fails]].
    intros [= <- <-]. unfold th_moved. split_and!; [done|lia|lia| |done|].
    + rewrite lengthZ_takeZ; lia.
    + exists data. cbn. split_and!; [done|by exists (dropZ (Z.min n (Z.max 1 (th_limit k))) (dropZ off data)); rewrite takeZ_dropZ|].
      intros Hn Hlt Hnil. apply (f_equal lengthZ) in Hnil.
      rewrite lengthZ_takeZ, lengthZ_dropZ in Hnil by lia. change (lengthZ []) with 0 in Hnil. lia.
  - intros f bs off k r k'. change (pwrite f bs off k) with (th_pwrite f bs off k). unfold th_pwrite, interruptible.
    destruct (th_signals k) as [|m] eqn:Es; [|intros [= <- <-]; cbn; rewrite ?Es; split_and!; [lia|done|]; split; cbn; [lia|done]].
    destruct (Z.ltb_spec off 0); [intros [= <- <-]; split_and!; [done..|by apply th_fail_fails]|]. destruct (f_writable f) eqn:Ew; [|intros [= <- <-]; split_and!; [done..|by apply th_fail_fails]].
    cbn [orb negb]. destruct (th_contents k !! f_inode f) as [data|] eqn:Ed; [|intros [= <- <-]; split_and!; [done..|by apply th_fail_fails]].
    destruct (_ && _) eqn:Eb; [|intros [= <- <-]; split_and!; [done..|by apply th_fail_fails]]. intros [= <- <-]. cbn. rewrite ?Es. split; [done|].
    pose proof (lengthZ_nonneg bs). apply andb_true_iff in Eb as [El%Z.ltb_lt Em%Z.ltb_lt].
    assert (uval (U64 (th_moved k (lengthZ bs))) = th_moved k (lengthZ bs)) as Hm.
    { apply uval_to_uint_small. unfold th_moved in *. cbn [Z.of_N]. lia. }
    rewrite Hm. split_and!; [done|unfold th_moved; lia|done|done| |].
    { unfold th_moved. intros Hz Hne. destruct bs; [done|]. rewrite lengthZ_cons in *.
      pose proof (lengthZ_nonneg bs). lia. }
    exists data. split; [done|].
    unfold th_contents. cbn. by rewrite map_filter_insert_True.
  - intros f pos k r k'. cbn. unfold th_lseek. destruct (_ && _) eqn:Eb; intros [= <- <-]; [|split_and!; [done..|cbn; lia]].
    apply andb_true_iff in Eb as [Ea%Z.leb_le Eb%Z.ltb_lt]. done.
  - intros k i data. apply th_contents_small.
  - intros f k r k'. cbn. unfold th_lseek_end.
    destruct (th_contents k !! f_inode f) as [data|] eqn:Ed; intros [= <- <-]; [|split_and!; [done..|cbn; lia]].
    split_and!; [done|done|done|]. exists data. split; [done|]. pose proof (th_contents_small _ _ _ Ed).
    pose proof (lengthZ_nonneg data). apply uval_to_uint_small. cbn [Z.of_N]. lia.
Qed.

(** ** A code for specifications

    Every element of a sequence is announced by a byte 1, its end by a byte 0. *)

Fixpoint code_bytes (bs : list u8) : list u8 :=
  match bs with [] => [U8 0] | b :: bs => U8 1 :: b :: code_bytes bs end.
Fixpoint decode_bytes (s : list u8) : option (list u8 * list u8) :=
  match s with
  | [] => None
  | t :: s =>
      if uval t =? 0 then Some ([], s) else
      match s with
      | b :: s => '(bs, rest) ← decode_bytes s; Some (b :: bs, rest)
      | [] => None
      end
  end.

Definition code_u64 (x : u64) : list u8 := le_split 8 x.
Definition decode_u64 (s : list u8) : option (u64 * list u8) :=
  if 8 <=? lengthZ s then Some (U64 (le_combine (takeZ 8 s)), dropZ 8 s) else None.

Definition code_disk (c : ComponentDisk) : list u8 :=
  code_bytes (sbytes (cd_file_path c)) ++ code_u64 (cd_offset c)
    ++ code_u64 (U64 (cd_read_write_capability c)).
Definition decode_disk (s : list u8) : option (ComponentDisk * list u8) :=
  '(path, s) ← decode_bytes s;
  path ← from_utf8 path;
  '(off, s) ← decode_u64 s;
  '(cap, s) ← decode_u64 s;
  Some ({| cd_file_path := path; cd_offset := off; cd_read_write_capability := U32 (uval cap) |}, s).

Fixpoint code_disks (cs : list ComponentDisk) : list u8 :=
  match cs with [] => [U8 0] | c :: cs => U8 1 :: code_disk c ++ code_disks cs end.
Fixpoint decode_disks (fuel : nat) (s : list u8) : option (list ComponentDisk) :=
  match fuel, s with
  | S fuel, t :: s =>
      if uval t =? 0 then Some [] else
      '(c, s) ← decode_disk s;
      cs ← decode_disks fuel s;
      Some (c :: cs)
  | _, _ => None
  end.

Definition code_proto (p : CompositeProto) : list u8 :=
  code_u64 (cp_version p) ++ code_u64 (cp_length p) ++ code_disks (cp_component_disks p).
Definition decode_proto (s : list u8) : option CompositeProto :=
  '(version, s) ← decode_u64 s;
  '(len, s) ← decode_u64 s;
  cs ← decode_disks (length s) s;
  Some {| cp_version := version; cp_component_disks := cs; cp_length := len |}.

Lemma decode_code_bytes bs rest : decode_bytes (code_bytes bs ++ rest) = Some (bs, rest).
Proof. induction bs as [|b bs IH]; [done|]. cbn. by rewrite IH. Qed.

Lemma decode_code_u64 x rest : decode_u64 (code_u64 x ++ rest) = Some (x, rest).
Proof.
  unfold decode_u64, code_u64. rewrite lengthZ_app, lengthZ_le_split. pose proof (lengthZ_nonneg rest).
  rewrite (proj2 (Z.leb_le _ _)) by lia.
  rewrite takeZ_app_eq, dropZ_app_eq by (by rewrite lengthZ_le_split).
  rewrite le_combine_split. pose proof (uint_range x) as Hx. cbn [Z.of_N] in Hx.
  change (256 ^ Z.of_nat 8) with (2 ^ 64). rewrite Z.mod_small by done. by rewrite to_uint_uval.
Qed.

Lemma decode_code_disk c rest : decode_disk (code_disk c ++ rest) = Some (c, rest).
Proof.
  unfold decode_disk, code_disk. rewrite <- !app_assoc, decode_code_bytes. cbn [mbind option_bind].
  rewrite from_utf8_sbytes. cbn [mbind option_bind]. rewrite decode_code_u64. cbn [mbind option_bind].
  rewrite decode_code_u64. cbn [mbind option_bind]. destruct c as [path off cap]. cbn. do 3 f_equal.
  pose proof (uint_range cap) as Hc. cbn [Z.of_N] in Hc. rewrite uval_to_uint_small by (cbn [Z.of_N]; lia).
  apply to_uint_uval.
Qed.

Lemma decode_code_disks cs : ∀ fuel, (length (code_disks cs) ≤ fuel)%nat → decode_disks fuel (code_disks cs) = Some cs.
Proof.
  induction cs as [|c cs IH]; intros [|fuel] Hf; [cbn in Hf; lia|done|cbn in Hf; lia|].
  cbn [code_disks decode_disks]. change (uval (U8 1) =? 0) with false. cbv iota.
  rewrite decode_code_disk. cbn [mbind option_bind]. rewrite IH; [done|].
  cbn in Hf. rewrite length_app in Hf. lia.
Qed.

Lemma decode_code_proto p : decode_proto (code_proto p) = Some p.
Proof.
  unfold decode_proto, code_proto. rewrite decode_code_u64. cbn [mbind option_bind].
  rewrite decode_code_u64. cbn [mbind option_bind]. rewrite decode_code_disks by done. by destruct p.
Qed.

(** ** Names *)

Definition th_name (s : string) : path := path_from (bytes_of_string s).

Definition th_names : list (path * Z) :=
  [(th_name "/disks/header.img", 1); (th_name "/disks/footer.img", 2); (th_name "/disks/all.img", 3);
   (th_name "/disks/zero.img", 4); (th_name "/disks/boot.img", 5); (th_name "/disks/root.img", 6);
   (th_name "/disks/sparse.img", 7); (th_name "/disks/outer.img", 8)].

Definition th_inode (p : path) : option Z :=
  match List.find (λ x, bool_decide (x.1 = p)) th_names with Some x => Some x.2 | None => None end.

Definition th_open (p : path) (writable : bool) : prog thost io_error File := λ k,
  match th_inode p with
  | Some ino => (Returns (mkFile ino writable), k)
  | None => th_fail (OsError 2) k
  end.

Definition th_parse (f : File) : prog (thost * u64) () CompositeProto := λ s,
  match th_contents s.1 !! f_inode f ≫= λ data, decode_proto (dropZ s.2 data) with
  | Some p => (Returns p, s)
  | None => let '(r, k) := th_fail () s.1 in (r, (k, s.2))
  end.

#[global] Instance thost_HostOpen : HostOpen thost := {|
  path_inode := th_inode;
  open_path := th_open;
  dup_fd _ := th_fail (OsError 9);
  fs_type _ := mret 0xEF53;
  parse_from_reader := th_parse
|}.

#[global] Instance thost_HostOpenLaws : HostOpenLaws thost.
Proof.
  split.
  - intros p w k r k'. cbn. unfold th_open.
    destruct (th_inode p); intros [= <- <-]; split_and!; try done. cbn. lia.
  - intros fd k r k' [= <- <-]. split_and!; [done..|]. cbn. lia.
  - by intros f k r k' [= <- <-].
  - intros f s r s'. cbn. unfold th_parse. destruct (_ ≫= _); by intros [= <- <-].
Qed.

#[global] Instance thost_ProtoWriter : ProtoWriter thost := {|
  proto_bytes := code_proto;
  write_to_writer p f := map_err (λ _, ()) (file_write_all f (code_proto p))
|}.

#[global] Instance thost_ProtoLaws : ProtoLaws thost.
Proof.
  split.
  - intros p f. by eapply emits_map_err, (@write_to_emits _ _ _ (file_SinkLaws f)).
  - intros p f k pos data Hd Hdrop. change (contents k) with (th_contents k) in Hd.
    change (proto_bytes p) with (code_proto p) in Hdrop.
    change (parse_from_reader f (k, pos)) with (th_parse f (k, pos)). unfold th_parse. cbn [fst snd].
    rewrite Hd. cbn [mbind option_bind]. by rewrite Hdrop, decode_code_proto.
Qed.
