(* ===== verification/DiskExamples.v ===== *)
(** * Examples of disks

    The theorems about disks on concrete images, and the places where the code
    does less than its documentation or its format promises. *)

From S2P Require Import Prelude StdIo Checked DiskFile DiskFacts SparseImage SparseFacts SparseFormat.
From S2P Require Import Gpt GptFacts CompositeDisk CompositeFacts CompositeOpen CompositeCreate.
From S2P Require Import CreateFacts CreateReopen ToyHost.

Definition b (l : list Z) : list u8 := map U8 l.

(** ** A sparse image *)

Definition sparse_chunks : list source_chunk :=
  [{| sc_blocks := 1; sc_body := SRaw (b [1; 2; 3; 4]) |};
   {| sc_blocks := 2; sc_body := SFill (b [9; 8; 7; 6]) |};
   {| sc_blocks := 1; sc_body := SHole |};
   {| sc_blocks := 1; sc_body := SRaw (b [11; 12; 13; 14]) |}].

Definition sparse_file : File := mkFile 7 false.

(** Calls move three bytes at most, and two of them are interrupted. *)
Definition sparse_host : thost := mkHost {[ 7 := encode_image 4 0 sparse_chunks ]} 2 (U64 3) 0.

Example sparse_example :
  match from_file sparse_file (sparse_host, U64 0) with
  | (Returns d, (k, _)) =>
      (read_exact_at_volatile 40 (U64 16) (U64 2) (k, d)).1 =
      Returns (Some (b [3; 4; 9; 8; 7; 6; 9; 8; 7; 6; 0; 0; 0; 0; 11; 12]))
  | _ => False
  end.
Proof. vm_compute. reflexivity. Qed.

Lemma sparse_chunks_ok : image_ok 4 sparse_chunks.
Proof.
  unfold image_ok. split_and!; [lia|lia| |by vm_compute|by vm_compute].
  repeat (constructor; [split; cbn; try split; done|]). constructor.
Qed.

Lemma sparse_image_reads_witness :
  contents sparse_host !! f_inode sparse_file = Some (encode_image 4 0 sparse_chunks) ∧
  image_ok 4 sparse_chunks ∧
  match from_file sparse_file (sparse_host, U64 0) with
  | (Returns d, (k1, _)) =>
      uval (as_total_size d) = lengthZ (expand 4 sparse_chunks) ∧
      ∀ (fuel : nat) (n off : u64),
        off + n <= lengthZ (expand 4 sparse_chunks) → (Z.to_nat n + signals k1 ≤ fuel)%nat →
        match read_exact_at_volatile fuel n off (k1, d) with
        | (Returns (Some bs), _) => bs = takeZ n (dropZ off (expand 4 sparse_chunks))
        | (Throws e, (k2, _)) => (faults k1 < faults k2)%nat
        | _ => False
        end
  | (Throws e, (k1, _)) =>
      (∃ io, e = Sparse.ReadSpecificationError io) ∧ (faults sparse_host < faults k1)%nat
  | (Aborts, _) => False
  end.
Proof.
  assert (contents sparse_host !! f_inode sparse_file = Some (encode_image 4 0 sparse_chunks)) as Hd
    by (vm_compute; reflexivity).
  split; [exact Hd|]. split; [exact sparse_chunks_ok|].
  exact (sparse_image_reads sparse_file 4 0 sparse_chunks sparse_host (U64 0) Hd sparse_chunks_ok).
Defined.

(** ** A disk of disks *)

(** Two writable files of eight and twelve bytes and the sparse image. *)
Definition outer_proto : CompositeProto := {|
  cp_version := U64 2;
  cp_component_disks :=
    [{| cd_file_path := str_lit "root.img"; cd_offset := U64 8; cd_read_write_capability := READ_WRITE |};
     {| cd_file_path := str_lit "boot.img"; cd_offset := U64 0; cd_read_write_capability := READ_WRITE |};
     {| cd_file_path := str_lit "sparse.img"; cd_offset := U64 20; cd_read_write_capability := READ_ONLY |}];
  cp_length := U64 40
|}.

Definition outer_host : thost :=
  mkHost (list_to_map [(5, b [1; 2; 3; 4; 5; 6; 7; 8]); (6, b [21; 22; 23; 24; 25; 26; 27; 28; 29; 30; 31; 32]);
                       (7, encode_image 4 0 sparse_chunks); (8, CDISK_MAGIC ++ code_proto outer_proto)])
    0 (U64 5) 0.
Definition outer_file : File := mkFile 8 false.

Definition sparse_disk : AndroidSparse := {|
  as_file := sparse_file;
  as_total_size := U64 20;
  as_chunks :=
    [(U64 0, {| chunk := Raw (U64 40); expanded_size := U64 4 |});
     (U64 4, {| chunk := Fill (b [9; 8; 7; 6]); expanded_size := U64 8 |});
     (U64 12, {| chunk := DontCare; expanded_size := U64 4 |});
     (U64 16, {| chunk := Raw (U64 84); expanded_size := U64 4 |})]
|}.

Definition outer_disk : disk 2 :=
  CompositeDisk (mkComposite
    [mkPart (RawDisk (mkFile 5 true) : disk 1) (U64 0) (U64 8) false;
     mkPart (RawDisk (mkFile 6 true) : disk 1) (U64 8) (U64 12) false;
     mkPart (SparseDisk sparse_disk : disk 1) (U64 20) (U64 20) false]).

Lemma outer_opens :
  create_disk_file 2 outer_file false (th_name "/disks/outer.img") outer_host =
  (Returns outer_disk, outer_host).
Proof. vm_compute. reflexivity. Qed.

Lemma outer_separated : separated 2 outer_disk.
Proof.
  split; [|by repeat constructor].
  intros i j p q Hij Hp Hq.
  destruct i as [|[|[|i]]]; cbn in Hp; try done; injection Hp as <-;
    destruct j as [|[|[|j]]]; cbn in Hq; try done; injection Hq as <-; cbn; set_solver.
Qed.

Lemma opened_disk_is_array_witness :
  create_disk_file 2 outer_file false (th_name "/disks/outer.img") outer_host =
    (Returns outer_disk, outer_host) ∧
  separated 2 outer_disk ∧
  match write_all_at_volatile 4 (b [90; 91; 92; 93]) (U64 6) (outer_host, outer_disk) with
  | (Returns (Some _), (k1, d1)) =>
      ∀ (fuel1 : nat) (m o : u64),
        o + m < 2 ^ 64 → readable (contents outer_host) outer_disk o m →
        (Z.to_nat m + signals k1 ≤ fuel1)%nat →
        match read_exact_at_volatile fuel1 m o (k1, d1) with
        | (Returns (Some bs'), _) => lengthZ bs' = m ∧
            reads_back (contents outer_host) outer_disk (U64 6) (b [90; 91; 92; 93]) o bs'
        | (Throws e, (k2, _)) => (faults k1 < faults k2)%nat
        | _ => False
        end
  | (Throws e, (k1, _)) =>
      rw_range outer_disk (U64 6) (lengthZ (b [90; 91; 92; 93])) → (faults outer_host < faults k1)%nat
  | _ => False
  end.
Proof.
  split; [exact outer_opens|]. split; [exact outer_separated|].
  apply (opened_disk_is_array 2 outer_file false (th_name "/disks/outer.img") outer_host outer_host
           outer_disk outer_opens outer_separated); [by vm_compute| |by vm_compute; lia].
  intros j Hj. change (uval (U64 6)) with 6 in Hj. change (lengthZ (b [90; 91; 92; 93])) with 4 in Hj.
  assert (j = 6 ∨ j = 7 ∨ j = 8 ∨ j = 9) as [->|[->|[->| ->]]] by lia; vm_compute; eauto.
Defined.

(** The write crosses from one file to the other, the read goes on into the
    sparse image. *)
Example outer_example :
  match write_all_at_volatile 4 (b [90; 91; 92; 93]) (U64 6) (outer_host, outer_disk) with
  | (Returns (Some _), (k1, d1)) =>
      (read_exact_at_volatile 40 (U64 24) (U64 4) (k1, d1)).1 =
      Returns (Some (b [5; 6; 90; 91; 92; 93; 23; 24; 25; 26; 27; 28; 29; 30; 31; 32;
                        1; 2; 3; 4; 9; 8; 7; 6]))
  | _ => False
  end.
Proof. vm_compute. reflexivity. Qed.

(** ** A created disk *)

Definition boot_partition : PartitionInfo := {|
  pi_label := str_lit "boot"; pi_path := bytes_of_string "boot.img";
  pi_partition_type := EfiSystemPartition; pi_writable := false; pi_size := U64 5
|}.
Definition root_partition : PartitionInfo := {|
  pi_label := str_lit "root"; pi_path := bytes_of_string "root.img";
  pi_partition_type := LinuxFilesystem; pi_writable := true; pi_size := U64 4096
|}.
Definition two_partitions : list PartitionInfo := [boot_partition; root_partition].

Definition boot_data : list u8 := b [1; 2; 3; 4; 5; 6].
Definition root_data : list u8 := replicate 4096 (U8 77).
Definition data_of_partition (p : PartitionInfo) : list u8 :=
  if pi_writable p then root_data else boot_data.

Definition create_host : thost :=
  mkHost (list_to_map [(1, []); (2, []); (3, []); (4, zeros 4096); (5, boot_data); (6, root_data)])
    1 (U64 1000000) 0.

Definition header_file : File := mkFile 1 true.
Definition footer_file : File := mkFile 2 true.
Definition all_file : File := mkFile 3 true.
Definition disks_dir : path := th_name "/disks".

Definition toy_uuid (i : nat) : Uuid := Uuid_from_u128 (Z.of_nat i).
Definition toy_crc (bs : list u8) : u32 := U32 (le_combine (takeZ 8 bs)).

Lemma toy_uuid_ok i : uuid_ok (toy_uuid i).
Proof. unfold uuid_ok, toy_uuid, Uuid_from_u128. cbn [uuid_3]. by rewrite length_rev, length_le_split. Qed.

Lemma two_partitions_ok : partitions_ok two_partitions.
Proof.
  unfold partitions_ok. split_and!.
  - repeat (constructor; [split_and!; [by vm_compute|vm_compute; eauto|by vm_compute]|]). constructor.
  - apply (bool_decide_unpack (NoDup (name_of <$> two_partitions))). by vm_compute.
  - by vm_compute.
  - by vm_compute.
Qed.

Lemma created_scene :
  scene create_host two_partitions data_of_partition (str_lit "zero.img") (str_lit "header.img")
    (str_lit "footer.img") header_file footer_file all_file disks_dir.
Proof.
  assert (∀ f, f ∈ [header_file; footer_file; all_file] → f_inode f = 1 ∨ f_inode f = 2 ∨ f_inode f = 3) as Hnew.
  { intros f Hf. apply elem_of_cons in Hf as [->|Hf]; [by left|].
    apply elem_of_cons in Hf as [->|Hf]; [by right; left|]. apply list_elem_of_singleton in Hf as ->. by right; right. }
  split.
  - apply (bool_decide_unpack (NoDup [1; 2; 3])). by vm_compute.
  - intros f Hf. destruct (Hnew f Hf) as [->|[->| ->]]; vm_compute; reflexivity.
  - split; [by vm_compute|vm_compute; reflexivity].
  - split; [by vm_compute|vm_compute; reflexivity].
  - split; [by vm_compute|]. exists 4. split; [by vm_compute|]. split; [by vm_compute|].
    refine (bool_decide_unpack _ _); by vm_compute.
  - intros f Hf. destruct (Hnew f Hf) as [->|[->| ->]]; by vm_compute.
  - intros p Hp. apply elem_of_cons in Hp as [->|Hp]; [|apply list_elem_of_singleton in Hp as ->].
    + split; [by vm_compute|]. split; [split; [by vm_compute|]; exists 5; split; [by vm_compute|];
        split; [by vm_compute|]; refine (bool_decide_unpack _ _); by vm_compute|].
      intros f Hf. destruct (Hnew f Hf) as [->|[->| ->]]; by vm_compute.
    + split; [by vm_compute|]. split; [split; [by vm_compute|]; exists 6; split; [by vm_compute|];
        split; [by vm_compute|]; refine (bool_decide_unpack _ _); by vm_compute|].
      intros f Hf. destruct (Hnew f Hf) as [->|[->| ->]]; by vm_compute.
Qed.

Lemma created_disk_shows_partitions_witness :
  partitions_ok two_partitions ∧
  match create_composite_disk toy_uuid toy_crc two_partitions (bytes_of_string "zero.img")
          (bytes_of_string "header.img") header_file (bytes_of_string "footer.img") footer_file all_file
          create_host with
  | (Returns _, k1) =>
      contents k1 = created toy_uuid toy_crc (contents create_host) two_partitions (str_lit "zero.img")
                      (str_lit "header.img") (str_lit "footer.img") header_file footer_file all_file ∧
      match Composite_from_file (create_disk_file 1) all_file false (th_name "/disks/all.img") k1 with
      | (Returns c, k2) =>
          ∀ ps1 p ps2, two_partitions = ps1 ++ p :: ps2 →
          ∃ e, partition_name e = name_of p ∧ partition_type_guid e = guid (pi_partition_type p) ∧
            shows (contents k2) c (2 * SECTOR_SIZE + GPT_PARTITION_ENTRY_SIZE * lengthZ ps1)
              (entry_bytes e) ∧
            shows (contents k2) c (first_lba e * SECTOR_SIZE)
              (takeZ (pi_size p) (data_of_partition p) ++ zeros (aligned p - pi_size p)) ∧
            (last_lba e + 1) * SECTOR_SIZE = first_lba e * SECTOR_SIZE + aligned p
      | (Throws e, k2) => open_error e ∧ (faults k1 < faults k2)%nat
      | (Aborts, _) => False
      end
  | (Throws e, k1) => write_error e ∧ (faults create_host < faults k1)%nat
  | (Aborts, _) => False
  end.
Proof.
  split; [exact two_partitions_ok|].
  apply (created_disk_shows_partitions toy_uuid toy_crc toy_uuid_ok 0 false
    (th_name "/disks/all.img") disks_dir two_partitions data_of_partition);
    [vm_compute; reflexivity|vm_compute; reflexivity|vm_compute; reflexivity|vm_compute; reflexivity
    |exact two_partitions_ok|exact created_scene].
Defined.

(** ** Where the code does less *)

Definition image_header (blk blocks chunks : Z) : list u8 :=
  le_split 4 SPARSE_HEADER_MAGIC ++ le_split 2 MAJOR_VERSION ++ le_split 2 0
    ++ le_split 2 SPARSE_HEADER_SIZE ++ le_split 2 HEADER_SIZE ++ le_split 4 blk
    ++ le_split 4 blocks ++ le_split 4 chunks ++ le_split 4 0.
Definition chunk_bytes (type blocks : Z) (body : list u8) : list u8 :=
  le_split 2 type ++ le_split 2 0 ++ le_split 4 blocks ++ le_split 4 (HEADER_SIZE + lengthZ body) ++ body.
Definition open_image (data : list u8) : outcome Sparse.Error AndroidSparse :=
  (from_file sparse_file (mkHost {[ 7 := data ]} 0 (U64 1000) 0, U64 0)).1.

(** [parse_chunk] does not step over the four bytes of a checksum chunk: they are read as
    the start of the next header, and the image is rejected. *)
Example checksum_chunk_rejected :
  open_image (image_header 4 1 2 ++ chunk_bytes CHUNK_TYPE_CRC32 0 (b [1; 2; 3; 4])
    ++ chunk_bytes CHUNK_TYPE_RAW 1 (b [1; 2; 3; 4])) = Throws Sparse.InvalidSpecification.
Proof. vm_compute. reflexivity. Qed.

(** Two chunks whose sizes add up to more than 64 bits abort the program. *)
Example large_chunks_abort :
  open_image (image_header 4294967292 0 2 ++ chunk_bytes CHUNK_TYPE_DONT_CARE 4294967295 []
    ++ chunk_bytes CHUNK_TYPE_DONT_CARE 4294967295 []) = Aborts.
Proof. vm_compute. reflexivity. Qed.

(** A chunk of no blocks takes the place of the chunk behind it. *)
Example empty_chunk_rejected :
  open_image (image_header 4 1 2 ++ chunk_bytes CHUNK_TYPE_DONT_CARE 0 []
    ++ chunk_bytes CHUNK_TYPE_RAW 1 (b [1; 2; 3; 4])) = Throws Sparse.InvalidSpecification.
Proof. vm_compute. reflexivity. Qed.

(** A read from behind the end of a sparse disk aborts the program. *)
Example read_behind_end_aborts :
  match from_file sparse_file (sparse_host, U64 0) with
  | (Returns d, (k, _)) => (AndroidSparse_read_at_volatile (U64 1) (U64 21) (k, d)).1 = Aborts
  | _ => False
  end.
Proof. vm_compute. reflexivity. Qed.

(** The default vectored read looks at the first buffer only, also when it is empty. *)
Example vectored_read_stops_at_empty_buffer :
  match from_file sparse_file (sparse_host, U64 0) with
  | (Returns d, (k, _)) => (read_vectored_at_volatile [U64 0; U64 4] (U64 0) (k, d)).1 = Returns []
  | _ => False
  end.
Proof. vm_compute. reflexivity. Qed.

(** An empty partition is written to the specification, which cannot be opened then. *)
Definition empty_partition : PartitionInfo := {|
  pi_label := str_lit "boot"; pi_path := bytes_of_string "boot.img";
  pi_partition_type := EfiSystemPartition; pi_writable := false; pi_size := U64 0
|}.
Example empty_partition_rejected :
  match create_composite_disk toy_uuid toy_crc [empty_partition] (bytes_of_string "zero.img")
          (bytes_of_string "header.img") header_file (bytes_of_string "footer.img") footer_file all_file
          create_host with
  | (Returns _, k) =>
      match Composite_from_file (create_disk_file 1) all_file false (th_name "/disks/all.img") k with
      | (Throws InvalidSpecification, _) => True
      | _ => False
      end
  | _ => False
  end.
Proof. vm_compute. exact I. Qed.
