(* ===== verification/AsyncDisk.v ===== *)
(** * Asynchronous disks

    The trait [AsyncDisk] of [disk/src/disk.rs] with its implementations: a single
    file ([disk.rs] and [disk/src/sys/linux.rs]), sparse images ([android_sparse.rs])
    and composite disks ([composite.rs]).  Transfers go directly between the files
    of the host and the memory of the guest.

    The default executor polls: [PollSource] of
    [cros_async/src/sys/linux/poll_source.rs] makes its system calls in place and
    waits only for files that are not ready, so that an operation on regular files
    runs to its end before another task does.  A program therefore is one
    computation on the host, the disk and the memory.  The fields of the
    asynchronous composite and sparse disks are those of their synchronous
    counterparts, and the same records stand for both. *)

From S2P Require Import Prelude StdIo Checked Bits GuestMemory DescriptorUtils.
From S2P Require Import DiskFile SparseImage CompositeDisk.

(** ** The host *)

(** [FallocateMode]. *)
Inductive FallocateMode := PunchHoleMode | ZeroRange | Allocate.

(** The system calls; [durable] is what the files would hold after a power
    failure. *)
Class HostAsync (K : Type) := {
  durable : K → store;
  preadv64 : File → list u64 → Z → prog K io_error (list u8);
  pwritev64 : File → list (list u8) → Z → prog K io_error u64;
  fallocate64 : File → FallocateMode → Z → Z → prog K io_error ();
  sys_fsync : File → prog K io_error ();
  sys_fdatasync : File → prog K io_error ();
  ioctl_blkdiscard : File → u64 → u64 → prog K io_error ();
  is_block_file : File → prog K io_error bool;
  async_from : File → prog K io_error ();
  wait_readable : File → prog K io_error ();
  wait_writable : File → prog K io_error ()
}.

(** ** Regions of memory *)

(** [MemRegionIter]. *)
Record MemRegionIter := MkIter {
  mi_regions : list MemRegion;
  mi_skip_bytes : u64;
  mi_remaining_bytes : u64
}.

Definition take_bytes (it : MemRegionIter) (max : u64) : MemRegionIter :=
  MkIter (mi_regions it) (mi_skip_bytes it) (umin (mi_remaining_bytes it) max).
Definition items_of (it : MemRegionIter) : items :=
  iter_items (mi_regions it) (mi_skip_bytes it) (mi_remaining_bytes it).

(** [r.ok()]. *)
Definition attempt {S E E' A} (m : prog S E A) : prog S E' (option A) := λ s,
  match m s with
  | (Returns a, s') => (Returns (Some a), s')
  | (Throws _, s') => (Returns None, s')
  | (Aborts, s') => (Aborts, s')
  end.

(** [GuestMemory::get_volatile_slice]. *)
Definition get_volatile_slice (mem : GuestMemory) (r : MemRegion) : prog host MemoryError VolatileSlice :=
  get_slice_at_addr mem (rg_offset r) (rg_len r).

(** The slices of an iterator that are in memory. *)
Fixpoint iovecs {E} (mem : GuestMemory) (l : items) : prog host E (list VolatileSlice) :=
  match l with
  | Done => mret []
  | Panic => abort
  | Item r l =>
      v ← attempt (get_volatile_slice mem r);
      vs ← iovecs mem l;
      mret (match v with Some s => s :: vs | None => vs end)
  end.

(** What the kernel does with the slices. *)
Fixpoint scatter (dst : list VolatileSlice) (bs : list u8) (h : host) : host :=
  match dst with
  | [] => h
  | s :: dst =>
      scatter dst (dropZ (vs_size s) bs) (host_write (vs_obj s) (vs_off s) (takeZ (vs_size s) bs) h)
  end.
Definition gather (src : list VolatileSlice) (h : host) : list (list u8) :=
  map (λ s, host_read h (vs_obj s) (vs_off s) (vs_size s)) src.

(** ** Files: [PollSource] *)

Section poll_source.
Context {K : Type} `{HostFiles K} `{HostAsync K}.

(** A call in the loop that waits while the file is not ready.  As often as a
    signal can interrupt a call, a file can be found not ready. *)
Definition would_block (e : io_error) : bool := bool_decide (e = OsError 11).

Fixpoint poll_loop {A} (fuel : nat) (call : prog K io_error A) (wait : prog K io_error ())
    : prog K io_error A :=
  match fuel with
  | O => abort
  | S fuel =>
      r ← catch call;
      match r with
      | inl a => mret a
      | inr e => if would_block e then wait;; poll_loop fuel call wait else throw e
      end
  end.
Definition poll {A} (call : prog K io_error A) (wait : prog K io_error ()) : prog K io_error A :=
  k ← get_state; poll_loop (S (signals k)) call wait.

(** The host and the memory of the guest. *)
Definition on_kernel {T E A} (m : prog K E A) : prog (K * T) E A := zoom fst (λ k s, (k, s.2)) m.
Definition on_guest {T E A} (m : prog host E A) : prog (T * host) E A := zoom snd (λ h s, (s.1, h)) m.

Definition PollSource_read_to_mem (mem : GuestMemory) (f : File) (file_offset : u64) (mem_offsets : items)
    : prog (K * host) io_error u64 :=
  slices ← on_guest (iovecs mem mem_offsets);
  bs ← on_kernel (poll (preadv64 f (vs_size <$> slices) (as_off_t file_offset)) (wait_readable f));
  on_guest (h ← get_state; put_state (scatter slices bs h));;
  mret (U64 (lengthZ bs)).

Definition PollSource_write_from_mem (mem : GuestMemory) (f : File) (file_offset : u64) (mem_offsets : items)
    : prog (K * host) io_error u64 :=
  slices ← on_guest (iovecs mem mem_offsets);
  '(_, h) ← get_state;
  on_kernel (poll (pwritev64 f (gather slices h) (as_off_t file_offset)) (wait_writable f)).

Definition PollSource_write_from_vec (f : File) (file_offset : u64) (vec : list u8) : prog K io_error u64 :=
  poll (pwrite f vec (as_off_t file_offset)) (wait_writable f).

(** [fallocate] of [base/src/sys/linux/mod.rs]. *)
Definition fallocate (f : File) (mode : FallocateMode) (offset len : u64) : prog K io_error () :=
  if 2 ^ 63 <=? offset then throw (OsError EINVAL)
  else if 2 ^ 63 <=? len then throw (OsError EINVAL)
  else fallocate64 f mode offset len.
End poll_source.

(** ** The trait *)

(** [AsyncDisk], with the operations of its supertraits. *)
Class AsyncDisk (K D : Type) := {
  async_get_len : prog (K * D) io_error u64;
  async_set_len : u64 → prog (K * D) io_error ();
  async_allocate : u64 → u64 → prog (K * D) io_error ();
  async_flush : prog (K * D) disk_error ();
  async_fsync : prog (K * D) disk_error ();
  async_fdatasync : prog (K * D) disk_error ();
  read_to_mem : GuestMemory → u64 → MemRegionIter → prog (K * D * host) disk_error u64;
  write_from_mem : GuestMemory → u64 → MemRegionIter → prog (K * D * host) disk_error u64;
  punch_hole : u64 → u64 → prog (K * D) disk_error ();
  write_zeroes_at : u64 → u64 → prog (K * D) disk_error ()
}.

(** A computation on the host and the memory in a disk. *)
Definition beside {K D E A} (m : prog (K * host) E A) : prog (K * D * host) E A :=
  zoom (λ s, (s.1.1, s.2)) (λ t s, (t.1, s.1.2, t.2)) m.

(** ** A single file *)

Record SingleFileDisk := mkSingle { sf_inner : File; is_block_device_file : bool }.

Section single_file.
Context {K : Type} `{HostFiles K} `{HostAsync K}.

Definition SingleFileDisk_new (disk : File) : prog K disk_error SingleFileDisk :=
  is_block ← map_err BlockDeviceNew (is_block_file disk);
  map_err CreateSingleFileDisk (async_from disk);;
  mret (mkSingle disk is_block).

(** A call on the file. *)
Definition on_file {E A} (m : File → prog K E A) : prog (K * SingleFileDisk) E A :=
  '(_, d) ← get_state; on_kernel (m (sf_inner d)).
Definition on_mem {E A} (m : File → prog (K * host) E A) : prog (K * SingleFileDisk * host) E A :=
  '(_, d, _) ← get_state; beside (m (sf_inner d)).

Definition SingleFile_read_to_mem (mem : GuestMemory) (file_offset : u64) (it : MemRegionIter)
    : prog (K * SingleFileDisk * host) disk_error u64 :=
  on_mem (λ f, map_err ReadToMem (PollSource_read_to_mem mem f file_offset (items_of it))).
Definition SingleFile_write_from_mem (mem : GuestMemory) (file_offset : u64) (it : MemRegionIter)
    : prog (K * SingleFileDisk * host) disk_error u64 :=
  on_mem (λ f, map_err WriteFromMem (PollSource_write_from_mem mem f file_offset (items_of it))).

Definition SingleFile_punch_hole (file_offset length : u64) : prog (K * SingleFileDisk) disk_error () :=
  '(_, d) ← get_state;
  if is_block_device_file d then
    on_file (λ f, map_err PunchHoleBlockDeviceFile (ioctl_blkdiscard f file_offset length))
  else on_file (λ f, map_err PunchHole (fallocate f PunchHoleMode file_offset length)).

(** The loop that writes zeros.  Every write moves at least a byte, so that as many
    rounds as there are bytes are enough. *)
Fixpoint fill_zeroes (fuel : nat) (f : File) (file_offset length buf_size nwritten : u64)
    : prog K disk_error () :=
  if nwritten <? length then
    match fuel with
    | O => abort
    | S fuel =>
        remaining ← checked (sub_checked length nwritten);
        let write_size := umin remaining buf_size in
        offset ← checked (add_checked file_offset nwritten);
        n ← map_err WriteFromVec (PollSource_write_from_vec f offset (zeros write_size));
        nwritten ← checked (add_checked nwritten n);
        fill_zeroes fuel f file_offset length buf_size nwritten
    end
  else mret ().

Definition SingleFile_write_zeroes_at (file_offset length : u64) : prog (K * SingleFileDisk) disk_error () :=
  r ← attempt (on_file (λ f, fallocate f ZeroRange file_offset length));
  match r with
  | Some _ => mret ()
  | None =>
      let buf_size := umin length (U64 0x10000) in
      on_file (λ f, fill_zeroes (Z.to_nat length) f file_offset length buf_size (U64 0))
  end.

#[global] Instance SingleFile_AsyncDisk : AsyncDisk K SingleFileDisk := {|
  async_get_len := on_file lseek_end;
  async_set_len len := on_file (λ f, ftruncate f len);
  async_allocate offset len := on_file (λ f, fallocate f Allocate offset len);
  async_flush := mret ();
  async_fsync := on_file (λ f, map_err Fsync (sys_fsync f));
  async_fdatasync := on_file (λ f, map_err Fdatasync (sys_fdatasync f));
  read_to_mem := SingleFile_read_to_mem;
  write_from_mem := SingleFile_write_from_mem;
  punch_hole := SingleFile_punch_hole;
  write_zeroes_at := SingleFile_write_zeroes_at
|}.
End single_file.

(** ** Sparse images *)

Section sparse.
Context {K : Type} `{HostFiles K} `{HostAsync K}.

(** [mem_offsets.clone().map(|x| x.len).sum()]. *)
Definition total_len (l : items) : option u64 := rs ← collect_items l; sum_lengths rs (U64 0).

(** The loops that fill the regions with zeros and with the pattern of a chunk. *)
Fixpoint zero_regions (mem : GuestMemory) (l : items) : prog host disk_error () :=
  match l with
  | Done => mret ()
  | Panic => abort
  | Item r l =>
      s ← map_err (λ _, GuestMemoryError) (get_volatile_slice mem r);
      h ← get_state;
      put_state (host_write (vs_obj s) (vs_off s) (zeros (vs_size s)) h);;
      zero_regions mem l
  end.

Fixpoint fill_regions (mem : GuestMemory) (l : items) (filled_memory : list u8) : prog host disk_error () :=
  match l with
  | Done => mret ()
  | Panic => abort
  | Item r l =>
      s ← map_err (λ _, GuestMemoryError) (get_volatile_slice mem r);
      h ← get_state;
      put_state (host_write (vs_obj s) (vs_off s) (takeZ (rg_len r) filled_memory) h);;
      fill_regions mem l (dropZ (rg_len r) filled_memory)
  end.

Definition Sparse_read_to_mem (mem : GuestMemory) (file_offset : u64) (it : MemRegionIter)
    : prog (K * AndroidSparse * host) disk_error u64 :=
  '(_, d, _) ← get_state;
  '(chunk_start, c) ←
    ok_or_throw (last_chunk file_offset (as_chunks d)) (ReadingData (KindError StdIo.UnexpectedEof));
  chunk_offset ← checked (sub_checked file_offset chunk_start);
  rest ← checked (sub_checked (expanded_size c) chunk_offset);
  let mem_offsets := items_of (take_bytes it rest) in
  mem_size ← checked (total_len mem_offsets);
  match chunk c with
  | DontCare => on_guest (zero_regions mem mem_offsets);; mret mem_size
  | Raw offset =>
      pos ← checked (add_checked offset chunk_offset);
      beside (map_err ReadToMem (PollSource_read_to_mem mem (as_file d) pos mem_offsets))
  | Fill fill_bytes =>
      let chunk_offset_mod := uval chunk_offset mod lengthZ fill_bytes in
      let filled_memory := cycle_from fill_bytes chunk_offset_mod (Z.to_nat (uval mem_size)) in
      on_guest (fill_regions mem mem_offsets filled_memory);; mret mem_size
  end.

#[global] Instance Sparse_AsyncDisk : AsyncDisk K AndroidSparse := {|
  async_get_len := AndroidSparse_get_len;
  async_set_len := AndroidSparse_set_len;
  async_allocate _ _ := throw (KindError PermissionDenied);
  async_flush := mret ();
  async_fsync := mret ();
  async_fdatasync := mret ();
  read_to_mem := Sparse_read_to_mem;
  write_from_mem _ _ _ := throw UnsupportedOperation;
  punch_hole _ _ := throw UnsupportedOperation;
  write_zeroes_at _ _ := throw UnsupportedOperation
|}.
End sparse.

(** ** Composite disks *)

Section composite.
Context {K D : Type} `{AsyncDisk K D}.

(** An operation of the [i]th disk on memory. *)
Definition on_part_mem {E A} (i : nat) (disk : ComponentDiskPart D) (m : prog (K * D * host) E A)
    : prog (K * CompositeDiskFile D * host) E A := λ '(k, c, h),
  let '(r, (k', file, h')) := m (k, part_file disk, h) in
  (r, (k', mkComposite (<[i := mkPart file (part_offset disk) (part_length disk) (needs_fsync disk)]>
                          (component_disks c)), h')).

(** The components that a range overlaps. *)
Fixpoint overlapping (r : range) (i : nat) (disks : list (ComponentDiskPart D)) : option (list nat) :=
  match disks with
  | [] => Some []
  | d :: disks =>
      r' ← part_range d;
      rest ← overlapping r (S i) disks;
      Some (if ranges_overlap r' r then i :: rest else rest)
  end.
Definition disks_in_range (r : range) (c : CompositeDiskFile D) : option (list nat) :=
  overlapping r 0 (component_disks c).

Definition range_of (offset length : u64) : option range :=
  last ← add_checked offset length; Some (mkRange offset last).

(** The loop over components that applies an operation to the part of a range in
    each. *)
Fixpoint for_parts {E} (op : u64 → u64 → prog (K * D) E ()) (r : range) (disks : list nat)
    : prog (K * CompositeDiskFile D) E () :=
  match disks with
  | [] => mret ()
  | i :: disks =>
      '(_, c) ← get_state;
      disk ← checked (component_disks c !! i);
      r' ← checked (part_range disk);
      (match range_intersection r r' with
       | Some x =>
           start ← checked (sub_checked (range_start x) (part_offset disk));
           len ← checked (sub_checked (range_end x) (range_start x));
           on_part i disk (op start len);;
           set_needs_fsync i
       | None => mret ()
       end);;
      for_parts op r disks
  end.

Definition Composite_allocate (offset length : u64) : prog (K * CompositeDiskFile D) io_error () :=
  r ← checked (range_of offset length);
  '(_, c) ← get_state;
  for_parts async_allocate r (seq 0 (List.length (component_disks c))).

Definition Composite_punch_hole (file_offset length : u64) : prog (K * CompositeDiskFile D) disk_error () :=
  r ← checked (range_of file_offset length);
  '(_, c) ← get_state;
  disks ← checked (disks_in_range r c);
  for_parts punch_hole r disks.

Definition Composite_write_zeroes_at (file_offset length : u64)
    : prog (K * CompositeDiskFile D) disk_error () :=
  r ← checked (range_of file_offset length);
  '(_, c) ← get_state;
  disks ← checked (disks_in_range r c);
  for_parts write_zeroes_at r disks.

(** [disk.needs_fsync.fetch_and(false)] clears the flag before the call. *)
Definition clear_needs_fsync {E} (i : nat) : prog (K * CompositeDiskFile D) E () :=
  '(k, c) ← get_state;
  put_state (k, mkComposite (alter (λ d, mkPart (part_file d) (part_offset d) (part_length d) false) i
                               (component_disks c))).

Fixpoint fsync_parts (disks : list nat) : prog (K * CompositeDiskFile D) disk_error () :=
  match disks with
  | [] => mret ()
  | i :: disks =>
      '(_, c) ← get_state;
      disk ← checked (component_disks c !! i);
      (if needs_fsync disk then
         clear_needs_fsync i;;
         '(_, c) ← get_state;
         disk ← checked (component_disks c !! i);
         r ← catch (on_part i disk async_fsync);
         match r with
         | inl _ => mret ()
         | inr e => set_needs_fsync i;; throw e
         end
       else mret ());;
      fsync_parts disks
  end.
Definition Composite_fsync : prog (K * CompositeDiskFile D) disk_error () :=
  '(_, c) ← get_state; fsync_parts (seq 0 (List.length (component_disks c))).

Fixpoint flush_parts (disks : list nat) : prog (K * CompositeDiskFile D) disk_error () :=
  match disks with
  | [] => mret ()
  | i :: disks =>
      '(_, c) ← get_state;
      disk ← checked (component_disks c !! i);
      on_part i disk async_flush;;
      flush_parts disks
  end.
Definition Composite_flush : prog (K * CompositeDiskFile D) disk_error () :=
  '(_, c) ← get_state; flush_parts (seq 0 (List.length (component_disks c))).

(** The component of an offset, the offset in it and what is left of it. *)
Definition part_for (file_offset : u64) (c : CompositeDiskFile D)
    : outcome disk_error (nat * ComponentDiskPart D * u64 * u64) :=
  match disk_at_offset file_offset c with
  | Returns (i, disk) =>
      last ← unwrap_or_abort (add_checked (part_offset disk) (part_length disk));
      remaining_disk ← unwrap_or_abort (sub_checked last file_offset);
      pos ← unwrap_or_abort (sub_checked file_offset (part_offset disk));
      Returns (i, disk, pos, remaining_disk)
  | Throws e => Throws (ReadingData e)
  | Aborts => Aborts
  end.

Definition Composite_read_to_mem (mem : GuestMemory) (file_offset : u64) (it : MemRegionIter)
    : prog (K * CompositeDiskFile D * host) disk_error u64 :=
  '(_, c, _) ← get_state;
  '(i, disk, pos, remaining_disk) ← give_outcome (part_for file_offset c);
  on_part_mem i disk (read_to_mem mem pos (take_bytes it remaining_disk)).

Definition Composite_write_from_mem (mem : GuestMemory) (file_offset : u64) (it : MemRegionIter)
    : prog (K * CompositeDiskFile D * host) disk_error u64 :=
  '(_, c, _) ← get_state;
  '(i, disk, pos, remaining_disk) ← give_outcome (part_for file_offset c);
  n ← on_part_mem i disk (write_from_mem mem pos (take_bytes it remaining_disk));
  zoom fst (λ t s, (t, s.2)) (set_needs_fsync i);;
  mret n.

#[global] Instance Composite_AsyncDisk : AsyncDisk K (CompositeDiskFile D) := {|
  async_get_len := Composite_get_len;
  async_set_len := Composite_set_len;
  async_allocate := Composite_allocate;
  async_flush := Composite_flush;
  async_fsync := Composite_fsync;
  async_fdatasync := Composite_fsync;
  read_to_mem := Composite_read_to_mem;
  write_from_mem := Composite_write_from_mem;
  punch_hole := Composite_punch_hole;
  write_zeroes_at := Composite_write_zeroes_at
|}.
End composite.

(** ** Disks of any depth *)

(** [Box<dyn AsyncDisk>], with components of type [D]. *)
Inductive any_async (D : Type) :=
| AsyncRaw (f : SingleFileDisk)
| AsyncSparse (d : AndroidSparse)
| AsyncComposite (c : CompositeDiskFile D).
Arguments AsyncRaw {D} _.
Arguments AsyncSparse {D} _.
Arguments AsyncComposite {D} _.

Fixpoint async_disk (max_nesting_depth : nat) : Type :=
  match max_nesting_depth with
  | O => Empty_set
  | S n => any_async (async_disk n)
  end.

Section any_async.
Context {K D : Type} `{HostFiles K} `{HostAsync K} `{AsyncDisk K D}.

(** Calls through the trait object. *)
Definition async_dispatch {E A}
    (on_raw : prog (K * SingleFileDisk) E A) (on_sparse : prog (K * AndroidSparse) E A)
    (on_composite : prog (K * CompositeDiskFile D) E A) : prog (K * any_async D) E A := λ '(k, d),
  match d with
  | AsyncRaw f => let '(r, (k', f')) := on_raw (k, f) in (r, (k', AsyncRaw f'))
  | AsyncSparse d => let '(r, (k', d')) := on_sparse (k, d) in (r, (k', AsyncSparse d'))
  | AsyncComposite c => let '(r, (k', c')) := on_composite (k, c) in (r, (k', AsyncComposite c'))
  end.
Definition mem_dispatch {E A}
    (on_raw : prog (K * SingleFileDisk * host) E A) (on_sparse : prog (K * AndroidSparse * host) E A)
    (on_composite : prog (K * CompositeDiskFile D * host) E A)
    : prog (K * any_async D * host) E A := λ '(k, d, h),
  match d with
  | AsyncRaw f => let '(r, (k', f', h')) := on_raw (k, f, h) in (r, (k', AsyncRaw f', h'))
  | AsyncSparse d => let '(r, (k', d', h')) := on_sparse (k, d, h) in (r, (k', AsyncSparse d', h'))
  | AsyncComposite c =>
      let '(r, (k', c', h')) := on_composite (k, c, h) in (r, (k', AsyncComposite c', h'))
  end.

#[global] Instance any_AsyncDisk : AsyncDisk K (any_async D) := {|
  async_get_len := async_dispatch async_get_len async_get_len async_get_len;
  async_set_len len := async_dispatch (async_set_len len) (async_set_len len) (async_set_len len);
  async_allocate o n := async_dispatch (async_allocate o n) (async_allocate o n) (async_allocate o n);
  async_flush := async_dispatch async_flush async_flush async_flush;
  async_fsync := async_dispatch async_fsync async_fsync async_fsync;
  async_fdatasync := async_dispatch async_fdatasync async_fdatasync async_fdatasync;
  read_to_mem mem o it := mem_dispatch (read_to_mem mem o it) (read_to_mem mem o it) (read_to_mem mem o it);
  write_from_mem mem o it :=
    mem_dispatch (write_from_mem mem o it) (write_from_mem mem o it) (write_from_mem mem o it);
  punch_hole o n := async_dispatch (punch_hole o n) (punch_hole o n) (punch_hole o n);
  write_zeroes_at o n := async_dispatch (write_zeroes_at o n) (write_zeroes_at o n) (write_zeroes_at o n)
|}.
End any_async.

#[global] Instance empty_AsyncDisk {K} : AsyncDisk K Empty_set := {|
  async_get_len s := match (s.2 : Empty_set) with end;
  async_set_len _ s := match (s.2 : Empty_set) with end;
  async_allocate _ _ s := match (s.2 : Empty_set) with end;
  async_flush s := match (s.2 : Empty_set) with end;
  async_fsync s := match (s.2 : Empty_set) with end;
  async_fdatasync s := match (s.2 : Empty_set) with end;
  read_to_mem _ _ _ s := match (s.1.2 : Empty_set) with end;
  write_from_mem _ _ _ s := match (s.1.2 : Empty_set) with end;
  punch_hole _ _ s := match (s.2 : Empty_set) with end;
  write_zeroes_at _ _ s := match (s.2 : Empty_set) with end
|}.

#[global] Instance disk_AsyncDisk {K} `{HostFiles K} `{HostAsync K} : ∀ n, AsyncDisk K (async_disk n) :=
  fix go n := match n with O => empty_AsyncDisk | S n => any_AsyncDisk (H1 := go n) end.

(** [ToAsyncDisk::to_async_disk] and [AsyncDisk::into_inner]. *)
Section conversion.
Context {K : Type} `{HostFiles K} `{HostAsync K}.

Fixpoint parts_to_async {D D'} (convert : D → prog K disk_error D') (disks : list (ComponentDiskPart D))
    : prog K disk_error (list (ComponentDiskPart D')) :=
  match disks with
  | [] => mret []
  | d :: disks =>
      file ← convert (part_file d);
      rest ← parts_to_async convert disks;
      mret (mkPart file (part_offset d) (part_length d) (needs_fsync d) :: rest)
  end.

Fixpoint to_async_disk (n : nat) : disk n → prog K disk_error (async_disk n) :=
  match n with
  | O => λ d, match (d : Empty_set) with end
  | S n => λ d,
      match d with
      | RawDisk f => s ← SingleFileDisk_new f; mret (AsyncRaw s : async_disk (S n))
      | SparseDisk d =>
          map_err ToAsync (async_from (as_file d));; mret (AsyncSparse d : async_disk (S n))
      | CompositeDisk c =>
          parts ← parts_to_async (to_async_disk n) (component_disks c);
          mret (AsyncComposite (mkComposite parts) : async_disk (S n))
      end
  end.

Definition part_map {D D'} (g : D → D') (d : ComponentDiskPart D) : ComponentDiskPart D' :=
  mkPart (g (part_file d)) (part_offset d) (part_length d) (needs_fsync d).

Fixpoint into_inner (n : nat) : async_disk n → disk n :=
  match n with
  | O => λ d, d
  | S n => λ d,
      match d with
      | AsyncRaw s => RawDisk (sf_inner s) : disk (S n)
      | AsyncSparse d => SparseDisk d : disk (S n)
      | AsyncComposite c => CompositeDisk (mkComposite (map (part_map (into_inner n)) (component_disks c)))
      end
  end.
End conversion.
