(* ===== verification/AsyncFacts.v ===== *)
(** * The contract of asynchronous disks

    What POSIX says of the calls of [HostAsync], and the contract [AsyncLaws] of
    [AsyncDisk]: a disk is an array of bytes that is a view of the files of the host;
    transfers move a part of the bytes asked for between the array and the regions of
    guest memory, and after [fsync] the storage has what the disk shows.  A single
    file keeps the contract, and so does a sparse image, which fills the regions of
    guest memory with what its chunk stands for. *)

From S2P Require Import Prelude StdIo Checked Bits GuestMemory GuestMemoryFacts DescriptorUtils StreamFacts.
From S2P Require Import DiskFile DiskFacts SparseImage CompositeDisk AsyncDisk SparseFacts CompositeFacts.

(** ** The host *)

Section clean.
Context {K : Type} `{HostFiles K} `{HostAsync K}.

(** All of a file is on the storage. *)
Definition clean (k : K) (i : Z) : Prop := durable k !! i = contents k !! i.

(** A call that changes no file. *)
Definition quiet (k k' : K) : Prop := contents k' = contents k ∧ ∀ i, clean k i → clean k' i.

(** A call that changes at most one file. *)
Definition changes (f : File) (k k' : K) (data' : list u8) : Prop :=
  f_writable f = true ∧ contents k' = <[f_inode f := data']> (contents k) ∧
  ∀ i, i ≠ f_inode f → clean k i → clean k' i.

Lemma quiet_refl k : quiet k k.
Proof. done. Qed.
Lemma quiet_trans k1 k2 k3 : quiet k1 k2 → quiet k2 k3 → quiet k1 k3.
Proof. intros [Hc1 Hq1] [Hc2 Hq2]. split; [congruence|auto]. Qed.
End clean.

Fixpoint sum_sizesZ (l : list u64) : Z := match l with [] => 0 | n :: l => n + sum_sizesZ l end.

(** A file with zeros in a range, as long as it was. *)
Definition zeroed (data : list u8) (off len : Z) : list u8 :=
  if off <? lengthZ data then overwrite data off (zeros (Z.min len (lengthZ data - off))) else data.

Class HostAsyncLaws (K : Type) `{HostFiles K} `{HostAsync K} : Prop := {
  wait_readable_law f k r k' :
    wait_readable f k = (r, k') → quiet k k' ∧ (signals k' ≤ signals k)%nat ∧ r ≠ Aborts;
  wait_writable_law f k r k' :
    wait_writable f k = (r, k') → quiet k k' ∧ (signals k' ≤ signals k)%nat ∧ r ≠ Aborts;
  preadv_law f sizes off k r k' :
    preadv64 f sizes off k = (r, k') →
    quiet k k' ∧
    match r with
    | Returns bs =>
        0 <= off ∧ lengthZ bs <= sum_sizesZ sizes ∧
        ∃ data, contents k !! f_inode f = Some data ∧ bs `prefix_of` dropZ off data ∧
          (0 < sum_sizesZ sizes → off < lengthZ data → bs ≠ [])
    | Throws e => would_block e = true → (signals k' < signals k)%nat
    | Aborts => False
    end;
  pwritev_law f bufs off k r k' :
    pwritev64 f bufs off k = (r, k') →
    match r with
    | Returns m =>
        0 <= off ∧ m <= lengthZ (concat bufs) ∧ (concat bufs ≠ [] → 0 < m) ∧
        ∃ data, contents k !! f_inode f = Some data ∧
          changes f k k' (overwrite data off (takeZ m (concat bufs)))
    | Throws e => quiet k k' ∧ (would_block e = true → (signals k' < signals k)%nat)
    | Aborts => False
    end;
  pwrite_async_law f bs off k r k' :
    pwrite f bs off k = (r, k') →
    match r with
    | Returns m =>
        0 <= off ∧ m <= lengthZ bs ∧ (bs ≠ [] → 0 < m) ∧
        ∃ data, contents k !! f_inode f = Some data ∧ changes f k k' (overwrite data off (takeZ m bs))
    | Throws e => quiet k k' ∧ (would_block e = true → (signals k' < signals k)%nat)
    | Aborts => False
    end;
  fallocate_law f mode off len k r k' :
    fallocate64 f mode off len k = (r, k') →
    match r with
    | Returns _ =>
        match mode with
        | Allocate =>
            ∃ data, contents k !! f_inode f = Some data ∧
              changes f k k' (data ++ zeros (off + len - lengthZ data))
        | _ => ∃ data, contents k !! f_inode f = Some data ∧ changes f k k' (zeroed data off len)
        end
    | Throws e => quiet k k'
    | Aborts => False
    end;
  ftruncate_law f (len : u64) k r k' :
    ftruncate f len k = (r, k') →
    match r with
    | Returns _ =>
        ∃ data, contents k !! f_inode f = Some data ∧
          changes f k k' (takeZ len data ++ zeros (len - lengthZ data))
    | Throws e => quiet k k'
    | Aborts => False
    end;
  blkdiscard_law f (off len : u64) k r k' :
    ioctl_blkdiscard f off len k = (r, k') →
    match r with
    | Returns _ =>
        ∃ data data', contents k !! f_inode f = Some data ∧ changes f k k' data' ∧
          lengthZ data' = lengthZ data ∧
          ∀ j, ¬ (off <= j < off + len) → byte_at data' j = byte_at data j
    | Throws e => quiet k k'
    | Aborts => False
    end;
  fsync_law f k r k' :
    sys_fsync f k = (r, k') →
    quiet k k' ∧ match r with Returns _ => clean k' (f_inode f) | Throws _ => True | Aborts => False end;
  fdatasync_law f k r k' :
    sys_fdatasync f k = (r, k') →
    quiet k k' ∧ match r with Returns _ => clean k' (f_inode f) | Throws _ => True | Aborts => False end;
  is_block_law f k r k' : is_block_file f k = (r, k') → quiet k k' ∧ r ≠ Aborts;
  async_from_law f k r k' : async_from f k = (r, k') → quiet k k' ∧ r ≠ Aborts;
  lseek_end_quiet f k r k' : lseek_end f k = (r, k') → quiet k k'
}.

(** Waiting for a file ends: the call is made in a state that differs by nothing
    but signals, or an error is returned. *)
Section poll.
Context {K : Type} `{HostAsyncLaws K}.

Lemma poll_loop_spec {A} fuel (call : prog K io_error A) wait : ∀ k r k',
  (∀ k e k', call k = (Throws e, k') →
    quiet k k' ∧ (would_block e = true → (signals k' < signals k)%nat)) →
  (∀ k r k', wait k = (r, k') → quiet k k' ∧ (signals k' ≤ signals k)%nat ∧ r ≠ Aborts) →
  (signals k < fuel)%nat → poll_loop fuel call wait k = (r, k') →
  (∃ e, r = Throws e ∧ quiet k k') ∨ (∃ k1, quiet k k1 ∧ call k1 = (r, k') ∧ ∀ e, r ≠ Throws e).
Proof.
  induction fuel as [|fuel IH]; intros k r k' Hcall Hwait Hfuel; [lia|].
  cbn [poll_loop]. unfold mbind at 1, prog_bind at 1, catch.
  destruct (call k) as [o k1] eqn:E. destruct o as [a|e|].
  - intros [= <- <-]. right. exists k. split; [apply quiet_refl|done].
  - destruct (Hcall _ _ _ E) as [Hq Hs]. destruct (would_block e); [|intros [= <- <-]; left; eauto].
    unfold mbind, prog_bind. destruct (wait k1) as [o2 k2] eqn:E2.
    destruct (Hwait _ _ _ E2) as (Hq2 & Hs2 & Hna). destruct o2 as [[]|e2|]; [|intros [= <- <-]; left|done].
    + intros E3. specialize (Hs eq_refl). apply IH in E3; [|done|done|lia].
      destruct E3 as [(e3 & -> & Hq3)|(k3 & Hq3 & Hc3)]; [left|right].
      * exists e3. split; [done|]. eauto using quiet_trans.
      * exists k3. split; [|done]. eauto using quiet_trans.
    + exists e2. split; [done|]. eauto using quiet_trans.
  - intros [= <- <-]. right. exists k. split; [apply quiet_refl|done].
Qed.

Lemma poll_spec {A} (call : prog K io_error A) wait k r k' :
  (∀ k e k', call k = (Throws e, k') →
    quiet k k' ∧ (would_block e = true → (signals k' < signals k)%nat)) →
  (∀ k r k', wait k = (r, k') → quiet k k' ∧ (signals k' ≤ signals k)%nat ∧ r ≠ Aborts) →
  poll call wait k = (r, k') →
  (∃ e, r = Throws e ∧ quiet k k') ∨ (∃ k1, quiet k k1 ∧ call k1 = (r, k') ∧ ∀ e, r ≠ Throws e).
Proof. intros Hc Hw. unfold poll. run_prog. apply poll_loop_spec; [done|done|lia]. Qed.
End poll.

(** ** Regions *)

Section regions.
Context (gm : GuestMemory) (Hgm : gm_ok gm).

Definition iter_ok (it : MemRegionIter) : Prop := Forall (region_in (fits gm)) (mi_regions it).

(** The addresses of an iterator. *)
Definition iter_addrs (it : MemRegionIter) : list Z :=
  takeZ (mi_remaining_bytes it) (dropZ (mi_skip_bytes it) (addrs (mi_regions it))).

Lemma items_of_spec it :
  iter_ok it → ∃ rs, collect_items (items_of it) = Some rs ∧ Forall (region_in (fits gm)) rs ∧
    addrs rs = iter_addrs it.
Proof using Hgm.
  intros Hit. apply (iter_items_spec (fits gm) (fits_sub gm) (λ a n, fits_end gm a n Hgm)). exact Hit.
Qed.

Lemma lengthZ_iter_addrs it : 0 <= lengthZ (iter_addrs it) < 2 ^ 64.
Proof.
  pose proof (uint_range (mi_remaining_bytes it)) as Hr. cbn [Z.of_N] in Hr.
  pose proof (lengthZ_nonneg (dropZ (mi_skip_bytes it) (addrs (mi_regions it)))).
  unfold iter_addrs. rewrite lengthZ_takeZ by lia. lia.
Qed.

Lemma take_bytes_ok it n : iter_ok it → iter_ok (take_bytes it n).
Proof. done. Qed.
Lemma take_bytes_addrs it (n : u64) : iter_addrs (take_bytes it n) = takeZ n (iter_addrs it).
Proof.
  unfold iter_addrs. cbn. pose proof (uint_range n). pose proof (uint_range (mi_remaining_bytes it)).
  rewrite !takeZ_take, take_take. f_equal. unfold umin. case_match; zbool; lia.
Qed.

Lemma iovecs_spec {E} l rs h :
  collect_items l = Some rs → Forall (region_in (fits gm)) rs →
  ∃ ss, iovecs (E := E) gm l h = (Returns ss, h) ∧ Forall2 (slice_of gm) ss rs.
Proof using Hgm.
  revert rs. induction l as [| |r l IH]; intros rs; cbn [collect_items iovecs].
  - intros [= <-] _. by exists [].
  - done.
  - destruct (collect_items l) as [rs'|]; [|done]. cbn. intros [= <-] [Hr Hrs]%Forall_cons.
    destruct (IH rs' eq_refl Hrs) as (ss & Hrun & Hss).
    destruct (get_slice_run gm Hgm (rg_offset r) (rg_len r) h Hr) as (s & Hs & Hfor).
    exists (s :: ss). split; [|by constructor].
    erewrite bind_returns by (unfold attempt, get_volatile_slice; by rewrite Hs).
    by erewrite bind_returns by exact Hrun.
Qed.

Lemma slice_write_spec s r bs h :
  slice_of gm s r → ∀ x, guest_byte gm (host_write (vs_obj s) (vs_off s) (takeZ (rg_len r) bs) h) x =
    StreamFacts.store (guest_byte gm h) (region_addrs r) (takeZ (rg_len r) bs) x.
Proof.
  intros (_ & _ & Hw & _) x. pose proof (uint_range (rg_len r)).
  assert (lengthZ (takeZ (rg_len r) bs) <= rg_len r) by (apply lengthZ_takeZ_le; lia).
  unfold region_addrs. by rewrite Hw, store_seqZ by done.
Qed.

Lemma scatter_spec ss rs bs h :
  Forall2 (slice_of gm) ss rs →
  ∀ x, guest_byte gm (scatter ss bs h) x = StreamFacts.store (guest_byte gm h) (addrs rs) bs x.
Proof.
  intros Hss. revert bs h. induction Hss as [|s r ss rs Hs Hss IH]; intros bs h x; [done|].
  cbn [scatter]. rewrite IH, addrs_cons, store_app, lengthZ_region_addrs.
  pose proof (proj1 Hs) as Hsize. unfold slice_for in Hsize. rewrite Hsize.
  apply store_ext. by apply slice_write_spec.
Qed.

Lemma gather_spec ss rs h :
  Forall2 (slice_of gm) ss rs → concat (gather ss h) = bytes_at gm h (addrs rs).
Proof.
  intros Hss. induction Hss as [|s r ss rs Hs Hss IH]; [done|].
  change (gather (s :: ss) h) with (host_read h (vs_obj s) (vs_off s) (vs_size s) :: gather ss h).
  rewrite concat_cons, IH, addrs_cons, bytes_at_app. f_equal.
  pose proof (proj1 Hs) as Hsize. pose proof (uint_range (rg_len r)). rewrite Hsize.
  rewrite (slice_bytes gm s r h) by (done || lia). apply takeZ_all.
  by rewrite lengthZ_bytes_at, lengthZ_region_addrs.
Qed.

Lemma slices_size ss rs : Forall2 (slice_of gm) ss rs → sum_sizesZ (vs_size <$> ss) = lengthZ (addrs rs).
Proof.
  intros Hss. induction Hss as [|s r ss rs Hs Hss IH]; [done|]. cbn.
  rewrite IH, addrs_cons, lengthZ_app, lengthZ_region_addrs. f_equal. exact (proj1 Hs).
Qed.
End regions.

(** ** The contract *)

(** The errors of the host, and of a disk that cannot be written. *)
Definition disk_fault (e : disk_error) : Prop :=
  match e with
  | Fdatasync _ | Fsync _ | PunchHole _ | PunchHoleBlockDeviceFile _ | ReadToMem _ | WriteFromMem _
  | WriteFromVec _ | UnsupportedOperation => True
  | _ => False
  end.

(** The files [fsync] will bring to the storage. *)
Class SyncView (D : Type) := synced_by : D → gset Z.

Section effects.
Context {K D : Type} `{HostFiles K} `{HostAsync K} `{DiskView D} `{SyncView D}.
Implicit Types (k : K) (d : D).

(** The disk has the same structure. *)
Definition same_shape d d' : Prop :=
  disk_ok d' ∧ disk_inodes d' = disk_inodes d ∧ disk_winodes d' = disk_winodes d.

(** What changed the files of [d] changed no other file. *)
Definition framed k k' d : Prop :=
  ∀ i, i ∉ disk_winodes d → contents k' !! i = contents k !! i ∧ (clean k i → clean k' i).

(** No file lost its mark. *)
Definition marked k k' d d' : Prop :=
  synced_by d ⊆ synced_by d' ∧ ∀ i, clean k i → clean k' i ∨ i ∈ synced_by d'.

(** Bytes in the range may have changed, no other. *)
Definition touched k k' d d' (off n : Z) : Prop :=
  same_shape d d' ∧ framed k k' d ∧ spared (contents k) (contents k') d d' off n ∧
  (∀ j, off <= j < off + n → is_Some (disk_byte (contents k) d j) → is_Some (disk_byte (contents k') d' j)) ∧
  synced_by d ⊆ synced_by d'.

Lemma quiet_framed k k' d : quiet k k' → framed k k' d.
Proof. intros [Hc Hq] i _. split; [by rewrite Hc|auto]. Qed.
Lemma quiet_marked k k' d : quiet k k' → marked k k' d d.
Proof. intros [_ Hq]. split; [done|]. auto. Qed.
Lemma quiet_touched k k' d off n : disk_ok d → quiet k k' → touched k k' d d off n.
Proof.
  intros Hok Hq. pose proof (quiet_framed k k' d Hq). destruct Hq as [Hc _].
  do 2 (split; [done|]). split; [|split; [by rewrite Hc|done]]. intros j b _. by rewrite Hc.
Qed.

Lemma framed_trans k k1 k2 d d1 :
  disk_winodes d1 = disk_winodes d → framed k k1 d → framed k1 k2 d1 → framed k k2 d.
Proof.
  intros Hw Hf1 Hf2 i Hi. destruct (Hf1 i Hi) as [Hc1 Hq1]. destruct (Hf2 i) as [Hc2 Hq2]; [by rewrite Hw|].
  split; [congruence|auto].
Qed.
Lemma marked_trans k k1 k2 d d1 d2 : marked k k1 d d1 → marked k1 k2 d1 d2 → marked k k2 d d2.
Proof.
  intros [Hs1 Hm1] [Hs2 Hm2]. split; [set_solver|]. intros i Hi.
  destruct (Hm1 i Hi) as [Hc|Hin]; [by apply Hm2|right; set_solver].
Qed.
Lemma same_shape_trans d d1 d2 : same_shape d d1 → same_shape d1 d2 → same_shape d d2.
Proof. intros (_ & Hi1 & Hw1) (Hok & Hi2 & Hw2). split_and!; [done|congruence..]. Qed.

Lemma touched_weaken k k' d d' off n off' n' :
  touched k k' d d' off n → (0 < n → off' <= off ∧ off + n <= off' + n') → touched k k' d d' off' n'.
Proof.
  intros (Hsh & Hf & Hsp & Hin & Hs) Hsub. do 2 (split; [done|]). split_and!; [|intros j Hj [b Hb]|done].
  - intros j b Hj. apply Hsp. lia.
  - destruct (decide (off <= j < off + n)); [apply Hin; [done|by exists b]|]. exists b. by apply Hsp.
Qed.
Lemma touched_trans k k1 k2 d d1 d2 off n :
  touched k k1 d d1 off n → touched k1 k2 d1 d2 off n → touched k k2 d d2 off n.
Proof.
  intros (Hsh & Hf & Hsp & Hin & Hs) (Hsh' & Hf' & Hsp' & Hin' & Hs').
  split; [by eapply same_shape_trans|]. split; [eapply framed_trans; [apply Hsh|done..]|].
  split_and!; [|by auto|set_solver]. intros j b Hj Hb. by apply Hsp', Hsp.
Qed.
Lemma touched_readable k k' d d' off n lo m :
  touched k k' d d' off n → readable (contents k) d lo m → readable (contents k') d' lo m.
Proof.
  intros (_ & _ & Hsp & Hin & _) Hrd j Hj. specialize (Hrd j Hj).
  destruct (decide (off <= j < off + n)); [by apply Hin|]. destruct Hrd as [b Hb]. exists b. by apply Hsp.
Qed.

Lemma written_ext k1 k1' k k' d d' off bs m :
  contents k1 = contents k → contents k1' = contents k' →
  written k k' d d' off bs m → written k1 k1' d d' off bs m.
Proof. unfold written. by intros -> ->. Qed.

Lemma written_touched k k' d d' off bs m n :
  written k k' d d' off bs m → framed k k' d → synced_by d ⊆ synced_by d' → m <= n →
  touched k k' d d' off n.
Proof.
  intros Hwr Hf Hs Hmn. pose proof (written_readable _ _ _ _ _ _ _ off n Hwr) as Hrd.
  destruct Hwr as (Hm & Hsh & Hsp & Hok & Hi & Hw & _). split; [done|]. split; [done|]. split_and!; [| |done].
  - intros j b Hj. apply Hsp. lia.
  - intros j Hj [b Hb]. destruct (decide (off <= j < off + m)) as [Hin|Hout]; [|exists b; by apply Hsp].
    destruct (lookup_lt_is_Some_2 (takeZ m bs) (Z.to_nat (j - off))) as [c Hc].
    { pose proof (lengthZ_takeZ m bs). unfold lengthZ in *. lia. }
    exists c. rewrite <- (Hsh _ _ Hc). f_equal. lia.
Qed.
End effects.

Class AsyncLaws (K D : Type) `{HostFiles K} `{HostAsync K} `{AsyncDisk K D} `{DiskView D} `{SyncView D} : Prop := {
  async_ViewLaws :: ViewLaws D;
  read_to_mem_law gm (off : u64) it k (d : D) h r k' d' h' :
    gm_ok gm → disk_ok d → iter_ok gm it → off + lengthZ (iter_addrs it) < 2 ^ 64 →
    read_to_mem gm off it (k, d, h) = (r, (k', d', h')) →
    quiet k k' ∧ d' = d ∧
    match r with
    | Returns n =>
        ∃ bs, uval n = lengthZ bs ∧ n <= lengthZ (iter_addrs it) ∧ shows (contents k) d off bs ∧
          (∀ x, guest_byte gm h' x = StreamFacts.store (guest_byte gm h) (iter_addrs it) bs x) ∧
          (0 < lengthZ (iter_addrs it) → is_Some (disk_byte (contents k) d off) → 0 < n)
    | Throws e => h' = h ∧ (is_Some (disk_byte (contents k) d off) → disk_fault e)
    | Aborts => disk_byte (contents k) d off = None
    end;
  write_from_mem_law gm (off : u64) it k (d : D) h r k' d' h' :
    gm_ok gm → disk_ok d → iter_ok gm it → off + lengthZ (iter_addrs it) < 2 ^ 64 →
    write_from_mem gm off it (k, d, h) = (r, (k', d', h')) →
    h' = h ∧
    match r with
    | Returns n =>
        written k k' d d' off (bytes_at gm h (iter_addrs it)) n ∧ framed k k' d ∧ marked k k' d d' ∧
        (0 < lengthZ (iter_addrs it) → 0 < n)
    | Throws e => quiet k k' ∧ d' = d ∧ (is_Some (disk_byte (contents k) d off) → disk_fault e)
    | Aborts => disk_byte (contents k) d off = None
    end;
  punch_hole_law (off n : u64) k (d : D) r k' d' :
    disk_ok d → off + n < 2 ^ 64 → readable (contents k) d off n →
    punch_hole off n (k, d) = (r, (k', d')) →
    touched k k' d d' off n ∧
    match r with Returns _ => marked k k' d d' | Throws e => disk_fault e | Aborts => False end;
  write_zeroes_law (off n : u64) k (d : D) r k' d' :
    disk_ok d → off + n < 2 ^ 64 → readable (contents k) d off n →
    write_zeroes_at off n (k, d) = (r, (k', d')) →
    touched k k' d d' off n ∧
    match r with
    | Returns _ =>
        marked k k' d d' ∧
        ∀ j, off <= j < off + n → disk_byte (contents k') d' j = Some (U8 0)
    | Throws e => disk_fault e
    | Aborts => False
    end;
  async_fsync_law k (d : D) r k' d' :
    disk_ok d → async_fsync (k, d) = (r, (k', d')) ∨ async_fdatasync (k, d) = (r, (k', d')) →
    quiet k k' ∧ same_shape d d' ∧ (∀ σ j, disk_byte σ d' j = disk_byte σ d j) ∧
    (∀ i, i ∈ synced_by d → i ∈ synced_by d' ∨ clean k' i) ∧
    match r with
    | Returns _ => ∀ i, i ∈ synced_by d → clean k' i
    | Throws e => disk_fault e
    | Aborts => False
    end;
  async_flush_law k (d : D) : async_flush (k, d) = (Returns (), (k, d))
}.

(** ** Transfers of a file *)

Section poll_source.
Context {K : Type} `{HostLaws K} `{!HostAsync K, !HostAsyncLaws K}.
Context (gm : GuestMemory) (Hgm : gm_ok gm).

Lemma on_kernel_run {T E A} (m : prog K E A) k (t : T) r k' :
  m k = (r, k') → on_kernel m (k, t) = (r, (k', t)).
Proof. intros Hm. unfold on_kernel, zoom. cbn. by rewrite Hm. Qed.
Lemma on_guest_run {T E A} (m : prog host E A) (t : T) h r h' :
  m h = (r, h') → on_guest m (t, h) = (r, (t, h')).
Proof. intros Hm. unfold on_guest, zoom. cbn. by rewrite Hm. Qed.

Lemma poll_source_read f (off : u64) l rs (k : K) h r k' h' :
  collect_items l = Some rs → Forall (region_in (fits gm)) rs →
  PollSource_read_to_mem gm f off l (k, h) = (r, (k', h')) →
  quiet k k' ∧
  match r with
  | Returns n =>
      ∃ bs data, uval n = lengthZ bs ∧ n <= lengthZ (addrs rs) ∧
        contents k !! f_inode f = Some data ∧ bs `prefix_of` dropZ off data ∧
        (∀ x, guest_byte gm h' x = StreamFacts.store (guest_byte gm h) (addrs rs) bs x) ∧
        (0 < lengthZ (addrs rs) → off < lengthZ data → 0 < n)
  | Throws e => h' = h
  | Aborts => False
  end.
Proof using All.
  intros Hl Hrs. destruct (iovecs_spec (E := io_error) gm Hgm l rs h Hl Hrs) as (ss & Hrun & Hss).
  unfold PollSource_read_to_mem. rewrite (bind_returns _ _ _ _ _ (on_guest_run _ k _ _ _ Hrun)).
  unfold mbind at 1, prog_bind at 1.
  destruct (poll (preadv64 f (vs_size <$> ss) (as_off_t off)) (wait_readable f) k) as [o k1] eqn:E.
  erewrite on_kernel_run by exact E. apply poll_spec in E; [|intros ??? Hr; by destruct (preadv_law _ _ _ _ _ _ Hr)
    |apply wait_readable_law].
  destruct E as [(e & -> & Hq)|(k2 & Hq & Hcall & Hne)]; [by intros [= <- <- <-]|].
  destruct (preadv_law _ _ _ _ _ _ Hcall) as [Hq2 Ho].
  destruct o as [bs|e|]; [|by destruct (Hne e)|done].
  destruct Ho as (Hoff & Hlen & data & Hd & Hpre & Hprog). rewrite as_off_t_nonneg in Hpre, Hprog by done.
  rewrite (slices_size gm ss rs Hss) in Hlen, Hprog. destruct Hq as [Hc Hq]. rewrite Hc in Hd.
  intros [= <- <- <-]. split; [by apply (quiet_trans _ k2)|].
  assert (uval (U64 (lengthZ bs)) = lengthZ bs) as Hu.
  { apply uval_to_uint_small. pose proof (file_size_law _ _ _ Hd). pose proof (lengthZ_nonneg bs).
    destruct Hpre as [rest Hpre]. apply (f_equal lengthZ) in Hpre.
    pose proof (lengthZ_nonneg rest). pose proof (uint_range off).
    rewrite lengthZ_dropZ, lengthZ_app in Hpre by lia. cbn [Z.of_N] in *. lia. }
  exists bs, data. split_and!; [done|lia|done|done|by apply scatter_spec|].
  intros Hpos Hin. specialize (Hprog Hpos Hin). rewrite Hu. destruct bs; [done|]. rewrite lengthZ_cons.
  pose proof (lengthZ_nonneg bs). lia.
Qed.

Lemma poll_source_write f (off : u64) l rs (k : K) h r k' h' :
  collect_items l = Some rs → Forall (region_in (fits gm)) rs →
  PollSource_write_from_mem gm f off l (k, h) = (r, (k', h')) →
  h' = h ∧
  match r with
  | Returns n =>
      let bs := bytes_at gm h (addrs rs) in
      n <= lengthZ bs ∧ (0 < lengthZ (addrs rs) → 0 < n) ∧
      ∃ k1 data, quiet k k1 ∧ contents k1 !! f_inode f = Some data ∧
        changes f k1 k' (overwrite data off (takeZ n bs))
  | Throws e => quiet k k'
  | Aborts => False
  end.
Proof using All.
  intros Hl Hrs. destruct (iovecs_spec (E := io_error) gm Hgm l rs h Hl Hrs) as (ss & Hrun & Hss).
  unfold PollSource_write_from_mem. rewrite (bind_returns _ _ _ _ _ (on_guest_run _ k _ _ _ Hrun)).
  erewrite bind_returns by done. cbn beta iota.
  destruct (poll (pwritev64 f (gather ss h) (as_off_t off)) (wait_writable f) k) as [o k1] eqn:E.
  erewrite on_kernel_run by exact E. intros [= <- <- <-].
  split; [done|]. apply poll_spec in E; [|intros ??? Hr; by apply (pwritev_law _ _ _ _ _ _ Hr)
    |apply wait_writable_law].
  destruct E as [(e & -> & Hq)|(k2 & Hq & Hcall & Hne)]; [done|].
  pose proof (pwritev_law _ _ _ _ _ _ Hcall) as Ho.
  destruct o as [n|e|]; [|by destruct (Hne e)|done].
  rewrite (gather_spec gm ss rs h Hss) in Ho. destruct Ho as (Hoff & Hn & Hpos & data & Hd & Hch).
  rewrite as_off_t_nonneg in Hch by done. split_and!; [done| |by exists k2, data].
  intros Hlt. apply Hpos. intros Hnil. apply (f_equal lengthZ) in Hnil.
  rewrite lengthZ_bytes_at in Hnil. change (lengthZ []) with 0 in Hnil. lia.
Qed.
End poll_source.

(** ** A single file *)

#[global] Instance SingleFile_DiskView : DiskView SingleFileDisk := {|
  disk_ok _ := True;
  disk_rw _ _ := True;
  disk_byte σ d j := disk_byte σ (sf_inner d) j;
  disk_inodes d := disk_inodes (sf_inner d);
  disk_winodes d := disk_winodes (sf_inner d)
|}.
#[global] Instance SingleFile_SyncView : SyncView SingleFileDisk := λ d, {[ f_inode (sf_inner d) ]}.

Section single_file.
Context {K : Type} `{HostLaws K} `{!HostAsync K, !HostAsyncLaws K}.
Implicit Types (d : SingleFileDisk) (k : K).

Lemma single_byte σ d j data :
  σ !! f_inode (sf_inner d) = Some data → disk_byte σ d j = byte_at data j.
Proof. intros Hd. cbn. by rewrite Hd. Qed.

Lemma changes_framed k k' d data' : changes (sf_inner d) k k' data' → framed k k' d.
Proof.
  intros (Hw & Hc & Hcl) i Hi. cbn in Hi. rewrite Hw in Hi.
  split; [|apply Hcl; set_solver]. rewrite Hc, lookup_insert_ne; [done|set_solver].
Qed.
Lemma changes_marked k k' d data' : changes (sf_inner d) k k' data' → marked k k' d d.
Proof.
  intros (_ & _ & Hcl). split; [done|]. intros i Hi. destruct (decide (i = f_inode (sf_inner d))) as [->|Hne].
  - right. unfold synced_by, SingleFile_SyncView. set_solver.
  - left. by apply Hcl.
Qed.
(** A file of the same length that differs in a range only. *)
Lemma changes_touched k k' d data data' off n :
  contents k !! f_inode (sf_inner d) = Some data → changes (sf_inner d) k k' data' →
  lengthZ data <= lengthZ data' → (∀ j, ¬ (off <= j < off + n) → 0 <= j < lengthZ data → byte_at data' j = byte_at data j) →
  touched k k' d d off n.
Proof.
  intros Hd Hch Hl Hout. pose proof (changes_framed _ _ _ _ Hch) as Hf. destruct Hch as (Hw & Hc & _).
  assert (contents k' !! f_inode (sf_inner d) = Some data') as Hd' by (rewrite Hc; apply lookup_insert_eq).
  do 2 (split; [done|]). split; [|split; [|done]].
  - intros j b Hj. rewrite (single_byte _ _ _ _ Hd), (single_byte _ _ _ _ Hd'). intros Hb.
    rewrite Hout; [done|done|]. apply byte_at_is_Some. eauto.
  - intros j _. rewrite (single_byte _ _ _ _ Hd), (single_byte _ _ _ _ Hd'). rewrite !byte_at_is_Some. lia.
Qed.

Lemma changes_written k k' d data off bs (m : u64) :
  0 <= off → m <= lengthZ bs → contents k !! f_inode (sf_inner d) = Some data →
  changes (sf_inner d) k k' (overwrite data off (takeZ m bs)) → written k k' d d off bs m.
Proof.
  intros Hoff Hm Hd Hch. pose proof (changes_framed _ _ _ _ Hch) as Hf. destruct Hch as (Hw & Hc & _).
  pose proof (uint_range m). assert (lengthZ (takeZ m bs) = m) as Hl by (rewrite lengthZ_takeZ; lia).
  assert (contents k' !! f_inode (sf_inner d) = Some (overwrite data off (takeZ m bs))) as Hd'
    by (rewrite Hc; apply lookup_insert_eq).
  split_and!; [lia|lia| | |done..|by intros i Hi; apply Hf].
  - intros i b Hb. rewrite (single_byte _ _ _ _ Hd'). pose proof (lookup_lt_Some _ _ _ Hb).
    rewrite byte_at_overwrite_in by (unfold lengthZ in *; lia).
    replace (off + Z.of_nat i - off) with (Z.of_nat i) by lia. by rewrite byte_at_lookup.
  - intros j b Hj. rewrite (single_byte _ _ _ _ Hd), (single_byte _ _ _ _ Hd').
    intros Hb. apply byte_at_overwrite_out; [done| |done]. lia.
Qed.
End single_file.

(** Zeros written piece by piece. *)
Section zeroes.
Context {K : Type} `{HostLaws K} `{!HostAsync K, !HostAsyncLaws K}.
Implicit Types (d : SingleFileDisk) (k : K).

Lemma lookup_zeros n i b : zeros n !! i = Some b → b = U8 0.
Proof. unfold zeros. by intros [-> _]%lookup_replicate. Qed.

Lemma zeros_tail (len w m s : Z) :
  0 <= w → 0 <= m → m <= s → w + s <= len → takeZ m (zeros s) = takeZ m (dropZ w (zeros len)).
Proof.
  intros. unfold zeros. rewrite !takeZ_take, dropZ_drop, drop_replicate, !take_replicate. f_equal. lia.
Qed.

Lemma fill_zeroes_spec fuel : ∀ d (off len buf w : u64) k0 k r k',
  off + len < 2 ^ 64 → w <= len → 0 < buf → (Z.to_nat (len - w) ≤ fuel)%nat →
  written k0 k d d off (zeros len) w → framed k0 k d → marked k0 k d d →
  fill_zeroes fuel (sf_inner d) off len buf w k = (r, k') →
  ∃ m, written k0 k' d d off (zeros len) m ∧ framed k0 k' d ∧ marked k0 k' d d ∧
    match r with Returns _ => m = len | Throws e => disk_fault e | Aborts => False end.
Proof.
  induction fuel as [|fuel IH]; intros d off len buf w k0 k r k' Hlt Hw Hbuf Hfuel Hwr Hf Hm;
    cbn [fill_zeroes]; pose proof (uint_range w); pose proof (uint_range len) as Hlen;
    pose proof (uint_range off); cbn [Z.of_N] in *.
  all: destruct (Z.ltb_spec w len) as [Hwl|Hwl];
    [|intros [= <- <-]; exists len; assert (uval w = len) as Heq by lia; rewrite Heq in Hwr; by split_and!].
  { lia. }
  destruct (sub_checked len w) as [rem|] eqn:Erem; [apply sub_checked_Some in Erem|apply sub_checked_None in Erem; lia].
  destruct (add_checked off w) as [o|] eqn:Eo; [apply add_checked_Some in Eo|apply add_checked_None in Eo; cbn [Z.of_N] in Eo; lia].
  cbn [checked]. rewrite (bind_returns _ _ _ rem k) by done. rewrite (bind_returns _ _ _ o k) by done.
  set (ws := umin rem buf). assert (0 < ws <= len - w) as Hws by (unfold ws, umin; case_match; zbool; lia).
  clearbody ws. unfold mbind at 1, prog_bind at 1, map_err, PollSource_write_from_vec.
  destruct (poll _ _ k) as [r1 k1] eqn:E.
  apply poll_spec in E; [|intros ??? Hr; by apply (pwrite_async_law _ _ _ _ _ _ Hr)|apply wait_writable_law].
  destruct E as [(e & -> & Hq)|(k2 & Hq & Hcall & Hne)].
  { intros [= <- <-]. exists w. split_and!; [| | |done].
    - by eapply written_ext; [|apply Hq|exact Hwr].
    - eapply framed_trans; [done|done|]. by apply quiet_framed.
    - eapply marked_trans; [done|]. by apply quiet_marked. }
  pose proof (pwrite_async_law _ _ _ _ _ _ Hcall) as Ho. destruct r1 as [n|e|]; [|by destruct (Hne e)|done].
  destruct Ho as (Hoff & Hn & Hpos & data & Hd & Hch). rewrite as_off_t_nonneg in Hch by done.
  rewrite lengthZ_zeros in Hn by lia. pose proof (uint_range n).
  assert (0 < n) as Hn0. { apply Hpos. unfold zeros. destruct (Z.to_nat ws) eqn:?; [lia|done]. }
  destruct (add_checked w n) as [w'|] eqn:Ew; [apply add_checked_Some in Ew|apply add_checked_None in Ew; cbn [Z.of_N] in Ew; lia].
  rewrite (bind_returns _ _ _ w' k1) by done.
  assert (written k k1 d d (off + w) (dropZ w (zeros len)) n) as Hwr1.
  { rewrite (zeros_tail len w n ws) in Hch by lia. rewrite <- Eo.
    apply (changes_written k2 k1 d data) in Hch as Hwr2; [|lia|rewrite lengthZ_dropZ, lengthZ_zeros by lia; lia|done].
    eapply written_ext; [symmetry; apply Hq|done|done]. }
  apply changes_framed in Hch as Hf1. apply changes_marked in Hch as Hm1.
  intros E. eapply (IH d off len buf w' k0) in E; [done|done|lia|done|lia| | |].
  - rewrite Ew. eapply written_step; done.
  - eapply framed_trans; [done|done|]. eapply (framed_trans k k2 k1 d d); [done|by apply quiet_framed|done].
  - eapply marked_trans; [done|]. eapply (marked_trans k k2 k1 d d d); [by apply quiet_marked|done].
Qed.

Lemma lengthZ_overwrite data off bs :
  0 <= off → off + lengthZ bs <= lengthZ data → lengthZ (overwrite data off bs) = lengthZ data.
Proof.
  intros ? Hin. pose proof (lengthZ_nonneg bs). unfold overwrite.
  rewrite !lengthZ_app, lengthZ_takeZ, lengthZ_dropZ by lia. unfold lengthZ at 2.
  rewrite length_replicate. lia.
Qed.

Lemma zeroed_spec data off len :
  0 <= off → 0 <= len →
  lengthZ (zeroed data off len) = lengthZ data ∧
  (∀ j, ¬ (off <= j < off + len) → 0 <= j < lengthZ data → byte_at (zeroed data off len) j = byte_at data j) ∧
  (∀ j, off <= j < off + len → j < lengthZ data → byte_at (zeroed data off len) j = Some (U8 0)).
Proof.
  intros Hoff Hlen. unfold zeroed. destruct (Z.ltb_spec off (lengthZ data)); [|split_and!; [done|done|lia]].
  set (n := Z.min len (lengthZ data - off)). assert (lengthZ (zeros n) = n) as Hz by (apply lengthZ_zeros; lia).
  split_and!; [apply lengthZ_overwrite; lia| |].
  - intros j Hj Hin. assert (is_Some (byte_at data j)) as [b Hb] by (by apply byte_at_is_Some).
    rewrite Hb. apply byte_at_overwrite_out; [done|lia|done].
  - intros j Hj Hin. rewrite byte_at_overwrite_in by lia. unfold zeros. apply byte_at_replicate. lia.
Qed.

(** The whole range lies in the file. *)
Lemma readable_data k d data off n :
  contents k !! f_inode (sf_inner d) = Some data → readable (contents k) d off n → 0 < n →
  0 <= off ∧ off + n <= lengthZ data.
Proof.
  intros Hd Hrd Hn. pose proof (Hrd off ltac:(lia)) as Hlo. pose proof (Hrd (off + n - 1) ltac:(lia)) as Hhi.
  erewrite single_byte, byte_at_is_Some in Hlo, Hhi by done. lia.
Qed.

Lemma on_mem_run {E A} (m : File → prog (K * host) E A) k d h :
  on_mem m (k, d, h) = let '(r, (k', h')) := m (sf_inner d) (k, h) in (r, (k', d, h')).
Proof. unfold on_mem, beside, zoom. run_prog. cbn. by destruct (m (sf_inner d) (k, h)) as [r [k' h']]. Qed.
Lemma on_file_run {E A} (m : File → prog K E A) k d :
  on_file m (k, d) = let '(r, k') := m (sf_inner d) k in (r, (k', d)).
Proof. unfold on_file, on_kernel, zoom. run_prog. cbn. by destruct (m (sf_inner d) k). Qed.

(** [fallocate] with a mode that leaves zeros. *)
Lemma fallocate_spec d mode (off n : u64) k r k' :
  mode ≠ Allocate → readable (contents k) d off n →
  fallocate (sf_inner d) mode off n k = (r, k') →
  touched k k' d d off n ∧ marked k k' d d ∧
  match r with
  | Returns _ => ∀ j, off <= j < off + n → disk_byte (contents k') d j = Some (U8 0)
  | Throws _ => quiet k k'
  | Aborts => False
  end.
Proof.
  intros Hmode Hrd. pose proof (uint_range off). pose proof (uint_range n).
  assert (quiet k k' → touched k k' d d off n ∧ marked k k' d d) as Hquiet
    by (intros Hq; split; [by apply quiet_touched|by apply quiet_marked]).
  unfold fallocate. destruct (2 ^ 63 <=? off).
  { intros [= <- <-]. destruct Hquiet; [apply quiet_refl|]. split_and!; [done|done|apply quiet_refl]. }
  destruct (2 ^ 63 <=? n).
  { intros [= <- <-]. destruct Hquiet; [apply quiet_refl|]. split_and!; [done|done|apply quiet_refl]. }
  intros E. pose proof (fallocate_law _ _ _ _ _ _ _ E) as Ho.
  destruct r as [[]|e|]; [|by destruct (Hquiet Ho); split_and!|done].
  assert (∃ data, contents k !! f_inode (sf_inner d) = Some data ∧
    changes (sf_inner d) k k' (zeroed data off n)) as (data & Hd & Hch) by (by destruct mode).
  destruct (zeroed_spec data off n) as (Hl & Hout & Hin); [lia|lia|].
  split_and!; [eapply changes_touched; [done|done|lia|done]|by eapply changes_marked|].
  intros j Hj. pose proof (readable_data k d data off n Hd Hrd ltac:(lia)).
  destruct Hch as (_ & Hc & _). erewrite single_byte by (rewrite Hc; apply lookup_insert_eq).
  apply Hin; [done|lia].
Qed.
End zeroes.

#[global] Instance SingleFile_ViewLaws : ViewLaws SingleFileDisk.
Proof.
  split.
  - intros d. apply (winodes_inodes (sf_inner d)).
  - intros σ σ' d j. apply (byte_frame σ σ' (sf_inner d)).
Qed.

Section single_laws.
Context {K : Type} `{HostLaws K} `{!HostAsync K, !HostAsyncLaws K}.
Implicit Types (d : SingleFileDisk) (k : K).

Lemma single_read_law gm (off : u64) it k d h r k' d' h' :
  gm_ok gm → iter_ok gm it → SingleFile_read_to_mem gm off it (k, d, h) = (r, (k', d', h')) →
  quiet k k' ∧ d' = d ∧
  match r with
  | Returns n =>
      ∃ bs, uval n = lengthZ bs ∧ n <= lengthZ (iter_addrs it) ∧ shows (contents k) d off bs ∧
        (∀ x, guest_byte gm h' x = StreamFacts.store (guest_byte gm h) (iter_addrs it) bs x) ∧
        (0 < lengthZ (iter_addrs it) → is_Some (disk_byte (contents k) d off) → 0 < n)
  | Throws e => h' = h ∧ disk_fault e
  | Aborts => False
  end.
Proof.
  intros Hgm Hit. destruct (items_of_spec gm Hgm it Hit) as (rs & Hl & Hrs & Ha).
  unfold SingleFile_read_to_mem. rewrite on_mem_run. unfold map_err.
  destruct (PollSource_read_to_mem gm _ off _ (k, h)) as [o [k1 h1]] eqn:E.
  apply (poll_source_read gm Hgm _ _ _ rs) in E as [Hq Ho]; [|done|done]. rewrite Ha in Ho.
  destruct o as [n|e|]; intros [= <- <- <- <-]; [|by split_and!|done].
  destruct Ho as (bs & data & Hn & Hle & Hd & Hpre & Hg & Hpos). do 2 (split; [done|]).
  exists bs. split_and!; [done|done| |done|].
  - intros i b Hb. pose proof (uint_range off). rewrite (single_byte _ _ _ _ Hd).
    rewrite <- byte_at_dropZ, byte_at_lookup by lia. eapply prefix_lookup_Some; eauto.
  - intros Hlt Hs. rewrite (single_byte _ _ _ _ Hd), byte_at_is_Some in Hs. apply Hpos; [done|lia].
Qed.

Lemma single_write_law gm (off : u64) it k d h r k' d' h' :
  gm_ok gm → iter_ok gm it → SingleFile_write_from_mem gm off it (k, d, h) = (r, (k', d', h')) →
  h' = h ∧
  match r with
  | Returns n =>
      written k k' d d' off (bytes_at gm h (iter_addrs it)) n ∧ framed k k' d ∧ marked k k' d d' ∧
      (0 < lengthZ (iter_addrs it) → 0 < n)
  | Throws e => quiet k k' ∧ d' = d ∧ disk_fault e
  | Aborts => False
  end.
Proof.
  intros Hgm Hit. destruct (items_of_spec gm Hgm it Hit) as (rs & Hl & Hrs & Ha).
  unfold SingleFile_write_from_mem. rewrite on_mem_run. unfold map_err.
  destruct (PollSource_write_from_mem gm _ off _ (k, h)) as [o [k1 h1]] eqn:E.
  apply (poll_source_write gm Hgm _ _ _ rs) in E as [-> Ho]; [|done|done]. rewrite Ha in Ho.
  destruct o as [n|e|]; intros [= <- <- <- <-]; [|by split_and!|done].
  destruct Ho as (Hn & Hpos & k2 & data & Hq & Hd & Hch). split; [done|]. pose proof (uint_range off).
  split_and!; [| | |done].
  - eapply written_ext; [symmetry; apply Hq|done|]. apply (changes_written _ _ _ data); [lia|done..].
  - eapply (framed_trans k k2); [done|by apply quiet_framed|by eapply changes_framed].
  - eapply (marked_trans k k2); [by apply quiet_marked|by eapply changes_marked].
Qed.

Lemma single_punch_law (off n : u64) k d r k' d' :
  readable (contents k) d off n → SingleFile_punch_hole off n (k, d) = (r, (k', d')) →
  touched k k' d d' off n ∧ marked k k' d d' ∧
  match r with Returns _ => True | Throws e => disk_fault e | Aborts => False end.
Proof.
  intros Hrd. unfold SingleFile_punch_hole. rewrite (bind_returns _ _ _ (k, d) (k, d)) by done. cbn beta iota.
  destruct (is_block_device_file d); rewrite on_file_run; unfold map_err.
  - destruct (ioctl_blkdiscard _ _ _ _) as [o k1] eqn:E. pose proof (blkdiscard_law _ _ _ _ _ _ E) as Ho.
    destruct o as [[]|e|]; intros [= <- <- <-];
      [|split_and!; [by apply quiet_touched|by apply quiet_marked|done]|done].
    destruct Ho as (data & data' & Hd & Hch & Hl & Hout).
    split_and!; [|by eapply changes_marked|done]. eapply changes_touched; [done|done|lia|auto].
  - destruct (fallocate _ _ _ _ _) as [o k1] eqn:E. apply fallocate_spec in E as (Ht & Hm & Ho); [|done|done].
    destruct o as [[]|e|]; intros [= <- <- <-]; by split_and!.
Qed.

Lemma single_zeroes_law (off n : u64) k d r k' d' :
  off + n < 2 ^ 64 → readable (contents k) d off n →
  SingleFile_write_zeroes_at off n (k, d) = (r, (k', d')) →
  touched k k' d d' off n ∧
  match r with
  | Returns _ => marked k k' d d' ∧ ∀ j, off <= j < off + n → disk_byte (contents k') d' j = Some (U8 0)
  | Throws e => disk_fault e
  | Aborts => False
  end.
Proof.
  intros Hlt Hrd. unfold SingleFile_write_zeroes_at. unfold mbind, prog_bind, attempt. rewrite on_file_run.
  destruct (fallocate _ _ _ _ _) as [o k1] eqn:E. apply fallocate_spec in E as (Ht & Hm & Ho); [|done|done].
  destruct o as [[]|e|]; [intros [= <- <- <-]; by split_and!| |done].
  rewrite on_file_run. destruct (fill_zeroes _ _ _ _ _ _ k1) as [o k2] eqn:E. intros [= <- <- <-].
  pose proof (uint_range n) as Hn. destruct (decide (uval n = 0)) as [Hz|Hnz].
  { assert (o = Returns () ∧ k2 = k1) as [-> ->].
    { destruct (Z.to_nat n); cbn [fill_zeroes] in E; change (uval (U64 0)) with 0 in E;
        rewrite Hz in E; by injection E as <- <-. }
    split_and!; [done|done|lia]. }
  eapply (fill_zeroes_spec _ d off n _ (U64 0) k k1) in E.
  - destruct E as (m & Hwr & Hf & Hmk & Hr). pose proof Hwr as (Hmb & _).
    rewrite lengthZ_zeros in Hmb by lia. split; [by eapply written_touched; [done|done|apply Hmk|lia]|].
    destruct o as [[]|e'|]; [|done|done]. split; [done|]. intros j Hj. destruct Hwr as (_ & Hsh & _).
    rewrite Hr, takeZ_all in Hsh by (rewrite lengthZ_zeros; lia).
    destruct (lookup_lt_is_Some_2 (zeros n) (Z.to_nat (j - off))) as [b Hb].
    { unfold zeros. rewrite length_replicate. lia. }
    rewrite (lookup_zeros _ _ _ Hb) in Hb. rewrite <- (Hsh _ _ Hb). f_equal. lia.
  - done.
  - change (uval (U64 0)) with 0. lia.
  - unfold umin. change (uval (U64 0x10000)) with 65536. case_match; zbool; [lia|done].
  - change (uval (U64 0)) with 0. lia.
  - change (uval (U64 0)) with 0. apply written_0; [done|apply Ho].
  - by apply quiet_framed.
  - by apply quiet_marked.
Qed.

#[global] Instance SingleFile_AsyncLaws : AsyncLaws K SingleFileDisk.
Proof.
  split.
  - apply _.
  - intros gm off it k d h r k' d' h' Hgm _ Hit _ E. apply single_read_law in E as (Hq & Hd & Ho); [|done|done].
    split_and!; [done|done|]. destruct r as [n|e|]; [done|by destruct Ho|done].
  - intros gm off it k d h r k' d' h' Hgm _ Hit _ E. apply single_write_law in E as [Hh Ho]; [|done|done].
    split; [done|]. destruct r as [n|e|]; [done|by destruct Ho as (? & ? & ?)|done].
  - intros off n k d r k' d' _ _ Hrd E. apply single_punch_law in E as (Ht & Hm & Hr); [|done].
    split; [done|]. by destruct r.
  - intros off n k d r k' d' _. apply single_zeroes_law.
  - intros k d r k' d' _ E. cbn [async_fsync async_fdatasync SingleFile_AsyncDisk] in E.
    rewrite !on_file_run in E. unfold map_err in E.
    assert (quiet k k' ∧ d' = d ∧
      match r with Returns _ => clean k' (f_inode (sf_inner d)) | Throws e => disk_fault e | Aborts => False end) as (Hq & -> & Hr).
    { destruct E as [E|E].
      - destruct (sys_fsync _ _) as [o k1] eqn:Es. apply fsync_law in Es as [Hq Ho].
        destruct o as [[]|e|]; injection E as <- <- <-; by split_and!.
      - destruct (sys_fdatasync _ _) as [o k1] eqn:Es. apply fdatasync_law in Es as [Hq Ho].
        destruct o as [[]|e|]; injection E as <- <- <-; by split_and!. }
    split_and!; [done..|auto|]. destruct r as [[]|e|]; [|done|done].
    intros i Hi. unfold synced_by, SingleFile_SyncView in Hi. apply elem_of_singleton in Hi as ->. done.
  - done.
Qed.
End single_laws.

(** ** Bytes that go to the first of the addresses *)

Lemma store_takeZ m l bs n x :
  lengthZ bs <= n → StreamFacts.store m (takeZ n l) bs x = StreamFacts.store m l bs x.
Proof.
  intros Hn. rewrite <- (takeZ_dropZ n l) at 2. rewrite store_app.
  destruct (Z.le_gt_cases (lengthZ bs) (lengthZ (takeZ n l))) as [Hle|Hgt].
  - by rewrite (takeZ_all _ bs), (dropZ_all _ bs), store_nil by done.
  - assert (dropZ n l = []) as ->.
    { pose proof (lengthZ_nonneg bs). apply dropZ_all. rewrite lengthZ_takeZ in Hgt by lia. lia. }
    cbn. clear. revert m bs. induction (takeZ n l) as [|a l' IH]; intros m [|b bs]; [done..|].
    unfold lengthZ. cbn [length StreamFacts.store takeZ].
    destruct (Z.leb_spec (Z.of_nat (S (length l'))) 0); [lia|]. cbn [StreamFacts.store].
    replace (Z.of_nat (S (length l')) - 1) with (lengthZ l') by (unfold lengthZ; lia). apply IH.
Qed.

Lemma bytes_at_takeZ gm h n l : bytes_at gm h (takeZ n l) = takeZ n (bytes_at gm h l).
Proof. unfold bytes_at. by rewrite !takeZ_take, firstn_map. Qed.

Lemma takeZ_min {A} n (l : list A) : 0 <= n → takeZ (Z.min (lengthZ l) n) l = takeZ n l.
Proof.
  intros Hn. destruct (Z.le_gt_cases (lengthZ l) n).
  - rewrite Z.min_l, !takeZ_all by lia. done.
  - by rewrite Z.min_r by lia.
Qed.

(** ** Sparse images *)

#[global] Instance Sparse_SyncView : SyncView AndroidSparse := λ _, ∅.

Section sparse.
Context {K : Type} `{HostLaws K} `{!HostAsync K, !HostAsyncLaws K}.
Context (gm : GuestMemory) (Hgm : gm_ok gm).
Implicit Types (d : AndroidSparse) (k : K).

Lemma total_len_spec l rs :
  collect_items l = Some rs → lengthZ (addrs rs) < 2 ^ 64 →
  ∃ n, total_len l = Some n ∧ uval n = lengthZ (addrs rs).
Proof.
  intros Hl Hlt. unfold total_len. rewrite Hl. cbn. by apply (sum_lengths_spec rs (U64 0)).
Qed.

Lemma fill_regions_spec l rs bs h :
  collect_items l = Some rs → Forall (region_in (fits gm)) rs →
  ∃ h', fill_regions gm l bs h = (Returns (), h') ∧
    ∀ x, guest_byte gm h' x = StreamFacts.store (guest_byte gm h) (addrs rs) bs x.
Proof using Hgm.
  revert rs bs h. induction l as [| |r l IH]; intros rs bs h; cbn [collect_items fill_regions].
  - intros [= <-] _. by exists h.
  - done.
  - destruct (collect_items l) as [rs'|]; [|done]. cbn. intros [= <-] [Hr Hrs]%Forall_cons.
    destruct (get_slice_run gm Hgm (rg_offset r) (rg_len r) h Hr) as (s & Hs & Hfor).
    rewrite (bind_returns _ _ _ s h) by (unfold map_err, get_volatile_slice; by rewrite Hs).
    rewrite (bind_returns _ _ _ h h) by done. set (h1 := host_write _ _ _ h).
    rewrite (bind_returns _ _ _ () h1) by done.
    destruct (IH rs' (dropZ (rg_len r) bs) h1 eq_refl Hrs) as (h' & Hrun & Hg).
    exists h'. split; [done|]. intros x. rewrite Hg, addrs_cons, store_app, lengthZ_region_addrs.
    apply store_ext. by apply (slice_write_spec gm s r).
Qed.

Lemma zero_regions_spec l rs h :
  collect_items l = Some rs → Forall (region_in (fits gm)) rs →
  ∃ h', zero_regions gm l h = (Returns (), h') ∧
    ∀ x, guest_byte gm h' x = StreamFacts.store (guest_byte gm h) (addrs rs) (zeros (lengthZ (addrs rs))) x.
Proof using Hgm.
  revert rs h. induction l as [| |r l IH]; intros rs h; cbn [collect_items zero_regions].
  - intros [= <-] _. by exists h.
  - done.
  - destruct (collect_items l) as [rs'|]; [|done]. cbn. intros [= <-] [Hr Hrs]%Forall_cons.
    destruct (get_slice_run gm Hgm (rg_offset r) (rg_len r) h Hr) as (s & Hs & Hfor).
    rewrite (bind_returns _ _ _ s h) by (unfold map_err, get_volatile_slice; by rewrite Hs).
    rewrite (bind_returns _ _ _ h h) by done. set (h1 := host_write _ _ _ h).
    rewrite (bind_returns _ _ _ () h1) by done.
    destruct (IH rs' h1 eq_refl Hrs) as (h' & Hrun & Hg).
    exists h'. split; [done|]. intros x. rewrite Hg, addrs_cons, store_app, lengthZ_app, lengthZ_region_addrs.
    pose proof (uint_range (rg_len r)). pose proof (lengthZ_nonneg (addrs rs')).
    assert (zeros (rg_len r + lengthZ (addrs rs')) = zeros (rg_len r) ++ zeros (lengthZ (addrs rs'))) as Hz.
    { unfold zeros. rewrite <- replicate_add. f_equal. lia. }
    assert (lengthZ (zeros (rg_len r)) = rg_len r) as Hlz by (apply lengthZ_zeros; lia).
    rewrite Hz, takeZ_app_eq, dropZ_app_eq by done. apply store_ext. intros y. unfold h1.
    pose proof (proj1 Hfor) as Hsize. rewrite Hsize. rewrite <- (takeZ_all (rg_len r) (zeros (rg_len r))) by lia.
    by apply (slice_write_spec gm s r).
Qed.

(** A transfer from a chunk. *)
Lemma chunk_to_mem d c l rs (co mem_size : u64) k h r k' d' h' :
  let data := default [] (contents k !! f_inode (as_file d)) in
  collect_items l = Some rs → Forall (region_in (fits gm)) rs → uval mem_size = lengthZ (addrs rs) →
  chunk_ok c →
  match chunk c with
  | DontCare => on_guest (zero_regions gm l);; mret mem_size
  | Raw offset =>
      pos ← checked (add_checked offset co);
      beside (map_err ReadToMem (PollSource_read_to_mem gm (as_file d) pos l))
  | Fill fill_bytes =>
      let chunk_offset_mod := uval co mod lengthZ fill_bytes in
      let filled_memory := cycle_from fill_bytes chunk_offset_mod (Z.to_nat (uval mem_size)) in
      on_guest (fill_regions gm l filled_memory);; mret mem_size
  end (k, d, h) = (r, (k', d', h')) →
  quiet k k' ∧ d' = d ∧
  match r with
  | Returns n =>
      ∃ bs, uval n = lengthZ bs ∧ n <= mem_size ∧
        (∀ i b, bs !! i = Some b → chunk_byte data (chunk c) (co + Z.of_nat i) = Some b) ∧
        (∀ x, guest_byte gm h' x = StreamFacts.store (guest_byte gm h) (addrs rs) bs x) ∧
        (0 < mem_size → is_Some (chunk_byte data (chunk c) co) → 0 < n)
  | Throws e => h' = h ∧ disk_fault e
  | Aborts => chunk_byte data (chunk c) co = None
  end.
Proof using All.
  intros data Hl Hrs Hms Hok. pose proof (uint_range mem_size) as Hmr. unfold chunk_ok in Hok.
  destruct (chunk c) as [offset|fill|] eqn:Ec.
  - destruct (add_checked offset co) as [pos|] eqn:Hpos.
    + apply add_checked_Some in Hpos. cbn [checked]. rewrite (bind_returns _ _ _ pos (k, d, h)) by done.
      unfold beside, zoom, map_err. cbn [fst snd].
      destruct (PollSource_read_to_mem _ _ _ _ _) as [o [k1 h1]] eqn:E.
      apply (poll_source_read gm Hgm _ _ _ rs) in E as [Hq Ho]; [|done|done].
      destruct o as [n|e|]; intros [= <- <- <- <-]; [|by split_and!|done].
      destruct Ho as (bs & data' & Hn & Hle & Hd & Hpre & Hg & Hprog). do 2 (split; [done|]).
      assert (data = data') as -> by (unfold data; by rewrite Hd).
      exists bs. pose proof (uint_range pos). split_and!; [done|lia| |done|].
      * intros i b Hb. cbn [chunk_byte]. rewrite Z.add_assoc, <- Hpos, <- byte_at_dropZ, byte_at_lookup by lia.
        eapply prefix_lookup_Some; eauto.
      * cbn [chunk_byte]. rewrite byte_at_is_Some, <- Hpos. intros ??. apply Hprog; lia.
    + apply add_checked_None in Hpos. cbn [checked]. intros [= <- <- <- <-]. do 2 (split; [done|]).
      assert (lengthZ data < 2 ^ 63) as Hd.
      { unfold data. destruct (_ !! _) eqn:Hd; [by apply file_size_law in Hd|done]. }
      clearbody data. cbn [chunk_byte Z.of_N] in *. destruct (byte_at _ _) eqn:Eb; [|done].
      assert (is_Some (byte_at data (offset + co))) as Hb by eauto. apply byte_at_is_Some in Hb. lia.
  - set (bs := cycle_from fill (uval co mod lengthZ fill) (Z.to_nat mem_size)).
    destruct (fill_regions_spec l rs bs h Hl Hrs) as (h1 & Hrun & Hg). cbv zeta.
    rewrite (bind_returns _ _ _ () (k, d, h1)) by (by apply on_guest_run). intros [= <- <- <- <-].
    do 2 (split; [done|]). exists bs.
    assert (lengthZ bs = mem_size) as Hlen.
    { unfold bs, lengthZ, cycle_from. rewrite length_fmap, length_seq. lia. }
    split_and!; [done|lia| |done|done].
    intros i b Hb. unfold bs, lengthZ in Hb. rewrite Hok in Hb. change (Z.of_nat 4) with 4 in Hb.
    apply cycle_from_lookup in Hb as [Hb _]; [|done|apply Z.mod_pos_bound; lia]. cbn [chunk_byte].
    by rewrite Z.add_mod_idemp_l in Hb by lia.
  - destruct (zero_regions_spec l rs h Hl Hrs) as (h1 & Hrun & Hg).
    rewrite (bind_returns _ _ _ () (k, d, h1)) by (by apply on_guest_run). intros [= <- <- <- <-].
    do 2 (split; [done|]). exists (zeros (lengthZ (addrs rs))). pose proof (lengthZ_nonneg (addrs rs)).
    split_and!; [by rewrite lengthZ_zeros by lia|lia| |done|done].
    intros i b Hb%lookup_zeros. by subst b.
Qed.
End sparse.

Section sparse_laws.
Context {K : Type} `{HostLaws K} `{!HostAsync K, !HostAsyncLaws K}.
Implicit Types (d : AndroidSparse) (k : K).

Lemma sparse_read_law gm (off : u64) it k d h r k' d' h' :
  gm_ok gm → disk_ok d → iter_ok gm it → Sparse_read_to_mem gm off it (k, d, h) = (r, (k', d', h')) →
  quiet k k' ∧ d' = d ∧
  match r with
  | Returns n =>
      ∃ bs, uval n = lengthZ bs ∧ n <= lengthZ (iter_addrs it) ∧ shows (contents k) d off bs ∧
        (∀ x, guest_byte gm h' x = StreamFacts.store (guest_byte gm h) (iter_addrs it) bs x) ∧
        (0 < lengthZ (iter_addrs it) → is_Some (disk_byte (contents k) d off) → 0 < n)
  | Throws e => h' = h ∧ (is_Some (disk_byte (contents k) d off) → disk_fault e)
  | Aborts => disk_byte (contents k) d off = None
  end.
Proof.
  intros Hgm Hok Hit. unfold Sparse_read_to_mem.
  rewrite (bind_returns _ _ _ (k, d, h) (k, d, h)) by done. cbn beta iota.
  pose proof (chunk_at_spec (contents k) d off Hok) as Hat. destruct (last_chunk off _) as [[key c]|].
  2: { intros [= <- <- <- <-]. do 3 (split; [done|]). rewrite Hat. by intros []%is_Some_None. }
  destruct Hat as (Hc & Hle & Hpast & Hbyte & Hshow).
  rewrite (bind_returns _ _ _ (key, c) (k, d, h)) by done. cbn beta iota.
  destruct (sub_checked off key) as [co|] eqn:Hco; [|apply sub_checked_None in Hco; lia].
  apply sub_checked_Some in Hco. rewrite <- Hco in *. pose proof (uint_range co) as Hcor.
  cbn [checked]. rewrite (bind_returns _ _ _ co (k, d, h)) by done.
  destruct (sub_checked (expanded_size c) co) as [rest|] eqn:Hrest.
  2: { apply sub_checked_None in Hrest. intros [= <- <- <- <-]. do 2 (split; [done|]). apply Hpast. lia. }
  apply sub_checked_Some in Hrest. rewrite (bind_returns _ _ _ rest (k, d, h)) by done.
  pose proof (lengthZ_iter_addrs (take_bytes it rest)) as Hlen. pose proof (uint_range rest) as Hrr.
  destruct (items_of_spec gm Hgm _ (take_bytes_ok gm it rest Hit)) as (rs & Hl & Hrs & Ha).
  rewrite <- Ha in Hlen. destruct (total_len_spec _ rs Hl ltac:(lia)) as (ms & Hms & Hmsv). cbv zeta.
  rewrite Hms. cbn [checked]. rewrite (bind_returns _ _ _ ms (k, d, h)) by done.
  intros E. apply (chunk_to_mem gm Hgm _ _ _ rs) in E as (Hq & Hd & Hr); [|done..]. split_and!; [done..|].
  rewrite Ha, take_bytes_addrs in Hmsv, Hr. rewrite lengthZ_takeZ in Hmsv by lia.
  destruct r as [n|e|]; [|by destruct Hr|].
  - destruct Hr as (bs & Hn & Hnle & Hbs & Hg & Hprog). exists bs. split_and!; [done|lia| | |].
    + apply Hshow; [lia|done].
    + intros x. rewrite Hg. apply store_takeZ. lia.
    + intros Hpos Hs. destruct (Z.le_gt_cases (expanded_size c) co) as [Hge|Hlt].
      * rewrite Hpast in Hs by done. by destruct Hs.
      * apply Hprog; [lia|]. by rewrite <- Hbyte.
  - destruct (Z.le_gt_cases (expanded_size c) co) as [Hge|Hlt]; [by apply Hpast|]. by rewrite Hbyte.
Qed.

Lemma throws_inv {S E A} e (s : S) r s' : throw (A := A) (e : E) s = (r, s') → r = Throws e ∧ s' = s.
Proof. by intros [= <- <-]. Qed.

#[global] Instance Sparse_AsyncLaws : AsyncLaws K AndroidSparse.
Proof.
  split.
  - apply _.
  - intros gm off it k d h r k' d' h' Hgm Hok Hit _. by apply sparse_read_law.
  - intros gm off it k d h r k' d' h' Hgm _ Hit _ [-> [= -> -> ->]]%throws_inv. split_and!; [done..|by intros].
  - intros off n k d r k' d' Hok _ _ [-> [= -> ->]]%throws_inv.
    split; [by apply quiet_touched|done].
  - intros off n k d r k' d' Hok _ _ [-> [= -> ->]]%throws_inv. split; [by apply quiet_touched|done].
  - intros k d r k' d' Hok [[= <- <- <-]|[= <- <- <-]]; split_and!; try done; intros i Hi; set_solver.
  - done.
Qed.
End sparse_laws.
