(* ===== verification/AsyncComposite.v ===== *)
(** * Composite disks keep the asynchronous contract

    If its components keep the contract of [AsyncDisk], a composite disk does: the
    loops over the components of a range, the flags [needs_fsync] and the transfers
    that end at a component. *)

From S2P Require Import Prelude StdIo Checked Bits GuestMemory GuestMemoryFacts DescriptorUtils StreamFacts.
From S2P Require Import DiskFile DiskFacts SparseImage SparseFacts CompositeDisk CompositeFacts.
From S2P Require Import AsyncDisk AsyncFacts.

Definition part_synced {D} `{SyncView D} (p : ComponentDiskPart D) : gset Z :=
  if needs_fsync p then synced_by (part_file p) else ∅.

#[global] Instance Composite_SyncView {D} `{SyncView D} : SyncView (CompositeDiskFile D) :=
  λ c, ⋃ (part_synced <$> component_disks c).

(** *** A component is replaced *)

Section replace.
Context {K D : Type} `{HostFiles K} `{HostAsync K} `{DiskView D} `{SyncView D} `{!ViewLaws D}.
Implicit Types (c : CompositeDiskFile D) (p q : ComponentDiskPart D) (k : K).

Definition replace c i q : CompositeDiskFile D := mkComposite (<[i := q]> (component_disks c)).

(** [q] is [p] after an operation on its disk. *)
Definition moved p q : Prop :=
  part_offset q = part_offset p ∧ part_length q = part_length p ∧ same_shape (part_file p) (part_file q).

Lemma elem_of_synced c z :
  z ∈ synced_by c ↔ ∃ i p, component_disks c !! i = Some p ∧ z ∈ part_synced p.
Proof.
  unfold synced_by, Composite_SyncView. rewrite elem_of_union_list. split.
  - intros (X & HX & Hz). apply list_elem_of_fmap in HX as (p & -> & Hp).
    apply list_elem_of_lookup in Hp as [i Hi]. eauto.
  - intros (i & p & Hp & Hz). exists (part_synced p). split; [|done].
    apply list_elem_of_fmap_2. by eapply list_elem_of_lookup_2.
Qed.

Lemma replace_lookup c i p q :
  component_disks c !! i = Some p → component_disks (replace c i q) !! i = Some q.
Proof. intros Hp. apply list_lookup_insert_eq. by eapply lookup_lt_Some. Qed.
Lemma replace_lookup_ne c i j q : i ≠ j → component_disks (replace c i q) !! j = component_disks c !! j.
Proof. intros ?. by apply list_lookup_insert_ne. Qed.

Lemma replace_synced c i p q :
  component_disks c !! i = Some p → part_synced p ⊆ part_synced q → synced_by c ⊆ synced_by (replace c i q).
Proof.
  intros Hp Hs z. rewrite !elem_of_synced. intros (j & x & Hx & Hz). destruct (decide (i = j)) as [<-|Hne].
  - exists i, q. split; [by eapply replace_lookup|]. simplify_eq. set_solver.
  - exists j, x. by rewrite replace_lookup_ne.
Qed.

Lemma replace_shape c i p q :
  disk_ok c → component_disks c !! i = Some p → moved p q → same_shape c (replace c i q).
Proof.
  intros Hok Hp (Ho & Hl & Hqok & Hi & Hw). assert (same_place p q) as Hq by done.
  destruct (composite_inodes_insert _ i p q Hp Hq) as [Hin Hwin].
  split; [by eapply composite_ok_insert; [destruct c|..]|]. by destruct c.
Qed.

Lemma replace_framed k k' c i p :
  component_disks c !! i = Some p → framed k k' (part_file p) → framed k k' c.
Proof. intros Hp Hf z Hz. apply Hf. intros Hz'. apply Hz. by eapply elem_of_winodes. Qed.

Lemma replace_touched k k' c i p q off n :
  disk_ok c → component_disks c !! i = Some p →
  part_offset q = part_offset p → part_length q = part_length p → part_synced p ⊆ part_synced q →
  part_offset p <= off → off + n <= part_offset p + part_length p →
  touched k k' (part_file p) (part_file q) (off - part_offset p) n → touched k k' c (replace c i q) off n.
Proof.
  intros Hok Hp Ho Hl Hs Hlo Hhi (Hsh & Hf & Hsp & Hin & _).
  assert (same_shape c (replace c i q)) as Hsh' by (by eapply replace_shape).
  split; [done|]. split; [by eapply replace_framed|]. split; [|split].
  - eapply composite_write_spared; [done|done| |by intros a Ha; apply Hf|done].
    destruct Hsh as (_ & ? & ?). done.
  - intros j Hj. assert (covers p j) as Hcov by (unfold covers; lia).
    rewrite (composite_byte _ c i p) by done.
    rewrite (composite_byte _ _ i q); [|apply Hsh'|by eapply replace_lookup|unfold covers; by rewrite Ho, Hl].
    rewrite Ho. apply Hin. lia.
  - by eapply replace_synced.
Qed.

Lemma replace_marked k k' c i p q :
  component_disks c !! i = Some p → needs_fsync q = true → marked k k' (part_file p) (part_file q) →
  marked k k' c (replace c i q).
Proof.
  intros Hp Hq [Hs Hm]. assert (part_synced q = synced_by (part_file q)) as Hqs by (unfold part_synced; by rewrite Hq).
  split.
  - eapply replace_synced; [done|]. rewrite Hqs. unfold part_synced. destruct (needs_fsync p); set_solver.
  - intros z Hz. destruct (Hm z Hz) as [|Hin]; [by left|]. right. rewrite elem_of_synced. exists i, q.
    split; [by eapply replace_lookup|by rewrite Hqs].
Qed.

Lemma replace_byte σ c i p q j :
  component_disks c !! i = Some p → part_offset q = part_offset p → part_length q = part_length p →
  (∀ j, disk_byte σ (part_file q) j = disk_byte σ (part_file p) j) →
  disk_byte σ (replace c i q) j = disk_byte σ c j.
Proof.
  intros Hp Ho Hl Hb. cbn. revert i Hp. induction (component_disks c) as [|x ps IH]; intros i Hp; [done|].
  destruct i as [|i]; cbn in *.
  - simplify_eq. assert (covers q j ↔ covers p j) as Hcov by (unfold covers; by rewrite Ho, Hl).
    rewrite Hb, Ho. by repeat case_decide; try tauto.
  - by rewrite IH.
Qed.

Lemma mark_run {E} i k c q :
  set_needs_fsync (E := E) i (k, replace c i q) =
  (Returns (), (k, replace c i (mkPart (part_file q) (part_offset q) (part_length q) true))).
Proof.
  unfold set_needs_fsync, mbind, prog_bind, get_state, put_state, replace. cbn [component_disks].
  by rewrite alter_insert_same.
Qed.
End replace.

(** *** The parts of a range *)

Section ranges.
Context {D : Type} `{DiskView D}.
Implicit Types (p : ComponentDiskPart D).

Definition in_rangeZ (r : range) (j : Z) : Prop := range_start r <= j < range_end r.

Lemma range_intersection_spec a b :
  match range_intersection a b with
  | Some x => range_start x < range_end x ∧ ∀ j, in_rangeZ x j ↔ in_rangeZ a j ∧ in_rangeZ b j
  | None => ∀ j, ¬ (in_rangeZ a j ∧ in_rangeZ b j)
  end.
Proof.
  unfold range_intersection, in_rangeZ, umax, umin. cbn.
  destruct (Z.leb_spec (range_start b) (range_start a)), (Z.leb_spec (range_end a) (range_end b)); cbn;
    match goal with |- context [?x <? ?y] => destruct (Z.ltb_spec x y) end; cbn; try split; intros; lia.
Qed.

Lemma range_of_spec (off n : u64) :
  off + n < 2 ^ 64 → ∃ r, range_of off n = Some r ∧ range_start r = off ∧ uval (range_end r) = off + n.
Proof.
  intros Hlt. unfold range_of. destruct (add_checked off n) as [last|] eqn:E.
  - apply add_checked_Some in E. by eexists.
  - apply add_checked_None in E. cbn [Z.of_N] in E. lia.
Qed.

Lemma overlapping_spec r ps : ∀ i,
  Forall part_ok ps →
  ∃ l, overlapping r i ps = Some l ∧ Forall (λ x, (i ≤ x < i + length ps)%nat) l ∧
    ∀ x p j, ps !! x = Some p → covers p j → in_rangeZ r j → (i + x)%nat ∈ l.
Proof.
  induction ps as [|q ps IH]; intros i Hok; [by exists []|]. apply Forall_cons in Hok as [Hq Hok].
  destruct (IH (S i) Hok) as (l & Hl & Hbound & Hin). cbn [overlapping].
  destruct (part_range_ok q Hq) as (last & -> & Hlast). cbn. rewrite Hl. cbn.
  eexists. split; [done|].
  pose proof (range_intersection_spec (mkRange (part_offset q) last) r) as Hx.
  unfold ranges_overlap, covers, in_rangeZ in *. cbn [range_start range_end] in Hx.
  assert (Forall (λ x, (i ≤ x < i + S (length ps))%nat) l) as Hb'
    by (eapply Forall_impl; [done|]; cbn; lia).
  assert (∀ x p j, ps !! x = Some p → part_offset p <= j < part_offset p + part_length p →
    range_start r <= j < range_end r → (i + S x)%nat ∈ l) as Hin'.
  { intros x p j Hp Hc Hr. rewrite <- Nat.add_succ_comm. by eapply Hin. }
  destruct (range_intersection _ r) as [x0|]; split.
  - constructor; [lia|done].
  - intros [|x] p j Hp Hc Hr; [rewrite Nat.add_0_r; apply list_elem_of_here|].
    apply list_elem_of_further. by eapply Hin'.
  - done.
  - intros [|x] p j Hp Hc Hr; [|by eapply Hin'].
    cbn in Hp. simplify_eq. destruct (Hx j). lia.
Qed.
End ranges.

(** *** The contract *)

Section composite_laws.
Context {K D : Type} `{AsyncLaws K D}.
Implicit Types (c : CompositeDiskFile D) (p : ComponentDiskPart D) (k : K).

(** What an operation on a range does; with [zeroes] the range is zero in the end. *)
Definition range_effect {D'} `{DiskView D'} `{SyncView D'} (zeroes : bool) k k' (d d' : D') (off n : Z)
    (r : outcome disk_error ()) : Prop :=
  touched k k' d d' off n ∧
  match r with
  | Returns _ =>
      marked k k' d d' ∧
      (zeroes = true → ∀ j, off <= j < off + n → disk_byte (contents k') d' j = Some (U8 0))
  | Throws e => disk_fault e
  | Aborts => False
  end.

Section for_parts.
Context (zeroes : bool) (op : u64 → u64 → prog (K * D) disk_error ()).
Context (Hop : ∀ (off n : u64) k (d : D) r k' d',
  disk_ok d → off + n < 2 ^ 64 → readable (contents k) d off n →
  op off n (k, d) = (r, (k', d')) → range_effect zeroes k k' d d' off n r).
Context (rg : range).

(** The step of the loop at one component. *)
Definition part_step i : prog (K * CompositeDiskFile D) disk_error () :=
  '(_, c) ← get_state;
  disk ← checked (component_disks c !! i);
  r' ← checked (part_range disk);
  match range_intersection rg r' with
  | Some x =>
      start ← checked (sub_checked (range_start x) (part_offset disk));
      len ← checked (sub_checked (range_end x) (range_start x));
      on_part i disk (op start len);;
      set_needs_fsync i
  | None => mret ()
  end.

Lemma for_parts_cons i l k c :
  for_parts op rg (i :: l) (k, c) = (part_step i;; for_parts op rg l) (k, c).
Proof.
  cbn [for_parts]. unfold part_step, mbind, prog_bind. cbn.
  destruct (component_disks c !! i) as [disk|]; [|done]. cbn.
  destruct (part_range disk) as [r'|]; [|done]. cbn. by destruct (range_intersection rg r').
Qed.

Definition same_places c c' : Prop :=
  ∀ i p, component_disks c !! i = Some p → ∃ q, component_disks c' !! i = Some q ∧
    part_offset q = part_offset p ∧ part_length q = part_length p.

Lemma replace_places c i p q :
  component_disks c !! i = Some p → part_offset q = part_offset p → part_length q = part_length p →
  same_places c (replace c i q).
Proof.
  intros Hp Ho Hl j x Hx. destruct (decide (i = j)) as [<-|Hne].
  - exists q. simplify_eq. split; [by eapply replace_lookup|done].
  - exists x. by rewrite replace_lookup_ne.
Qed.

(** An operation on a range of one component. *)
Lemma part_op_spec i p (start n : u64) off k c r k' c' :
  disk_ok c → component_disks c !! i = Some p → part_offset p <= off →
  off + n <= part_offset p + part_length p → uval start = off - part_offset p →
  readable (contents k) c off n →
  (on_part i p (op start n);; set_needs_fsync i) (k, c) = (r, (k', c')) →
  range_effect zeroes k k' c c' off n r ∧ same_places c c'.
Proof using All.
  intros Hok Hp Hlo Hhi Hstart Hrd.
  assert (part_ok p) as [Hpok Hplt] by (destruct Hok as [Hall _]; by eapply Forall_lookup_1).
  unfold mbind, prog_bind, on_part. destruct (op start n (k, part_file p)) as [o [k1 file]] eqn:E.
  apply Hop in E as [Ht Ho].
  - rewrite Hstart in Ht, Ho. set (q fs := mkPart file (part_offset p) (part_length p) fs).
    assert (∀ fs, part_synced p ⊆ part_synced (q fs) → touched k k1 c (replace c i (q fs)) off n) as Ht'.
    { intros fs Hs. by apply (replace_touched _ _ _ _ p). }
    assert (synced_by (part_file p) ⊆ synced_by file) as Hs by apply Ht.
    destruct o as [[]|e|]; [|intros [= <- <- <-]|done].
    + fold (replace c i (q (needs_fsync p))). rewrite mark_run. intros [= <- <- <-]. fold (q true).
      destruct Ho as [Hm Hz].
      assert (part_synced p ⊆ part_synced (q true)) as Hsp
        by (unfold part_synced; cbn; destruct (needs_fsync p); set_solver).
      specialize (Ht' true Hsp).
      split; [|by eapply replace_places]. split; [done|]. split; [by eapply replace_marked|].
      intros Hzt j Hj. rewrite (composite_byte _ _ i (q true));
        [|apply Ht'|by eapply replace_lookup|unfold covers; cbn; lia].
      apply Hz; [done|]. cbn. lia.
    + split; [|by eapply replace_places]. split; [|done]. apply Ht'. unfold part_synced. cbn.
      destruct (needs_fsync p); set_solver.
  - done.
  - pose proof (uint_range (part_offset p)). lia.
  - rewrite Hstart. intros j Hj. specialize (Hrd (j + part_offset p) ltac:(lia)).
    rewrite (composite_byte _ c i p) in Hrd; [|done|done|unfold covers; lia].
    by replace (j + part_offset p - part_offset p) with j in Hrd by lia.
Qed.

Lemma part_step_spec i p k c r k' c' :
  disk_ok c → component_disks c !! i = Some p →
  readable (contents k) c (range_start rg) (range_end rg - range_start rg) →
  part_step i (k, c) = (r, (k', c')) →
  touched k k' c c' (range_start rg) (range_end rg - range_start rg) ∧ same_places c c' ∧
  match r with
  | Returns _ =>
      marked k k' c c' ∧
      (zeroes = true → ∀ j, in_rangeZ rg j →
        covers p j ∨ disk_byte (contents k) c j = Some (U8 0) → disk_byte (contents k') c' j = Some (U8 0))
  | Throws e => disk_fault e
  | Aborts => False
  end.
Proof using All.
  intros Hok Hp Hrd. assert (part_ok p) as Hpok by (destruct Hok as [Hall _]; by eapply Forall_lookup_1).
  unfold part_step. rewrite (bind_returns _ _ _ (k, c) (k, c)) by done. cbn beta iota. rewrite Hp. cbn [checked].
  rewrite (bind_returns _ _ _ p (k, c)) by done. destruct (part_range_ok p Hpok) as (last & Hr & Hlast).
  rewrite Hr. cbn [checked]. erewrite bind_returns by done.
  pose proof (range_intersection_spec rg (mkRange (part_offset p) last)) as Hx.
  unfold covers, in_rangeZ in *. cbn [range_start range_end] in Hx.
  destruct (range_intersection rg _) as [x|].
  2: { intros [= <- <- <-]. split; [by apply quiet_touched|]. split; [by intros j q Hq; exists q|].
       split; [by apply quiet_marked|]. intros _ j Hj [Hcov|]; [|done]. destruct (Hx j). lia. }
  destruct Hx as [Hne Hx]. pose proof (proj1 (Hx (range_start x)) ltac:(lia)) as Hlo.
  pose proof (proj1 (Hx (range_end x - 1)) ltac:(lia)) as Hhi.
  destruct (sub_checked (range_start x) _) as [start|] eqn:Es;
    [apply sub_checked_Some in Es|apply sub_checked_None in Es; lia].
  destruct (sub_checked (range_end x) _) as [len|] eqn:El;
    [apply sub_checked_Some in El|apply sub_checked_None in El; lia].
  cbn [checked]. rewrite (bind_returns _ _ _ start (k, c)), (bind_returns _ _ _ len (k, c)) by done.
  intros E. apply (part_op_spec _ _ _ _ (range_start x)) in E as [[Ht Ho] Hpl]; [|done|done|lia|lia|lia|].
  2: { intros j Hj. apply Hrd. lia. }
  split; [eapply touched_weaken; [done|lia]|]. split; [done|]. destruct r as [[]|e|]; [|done|done].
  destruct Ho as [Hm Hz]. split; [done|]. intros Hzt j Hj Hcase.
  destruct (decide (range_start x <= j < range_start x + len)) as [Hin|Hout]; [by apply Hz|].
  destruct Hcase as [Hcov|Hb]; [|by apply Ht]. destruct Hout. pose proof (proj2 (Hx j)). lia.
Qed.

Lemma same_places_trans c c1 c2 : same_places c c1 → same_places c1 c2 → same_places c c2.
Proof.
  intros H1' H2' i p Hp. destruct (H1' i p Hp) as (q & Hq & Ho & Hl).
  destruct (H2' i q Hq) as (x & Hx & Ho' & Hl'). exists x. by rewrite Ho', Hl'.
Qed.

Lemma for_parts_spec l : ∀ k c r k' c',
  disk_ok c → Forall (λ i, (i < length (component_disks c))%nat) l →
  readable (contents k) c (range_start rg) (range_end rg - range_start rg) →
  for_parts op rg l (k, c) = (r, (k', c')) →
  touched k k' c c' (range_start rg) (range_end rg - range_start rg) ∧
  match r with
  | Returns _ =>
      marked k k' c c' ∧
      (zeroes = true → ∀ j, in_rangeZ rg j →
        (∃ i p, i ∈ l ∧ component_disks c !! i = Some p ∧ covers p j) ∨ disk_byte (contents k) c j = Some (U8 0) →
        disk_byte (contents k') c' j = Some (U8 0))
  | Throws e => disk_fault e
  | Aborts => False
  end.
Proof using All.
  induction l as [|i l IH]; intros k c r k' c' Hok Hl Hrd.
  { intros [= <- <- <-]. split; [by apply quiet_touched|]. split; [by apply quiet_marked|].
    intros _ j _ [(i & p & Hi & _)|]; [by apply elem_of_nil in Hi|done]. }
  apply Forall_cons in Hl as [Hi Hl]. apply lookup_lt_is_Some in Hi as [p Hp].
  rewrite for_parts_cons. unfold mbind, prog_bind. destruct (part_step i (k, c)) as [o [k1 c1]] eqn:E.
  apply (part_step_spec _ p) in E as (Ht & Hpl & Ho); [|done|done|done].
  destruct o as [[]|e|]; [|intros [= <- <- <-]; done|done]. destruct Ho as [Hm Hz]. intros E.
  apply IH in E as [Ht2 Ho2]; [|apply Ht| |by eapply touched_readable].
  2: { eapply Forall_impl; [exact Hl|]. intros j Hj. apply lookup_lt_is_Some in Hj as [q Hq].
       destruct (Hpl j q Hq) as (x & Hx & _). by eapply lookup_lt_Some. }
  split; [by eapply touched_trans|]. destruct r as [[]|e|]; [|done|done]. destruct Ho2 as [Hm2 Hz2].
  split; [by eapply marked_trans|]. intros Hzt j Hj [(a & q & Ha & Hq & Hcov)|Hb].
  - apply Hz2; [done|done|]. apply elem_of_cons in Ha as [->|Ha].
    + right. apply Hz; [done|done|]. left. by simplify_eq.
    + left. destruct (Hpl a q Hq) as (x & Hx & Ho & Hll). exists a, x. split_and!; [done|done|].
      unfold covers. by rewrite Ho, Hll.
  - apply Hz2; [done|done|]. right. apply Hz; auto.
Qed.

(** The operation applied to every component in the range. *)
Lemma composite_range_spec (off n : u64) k c r k' c' :
  disk_ok c → range_start rg = off → uval (range_end rg) = off + n → readable (contents k) c off n →
  (disks ← checked (disks_in_range rg c); for_parts op rg disks) (k, c) = (r, (k', c')) →
  range_effect zeroes k k' c c' off n r.
Proof using All.
  intros Hok Hlo Hhi Hrd. pose proof Hok as (Hall & Hc & _). unfold disks_in_range.
  destruct (overlapping_spec rg (component_disks c) 0 Hall) as (l & Hl & Hbound & Hin).
  rewrite Hl. cbn [checked]. rewrite (bind_returns _ _ _ l (k, c)) by done. intros E.
  apply for_parts_spec in E as [Ht Ho].
  - replace (range_end rg - range_start rg) with (uval n) in Ht by (rewrite Hlo; lia). rewrite Hlo in Ht.
    split; [done|]. destruct r as [[]|e|]; [|done|done]. destruct Ho as [Hm Hz]. split; [done|].
    intros Hzt j Hj. apply Hz; [done|unfold in_rangeZ; rewrite Hlo; lia|]. left.
    destruct (Hrd j Hj) as [b Hb]. apply parts_byte_Some in Hb as (i & p & Hp & Hcov & _). exists i, p.
    split_and!; [|done|done]. eapply Hin; [done|done|]. unfold in_rangeZ. rewrite Hlo. lia.
  - done.
  - eapply Forall_impl; [exact Hbound|]. cbn. lia.
  - rewrite Hlo. by replace (range_end rg - off) with (uval n) by lia.
Qed.
End for_parts.

Lemma composite_punch_law (off n : u64) k c r k' c' :
  disk_ok c → off + n < 2 ^ 64 → readable (contents k) c off n →
  Composite_punch_hole off n (k, c) = (r, (k', c')) → range_effect false k k' c c' off n r.
Proof.
  intros Hok Hlt Hrd. unfold Composite_punch_hole. destruct (range_of_spec off n Hlt) as (rg & Hr & Hlo & Hhi).
  rewrite Hr. cbn [checked]. rewrite (bind_returns _ _ _ rg (k, c)), (bind_returns _ _ _ (k, c) (k, c)) by done.
  cbn beta iota. apply composite_range_spec; [|done..]. intros ??? d o k1 d' ??? E.
  apply punch_hole_law in E as [Ht Ho]; [|done..]. split; [done|]. by destruct o.
Qed.

Lemma composite_zeroes_law (off n : u64) k c r k' c' :
  disk_ok c → off + n < 2 ^ 64 → readable (contents k) c off n →
  Composite_write_zeroes_at off n (k, c) = (r, (k', c')) → range_effect true k k' c c' off n r.
Proof.
  intros Hok Hlt Hrd. unfold Composite_write_zeroes_at. destruct (range_of_spec off n Hlt) as (rg & Hr & Hlo & Hhi).
  rewrite Hr. cbn [checked]. rewrite (bind_returns _ _ _ rg (k, c)), (bind_returns _ _ _ (k, c) (k, c)) by done.
  cbn beta iota. apply composite_range_spec; [|done..]. intros ??? d o k1 d' ??? E.
  apply write_zeroes_law in E as [Ht Ho]; [|done..]. split; [done|]. destruct o; [|done|done].
  by destruct Ho.
Qed.

(** *** Flushing *)

(** What [fsync] does to the marks of a disk. *)
Definition sync_effect {D'} `{DiskView D'} `{SyncView D'} k k' (d d' : D') : Prop :=
  quiet k k' ∧ same_shape d d' ∧ (∀ σ j, disk_byte σ d' j = disk_byte σ d j) ∧
  (∀ i, i ∈ synced_by d → i ∈ synced_by d' ∨ clean k' i).

Lemma sync_effect_refl {D'} `{DiskView D'} `{SyncView D'} k (d : D') : disk_ok d → sync_effect k k d d.
Proof. intros Hok. split; [apply quiet_refl|]. split; [done|]. split; [done|]. by left. Qed.

Lemma sync_effect_trans {D'} `{DiskView D'} `{SyncView D'} k k1 k2 (d d1 d2 : D') :
  sync_effect k k1 d d1 → sync_effect k1 k2 d1 d2 → sync_effect k k2 d d2.
Proof.
  intros (Hq1 & Hs1 & Hb1 & Hm1) (Hq2 & Hs2 & Hb2 & Hm2). split; [by eapply quiet_trans|].
  split; [by eapply same_shape_trans|]. split; [intros; by rewrite Hb2|].
  intros i [Hi|Hi]%Hm1; [by apply Hm2|]. right. by apply Hq2.
Qed.

Definition fsync_part i : prog (K * CompositeDiskFile D) disk_error () :=
  '(_, c) ← get_state;
  disk ← checked (component_disks c !! i);
  if needs_fsync disk then
    clear_needs_fsync i;;
    '(_, c) ← get_state;
    disk ← checked (component_disks c !! i);
    r ← catch (on_part i disk async_fsync);
    match r with
    | inl _ => mret ()
    | inr e => set_needs_fsync i;; throw e
    end
  else mret ().

Lemma fsync_parts_cons i l k c :
  fsync_parts (i :: l) (k, c) = (fsync_part i;; fsync_parts l) (k, c).
Proof.
  cbn [fsync_parts]. unfold fsync_part, mbind, prog_bind. cbn.
  destruct (component_disks c !! i) as [disk|]; [|done]. cbn. by destruct (needs_fsync disk).
Qed.

Lemma fsync_part_run i p k c :
  component_disks c !! i = Some p →
  fsync_part i (k, c) =
  if needs_fsync p then
    let '(r, (k', file)) := async_fsync (k, part_file p) in
    (r, (k', replace c i (mkPart file (part_offset p) (part_length p)
                            (match r with Throws _ => true | _ => false end))))
  else (Returns (), (k, c)).
Proof.
  intros Hp. unfold fsync_part. rewrite (bind_returns _ _ _ (k, c) (k, c)) by done. cbn beta iota.
  rewrite Hp. cbn [checked]. rewrite (bind_returns _ _ _ p (k, c)) by done. destruct (needs_fsync p); [|done].
  set (p0 := mkPart (part_file p) (part_offset p) (part_length p) false).
  rewrite (bind_returns _ _ _ () (k, replace c i p0)).
  2: { unfold clear_needs_fsync, mbind, prog_bind, get_state, put_state, replace. do 4 f_equal.
       rewrite <- (list_insert_id _ _ _ Hp) at 1. apply alter_insert_same. }
  rewrite (bind_returns _ _ _ (k, replace c i p0) (k, replace c i p0)) by done. cbn beta iota.
  rewrite (replace_lookup c i p p0 Hp). cbn [checked]. rewrite (bind_returns _ _ _ p0 (k, replace c i p0)) by done.
  unfold mbind, prog_bind, catch, on_part. change (part_file p0) with (part_file p).
  destruct (async_fsync (k, part_file p)) as [o [k1 file]]. unfold replace. cbn [component_disks].
  cbn [p0 part_offset part_length needs_fsync]. rewrite list_insert_insert_eq.
  destruct o as [[]|e|]; [done| |done].
  fold (replace c i (mkPart file (part_offset p) (part_length p) false)). by rewrite mark_run.
Qed.

Lemma fsync_part_spec i p k c r k' c' :
  disk_ok c → component_disks c !! i = Some p → fsync_part i (k, c) = (r, (k', c')) →
  sync_effect k k' c c' ∧ (∀ j, i ≠ j → component_disks c' !! j = component_disks c !! j) ∧
  length (component_disks c') = length (component_disks c) ∧
  match r with
  | Returns _ => ∀ z, z ∈ part_synced p → clean k' z
  | Throws e => disk_fault e
  | Aborts => False
  end.
Proof.
  intros Hok Hp. rewrite (fsync_part_run i p) by done. destruct (needs_fsync p) eqn:Hn.
  2: { intros [= <- <- <-]. split_and!; [by apply sync_effect_refl|done|done|]. unfold part_synced.
       rewrite Hn. intros z Hz. set_solver. }
  destruct (async_fsync _) as [o [k1 file]] eqn:E. intros [= -> <- <-].
  assert (disk_ok (part_file p)) as Hpok by (destruct Hok as [Hall _]; by apply (Forall_lookup_1 _ _ _ _ Hall Hp)).
  destruct (async_fsync_law _ _ _ _ _ Hpok (or_introl E)) as (Hq & Hsh & Hb & Hm & Ho).
  assert (part_synced p = synced_by (part_file p)) as Hsp by (unfold part_synced; by rewrite Hn).
  split_and!; [|by intros; apply replace_lookup_ne|apply length_insert|rewrite Hsp; by destruct r].
  split; [done|]. split; [by eapply replace_shape|]. split.
  { intros σ j. by apply (replace_byte _ _ _ p). }
  intros z. rewrite !elem_of_synced. intros (j & x & Hx & Hz). destruct (decide (i = j)) as [<-|Hne].
  2: { left. exists j, x. by rewrite replace_lookup_ne. }
  simplify_eq. rewrite Hsp in Hz. destruct r as [[]|e|]; [right; by apply Ho| |done].
  destruct (Hm z Hz) as [Hin|]; [|by right]. left. eexists i, _. split; [by eapply replace_lookup|done].
Qed.

Lemma fsync_parts_spec l : ∀ k c r k' c',
  disk_ok c → Forall (λ i, (i < length (component_disks c))%nat) l →
  fsync_parts l (k, c) = (r, (k', c')) →
  sync_effect k k' c c' ∧
  match r with
  | Returns _ => ∀ i p z, i ∈ l → component_disks c !! i = Some p → z ∈ part_synced p → clean k' z
  | Throws e => disk_fault e
  | Aborts => False
  end.
Proof.
  induction l as [|i l IH]; intros k c r k' c' Hok Hl.
  { intros [= <- <- <-]. split; [by apply sync_effect_refl|]. intros i p z Hi. by apply elem_of_nil in Hi. }
  apply Forall_cons in Hl as [Hi Hl]. apply lookup_lt_is_Some in Hi as [p Hp].
  rewrite fsync_parts_cons. unfold mbind, prog_bind. destruct (fsync_part i (k, c)) as [o [k1 c1]] eqn:E.
  apply (fsync_part_spec _ p) in E as (He & Hoth & Hlen & Ho); [|done|done].
  destruct o as [[]|e|]; [|intros [= <- <- <-]; done|done]. intros E.
  apply IH in E as [He2 Ho2]; [|apply He|by rewrite Hlen]. split; [by eapply sync_effect_trans|].
  destruct r as [[]|e|]; [|done|done]. intros j x z Hj Hx Hz. destruct (decide (i = j)) as [<-|Hne].
  - simplify_eq. apply He2. by apply Ho.
  - eapply Ho2; [|by rewrite Hoth|done]. by apply elem_of_cons in Hj as [->|].
Qed.

Lemma composite_fsync_law k c r k' c' :
  disk_ok c → Composite_fsync (k, c) = (r, (k', c')) →
  sync_effect k k' c c' ∧
  match r with Returns _ => ∀ i, i ∈ synced_by c → clean k' i | Throws e => disk_fault e | Aborts => False end.
Proof.
  intros Hok. unfold Composite_fsync. rewrite (bind_returns _ _ _ (k, c) (k, c)) by done. cbn beta iota.
  intros E. apply fsync_parts_spec in E as [He Ho]; [|done|].
  - split; [done|]. destruct r as [[]|e|]; [|done|done]. intros z (i & p & Hp & Hz)%elem_of_synced.
    eapply Ho; [|done|done]. apply elem_of_seq. apply lookup_lt_Some in Hp. lia.
  - apply Forall_forall. intros i Hi%elem_of_seq. lia.
Qed.

(** *** Transfers *)

Lemma part_for_spec c (off : u64) :
  disk_ok c →
  match part_for off c with
  | Returns (i, p, pos, rem) =>
      component_disks c !! i = Some p ∧ part_ok p ∧ covers p off ∧
      uval pos = off - part_offset p ∧ uval rem = part_offset p + part_length p - off
  | Throws e => ∀ σ, disk_byte σ c off = None
  | Aborts => False
  end.
Proof.
  intros Hok. unfold part_for. pose proof (disk_at_offset_spec c off Hok) as Hd.
  destruct (disk_at_offset off c) as [[i p]|e|]; [|by destruct Hd|done]. destruct Hd as (Hp & Hcov & Hpok).
  pose proof Hpok as [_ Hlt]. pose proof Hcov as Hcov'. unfold covers in Hcov'.
  destruct (add_checked (part_offset p) _) as [last|] eqn:E;
    [apply add_checked_Some in E|apply add_checked_None in E; cbn [Z.of_N] in E; lia].
  cbn [mbind outcome_bind unwrap_or_abort].
  destruct (sub_checked last off) as [rem|] eqn:E2; [apply sub_checked_Some in E2|apply sub_checked_None in E2; lia].
  destruct (sub_checked off _) as [pos|] eqn:E3; [apply sub_checked_Some in E3|apply sub_checked_None in E3; lia].
  cbn [mbind outcome_bind unwrap_or_abort]. split_and!; [done|apply Hpok|done|lia..].
Qed.

Lemma composite_read_mem_law gm (off : u64) it k c h r k' c' h' :
  gm_ok gm → disk_ok c → iter_ok gm it → off + lengthZ (iter_addrs it) < 2 ^ 64 →
  Composite_read_to_mem gm off it (k, c, h) = (r, (k', c', h')) →
  quiet k k' ∧ c' = c ∧
  match r with
  | Returns n =>
      ∃ bs, uval n = lengthZ bs ∧ n <= lengthZ (iter_addrs it) ∧ shows (contents k) c off bs ∧
        (∀ x, guest_byte gm h' x = StreamFacts.store (guest_byte gm h) (iter_addrs it) bs x) ∧
        (0 < lengthZ (iter_addrs it) → is_Some (disk_byte (contents k) c off) → 0 < n)
  | Throws e => h' = h ∧ (is_Some (disk_byte (contents k) c off) → disk_fault e)
  | Aborts => disk_byte (contents k) c off = None
  end.
Proof.
  intros Hgm Hok Hit Hlt. unfold Composite_read_to_mem.
  rewrite (bind_returns _ _ _ (k, c, h) (k, c, h)) by done. cbn beta iota.
  pose proof (part_for_spec c off Hok) as Ht. destruct (part_for off c) as [[[[i p] pos] rem]|e|]; [| |done].
  2: { intros [= <- <- <- <-]. do 3 (split; [done|]). rewrite Ht. by intros []%is_Some_None. }
  destruct Ht as (Hp & [Hpok Hplt] & Hcov & Hpos & Hrem). pose proof Hcov as Hcov'. unfold covers in Hcov'.
  cbn [give_outcome]. rewrite (bind_returns _ _ _ (i, p, pos, rem) (k, c, h)) by done. cbn beta iota.
  unfold on_part_mem. destruct (read_to_mem _ _ _ _) as [o [[k1 file] h1]] eqn:E.
  pose proof (lengthZ_nonneg (iter_addrs it)). pose proof (uint_range (part_offset p)).
  apply read_to_mem_law in E as (Hq & -> & Ho); [|done|done|done|].
  2: { rewrite take_bytes_addrs, lengthZ_takeZ by lia. lia. }
  rewrite take_bytes_addrs in Ho. rewrite lengthZ_takeZ in Ho by lia. rewrite part_eta, insert_same by done.
  intros [= <- <- <- <-]. do 2 (split; [done|]). rewrite Hpos in Ho.
  rewrite (composite_byte (contents k) c i p off Hok Hp Hcov).
  destruct o as [n|e|]; [|done|done]. destruct Ho as (bs & Hn & Hle & Hsh & Hg & Hprog). exists bs.
  split_and!; [done|lia| | |intros ??; apply Hprog; [lia|done]].
  - eapply composite_shows; [done|done|lia|lia|done].
  - intros x. rewrite Hg. apply store_takeZ. lia.
Qed.

Lemma composite_write_mem_law gm (off : u64) it k c h r k' c' h' :
  gm_ok gm → disk_ok c → iter_ok gm it → off + lengthZ (iter_addrs it) < 2 ^ 64 →
  Composite_write_from_mem gm off it (k, c, h) = (r, (k', c', h')) →
  h' = h ∧
  match r with
  | Returns n =>
      written k k' c c' off (bytes_at gm h (iter_addrs it)) n ∧ framed k k' c ∧ marked k k' c c' ∧
      (0 < lengthZ (iter_addrs it) → 0 < n)
  | Throws e => quiet k k' ∧ c' = c ∧ (is_Some (disk_byte (contents k) c off) → disk_fault e)
  | Aborts => disk_byte (contents k) c off = None
  end.
Proof.
  intros Hgm Hok Hit Hlt. unfold Composite_write_from_mem.
  rewrite (bind_returns _ _ _ (k, c, h) (k, c, h)) by done. cbn beta iota.
  pose proof (part_for_spec c off Hok) as Ht. destruct (part_for off c) as [[[[i p] pos] rem]|e|]; [| |done].
  2: { intros [= <- <- <- <-]. do 3 (split; [done|]). rewrite Ht. by intros []%is_Some_None. }
  destruct Ht as (Hp & [Hpok Hplt] & Hcov & Hpos & Hrem). pose proof Hcov as Hcov'. unfold covers in Hcov'.
  cbn [give_outcome]. rewrite (bind_returns _ _ _ (i, p, pos, rem) (k, c, h)) by done. cbn beta iota.
  unfold mbind, prog_bind, on_part_mem. destruct (write_from_mem _ _ _ _) as [o [[k1 file] h1]] eqn:E.
  pose proof (lengthZ_nonneg (iter_addrs it)). pose proof (uint_range (part_offset p)).
  apply write_from_mem_law in E as [-> Ho]; [|done|done|done|].
  2: { rewrite take_bytes_addrs, lengthZ_takeZ by lia. lia. }
  rewrite take_bytes_addrs in Ho. rewrite lengthZ_takeZ in Ho by lia. rewrite Hpos in Ho.
  rewrite (composite_byte (contents k) c i p off Hok Hp Hcov).
  destruct o as [n|e|]; [|destruct Ho as (Hq & -> & He)|].
  - fold (replace c i (mkPart file (part_offset p) (part_length p) (needs_fsync p))).
    unfold zoom. cbn [fst snd]. rewrite mark_run. intros [= <- <- <- <-]. split; [done|].
    destruct Ho as (Hwr & Hf & Hm & Hprog). split_and!; [|by eapply replace_framed|by eapply replace_marked|
      intros; apply Hprog; lia].
    assert (uval (U64 (Z.min (lengthZ (iter_addrs it)) rem)) = Z.min (lengthZ (iter_addrs it)) rem) as Hu
      by (pose proof (uint_range rem); apply uval_to_uint_small; cbn [Z.of_N] in *; lia).
    eapply (composite_written _ _ _ _ p _ _ _ _ (U64 (Z.min (lengthZ (iter_addrs it)) rem))); [done|done|done| |].
    + rewrite lengthZ_bytes_at. lia.
    + rewrite Hu, <- (lengthZ_bytes_at gm h), takeZ_min, <- bytes_at_takeZ by lia. done.
  - rewrite part_eta, insert_same by done. intros [= <- <- <- <-]. done.
  - by intros [= <- <- <- <-].
Qed.

(** No component keeps state in memory. *)
Lemma composite_flush_law k c : Composite_flush (k, c) = (Returns (), (k, c)).
Proof.
  unfold Composite_flush. rewrite (bind_returns _ _ _ (k, c) (k, c)) by done. cbn beta iota.
  assert (Forall (λ i, (i < length (component_disks c))%nat) (seq 0 (length (component_disks c)))) as Hl
    by (apply Forall_forall; intros i Hi%elem_of_seq; lia).
  revert Hl. generalize (seq 0 (length (component_disks c))). intros l Hl.
  induction Hl as [|i l Hi Hl IH]; [done|]. apply lookup_lt_is_Some in Hi as [p Hp]. cbn [flush_parts].
  rewrite (bind_returns _ _ _ (k, c) (k, c)) by done. cbn beta iota. rewrite Hp. cbn [checked].
  rewrite (bind_returns _ _ _ p (k, c)) by done. rewrite (bind_returns _ _ _ () (k, c)); [done|].
  unfold on_part. rewrite async_flush_law. cbn beta iota. by rewrite part_eta, insert_same.
Qed.

#[global] Instance Composite_AsyncLaws : AsyncLaws K (CompositeDiskFile D).
Proof.
  split.
  - apply _.
  - apply composite_read_mem_law.
  - apply composite_write_mem_law.
  - intros off n k c r k' c' Hok Hlt Hrd E. apply composite_punch_law in E as [Ht Ho]; [|done..].
    split; [done|]. destruct r as [[]|e|]; [apply Ho|done|done].
  - intros off n k c r k' c' Hok Hlt Hrd E. apply composite_zeroes_law in E as [Ht Ho]; [|done..].
    split; [done|]. destruct r as [[]|e|]; [|done|done]. destruct Ho as [Hm Hz]. split; [done|by apply Hz].
  - intros k c r k' c' Hok E. assert (Composite_fsync (k, c) = (r, (k', c'))) as Ef by (by destruct E).
    apply composite_fsync_law in Ef as [(Hq & Hsh & Hb & Hm) Ho]; [|done]. done.
  - apply composite_flush_law.
Qed.
End composite_laws.
