(* ===== verification/AsyncDepth.v ===== *)
(** * Asynchronous disks of any depth, and their lengths

    By recursion on the nesting depth every disk that [create_disk_file] opens keeps
    the contract of [AsyncDisk] after [to_async_disk], and shows the same bytes.
    Then the contract of [set_len], and of the calls that follow it when a block
    device is resized: a single file keeps it; sparse images and composite disks
    refuse. *)

From S2P Require Import Prelude StdIo Checked Bits GuestMemory GuestMemoryFacts DescriptorUtils StreamFacts.
From S2P Require Import DiskFile DiskFacts SparseImage SparseFacts CompositeDisk CompositeFacts AsyncDisk.
From S2P Require Import AsyncFacts AsyncComposite.

(** ** Disks of any depth *)

#[global] Instance any_async_DiskView {D} `{DiskView D} : DiskView (any_async D) := {|
  disk_ok d := match d with AsyncRaw f => disk_ok f | AsyncSparse s => disk_ok s | AsyncComposite c => disk_ok c end;
  disk_rw d j :=
    match d with AsyncRaw f => disk_rw f j | AsyncSparse s => disk_rw s j | AsyncComposite c => disk_rw c j end;
  disk_byte σ d j :=
    match d with
    | AsyncRaw f => disk_byte σ f j | AsyncSparse s => disk_byte σ s j | AsyncComposite c => disk_byte σ c j
    end;
  disk_inodes d :=
    match d with AsyncRaw f => disk_inodes f | AsyncSparse s => disk_inodes s | AsyncComposite c => disk_inodes c end;
  disk_winodes d :=
    match d with AsyncRaw f => disk_winodes f | AsyncSparse s => disk_winodes s | AsyncComposite c => disk_winodes c end
|}.
#[global] Instance any_async_SyncView {D} `{SyncView D} : SyncView (any_async D) := λ d,
  match d with AsyncRaw f => synced_by f | AsyncSparse s => synced_by s | AsyncComposite c => synced_by c end.

#[global] Instance any_async_ViewLaws {D} `{DiskView D} `{!ViewLaws D} : ViewLaws (any_async D).
Proof.
  split.
  - intros [f|s|c]; [apply (winodes_inodes f)|apply (winodes_inodes s)|apply (winodes_inodes c)].
  - intros σ σ' [f|s|c] j;
      [apply (byte_frame σ σ' f)|apply (byte_frame σ σ' s)|apply (byte_frame σ σ' c)].
Qed.

Section any_laws.
Context {K D : Type} `{HostLaws K} `{!HostAsync K, !HostAsyncLaws K}.
Context `{!AsyncDisk K D, !DiskView D, !SyncView D, !AsyncLaws K D}.

#[global] Instance any_AsyncLaws : AsyncLaws K (any_async D).
Proof.
  split.
  - apply _.
  - intros gm off it k [f|s|c] h r k' d' h' Hgm Hok Hit Hlt; cbn [read_to_mem any_AsyncDisk mem_dispatch];
      destruct (read_to_mem gm off it _) as [o [[k1 x] h1]] eqn:E; intros [= -> <- <- <-];
      (apply read_to_mem_law in E as (Hq & -> & Ho); [|done..]); done.
  - intros gm off it k [f|s|c] h r k' d' h' Hgm Hok Hit Hlt; cbn [write_from_mem any_AsyncDisk mem_dispatch];
      destruct (write_from_mem gm off it _) as [o [[k1 x] h1]] eqn:E; intros [= -> <- <- <-];
      (apply write_from_mem_law in E as (-> & Ho); [|done..]); (split; [done|]);
      (destruct r as [n|e|]; [done|by destruct Ho as (? & -> & ?)|done]).
  - intros off n k [f|s|c] r k' d' Hok Hlt Hrd; cbn [punch_hole any_AsyncDisk async_dispatch];
      destruct (punch_hole off n _) as [o [k1 x]] eqn:E; intros [= -> <- <-];
      by apply punch_hole_law in E.
  - intros off n k [f|s|c] r k' d' Hok Hlt Hrd; cbn [write_zeroes_at any_AsyncDisk async_dispatch];
      destruct (write_zeroes_at off n _) as [o [k1 x]] eqn:E; intros [= -> <- <-];
      by apply write_zeroes_law in E.
  - intros k [f|s|c] r k' d' Hok [E|E]; revert E; cbn [async_fsync async_fdatasync any_AsyncDisk async_dispatch];
      match goal with |- context [let '(_, _) := ?m in _] => destruct m as [o [k1 x]] eqn:E end;
      intros [= -> <- <-]; first [exact ((λ Hd, async_fsync_law _ _ _ _ _ Hd (or_introl E)) Hok)
                                 |exact ((λ Hd, async_fsync_law _ _ _ _ _ Hd (or_intror E)) Hok)].
  - intros k [f|s|c]; cbn [async_flush any_AsyncDisk async_dispatch];
      [by rewrite (async_flush_law k f)|by rewrite (async_flush_law k s)|by rewrite (async_flush_law k c)].
Qed.
End any_laws.

#[global] Instance async_disk_DiskView : ∀ n, DiskView (async_disk n) :=
  fix go n := match n with O => empty_DiskView | S n => @any_async_DiskView _ (go n) end.
#[global] Instance async_disk_SyncView : ∀ n, SyncView (async_disk n) :=
  fix go n := match n with O => λ d, match (d : Empty_set) with end | S n => @any_async_SyncView _ (go n) end.

#[global] Instance async_disk_AsyncLaws {K} `{HostLaws K} `{!HostAsync K, !HostAsyncLaws K} n :
  AsyncLaws K (async_disk n).
Proof.
  induction n as [|n IH]; [|apply any_AsyncLaws].
  split; [split|..]; intros; by match goal with d : async_disk 0 |- _ => destruct d end.
Qed.

(** ** Conversion

    [to_async_disk] gives a disk that shows the same bytes of the same files, and
    [into_inner] gives the disk back. *)

Section conversion_facts.
Context {K : Type} `{HostLaws K} `{!HostAsync K, !HostAsyncLaws K}.

Lemma parts_to_async_spec {D D'} (convert : D → prog K disk_error D') (back : D' → D) ps :
  (∀ d k r k', convert d k = (r, k') →
    quiet k k' ∧ match r with Returns a => back a = d | Throws _ => True | Aborts => False end) →
  ∀ k r k', parts_to_async convert ps k = (r, k') →
  quiet k k' ∧ match r with Returns qs => map (part_map back) qs = ps | Throws _ => True | Aborts => False end.
Proof.
  intros Hconv. induction ps as [|p ps IH]; intros k r k'; cbn [parts_to_async].
  { by intros [= <- <-]. }
  unfold mbind, prog_bind. destruct (convert (part_file p) k) as [o k1] eqn:E.
  apply Hconv in E as [Hq Ho]. destruct o as [a|e|]; [|by intros [= <- <-]|done].
  destruct (parts_to_async convert ps k1) as [o2 k2] eqn:E2. apply IH in E2 as [Hq2 Ho2].
  destruct o2 as [qs|e|]; [| |done]; intros [= <- <-]; (split; [by eapply quiet_trans|]); [|done].
  cbn. unfold part_map at 1. cbn. by rewrite Ho, Ho2, part_eta.
Qed.

Lemma to_async_disk_spec n : ∀ (d : disk n) k r k',
  to_async_disk n d k = (r, k') →
  quiet k k' ∧ match r with Returns a => into_inner n a = d | Throws _ => True | Aborts => False end.
Proof.
  induction n as [|n IH]; intros d k r k'; [destruct d|]. cbn [to_async_disk]. destruct d as [f|s|c].
  - unfold SingleFileDisk_new, mbind, prog_bind, map_err.
    destruct (is_block_file f k) as [o k1] eqn:E. apply is_block_law in E as [Hq Hna].
    destruct o as [b|e|]; [|by intros [= <- <-]|done].
    destruct (async_from f k1) as [o2 k2] eqn:E2. apply async_from_law in E2 as [Hq2 Hna2].
    destruct o2 as [[]|e|]; [| |done]; intros [= <- <-]; (split; [by eapply quiet_trans|done]).
  - unfold mbind, prog_bind, map_err. destruct (async_from _ k) as [o k1] eqn:E.
    apply async_from_law in E as [Hq Hna]. destruct o as [[]|e|]; [by intros [= <- <-]..|done].
  - unfold mbind, prog_bind. destruct (parts_to_async _ _ k) as [o k1] eqn:E.
    apply (parts_to_async_spec _ (into_inner n)) in E as [Hq Ho]; [|apply IH].
    destruct o as [qs|e|]; [| |done]; intros [= <- <-]; [|done]. split; [done|]. cbn.
    rewrite Ho. by destruct c.
Qed.

(** The parts of a composite disk under a change of representation that keeps the
    view. *)
Section part_views.
Context {D D' : Type} `{DiskView D, DiskView D'} (g : D' → D).
Context (Hok : ∀ a, disk_ok (g a) ↔ disk_ok a) (Hbyte : ∀ σ a j, disk_byte σ (g a) j = disk_byte σ a j).
Context (Hin : ∀ a, disk_inodes (g a) = disk_inodes a) (Hwin : ∀ a, disk_winodes (g a) = disk_winodes a).

Lemma part_map_covers p j : covers (part_map g p) j ↔ covers p j.
Proof. done. Qed.

Lemma part_map_byte σ ps j : parts_byte σ (map (part_map g) ps) j = parts_byte σ ps j.
Proof using Hbyte.
  induction ps as [|p ps IH]; [done|]. cbn. rewrite IH, Hbyte. by repeat case_decide.
Qed.

Lemma part_map_contiguous ps : contiguous (map (part_map g) ps) ↔ contiguous ps.
Proof.
  induction ps as [|p [|q ps] IH]; [done..|]. cbn in *. tauto.
Qed.

Lemma part_map_view (c : CompositeDiskFile D') :
  let c' := mkComposite (map (part_map g) (component_disks c)) in
  (disk_ok c' ↔ disk_ok c) ∧ (∀ σ j, disk_byte σ c' j = disk_byte σ c j) ∧
  disk_inodes c' = disk_inodes c ∧ disk_winodes c' = disk_winodes c.
Proof using All.
  cbn. split_and!.
  - rewrite part_map_contiguous, Forall_map.
    assert (separate (map (part_map g) (component_disks c)) ↔ separate (component_disks c)) as ->.
    { unfold separate. split; intros Hs i j p q Hne Hp Hq.
      - rewrite <- Hwin, <- Hin. apply (Hs i j (part_map g p) (part_map g q)); [done|..];
          by rewrite list_lookup_fmap, ?Hp, ?Hq.
      - rewrite list_lookup_fmap in Hp, Hq. apply fmap_Some in Hp as (p' & Hp & ->).
        apply fmap_Some in Hq as (q' & Hq & ->). cbn. rewrite Hwin, Hin. by apply (Hs i j). }
    assert (Forall (part_ok ∘ part_map g) (component_disks c) ↔ Forall part_ok (component_disks c)) as ->; [|done].
    apply Forall_iff. intros p. unfold part_ok. cbn. by rewrite Hok.
  - intros. apply part_map_byte.
  - f_equal. rewrite <- list_fmap_compose. apply list_fmap_ext. intros i p _. cbn. apply Hin.
  - f_equal. rewrite <- list_fmap_compose. apply list_fmap_ext. intros i p _. cbn. apply Hwin.
Qed.
End part_views.

Lemma into_inner_view n : ∀ (a : async_disk n),
  (disk_ok (into_inner n a) ↔ disk_ok a) ∧ (∀ σ j, disk_byte σ (into_inner n a) j = disk_byte σ a j) ∧
  disk_inodes (into_inner n a) = disk_inodes a ∧ disk_winodes (into_inner n a) = disk_winodes a.
Proof.
  induction n as [|n IH]; intros a; [destruct a|]. destruct a as [f|s|c]; [done|done|].
  apply (part_map_view (into_inner n)); intros; apply IH.
Qed.
End conversion_facts.

Section effect.
Context {K D : Type} `{HostFiles K} `{HostAsync K} `{AsyncDisk K D} `{DiskView D} `{SyncView D}.
Implicit Types (k : K) (d : D).

(** The disk has [n] bytes: those it had, then zeros. *)
Definition resized k k' d d' (n : Z) : Prop :=
  same_shape d d' ∧ framed k k' d ∧ marked k k' d d' ∧
  ∀ j, 0 <= j < n → disk_byte (contents k') d' j = Some (default (U8 0) (disk_byte (contents k) d j)).

(** A disk of [n] bytes can be allocated without a change, and says how long it is. *)
Definition allocatable k d (n : u64) : Prop :=
  (∀ k1 r k2 d2, contents k1 = contents k → async_allocate (U64 0) n (k1, d) = (r, (k2, d2)) →
    d2 = d ∧ contents k2 = contents k1 ∧ r ≠ Aborts ∧ framed k1 k2 d ∧ marked k1 k2 d d) ∧
  (∀ k1 r k2 d2, contents k1 = contents k → async_get_len (k1, d) = (r, (k2, d2)) →
    quiet k1 k2 ∧ d2 = d ∧ match r with Returns m => m = n | Throws _ => True | Aborts => False end).
End effect.

Class ResizeLaws (K D : Type) `{HostFiles K} `{HostAsync K} `{AsyncDisk K D} `{DiskView D} `{SyncView D} : Prop :=
  set_len_law (n : u64) (k : K) (d : D) r k' d' :
    disk_ok d → async_set_len n (k, d) = (r, (k', d')) →
    match r with
    | Returns _ => resized k k' d d' n ∧ allocatable k' d' n
    | Throws _ => quiet k k' ∧ d' = d
    | Aborts => False
    end.

Section single_file.
Context {K : Type} `{HostLaws K} `{!HostAsync K, !HostAsyncLaws K}.
Implicit Types (d : SingleFileDisk) (k : K).

Lemma byte_at_resized data (n j : Z) :
  0 <= j < n → byte_at (takeZ n data ++ zeros (n - lengthZ data)) j = Some (default (U8 0) (byte_at data j)).
Proof.
  intros Hj. pose proof (lengthZ_nonneg data). destruct (Z.lt_ge_cases j (lengthZ data)) as [Hlt|Hge].
  - assert (is_Some (byte_at data j)) as [b Hb] by (apply byte_at_is_Some; lia).
    rewrite byte_at_app_l by (rewrite lengthZ_takeZ; lia). by rewrite byte_at_takeZ, Hb by lia.
  - assert (byte_at data j = None) as ->.
    { apply eq_None_not_Some. rewrite byte_at_is_Some. lia. }
    rewrite byte_at_app_r by (rewrite lengthZ_takeZ; lia). unfold zeros. apply byte_at_replicate.
    rewrite lengthZ_takeZ by lia. lia.
Qed.

#[global] Instance SingleFile_ResizeLaws : ResizeLaws K SingleFileDisk.
Proof.
  intros n k d r k' d' _. cbn [async_set_len SingleFile_AsyncDisk]. rewrite on_file_run.
  destruct (ftruncate _ _ _) as [o k1] eqn:E. intros [= -> <- <-]. pose proof (ftruncate_law _ _ _ _ _ E) as Ho.
  destruct r as [[]|e|]; [|done|done]. destruct Ho as (data & Hd & Hch).
  set (data' := takeZ n data ++ zeros (n - lengthZ data)) in *. pose proof (uint_range n) as Hn.
  assert (contents k1 !! f_inode (sf_inner d) = Some data') as Hd' by (destruct Hch as (_ & -> & _); apply lookup_insert_eq).
  assert (lengthZ data' = n) as Hl.
  { unfold data'. pose proof (lengthZ_nonneg data). rewrite lengthZ_app, lengthZ_takeZ by lia. unfold zeros, lengthZ in *.
    rewrite length_replicate. lia. }
  split; [split; [done|split; [by eapply changes_framed|split; [by eapply changes_marked|]]]|split].
  - intros j Hj. rewrite (single_byte _ _ _ _ Hd), (single_byte _ _ _ _ Hd'). by apply byte_at_resized.
  - intros k2 r k3 d3 Hc. cbn [async_allocate SingleFile_AsyncDisk]. rewrite on_file_run.
    destruct (fallocate _ _ _ _ _) as [o k4] eqn:Ef. intros [= -> <- <-]. unfold fallocate in Ef.
    assert (quiet k2 k4 → r ≠ Aborts → d = d ∧ contents k4 = contents k2 ∧ r ≠ Aborts ∧ framed k2 k4 d ∧ marked k2 k4 d d) as Hquiet
      by (intros Hq Hna; split_and!; [done|apply Hq|done|by apply quiet_framed|by apply quiet_marked..]).
    destruct (2 ^ 63 <=? U64 0); [injection Ef as <- <-; by apply Hquiet|].
    destruct (2 ^ 63 <=? n); [injection Ef as <- <-; by apply Hquiet|].
    apply fallocate_law in Ef. destruct r as [[]|e|]; [|by apply Hquiet|done].
    destruct Ef as (data2 & Hd2 & Hch2). pose proof Hch2 as (Hw & Hc4 & Hcl). rewrite Hc, Hd' in Hd2. injection Hd2 as <-.
    assert (zeros (U64 0 + n - lengthZ data') = []) as Hz by (rewrite Hl; unfold zeros; by replace (Z.to_nat _) with O by (change (uval (U64 0)) with 0; lia)).
    rewrite Hz, app_nil_r in Hc4. split; [done|]. split; [rewrite Hc4, Hc; by apply insert_id|].
    split; [done|]. split; [by eapply changes_framed|by eapply changes_marked].
  - intros k2 r k3 d3 Hc. cbn [async_get_len SingleFile_AsyncDisk]. rewrite on_file_run.
    destruct (lseek_end _ _) as [o k4] eqn:El. intros [= -> <- <-]. split; [by eapply lseek_end_quiet|]. split; [done|].
    apply lseek_end_law in El as (_ & _ & Ho). destruct r as [m|e|]; [|done|done].
    destruct Ho as (_ & data2 & Hd2 & Hm). rewrite Hc, Hd' in Hd2. injection Hd2 as <-. apply uint_eq. lia.
Qed.

#[global] Instance Sparse_ResizeLaws : ResizeLaws K AndroidSparse.
Proof. intros n k d r k' d' _ [= <- <- <-]. split; [apply quiet_refl|done]. Qed.
End single_file.

#[global] Instance Composite_ResizeLaws {K D} `{HostFiles K} `{HostAsync K} `{AsyncDisk K D} `{DiskView D} `{SyncView D} :
  ResizeLaws K (CompositeDiskFile D).
Proof. intros n k d r k' d' _ [= <- <- <-]. split; [apply quiet_refl|done]. Qed.

Section any.
Context {K D : Type} `{HostLaws K} `{!HostAsync K, !HostAsyncLaws K}.
Context `{!AsyncDisk K D, !DiskView D, !SyncView D}.

#[global] Instance any_ResizeLaws : ResizeLaws K (any_async D).
Proof.
  intros n k [f|s|c] r k' d' Hok; cbn [async_set_len any_AsyncDisk async_dispatch].
  - destruct (async_set_len n (k, f)) as [o [k1 x]] eqn:E. intros [= -> <- <-].
    pose proof (set_len_law n k f _ _ _ Hok E) as Ho. destruct r as [[]|e|]; [|by destruct Ho as [? ->]|done].
    destruct Ho as [Hr [Ha Hg]]. split; [done|]. split.
    + intros k2 r k3 d3 Hc. cbn [async_allocate any_AsyncDisk async_dispatch].
      destruct (async_allocate (U64 0) n (k2, x)) as [o [k4 y]] eqn:Ea. intros [= -> <- <-].
      destruct (Ha _ _ _ _ Hc Ea) as (-> & ? & ? & ? & ?). done.
    + intros k2 r k3 d3 Hc. cbn [async_get_len any_AsyncDisk async_dispatch].
      destruct (async_get_len (k2, x)) as [o [k4 y]] eqn:Ea. intros [= -> <- <-].
      destruct (Hg _ _ _ _ Hc Ea) as (? & -> & ?). done.
  - intros [= <- <- <-]. split; [apply quiet_refl|done].
  - intros [= <- <- <-]. split; [apply quiet_refl|done].
Qed.
End any.

#[global] Instance async_disk_ResizeLaws {K} `{HostLaws K} `{!HostAsync K, !HostAsyncLaws K} n :
  ResizeLaws K (async_disk n).
Proof. destruct n as [|n]; [by intros m k []|apply any_ResizeLaws]. Qed.
