(* ===== verification/BlockDevice.v ===== *)
(** * The block device

    The requests of the virtio block device: [execute_request],
    [process_one_request] and [flush_disk] and [resize] of
    [devices/src/virtio/block/asynchronous.rs], with the constants of the module
    [block] of [device_constants.rs] and the transfers between descriptor chains
    and disks of [descriptor_utils.rs].

    The locks around the state of the disk are not in the model: a task that holds
    one runs to its end before another task does.  Log messages have no effect. *)

From S2P Require Import Prelude StdIo Checked Bits GuestMemory DescriptorUtils.
From S2P Require Import DiskFile SparseImage CompositeDisk AsyncDisk.

(** ** Constants *)

Definition VIRTIO_BLK_T_IN : u32 := U32 0.
Definition VIRTIO_BLK_T_OUT : u32 := U32 1.
Definition VIRTIO_BLK_T_FLUSH : u32 := U32 4.
Definition VIRTIO_BLK_T_GET_ID : u32 := U32 8.
Definition VIRTIO_BLK_T_DISCARD : u32 := U32 11.
Definition VIRTIO_BLK_T_WRITE_ZEROES : u32 := U32 13.

Definition VIRTIO_BLK_S_OK : u8 := U8 0.
Definition VIRTIO_BLK_S_IOERR : u8 := U8 1.
Definition VIRTIO_BLK_S_UNSUPP : u8 := U8 2.

Definition VIRTIO_BLK_DISCARD_WRITE_ZEROES_FLAG_UNMAP : u32 := U32 1.

Definition SECTOR_SHIFT : Z := 9.
Definition SECTOR_SIZE : u64 := U64 512.
Definition ID_LEN : nat := 20.

Definition EROFS : Z := 30.
Definition EIO : Z := 5.

(** The structures a driver sends. *)
Record virtio_blk_req_header := mkReqHeader { req_type : u32; req_sector : u64 }.
Definition req_header_of (bs : list u8) : virtio_blk_req_header :=
  mkReqHeader (U32 (le_field bs 0 4)) (U64 (le_field bs 8 8)).

Record virtio_blk_discard_write_zeroes := mkSegment {
  seg_sector : u64;
  seg_num_sectors : u32;
  seg_flags : u32
}.
Definition segment_of (bs : list u8) : virtio_blk_discard_write_zeroes :=
  mkSegment (U64 (le_field bs 0 8)) (U32 (le_field bs 8 4)) (U32 (le_field bs 12 4)).

(** [u64::checked_shl]: it fails if the shift is too large, not if bits are lost. *)
Definition checked_shl (x : u64) (n : Z) : option u64 :=
  if n <? 64 then Some (U64 (Z.shiftl x n)) else None.

(** ** Errors

    The errors of the command tube, [ReceivingCommand] and [SendingResponse], are not
    errors of a request. *)

Inductive ExecuteError :=
| CopyId (e : IoError)
| DiscardWriteZeroes (ioerr : option disk_error) (sector : u64) (num_sectors flags : u32)
| Flush (e : disk_error)
| MissingStatus
| OutOfRange
| Read (e : IoError)
| ReadIo (length sector : u64) (desc_error : disk_error)
| ReadOnly (request_type : u32)
| TimerReset (e : io_error)
| Unsupported (request_type : u32)
| WriteIo (length sector : u64) (desc_error : disk_error)
| WriteStatus (e : IoError).

Definition status (e : ExecuteError) : u8 :=
  match e with
  | Unsupported _ => VIRTIO_BLK_S_UNSUPP
  | _ => VIRTIO_BLK_S_IOERR
  end.

Inductive ControlError := FlushTimer | FsyncDisk (e : disk_error).

(** ** The state *)

(** [DiskState], with the size that the workers share. *)
Record DiskState (D : Type) := mkDiskState {
  disk_image : D;
  read_only : bool;
  sparse : bool;
  disk_id : option (list u8);
  disk_size : u64
}.
Arguments mkDiskState {D} _ _ _ _ _.
Arguments disk_image {D} _.
Arguments read_only {D} _.
Arguments sparse {D} _.
Arguments disk_id {D} _.
Arguments disk_size {D} _.

Definition set_image {D} (d : D) (s : DiskState D) : DiskState D :=
  mkDiskState d (read_only s) (sparse s) (disk_id s) (disk_size s).
Definition set_size {D} (n : u64) (s : DiskState D) : DiskState D :=
  mkDiskState (disk_image s) (read_only s) (sparse s) (disk_id s) n.

(** The timer of the host: [reset] with a duration in seconds, and [clear]. *)
Class HostTimer (K : Type) := {
  timer_reset : u64 → prog K io_error ();
  timer_clear : prog K io_error ()
}.

(** What a request acts on: the host, the disk, the flag [flush_timer_armed], the
    memory of the guest, and the two halves of its descriptor chain. *)
Record Request (K D : Type) := mkRequest {
  rq_kernel : K;
  rq_state : DiskState D;
  rq_armed : bool;
  rq_host : host;
  rq_reader : DescriptorChainRegions;
  rq_writer : DescriptorChainRegions
}.
Arguments mkRequest {K D} _ _ _ _ _ _.
Arguments rq_kernel {K D} _.
Arguments rq_state {K D} _.
Arguments rq_armed {K D} _.
Arguments rq_host {K D} _.
Arguments rq_reader {K D} _.
Arguments rq_writer {K D} _.

(** ** Transfers between a chain and a disk *)

Section transfers.
Context {K D : Type} `{AsyncDisk K D} (mem : GuestMemory).

Abbreviation Transfer := (prog (K * D * host * DescriptorChainRegions) disk_error).

(** [get_remaining_regions_with_count] as an iterator. *)
Definition remaining_iter (d : DescriptorChainRegions) (count : u64) : MemRegionIter :=
  take_bytes (MkIter (current_regions d) (current_region_offset d)
                (usub usize_max (current_region_offset d))) count.

(** [self.regions.consume(n)]. *)
Definition consume_regions (n : u64) : Transfer () :=
  '(s, d) ← get_state; d' ← checked (consume d n); put_state (s, d').

Definition on_disk_mem {A} (m : prog (K * D * host) disk_error A) : Transfer A :=
  zoom fst (λ t s, (t, s.2)) m.

Definition read_to_at_fut (count off : u64) : Transfer u64 :=
  '(_, d) ← get_state;
  written ← on_disk_mem (write_from_mem mem off (remaining_iter d count));
  consume_regions written;;
  mret written.

Definition write_from_at_fut (count off : u64) : Transfer u64 :=
  '(_, d) ← get_state;
  read ← on_disk_mem (read_to_mem mem off (remaining_iter d count));
  consume_regions read;;
  mret read.

(** The loop of [read_exact_to_at_fut] and of [write_all_from_at_fut]; a transfer
    moves at least a byte or is the last one, so that as many rounds as there are
    bytes are enough. *)
Fixpoint exact_loop (fuel : nat) (step : u64 → u64 → Transfer u64) (eof : disk_error) (count off : u64)
    : Transfer () :=
  if 0 <? count then
    match fuel with
    | O => abort
    | S fuel =>
        n ← step count off;
        if uval n =? 0 then throw eof
        else
          count ← checked (sub_checked count n);
          off ← checked (add_checked off n);
          exact_loop fuel step eof count off
    end
  else mret ().

Definition read_exact_to_at_fut (count off : u64) : Transfer () :=
  exact_loop (Z.to_nat count) read_to_at_fut (ReadingData (KindError StdIo.UnexpectedEof)) count off.
Definition write_all_from_at_fut (count off : u64) : Transfer () :=
  exact_loop (Z.to_nat count) write_from_at_fut (WritingData (KindError StdIo.UnexpectedEof)) count off.
End transfers.

(** ** Requests *)

Section requests.
Context {K D : Type} `{AsyncDisk K D} `{HostTimer K} (mem : GuestMemory).

Abbreviation Exec := (prog (Request K D) ExecuteError).

(** Operations on the parts of the state. *)
Definition on_reader {E A} (m : prog (DescriptorChainRegions * host) E A) : prog (Request K D) E A :=
  zoom (λ s, (rq_reader s, rq_host s))
    (λ t s, mkRequest (rq_kernel s) (rq_state s) (rq_armed s) t.2 t.1 (rq_writer s)) m.
Definition on_writer {E A} (m : prog (DescriptorChainRegions * host) E A) : prog (Request K D) E A :=
  zoom (λ s, (rq_writer s, rq_host s))
    (λ t s, mkRequest (rq_kernel s) (rq_state s) (rq_armed s) t.2 (rq_reader s) t.1) m.
Definition on_disk {E A} (m : prog (K * D) E A) : prog (Request K D) E A :=
  zoom (λ s, (rq_kernel s, disk_image (rq_state s)))
    (λ t s, mkRequest t.1 (set_image t.2 (rq_state s)) (rq_armed s) (rq_host s) (rq_reader s) (rq_writer s)) m.
Definition on_timer {E A} (m : prog K E A) : prog (Request K D) E A :=
  zoom rq_kernel
    (λ t s, mkRequest t (rq_state s) (rq_armed s) (rq_host s) (rq_reader s) (rq_writer s)) m.
Definition from_reader {E A} (m : prog (K * D * host * DescriptorChainRegions) E A)
    : prog (Request K D) E A :=
  zoom (λ s, (rq_kernel s, disk_image (rq_state s), rq_host s, rq_reader s))
    (λ t s, mkRequest t.1.1.1 (set_image t.1.1.2 (rq_state s)) (rq_armed s) t.1.2 t.2 (rq_writer s)) m.
Definition to_writer {E A} (m : prog (K * D * host * DescriptorChainRegions) E A)
    : prog (Request K D) E A :=
  zoom (λ s, (rq_kernel s, disk_image (rq_state s), rq_host s, rq_writer s))
    (λ t s, mkRequest t.1.1.1 (set_image t.1.1.2 (rq_state s)) (rq_armed s) t.1.2 (rq_reader s) t.2) m.
Definition set_armed (b : bool) : Exec () :=
  s ← get_state;
  put_state (mkRequest (rq_kernel s) (rq_state s) b (rq_host s) (rq_reader s) (rq_writer s)).

Definition check_range (io_start io_length disk_size : u64) : outcome ExecuteError () :=
  io_end ← ok_or_else (add_checked io_start io_length) OutOfRange;
  if disk_size <? uval io_end then Throws OutOfRange else Returns ().

Definition execute_in (sector disk_size : u64) : Exec () :=
  s ← get_state;
  data_len ← checked (available_bytes (rq_writer s));
  if uval data_len =? 0 then mret ()
  else
    offset ← ok_or_throw (checked_shl sector SECTOR_SHIFT) OutOfRange;
    give_outcome (check_range offset data_len disk_size);;
    map_err (ReadIo data_len sector) (to_writer (write_all_from_at_fut mem data_len offset)).

Definition execute_out (sector disk_size : u64) : Exec () :=
  s ← get_state;
  data_len ← checked (available_bytes (rq_reader s));
  if uval data_len =? 0 then mret ()
  else
    offset ← ok_or_throw (checked_shl sector SECTOR_SHIFT) OutOfRange;
    give_outcome (check_range offset data_len disk_size);;
    map_err (WriteIo data_len sector) (from_reader (read_exact_to_at_fut mem data_len offset));;
    s ← get_state;
    if rq_armed s then mret ()
    else
      set_armed true;;
      map_err TimerReset (on_timer (timer_reset (U64 60))).

(** One segment of a discard or write zeroes request. *)
Definition execute_segment (req_type : u32) (seg : virtio_blk_discard_write_zeroes) (disk_size : u64) : Exec () :=
  let sector := seg_sector seg in
  let num_sectors := seg_num_sectors seg in
  let flags := seg_flags seg in
  let valid_flags :=
    if req_type =? VIRTIO_BLK_T_WRITE_ZEROES then VIRTIO_BLK_DISCARD_WRITE_ZEROES_FLAG_UNMAP else U32 0 in
  if negb (uval (uand flags (unot valid_flags)) =? 0) then
    throw (DiscardWriteZeroes None sector num_sectors flags)
  else
    offset ← ok_or_throw (checked_shl sector SECTOR_SHIFT) OutOfRange;
    length ← ok_or_throw (checked_shl (U64 num_sectors) SECTOR_SHIFT) OutOfRange;
    give_outcome (check_range offset length disk_size);;
    if req_type =? VIRTIO_BLK_T_DISCARD then attempt (on_disk (punch_hole offset length));; mret ()
    else
      map_err (λ e, DiscardWriteZeroes (Some e) sector num_sectors flags)
        (on_disk (write_zeroes_at offset length)).

(** A round takes a segment, so that as many rounds as there are segments are
    enough. *)
Fixpoint execute_segments (fuel : nat) (req_type : u32) (disk_size : u64) : Exec () :=
  s ← get_state;
  n ← checked (available_bytes (rq_reader s));
  if 16 <=? uval n then
    match fuel with
    | O => abort
    | S fuel =>
        bs ← map_err Read (on_reader (reader_read_obj mem 16));
        execute_segment req_type (segment_of bs) disk_size;;
        execute_segments fuel req_type disk_size
    end
  else mret ().

Definition execute_discard_write_zeroes (req_type : u32) (disk_size : u64) : Exec () :=
  s ← get_state;
  if (req_type =? VIRTIO_BLK_T_DISCARD) && negb (sparse (rq_state s)) then mret ()
  else
    n ← checked (available_bytes (rq_reader s));
    execute_segments (Z.to_nat (uval n / 16)) req_type disk_size.

Definition execute_flush : Exec () :=
  map_err Flush (on_disk async_fdatasync);;
  s ← get_state;
  if rq_armed s then
    map_err TimerReset (on_timer timer_clear);;
    set_armed false
  else mret ().

Definition execute_get_id (req_type : u32) : Exec () :=
  s ← get_state;
  match disk_id (rq_state s) with
  | Some id => map_err CopyId (on_writer (Writer_write_obj mem id))
  | None => throw (Unsupported req_type)
  end.

Definition execute_request : Exec () :=
  bs ← map_err Read (on_reader (reader_read_obj mem 16));
  let req_header := req_header_of bs in
  let req_type := req_type req_header in
  let sector := req_sector req_header in
  s ← get_state;
  if read_only (rq_state s) && negb (req_type =? VIRTIO_BLK_T_IN) && negb (req_type =? VIRTIO_BLK_T_GET_ID)
  then throw (ReadOnly req_type)
  else
    let disk_size := disk_size (rq_state s) in
    if req_type =? VIRTIO_BLK_T_IN then execute_in sector disk_size
    else if req_type =? VIRTIO_BLK_T_OUT then execute_out sector disk_size
    else if (req_type =? VIRTIO_BLK_T_DISCARD) || (req_type =? VIRTIO_BLK_T_WRITE_ZEROES)
    then execute_discard_write_zeroes req_type disk_size
    else if req_type =? VIRTIO_BLK_T_FLUSH then execute_flush
    else if req_type =? VIRTIO_BLK_T_GET_ID then execute_get_id req_type
    else throw (Unsupported req_type).

Definition process_one_request : Exec u64 :=
  s ← get_state;
  available_bytes ← checked (available_bytes (rq_writer s));
  status_offset ← ok_or_throw (sub_checked available_bytes (U64 1)) MissingStatus;
  '(writer, status_writer) ← checked (regions_split_at (rq_writer s) status_offset);
  put_state (mkRequest (rq_kernel s) (rq_state s) (rq_armed s) (rq_host s) (rq_reader s) writer);;
  r ← catch execute_request;
  let status := match r with inl _ => VIRTIO_BLK_S_OK | inr e => status e end in
  map_err WriteStatus
    (zoom (λ s, (status_writer, rq_host s))
       (λ t s, mkRequest (rq_kernel s) (rq_state s) (rq_armed s) t.2 (rq_reader s) (rq_writer s))
       (Writer_write_obj mem [status]));;
  mret available_bytes.
End requests.

(** ** Control *)

Section control.
Context {K D : Type} `{AsyncDisk K D}.

Inductive DiskControlResult := ControlOk | ControlErr (errno : Z).

(** An operation on the image in the state of the disk. *)
Definition on_image {E A} (m : prog (K * D) E A) : prog (K * DiskState D) E A :=
  zoom (λ s, (s.1, disk_image s.2)) (λ t s, (t.1, set_image t.2 s.2)) m.

Definition resize (new_size : u64) : prog (K * DiskState D) Empty_set DiskControlResult :=
  '(_, s) ← get_state;
  if read_only s then mret (ControlErr EROFS)
  else
    r ← attempt (on_image (async_set_len new_size));
    match r with
    | None => mret (ControlErr EIO)
    | Some _ =>
        a ← (if sparse s then mret (Some ()) else attempt (on_image (async_allocate (U64 0) new_size)));
        match a with
        | None => mret (ControlErr EIO)
        | Some _ =>
            l ← attempt (on_image async_get_len);
            (match l with
             | Some new_disk_size => '(k, s) ← get_state; put_state (k, set_size new_disk_size s)
             | None => mret ()
             end);;
            mret ControlOk
        end
    end.

(** The body of the loop of [flush_disk], after the timer fired; the flag is part
    of the state. *)
Definition flush_disk : prog (K * DiskState D * bool) ControlError () :=
  '(k, s, armed) ← get_state;
  if armed : bool then
    put_state (k, s, false);;
    map_err FsyncDisk (zoom fst (λ t s, (t, s.2)) (on_image async_fsync))
  else mret ().
End control.
