(* ===== verification/BlockFacts.v ===== *)
(** * Transfers of the block device

    A transfer between a descriptor chain and a disk that keeps the contract of
    [AsyncDisk] moves all of its bytes or stops at an error of the host; the disk is
    seen as an image, a list of bytes as long as the device says it is. *)

From S2P Require Import Prelude StdIo Checked Bits GuestMemory GuestMemoryFacts DescriptorUtils StreamFacts.
From S2P Require Import DiskFile DiskFacts SparseImage CompositeDisk AsyncDisk AsyncFacts BlockDevice.

(** ** Images *)

Section images.
Context {K D : Type} `{HostFiles K} `{HostAsync K} `{DiskView D} `{SyncView D}.
Implicit Types (k : K) (d : D).

(** [b] is the byte at [j]. *)
Lemma shows_at σ d img j b : shows σ d 0 img → byte_at img j = Some b → disk_byte σ d j = Some b.
Proof.
  intros Hs [Hj Hb]%byte_at_Some. pose proof (Hs _ _ Hb) as Hd.
  by rewrite Z.add_0_l, Z2Nat.id in Hd by done.
Qed.

Lemma shows_readable σ d img off n :
  shows σ d 0 img → 0 <= off → off + n <= lengthZ img → readable σ d off n.
Proof.
  intros Hs Hoff Hn j Hj. assert (is_Some (byte_at img j)) as [b Hb] by (apply byte_at_is_Some; lia).
  exists b. by eapply shows_at.
Qed.

Lemma list_eq_byte_at (l l' : list u8) :
  lengthZ l = lengthZ l' → (∀ j, 0 <= j < lengthZ l → byte_at l j = byte_at l' j) → l = l'.
Proof.
  intros Hlen Hb. apply list_eq. intros i. rewrite <- !byte_at_lookup. unfold lengthZ in *.
  destruct (decide (i < length l)%nat); [apply Hb; lia|].
  rewrite !byte_at_lookup, !lookup_ge_None_2 by lia. done.
Qed.

Lemma byte_at_sub l off n j :
  0 <= off → 0 <= j < n → byte_at (takeZ n (dropZ off l)) j = byte_at l (off + j).
Proof. intros ??. by rewrite byte_at_takeZ, byte_at_dropZ by lia. Qed.

(** The bytes of the disk at an offset are a part of its image. *)
Lemma shows_slice σ d img off bs :
  shows σ d 0 img → shows σ d off bs → 0 <= off → off + lengthZ bs <= lengthZ img →
  bs = takeZ (lengthZ bs) (dropZ off img).
Proof.
  intros Himg Hbs Hoff Hfit. pose proof (lengthZ_nonneg bs). apply list_eq_byte_at.
  - rewrite lengthZ_takeZ, lengthZ_dropZ by lia. lia.
  - intros j Hj. rewrite byte_at_sub by lia.
    assert (is_Some (byte_at bs j)) as [b Hb] by (by apply byte_at_is_Some).
    assert (is_Some (byte_at img (off + j))) as [c Hc] by (apply byte_at_is_Some; lia).
    rewrite Hb, Hc. apply (shows_at _ _ _ _ _ Himg) in Hc. apply byte_at_Some in Hb as [_ Hb].
    apply Hbs in Hb. rewrite Z2Nat.id in Hb by lia. congruence.
Qed.

(** The image after bytes were written. *)
Lemma written_image k k' d d' img off bs m :
  shows (contents k) d 0 img → written k k' d d' off bs m → 0 <= off → off + m <= lengthZ img →
  shows (contents k') d' 0 (overwrite img off (takeZ m bs)) ∧
  lengthZ (overwrite img off (takeZ m bs)) = lengthZ img.
Proof.
  intros Himg (Hm & Hsh & Hsp & _) Hoff Hfit.
  assert (lengthZ (takeZ m bs) = m) as Hl by (rewrite lengthZ_takeZ; lia).
  split; [|apply lengthZ_overwrite; lia]. intros i b Hb. rewrite Z.add_0_l. rewrite <- byte_at_lookup in Hb.
  destruct (decide (off <= Z.of_nat i < off + m)) as [Hin|Hout].
  - rewrite byte_at_overwrite_in in Hb by lia. apply byte_at_Some in Hb as [Hj Hb].
    apply Hsh in Hb. rewrite Z2Nat.id in Hb by lia. by replace (off + (Z.of_nat i - off)) with (Z.of_nat i) in Hb by lia.
  - assert (is_Some (byte_at img (Z.of_nat i))) as [c Hc].
    { apply byte_at_is_Some. assert (is_Some (byte_at (overwrite img off (takeZ m bs)) (Z.of_nat i))) as Hs by eauto.
      apply byte_at_is_Some in Hs. rewrite lengthZ_overwrite in Hs by lia. done. }
    rewrite (byte_at_overwrite_out img off (takeZ m bs) _ c) in Hb by (done || lia). simplify_eq.
    apply Hsp; [done|]. by eapply shows_at.
Qed.

(** Two images that differ in a range at most. *)
Definition same_outside (img img' : list u8) (off n : Z) : Prop :=
  lengthZ img' = lengthZ img ∧ ∀ j, ¬ (off <= j < off + n) → byte_at img' j = byte_at img j.

(** The image of a disk that shows a byte at every offset below [n]. *)
Definition image_of (σ : store) d (n : Z) : list u8 :=
  map (λ j, default (U8 0) (disk_byte σ d (Z.of_nat j))) (seq 0 (Z.to_nat n)).

Lemma image_of_shows σ d n : readable σ d 0 n → 0 <= n → shows σ d 0 (image_of σ d n) ∧ lengthZ (image_of σ d n) = n.
Proof.
  intros Hrd Hn. unfold image_of. split.
  - intros i b Hb. apply list_lookup_fmap_Some in Hb as (j & -> & [-> Hj]%lookup_seq). rewrite Z.add_0_l, Nat.add_0_l.
    destruct (Hrd (Z.of_nat i)) as [c Hc]; [lia|]. by rewrite Hc.
  - unfold lengthZ. rewrite length_map, length_seq. lia.
Qed.

Lemma touched_image k k' d d' img off n :
  shows (contents k) d 0 img → touched k k' d d' off n →
  ∃ img', shows (contents k') d' 0 img' ∧ same_outside img img' off n.
Proof.
  intros Himg Ht. pose proof (lengthZ_nonneg img).
  assert (readable (contents k') d' 0 (lengthZ img)) as Hrd.
  { eapply touched_readable; [done|]. apply (shows_readable _ _ img); [done|lia|lia]. }
  destruct (image_of_shows _ _ _ Hrd ltac:(done)) as [Hs Hl]. eexists. split; [exact Hs|]. split; [exact Hl|].
  intros j Hj. destruct (byte_at img j) as [b|] eqn:Hb.
  - assert (is_Some (byte_at (image_of (contents k') d' (lengthZ img)) j)) as [c Hc].
    { rewrite byte_at_is_Some, Hl, <- byte_at_is_Some. eauto. }
    rewrite Hc. apply (shows_at _ _ _ _ _ Hs) in Hc. apply (shows_at _ _ _ _ _ Himg) in Hb.
    destruct Ht as (_ & _ & Hsp & _). apply (Hsp _ _ Hj) in Hb. congruence.
  - apply eq_None_not_Some. rewrite byte_at_is_Some, Hl, <- byte_at_is_Some, Hb. by intros []%is_Some_None.
Qed.
End images.

(** ** Transfers *)

Section transfers.
Context {K D : Type} `{AsyncLaws K D}.
Context (gm : GuestMemory) (Hgm : gm_ok gm).
Implicit Types (k : K) (d : D) (r : DescriptorChainRegions).

Lemma remaining_iter_ok r count : stream_ok gm r → iter_ok gm (remaining_iter r count).
Proof. intros Hr. apply so_valid in Hr. exact Hr. Qed.

Lemma remaining_iter_addrs r (count : u64) :
  stream_ok gm r → iter_addrs (remaining_iter r count) = takeZ count (remaining r).
Proof.
  intros Hr. unfold remaining_iter. rewrite take_bytes_addrs. f_equal. unfold iter_addrs. cbn.
  destruct Hr as [Ho _ Ht _]. pose proof (uint_range (current_region_offset r)) as Hu. cbn [Z.of_N] in Hu.
  apply takeZ_all. unfold remaining. rewrite lengthZ_dropZ by lia. 
  change (2 ^ 64) with 18446744073709551616 in *. rewrite usub_small; change (uval usize_max) with 18446744073709551615; lia.
Qed.

Lemma consume_regions_run r (n : u64) (s : K * D * host) :
  stream_ok gm r → ∃ r', consume_regions n (s, r) = (Returns (), (s, r')) ∧ stream_ok gm r' ∧
    remaining r' = dropZ n (remaining r).
Proof.
  intros Hr. destruct (consume_spec gm r n Hr) as (r' & Hrun & Hr' & _ & Hrem & _). exists r'.
  split; [|done]. unfold consume_regions. rewrite (bind_returns _ _ _ (s, r) (s, r)) by done. cbn beta iota.
  rewrite Hrun. done.
Qed.

Lemma write_from_spec (count off : u64) k d h r o k' d' h' r' :
  disk_ok d → stream_ok gm r → off + count < 2 ^ 64 →
  write_from_at_fut gm count off (k, d, h, r) = (o, (k', d', h', r')) →
  quiet k k' ∧ d' = d ∧ stream_ok gm r' ∧
  match o with
  | Returns n =>
      ∃ bs, uval n = lengthZ bs ∧ n <= count ∧ n <= lengthZ (remaining r) ∧ shows (contents k) d off bs ∧
        (∀ x, guest_byte gm h' x = StreamFacts.store (guest_byte gm h) (remaining r) bs x) ∧
        remaining r' = dropZ n (remaining r) ∧
        (0 < count → 0 < lengthZ (remaining r) → is_Some (disk_byte (contents k) d off) → 0 < n)
  | Throws e => h' = h ∧ (is_Some (disk_byte (contents k) d off) → disk_fault e)
  | Aborts => disk_byte (contents k) d off = None
  end.
Proof using All.
  intros Hok Hr Hlt. unfold write_from_at_fut. pose proof (uint_range count) as Hc.
  rewrite (bind_returns _ _ _ (k, d, h, r) (k, d, h, r)) by done. cbn beta iota.
  unfold mbind, prog_bind, on_disk_mem, zoom. cbn [fst snd].
  pose proof (remaining_iter_addrs r count Hr) as Ha. pose proof (lengthZ_nonneg (remaining r)).
  assert (lengthZ (takeZ count (remaining r)) = Z.min count (lengthZ (remaining r))) as Hl
    by (rewrite lengthZ_takeZ; lia).
  destruct (read_to_mem gm off _ (k, d, h)) as [o1 [[k1 d1] h1]] eqn:E.
  apply read_to_mem_law in E as (Hq & -> & Ho); [|done|done|by apply remaining_iter_ok|rewrite Ha; lia].
  rewrite Ha, Hl in Ho. destruct o1 as [n|e|]; [|by intros [= <- <- <- <- <-]|by intros [= <- <- <- <- <-]].
  destruct Ho as (bs & Hn & Hle & Hsh & Hg & Hprog).
  destruct (consume_regions_run r n (k1, d, h1) Hr) as (r1 & Hrun & Hr1 & Hrem). rewrite Hrun.
  intros [= <- <- <- <- <-]. do 3 (split; [done|]). exists bs.
  split_and!; [done|lia|lia|done| |done|intros; apply Hprog; lia || done].
  intros x. rewrite Hg. apply store_takeZ. lia.
Qed.

Lemma read_to_spec (count off : u64) k d h r o k' d' h' r' :
  disk_ok d → stream_ok gm r → off + count < 2 ^ 64 →
  read_to_at_fut gm count off (k, d, h, r) = (o, (k', d', h', r')) →
  h' = h ∧ stream_ok gm r' ∧
  match o with
  | Returns n =>
      written k k' d d' off (bytes_at gm h (takeZ count (remaining r))) n ∧ framed k k' d ∧ marked k k' d d' ∧
      remaining r' = dropZ n (remaining r) ∧
      (0 < count → 0 < lengthZ (remaining r) → 0 < n)
  | Throws e => quiet k k' ∧ d' = d ∧ (is_Some (disk_byte (contents k) d off) → disk_fault e)
  | Aborts => disk_byte (contents k) d off = None
  end.
Proof using All.
  intros Hok Hr Hlt. unfold read_to_at_fut. pose proof (uint_range count) as Hc.
  rewrite (bind_returns _ _ _ (k, d, h, r) (k, d, h, r)) by done. cbn beta iota.
  unfold mbind, prog_bind, on_disk_mem, zoom. cbn [fst snd].
  pose proof (remaining_iter_addrs r count Hr) as Ha. pose proof (lengthZ_nonneg (remaining r)).
  assert (lengthZ (takeZ count (remaining r)) = Z.min count (lengthZ (remaining r))) as Hl
    by (rewrite lengthZ_takeZ; lia).
  destruct (write_from_mem gm off _ (k, d, h)) as [o1 [[k1 d1] h1]] eqn:E.
  apply write_from_mem_law in E as (-> & Ho); [|done|done|by apply remaining_iter_ok|rewrite Ha; lia].
  rewrite Ha, Hl in Ho. destruct o1 as [n|e|]; [|by intros [= <- <- <- <- <-]|by intros [= <- <- <- <- <-]].
  destruct Ho as (Hwr & Hf & Hm & Hprog).
  destruct (consume_regions_run r n (k1, d1, h) Hr) as (r1 & Hrun & Hr1 & Hrem). rewrite Hrun.
  intros [= <- <- <- <- <-]. split_and!; [done..|intros; apply Hprog; lia].
Qed.

(** *** Whole transfers *)

Lemma write_all_loop_spec fuel eof : ∀ (count off : u64) k d h r o k' d' h' r',
  (Z.to_nat count ≤ fuel)%nat → disk_ok d → stream_ok gm r → count <= lengthZ (remaining r) →
  off + count < 2 ^ 64 → readable (contents k) d off count →
  exact_loop fuel (write_from_at_fut gm) eof count off (k, d, h, r) = (o, (k', d', h', r')) →
  quiet k k' ∧ d' = d ∧ stream_ok gm r' ∧
  ∃ bs, lengthZ bs <= count ∧ shows (contents k) d off bs ∧
    (∀ x, guest_byte gm h' x = StreamFacts.store (guest_byte gm h) (remaining r) bs x) ∧
    match o with Returns _ => lengthZ bs = count | Throws e => disk_fault e | Aborts => False end.
Proof using All.
  induction fuel as [|fuel IH]; intros count off k d h r o k' d' h' r' Hfuel Hok Hr Hcr Hlt Hrd;
    pose proof (uint_range count) as Hc; cbn [exact_loop].
  all: destruct (Z.ltb_spec 0 count); [|intros [= <- <- <- <- <-]; do 3 (split; [done|]); exists [];
    split_and!; [rewrite lengthZ_nil; lia|by apply shows_nil|by intros x; rewrite store_nil|rewrite lengthZ_nil; lia]].
  { lia. }
  unfold mbind at 1, prog_bind at 1.
  destruct (write_from_at_fut gm count off (k, d, h, r)) as [o1 [[[k1 d1] h1] r1]] eqn:E.
  apply write_from_spec in E as (Hq & -> & Hr1 & Ho); [|done|done|done].
  assert (is_Some (disk_byte (contents k) d off)) as Hhead by (apply Hrd; lia).
  destruct o1 as [n|e|]; [|intros [= <- <- <- <- <-]; destruct Ho as [-> He]; do 3 (split; [done|]);
    exists []; split_and!; [rewrite lengthZ_nil; lia|by apply shows_nil|by intros x; rewrite store_nil|auto]|
    rewrite Ho in Hhead; by destruct Hhead].
  destruct Ho as (bs & Hn & Hle & Hlr & Hsh & Hg & Hrem & Hprog).
  specialize (Hprog ltac:(lia) ltac:(lia) Hhead). rewrite (proj2 (Z.eqb_neq _ _)) by lia.
  destruct (sub_checked count n) as [count'|] eqn:E1; [apply sub_checked_Some in E1|apply sub_checked_None in E1; lia].
  destruct (add_checked off n) as [off'|] eqn:E2;
    [apply add_checked_Some in E2|apply add_checked_None in E2; cbn [Z.of_N] in E2; lia].
  cbn [checked]. rewrite (bind_returns _ _ _ count' (k1, d, h1, r1)), (bind_returns _ _ _ off' (k1, d, h1, r1)) by done.
  destruct Hq as [Hcont Hclean]. intros E. apply IH in E; [|lia|done|done| |lia|].
  - destruct E as (Hq2 & -> & Hr2 & bs2 & Hl2 & Hsh2 & Hg2 & Ho2). rewrite Hcont in Hsh2.
    split; [by eapply quiet_trans|]. do 2 (split; [done|]). exists (bs ++ bs2). rewrite lengthZ_app.
    split_and!; [lia| | |destruct o; done || lia].
    + apply shows_app. split; [done|]. by rewrite <- Hn, <- E2.
    + intros x. rewrite Hg2, Hrem, Hn, store_split. by apply store_ext.
  - rewrite Hrem, lengthZ_dropZ by lia. lia.
  - rewrite Hcont. apply (readable_sub _ _ off count); [done|lia|lia].
Qed.

Lemma bytes_at_part h l (count n : Z) :
  0 <= n <= count → bytes_at gm h (takeZ (count - n) (dropZ n l)) = dropZ n (bytes_at gm h (takeZ count l)).
Proof.
  intros Hn. unfold bytes_at. rewrite !takeZ_take, !dropZ_drop, skipn_map, skipn_firstn_comm. do 2 f_equal. lia.
Qed.

Lemma read_exact_loop_spec fuel eof : ∀ (count off : u64) k d h r o k' d' h' r',
  (Z.to_nat count ≤ fuel)%nat → disk_ok d → stream_ok gm r → count <= lengthZ (remaining r) →
  off + count < 2 ^ 64 → readable (contents k) d off count →
  exact_loop fuel (read_to_at_fut gm) eof count off (k, d, h, r) = (o, (k', d', h', r')) →
  h' = h ∧ stream_ok gm r' ∧
  ∃ m, written k k' d d' off (bytes_at gm h (takeZ count (remaining r))) m ∧ framed k k' d ∧ marked k k' d d' ∧
    match o with Returns _ => m = count | Throws e => disk_fault e | Aborts => False end.
Proof using All.
  induction fuel as [|fuel IH]; intros count off k d h r o k' d' h' r' Hfuel Hok Hr Hcr Hlt Hrd;
    pose proof (uint_range count) as Hc; cbn [exact_loop].
  all: destruct (Z.ltb_spec 0 count); [|intros [= <- <- <- <- <-]; do 2 (split; [done|]); exists 0;
    split_and!; [by apply written_0|by apply quiet_framed|by apply quiet_marked|lia]].
  { lia. }
  unfold mbind at 1, prog_bind at 1.
  destruct (read_to_at_fut gm count off (k, d, h, r)) as [o1 [[[k1 d1] h1] r1]] eqn:E.
  apply read_to_spec in E as (-> & Hr1 & Ho); [|done|done|done].
  assert (is_Some (disk_byte (contents k) d off)) as Hhead by (apply Hrd; lia).
  destruct o1 as [n|e|]; [|intros [= <- <- <- <- <-]; destruct Ho as (Hq & -> & He); do 2 (split; [done|]);
    exists 0; split_and!; [apply written_0; [done|apply Hq]|by apply quiet_framed|by apply quiet_marked|auto]|
    rewrite Ho in Hhead; by destruct Hhead].
  destruct Ho as (Hwr & Hf & Hm & Hrem & Hprog). specialize (Hprog ltac:(lia) ltac:(lia)).
  rewrite (proj2 (Z.eqb_neq _ _)) by lia.
  assert (n <= count) as Hle.
  { destruct Hwr as (Hb & _). rewrite lengthZ_bytes_at, lengthZ_takeZ in Hb by lia. lia. }
  destruct (sub_checked count n) as [count'|] eqn:E1; [apply sub_checked_Some in E1|apply sub_checked_None in E1; lia].
  destruct (add_checked off n) as [off'|] eqn:E2;
    [apply add_checked_Some in E2|apply add_checked_None in E2; cbn [Z.of_N] in E2; lia].
  cbn [checked]. rewrite (bind_returns _ _ _ count' (k1, d1, h, r1)), (bind_returns _ _ _ off' (k1, d1, h, r1)) by done.
  pose proof Hwr as (_ & _ & _ & Hok1 & _ & Hw1 & _). intros E. apply IH in E; [|lia|done|done| |lia|].
  - destruct E as (-> & Hr2 & m & Hwr2 & Hf2 & Hm2 & Ho2). do 2 (split; [done|]). exists (n + m).
    rewrite Hrem, E1, E2, bytes_at_part in Hwr2 by lia. split_and!; [by eapply written_step|by eapply framed_trans|
      by eapply marked_trans|destruct o; done || lia].
  - rewrite Hrem, lengthZ_dropZ by lia. lia.
  - eapply written_readable; [exact Hwr|]. apply (readable_sub _ _ off count); [done|lia|lia].
Qed.
End transfers.
