(* ===== verification/BlockSpec.v ===== *)
(** * The block device as an image

    An abstract block device is a list of bytes, and a request is a step on it:
    [blk_step] has a rule for every kind of request and every way it can end.  The
    requests of [BlockDevice] refine it. *)

From S2P Require Import Prelude StdIo Checked Bits GuestMemory GuestMemoryFacts DescriptorUtils StreamFacts.
From S2P Require Import DiskFile DiskFacts SparseImage CompositeDisk AsyncDisk AsyncFacts BlockDevice BlockFacts.

(** ** The abstract device *)

(** What of the configuration matters to requests. *)
Record blk_config := mkBlkConfig { cf_read_only : bool; cf_sparse : bool; cf_id : option (list u8) }.

(** The byte at which a sector starts; the shift drops the high bits of the number
    of the sector. *)
Definition sector_start (sector : u64) : Z := (sector * 512) mod 2 ^ 64.

Definition header (bs : list u8) : virtio_blk_req_header := req_header_of (takeZ 16 bs).
Definition blk_payload (bs : list u8) : list u8 := dropZ 16 bs.

(** The flags a segment may have. *)
Definition flags_ok (t : u32) (seg : virtio_blk_discard_write_zeroes) : Prop :=
  uval (seg_flags seg) = 0 ∨ (t = VIRTIO_BLK_T_WRITE_ZEROES ∧ uval (seg_flags seg) = 1).

Definition seg_len (seg : virtio_blk_discard_write_zeroes) : Z := seg_num_sectors seg * 512.

Definition seg_error (seg : virtio_blk_discard_write_zeroes) (e : option disk_error) : ExecuteError :=
  DiscardWriteZeroes e (seg_sector seg) (seg_num_sectors seg) (seg_flags seg).

(** A segment of a discard or write zeroes request: the error it ends with, whether a
    call of the host failed in it, and the image after it. *)
Inductive seg_step (t : u32) (img : list u8) (seg : virtio_blk_discard_write_zeroes) :
    option ExecuteError → bool → list u8 → Prop :=
| seg_bad_flags : ¬ flags_ok t seg → seg_step t img seg (Some (seg_error seg None)) false img
| seg_out_of_range :
    flags_ok t seg → lengthZ img < sector_start (seg_sector seg) + seg_len seg →
    seg_step t img seg (Some OutOfRange) false img
| seg_discard fault img' :
    flags_ok t seg → sector_start (seg_sector seg) + seg_len seg <= lengthZ img →
    t = VIRTIO_BLK_T_DISCARD → same_outside img img' (sector_start (seg_sector seg)) (seg_len seg) →
    seg_step t img seg None fault img'
| seg_zeroes :
    flags_ok t seg → sector_start (seg_sector seg) + seg_len seg <= lengthZ img →
    t = VIRTIO_BLK_T_WRITE_ZEROES →
    seg_step t img seg None false (overwrite img (sector_start (seg_sector seg)) (zeros (seg_len seg)))
| seg_zeroes_fault e img' :
    flags_ok t seg → sector_start (seg_sector seg) + seg_len seg <= lengthZ img →
    t = VIRTIO_BLK_T_WRITE_ZEROES → disk_fault e →
    same_outside img img' (sector_start (seg_sector seg)) (seg_len seg) →
    seg_step t img seg (Some (seg_error seg (Some e))) true img'.

(** The segments of a request, in order; the first error ends it. *)
Inductive segs_step (t : u32) : list u8 → list u8 → option ExecuteError → bool → list u8 → Prop :=
| segs_end img bs : lengthZ bs < 16 → segs_step t img bs None false img
| segs_stop img bs e fault img' :
    16 <= lengthZ bs → seg_step t img (segment_of (takeZ 16 bs)) (Some e) fault img' →
    segs_step t img bs (Some e) fault img'
| segs_next img bs fault img1 r fault' img2 :
    16 <= lengthZ bs → seg_step t img (segment_of (takeZ 16 bs)) None fault img1 →
    segs_step t img1 (dropZ 16 bs) r fault' img2 →
    segs_step t img bs r (fault || fault') img2.

(** A request with the bytes [bs] and room for [room] bytes of reply: the error it
    ends with, the reply, whether the host failed to discard or to write zeros, and
    the image after it. *)
Section blk_step.
Context (cfg : blk_config) (img bs : list u8) (room : Z).
Abbreviation t := (req_type (header bs)).
Abbreviation start := (sector_start (req_sector (header bs))).

Definition allowed : Prop :=
  16 <= lengthZ bs ∧ (cf_read_only cfg = true → t = VIRTIO_BLK_T_IN ∨ t = VIRTIO_BLK_T_GET_ID).

Inductive blk_step : option ExecuteError → list u8 → bool → list u8 → Prop :=
| blk_no_header : lengthZ bs < 16 → blk_step (Some (Read UnexpectedEof)) [] false img
| blk_read_only :
    16 <= lengthZ bs → cf_read_only cfg = true → t ≠ VIRTIO_BLK_T_IN → t ≠ VIRTIO_BLK_T_GET_ID →
    blk_step (Some (ReadOnly t)) [] false img
| blk_in :
    allowed → t = VIRTIO_BLK_T_IN → room = 0 ∨ start + room <= lengthZ img →
    blk_step None (takeZ room (dropZ start img)) false img
| blk_in_out_of_range :
    allowed → t = VIRTIO_BLK_T_IN → 0 < room → lengthZ img < start + room →
    blk_step (Some OutOfRange) [] false img
| blk_in_fault n e :
    allowed → t = VIRTIO_BLK_T_IN → start + room <= lengthZ img → 0 <= n <= room → disk_fault e →
    blk_step (Some (ReadIo (U64 room) (req_sector (header bs)) e)) (takeZ n (dropZ start img)) false img
| blk_out :
    allowed → t = VIRTIO_BLK_T_OUT → blk_payload bs ≠ [] → start + lengthZ (blk_payload bs) <= lengthZ img →
    blk_step None [] false (overwrite img start (blk_payload bs))
| blk_out_empty : allowed → t = VIRTIO_BLK_T_OUT → blk_payload bs = [] → blk_step None [] false img
| blk_out_out_of_range :
    allowed → t = VIRTIO_BLK_T_OUT → blk_payload bs ≠ [] → lengthZ img < start + lengthZ (blk_payload bs) →
    blk_step (Some OutOfRange) [] false img
| blk_out_fault n e :
    allowed → t = VIRTIO_BLK_T_OUT → start + lengthZ (blk_payload bs) <= lengthZ img →
    0 <= n <= lengthZ (blk_payload bs) → disk_fault e →
    blk_step (Some (WriteIo (U64 (lengthZ (blk_payload bs))) (req_sector (header bs)) e)) [] false
      (overwrite img start (takeZ n (blk_payload bs)))
| blk_out_timer e :
    allowed → t = VIRTIO_BLK_T_OUT → blk_payload bs ≠ [] → start + lengthZ (blk_payload bs) <= lengthZ img →
    blk_step (Some (TimerReset e)) [] false (overwrite img start (blk_payload bs))
| blk_discard_ignored :
    allowed → t = VIRTIO_BLK_T_DISCARD → cf_sparse cfg = false → blk_step None [] false img
| blk_segments r fault img' :
    allowed → (t = VIRTIO_BLK_T_DISCARD ∧ cf_sparse cfg = true) ∨ t = VIRTIO_BLK_T_WRITE_ZEROES →
    segs_step t img (blk_payload bs) r fault img' → blk_step r [] fault img'
| blk_flush : allowed → t = VIRTIO_BLK_T_FLUSH → blk_step None [] false img
| blk_flush_fault e : allowed → t = VIRTIO_BLK_T_FLUSH → disk_fault e → blk_step (Some (Flush e)) [] false img
| blk_flush_timer e : allowed → t = VIRTIO_BLK_T_FLUSH → blk_step (Some (TimerReset e)) [] false img
| blk_get_id id :
    allowed → t = VIRTIO_BLK_T_GET_ID → cf_id cfg = Some id → lengthZ id <= room → blk_step None id false img
| blk_get_id_short id :
    allowed → t = VIRTIO_BLK_T_GET_ID → cf_id cfg = Some id → room < lengthZ id →
    blk_step (Some (CopyId WriteZero)) (takeZ room id) false img
| blk_unsupported :
    allowed → (t = VIRTIO_BLK_T_GET_ID ∧ cf_id cfg = None) ∨
      t ∉ [VIRTIO_BLK_T_IN; VIRTIO_BLK_T_OUT; VIRTIO_BLK_T_DISCARD; VIRTIO_BLK_T_WRITE_ZEROES;
           VIRTIO_BLK_T_FLUSH; VIRTIO_BLK_T_GET_ID] →
    blk_step (Some (Unsupported t)) [] false img.
End blk_step.

(** ** The state of the device *)

Class HostTimerLaws (K : Type) `{HostFiles K} `{HostAsync K} `{HostTimer K} : Prop := {
  timer_reset_law n k r k' : timer_reset n k = (r, k') → quiet k k' ∧ r ≠ Aborts;
  timer_clear_law k r k' : timer_clear k = (r, k') → quiet k k' ∧ r ≠ Aborts
}.

Definition config_of {D} (s : DiskState D) : blk_config := mkBlkConfig (read_only s) (sparse s) (disk_id s).

Definition result (r : option ExecuteError) : outcome ExecuteError () :=
  match r with None => Returns () | Some e => Throws e end.

Section state.
Context {K D : Type} `{HostFiles K} `{HostAsync K} `{DiskView D} `{SyncView D}.
Implicit Types (k : K) (d : D) (s : Request K D).

(** The disk of the device shows [img]. *)
Definition represents k (ds : DiskState D) (img : list u8) : Prop :=
  disk_ok (disk_image ds) ∧ shows (contents k) (disk_image ds) 0 img ∧ lengthZ img = disk_size ds.

(** Every file of a disk is on the storage or will be after [fsync]. *)
Definition flushable k d : Prop := ∀ i, i ∈ disk_inodes d → clean k i ∨ i ∈ synced_by d.

(** No file gets lost to [fsync]. *)
Definition tracked k k' d d' : Prop :=
  ∀ i, clean k i ∨ i ∈ synced_by d → clean k' i ∨ i ∈ synced_by d'.

Lemma marked_tracked k k' d d' : marked k k' d d' → tracked k k' d d'.
Proof. intros [Hs Hm] i [Hc|Hi]; [by apply Hm|right; by apply Hs]. Qed.
Lemma tracked_trans k k1 k2 d d1 d2 : tracked k k1 d d1 → tracked k1 k2 d1 d2 → tracked k k2 d d2.
Proof. unfold tracked. auto. Qed.
Lemma tracked_flushable k k' d d' :
  tracked k k' d d' → disk_inodes d' = disk_inodes d → flushable k d → flushable k' d'.
Proof. intros Ht Hi Hf i Hin. apply Ht, Hf. by rewrite <- Hi. Qed.

(** What a request may do to the host and the disk. *)
Definition disk_effect (fault : bool) k k' d d' : Prop :=
  same_shape d d' ∧ framed k k' d ∧ (fault = false → tracked k k' d d').

Lemma quiet_effect fault k k' d : disk_ok d → quiet k k' → disk_effect fault k k' d d.
Proof.
  intros Hok Hq. split; [done|]. split; [by apply quiet_framed|]. intros _. by apply marked_tracked, quiet_marked.
Qed.
Lemma effect_trans f1 f2 k k1 k2 d d1 d2 :
  disk_effect f1 k k1 d d1 → disk_effect f2 k1 k2 d1 d2 → disk_effect (f1 || f2) k k2 d d2.
Proof.
  intros (Hs1 & Hf1 & Ht1) (Hs2 & Hf2 & Ht2). split; [by eapply same_shape_trans|].
  split; [eapply framed_trans; [apply Hs1|done..]|]. intros [-> ->]%orb_false_iff. by eapply tracked_trans; auto.
Qed.

Lemma quiet_represents k k' ds img : quiet k k' → represents k ds img → represents k' ds img.
Proof. intros [Hc _] (Hok & Hs & Hl). split_and!; [done|by rewrite Hc|done]. Qed.
End state.

(** ** Requests refine steps *)

Section refinement.
Context {K D : Type} `{AsyncLaws K D} `{!HostTimer K, !HostTimerLaws K}.
Context (gm : GuestMemory) (Hgm : gm_ok gm).
Implicit Types (k : K) (d : D) (s : Request K D).

Definition image_in s : D := disk_image (rq_state s).

(** The two halves of the chain are streams and the disk shows the image. *)
Definition request_ok s (img : list u8) : Prop :=
  represents (rq_kernel s) (rq_state s) img ∧ stream_ok gm (rq_reader s) ∧ stream_ok gm (rq_writer s).

Definition sent s : list u8 := bytes_at gm (rq_host s) (remaining (rq_reader s)).
Definition room s : Z := lengthZ (remaining (rq_writer s)).

(** What is true after a request: the reply is in the memory, the configuration is
    the same, and the disk shows the new image. *)
Definition answered s s' (reply : list u8) (fault : bool) (img' : list u8) : Prop :=
  (∀ x, guest_byte gm (rq_host s') x = StreamFacts.store (guest_byte gm (rq_host s)) (remaining (rq_writer s)) reply x) ∧
  represents (rq_kernel s') (rq_state s') img' ∧ rq_state s' = set_image (image_in s') (rq_state s) ∧
  disk_effect fault (rq_kernel s) (rq_kernel s') (image_in s) (image_in s').

Lemma answered_refl s img : represents (rq_kernel s) (rq_state s) img → answered s s [] false img.
Proof.
  intros Hr. split; [by intros x; rewrite store_nil|]. split; [done|]. split; [by destruct s as [? []]|].
  apply quiet_effect; [apply Hr|apply quiet_refl].
Qed.

Lemma check_range_spec (start len size : u64) :
  check_range start len size = if start + len <=? size then Returns () else Throws OutOfRange.
Proof.
  unfold check_range. pose proof (uint_range size). destruct (add_checked start len) as [x|] eqn:E.
  - apply add_checked_Some in E. cbn. rewrite E.
    destruct (Z.ltb_spec size (start + len)), (Z.leb_spec (start + len) size); done || lia.
  - apply add_checked_None in E. cbn. destruct (Z.leb_spec (start + len) size); [lia|done].
Qed.

Lemma checked_shl_spec (sector : u64) : ∃ o, checked_shl sector SECTOR_SHIFT = Some o ∧ uval o = sector_start sector.
Proof.
  eexists. split; [done|]. rewrite uval_to_uint. unfold sector_start. rewrite Z.shiftl_mul_pow2 by done. done.
Qed.

Lemma quiet_answered s k' d' a h' r' w' reply img :
  represents (rq_kernel s) (rq_state s) img → quiet (rq_kernel s) k' → d' = image_in s →
  (∀ x, guest_byte gm h' x = StreamFacts.store (guest_byte gm (rq_host s)) (remaining (rq_writer s)) reply x) →
  answered s (mkRequest k' (set_image d' (rq_state s)) a h' r' w') reply false img.
Proof.
  intros Hr Hq -> Hg. split; [done|]. unfold image_in. cbn.
  assert (set_image (disk_image (rq_state s)) (rq_state s) = rq_state s) as -> by (by destruct s as [? []]).
  split; [by eapply quiet_represents|]. split; [done|]. apply quiet_effect; [apply Hr|done].
Qed.

Lemma execute_in_spec s img (sector : u64) o s' :
  request_ok s img → execute_in gm sector (disk_size (rq_state s)) s = (o, s') →
  let start := sector_start sector in
  ∃ r reply, o = result r ∧ answered s s' reply false img ∧
    match r with
    | None => (room s = 0 ∨ start + room s <= lengthZ img) ∧ reply = takeZ (room s) (dropZ start img)
    | Some OutOfRange => 0 < room s ∧ lengthZ img < start + room s ∧ reply = []
    | Some e => start + room s <= lengthZ img ∧
        ∃ n e', e = ReadIo (U64 (room s)) sector e' ∧ 0 <= n <= room s ∧ disk_fault e' ∧
          reply = takeZ n (dropZ start img)
    end.
Proof using All.
  intros (Hrep & Hrd & Hwr) E start. pose proof Hrep as (Hok & Hsh & Hlen).
  assert (0 <= start) as Hst by (unfold start, sector_start; apply Z.mod_pos_bound; lia).
  destruct (available_bytes_spec gm Hgm _ Hwr) as (n & Hn & Hnv). fold (room s) in Hnv.
  revert E. unfold execute_in. rewrite (bind_returns _ _ _ s s) by done. rewrite Hn. cbn [checked].
  rewrite (bind_returns _ _ _ n s) by done. rewrite Hnv. destruct (Z.eqb_spec (room s) 0) as [Hz|Hz].
  { intros [= <- <-]. exists None, []. split; [done|]. split; [by apply answered_refl|]. split; [by left|].
    by rewrite Hz, takeZ_take. }
  destruct (checked_shl_spec sector) as (off & Hoff & Hov). fold start in Hov. rewrite Hoff. cbn [ok_or_throw].
  rewrite (bind_returns _ _ _ off s) by done. rewrite check_range_spec. pose proof (uint_range n) as Hnr.
  destruct (Z.leb_spec (off + n) (disk_size (rq_state s))) as [Hin|Hout].
  2: { intros [= <- <-]. exists (Some OutOfRange), []. split; [done|]. split; [by apply answered_refl|].
       split_and!; [lia|lia|done]. }
  rewrite (bind_returns _ _ _ () s) by done. unfold map_err, to_writer, zoom.
  destruct (write_all_from_at_fut gm n off _) as [o1 [[[k1 d1] h1] w1]] eqn:E.
  pose proof (uint_range (disk_size (rq_state s))) as Hds. cbn [Z.of_N] in Hds.
  apply (write_all_loop_spec gm Hgm) in E as (Hq & Hd & _ & bs & Hbl & Hbs & Hg & Ho);
    [|lia|done|done|unfold room in Hnv; lia|lia|apply (shows_readable _ _ img); [done|lia|lia]].
  assert (bs = takeZ (lengthZ bs) (dropZ start img)) as Hpart.
  { apply (shows_slice (contents (rq_kernel s)) (disk_image (rq_state s))); [done|by rewrite <- Hov|lia|lia]. }
  pose proof (lengthZ_nonneg bs). cbn [fst snd].
  destruct o1 as [[]|e|]; [| |done]; intros [= <- <-].
  - exists None, bs. split; [done|]. split; [by apply quiet_answered|]. split; [right; lia|].
    rewrite Hpart. by replace (lengthZ bs) with (room s) by lia.
  - exists (Some (ReadIo n sector e)), bs. split; [done|]. split; [by apply quiet_answered|]. split; [lia|].
    exists (lengthZ bs), e. split_and!; [|lia|lia|done|done]. rewrite <- Hnv. by rewrite to_uint_uval.
Qed.

Lemma written_answered s k' k2 d' a r' w' img off bs m :
  represents (rq_kernel s) (rq_state s) img → 0 <= off → off + m <= lengthZ img →
  written (rq_kernel s) k' (image_in s) d' off bs m → framed (rq_kernel s) k' (image_in s) →
  marked (rq_kernel s) k' (image_in s) d' → quiet k' k2 →
  answered s (mkRequest k2 (set_image d' (rq_state s)) a (rq_host s) r' w') [] false (overwrite img off (takeZ m bs)).
Proof.
  intros (Hok & Hsh & Hlen) Hoff Hfit Hwr Hf Hm Hq. split; [by intros x; rewrite store_nil|].
  destruct (written_image _ _ _ _ _ _ _ _ Hsh Hwr Hoff Hfit) as [Hsh' Hl'].
  destruct Hwr as (_ & _ & _ & Hok' & Hi & Hw & _). split.
  { eapply quiet_represents; [exact Hq|]. split; [done|]. split; [done|]. cbn. lia. }
  split; [done|]. eapply (effect_trans false false _ k' _ _ d').
  - split; [done|]. split; [done|]. intros _. by apply marked_tracked.
  - by apply quiet_effect.
Qed.

(** The timer is started. *)
Lemma arm_spec k ds h r w o s' :
  (set_armed true;; map_err TimerReset (on_timer (timer_reset (U64 60)))) (mkRequest k ds false h r w) = (o, s') →
  ∃ k' a, s' = mkRequest k' ds a h r w ∧ quiet k k' ∧ (o = Returns () ∨ ∃ e, o = Throws (TimerReset e)).
Proof using HostTimerLaws0.
  rewrite (bind_returns _ _ _ () (mkRequest k ds true h r w)) by done. unfold map_err, on_timer, zoom. cbn.
  destruct (timer_reset (U64 60) k) as [o1 k1] eqn:E. apply timer_reset_law in E as [Hq Hna].
  destruct o1 as [[]|e|]; [| |done]; intros [= <- <-]; exists k1, true; eauto.
Qed.

Lemma execute_out_spec s img (sector : u64) o s' :
  request_ok s img → execute_out gm sector (disk_size (rq_state s)) s = (o, s') →
  let start := sector_start sector in let data := sent s in
  ∃ r img', o = result r ∧ answered s s' [] false img' ∧
    match r with
    | None => data = [] ∧ img' = img ∨
        data ≠ [] ∧ start + lengthZ data <= lengthZ img ∧ img' = overwrite img start data
    | Some OutOfRange => data ≠ [] ∧ lengthZ img < start + lengthZ data ∧ img' = img
    | Some (TimerReset _) => data ≠ [] ∧ start + lengthZ data <= lengthZ img ∧ img' = overwrite img start data
    | Some e => start + lengthZ data <= lengthZ img ∧
        ∃ n e', e = WriteIo (U64 (lengthZ data)) sector e' ∧ 0 <= n <= lengthZ data ∧ disk_fault e' ∧
          img' = overwrite img start (takeZ n data)
    end.
Proof using All.
  intros (Hrep & Hrd & Hwr) E start data. pose proof Hrep as (Hok & Hsh & Hlen).
  assert (0 <= start) as Hst by (unfold start, sector_start; apply Z.mod_pos_bound; lia).
  destruct (available_bytes_spec gm Hgm _ Hrd) as (n & Hn & Hnv).
  assert (lengthZ data = n) as Hdl by (unfold data, sent; rewrite lengthZ_bytes_at; done).
  revert E. unfold execute_out. rewrite (bind_returns _ _ _ s s) by done. rewrite Hn. cbn [checked].
  rewrite (bind_returns _ _ _ n s) by done. destruct (Z.eqb_spec n 0) as [Hz|Hz].
  { intros [= <- <-]. exists None, img. split; [done|]. split; [by apply answered_refl|]. left.
    split; [|done]. apply length_zero_iff_nil. unfold lengthZ in Hdl. lia. }
  assert (data ≠ []) as Hne by (intros Hnil; rewrite Hnil, lengthZ_nil in Hdl; lia).
  destruct (checked_shl_spec sector) as (off & Hoff & Hov). fold start in Hov. rewrite Hoff. cbn [ok_or_throw].
  rewrite (bind_returns _ _ _ off s) by done. rewrite check_range_spec. pose proof (uint_range n) as Hnr.
  destruct (Z.leb_spec (off + n) (disk_size (rq_state s))) as [Hin|Hout].
  2: { intros [= <- <-]. exists (Some OutOfRange), img. split; [done|]. split; [by apply answered_refl|].
       split_and!; [done|lia|done]. }
  rewrite (bind_returns _ _ _ () s) by done. unfold mbind, prog_bind, map_err, from_reader, zoom.
  destruct (read_exact_to_at_fut gm n off _) as [o1 [[[k1 d1] h1] r1]] eqn:E.
  pose proof (uint_range (disk_size (rq_state s))) as Hds. cbn [Z.of_N] in Hds.
  apply (read_exact_loop_spec gm Hgm) in E as (-> & _ & m & Hw & Hf & Hm & Ho);
    [|lia|done|done|lia|lia|apply (shows_readable _ _ img); [done|lia|lia]].
  rewrite (takeZ_all n) in Hw by lia. change (bytes_at _ _ _) with data in Hw. rewrite Hov in Hw.
  assert (0 <= m <= lengthZ data) as Hmb by apply Hw.
  pose proof (λ k2 a r w, written_answered s k1 k2 d1 a r w img start data m Hrep Hst ltac:(lia) Hw Hf Hm) as Ha.
  cbn [fst snd]. destruct o1 as [[]|e|]; [|intros [= <- <-]|done].
  - rewrite takeZ_all in Ha by lia. fold (get_state (S := Request K D) (E := ExecuteError)).
    unfold get_state at 1. cbn [rq_armed].
    assert (start + lengthZ data <= lengthZ img) as Hfit by lia. destruct (rq_armed s).
    { intros [= <- <-]. exists None, (overwrite img start data). split; [done|]. split; [by apply Ha|]. by right. }
    intros (k2 & a & -> & Hq & [->|[e ->]])%arm_spec.
    + exists None, (overwrite img start data). split; [done|]. split; [by apply Ha|]. by right.
    + exists (Some (TimerReset e)), (overwrite img start data). split; [done|]. split; [by apply Ha|done].
  - exists (Some (WriteIo n sector e)), (overwrite img start (takeZ m data)). split; [done|]. split; [by apply Ha|].
    split; [lia|]. exists m, e. split_and!; [|lia|lia|done|done]. rewrite Hdl. by rewrite to_uint_uval.
Qed.

Lemma flags_ok_spec (t : u32) seg :
  t = VIRTIO_BLK_T_DISCARD ∨ t = VIRTIO_BLK_T_WRITE_ZEROES →
  uval (uand (seg_flags seg)
    (unot (if t =? VIRTIO_BLK_T_WRITE_ZEROES then VIRTIO_BLK_DISCARD_WRITE_ZEROES_FLAG_UNMAP else U32 0))) = 0 ↔
  flags_ok t seg.
Proof.
  intros Ht. unfold flags_ok, uand, unot. rewrite land_wrap_lnot. pose proof (uint_range (seg_flags seg)).
  destruct Ht as [->| ->]; cbn [Z.eqb]; [change (_ =? _) with false|change (_ =? _) with true]; cbv iota.
  - change (uval (U32 0)) with 0. rewrite Z.ldiff_0_r. split; [by left|]. intros [?|[Hf _]]; [done|]. done.
  - change (uval VIRTIO_BLK_DISCARD_WRITE_ZEROES_FLAG_UNMAP) with (Z.ones 1).
    rewrite Z.ldiff_ones_r, Z.shiftr_div_pow2, Z.shiftl_mul_pow2 by lia. change (2 ^ 1) with 2.
    pose proof (Z.div_mod (seg_flags seg) 2 ltac:(lia)). pose proof (Z.mod_pos_bound (seg_flags seg) 2 ltac:(lia)).
    split; [|intros [?|[_ ?]]; lia]. intros ?. destruct (decide (uval (seg_flags seg) = 0)); [by left|right; split; [done|lia]].
Qed.

Lemma seg_len_spec seg :
  ∃ n, checked_shl (U64 (seg_num_sectors seg)) SECTOR_SHIFT = Some n ∧ uval n = seg_len seg.
Proof.
  eexists. split; [done|]. unfold seg_len. pose proof (uint_range (seg_num_sectors seg)) as Hs. cbn [Z.of_N] in Hs.
  rewrite uval_to_uint_small; rewrite Z.shiftl_mul_pow2 by done; rewrite uval_to_uint_small by (cbn [Z.of_N]; lia).
  - done.
  - change (2 ^ SECTOR_SHIFT) with 512. cbn [Z.of_N]. lia.
Qed.

Lemma on_disk_run {E A} (m : prog (K * D) E A) s :
  on_disk m s =
  let '(r, (k', d')) := m (rq_kernel s, image_in s) in
  (r, mkRequest k' (set_image d' (rq_state s)) (rq_armed s) (rq_host s) (rq_reader s) (rq_writer s)).
Proof. unfold on_disk, zoom, image_in. by destruct (m _) as [r [k' d']]. Qed.

Lemma touched_answered s k' d' img off n fault :
  represents (rq_kernel s) (rq_state s) img → touched (rq_kernel s) k' (image_in s) d' off n →
  (fault = false → marked (rq_kernel s) k' (image_in s) d') →
  ∃ img', same_outside img img' off n ∧ shows (contents k') d' 0 img' ∧
    answered s (mkRequest k' (set_image d' (rq_state s)) (rq_armed s) (rq_host s) (rq_reader s) (rq_writer s))
      [] fault img'.
Proof.
  intros (Hok & Hsh & Hlen) Ht Hm. destruct (touched_image _ _ _ _ _ _ _ Hsh Ht) as (img' & Hs' & Ho).
  exists img'. split; [done|]. split; [done|]. destruct Ho as [Hl _]. destruct Ht as (Hshape & Hf & _).
  split; [by intros x; rewrite store_nil|]. split; [split_and!; [apply Hshape|done|cbn; lia]|].
  split; [done|]. split; [done|]. split; [done|]. intros ->. by apply marked_tracked, Hm.
Qed.

(** An image that is zero in a range and the same outside. *)
Lemma zeroed_image img img' off n :
  0 <= off → 0 <= n → off + n <= lengthZ img → same_outside img img' off n →
  (∀ j, off <= j < off + n → byte_at img' j = Some (U8 0)) → img' = overwrite img off (zeros n).
Proof.
  intros Hoff Hn Hfit [Hl Hsame] Hz. assert (lengthZ (zeros n) = n) as Hzl by (by apply lengthZ_zeros).
  apply list_eq_byte_at; [by rewrite lengthZ_overwrite by lia|]. intros j Hj.
  destruct (decide (off <= j < off + n)) as [Hin|Hout].
  - rewrite Hz, byte_at_overwrite_in by (done || lia). symmetry. unfold zeros. apply byte_at_replicate. lia.
  - rewrite Hsame by done. assert (is_Some (byte_at img j)) as [b Hb] by (apply byte_at_is_Some; lia).
    rewrite Hb. symmetry. apply byte_at_overwrite_out; [done|lia|done].
Qed.

(** A segment changes the disk, and nothing else of the request. *)
Definition same_streams s s' : Prop :=
  rq_reader s' = rq_reader s ∧ rq_writer s' = rq_writer s ∧ rq_host s' = rq_host s.

Lemma execute_segment_spec s img t seg o s' :
  request_ok s img → t = VIRTIO_BLK_T_DISCARD ∨ t = VIRTIO_BLK_T_WRITE_ZEROES →
  execute_segment t seg (disk_size (rq_state s)) s = (o, s') →
  ∃ r fault img', o = result r ∧ seg_step t img seg r fault img' ∧ answered s s' [] fault img' ∧ same_streams s s'.
Proof using All.
  intros (Hrep & _) Ht. pose proof Hrep as (Hok & Hsh & Hlen). unfold execute_segment.
  pose proof (flags_ok_spec t seg Ht) as Hfl. cbv zeta.
  match goal with |- context [negb (?x =? 0)] => destruct (Z.eqb_spec x 0) as [Hz|Hz] end; cbn [negb].
  2: { intros [= <- <-]. exists (Some (seg_error seg None)), false, img. split; [done|].
       split; [constructor; tauto|]. split; [by apply answered_refl|done]. }
  apply Hfl in Hz. destruct (checked_shl_spec (seg_sector seg)) as (off & Hoff & Hov).
  destruct (seg_len_spec seg) as (n & Hn & Hnv). rewrite Hoff, Hn. cbn [ok_or_throw].
  rewrite (bind_returns _ _ _ off s), (bind_returns _ _ _ n s), check_range_spec by done.
  pose proof (uint_range off) as Hor. pose proof (uint_range n) as Hnr.
  destruct (Z.leb_spec (off + n) (disk_size (rq_state s))) as [Hin|Hout].
  2: { intros [= <- <-]. exists (Some OutOfRange), false, img. split; [done|].
       split; [apply seg_out_of_range; [done|lia]|]. split; [by apply answered_refl|done]. }
  rewrite (bind_returns _ _ _ () s) by done. pose proof (uint_range (disk_size (rq_state s))) as Hds.
  cbn [Z.of_N] in Hds. assert (readable (contents (rq_kernel s)) (image_in s) off n) as Hrd
    by (apply (shows_readable _ _ img); [done|lia|lia]).
  assert (sector_start (seg_sector seg) + seg_len seg <= lengthZ img) as Hfit by lia.
  destruct Ht as [->| ->]; [change (_ =? _) with true|change (_ =? _) with false]; cbv iota.
  - unfold mbind, prog_bind, attempt. rewrite on_disk_run.
    destruct (punch_hole off n _) as [o1 [k1 d1]] eqn:E.
    apply punch_hole_law in E as [Htc Ho]; [|done|lia|done]. rewrite Hov, Hnv in Htc.
    set (fault := match o1 with Returns _ => false | _ => true end).
    destruct (touched_answered s k1 d1 img _ _ fault Hrep Htc) as (img' & Hsame & _ & Ha).
    { unfold fault. by destruct o1. }
    destruct o1 as [[]|e|]; [| |done]; intros [= <- <-]; exists None, fault, img';
      (split; [done|]); (split; [by apply seg_discard|]); (split; [done|by split]).
  - unfold map_err. rewrite on_disk_run. destruct (write_zeroes_at off n _) as [o1 [k1 d1]] eqn:E.
    apply write_zeroes_law in E as [Htc Ho]; [|done|lia|done]. rewrite Hov, Hnv in Htc.
    destruct o1 as [[]|e|]; [| |done]; intros [= <- <-].
    + destruct Ho as [Hm Hzero]. destruct (touched_answered s k1 d1 img _ _ false Hrep Htc) as (img' & Hsame & Hs' & Ha); [done|].
      assert (img' = overwrite img (sector_start (seg_sector seg)) (zeros (seg_len seg))) as ->.
      { apply zeroed_image; [lia|lia|done|done|]. intros j Hj.
        assert (is_Some (byte_at img' j)) as [b Hb].
        { apply byte_at_is_Some. rewrite (proj1 Hsame). lia. }
        rewrite Hb. apply (shows_at _ _ _ _ _ Hs') in Hb. rewrite Hzero in Hb by lia. done. }
      eexists None, false, _. split; [done|]. split; [by apply seg_zeroes|]. split; [done|by split].
    + destruct (touched_answered s k1 d1 img _ _ true Hrep Htc) as (img' & Hsame & _ & Ha); [done|].
      exists (Some (seg_error seg (Some e))), true, img'. split; [done|]. split; [by apply seg_zeroes_fault|].
      split; [done|by split].
Qed.

(** Reading an object of a request. *)
Lemma req_read_obj_run r h :
  stream_ok gm r →
  if 16 <=? lengthZ (remaining r)
  then ∃ r', reader_read_obj gm 16 (r, h) = (Returns (takeZ 16 (bytes_at gm h (remaining r))), (r', h)) ∧
    stream_ok gm r' ∧ remaining r' = dropZ 16 (remaining r)
  else reader_read_obj gm 16 (r, h) = (Throws UnexpectedEof, (r, h)).
Proof using Hgm.
  intros Hr. set (t := MkTape (remaining r) (guest_byte gm h) (bytes_consumed r)).
  assert (stream_is gm r h t) as Ht by (by constructor).
  destruct (Z.leb_spec 16 (lengthZ (remaining r))) as [Hle|Hgt].
  - destruct (read_obj_is gm Hgm r h t (U64 16) Ht Hle) as (r' & Hrun & [Hok Hl _ _]). exists r'.
    split; [exact Hrun|]. done.
  - exact (read_obj_short gm Hgm r h t (U64 16) Ht Hgt).
Qed.

Lemma answered_trans s s1 s2 f1 f2 img1 img2 reply :
  answered s s1 [] f1 img1 → rq_writer s1 = rq_writer s → answered s1 s2 reply f2 img2 →
  answered s s2 reply (f1 || f2) img2.
Proof.
  intros (Hg1 & Hr1 & Hs1 & He1) Hw (Hg2 & Hr2 & Hs2 & He2). split; [|split; [done|split]].
  - intros x. rewrite Hg2, Hw. apply store_ext. intros y. rewrite Hg1. by rewrite store_nil.
  - rewrite Hs2, Hs1. done.
  - by eapply effect_trans.
Qed.

(** The request after a part of what was sent has been read. *)
Definition after_read s r : Request K D :=
  mkRequest (rq_kernel s) (rq_state s) (rq_armed s) (rq_host s) r (rq_writer s).

Lemma after_read_answered s r img : represents (rq_kernel s) (rq_state s) img → answered s (after_read s r) [] false img.
Proof. intros Hr. by apply (answered_refl s). Qed.

Lemma on_reader_run {E A} (m : prog (DescriptorChainRegions * host) E A) s o r h :
  m (rq_reader s, rq_host s) = (o, (r, h)) → h = rq_host s → on_reader m s = (o, after_read s r).
Proof. intros Hm ->. unfold on_reader, zoom. by rewrite Hm. Qed.

Lemma execute_segments_spec fuel t : ∀ s img o s',
  request_ok s img → t = VIRTIO_BLK_T_DISCARD ∨ t = VIRTIO_BLK_T_WRITE_ZEROES →
  lengthZ (remaining (rq_reader s)) / 16 <= Z.of_nat fuel →
  execute_segments gm fuel t (disk_size (rq_state s)) s = (o, s') →
  ∃ r fault img', o = result r ∧ segs_step t img (sent s) r fault img' ∧ answered s s' [] fault img'.
Proof using All.
  induction fuel as [|fuel IH]; intros s img o s' Hs Ht Hfuel; pose proof Hs as (Hrep & Hrd & Hwr);
    destruct (available_bytes_spec gm Hgm _ Hrd) as (n & Hn & Hnv);
    assert (lengthZ (sent s) = n) as Hsl by (unfold sent; by rewrite lengthZ_bytes_at);
    cbn [execute_segments]; rewrite (bind_returns _ _ _ s s) by done; rewrite Hn; cbn [checked];
    rewrite (bind_returns _ _ _ n s) by done;
    (destruct (Z.leb_spec 16 n) as [Hle|Hgt];
      [|intros [= <- <-]; exists None, false, img; split; [done|]; split; [constructor; lia|by apply answered_refl]]).
  { pose proof (Z.div_le_mono 16 n 16 ltac:(lia) Hle). change (16 / 16) with 1 in *. rewrite <- Hnv in Hfuel. lia. }
  pose proof (req_read_obj_run (rq_reader s) (rq_host s) Hrd) as Hro. rewrite <- Hnv in Hro.
  rewrite (proj2 (Z.leb_le 16 n)) in Hro by done. destruct Hro as (r1 & Hrun & Hr1 & Hrem).
  fold (sent s) in Hrun. rewrite (bind_returns _ _ _ (takeZ 16 (sent s)) (after_read s r1)).
  2: { unfold map_err. by rewrite (on_reader_run _ s _ r1 _ Hrun eq_refl). }
  unfold mbind, prog_bind. destruct (execute_segment _ _ _ _) as [o1 s1] eqn:E.
  apply (execute_segment_spec (after_read s r1) img) in E as (r & fault & img1 & -> & Hstep & Ha & Hr2 & Hw2 & Hh2); [|by split|done].
  pose proof (answered_trans _ _ _ _ _ _ _ _ (after_read_answered s r1 img Hrep) eq_refl Ha) as Ha1. cbn [orb] in Ha1.
  destruct r as [e|]; cbn [result].
  { intros [= <- <-]. exists (Some e), fault, img1. split; [done|]. split; [apply segs_stop; [lia|done]|done]. }
  assert (disk_size (rq_state s) = disk_size (rq_state s1)) as Hds by (destruct Ha1 as (_ & _ & -> & _); done).
  assert (sent s1 = dropZ 16 (sent s)) as Hsent.
  { unfold sent. rewrite Hr2, Hh2. cbn. rewrite Hrem. unfold bytes_at. by rewrite !dropZ_drop, skipn_map. }
  rewrite Hds. intros E. apply (IH s1 img1) in E.
  - destruct E as (r & fault' & img2 & -> & Hsteps & Ha2). exists r, (fault || fault'), img2. split; [done|].
    split; [eapply segs_next; [lia|done|by rewrite <- Hsent]|]. by eapply answered_trans.
  - split; [apply Ha1|]. rewrite Hr2, Hw2. done.
  - done.
  - rewrite Hr2. cbn. rewrite Hrem, lengthZ_dropZ, <- Hnv by lia. rewrite Z.max_r by lia.
    replace (n - 16) with (n + (-1) * 16) by lia. rewrite Z.div_add, Hnv by lia. lia.
Qed.

(** Flushing brings the disk to the storage. *)
Lemma execute_flush_spec s img o s' :
  request_ok s img → execute_flush s = (o, s') →
  ∃ r, o = result r ∧ answered s s' [] false img ∧
    match r with
    | None => ∀ i, clean (rq_kernel s) i ∨ i ∈ synced_by (image_in s) → clean (rq_kernel s') i
    | Some (TimerReset _) => True
    | Some e => ∃ e', e = Flush e' ∧ disk_fault e'
    end.
Proof using All.
  intros (Hrep & _). pose proof Hrep as (Hok & Hsh & Hlen). unfold execute_flush, mbind, prog_bind, map_err.
  rewrite on_disk_run. destruct (async_fdatasync _) as [o1 [k1 d1]] eqn:E.
  destruct (async_fsync_law _ _ _ _ _ Hok (or_intror E)) as (Hq & Hshape & Hb & Htr & Ho).
  assert (∀ k2 a, quiet k1 k2 → answered s (mkRequest k2 (set_image d1 (rq_state s)) a (rq_host s) (rq_reader s)
    (rq_writer s)) [] false img) as Ha.
  { intros k2 a Hq2. pose proof (quiet_trans _ _ _ Hq Hq2) as Hq12. split; [by intros x; rewrite store_nil|].
    split; [|split; [done|]].
    - split_and!; [apply Hshape| |done]. intros i b Hi. cbn. rewrite Hb. rewrite (proj1 Hq12). by apply Hsh.
    - split; [done|]. split; [by apply quiet_framed|]. intros _ i [Hc|Hi]; [left; by apply Hq12|].
      destruct (Htr i Hi); [by right|left; by apply Hq2]. }
  destruct o1 as [[]|e|]; [|intros [= <- <-]; exists (Some (Flush e)); split; [done|]; split; [by apply Ha|eauto]|done].
  unfold get_state at 1. cbn [rq_armed]. destruct (rq_armed s).
  2: { intros [= <- <-]. exists None. split; [done|]. split; [by apply Ha|].
       intros i [Hc|Hi]; [by apply Hq|by apply Ho]. }
  unfold on_timer, zoom. cbn [rq_kernel]. destruct (timer_clear k1) as [o2 k2] eqn:E2.
  apply timer_clear_law in E2 as [Hq2 Hna]. destruct o2 as [[]|e|]; [| |done]; intros [= <- <-].
  - exists None. split; [done|]. split; [by apply Ha|]. intros i [Hc|Hi]; apply Hq2; [by apply Hq|by apply Ho].
  - exists (Some (TimerReset e)). split; [done|]. split; [by apply Ha|done].
Qed.

Lemma execute_get_id_spec s img t o s' :
  request_ok s img → Forall (λ id, lengthZ id < 2 ^ 64) (option_list (disk_id (rq_state s))) →
  execute_get_id gm t s = (o, s') →
  ∃ r reply, o = result r ∧ answered s s' reply false img ∧
    match disk_id (rq_state s) with
    | None => r = Some (Unsupported t) ∧ reply = []
    | Some id => lengthZ id <= room s ∧ r = None ∧ reply = id ∨
        room s < lengthZ id ∧ r = Some (CopyId WriteZero) ∧ reply = takeZ (room s) id
    end.
Proof using All.
  intros (Hrep & Hrd & Hwr) Hid. unfold execute_get_id. rewrite (bind_returns _ _ _ s s) by done.
  destruct (disk_id (rq_state s)) as [id|].
  2: { intros [= <- <-]. exists (Some (Unsupported t)), []. split; [done|]. split; [by apply answered_refl|done]. }
  apply Forall_cons in Hid as [Hid _].
  set (tp := MkTape (remaining (rq_writer s)) (guest_byte gm (rq_host s)) (bytes_consumed (rq_writer s))).
  destruct (write_obj_is gm Hgm (rq_writer s) (rq_host s) tp id ltac:(by constructor) Hid) as (w1 & h1 & Hrun & [_ _ Hg _]).
  change (tp_left tp) with (remaining (rq_writer s)) in Hrun. fold (room s) in Hrun.
  assert (∀ x, guest_byte gm h1 x =
    StreamFacts.store (guest_byte gm (rq_host s)) (remaining (rq_writer s)) id x) as Hg' by exact Hg.
  assert (∀ reply, (∀ x, guest_byte gm h1 x =
    StreamFacts.store (guest_byte gm (rq_host s)) (remaining (rq_writer s)) reply x) →
    answered s (mkRequest (rq_kernel s) (rq_state s) (rq_armed s) h1 (rq_reader s) w1) reply false img) as Ha.
  { intros reply Hr. pose proof (quiet_answered s _ _ (rq_armed s) h1 (rq_reader s) w1 _ _ Hrep (quiet_refl _) eq_refl Hr) as Ha.
    assert (set_image (image_in s) (rq_state s) = rq_state s) as Hset by (by destruct s as [? []]). by rewrite Hset in Ha. }
  unfold map_err, on_writer, zoom. rewrite Hrun. cbn [fst snd].
  destruct (Z.leb_spec (lengthZ id) (room s)) as [Hle|Hgt]; intros [= <- <-].
  - exists None, id. split; [done|]. split; [by apply Ha|by left].
  - exists (Some (CopyId WriteZero)), (takeZ (room s) id). split; [done|]. split; [|by right].
    apply Ha. intros x. rewrite Hg'. symmetry. unfold room. rewrite <- (app_nil_r (remaining (rq_writer s))) at 3.
    by rewrite store_app.
Qed.

(** *** Every request *)

Definition id_ok (ds : DiskState D) : Prop := ∀ id, disk_id ds = Some id → length id = ID_LEN.

Lemma id_short ds : id_ok ds → Forall (λ id, lengthZ id < 2 ^ 64) (option_list (disk_id ds)).
Proof.
  intros Hid. destruct (disk_id ds) as [id|] eqn:E; constructor; [|constructor].
  unfold lengthZ. rewrite (Hid id E). done.
Qed.

(** What of a request that is flushed is on the storage. *)
Definition flushed s s' (r : option ExecuteError) : Prop :=
  r = None → req_type (header (sent s)) = VIRTIO_BLK_T_FLUSH →
  ∀ i, clean (rq_kernel s) i ∨ i ∈ synced_by (image_in s) → clean (rq_kernel s') i.

(** The part of [execute_request] after the header. *)
Definition blk_dispatch (t : u32) (sector : u64) : prog (Request K D) ExecuteError () :=
  s ← get_state;
  if read_only (rq_state s) && negb (t =? VIRTIO_BLK_T_IN) && negb (t =? VIRTIO_BLK_T_GET_ID)
  then throw (ReadOnly t)
  else
    let disk_size := disk_size (rq_state s) in
    if t =? VIRTIO_BLK_T_IN then execute_in gm sector disk_size
    else if t =? VIRTIO_BLK_T_OUT then execute_out gm sector disk_size
    else if (t =? VIRTIO_BLK_T_DISCARD) || (t =? VIRTIO_BLK_T_WRITE_ZEROES)
    then execute_discard_write_zeroes gm t disk_size
    else if t =? VIRTIO_BLK_T_FLUSH then execute_flush
    else if t =? VIRTIO_BLK_T_GET_ID then execute_get_id gm t
    else throw (Unsupported t).

Lemma ueqb_spec {w} (a b : uint w) : reflect (a = b) (a =? b).
Proof. destruct (Z.eqb_spec a b) as [He|Hn]; constructor; [by apply uint_eq|congruence]. Qed.

Lemma dispatch_discard s1 img bs t o s' :
  request_ok s1 img → sent s1 = blk_payload bs → t = req_type (header bs) → allowed (config_of (rq_state s1)) bs →
  t = VIRTIO_BLK_T_DISCARD ∨ t = VIRTIO_BLK_T_WRITE_ZEROES →
  execute_discard_write_zeroes gm t (disk_size (rq_state s1)) s1 = (o, s') →
  ∃ r fault img', o = result r ∧
    blk_step (config_of (rq_state s1)) img bs (room s1) r [] fault img' ∧ answered s1 s' [] fault img'.
Proof using All.
  intros Hs Hsent Ht Hal Hdz. pose proof Hs as (Hrep & Hrd & _). unfold execute_discard_write_zeroes.
  rewrite (bind_returns _ _ _ s1 s1) by done.
  destruct ((t =? VIRTIO_BLK_T_DISCARD) && negb (sparse (rq_state s1))) eqn:Eb.
  - apply andb_true_iff in Eb as [Et Esp]. destruct (ueqb_spec t VIRTIO_BLK_T_DISCARD) as [Htd|]; [|done].
    intros [= <- <-]. exists None, false, img. split; [done|]. split; [|by apply answered_refl].
    apply blk_discard_ignored; [done|by rewrite <- Ht|]. cbn. by destruct (sparse _).
  - destruct (available_bytes_spec gm Hgm _ Hrd) as (n & Hn & Hnv). rewrite Hn. cbn [checked].
    rewrite (bind_returns _ _ _ n s1) by done. intros E.
    apply (execute_segments_spec _ t s1 img) in E as (r & fault & img' & -> & Hst & Ha); [|done|done|].
    + exists r, fault, img'. split; [done|]. split; [|done]. rewrite Hsent, Ht in Hst.
      apply blk_segments; [done| |done]. rewrite <- Ht. destruct Hdz as [Hd|Hz]; [left|by right]. split; [done|].
      cbn. apply andb_false_iff in Eb as [Eb|Eb]; [by rewrite Hd in Eb|]. by destruct (sparse _).
    + rewrite <- Hnv. pose proof (uint_range n). rewrite Z2Nat.id by (apply Z.div_pos; lia). done.
Qed.

Lemma blk_dispatch_spec s1 img bs o s' :
  request_ok s1 img → id_ok (rq_state s1) → 16 <= lengthZ bs → sent s1 = blk_payload bs →
  blk_dispatch (req_type (header bs)) (req_sector (header bs)) s1 = (o, s') →
  ∃ r reply fault img', o = result r ∧
    blk_step (config_of (rq_state s1)) img bs (room s1) r reply fault img' ∧ answered s1 s' reply fault img' ∧
    (r = None → req_type (header bs) = VIRTIO_BLK_T_FLUSH →
     ∀ i, clean (rq_kernel s1) i ∨ i ∈ synced_by (image_in s1) → clean (rq_kernel s') i).
Proof using All.
  intros Hs Hid Hlen Hsent. pose proof Hs as (Hrep & _). set (t := req_type (header bs)).
  unfold blk_dispatch. rewrite (bind_returns _ _ _ s1 s1) by done. cbv zeta.
  destruct (read_only (rq_state s1) && negb (t =? VIRTIO_BLK_T_IN) && negb (t =? VIRTIO_BLK_T_GET_ID)) eqn:Ero.
  { apply andb_true_iff in Ero as [[Hro Hin]%andb_true_iff Hgi]. intros [= <- <-].
    exists (Some (ReadOnly t)), [], false, img. split; [done|]. split; [|split; [by apply answered_refl|done]].
    apply blk_read_only; [done|done|intros Ht|intros Ht]; fold t in Ht; rewrite Ht in *; done. }
  assert (allowed (config_of (rq_state s1)) bs) as Hal.
  { split; [done|]. cbn [cf_read_only config_of]. intros Hro. rewrite Hro in Ero. fold t.
    destruct (ueqb_spec t VIRTIO_BLK_T_IN), (ueqb_spec t VIRTIO_BLK_T_GET_ID); auto; done. }
  destruct (ueqb_spec t VIRTIO_BLK_T_IN) as [Ht|Hn1].
  { intros E. apply (execute_in_spec s1 img) in E as (r & reply & -> & Ha & Hr); [|done].
    exists r, reply, false, img. split; [done|]. split; [|split; [done|by rewrite Ht]]. destruct r as [e|].
    - destruct e; try (destruct Hr as (Hfit & n & e' & [= -> -> ->] & Hn & Hf & ->); by apply blk_in_fault);
        try (by destruct Hr as (_ & ? & ? & [=] & _)).
      destruct Hr as (Hpos & Hout & ->). by apply blk_in_out_of_range.
    - destruct Hr as [Hfit ->]. by apply blk_in. }
  destruct (ueqb_spec t VIRTIO_BLK_T_OUT) as [Ht|Hn2].
  { intros E. apply (execute_out_spec s1 img) in E as (r & img' & -> & Ha & Hr); [|done].
    exists r, [], false, img'. split; [done|]. rewrite Hsent in Hr. split; [|split; [done|by rewrite Ht]].
    destruct r as [e|].
    - destruct e; try (destruct Hr as (Hfit & n & e' & [= -> -> ->] & Hn & Hf & ->); by apply blk_out_fault);
        try (by destruct Hr as (_ & ? & ? & [=] & _)).
      + destruct Hr as (Hne & Hout & ->). by apply blk_out_out_of_range.
      + destruct Hr as (Hne & Hfit & ->). by apply blk_out_timer.
    - destruct Hr as [[He ->]|(Hne & Hfit & ->)]; [by apply blk_out_empty|by apply blk_out]. }
  destruct (ueqb_spec t VIRTIO_BLK_T_DISCARD) as [Ht3|Hn3], (ueqb_spec t VIRTIO_BLK_T_WRITE_ZEROES) as [Ht4|Hn4]; cbn [orb].
  1-3: intros E; apply (dispatch_discard s1 img bs) in E as (r & fault & img' & -> & Hst & Ha); auto;
    exists r, [], fault, img'; split; [done|]; split; [done|]; split; [done|];
    fold t; first [by rewrite Ht3|by rewrite Ht4].
  destruct (ueqb_spec t VIRTIO_BLK_T_FLUSH) as [Ht|Hn5].
  { intros E. apply (execute_flush_spec s1 img) in E as (r & -> & Ha & Hr); [|done].
    exists r, [], false, img. split; [done|]. split; [|split; [done|intros ->; done]]. destruct r as [e|]; [|by apply blk_flush].
    destruct e; try (destruct Hr as (e' & [= ->] & Hf); by apply blk_flush_fault); try (by destruct Hr as (? & [=] & _)).
    by apply blk_flush_timer. }
  destruct (ueqb_spec t VIRTIO_BLK_T_GET_ID) as [Ht|Hn6].
  { intros E. apply (execute_get_id_spec s1 img) in E as (r & reply & -> & Ha & Hr); [|done|by apply id_short].
    exists r, reply, false, img. split; [done|]. split; [|split; [done|by rewrite Ht]].
    destruct (disk_id (rq_state s1)) as [id|] eqn:Eid.
    - destruct Hr as [(Hfit & -> & ->)|(Hfit & -> & ->)]; [by apply blk_get_id|by apply blk_get_id_short].
    - destruct Hr as [-> ->]. apply blk_unsupported; [done|by left]. }
  intros [= <- <-]. exists (Some (Unsupported t)), [], false, img. split; [done|].
  split; [|split; [by apply answered_refl|done]]. apply blk_unsupported; [done|]. right. fold t. set_solver.
Qed.

Lemma execute_request_spec s img o s' :
  request_ok s img → id_ok (rq_state s) → execute_request gm s = (o, s') →
  ∃ r reply fault img', o = result r ∧
    blk_step (config_of (rq_state s)) img (sent s) (room s) r reply fault img' ∧ answered s s' reply fault img' ∧
    flushed s s' r.
Proof using All.
  intros Hs Hid. pose proof Hs as (Hrep & Hrd & Hwr). unfold execute_request.
  pose proof (req_read_obj_run (rq_reader s) (rq_host s) Hrd) as Hro.
  assert (lengthZ (sent s) = lengthZ (remaining (rq_reader s))) as Hsl by (unfold sent; apply lengthZ_bytes_at).
  destruct (Z.leb_spec 16 (lengthZ (remaining (rq_reader s)))) as [Hle|Hgt].
  - destruct Hro as (r1 & Hrun & Hr1 & Hrem). fold (sent s) in Hrun.
    rewrite (bind_returns _ _ _ (takeZ 16 (sent s)) (after_read s r1))
      by (unfold map_err; by rewrite (on_reader_run _ s _ r1 _ Hrun eq_refl)).
    intros E. apply (blk_dispatch_spec (after_read s r1) img (sent s)) in E as (r & reply & fault & img' & -> & Hst & Ha & Hfl);
      [|done|done|lia|].
    + exists r, reply, fault, img'. split; [done|]. split; [done|]. split; [|done].
      by apply (answered_trans _ _ _ _ _ _ _ _ (after_read_answered s r1 img Hrep)) in Ha.
    + unfold sent, blk_payload, after_read. cbn. rewrite Hrem. unfold bytes_at. by rewrite !dropZ_drop, skipn_map.
  - unfold mbind, prog_bind, map_err. rewrite (on_reader_run _ s _ (rq_reader s) _ Hro eq_refl).
    intros [= <- <-]. exists (Some (Read UnexpectedEof)), [], false, img. split; [done|].
    split; [apply blk_no_header; lia|]. split; [by apply after_read_answered|done].
Qed.
End refinement.
