(* ===== verification/BlockControl.v ===== *)
(** * Control of a block device

    [resize] grows the image with zeros, cuts it, or leaves it alone, and [flush_disk]
    makes it durable. *)

From S2P Require Import Prelude StdIo Checked Bits GuestMemory DescriptorUtils StreamFacts.
From S2P Require Import DiskFile DiskFacts SparseImage CompositeDisk AsyncDisk AsyncFacts AsyncDepth.
From S2P Require Import BlockDevice BlockFacts BlockSpec.

Section control.
Context {K D : Type} `{AsyncLaws K D} `{!ResizeLaws K D}.
Implicit Types (k : K) (d : D) (ds : DiskState D).

(** A disk that grew shows the image it had, and zeros if that was all it had. *)
Lemma resized_image k k' d d' img (n : u64) :
  resized k k' d d' n → shows (contents k) d 0 img → lengthZ img <= n →
  ∃ tail, shows (contents k') d' 0 (img ++ tail) ∧ lengthZ (img ++ tail) = n ∧
    ((∀ j, lengthZ img <= j → disk_byte (contents k) d j = None) → tail = zeros (lengthZ tail)).
Proof.
  intros (_ & _ & _ & Hb) Hs Hle. pose proof (uint_range n) as Hn. pose proof (lengthZ_nonneg img) as Hi.
  set (f := λ j : nat, default (U8 0) (disk_byte (contents k) d (lengthZ img + Z.of_nat j))).
  exists (f <$> seq 0 (Z.to_nat (n - lengthZ img))). rewrite shows_app, lengthZ_app. split_and!.
  - intros i b Hib. pose proof (lookup_lt_Some _ _ _ Hib). unfold lengthZ in Hle. rewrite Hb by lia. by rewrite (Hs _ _ Hib).
  - intros i b Hib. apply list_lookup_fmap_Some in Hib as (j & -> & [-> Hj]%lookup_seq). rewrite Hb by lia. done.
  - unfold lengthZ in *. rewrite length_fmap, length_seq. lia.
  - intros Hend. unfold zeros, lengthZ in *. rewrite length_fmap, length_seq. apply list_eq. intros i.
    rewrite list_lookup_fmap. destruct (decide (i < Z.to_nat (n - Z.of_nat (length img)))%nat) as [Hlt|Hge].
    + rewrite lookup_seq_lt, lookup_replicate_2 by lia. cbn. unfold f. by rewrite Hend by (unfold lengthZ; lia).
    + rewrite lookup_seq_ge, (lookup_ge_None_2 (replicate _ _)) by (rewrite ?length_replicate; lia). done.
Qed.

Lemma resized_effect k k' d d' n : resized k k' d d' n → disk_effect false k k' d d'.
Proof. intros (Hs & Hf & Hm & _). split; [done|]. split; [done|]. intros _. by apply marked_tracked. Qed.

Lemma on_image_run {E A} (m : prog (K * D) E A) k ds :
  on_image m (k, ds) = let '(r, (k', d')) := m (k, disk_image ds) in (r, (k', set_image d' ds)).
Proof. unfold on_image, zoom. cbn. by destruct (m _) as [r [k' d']]. Qed.

Lemma attempt_image_run {E A} (m : prog (K * D) E A) k ds o k' d' :
  m (k, disk_image ds) = (o, (k', d')) → o ≠ Aborts →
  attempt (on_image m) (k, ds) = (Returns match o with Returns a => Some a | _ => None end : outcome Empty_set _, (k', set_image d' ds)).
Proof. intros Em Ho. unfold attempt. rewrite on_image_run, Em. by destruct o. Qed.

(** How a command to resize can end.  The first failure may come before or after the
    file was given its new length. *)
Inductive resize_step (new_size : u64) k ds : DiskControlResult → K → DiskState D → Prop :=
| resize_read_only : read_only ds = true → resize_step new_size k ds (ControlErr EROFS) k ds
| resize_refused k' : read_only ds = false → quiet k k' → resize_step new_size k ds (ControlErr EIO) k' ds
| resize_not_allocated k' d' :
    read_only ds = false → sparse ds = false → resized k k' (disk_image ds) d' new_size →
    resize_step new_size k ds (ControlErr EIO) k' (set_image d' ds)
| resize_unmeasured k' d' :
    read_only ds = false → resized k k' (disk_image ds) d' new_size →
    resize_step new_size k ds ControlOk k' (set_image d' ds)
| resize_done k' d' :
    read_only ds = false → resized k k' (disk_image ds) d' new_size →
    resize_step new_size k ds ControlOk k' (set_size new_size (set_image d' ds)).

Lemma resized_after k k' k2 d d' (n : Z) :
  resized k k' d d' n → contents k2 = contents k' → framed k' k2 d' → marked k' k2 d' d' → resized k k2 d d' n.
Proof.
  intros (Hs & Hf & Hm & Hb) Hc Hf2 Hm2. split; [done|]. split; [eapply framed_trans; [apply Hs|done..]|].
  split; [by eapply marked_trans|by rewrite Hc].
Qed.

(** The last step of [resize]: the size is measured again. *)
Lemma measure_run (new_size : u64) k ds k2 d1 :
  read_only ds = false → resized k k2 (disk_image ds) d1 new_size →
  (∀ r k3 d2, async_get_len (k2, d1) = (r, (k3, d2)) →
    quiet k2 k3 ∧ d2 = d1 ∧ match r with Returns m => m = new_size | Throws _ => True | Aborts => False end) →
  ∃ r k' ds', (l ← attempt (on_image async_get_len);
    (match l with
     | Some new_disk_size => '(k, s) ← get_state; put_state (k, set_size new_disk_size s)
     | None => mret ()
     end);; mret ControlOk : prog (K * DiskState D) Empty_set DiskControlResult) (k2, set_image d1 ds)
    = (Returns r, (k', ds')) ∧ resize_step new_size k ds r k' ds'.
Proof.
  intros Hro Hres Hgl. unfold mbind, prog_bind, attempt. rewrite on_image_run. cbn [disk_image set_image].
  destruct (async_get_len _) as [o [k3 d3]] eqn:E. destruct (Hgl _ _ _ eq_refl) as (Hq & -> & Ho).
  assert (resized k k3 (disk_image ds) d1 new_size) as Hres3.
  { eapply resized_after; [done|apply Hq|by apply quiet_framed|by apply quiet_marked]. }
  destruct o as [m|e|]; [subst m| |done].
  - exists ControlOk, k3, (set_size new_size (set_image d1 ds)). split; [done|]. by apply resize_done.
  - exists ControlOk, k3, (set_image d1 ds). split; [done|]. by apply resize_unmeasured.
Qed.

Lemma resize_run new_size k ds :
  disk_ok (disk_image ds) → ∃ r k' ds', resize new_size (k, ds) = (Returns r, (k', ds')) ∧ resize_step new_size k ds r k' ds'.
Proof using All.
  intros Hok. unfold resize. rewrite (bind_returns _ _ _ (k, ds) (k, ds)) by done. cbn beta iota.
  destruct (read_only ds) eqn:Ero; [eexists _, _, _; split; [done|by constructor]|].
  destruct (async_set_len new_size (k, disk_image ds)) as [o [k1 d1]] eqn:E.
  pose proof E as Hl. apply set_len_law in Hl; [|done].
  rewrite (bind_returns _ _ _ _ _ (attempt_image_run _ _ _ _ _ _ E ltac:(by destruct o))).
  destruct o as [[]|e|]; [| |done].
  2: { destruct Hl as [Hq ->]. exists (ControlErr EIO), k1, ds. split; [by destruct ds|by constructor]. }
  destruct Hl as [Hres [Hal Hgl]]. destruct (sparse ds) eqn:Esp.
  - rewrite (bind_returns _ _ _ (Some ()) (k1, set_image d1 ds)) by done. apply measure_run; [done..|].
    intros r k3 d2. by apply Hgl.
  - destruct (async_allocate (U64 0) new_size (k1, d1)) as [o [k2 d2]] eqn:Ea.
    destruct (Hal _ _ _ _ eq_refl Ea) as (-> & Hc & Hna & Hf & Hm).
    assert (resized k k2 (disk_image ds) d1 new_size) as Hres2 by (by eapply resized_after).
    rewrite (bind_returns _ _ _ _ _ (attempt_image_run _ _ (set_image d1 ds) _ _ _ Ea Hna)).
    change (set_image d1 (set_image d1 ds)) with (set_image d1 ds). destruct o as [[]|e|]; [| |done].
    + apply measure_run; [done..|]. intros r k3 d2. by apply Hgl.
    + exists (ControlErr EIO), k2, (set_image d1 ds). split; [done|]. by apply resize_not_allocated.
Qed.

(** A command that makes the disk smaller was cut short: the disk has [new_size] bytes,
    and the device still has its old size. *)
Definition cut_short (new_size : u64) k ds : Prop :=
  new_size < disk_size ds ∧
  ∃ r k' d', resize new_size (k, ds) = (Returns r, (k', set_image d' ds)) ∧ resized k k' (disk_image ds) d' new_size.

(** The image after a command: the same, or the first bytes of it and, after all of
    them, what the disk has there, which is zeros if there was nothing. *)
Definition resized_img (new_size : u64) k ds (r : DiskControlResult) (img img' : list u8) : Prop :=
  img' = img ∨
  (r = ControlOk ∧ lengthZ img' = new_size ∧ ∃ tail, img' = takeZ new_size img ++ tail ∧
    ((∀ j, lengthZ img <= j → disk_byte (contents k) (disk_image ds) j = None) → tail = zeros (lengthZ tail))).

Lemma resize_step_effect new_size k ds r k' ds' :
  disk_ok (disk_image ds) → resize_step new_size k ds r k' ds' →
  disk_effect false k k' (disk_image ds) (disk_image ds') ∧ config_of ds' = config_of ds.
Proof.
  intros Hok Hst. destruct Hst; (split; [by eapply quiet_effect || by eapply resized_effect|done]).
Qed.

(** Growing a disk keeps what it shows, also if it fails halfway. *)
Lemma resize_grows (new_size : u64) k ds r k' ds' img :
  resize_step new_size k ds r k' ds' → represents k ds img → disk_size ds <= new_size →
  disk_effect false k k' (disk_image ds) (disk_image ds') ∧ config_of ds' = config_of ds ∧
  ∃ img', represents k' ds' img' ∧ resized_img new_size k ds r img img'.
Proof.
  intros Hst Hrep Hle. pose proof Hrep as (Hok & Hsh & Hlen).
  destruct (resize_step_effect _ _ _ _ _ _ Hok Hst) as [He Hc]. split; [done|]. split; [done|].
  assert (∀ k' d', resized k k' (disk_image ds) d' new_size → represents k' (set_image d' ds) img) as Hkeep.
  { intros k2 d2 Hres. destruct (resized_image _ _ _ _ _ _ Hres Hsh) as (tail & Hs & _); [lia|].
    apply shows_app in Hs as [Hs _]. split_and!; [apply Hres|done|done]. }
  destruct Hst as [Hro|k' Hro Hq|k' d' Hro Hsp Hres|k' d' Hro Hres|k' d' Hro Hres].
  - exists img. split; [done|by left].
  - exists img. split; [by eapply quiet_represents|by left].
  - exists img. split; [by apply Hkeep|by left].
  - exists img. split; [by apply Hkeep|by left].
  - destruct (resized_image _ _ _ _ _ _ Hres Hsh) as (tail & Hs & Hl & Hz); [lia|]. exists (img ++ tail).
    split; [split_and!; [apply Hres|done|done]|]. right. split; [done|]. split; [done|]. exists tail. split; [|done].
    rewrite takeZ_all by lia. done.
Qed.

(** A disk that got smaller shows the first bytes of the image. *)
Lemma resized_cut k k' d d' img (n : u64) :
  resized k k' d d' n → shows (contents k) d 0 img → n <= lengthZ img → shows (contents k') d' 0 (takeZ n img).
Proof.
  intros (_ & _ & _ & Hb) Hs Hle i b Hi. pose proof (uint_range n). rewrite takeZ_take in Hi.
  apply lookup_take_Some in Hi as [Hi Hlt]. rewrite Hb by lia. by rewrite (Hs _ _ Hi).
Qed.

(** A command to resize the disk is carried out or leaves the image alone, unless it
    makes the disk smaller and is cut short. *)
Lemma resize_img (new_size : u64) k ds img :
  represents k ds img →
  ∃ r k' ds', resize new_size (k, ds) = (Returns r, (k', ds')) ∧ resize_step new_size k ds r k' ds' ∧
    (cut_short new_size k ds ∨ ∃ img', represents k' ds' img' ∧ resized_img new_size k ds r img img').
Proof using All.
  intros Hrep. pose proof Hrep as (Hok & Hsh & Hlen).
  destruct (resize_run new_size k ds Hok) as (r & k' & ds' & Hrun & Hst). exists r, k', ds'. split; [done|]. split; [done|].
  destruct (Z.lt_ge_cases new_size (disk_size ds)) as [Hlt|Hge].
  - destruct Hst as [Hro|k' Hro Hq|k' d' Hro Hsp Hres|k' d' Hro Hres|k' d' Hro Hres].
    + right. exists img. split; [done|by left].
    + right. exists img. split; [by eapply quiet_represents|by left].
    + left. split; [done|]. by exists (ControlErr EIO), k', d'.
    + left. split; [done|]. by exists ControlOk, k', d'.
    + right. exists (takeZ new_size img). pose proof (uint_range new_size).
      assert (lengthZ (takeZ new_size img) = new_size) as Hl by (rewrite lengthZ_takeZ; lia).
      split; [split_and!; [apply Hres|eapply resized_cut; [done..|lia]|done]|]. right. split; [done|]. split; [done|].
      exists []. by rewrite app_nil_r.
  - right. destruct (resize_grows new_size k ds r k' ds' img Hst Hrep Hge) as (_ & _ & img' & Hrep' & Hi). by exists img'.
Qed.

(** ** Durability *)

(** A disk whose files are all on the storage would show the same after a power
    failure. *)
Lemma clean_durable k d img :
  (∀ i, i ∈ disk_inodes d → clean k i) → shows (contents k) d 0 img → shows (durable k) d 0 img.
Proof.
  intros Hc Hs i b Hb. rewrite (byte_frame (durable k) (contents k)); [by apply Hs|]. intros j Hj. by apply Hc.
Qed.

(** What [fsync] does to the host and the disk. *)
Definition synced k k' d d' : Prop :=
  quiet k k' ∧ same_shape d d' ∧ (∀ σ j, disk_byte σ d' j = disk_byte σ d j) ∧ tracked k k' d d'.

Lemma fsync_run k d :
  disk_ok d → ∃ r k' d', async_fsync (k, d) = (r, (k', d')) ∧ r ≠ Aborts ∧ synced k k' d d' ∧
    (r = Returns () → ∀ i, i ∈ synced_by d → clean k' i).
Proof.
  intros Hok. destruct (async_fsync (k, d)) as [r [k' d']] eqn:E. exists r, k', d'. split; [done|].
  destruct (async_fsync_law _ _ _ _ _ Hok (or_introl E)) as (Hq & Hsh & Hb & Hm & Ho).
  split; [by destruct r|]. split.
  - split_and!; [done..|]. intros i [Hi|Hi]; [left; by apply Hq|]. destruct (Hm i Hi); auto.
  - intros ->. done.
Qed.

Lemma synced_represents k k' ds d' img :
  represents k ds img → synced k k' (disk_image ds) d' → represents k' (set_image d' ds) img.
Proof.
  intros (Hok & Hs & Hl) (Hq & Hsh & Hb & _). split; [apply Hsh|]. split; [|done]. destruct Hq as [Hc _].
  rewrite Hc. intros i b Hi. cbn [disk_image set_image]. rewrite Hb. by apply Hs.
Qed.

Lemma synced_effect k k' d d' : synced k k' d d' → disk_effect false k k' d d'.
Proof. intros (Hq & Hsh & _ & Ht). split; [done|]. split; [by apply quiet_framed|done]. Qed.

(** The timer fires: nothing happens if it was not armed, else [fsync]. *)
Lemma flush_disk_run k ds armed img :
  represents k ds img →
  ∃ r k' d', flush_disk (k, ds, armed) = (r, (k', set_image d' ds, false)) ∧ r ≠ Aborts ∧
    synced k k' (disk_image ds) d' ∧ represents k' (set_image d' ds) img ∧
    (armed = true → r = Returns () → flushable k (disk_image ds) → shows (durable k') d' 0 img).
Proof.
  intros Hrep. unfold flush_disk. rewrite (bind_returns _ _ _ (k, ds, armed) (k, ds, armed)) by done. cbn beta iota.
  destruct armed.
  - rewrite (bind_returns _ _ _ () (k, ds, false)) by done. unfold map_err, zoom. cbn [fst snd]. rewrite on_image_run.
    destruct (fsync_run k (disk_image ds)) as (r & k' & d' & -> & Hna & Hsy & Hcl); [apply Hrep|].
    pose proof (synced_represents _ _ _ _ _ Hrep Hsy) as Hrep'.
    assert (r = Returns () → flushable k (disk_image ds) → shows (durable k') d' 0 img) as Hd.
    { intros Hr Hf. apply clean_durable; [|apply Hrep']. pose proof Hsy as (Hq & (_ & Hin & _) & _). rewrite Hin.
      intros i Hi. destruct (Hf i Hi) as [Hc|Hc]; [by apply Hq|by apply Hcl]. }
    destruct r as [[]|e|]; [| |done]; eexists _, k', d'; (split; [done|]); (split; [done|]); (split; [done|]);
      (split; [done|]); intros _ Hr; [by apply Hd|done].
  - exists (Returns ()), k, (disk_image ds). assert (set_image (disk_image ds) ds = ds) as -> by (by destruct ds).
    split; [done|]. split; [done|]. split; [|done]. split; [apply quiet_refl|]. split; [split; [apply Hrep|done]|].
    split; [done|]. by intros i Hi.
Qed.
End control.
