(* ===== verification/BlockWorker.v ===== *)
(** * The worker of a block device

    [process_one_chain], [handle_queue], [handle_command_tube], [run_worker] and the
    body of the thread of [start_worker] of [devices/src/virtio/block/asynchronous.rs].

    The tasks of a worker run on one executor, and a task that was polled runs until
    it waits.  A schedule is the list of what the worker is woken by: an event of a
    queue, a task for a chain that gets to run, the timer, a command for the disk or
    a command for the worker; the driver may write to the memory in between, and the
    handlers of the other queues get events while a queue is stopped.  The chain
    of a task is popped when the event of its queue is handled, and its request is
    executed as a whole when the task runs. *)

From stdpp Require Import gmap.
From S2P Require Import Prelude StdIo Checked Bits GuestMemory DescriptorUtils DescriptorChain SplitQueue PackedQueue.
From S2P Require Import DiskFile SparseImage CompositeDisk AsyncDisk BlockDevice.

(** ** The state *)

(** What the tasks of a worker share: the host, the disk, the flag of the timer,
    the memory of the guest with its interrupts, and how often the driver was told
    of a new configuration. *)
Record Shared (K D : Type) := mkShared {
  sh_kernel : K;
  sh_state : DiskState D;
  sh_armed : bool;
  sh_world : World;
  sh_config_changes : nat
}.
Arguments mkShared {K D} _ _ _ _ _.
Arguments sh_kernel {K D} _.
Arguments sh_state {K D} _.
Arguments sh_armed {K D} _.
Arguments sh_world {K D} _.
Arguments sh_config_changes {K D} _.

Definition set_world {K D} (w : World) (s : Shared K D) : Shared K D :=
  mkShared (sh_kernel s) (sh_state s) (sh_armed s) w (sh_config_changes s).

(** A task of [handle_queue]: the queue, and the chains whose tasks have not run. *)
Record QueueHandler := mkHandler { qh_queue : Queue; background_tasks : list DescriptorChain }.

(** The worker, with the handlers by the index of their queue. *)
Record Worker (K D : Type) := mkWorker { wk_shared : Shared K D; queue_handlers : gmap nat QueueHandler }.
Arguments mkWorker {K D} _ _.
Arguments wk_shared {K D} _.
Arguments queue_handlers {K D} _.

(** Why [run_worker] ends with an error. *)
Inductive WorkerError :=
| FlushFailed (e : ControlError)
| ReceivingCommand
| SendingResponse
| ChannelClosed.

(** The tube on which the responses to commands are sent; its errors are not told
    apart. *)
Class HostTube (K : Type) := { tube_send : DiskControlResult → prog K () () }.

(** ** Tasks *)

Section tasks.
Context {K D : Type} `{AsyncDisk K D} `{!HostTimer K} (mem : GuestMemory).

(** A request on the state of the worker. *)
Definition on_chain {E A} (c : DescriptorChain) (m : prog (Request K D) E A) : prog (Shared K D * Queue) E A :=
  zoom (λ s, mkRequest (sh_kernel s.1) (sh_state s.1) (sh_armed s.1) (w_host (sh_world s.1)) (dc_reader c) (dc_writer c))
    (λ r s, (mkShared (rq_kernel r) (rq_state r) (rq_armed r) (MkWorld (rq_host r) (w_signals (sh_world s.1)))
               (sh_config_changes s.1), s.2)) m.

(** An operation of the queue, which returns no errors. *)
Definition with_virtqueue {E A} (m : QueueOp Queue A) : prog (Shared K D * Queue) E A :=
  zoom (λ s, (s.2, sh_world s.1)) (λ t s, (set_world t.2 s.1, t.1)) (unwrap m).

Definition process_one_chain (avail_desc : DescriptorChain) : prog (Shared K D * Queue) Empty_set () :=
  r ← attempt (on_chain avail_desc (process_one_request mem));
  let len := match r with Some len => len | None => U64 0 end in
  with_virtqueue (Queue_add_used mem avail_desc (U32 len));;
  _ ← with_virtqueue (Queue_trigger_interrupt mem);
  mret ().

(** ** A queue *)

Abbreviation Handle := (prog (Shared K D * QueueHandler) Empty_set).

Definition with_queue {A} (m : prog (Shared K D * Queue) Empty_set A) : Handle A :=
  zoom (λ s, (s.1, qh_queue s.2)) (λ t s, (t.1, mkHandler t.2 (background_tasks s.2))) m.
Definition set_tasks (l : list DescriptorChain) : Handle () :=
  '(s, h) ← get_state; put_state (s, mkHandler (qh_queue h) l).

(** The loop over [pop].  The driver can make as many chains available as an index
    of 16 bits can count. *)
Definition pop_fuel : nat := Z.to_nat (2 ^ 16).

Fixpoint pop_all (fuel : nat) : Handle () :=
  match fuel with
  | O => abort
  | S fuel =>
      r ← with_queue (with_virtqueue (Queue_pop mem));
      match r with
      | None => mret ()
      | Some descriptor_chain =>
          '(_, h) ← get_state;
          set_tasks (background_tasks h ++ [descriptor_chain]);;
          pop_all fuel
      end
  end.

(** [background_tasks.next()], which completes the [j]-th of the tasks. *)
Definition next_task (j : nat) : Handle () :=
  '(_, h) ← get_state;
  match background_tasks h !! j with
  | None => mret ()
  | Some c => set_tasks (delete j (background_tasks h));; with_queue (process_one_chain c)
  end.

(** [background_tasks.collect()]. *)
Fixpoint collect (n : nat) : Handle () :=
  match n with
  | O => mret ()
  | S n => next_task 0;; collect n
  end.

(** The queue that is returned when the handler is told to stop. *)
Definition stop_handler : Handle Queue :=
  '(_, h) ← get_state;
  collect (length (background_tasks h));;
  '(_, h) ← get_state;
  mret (qh_queue h).
End tasks.

(** ** The worker *)

Inductive WorkerCmd := StartQueue (index : nat) (queue : Queue) | StopQueue (index : nat).

(** What wakes the handlers of the queues, or the driver writes.  A value of type
    [bool] tells whether the call that waited was successful. *)
Inductive handler_event :=
| GuestWrites (h : host)
| QueueEvent (index : nat) (read : bool)
| TaskRuns (index j : nat).

(** What wakes the worker.  While it waits for a handler to stop it polls all the
    handlers, and nothing else: [during] is what wakes them in the meantime. *)
Inductive worker_event :=
| Handlers (ev : handler_event)
| TimerFires (waited : bool)
| CommandReceived (new_size : option u64)
| WorkerCommand (cmd : option WorkerCmd) (during : list handler_event)
| Killed.

Section worker.
Context {K D : Type} `{AsyncDisk K D} `{!HostTimer K, !HostTube K} (mem : GuestMemory).
Abbreviation Work := (prog (Worker K D) WorkerError).

Definition on_shared {E A} (m : prog (Shared K D) E A) : prog (Worker K D) E A :=
  zoom wk_shared (λ t s, mkWorker t (queue_handlers s)) m.
Definition on_worker_kernel {E A} (m : prog K E A) : prog (Worker K D) E A :=
  on_shared (zoom sh_kernel (λ k s, mkShared k (sh_state s) (sh_armed s) (sh_world s) (sh_config_changes s)) m).
Definition on_worker_disk {E A} (m : prog (K * DiskState D) E A) : prog (Worker K D) E A :=
  on_shared (zoom (λ s, (sh_kernel s, sh_state s))
    (λ t s, mkShared t.1 t.2 (sh_armed s) (sh_world s) (sh_config_changes s)) m).

(** A step of the handler of a queue, if there is one. *)
Definition on_handler {E A} (index : nat) (m : prog (Shared K D * QueueHandler) Empty_set A)
    : prog (Worker K D) E (option A) := λ s,
  match queue_handlers s !! index with
  | None => (Returns None, s)
  | Some h =>
      let '(r, (t, h')) := m (wk_shared s, h) in
      (match r with Returns a => Returns (Some a) | Throws e => match e with end | Aborts => Aborts end,
       mkWorker t (<[index := h']> (queue_handlers s)))
  end.

(** [handle_command_tube], for one command. *)
Definition handle_command (new_size : option u64) : Work () :=
  match new_size with
  | None => throw ReceivingCommand
  | Some new_size =>
      resp ← map_err (λ e : Empty_set, match e with end) (on_worker_disk (resize new_size));
      map_err (λ _, SendingResponse) (on_worker_kernel (tube_send resp));;
      match resp with
      | ControlOk =>
          on_shared (s ← get_state; put_state (mkShared (sh_kernel s) (sh_state s) (sh_armed s) (sh_world s)
                                                 (S (sh_config_changes s))))
      | ControlErr _ => mret ()
      end
  end.

(** [flush_disk], when the timer fires. *)
Definition timer_fired (waited : bool) : Work () :=
  if waited then
    map_err FlushFailed
      (on_shared (zoom (λ s, (sh_kernel s, sh_state s, sh_armed s))
         (λ t s, mkShared t.1.1 t.1.2 t.2 (sh_world s) (sh_config_changes s)) flush_disk))
  else throw (FlushFailed FlushTimer).

(** [queue_handlers.next()]. *)
Definition on_handler_event {E} (ev : handler_event) : prog (Worker K D) E () :=
  match ev with
  | GuestWrites h => on_shared (s ← get_state; put_state (set_world (MkWorld h (w_signals (sh_world s))) s))
  | QueueEvent index read => if read then _ ← on_handler index (pop_all mem pop_fuel); mret () else mret ()
  | TaskRuns index j => _ ← on_handler index (next_task mem j); mret ()
  end.

Fixpoint on_handler_events {E} (evs : list handler_event) : prog (Worker K D) E () :=
  match evs with
  | [] => mret ()
  | ev :: evs => on_handler_event ev;; on_handler_events evs
  end.

(** Stops the handler of a queue, if there is one, and removes it.  The handler may be
    woken by events of its own until it notices; then it completes its tasks. *)
Definition stop_queue_handler (index : nat) (during : list handler_event) : Work (option Queue) :=
  s ← get_state;
  match queue_handlers s !! index with
  | None => mret None
  | Some _ =>
      on_handler_events during;;
      r ← on_handler index (stop_handler mem);
      s ← get_state;
      put_state (mkWorker (wk_shared s) (delete index (queue_handlers s)));;
      mret r
  end.

(** The commands of [run_worker]; the responses to [StopQueue]. *)
Definition handle_worker_cmd (cmd : option WorkerCmd) (during : list handler_event) : Work (list (option Queue)) :=
  match cmd with
  | None => throw ChannelClosed
  | Some (StartQueue index queue) =>
      _ ← stop_queue_handler index during;
      s ← get_state;
      put_state (mkWorker (wk_shared s) (<[index := mkHandler queue []]> (queue_handlers s)));;
      mret []
  | Some (StopQueue index) => r ← stop_queue_handler index during; mret [r]
  end.

Definition on_event (ev : worker_event) : Work (list (option Queue)) :=
  match ev with
  | Handlers ev => on_handler_event ev;; mret []
  | TimerFires waited => timer_fired waited;; mret []
  | CommandReceived new_size => handle_command new_size;; mret []
  | WorkerCommand cmd during => handle_worker_cmd cmd during
  | Killed => mret []
  end.

(** [run_worker] on a schedule: the queues that were sent back. *)
Fixpoint run_worker (evs : list worker_event) : Work (list (option Queue)) :=
  match evs with
  | [] => mret []
  | Killed :: _ => mret []
  | ev :: evs => r ← on_event ev; rs ← run_worker evs; mret (r ++ rs)
  end.

(** The thread: the worker, then [flush]; errors are logged. *)
Definition worker_main (evs : list worker_event) : prog (Worker K D) Empty_set (option (list (option Queue))) :=
  r ← attempt (run_worker evs);
  _ ← attempt (on_worker_disk (on_image async_flush));
  mret r.
End worker.
