(* ===== verification/BlockServe.v ===== *)
(** * Serving block requests

    [process_one_request] answers any chain with a step of the abstract device and
    a status.  Then the task for one descriptor chain: what it does to the disk, the
    memory of the guest and the queue. *)

From stdpp Require Import gmap.
From S2P Require Import Prelude StdIo Checked Bits GuestMemory GuestMemoryFacts DescriptorUtils StreamFacts.
From S2P Require Import DiskFile DiskFacts SparseImage CompositeDisk AsyncDisk AsyncFacts BlockDevice.
From S2P Require Import BlockFacts BlockSpec DescriptorChain ChainFacts SplitQueue SplitFacts PackedQueue BlockWorker.

Definition status_of (r : option ExecuteError) : u8 :=
  match r with None => VIRTIO_BLK_S_OK | Some e => status e end.

Section serve.
Context {K D : Type} `{AsyncLaws K D} `{!HostTimer K, !HostTimerLaws K}.
Context (gm : GuestMemory) (Hgm : gm_ok gm).
Implicit Types (k : K) (d : D) (s : Request K D).

(** A chain of which nothing was consumed. *)
Definition unread (r : DescriptorChainRegions) : Prop := ∃ l, r = DescriptorChainRegions_new l.

(** The request, with a part of its writer. *)
Definition with_writer s w : Request K D :=
  mkRequest (rq_kernel s) (rq_state s) (rq_armed s) (rq_host s) (rq_reader s) w.

Lemma split_status w (n : u64) :
  stream_ok gm w → unread w → uval n = lengthZ (remaining w) - 1 →
  ∃ w1 w2 a, regions_split_at w n = Some (w1, w2) ∧ stream_ok gm w1 ∧ stream_ok gm w2 ∧
    remaining w1 = takeZ n (remaining w) ∧ remaining w2 = [a] ∧ dropZ n (remaining w) = [a].
Proof using Hgm.
  intros Hw [l ->] Hn. destruct (split_at_start gm _ n Hw) as (w1 & w2 & Hrun & Hw1 & Hw2 & Hr1 & Hr2 & _);
    [done|cbn; lia|]. pose proof (uint_range n). pose proof (lengthZ_nonneg (remaining (DescriptorChainRegions_new l))).
  assert (lengthZ (dropZ n (remaining (DescriptorChainRegions_new l))) = 1) as Hl by (rewrite lengthZ_dropZ by lia; lia).
  destruct (dropZ n (remaining (DescriptorChainRegions_new l))) as [|a [|b rest]] eqn:E; [done| |].
  - exists w1, w2, a. by split_and!.
  - rewrite !lengthZ_cons in Hl. pose proof (lengthZ_nonneg rest). lia.
Qed.

Lemma status_run w h a st :
  stream_ok gm w → remaining w = [a] →
  ∃ w' h', Writer_write_obj gm [st] (w, h) = (Returns (), (w', h')) ∧
    ∀ x, guest_byte gm h' x = StreamFacts.store (guest_byte gm h) [a] [st] x.
Proof using Hgm.
  intros Hw Ha. set (tp := MkTape (remaining w) (guest_byte gm h) (bytes_consumed w)).
  destruct (write_obj_is gm Hgm w h tp [st] ltac:(by constructor) ltac:(done)) as (w' & h' & Hrun & [_ _ Hg _]).
  exists w', h'. cbn [tp tp_left] in Hrun. rewrite Ha in Hrun. split; [done|]. intros x. rewrite Hg. cbn. by rewrite Ha.
Qed.

(** The parts of the state after a request. *)
Record served s s' (img : list u8) (r : option ExecuteError) (reply : list u8) (fault : bool) (img' : list u8) : Prop := {
  sv_step : blk_step (config_of (rq_state s)) img (sent gm s) (room s - 1) r reply fault img';
  sv_memory : ∀ x, guest_byte gm (rq_host s') x =
    StreamFacts.store (StreamFacts.store (guest_byte gm (rq_host s)) (takeZ (room s - 1) (remaining (rq_writer s))) reply)
      (dropZ (room s - 1) (remaining (rq_writer s))) [status_of r] x;
  sv_disk : represents (rq_kernel s') (rq_state s') img';
  sv_state : rq_state s' = set_image (image_in s') (rq_state s);
  sv_effect : disk_effect fault (rq_kernel s) (rq_kernel s') (image_in s) (image_in s');
  sv_flushed : flushed gm s s' r
}.

Lemma process_one_request_run s img :
  request_ok gm s img → id_ok (rq_state s) → unread (rq_writer s) → 0 < room s →
  ∃ r reply fault img' s', process_one_request gm s = (Returns (U64 (room s)), s') ∧
    served s s' img r reply fault img'.
Proof using All.
  intros (Hrep & Hrd & Hwr) Hid Hun Hpos. unfold process_one_request.
  rewrite (bind_returns _ _ _ s s) by done. destruct (available_bytes_spec gm Hgm _ Hwr) as (n & Hn & Hnv).
  fold (room s) in Hnv. rewrite Hn. cbn [checked]. rewrite (bind_returns _ _ _ n s) by done.
  destruct (sub_checked n (U64 1)) as [so|] eqn:Eso;
    [apply sub_checked_Some in Eso|apply sub_checked_None in Eso; change (uval (U64 1)) with 1 in Eso; lia].
  change (uval (U64 1)) with 1 in Eso. cbn [ok_or_throw]. rewrite (bind_returns _ _ _ so s) by done.
  destruct (split_status (rq_writer s) so Hwr Hun) as (w1 & w2 & a & Hrun & Hw1 & Hw2 & Hr1 & Hr2 & Hda);
    [unfold room in Hnv; lia|].
  rewrite Hrun. cbn [checked]. rewrite (bind_returns _ _ _ (w1, w2) s) by done. cbn beta iota.
  rewrite (bind_returns _ _ _ () (with_writer s w1)) by done.
  assert (room (with_writer s w1) = room s - 1) as Hroom.
  { pose proof (uint_range so). unfold room in *. cbn [with_writer rq_writer]. rewrite Hr1, lengthZ_takeZ by lia. lia. }
  destruct (execute_request gm (with_writer s w1)) as [o s2] eqn:E.
  pose proof E as Hx. apply (execute_request_spec gm Hgm (with_writer s w1) img) in Hx as (r & reply & fault & img' & -> & Hst & Ha & Hfl); [|done|done].
  set (x := match r with None => inl () | Some e => inr e end : () + ExecuteError).
  rewrite (bind_returns _ _ _ x s2) by (unfold catch; rewrite E; by destruct r).
  destruct (status_run w2 (rq_host s2) a (status_of r) Hw2 Hr2) as (w' & h' & Hsr & Hg).
  destruct Ha as (Hmem & Hrep' & Hset & Heff).
  set (s3 := mkRequest (rq_kernel s2) (rq_state s2) (rq_armed s2) h' (rq_reader s2) (rq_writer s2)).
  exists r, reply, fault, img', s3. split.
  - rewrite (bind_returns _ _ _ () s3).
    + by rewrite <- Hnv, to_uint_uval.
    + unfold map_err, zoom. cbn [rq_host].
      replace (match x with inl _ => VIRTIO_BLK_S_OK | inr e => status e end) with (status_of r) by (by destruct r).
      by rewrite Hsr.
  - constructor; [by rewrite <- Hroom| |done|done|done|done]. intros y. cbn. rewrite Hg.
    replace (room s - 1) with (uval so) by lia. rewrite Hda. apply store_ext. intros z. rewrite Hmem. cbn. by rewrite Hr1.
Qed.
End serve.

Section task.
Context {K D : Type} `{AsyncLaws K D} `{!HostTimer K, !HostTimerLaws K}.
Context (gm : GuestMemory) (Hgm : gm_ok gm).
Implicit Types (s : Shared K D) (q : SplitQueue) (c : DescriptorChain).

(** ** Computations on parts of the state *)

Lemma on_chain_run {E A} (m : prog (Request K D) E A) c s (q : Queue) r (s' : Request K D) :
  m (mkRequest (sh_kernel s) (sh_state s) (sh_armed s) (w_host (sh_world s)) (dc_reader c) (dc_writer c)) = (r, s') →
  on_chain c m (s, q) =
  (r, (mkShared (rq_kernel s') (rq_state s') (rq_armed s') (MkWorld (rq_host s') (w_signals (sh_world s)))
         (sh_config_changes s), q)).
Proof. intros Hm. unfold on_chain, zoom. cbn [fst snd]. by rewrite Hm. Qed.

Lemma with_virtqueue_run {E A} (m : QueueOp Queue A) s (q q' : Queue) a w :
  m (q, sh_world s) = (Returns a, (q', w)) →
  with_virtqueue m (s, q) = (Returns a : outcome E A, (set_world w s, q')).
Proof. intros Hm. unfold with_virtqueue, zoom, unwrap. cbn [fst snd]. by rewrite Hm. Qed.

Lemma on_split_run {A} (m : QueueOp SplitQueue A) (p : QueueOp PackedQueue A) q w r q' w' :
  m (q, w) = (r, (q', w')) → on_queue m p (SplitVirtQueue q, w) = (r, (SplitVirtQueue q', w')).
Proof. intros Hm. unfold on_queue. by rewrite Hm. Qed.

Lemma with_queue_run {A} (m : prog (Shared K D * Queue) Empty_set A) s h r s' (q' : Queue) :
  m (s, qh_queue h) = (r, (s', q')) → with_queue m (s, h) = (r, (s', mkHandler q' (background_tasks h))).
Proof. intros Hm. unfold with_queue, zoom. cbn [fst snd]. by rewrite Hm. Qed.

(** ** One chain *)

(** The request of a chain. *)
Definition request_of c s : Request K D :=
  mkRequest (sh_kernel s) (sh_state s) (sh_armed s) (w_host (sh_world s)) (dc_reader c) (dc_writer c).

(** A chain that a queue handed out. *)
Definition chain_ready (size : u16) c : Prop := chain_safe gm size c ∧ unread (dc_writer c).

(** How a request ends: there is no byte for the status, or the device has answered
    it.  The number of bytes the driver is told, whether a call of the host failed
    while zeros were written, and the image. *)
Inductive request_done c s (img : list u8) : Request K D → Z → bool → list u8 → Prop :=
| done_no_status : remaining (dc_writer c) = [] → request_done c s img (request_of c s) 0 false img
| done_served r reply fault img' (s' : Request K D) :
    remaining (dc_writer c) ≠ [] → served gm (request_of c s) s' img r reply fault img' →
    request_done c s img s' (lengthZ (remaining (dc_writer c))) fault img'.

(** The effect of the task of a chain: the request is executed, the chain is put
    into the used ring, and the driver may be notified. *)
Record task_done c s q s' q' (img : list u8) (fault : bool) (img' : list u8) : Prop := {
  td_request : ∃ rq len, request_done c s img rq len fault img' ∧
    sh_kernel s' = rq_kernel rq ∧ sh_state s' = rq_state rq ∧
    ∀ x, guest_byte gm (w_host (sh_world s')) x = after_use q (dc_index c) (U32 len) (guest_byte gm (rq_host rq)) x;
  td_queue : ∃ last, q' = set_last_used last (set_next_used (uadd (sq_next_used q) (U16 1)) q);
  td_signals : w_signals (sh_world s') = w_signals (sh_world s) ∨
    w_signals (sh_world s') = sq_vector q :: w_signals (sh_world s);
  td_config : sh_config_changes s' = sh_config_changes s
}.

Lemma process_one_request_none (s : Request K D) :
  stream_ok gm (rq_writer s) → remaining (rq_writer s) = [] →
  process_one_request gm s = (Throws MissingStatus, s).
Proof using Hgm.
  intros Hw Hr. unfold process_one_request. rewrite (bind_returns _ _ _ s s) by done.
  destruct (available_bytes_spec gm Hgm _ Hw) as (n & Hn & Hnv). rewrite Hn. cbn [checked].
  rewrite (bind_returns _ _ _ n s) by done. rewrite Hr in Hnv. change (lengthZ (@nil Z)) with 0 in Hnv.
  destruct (sub_checked n (U64 1)) as [so|] eqn:Eso; [|done]. apply sub_checked_Some in Eso.
  change (uval (U64 1)) with 1 in Eso. pose proof (uint_range so). lia.
Qed.

(** The request of a task is executed, and the bytes to report are counted. *)
Lemma task_request_run s (q : Queue) img (size : u16) c :
  represents (sh_kernel s) (sh_state s) img → id_ok (sh_state s) → chain_ready size c →
  ∃ r rq len fault img', attempt (on_chain c (process_one_request gm)) (s, q) =
      (Returns r : outcome Empty_set _,
       (mkShared (rq_kernel rq) (rq_state rq) (rq_armed rq) (MkWorld (rq_host rq) (w_signals (sh_world s)))
          (sh_config_changes s), q)) ∧
    (let len := match r with Some len => len | None => U64 0 end in U32 len) = U32 len ∧ request_done c s img rq len fault img'.
Proof using All.
  intros Hrep Hid [Hsafe Hun]. destruct (decide (remaining (dc_writer c) = [])) as [Hnil|Hne].
  - exists None, (request_of c s), 0, false, img. split; [|split; [done|by constructor]].
    unfold attempt. erewrite on_chain_run; [|by apply process_one_request_none; [apply Hsafe|]]. done.
  - destruct (process_one_request_run gm Hgm (request_of c s) img) as (r & reply & fault & img' & s' & Hrun & Hsv).
    + split; [done|]. split; apply Hsafe.
    + done.
    + done.
    + unfold room. cbn. destruct (remaining (dc_writer c)) as [|a l]; [done|]. rewrite lengthZ_cons.
      pose proof (lengthZ_nonneg l). lia.
    + exists (Some (U64 (room (request_of c s)))), s', (lengthZ (remaining (dc_writer c))), fault, img'.
      split; [|split; [|by eapply done_served]].
      * unfold attempt. by erewrite on_chain_run by exact Hrun.
      * f_equal. unfold room. cbn. rewrite uval_to_uint_small; [done|].
        pose proof (cs_bytes _ _ _ Hsafe). pose proof (lengthZ_nonneg (remaining (dc_reader c))).
        pose proof (lengthZ_nonneg (remaining (dc_writer c))). cbn [Z.of_N]. lia.
Qed.

Lemma process_one_chain_run s q img c :
  represents (sh_kernel s) (sh_state s) img → id_ok (sh_state s) → queue_ok gm q → chain_ready (sq_size q) c →
  ∃ s' q' fault img', process_one_chain gm c (s, SplitVirtQueue q) = (Returns (), (s', SplitVirtQueue q')) ∧
    task_done c s q s' q' img fault img'.
Proof using All.
  intros Hrep Hid Hq Hc.
  destruct (task_request_run s (SplitVirtQueue q) img _ c Hrep Hid Hc) as (r & rq & len & fault & img' & Hrun & Hlen & Hdone).
  unfold process_one_chain. rewrite (bind_returns _ _ _ _ _ Hrun).
  cbv zeta in Hlen |- *. rewrite Hlen. set (s1 := mkShared _ _ _ _ _). destruct (split_add_used_run gm Hgm q Hq c (U32 len) (sh_world s1)) as (h' & Hadd & Hx).
  erewrite bind_returns by (eapply with_virtqueue_run, on_split_run; exact Hadd). set (q1 := set_next_used _ q) in *.
  assert (Hq1 : queue_ok gm q1) by (destruct Hq; by constructor).
  set (s2 := set_world _ s1). destruct (split_trigger_run gm Hgm q1 (sh_world s2) Hq1) as (b & _ & Htr).
  destruct b; erewrite bind_returns by (eapply with_virtqueue_run, on_split_run; exact Htr); (eexists _, _, fault, img'; split; [done|]); constructor.
  - by exists rq, len.
  - by exists (sq_next_used q1).
  - by right.
  - done.
  - by exists rq, len.
  - exists (sq_last_used q). by destruct q.
  - by left.
  - done.
Qed.
End task.
