(* ===== verification/BlockRun.v ===== *)
(** * Schedules of a block worker

    The worker as a transition system, [dev_step], whose steps are those of the
    abstract device: a chain is popped, a request is answered, the disk is flushed or
    resized, and the queues come and go.  The computations of [BlockWorker] on split
    queues take steps of it, so that no schedule of a worker aborts, whatever the driver
    writes.  The correctness of the block device is at the end. *)

From stdpp Require Import gmap.
From S2P Require Import Prelude StdIo Checked Bits GuestMemory GuestMemoryFacts DescriptorUtils StreamFacts.
From S2P Require Import DescriptorChain ChainFacts SplitQueue SplitFacts PackedQueue PackedFacts.
From S2P Require Import DiskFile DiskFacts SparseImage.
From S2P Require Import CompositeDisk AsyncDisk AsyncFacts AsyncDepth BlockDevice BlockFacts BlockSpec.
From S2P Require Import BlockServe BlockControl BlockWorker.

Class HostTubeLaws (K : Type) `{HostFiles K} `{HostAsync K} `{HostTube K} : Prop :=
  tube_send_law x k r k' : tube_send x k = (r, k') → quiet k k' ∧ r ≠ Aborts.

Section run.
Context {K D : Type} `{AsyncLaws K D} `{!ResizeLaws K D}.
Context `{!HostTimer K, !HostTimerLaws K, !HostTube K, !HostTubeLaws K}.
Context (gm : GuestMemory) (Hgm : gm_ok gm).
Implicit Types (s : Shared K D) (c : DescriptorChain) (W : Worker K D) (h : QueueHandler).

(** ** The invariant *)

(** The chains of a split queue that were popped and not yet used are the tasks. *)
Record tasks_ok q (l : list DescriptorChain) : Prop := {
  ho_queue : queue_ok gm q;
  ho_apart : areas_apart q;
  ho_tasks : Forall (chain_ready gm (sq_size q)) l;
  ho_count : usub (sq_next_avail q) (sq_next_used q) = U16 (lengthZ l)
}.
Definition handler_ok h : Prop := ∃ q, qh_queue h = SplitVirtQueue q ∧ tasks_ok q (background_tasks h).

(** A split queue all of whose chains were used. *)
Definition idle (vq : Queue) : Prop :=
  ∃ q, vq = SplitVirtQueue q ∧ queue_ok gm q ∧ areas_apart q ∧ sq_next_avail q = sq_next_used q.

Record worker_ok W (img : list u8) : Prop := {
  wo_disk : represents (sh_kernel (wk_shared W)) (sh_state (wk_shared W)) img;
  wo_id : id_ok (sh_state (wk_shared W));
  wo_handlers : map_Forall (λ _, handler_ok) (queue_handlers W)
}.

(** ** Steps *)

Abbreviation kernel W := (sh_kernel (wk_shared W)).
Abbreviation dstate W := (sh_state (wk_shared W)).
Abbreviation memory W := (w_host (sh_world (wk_shared W))).
Abbreviation dimage W := (disk_image (sh_state (wk_shared W))).

(** The worker with another state of the disk. *)
Definition with_disk k (ds : DiskState D) armed changes W : Worker K D :=
  mkWorker (mkShared k ds armed (sh_world (wk_shared W)) changes) (queue_handlers W).

Inductive dev_step W (img : list u8) : bool → Worker K D → list u8 → Prop :=
| dev_guest m :
    dev_step W img false
      (mkWorker (set_world (MkWorld m (w_signals (sh_world (wk_shared W)))) (wk_shared W)) (queue_handlers W)) img
| dev_pop i q tasks l c m :
    queue_handlers W !! i = Some (mkHandler (SplitVirtQueue q) tasks) →
    sq_next_avail q ≠ avail_idx gm (memory W) q → avail_chain gm q (memory W) (sq_next_avail q) l c →
    (∀ x, guest_byte gm m x = after_pop q (guest_byte gm (memory W)) x) →
    dev_step W img false
      (mkWorker (set_world (MkWorld m (w_signals (sh_world (wk_shared W)))) (wk_shared W))
         (<[i := mkHandler (SplitVirtQueue (set_next_avail (uadd (sq_next_avail q) (U16 1)) q)) (tasks ++ [c])]>
            (queue_handlers W))) img
| dev_task i q tasks j c s' q' fault img' :
    queue_handlers W !! i = Some (mkHandler (SplitVirtQueue q) tasks) → tasks !! j = Some c →
    task_done gm c (wk_shared W) q s' q' img fault img' →
    dev_step W img fault (mkWorker s' (<[i := mkHandler (SplitVirtQueue q') (delete j tasks)]> (queue_handlers W))) img'
| dev_sync k d :
    synced (kernel W) k (dimage W) d →
    dev_step W img false (with_disk k (set_image d (dstate W)) false (sh_config_changes (wk_shared W)) W) img
| dev_resize new_size r k1 k ds changes img' :
    resize_step new_size (kernel W) (dstate W) r k1 ds → quiet k1 k → represents k ds img' →
    resized_img new_size (kernel W) (dstate W) r img img' →
    dev_step W img false (with_disk k ds (sh_armed (wk_shared W)) changes W) img'
| dev_start i q :
    idle q →
    queue_handlers W !! i = None → dev_step W img false (mkWorker (wk_shared W) (<[i := mkHandler q []]> (queue_handlers W))) img
| dev_stop i :
    (∀ h, queue_handlers W !! i = Some h → background_tasks h = []) →
    dev_step W img false (mkWorker (wk_shared W) (delete i (queue_handlers W))) img.

(** Runs; a host that failed to write zeros in one of the steps is remembered. *)
Inductive dev_steps : Worker K D → list u8 → bool → Worker K D → list u8 → Prop :=
| dev_done W img : dev_steps W img false W img
| dev_next W img f1 W1 img1 f2 W2 img2 :
    dev_step W img f1 W1 img1 → dev_steps W1 img1 f2 W2 img2 → dev_steps W img (f1 || f2) W2 img2.

Lemma dev_once W img f W' img' : dev_step W img f W' img' → dev_steps W img f W' img'.
Proof. intros Hst. rewrite <- (orb_false_r f). eapply dev_next; [done|constructor]. Qed.
Lemma dev_steps_trans W img f1 W1 img1 f2 W2 img2 :
  dev_steps W img f1 W1 img1 → dev_steps W1 img1 f2 W2 img2 → dev_steps W img (f1 || f2) W2 img2.
Proof. induction 1; [done|]. intros Hs. rewrite <- orb_assoc. eapply dev_next; eauto. Qed.

(** ** What a step keeps *)

Lemma usub_next (a b : u16) (n : Z) :
  usub a b = U16 n → usub (uadd a (U16 1)) b = U16 (n + 1) ∧ usub a (uadd b (U16 1)) = U16 (n - 1).
Proof.
  intros E. apply (f_equal uval) in E. unfold usub in E. rewrite !uval_to_uint in E.
  split; apply uint_eq; unfold usub, uadd; change (uval (U16 1)) with 1; rewrite !uval_to_uint.
  - rewrite Zminus_mod_idemp_l. replace (a + 1 - b) with (a - b + 1) by lia.
    by rewrite <- (Zplus_mod_idemp_l (a - b)), E, Zplus_mod_idemp_l.
  - rewrite Zminus_mod_idemp_r. replace (a - (b + 1)) with (a - b - 1) by lia.
    by rewrite <- (Zminus_mod_idemp_l (a - b)), E, Zminus_mod_idemp_l.
Qed.

(** A popped chain is ready for its task. *)
Lemma avail_chain_ready q m k l c : avail_chain gm q m k l c → chain_ready gm (sq_size q) c.
Proof using Hgm.
  intros Hc. split; [by destruct (good_chain_safe gm Hgm _ _ _ _ _ _ Hc)|].
  destruct Hc as (_ & _ & dr & dw & _ & _ & ->). by eexists.
Qed.

Lemma request_done_disk c s img rq len fault img' :
  represents (sh_kernel s) (sh_state s) img → request_done gm c s img rq len fault img' →
  represents (rq_kernel rq) (rq_state rq) img' ∧ rq_state rq = set_image (disk_image (rq_state rq)) (sh_state s) ∧
  disk_effect fault (sh_kernel s) (rq_kernel rq) (disk_image (sh_state s)) (disk_image (rq_state rq)).
Proof.
  intros Hrep [Hnil|r reply fault' img1 rq1 Hne Hsv].
  - split; [done|]. split; [by destruct s as [? []]|]. apply quiet_effect; [apply Hrep|apply quiet_refl].
  - split_and!; apply Hsv.
Qed.

(** The disk after a step. *)
Lemma dev_step_disk W img f W' img' :
  worker_ok W img → dev_step W img f W' img' →
  represents (kernel W') (dstate W') img' ∧ config_of (dstate W') = config_of (dstate W) ∧
  disk_effect f (kernel W) (kernel W') (dimage W) (dimage W').
Proof using All.
  intros HW Hst. pose proof (wo_disk _ _ HW) as Hrep.
  assert (disk_effect false (kernel W) (kernel W) (dimage W) (dimage W)) as Hid
    by (apply quiet_effect; [apply Hrep|apply quiet_refl]).
  destruct Hst as [m|i q tasks l c m|i q tasks j c s' q' fault img' Hi Hj [(rq & len & Hd & Hk & Hs & _) _ _ _]|k d Hsy|
    n r k1 k ds ch img' Hr Hq Hrep' Him|i q|i]; try done.
  - cbn [wk_shared]. rewrite Hk, Hs. destruct (request_done_disk _ _ _ _ _ _ _ Hrep Hd) as (Hr & Hset & He).
    split; [done|]. split; [by rewrite Hset|done].
  - split; [by eapply synced_represents|]. split; [done|by apply synced_effect].
  - destruct (resize_step_effect _ _ _ _ _ _ (proj1 Hrep) Hr) as (He & Hc). split; [done|]. split; [done|].
    eapply (effect_trans false false); [done|]. apply quiet_effect; [apply He|done].
Qed.

Lemma idle_handler vq : idle vq → handler_ok (mkHandler vq []).
Proof.
  intros (q & -> & Hq & Ha & He). exists q. split; [done|]. constructor; cbn; [done|done|done|]. rewrite He.
  apply uint_eq. unfold usub. rewrite Z.sub_diag. done.
Qed.

Lemma task_handler q tasks j c s s' q' img f img' :
  tasks_ok q tasks → tasks !! j = Some c → task_done gm c s q s' q' img f img' → tasks_ok q' (delete j tasks).
Proof.
  intros [Hq Ha Ht Hc] Hj [_ [last ->] _ _]. constructor; cbn.
  - destruct Hq; by constructor.
  - exact Ha.
  - by apply Forall_delete.
  - rewrite (proj2 (usub_next _ _ _ Hc)). f_equal. unfold lengthZ. rewrite length_delete by eauto.
    apply lookup_lt_Some in Hj. lia.
Qed.

Lemma pop_handler q tasks m k l c :
  tasks_ok q tasks → avail_chain gm q m k l c →
  tasks_ok (set_next_avail (uadd (sq_next_avail q) (U16 1)) q) (tasks ++ [c]).
Proof using Hgm.
  intros [Hq Ha Ht Hc] Hch. constructor; cbn.
  - destruct Hq; by constructor.
  - exact Ha.
  - apply Forall_app. split; [done|]. apply Forall_singleton. by eapply avail_chain_ready.
  - rewrite (proj1 (usub_next _ _ _ Hc)). f_equal. rewrite lengthZ_app. done.
Qed.

(** A handler of a split queue. *)
Lemma handlers_split W img i q tasks :
  worker_ok W img → queue_handlers W !! i = Some (mkHandler (SplitVirtQueue q) tasks) → tasks_ok q tasks.
Proof. intros HW Hi. by destruct (wo_handlers _ _ HW _ _ Hi) as (q0 & [= <-] & Ht). Qed.

(** Every step keeps the invariant. *)
Lemma dev_step_ok W img f W' img' : worker_ok W img → dev_step W img f W' img' → worker_ok W' img'.
Proof using All.
  intros HW Hst. destruct (dev_step_disk _ _ _ _ _ HW Hst) as (Hrep & Hcfg & _). pose proof HW as [_ Hid Hh].
  constructor; [done| |].
  - unfold id_ok in *. injection Hcfg as _ _ ->. done.
  - destruct Hst as [m|i q tasks l c m Hi Hne Hc Hm|i q tasks j c s' q' fault img' Hi Hj Ht|k d Hsy|n r k1 k ds ch img' Hr|
      i q Hidle Hno|i Hi]; cbn; try done.
    + apply map_Forall_insert_2; [|done]. eexists. split; [done|]. eapply pop_handler; [|done]. by eapply handlers_split.
    + apply map_Forall_insert_2; [|done]. eexists. split; [done|]. eapply task_handler; [|done|done]. by eapply handlers_split.
    + apply map_Forall_insert_2; [|done]. by apply idle_handler.
    + by apply map_Forall_delete.
Qed.

(** Reachable states satisfy the invariant, and without faults every file stays on
    the storage or marked. *)
Lemma dev_steps_ok W img f W' img' :
  dev_steps W img f W' img' → worker_ok W img →
  worker_ok W' img' ∧ config_of (dstate W') = config_of (dstate W) ∧
  disk_effect f (kernel W) (kernel W') (dimage W) (dimage W').
Proof using All.
  induction 1 as [W img|W img f1 W1 img1 f2 W2 img2 Hst Hsts IH]; intros HW.
  - split; [done|]. split; [done|]. apply quiet_effect; [apply HW|apply quiet_refl].
  - destruct (dev_step_disk _ _ _ _ _ HW Hst) as (_ & Hcfg & He).
    destruct (IH (dev_step_ok _ _ _ _ _ HW Hst)) as (HW' & Hcfg' & He'). split; [done|].
    split; [by rewrite Hcfg'|by eapply effect_trans].
Qed.
End run.

Section schedule.
Context {K D : Type} `{AsyncLaws K D} `{!ResizeLaws K D}.
Context `{!HostTimer K, !HostTimerLaws K, !HostTube K, !HostTubeLaws K}.
Context (gm : GuestMemory) (Hgm : gm_ok gm).
Implicit Types (s : Shared K D) (c : DescriptorChain) (W : Worker K D) (h : QueueHandler).

Abbreviation steps := (dev_steps gm).

(** ** Handlers *)

(** The worker after a step of the handler of queue [i]. *)
Abbreviation put i s h W := (mkWorker s (<[i := h]> (queue_handlers W))).

Lemma put_same i h W : queue_handlers W !! i = Some h → put i (wk_shared W) h W = W.
Proof. intros Hi. rewrite insert_id by done. by destruct W. Qed.

(** The loop over [pop] ends: there are no more chains than the index of the
    available ring is ahead. *)
Lemma pop_all_run fuel : ∀ W img i q tasks,
  worker_ok gm W img → queue_handlers W !! i = Some (mkHandler (SplitVirtQueue q) tasks) →
  available gm (w_host (sh_world (wk_shared W))) q < Z.of_nat fuel →
  ∃ s' h', pop_all gm fuel (wk_shared W, mkHandler (SplitVirtQueue q) tasks) = (Returns (), (s', h')) ∧
    steps W img false (put i s' h' W) img.
Proof using All.
  induction fuel as [|fuel IH]; intros W img i q tasks HW Hi Hav.
  { unfold available in Hav. pose proof (uint_range (usub (avail_idx gm (w_host (sh_world (wk_shared W))) q)
      (sq_next_avail q))). lia. }
  pose proof (handlers_split _ _ _ _ _ _ HW Hi) as Hh. pose proof (ho_queue _ _ _ Hh) as Hq. cbn [pop_all].
  pose proof (Queue_pop_split gm q (sh_world (wk_shared W))) as Hpop.
  destruct (split_pop_run gm Hgm q Hq (sh_world (wk_shared W))) as [[Hrun _]|(c & l & m & Hrun & Hne & Hc & Hm)];
    rewrite Hrun in Hpop.
  - erewrite bind_returns by (eapply with_queue_run, with_virtqueue_run; exact Hpop).
    exists (wk_shared W), (mkHandler (SplitVirtQueue q) tasks). split; [by destruct W as [[] ?]|]. rewrite put_same by done. constructor.
  - erewrite bind_returns by (eapply with_queue_run, with_virtqueue_run; exact Hpop). cbn beta iota.
    erewrite bind_returns by done. cbn beta iota. erewrite bind_returns by (unfold set_tasks; by erewrite bind_returns by done).
    cbn [qh_queue background_tasks].
    set (q1 := set_next_avail _ q) in *. set (s1 := set_world _ _).
    set (W1 := put i s1 (mkHandler (SplitVirtQueue q1) (tasks ++ [c])) W).
    assert (dev_step gm W img false W1 img) as Hst by (by eapply dev_pop).
    destruct (IH W1 img i q1 (tasks ++ [c])) as (s' & h' & Hrun' & Hsts).
    + by eapply dev_step_ok.
    + apply lookup_insert_eq.
    + assert (same_driver gm q (w_host (sh_world (wk_shared W))) m) as Hsame.
      { intros x Hx. rewrite Hm, after_pop_same; [done|apply (size_bounds gm _ Hq)|done]. }
      destruct (same_driver_avail gm _ _ _ Hq (ho_apart _ _ _ Hh) Hsame) as (Hidx & _).
      cbn [W1 wk_shared s1 set_world sh_world w_host].
      apply available_pos in Hne. pose proof (available_step gm _ _ Hne) as Hstep. unfold available in *.
      change (avail_idx gm m q1) with (avail_idx gm m q). rewrite <- Hidx. fold q1 in Hstep.
      change (avail_idx gm ?m q1) with (avail_idx gm m q) in Hstep. lia.
    + exists s', h'. split; [done|]. change false with (false || false). eapply dev_next; [exact Hst|].
      cbn [W1 queue_handlers] in Hsts. by rewrite insert_insert_eq in Hsts.
Qed.

Lemma next_task_run j W img i h :
  worker_ok gm W img → queue_handlers W !! i = Some h →
  ∃ s' h' f img', next_task gm j (wk_shared W, h) = (Returns (), (s', h')) ∧ steps W img f (put i s' h' W) img' ∧
    (is_Some (background_tasks h !! j) → background_tasks h' = delete j (background_tasks h)).
Proof using All.
  intros HW Hi. destruct (wo_handlers _ _ _ HW i h Hi) as (q & Eq & [Hq _ Ht _]). unfold next_task.
  erewrite bind_returns by done. cbn beta iota. destruct (background_tasks h !! j) as [c|] eqn:Hj.
  - erewrite bind_returns by (unfold set_tasks; by erewrite bind_returns by done).
    destruct (process_one_chain_run gm Hgm (wk_shared W) q img c) as (s' & q' & f & img' & Hrun & Htd).
    + apply HW.
    + apply HW.
    + done.
    + by eapply Forall_lookup_1.
    + rewrite <- Eq in Hrun. eexists s', _, f, img'. split; [by eapply with_queue_run|]. split; [|done].
      eapply dev_once, dev_task; [|done|done]. rewrite Hi. destruct h; by rewrite <- Eq.
  - exists (wk_shared W), h, false, img. split; [done|]. rewrite put_same by done. split; [constructor|].
    by intros []%is_Some_None.
Qed.

Lemma collect_run n : ∀ W img i h,
  worker_ok gm W img → queue_handlers W !! i = Some h → length (background_tasks h) = n →
  ∃ s' h' f img', collect gm n (wk_shared W, h) = (Returns (), (s', h')) ∧ steps W img f (put i s' h' W) img' ∧
    background_tasks h' = [].
Proof using All.
  induction n as [|n IH]; intros W img i h HW Hi Hlen; cbn [collect].
  - exists (wk_shared W), h, false, img. split; [done|]. rewrite put_same by done. split; [constructor|].
    by apply length_zero_iff_nil.
  - destruct (next_task_run 0 W img i h HW Hi) as (s1 & h1 & f1 & img1 & Hrun & Hst & Htl).
    destruct (background_tasks h) as [|c l] eqn:Hl; [done|]. specialize (Htl ltac:(by eexists)). cbn in Htl, Hlen.
    erewrite bind_returns by exact Hrun.
    destruct (IH (put i s1 h1 W) img1 i h1) as (s' & h' & f & img' & Hrun' & Hst' & Hnil).
    + by eapply dev_steps_ok.
    + apply lookup_insert_eq.
    + rewrite Htl. lia.
    + exists s', h', (f1 || f), img'. split; [done|]. split; [|done]. eapply dev_steps_trans; [done|].
      cbn [queue_handlers] in Hst'. by rewrite insert_insert_eq in Hst'.
Qed.

(** A handler that is told to stop uses the chains it has popped. *)
Lemma stop_handler_run W img i h :
  worker_ok gm W img → queue_handlers W !! i = Some h →
  ∃ s' h' f img', stop_handler gm (wk_shared W, h) = (Returns (qh_queue h'), (s', h')) ∧
    steps W img f (put i s' h' W) img' ∧ background_tasks h' = [] ∧ idle gm (qh_queue h').
Proof using All.
  intros HW Hi. unfold stop_handler. erewrite bind_returns by done. cbn beta iota.
  destruct (collect_run _ W img i h HW Hi eq_refl) as (s' & h' & f & img' & Hrun & Hst & Hnil).
  erewrite bind_returns by exact Hrun. exists s', h', f, img'. split; [done|]. split; [done|]. split; [done|].
  destruct (dev_steps_ok gm Hgm _ _ _ _ _ Hst HW) as (HW' & _).
  destruct (wo_handlers _ _ _ HW' i h' (lookup_insert_eq _ _ _)) as (q & Eq & [Hq Ha _ Hc]). exists q. split_and!; [done..|].
  rewrite Hnil in Hc. apply (f_equal uval) in Hc. unfold usub in Hc. rewrite !uval_to_uint in Hc. apply uint_eq.
  pose proof (uint_range (sq_next_avail q)). pose proof (uint_range (sq_next_used q)).
  change (2 ^ Z.of_N 16) with 65536 in *. change (lengthZ (@nil DescriptorChain) mod 65536) with 0 in Hc.
  apply Z.mod_divide in Hc as [z Hz]; [|done]. nia.
Qed.

(** ** The worker *)

Lemma on_handler_run {E A} (m : prog (Shared K D * QueueHandler) Empty_set A) i W h a s' h' :
  queue_handlers W !! i = Some h → m (wk_shared W, h) = (Returns a, (s', h')) →
  on_handler i m W = (Returns (Some a) : outcome E (option A), put i s' h' W).
Proof. intros Hi Hm. unfold on_handler. by rewrite Hi, Hm. Qed.

Lemma pop_fuel_enough (x : u16) : uval x < Z.of_nat pop_fuel.
Proof. unfold pop_fuel. pose proof (uint_range x) as Hx. cbn [Z.of_N] in Hx. lia. Qed.

(** What wakes a handler is a sequence of steps, and starts or stops no handler. *)
Lemma handler_event_run {E} W img ev :
  worker_ok gm W img →
  ∃ W' f img', on_handler_event gm ev W = (Returns () : outcome E (), W') ∧ steps W img f W' img' ∧
    dom (queue_handlers W') = dom (queue_handlers W).
Proof using All.
  intros HW.
  assert (∀ h i, queue_handlers W !! i = Some h → ∀ s' h', dom (queue_handlers (put i s' h' W)) = dom (queue_handlers W)) as Hdom.
  { intros h i Hi s' h'. apply dom_insert_lookup_L. by exists h. }
  destruct ev as [m|i b|i j]; cbn [on_handler_event].
  - eexists _, false, img. split; [done|]. split; [apply dev_once, dev_guest|done].
  - destruct b; [|exists W, false, img; split; [done|]; split; [constructor|done]].
    destruct (queue_handlers W !! i) as [h|] eqn:Hi.
    + destruct (wo_handlers _ _ _ HW i h Hi) as (q & Eq & _). destruct h as [vq tasks]. cbn in Eq. subst vq.
      destruct (pop_all_run pop_fuel W img i q tasks HW Hi) as (s' & h' & Hrun & Hst); [apply pop_fuel_enough|].
      erewrite bind_returns by (by eapply on_handler_run). eexists _, false, img. split; [done|]. split; [done|by eapply Hdom].
    + erewrite bind_returns by (unfold on_handler; by rewrite Hi). exists W, false, img. split; [done|]. split; [constructor|done].
  - destruct (queue_handlers W !! i) as [h|] eqn:Hi.
    + destruct (next_task_run j W img i h HW Hi) as (s' & h' & f & img' & Hrun & Hst & _).
      erewrite bind_returns by (by eapply on_handler_run). eexists _, f, img'. split; [done|]. split; [done|by eapply Hdom].
    + erewrite bind_returns by (unfold on_handler; by rewrite Hi). exists W, false, img. split; [done|]. split; [constructor|done].
Qed.

Lemma handler_events_run {E} evs : ∀ W img,
  worker_ok gm W img →
  ∃ W' f img', on_handler_events gm evs W = (Returns () : outcome E (), W') ∧ steps W img f W' img' ∧
    dom (queue_handlers W') = dom (queue_handlers W).
Proof using All.
  induction evs as [|ev evs IH]; intros W img HW; cbn [on_handler_events].
  { exists W, false, img. split; [done|]. split; [constructor|done]. }
  destruct (handler_event_run (E := E) W img ev HW) as (W1 & f1 & img1 & Hrun & Hst & Hd).
  erewrite bind_returns by exact Hrun.
  destruct (IH W1 img1) as (W2 & f2 & img2 & Hrun2 & Hst2 & Hd2); [by eapply dev_steps_ok|].
  exists W2, (f1 || f2), img2. split; [done|]. split; [by eapply dev_steps_trans|by rewrite Hd2].
Qed.

Lemma stop_queue_run W img i during :
  worker_ok gm W img →
  ∃ r W' f img', stop_queue_handler gm i during W = (Returns r, W') ∧ steps W img f W' img' ∧
    dom (queue_handlers W') = dom (queue_handlers W) ∖ {[i]} ∧ (∀ q, r = Some q → idle gm q) ∧
    (is_Some r ↔ i ∈ dom (queue_handlers W)).
Proof using All.
  intros HW. unfold stop_queue_handler. rewrite (bind_returns _ _ _ W W) by done.
  destruct (queue_handlers W !! i) as [h0|] eqn:Hi0.
  - destruct (handler_events_run (E := WorkerError) during W img HW) as (W1 & f1 & img1 & Hrun1 & Hst1 & Hd1).
    destruct (dev_steps_ok gm Hgm _ _ _ _ _ Hst1 HW) as (HW1 & _). erewrite bind_returns by exact Hrun1.
    assert (is_Some (queue_handlers W1 !! i)) as [h Hi] by (apply elem_of_dom; rewrite Hd1; apply elem_of_dom; by eexists).
    destruct (stop_handler_run W1 img1 i h HW1 Hi) as (s' & h' & f & img' & Hrun & Hst & Hnil & Hidle).
    erewrite bind_returns by (eapply on_handler_run; done). erewrite bind_returns by done. erewrite bind_returns by done.
    eexists _, _, (f1 || f), img'. split; [done|]. split; [|split; [|split; [by intros q [= <-]|rewrite elem_of_dom, Hi0; by split; eexists]]].
    + eapply dev_steps_trans; [exact Hst1|]. rewrite <- (orb_false_r f). eapply dev_steps_trans; [exact Hst|].
      apply dev_once, dev_stop. intros h2. cbn [queue_handlers]. rewrite lookup_insert_eq. by intros [= <-].
    + cbn [queue_handlers]. rewrite dom_delete_L, dom_insert_lookup_L by (by eexists). by rewrite Hd1.
  - eexists None, W, false, img. split; [done|]. split; [constructor|]. apply not_elem_of_dom in Hi0.
    split; [set_solver|]. split; [done|]. split; [by intros []%is_Some_None|done].
Qed.

Lemma handle_command_run W img (n : option u64) :
  worker_ok gm W img →
  (∃ o W' img', handle_command n W = (o, W') ∧ o ≠ Aborts ∧ steps W img false W' img') ∨
  (∃ m, n = Some m ∧ cut_short m (sh_kernel (wk_shared W)) (sh_state (wk_shared W))).
Proof using All.
  intros HW. destruct n as [n|]; cbn [handle_command].
  2: { left. eexists _, W, img. split; [done|]. split; [done|constructor]. }
  destruct (resize_img n _ _ img (wo_disk _ _ _ HW)) as (r & k1 & ds & Hrun & Hst & [Hcut|(img' & Hrep' & Him)]);
    [right; by exists n|left].
  erewrite bind_returns by (unfold map_err, on_worker_disk, on_shared, zoom; by rewrite Hrun).
  destruct (tube_send r k1) as [o k2] eqn:Et. destruct (tube_send_law _ _ _ _ Et) as [Hq Hna].
  assert (∀ ch, steps W img false (with_disk k2 ds (sh_armed (wk_shared W)) ch W) img') as Hsteps.
  { intros ch. eapply dev_once, dev_resize; try done. by eapply quiet_represents. }
  destruct o as [[]|[]|]; [| |done].
  - erewrite bind_returns by (unfold map_err, on_worker_kernel, on_shared, zoom; cbn; by rewrite Et).
    destruct r; eexists _, _, img'; (split; [done|]); (split; [done|apply Hsteps]).
  - eexists _, _, img'. split; [unfold mbind, prog_bind, map_err, on_worker_kernel, on_shared, zoom; cbn; by rewrite Et|].
    split; [done|]. apply Hsteps.
Qed.

Lemma timer_fired_run W img b :
  worker_ok gm W img → ∃ o W', timer_fired b W = (o, W') ∧ o ≠ Aborts ∧ steps W img false W' img.
Proof using All.
  intros HW. destruct b; cbn [timer_fired]; [|eexists _, W; split; [done|]; split; [done|constructor]].
  destruct (flush_disk_run (sh_kernel (wk_shared W)) (sh_state (wk_shared W)) (sh_armed (wk_shared W)) img (wo_disk _ _ _ HW))
    as (r & k' & d' & Hrun & Hna & Hsy & _).
  unfold map_err, on_shared, zoom. rewrite Hrun.
  destruct r as [[]|e|]; [| |done]; (eexists _, _; split; [done|]; split; [done|]); by eapply dev_once, dev_sync.
Qed.

(** The queues that are sent back are idle. *)
Definition sends_idle {E} (o : outcome E (list (option Queue))) : Prop :=
  ∀ qs q, o = Returns qs → Some q ∈ qs → idle gm q.

Lemma sends_none {E} : sends_idle (Returns [] : outcome E _).
Proof. by intros qs q [= <-] ?%elem_of_nil. Qed.

Lemma worker_cmd_run W img cmd during :
  worker_ok gm W img → (∀ i q, cmd = Some (StartQueue i q) → idle gm q) →
  ∃ o W' f img', handle_worker_cmd gm cmd during W = (o, W') ∧ o ≠ Aborts ∧ steps W img f W' img' ∧ sends_idle o.
Proof using All.
  intros HW Hok. destruct cmd as [[i q|i]|]; cbn [handle_worker_cmd].
  - destruct (stop_queue_run W img i during HW) as (r & W1 & f & img' & Hrun & Hst & Hd & _).
    erewrite bind_returns by exact Hrun. erewrite bind_returns by done. erewrite bind_returns by done.
    eexists _, _, f, img'. split; [done|]. split; [done|]. split; [|apply sends_none].
    rewrite <- (orb_false_r f). eapply dev_steps_trans; [exact Hst|]. eapply dev_once, dev_start; [by eapply Hok|].
    apply not_elem_of_dom. set_solver.
  - destruct (stop_queue_run W img i during HW) as (r & W1 & f & img' & Hrun & Hst & _ & Hidle & _).
    erewrite bind_returns by exact Hrun. eexists _, _, f, img'. split; [done|]. split; [done|]. split; [done|].
    intros qs q [= <-] Hq%list_elem_of_singleton. by apply Hidle.
  - eexists _, W, false, img. split; [done|]. split; [done|]. split; [constructor|done].
Qed.

(** ** Schedules *)

(** Queues are started idle. *)
Definition event_ok (ev : worker_event) : Prop :=
  match ev with WorkerCommand (Some (StartQueue _ q)) _ => idle gm q | _ => True end.

(** A command of the schedule that makes the disk smaller is cut short by the host, after
    the worker has taken the steps before it. *)
Definition shrink_cut evs W img : Prop :=
  ∃ before m after qs f W1 img1, evs = before ++ CommandReceived (Some m) :: after ∧
    run_worker gm before W = (Returns qs, W1) ∧ steps W img f W1 img1 ∧
    cut_short m (sh_kernel (wk_shared W1)) (sh_state (wk_shared W1)).

Lemma on_event_run W img ev :
  worker_ok gm W img → event_ok ev →
  (∃ o W' f img', on_event gm ev W = (o, W') ∧ o ≠ Aborts ∧ steps W img f W' img' ∧ sends_idle o) ∨
  (∃ m, ev = CommandReceived (Some m) ∧ cut_short m (sh_kernel (wk_shared W)) (sh_state (wk_shared W))).
Proof using All.
  intros HW Hev. destruct ev as [ev|b|ns|cmd during|]; cbn [on_event].
  - left. destruct (handler_event_run (E := WorkerError) W img ev HW) as (W' & f & img' & Hrun & Hst & _).
    erewrite bind_returns by exact Hrun. eexists _, W', f, img'. split; [done|]. split; [done|]. split; [done|apply sends_none].
  - left. destruct (timer_fired_run W img b HW) as (o & W' & Hrun & Hna & Hst). unfold mbind, prog_bind. rewrite Hrun.
    destruct o as [[]|e|]; [| |done]; eexists _, W', false, img; (split; [done|]); (split; [done|]); (split; [done|]);
      [apply sends_none|done].
  - destruct (handle_command_run W img ns HW) as [(o & W' & img' & Hrun & Hna & Hst)|(m & -> & Hcut)]; [|right; by exists m].
    left. unfold mbind, prog_bind. rewrite Hrun.
    destruct o as [[]|e|]; [| |done]; eexists _, W', false, img'; (split; [done|]); (split; [done|]); (split; [done|]);
      [apply sends_none|done].
  - left. apply worker_cmd_run; [done|]. by intros i q ->.
  - left. eexists _, W, false, img. split; [done|]. split; [done|]. split; [constructor|apply sends_none].
Qed.

Lemma run_worker_cons ev evs :
  ev ≠ Killed → run_worker (K := K) gm (ev :: evs) = (r ← on_event gm ev; rs ← run_worker gm evs; mret (r ++ rs)).
Proof. by destruct ev. Qed.

Lemma run_worker_run evs : ∀ W img,
  worker_ok gm W img → Forall event_ok evs →
  (∃ o W' f img', run_worker gm evs W = (o, W') ∧ o ≠ Aborts ∧ steps W img f W' img' ∧ sends_idle o) ∨ shrink_cut evs W img.
Proof using All.
  induction evs as [|ev evs IH]; intros W img HW Hs.
  { left. eexists _, W, false, img. split; [done|]. split; [done|]. split; [constructor|apply sends_none]. }
  assert (ev = Killed ∨ ev ≠ Killed) as [->|Hne] by (destruct ev; auto).
  { left. eexists _, W, false, img. split; [done|]. split; [done|]. split; [constructor|apply sends_none]. }
  apply Forall_cons in Hs as [Hev Hs]. rewrite run_worker_cons by done.
  destruct (on_event_run W img ev HW Hev) as [(o & W1 & f1 & img1 & Hrun & Hna & Hst & Hq)|(m & -> & Hcut)].
  2: { right. exists [], m, evs, [], false, W, img. split; [done|]. split; [done|]. split; [constructor|done]. }
  unfold mbind at 1, prog_bind at 1. rewrite Hrun. destruct o as [r|e|]; [| |done].
  2: { left. eexists _, W1, f1, img1. done. }
  destruct (IH W1 img1 (proj1 (dev_steps_ok gm Hgm _ _ _ _ _ Hst HW)) Hs)
    as [(o & W2 & f2 & img2 & Hrun2 & Hna2 & Hst2 & Hq2)|(before & m & after & qs & f2 & W2 & img2 & -> & Hrun2 & Hst2 & Hcut)].
  - left. unfold mbind, prog_bind. rewrite Hrun2. destruct o as [rs|e|]; [| |done];
      (eexists _, W2, (f1 || f2), img2; split; [done|]; split; [done|]; split; [by eapply dev_steps_trans|]); [|done].
    intros qs q [= <-] [Hin|Hin]%elem_of_app; [by eapply Hq|by eapply Hq2].
  - right. exists (ev :: before), m, after, (r ++ qs), (f1 || f2), W2, img2. split; [done|].
    split; [|split; [by eapply dev_steps_trans|done]]. rewrite run_worker_cons by done. unfold mbind, prog_bind.
    by rewrite Hrun, Hrun2.
Qed.
End schedule.

Section props.
Context {K D : Type} `{AsyncLaws K D} `{!ResizeLaws K D}.
Context `{!HostTimer K, !HostTimerLaws K, !HostTube K, !HostTubeLaws K}.
Context (gm : GuestMemory) (Hgm : gm_ok gm).
Implicit Types (W : Worker K D) (c : DescriptorChain).

(** C6. The device answers every request with a step of an abstract device whose
    state is an array of bytes: whatever the driver put into the chain, and however
    the calls of the host end, [process_one_request] returns, the reply and the
    status of the step are in the buffers of the driver, no other byte of its memory
    has changed, and the disk shows the image of the step. *)
Theorem request_refines_step (s : Request K D) img :
  request_ok gm s img → id_ok (rq_state s) → unread (rq_writer s) → 0 < room s →
  ∃ r reply fault img' s', process_one_request gm s = (Returns (U64 (room s)), s') ∧
    blk_step (config_of (rq_state s)) img (sent gm s) (room s - 1) r reply fault img' ∧
    (∀ x, guest_byte gm (rq_host s') x =
       StreamFacts.store
         (StreamFacts.store (guest_byte gm (rq_host s)) (takeZ (room s - 1) (remaining (rq_writer s))) reply)
         (dropZ (room s - 1) (remaining (rq_writer s))) [status_of r] x) ∧
    represents (rq_kernel s') (rq_state s') img' ∧ config_of (rq_state s') = config_of (rq_state s).
Proof using All.
  intros Hok Hid Hun Hpos.
  destruct (process_one_request_run gm Hgm s img Hok Hid Hun Hpos) as (r & reply & fault & img' & s' & Hrun & Hsv).
  exists r, reply, fault, img', s'. split; [done|]. split; [apply Hsv|]. split; [apply Hsv|]. split; [apply Hsv|].
  rewrite (sv_state _ _ _ _ _ _ _ _ Hsv). done.
Qed.

(** C5. Every schedule of a worker whose queues are split queues is a run of the abstract
    device.  The queues are started idle, with their rings in guest memory and the areas
    the driver writes apart from the one the device writes.  Then nothing that the driver
    writes, no order in which the tasks complete, no event while a queue is stopped and no
    failure of the host makes the worker panic or loop; the image changes only by the steps
    of the requests, in the order in which they complete, and by commands to resize the
    disk; a queue that is sent back has no chain that was popped and not used; and without
    a fault every file of the disk is on the storage or will be after the next flush.  This
    holds up to a command that makes the disk smaller and that the host cuts short after it
    has cut the file. *)
Theorem worker_refines_device evs W img :
  worker_ok gm W img → Forall (event_ok gm) evs →
  (∃ o W' fault img', run_worker gm evs W = (o, W') ∧ o ≠ Aborts ∧
    dev_steps gm W img fault W' img' ∧ worker_ok gm W' img' ∧
    (∀ qs q, o = Returns qs → Some q ∈ qs → idle gm q) ∧
    (fault = false → flushable (sh_kernel (wk_shared W)) (disk_image (sh_state (wk_shared W))) →
     flushable (sh_kernel (wk_shared W')) (disk_image (sh_state (wk_shared W'))))) ∨
  shrink_cut gm evs W img.
Proof using All.
  intros HW Hs. destruct (run_worker_run gm Hgm evs W img HW Hs) as [(o & W' & f & img' & Hrun & Hna & Hst & Hq)|Hcut]; [left|by right].
  exists o, W', f, img'. destruct (dev_steps_ok gm Hgm _ _ _ _ _ Hst HW) as (HW' & _ & (Hsh & _ & Ht)).
  split; [done|]. split; [done|]. split; [done|]. split; [done|]. split; [done|]. intros ->.
  apply tracked_flushable; [by apply Ht|apply Hsh].
Qed.

(** A flush does not change the image. *)
Lemma flush_step cfg img bs n r reply fault img' :
  blk_step cfg img bs n r reply fault img' → req_type (header bs) = VIRTIO_BLK_T_FLUSH → img' = img.
Proof.
  intros Hst Ht. destruct Hst as [| | | | | | | | | | |? ? ? ? [[Hd _]|Hd]| | | | | |]; try done;
    match goal with He : req_type _ = _ |- _ => rewrite Ht in He; done end.
Qed.

Lemma status_ok_inv r : status_of r = VIRTIO_BLK_S_OK → r = None.
Proof. by destruct r as [[]|]. Qed.

(** C7. A flush is a promise: if nothing failed since all files of the disk were on
    the storage, whatever the worker did, and the driver finds the status OK for a
    flush request, then the whole image would survive a power failure. *)
Theorem flush_makes_durable W0 img0 W img c size a :
  worker_ok gm W0 img0 → flushable (sh_kernel (wk_shared W0)) (disk_image (sh_state (wk_shared W0))) →
  dev_steps gm W0 img0 false W img → chain_ready gm size c →
  req_type (header (bytes_at gm (w_host (sh_world (wk_shared W))) (remaining (dc_reader c)))) = VIRTIO_BLK_T_FLUSH →
  last (remaining (dc_writer c)) = Some a →
  ∃ n s', process_one_request gm (request_of c (wk_shared W)) = (Returns n, s') ∧
    (guest_byte gm (rq_host s') a = Some VIRTIO_BLK_S_OK → shows (durable (rq_kernel s')) (disk_image (rq_state s')) 0 img).
Proof using All.
  intros HW0 Hf Hst [Hsafe Hun] Ht Ha. destruct (dev_steps_ok gm Hgm _ _ _ _ _ Hst HW0) as (HW & _ & (Hsh & _ & Htr)).
  pose proof (tracked_flushable _ _ _ _ (Htr eq_refl) (proj1 (proj2 Hsh)) Hf) as Hfl.
  apply last_Some in Ha as [l Hl]. pose proof (lengthZ_nonneg l).
  destruct (process_one_request_run gm Hgm (request_of c (wk_shared W)) img) as (r & reply & fault & img' & s' & Hrun & Hsv).
  { split; [apply HW|]. split; apply Hsafe. }
  { apply HW. }
  { done. }
  { unfold room. cbn [request_of rq_writer]. rewrite Hl, lengthZ_app. change (lengthZ [a]) with 1. lia. }
  eexists _, s'. split; [exact Hrun|]. rewrite (sv_memory _ _ _ _ _ _ _ _ Hsv). unfold room. cbn [request_of rq_writer].
  rewrite Hl, lengthZ_app. change (lengthZ [a]) with 1. replace (lengthZ l + 1 - 1) with (lengthZ l) by lia.
  assert (dropZ (lengthZ l) (l ++ [a]) = [a]) as -> by (unfold lengthZ; by rewrite dropZ_drop, Nat2Z.id, drop_app_length).
  cbn [StreamFacts.store]. rewrite Z.eqb_refl.
  intros [= Hr%status_ok_inv]. pose proof (sv_flushed _ _ _ _ _ _ _ _ Hsv Hr Ht) as Hcl.
  pose proof (sv_effect _ _ _ _ _ _ _ _ Hsv) as ((_ & Hin & _) & _). pose proof (sv_disk _ _ _ _ _ _ _ _ Hsv) as (_ & Hshow & _).
  rewrite (flush_step _ _ _ _ _ _ _ _ (sv_step _ _ _ _ _ _ _ _ Hsv) Ht) in Hshow.
  apply clean_durable; [|done]. change (disk_image (rq_state s')) with (image_in s'). rewrite Hin. intros i Hi. by apply Hcl, Hfl.
Qed.
End props.
