(* ===== verification/BlockConfig.v ===== *)
(** * Creating a block device and its configuration

    [BlockAsync::new], [build_avail_features], [build_config_space] and
    [read_config] of [devices/src/virtio/block/asynchronous.rs], [DiskOption] of
    [block/mod.rs], [get_seg_max] of [block/sys/linux.rs], [virtio_blk_config] of
    [device_constants.rs], and [base_features] and [copy_config] of [virtio/mod.rs].
    The theorems say when a device is created, what the driver reads from its
    configuration, and that the device serves the capacity it advertises.

    Of [DiskOption], the fields that say which file to open and where the device is
    attached are not in the model, and neither are the kind of executor and the
    boot index, which the device only hands on. *)

From Stdlib Require Import Btauto.
From S2P Require Import Prelude StdIo Checked Bits GuestMemory DescriptorUtils DescriptorChain SplitQueue.
From S2P Require Import DiskFile SparseImage CompositeDisk AsyncDisk BlockDevice GuestMemoryFacts StreamFacts.
From S2P Require Import DiskFacts AsyncFacts BlockFacts BlockSpec BlockServe.

(** ** Features *)

Definition VIRTIO_F_VERSION_1 : Z := 32.
Definition VIRTIO_F_ACCESS_PLATFORM : Z := 33.

Definition VIRTIO_BLK_F_SEG_MAX : Z := 2.
Definition VIRTIO_BLK_F_RO : Z := 5.
Definition VIRTIO_BLK_F_BLK_SIZE : Z := 6.
Definition VIRTIO_BLK_F_FLUSH : Z := 9.
Definition VIRTIO_BLK_F_MQ : Z := 12.
Definition VIRTIO_BLK_F_DISCARD : Z := 13.
Definition VIRTIO_BLK_F_WRITE_ZEROES : Z := 14.

Definition base_features (protected : bool) : u64 :=
  let features := uor (ubit VIRTIO_F_VERSION_1) (ubit VIRTIO_RING_F_EVENT_IDX) in
  if protected then uor features (ubit VIRTIO_F_ACCESS_PLATFORM) else features.

Definition build_avail_features (base_features : u64) (read_only sparse multi_queue packed_queue : bool) : u64 :=
  let avail_features := base_features in
  let avail_features :=
    if read_only then uor avail_features (ubit VIRTIO_BLK_F_RO)
    else
      let avail_features := if sparse then uor avail_features (ubit VIRTIO_BLK_F_DISCARD) else avail_features in
      let avail_features := uor avail_features (ubit VIRTIO_BLK_F_FLUSH) in
      uor avail_features (ubit VIRTIO_BLK_F_WRITE_ZEROES) in
  let avail_features := uor avail_features (ubit VIRTIO_BLK_F_SEG_MAX) in
  let avail_features := uor avail_features (ubit VIRTIO_BLK_F_BLK_SIZE) in
  let avail_features := if multi_queue then uor avail_features (ubit VIRTIO_BLK_F_MQ) else avail_features in
  if packed_queue then uor avail_features (ubit VIRTIO_F_RING_PACKED) else avail_features.

(** ** The device *)

Definition DEFAULT_QUEUE_SIZE : u16 := U16 256.
Definition DEFAULT_NUM_QUEUES : u16 := U16 16.
Definition MAX_DISCARD_SECTORS : u32 := U32 (2 ^ 32 - 1).
Definition MAX_WRITE_ZEROES_SECTORS : u32 := U32 (2 ^ 32 - 1).
Definition MAX_DISCARD_SEG : u32 := U32 32.
Definition MAX_WRITE_ZEROES_SEG : u32 := U32 32.
Definition DISCARD_SECTOR_ALIGNMENT : u32 := U32 128.

Definition EINVAL : Z := 22.

Record DiskOption := mkDiskOption {
  do_read_only : bool;
  do_sparse : bool;
  do_block_size : u32;
  do_id : option (list u8);
  do_multiple_workers : bool;
  do_packed_queue : bool
}.
Definition DiskOption_default : DiskOption := mkDiskOption false true (U32 512) None false false.

(** [BlockAsync], before the first worker is started. *)
Record BlockAsync (Dk : Type) := mkBlock {
  ba_disk_image : option Dk;
  ba_disk_size : u64;
  ba_avail_features : u64;
  ba_read_only : bool;
  ba_sparse : bool;
  ba_seg_max : u32;
  ba_block_size : u32;
  ba_id : option (list u8);
  ba_queue_sizes : list u16;
  ba_worker_per_queue : bool
}.
Arguments mkBlock {Dk} _ _ _ _ _ _ _ _ _ _.
Arguments ba_disk_image {Dk} _.
Arguments ba_disk_size {Dk} _.
Arguments ba_avail_features {Dk} _.
Arguments ba_read_only {Dk} _.
Arguments ba_sparse {Dk} _.
Arguments ba_seg_max {Dk} _.
Arguments ba_block_size {Dk} _.
Arguments ba_id {Dk} _.
Arguments ba_queue_sizes {Dk} _.
Arguments ba_worker_per_queue {Dk} _.

(** [iov_max] is the limit of the host. *)
Definition get_seg_max (iov_max : u64) (queue_size : u16) : option u32 :=
  let seg_max := U32 (umin (umax iov_max (U64 1)) (U64 (2 ^ 32 - 1))) in
  segments ← sub_checked (U32 queue_size) (U32 2);
  Some (umin seg_max segments).

Section new.
Context {K Dk : Type} `{DiskFile K Dk}.

(** The result of [try_clone] on the image is an argument: it decides whether there
    can be a worker for every queue. *)
Definition BlockAsync_new (iov_max : u64) (clones : bool) (base_features : u64) (disk_option : DiskOption)
    (queue_size num_queues : option u16) : prog (K * Dk) io_error (BlockAsync Dk) :=
  let read_only := do_read_only disk_option in
  let sparse := do_sparse disk_option in
  let block_size := do_block_size disk_option in
  let worker_per_queue := do_multiple_workers disk_option && clones in
  if negb (block_size mod SECTOR_SIZE =? 0) then throw (OsError EINVAL)
  else
    disk_size ← get_len;
    if block_size =? 0 then abort
    else
      let num_queues := default DEFAULT_NUM_QUEUES num_queues in
      if num_queues =? 0 then abort
      else
        let multi_queue := negb (num_queues =? 1) in
        let q_size := default DEFAULT_QUEUE_SIZE queue_size in
        if negb (is_power_of_two q_size) then throw (OsError EINVAL)
        else
          let queue_sizes := replicate (Z.to_nat num_queues) q_size in
          let avail_features :=
            build_avail_features base_features read_only sparse multi_queue (do_packed_queue disk_option) in
          seg_max ← checked (get_seg_max iov_max q_size);
          '(_, disk_image) ← get_state;
          mret (mkBlock (Some disk_image) disk_size avail_features read_only sparse seg_max block_size
                  (do_id disk_option) queue_sizes worker_per_queue).
End new.

(** ** The configuration space *)

Record virtio_blk_config := mkBlkConfigSpace {
  bc_capacity : u64;
  bc_size_max : u32;
  bc_seg_max : u32;
  bc_cylinders : u16;
  bc_heads : u8;
  bc_sectors : u8;
  bc_blk_size : u32;
  bc_physical_block_exp : u8;
  bc_alignment_offset : u8;
  bc_min_io_size : u16;
  bc_opt_io_size : u32;
  bc_writeback : u8;
  bc_num_queues : u16;
  bc_max_discard_sectors : u32;
  bc_max_discard_seg : u32;
  bc_discard_sector_alignment : u32;
  bc_max_write_zeroes_sectors : u32;
  bc_max_write_zeroes_seg : u32;
  bc_write_zeroes_may_unmap : u8
}.

(** [as_bytes]; the fields named [unused] are zero. *)
Definition config_bytes (c : virtio_blk_config) : list u8 :=
  le_split 8 (bc_capacity c) ++ le_split 4 (bc_size_max c) ++ le_split 4 (bc_seg_max c)
    ++ le_split 2 (bc_cylinders c) ++ [bc_heads c] ++ [bc_sectors c]
    ++ le_split 4 (bc_blk_size c)
    ++ [bc_physical_block_exp c] ++ [bc_alignment_offset c] ++ le_split 2 (bc_min_io_size c) ++ le_split 4 (bc_opt_io_size c)
    ++ [bc_writeback c] ++ [U8 0] ++ le_split 2 (bc_num_queues c)
    ++ le_split 4 (bc_max_discard_sectors c) ++ le_split 4 (bc_max_discard_seg c)
    ++ le_split 4 (bc_discard_sector_alignment c) ++ le_split 4 (bc_max_write_zeroes_sectors c)
    ++ le_split 4 (bc_max_write_zeroes_seg c) ++ [bc_write_zeroes_may_unmap c] ++ zeros 3.

Definition build_config_space (disk_size : u64) (seg_max block_size : u32) (num_queues : u16) : virtio_blk_config :=
  mkBlkConfigSpace (U64 (Z.shiftr disk_size SECTOR_SHIFT)) (U32 0) seg_max (U16 0) (U8 0) (U8 0) block_size (U8 0) (U8 0)
    (U16 0) (U32 0) (U8 0) num_queues MAX_DISCARD_SECTORS MAX_DISCARD_SEG DISCARD_SECTOR_ALIGNMENT
    MAX_WRITE_ZEROES_SECTORS MAX_WRITE_ZEROES_SEG (U8 1).

(** The slices are cut to their common length; an offset past the end of a slice is
    no error. *)
Definition copy_config (dst : list u8) (dst_offset : u64) (src : list u8) (src_offset : u64) : list u8 :=
  if (dst_offset <=? lengthZ dst) && (src_offset <=? lengthZ src) then
    let dst_slice := dropZ dst_offset dst in
    let src_slice := dropZ src_offset src in
    let len := Z.min (lengthZ dst_slice) (lengthZ src_slice) in
    takeZ dst_offset dst ++ takeZ len src_slice ++ dropZ len dst_slice
  else dst.

Definition read_config {Dk} (b : BlockAsync Dk) (offset : u64) (data : list u8) : list u8 :=
  let config_space :=
    build_config_space (ba_disk_size b) (ba_seg_max b) (ba_block_size b) (U16 (lengthZ (ba_queue_sizes b))) in
  copy_config data (U64 0) (config_bytes config_space) offset.

(** ** Creation *)

Lemma get_seg_max_spec (iov_max : u64) (queue_size : u16) :
  match get_seg_max iov_max queue_size with
  | Some m => uval m = Z.min (Z.min (Z.max iov_max 1) (2 ^ 32 - 1)) (queue_size - 2)
  | None => queue_size < 2
  end.
Proof.
  unfold get_seg_max. pose proof (uint_range queue_size) as Hq. pose proof (uint_range iov_max) as Hi. cbn [Z.of_N] in *.
  assert (uval (U32 queue_size) = queue_size) as Hu by (apply uval_to_uint_small; cbn [Z.of_N]; lia).
  destruct (sub_checked (U32 queue_size) (U32 2)) as [m|] eqn:E; cbn.
  - apply sub_checked_Some in E. change (uval (U32 2)) with 2 in E. rewrite umin_spec, E, Hu. f_equal.
    rewrite uval_to_uint_small, umin_spec, umax_spec.
    + by change (uval (U64 1)) with 1.
    + rewrite umin_spec, umax_spec. change (uval (U64 1)) with 1. change (uval (U64 (2 ^ 32 - 1))) with (2 ^ 32 - 1). cbn [Z.of_N]. lia.
  - apply sub_checked_None in E. change (uval (U32 2)) with 2 in E. lia.
Qed.

(** The numbers of the features that the device adds: the limit of segments (2) and
    the block size (6); read only (5), or flush (9), write zeroes (14) and, for a sparse
    image, discard (13); several queues (12); packed queues (34). *)
Definition advertised (o : DiskOption) (num_queues : u16) (i : Z) : bool :=
  (i =? 2) || (i =? 6) ||
  (if do_read_only o then i =? 5 else (i =? 9) || (i =? 14) || (do_sparse o && (i =? 13))) ||
  (negb (uval num_queues =? 1) && (i =? 12)) || (do_packed_queue o && (i =? 34)).

Lemma build_avail_features_spec features o (n : u16) i :
  bit (build_avail_features features (do_read_only o) (do_sparse o) (negb (uval n =? 1)) (do_packed_queue o)) i =
  bit features i || advertised o n i.
Proof.
  unfold build_avail_features, advertised, VIRTIO_BLK_F_SEG_MAX, VIRTIO_BLK_F_RO, VIRTIO_BLK_F_BLK_SIZE, VIRTIO_BLK_F_FLUSH,
    VIRTIO_BLK_F_MQ, VIRTIO_BLK_F_DISCARD, VIRTIO_BLK_F_WRITE_ZEROES, VIRTIO_F_RING_PACKED.
  destruct (do_packed_queue o), (uval n =? 1), (do_read_only o), (do_sparse o); cbn [negb andb];
    rewrite ?bit_set by done; btauto.
Qed.

(** The device that the options describe. *)
Record described {Dk} (iov_max : u64) (clones : bool) (features : u64) (o : DiskOption) (q n : u16) (image : Dk) (size : u64)
    (b : BlockAsync Dk) : Prop := {
  ds_image : ba_disk_image b = Some image;
  ds_size : ba_disk_size b = size;
  ds_features : ∀ i, bit (ba_avail_features b) i = bit features i || advertised o n i;
  ds_read_only : ba_read_only b = do_read_only o;
  ds_sparse : ba_sparse b = do_sparse o;
  ds_seg_max : uval (ba_seg_max b) = Z.min (Z.min (Z.max iov_max 1) (2 ^ 32 - 1)) (q - 2);
  ds_block_size : ba_block_size b = do_block_size o;
  ds_id : ba_id b = do_id o;
  ds_queues : ba_queue_sizes b = replicate (Z.to_nat n) q;
  ds_workers : ba_worker_per_queue b = do_multiple_workers o && clones
}.

(** C39. Creating a device, with every option: a block size that is no multiple of 512
    is refused with [EINVAL]; then an error of the query for the size of the image is
    returned; then the block size 0 and the number of queues 0 panic; then a queue size
    that is no power of two is refused with [EINVAL]; then the queue size 1 panics; with
    all other options the device is created as they describe, feature by feature.  The
    disk and the host are left as the query leaves them. *)
Theorem block_new_spec {K Dk} `{DiskFile K Dk} (iov_max : u64) clones features o queue_size num_queues k (image : Dk) :
  let q := default (U16 256) queue_size in
  let n := default (U16 16) num_queues in
  let created := BlockAsync_new iov_max clones features o queue_size num_queues (k, image) in
  if negb (do_block_size o mod 512 =? 0) then created = (Throws (OsError 22), (k, image))
  else
    match get_len (k, image) with
    | (Returns size, (k', image')) =>
        if (uval (do_block_size o) =? 0) || (uval n =? 0) then created = (Aborts, (k', image'))
        else
          ((¬ ∃ e, 0 <= e ∧ uval q = 2 ^ e) → created = (Throws (OsError 22), (k', image'))) ∧
          (uval q = 1 → created = (Aborts, (k', image'))) ∧
          ((∃ e, 0 < e ∧ uval q = 2 ^ e) →
             ∃ b, created = (Returns b, (k', image')) ∧ described iov_max clones features o q n image' size b)
    | (Throws e, s) => created = (Throws e, s)
    | (Aborts, s) => created = (Aborts, s)
    end.
Proof.
  intros q n. unfold BlockAsync_new. change (uval SECTOR_SIZE) with 512.
  change (default DEFAULT_QUEUE_SIZE queue_size) with q. change (default DEFAULT_NUM_QUEUES num_queues) with n.
  destruct (do_block_size o mod 512 =? 0) eqn:Eb; cbn [negb]; [|done].
  destruct (get_len (k, image)) as [[size|e|] [k' image']] eqn:Hlen; run_prog; rewrite Hlen; [|done..].
  destruct (uval (do_block_size o) =? 0) eqn:E0; cbn [orb]; [done|]. destruct (uval n =? 0) eqn:En; [done|].
  pose proof (power_of_two_spec q) as Hpow. pose proof (get_seg_max_spec iov_max q) as Hseg.
  destruct (is_power_of_two q) eqn:Eq; cbn [negb].
  - pose proof (power_of_two_pos _ Eq) as Hpos. split_and!.
    + intros Hno. by destruct Hno, Hpow; auto.
    + intros Hq1. destruct (get_seg_max iov_max q) as [s|]; [|done].
      pose proof (uint_range s). pose proof (uint_range iov_max). lia.
    + intros (e & He & Hqe). destruct (get_seg_max iov_max q) as [s|].
      * cbn. eexists. split; [done|]. constructor; try done. intros i. apply build_avail_features_spec.
      * assert (2 ^ 1 <= 2 ^ e) by (apply Z.pow_le_mono_r; lia). lia.
  - split_and!; [done|..].
    + intros Hq1. assert (false = true) by (apply Hpow; exists 0; by rewrite Hq1). done.
    + intros (e & He & Hqe). assert (false = true) by (apply Hpow; exists e; split; [lia|done]). done.
Qed.

(** ** The configuration space *)

Lemma copy_config_spec data src (offset : u64) :
  let r := copy_config data (U64 0) src offset in
  lengthZ r = lengthZ data ∧
  ∀ j, 0 <= j < lengthZ data → byte_at r j = if offset + j <? lengthZ src then byte_at src (offset + j) else byte_at data j.
Proof.
  cbv zeta. unfold copy_config. change (uval (U64 0)) with 0. pose proof (lengthZ_nonneg data). pose proof (uint_range offset).
  rewrite (proj2 (Z.leb_le 0 (lengthZ data))) by done. cbn [andb].
  destruct (Z.leb_spec offset (lengthZ src)) as [Hle|Hgt].
  2: { split; [done|]. intros j Hj. destruct (Z.ltb_spec (offset + j) (lengthZ src)); [lia|done]. }
  rewrite dropZ_0. assert (takeZ 0 data = []) as -> by (by rewrite takeZ_take). cbn [app]. set (s := dropZ offset src).
  assert (lengthZ s = lengthZ src - offset) as Hs by (unfold s; rewrite lengthZ_dropZ; lia).
  set (len := Z.min (lengthZ data) (lengthZ s)).
  assert (lengthZ (takeZ len s) = len) as Ht by (rewrite lengthZ_takeZ; lia). split.
  - rewrite lengthZ_app, Ht, lengthZ_dropZ by lia. lia.
  - intros j Hj. destruct (Z.ltb_spec (offset + j) (lengthZ src)) as [Hin|Hout].
    + rewrite byte_at_app_l, byte_at_takeZ by lia. unfold s. by rewrite byte_at_dropZ by lia.
    + rewrite byte_at_app_r by lia. rewrite byte_at_dropZ by lia. f_equal. lia.
Qed.

(** The first eight bytes are the capacity. *)
Lemma config_capacity c : takeZ 8 (config_bytes c) = le_split 8 (bc_capacity c).
Proof. unfold config_bytes. by rewrite takeZ_app_eq by (by rewrite lengthZ_le_split). Qed.

Lemma lengthZ_config_bytes c : lengthZ (config_bytes c) = 60.
Proof. unfold config_bytes. rewrite !lengthZ_app, !lengthZ_le_split. done. Qed.

(** The capacity that a driver reads, in sectors. *)
Definition read_capacity {Dk} (b : BlockAsync Dk) : Z := le_combine (read_config b (U64 0) (zeros 8)).

Lemma read_capacity_spec {Dk} (b : BlockAsync Dk) : read_capacity b = ba_disk_size b / 512.
Proof.
  unfold read_capacity, read_config. set (c := build_config_space _ _ _ _).
  destruct (copy_config_spec (zeros 8) (config_bytes c) (U64 0)) as [Hl Hb]. rewrite lengthZ_config_bytes in Hb.
  change (uval (U64 0)) with 0 in Hb.
  assert (copy_config (zeros 8) (U64 0) (config_bytes c) (U64 0) = takeZ 8 (config_bytes c)) as ->.
  { change (lengthZ (zeros 8)) with 8 in *. apply list_eq_byte_at; rewrite Hl.
    { by rewrite lengthZ_takeZ, lengthZ_config_bytes by (rewrite ?lengthZ_config_bytes; lia). }
    intros j Hj. rewrite Hb by done. rewrite byte_at_takeZ by lia.
    destruct (Z.ltb_spec (0 + j) 60); [by rewrite Z.add_0_l|lia]. }
  rewrite config_capacity, le_combine_split. cbn [c build_config_space bc_capacity]. unfold SECTOR_SHIFT.
  rewrite Z.shiftr_div_pow2 by done. pose proof (uint_range (ba_disk_size b)) as Hr. cbn [Z.of_N] in Hr.
  change (2 ^ 9) with 512. change (256 ^ Z.of_nat 8) with (2 ^ 64).
  assert (0 <= ba_disk_size b / 512 < 2 ^ 64) as Hd by (split; [apply Z.div_pos; lia|apply Z.div_lt_upper_bound; lia]).
  rewrite uval_to_uint_small by done. by apply Z.mod_small.
Qed.

(** ** Capacity *)

Section capacity.
Context {K D : Type} `{AsyncLaws K D} `{!HostTimer K, !HostTimerLaws K}.
Context (gm : GuestMemory) (Hgm : gm_ok gm).

(** A complete request to read or to write sectors below [n]. *)
Definition within (n : Z) (bs : list u8) (room : Z) : Prop :=
  let start := req_sector (header bs) * 512 in
  16 <= lengthZ bs ∧
  ((req_type (header bs) = VIRTIO_BLK_T_IN ∧ start + room <= n * 512) ∨
   (req_type (header bs) = VIRTIO_BLK_T_OUT ∧ start + lengthZ (blk_payload bs) <= n * 512)).

(** How such a request ends: a read gives the bytes of the sectors, or an error of the
    host; a write puts its bytes there, is refused by a read-only device, or ends with an
    error of the host or of the timer. *)
Definition served_sectors (cfg : blk_config) (img bs : list u8) (room : Z) (r : option ExecuteError) (reply img' : list u8) :
    Prop :=
  let sector := req_sector (header bs) in
  let payload := blk_payload bs in
  if decide (req_type (header bs) = VIRTIO_BLK_T_IN) then
    img' = img ∧
    (r = None ∧ reply = takeZ room (dropZ (sector * 512) img) ∨
     ∃ e, r = Some (ReadIo (U64 room) sector e) ∧ disk_fault e)
  else if cf_read_only cfg then r = Some (ReadOnly VIRTIO_BLK_T_OUT) ∧ img' = img
  else
    r = None ∧ img' = (if decide (payload = []) then img else overwrite img (sector * 512) payload) ∨
    (∃ n e, r = Some (WriteIo (U64 (lengthZ payload)) sector e) ∧ disk_fault e ∧
       img' = overwrite img (sector * 512) (takeZ n payload)) ∨
    (∃ e, r = Some (TimerReset e) ∧ img' = overwrite img (sector * 512) payload).

Lemma within_served cfg img bs room r reply fault img' n :
  0 <= room → within n bs room → n * 512 <= lengthZ img < 2 ^ 64 →
  blk_step cfg img bs room r reply fault img' → served_sectors cfg img bs room r reply img'.
Proof.
  intros Hroom [Hhd Hw] Hn Hst. pose proof (uint_range (req_sector (header bs))).
  pose proof (lengthZ_nonneg (blk_payload bs)).
  assert (sector_start (req_sector (header bs)) = req_sector (header bs) * 512) as Hs.
  { unfold sector_start. apply Z.mod_small. destruct Hw as [[_ Hw]|[_ Hw]]; lia. }
  unfold served_sectors.
  destruct (decide (req_type (header bs) = VIRTIO_BLK_T_IN)) as [Ht|Ht].
  - destruct Hw as [[_ Hw]|[Ht' _]]; [|by rewrite Ht' in Ht].
    destruct Hst; rewrite ?Hs in *; try (rewrite Ht in *; done); try lia.
    + split; [done|]. by left.
    + split; [done|]. right. by eexists.
    + exfalso. rewrite Ht in *. naive_solver.
    + exfalso. rewrite Ht in *. match goal with Hx : _ ∨ _ |- _ => destruct Hx as [[? _]|Hx] end; [done|]. set_solver.
  - destruct Hw as [[Ht' _]|[Ht' Hw]]; [done|].
    assert (allowed cfg bs → cf_read_only cfg = false) as Hro.
    { intros [_ Ha]. destruct (cf_read_only cfg); [|done]. rewrite Ht' in Ha. by destruct (Ha eq_refl). }
    destruct Hst; rewrite ?Hs in *; try (rewrite Ht' in *; done); try lia; rewrite ?Hro by done.
    + match goal with Hr : cf_read_only _ = true |- _ => rewrite Hr end. by rewrite Ht'.
    + left. split; [done|]. by rewrite decide_False by done.
    + left. split; [done|]. by rewrite decide_True by done.
    + right. left. by eexists _, _.
    + right. right. by eexists.
    + exfalso. rewrite Ht' in *. naive_solver.
    + exfalso. rewrite Ht' in *. match goal with Hx : _ ∨ _ |- _ => destruct Hx as [[? _]|Hx] end; [done|]. set_solver.
Qed.


End capacity.
