(* ===== verification/BlockLife.v ===== *)
(** * The life of a block device

    [start_worker], [start_queue], [stop_queue], [activate], [reset],
    [virtio_sleep] and [virtio_wake] of [BlockAsync] in
    [devices/src/virtio/block/asynchronous.rs], for a device whose queues share one
    worker ([worker_per_queue] is false, the default).  Stopping the queues of a
    device leaves nothing pending, so that the disk and the queues are all there is
    to restore.

    A command that is sent to the worker is handled before the device goes on; while the
    handler of a queue is stopped the other handlers run, and [during] says what wakes
    them then.  The timer and the commands for the disk are handled between the methods
    of the device, in [worker_runs].  The tube for commands moves to the worker and back
    with the disk and is not in the model. *)

From stdpp Require Import gmap sorting.
From S2P Require Import Prelude StdIo Checked Bits GuestMemory DescriptorUtils DescriptorChain SplitQueue PackedQueue.
From S2P Require Import DiskFile SparseImage CompositeDisk AsyncDisk BlockDevice BlockWorker BlockConfig.
From S2P Require Import GuestMemoryFacts StreamFacts ChainFacts SplitFacts DiskFacts CompositeFacts.
From S2P Require Import AsyncFacts AsyncComposite AsyncDepth BlockFacts BlockSpec BlockServe BlockControl.
From S2P Require Import BlockRun.

Section life.
Context {K : Type} `{HostFiles K} `{HostAsync K} `{!HostTimer K, !HostTube K}.
Context (n : nat) (mem : GuestMemory) (during : nat → list handler_event).

(** The thread of the worker, which runs until [run_worker] returns. *)
Record Thread := mkThread {
  th_running : bool;
  th_state : DiskState (async_disk n);
  th_armed : bool;
  th_changes : nat;
  th_handlers : gmap nat QueueHandler
}.

(** The device, the host and the memory of the guest.  The size in the state of the
    worker is that of the device. *)
Record Device := mkDevice {
  dv_block : BlockAsync (disk n);
  dv_thread : option Thread;
  dv_activated : gset nat;
  dv_kernel : K;
  dv_world : World
}.

Inductive DeviceError := TakeImage | WorkerNotFound | QueueNotFound.

Abbreviation Life := (prog Device DeviceError).

Definition set_block_disk (image : option (disk n)) (size : u64) (b : BlockAsync (disk n)) : BlockAsync (disk n) :=
  mkBlock image size (ba_avail_features b) (ba_read_only b) (ba_sparse b) (ba_seg_max b) (ba_block_size b) (ba_id b)
    (ba_queue_sizes b) (ba_worker_per_queue b).

(** The worker of the thread, and the device after it has run. *)
Definition worker_of (dv : Device) (t : Thread) : Worker K (async_disk n) :=
  mkWorker (mkShared (dv_kernel dv) (th_state t) (th_armed t) (dv_world dv) (th_changes t)) (th_handlers t).
Definition put_worker (running : bool) (W : Worker K (async_disk n)) (dv : Device) : Device :=
  let s := wk_shared W in
  mkDevice (set_block_disk (ba_disk_image (dv_block dv)) (disk_size (sh_state s)) (dv_block dv))
    (Some (mkThread running (sh_state s) (sh_armed s) (sh_config_changes s) (queue_handlers W)))
    (dv_activated dv) (sh_kernel s) (sh_world s).

(** ** Starting and stopping *)

(** The thread panics if the disk cannot be made asynchronous. *)
Definition start_worker : Life () :=
  dv ← get_state;
  match dv_thread dv with
  | Some _ => mret ()
  | None =>
      let b := dv_block dv in
      match ba_disk_image b with
      | None => throw TakeImage
      | Some disk_image =>
          async_image ← zoom dv_kernel (λ k dv, mkDevice (dv_block dv) (dv_thread dv) (dv_activated dv) k (dv_world dv))
            (unwrap (to_async_disk n disk_image));
          dv ← get_state;
          let disk_state := mkDiskState async_image (ba_read_only b) (ba_sparse b) (ba_id b) (ba_disk_size b) in
          put_state (mkDevice (set_block_disk None (ba_disk_size b) b) (Some (mkThread true disk_state false 0 ∅))
                       (dv_activated dv) (dv_kernel dv) (dv_world dv))
      end
  end.

(** [unbounded_send] panics if the worker has returned. *)
Definition send_cmd (idx : nat) (cmd : WorkerCmd) : Life (list (option Queue)) := λ dv,
  match dv_thread dv with
  | Some t =>
      if th_running t then
        let '(r, W) := unwrap (handle_worker_cmd mem (Some cmd) (during idx)) (worker_of dv t) in (r, put_worker true W dv)
      else (Aborts, dv)
  | None => (Aborts, dv)
  end.

Definition set_activated (s : gset nat) : Life () :=
  dv ← get_state; put_state (mkDevice (dv_block dv) (dv_thread dv) s (dv_kernel dv) (dv_world dv)).

Definition start_queue (idx : nat) (queue : Queue) : Life () :=
  start_worker;;
  _ ← send_cmd idx (StartQueue idx queue);
  dv ← get_state;
  set_activated ({[idx]} ∪ dv_activated dv).

Definition stop_queue (idx : nat) : Life Queue :=
  dv ← get_state;
  match dv_thread dv with
  | None => throw WorkerNotFound
  | Some _ =>
      r ← send_cmd idx (StopQueue idx);
      match r with
      | [Some queue] => dv ← get_state; set_activated (dv_activated dv ∖ {[idx]});; mret queue
      | _ => throw QueueNotFound
      end
  end.

(** [worker_thread.stop()]: the worker is killed, the disk is flushed and given
    back.  A worker that had returned was flushed then. *)
Definition stop_thread : Life () :=
  dv ← get_state;
  match dv_thread dv with
  | None => mret ()
  | Some t =>
      let '(k, s) := if th_running t then (on_image async_flush (dv_kernel dv, th_state t)).2 else (dv_kernel dv, th_state t) in
      put_state (mkDevice (set_block_disk (Some (into_inner n (disk_image s))) (disk_size s) (dv_block dv)) None
                   (dv_activated dv) k (dv_world dv))
  end.

(** ** The methods of the device *)

Definition Device_reset : Life () := stop_thread;; set_activated ∅.

(** The indices in ascending order. *)
Definition sorted_indices (s : gset nat) : list nat := merge_sort Nat.le (elements s).

Fixpoint stop_queues (l : list nat) : Life (list (nat * Queue)) :=
  match l with
  | [] => mret []
  | index :: l => q ← stop_queue index; rest ← stop_queues l; mret ((index, q) :: rest)
  end.

Definition virtio_sleep : Life (option (list (nat * Queue))) :=
  dv ← get_state;
  match dv_thread dv with
  | None => mret None
  | Some _ =>
      queues ← stop_queues (sorted_indices (dv_activated dv));
      stop_thread;;
      mret (Some queues)
  end.

(** [activate], and [virtio_wake] with the queues that [virtio_sleep] returned. *)
Fixpoint Device_activate (queues : list (nat * Queue)) : Life () :=
  match queues with
  | [] => mret ()
  | (i, q) :: queues => start_queue i q;; Device_activate queues
  end.
Definition virtio_wake (queues_state : option (list (nat * Queue))) : Life () :=
  match queues_state with Some queues => Device_activate queues | None => mret () end.

(** The worker on a schedule.  When it returns with an error the disk is flushed. *)
Definition worker_runs (evs : list worker_event) : Life () := λ dv,
  match dv_thread dv with
  | Some t =>
      if th_running t then
        match run_worker mem evs (worker_of dv t) with
        | (Returns _, W) => (Returns (), put_worker true W dv)
        | (Throws _, W) =>
            let '(r, W') := attempt (on_worker_disk (on_image async_flush)) W in
            (match r with Returns _ => Returns () | Throws e => Throws e | Aborts => Aborts end, put_worker false W' dv)
        | (Aborts, W) => (Aborts, put_worker true W dv)
        end
      else (Returns (), dv)
  | None => (Returns (), dv)
  end.
End life.
Arguments mkDevice {K n} _ _ _ _ _.
Arguments dv_block {K n} _.
Arguments dv_thread {K n} _.
Arguments dv_activated {K n} _.
Arguments dv_kernel {K n} _.
Arguments dv_world {K n} _.
Arguments mkThread {n} _ _ _ _ _.
Arguments th_running {n} _.
Arguments th_state {n} _.
Arguments th_armed {n} _.
Arguments th_changes {n} _.
Arguments th_handlers {n} _.

(** ** The handlers of a worker *)

Section handlers.
Context {K D : Type} `{AsyncDisk K D} `{!HostTimer K, !HostTube K} (mem : GuestMemory).
Implicit Types W : Worker K D.

Lemma on_shared_handlers {E A} (m : prog (Shared K D) E A) W o W' :
  on_shared m W = (o, W') → queue_handlers W' = queue_handlers W.
Proof. unfold on_shared, zoom. destruct (m _) as [r t]. by intros [= <- <-]. Qed.

Lemma on_handler_handlers {E A} i (m : prog (Shared K D * QueueHandler) Empty_set A) W (o : outcome E (option A)) W' :
  on_handler i m W = (o, W') →
  (queue_handlers W !! i = None ∧ W' = W ∧ o = Returns None) ∨
  (∃ h h', queue_handlers W !! i = Some h ∧ queue_handlers W' = <[i := h']> (queue_handlers W) ∧ o ≠ Returns None).
Proof.
  unfold on_handler. destruct (queue_handlers W !! i) as [h|] eqn:Hi; [|intros [= <- <-]; by left].
  destruct (m _) as [r [t h']]. intros [= <- <-]. right. exists h, h'. split; [done|]. split; [done|]. by destruct r as [| [] |].
Qed.

Lemma start_queue_handlers i q evs W :
  queue_handlers W !! i = None →
  handle_worker_cmd mem (Some (StartQueue i q)) evs W =
  (Returns [], mkWorker (wk_shared W) (<[i := mkHandler q []]> (queue_handlers W))).
Proof.
  intros Hi. cbn [handle_worker_cmd]. unfold stop_queue_handler, mbind, prog_bind. cbn. by rewrite Hi.
Qed.

(** Only commands start and stop handlers. *)
Definition no_command (ev : worker_event) : Prop := match ev with WorkerCommand _ _ => False | _ => True end.

Lemma on_event_dom ev W o W' :
  no_command ev → on_event mem ev W = (o, W') → dom (queue_handlers W') = dom (queue_handlers W).
Proof.
  assert (∀ {E A} i (m : prog (Shared K D * QueueHandler) Empty_set A) W (o : outcome E (option A)) W',
    on_handler i m W = (o, W') → dom (queue_handlers W') = dom (queue_handlers W)) as Hdom.
  { intros E A i m W0 o0 W0' [(_ & -> & _)|(h & h' & Hi & -> & _)]%on_handler_handlers; [done|]. apply dom_insert_lookup_L. by exists h. }
  destruct ev as [[m|i b|i j]|b|ns|cmd evs|]; intros Hno; cbn [on_event on_handler_event]; unfold mbind, prog_bind.
  - destruct (on_shared _ W) as [r W1] eqn:E. apply on_shared_handlers in E. destruct r; intros [= <- <-]; by rewrite E.
  - destruct b; [|by intros [= <- <-]]. destruct (on_handler i _ W) as [r W1] eqn:E. apply Hdom in E. destruct r; intros [= <- <-]; by rewrite E.
  - destruct (on_handler i _ W) as [r W1] eqn:E. apply Hdom in E. destruct r; intros [= <- <-]; by rewrite E.
  - destruct b; cbn [timer_fired]; [|by intros [= <- <-]]. unfold map_err. destruct (on_shared _ W) as [r W1] eqn:E.
    apply on_shared_handlers in E. destruct r; intros [= <- <-]; by rewrite E.
  - destruct ns as [ns|]; cbn [handle_command]; [|by intros [= <- <-]]. unfold mbind, prog_bind, map_err, on_worker_disk, on_worker_kernel.
    destruct (on_shared _ W) as [r W1] eqn:E. apply on_shared_handlers in E.
    destruct r as [x|[]|]; [|by intros [= <- <-]; rewrite E].
    destruct (on_shared _ W1) as [r2 W2] eqn:E2. apply on_shared_handlers in E2. rewrite <- E, <- E2.
    destruct r2 as [[]|[]|]; [|by intros [= <- <-]..]. destruct x; [|by intros [= <- <-]].
    destruct (on_shared _ W2) as [r3 W3] eqn:E3. apply on_shared_handlers in E3. destruct r3; intros [= <- <-]; by rewrite E3.
  - done.
  - by intros [= <- <-].
Qed.

Lemma run_worker_dom evs : ∀ W o W',
  Forall no_command evs → run_worker mem evs W = (o, W') → dom (queue_handlers W') = dom (queue_handlers W).
Proof.
  induction evs as [|ev evs IH]; intros W o W' Hno; [by intros [= <- <-]|].
  apply Forall_cons in Hno as [Hev Hno].
  assert (ev = Killed ∨ ev ≠ Killed) as [->|Hne] by (destruct ev; auto); [by intros [= <- <-]|].
  rewrite run_worker_cons by done. unfold mbind, prog_bind. destruct (on_event mem ev W) as [o1 W1] eqn:E1. apply on_event_dom in E1; [|done].
  destruct o1; [|by intros [= <- <-]..]. destruct (run_worker mem evs W1) as [o2 W2] eqn:E2.
  apply IH in E2; [|done]. rewrite <- E1, <- E2. by destruct o2; intros [= <- <-].
Qed.
End handlers.

(** ** The device *)

Section device.
Context {K : Type} `{HostLaws K} `{!HostAsync K, !HostAsyncLaws K}.
Context `{!HostTimer K, !HostTimerLaws K, !HostTube K, !HostTubeLaws K}.
Context (n : nat) (gm : GuestMemory) (Hgm : gm_ok gm).
Abbreviation Device := (@Device K n).
Implicit Types (dv : Device) (t : Thread n) (W : Worker K (async_disk n)) (img : list u8).

Definition handlers_of dv : gmap nat QueueHandler :=
  match dv_thread dv with Some t => th_handlers t | None => ∅ end.

(** The state of a worker agrees with the device that started it. *)
Definition matches (b : BlockAsync (disk n)) (s : DiskState (async_disk n)) : Prop :=
  read_only s = ba_read_only b ∧ sparse s = ba_sparse b ∧ disk_id s = ba_id b ∧ disk_size s = ba_disk_size b.

(** The disk is in the device. *)
Definition holds dv img : Prop :=
  ∃ d, ba_disk_image (dv_block dv) = Some d ∧ disk_ok d ∧ shows (contents (dv_kernel dv)) d 0 img ∧
    lengthZ img = ba_disk_size (dv_block dv) ∧ ∀ id, ba_id (dv_block dv) = Some id → length id = ID_LEN.

(** The device shows [img], itself or through its worker, and knows which queues
    the worker handles. *)
Definition device_ok dv img : Prop :=
  match dv_thread dv with
  | None => holds dv img
  | Some t => worker_ok gm (worker_of n dv t) img ∧ matches (dv_block dv) (th_state t)
  end ∧ dv_activated dv = dom (handlers_of dv).

Definition running dv : Prop := ∃ t, dv_thread dv = Some t ∧ th_running t = true.

(** The worker of the device took steps. *)
Definition ran dv img (f : bool) dv' img' : Prop :=
  ∃ t t', dv_thread dv = Some t ∧ dv_thread dv' = Some t' ∧
    dev_steps gm (worker_of n dv t) img f (worker_of n dv' t') img'.

Lemma ran_trans dv img f1 dv1 img1 f2 dv2 img2 : ran dv img f1 dv1 img1 → ran dv1 img1 f2 dv2 img2 → ran dv img (f1 || f2) dv2 img2.
Proof.
  intros (t & t1 & Ht & Ht1 & Hs1) (t1' & t2 & Ht1' & Ht2 & Hs2). simplify_eq. exists t, t2.
  split; [done|]. split; [done|]. by eapply dev_steps_trans.
Qed.

Lemma put_worker_ok b dv t W img :
  dv_thread dv = Some t → matches (dv_block dv) (th_state t) → config_of (sh_state (wk_shared W)) = config_of (th_state t) →
  worker_ok gm W img → dv_activated dv = dom (queue_handlers W) → device_ok (put_worker n b W dv) img.
Proof.
  intros Ht (Hr & Hs & Hi & _) [= Hr' Hs' Hi'] HW Hdom. split; [|done]. split; [by destruct W as [[] ?]|].
  split_and!; cbn; [by rewrite Hr'|by rewrite Hs'|by rewrite Hi'|done].
Qed.

(** A worker that runs leaves the device as it should be. *)
Lemma worker_runs_ok dv img evs :
  device_ok dv img → Forall no_command evs → Forall (event_ok gm) evs →
  (∃ dv' img', worker_runs n gm evs dv = (Returns (), dv') ∧ device_ok dv' img' ∧ (dv_thread dv = None → dv' = dv)) ∨
  (∃ t, dv_thread dv = Some t ∧ shrink_cut gm evs (worker_of n dv t) img).
Proof using All.
  intros Hdv Hno Hs. unfold worker_runs. pose proof Hdv as [Hok Hdom].
  destruct (dv_thread dv) as [t|] eqn:Et; [|left; by exists dv, img]. destruct (th_running t) eqn:Er; [|left; by exists dv, img].
  destruct Hok as [HW Hm].
  destruct (run_worker_run gm Hgm evs (worker_of n dv t) img HW Hs) as [(o & W' & f & img' & Hrun & Hna & Hst & _)|Hcut];
    [left|right; by exists t].
  pose proof (run_worker_dom gm evs _ _ _ Hno Hrun) as Hd. destruct (dev_steps_ok gm Hgm _ _ _ _ _ Hst HW) as (HW' & Hcfg & _).
  assert (∀ b, device_ok (put_worker n b W' dv) img') as Hput.
  { intros b. eapply put_worker_ok; [done|done|exact Hcfg|done|]. rewrite Hd, Hdom. unfold handlers_of. by rewrite Et. }
  rewrite Hrun. destruct o as [qs|e|]; [by eexists _, img'| |done].
  unfold attempt, on_worker_disk, on_shared, zoom. rewrite on_image_run, async_flush_law. cbn beta iota.
  eexists _, img'. split; [done|]. split; [|done]. specialize (Hput false). by destruct W' as [[? [] ? ? ?] ?].
Qed.

(** *** Stopping *)

Lemma stop_queue_ok during dv img i :
  device_ok dv img → running dv → i ∈ dv_activated dv →
  ∃ q dv' f img', stop_queue n gm during i dv = (Returns q, dv') ∧ ran dv img f dv' img' ∧ device_ok dv' img' ∧ running dv' ∧
    idle gm q ∧ dv_activated dv' = dv_activated dv ∖ {[i]}.
Proof using All.
  intros [Hok Hdom] (t & Et & Er) Hi. rewrite Et in Hok. destruct Hok as [HW Hm].
  unfold handlers_of in Hdom. rewrite Et in Hdom.
  destruct (stop_queue_run gm Hgm (worker_of n dv t) img i (during i) HW) as (r & W' & f & img' & Hrun & Hst & Hh & Hidle & Hsome).
  destruct r as [q|]; [|exfalso; eapply is_Some_None, Hsome; cbn; by rewrite <- Hdom]. destruct (dev_steps_ok gm Hgm _ _ _ _ _ Hst HW) as (HW' & Hcfg & _).
  unfold stop_queue. rewrite (bind_returns _ _ _ dv dv) by done. rewrite Et.
  rewrite (bind_returns _ _ _ [Some q] (put_worker n true W' dv)).
  2: { unfold send_cmd. rewrite Et, Er. unfold unwrap. cbn [handle_worker_cmd]. by rewrite (bind_returns _ _ _ _ _ Hrun). }
  eexists q, _, f, img'. split; [done|]. split; [|split; [|split; [by eexists|by split; [apply Hidle|]]]].
  { eexists t, _. split; [done|]. split; [done|]. by destruct W' as [[] ?]. }
  set (dv1 := mkDevice (dv_block dv) (dv_thread dv) (dv_activated dv ∖ {[i]}) (dv_kernel dv) (dv_world dv)).
  change (device_ok (put_worker n true W' dv1) img'). eapply put_worker_ok; [exact Et|exact Hm|exact Hcfg|done|].
  cbn. by rewrite Hh, Hdom.
Qed.

Lemma stop_queues_ok during l : ∀ dv img,
  device_ok dv img → running dv → NoDup l → list_to_set l ⊆ dv_activated dv →
  ∃ qs dv' f img', stop_queues n gm during l dv = (Returns qs, dv') ∧ ran dv img f dv' img' ∧ device_ok dv' img' ∧ running dv' ∧
    qs.*1 = l ∧ Forall (idle gm) qs.*2 ∧ dv_activated dv' = dv_activated dv ∖ list_to_set l.
Proof using All.
  induction l as [|i l IH]; intros dv img Hdv Hr Hnd Hsub; cbn [stop_queues].
  { exists [], dv, false, img. split; [done|]. split; [destruct Hr as (t & Et & _); exists t, t; by do 2 (split; [done|]); constructor|].
    split; [done|]. split; [done|]. split; [done|]. split; [done|]. cbn. set_solver. }
  apply NoDup_cons in Hnd as [Hni Hnd]. cbn in Hsub.
  destruct (stop_queue_ok during dv img i Hdv Hr) as (q & dv1 & f1 & img1 & Hrun & Hran1 & Hdv1 & Hr1 & Hq & Ha1); [set_solver|].
  rewrite (bind_returns _ _ _ _ _ Hrun).
  destruct (IH dv1 img1 Hdv1 Hr1 Hnd) as (qs & dv2 & f2 & img2 & Hrun2 & Hran2 & Hdv2 & Hr2 & Hk & Hqs & Ha2).
  { rewrite Ha1. intros j Hj. apply elem_of_list_to_set in Hj. set_solver. }
  rewrite (bind_returns _ _ _ _ _ Hrun2). exists ((i, q) :: qs), dv2, (f1 || f2), img2. split; [done|].
  split; [by eapply ran_trans|]. split; [done|]. split; [done|].
  split; [by cbn; rewrite Hk|]. split; [by constructor|]. rewrite Ha2, Ha1. cbn. set_solver.
Qed.

(** A worker that has returned has dropped its end of the channel: the device panics
    when a queue is started or stopped. *)
Lemma ended_worker_aborts during dv t i q :
  dv_thread dv = Some t → th_running t = false →
  stop_queue n gm during i dv = (Aborts, dv) ∧ start_queue n gm during i q dv = (Aborts, dv).
Proof.
  intros Et Er. unfold stop_queue, start_queue, start_worker. rewrite (bind_returns _ _ _ dv dv) by done. rewrite Et.
  unfold mbind, prog_bind, send_cmd, get_state, mret, prog_ret. by rewrite !Et, !Er.
Qed.

(** The disk that is given back shows the same image. *)
Lemma stop_thread_ok dv img :
  device_ok dv img → ∃ dv', stop_thread n dv = (Returns (), dv') ∧ dv_thread dv' = None ∧ holds dv' img ∧
    dv_activated dv' = dv_activated dv ∧ dv_kernel dv' = dv_kernel dv ∧ dv_world dv' = dv_world dv.
Proof using All.
  intros [Hok Hdom]. unfold stop_thread. rewrite (bind_returns _ _ _ dv dv) by done.
  destruct (dv_thread dv) as [t|] eqn:Et; [|by exists dv]. destruct Hok as [[(Hd & Hs & Hl) Hid _] (_ & _ & Hi & _)].
  cbn in Hd, Hs, Hl, Hid.
  assert ((if th_running t then (on_image async_flush (dv_kernel dv, th_state t)).2 else (dv_kernel dv, th_state t)) =
    (dv_kernel dv, th_state t)) as ->.
  { destruct (th_running t); [|done]. rewrite on_image_run, async_flush_law. cbn. by destruct (th_state t). }
  eexists. split; [done|]. split; [done|]. split; [|done]. exists (into_inner n (disk_image (th_state t))).
  destruct (into_inner_view n (disk_image (th_state t))) as (Hok & Hb & _). split; [done|]. split; [by apply Hok|].
  split; [intros j b Hj; rewrite Hb; by apply Hs|]. split; [done|]. intros id He. apply Hid. by rewrite Hi.
Qed.

(** *** Starting *)

(** The host refuses to make the disk asynchronous. *)
Definition refuses dv : Prop :=
  ∃ d e k, ba_disk_image (dv_block dv) = Some d ∧ to_async_disk n d (dv_kernel dv) = (Throws e, k).

Lemma start_worker_ok dv img :
  device_ok dv img → (∀ t, dv_thread dv = Some t → th_running t = true) →
  (∃ dv', start_worker n dv = (Returns (), dv') ∧ device_ok dv' img ∧ running dv' ∧ handlers_of dv' = handlers_of dv) ∨
  (∃ dv', start_worker n dv = (Aborts, dv') ∧ dv_thread dv = None ∧ refuses dv).
Proof using All.
  intros Hdv Hr. pose proof Hdv as [Hok Hdom]. unfold start_worker. rewrite (bind_returns _ _ _ dv dv) by done.
  unfold handlers_of in Hdom |- *. destruct (dv_thread dv) as [t|] eqn:Et.
  { left. exists dv. split; [done|]. split; [done|]. split; [exists t; auto|by rewrite Et]. }
  destruct Hok as (d & Ed & Hd & Hs & Hl & Hid). rewrite Ed. unfold mbind, prog_bind, zoom, unwrap.
  destruct (to_async_disk n d (dv_kernel dv)) as [o k] eqn:E. destruct (to_async_disk_spec n _ _ _ _ E) as [[Hc _] Ho].
  destruct o as [a|e|]; [|right; eexists; split; [done|]; split; [done|]; by exists d, e, k|done].
  left. eexists. split; [done|]. destruct (into_inner_view n a) as (Hia & Hb & _). rewrite Ho in Hia, Hb.
  split; [|split; [by eexists|done]]. split; [|exact Hdom]. split; [|done].
  constructor; [|exact Hid|apply map_Forall_empty]. split; [by apply Hia|]. split; [|done].
  cbn. rewrite Hc. intros j b Hj. rewrite <- Hb. by apply Hs.
Qed.

Lemma start_queue_ok during dv img i q :
  device_ok dv img → (∀ t, dv_thread dv = Some t → th_running t = true) → idle gm q → handlers_of dv !! i = None →
  (∃ dv', start_queue n gm during i q dv = (Returns (), dv') ∧ device_ok dv' img ∧ running dv' ∧
    handlers_of dv' = <[i := mkHandler q []]> (handlers_of dv)) ∨
  (∃ dv', start_queue n gm during i q dv = (Aborts, dv') ∧ dv_thread dv = None ∧ refuses dv).
Proof using All.
  intros Hdv Hr Hq Hi. unfold start_queue. destruct (start_worker_ok dv img Hdv Hr) as [(dv1 & Hrun & Hdv1 & (t & Et & Er) & Hh)|(dv1 & Hrun & Hn & Href)].
  2: { right. exists dv1. split; [|done]. unfold mbind, prog_bind. by rewrite Hrun. }
  left. rewrite (bind_returns _ _ _ _ _ Hrun). destruct Hdv1 as [Hok Hdom]. rewrite Et in Hok. destruct Hok as [HW Hm].
  rewrite <- Hh in Hi |- *. unfold handlers_of in Hdom, Hi |- *. rewrite Et in Hdom, Hi |- *.
  set (W' := mkWorker (wk_shared (worker_of n dv1 t)) (<[i := mkHandler q []]> (th_handlers t))).
  rewrite (bind_returns _ _ _ [] (put_worker n true W' dv1)).
  2: { unfold send_cmd. rewrite Et, Er. unfold unwrap. by rewrite start_queue_handlers. }
  rewrite (bind_returns _ _ _ (put_worker n true W' dv1) (put_worker n true W' dv1)) by done.
  eexists. split; [done|]. split; [|split; [by eexists|done]].
  set (dv2 := mkDevice (dv_block dv1) (dv_thread dv1) ({[i]} ∪ dv_activated dv1) (dv_kernel dv1) (dv_world dv1)).
  change (device_ok (put_worker n true W' dv2) img). eapply put_worker_ok; [exact Et|exact Hm|done| |].
  - eapply dev_step_ok; [exact Hgm|exact HW|]. by apply dev_start.
  - cbn. by rewrite dom_insert_L, Hdom.
Qed.

Definition new_handlers (qs : list (nat * Queue)) : gmap nat QueueHandler :=
  list_to_map (prod_map id (λ q, mkHandler q []) <$> qs).

Lemma Device_activate_ok during qs : ∀ dv img,
  device_ok dv img → (∀ t, dv_thread dv = Some t → th_running t = true) → Forall (idle gm) qs.*2 → NoDup qs.*1 →
  (∀ i, i ∈ qs.*1 → handlers_of dv !! i = None) →
  (∃ dv', Device_activate n gm during qs dv = (Returns (), dv') ∧ device_ok dv' img ∧ handlers_of dv' = new_handlers qs ∪ handlers_of dv) ∨
  (∃ dv', Device_activate n gm during qs dv = (Aborts, dv') ∧ dv_thread dv = None ∧ refuses dv).
Proof using All.
  induction qs as [|[i q] qs IH]; intros dv img Hdv Hr Hq Hnd Hni; cbn [Device_activate].
  { left. exists dv. split; [done|]. split; [done|]. unfold new_handlers. cbn. by rewrite (left_id_L ∅ (∪)). }
  apply Forall_cons in Hq as [Hq Hqs]. apply NoDup_cons in Hnd as [Hi Hnd].
  destruct (start_queue_ok during dv img i q Hdv Hr Hq) as [(dv1 & Hrun & Hdv1 & (t & Et & Er) & Hh)|(dv1 & Hrun & Hn & Href)].
  - apply Hni. apply list_elem_of_here.
  - rewrite (bind_returns _ _ _ _ _ Hrun). destruct (IH dv1 img Hdv1) as [(dv2 & Hrun2 & Hdv2 & Hh2)|(dv2 & _ & Hn & _)].
    + intros t' Et'. by simplify_eq.
    + done.
    + done.
    + intros j Hj. rewrite Hh, lookup_insert_ne by (intros ->; done). apply Hni. by apply list_elem_of_further.
    + left. exists dv2. split; [done|]. split; [done|]. rewrite Hh2, Hh. unfold new_handlers. cbn.
      rewrite <- insert_union_r, insert_union_l; [done|]. apply not_elem_of_list_to_map_1.
      rewrite <- list_fmap_compose. exact Hi.
    + by rewrite Et in Hn.
  - right. exists dv1. split; [|done]. unfold mbind, prog_bind. by rewrite Hrun.
Qed.

End device.
