(* ===== verification/BlockExamples.v ===== *)
(** * Examples of the block device

    A host with files in memory and what of them is on the storage, with the system
    calls of [HostFiles] and [HostAsync] and a timer and a tube.  A call moves at
    most [ah_limit] bytes, the next [ah_waits] transfers find their file not ready,
    and every other kind of call can be made to fail.  The host keeps the laws that
    the theorems about block devices assume.

    Then those theorems applied to a composite disk of two files of a sector each, on
    such a host, and to a queue of four descriptors. *)

From stdpp Require Import gmap sorting.
From S2P Require Import Prelude StdIo Checked Bits GuestMemory DescriptorUtils StreamFacts DiskFile DiskFacts.
From S2P Require Import SparseImage CompositeDisk AsyncDisk AsyncFacts ToyHost BlockDevice BlockSpec.
From S2P Require Import BlockWorker BlockRun GuestMemoryFacts DescriptorChain ChainFacts SplitQueue PackedQueue.
From S2P Require Import SplitFacts DeviceExamples QueueExamples CompositeFacts AsyncComposite AsyncDepth.
From S2P Require Import BlockFacts BlockServe BlockControl BlockConfig BlockLife.

Record ahost := mkStorage {
  ah_files : store;
  ah_durable : store;
  ah_waits : nat;
  ah_limit : u64;
  ah_broken : bool;
  ah_faults : nat
}.

Definition ah_contents (k : ahost) : store := filter small (ah_files k).

Lemma ah_contents_small k i data : ah_contents k !! i = Some data → lengthZ data < 2 ^ 63.
Proof. unfold ah_contents. intros [_ Hs]%map_lookup_filter_Some. done. Qed.

Definition ah_set_files (σ : store) (k : ahost) : ahost :=
  mkStorage σ (ah_durable k) (ah_waits k) (ah_limit k) (ah_broken k) (ah_faults k).

(** A call on a file that fails. *)
Definition ah_fault (k : ahost) : ahost :=
  mkStorage (ah_files k) (ah_durable k) (ah_waits k) (ah_limit k) (ah_broken k) (S (ah_faults k)).

(** A change of one file. *)
Definition ah_update {A} (f : File) (g : list u8 → list u8) (a : A) : prog ahost io_error A := λ k,
  match ah_contents k !! f_inode f with
  | None => (Throws (OsError 9), ah_fault k)
  | Some data =>
      if f_writable f && (lengthZ (g data) <? 2 ^ 63)
      then (Returns a, ah_set_files (<[f_inode f := g data]> (ah_files k)) k)
      else (Throws (OsError 27), ah_fault k)
  end.

(** A call that waits for its file. *)
Definition ah_ready {A} (m : prog ahost io_error A) : prog ahost io_error A := λ k,
  match ah_waits k with
  | S n => (Throws (OsError 11), mkStorage (ah_files k) (ah_durable k) n (ah_limit k) (ah_broken k) (ah_faults k))
  | O => m k
  end.

Definition ah_moved (k : ahost) (n : Z) : Z := Z.min n (Z.min (2 ^ 32) (Z.max 1 (ah_limit k))).

Definition ah_pread (f : File) (n off : Z) : prog ahost io_error (list u8) := λ k,
  if off <? 0 then (Throws (OsError 22), ah_fault k) else
  match ah_contents k !! f_inode f with
  | None => (Throws (OsError 9), ah_fault k)
  | Some data => (Returns (takeZ (ah_moved k n) (dropZ off data)), k)
  end.

Definition ah_pwrite (f : File) (bs : list u8) (off : Z) : prog ahost io_error u64 := λ k,
  if off <? 0 then (Throws (OsError 22), ah_fault k) else
  let m := ah_moved k (lengthZ bs) in
  ah_update f (λ data, overwrite data off (takeZ m bs)) (U64 m) k.

(** Zeros as wide as the file goes. *)
Definition ah_fallocate (f : File) (mode : FallocateMode) (off len : Z) : prog ahost io_error () := λ k,
  if ah_broken k then (Throws (OsError 95), k) else
  match mode with
  | Allocate => ah_update f (λ data, data ++ zeros (off + len - lengthZ data)) () k
  | _ => ah_update f (λ data, zeroed data off len) () k
  end.

Definition ah_fsync (f : File) : prog ahost io_error () := λ k,
  if ah_broken k then (Throws (OsError 5), k) else
  (Returns (), mkStorage (ah_files k) (partial_alter (λ _, ah_contents k !! f_inode f) (f_inode f) (ah_durable k))
                 (ah_waits k) (ah_limit k) (ah_broken k) (ah_faults k)).

Definition ah_call : prog ahost io_error () := λ k, if ah_broken k then (Throws (OsError 5), k) else (Returns (), k).

#[global] Instance ahost_HostFiles : HostFiles ahost := {|
  contents := ah_contents;
  signals := ah_waits;
  faults := ah_faults;
  pread f n off := ah_pread f n off;
  pwrite := ah_pwrite;
  lseek _ pos k := if (0 <=? pos) && (pos <? 2 ^ 63) then (Returns (), k) else (Throws (OsError 22), ah_fault k);
  lseek_end f k :=
    match ah_contents k !! f_inode f with
    | None => (Throws (OsError 9), ah_fault k)
    | Some data => (Returns (U64 (lengthZ data)), k)
    end;
  ftruncate f len := ah_update f (λ data, takeZ len data ++ zeros (len - lengthZ data)) ()
|}.

#[global] Instance ahost_HostAsync : HostAsync ahost := {|
  durable := ah_durable;
  preadv64 f sizes off := ah_ready (ah_pread f (sum_sizesZ sizes) off);
  pwritev64 f bufs off := ah_ready (ah_pwrite f (concat bufs) off);
  fallocate64 := ah_fallocate;
  sys_fsync := ah_fsync;
  sys_fdatasync := ah_fsync;
  ioctl_blkdiscard _ _ _ := throw (OsError 25);
  is_block_file _ := mret false;
  async_from _ := ah_call;
  wait_readable _ := ah_call;
  wait_writable _ := ah_call
|}.

#[global] Instance ahost_HostTimer : HostTimer ahost := {| timer_reset _ := ah_call; timer_clear := ah_call |}.
#[global] Instance ahost_HostTube : HostTube ahost := {|
  tube_send _ k := if ah_broken k then (Throws (), k) else (Returns (), k)
|}.

(** ** Laws *)

Lemma ah_moved_bounds k n : 0 <= n → 0 <= ah_moved k n <= n ∧ ah_moved k n < 2 ^ 64 ∧ (0 < n → 0 < ah_moved k n).
Proof. intros Hn. unfold ah_moved. lia. Qed.

Lemma ah_update_law {A} f g (a : A) k r k' :
  ah_update f g a k = (r, k') →
  match r with
  | Returns x => x = a ∧ ah_waits k' = ah_waits k ∧ ah_faults k' = ah_faults k ∧
      ∃ data, contents k !! f_inode f = Some data ∧ changes f k k' (g data)
  | Throws e => k' = ah_fault k ∧ (e = OsError 9 ∨ e = OsError 27)
  | Aborts => False
  end.
Proof.
  unfold ah_update. destruct (ah_contents k !! f_inode f) as [data|] eqn:Ed; [|intros [= <- <-]; auto].
  destruct (_ && _) eqn:Eb; intros [= <- <-]; [|auto]. apply andb_true_iff in Eb as [Ew El%Z.ltb_lt].
  split; [done|]. split; [done|]. split; [done|]. exists data. split; [done|].
  assert (contents (ah_set_files (<[f_inode f := g data]> (ah_files k)) k) = <[f_inode f := g data]> (contents k)) as Hc.
  { cbn. unfold ah_contents. cbn. by rewrite map_filter_insert_True. }
  split; [done|]. split; [exact Hc|]. intros i Hi Hcl. unfold clean in *. rewrite Hc, lookup_insert_ne by done. done.
Qed.

Lemma ah_pread_law f n off k r k' :
  0 <= n → ah_pread f n off k = (r, k') →
  match r with
  | Returns bs => k' = k ∧ 0 <= off ∧ lengthZ bs <= n ∧
      ∃ data, contents k !! f_inode f = Some data ∧ bs `prefix_of` dropZ off data ∧ (0 < n → off < lengthZ data → bs ≠ [])
  | Throws e => k' = ah_fault k ∧ (e = OsError 22 ∨ e = OsError 9)
  | Aborts => False
  end.
Proof.
  intros Hn. unfold ah_pread. destruct (Z.ltb_spec off 0); [intros [= <- <-]; auto|].
  destruct (ah_contents k !! f_inode f) as [data|] eqn:Ed; intros [= <- <-]; [|auto]. split; [done|].
  destruct (ah_moved_bounds k n Hn) as (Hm & _ & Hpos). split; [done|]. split; [rewrite lengthZ_takeZ by lia; lia|].
  exists data. split; [done|]. split; [by exists (dropZ (ah_moved k n) (dropZ off data)); rewrite takeZ_dropZ|].
  intros Hn0 Hlt Hnil. apply (f_equal lengthZ) in Hnil.
  rewrite lengthZ_takeZ, lengthZ_dropZ in Hnil by lia. change (lengthZ []) with 0 in Hnil. lia.
Qed.

Lemma ah_pwrite_law f bs off k r k' :
  ah_pwrite f bs off k = (r, k') →
  match r with
  | Returns m => ah_waits k' = ah_waits k ∧ ah_faults k' = ah_faults k ∧
      0 <= off ∧ m <= lengthZ bs ∧ (bs ≠ [] → 0 < m) ∧
      ∃ data, contents k !! f_inode f = Some data ∧ changes f k k' (overwrite data off (takeZ m bs))
  | Throws e => k' = ah_fault k ∧ error_kind e ≠ Interrupted ∧ would_block e = false
  | Aborts => False
  end.
Proof.
  unfold ah_pwrite. destruct (Z.ltb_spec off 0); [by intros [= <- <-]|]. intros E.
  apply ah_update_law in E. destruct r as [m|e|]; [|by destruct E as [-> [-> | ->]]|done].
  destruct E as (-> & Hw & Hnf & data & Hd & Hch). pose proof (lengthZ_nonneg bs) as Hl.
  destruct (ah_moved_bounds k (lengthZ bs) Hl) as (Hm & Hlt & Hpos).
  assert (uval (U64 (ah_moved k (lengthZ bs))) = ah_moved k (lengthZ bs)) as -> by (apply uval_to_uint_small; cbn [Z.of_N]; lia).
  split; [done|]. split; [done|]. split; [done|]. split; [lia|]. split; [|by exists data].
  intros Hne. apply Hpos. destruct bs as [|b bs]; [done|]. rewrite lengthZ_cons. pose proof (lengthZ_nonneg bs). lia.
Qed.

Lemma ah_call_law k r k' : ah_call k = (r, k') → k' = k ∧ r ≠ Aborts.
Proof. unfold ah_call. by destruct (ah_broken k); intros [= <- <-]. Qed.

Lemma ah_fault_fails e k : error_kind e ≠ Interrupted → fails e k (ah_fault k).
Proof. intros He. split; [done|]. left. cbn. lia. Qed.

#[global] Instance ahost_HostLaws : HostLaws ahost.
Proof.
  split.
  - intros f n off k r k' E. apply ah_pread_law in E; [|apply uint_range].
    destruct r as [bs|e|]; [|destruct E as [-> He]|done].
    + destruct E as (-> & Hoff & Hl & data & E). split_and!; [done..|]. by exists data.
    + split_and!; [done..|]. apply ah_fault_fails. by destruct He as [-> | ->].
  - intros f bs off k r k' E. apply ah_pwrite_law in E. destruct r as [m|e|]; [|destruct E as [-> [He _]]|done].
    + destruct E as (Hw & Hnf & Hoff & Hm & Hpos & data & Hd & Hf & Hc & _). cbn [signals ahost_HostFiles]. rewrite Hw.
      split_and!; [done..| |by exists data]. intros Hz Hne. specialize (Hpos Hne). lia.
    + split_and!; [done..|by apply ah_fault_fails].
  - intros f pos k r k'. cbn. destruct (_ && _) eqn:Eb; intros [= <- <-]; [|split_and!; [done..|cbn; lia]].
    apply andb_true_iff in Eb as [Ea%Z.leb_le Eb%Z.ltb_lt]. done.
  - intros k i data. apply ah_contents_small.
  - intros f k r k'. cbn.
    destruct (ah_contents k !! f_inode f) as [data|] eqn:Ed; intros [= <- <-]; [|split_and!; [done..|cbn; lia]].
    split_and!; [done..|]. exists data. split; [done|]. pose proof (ah_contents_small _ _ _ Ed).
    pose proof (lengthZ_nonneg data). apply uval_to_uint_small. cbn [Z.of_N]. lia.
Qed.

Lemma sum_sizesZ_nonneg l : 0 <= sum_sizesZ l.
Proof. induction l as [|n l IH]; cbn; [done|]. pose proof (uint_range n). lia. Qed.

Lemma ah_fsync_law f k r k' :
  ah_fsync f k = (r, k') →
  quiet k k' ∧ match r with Returns _ => clean k' (f_inode f) | Throws _ => True | Aborts => False end.
Proof.
  unfold ah_fsync. destruct (ah_broken k); intros [= <- <-]; [done|].
  assert (∀ n, clean (mkStorage (ah_files k) (partial_alter (λ _, ah_contents k !! f_inode f) (f_inode f) (ah_durable k))
    n (ah_limit k) false (ah_faults k)) (f_inode f)) as Hcl by (intros n; unfold clean; cbn; by rewrite lookup_partial_alter_eq).
  split; [|apply Hcl]. split; [done|]. intros i Hi. destruct (decide (i = f_inode f)) as [->|Hne]; [apply Hcl|].
  unfold clean in *. cbn in *. by rewrite lookup_partial_alter_ne.
Qed.

#[global] Instance ahost_HostAsyncLaws : HostAsyncLaws ahost.
Proof.
  split.
  - intros f k r k' [-> Hr]%ah_call_law. done.
  - intros f k r k' [-> Hr]%ah_call_law. done.
  - intros f sizes off k r k'. cbn [preadv64 ahost_HostAsync]. unfold ah_ready. destruct (ah_waits k) as [|n] eqn:Ew.
    + intros E. apply ah_pread_law in E; [|apply sum_sizesZ_nonneg].
      destruct r as [bs|e|]; [by destruct E as (-> & ?)| |done]. by destruct E as (-> & [-> | ->]).
    + intros [= <- <-]. split; [done|]. intros _. cbn. lia.
  - intros f bufs off k r k'. cbn [pwritev64 ahost_HostAsync]. unfold ah_ready. destruct (ah_waits k) as [|n] eqn:Ew.
    + intros E. apply ah_pwrite_law in E. destruct r as [m|e|]; [|destruct E as [-> He]|done].
      * by destruct E as (_ & _ & Hoff & Hm & Hpos & Hd).
      * split; [done|]. destruct He as [_ ->]. done.
    + intros [= <- <-]. split; [done|]. intros _. cbn. lia.
  - intros f bs off k r k' E. apply ah_pwrite_law in E. destruct r as [m|e|]; [|destruct E as [-> He]|done].
    + by destruct E as (_ & _ & Hoff & Hm & Hpos & Hd).
    + split; [done|]. destruct He as [_ ->]. done.
  - intros f mode off len k r k'. cbn [fallocate64 ahost_HostAsync]. unfold ah_fallocate.
    destruct (ah_broken k); [by intros [= <- <-]|].
    destruct mode; intros E; apply ah_update_law in E; destruct r as [[]|e|]; try done;
      first [by destruct E as (_ & _ & _ & E)|by destruct E as [-> _]].
  - intros f len k r k' E. apply ah_update_law in E. destruct r as [[]|e|]; [by destruct E as (_ & _ & _ & E)|by destruct E as [-> _]|done].
  - by intros f off len k r k' [= <- <-].
  - intros f k r k'. apply ah_fsync_law.
  - intros f k r k'. apply ah_fsync_law.
  - by intros f k r k' [= <- <-].
  - intros f k r k' [-> Hr]%ah_call_law. done.
  - intros f k r k'. cbn. by destruct (ah_contents k !! f_inode f); intros [= <- <-].
Qed.

#[global] Instance ahost_HostTimerLaws : HostTimerLaws ahost.
Proof. split; [intros n|]; intros k r k' [-> Hr]%ah_call_law; done. Qed.

#[global] Instance ahost_HostTubeLaws : HostTubeLaws ahost.
Proof. intros x k r k'. cbn. by destruct (ah_broken k); intros [= <- <-]. Qed.

(** ** The disk *)

Definition first_file : list u8 := replicate 512 (U8 1).
Definition second_file : list u8 := replicate 512 (U8 2).
Definition two_files : store := <[1 := first_file]> (<[2 := second_file]> ∅).

Definition two_host (limit : Z) : ahost := mkStorage two_files two_files 1 (U64 limit) false 0.

Definition two_disk : async_disk 2 :=
  AsyncComposite (mkComposite
    [mkPart (AsyncRaw (mkSingle (mkFile 1 true) false)) (U64 0) (U64 512) false;
     mkPart (AsyncRaw (mkSingle (mkFile 2 true) false)) (U64 512) (U64 512) false]).

Definition two_image : list u8 := first_file ++ second_file.

Definition two_state : DiskState (async_disk 2) :=
  mkDiskState two_disk false true (Some (replicate 20 (U8 65))) (U64 1024).

(** Bytes that can be checked one by one. *)
Fixpoint shows_check {D} `{DiskView D} (σ : store) (d : D) (off : Z) (bs : list u8) : bool :=
  match bs with
  | [] => true
  | b :: bs => bool_decide (disk_byte σ d off = Some b) && shows_check σ d (off + 1) bs
  end.

Lemma shows_check_shows {D} `{DiskView D} (σ : store) (d : D) bs : ∀ off,
  shows_check σ d off bs = true → shows σ d off bs.
Proof.
  induction bs as [|b bs IH]; intros off; [by intros _ i b|]. cbn [shows_check].
  intros [Hb%bool_decide_eq_true_1 Hr]%andb_true_iff [|i] c; cbn.
  - intros [= <-]. by rewrite Z.add_0_r.
  - intros Hc. apply (IH _ Hr) in Hc. by replace (off + Z.of_nat (S i)) with (off + 1 + Z.of_nat i) by lia.
Qed.

Lemma two_disk_ok : disk_ok two_disk.
Proof.
  split; [by repeat constructor|]. split; [done|].
  intros [|[|i]] [|[|j]] p q Hne; cbn; intros Hp Hq; simplify_eq; try done; cbn; set_solver.
Qed.

Lemma two_represents limit : represents (two_host limit) two_state two_image.
Proof.
  split; [exact two_disk_ok|]. split; [|done]. apply shows_check_shows. by vm_compute.
Qed.

Lemma two_id : id_ok two_state.
Proof. by intros id [= <-]. Qed.

Lemma two_flushable limit : flushable (two_host limit) (disk_image two_state).
Proof.
  intros i _. left. unfold clean. f_equal.
Qed.

(** ** Requests *)

Definition header_bytes (t sector : Z) : list u8 := le_split 4 t ++ le_split 4 0 ++ le_split 8 sector.

(** A sector of sevens is written across no boundary, and one of the status. *)
Definition write_memory : host := filled [(0x1000, header_bytes 1 1); (0x2000, replicate 512 (U8 7))].

Definition write_request : Request ahost (async_disk 2) :=
  mkRequest (two_host 100) two_state false write_memory
    (DescriptorChainRegions_new [MkMemRegion (U64 0x1000) (U64 16); MkMemRegion (U64 0x2000) (U64 512)])
    (DescriptorChainRegions_new [MkMemRegion (U64 0x3000) (U64 1)]).

Lemma write_request_ok : request_ok small_memory write_request two_image.
Proof.
  split; [apply two_represents|]. split; apply new_stream_ok; try done; repeat constructor; by apply small_fits.
Qed.

Lemma request_refines_step_witness :
  ∃ r reply fault img' s', process_one_request small_memory write_request = (Returns (U64 (room write_request)), s') ∧
    blk_step (config_of two_state) two_image (sent small_memory write_request) 0 r reply fault img' ∧
    represents (rq_kernel s') (rq_state s') img'.
Proof.
  destruct (request_refines_step small_memory small_memory_ok write_request two_image)
    as (r & reply & fault & img' & s' & Hrun & Hst & _ & Hrep & _).
  - exact write_request_ok.
  - exact two_id.
  - by eexists.
  - done.
  - exists r, reply, fault, img', s'. split; [exact Hrun|]. split; [exact Hst|exact Hrep].
Defined.

(** The write takes effect, the timer is armed, and the file waits for a flush. *)
Example write_request_run :
  let '(r, s) := process_one_request small_memory write_request in
  r = Returns (U64 1) ∧ guest_byte small_memory (rq_host s) 0x3000 = Some VIRTIO_BLK_S_OK ∧
  contents (rq_kernel s) !! 2 = Some (replicate 512 (U8 7)) ∧ durable (rq_kernel s) !! 2 = Some second_file ∧
  rq_armed s = true.
Proof. by vm_compute. Qed.

(** ** A worker *)

Definition start_worker_state (limit : Z) : Worker ahost (async_disk 2) :=
  mkWorker (mkShared (two_host limit) two_state false (MkWorld blank []) 0) ∅.

Lemma start_state_ok limit : worker_ok small_memory (start_worker_state limit) two_image.
Proof. split; [apply two_represents|exact two_id|apply map_Forall_empty]. Qed.

Lemma ring_idle : idle small_memory (SplitVirtQueue ring_queue).
Proof.
  exists ring_queue. split; [done|]. split; [exact ring_queue_ok|]. split; [|done]. intros x Hx. change (0x400 <= x < 0x400 + 6 + 8 * 4) in Hx.
  change (¬ (0x200 <= x < 0x200 + 6 + 2 * 4) ∧ ¬ (0 <= x < 0 + 16 * 4)). lia.
Qed.

(** A write from descriptors 0 to 2, then a flush from 3 and 2. *)
Definition requests_memory : host :=
  filled [(0, desc_bytes 0x1000 16 1 1); (16, desc_bytes 0x2000 512 1 2); (32, desc_bytes 0x3000 1 2 0);
          (48, desc_bytes 0x1100 16 1 2); (0x200, le_split 2 0); (0x202, le_split 2 2);
          (0x204, le_split 2 0 ++ le_split 2 3);
          (0x1000, header_bytes 1 1); (0x1100, header_bytes 4 0); (0x2000, replicate 512 (U8 7))].

Definition requests_schedule : list worker_event :=
  [WorkerCommand (Some (StartQueue 0 (SplitVirtQueue ring_queue))) []; Handlers (GuestWrites requests_memory);
   Handlers (QueueEvent 0 true); CommandReceived (Some (U64 4096)); TimerFires true; Handlers (TaskRuns 0 1);
   WorkerCommand (Some (StopQueue 0)) [QueueEvent 0 true; TaskRuns 0 0]; WorkerCommand (Some (StopQueue 1)) []; Killed].

Lemma worker_refines_device_witness :
  (∃ o W' fault img', run_worker small_memory requests_schedule (start_worker_state 100) = (o, W') ∧ o ≠ Aborts ∧
    dev_steps small_memory (start_worker_state 100) two_image fault W' img' ∧ worker_ok small_memory W' img') ∨
  shrink_cut small_memory requests_schedule (start_worker_state 100) two_image.
Proof.
  destruct (worker_refines_device small_memory small_memory_ok requests_schedule (start_worker_state 100) two_image)
    as [(o & W' & fault & img' & Hrun & Hna & Hst & HW & _)|Hcut].
  - apply start_state_ok.
  - repeat constructor. exact ring_idle.
  - left. exists o, W', fault, img'. split; [exact Hrun|]. split; [exact Hna|]. split; [exact Hst|exact HW].
  - right. exact Hcut.
Defined.

(** Both requests are completed, one of them while the queue is stopped. *)
Example requests_run :
  let '(r, W) := run_worker small_memory requests_schedule (start_worker_state 100) in
  match r with Returns [Some (SplitVirtQueue q); None] => bool_decide (sq_next_used q = U16 2) | _ => false end = true ∧
  guest_byte small_memory (w_host (sh_world (wk_shared W))) 0x3000 = Some VIRTIO_BLK_S_OK ∧
  contents (sh_kernel (wk_shared W)) !! 2 = Some (replicate 512 (U8 7)).
Proof. by vm_compute. Qed.

(** A packed queue whose driver cuts a chain short stops the worker with a panic. *)
Example packed_worker_panics :
  (run_worker small_memory
     [WorkerCommand (Some (StartQueue 0 (PackedVirtQueue packed_queue))) []; Handlers (GuestWrites cut_memory);
      Handlers (QueueEvent 0 true); Handlers (TaskRuns 0 0)] (start_worker_state 100)).1 = Aborts.
Proof. by vm_compute. Qed.

Definition flush_chain : DescriptorChain :=
  MkChain (U16 3) (DescriptorChainRegions_new [MkMemRegion (U64 0x1100) (U64 16)])
    (DescriptorChainRegions_new [MkMemRegion (U64 0x3000) (U64 1)]) None (U16 2).

Lemma flush_chain_ready : chain_ready small_memory (U16 4) flush_chain.
Proof.
  split; [|by eexists]. split; try done; apply new_stream_ok; try done; repeat constructor; by apply small_fits.
Qed.

Definition flush_worker : Worker ahost (async_disk 2) :=
  mkWorker (mkShared (two_host 100) two_state false (MkWorld requests_memory []) 0) ∅.

Lemma flush_makes_durable_witness :
  ∃ n s', process_one_request small_memory (request_of flush_chain (wk_shared flush_worker)) = (Returns n, s') ∧
    (guest_byte small_memory (rq_host s') 0x3000 = Some VIRTIO_BLK_S_OK →
     shows (durable (rq_kernel s')) (disk_image (rq_state s')) 0 two_image).
Proof.
  apply (flush_makes_durable small_memory small_memory_ok (start_worker_state 100) two_image flush_worker two_image
    flush_chain (U16 4) 0x3000).
  - apply start_state_ok.
  - apply two_flushable.
  - apply dev_once, (dev_guest small_memory (start_worker_state 100)).
  - exact flush_chain_ready.
  - by vm_compute.
  - done.
Defined.

(** ** The device *)

Definition small_image : disk 2 := RawDisk (mkFile 1 true).

Lemma block_new_spec_witness :
  ∃ b, BlockAsync_new (U64 1024) true (base_features false) DiskOption_default (Some (U16 64)) None (two_host 100, small_image) =
      (Returns b, (two_host 100, small_image)) ∧
    described (U64 1024) true (base_features false) DiskOption_default (U16 64) (U16 16) small_image (U64 512) b.
Proof.
  pose proof (block_new_spec (U64 1024) true (base_features false) DiskOption_default (Some (U16 64)) None (two_host 100) small_image)
    as Hnew.
  assert (get_len (two_host 100, small_image) = (Returns (U64 512), (two_host 100, small_image))) as Hlen by (by vm_compute).
  rewrite Hlen in Hnew. destruct Hnew as (_ & _ & Hok). apply Hok. by exists 6.
Defined.

(** The features that the tests of the device expect. *)
Example default_features :
  let features o := uval (build_avail_features (base_features false) (do_read_only o) (do_sparse o) true false) in
  features DiskOption_default = 0x120007244 ∧
  features (mkDiskOption false false (U32 512) None false false) = 0x120005244 ∧
  features (mkDiskOption true true (U32 512) None false false) = 0x120001064.
Proof. by vm_compute. Qed.

(** The block size 0 is a multiple of a sector, and the queue size 1 a power of two. *)
Example new_panics :
  (BlockAsync_new (U64 1024) true (base_features false) (mkDiskOption false true (U32 0) None false false) None None
     (two_host 100, small_image)).1 = Aborts ∧
  (BlockAsync_new (U64 1024) true (base_features false) DiskOption_default (Some (U16 1)) None (two_host 100, small_image)).1 = Aborts.
Proof. by vm_compute. Qed.

Definition two_block : BlockAsync (disk 2) :=
  mkBlock None (U64 1024) (base_features false) false true (U32 254) (U32 512) (Some (replicate 20 (U8 65)))
    (replicate 16 (U16 256)) false.


(** The flush of the example is pending when the device is put to sleep. *)
Definition busy_queue : SplitQueue := set_next_avail (U16 1) ring_queue.

Definition busy_device : @Device ahost 2 :=
  mkDevice two_block (Some (mkThread true two_state false 0 {[0%nat := mkHandler (SplitVirtQueue busy_queue) [flush_chain]]})) {[0%nat]}
    (two_host 100) (MkWorld requests_memory []).

Lemma busy_device_ok : device_ok 2 small_memory busy_device two_image.
Proof.
  split; [|cbn; by rewrite dom_singleton_L]. split; [|done]. constructor; [apply two_represents|exact two_id|].
  apply map_Forall_singleton. destruct ring_idle as (q & [= <-] & Hq & Ha & _). exists busy_queue. split; [done|]. constructor.
  - destruct Hq. by constructor.
  - exact Ha.
  - apply Forall_singleton. exact flush_chain_ready.
  - by vm_compute.
Qed.

(** The queue gets an event while it is stopped. *)
Definition busy_events (_ : nat) : list handler_event := [QueueEvent 0 true].

